(* ===== verification/_CoqProject ===== *)
-Q . S2P
Prelude.v
F64.v
Units.v
Emission.v
Serial.v
Zkas.v
ZkasBinary.v
ZkasCompile.v
ZkasDecode.v
ZkasAnalyzer.v
ZkasParser.v
ZkasFront.v
ZkVm.v
ZkSemantics.v
ZkCorrect.v
ZkExample.v
ZkGadget.v
ZkSound.v
ZkCompare.v
ZkField.v
Smt.v
SmtGadget.v
Externals.v
Transaction.v
Merkle.v
Block.v
Store.v
FeeEstimator.v
DarkTree.v
CallTrees.v
Competing.v
Consensus.v
NativeToken.v
TokenParams.v
FeeWindow.v
ContractRisk.v
Supply.v
Pedersen.v
CoreTx.v
TokenUpdates.v
L1Contracts.v
TokenContract.v
ZkVerifier.v
TokenState.v
TokenRuns.v
TokenFlows.v
TokenBalance.v
TokenExample.v
Nullifiers.v
TokenGaps.v
Mempool.v
Validation.v
Finality.v
Schedule.v
ChainState.v
Overlay.v
Executor.v
Backend.v
Execution.v
Ledger.v
Acceptor.v
Accepted.v
Reorgs.v
Undo.v
AcceptExample.v
SyncWire.v
Sync.v
SyncRuns.v
GenesisVote.v
SyncExample.v
Executions.v
ExecutionExample.v
Restart.v
Maturity.v
Difficulty.v
