(* ===== verification/Prelude.v ===== *)
(** * A verified model of the DarkWow consensus core

    DarkWow is a proof-of-work chain with uncle blocks, a tail emission,
    shielded payments and smart contracts.  This library models the parts of
    the node that decide what a valid block is, what it pays, what a
    transaction spends and what the pool holds: the crates [src/linear]
    (blocks, consensus, validation, store, chain state, fee windows, contract
    risk, finality, nullifiers, schedule, token balance, execution, proofs,
    synchronisation), [src/serial] (wire format), [src/sdk] (units, emission,
    commitments, call trees), [src/tx] (signed transactions), the native token
    contract and the parameter decoders of the other built-in contracts under
    [src/contract], [crates/dwow-mempool], and of the daemon [bin/dwowd] the
    block acceptor and the synchronisation task.  It also models how circuits
    come about: the compiler [src/zkas], the machine and the gadgets of
    [src/zk], and the sparse Merkle trees of [src/sdk].

    ** How the parts interact

    A transaction is a list of contract calls with the nullifiers it declares.
    The mempool measures it, derives the nullifiers its calls spend, compares
    them with the declaration and admits it; block assembly selects from the
    pool.  A block carries transactions, uncles and a reward split; validation
    checks its header against the difficulty the consensus component derives
    from the chain, its timestamp against the median rule, its uncles, and its
    structure (one coinbase, in front, with the amounts its parameters declare).
    The chain state puts these together: it checks a block that extends the tip,
    commits it to the store with its nullifiers, commitments, supply entry and
    fee window, keeps siblings aside as possible uncles, and takes blocks off
    again when another branch wins, unless an anchor made them final.  The store
    keeps everything as byte strings written with the serialization library; the
    schedule groups the calls of a block into waves.  The acceptor is the only
    way onto the chain: it checks structure, uncles, token balance, proof of
    work, witnesses and rewards, executes the block, derives the supply again
    from the coinbase and commits.  Execution runs the calls against an overlay
    of the contracts tree, meters them, and verifies the proofs and signatures
    of every transaction against what its contracts declare; the native token
    contract checks every call against its databases and writes what it spends,
    mints and pays.  A heavier branch makes the acceptor take blocks off, with
    the undo record of each, and accept the others; the synchronisation task
    pulls blocks from peers into the acceptor and asks for such a switch when a
    peer's chain carries more work.

    The proofs a transaction carries are about circuits.  A circuit is a source
    file: the lexer and the parser make a syntax tree of it, the analyzer types
    it and moves nested calls into statements of their own, the compiler writes
    a binary, and prover and verifier decode the binary and let the machine lay
    it out as constraints, opcode by opcode, through the gadgets.  Membership in
    a set is proved against the root of a sparse Merkle tree a contract keeps.

    ** Files

    - [Prelude]: results with early return ([let?]), unsigned machine integers
      at their width, little-endian byte lists, sums, and the tactics
      [inv_result] and [bool_facts] every file uses.
    - [Units]: the newtypes of [src/sdk/src/blockchain.rs], one module each
      ([BlockHeight], [BlockReward], [BlockTarget], [FeeAmount], [FeeTier],
      [RiskFactor], ...), with their wrapping, checked and saturating operations.
    - [Emission]: [expected_reward], its fixed-point exponentiation and
      [expected_cumulative_supply] of the same source file.
    - [Serial]: [src/serial]: endian helpers, the [Encodable] and [Decodable]
      implementations as a record [codec], the vector length policy, and the
      classes [CodecOk] and [CodecCanonical] that carry the two round trips.
    - [Zkas], [ZkasParser], [ZkasAnalyzer], [ZkasBinary]: [src/zkas]: types,
      opcodes, syntax tree and limits; lexer, parser and the chain of stages of
      [bin/zkas]; type analysis; compiler and decoder.  [ZkasCompile],
      [ZkasDecode] and [ZkasFront] hold their theorems.
    - [ZkVm]: [synthesize] of [src/zk/vm.rs], with the chips of the proof system
      as a class; [ZkSemantics] is a reference semantics of sources, [ZkCorrect]
      the correctness of the whole chain, [ZkExample] sources at work.
    - [ZkGadget]: the gates of [src/zk/gadget] and [BaseDiv]; [ZkSound],
      [ZkCompare] and [ZkField] say what they force.
    - [Smt] and [SmtGadget]: [src/sdk/src/crypto/smt] and the membership gadget
      [src/zk/gadget/smt.rs].
    - [Externals]: the class of what comes from third-party crates (hash
      functions, field and curve encodings, contract identifiers, the Monero
      data of merge-mined blocks, in-memory sizes), and a concrete instance
      [toy] for the witnesses.
    - [Transaction]: [src/linear/src/transaction.rs], its storage codec and
      identity hash, and the call classification of
      [src/sdk/src/mass_balance_call_data.rs].
    - [Merkle] and [Block]: [src/linear/src/block.rs] and the codecs of
      [serial_sync.rs]: layers, roots, proofs, the mining blob, uncles, the
      reward split and block creation; [LinearError].
    - [Store]: [src/linear/src/store.rs], sled trees as finite maps keyed by
      bytes with the order of their keys.
    - [Competing]: the pool of blocks beside the canonical chain, from
      [src/linear/src/chain_state.rs].
    - [Consensus]: [src/linear/src/consensus.rs], the difficulty controller,
      its persistence and the chain-derived target.
    - [NativeToken] and [L1Contracts]: the call parameters of the native token,
      promissory note, purse and box contracts ([src/contract/*/src/model]) and
      their function selectors.
    - [Nullifiers]: [src/linear/src/nullifiers.rs].
    - [Pedersen]: [src/sdk/src/crypto/pedersen.rs] over a curve with its laws.
    - [TokenParams] and [TokenUpdates]: what the decoders of call parameters
      return, and the state updates of [src/contract/native_token/src/model].
    - [TokenContract]: [src/contract/native_token/src/entrypoint/mod.rs]:
      initialization, metadata, checks and writes of every call, with the
      database operations of the host they use.
    - [TokenState], [TokenRuns], [TokenFlows]: the writes of an accepted call,
      sequences of calls, and the values behind the commitments.
    - [TokenBalance]: [src/linear/src/proof_of_token_balance.rs].
    - [TokenExample] and [TokenGaps]: a concrete run, and what the contract
      leaves unchecked.
    - [FeeEstimator]: [src/linear/src/fee_estimator.rs].
    - [DarkTree] and [CallTrees]: [src/sdk/src/dark_tree.rs], the trees of calls
      with their iterators and integrity checks, and their theorems.
    - [CoreTx] and [ZkVerifier]: [src/tx/mod.rs], the Schnorr signatures and
      hashes of [src/sdk/src/crypto] and [src/linear/src/zk_verifier.rs].
    - [Overlay] and [Executor]: the overlay of a tree the block in progress
      writes to, with its laws, and the interface an executor offers the node.
    - [Backend] and [Execution]: [src/linear/src/execution.rs], the backend a
      contract calls and the execution of a block; [Executions] proves what the
      acceptor relies on and makes it an instance of [Executor].
    - [Acceptor]: [bin/dwowd/src/block_acceptor.rs] and the genesis pin of
      [lib.rs]; [Accepted], [Reorgs] and [Undo] hold its theorems.
    - [SyncWire] and [Sync]: frames, serving, peers, the pull loop and the
      reorganisation of [sync_types.rs], [sync_connection.rs],
      [sync_boundary.rs], [linear_sync_client.rs] and [consensus_linear.rs];
      [SyncRuns] and [GenesisVote] hold their theorems.
    - [AcceptExample], [ExecutionExample] and [SyncExample]: concrete runs.
    - [F64]: binary64 arithmetic as the source uses it, on [SpecFloat].
    - [FeeWindow]: [src/linear/src/fee_window.rs]: congestion factors, fee
      formulas, snapshots and their persistence.
    - [ContractRisk]: [src/linear/src/contract_risk.rs] and [opcode_cost.rs].
    - [Supply]: [src/linear/src/supply_chain.rs].
    - [Mempool]: [crates/dwow-mempool/src/lib.rs].
    - [Validation]: [src/linear/src/validation.rs].
    - [Finality]: [src/linear/src/finality.rs] and the local verification of
      anchors in [caribina/verify.rs] and [caribina/data_item.rs].
    - [Schedule]: [src/linear/src/schedule.rs].
    - [ChainState]: the rest of [src/linear/src/chain_state.rs]: [connect_block]
      stage by stage ([connect_sibling], [connect_next], [connect_checks],
      [pre_commit_checks], [commit_block], [after_commit]), [disconnect_block],
      [detect_reorg] and start-up ([CChainState_new]).
    - [Ledger], [Restart], [Maturity], [Difficulty]: what the chain state
      guarantees: the abstract ledger it refines, what a restart recovers,
      the coinbase maturity rule, and the target the node requires.

    ** What the theorems show

    - Money: the reward split conserves the reward and never underflows, the
      pins of a validated uncle list stay within it, the emission schedule is
      antitone with an exact tail onset, and the saturating supply loop is the
      exact sum of rewards ([Block], [Validation], [Emission]).
    - Difficulty: one adjustment stays within ten per cent and within the
      limits, moves in the right direction, is the same in its two
      implementations, and the cached target is the target of the full walk
      ([Consensus]).
    - Validity: header, timestamp, uncle and structure checks accept exactly, or
      only, what their rules say ([Validation]).
    - Commitments: transaction hash, transaction root and uncle proofs bind what
      they claim to bind.  Hash functions are parameters, so these results end
      in "or two messages of this explicit list collide"; completeness of uncle
      proofs needs no such clause ([Transaction], [Merkle], [Block]).
    - Formats: the variable-length integer and the transaction codec are
      bijections, decoding never allocates more than the policy allows, stored
      blocks, headers, consensus state and call parameters are read back
      ([Serial], [Transaction], [Block], [Store], [Consensus], [NativeToken]).
    - Spending: reconciliation accepts exactly the declarations that cover what
      the calls spend ([Nullifiers]); the pool invariant holds in every state a
      pool reaches from an empty one without a reload, admission and refusal
      change exactly what they say, selection respects order and limits, and a
      restart recovers the pool ([Mempool]).
    - The chain: every state the node reaches represents a ledger that grew only
      by blocks that continue it; no nullifier is spent twice on it;
      disconnecting undoes connecting; a refused block leaves the ledger alone; a
      restart recovers the spent set; claims are not spent before they mature;
      and the live target is the one the stored chain requires when every block
      offered passes the uncle split and the maturity rule ([Ledger], [Restart],
      [Maturity], [Difficulty]).
    - Acceptance: whatever a new node is handed, by delivery, synchronisation or
      reorganisation, its chain is valid, every block of it passed the checks of
      the host, its supply is that of the schedule and its transactions were
      verified where they were executed; a reorganisation that succeeds does
      what it was asked, one that is restored leaves the chain as it was, the
      undo record gives the contracts tree back, and acceptance terminates
      ([Reorgs], [Undo], [Executions]).
    - Execution: a contract cannot tell the overlay from one tree; gas is the sum
      over the calls and below the limit; write sets are complete ([Backend],
      [Executions]); every declared proof is verified and bound to the calls, or
      two explicit messages collide, and signatures made by the keys verify ([ZkVerifier], [CoreTx]); the iterators
      of call trees are post-order and the integrity checks exact ([CallTrees]).
    - Synchronisation: a pass ends, catches up with honest peers whose blocks
      pass its filters, and switches
      chains only for more claimed work; the genesis vote is a plurality
      whatever the order of the answers; frames are read back ([SyncRuns],
      [GenesisVote], [SyncWire]).
    - The token: decoded parameters are well-formed; over any calls no nullifier
      is spent and no commitment made twice, the recorded commitment opens to
      the sum of the rewards paid, and the fee pot is neither lost nor
      multiplied; a transfer conserves every token and a balanced block the
      native one, for any openings, or the differences of the values and of the
      blinding factors are a relation between the two bases of the commitment
      scheme ([TokenParams], [TokenRuns], [TokenFlows],
      [TokenBalance]).
    - Fees, risk and finality: a window moves the congestion factors by at most
      ten per cent within their ceilings, announcement and application agree;
      risk factors stay in range whatever the order of evaluation; an anchor
      binds one block ([FeeWindow], [ContractRisk], [Finality]).
    - Circuits: analyzing, compiling, decoding and running a regular source
      within the limits lays out what the source means; binaries are read back
      when results are assigned and not read by their own assignment, and a
      decoded one is within its limits; a source that passes the checks compiles;
      the parser reads a call back unless a call before another argument ends in
      two nested calls ([ZkCorrect], [ZkasCompile], [ZkasDecode], [ZkasFront]).  The
      equality, selection, range and comparison gates are satisfied exactly by
      what they stand for, within stated bounds ([ZkSound], [ZkCompare]); the
      order of the field is proved prime ([ZkField]).
    - Sets: a sparse Merkle tree is the Merkle tree of the map of its leaves;
      the membership gadget accepts what the native verifier accepts, and a
      proof of membership is about the leaf the tree holds, or the prover's path
      and the tree's hash two different pairs of one height to the same value
      ([Smt], [SmtGadget]).
    - Scheduling: the loop ends, the waves partition the calls, a wave writes
      disjoint keys, and calls that share a key stand in block order when sharing
      is transitive ([Schedule]).  Nothing in the sources runs the waves.
    - Departures: some theorems state, on concrete or general inputs, where the
      code does not do what its documentation says: a target above 0.9 * 2^32
      wraps, a crawling clock freezes the difficulty, one uncle can be paid
      twice in a block or again in a later one, [get_height] is wrong from 256
      blocks on, one header field and the zero nullifier do not survive storage,
      the transaction root does not see a repeated last transaction, the
      schedule can put conflicting calls out of order, a pool can select a transaction
      twice, a restart can bring back a conflicting one, a late restore holds an
      uncle twice, a restart changes later risk factors, the flag that asks for
      finality is unauthenticated, a refused block makes a
      node require another target than its peers, a reorganization forgets
      immature claims, a coinbase can erase the record of a spend, a disconnect
      that fails late wedges the node, a transfer can spend one input twice, the
      amounts of fees and of their collection are not tied to the value that
      moves, a partial reorganisation is never undone, adopted blocks lose their
      uncles, a known sibling blocks a reorganisation, a forged extension moves
      a syncing node, silent peers open the mining gate, contracts cannot read
      the time of the last block, the division opcode does not divide, a
      comparison with an output can be proved false although it holds, and
      some sources compile to binaries that are refused, mean something else or
      panic when they are run.

    ** Conventions, bounds and fuel

    A [w]-bit integer is a [Z] with its range as a hypothesis where it matters,
    and plain arithmetic wraps as in the release profile.  Errors keep their
    constructor; the text of a message is shortened.  A mutex-protected method
    is one atomic step.  Recursion is structural wherever the loop is over a
    collection; elsewhere the fuel is: 64 rounds for the exponentiation (one
    per bit of the exponent, [Emission.fixed_pow_decay_total] shows it always
    returns), the length of the layer for the Merkle construction (every round
    halves it), the number of calls for the schedule (every round assigns
    one, [Schedule.schedule_partition]), and the number of entries for the
    byte-budget loop of the pool (every round removes one, [make_room_bytes_ok]).
    Acceptance and reorganisation call each other with a fuel of two, which
    [Reorgs.acceptance_terminates] shows is enough; the pull loop has one round
    per announced height ([SyncRuns.pull_terminates]); the fork walk is bounded
    by the source itself ([MAX_REORG_DEPTH]).  The parser and the decoder of
    circuits have one round per token or byte ([ZkasDecode.decoder_ends]), the
    flattening of nested calls the depth the source allows
    ([MAX_RECURSION_DEPTH]), a sparse tree one round per level.

    A gadget is the set of assignments its gates and lookups accept, over the
    integers below the order of the field; which columns and rows carry the
    cells is not part of the model.

    Operations of the chain state return the state with their result, since an
    error can leave it changed; they hold the connect lock and are one step each.
    Runs are sequences of such steps in any order ([Ledger.node_step]).

    ** Not modelled

    Failures of sled itself, the pools of RandomX machines and locks are left
    out of the chain state; logging, metrics, JSON, sockets, timeouts and the
    miner task out of the daemon.  The WASM engine, the proof system and the
    curve arithmetic are third-party code: the model takes them as parameters
    with the laws the code relies on; so are the curve, Poseidon and Sinsemilla
    chips of the circuits.  Of the circuit compiler, the interactive semantic
    analysis and the printing of errors are left out.  The network stack, the event graph, the
    RPC servers and the wallets are asynchronous input and output around the
    modelled operations. *)

From stdpp Require Export prelude gmap.
From Stdlib Require Export ZArith Lia Bool.

(** ** Results: Rust's [Result<T, E>] with the error first *)

Inductive result (E A : Type) : Type :=
| Ok (a : A)
| Err (e : E).
Arguments Ok {E A} _.
Arguments Err {E A} _.

Declare Scope rust_scope.
Delimit Scope rust_scope with rust.
Open Scope rust_scope.
Open Scope Z_scope.

(** [let? x := e in k] is [let x = e?; k]: an error returns early. *)
Notation "'let?' x := e 'in' k" :=
  (match e with Ok x => k | Err err => Err err end)
  (at level 10, x pattern, e at level 100, k at level 200) : rust_scope.

(** [ensure b e k] is [if !b { return Err(e) }; k]. *)
Definition ensure {E A : Type} (b : bool) (e : E) (k : result E A) : result E A :=
  if b then k else Err e.

Definition is_ok {E A : Type} (r : result E A) : bool :=
  match r with Ok _ => true | Err _ => false end.

Definition ok_or {E A : Type} (o : option A) (e : E) : result E A :=
  match o with Some a => Ok a | None => Err e end.

Lemma is_ok_inv {E A : Type} (r : result E A) : is_ok r = true -> exists a, r = Ok a.
Proof. destruct r; [eauto | discriminate]. Qed.

Lemma ensure_ok {E A : Type} (b : bool) (e : E) (k : result E A) (a : A) :
  ensure b e k = Ok a <-> b = true /\ k = Ok a.
Proof. unfold ensure. destruct b; naive_solver. Qed.

Lemma ok_or_ok {E A : Type} (o : option A) (e : E) (a : A) :
  ok_or o e = Ok a <-> o = Some a.
Proof. destruct o; naive_solver. Qed.

(** Case analysis on the [let?]s, [if]s and results of the hypotheses. *)
Ltac inv_result :=
  repeat match goal with
  | H : Err _ = Ok _ |- _ => discriminate H
  | H : Ok _ = Ok _ |- _ => injection H as H
  | H : (match ?e with Ok _ => _ | Err _ => _ end) = Ok _ |- _ =>
      let E := fresh "E" in destruct e eqn:E; [| discriminate H]
  | H : (if ?b then _ else _) = Ok _ |- _ =>
      let E := fresh "E" in destruct b eqn:E; try discriminate H
  | p : (_ * _)%type |- _ => destruct p
  end; simplify_eq.

(** Turn the boolean facts of a passed check into propositions. *)
Ltac bool_facts :=
  repeat match goal with
  | E : negb _ = true |- _ => apply negb_true_iff in E
  | E : negb _ = false |- _ => apply negb_false_iff in E
  | E : bool_decide _ = true |- _ => apply bool_decide_eq_true in E
  | E : bool_decide _ = false |- _ => apply bool_decide_eq_false in E
  | E : _ && _ = true |- _ => apply andb_true_iff in E as [? E]
  | E : _ || _ = false |- _ => apply orb_false_iff in E as [? E]
  end.

(** ** Unsigned machine integers

    A [w]-bit unsigned integer is a [Z] in [[0, 2^w)].  Plain Rust arithmetic
    on it wraps in the release profile ([wrap]); the [checked_], [saturating_]
    and [clamp] methods are the standard library's. *)

Definition is_u (w x : Z) : Prop := 0 <= x < 2 ^ w.
Abbreviation is_u8 := (is_u 8) (only parsing).
Abbreviation is_u32 := (is_u 32) (only parsing).
Abbreviation is_u64 := (is_u 64) (only parsing).
Abbreviation is_u128 := (is_u 128) (only parsing).

Definition umax (w : Z) : Z := 2 ^ w - 1.
Definition u8_max : Z := 255.
Definition u32_max : Z := 4294967295.
Definition u64_max : Z := 18446744073709551615.

Definition wrap (w x : Z) : Z := x mod 2 ^ w.
Definition checked (w x : Z) : option Z :=
  if (0 <=? x) && (x <? 2 ^ w) then Some x else None.
Definition checked_add (w a b : Z) : option Z := checked w (a + b).
Definition checked_sub (w a b : Z) : option Z := checked w (a - b).
Definition checked_mul (w a b : Z) : option Z := checked w (a * b).
Definition checked_div (a b : Z) : option Z := if b =? 0 then None else Some (a / b).
Definition saturating_add (w a b : Z) : Z := Z.min (a + b) (umax w).
Definition saturating_mul (w a b : Z) : Z := Z.min (a * b) (umax w).
Definition saturating_sub (a b : Z) : Z := Z.max (a - b) 0.
Definition clamp (x lo hi : Z) : Z :=
  if x <? lo then lo else if hi <? x then hi else x.

Lemma checked_spec (w x y : Z) : checked w x = Some y <-> x = y /\ is_u w x.
Proof.
  unfold checked, is_u. destruct (0 <=? x) eqn:E1, (x <? 2 ^ w) eqn:E2; simpl;
    naive_solver lia.
Qed.

Lemma checked_none (w x : Z) : checked w x = None <-> ~ is_u w x.
Proof.
  unfold checked, is_u. destruct (0 <=? x) eqn:E1, (x <? 2 ^ w) eqn:E2; simpl;
    split; intros; try discriminate; try lia; done.
Qed.

Lemma wrap_small (w x : Z) : is_u w x -> wrap w x = x.
Proof. intros H. by apply Z.mod_small. Qed.

Lemma wrap_is_u (w x : Z) : 0 <= w -> is_u w (wrap w x).
Proof. intros H. apply Z.mod_pos_bound. lia. Qed.

Lemma clamp_bounds (x lo hi : Z) : lo <= hi -> lo <= clamp x lo hi <= hi.
Proof.
  unfold clamp. intros H. destruct (x <? lo) eqn:E1; [lia |].
  destruct (hi <? x) eqn:E2; lia.
Qed.

Lemma clamp_id (x lo hi : Z) : lo <= x <= hi -> clamp x lo hi = x.
Proof.
  unfold clamp. intros H. destruct (x <? lo) eqn:E1; [lia |].
  destruct (hi <? x) eqn:E2; lia.
Qed.

Lemma clamp_ge (m x lo hi : Z) : m <= x -> m <= hi -> m <= clamp x lo hi.
Proof.
  unfold clamp. intros H1 H2. destruct (x <? lo) eqn:E1; [lia |].
  destruct (hi <? x) eqn:E2; lia.
Qed.

Lemma clamp_le (m x lo hi : Z) : x <= m -> lo <= m -> clamp x lo hi <= m.
Proof.
  unfold clamp. intros H1 H2. destruct (x <? lo) eqn:E1; [lia |].
  destruct (hi <? x) eqn:E2; lia.
Qed.

Lemma clamp_mono (x y lo hi : Z) : lo <= hi -> x <= y -> clamp x lo hi <= clamp y lo hi.
Proof.
  unfold clamp. intros Hb H. destruct (x <? lo) eqn:E1, (y <? lo) eqn:E2,
    (hi <? x) eqn:E3, (hi <? y) eqn:E4; lia.
Qed.

Lemma saturating_add_is_u (w a b : Z) :
  0 <= w -> is_u w a -> is_u w b -> is_u w (saturating_add w a b).
Proof. unfold is_u, saturating_add, umax. lia. Qed.

Lemma saturating_sub_is_u (w a b : Z) :
  is_u w a -> 0 <= b -> is_u w (saturating_sub a b).
Proof. unfold is_u, saturating_sub. lia. Qed.

(** ** Little-endian bytes: [to_le_bytes] / [from_le_bytes]

    A byte is a [Z] in [[0, 256)]. *)

Definition is_byte (b : Z) : Prop := 0 <= b < 256.
Definition is_byteb (b : Z) : bool := (0 <=? b) && (b <? 256).

Fixpoint to_le_bytes (n : nat) (x : Z) : list Z :=
  match n with
  | O => []
  | S n' => x mod 256 :: to_le_bytes n' (x / 256)
  end.

Fixpoint from_le_bytes (bs : list Z) : Z :=
  match bs with
  | [] => 0
  | b :: bs' => b + 256 * from_le_bytes bs'
  end.

Lemma is_byteb_spec (b : Z) : is_byteb b = true <-> is_byte b.
Proof. unfold is_byteb, is_byte. rewrite andb_true_iff. lia. Qed.

Lemma forallb_is_byte (bs : list Z) : forallb is_byteb bs = true -> Forall is_byte bs.
Proof.
  rewrite forallb_forall, Forall_forall. intros H b Hb.
  apply is_byteb_spec, H. by apply list_elem_of_In.
Qed.

Lemma to_le_bytes_length (n : nat) (x : Z) : length (to_le_bytes n x) = n.
Proof. revert x; induction n as [|n IH]; intros x; simpl; auto. Qed.

Lemma to_le_bytes_are_bytes (n : nat) (x : Z) : Forall is_byte (to_le_bytes n x).
Proof.
  revert x; induction n as [|n IH]; intros x; simpl; constructor; auto.
  unfold is_byte. apply Z.mod_pos_bound. lia.
Qed.

Lemma from_le_bytes_app (b1 b2 : list Z) :
  from_le_bytes (b1 ++ b2) = from_le_bytes b1 + 256 ^ Z.of_nat (length b1) * from_le_bytes b2.
Proof.
  induction b1 as [|b b1 IH]; cbn [from_le_bytes app length]; [lia |].
  rewrite Nat2Z.inj_succ, Z.pow_succ_r, IH by lia. lia.
Qed.

Lemma from_le_bytes_bound (bs : list Z) :
  Forall is_byte bs -> 0 <= from_le_bytes bs < 256 ^ Z.of_nat (length bs).
Proof.
  induction 1 as [|b bs Hb _ IH]; [simpl; lia |].
  cbn [from_le_bytes length].
  rewrite Nat2Z.inj_succ, Z.pow_succ_r by lia. unfold is_byte in Hb. nia.
Qed.

Lemma le_bytes_roundtrip (n : nat) (x : Z) :
  0 <= x < 256 ^ Z.of_nat n -> from_le_bytes (to_le_bytes n x) = x.
Proof.
  revert x; induction n as [|n IH]; intros x Hx; cbn [to_le_bytes from_le_bytes].
  - simpl in Hx. lia.
  - rewrite Nat2Z.inj_succ, Z.pow_succ_r in Hx by lia.
    rewrite IH.
    + pose proof (Z.div_mod x 256). lia.
    + split; [apply Z.div_pos; lia |]. apply Z.div_lt_upper_bound; lia.
Qed.

Lemma bytes_le_roundtrip (bs : list Z) :
  Forall is_byte bs -> to_le_bytes (length bs) (from_le_bytes bs) = bs.
Proof.
  induction 1 as [|b bs Hb _ IH]; [done |]. unfold is_byte in Hb.
  cbn [from_le_bytes length to_le_bytes]. f_equal.
  - rewrite (Z.mul_comm 256), Z.mod_add, Z.mod_small; lia.
  - rewrite (Z.mul_comm 256), Z.div_add, (Z.div_small b), Z.add_0_l by lia. done.
Qed.

Lemma from_le_bytes_inj (bs1 bs2 : list Z) :
  Forall is_byte bs1 -> Forall is_byte bs2 -> length bs1 = length bs2 ->
  from_le_bytes bs1 = from_le_bytes bs2 -> bs1 = bs2.
Proof.
  intros H1 H2 Hlen Heq.
  rewrite <- (bytes_le_roundtrip bs1), <- (bytes_le_roundtrip bs2) by done.
  by rewrite Hlen, Heq.
Qed.

(** ** Prefix-injective encodings

    An encoding whose values can be told apart whatever bytes follow them. *)

Definition prefix_inj {A : Type} (enc : A -> list Z) (wf : A -> Prop) : Prop :=
  forall a b r s, wf a -> wf b -> enc a ++ r = enc b ++ s -> a = b /\ r = s.

Create HintDb prefix.

Lemma prefix_inj_fixed (n : nat) : prefix_inj (fun l : list Z => l) (fun l => length l = n).
Proof. intros a b r s Ha Hb H. by apply app_inj_1 in H; [| rewrite Ha, Hb]. Qed.

Lemma prefix_inj_le (n : nat) :
  prefix_inj (to_le_bytes n) (fun x => 0 <= x < 256 ^ Z.of_nat n).
Proof.
  intros a b r s Ha Hb H. apply app_inj_1 in H as [Heq ->]; [| by rewrite !to_le_bytes_length].
  split; [| done]. by rewrite <- (le_bytes_roundtrip n a), Heq, le_bytes_roundtrip.
Qed.

Lemma prefix_inj_concat {A : Type} (enc : A -> list Z) (wf : A -> Prop) (l1 l2 : list A)
    (r s : list Z) :
  prefix_inj enc wf -> length l1 = length l2 -> Forall wf l1 -> Forall wf l2 ->
  concat (map enc l1) ++ r = concat (map enc l2) ++ s -> l1 = l2 /\ r = s.
Proof.
  intros He Hlen H1. revert l2 Hlen. induction H1 as [|a l1 Ha _ IH]; intros [|b l2] Hlen H2 H;
    try discriminate Hlen; [done |].
  inversion H2; subst. cbn [map concat] in H. rewrite <- !app_assoc in H.
  apply He in H as [-> H]; [| done | done]. apply IH in H as [-> ->]; [done | | done].
  by injection Hlen.
Qed.
#[export] Hint Resolve prefix_inj_fixed prefix_inj_le : prefix.
