(* ===== verification/F64.v ===== *)
(** * Binary64 arithmetic

    Rust's [f64], on the reference definition of IEEE 754 of the standard
    library ([SpecFloat] at precision 53 and maximal exponent 1024), with the
    casts the source uses.  [scaled_range] bounds the product of a [u32] with a
    constant after its cast back, which is how the fee window computes its caps. *)

From Stdlib Require Import SpecFloat.
From S2P Require Import Prelude.

Notation f64 := spec_float.

Definition f64_add : f64 -> f64 -> f64 := SFadd 53 1024.
Definition f64_sub : f64 -> f64 -> f64 := SFsub 53 1024.
Definition f64_mul : f64 -> f64 -> f64 := SFmul 53 1024.
Definition f64_div : f64 -> f64 -> f64 := SFdiv 53 1024.

(** [n as f64] for an unsigned integer: round to nearest, ties to even. *)
Definition of_uint (n : Z) : f64 := binary_normalize 53 1024 n 0 false.

(** A decimal literal [num/den]: the quotient of two exact floats is the float
    nearest to it. *)
Definition literal (num den : Z) : f64 := f64_div (of_uint num) (of_uint den).

Definition floor_pos (m : positive) (e : Z) : Z := if 0 <=? e then Zpos m * 2 ^ e else Zpos m / 2 ^ (- e).

(** [x as u<w>]: truncation, saturating at both ends, zero for NaN. *)
Definition to_uint (w : Z) (x : f64) : Z :=
  match x with
  | S754_finite false m e => Z.min (2 ^ w - 1) (floor_pos m e)
  | S754_infinity false => 2 ^ w - 1
  | _ => 0
  end.

(** [f64::ceil], on the finite floats the source applies it to. *)
Definition to_uint_ceil (w : Z) (x : f64) : Z :=
  match x with
  | S754_finite false m e =>
      Z.min (2 ^ w - 1) (if 0 <=? e then Zpos m * 2 ^ e else - (- Zpos m / 2 ^ (- e)))
  | S754_infinity false => 2 ^ w - 1
  | _ => 0
  end.

(** ** Rounding *)

Lemma digits2_spec (p : positive) : 2 ^ (Zpos (digits2_pos p) - 1) <= Zpos p < 2 ^ Zpos (digits2_pos p).
Proof.
  induction p as [p IH | p IH |]; cbn [digits2_pos]; [| | done];
    rewrite Pos2Z.inj_succ;
    replace (Z.succ (Zpos (digits2_pos p)) - 1) with (Z.succ (Zpos (digits2_pos p) - 1)) by lia;
    rewrite !Z.pow_succ_r by lia; lia.
Qed.

Lemma digits2_bound (p : positive) (n : Z) : Zpos p < 2 ^ n -> 0 <= n -> Zpos (digits2_pos p) <= n.
Proof.
  intros Hp Hn. destruct (Z.le_gt_cases (Zpos (digits2_pos p)) n) as [? | Hlt]; [done |].
  pose proof (digits2_spec p) as [Hl _].
  assert (2 ^ n <= 2 ^ (Zpos (digits2_pos p) - 1)) by (apply Z.pow_le_mono_r; lia). lia.
Qed.

Lemma digits2_at_least (p : positive) (n : Z) : 2 ^ n <= Zpos p -> n + 1 <= Zpos (digits2_pos p).
Proof.
  intros Hp. destruct (Z.le_gt_cases (n + 1) (Zpos (digits2_pos p))) as [? | Hlt]; [done |].
  pose proof (digits2_spec p) as [_ Hu].
  assert (2 ^ Zpos (digits2_pos p) <= 2 ^ n) by (apply Z.pow_le_mono_r; lia). lia.
Qed.

Lemma shr_1_m (r : shr_record) : 0 <= shr_m r -> shr_m (shr_1 r) = shr_m r / 2.
Proof.
  destruct r as [m r s]. cbn [shr_m]. intros Hm. rewrite <- Z.div2_div.
  destruct m as [|[p|p|]|p]; cbn; lia.
Qed.

Lemma iter_shr_m (n : positive) (r : shr_record) :
  0 <= shr_m r -> shr_m (SpecFloat.iter_pos shr_1 n r) = shr_m r / 2 ^ Zpos n.
Proof.
  revert r. induction n as [n IH | n IH |]; intros r Hr; cbn [SpecFloat.iter_pos].
  - assert (0 <= shr_m (shr_1 r)) as H1 by (rewrite shr_1_m by done; apply Z.div_pos; lia).
    rewrite IH, IH; [| done | rewrite IH by done; apply Z.div_pos; lia].
    rewrite shr_1_m by done. rewrite !Z.div_div by lia. f_equal.
    replace (Zpos n~1) with (Zpos n + Zpos n + 1) by lia. rewrite !Z.pow_add_r by lia. ring.
  - rewrite IH, IH; [| done | rewrite IH by done; apply Z.div_pos; lia].
    rewrite Z.div_div by lia. f_equal.
    replace (Zpos n~0) with (Zpos n + Zpos n) by lia. rewrite !Z.pow_add_r by lia. ring.
  - by rewrite shr_1_m.
Qed.

Lemma round_nearest_even_cases (m : Z) (l : location) :
  round_nearest_even m l = m \/ round_nearest_even m l = m + 1.
Proof. destruct l as [|[| |]]; cbn; [auto | destruct (Z.even m); auto | auto | auto]. Qed.

Lemma shr_fexp_id (m e : Z) :
  fexp 53 1024 (Zdigits2 m + e) <= e -> shr_fexp 53 1024 m e loc_Exact = (Build_shr_record m false false, e).
Proof.
  intros H. unfold shr_fexp, shr. cbn [shr_record_of_loc].
  destruct (fexp 53 1024 (Zdigits2 m + e) - e) eqn:E; [done | lia | done].
Qed.

(** A mantissa that fits is kept. *)
Lemma round_exact (m : positive) (e : Z) :
  Zpos (digits2_pos m) <= 53 -> -1074 <= e <= 971 -> fexp 53 1024 (Zpos (digits2_pos m) + e) <= e ->
  binary_round_aux 53 1024 false (Zpos m) e loc_Exact = S754_finite false m e.
Proof.
  intros Hd He Hf. unfold binary_round_aux. rewrite shr_fexp_id by done. cbn -[Z.leb shr_fexp].
  rewrite shr_fexp_id by done. cbn [shr_m]. by destruct (Z.leb_spec e (1024 - 53)); [| lia].
Qed.

(** A longer one is cut to 53 bits and possibly incremented. *)
Lemma round_cut (m : positive) (e : Z) :
  let n := Zpos (digits2_pos m) - 53 in
  0 < n -> -1074 <= e + n <= 900 ->
  exists r e' k, binary_round_aux 53 1024 false (Zpos m) e loc_Exact = S754_finite false r e' /\
    e + n <= e' /\ Zpos r * 2 ^ (e' - (e + n)) = k /\ Zpos m / 2 ^ n <= k <= Zpos m / 2 ^ n + 1.
Proof.
  intros n Hn He. unfold binary_round_aux.
  assert (shr_fexp 53 1024 (Zpos m) e loc_Exact =
    (SpecFloat.iter_pos shr_1 (Z.to_pos n) (Build_shr_record (Zpos m) false false), e + n)) as ->.
  { unfold shr_fexp, shr. cbn [shr_record_of_loc Zdigits2].
    replace (fexp 53 1024 (Zpos (digits2_pos m) + e) - e) with n by (unfold fexp, emin; lia).
    destruct n eqn:En; [lia | by cbn [Z.to_pos] | lia]. }
  set (rec := SpecFloat.iter_pos shr_1 _ _). assert (shr_m rec = Zpos m / 2 ^ n) as Hq.
  { unfold rec. rewrite iter_shr_m by done. cbn [shr_m]. by rewrite Z2Pos.id. }
  set (q := Zpos m / 2 ^ n) in *. pose proof (digits2_spec m) as [Hl Hu].
  assert (2 ^ 52 <= q < 2 ^ 53) as [Hq1 Hq2].
  { unfold q. split.
    - apply Z.div_le_lower_bound; [lia |]. rewrite <- Z.pow_add_r by lia.
      by replace (n + 52) with (Zpos (digits2_pos m) - 1) by lia.
    - apply Z.div_lt_upper_bound; [lia |]. rewrite <- Z.pow_add_r by lia.
      by replace (n + 53) with (Zpos (digits2_pos m)) by lia. }
  rewrite Hq. set (r0 := round_nearest_even q (loc_of_shr_record rec)).
  assert (q <= r0 <= q + 1) as Hr0 by (destruct (round_nearest_even_cases q (loc_of_shr_record rec)); unfold r0; lia).
  destruct (Z.eq_dec r0 (2 ^ 53)) as [E | Hne].
  - rewrite E. unfold shr_fexp, shr. cbn [shr_record_of_loc].
    replace (fexp 53 1024 (Zdigits2 (2 ^ 53) + (e + n)) - (e + n)) with 1
      by (unfold fexp, emin; change (Zdigits2 (2 ^ 53)) with 54; lia).
    cbn -[Z.leb]. destruct (Z.leb_spec (e + n + 1) (1024 - 53)) as [_ | ?]; [| lia].
    exists 4503599627370496%positive, (e + n + 1), (2 ^ 53). split; [done |]. split; [lia |].
    split; [| lia]. replace (e + n + 1 - (e + n)) with 1 by lia. reflexivity.
  - destruct r0 as [|r0'|] eqn:Er; [lia | | lia].
    assert (Zpos (digits2_pos r0') = 53) as Hd.
    { pose proof (digits2_bound r0' 53 ltac:(lia) ltac:(lia)).
      pose proof (digits2_at_least r0' 52 ltac:(lia)). lia. }
    rewrite shr_fexp_id by (cbn [Zdigits2]; rewrite Hd; unfold fexp, emin; lia). cbn [shr_m].
    destruct (Z.leb_spec (e + n) (1024 - 53)) as [_ | ?]; [| lia].
    exists r0', (e + n), (Zpos r0'). split; [done |]. split; [lia |]. split; [| lia].
    rewrite Z.sub_diag. lia.
Qed.

Lemma iter_xO (m k : positive) : Zpos (Pos.iter xO m k) = Zpos m * 2 ^ Zpos k.
Proof.
  induction k as [|k IH] using Pos.peano_ind; [cbn; lia |].
  rewrite Pos.iter_succ, Pos2Z.inj_xO, IH, Pos2Z.inj_succ, Z.pow_succ_r by lia. ring.
Qed.

(** Integers below 2^53 are represented exactly, with a full mantissa. *)
Lemma of_uint_exact (p : positive) :
  Zpos p < 2 ^ 53 -> let k := 53 - Zpos (digits2_pos p) in
  exists mp, of_uint (Zpos p) = S754_finite false mp (- k) /\ Zpos mp = Zpos p * 2 ^ k /\
    2 ^ 52 <= Zpos mp < 2 ^ 53.
Proof.
  intros Hp k. pose proof (digits2_bound p 53 Hp ltac:(lia)) as Hd. pose proof (digits2_spec p) as [Hl Hu].
  assert (forall mp, Zpos mp = Zpos p * 2 ^ k -> 2 ^ 52 <= Zpos mp < 2 ^ 53) as Hrange.
  { intros mp ->.
    assert (2 ^ 52 = 2 ^ (Zpos (digits2_pos p) - 1) * 2 ^ k) as E1
      by (rewrite <- Z.pow_add_r by lia; f_equal; lia).
    assert (2 ^ 53 = 2 ^ Zpos (digits2_pos p) * 2 ^ k) as E2
      by (rewrite <- Z.pow_add_r by lia; f_equal; lia).
    rewrite E1, E2. split; [apply Z.mul_le_mono_nonneg_r | apply Z.mul_lt_mono_pos_r]; lia. }
  assert (exists mp, shl_align p 0 (- k) = (mp, - k) /\ Zpos mp = Zpos p * 2 ^ k) as (mp & Ea & Hmp).
  { unfold shl_align. rewrite Z.sub_0_r. destruct k as [|k'|k'] eqn:Ek; [| | lia].
    - exists p. split; [done | lia].
    - exists (Pos.iter xO p k'). split; [done | apply iter_xO]. }
  exists mp. split; [| by auto]. unfold of_uint, binary_normalize, binary_round.
  replace (fexp 53 1024 (Zpos (digits2_pos p) + 0)) with (- k) by (unfold fexp, emin; lia). rewrite Ea.
  specialize (Hrange mp Hmp). pose proof (digits2_bound mp 53 ltac:(lia) ltac:(lia)).
  apply round_exact; unfold fexp, emin; lia.
Qed.

Lemma floor_pos_scaled (r : positive) (e f : Z) :
  f <= e -> f <= 0 -> floor_pos r e = Zpos r * 2 ^ (e - f) / 2 ^ (- f).
Proof.
  intros Hf H0. unfold floor_pos. destruct (Z.leb_spec 0 e) as [He | He].
  - replace (e - f) with (e + - f) by lia. rewrite Z.pow_add_r, Z.mul_assoc by lia. symmetry.
    apply Z.div_mul. lia.
  - replace (- f) with ((e - f) + - e) by lia. rewrite Z.pow_add_r by lia. symmetry.
    rewrite (Z.mul_comm (Zpos r)). apply Z.div_mul_cancel_l; lia.
Qed.

(** The cast product of a [u32] with a constant [c / 2^d]: at least the exact
    floor, and above the exact product by less than [2^(32-d)]. *)
Lemma scaled_range (p c : positive) (d : Z) :
  Zpos p < 2 ^ 32 -> 2 ^ 52 <= Zpos c < 2 ^ 53 -> 52 <= d <= 60 ->
  exists t, to_uint 32 (f64_mul (of_uint (Zpos p)) (S754_finite false c (- d))) = Z.min (2 ^ 32 - 1) t /\
    Zpos p * Zpos c / 2 ^ d <= t /\ t * 2 ^ d <= Zpos p * Zpos c + 2 ^ 32.
Proof.
  intros Hp Hc Hd. destruct (of_uint_exact p) as (mp & Ep & Hmp & Hrange); [lia |].
  pose proof (digits2_bound p 32 Hp ltac:(lia)) as Hdp. set (k := 53 - Zpos (digits2_pos p)) in *.
  rewrite Ep. unfold f64_mul, SFmul. cbn [xorb].
  assert (2 ^ 104 <= Zpos (mp * c) < 2 ^ 106) as Hprod.
  { rewrite Pos2Z.inj_mul. replace (2 ^ 104) with (2 ^ 52 * 2 ^ 52) by done.
    replace (2 ^ 106) with (2 ^ 53 * 2 ^ 53) by done.
    split; [apply Z.mul_le_mono_nonneg | apply Z.mul_lt_mono_nonneg]; lia. }
  pose proof (digits2_bound (mp * c) 106 ltac:(lia) ltac:(lia)) as Hd1.
  pose proof (digits2_at_least (mp * c) 104 ltac:(lia)) as Hd2.
  destruct (round_cut (mp * c) (- k + - d)) as (r & e & kk & -> & He & Hkk & Hq); [lia | lia |].
  set (n := Zpos (digits2_pos (mp * c)) - 53) in *. set (f := - k + - d + n) in *.
  exists (floor_pos r e). split; [done |]. rewrite (floor_pos_scaled r e f) by lia. rewrite Hkk.
  assert (2 ^ (- f) * 2 ^ n = 2 ^ d * 2 ^ k) as Hs
    by (rewrite <- !Z.pow_add_r by lia; f_equal; lia).
  rewrite Pos2Z.inj_mul, Hmp in Hq.
  replace (Zpos p * 2 ^ k * Zpos c) with (Zpos p * Zpos c * 2 ^ k) in Hq by ring.
  set (N := Zpos p * Zpos c) in *. split.
  - replace (N / 2 ^ d) with (N * 2 ^ k / 2 ^ n / 2 ^ (- f)).
    + apply Z.div_le_mono; lia.
    + rewrite Z.div_div, (Z.mul_comm (2 ^ n)), Hs by lia. rewrite (Z.mul_comm (2 ^ d)), (Z.mul_comm N).
      apply Z.div_mul_cancel_l; lia.
  - apply (Z.mul_le_mono_pos_r _ _ (2 ^ k)); [lia |]. rewrite <- Z.mul_assoc, <- Hs, Z.mul_assoc.
    assert (kk / 2 ^ (- f) * 2 ^ (- f) <= kk) by (rewrite Z.mul_comm; apply Z.mul_div_le; lia).
    assert (N * 2 ^ k / 2 ^ n * 2 ^ n <= N * 2 ^ k) by (rewrite Z.mul_comm; apply Z.mul_div_le; lia).
    assert (2 ^ n <= 2 ^ 32 * 2 ^ k) by (rewrite <- Z.pow_add_r by lia; apply Z.pow_le_mono_r; lia). nia.
Qed.
