(* ===== verification/Units.v ===== *)
(** * Nominal consensus quantities ([src/sdk/src/blockchain.rs])

    The [#[repr(transparent)]] newtypes of the SDK are their underlying
    machine integer here, one [Module] per type with the operations the
    source gives it; ranges are stated with [is_u64] / [is_u32]. *)

From S2P Require Import Prelude.

(** ** [BlockHeight(u64)] *)

Module BlockHeight.
Definition GENESIS : Z := 1.

Definition succ (h : Z) : Z := wrap 64 (h + 1).

Definition pred (h : Z) : option Z := checked_sub 64 h 1.

Definition checked_sub_height (h rhs : Z) : option Z := checked_sub 64 h rhs.

Definition sat_sub (h rhs : Z) : Z := saturating_sub h rhs.

Definition bytes (h : Z) : list Z := to_le_bytes 8 h.

Definition of_bytes (bs : list Z) : Z := from_le_bytes bs.

Definition is_zero (h : Z) : bool := h =? 0.

Definition is_genesis (h : Z) : bool := h =? 1.

Definition saturating_sub_blocks (h n : Z) : Z := saturating_sub h n.

Definition i64_max : Z := 9223372036854775807.

Definition from_sqlite_i64 (n : Z) : option Z := if n <? 0 then None else Some n.

Definition to_sqlite_i64 (h : Z) : option Z := if i64_max <? h then None else Some h.

Definition to_sqlite_i64_saturating (h : Z) : Z := if i64_max <? h then i64_max else h.
End BlockHeight.

(** ** [BlockReward(u64)] *)

Module BlockReward.
(** [(self * decay) >> 32] with a [u128] product, saturating to [u64]. *)
Definition mul_fixed_point (r decay_fp : Z) : Z :=
  let product := r * decay_fp in
  let shifted := Z.shiftr product 32 in
  if u64_max <? shifted then u64_max else shifted.

(** The share of an uncle at [depth]: [self / 2^depth], zero past bit 63. *)
Definition split_for_uncle (r depth : Z) : Z :=
  let divisor := if 64 <=? depth then 0 else Z.shiftl 1 depth in
  if divisor =? 0 then 0 else r / divisor.
End BlockReward.

(** ** [BlockTarget(u32)] *)

Module BlockTarget.
Definition MAX : Z := u32_max.

Definition bytes (t : Z) : list Z := to_le_bytes 4 t.

Definition reached (t hash_u32 : Z) : bool := hash_u32 <=? t.

Definition hash_is_valid (t hash_u32 : Z) : bool := reached t hash_u32.

(** [self * scale / adjustment], narrowed to [u32] by [as], then clamped. *)
Definition adjust (t scale adjustment min_target max_target : Z) : Z :=
  let new :=
    match checked_mul 64 t scale with
    | Some product =>
        match checked_div product adjustment with
        | Some ratio => wrap 32 ratio
        | None => t
        end
    | None => t
    end in
  clamp new min_target max_target.

Definition chain_work (t : Z) : Z :=
  if t =? 0 then 0
  else let divisor := if t <? 1 then 1 else t in u32_max / divisor.

Definition difficulty (t : Z) : Z := if t =? 0 then u64_max else u32_max / t.
End BlockTarget.

(** ** Amounts: [BlockCharge], [SupplyAmount], [FeeAmount] *)

Module BlockCharge.
Definition add (a b : Z) : Z := saturating_add 64 a b.
End BlockCharge.

Module SupplyAmount.
Definition add (a b : Z) : Z := saturating_add 64 a b.
End SupplyAmount.

Module FeeAmount.
Definition fee_checked_add (a b : Z) : option Z := checked_add 64 a b.

Definition fee_checked_sub (a b : Z) : option Z := checked_sub 64 a b.

Definition fee_saturating_add (a b : Z) : Z := saturating_add 64 a b.

Definition fee_saturating_sub (a b : Z) : Z := saturating_sub a b.

Definition fee_saturating_mul (a b : Z) : Z := saturating_mul 64 a b.
End FeeAmount.

(** ** [FeeTier(u8)] and [RiskFactor(u64)] *)

Module FeeTier.
Inductive t := LOW | MEDIUM | HIGH.

#[global] Instance t_eq_dec : EqDecision t.
Proof. solve_decision. Defined.

Definition new (multiplier : Z) : option t :=
  if multiplier =? 1 then Some LOW
  else if multiplier =? 2 then Some MEDIUM
  else if multiplier =? 4 then Some HIGH
  else None.

Definition tier_multiplier (x : t) : Z :=
  match x with LOW => 1 | MEDIUM => 2 | HIGH => 4 end.
End FeeTier.

Module RiskFactor.
Definition SCALE : Z := 100000.
Definition BASELINE : Z := SCALE.
Definition MAX : Z := 200000.

Definition apply (risk circuit_cost : Z) : Z := saturating_mul 64 circuit_cost risk / SCALE.
End RiskFactor.

Module WasmKb.
Definition from_bytes (wasm_bytes_len : Z) : Z :=
  Z.max 1 (wrap 64 (wasm_bytes_len + 1023) / 1024).
End WasmKb.

(** ** [FeeWindowId(u64)] *)

Module FeeWindowId.
Definition WINDOW_SIZE : Z := 20.

Definition from_height (height : Z) : Z := saturating_sub height 1 / WINDOW_SIZE.

Definition is_window_boundary (height : Z) : bool :=
  (0 <? height) && (height mod WINDOW_SIZE =? 0).
End FeeWindowId.

(** ** Facts about the operations *)

Lemma split_for_uncle_in_range (r depth : Z) :
  0 <= depth < 64 -> BlockReward.split_for_uncle r depth = r / 2 ^ depth.
Proof.
  intros H. unfold BlockReward.split_for_uncle.
  assert (64 <=? depth = false) as -> by lia.
  rewrite Z.shiftl_1_l.
  assert (2 ^ depth =? 0 = false) as -> by (apply Z.eqb_neq; lia). done.
Qed.

Lemma split_for_uncle_bounds (r depth : Z) :
  0 <= r -> 0 <= depth -> 0 <= BlockReward.split_for_uncle r depth <= r.
Proof.
  intros Hr Hd. destruct (Z.lt_ge_cases depth 64) as [H | H].
  - rewrite split_for_uncle_in_range by lia.
    assert (0 < 2 ^ depth) by (apply Z.pow_pos_nonneg; lia).
    split; [apply Z.div_pos; lia |]. apply Z.div_le_upper_bound; nia.
  - unfold BlockReward.split_for_uncle. assert (64 <=? depth = true) as -> by lia. simpl. lia.
Qed.

(** The result of [adjust] always lies between the two limits. *)
Lemma adjust_clamped (t scale adjustment lo hi : Z) :
  lo <= hi -> lo <= BlockTarget.adjust t scale adjustment lo hi <= hi.
Proof. apply clamp_bounds. Qed.

(** Inside the contract ([scale] does not overflow, a non-zero adjustment and a
    ratio that fits [u32]) the narrowing is exact. *)
Lemma adjust_exact (t scale adjustment lo hi : Z) :
  is_u64 (t * scale) -> 0 < adjustment -> is_u32 (t * scale / adjustment) ->
  BlockTarget.adjust t scale adjustment lo hi = clamp (t * scale / adjustment) lo hi.
Proof.
  intros Hm Ha Hr. unfold BlockTarget.adjust, checked_mul, checked_div.
  rewrite (proj2 (checked_spec 64 _ _) (conj eq_refl Hm)).
  assert (adjustment =? 0 = false) as -> by lia. by rewrite wrap_small.
Qed.

Lemma from_height_boundary (h : Z) :
  0 < h -> FeeWindowId.is_window_boundary h = true <->
  FeeWindowId.from_height (h + 1) = FeeWindowId.from_height h + 1.
Proof.
  unfold FeeWindowId.is_window_boundary, FeeWindowId.from_height,
    FeeWindowId.WINDOW_SIZE, saturating_sub. intros Hh.
  rewrite andb_true_iff, Z.ltb_lt, Z.eqb_eq.
  rewrite !Z.max_l by lia. replace (h + 1 - 1) with h by lia.
  pose proof (Z.div_mod h 20). pose proof (Z.mod_pos_bound h 20).
  pose proof (Z.div_mod (h - 1) 20). pose proof (Z.mod_pos_bound (h - 1) 20).
  split; intros; lia.
Qed.

Lemma sqlite_roundtrip (h n : Z) :
  0 <= h -> BlockHeight.to_sqlite_i64 h = Some n -> BlockHeight.from_sqlite_i64 n = Some h.
Proof.
  unfold BlockHeight.to_sqlite_i64, BlockHeight.from_sqlite_i64. intros Hh.
  destruct (BlockHeight.i64_max <? h); [discriminate | intros [= <-]].
  by assert (h <? 0 = false) as -> by lia.
Qed.
