(* ===== verification/Emission.v ===== *)
(** * The emission schedule ([src/sdk/src/blockchain.rs])

    [expected_reward] (exponential decay with a tail floor, computed by
    fixed-point binary exponentiation) and [expected_cumulative_supply]. *)

From S2P Require Import Prelude Units.

Module Reward.
Definition INITIAL_REWARD : Z := 1383764049.
Definition GENESIS_REWARD : Z := INITIAL_REWARD.
Definition HALF_LIFE_BLOCKS : Z := 1051920.
Definition TAIL_REWARD : Z := 79853981.
Definition TAIL_EMISSION_REFERENCE_SUPPLY_DRK : Z := 21000000.
Definition TAIL_EMISSION_REFERENCE_SUPPLY : Z :=
  TAIL_EMISSION_REFERENCE_SUPPLY_DRK * 100000000.
Definition BLOCKS_PER_YEAR : Z := 262980.
End Reward.

Definition DECAY_FP : Z := 4294964465.
Definition FP_SHIFT : Z := 32.
Definition FP_ONE : Z := Z.shiftl 1 FP_SHIFT.

(** One fixed-point product: [((a as u128 * b as u128) >> 32) as u64]. *)
Definition mul_fp (a b : Z) : Z := wrap 64 (Z.shiftr (a * b) FP_SHIFT).

(** The [while exp > 0] loop; [None] is a loop that has not finished. *)
Fixpoint fixed_pow_loop (fuel : nat) (exp res base : Z) : option Z :=
  if 0 <? exp then
    match fuel with
    | O => None
    | S fuel' =>
        let res' := if Z.land exp 1 =? 1 then mul_fp res base else res in
        fixed_pow_loop fuel' (Z.shiftr exp 1) res' (mul_fp base base)
    end
  else Some res.

(** A [u64] exponent is shifted out after at most 64 iterations. *)
Definition fixed_pow_decay (exp : Z) : Z :=
  default 0 (fixed_pow_loop 64 exp FP_ONE DECAY_FP).

Definition expected_reward (height : Z) : Z :=
  if height =? 0 then 0
  else if height =? 1 then Reward.INITIAL_REWARD
  else
    let exp := height - 1 in
    let decay := fixed_pow_decay exp in
    let reward := BlockReward.mul_fixed_point Reward.INITIAL_REWARD decay in
    if reward <=? Reward.TAIL_REWARD then Reward.TAIL_REWARD else reward.

(** [for h in 1..=height { total = total.saturating_add(expected_reward(h)) }] *)
Fixpoint supply_loop (n : nat) (h total : Z) : Z :=
  match n with
  | O => total
  | S n' => supply_loop n' (h + 1) (saturating_add 64 total (expected_reward h))
  end.

Definition expected_cumulative_supply (height : Z) : Z :=
  supply_loop (Z.to_nat height) 1 0.

(** ** The loop, by exponent parity *)

Lemma fixed_pow_loop_zero (fuel : nat) (res base : Z) :
  fixed_pow_loop fuel 0 res base = Some res.
Proof. by destruct fuel. Qed.

Lemma land_one_mod (e : Z) : Z.land e 1 = e mod 2.
Proof. exact (Z.land_ones e 1 ltac:(lia)). Qed.

Lemma fixed_pow_loop_even (fuel : nat) (k res base : Z) :
  0 <= k -> fixed_pow_loop (S fuel) (2 * k) res base
            = fixed_pow_loop fuel k res (mul_fp base base).
Proof.
  intros Hk. destruct (Z.eq_dec k 0) as [-> | Hn].
  { by rewrite Z.mul_0_r, !fixed_pow_loop_zero. }
  cbn [fixed_pow_loop].
  assert (0 <? 2 * k = true) as -> by lia.
  rewrite land_one_mod, Z.mul_comm, Z.mod_mul by lia. simpl (0 =? 1).
  by rewrite Z.shiftr_div_pow2, Z.pow_1_r, Z.div_mul by lia.
Qed.

Lemma fixed_pow_loop_odd (fuel : nat) (k res base : Z) :
  0 <= k -> fixed_pow_loop (S fuel) (2 * k + 1) res base
            = fixed_pow_loop fuel k (mul_fp res base) (mul_fp base base).
Proof.
  intros Hk. cbn [fixed_pow_loop].
  assert (0 <? 2 * k + 1 = true) as -> by lia.
  rewrite land_one_mod.
  assert ((2 * k + 1) mod 2 = 1) as -> by
    (rewrite Z.add_comm, Z.mul_comm, Z.mod_add by lia; done).
  rewrite Z.shiftr_div_pow2, Z.pow_1_r by lia.
  by assert ((2 * k + 1) / 2 = k) as -> by
    (rewrite Z.add_comm, Z.mul_comm, Z.div_add by lia; done).
Qed.

(** Case analysis on the low bit of a non-negative exponent. *)
Lemma parity_cases (e : Z) : 0 <= e -> exists k, 0 <= k /\ (e = 2 * k \/ e = 2 * k + 1).
Proof.
  intros He. exists (e / 2). pose proof (Z.div_mod e 2).
  pose proof (Z.mod_pos_bound e 2). split; [apply Z.div_pos |]; lia.
Qed.

Lemma fixed_pow_loop_terminates (fuel : nat) (e res base : Z) :
  0 <= e < 2 ^ Z.of_nat fuel -> is_Some (fixed_pow_loop fuel e res base).
Proof.
  revert e res base. induction fuel as [|fuel IH]; intros e res base He.
  - simpl in He. assert (e = 0) as -> by lia. by rewrite fixed_pow_loop_zero.
  - rewrite Nat2Z.inj_succ, Z.pow_succ_r in He by lia.
    destruct (parity_cases e) as (k & Hk & [-> | ->]); [lia | |].
    + rewrite fixed_pow_loop_even by lia. apply IH. lia.
    + rewrite fixed_pow_loop_odd by lia. apply IH. lia.
Qed.

(** ** Fixed-point products of factors at most one *)

Lemma FP_ONE_val : FP_ONE = 4294967296.
Proof. done. Qed.

Lemma mul_fp_exact (a b : Z) :
  0 <= a <= FP_ONE -> 0 <= b <= FP_ONE -> mul_fp a b = a * b / FP_ONE.
Proof.
  unfold mul_fp, FP_ONE, FP_SHIFT. intros Ha Hb.
  rewrite Z.shiftr_div_pow2 by lia. change (Z.shiftl 1 32) with (2 ^ 32) in *.
  apply wrap_small. unfold is_u. split; [apply Z.div_pos; nia |].
  apply Z.div_lt_upper_bound; nia.
Qed.

Lemma mul_fp_le (a b : Z) :
  0 <= a <= FP_ONE -> 0 <= b <= FP_ONE -> 0 <= mul_fp a b <= a.
Proof.
  intros Ha Hb. rewrite mul_fp_exact by done. unfold FP_ONE, FP_SHIFT in *.
  change (Z.shiftl 1 32) with 4294967296 in *.
  split; [apply Z.div_pos; nia |]. apply Z.div_le_upper_bound; nia.
Qed.

Lemma mul_fp_mono (a1 a2 b : Z) :
  0 <= a1 -> a1 <= a2 -> a2 <= FP_ONE -> 0 <= b <= FP_ONE -> mul_fp a1 b <= mul_fp a2 b.
Proof.
  intros H1 H2 H3 Hb. rewrite !mul_fp_exact by lia.
  apply Z.div_le_mono; [by vm_compute | nia].
Qed.

Lemma mul_fp_one_l (b : Z) : 0 <= b <= FP_ONE -> mul_fp FP_ONE b = b.
Proof.
  intros Hb. rewrite mul_fp_exact by (rewrite ?FP_ONE_val in *; lia).
  rewrite Z.mul_comm. apply Z.div_mul. done.
Qed.

(** [base_at j] is the base after [j] squarings and [ones_at j] the result
    after [j] iterations whose bits were all one. *)
Fixpoint base_at (j : nat) : Z :=
  match j with O => DECAY_FP | S j' => mul_fp (base_at j') (base_at j') end.

Fixpoint ones_at (j : nat) : Z :=
  match j with O => FP_ONE | S j' => mul_fp (ones_at j') (base_at j') end.

Lemma base_at_range (j : nat) : 0 <= base_at j <= FP_ONE.
Proof.
  induction j as [|j IH]; [by vm_compute |].
  cbn [base_at]. pose proof (mul_fp_le _ _ IH IH). lia.
Qed.

Lemma ones_at_range (j : nat) : 0 <= ones_at j <= FP_ONE.
Proof.
  induction j as [|j IH]; [by vm_compute |].
  cbn [ones_at]. pose proof (mul_fp_le _ _ IH (base_at_range j)). lia.
Qed.

(** The finite fact the schedule's monotonicity rests on: the [j]-th squaring
    never rounds above the product of the [j] bases before it.  [squarings_below]
    computes it for the next [n] squarings of a pair (base, ones). *)
Fixpoint squarings_below (n : nat) (b o : Z) : bool :=
  match n with
  | O => true
  | S n' => (b <=? o) && squarings_below n' (mul_fp b b) (mul_fp o b)
  end.

Lemma squarings_below_sound (n i j : nat) :
  squarings_below n (base_at j) (ones_at j) = true -> (i < n)%nat ->
  base_at (j + i) <= ones_at (j + i).
Proof.
  revert i j. induction n as [|n IH]; intros i j H Hi; [lia |].
  cbn [squarings_below] in H. apply andb_true_iff in H as [Hle H].
  destruct i as [|i]; [rewrite Nat.add_0_r; lia |].
  rewrite <- Nat.add_succ_comm. apply IH; [exact H | lia].
Qed.

Lemma base_below_ones (j : nat) : (j < 64)%nat -> base_at j <= ones_at j.
Proof. apply (squarings_below_sound 64 j 0). by vm_compute. Qed.

(** ** Monotonicity of the loop *)

(** [pow_from f e res j]: the loop's answer from the [j]-th squaring on. *)
Definition pow_from (f : nat) (e res : Z) (j : nat) : Z :=
  default 0 (fixed_pow_loop f e res (base_at j)).

Lemma pow_from_even (f : nat) (k res : Z) (j : nat) :
  0 <= k -> pow_from (S f) (2 * k) res j = pow_from f k res (S j).
Proof. intros Hk. unfold pow_from. by rewrite fixed_pow_loop_even. Qed.

Lemma pow_from_odd (f : nat) (k res : Z) (j : nat) :
  0 <= k -> pow_from (S f) (2 * k + 1) res j = pow_from f k (mul_fp res (base_at j)) (S j).
Proof. intros Hk. unfold pow_from. by rewrite fixed_pow_loop_odd. Qed.

Lemma pow_from_zero (f : nat) (res : Z) (j : nat) : pow_from f 0 res j = res.
Proof. unfold pow_from. by rewrite fixed_pow_loop_zero. Qed.

Lemma pow_from_range (f : nat) (e res : Z) (j : nat) :
  0 <= e < 2 ^ Z.of_nat f -> 0 <= res <= FP_ONE -> 0 <= pow_from f e res j <= res.
Proof.
  revert e res j. induction f as [|f IH]; intros e res j He Hr.
  - simpl in He. assert (e = 0) as -> by lia. rewrite pow_from_zero. lia.
  - rewrite Nat2Z.inj_succ, Z.pow_succ_r in He by lia.
    destruct (parity_cases e) as (k & Hk & [-> | ->]); [lia | |].
    + rewrite pow_from_even by lia. apply IH; lia.
    + rewrite pow_from_odd by lia.
      pose proof (mul_fp_le res (base_at j) Hr (base_at_range j)).
      pose proof (IH k (mul_fp res (base_at j)) (S j)). lia.
Qed.

Lemma pow_from_mono (f : nat) (e r1 r2 : Z) (j : nat) :
  0 <= e < 2 ^ Z.of_nat f -> 0 <= r1 -> r1 <= r2 -> r2 <= FP_ONE ->
  pow_from f e r1 j <= pow_from f e r2 j.
Proof.
  revert e r1 r2 j. induction f as [|f IH]; intros e r1 r2 j He H1 H2 H3.
  - simpl in He. assert (e = 0) as -> by lia. by rewrite !pow_from_zero.
  - rewrite Nat2Z.inj_succ, Z.pow_succ_r in He by lia.
    destruct (parity_cases e) as (k & Hk & [-> | ->]); [lia | |].
    + rewrite !pow_from_even by lia. apply IH; lia.
    + rewrite !pow_from_odd by lia. pose proof (base_at_range j).
      pose proof (mul_fp_le r1 (base_at j)). pose proof (mul_fp_le r2 (base_at j)).
      pose proof (mul_fp_mono r1 r2 (base_at j)). apply IH; lia.
Qed.

(** After [j] one bits the exponent's increment is a carry into bit [j]: the
    incremented run restarts from one, the other has accumulated [ones_at j]. *)
Lemma pow_from_carry (f : nat) (e : Z) (j : nat) :
  (j + f <= 64)%nat -> 0 <= e -> e + 1 < 2 ^ Z.of_nat f ->
  pow_from f (e + 1) FP_ONE j <= pow_from f e (ones_at j) j.
Proof.
  revert e j. induction f as [|f IH]; intros e j Hj He Hlt; [simpl in Hlt; lia |].
  rewrite Nat2Z.inj_succ, Z.pow_succ_r in Hlt by lia.
  destruct (parity_cases e) as (k & Hk & [-> | ->]); [lia | |].
  - rewrite pow_from_odd, pow_from_even, mul_fp_one_l by (apply base_at_range || lia).
    pose proof (base_at_range j). pose proof (ones_at_range j).
    pose proof (base_below_ones j). apply pow_from_mono; lia.
  - replace (2 * k + 1 + 1) with (2 * (k + 1)) by lia.
    rewrite pow_from_even, pow_from_odd by lia. apply (IH k (S j)); lia.
Qed.

Lemma fixed_pow_decay_from (e : Z) : fixed_pow_decay e = pow_from 64 e FP_ONE 0.
Proof. unfold fixed_pow_decay, pow_from. cbn [base_at]. reflexivity. Qed.

Lemma fuel_64 : 2 ^ Z.of_nat 64 = 2 ^ 64.
Proof. reflexivity. Qed.

Lemma fixed_pow_decay_range (e : Z) : is_u64 e -> 0 <= fixed_pow_decay e <= FP_ONE.
Proof.
  unfold is_u. intros He. rewrite fixed_pow_decay_from.
  apply pow_from_range; [by rewrite fuel_64 | by rewrite FP_ONE_val].
Qed.

Lemma fixed_pow_decay_loop (e : Z) :
  is_u64 e -> fixed_pow_loop 64 e FP_ONE DECAY_FP = Some (fixed_pow_decay e).
Proof.
  intros He. unfold fixed_pow_decay.
  destruct (fixed_pow_loop_terminates 64 e FP_ONE DECAY_FP) as [r ->]; [| done].
  unfold is_u in He. by rewrite fuel_64.
Qed.

Lemma fixed_pow_decay_step (e : Z) :
  0 <= e -> e + 1 < 2 ^ 64 -> fixed_pow_decay (e + 1) <= fixed_pow_decay e.
Proof.
  intros H1 H2. rewrite !fixed_pow_decay_from.
  pose proof (pow_from_carry 64 e 0) as H. cbn [ones_at] in H. rewrite fuel_64 in H.
  apply H; lia.
Qed.

Lemma fixed_pow_decay_antitone (e1 e2 : Z) :
  0 <= e1 -> e1 <= e2 -> e2 < 2 ^ 64 -> fixed_pow_decay e2 <= fixed_pow_decay e1.
Proof.
  intros H0 H1. pattern e2. apply Zlt_lower_bound_ind with (z := e1); [| lia].
  intros x IH Hx Hlt. destruct (Z.eq_dec x e1) as [-> | Hne]; [lia |].
  pose proof (IH (x - 1)). pose proof (fixed_pow_decay_step (x - 1)).
  replace (x - 1 + 1) with x in * by lia. lia.
Qed.

(** ** The reward curve *)

Lemma mul_fixed_point_mono (r d1 d2 : Z) :
  0 <= r -> 0 <= d1 -> d1 <= d2 ->
  BlockReward.mul_fixed_point r d1 <= BlockReward.mul_fixed_point r d2.
Proof.
  intros Hr H1 H2. unfold BlockReward.mul_fixed_point.
  rewrite !Z.shiftr_div_pow2 by lia.
  assert (r * d1 / 2 ^ 32 <= r * d2 / 2 ^ 32) by (apply Z.div_le_mono; [lia | nia]).
  destruct (u64_max <? r * d1 / 2 ^ 32) eqn:E1, (u64_max <? r * d2 / 2 ^ 32) eqn:E2; lia.
Qed.

(** The schedule from height 2 on, as the larger of the curve and the tail. *)
Lemma expected_reward_max (h : Z) :
  2 <= h ->
  expected_reward h =
  Z.max (BlockReward.mul_fixed_point Reward.INITIAL_REWARD (fixed_pow_decay (h - 1)))
    Reward.TAIL_REWARD.
Proof.
  intros Hh. unfold expected_reward.
  assert (h =? 0 = false) as -> by lia. assert (h =? 1 = false) as -> by lia.
  destruct (_ <=? Reward.TAIL_REWARD) eqn:E; lia.
Qed.

Lemma expected_reward_one : expected_reward 1 = Reward.INITIAL_REWARD.
Proof. reflexivity. Qed.

Lemma curve_le_initial (e : Z) :
  is_u64 e ->
  BlockReward.mul_fixed_point Reward.INITIAL_REWARD (fixed_pow_decay e) <= Reward.INITIAL_REWARD.
Proof.
  intros He. destruct (fixed_pow_decay_range e He) as [H0 H1].
  transitivity (BlockReward.mul_fixed_point Reward.INITIAL_REWARD FP_ONE).
  - apply mul_fixed_point_mono; [done | exact H0 | exact H1].
  - by vm_compute.
Qed.

Lemma expected_reward_step (h : Z) :
  1 <= h -> h + 1 < 2 ^ 64 -> expected_reward (h + 1) <= expected_reward h.
Proof.
  intros H1 H2. rewrite (expected_reward_max (h + 1)) by lia.
  destruct (Z.eq_dec h 1) as [-> | Hne].
  - rewrite expected_reward_one. pose proof (curve_le_initial (1 + 1 - 1) ltac:(unfold is_u; lia)).
    apply Z.max_lub; [done | by vm_compute].
  - rewrite expected_reward_max by lia. apply Z.max_le_compat_r.
    apply mul_fixed_point_mono; [done | |].
    + apply fixed_pow_decay_range. unfold is_u. lia.
    + apply fixed_pow_decay_antitone; lia.
Qed.

Lemma reward_antitone_aux (h1 h2 : Z) :
  1 <= h1 -> h1 <= h2 -> h2 < 2 ^ 64 -> expected_reward h2 <= expected_reward h1.
Proof.
  intros H0 H1. pattern h2. apply Zlt_lower_bound_ind with (z := h1); [| lia].
  intros x IH Hx Hlt. destruct (Z.eq_dec x h1) as [-> | Hne]; [lia |].
  pose proof (IH (x - 1)). pose proof (expected_reward_step (x - 1)).
  replace (x - 1 + 1) with x in * by lia. lia.
Qed.

Lemma expected_reward_bounds (h : Z) :
  1 <= h < 2 ^ 64 -> Reward.TAIL_REWARD <= expected_reward h <= Reward.INITIAL_REWARD.
Proof.
  intros H. split; [| rewrite <- expected_reward_one; apply reward_antitone_aux; lia].
  destruct (Z.eq_dec h 1) as [-> | Hne]; [by vm_compute |].
  rewrite expected_reward_max by lia. lia.
Qed.

(** The block reward never increases with the height, over the whole range
    of [u64] heights, although it is computed by truncating fixed-point binary
    exponentiation. *)
Lemma expected_reward_antitone (h1 h2 : Z) :
  1 <= h1 -> h1 <= h2 -> is_u64 h2 -> expected_reward h2 <= expected_reward h1.
Proof. intros H1 H2 [_ H3]. by apply reward_antitone_aux. Qed.

Lemma expected_reward_antitone_witness :
  expected_reward 1051921 <= expected_reward 1051920.
Proof. apply (expected_reward_antitone 1051920 1051921); unfold is_u; lia. Defined.

(** The first height at which the reward is the tail emission. *)
Definition TAIL_ONSET : Z := 4327299.

(** Tail emission starts at height 4,327,299 exactly (about 16.5 years of
    two-minute blocks) and is permanent; before it the reward is strictly above
    the tail and never above the initial reward. *)
Lemma expected_reward_tail (h : Z) :
  is_u64 h -> 1 <= h ->
  (TAIL_ONSET <= h -> expected_reward h = Reward.TAIL_REWARD) /\
  (h < TAIL_ONSET -> Reward.TAIL_REWARD < expected_reward h <= Reward.INITIAL_REWARD).
Proof.
  intros [_ Hu] H1. destruct (expected_reward_bounds h ltac:(lia)) as [Hlo Hhi].
  unfold TAIL_ONSET in *. split; intros H.
  - pose proof (reward_antitone_aux 4327299 h ltac:(lia) H Hu) as Ha.
    assert (expected_reward 4327299 = Reward.TAIL_REWARD) as Hv by (vm_compute; done). lia.
  - pose proof (reward_antitone_aux h 4327298 H1 ltac:(lia) ltac:(lia)) as Ha.
    assert (Reward.TAIL_REWARD < expected_reward 4327298) as Hv by (vm_compute; done). lia.
Qed.

Lemma expected_reward_tail_witness :
  expected_reward 5000000 = Reward.TAIL_REWARD /\ Reward.TAIL_REWARD < expected_reward 1000.
Proof.
  split.
  - apply (expected_reward_tail 5000000); unfold is_u, TAIL_ONSET; lia.
  - apply (expected_reward_tail 1000); unfold is_u, TAIL_ONSET; lia.
Defined.

(** The exponentiation loop returns for every [u64] exponent within its 64
    iterations, with a decay factor between zero and one (fixed point), and the
    factor never increases with the exponent. *)
Lemma fixed_pow_decay_total (e : Z) :
  is_u64 e ->
  exists r, fixed_pow_loop 64 e FP_ONE DECAY_FP = Some r /\ 0 <= r <= FP_ONE /\
            (is_u64 (e + 1) -> fixed_pow_decay (e + 1) <= r).
Proof.
  intros He. pose proof (fixed_pow_decay_loop e He) as Hl.
  exists (fixed_pow_decay e). split_and!; [exact Hl | | |].
  - by apply fixed_pow_decay_range.
  - by apply fixed_pow_decay_range.
  - unfold is_u in *. intros He'. apply fixed_pow_decay_step; lia.
Qed.

Lemma fixed_pow_decay_total_witness :
  exists r, fixed_pow_loop 64 1051920 FP_ONE DECAY_FP = Some r /\ 0 <= r <= FP_ONE.
Proof.
  destruct (fixed_pow_decay_total 1051920) as (r & H1 & H2 & _); [unfold is_u; lia |].
  exists r. exact (conj H1 H2).
Defined.

(** ** Cumulative supply *)

(** The schedule's exact cumulative sum over the heights [1..=n]. *)
Fixpoint reward_sum (n : nat) : Z :=
  match n with O => 0 | S n' => reward_sum n' + expected_reward (Z.of_nat n) end.

Lemma reward_sum_bounds (n : nat) :
  Z.of_nat n < 2 ^ 64 ->
  Z.of_nat n * Reward.TAIL_REWARD <= reward_sum n <= Z.of_nat n * Reward.INITIAL_REWARD.
Proof.
  induction n as [|n IH]; intros Hn; [simpl; lia |]. cbn [reward_sum].
  pose proof (expected_reward_bounds (Z.of_nat (S n)) ltac:(lia)). lia.
Qed.

Lemma supply_loop_snoc (n : nat) (h total : Z) :
  supply_loop (S n) h total
  = saturating_add 64 (supply_loop n h total) (expected_reward (h + Z.of_nat n)).
Proof.
  revert h total. induction n as [|n IH]; intros h total.
  - cbn [supply_loop]. by rewrite Z.add_0_r.
  - cbn [supply_loop] in *. rewrite IH. do 2 f_equal. lia.
Qed.

(** For the first 2^33 blocks (over 32,000 years) the saturating loop is the
    exact sum of the schedule, so the supply guard never compares against a
    saturated value; the supply lies between the tail rate and the initial rate. *)
Lemma expected_cumulative_supply_exact (height : Z) :
  0 <= height <= 2 ^ 33 ->
  expected_cumulative_supply height = reward_sum (Z.to_nat height) /\
  height * Reward.TAIL_REWARD <= expected_cumulative_supply height
    <= height * Reward.INITIAL_REWARD.
Proof.
  intros Hh. unfold expected_cumulative_supply.
  assert (supply_loop (Z.to_nat height) 1 0 = reward_sum (Z.to_nat height)) as ->.
  { assert (Z.of_nat (Z.to_nat height) <= 2 ^ 33) as Hn by lia.
    induction (Z.to_nat height) as [|n IH]; [done |].
    rewrite supply_loop_snoc, IH by lia. cbn [reward_sum].
    replace (1 + Z.of_nat n) with (Z.of_nat (S n)) by lia.
    unfold saturating_add, umax. apply Z.min_l.
    pose proof (reward_sum_bounds (S n) ltac:(lia)) as [_ Hs]. cbn [reward_sum] in Hs.
    unfold Reward.INITIAL_REWARD in Hs. lia. }
  split; [done |].
  pose proof (reward_sum_bounds (Z.to_nat height) ltac:(lia)) as H.
  rewrite Z2Nat.id in H by lia. exact H.
Qed.

Lemma expected_cumulative_supply_exact_witness :
  expected_cumulative_supply 1000 = reward_sum 1000.
Proof. apply (expected_cumulative_supply_exact 1000); lia. Defined.
