(* ===== verification/Serial.v ===== *)
(** * The consensus codec ([src/serial/src/lib.rs], [src/serial/src/endian.rs])

    [Encodable] / [Decodable] as a record of operations ([codec]); the reader
    is the list of the bytes that are left and a decode error aborts, so a
    decoder is a function to [result io_error (A * rest)].  The two classes
    [CodecOk] (decode after encode) and [CodecCanonical] (encode after decode)
    are the contracts the storage and the block layer rely on; the instances
    below discharge them for every type the block format is made of. *)

From Stdlib Require Ascii String.
From S2P Require Import Prelude.

Inductive io_error :=
| UnexpectedEof
| NonMinimalVarInt
| VecLengthOverflow
| VecTooLong
| TruncatedByteVector
| InvalidUtf8
| NotConsumed
| MaxLenExceeded
| NonCanonicalField
| ZeroNullifier
| UnknownPowSource (disc : Z)
| ForeignError.

(** ** [endian.rs]: byte arrays by shifts and masks *)

Module Endian.
(** [define_le_to_array!]: [res[i] = ((val >> i * 8) & 0xff) as u8]. *)
Definition le_to_array (n : nat) (val : Z) : list Z :=
  map (fun i => Z.land (Z.shiftr val (Z.of_nat i * 8)) 255) (seq 0 n).

(** [define_slice_to_le!]: [res |= (slice[i] as T) << i * 8]. *)
Fixpoint slice_to_le_from (i : Z) (slice : list Z) (res : Z) : Z :=
  match slice with
  | [] => res
  | b :: slice' => slice_to_le_from (i + 1) slice' (Z.lor res (Z.shiftl b (i * 8)))
  end.
Definition slice_to_le (slice : list Z) : Z := slice_to_le_from 0 slice 0.

(** [define_be_to_array!] and [define_slice_to_be!]. *)
Definition be_to_array (n : nat) (val : Z) : list Z :=
  map (fun i => Z.land (Z.shiftr val (Z.of_nat (n - i - 1) * 8)) 255) (seq 0 n).
Fixpoint slice_to_be_from (n i : Z) (slice : list Z) (res : Z) : Z :=
  match slice with
  | [] => res
  | b :: slice' => slice_to_be_from n (i + 1) slice' (Z.lor res (Z.shiftl b ((n - i - 1) * 8)))
  end.
Definition slice_to_be (slice : list Z) : Z :=
  slice_to_be_from (Z.of_nat (length slice)) 0 slice 0.

(** [as] between a signed integer and the unsigned one of its width. *)
Definition to_unsigned (w x : Z) : Z := wrap w x.
Definition to_signed (w x : Z) : Z := if x <? 2 ^ (w - 1) then x else x - 2 ^ w.
End Endian.

(** ** Readers *)

Definition reader (A : Type) : Type := list Z -> result io_error (A * list Z).

(** [Read::read_exact] on a cursor. *)
Definition read_exact (n : nat) : reader (list Z) := fun bs =>
  if (length bs <? n)%nat then Err UnexpectedEof else Ok (take n bs, drop n bs).

Definition read_uint (n : nat) : reader Z := fun bs =>
  let? (raw, rest) := read_exact n bs in Ok (Endian.slice_to_le raw, rest).

Definition read_u8 : reader Z := fun bs =>
  match bs with [] => Err UnexpectedEof | b :: rest => Ok (b, rest) end.

(** [read_i8(..).map(|bit| bit != 0)]: any non-zero byte is [true]. *)
Definition read_bool : reader bool := fun bs =>
  let? (b, rest) := read_u8 bs in Ok (negb (Endian.to_signed 8 b =? 0), rest).

(** [size]-many decodes in a row. *)
Fixpoint decode_n {A : Type} (dec : reader A) (n : nat) : reader (list A) := fun bs =>
  match n with
  | O => Ok ([], bs)
  | S n' =>
      let? (a, bs1) := dec bs in
      let? (l, bs2) := decode_n dec n' bs1 in Ok (a :: l, bs2)
  end.

(** ** Length policy *)

Definition MAX_VEC_BYTES : Z := 32 * 1024 * 1024.

(** [elem_size] is [core::mem::size_of::<T>()]; [usize] is 64 bits. *)
Definition bounded_vec_len (elem_size len : Z) : result io_error Z :=
  let elem := Z.max elem_size 1 in
  let? bytes := ok_or (checked_mul 64 len elem) VecLengthOverflow in
  if MAX_VEC_BYTES <? bytes then Err VecTooLong else Ok len.

(** ** [Encodable] and [Decodable] *)

Record codec (A : Type) : Type := Codec {
  encode : A -> list Z;
  decode : reader A;
  size_of : Z;
  decode_vec : Z -> reader (list A)
}.
Arguments Codec {A} _ _ _ _.
Arguments encode {A} _ _.
Arguments decode {A} _ _.
Arguments size_of {A} _.
Arguments decode_vec {A} _ _ _.

(** The trait's default [decode_vec]: bound the length, then one decode each. *)
Definition default_decode_vec {A : Type} (size : Z) (dec : reader A) (len : Z) : reader (list A) :=
  fun bs => let? _ := bounded_vec_len size len in decode_n dec (Z.to_nat len) bs.

Definition mk_codec {A : Type} (enc : A -> list Z) (dec : reader A) (size : Z) : codec A :=
  Codec enc dec size (default_decode_vec size dec).

(** [impl_int_encodable!] for the unsigned types of [n] bytes. *)
Definition uint_codec (n : nat) : codec Z :=
  mk_codec (Endian.le_to_array n) (read_uint n) (Z.of_nat n).
Definition u16_codec : codec Z := uint_codec 2.
Definition u32_codec : codec Z := uint_codec 4.
Definition u64_codec : codec Z := uint_codec 8.
Definition u128_codec : codec Z := uint_codec 16.

(** [impl_int_encodable!] for the signed types of [n] bytes. *)
Definition sint_codec (n : nat) : codec Z :=
  let w := 8 * Z.of_nat n in
  mk_codec (fun x => Endian.le_to_array n (Endian.to_unsigned w x))
    (fun bs => let? (u, rest) := read_uint n bs in Ok (Endian.to_signed w u, rest))
    (Z.of_nat n).

(** [u8], whose [decode_vec] reads the whole block at once. *)
Definition u8_decode_vec (len : Z) : reader (list Z) := fun bs =>
  let? _ := bounded_vec_len 1 len in
  let ret := take (Z.to_nat len) bs in
  if Z.of_nat (length ret) =? len then Ok (ret, drop (Z.to_nat len) bs)
  else Err TruncatedByteVector.
Definition u8_codec : codec Z := Codec (fun b => [b]) read_u8 1 u8_decode_vec.

Definition bool_codec : codec bool :=
  mk_codec (fun b : bool => [if b then 1 else 0]) read_bool 1.

(** ** [VarInt] *)

Module VarInt.
Definition length (v : Z) : Z :=
  if v <=? 0xFC then 1 else if v <=? 0xFFFF then 3 else if v <=? 0xFFFFFFFF then 5 else 9.

Definition enc (v : Z) : list Z :=
  if v <=? 0xFC then encode u8_codec (wrap 8 v)
  else if v <=? 0xFFFF then 0xFD :: encode u16_codec (wrap 16 v)
  else if v <=? 0xFFFFFFFF then 0xFE :: encode u32_codec (wrap 32 v)
  else 0xFF :: encode u64_codec v.

Definition dec : reader Z := fun bs =>
  let? (n, rest) := read_u8 bs in
  if n =? 0xFF then
    let? (x, rest') := read_uint 8 rest in
    if x <? 0x100000000 then Err NonMinimalVarInt else Ok (x, rest')
  else if n =? 0xFE then
    let? (x, rest') := read_uint 4 rest in
    if x <? 0x10000 then Err NonMinimalVarInt else Ok (x, rest')
  else if n =? 0xFD then
    let? (x, rest') := read_uint 2 rest in
    if x <? 0xFD then Err NonMinimalVarInt else Ok (x, rest')
  else Ok (n, rest).
End VarInt.

(** ** Containers *)

Definition encode_all {A : Type} (c : codec A) (l : list A) : list Z := concat (map (encode c) l).

(** [size_of::<Vec<T>>()] is three words. *)
Definition vec_codec {A : Type} (c : codec A) : codec (list A) :=
  mk_codec (fun l => VarInt.enc (Z.of_nat (length l)) ++ encode_all c l)
    (fun bs => let? (len, rest) := VarInt.dec bs in decode_vec c len rest) 24.

(** [VecDeque<T>]: the same wire form, always one decode per element. *)
Definition deque_codec {A : Type} (c : codec A) : codec (list A) :=
  mk_codec (fun l => VarInt.enc (Z.of_nat (length l)) ++ encode_all c l)
    (fun bs => let? (len, rest) := VarInt.dec bs in
               default_decode_vec (size_of c) (decode c) len rest) 32.

(** The in-memory size of an [Option<T>] depends on niches, hence [size]. *)
Definition option_codec {A : Type} (size : Z) (c : codec A) : codec (option A) :=
  mk_codec (fun o => match o with
                     | Some v => encode bool_codec true ++ encode c v
                     | None => encode bool_codec false
                     end)
    (fun bs => let? (valid, rest) := decode bool_codec bs in
               if (valid : bool) then let? (v, rest') := decode c rest in Ok (Some v, rest')
               else Ok (None, rest)) size.

Definition array_codec {A : Type} (n : nat) (c : codec A) : codec (list A) :=
  mk_codec (encode_all c) (fun bs => decode_n (decode c) n bs) (Z.of_nat n * size_of c).

Definition pair_codec {A B : Type} (size : Z) (ca : codec A) (cb : codec B) : codec (A * B) :=
  mk_codec (fun '(a, b) => encode ca a ++ encode cb b)
    (fun bs => let? (a, bs1) := decode ca bs in
               let? (b, bs2) := decode cb bs1 in Ok ((a, b), bs2)) size.

(** ** Strings *)

(** [str::from_utf8]'s well-formedness test: no overlong form, no surrogate,
    nothing above U+10FFFF. *)
Definition in_range (lo hi b : Z) : bool := (lo <=? b) && (b <=? hi).
Definition is_cont (b : Z) : bool := in_range 0x80 0xBF b.
Fixpoint utf8_valid (bs : list Z) : bool :=
  match bs with
  | [] => true
  | b0 :: t0 =>
      if in_range 0 0x7F b0 then utf8_valid t0
      else match t0 with
      | [] => false
      | b1 :: t1 =>
          if in_range 0xC2 0xDF b0 then is_cont b1 && utf8_valid t1
          else match t1 with
          | [] => false
          | b2 :: t2 =>
              if (b0 =? 0xE0) then in_range 0xA0 0xBF b1 && is_cont b2 && utf8_valid t2
              else if (b0 =? 0xED) then in_range 0x80 0x9F b1 && is_cont b2 && utf8_valid t2
              else if in_range 0xE1 0xEF b0 then is_cont b1 && is_cont b2 && utf8_valid t2
              else match t2 with
              | [] => false
              | b3 :: t3 =>
                  let tail := is_cont b2 && is_cont b3 && utf8_valid t3 in
                  if (b0 =? 0xF0) then in_range 0x90 0xBF b1 && tail
                  else if (b0 =? 0xF4) then in_range 0x80 0x8F b1 && tail
                  else in_range 0xF1 0xF3 b0 && (is_cont b1 && tail)
              end
          end
      end
  end.

(** A [String] is its UTF-8 bytes. *)
Definition string_codec : codec (list Z) :=
  mk_codec (fun b => VarInt.enc (Z.of_nat (length b)) ++ b)
    (fun bs => let? (raw, rest) := decode (vec_codec u8_codec) bs in
               if utf8_valid raw then Ok (raw, rest) else Err InvalidUtf8) 24.

(** The bytes of a literal of the source. *)
Definition ascii_key (s : String.string) : list Z :=
  map (fun a => Z.of_nat (Ascii.nat_of_ascii a)) (String.list_ascii_of_string s).

(** ** [blake3::Hash] and fixed byte arrays: raw bytes ([types/hash.rs]) *)

Definition bytes_codec (n : nat) : codec (list Z) :=
  mk_codec (fun h => h) (read_exact n) (Z.of_nat n).

(** ** The entry points *)

Definition serialize {A : Type} (c : codec A) (a : A) : list Z := encode c a.

Definition deserialize_partial {A : Type} (c : codec A) (data : list Z) : result io_error (A * Z) :=
  let? (rv, rest) := decode c data in
  Ok (rv, Z.of_nat (length data) - Z.of_nat (length rest)).

Definition deserialize {A : Type} (c : codec A) (data : list Z) : result io_error A :=
  let? (rv, consumed) := deserialize_partial c data in
  if negb (consumed =? Z.of_nat (length data)) then Err NotConsumed else Ok rv.

Definition varint_codec : codec Z := mk_codec VarInt.enc VarInt.dec 8.

Definition deserialize_limited_partial {A : Type} (c : codec A) (data : list Z) (max_len : Z) :
    result io_error (A * Z) :=
  let? (len, _) := deserialize_partial varint_codec data in
  if max_len <? len then Err MaxLenExceeded else deserialize_partial c data.

Definition deserialize_limited {A : Type} (c : codec A) (data : list Z) (max_len : Z) :
    result io_error A :=
  let? (len, _) := deserialize_partial varint_codec data in
  if max_len <? len then Err MaxLenExceeded else deserialize c data.

(** ** Endianness lemmas *)

Lemma le_to_array_spec (n : nat) (x : Z) : Endian.le_to_array n x = to_le_bytes n x.
Proof.
  unfold Endian.le_to_array. revert x. induction n as [|n IH]; intros x; [done |].
  cbn [to_le_bytes seq map]. rewrite <- IH, <- seq_shift, map_map. f_equal.
  - rewrite Z.mul_0_l, Z.shiftr_0_r. exact (Z.land_ones x 8 ltac:(lia)).
  - apply map_ext. intros i.
    change 256 with (2 ^ 8). rewrite <- (Z.shiftr_div_pow2 x 8) by lia.
    rewrite Z.shiftr_shiftr by lia.
    do 2 f_equal. lia.
Qed.

(** A value shifted above everything already read is an addition. *)
Lemma lor_shiftl_add (res b i : Z) :
  0 <= i -> 0 <= res < 2 ^ i -> Z.lor res (Z.shiftl b i) = res + b * 2 ^ i.
Proof.
  intros Hi Hr. rewrite <- (Z.shiftl_mul_pow2 b i) by lia. rewrite <- Z.add_lor_land.
  enough (Z.land res (Z.shiftl b i) = 0) as -> by lia.
  apply Z.bits_inj'. intros k Hk. rewrite Z.land_spec, Z.bits_0.
  destruct (Z.lt_ge_cases k i) as [H | H].
  - by rewrite Z.shiftl_spec_low, andb_false_r.
  - rewrite <- (Z.mod_small res (2 ^ i)) by lia. by rewrite Z.mod_pow2_bits_high by lia.
Qed.

Lemma slice_to_le_from_spec (i : Z) (bs : list Z) (res : Z) :
  0 <= i -> Forall is_byte bs -> 0 <= res < 2 ^ (i * 8) ->
  Endian.slice_to_le_from i bs res = res + from_le_bytes bs * 2 ^ (i * 8).
Proof.
  intros Hi Hbs. revert i res Hi. induction Hbs as [|b bs Hb _ IH]; intros i res Hi Hr;
    cbn [Endian.slice_to_le_from from_le_bytes]; [lia |].
  unfold is_byte in Hb. rewrite lor_shiftl_add by lia.
  assert (2 ^ ((i + 1) * 8) = 2 ^ (i * 8) * 256) as Hp
    by (rewrite <- (Z.pow_add_r 2 _ 8); [f_equal |..]; lia).
  rewrite IH; [rewrite Hp |..]; nia.
Qed.

Lemma slice_to_le_spec (bs : list Z) :
  Forall is_byte bs -> Endian.slice_to_le bs = from_le_bytes bs.
Proof. intros H. unfold Endian.slice_to_le. rewrite slice_to_le_from_spec; simpl; lia || done. Qed.

Lemma slice_to_be_from_spec (n i : Z) (bs : list Z) (res : Z) :
  n = i + Z.of_nat (length bs) -> Forall is_byte bs -> 0 <= res ->
  Endian.slice_to_be_from n i bs (res * 2 ^ ((n - i) * 8))
  = res * 2 ^ ((n - i) * 8) + from_le_bytes (rev bs).
Proof.
  intros Hn Hbs. revert i res Hn. induction Hbs as [|b bs Hb Hbs IH]; intros i res Hn Hr.
  { simpl. lia. }
  cbn [Endian.slice_to_be_from rev length] in *. unfold is_byte in Hb.
  set (k := (n - i - 1) * 8). assert (0 <= k) by lia.
  assert (2 ^ ((n - i) * 8) = 256 * 2 ^ k) as ->
    by (change 256 with (2 ^ 8); rewrite <- Z.pow_add_r; [f_equal |..]; lia).
  assert (Z.lor (res * (256 * 2 ^ k)) (Z.shiftl b k) = (res * 256 + b) * 2 ^ k) as ->.
  { rewrite Z.lor_comm, (Z.shiftl_mul_pow2 b k) by lia.
    replace (res * (256 * 2 ^ k)) with (Z.shiftl res (k + 8))
      by (rewrite Z.shiftl_mul_pow2, Z.pow_add_r by lia; lia).
    rewrite lor_shiftl_add; rewrite ?Z.pow_add_r by lia; nia. }
  replace k with ((n - (i + 1)) * 8) by lia. rewrite IH by lia.
  replace ((n - (i + 1)) * 8) with (8 * Z.of_nat (length (rev bs)))
    by (rewrite length_rev; lia).
  rewrite from_le_bytes_app, Z.pow_mul_r by lia. change (2 ^ 8) with 256.
  cbn [from_le_bytes]. ring.
Qed.

Lemma slice_to_be_spec (bs : list Z) :
  Forall is_byte bs -> Endian.slice_to_be bs = from_le_bytes (rev bs).
Proof.
  intros H. unfold Endian.slice_to_be.
  by pose proof (slice_to_be_from_spec (Z.of_nat (length bs)) 0 bs 0 ltac:(lia) H ltac:(lia)).
Qed.

Lemma be_to_array_spec (n : nat) (x : Z) : Endian.be_to_array n x = rev (to_le_bytes n x).
Proof.
  rewrite <- le_to_array_spec. unfold Endian.be_to_array, Endian.le_to_array.
  rewrite <- map_rev. apply list_eq. intros i. rewrite !list_lookup_fmap.
  destruct (decide (i < n)%nat) as [Hi | Hi].
  - rewrite rev_alt. change (rev_append (seq 0 n) []) with (reverse (seq 0 n)).
    rewrite reverse_lookup by (rewrite length_seq; lia). rewrite length_seq.
    rewrite !lookup_seq_lt by lia. simpl. do 4 f_equal. lia.
  - rewrite !lookup_ge_None_2; rewrite ?length_rev, ?length_seq; lia || done.
Qed.

(** ** The codec contracts *)

(** [len] elements of [c] pass the allocation bound. *)
Definition vec_fits (size len : Z) : Prop := len * Z.max size 1 <= MAX_VEC_BYTES.

Class CodecOk {A : Type} (c : codec A) (wf : A -> Prop) : Prop := {
  encode_bytes : forall a, wf a -> Forall is_byte (encode c a);
  decode_encode : forall a rest, wf a -> decode c (encode c a ++ rest) = Ok (a, rest);
  decode_vec_encode : forall l rest,
    Forall wf l -> vec_fits (size_of c) (Z.of_nat (length l)) ->
    decode_vec c (Z.of_nat (length l)) (encode_all c l ++ rest) = Ok (l, rest)
}.

Class CodecCanonical {A : Type} (c : codec A) (wf : A -> Prop) : Prop := {
  decode_sound : forall bs a rest, Forall is_byte bs -> decode c bs = Ok (a, rest) ->
    wf a /\ bs = encode c a ++ rest;
  decode_vec_sound : forall bs n l rest,
    Forall is_byte bs -> 0 <= n -> decode_vec c n bs = Ok (l, rest) ->
    Forall wf l /\ n = Z.of_nat (length l) /\ vec_fits (size_of c) n /\
    bs = encode_all c l ++ rest
}.

Lemma bounded_vec_len_ok (size len : Z) :
  0 <= len -> vec_fits size len -> bounded_vec_len size len = Ok len.
Proof.
  unfold bounded_vec_len, vec_fits, checked_mul. intros H0 H.
  assert (checked 64 (len * Z.max size 1) = Some (len * Z.max size 1)) as ->.
  { apply checked_spec. split; [done |]. unfold is_u, MAX_VEC_BYTES in *. nia. }
  cbn [ok_or]. by assert (MAX_VEC_BYTES <? len * Z.max size 1 = false) as -> by lia.
Qed.

Lemma bounded_vec_len_inv (size len r : Z) :
  bounded_vec_len size len = Ok r -> r = len /\ vec_fits size len.
Proof.
  unfold bounded_vec_len, vec_fits, checked_mul. intros H. inv_result.
  apply ok_or_ok, checked_spec in E as [<- _]. lia.
Qed.

Lemma decode_n_encode {A : Type} (c : codec A) (wf : A -> Prop) (l : list A) (rest : list Z) :
  (forall a rest, wf a -> decode c (encode c a ++ rest) = Ok (a, rest)) ->
  Forall wf l -> decode_n (decode c) (length l) (encode_all c l ++ rest) = Ok (l, rest).
Proof.
  intros Hc. unfold encode_all. induction 1 as [|a l Ha _ IH]; [done |].
  cbn [length decode_n map concat]. rewrite <- app_assoc, Hc by done. by rewrite IH.
Qed.

Lemma decode_n_sound {A : Type} (c : codec A) (wf : A -> Prop) (n : nat) (bs : list Z)
    (l : list A) (rest : list Z) :
  (forall bs a rest, Forall is_byte bs -> decode c bs = Ok (a, rest) ->
     wf a /\ bs = encode c a ++ rest) ->
  Forall is_byte bs -> decode_n (decode c) n bs = Ok (l, rest) ->
  Forall wf l /\ n = length l /\ bs = encode_all c l ++ rest.
Proof.
  intros Hc. revert bs l. induction n as [|n IH]; intros bs l Hb H; cbn [decode_n] in H.
  - by inv_result.
  - inv_result. destruct (Hc _ _ _ Hb E) as [Ha ->]. apply Forall_app in Hb as [_ Hb].
    destruct (IH _ _ Hb E0) as (Hl & -> & ->). unfold encode_all. cbn [map concat length].
    rewrite <- app_assoc. auto.
Qed.

(** For a codec with the default [decode_vec] the element law is enough. *)
Lemma mk_codec_ok {A : Type} (enc : A -> list Z) (dec : reader A) (size : Z) (wf : A -> Prop) :
  (forall a, wf a -> Forall is_byte (enc a)) ->
  (forall a rest, wf a -> dec (enc a ++ rest) = Ok (a, rest)) ->
  CodecOk (mk_codec enc dec size) wf.
Proof.
  intros Hb Hd. split; [exact Hb | exact Hd |]. intros l rest Hl Hf.
  unfold mk_codec, default_decode_vec in *. cbn [decode_vec size_of] in *.
  rewrite bounded_vec_len_ok by (lia || done). rewrite Nat2Z.id.
  by apply (decode_n_encode (mk_codec enc dec size) wf).
Qed.

Lemma mk_codec_canonical {A : Type} (enc : A -> list Z) (dec : reader A) (size : Z)
    (wf : A -> Prop) :
  (forall bs a rest, Forall is_byte bs -> dec bs = Ok (a, rest) -> wf a /\ bs = enc a ++ rest) ->
  CodecCanonical (mk_codec enc dec size) wf.
Proof.
  intros Hd. split; [exact Hd |]. intros bs n l rest Hb Hn H.
  unfold mk_codec, default_decode_vec in H. cbn [decode_vec] in H. inv_result.
  apply bounded_vec_len_inv in E as [-> Hf].
  destruct (decode_n_sound (mk_codec enc dec size) wf _ _ _ _ Hd Hb H) as (H1 & H2 & H3).
  split_and!; [done | lia | done | done].
Qed.

(** ** Integers *)

Lemma read_exact_app (n : nat) (bs rest : list Z) :
  length bs = n -> read_exact n (bs ++ rest) = Ok (bs, rest).
Proof.
  intros <-. unfold read_exact. rewrite length_app.
  assert ((length bs + length rest <? length bs)%nat = false) as -> by (apply Nat.ltb_ge; lia).
  by rewrite take_app_length, drop_app_length.
Qed.

Lemma read_exact_inv (n : nat) (bs raw rest : list Z) :
  read_exact n bs = Ok (raw, rest) -> bs = raw ++ rest /\ length raw = n.
Proof.
  unfold read_exact. intros H. inv_result. apply Nat.ltb_ge in E.
  by rewrite take_drop, length_take, Nat.min_l.
Qed.

Lemma read_uint_encode (n : nat) (x : Z) (rest : list Z) :
  0 <= x < 256 ^ Z.of_nat n -> read_uint n (Endian.le_to_array n x ++ rest) = Ok (x, rest).
Proof.
  intros Hx. unfold read_uint. rewrite le_to_array_spec.
  rewrite read_exact_app by apply to_le_bytes_length.
  by rewrite slice_to_le_spec, le_bytes_roundtrip by (done || apply to_le_bytes_are_bytes).
Qed.

Lemma read_uint_sound (n : nat) (bs : list Z) (x : Z) (rest : list Z) :
  Forall is_byte bs -> read_uint n bs = Ok (x, rest) ->
  0 <= x < 256 ^ Z.of_nat n /\ bs = Endian.le_to_array n x ++ rest.
Proof.
  intros Hb H. unfold read_uint in H. inv_result. apply read_exact_inv in E as [-> Hl].
  apply Forall_app in Hb as [Hb _]. rewrite slice_to_le_spec, le_to_array_spec by done.
  rewrite <- Hl, bytes_le_roundtrip by done. split; [by apply from_le_bytes_bound | done].
Qed.

#[export] Instance uint_ok (n : nat) : CodecOk (uint_codec n) (fun x => 0 <= x < 256 ^ Z.of_nat n).
Proof.
  apply mk_codec_ok.
  - intros a _. rewrite le_to_array_spec. apply to_le_bytes_are_bytes.
  - intros a rest Ha. by apply read_uint_encode.
Qed.

#[export] Instance uint_canonical (n : nat) :
  CodecCanonical (uint_codec n) (fun x => 0 <= x < 256 ^ Z.of_nat n).
Proof. apply mk_codec_canonical. intros. by apply read_uint_sound. Qed.

Lemma to_signed_unsigned (w x : Z) :
  0 < w -> - 2 ^ (w - 1) <= x < 2 ^ (w - 1) ->
  Endian.to_signed w (Endian.to_unsigned w x) = x.
Proof.
  intros Hw Hx. unfold Endian.to_signed, Endian.to_unsigned, wrap.
  assert (2 ^ w = 2 * 2 ^ (w - 1)) as Hp
    by (rewrite <- (Z.pow_succ_r 2 (w - 1)) by lia; f_equal; lia).
  destruct (Z.lt_ge_cases x 0) as [Hn | Hn].
  - rewrite <- (Z.mod_add x 1), Z.mod_small by lia.
    assert (x + 1 * 2 ^ w <? 2 ^ (w - 1) = false) as -> by lia. lia.
  - rewrite Z.mod_small by lia. by assert (x <? 2 ^ (w - 1) = true) as -> by lia.
Qed.

#[export] Instance sint_ok (n : nat) :
  CodecOk (sint_codec (S n))
    (fun x => - 2 ^ (8 * Z.of_nat (S n) - 1) <= x < 2 ^ (8 * Z.of_nat (S n) - 1)).
Proof.
  apply mk_codec_ok.
  - intros a _. rewrite le_to_array_spec. apply to_le_bytes_are_bytes.
  - intros a rest Ha. rewrite read_uint_encode.
    + by rewrite to_signed_unsigned by lia.
    + change 256 with (2 ^ 8). rewrite <- Z.pow_mul_r by lia. apply wrap_is_u. lia.
Qed.

(** ** [u8] and its block read *)

Lemma encode_all_u8 (l : list Z) : encode_all u8_codec l = l.
Proof. unfold encode_all. induction l as [|b l IH]; [done |].
  cbn [map concat]. by rewrite IH.
Qed.

#[export] Instance u8_ok : CodecOk u8_codec is_byte.
Proof.
  split; [by constructor | done |]. intros l rest Hl Hf.
  rewrite encode_all_u8. cbn [u8_codec decode_vec]. unfold u8_decode_vec.
  rewrite bounded_vec_len_ok by (lia || done). rewrite Nat2Z.id, take_app_length, drop_app_length.
  by rewrite Z.eqb_refl.
Qed.

#[export] Instance u8_canonical : CodecCanonical u8_codec is_byte.
Proof.
  split.
  - intros [|b bs] a rest Hb H; cbn in H; [discriminate |]. inv_result.
    split; [by inversion Hb | done].
  - intros bs n l rest Hb Hn H. cbn [u8_codec decode_vec] in H. unfold u8_decode_vec in H.
    inv_result. apply bounded_vec_len_inv in E as [_ Hf]. rewrite encode_all_u8, take_drop.
    split_and!; [by apply Forall_take | lia | done | done].
Qed.

#[export] Instance bool_ok : CodecOk bool_codec (fun _ => True).
Proof.
  apply mk_codec_ok; [| by intros []].
  intros a _. constructor; [| constructor]. unfold is_byte. destruct a; lia.
Qed.

(** ** [VarInt] laws *)

#[export] Instance varint_ok : CodecOk varint_codec is_u64.
Proof.
  apply mk_codec_ok; intros v; unfold VarInt.enc.
  - intros _. repeat case_match; cbn [encode u8_codec u16_codec u32_codec u64_codec uint_codec mk_codec];
      rewrite ?le_to_array_spec; repeat constructor; try apply to_le_bytes_are_bytes; unfold is_byte; try lia.
    all: apply Z.mod_pos_bound; lia.
  - intros rest [H0 H1]. unfold VarInt.dec.
    destruct (v <=? 0xFC) eqn:E1; [| destruct (v <=? 0xFFFF) eqn:E2;
      [| destruct (v <=? 0xFFFFFFFF) eqn:E3]];
      cbn [encode u8_codec u16_codec u32_codec u64_codec uint_codec mk_codec app read_u8].
    + rewrite wrap_small by (unfold is_u; lia).
      assert (v =? 0xFF = false) as -> by lia. assert (v =? 0xFE = false) as -> by lia.
      by assert (v =? 0xFD = false) as -> by lia.
    + rewrite wrap_small by (unfold is_u; lia). simpl (_ =? _). cbv iota.
      rewrite read_uint_encode by (simpl; lia). by assert (v <? 0xFD = false) as -> by lia.
    + rewrite wrap_small by (unfold is_u; lia). simpl (_ =? _). cbv iota.
      rewrite read_uint_encode by (simpl; lia). by assert (v <? 0x10000 = false) as -> by lia.
    + simpl (_ =? _). cbv iota. rewrite read_uint_encode by (simpl; lia).
      by assert (v <? 0x100000000 = false) as -> by lia.
Qed.

#[export] Instance varint_canonical : CodecCanonical varint_codec is_u64.
Proof.
  apply mk_codec_canonical. intros bs v rest Hb H. unfold VarInt.dec in H.
  destruct bs as [|n bs]; [discriminate H |]. cbn [read_u8] in H.
  inversion Hb as [| ? ? Hn Hbs]; subst. unfold is_byte in Hn. unfold VarInt.enc, is_u.
  inv_result;
    try match goal with E : read_uint _ _ = Ok _ |- _ =>
      apply read_uint_sound in E as [Hv ->]; [| done]; simpl in Hv end;
    repeat match goal with |- context [?a <=? ?b] =>
      first [ assert (a <=? b = true) as -> by lia | assert (a <=? b = false) as -> by lia ] end;
    rewrite ?wrap_small by (unfold is_u; lia);
    (split; [lia |]);
    repeat match goal with E : (n =? _) = true |- _ => apply Z.eqb_eq in E; subst n end;
    reflexivity.
Qed.

Lemma varint_dec_enc (v : Z) (rest : list Z) :
  is_u64 v -> VarInt.dec (VarInt.enc v ++ rest) = Ok (v, rest).
Proof. apply (decode_encode (c := varint_codec)). Qed.

(** [length] is the number of bytes written. *)
Lemma varint_length_enc (v : Z) : VarInt.length v = Z.of_nat (length (VarInt.enc v)).
Proof.
  unfold VarInt.length, VarInt.enc. repeat case_match; try done;
    cbn [encode u16_codec u32_codec u64_codec uint_codec mk_codec length];
    by rewrite le_to_array_spec, to_le_bytes_length.
Qed.

(** ** Container laws *)

Definition vec_wf {A : Type} (c : codec A) (wf : A -> Prop) (l : list A) : Prop :=
  Forall wf l /\ vec_fits (size_of c) (Z.of_nat (length l)).

Lemma vec_fits_u64 (size len : Z) : 0 <= len -> vec_fits size len -> is_u64 len.
Proof. unfold vec_fits, MAX_VEC_BYTES, is_u. nia. Qed.

Section containers.
Context {A : Type} (c : codec A) (wf : A -> Prop).

Lemma encode_all_bytes `{!CodecOk c wf} (l : list A) :
  Forall wf l -> Forall is_byte (encode_all c l).
Proof.
  unfold encode_all. induction 1 as [|a l Ha _ IH]; [constructor |].
  cbn [map concat]. apply Forall_app. split; [by apply (encode_bytes (wf := wf)) | done].
Qed.

#[export] Instance vec_ok `{!CodecOk c wf} : CodecOk (vec_codec c) (vec_wf c wf).
Proof.
  apply mk_codec_ok; intros l.
  - intros [Hl Hf]. apply Forall_app. split; [| by apply encode_all_bytes].
    apply (encode_bytes (c := varint_codec) (wf := is_u64)). eapply vec_fits_u64; [lia | done].
  - intros rest [Hl Hf]. rewrite <- app_assoc.
    rewrite varint_dec_enc by (eapply vec_fits_u64; [lia | done]).
    by apply decode_vec_encode.
Qed.

#[export] Instance vec_canonical `{!CodecCanonical c wf} :
  CodecCanonical (vec_codec c) (vec_wf c wf).
Proof.
  apply mk_codec_canonical. intros bs l rest Hb H. inv_result.
  destruct (decode_sound (c := varint_codec) (wf := is_u64) _ _ _ Hb E) as [Hn ->].
  apply Forall_app in Hb as [_ Hb]. unfold is_u in Hn.
  destruct (decode_vec_sound (wf := wf) _ _ _ _ Hb (proj1 Hn) H) as (Hl & -> & Hf & ->).
  rewrite app_assoc. split; [done | reflexivity].
Qed.

#[export] Instance deque_ok `{!CodecOk c wf} : CodecOk (deque_codec c) (vec_wf c wf).
Proof.
  apply mk_codec_ok; intros l.
  - intros [Hl Hf]. apply Forall_app. split; [| by apply encode_all_bytes].
    apply (encode_bytes (c := varint_codec) (wf := is_u64)). eapply vec_fits_u64; [lia | done].
  - intros rest [Hl Hf]. rewrite <- app_assoc.
    rewrite varint_dec_enc by (eapply vec_fits_u64; [lia | done]). unfold default_decode_vec.
    rewrite bounded_vec_len_ok by (lia || done). rewrite Nat2Z.id.
    apply (decode_n_encode c wf); [apply decode_encode | done].
Qed.

Definition option_wf (o : option A) : Prop := from_option wf True o.

#[export] Instance option_ok `{!CodecOk c wf} (size : Z) : CodecOk (option_codec size c) option_wf.
Proof.
  apply mk_codec_ok; intros [v|] H; cbn in H.
  - apply Forall_app. split; [| by apply (encode_bytes (wf := wf))].
    repeat constructor; unfold is_byte; lia.
  - repeat constructor; unfold is_byte; lia.
  - intros H'. rewrite <- app_assoc, (decode_encode (c := bool_codec) (wf := fun _ => True)) by done.
    by rewrite decode_encode.
  - intros _. by rewrite (decode_encode (c := bool_codec) (wf := fun _ => True)).
Qed.

Definition array_wf (n : nat) (l : list A) : Prop := length l = n /\ Forall wf l.

#[export] Instance array_ok `{!CodecOk c wf} (n : nat) : CodecOk (array_codec n c) (array_wf n).
Proof.
  apply mk_codec_ok; intros l.
  - intros [_ Hl]. by apply encode_all_bytes.
  - intros rest [<- Hl]. apply (decode_n_encode c wf); [apply decode_encode | done].
Qed.

#[export] Instance array_canonical `{!CodecCanonical c wf} (n : nat) :
  CodecCanonical (array_codec n c) (array_wf n).
Proof.
  apply mk_codec_canonical. intros bs l rest Hb H.
  destruct (decode_n_sound c wf n bs l rest decode_sound Hb H) as (Hl & -> & ->). done.
Qed.

Context {B : Type} (d : codec B) (wfb : B -> Prop).
Definition pair_wf (p : A * B) : Prop := wf p.1 /\ wfb p.2.

#[export] Instance pair_ok `{!CodecOk c wf, !CodecOk d wfb} (size : Z) :
  CodecOk (pair_codec size c d) pair_wf.
Proof.
  apply mk_codec_ok; intros [a b].
  - intros [Ha Hb]. apply Forall_app. split; [by eapply encode_bytes | by apply (encode_bytes (wf := wfb))].
  - intros rest [Ha Hb]. rewrite <- app_assoc, (decode_encode (wf := wf)) by done.
    by rewrite (decode_encode (wf := wfb)).
Qed.

#[export] Instance pair_canonical `{!CodecCanonical c wf, !CodecCanonical d wfb} (size : Z) :
  CodecCanonical (pair_codec size c d) pair_wf.
Proof.
  apply mk_codec_canonical. intros bs [a b] rest Hb H. inv_result.
  apply decode_sound in E as [Ha ->]; [| done]. apply Forall_app in Hb as [_ Hb].
  apply decode_sound in E0 as [Hb' ->]; [| done]. rewrite <- app_assoc. done.
Qed.
End containers.

Definition bytes_wf (n : nat) (h : list Z) : Prop := length h = n /\ Forall is_byte h.

#[export] Instance bytes_ok (n : nat) : CodecOk (bytes_codec n) (bytes_wf n).
Proof.
  apply mk_codec_ok; [by intros h [_ H] |]. intros h rest [H _]. by apply read_exact_app.
Qed.

#[export] Instance bytes_canonical (n : nat) : CodecCanonical (bytes_codec n) (bytes_wf n).
Proof.
  apply mk_codec_canonical. intros bs h rest Hb H. apply read_exact_inv in H as [-> Hl].
  apply Forall_app in Hb as [Hb _]. done.
Qed.

Definition string_wf (s : list Z) : Prop := vec_wf u8_codec is_byte s /\ utf8_valid s = true.

Lemma vec_u8_encode (b : list Z) :
  encode (vec_codec u8_codec) b = VarInt.enc (Z.of_nat (length b)) ++ b.
Proof. cbn [vec_codec mk_codec encode]. by rewrite encode_all_u8. Qed.

#[export] Instance string_ok : CodecOk string_codec string_wf.
Proof.
  apply mk_codec_ok; intros s.
  - intros [Hs _]. rewrite <- vec_u8_encode. by eapply encode_bytes.
  - intros rest [Hs Hu]. rewrite <- vec_u8_encode.
    rewrite (decode_encode (wf := vec_wf u8_codec is_byte)) by done. by rewrite Hu.
Qed.

#[export] Instance string_canonical : CodecCanonical string_codec string_wf.
Proof.
  apply mk_codec_canonical. intros bs s rest Hb H. inv_result.
  apply (decode_sound (wf := vec_wf u8_codec is_byte)) in E as [Hs ->]; [| done].
  by rewrite vec_u8_encode.
Qed.

(** ** Named instances and automation for structures of fields *)

Lemma codec_ok_weaken {A : Type} (c : codec A) (wf wf' : A -> Prop) :
  CodecOk c wf -> (forall a, wf' a -> wf a) -> CodecOk c wf'.
Proof.
  intros Hc Hw. split.
  - intros a Ha. by apply (encode_bytes (wf := wf)), Hw.
  - intros a rest Ha. by apply (decode_encode (wf := wf)), Hw.
  - intros l rest Hl Hf. apply (decode_vec_encode (wf := wf)); [| done].
    by eapply Forall_impl.
Qed.

#[export] Instance u16_ok : CodecOk u16_codec (is_u 16) := uint_ok 2.
#[export] Instance u32_ok : CodecOk u32_codec is_u32 := uint_ok 4.
#[export] Instance u64_ok : CodecOk u64_codec is_u64 := uint_ok 8.
#[export] Instance u16_canonical : CodecCanonical u16_codec (is_u 16) := uint_canonical 2.
#[export] Instance u32_canonical : CodecCanonical u32_codec is_u32 := uint_canonical 4.
#[export] Instance u64_canonical : CodecCanonical u64_codec is_u64 := uint_canonical 8.

(** One law per field, in order: encoding, decoding back, and decoding first. *)
Ltac encode_fields :=
  repeat first [by eapply encode_bytes | apply Forall_app; split].
Ltac decode_fields :=
  rewrite <- ?app_assoc; repeat (rewrite decode_encode by eassumption).
Ltac sound_fields :=
  repeat match goal with
  | Hb : Forall is_byte ?bs, E : decode ?c ?bs = Ok (_, _) |- _ =>
      apply decode_sound in E as [? ->]; [| exact Hb]; apply Forall_app in Hb as [_ Hb]
  end.

(** ** Entry-point lemmas *)

Section entry.
Context {A : Type} (c : codec A) (wf : A -> Prop).

Lemma deserialize_serialize `{!CodecOk c wf} (a : A) :
  wf a -> deserialize c (serialize c a) = Ok a.
Proof.
  intros Ha. unfold deserialize, deserialize_partial, serialize.
  rewrite <- (app_nil_r (encode c a)), decode_encode by done. cbn [length].
  by rewrite Z.sub_0_r, Z.eqb_refl.
Qed.

Lemma serialize_deserialize `{!CodecCanonical c wf} (data : list Z) (a : A) :
  Forall is_byte data -> deserialize c data = Ok a -> wf a /\ serialize c a = data.
Proof.
  intros Hb H. unfold deserialize, deserialize_partial in H. inv_result.
  apply decode_sound in E0 as [Ha ->]; [| done]. split; [done |].
  apply negb_false_iff, Z.eqb_eq in E1. rewrite length_app in E1.
  destruct l as [|x l]; [by rewrite app_nil_r |]. cbn [length] in E1. lia.
Qed.

(** A value that survives the round trip is well-formed: well-formedness of a
    concrete value by evaluation. *)
Lemma wf_of_roundtrip `{!CodecCanonical c wf} (a : A) :
  forallb is_byteb (serialize c a) = true -> deserialize c (serialize c a) = Ok a -> wf a.
Proof. intros Hb Hd. by eapply serialize_deserialize; [apply forallb_is_byte |]. Qed.
End entry.

(** ** Properties *)

(** The per-element reading of [u8]s that the block read replaces. *)
Definition u8_decode_each (len : Z) : reader (list Z) := default_decode_vec 1 read_u8 len.

Lemma decode_n_u8 (n : nat) (bs : list Z) :
  decode_n read_u8 n bs
  = if (n <=? length bs)%nat then Ok (take n bs, drop n bs) else Err UnexpectedEof.
Proof.
  revert bs. induction n as [|n IH]; intros bs; [done |].
  destruct bs as [|b bs]; [done |]. cbn [decode_n read_u8 length take drop]. rewrite IH.
  change (S n <=? S (length bs))%nat with (n <=? length bs)%nat.
  by destruct (n <=? length bs)%nat.
Qed.

(** Reading a [Vec<u8>] in one block is a cost change and nothing else: on
    every input and every length it consumes the same bytes and yields the same
    vector as one decode per element, and it fails exactly when that fails. *)
Lemma u8_bulk_decode_equiv (len : Z) (bs : list Z) :
  0 <= len ->
  match u8_decode_vec len bs, u8_decode_each len bs with
  | Ok (l1, r1), Ok (l2, r2) => l1 = l2 /\ r1 = r2 /\ bs = l1 ++ r1
  | Err _, Err _ => True
  | _, _ => False
  end.
Proof.
  intros Hlen. unfold u8_decode_vec, u8_decode_each, default_decode_vec.
  destruct (bounded_vec_len 1 len); [| done]. rewrite decode_n_u8, length_take.
  destruct (Z.to_nat len <=? length bs)%nat eqn:E.
  - apply Nat.leb_le in E. rewrite Nat.min_l, Z2Nat.id, Z.eqb_refl by lia. by rewrite take_drop.
  - apply Nat.leb_gt in E. rewrite Nat.min_r by lia.
    by assert (Z.of_nat (length bs) =? len = false) as -> by (apply Z.eqb_neq; lia).
Qed.

Lemma u8_bulk_decode_equiv_witness :
  u8_decode_vec 2 [7; 8; 9] = Ok ([7; 8], [9]) /\
  match u8_decode_vec 2 [7; 8; 9], u8_decode_each 2 [7; 8; 9] with
  | Ok (l1, r1), Ok (l2, r2) => l1 = l2 /\ r1 = r2 /\ [7; 8; 9] = l1 ++ r1
  | Err _, Err _ => True
  | _, _ => False
  end.
Proof. split; [reflexivity | apply (u8_bulk_decode_equiv 2 [7; 8; 9]); lia]. Defined.

(** The variable-length integer is a bijection between [u64] and its wire
    forms: every value is read back from its encoding followed by anything, its
    encoding has the length [length] announces, and a byte string that decodes
    to a value starts with exactly that value's encoding, so no value has two
    accepted encodings. *)
Lemma varint_bijective (v : Z) (bs rest : list Z) :
  is_u64 v -> Forall is_byte bs ->
  VarInt.dec (VarInt.enc v ++ rest) = Ok (v, rest) /\
  Z.of_nat (length (VarInt.enc v)) = VarInt.length v /\
  (VarInt.dec bs = Ok (v, rest) -> bs = VarInt.enc v ++ rest).
Proof.
  intros Hv Hb. split_and!.
  - by apply varint_dec_enc.
  - by rewrite varint_length_enc.
  - intros H. by apply (decode_sound (c := varint_codec)) in H as [_ ->].
Qed.

Lemma varint_bijective_witness :
  VarInt.dec [0xFD; 0x00; 0x01] = Ok (256, []) /\ [0xFD; 0x00; 0x01] = VarInt.enc 256 ++ [] /\
  VarInt.dec [0xFD; 0x01; 0x00] = Err NonMinimalVarInt.
Proof.
  split_and!; [reflexivity | | reflexivity].
  apply (varint_bijective 256 [0xFD; 0x00; 0x01] []); [unfold is_u; lia | | reflexivity].
  repeat constructor; unfold is_byte; lia.
Defined.

(** No length on the wire can make a vector decode allocate more than the
    32 MiB policy: a decode that succeeds has at most [MAX_VEC_BYTES] projected
    bytes, and a larger declared length is refused whatever bytes follow. *)
Lemma vec_decode_bounded {A : Type} (c : codec A) (wf : A -> Prop) (Hc : CodecCanonical c wf)
    (bs rest : list Z) (l : list A) (len : Z) (tail : list Z) :
  Forall is_byte bs -> Forall is_byte tail -> is_u64 len ->
  (decode (vec_codec c) bs = Ok (l, rest) ->
   Z.of_nat (length l) * Z.max (size_of c) 1 <= MAX_VEC_BYTES) /\
  (MAX_VEC_BYTES < len * Z.max (size_of c) 1 ->
   is_ok (decode (vec_codec c) (VarInt.enc len ++ tail)) = false).
Proof.
  intros Hb Ht Hl. split.
  - intros H. by apply (decode_sound (wf := vec_wf c wf)) in H as [[_ Hf] _].
  - intros Hbig. cbn [vec_codec mk_codec decode]. rewrite varint_dec_enc by done.
    destruct (decode_vec c len tail) as [[l' r']|e] eqn:E; [| done].
    destruct (decode_vec_sound _ _ _ _ Ht (proj1 Hl) E) as (_ & _ & Hf & _).
    unfold vec_fits in Hf. lia.
Qed.

Lemma vec_decode_bounded_witness :
  is_ok (decode (vec_codec u64_codec) (VarInt.enc 0xFFFFFFFF ++ [1; 2; 3])) = false.
Proof.
  apply (vec_decode_bounded u64_codec _ (uint_canonical 8) [] [] [] 0xFFFFFFFF [1; 2; 3]);
    [constructor | | unfold is_u; lia | unfold MAX_VEC_BYTES, u64_codec; cbn; lia].
  repeat constructor; unfold is_byte; lia.
Defined.
