(* ===== verification/Zkas.v ===== *)
(** * The language of circuits ([src/zkas/types.rs], [opcode.rs], [ast.rs], [constants.rs])

    Circuits are written in a small language and compiled to a binary that the
    prover and the verifier run.  This file holds what the stages share: the
    types of values, the table of opcodes with their signatures, the syntax
    tree, and the limits of the binary.  Strings are lists of bytes; lines and
    columns are [usize]s and only serve messages and debug information. *)

From Stdlib Require Import String.
From S2P Require Import Prelude Serial.

Notation text := (list Z).

(** ** Types ([types.rs]) *)

Inductive HeapType := HeapVar_ | HeapLit.

Definition HeapType_repr (t : HeapType) : Z := match t with HeapVar_ => 0 | HeapLit => 1 end.
Definition HeapType_from_repr (b : Z) : option HeapType :=
  if b =? 0 then Some HeapVar_ else if b =? 1 then Some HeapLit else None.

Inductive VarType :=
| Dummy | EcPoint | EcFixedPoint | EcFixedPointShort | EcFixedPointBase | EcNiPoint
| Base | BaseArray | Scalar | ScalarArray | MerklePath | SparseMerklePath | Uint32 | Uint64 | Any.

#[export] Instance VarType_eq : EqDecision VarType.
Proof. solve_decision. Defined.

Definition VarType_repr (t : VarType) : Z :=
  match t with
  | Dummy => 0x00 | EcPoint => 0x01 | EcFixedPoint => 0x02 | EcFixedPointShort => 0x03 | EcFixedPointBase => 0x04
  | EcNiPoint => 0x05 | Base => 0x10 | BaseArray => 0x11 | Scalar => 0x12 | ScalarArray => 0x13
  | MerklePath => 0x20 | SparseMerklePath => 0x21 | Uint32 => 0x30 | Uint64 => 0x31 | Any => 0xff
  end.

(** The dummy type of the parser has no representation to read back. *)
Definition VarType_from_repr (b : Z) : option VarType :=
  match b with
  | 0x01 => Some EcPoint | 0x02 => Some EcFixedPoint | 0x03 => Some EcFixedPointShort | 0x04 => Some EcFixedPointBase
  | 0x05 => Some EcNiPoint | 0x10 => Some Base | 0x11 => Some BaseArray | 0x12 => Some Scalar | 0x13 => Some ScalarArray
  | 0x20 => Some MerklePath | 0x21 => Some SparseMerklePath | 0x30 => Some Uint32 | 0x31 => Some Uint64 | 0xff => Some Any
  | _ => None
  end.

Inductive LitType := LitDummy | LitUint64.

Definition LitType_repr (t : LitType) : Z := match t with LitDummy => 0 | LitUint64 => 1 end.
Definition LitType_from_repr (b : Z) : option LitType := if b =? 1 then Some LitUint64 else None.
Definition to_vartype (t : LitType) : VarType := match t with LitDummy => Dummy | LitUint64 => Uint64 end.

(** ** Opcodes ([opcode.rs]) *)

Inductive Opcode :=
| Noop | EcAdd | EcMul | EcMulBase | EcMulShort | EcMulVarBase | EcGetX | EcGetY
| PoseidonHash | MerkleRoot | SparseMerkleRoot | BaseAdd | BaseMul | BaseSub | WitnessBase
| RangeCheck | LessThanStrict | LessThanLoose | BoolCheck | IsEqualBase | IsNotEqualBase | LessThanOrEqual
| NotBase | BaseLtStrict | BaseDiv | SetMembership | CondSelect | ZeroCondSelect
| ConstrainEqualBase | ConstrainEqualPoint | ConstrainInstance | DebugPrint.

#[export] Instance Opcode_eq : EqDecision Opcode.
Proof. solve_decision. Defined.

(** One row per opcode: its byte, its name, what it returns and what it takes. *)
Definition opcode_row (op : Opcode) : Z * string * list VarType * list VarType :=
  match op with
  | Noop => (0x00, "noop", [], [])
  | EcAdd => (0x01, "ec_add", [EcPoint], [EcPoint; EcPoint])
  | EcMul => (0x02, "ec_mul", [EcPoint], [Scalar; EcFixedPoint])
  | EcMulBase => (0x03, "ec_mul_base", [EcPoint], [Base; EcFixedPointBase])
  | EcMulShort => (0x04, "ec_mul_short", [EcPoint], [Base; EcFixedPointShort])
  | EcMulVarBase => (0x05, "ec_mul_var_base", [EcPoint], [Base; EcNiPoint])
  | EcGetX => (0x08, "ec_get_x", [Base], [EcPoint])
  | EcGetY => (0x09, "ec_get_y", [Base], [EcPoint])
  | PoseidonHash => (0x10, "poseidon_hash", [Base], [BaseArray])
  | MerkleRoot => (0x20, "merkle_root", [Base], [Uint32; MerklePath; Base])
  | SparseMerkleRoot => (0x21, "sparse_merkle_root", [Base], [Base; SparseMerklePath; Base])
  | BaseAdd => (0x30, "base_add", [Base], [Base; Base])
  | BaseMul => (0x31, "base_mul", [Base], [Base; Base])
  | BaseSub => (0x32, "base_sub", [Base], [Base; Base])
  | WitnessBase => (0x40, "witness_base", [Base], [Uint64])
  | RangeCheck => (0x50, "range_check", [], [Uint64; Base])
  | LessThanStrict => (0x51, "less_than_strict", [], [Base; Base])
  | LessThanLoose => (0x52, "less_than_loose", [], [Base; Base])
  | BoolCheck => (0x53, "bool_check", [], [Base])
  | IsEqualBase => (0x54, "is_equal_base", [Base], [Base; Base])
  | IsNotEqualBase => (0x62, "is_not_equal", [Base], [Base; Base])
  | LessThanOrEqual => (0x55, "less_than_or_equal", [Base], [Base; Base])
  | NotBase => (0x56, "not_base", [Base], [Base])
  | BaseLtStrict => (0x57, "base_lt_strict", [Base], [Base; Base])
  | BaseDiv => (0x58, "base_div", [Base], [Base; Base])
  | SetMembership => (0x59, "set_membership", [Base], [Base; SparseMerklePath; Base; Base])
  | CondSelect => (0x60, "cond_select", [Base], [Base; Base; Base])
  | ZeroCondSelect => (0x61, "zero_cond", [Base], [Base; Base])
  | ConstrainEqualBase => (0xe0, "constrain_equal_base", [], [Base; Base])
  | ConstrainEqualPoint => (0xe1, "constrain_equal_point", [], [EcPoint; EcPoint])
  | ConstrainInstance => (0xf0, "constrain_instance", [], [Base])
  | DebugPrint => (0xff, "debug", [], [Any])
  end%string.

(** All but the internal [Noop]. *)
Definition opcodes_listed : list Opcode :=
  [EcAdd; EcMul; EcMulBase; EcMulShort; EcMulVarBase; EcGetX; EcGetY; PoseidonHash; MerkleRoot; SparseMerkleRoot; BaseAdd; BaseMul;
   BaseSub; WitnessBase; RangeCheck; LessThanStrict; LessThanLoose; BoolCheck; IsEqualBase; IsNotEqualBase; LessThanOrEqual;
   NotBase; BaseLtStrict; BaseDiv; SetMembership; CondSelect; ZeroCondSelect; ConstrainEqualBase; ConstrainEqualPoint;
   ConstrainInstance; DebugPrint].

Definition opcode_repr (op : Opcode) : Z := (opcode_row op).1.1.1.
Definition opcode_name (op : Opcode) : text := ascii_key (opcode_row op).1.1.2.
Definition ret_types (op : Opcode) : list VarType := (opcode_row op).1.2.
Definition arg_types (op : Opcode) : list VarType := (opcode_row op).2.
Definition from_repr (b : Z) : option Opcode := List.find (fun op => opcode_repr op =? b) opcodes_listed.
Definition from_name (n : text) : option Opcode := List.find (fun op => bool_decide (opcode_name op = n)) opcodes_listed.

Definition returns (op : Opcode) : bool := match ret_types op with [] => false | _ => true end.

(** ** The syntax tree ([ast.rs]) *)

Record Constant := { c_name : text; c_typ : VarType; c_line : Z; c_column : Z }.
Record Witness := { w_name : text; w_typ : VarType; w_line : Z; w_column : Z }.
Record Variable_ := { v_name : text; v_typ : VarType; v_line : Z; v_column : Z }.
Record Literal := { l_name : text; l_typ : LitType; l_line : Z; l_column : Z }.

Inductive StatementType := StNoop | StAssign | StCall.

#[export] Instance StatementType_eq : EqDecision StatementType.
Proof. solve_decision. Defined.

Inductive Statement :=
| mkStatement (typ : StatementType) (opcode : Opcode) (lhs : option Variable_) (rhs : list Arg) (line : Z)
with Arg := ArgVar (v : Variable_) | ArgLit (l : Literal) | ArgFunc (f : Statement).

Definition s_typ (s : Statement) : StatementType := let '(mkStatement t _ _ _ _) := s in t.
Definition s_opcode (s : Statement) : Opcode := let '(mkStatement _ op _ _ _) := s in op.
Definition s_lhs (s : Statement) : option Variable_ := let '(mkStatement _ _ v _ _) := s in v.
Definition s_rhs (s : Statement) : list Arg := let '(mkStatement _ _ _ args _) := s in args.
Definition s_line (s : Statement) : Z := let '(mkStatement _ _ _ _ l) := s in l.

(** ** Limits ([constants.rs]) *)

Definition MAX_K : Z := 16.
Definition MAX_NS_LEN : Z := 32.
Definition MIN_BIN_SIZE : Z := 10.
Definition MAX_BIN_SIZE : Z := 1024 * 1024.
Definition MAX_CONSTANTS : Z := 1024.
Definition MAX_LITERALS : Z := 4096.
Definition MAX_WITNESSES : Z := 4096.
Definition MAX_OPCODES : Z := 4096.
Definition MAX_ARGS_PER_OPCODE : Z := 256.
Definition MAX_HEAP_SIZE : Z := MAX_CONSTANTS + MAX_WITNESSES + MAX_OPCODES.
Definition MAX_STRING_LEN : Z := 1024.
Definition MAX_RECURSION_DEPTH : nat := 16.
Definition ALLOWED_FIELDS : list text := [ascii_key "pallas"].

Definition SECTION_TYPE_SOURCE_HASH : Z := 1.
Definition SECTION_TYPE_CONSTANT : Z := 2.
Definition SECTION_TYPE_LITERAL : Z := 3.
Definition SECTION_TYPE_WITNESS : Z := 4.
Definition SECTION_TYPE_CIRCUIT : Z := 5.
Definition SECTION_TYPE_DEBUG : Z := 6.

(** [str::parse] for an unsigned integer of [w] bits: digits after an optional
    plus sign. *)
Fixpoint parse_digits (w acc : Z) (s : text) : option Z :=
  match s with
  | [] => Some acc
  | c :: rest => if in_range 48 57 c then n ← checked w (acc * 10 + (c - 48)); parse_digits w n rest else None
  end.
Definition parse_uint (w : Z) (s : text) : option Z :=
  match s with
  | [] => None
  | c :: rest => if c =? 43 then match rest with [] => None | _ => parse_digits w 0 rest end else parse_digits w 0 s
  end.
Definition parse_u64 : text -> option Z := parse_uint 64.

(** ** The errors of the front end: a message at a position, or a panic *)

Inductive ZkasError := ZkasAbort (msg : string) (line column : Z) | Panic.
Notation ZRes A := (result ZkasError A).

Definition abort {A : Type} (msg : string) (line column : Z) : ZRes A := Err (ZkasAbort msg line column).

(** Indexing, as [v[i]]. *)
Definition index {A : Type} (l : list A) (i : nat) : ZRes A := ok_or (l !! i) Panic.

(** ** The tables *)

Lemma from_repr_ok op : op <> Noop -> from_repr (opcode_repr op) = Some op.
Proof. by destruct op. Qed.

Lemma from_repr_inv (b : Z) op : from_repr b = Some op -> op <> Noop /\ opcode_repr op = b.
Proof.
  unfold from_repr. intros [Hin Hb]%List.find_some. apply Z.eqb_eq in Hb. split; [| done].
  intros ->. by repeat destruct Hin as [Hin|Hin].
Qed.

Lemma from_name_ok op : op <> Noop -> from_name (opcode_name op) = Some op.
Proof. by destruct op. Qed.

Lemma opcode_repr_byte op : is_byte (opcode_repr op).
Proof. destruct op; unfold is_byte, is_u; cbn; lia. Qed.

Lemma VarType_repr_ok t : t <> Dummy -> VarType_from_repr (VarType_repr t) = Some t.
Proof. by destruct t. Qed.

Lemma VarType_repr_byte t : is_byte (VarType_repr t).
Proof. destruct t; unfold is_byte, is_u; cbn; lia. Qed.

(** Every opcode returns at most one value. *)
Lemma ret_types_short op : returns op = true -> exists t, ret_types op = [t].
Proof. destruct op; intros; try discriminate; by eexists. Qed.
