(* ===== verification/ZkasBinary.v ===== *)
(** * Circuit binaries ([src/zkas/compiler.rs], [decoder.rs])

    The last stage of the compiler writes a checked syntax tree as bytes: a
    header and sections of constants, literals, witness types and opcodes whose
    arguments are positions in a heap, the list of all values in the order in
    which they come into being.  The decoder reads such a binary, from any
    source, and refuses what exceeds its limits or refers to what is not there.
    A loop over an offset is a function of the bytes that are left. *)

From Stdlib Require Import String.
From S2P Require Import Prelude Serial Zkas.

(** ** The compiler *)

Definition BINARY_VERSION : Z := 3.
Definition MAGIC_BYTES : list Z := [0x0b; 0x01; 0xb1; 0x35].

Record Compiler := {
  cc_namespace : text; cc_k : Z; cc_constants : list Constant; cc_witnesses : list Witness; cc_statements : list Statement;
  cc_literals : list Literal; cc_debug_info : bool; cc_source_hash : option text
}.

(** [Iterator::position] and [rposition]: the first and the last match. *)
Fixpoint position {A : Type} (p : A -> bool) (l : list A) : option nat :=
  match l with [] => None | x :: l' => if p x then Some 0%nat else S <$> position p l' end.
Fixpoint rposition {A : Type} (p : A -> bool) (l : list A) : option nat :=
  match l with
  | [] => None
  | x :: l' => match rposition p l' with Some i => Some (S i) | None => if p x then Some 0%nat else None end
  end.

Definition lookup_heap (heap : list text) (name : text) : option nat := rposition (fun n => bool_decide (n = name)) heap.
Definition lookup_literal (lits : list Literal) (name : text) : option nat :=
  position (fun l => bool_decide (l_name l = name)) lits.

Definition varint (n : nat) : list Z := serialize varint_codec (Z.of_nat n).
Definition section_bytes (ty : Z) (data : list Z) : list Z := ty :: to_le_bytes 4 (wrap 32 (Z.of_nat (length data))) ++ data.

Definition compile_arg (heap : list text) (lits : list Literal) (a : Arg) : ZRes (list Z) :=
  match a with
  | ArgVar v =>
      match lookup_heap heap (v_name v) with
      | None => abort "Failed finding a heap reference" (v_line v) (v_column v)
      | Some i => Ok (HeapType_repr HeapVar_ :: varint i)
      end
  | ArgLit l =>
      match lookup_literal lits (l_name l) with
      | None => abort "Failed finding literal" (l_line l) (l_column l)
      | Some i => Ok (HeapType_repr HeapLit :: varint i)
      end
  | ArgFunc _ => Err Panic
  end.

Fixpoint compile_args (heap : list text) (lits : list Literal) (args : list Arg) : ZRes (list Z) :=
  match args with
  | [] => Ok []
  | a :: rest => let? bs := compile_arg heap lits a in let? bs' := compile_args heap lits rest in Ok (bs ++ bs')
  end.

(** The state of the pass over the statements: the names on the heap, the bytes
    of the section, and the positions of the equalities that were added. *)
Record CodeGen := { g_heap : list text; g_data : list Z; g_extra : list (Z * Z) }.

Definition lhs_of (i : Statement) : ZRes Variable_ := ok_or (s_lhs i) Panic.

Definition compile_statement (lits : list Literal) (i : Statement) (g : CodeGen) : ZRes CodeGen :=
  let? (existing, heap) :=
    match s_typ i with
    | StAssign => let? lhs := lhs_of i in Ok (lookup_heap (g_heap g) (v_name lhs), g_heap g ++ [v_name lhs])
    | StCall => Ok (None, g_heap g)
    | StNoop => Err Panic
    end in
  let? args := compile_args heap lits (s_rhs i) in
  let data := g_data g ++ [opcode_repr (s_opcode i)] ++ varint (length (s_rhs i)) ++ args in
  match existing with
  | Some prev =>
      Ok {| g_heap := heap;
            g_data := data ++ [0xe0] ++ varint 2 ++ [HeapType_repr HeapVar_] ++ varint prev ++
                      [HeapType_repr HeapVar_] ++ varint (length heap - 1);
            g_extra := g_extra g ++ [(s_line i, default 0 (v_column <$> s_lhs i))] |}
  | None => Ok {| g_heap := heap; g_data := data; g_extra := g_extra g |}
  end.

Fixpoint compile_statements (lits : list Literal) (l : list Statement) (g : CodeGen) : ZRes CodeGen :=
  match l with
  | [] => Ok g
  | i :: rest => let? g' := compile_statement lits i g in compile_statements lits rest g'
  end.

Definition location_bytes (l : Z * Z) : list Z := serialize varint_codec l.1 ++ serialize varint_codec l.2.
Definition stmt_location (i : Statement) : Z * Z := (s_line i, default 0 (v_column <$> s_lhs i)).

(** The names an assignment leaves in the debug section. *)
Definition assigned_name (i : Statement) : list text :=
  match s_typ i with StAssign => from_option (fun v => [v_name v]) [] (s_lhs i) | _ => [] end.
Definition names_bytes (names : list text) : list Z := concat (map (serialize string_codec) names).

Definition debug_bytes_of (c : Compiler) (extra : list (Z * Z)) : list Z :=
  let assigned := flat_map assigned_name (cc_statements c) in
  varint (length (cc_statements c) + length extra) ++
  concat (map (fun i => location_bytes (stmt_location i)) (cc_statements c)) ++ concat (map location_bytes extra) ++
  varint (length (cc_constants c) + length (cc_witnesses c) + length assigned) ++
  names_bytes (map c_name (cc_constants c)) ++ names_bytes (map w_name (cc_witnesses c)) ++ names_bytes assigned ++
  varint (length (cc_literals c)) ++ names_bytes (map l_name (cc_literals c)).

Definition compile (c : Compiler) : ZRes (list Z) :=
  let header := MAGIC_BYTES ++ [BINARY_VERSION] ++ serialize u32_codec (cc_k c) ++ serialize string_codec (cc_namespace c) in
  let source := match cc_source_hash c with
                | Some h => section_bytes SECTION_TYPE_SOURCE_HASH (serialize string_codec h)
                | None => []
                end in
  let constant_data := concat (map (fun i => VarType_repr (c_typ i) :: serialize string_codec (c_name i)) (cc_constants c)) in
  let literal_data := concat (map (fun i => LitType_repr (l_typ i) :: serialize string_codec (l_name i)) (cc_literals c)) in
  let witness_data := map (fun i => VarType_repr (w_typ i)) (cc_witnesses c) in
  let heap := map c_name (cc_constants c) ++ map w_name (cc_witnesses c) in
  let? g := compile_statements (cc_literals c) (cc_statements c) {| g_heap := heap; g_data := []; g_extra := [] |} in
  let bincode := header ++ source ++ section_bytes SECTION_TYPE_CONSTANT constant_data ++
    section_bytes SECTION_TYPE_LITERAL literal_data ++ section_bytes SECTION_TYPE_WITNESS witness_data ++
    section_bytes SECTION_TYPE_CIRCUIT (g_data g) in
  if cc_debug_info c then Ok (bincode ++ section_bytes SECTION_TYPE_DEBUG (debug_bytes_of c (g_extra g))) else Ok bincode.

(** ** The decoder *)

Record DebugInfo := { opcode_locations : list (Z * Z); heap_names : list text; literal_names : list text }.

Record ZkBinary := {
  zb_namespace : text; zb_k : Z; zb_constants : list (VarType * text); zb_literals : list (LitType * text);
  zb_witnesses : list VarType; zb_opcodes : list (Opcode * list (HeapType * Z)); zb_debug_info : option DebugInfo;
  zb_source_hash : option text
}.

Inductive DecoderError := ZkasErr (msg : string) | ZkasIo (e : io_error).
Notation DRes A := (result DecoderError A).

Definition zkas_err {A : Type} (msg : string) : DRes A := Err (ZkasErr msg).
Definition io {A : Type} (r : result io_error A) : DRes A := match r with Ok a => Ok a | Err e => Err (ZkasIo e) end.

(** A value and the bytes after it: [deserialize_partial(&bytes[offset..])]. *)
Definition take_value {A : Type} (c : codec A) (bs : list Z) : DRes (A * list Z) :=
  let? (v, len) := io (deserialize_partial c bs) in Ok (v, drop (Z.to_nat len) bs).
Definition take_string (max : Z) (bs : list Z) : DRes (text * list Z) :=
  let? (v, len) := io (deserialize_limited_partial string_codec bs max) in Ok (v, drop (Z.to_nat len) bs).

Definition validate_count (count max remaining : Z) : DRes Z :=
  if max <? count then zkas_err "count exceeds maximum allowed"
  else if remaining <? count then zkas_err "count exceeds remaining bytes"
  else Ok count.

(** [parse_constants] and [parse_literals]: a type and a name, again and again. *)
Fixpoint parse_entries {T : Type} (from : Z -> option T) (max : Z) (fuel : nat) (bs : list Z) (acc : list (T * text)) : DRes (list (T * text)) :=
  match bs, fuel with
  | [], _ => Ok acc
  | _ :: _, O => zkas_err "unreachable"
  | b :: rest, S fuel' =>
      if max <=? Z.of_nat (length acc) then zkas_err "Too many entries"
      else
        let? t := ok_or (from b) (ZkasErr "Could not decode the type") in
        let? (name, rest') := take_string MAX_STRING_LEN rest in
        parse_entries from max fuel' rest' (acc ++ [(t, name)])
  end.

Definition parse_constants (bs : list Z) : DRes (list (VarType * text)) := parse_entries VarType_from_repr MAX_CONSTANTS (length bs) bs [].
Definition parse_literals (bs : list Z) : DRes (list (LitType * text)) := parse_entries LitType_from_repr MAX_LITERALS (length bs) bs [].

Fixpoint parse_types (bs : list Z) : DRes (list VarType) :=
  match bs with
  | [] => Ok []
  | b :: rest =>
      let? t := ok_or (VarType_from_repr b) (ZkasErr "Could not decode witness VarType") in
      let? ts := parse_types rest in Ok (t :: ts)
  end.
Definition parse_witnesses (bs : list Z) : DRes (list VarType) :=
  if MAX_WITNESSES <? Z.of_nat (length bs) then zkas_err "Too many witnesses" else parse_types bs.

Fixpoint parse_args (count : nat) (bs : list Z) : DRes (list (HeapType * Z) * list Z) :=
  match count with
  | O => Ok ([], bs)
  | S count' =>
      match bs with
      | [] => zkas_err "Bad offset for circuit"
      | [_] => zkas_err "Bad offset for circuit"
      | ty :: rest =>
          let? (i, rest1) := take_value varint_codec rest in
          let? t := ok_or (HeapType_from_repr ty) (ZkasErr "Could not decode HeapType") in
          if MAX_HEAP_SIZE <? i then zkas_err "Heap index exceeds maximum allowed"
          else let? (args, rest2) := parse_args count' rest1 in Ok ((t, i) :: args, rest2)
      end
  end.

Fixpoint parse_ops (fuel : nat) (bs : list Z) (acc : list (Opcode * list (HeapType * Z))) : DRes (list (Opcode * list (HeapType * Z))) :=
  match bs, fuel with
  | [], _ => Ok acc
  | _ :: _, O => zkas_err "unreachable"
  | b :: rest, S fuel' =>
      if MAX_OPCODES <=? Z.of_nat (length acc) then zkas_err "Too many opcodes"
      else
        let? op := ok_or (from_repr b) (ZkasErr "Could not decode Opcode") in
        let? (n, rest1) := take_value varint_codec rest in
        let? n := validate_count n MAX_ARGS_PER_OPCODE (Z.of_nat (length rest1)) in
        let? (args, rest2) := parse_args (Z.to_nat n) rest1 in
        parse_ops fuel' rest2 (acc ++ [(op, args)])
  end.
Definition parse_circuit (bs : list Z) : DRes (list (Opcode * list (HeapType * Z))) := parse_ops (length bs) bs [].

Fixpoint parse_locations (count : nat) (bs : list Z) : DRes (list (Z * Z) * list Z) :=
  match count with
  | O => Ok ([], bs)
  | S count' =>
      let? (line, rest) := take_value varint_codec bs in
      let? (column, rest1) := take_value varint_codec rest in
      let? (ls, rest2) := parse_locations count' rest1 in Ok ((line, column) :: ls, rest2)
  end.
Fixpoint parse_names (count : nat) (bs : list Z) : DRes (list text * list Z) :=
  match count with
  | O => Ok ([], bs)
  | S count' =>
      let? (name, rest) := take_string MAX_STRING_LEN bs in
      let? (names, rest1) := parse_names count' rest in Ok (name :: names, rest1)
  end.

(** A counted list: the count, checked, and its elements. *)
Definition parse_counted {A : Type} (max : Z) (parse : nat -> list Z -> DRes (list A * list Z)) (bs : list Z) : DRes (list A * list Z) :=
  let? (n, rest) := take_value varint_codec bs in
  let? n := validate_count n max (Z.of_nat (length rest)) in
  parse (Z.to_nat n) rest.

Definition parse_debug (bs : list Z) : DRes DebugInfo :=
  let? (locs, rest) := parse_counted MAX_OPCODES parse_locations bs in
  let? (heap, rest1) := parse_counted MAX_HEAP_SIZE parse_names rest in
  let? (lits, _) := parse_counted MAX_LITERALS parse_names rest1 in
  Ok {| opcode_locations := locs; heap_names := heap; literal_names := lits |}.

(** [SectionReader::next_section]: the section at [pos] and where it ends. *)
Definition next_section (bytes : list Z) (pos : nat) : DRes (option (Z * list Z * nat)) :=
  match bytes !! pos with
  | None => Ok None
  | Some ty =>
      let pos := S pos in
      if (length bytes <? pos + 4)%nat then zkas_err "Unexpected end of binary when reading section length"
      else
        let len := Z.to_nat (from_le_bytes (take 4 (drop pos bytes))) in
        let pos := (pos + 4)%nat in
        if (length bytes <? pos + len)%nat then zkas_err "Section data extends beyond binary end"
        else Ok (Some (ty, take len (drop pos bytes), (pos + len)%nat))
  end.

(** Assignments to the variables of the loop. *)
Definition set_constants (x : list (VarType * text)) (b : ZkBinary) : ZkBinary := {|
  zb_namespace := zb_namespace b; zb_k := zb_k b; zb_constants := x; zb_literals := zb_literals b;
  zb_witnesses := zb_witnesses b; zb_opcodes := zb_opcodes b; zb_debug_info := zb_debug_info b; zb_source_hash := zb_source_hash b |}.
Definition set_literals (x : list (LitType * text)) (b : ZkBinary) : ZkBinary := {|
  zb_namespace := zb_namespace b; zb_k := zb_k b; zb_constants := zb_constants b; zb_literals := x;
  zb_witnesses := zb_witnesses b; zb_opcodes := zb_opcodes b; zb_debug_info := zb_debug_info b; zb_source_hash := zb_source_hash b |}.
Definition set_witnesses (x : list VarType) (b : ZkBinary) : ZkBinary := {|
  zb_namespace := zb_namespace b; zb_k := zb_k b; zb_constants := zb_constants b; zb_literals := zb_literals b;
  zb_witnesses := x; zb_opcodes := zb_opcodes b; zb_debug_info := zb_debug_info b; zb_source_hash := zb_source_hash b |}.
Definition set_opcodes (x : list (Opcode * list (HeapType * Z))) (b : ZkBinary) : ZkBinary := {|
  zb_namespace := zb_namespace b; zb_k := zb_k b; zb_constants := zb_constants b; zb_literals := zb_literals b;
  zb_witnesses := zb_witnesses b; zb_opcodes := x; zb_debug_info := zb_debug_info b; zb_source_hash := zb_source_hash b |}.
Definition set_debug_info (x : DebugInfo) (b : ZkBinary) : ZkBinary := {|
  zb_namespace := zb_namespace b; zb_k := zb_k b; zb_constants := zb_constants b; zb_literals := zb_literals b;
  zb_witnesses := zb_witnesses b; zb_opcodes := zb_opcodes b; zb_debug_info := Some x; zb_source_hash := zb_source_hash b |}.
Definition set_source_hash (x : text) (b : ZkBinary) : ZkBinary := {|
  zb_namespace := zb_namespace b; zb_k := zb_k b; zb_constants := zb_constants b; zb_literals := zb_literals b;
  zb_witnesses := zb_witnesses b; zb_opcodes := zb_opcodes b; zb_debug_info := zb_debug_info b; zb_source_hash := Some x |}.

Definition read_section (debug : bool) (ty : Z) (data : list Z) (b : ZkBinary) : DRes ZkBinary :=
  if ty =? SECTION_TYPE_SOURCE_HASH then let? (h, _) := take_string 64 data in Ok (set_source_hash h b)
  else if ty =? SECTION_TYPE_CONSTANT then let? cs := parse_constants data in Ok (set_constants cs b)
  else if ty =? SECTION_TYPE_LITERAL then let? ls := parse_literals data in Ok (set_literals ls b)
  else if ty =? SECTION_TYPE_WITNESS then let? ws := parse_witnesses data in Ok (set_witnesses ws b)
  else if ty =? SECTION_TYPE_CIRCUIT then let? ops := parse_circuit data in Ok (set_opcodes ops b)
  else if ty =? SECTION_TYPE_DEBUG then
    if debug then let? d := parse_debug data in Ok (set_debug_info d b) else Ok b
  else zkas_err "Unknown section type".

(** [fuel] rounds; a section takes at least five bytes. *)
Fixpoint read_sections (fuel : nat) (debug allow_trailing : bool) (bytes : list Z) (pos : nat) (b : ZkBinary) : DRes (ZkBinary * nat) :=
  match fuel with
  | O => zkas_err "unreachable"
  | S fuel' =>
      if allow_trailing && ((length bytes <? pos + 5)%nat || negb (from_option (in_range 1 6) false (bytes !! pos))) then Ok (b, pos)
      else
        let? next := next_section bytes pos in
        match next with
        | None => Ok (b, pos)
        | Some (ty, data, pos') => let? b' := read_section debug ty data b in read_sections fuel' debug allow_trailing bytes pos' b'
        end
  end.

(** The opcodes that leave a value on the heap. *)
Definition results_of (ops : list (Opcode * list (HeapType * Z))) : nat := length (List.filter (fun o => returns o.1) ops).

Definition arg_in_bounds (available lits : nat) (a : HeapType * Z) : bool :=
  match a.1 with HeapVar_ => a.2 <? Z.of_nat available | HeapLit => a.2 <? Z.of_nat lits end.

Fixpoint validate_ops (base lits : nat) (done ops : list (Opcode * list (HeapType * Z))) : DRes unit :=
  match ops with
  | [] => Ok tt
  | o :: rest =>
      if forallb (arg_in_bounds (base + results_of done) lits) o.2 then validate_ops base lits (done ++ [o]) rest
      else zkas_err "Opcode references an entry that is not available"
  end.

Definition ZkBinary_validate (b : ZkBinary) : DRes unit :=
  let heap_size := (length (zb_constants b) + length (zb_witnesses b) + results_of (zb_opcodes b))%nat in
  let? _ := validate_ops (length (zb_constants b) + length (zb_witnesses b)) (length (zb_literals b)) [] (zb_opcodes b) in
  match zb_debug_info b with
  | None => Ok tt
  | Some d =>
      if negb (length (opcode_locations d) =? length (zb_opcodes b))%nat then zkas_err "Debug info has the wrong number of locations"
      else if negb (length (heap_names d) =? heap_size)%nat then zkas_err "Debug info has the wrong number of heap names"
      else if negb (length (literal_names d) =? length (zb_literals b))%nat then zkas_err "Debug info has the wrong number of literal names"
      else Ok tt
  end.

Definition ZkBinary_parse (bytes : list Z) (debug allow_trailing : bool) : DRes (ZkBinary * nat) :=
  let size := Z.of_nat (length bytes) in
  if size <? MIN_BIN_SIZE then zkas_err "Not enough bytes"
  else if MAX_BIN_SIZE <? size then zkas_err "Binary size exceeds maximum allowed"
  else if negb (bool_decide (take 4 bytes = MAGIC_BYTES)) then zkas_err "Magic bytes are incorrect"
  else
    let? (k, _) := io (deserialize_partial u32_codec (take 4 (drop 5 bytes))) in
    if MAX_K <? k then zkas_err "k param is too high"
    else
      let? (ns, _) := io (deserialize_limited_partial string_codec (drop 9 bytes) MAX_NS_LEN) in
      let? (ns_len, varint_len) := io (deserialize_partial varint_codec (drop 9 bytes)) in
      let start := (9 + Z.to_nat varint_len + Z.to_nat ns_len)%nat in
      let? (b, pos) := read_sections (S (length bytes)) debug allow_trailing bytes start
        {| zb_namespace := ns; zb_k := k; zb_constants := []; zb_literals := []; zb_witnesses := []; zb_opcodes := [];
           zb_debug_info := None; zb_source_hash := None |} in
      let? _ := ZkBinary_validate b in
      Ok (b, pos).

Definition ZkBinary_decode (bytes : list Z) (debug : bool) : DRes ZkBinary := let? (b, _) := ZkBinary_parse bytes debug false in Ok b.
Definition ZkBinary_decode_len (bytes : list Z) (debug : bool) : DRes (ZkBinary * nat) := ZkBinary_parse bytes debug true.

Definition opcode_location (b : ZkBinary) (i : nat) : option (Z * Z) := d ← zb_debug_info b; opcode_locations d !! i.
Definition heap_name (b : ZkBinary) (i : nat) : option text := d ← zb_debug_info b; heap_names d !! i.
Definition literal_name (b : ZkBinary) (i : nat) : option text := d ← zb_debug_info b; literal_names d !! i.
