(* ===== verification/ZkasCompile.v ===== *)
(** * What the compiler writes, the decoder reads

    The instructions a list of statements stands for ([stmts_code]) and the
    proof that a compiled binary, within the limits of the decoder, is read back
    as exactly these instructions with the constants, literals and witness types
    of the source, provided no assignment mentions the name it assigns. *)

From Stdlib Require Import String.
From S2P Require Import Prelude Serial Zkas ZkasBinary.

Definition Instr : Type := Opcode * list (HeapType * Z).

(** ** The instructions of a list of statements *)

Definition resolve_arg (heap : list text) (lits : list Literal) (a : Arg) : option (HeapType * Z) :=
  match a with
  | ArgVar v => (fun i => (HeapVar_, Z.of_nat i)) <$> lookup_heap heap (v_name v)
  | ArgLit l => (fun i => (HeapLit, Z.of_nat i)) <$> lookup_literal lits (l_name l)
  | ArgFunc _ => None
  end.

(** A call leaves the heap alone; an assignment adds a name, and an equality
    with the value the name had. *)
Definition stmt_code (lits : list Literal) (i : Statement) (heap : list text) : option (list Instr * list text) :=
  match s_typ i, s_lhs i with
  | StCall, _ => args ← mapM (resolve_arg heap lits) (s_rhs i); Some ([(s_opcode i, args)], heap)
  | StAssign, Some lhs =>
      let heap' := heap ++ [v_name lhs] in
      args ← mapM (resolve_arg heap' lits) (s_rhs i);
      Some ((s_opcode i, args) ::
            match lookup_heap heap (v_name lhs) with
            | Some prev => [(ConstrainEqualBase, [(HeapVar_, Z.of_nat prev); (HeapVar_, Z.of_nat (length heap))])]
            | None => []
            end, heap')
  | _, _ => None
  end.

Fixpoint stmts_code (lits : list Literal) (l : list Statement) (heap : list text) : option (list Instr * list text) :=
  match l with
  | [] => Some ([], heap)
  | i :: rest =>
      '(code, heap1) ← stmt_code lits i heap;
      '(code', heap2) ← stmts_code lits rest heap1;
      Some (code ++ code', heap2)
  end.

(** Where the added equalities come from. *)
Definition stmt_extra (i : Statement) (heap : list text) : list (Z * Z) :=
  match s_typ i, s_lhs i with
  | StAssign, Some lhs => match lookup_heap heap (v_name lhs) with Some _ => [stmt_location i] | None => [] end
  | _, _ => []
  end.

Fixpoint stmts_extra (l : list Statement) (heap : list text) : list (Z * Z) :=
  match l with
  | [] => []
  | i :: rest => stmt_extra i heap ++ stmts_extra rest (heap ++ assigned_name i)
  end.

Definition start_heap (c : Compiler) : list text := map c_name (cc_constants c) ++ map w_name (cc_witnesses c).

(** ** Bytes of instructions *)

Definition arg_bytes (a : HeapType * Z) : list Z := HeapType_repr a.1 :: serialize varint_codec a.2.
Definition instr_bytes (i : Instr) : list Z := opcode_repr i.1 :: varint (length i.2) ++ concat (map arg_bytes i.2).

Lemma compile_args_code heap lits args bs :
  compile_args heap lits args = Ok bs ->
  exists l, mapM (resolve_arg heap lits) args = Some l /\ bs = concat (map arg_bytes l) /\ length l = length args.
Proof.
  revert bs. induction args as [|a args IH]; intros bs E; cbn [compile_args] in E; [injection E as <-; by exists [] |].
  destruct (compile_arg heap lits a) as [b|] eqn:Ea; [| discriminate]. destruct (compile_args heap lits args) as [bs'|]; [| discriminate].
  injection E as <-. destruct (IH _ eq_refl) as (l' & Hl & -> & Hn).
  assert (exists x, resolve_arg heap lits a = Some x /\ b = arg_bytes x) as (x & Hx & ->).
  { destruct a as [v|l0|f]; cbn [compile_arg resolve_arg] in *; [| | discriminate].
    - destruct (lookup_heap heap (v_name v)) as [i|]; [| discriminate]. injection Ea as <-. by eexists.
    - destruct (lookup_literal lits (l_name l0)) as [i|]; [| discriminate]. injection Ea as <-. by eexists. }
  exists (x :: l'). cbn. rewrite Hx. cbn. rewrite Hl. cbn. split_and!; [done.. |]. by rewrite Hn.
Qed.

Lemma compile_statement_code lits i g g' :
  compile_statement lits i g = Ok g' ->
  exists code, stmt_code lits i (g_heap g) = Some (code, g_heap g') /\
    g_data g' = g_data g ++ concat (map instr_bytes code) /\
    g_extra g' = g_extra g ++ stmt_extra i (g_heap g) /\ g_heap g' = g_heap g ++ assigned_name i /\
    length code = S (length (stmt_extra i (g_heap g))).
Proof.
  unfold compile_statement, stmt_code, lhs_of, stmt_extra, assigned_name, stmt_location. intros E.
  destruct (s_typ i); [discriminate | |].
  - destruct (s_lhs i) as [lhs|]; cbn [ok_or] in E; [| discriminate].
    destruct (compile_args _ _ _) as [bs|] eqn:Ea; [| discriminate]. apply compile_args_code in Ea as (args & Hargs & -> & Hn).
    rewrite Hargs. destruct (lookup_heap (g_heap g) (v_name lhs)) as [prev|]; injection E as <-;
      cbn [g_heap g_data g_extra mbind option_bind]; eexists; (split_and!; [done | | by rewrite ?app_nil_r | done | done]);
      cbn [concat map]; unfold instr_bytes at 1; cbn [fst snd]; rewrite Hn, ?app_nil_r, <- ?app_assoc; [| done].
    rewrite length_app. cbn [length]. replace (length (g_heap g) + 1 - 1)%nat with (length (g_heap g)) by lia.
    do 2 f_equal. cbn [app]. do 3 f_equal. unfold instr_bytes. cbn [fst snd concat map]. by rewrite app_nil_r.
  - destruct (compile_args _ _ _) as [bs|] eqn:Ea; [| discriminate]. apply compile_args_code in Ea as (args & Hargs & -> & Hn).
    rewrite Hargs. injection E as <-. eexists. cbn [g_heap g_data g_extra mbind option_bind].
    split_and!; [done | | by rewrite app_nil_r | by rewrite app_nil_r | done].
    cbn [concat map]. unfold instr_bytes. cbn [fst snd]. by rewrite Hn, app_nil_r.
Qed.

Lemma compile_statements_code lits l g g' :
  compile_statements lits l g = Ok g' ->
  exists code, stmts_code lits l (g_heap g) = Some (code, g_heap g') /\
    g_data g' = g_data g ++ concat (map instr_bytes code) /\
    g_extra g' = g_extra g ++ stmts_extra l (g_heap g) /\ g_heap g' = g_heap g ++ flat_map assigned_name l /\
    length code = (length l + length (stmts_extra l (g_heap g)))%nat.
Proof.
  revert g. induction l as [|i l IH]; intros g E; cbn [compile_statements stmts_code] in *.
  - injection E as <-. exists []. cbn. by rewrite !app_nil_r.
  - destruct (compile_statement lits i g) as [g1|] eqn:E0; [| discriminate].
    apply compile_statement_code in E0 as (code & -> & Hd & Hx & Hh & Hn). destruct (IH _ E) as (code' & Hc & Hd' & Hx' & Hh' & Hn').
    cbn [mbind option_bind]. rewrite Hc. cbn [mbind option_bind stmts_extra flat_map length]. exists (code ++ code'). rewrite <- Hh.
    split_and!; [done | by rewrite Hd', Hd, map_app, concat_app, app_assoc | by rewrite Hx', Hx, app_assoc | by rewrite Hh', Hh, app_assoc |].
    rewrite !length_app. lia.
Qed.

(** ** Reading values back *)

Definition short_string (max : Z) (s : text) : Prop := string_wf s /\ Z.of_nat (length s) <= max.

Lemma partial_encode {A : Type} (c : codec A) (wf : A -> Prop) `{!CodecOk c wf} (a : A) (rest : list Z) :
  wf a -> deserialize_partial c (serialize c a ++ rest) = Ok (a, Z.of_nat (length (serialize c a))).
Proof.
  intros Ha. unfold deserialize_partial, serialize. rewrite decode_encode by done. rewrite length_app. do 2 f_equal. lia.
Qed.

Lemma take_value_encode {A : Type} (c : codec A) (wf : A -> Prop) `{!CodecOk c wf} (a : A) (rest : list Z) :
  wf a -> take_value c (serialize c a ++ rest) = Ok (a, rest).
Proof. intros Ha. unfold take_value. rewrite (partial_encode c wf) by done. cbn [io]. by rewrite Nat2Z.id, drop_app_length. Qed.

Lemma varint_u64 (n : nat) (max : Z) : Z.of_nat n <= max -> max < 2 ^ 64 -> is_u64 (Z.of_nat n).
Proof. unfold is_u. lia. Qed.

Lemma take_varint (n : Z) (rest : list Z) : is_u64 n -> take_value varint_codec (serialize varint_codec n ++ rest) = Ok (n, rest).
Proof. apply (take_value_encode varint_codec is_u64). Qed.

Lemma string_prefix (s : text) : serialize string_codec s = serialize varint_codec (Z.of_nat (length s)) ++ s.
Proof. done. Qed.

Lemma string_len_u64 (s : text) : string_wf s -> is_u64 (Z.of_nat (length s)).
Proof. intros [[_ Hf] _]. by eapply vec_fits_u64; [lia |]. Qed.

Lemma limited_string (max : Z) (s rest : list Z) :
  short_string max s ->
  deserialize_limited_partial string_codec (serialize string_codec s ++ rest) max = Ok (s, Z.of_nat (length (serialize string_codec s))).
Proof.
  intros [Hs Hm]. unfold deserialize_limited_partial. rewrite string_prefix at 1. rewrite <- app_assoc.
  rewrite (partial_encode varint_codec is_u64) by (by apply string_len_u64). rewrite (partial_encode string_codec string_wf) by done.
  destruct (max <? _) eqn:E; [lia | done].
Qed.

Lemma take_string_encode (max : Z) (s rest : list Z) : short_string max s -> take_string max (serialize string_codec s ++ rest) = Ok (s, rest).
Proof. intros Hs. unfold take_string. rewrite limited_string by done. cbn [io]. by rewrite Nat2Z.id, drop_app_length. Qed.

(** ** Reading the sections back *)

Definition entry_bytes {T : Type} (repr : T -> Z) (e : T * text) : list Z := repr e.1 :: serialize string_codec e.2.

Lemma parse_entries_read {T : Type} (repr : T -> Z) (from : Z -> option T) (max : Z) (l : list (T * text)) (fuel : nat) acc :
  Forall (fun e => from (repr e.1) = Some e.1 /\ short_string MAX_STRING_LEN e.2) l ->
  Z.of_nat (length acc + length l) <= max -> (length (concat (map (entry_bytes repr) l)) <= fuel)%nat ->
  parse_entries from max fuel (concat (map (entry_bytes repr) l)) acc = Ok (acc ++ l).
Proof.
  revert fuel acc. induction l as [|[t n] l IH]; intros fuel acc Hl Hm Hf.
  { cbn. rewrite app_nil_r. by destruct fuel. }
  inversion_clear Hl as [|?? [Ht Hn] Hl']. cbn [map concat entry_bytes fst snd app length] in *.
  destruct fuel as [|fuel]; [lia |]. cbn [parse_entries]. destruct (max <=? _) eqn:E; [lia |]. rewrite Ht. cbn [ok_or].
  rewrite take_string_encode by done. rewrite IH; [| done | rewrite length_app; cbn [length]; lia | rewrite length_app in Hf; lia].
  by rewrite <- app_assoc.
Qed.

Lemma parse_types_read (l : list VarType) : Forall (fun t => t <> Dummy) l -> parse_types (map VarType_repr l) = Ok l.
Proof. induction 1 as [|t l Ht _ IH]; [done |]. cbn [map parse_types]. rewrite VarType_repr_ok by done. cbn [ok_or]. by rewrite IH. Qed.

Definition arg_fits (a : HeapType * Z) : Prop := 0 <= a.2 <= MAX_HEAP_SIZE.
Definition instr_fits (i : Instr) : Prop := i.1 <> Noop /\ Forall arg_fits i.2 /\ Z.of_nat (length i.2) <= MAX_ARGS_PER_OPCODE.

Lemma serialize_varint_cons (n : Z) : exists b bs, serialize varint_codec n = b :: bs.
Proof. unfold serialize. cbn [varint_codec encode mk_codec]. unfold VarInt.enc. repeat case_match; cbn; by eexists _, _. Qed.

Lemma parse_args_read (l : list (HeapType * Z)) (rest : list Z) :
  Forall arg_fits l -> parse_args (length l) (concat (map arg_bytes l) ++ rest) = Ok (l, rest).
Proof.
  induction 1 as [|[t n] l Hn _ IH]; [done |]. unfold arg_fits in Hn. cbn [fst snd] in Hn.
  cbn [length map concat parse_args arg_bytes fst snd app]. rewrite <- app_assoc.
  pose proof (take_varint n (concat (map arg_bytes l) ++ rest)) as Ht. destruct (serialize_varint_cons n) as (b & bs & Eb).
  rewrite Eb in Ht |- *. cbn [app] in *. rewrite Ht by (unfold MAX_HEAP_SIZE, MAX_CONSTANTS, MAX_WITNESSES, MAX_OPCODES, is_u in *; lia).
  destruct t; cbn [HeapType_repr HeapType_from_repr Z.eqb ok_or]; (destruct (MAX_HEAP_SIZE <? n) eqn:E; [lia |]); by rewrite IH.
Qed.

Lemma args_bytes_length (l : list (HeapType * Z)) : (length l <= length (concat (map arg_bytes l)))%nat.
Proof. induction l as [|a l IH]; [done |]. cbn [map concat arg_bytes length app]. rewrite length_app. lia. Qed.

Lemma parse_ops_read (l : list Instr) (fuel : nat) acc :
  Forall instr_fits l -> Z.of_nat (length acc + length l) <= MAX_OPCODES -> (length (concat (map instr_bytes l)) <= fuel)%nat ->
  parse_ops fuel (concat (map instr_bytes l)) acc = Ok (acc ++ l).
Proof.
  revert fuel acc. induction l as [|[op args] l IH]; intros fuel acc Hl Hm Hf.
  { cbn. rewrite app_nil_r. by destruct fuel. }
  inversion_clear Hl as [|?? (Hop & Ha & Hn) Hl']. cbn [fst snd] in *.
  cbn [map concat length] in *. unfold instr_bytes at 1 in Hf. unfold instr_bytes at 1. cbn [fst snd app length] in *.
  destruct fuel as [|fuel]; [lia |]. cbn [parse_ops]. destruct (MAX_OPCODES <=? _) eqn:E; [lia |].
  rewrite from_repr_ok by done. cbn [ok_or]. unfold varint. rewrite <- !app_assoc.
  rewrite take_varint by (eapply varint_u64; [exact Hn | done]). unfold validate_count.
  destruct (MAX_ARGS_PER_OPCODE <? _) eqn:E1; [lia |]. pose proof (args_bytes_length args).
  destruct (Z.of_nat (length (_ ++ _)) <? _) eqn:E2; [exfalso; rewrite length_app in E2; apply Z.ltb_lt in E2; clear -H E2; lia |].
  rewrite Nat2Z.id, parse_args_read by done. rewrite IH; [| done | rewrite length_app; cbn [length]; lia | rewrite !length_app in Hf; lia].
  by rewrite <- app_assoc.
Qed.

Lemma parse_locations_read (l : list (Z * Z)) (rest : list Z) :
  Forall (fun p => is_u64 p.1 /\ is_u64 p.2) l -> parse_locations (length l) (concat (map location_bytes l) ++ rest) = Ok (l, rest).
Proof.
  induction 1 as [|[a b] l [Ha Hb] _ IH]; [done |]. cbn [fst snd] in *. cbn [length map concat parse_locations].
  unfold location_bytes at 1. cbn [fst snd]. rewrite <- !app_assoc. rewrite !take_varint by done. by rewrite IH.
Qed.

Lemma parse_names_read (l : list text) (rest : list Z) :
  Forall (short_string MAX_STRING_LEN) l -> parse_names (length l) (names_bytes l ++ rest) = Ok (l, rest).
Proof.
  unfold names_bytes. induction 1 as [|n l Hn _ IH]; [done |]. cbn [length map concat parse_names]. rewrite <- app_assoc.
  rewrite take_string_encode by done. by rewrite IH.
Qed.

Lemma parse_counted_read {A : Type} (max : Z) (parse : nat -> list Z -> DRes (list A * list Z)) (l : list A) (bs rest : list Z) :
  parse (length l) (bs ++ rest) = Ok (l, rest) -> Z.of_nat (length l) <= max -> max < 2 ^ 64 -> (length l <= length bs)%nat ->
  parse_counted max parse (varint (length l) ++ bs ++ rest) = Ok (l, rest).
Proof.
  intros Hp Hm Hu Hl. unfold parse_counted, varint. rewrite take_varint by (by eapply varint_u64). unfold validate_count.
  destruct (max <? _) eqn:E1; [lia |]. destruct (Z.of_nat (length (bs ++ rest)) <? _) eqn:E2; [| by rewrite Nat2Z.id].
  exfalso. rewrite length_app in E2. apply Z.ltb_lt in E2. lia.
Qed.

(** ** The sections of a binary *)

Lemma next_section_read (pre rest data : list Z) (ty : Z) :
  Z.of_nat (length data) < 2 ^ 32 ->
  next_section (pre ++ section_bytes ty data ++ rest) (length pre) =
    Ok (Some (ty, data, (length pre + length (section_bytes ty data))%nat)).
Proof.
  intros Hd. unfold next_section, section_bytes. set (len := to_le_bytes 4 (wrap 32 (Z.of_nat (length data)))).
  assert (length len = 4%nat) as Hl by apply to_le_bytes_length.
  assert (from_le_bytes len = Z.of_nat (length data)) as Hv.
  { unfold len. rewrite wrap_small by (unfold is_u; lia). apply le_bytes_roundtrip. unfold is_u. lia. }
  rewrite lookup_app_r, Nat.sub_diag by lia. cbn [app lookup list_lookup].
  assert (drop (S (length pre)) (pre ++ ty :: (len ++ data) ++ rest) = len ++ data ++ rest) as ->.
  { rewrite drop_app_ge by lia. replace (S (length pre) - length pre)%nat with 1%nat by lia. cbn [drop]. by rewrite app_assoc. }
  assert (drop (S (length pre) + 4) (pre ++ ty :: (len ++ data) ++ rest) = data ++ rest) as ->.
  { rewrite drop_app_ge by lia. replace (S (length pre) + 4 - length pre)%nat with (S (length len)) by lia. cbn [drop].
    by rewrite <- app_assoc, drop_app_length. }
  rewrite (take_app_length' len) by done. rewrite Hv, Nat2Z.id, take_app_length.
  destruct (_ <? S (length pre) + 4)%nat eqn:E1.
  { apply Nat.ltb_lt in E1. rewrite !length_app in E1. cbn [length] in E1. rewrite !length_app in E1. lia. }
  destruct (_ <? S (length pre) + 4 + length data)%nat eqn:E2.
  { apply Nat.ltb_lt in E2. rewrite !length_app in E2. cbn [length] in E2. rewrite !length_app in E2. lia. }
  do 3 f_equal. cbn [length]. rewrite length_app. lia.
Qed.

(** One section after the other. *)
Fixpoint read_list (debug : bool) (l : list (Z * list Z)) (b : ZkBinary) : DRes ZkBinary :=
  match l with [] => Ok b | (ty, data) :: rest => let? b' := read_section debug ty data b in read_list debug rest b' end.

Definition sections_bytes (l : list (Z * list Z)) : list Z := concat (map (fun s => section_bytes s.1 s.2) l).

Lemma read_sections_read (debug : bool) (l : list (Z * list Z)) (fuel : nat) (pre : list Z) b :
  Forall (fun s => Z.of_nat (length s.2) < 2 ^ 32) l -> (length l < fuel)%nat ->
  read_sections fuel debug false (pre ++ sections_bytes l) (length pre) b =
    match read_list debug l b with Ok b' => Ok (b', length (pre ++ sections_bytes l)) | Err e => Err e end.
Proof.
  revert fuel pre b. induction l as [|[ty data] l IH]; intros fuel pre b Hl Hf; (destruct fuel as [|fuel]; [cbn in Hf; lia |]);
    cbn [read_sections andb].
  - unfold sections_bytes. cbn [map concat read_list]. rewrite app_nil_r. unfold next_section. by rewrite lookup_ge_None_2 by lia.
  - inversion_clear Hl as [|?? Hd Hl']. cbn [snd] in Hd. unfold sections_bytes in *. cbn [map concat fst snd read_list].
    rewrite next_section_read by done. destruct (read_section debug ty data b) as [b'|]; [| done].
    rewrite app_assoc. rewrite <- length_app. rewrite IH by (done || (cbn in Hf; lia)). done.
Qed.

(** ** The whole binary *)

Definition code_of (c : Compiler) : option (list Instr * list text) := stmts_code (cc_literals c) (cc_statements c) (start_heap c).
Definition instructions (c : Compiler) : list Instr := from_option fst [] (code_of c).

(** The names of the heap in the order of its entries. *)
Definition heap_of (c : Compiler) : list text := start_heap c ++ flat_map assigned_name (cc_statements c).

Definition debug_of (c : Compiler) : DebugInfo := {|
  opcode_locations := map stmt_location (cc_statements c) ++ stmts_extra (cc_statements c) (start_heap c);
  heap_names := heap_of c; literal_names := map l_name (cc_literals c) |}.

Definition binary_of (debug : bool) (c : Compiler) : ZkBinary := {|
  zb_namespace := cc_namespace c; zb_k := cc_k c; zb_constants := map (fun i => (c_typ i, c_name i)) (cc_constants c);
  zb_literals := map (fun i => (l_typ i, l_name i)) (cc_literals c); zb_witnesses := map w_typ (cc_witnesses c);
  zb_opcodes := instructions c; zb_debug_info := if cc_debug_info c && debug then Some (debug_of c) else None;
  zb_source_hash := cc_source_hash c |}.

(** The limits of the decoder, and of the integers debug information uses. *)
Record fits (c : Compiler) (bytes : list Z) : Prop := {
  fit_size : Z.of_nat (length bytes) <= MAX_BIN_SIZE;
  fit_k : 0 <= cc_k c <= MAX_K;
  fit_namespace : short_string MAX_NS_LEN (cc_namespace c);
  fit_source : from_option (short_string 64) True (cc_source_hash c);
  fit_constants : Z.of_nat (length (cc_constants c)) <= MAX_CONSTANTS /\ Forall (fun i => c_typ i <> Dummy) (cc_constants c);
  fit_literals : Z.of_nat (length (cc_literals c)) <= MAX_LITERALS /\
    Forall (fun i => l_typ i = LitUint64 /\ short_string MAX_STRING_LEN (l_name i)) (cc_literals c);
  fit_witnesses : Z.of_nat (length (cc_witnesses c)) <= MAX_WITNESSES /\ Forall (fun i => w_typ i <> Dummy) (cc_witnesses c);
  fit_code : Z.of_nat (length (instructions c)) <= MAX_OPCODES;
  fit_statements : Forall (fun i => s_opcode i <> Noop /\ Z.of_nat (length (s_rhs i)) <= MAX_ARGS_PER_OPCODE /\
    is_u64 (s_line i) /\ is_u64 (default 0 (v_column <$> s_lhs i))) (cc_statements c);
  fit_names : Forall (short_string MAX_STRING_LEN) (heap_of c)
}.

Lemma rposition_bound {A : Type} (p : A -> bool) (l : list A) (i : nat) : rposition p l = Some i -> (i < length l)%nat.
Proof.
  revert i. induction l as [|x l IH]; intros i E; cbn in *; [discriminate |].
  destruct (rposition p l) as [j|]; [injection E as <-; specialize (IH j eq_refl); lia |].
  destruct (p x); [| discriminate]. injection E as <-. lia.
Qed.

Lemma position_bound {A : Type} (p : A -> bool) (l : list A) (i : nat) : position p l = Some i -> (i < length l)%nat.
Proof.
  revert i. induction l as [|x l IH]; intros i E; cbn in *; [discriminate |].
  destruct (p x); [injection E as <-; lia |]. destruct (position p l) as [j|]; [| discriminate]. injection E as <-. specialize (IH j eq_refl). lia.
Qed.

Lemma resolve_fits heap lits a x :
  resolve_arg heap lits a = Some x -> Z.of_nat (length heap) <= MAX_HEAP_SIZE -> Z.of_nat (length lits) <= MAX_HEAP_SIZE -> arg_fits x.
Proof.
  unfold arg_fits. destruct a as [v|l|f]; cbn [resolve_arg]; [| | discriminate]; intros (i & Hi & ->)%fmap_Some Hh Hl; cbn [snd].
  - apply rposition_bound in Hi. lia.
  - apply position_bound in Hi. lia.
Qed.

Lemma mapM_resolve_fits heap lits args l :
  mapM (resolve_arg heap lits) args = Some l -> Z.of_nat (length heap) <= MAX_HEAP_SIZE -> Z.of_nat (length lits) <= MAX_HEAP_SIZE ->
  Forall arg_fits l /\ length l = length args.
Proof.
  intros E%mapM_Some_1 Hh Hl. split; [| symmetry; by eapply Forall2_length]. induction E as [|a x args l Ha _ IH]; constructor; [| done].
  by eapply resolve_fits.
Qed.

Lemma stmts_code_fits lits l heap code heap' :
  stmts_code lits l heap = Some (code, heap') -> Z.of_nat (length (heap ++ flat_map assigned_name l)) <= MAX_HEAP_SIZE ->
  Z.of_nat (length lits) <= MAX_HEAP_SIZE ->
  Forall (fun i => s_opcode i <> Noop /\ Z.of_nat (length (s_rhs i)) <= MAX_ARGS_PER_OPCODE) l -> Forall instr_fits code.
Proof.
  revert heap code heap'. induction l as [|i l IH]; intros heap code heap' E Hh Hl Hs; cbn [stmts_code] in E; [injection E as <- _; constructor |].
  destruct (stmt_code lits i heap) as [[code1 heap1]|] eqn:E1; [| discriminate]. cbn [mbind option_bind] in E.
  destruct (stmts_code lits l heap1) as [[code2 heap2]|] eqn:E2; [| discriminate]. injection E as <- _.
  inversion_clear Hs as [|?? [Hop Hn] Hs']. cbn [flat_map] in Hh. rewrite app_assoc in Hh.
  assert (heap1 = heap ++ assigned_name i /\ Forall instr_fits code1) as [-> Hc].
  { unfold stmt_code, assigned_name in *. destruct (s_typ i); [discriminate | |].
    - destruct (s_lhs i) as [lhs|]; [| discriminate]. cbn [from_option] in *.
      destruct (mapM _ _) as [args|] eqn:Ea; [| discriminate]. injection E1 as <- <-. split; [done |].
      rewrite !length_app in Hh. cbn [length] in Hh.
      apply mapM_resolve_fits in Ea as [Ha Hlen]; [| rewrite length_app; cbn [length]; lia | done].
      constructor; [split_and!; cbn [fst snd]; [done | done | lia] |].
      destruct (lookup_heap heap (v_name lhs)) as [prev|] eqn:Ep; [| constructor]. apply rposition_bound in Ep.
      constructor; [| constructor]. split_and!; cbn [fst snd]; [done | | done].
      repeat (apply Forall_cons_2; [unfold arg_fits; cbn [fst snd]; lia |]). constructor.
    - destruct (mapM _ _) as [args|] eqn:Ea; [| discriminate]. injection E1 as <- <-. rewrite app_nil_r in *. split; [done |].
      rewrite !length_app in Hh. apply mapM_resolve_fits in Ea as [Ha Hlen]; [| lia | done].
      constructor; [| constructor]. split_and!; cbn [fst snd]; [done | done | lia]. }
  apply Forall_app. split; [done |]. by eapply IH.
Qed.

Definition header_bytes (c : Compiler) : list Z :=
  MAGIC_BYTES ++ [BINARY_VERSION] ++ serialize u32_codec (cc_k c) ++ serialize string_codec (cc_namespace c).

Definition sections_of (c : Compiler) : list (Z * list Z) :=
  match cc_source_hash c with Some h => [(SECTION_TYPE_SOURCE_HASH, serialize string_codec h)] | None => [] end ++
  [(SECTION_TYPE_CONSTANT, concat (map (entry_bytes VarType_repr) (zb_constants (binary_of true c))));
   (SECTION_TYPE_LITERAL, concat (map (entry_bytes LitType_repr) (zb_literals (binary_of true c))));
   (SECTION_TYPE_WITNESS, map VarType_repr (map w_typ (cc_witnesses c)));
   (SECTION_TYPE_CIRCUIT, concat (map instr_bytes (instructions c)))] ++
  if cc_debug_info c then [(SECTION_TYPE_DEBUG, debug_bytes_of c (stmts_extra (cc_statements c) (start_heap c)))] else [].

Lemma ok_inj {E A : Type} (a b : A) : @Ok E A a = Ok b -> a = b.
Proof. by intros [= ->]. Qed.

Lemma compile_layout c bytes :
  compile c = Ok bytes -> bytes = header_bytes c ++ sections_bytes (sections_of c) /\
    code_of c = Some (instructions c, heap_of c) /\
    length (instructions c) = (length (cc_statements c) + length (stmts_extra (cc_statements c) (start_heap c)))%nat.
Proof.
  unfold compile. fold (start_heap c). destruct (compile_statements _ _ _) as [g|] eqn:E; [| discriminate].
  apply compile_statements_code in E as (code & Hc & Hd & Hx & Hh & Hn). cbn [g_heap g_data g_extra app] in *.
  assert (code_of c = Some (code, heap_of c)) as Hcode by (unfold code_of, heap_of; by rewrite Hc, Hh).
  unfold instructions. rewrite Hcode. cbn [from_option fst]. intros Eb. split_and!; [| done | done].
  unfold sections_of, sections_bytes, header_bytes, instructions. rewrite Hcode. cbn [from_option fst]. cbn [binary_of zb_constants zb_literals].
  rewrite Hd, Hx in Eb. rewrite !map_map. cbn [fst snd]. unfold entry_bytes. cbn [fst snd].
  destruct (cc_source_hash c), (cc_debug_info c); apply ok_inj in Eb as <-; cbn [map concat fst snd]; rewrite <- ?app_assoc; cbn [app map concat fst snd]; rewrite ?map_map, <- ?app_assoc, ?app_nil_r;
    reflexivity.
Qed.

Definition blank (c : Compiler) : ZkBinary := {|
  zb_namespace := cc_namespace c; zb_k := cc_k c; zb_constants := []; zb_literals := []; zb_witnesses := []; zb_opcodes := [];
  zb_debug_info := None; zb_source_hash := None |}.

Lemma names_bytes_length (l : list text) : (length l <= length (names_bytes l))%nat.
Proof.
  unfold names_bytes. induction l as [|n l IH]; [done |]. cbn [map concat length]. rewrite length_app, string_prefix, length_app.
  destruct (serialize_varint_cons (Z.of_nat (length n))) as (b & bs & ->). cbn [length]. lia.
Qed.

Lemma locations_bytes_length (l : list (Z * Z)) : (length l <= length (concat (map location_bytes l)))%nat.
Proof.
  induction l as [|[a b] l IH]; [done |]. cbn [map concat length]. unfold location_bytes at 1. cbn [fst snd]. rewrite !length_app.
  destruct (serialize_varint_cons a) as (? & ? & ->). cbn [length]. lia.
Qed.

Lemma names_bytes_app (l l' : list text) : names_bytes (l ++ l') = names_bytes l ++ names_bytes l'.
Proof. unfold names_bytes. by rewrite map_app, concat_app. Qed.

Lemma stmts_extra_from (P : Z * Z -> Prop) l heap : Forall (fun i => P (stmt_location i)) l -> Forall P (stmts_extra l heap).
Proof.
  revert heap. induction l as [|i l IH]; intros heap Hl; [constructor |]. inversion_clear Hl as [|?? Hi Hl']. cbn [stmts_extra].
  apply Forall_app. split; [| by apply IH]. unfold stmt_extra. repeat case_match; by repeat constructor.
Qed.

Lemma read_list_app (debug : bool) (l l' : list (Z * list Z)) b :
  read_list debug (l ++ l') b = let? b' := read_list debug l b in read_list debug l' b'.
Proof. revert b. induction l as [|[ty data] l IH]; intros b; cbn [app read_list]; [done |]. by destruct (read_section debug ty data b). Qed.

(** *** One section of each type *)
Section read_one.
Context (debug : bool) (data : list Z) (b : ZkBinary).
Lemma read_hash : read_section debug SECTION_TYPE_SOURCE_HASH data b = let? (h, _) := take_string 64 data in Ok (set_source_hash h b).
Proof. done. Qed.
Lemma read_constant : read_section debug SECTION_TYPE_CONSTANT data b = let? cs := parse_constants data in Ok (set_constants cs b).
Proof. done. Qed.
Lemma read_literal : read_section debug SECTION_TYPE_LITERAL data b = let? ls := parse_literals data in Ok (set_literals ls b).
Proof. done. Qed.
Lemma read_witness : read_section debug SECTION_TYPE_WITNESS data b = let? ws := parse_witnesses data in Ok (set_witnesses ws b).
Proof. done. Qed.
Lemma read_circuit : read_section debug SECTION_TYPE_CIRCUIT data b = let? ops := parse_circuit data in Ok (set_opcodes ops b).
Proof. done. Qed.
Lemma read_debug : read_section true SECTION_TYPE_DEBUG data b = let? d := parse_debug data in Ok (set_debug_info d b).
Proof. done. Qed.
End read_one.

Section compiled.
Context (c : Compiler) (bytes : list Z) (Hc : compile c = Ok bytes) (Hf : fits c bytes).

Lemma heap_of_small : Z.of_nat (length (heap_of c)) <= MAX_HEAP_SIZE.
Proof.
  destruct Hf as [_ _ _ _ [Hk _] _ [Hw _] Ho _ _]. destruct (compile_layout c bytes Hc) as (_ & _ & Hn).
  unfold heap_of, start_heap, MAX_HEAP_SIZE. rewrite !length_app, !length_map.
  assert (length (flat_map assigned_name (cc_statements c)) <= length (cc_statements c))%nat; [| lia].
  clear Hn. induction (cc_statements c) as [|i l IH]; [done |]. cbn [flat_map length]. rewrite length_app.
  assert (length (assigned_name i) <= 1)%nat; [| lia]. unfold assigned_name. destruct (s_typ i), (s_lhs i); cbn; lia.
Qed.

Lemma code_fits : Forall instr_fits (instructions c).
Proof.
  destruct (compile_layout c bytes Hc) as (_ & Ec & _). eapply stmts_code_fits; [exact Ec | exact heap_of_small | |].
  - pose proof (fit_literals c bytes Hf) as [Hl _]. unfold MAX_HEAP_SIZE, MAX_LITERALS, MAX_CONSTANTS, MAX_WITNESSES, MAX_OPCODES in *. lia.
  - eapply Forall_impl; [exact (fit_statements c bytes Hf) |]. naive_solver.
Qed.

Lemma debug_read : parse_debug (debug_bytes_of c (stmts_extra (cc_statements c) (start_heap c))) = Ok (debug_of c).
Proof.
  destruct (compile_layout c bytes Hc) as (_ & _ & Hn). pose proof heap_of_small as Hh. pose proof (fit_code c bytes Hf) as Ho.
  pose proof (fit_names c bytes Hf) as Hnames. pose proof (fit_literals c bytes Hf) as [Hl Hlits].
  unfold parse_debug, debug_bytes_of. set (extra := stmts_extra _ _) in *.
  set (locs := map stmt_location (cc_statements c) ++ extra).
  assert (Forall (fun p => is_u64 p.1 /\ is_u64 p.2) locs) as Hlocs.
  { pose proof (fit_statements c bytes Hf) as Hs. apply Forall_app. split; [| apply stmts_extra_from]; [apply Forall_map |];
      (eapply Forall_impl; [exact Hs |]); intros i (_ & _ & ? & ?); done. }
  replace (length (cc_statements c) + length extra)%nat with (length locs) by (unfold locs; rewrite length_app, length_map; lia).
  replace (concat (map (fun i => location_bytes (stmt_location i)) (cc_statements c)) ++ concat (map location_bytes extra) ++ _)
    with (concat (map location_bytes locs) ++ varint (length (heap_of c)) ++ names_bytes (heap_of c) ++
          varint (length (map l_name (cc_literals c))) ++ names_bytes (map l_name (cc_literals c)) ++ []).
  2:{ unfold locs, heap_of, start_heap. rewrite map_app, concat_app, map_map, !names_bytes_app, !length_app, !length_map, app_nil_r.
      by rewrite <- !app_assoc. }
  rewrite (parse_counted_read MAX_OPCODES parse_locations locs); [| by apply parse_locations_read | | done | apply locations_bytes_length].
  2:{ unfold locs. rewrite length_app, length_map. lia. }
  rewrite (parse_counted_read MAX_HEAP_SIZE parse_names (heap_of c)); [| by apply parse_names_read | done | done | apply names_bytes_length].
  rewrite (parse_counted_read MAX_LITERALS parse_names (map l_name (cc_literals c)));
    [done | apply parse_names_read, Forall_map | by rewrite length_map | done | apply names_bytes_length].
  eapply Forall_impl; [exact Hlits |]. naive_solver.
Qed.

Lemma sections_read (debug : bool) : read_list debug (sections_of c) (blank c) = Ok (binary_of debug c).
Proof.
  pose proof (fit_constants c bytes Hf) as [Hk Hkd]. pose proof (fit_names c bytes Hf) as Hnames. unfold heap_of, start_heap in Hnames.
  apply Forall_app in Hnames as [[Hkn _]%Forall_app _].
  assert (parse_constants (concat (map (entry_bytes VarType_repr) (zb_constants (binary_of true c)))) = Ok (zb_constants (binary_of true c))) as E1.
  { apply (parse_entries_read VarType_repr); [| by cbn [binary_of zb_constants length]; rewrite length_map | done].
    cbn [binary_of zb_constants]. apply Forall_map, Forall_forall. intros i Hi. cbn [fst snd]. rewrite Forall_map, !Forall_forall in *.
    split; [apply VarType_repr_ok |]; auto. }
  assert (parse_literals (concat (map (entry_bytes LitType_repr) (zb_literals (binary_of true c)))) = Ok (zb_literals (binary_of true c))) as E2.
  { pose proof (fit_literals c bytes Hf) as [Hl Hld].
    apply (parse_entries_read LitType_repr); [| by cbn [binary_of zb_literals length]; rewrite length_map | done].
    cbn [binary_of zb_literals]. apply Forall_map. eapply Forall_impl; [exact Hld |]. intros i [Ht Hs]. cbn [fst snd]. by rewrite Ht. }
  assert (parse_witnesses (map VarType_repr (map w_typ (cc_witnesses c))) = Ok (map w_typ (cc_witnesses c))) as E3.
  { pose proof (fit_witnesses c bytes Hf) as [Hw Hwd]. unfold parse_witnesses. rewrite !length_map.
    destruct (MAX_WITNESSES <? _) eqn:E; [lia |]. by apply parse_types_read, Forall_map. }
  assert (parse_circuit (concat (map instr_bytes (instructions c))) = Ok (instructions c)) as E4.
  { apply parse_ops_read; [exact code_fits | exact (fit_code c bytes Hf) | done]. }
  assert (forall b, read_list debug (if cc_debug_info c then [(SECTION_TYPE_DEBUG, debug_bytes_of c (stmts_extra (cc_statements c) (start_heap c)))] else []) b
    = Ok (if cc_debug_info c && debug then set_debug_info (debug_of c) b else b)) as E5.
  { intros b. destruct (cc_debug_info c), debug; cbn [read_list andb]; [| done..]. by rewrite read_debug, debug_read. }
  assert (read_list debug (match cc_source_hash c with Some h => [(SECTION_TYPE_SOURCE_HASH, serialize string_codec h)] | None => [] end) (blank c)
    = Ok (from_option (fun h => set_source_hash h (blank c)) (blank c) (cc_source_hash c))) as E0.
  { pose proof (fit_source c bytes Hf) as Hsrc. destruct (cc_source_hash c) as [h|]; cbn [read_list from_option] in *; [| done].
    rewrite read_hash, <- (app_nil_r (serialize string_codec h)). by rewrite take_string_encode. }
  unfold sections_of. rewrite read_list_app, E0, read_list_app. cbn [read_list].
  rewrite read_constant, E1, read_literal, E2, read_witness, E3, read_circuit, E4, E5.
  apply f_equal. unfold binary_of. destruct (cc_source_hash c), (cc_debug_info c && debug); done.
Qed.
End compiled.

Section decoded.
Context (c : Compiler) (bytes : list Z) (Hc : compile c = Ok bytes) (Hf : fits c bytes).

Lemma section_small (s : Z * list Z) : s ∈ sections_of c -> Z.of_nat (length s.2) < 2 ^ 32.
Proof.
  intros Hs. destruct (compile_layout c bytes Hc) as (Hb & _). pose proof (fit_size c bytes Hf) as Hz. unfold MAX_BIN_SIZE in Hz.
  assert (length s.2 <= length bytes)%nat; [| lia]. rewrite Hb, length_app. unfold sections_bytes.
  apply list_elem_of_split in Hs as (l1 & l2 & ->). rewrite map_app, concat_app. cbn [map concat]. rewrite !length_app.
  unfold section_bytes. cbn [length]. rewrite length_app. lia.
Qed.

Lemma decode_compiled (debug : bool) :
  ZkBinary_decode bytes debug = match ZkBinary_validate (binary_of debug c) with Ok _ => Ok (binary_of debug c) | Err e => Err e end.
Proof.
  destruct (compile_layout c bytes Hc) as (Hb & _). destruct Hf as [Hz Hk Hns _ _ _ _ _ _ _].
  unfold ZkBinary_decode, ZkBinary_parse. unfold MAX_BIN_SIZE, MIN_BIN_SIZE, MAX_K in *.
  set (ks := serialize u32_codec (cc_k c)). assert (length ks = 4%nat) as Hks.
  { unfold ks, serialize. cbn [u32_codec uint_codec encode mk_codec]. by rewrite le_to_array_spec, to_le_bytes_length. }
  set (rest := sections_bytes (sections_of c)) in *.
  assert (bytes = MAGIC_BYTES ++ [BINARY_VERSION] ++ ks ++ serialize string_codec (cc_namespace c) ++ rest) as Hb'.
  { rewrite Hb. unfold header_bytes, ks. by rewrite <- !app_assoc. }
  assert (10 <= length bytes)%nat as Hmin.
  { rewrite Hb', !length_app, Hks, string_prefix, length_app.
    destruct (serialize_varint_cons (Z.of_nat (length (cc_namespace c)))) as (? & ? & ->). cbn. lia. }
  destruct (Z.of_nat (length bytes) <? 10) eqn:E1; [lia |]. destruct (1024 * 1024 <? _) eqn:E2; [lia |]. clear E1 E2.
  assert (drop 9 bytes = serialize string_codec (cc_namespace c) ++ rest) as Hd9.
  { rewrite Hb'. cbn [app MAGIC_BYTES]. change (9%nat) with (5 + 4)%nat. rewrite <- drop_drop. cbn [drop]. by apply drop_app_length'. }
  assert (take 4 (drop 5 bytes) = ks) as Hd5.
  { rewrite Hb'. cbn [app MAGIC_BYTES drop]. by apply take_app_length'. }
  rewrite Hd9, Hd5. rewrite bool_decide_eq_true_2 by (by rewrite Hb'). cbn [negb].
  rewrite <- (app_nil_r ks). unfold ks. rewrite (partial_encode u32_codec is_u32) by (unfold is_u; lia). cbn [io].
  destruct (16 <? cc_k c) eqn:E3; [lia |]. rewrite limited_string by done. cbn [io].
  rewrite string_prefix at 1. rewrite <- app_assoc. destruct Hns as [Hns _].
  rewrite (partial_encode varint_codec is_u64) by (by apply string_len_u64). cbn [io]. rewrite !Nat2Z.id.
  replace (9 + length (serialize varint_codec (Z.of_nat (length (cc_namespace c)))) + length (cc_namespace c))%nat
    with (length (header_bytes c)).
  2:{ unfold header_bytes. fold ks. rewrite !length_app, Hks, string_prefix, length_app. cbn [length MAGIC_BYTES]. lia. }
  rewrite Hb. fold (blank c). unfold rest.
  rewrite read_sections_read; [| apply Forall_forall; exact section_small |].
  2:{ rewrite length_app. unfold sections_bytes.
      assert (forall l : list (Z * list Z), (length l <= length (concat (map (fun s => section_bytes s.1 s.2) l)))%nat) as Hl; [| specialize (Hl (sections_of c)); lia].
      induction l as [|s l IH]; [done |]. cbn [map concat length]. rewrite length_app. unfold section_bytes at 1. cbn [length]. lia. }
  rewrite (sections_read c bytes Hc Hf). by destruct (ZkBinary_validate _).
Qed.
End decoded.

(** ** References *)

Definition arg_names (args : list Arg) : list text := omap (fun a => match a with ArgVar v => Some (v_name v) | _ => None end) args.

(** Results are assigned, and not used to compute themselves. *)
Definition stmt_ok (i : Statement) : Prop :=
  match s_typ i with
  | StAssign => returns (s_opcode i) = true /\ forall v, s_lhs i = Some v -> v_name v ∉ arg_names (s_rhs i)
  | StCall => returns (s_opcode i) = false
  | StNoop => False
  end.

Lemma rposition_app_r {A : Type} (p : A -> bool) (l : list A) (x : A) :
  rposition p (l ++ [x]) = if p x then Some (length l) else rposition p l.
Proof.
  induction l as [|y l IH]; cbn; [by destruct (p x) |]. rewrite IH. by destruct (p x).
Qed.

Lemma lookup_heap_snoc heap name x : lookup_heap (heap ++ [x]) name = if bool_decide (x = name) then Some (length heap) else lookup_heap heap name.
Proof. unfold lookup_heap. apply (rposition_app_r (fun n => bool_decide (n = name))). Qed.

Lemma results_app (l l' : list Instr) : results_of (l ++ l') = (results_of l + results_of l')%nat.
Proof. unfold results_of. by rewrite List.filter_app, length_app. Qed.

Lemma validate_ops_app base lits done (l rest : list Instr) :
  validate_ops base lits done (l ++ rest) = let? _ := validate_ops base lits done l in validate_ops base lits (done ++ l) rest.
Proof.
  revert done. induction l as [|i l IH]; intros done; cbn [app validate_ops]; [by rewrite app_nil_r |].
  destruct (forallb _ _); [| done]. by rewrite IH, <- app_assoc.
Qed.

Lemma resolve_in_bounds heap lits args l (available : nat) :
  mapM (resolve_arg heap lits) args = Some l -> (forall n i, n ∈ arg_names args -> lookup_heap heap n = Some i -> (i < available)%nat) ->
  forallb (arg_in_bounds available (length lits)) l = true.
Proof.
  intros E%mapM_Some_1 H. apply forallb_forall. intros x Hx. apply list_elem_of_In in Hx.
  apply list_elem_of_lookup in Hx as [j Hj]. eapply Forall2_lookup_r in E as (a & Ha & Ex); [| exact Hj]. unfold arg_in_bounds.
  destruct a as [v|lit|f]; cbn [resolve_arg] in Ex; [| | discriminate]; apply fmap_Some in Ex as (i & Hi & ->); cbn [fst snd]; apply Z.ltb_lt.
  - apply inj_lt. apply (H (v_name v)); [| done]. unfold arg_names. apply list_elem_of_omap. exists (ArgVar v). split; [| done]. by eapply list_elem_of_lookup_2.
  - apply position_bound in Hi. lia.
Qed.

Lemma stmt_code_valid lits i heap code heap' done (base : nat) :
  stmt_code lits i heap = Some (code, heap') -> stmt_ok i -> length heap = (base + results_of done)%nat ->
  validate_ops base (length lits) done code = Ok tt /\ length heap' = (base + results_of (done ++ code))%nat.
Proof.
  unfold stmt_code, stmt_ok. intros E Hok Hl. destruct (s_typ i); [done | |].
  - destruct Hok as [Hr Hself]. destruct (s_lhs i) as [lhs|]; [| discriminate]. destruct (mapM _ _) as [args|] eqn:Ea; [| discriminate].
    injection E as <- <-. specialize (Hself lhs eq_refl). rewrite results_app, length_app. cbn [length].
    assert (forallb (arg_in_bounds (base + results_of done) (length lits)) args = true) as Hb.
    { eapply resolve_in_bounds; [exact Ea |]. intros n j Hn Hj. rewrite lookup_heap_snoc in Hj.
      destruct (bool_decide (v_name lhs = n)) eqn:En; [apply bool_decide_eq_true in En as <-; done |]. apply rposition_bound in Hj. lia. }
    assert (results_of [(s_opcode i, args)] = 1%nat) as H1 by (unfold results_of; cbn; by rewrite Hr).
    destruct (lookup_heap heap (v_name lhs)) as [prev|] eqn:Ep.
    + apply rposition_bound in Ep. split.
      * cbn [validate_ops snd]. rewrite Hb. cbn [validate_ops snd forallb arg_in_bounds fst]. rewrite results_app, H1.
        rewrite (proj2 (Z.ltb_lt _ _)) by lia. rewrite (proj2 (Z.ltb_lt _ _)) by lia. done.
      * change (_ :: [_]) with ([(s_opcode i, args)] ++ [(ConstrainEqualBase, [(HeapVar_, Z.of_nat prev); (HeapVar_, Z.of_nat (length heap))])]).
        rewrite results_app, H1. cbn. lia.
    + split; [cbn [validate_ops snd]; by rewrite Hb | lia].
  - destruct (mapM _ _) as [args|] eqn:Ea; [| discriminate]. injection E as <- <-. rewrite results_app.
    assert (results_of [(s_opcode i, args)] = 0%nat) as -> by (unfold results_of; cbn; by rewrite Hok).
    split; [| lia]. cbn [validate_ops snd]. rewrite (resolve_in_bounds heap lits (s_rhs i)); [done | done |].
    intros n j _ Hj%rposition_bound. lia.
Qed.

Lemma stmts_code_valid lits l heap code heap' done (base : nat) :
  stmts_code lits l heap = Some (code, heap') -> Forall stmt_ok l -> length heap = (base + results_of done)%nat ->
  validate_ops base (length lits) done code = Ok tt /\ length heap' = (base + results_of (done ++ code))%nat.
Proof.
  revert heap code done. induction l as [|i l IH]; intros heap code done E Hok Hl; cbn [stmts_code] in E.
  { injection E as <- <-. by rewrite app_nil_r. }
  destruct (stmt_code lits i heap) as [[code1 heap1]|] eqn:E1; [| discriminate]. cbn [mbind option_bind] in E.
  destruct (stmts_code lits l heap1) as [[code2 heap2]|] eqn:E2; [| discriminate]. injection E as <- <-.
  inversion_clear Hok as [|?? Hi Hok']. destruct (stmt_code_valid _ _ _ _ _ _ _ E1 Hi Hl) as [Hv Hl1].
  destruct (IH heap1 code2 (done ++ code1) E2 Hok' Hl1) as [Hv2 Hl2]. split; [| by rewrite app_assoc].
  by rewrite validate_ops_app, Hv.
Qed.

Lemma heap_counted c bytes :
  compile c = Ok bytes -> Forall stmt_ok (cc_statements c) ->
  validate_ops (length (cc_constants c) + length (cc_witnesses c)) (length (cc_literals c)) [] (instructions c) = Ok tt /\
  length (heap_of c) = (length (cc_constants c) + length (cc_witnesses c) + results_of (instructions c))%nat.
Proof.
  intros Hc Hok. destruct (compile_layout c bytes Hc) as (_ & Ecode & _). eapply stmts_code_valid in Ecode; [exact Ecode | done |].
  unfold start_heap. rewrite length_app, !length_map. cbn. lia.
Qed.

Lemma compiled_decodes c bytes (debug : bool) :
  compile c = Ok bytes -> fits c bytes -> Forall stmt_ok (cc_statements c) -> ZkBinary_decode bytes debug = Ok (binary_of debug c).
Proof.
  intros Hc Hf Hok. rewrite (decode_compiled c bytes Hc Hf). destruct (heap_counted c bytes Hc Hok) as [Hv Hl].
  destruct (compile_layout c bytes Hc) as (_ & _ & Hn).
  assert (ZkBinary_validate (binary_of debug c) = Ok tt) as ->; [| done].
  unfold ZkBinary_validate. cbn [binary_of zb_constants zb_witnesses zb_literals zb_opcodes zb_debug_info]. rewrite !length_map, Hv.
  destruct (cc_debug_info c && debug); [| done]. cbn [debug_of opcode_locations heap_names literal_names].
  rewrite length_app, !length_map, <- Hn, Hl, !Nat.eqb_refl. done.
Qed.

(** C34: a compiled circuit is the circuit that is proved and verified.  When
    every result is assigned to a name, no assignment mentions the name it
    assigns, and the circuit is within the limits of the decoder and has no
    placeholder types or opcodes, then the binary is read back as exactly the constants, literals and witness types of
    the source and its instructions, with or without debug information. *)
Theorem compiled_binary_decodes c bytes (debug : bool) :
  compile c = Ok bytes -> fits c bytes -> Forall stmt_ok (cc_statements c) -> ZkBinary_decode bytes debug = Ok (binary_of debug c).
Proof. apply compiled_decodes. Qed.

(** An assignment that reads the name it assigns compiles to a binary that
    no decoder accepts: the name is on the heap of the compiler before its
    arguments are resolved, so the argument refers to the result itself. *)
Lemma self_assignment_undecodable c bytes (debug : bool) pre i post lhs :
  compile c = Ok bytes -> fits c bytes -> cc_statements c = pre ++ i :: post -> Forall stmt_ok pre ->
  s_typ i = StAssign -> s_lhs i = Some lhs -> v_name lhs ∈ arg_names (s_rhs i) ->
  ZkBinary_decode bytes debug = Err (ZkasErr "Opcode references an entry that is not available").
Proof.
  intros Hc Hf Hs Hpre Ht El Hin. rewrite (decode_compiled c bytes Hc Hf). destruct (compile_layout c bytes Hc) as (_ & Ecode & _).
  unfold ZkBinary_validate. cbn [binary_of zb_constants zb_witnesses zb_literals zb_opcodes]. rewrite !length_map.
  assert (validate_ops (length (cc_constants c) + length (cc_witnesses c)) (length (cc_literals c)) [] (instructions c) =
          Err (ZkasErr "Opcode references an entry that is not available")) as ->; [| done].
  assert (forall l heap code heap' done, stmts_code (cc_literals c) l heap = Some (code, heap') -> l = pre ++ i :: post ->
    Forall stmt_ok pre -> length heap = (length (cc_constants c) + length (cc_witnesses c) + results_of done)%nat ->
    validate_ops (length (cc_constants c) + length (cc_witnesses c)) (length (cc_literals c)) done code =
      Err (ZkasErr "Opcode references an entry that is not available")) as H.
  { clear -Ht El Hin. intros l heap code heap' done. revert l heap code done.
    induction pre as [|j pre IH]; intros l heap code done E -> Hpre Hl; cbn [app stmts_code] in E;
      destruct (stmt_code _ _ heap) as [[code1 heap1]|] eqn:E1; try discriminate; cbn [mbind option_bind] in E;
      destruct (stmts_code _ _ heap1) as [[code2 heap2]|] eqn:E2; try discriminate; injection E as <- <-.
    - unfold stmt_code in E1. rewrite Ht, El in E1. destruct (mapM _ _) as [args|] eqn:Ea; [| discriminate].
      injection E1 as <- _. cbn [app validate_ops snd].
      assert (forallb (arg_in_bounds (length (cc_constants c) + length (cc_witnesses c) + results_of done) (length (cc_literals c))) args = false) as ->; [| done].
      apply not_true_iff_false. rewrite forallb_forall. intros Hb. apply list_elem_of_omap in Hin as (a & Ha & En).
      destruct a as [v| |]; [| discriminate..]. injection En as En. apply list_elem_of_lookup in Ha as [p Hp].
      apply mapM_Some_1 in Ea. eapply Forall2_lookup_l in Ea as (x & Hx & Ex); [| exact Hp]. cbn [resolve_arg] in Ex.
      rewrite lookup_heap_snoc, bool_decide_eq_true_2 in Ex by done. injection Ex as <-.
      specialize (Hb (HeapVar_, Z.of_nat (length heap))). cbn in Hb. rewrite Hl, Z.ltb_irrefl in Hb.
      discriminate Hb. rewrite <- Hl. apply list_elem_of_In. by eapply list_elem_of_lookup_2.
    - inversion_clear Hpre as [|?? Hj Hpre']. destruct (stmt_code_valid _ _ _ _ _ _ _ E1 Hj Hl) as [Hv Hl1].
      rewrite validate_ops_app, Hv. eapply IH; [exact E2 | done | done | done]. }
  eapply H; [exact Ecode | exact Hs | done |]. unfold start_heap. rewrite length_app, !length_map. cbn. lia.
Qed.
