(* ===== verification/ZkasDecode.v ===== *)
(** * What a decoded binary is

    Circuit binaries come from deployed contracts, so the decoder reads bytes of
    an adversary.  Whatever they are, what it returns is within its limits and
    refers only to heap entries and literals that exist; what it does not look
    at is shown at the end. *)

From Stdlib Require Import String.
From S2P Require Import Prelude Serial Zkas ZkasBinary ZkasCompile.

Lemma take_string_short (max : Z) (bs : list Z) s rest : take_string max bs = Ok (s, rest) -> Z.of_nat (length s) <= max.
Proof.
  unfold take_string, deserialize_limited_partial, deserialize_partial. intros E.
  destruct (decode varint_codec bs) as [[len r]|] eqn:E1; [| discriminate]. destruct (max <? len) eqn:Em; [discriminate |].
  destruct (decode string_codec bs) as [[v r']|] eqn:E2; [| discriminate]. injection E as <- _.
  cbn [string_codec decode mk_codec vec_codec] in E2. cbn [varint_codec decode mk_codec] in E1. rewrite E1 in E2.
  cbn [u8_codec decode_vec] in E2. unfold u8_decode_vec in E2.
  destruct (bounded_vec_len 1 len) as [n|]; [| discriminate]. destruct (Z.of_nat _ =? len) eqn:El; [| discriminate].
  destruct (utf8_valid _); [| discriminate]. injection E2 as <- _. apply Z.eqb_eq in El. apply Z.ltb_ge in Em. lia.
Qed.

Definition entries_bounded {T : Type} (max : Z) (l : list (T * text)) : Prop :=
  Z.of_nat (length l) <= max /\ Forall (fun e => Z.of_nat (length e.2) <= MAX_STRING_LEN) l.

Lemma parse_entries_bounded {T : Type} (from : Z -> option T) (max : Z) (fuel : nat) bs acc l :
  parse_entries from max fuel bs acc = Ok l -> entries_bounded max acc -> entries_bounded max l.
Proof.
  revert bs acc. induction fuel as [|fuel IH]; intros [|b bs] acc E Hacc; cbn [parse_entries] in E; try discriminate;
    try (injection E as <-; exact Hacc).
  destruct (max <=? _) eqn:Em; [discriminate |]. destruct (from b) as [t|]; [| discriminate]. cbn [ok_or] in E.
  destruct (take_string MAX_STRING_LEN bs) as [[name rest]|] eqn:En; [| discriminate]. eapply IH; [exact E |].
  destruct Hacc as [Hn Hf]. apply Z.leb_gt in Em. split; [rewrite length_app; cbn [length]; lia |].
  apply Forall_app. split; [done |]. constructor; [| constructor]. by eapply take_string_short.
Qed.

Lemma parse_types_length bs l : parse_types bs = Ok l -> length l = length bs.
Proof.
  revert l. induction bs as [|b bs IH]; intros l E; cbn [parse_types] in E; [by injection E as <- |].
  destruct (VarType_from_repr b); [| discriminate]. cbn [ok_or] in E. destruct (parse_types bs) as [ts|]; [| discriminate].
  injection E as <-. cbn [length]. by rewrite (IH ts).
Qed.

Lemma parse_args_length (n : nat) bs l rest : parse_args n bs = Ok (l, rest) -> length l = n.
Proof.
  revert bs l rest. induction n as [|n IH]; intros bs l rest E; cbn [parse_args] in E; [by injection E as <- _ |].
  destruct bs as [|ty [|b bs]]; [discriminate.. |]. destruct (take_value varint_codec (b :: bs)) as [[i r]|]; [| discriminate].
  destruct (HeapType_from_repr ty); [| discriminate]. cbn [ok_or] in E. destruct (MAX_HEAP_SIZE <? i); [discriminate |].
  destruct (parse_args n r) as [[args r']|] eqn:Ea; [| discriminate]. injection E as <- _. cbn [length]. f_equal. by eapply IH.
Qed.

Definition ops_bounded (l : list Instr) : Prop :=
  Z.of_nat (length l) <= MAX_OPCODES /\ Forall (fun o => o.1 <> Noop /\ Z.of_nat (length o.2) <= MAX_ARGS_PER_OPCODE) l.

Lemma validate_count_bound (c max r n : Z) : validate_count c max r = Ok n -> n = c /\ n <= max /\ n <= r.
Proof.
  unfold validate_count. intros E. destruct (max <? c) eqn:E1; [discriminate |]. destruct (r <? c) eqn:E2; [discriminate |].
  injection E as <-. lia.
Qed.

Lemma parse_ops_bounded (fuel : nat) bs acc l : parse_ops fuel bs acc = Ok l -> ops_bounded acc -> ops_bounded l.
Proof.
  revert bs acc. induction fuel as [|fuel IH]; intros [|b bs] acc E Hacc; cbn [parse_ops] in E; try discriminate;
    try (injection E as <-; exact Hacc).
  destruct (MAX_OPCODES <=? _) eqn:Em; [discriminate |]. destruct (from_repr b) as [op|] eqn:Eop; [| discriminate]. cbn [ok_or] in E.
  destruct (take_value varint_codec bs) as [[n r]|]; [| discriminate]. destruct (validate_count n _ _) as [n'|] eqn:Ec; [| discriminate].
  destruct (parse_args (Z.to_nat n') r) as [[args r']|] eqn:Ea; [| discriminate]. eapply IH; [exact E |].
  destruct Hacc as [Hn Hf]. apply Z.leb_gt in Em. split; [rewrite length_app; cbn [length]; lia |].
  apply Forall_app. split; [done |]. constructor; [| constructor]. cbn [fst snd]. split; [by apply from_repr_inv in Eop as [? _] |].
  apply parse_args_length in Ea as ->. apply validate_count_bound in Ec as (_ & Hm & _). unfold MAX_ARGS_PER_OPCODE in *. lia.
Qed.

Record sections_bounded (b : ZkBinary) : Prop := {
  sb_constants : entries_bounded MAX_CONSTANTS (zb_constants b);
  sb_literals : entries_bounded MAX_LITERALS (zb_literals b);
  sb_witnesses : Z.of_nat (length (zb_witnesses b)) <= MAX_WITNESSES;
  sb_opcodes : ops_bounded (zb_opcodes b);
  sb_source : from_option (fun h => Z.of_nat (length h) <= 64) True (zb_source_hash b)
}.

Lemma read_section_bounded (debug : bool) ty data b b' :
  read_section debug ty data b = Ok b' -> sections_bounded b ->
  sections_bounded b' /\ zb_namespace b' = zb_namespace b /\ zb_k b' = zb_k b.
Proof.
  unfold read_section. intros E [Hc Hl Hw Ho Hs].
  repeat (destruct (ty =? _); [try (destruct debug; [| injection E as <-; done]);
    match type of E with context [match ?m with Ok _ => _ | Err _ => _ end] => destruct m as [x|] eqn:Ex; [| discriminate] end;
    try destruct x as [x ?]; injection E as <-; (split; [| done]); split; cbn; try done |]); [.. | discriminate].
  - by eapply take_string_short.
  - eapply parse_entries_bounded; [exact Ex |]. by split.
  - eapply parse_entries_bounded; [exact Ex |]. by split.
  - unfold parse_witnesses in Ex. destruct (MAX_WITNESSES <? _) eqn:Em; [discriminate |]. apply parse_types_length in Ex. lia.
  - eapply parse_ops_bounded; [exact Ex |]. by split.
Qed.

Lemma read_sections_bounded (fuel : nat) (debug trailing : bool) bytes pos b b' pos' :
  read_sections fuel debug trailing bytes pos b = Ok (b', pos') -> sections_bounded b ->
  sections_bounded b' /\ zb_namespace b' = zb_namespace b /\ zb_k b' = zb_k b.
Proof.
  revert pos b. induction fuel as [|fuel IH]; intros pos b E Hb; cbn [read_sections] in E; [discriminate |].
  destruct (trailing && _); [by injection E as <- _ |].
  destruct (next_section bytes pos) as [[[[ty data] p]|]|]; [| by injection E as <- _ | discriminate].
  destruct (read_section debug ty data b) as [b1|] eqn:E1; [| discriminate].
  destruct (read_section_bounded _ _ _ _ _ E1 Hb) as (Hb1 & Hn & Hk). destruct (IH p b1 E Hb1) as (? & -> & ->). done.
Qed.

(** A reference is to a constant, a witness or the result of an instruction
    before, or to a literal. *)
Definition refers (b : ZkBinary) (i : nat) (a : HeapType * Z) : Prop :=
  match a.1 with
  | HeapVar_ => a.2 < Z.of_nat (length (zb_constants b) + length (zb_witnesses b) + results_of (take i (zb_opcodes b)))
  | HeapLit => a.2 < Z.of_nat (length (zb_literals b))
  end.

Lemma validate_ops_refer base lits prev ops i op args :
  validate_ops base lits prev ops = Ok tt -> ops !! i = Some (op, args) ->
  Forall (fun a => arg_in_bounds (base + results_of (prev ++ take i ops)) lits a = true) args.
Proof.
  revert prev i. induction ops as [|o ops IH]; intros prev i E Hi; [done |]. cbn [validate_ops] in E.
  destruct (forallb _ o.2) eqn:Eb; [| discriminate]. destruct i as [|i]; cbn [lookup list_lookup] in Hi.
  - injection Hi as ->. cbn [take]. rewrite app_nil_r. apply Forall_forall. intros a Ha. apply (proj1 (forallb_forall _ _) Eb). by apply list_elem_of_In.
  - cbn [take]. specialize (IH (prev ++ [o]) i E Hi). by rewrite <- app_assoc in IH.
Qed.

(** The debug information names every instruction, heap entry and literal. *)
Definition debug_complete (b : ZkBinary) (d : DebugInfo) : Prop :=
  length (opcode_locations d) = length (zb_opcodes b) /\
  length (heap_names d) = (length (zb_constants b) + length (zb_witnesses b) + results_of (zb_opcodes b))%nat /\
  length (literal_names d) = length (zb_literals b).

Lemma validate_debug_complete b d : ZkBinary_validate b = Ok tt -> zb_debug_info b = Some d -> debug_complete b d.
Proof.
  unfold ZkBinary_validate. intros E Hd. destruct (validate_ops _ _ _ _) as [[]|]; [| discriminate]. rewrite Hd in E.
  destruct (length (opcode_locations d) =? _)%nat eqn:E1; [| discriminate]. destruct (length (heap_names d) =? _)%nat eqn:E2; [| discriminate].
  destruct (length (literal_names d) =? _)%nat eqn:E3; [| discriminate]. repeat split; by apply Nat.eqb_eq.
Qed.

(** C35: whatever the bytes, a binary the decoder returns is within every limit
    ([k], the name space, the number and the size of the entries of each
    section, the number of arguments), contains no internal opcode, and every
    argument of every instruction refers to a literal, or to a heap entry that
    exists when the instruction runs; debug information, if there is any,
    covers exactly what there is. *)
Theorem decoded_binary_bounded bytes (debug trailing : bool) b pos :
  ZkBinary_parse bytes debug trailing = Ok (b, pos) ->
  zb_k b <= MAX_K /\ Z.of_nat (length (zb_namespace b)) <= MAX_NS_LEN /\ sections_bounded b /\
  (forall i op args, zb_opcodes b !! i = Some (op, args) -> Forall (refers b i) args) /\
  (forall d, zb_debug_info b = Some d -> debug_complete b d).
Proof.
  unfold ZkBinary_parse. intros E. destruct (_ <? MIN_BIN_SIZE); [discriminate |]. destruct (MAX_BIN_SIZE <? _); [discriminate |].
  destruct (negb _); [discriminate |]. destruct (io (deserialize_partial u32_codec _)) as [[k ?]|]; [| discriminate].
  destruct (MAX_K <? k) eqn:Ek; [discriminate |].
  destruct (io (deserialize_limited_partial string_codec (drop 9 bytes) MAX_NS_LEN)) as [[ns l]|] eqn:En; [| discriminate].
  destruct (io (deserialize_partial varint_codec _)) as [[nl vl]|]; [| discriminate].
  destruct (read_sections _ _ _ _ _ _) as [[b1 p1]|] eqn:Es; [| discriminate].
  destruct (ZkBinary_validate b1) as [[]|] eqn:Ev; [| discriminate]. injection E as <- _.
  apply read_sections_bounded in Es as (Hb & Hns & Hk); [| by repeat split; cbn]. cbn [zb_namespace zb_k] in Hns, Hk.
  rewrite Hns, Hk. split_and!; [lia | | done | | by intros; apply validate_debug_complete].
  - assert (take_string MAX_NS_LEN (drop 9 bytes) = Ok (ns, drop (Z.to_nat l) (drop 9 bytes))) as Ht by (unfold take_string; by rewrite En).
    by apply take_string_short in Ht.
  - intros i op args Hi. unfold ZkBinary_validate in Ev. destruct (validate_ops _ _ _ _) as [[]|] eqn:Eo; [| discriminate].
    eapply Forall_impl; [exact (validate_ops_refer _ _ _ _ _ _ _ Eo Hi) |]. intros [[] n] Hn; cbn in Hn |- *; by apply Z.ltb_lt.
Qed.

(** ** The loops of the decoder end by themselves *)

Definition no_fuel {A : Type} : DRes A := zkas_err "unreachable".

Lemma take_string_shrinks (max : Z) bs s rest : take_string max bs = Ok (s, rest) -> (length rest <= length bs)%nat.
Proof.
  unfold take_string. destruct (io _) as [[v len]|]; [| discriminate]. intros E. injection E as _ <-. rewrite length_drop. lia.
Qed.

Lemma take_value_shrinks {A : Type} (c : codec A) bs (a : A) rest : take_value c bs = Ok (a, rest) -> (length rest <= length bs)%nat.
Proof.
  unfold take_value. destruct (io _) as [[v len]|]; [| discriminate]. intros E. injection E as _ <-. rewrite length_drop. lia.
Qed.

Lemma io_not_fuel {A B : Type} (r : result io_error A) (k : A -> DRes B) :
  (forall a, r = Ok a -> k a <> no_fuel) -> (match io r with Ok a => k a | Err e => Err e end) <> no_fuel.
Proof. destruct r as [a|e]; cbn [io]; [by eauto | done]. Qed.

Lemma take_string_not_fuel (max : Z) bs : take_string max bs <> no_fuel.
Proof. unfold take_string. apply io_not_fuel. by intros [? ?]. Qed.

Lemma take_value_not_fuel {A : Type} (c : codec A) bs : take_value c bs <> no_fuel.
Proof. unfold take_value. apply io_not_fuel. by intros [? ?]. Qed.

Lemma bind_not_fuel {A B : Type} (r : DRes A) (k : A -> DRes B) :
  r <> no_fuel -> (forall a, r = Ok a -> k a <> no_fuel) -> (match r with Ok a => k a | Err e => Err e end) <> no_fuel.
Proof. unfold no_fuel, zkas_err. destruct r as [a|e]; intros H1 H2; [by eauto |]. intros E. apply H1. by injection E as ->. Qed.

Create HintDb not_fuel.
#[export] Hint Resolve take_string_not_fuel take_value_not_fuel : not_fuel.

(** One step through a decoder written as binds. *)
Ltac not_fuel_step :=
  match goal with
  | |- (match _ with Ok _ => _ | Err _ => _ end) <> no_fuel => apply bind_not_fuel; [| intros ? ?]
  | |- context [match ?x with _ => _ end] => is_var x; destruct x
  | |- context [if ?b then _ else _] => destruct b eqn:?
  | |- Ok _ <> no_fuel => discriminate
  | |- zkas_err _ <> no_fuel => discriminate
  | |- ok_or ?o _ <> no_fuel => destruct o; discriminate
  end.

Lemma parse_entries_ends {T : Type} (from : Z -> option T) (max : Z) (fuel : nat) bs acc :
  (length bs <= fuel)%nat -> parse_entries from max fuel bs acc <> no_fuel.
Proof.
  revert bs acc. induction fuel as [|fuel IH]; intros [|b bs] acc Hl; cbn [parse_entries length] in *; try done; [lia |].
  repeat not_fuel_step; [auto with not_fuel |]. apply IH. apply take_string_shrinks in H0. lia.
Qed.

Lemma parse_types_ends bs : parse_types bs <> no_fuel.
Proof. induction bs as [|b bs IH]; cbn [parse_types]; [done |]. by repeat not_fuel_step. Qed.

Lemma parse_args_ends (n : nat) bs : parse_args n bs <> no_fuel.
Proof.
  revert bs. induction n as [|n IH]; intros [|b [|b' bs]]; cbn [parse_args]; try done.
  repeat not_fuel_step; auto with not_fuel.
Qed.

Lemma parse_args_shrinks (n : nat) bs l rest : parse_args n bs = Ok (l, rest) -> (length rest <= length bs)%nat.
Proof.
  revert bs l rest. induction n as [|n IH]; intros bs l rest E; cbn [parse_args] in E; [by injection E as _ <- |].
  destruct bs as [|ty [|b bs]]; [discriminate.. |]. destruct (take_value varint_codec (b :: bs)) as [[i r]|] eqn:Et; [| discriminate].
  destruct (HeapType_from_repr ty); [| discriminate]. cbn [ok_or] in E. destruct (MAX_HEAP_SIZE <? i); [discriminate |].
  destruct (parse_args n r) as [[args r']|] eqn:Ea; [| discriminate]. injection E as _ <-. apply IH in Ea.
  apply take_value_shrinks in Et. cbn [length] in *. lia.
Qed.

Lemma validate_count_not_fuel (c max r : Z) : validate_count c max r <> no_fuel.
Proof. unfold validate_count. by repeat not_fuel_step. Qed.
#[export] Hint Resolve validate_count_not_fuel parse_args_ends parse_types_ends : not_fuel.

Lemma parse_ops_ends (fuel : nat) bs acc : (length bs <= fuel)%nat -> parse_ops fuel bs acc <> no_fuel.
Proof.
  revert bs acc. induction fuel as [|fuel IH]; intros [|b bs] acc Hl; cbn [parse_ops length] in *; try done; [lia |].
  repeat not_fuel_step; auto with not_fuel. apply IH.
  repeat match goal with H : take_value _ _ = _ |- _ => apply take_value_shrinks in H | H : parse_args _ _ = _ |- _ => apply parse_args_shrinks in H end.
  lia.
Qed.

Lemma parse_locations_ends (n : nat) bs : parse_locations n bs <> no_fuel.
Proof. revert bs. induction n as [|n IH]; intros bs; cbn [parse_locations]; [done |]. repeat not_fuel_step; auto with not_fuel. Qed.

Lemma parse_names_ends (n : nat) bs : parse_names n bs <> no_fuel.
Proof. revert bs. induction n as [|n IH]; intros bs; cbn [parse_names]; [done |]. repeat not_fuel_step; auto with not_fuel. Qed.

Lemma parse_counted_ends {A : Type} (max : Z) (parse : nat -> list Z -> DRes (list A * list Z)) bs :
  (forall n bs, parse n bs <> no_fuel) -> parse_counted max parse bs <> no_fuel.
Proof. intros H. unfold parse_counted. repeat not_fuel_step; auto with not_fuel. Qed.

Lemma read_section_ends (debug : bool) ty data b : read_section debug ty data b <> no_fuel.
Proof.
  unfold read_section, parse_constants, parse_literals, parse_witnesses, parse_circuit, parse_debug.
  repeat not_fuel_step; auto using parse_entries_ends, parse_ops_ends, parse_counted_ends, parse_locations_ends, parse_names_ends with not_fuel.
Qed.

Lemma next_section_forward bytes (pos : nat) ty data pos' : next_section bytes pos = Ok (Some (ty, data, pos')) -> (pos < pos' <= length bytes)%nat.
Proof.
  unfold next_section. destruct (bytes !! pos); [| discriminate]. destruct (_ <? S pos + 4)%nat; [discriminate |].
  destruct (_ <? _ + _)%nat eqn:E; [discriminate |]. intros H. injection H as _ _ <-. apply Nat.ltb_ge in E. lia.
Qed.

Lemma next_section_end bytes (pos : nat) : (length bytes <= pos)%nat -> next_section bytes pos = Ok None.
Proof. intros H. unfold next_section. by rewrite lookup_ge_None_2. Qed.

Lemma read_sections_ends (fuel : nat) (debug trailing : bool) bytes (pos : nat) b :
  (0 < fuel)%nat -> (length bytes < fuel + pos)%nat -> read_sections fuel debug trailing bytes pos b <> no_fuel.
Proof.
  revert pos b. induction fuel as [|fuel IH]; intros pos b H0 Hl; [lia |]. cbn [read_sections]. destruct (trailing && _); [done |].
  apply bind_not_fuel. { unfold next_section. repeat not_fuel_step; try done. by destruct (bytes !! pos); repeat not_fuel_step. }
  intros [[[ty data] pos']|] Hn; [| done]. apply next_section_forward in Hn. repeat not_fuel_step; [by apply read_section_ends |].
  apply IH; lia.
Qed.

Lemma validate_ops_ends base lits prev ops : validate_ops base lits prev ops <> no_fuel.
Proof. revert prev. induction ops as [|o ops IH]; intros prev; cbn [validate_ops]; [done |]. destruct (forallb _ _); [apply IH | done]. Qed.

Lemma validate_ends b : ZkBinary_validate b <> no_fuel.
Proof.
  unfold ZkBinary_validate. apply bind_not_fuel; [apply validate_ops_ends |]. intros _ _. destruct (zb_debug_info b); by repeat not_fuel_step.
Qed.

(** The decoder ends on every input: its loops read at least a byte in each
    round, so the bounds the definitions carry are never what stops them. *)
Lemma decoder_ends bytes (debug trailing : bool) : ZkBinary_parse bytes debug trailing <> Err (ZkasErr "unreachable").
Proof.
  change (Err (ZkasErr "unreachable")) with (@no_fuel (ZkBinary * nat)). unfold ZkBinary_parse.
  repeat (first [apply io_not_fuel; intros [? ?] _ | not_fuel_step]); auto using validate_ends.
  apply read_sections_ends; lia.
Qed.
