(* ===== verification/ZkasAnalyzer.v ===== *)
(** * The semantic analyzer ([src/zkas/analyzer.rs])

    Between the parser and the compiler: every argument is checked against the
    signature of its opcode, variables get their types, literals are collected,
    and nested calls become statements of their own in front of the statement
    that uses them.  What comes out is flat and the compiler accepts it.

    The vector [heap] of the functions and [self.heap] hold the same after every
    push (the analyzer runs once, on a new [Analyzer]), so there is one heap. *)

From Stdlib Require Import String.
From S2P Require Import Prelude Serial Zkas ZkasBinary ZkasCompile.

Record Analyzer := { an_constants : list Constant; an_witnesses : list Witness; an_statements : list Statement; an_literals : list Literal; an_heap : list Variable_ }.

(** What the passes over arguments and statements change. *)
Record Pass := { p_literals : list Literal; p_heap : list Variable_ }.

Definition push_literal (l : Literal) (p : Pass) : Pass := {| p_literals := p_literals p ++ [l]; p_heap := p_heap p |}.
Definition push_heap (v : Variable_) (p : Pass) : Pass := {| p_literals := p_literals p; p_heap := p_heap p ++ [v] |}.

(** [lookup_var]: a constant, a witness, or the first variable of the name, with
    its type and where it is declared. *)
Definition lookup_var (cs : list Constant) (ws : list Witness) (heap : list Variable_) (name : text) : option (VarType * Z * Z) :=
  match List.find (fun i => bool_decide (c_name i = name)) cs with
  | Some c => Some (c_typ c, c_line c, c_column c)
  | None =>
      match List.find (fun i => bool_decide (w_name i = name)) ws with
      | Some w => Some (w_typ w, w_line w, w_column w)
      | None => (fun v => (v_typ v, v_line v, v_column v)) <$> List.find (fun i => bool_decide (v_name i = name)) heap
      end
  end.

Definition wrong_type {A : Type} (line column : Z) : ZRes A := abort "Incorrect argument type" line column.

(** The check of one argument: arrays take elements of their type, at any
    position; [Any] accepts what it is allowed to. *)
Definition check_type (types : list VarType) (idx : nat) (t : VarType) (any : bool) (line column : Z) : ZRes unit :=
  let? t0 := index types 0 in
  if bool_decide (t0 = BaseArray) then if bool_decide (t = Base) then Ok tt else wrong_type line column
  else if bool_decide (t0 = ScalarArray) then if bool_decide (t = Scalar) then Ok tt else wrong_type line column
  else
    let? expected := index types idx in
    if negb (bool_decide (t = expected)) && negb (any && bool_decide (expected = Any)) then wrong_type line column else Ok tt.

(** At the outermost level the type at the position counts for arrays, too. *)
Definition check_literal (types : list VarType) (idx : nat) (l : Literal) : ZRes unit :=
  let t := to_vartype (l_typ l) in
  let? t0 := index types 0 in
  if bool_decide (t0 = BaseArray) && negb (bool_decide (t = Base)) then wrong_type (l_line l) (l_column l)
  else if negb (bool_decide (t0 = BaseArray)) && bool_decide (t0 = ScalarArray) && negb (bool_decide (t = Scalar)) then wrong_type (l_line l) (l_column l)
  else
    let? expected := index types idx in
    if bool_decide (t = expected) then Ok tt else wrong_type (l_line l) (l_column l).

Definition with_typ (t : VarType) (v : Variable_) : Variable_ := {| v_name := v_name v; v_typ := t; v_line := v_line v; v_column := v_column v |}.

Section Analyzer.
Context (cs : list Constant) (ws : list Witness).

(** The loop over the arguments; [nested] is the recursive call, and the two
    levels differ in how literals are checked and in where an error is. *)
Fixpoint analyze_args (outer : bool) (nested : Statement -> nat -> Pass -> ZRes (Variable_ * list Statement * Pass)) (types : list VarType)
    (args : list Arg) (idx : nat) (p : Pass) : ZRes (list Arg * list Statement * Pass) :=
  match args with
  | [] => Ok ([], [], p)
  | a :: rest =>
      let? (a', stmts, p1) :=
        match a with
        | ArgFunc f => let? (v, stmts, p') := nested f idx p in Ok (ArgVar v, stmts, p')
        | ArgLit l =>
            let? _ := if outer then check_literal types idx l else check_type types idx (to_vartype (l_typ l)) false (l_line l) (l_column l) in
            Ok (ArgLit l, [], push_literal l p)
        | ArgVar v =>
            match lookup_var cs ws (p_heap p) (v_name v) with
            | Some (t, ln, col) =>
                let? _ := if outer then check_type types idx t true (v_line v) (v_column v) else check_type types idx t true ln col in
                Ok (ArgVar (with_typ t v), [], p)
            | None => abort "Unknown variable reference" (v_line v) (v_column v)
            end
        end in
      let? (rest', stmts', p2) := analyze_args outer nested types rest (S idx) p1 in
      Ok (a' :: rest', stmts ++ stmts', p2)
  end.

(** [fuel] levels are left: the recursion depth is [MAX_RECURSION_DEPTH + 1 - fuel]. *)
Fixpoint process_nested_func (fuel : nat) (func : Statement) (parent_types : list VarType) (idx : nat) (p : Pass) : ZRes (Variable_ * list Statement * Pass) :=
  match fuel with
  | O => abort "Maximum recursion depth exceeded for nested function calls." (s_line func) 0
  | S fuel' =>
      match ret_types (s_opcode func) with
      | [] => abort "Used a function argument which doesn't have a return value" (s_line func) 1
      | ret :: _ =>
          let? lhs := lhs_of func in
          let result_var := with_typ ret lhs in
          let? _ := check_type parent_types idx ret false (v_line result_var) (v_column result_var) in
          let types := arg_types (s_opcode func) in
          let? (rhs, nested, p1) := analyze_args false (fun f i => process_nested_func fuel' f types i) types (s_rhs func) 0 p in
          Ok (result_var, nested ++ [mkStatement (s_typ func) (s_opcode func) (Some result_var) rhs (s_line func)], push_heap result_var p1)
      end
  end.

Definition is_array (t : VarType) : bool := bool_decide (t = BaseArray) || bool_decide (t = ScalarArray).

Definition check_arity (s : Statement) : ZRes unit :=
  let? t0 := index (arg_types (s_opcode s)) 0 in
  if negb (is_array t0) then
    if (length (s_rhs s) =? length (arg_types (s_opcode s)))%nat then Ok tt else abort "Incorrect number of arguments for statement." (s_line s) 1
  else match s_rhs s with [] => abort "Expected at least one element for statement using arrays." (s_line s) 1 | _ => Ok tt end.

Definition check_range (s : Statement) : ZRes unit :=
  if bool_decide (s_opcode s = RangeCheck) then
    let? a := index (s_rhs s) 0 in
    match a with
    | ArgLit l =>
        if bool_decide (l_name l = ascii_key "64") || bool_decide (l_name l = ascii_key "253") then Ok tt
        else abort "Supported range checks are only 64 and 253 bits." (l_line l) (l_column l)
    | _ => abort "Invalid argument for range_check opcode." (s_line s) 0
    end
  else Ok tt.

Definition analyze_statement (s : Statement) (p : Pass) : ZRes (list Statement * Pass) :=
  let types := arg_types (s_opcode s) in
  let? _ := check_arity s in
  let? _ := check_range s in
  let? (rhs, nested, p1) := analyze_args true (fun f i => process_nested_func MAX_RECURSION_DEPTH f types i) types (s_rhs s) 0 p in
  if bool_decide (s_typ s = StAssign) then
    let? lhs := lhs_of s in
    match ret_types (s_opcode s) with
    | [] => abort "Cannot perform assignment without a return type" (v_line lhs) (v_column lhs)
    | ret :: _ =>
        let var := with_typ ret lhs in
        Ok (nested ++ [mkStatement (s_typ s) (s_opcode s) (Some var) rhs (s_line s)], push_heap var p1)
    end
  else Ok (nested ++ [mkStatement (s_typ s) (s_opcode s) (s_lhs s) rhs (s_line s)], p1).

Fixpoint analyze_statements (l : list Statement) (p : Pass) : ZRes (list Statement * Pass) :=
  match l with
  | [] => Ok ([], p)
  | s :: rest =>
      let? (out, p1) := analyze_statement s p in
      let? (out', p2) := analyze_statements rest p1 in
      Ok (out ++ out', p2)
  end.

End Analyzer.

Definition analyze_types (a : Analyzer) : ZRes Analyzer :=
  let? (out, p) := analyze_statements (an_constants a) (an_witnesses a) (an_statements a) {| p_literals := an_literals a; p_heap := an_heap a |} in
  Ok {| an_constants := an_constants a; an_witnesses := an_witnesses a; an_statements := out; an_literals := p_literals p; an_heap := p_heap p |}.

(** [Analyzer::new]. *)
Definition new_analyzer (cs : list Constant) (ws : list Witness) (l : list Statement) : Analyzer := {|
  an_constants := cs; an_witnesses := ws; an_statements := l; an_literals := []; an_heap := [] |}.

(** ** What comes out is flat, and every name is known where it is used *)

(** A statement as the parser makes it: an assignment with a name or a call, and
    nested calls that are assignments to generated names. *)
Fixpoint parsed_arg (a : Arg) : Prop :=
  match a with
  | ArgFunc (mkStatement typ _ lhs rhs _) => typ = StAssign /\ is_Some lhs /\ (fix all l := match l with [] => True | x :: r => parsed_arg x /\ all r end) rhs
  | _ => True
  end.
Definition parsed (s : Statement) : Prop :=
  match s_typ s with StAssign => is_Some (s_lhs s) | StCall => True | StNoop => False end /\ Forall parsed_arg (s_rhs s).

Lemma parsed_func f : parsed_arg (ArgFunc f) -> s_typ f = StAssign /\ is_Some (s_lhs f) /\ Forall parsed_arg (s_rhs f).
Proof.
  destruct f as [typ op lhs rhs line]. cbn. intros (-> & Hl & Hr). split_and!; [done | done |].
  induction rhs as [|a rhs IH]; [constructor |]. destruct Hr as [Ha Hr]. constructor; [done | by apply IH].
Qed.

Definition arg_known (known : list text) (lits : list Literal) (a : Arg) : Prop :=
  match a with ArgVar v => v_name v ∈ known | ArgLit l => l ∈ lits | ArgFunc _ => False end.

Definition stmt_known (known : list text) (lits : list Literal) (i : Statement) : Prop :=
  match s_typ i with StAssign => is_Some (s_lhs i) | StCall => True | StNoop => False end /\ Forall (arg_known known lits) (s_rhs i).

(** Statement after statement, with the names assigned so far. *)
Fixpoint all_known (known : list text) (lits : list Literal) (l : list Statement) : Prop :=
  match l with [] => True | i :: rest => stmt_known known lits i /\ all_known (known ++ assigned_name i) lits rest end.

Lemma arg_known_mono known known' lits lits' a : known ⊆ known' -> lits ⊆ lits' -> arg_known known lits a -> arg_known known' lits' a.
Proof. intros Hk Hl. destruct a; cbn; set_solver. Qed.

Lemma args_known_mono known known' lits lits' l : known ⊆ known' -> lits ⊆ lits' -> Forall (arg_known known lits) l -> Forall (arg_known known' lits') l.
Proof. intros Hk Hl Ha. eapply Forall_impl; [exact Ha |]. intros a. by apply arg_known_mono. Qed.

Lemma all_known_lits known lits lits' l : lits ⊆ lits' -> all_known known lits l -> all_known known lits' l.
Proof.
  intros Hl. revert known. induction l as [|i l IH]; intros known; [done |]. intros [[Ht Ha] Hr]. split; [| by apply IH].
  split; [done |]. by eapply args_known_mono.
Qed.

Lemma all_known_app known lits l l' : all_known known lits l -> all_known (known ++ flat_map assigned_name l) lits l' -> all_known known lits (l ++ l').
Proof.
  revert known. induction l as [|i l IH]; intros known; cbn [all_known flat_map app]; [by rewrite app_nil_r |].
  intros [Hi Hl] Hl'. split; [done |]. apply IH; [done |]. by rewrite <- app_assoc.
Qed.

Section Known.
Context (cs : list Constant) (ws : list Witness).

Definition known_at (p : Pass) : list text := map c_name cs ++ map w_name ws ++ map v_name (p_heap p).

(** What a pass over arguments or a nested call leaves behind. *)
Definition pass_ok (p : Pass) (stmts : list Statement) (p' : Pass) : Prop :=
  p_literals p ⊆ p_literals p' /\ map v_name (p_heap p') = map v_name (p_heap p) ++ flat_map assigned_name stmts /\
  all_known (known_at p) (p_literals p') stmts.

Lemma lookup_var_known heap name t : lookup_var cs ws heap name = Some t -> name ∈ map c_name cs ++ map w_name ws ++ map v_name heap.
Proof.
  unfold lookup_var. intros E. rewrite !elem_of_app, !list_elem_of_fmap.
  destruct (List.find _ cs) as [c|] eqn:Ec; [apply List.find_some in Ec as [Hin Hn]; apply bool_decide_eq_true in Hn; left; exists c; rewrite list_elem_of_In; done |].
  destruct (List.find _ ws) as [w|] eqn:Ew; [apply List.find_some in Ew as [Hin Hn]; apply bool_decide_eq_true in Hn; right; left; exists w; rewrite list_elem_of_In; done |].
  destruct (List.find _ heap) as [v|] eqn:Ev; [apply List.find_some in Ev as [Hin Hn]; apply bool_decide_eq_true in Hn; right; right; exists v; rewrite list_elem_of_In; done | discriminate].
Qed.

Lemma pass_refl p : pass_ok p [] p.
Proof. split_and!; [done | by rewrite app_nil_r | done]. Qed.

Lemma pass_known p stmts p' : pass_ok p stmts p' -> known_at p' = known_at p ++ flat_map assigned_name stmts.
Proof. intros (_ & Hh & _). unfold known_at. by rewrite Hh, !app_assoc. Qed.

Lemma pass_trans p1 s1 p2 s2 p3 : pass_ok p1 s1 p2 -> pass_ok p2 s2 p3 -> pass_ok p1 (s1 ++ s2) p3.
Proof.
  intros H1 H2. pose proof (pass_known _ _ _ H1) as Hk. destruct H1 as (Hl1 & Hh1 & Ha1), H2 as (Hl2 & Hh2 & Ha2). split_and!.
  - by etrans.
  - by rewrite Hh2, Hh1, flat_map_app, app_assoc.
  - apply all_known_app; [by eapply all_known_lits | by rewrite <- Hk].
Qed.

Lemma pass_mono p stmts p' : pass_ok p stmts p' -> known_at p ⊆ known_at p' /\ p_literals p ⊆ p_literals p'.
Proof. intros H. rewrite (pass_known _ _ _ H). destruct H as (Hl & _ & _). split; [set_solver | done]. Qed.

Lemma push_literal_pass l p : pass_ok p [] (push_literal l p).
Proof. split_and!; [cbn; set_solver | cbn; by rewrite app_nil_r | done]. Qed.

(** The interface between the levels: what the recursive call promises. *)
Definition nested_ok (nested : Statement -> nat -> Pass -> ZRes (Variable_ * list Statement * Pass)) : Prop :=
  forall f i p v stmts p', parsed_arg (ArgFunc f) -> nested f i p = Ok (v, stmts, p') -> pass_ok p stmts p' /\ v_name v ∈ known_at p'.

Lemma analyze_args_known (outer : bool) nested types args idx p rhs stmts p' :
  nested_ok nested -> Forall parsed_arg args -> analyze_args cs ws outer nested types args idx p = Ok (rhs, stmts, p') ->
  pass_ok p stmts p' /\ Forall (arg_known (known_at p') (p_literals p')) rhs.
Proof.
  intros Hn. revert idx p rhs stmts p'. induction args as [|a args IH]; intros idx p rhs stmts p' Hp E; cbn [analyze_args] in E.
  { injection E as <- <- <-. split; [apply pass_refl | constructor]. }
  inversion_clear Hp as [|?? Ha Hp'].
  match type of E with match ?m with _ => _ end = _ => destruct m as [[[a' s1] p1]|] eqn:E1; [| discriminate] end.
  destruct (analyze_args cs ws outer nested types args (S idx) p1) as [[[rest s2] p2]|] eqn:E2; [| discriminate].
  injection E as <- <- <-. destruct (IH _ _ _ _ _ Hp' E2) as [H2 Hrest].
  assert (pass_ok p s1 p1 /\ arg_known (known_at p1) (p_literals p1) a') as [H1 Ha'].
  { destruct a as [v|l|f].
    - destruct (lookup_var cs ws (p_heap p) (v_name v)) as [[[t ln] col]|] eqn:El; [| discriminate].
      destruct (if outer then _ else _); [| discriminate]. injection E1 as <- <- <-. split; [apply pass_refl |].
      cbn. by eapply lookup_var_known.
    - destruct (if outer then _ else _); [| discriminate]. injection E1 as <- <- <-. split; [apply push_literal_pass |].
      cbn. set_solver.
    - destruct (nested f idx p) as [[[v s] p0]|] eqn:Ef; [| discriminate]. injection E1 as <- <- <-. by eapply Hn. }
  split; [by eapply pass_trans |]. constructor; [| done]. apply pass_mono in H2 as [Hk Hl]. by eapply arg_known_mono.
Qed.

(** A statement after its arguments. *)
Lemma pass_push p nested p' typ op v rhs line :
  pass_ok p nested p' -> Forall (arg_known (known_at p') (p_literals p')) rhs -> typ = StAssign ->
  pass_ok p (nested ++ [mkStatement typ op (Some v) rhs line]) (push_heap v p').
Proof.
  intros H Hr ->. eapply pass_trans; [exact H |]. split_and!; [done | cbn; by rewrite map_app |].
  cbn [all_known]. split; [| done]. split; [by eexists | done].
Qed.

Lemma process_nested_known (fuel : nat) types : nested_ok (fun f i => process_nested_func cs ws fuel f types i).
Proof.
  revert types. induction fuel as [|fuel IH]; intros types f i p v stmts p' Hf E; cbn [process_nested_func] in E; [discriminate |].
  apply parsed_func in Hf as (Ht & [lhs Hlhs] & Hr). unfold lhs_of in E. rewrite Hlhs in E. cbn [ok_or] in E.
  destruct (ret_types (s_opcode f)) as [|ret ?]; [discriminate |]. destruct (check_type _ _ _ _ _ _); [| discriminate].
  destruct (analyze_args _ _ _ _ _ _ _ _) as [[[rhs nested] p1]|] eqn:Ea; [| discriminate]. injection E as <- <- <-.
  apply analyze_args_known in Ea as [H1 Hrhs]; [| apply IH | done]. split; [by apply pass_push |].
  unfold known_at. cbn [push_heap p_heap]. rewrite map_app. set_solver.
Qed.

Lemma analyze_statement_known s p out p' : parsed s -> analyze_statement cs ws s p = Ok (out, p') -> pass_ok p out p'.
Proof.
  intros [Ht Hr] E. unfold analyze_statement in E. destruct (check_arity s); [| discriminate]. destruct (check_range s); [| discriminate].
  destruct (analyze_args _ _ _ _ _ _ _ _) as [[[rhs nested] p1]|] eqn:Ea; [| discriminate].
  apply analyze_args_known in Ea as [H1 Hrhs]; [| apply process_nested_known | done].
  destruct (s_typ s) eqn:Es; [done | |]; cbn [bool_decide] in E.
  - unfold lhs_of in E. rewrite bool_decide_eq_true_2 in E by done. destruct Ht as [lhs Hlhs]. rewrite Hlhs in E. cbn [ok_or] in E.
    destruct (ret_types (s_opcode s)) as [|ret ?]; [discriminate |]. injection E as <- <-. by apply pass_push.
  - rewrite bool_decide_eq_false_2 in E by done. injection E as <- <-.
    eapply pass_trans; [exact H1 |]. split_and!; [done | cbn; by rewrite app_nil_r | cbn [all_known]; done].
Qed.

Lemma analyze_statements_known l p out p' : Forall parsed l -> analyze_statements cs ws l p = Ok (out, p') -> pass_ok p out p'.
Proof.
  revert p out p'. induction l as [|s l IH]; intros p out p' Hp E; cbn [analyze_statements] in E; [injection E as <- <-; apply pass_refl |].
  inversion_clear Hp as [|?? Hs Hl]. destruct (analyze_statement cs ws s p) as [[o1 p1]|] eqn:E1; [| discriminate].
  destruct (analyze_statements cs ws l p1) as [[o2 p2]|] eqn:E2; [| discriminate]. injection E as <- <-.
  eapply pass_trans; [by eapply analyze_statement_known | by eapply IH].
Qed.

End Known.

(** ** The compiler accepts it *)

(** [Compiler::new] with what the analyzer leaves, as the tool calls it. *)
Definition compiler_of (ns : text) (k : Z) (debug : bool) (hash : option text) (a : Analyzer) : Compiler := {|
  cc_namespace := ns; cc_k := k; cc_constants := an_constants a; cc_witnesses := an_witnesses a; cc_statements := an_statements a;
  cc_literals := an_literals a; cc_debug_info := debug; cc_source_hash := hash |}.

Lemma rposition_some {A : Type} (p : A -> bool) (l : list A) x : x ∈ l -> p x = true -> is_Some (rposition p l).
Proof.
  intros Hx Hp. induction Hx as [|x y l _ IH]; cbn [rposition].
  - destruct (rposition p l); [by eexists |]. rewrite Hp. by eexists.
  - destruct (IH Hp) as [i ->]. by eexists.
Qed.

Lemma position_some {A : Type} (p : A -> bool) (l : list A) x : x ∈ l -> p x = true -> is_Some (position p l).
Proof.
  intros Hx Hp. induction Hx as [|x y l _ IH]; cbn [position]; [rewrite Hp; by eexists |].
  destruct (p y); [by eexists |]. destruct (IH Hp) as [i ->]. by eexists.
Qed.

Lemma compile_args_known heap lits args : Forall (arg_known heap lits) args -> exists bs, compile_args heap lits args = Ok bs.
Proof.
  induction 1 as [|a args Ha _ [bs IH]]; [by eexists |]. cbn [compile_args].
  assert (exists b, compile_arg heap lits a = Ok b) as [b ->]; [| rewrite IH; by eexists].
  destruct a as [v|l|f]; [| | done]; cbn [compile_arg arg_known] in *.
  - unfold lookup_heap. destruct (rposition_some (fun n => bool_decide (n = v_name v)) heap (v_name v)) as [i ->]; [done | by apply bool_decide_eq_true |]. by eexists.
  - unfold lookup_literal. destruct (position_some (fun x => bool_decide (l_name x = l_name l)) lits l) as [i ->]; [done | by apply bool_decide_eq_true |]. by eexists.
Qed.

Lemma compile_statement_known lits i g :
  stmt_known (g_heap g) lits i -> exists g', compile_statement lits i g = Ok g' /\ g_heap g' = g_heap g ++ assigned_name i.
Proof.
  intros [Ht Ha]. unfold compile_statement, assigned_name, lhs_of. destruct (s_typ i) eqn:Es; [done | |].
  - destruct Ht as [lhs ->]. cbn [ok_or from_option].
    destruct (compile_args_known (g_heap g ++ [v_name lhs]) lits (s_rhs i)) as [bs ->].
    { eapply args_known_mono; [| done | exact Ha]. set_solver. }
    destruct (lookup_heap (g_heap g) (v_name lhs)); eexists; by split.
  - destruct (compile_args_known _ _ _ Ha) as [bs ->]. eexists. split; [done |]. cbn. by rewrite app_nil_r.
Qed.

Lemma compile_statements_known lits l g : all_known (g_heap g) lits l -> exists g', compile_statements lits l g = Ok g'.
Proof.
  revert g. induction l as [|i l IH]; intros g; cbn [all_known compile_statements]; [by eexists |]. intros [Hi Hl].
  destruct (compile_statement_known lits i g Hi) as (g1 & -> & Hh). apply IH. by rewrite Hh.
Qed.

(** A circuit that passes the analyzer compiles. *)
Lemma analyzed_compile cs ws l a ns k (debug : bool) hash :
  Forall parsed l -> analyze_types (new_analyzer cs ws l) = Ok a -> exists bytes, compile (compiler_of ns k debug hash a) = Ok bytes.
Proof.
  intros Hp E. unfold analyze_types in E. cbn [new_analyzer an_constants an_witnesses an_statements an_literals an_heap] in E.
  destruct (analyze_statements cs ws l _) as [[out p]|] eqn:Eo; [| discriminate]. injection E as <-.
  apply analyze_statements_known in Eo as (_ & _ & Hk); [| done]. unfold known_at in Hk. cbn [p_heap map] in Hk. rewrite app_nil_r in Hk.
  unfold compile. cbn [compiler_of cc_constants cc_witnesses cc_statements cc_literals cc_debug_info cc_source_hash cc_namespace cc_k an_constants an_witnesses an_statements an_literals].
  destruct (compile_statements_known (p_literals p) out {| g_heap := map c_name cs ++ map w_name ws; g_data := []; g_extra := [] |} Hk) as [g ->].
  destruct debug; by eexists.
Qed.
