(* ===== verification/ZkasParser.v ===== *)
(** * The front end of the compiler ([src/zkas/lexer.rs], [parser.rs])

    From the characters of a source file to the syntax tree.  The lexer is a
    machine with a buffer and four flags that takes one character at a time; the
    parser takes tokens off an iterator, here the list of the tokens that are
    left.  Characters are code points. *)

From Stdlib Require Import String.
From S2P Require Import Prelude Serial Zkas ZkasBinary ZkasCompile ZkasAnalyzer.

(** ** The lexer *)

Inductive TokenType := TSymbol | TString | TNumber | LeftBrace | RightBrace | LeftParen | RightParen | LeftBracket | RightBracket | Comma | Semicolon | Assign.

#[export] Instance TokenType_eq : EqDecision TokenType.
Proof. solve_decision. Defined.

Record Token := { t_token : text; t_type : TokenType; t_line : Z; t_column : Z }.

Definition is_letter (c : Z) : bool := in_range 97 122 c || in_range 65 90 c || (c =? 95).
Definition is_digit (c : Z) : bool := in_range 48 57 c.

(** [char::is_whitespace]. *)
Definition is_whitespace (c : Z) : bool :=
  in_range 9 13 c || (c =? 32) || (c =? 0x85) || (c =? 0xa0) || (c =? 0x1680) || in_range 0x2000 0x200a c ||
  (c =? 0x2028) || (c =? 0x2029) || (c =? 0x202f) || (c =? 0x205f) || (c =? 0x3000).

(** The special characters and the tokens they are. *)
Definition special (c : Z) : option TokenType :=
  match c with
  | 123 => Some LeftBrace | 125 => Some RightBrace | 40 => Some LeftParen | 41 => Some RightParen
  | 91 => Some LeftBracket | 93 => Some RightBracket | 44 => Some Comma | 59 => Some Semicolon | 61 => Some Assign
  | _ => None
  end.

Record Lexer := {
  x_tokens : list Token; x_line : Z; x_column : Z; x_buf : text;
  x_comment : bool; x_string : bool; x_number : bool; x_symbol : bool
}.

Definition push_token (t : text) (ty : TokenType) (column : Z) (x : Lexer) : list Token :=
  x_tokens x ++ [{| t_token := t; t_type := ty; t_line := x_line x; t_column := column |}].

(** The macros [new_symbol], [new_string], [new_number]. *)
Definition new_token (ty : TokenType) (x : Lexer) : Lexer := {|
  x_tokens := push_token (x_buf x) ty (x_column x - Z.of_nat (length (x_buf x))) x; x_line := x_line x; x_column := x_column x; x_buf := [];
  x_comment := x_comment x; x_string := x_string x && negb (bool_decide (ty = TString));
  x_number := x_number x && negb (bool_decide (ty = TNumber)); x_symbol := x_symbol x && negb (bool_decide (ty = TSymbol)) |}.
Definition flush_symbol (x : Lexer) : Lexer := if x_symbol x then new_token TSymbol x else x.
Definition flush_number (x : Lexer) : Lexer := if x_number x then new_token TNumber x else x.

Definition push_char (c : Z) (x : Lexer) : Lexer := {|
  x_tokens := x_tokens x; x_line := x_line x; x_column := x_column x; x_buf := x_buf x ++ [c];
  x_comment := x_comment x; x_string := x_string x; x_number := x_number x; x_symbol := x_symbol x |}.
Definition next_column (x : Lexer) : Lexer := {|
  x_tokens := x_tokens x; x_line := x_line x; x_column := x_column x + 1; x_buf := x_buf x;
  x_comment := x_comment x; x_string := x_string x; x_number := x_number x; x_symbol := x_symbol x |}.
Definition next_line (x : Lexer) : Lexer := {|
  x_tokens := x_tokens x; x_line := x_line x + 1; x_column := 0; x_buf := x_buf x;
  x_comment := false; x_string := x_string x; x_number := x_number x; x_symbol := x_symbol x |}.
Definition set_flags (comment str num sym : bool) (x : Lexer) : Lexer := {|
  x_tokens := x_tokens x; x_line := x_line x; x_column := x_column x; x_buf := x_buf x;
  x_comment := x_comment x || comment; x_string := x_string x || str; x_number := x_number x || num; x_symbol := x_symbol x || sym |}.
Definition push_special (c : Z) (ty : TokenType) (x : Lexer) : Lexer := {|
  x_tokens := push_token [c] ty (x_column x) x; x_line := x_line x; x_column := x_column x; x_buf := x_buf x;
  x_comment := x_comment x; x_string := x_string x; x_number := x_number x; x_symbol := x_symbol x |}.

Definition lex_abort {A : Type} (msg : string) (x : Lexer) : ZRes A := abort msg (x_line x) (x_column x).

(** In a string, symbol or number, or between tokens. *)
Definition idle (x : Lexer) : bool := negb (x_number x) && negb (x_symbol x) && negb (x_string x).

(** One character. *)
Definition lex_char (c : Z) (x : Lexer) : ZRes Lexer :=
  let x := next_column x in
  if c =? 10 then
    let x := flush_symbol x in
    if x_string x then lex_abort "Strings can't contain newlines" x
    else if x_number x then lex_abort "Numbers can't contain newlines" x
    else Ok (next_line x)
  else if (c =? 35) || x_comment x then
    let x := flush_number (flush_symbol x) in
    if x_string x then Ok (push_char c x) else Ok (set_flags true false false false x)
  else if is_whitespace c then
    let x := flush_number (flush_symbol x) in
    if x_string x then lex_abort "Strings/Namespaces can't contain whitespace" x else Ok x
  else if idle x && is_digit c then Ok (push_char c (set_flags false false true false x))
  else
    let x := if x_number x && negb (is_digit c) then new_token TNumber x else x in
    if x_number x && is_digit c then Ok (push_char c x)
    else if idle x && is_letter c then Ok (push_char c (set_flags false false false true x))
    else if idle x && (c =? 34) then Ok (set_flags false true false false x)
    else if (x_symbol x || x_string x) && (is_letter c || is_digit c) then Ok (push_char c x)
    else if x_string x && (c =? 34) then
      match x_buf x with [] => lex_abort "String cannot be empty" x | _ => Ok (new_token TString x) end
    else
      match special c with
      | Some ty => Ok (push_special c ty (flush_number (flush_symbol x)))
      | None => abort "Invalid token" (x_line x) (x_column x - 1)
      end.

Fixpoint lex_chars (source : list Z) (x : Lexer) : ZRes Lexer :=
  match source with [] => Ok x | c :: rest => let? x' := lex_char c x in lex_chars rest x' end.

Definition new_lexer : Lexer := {|
  x_tokens := []; x_line := 1; x_column := 0; x_buf := []; x_comment := false; x_string := false; x_number := false; x_symbol := false |}.

(** The buffer is not looked at when the source ends. *)
Definition lex (source : list Z) : ZRes (list Token) := let? x := lex_chars source new_lexer in Ok (x_tokens x).

(** ** The parser *)

Definition KEYWORDS : list text := map ascii_key ["k"; "field"; "constant"; "witness"; "circuit"]%string.
Definition NOPE_NS : list text := map ascii_key [".constant"; ".literal"; ".witness"; ".circuit"]%string.

Definition CONSTANT_TYPES : list (text * VarType * list text) :=
  [(ascii_key "EcFixedPoint", EcFixedPoint, [ascii_key "VALUE_COMMIT_RANDOM"]);
   (ascii_key "EcFixedPointShort", EcFixedPointShort, [ascii_key "VALUE_COMMIT_VALUE"]);
   (ascii_key "EcFixedPointBase", EcFixedPointBase, [ascii_key "VALUE_COMMIT_RANDOM_BASE"; ascii_key "NULLIFIER_K"]);
   (ascii_key "Base", Base, [])].

(** The witness types and what they are called. *)
Definition WITNESS_TYPES : list (text * VarType) :=
  [(ascii_key "EcPoint", EcPoint); (ascii_key "EcNiPoint", EcNiPoint); (ascii_key "Base", Base); (ascii_key "Scalar", Scalar);
   (ascii_key "MerklePath", MerklePath); (ascii_key "SparseMerklePath", SparseMerklePath); (ascii_key "Uint32", Uint32); (ascii_key "Uint64", Uint64)].
Definition VarType_try_from (t : Token) : option VarType := snd <$> List.find (fun e => bool_decide (e.1 = t_token t)) WITNESS_TYPES.

Definition text_in (t : text) (l : list text) : bool := existsb (fun x => bool_decide (x = t)) l.
Definition tok_abort {A : Type} (msg : string) (t : Token) : ZRes A := abort msg (t_line t) (t_column t).

Definition expect_token_type (t : Token) (ty : TokenType) : ZRes unit :=
  if bool_decide (t_type t = ty) then Ok tt else tok_abort "Unexpected token type" t.

Definition parse_header (iter : list Token) : ZRes (Z * list Token) :=
  match iter with
  | k :: equal :: number :: semicolon :: iter =>
      let? _ := expect_token_type k TSymbol in
      let? _ := expect_token_type equal Assign in
      let? _ := expect_token_type number TNumber in
      let? _ := expect_token_type semicolon Semicolon in
      if negb (bool_decide (t_token k = ascii_key "k")) then tok_abort "Source file does not start with k=n;" k
      else
        let? declared_k := ok_or (parse_uint 32 (t_token number)) (ZkasAbort "k param is invalid" (t_line number) (t_column number)) in
        if MAX_K <? declared_k then tok_abort "k param is too high" number
        else
          match iter with
          | field :: equal :: field_name :: semicolon :: iter =>
              let? _ := expect_token_type field TSymbol in
              let? _ := expect_token_type equal Assign in
              let? _ := expect_token_type field_name TString in
              let? _ := expect_token_type semicolon Semicolon in
              if negb (bool_decide (t_token field = ascii_key "field")) then tok_abort "Source file does not declare field after k" field
              else if negb (text_in (t_token field_name) ALLOWED_FIELDS) then tok_abort "Declared field is not supported" field_name
              else Ok (declared_k, iter)
          | _ => abort "Source file does not declare field after k" 0 0
          end
  | _ => abort "Source file does not start with k=n;" 0 0
  end.

(** The tokens up to the closing brace. *)
Fixpoint absorb_section_tokens (iter dest : list Token) : ZRes (list Token * list Token) :=
  match iter with
  | [] => Ok (dest, [])
  | t :: rest =>
      if text_in (t_token t) KEYWORDS && bool_decide (t_type t = TSymbol) then tok_abort "Keyword used in improper place." t
      else if bool_decide (t_type t = RightBrace) then Ok (dest ++ [t], rest)
      else absorb_section_tokens rest (dest ++ [t])
  end.

Definition validate_section_namespace (tokens : list Token) (existing : option text) : ZRes text :=
  match tokens with
  | [] => abort "Section has no tokens" 0 0
  | t :: _ =>
      match existing with
      | Some ns => if bool_decide (ns = t_token t) then Ok ns else tok_abort "Found another namespace" t
      | None =>
          if text_in (t_token t) NOPE_NS then tok_abort "cannot be a namespace." t
          else if MAX_NS_LEN <? Z.of_nat (length (t_token t)) then tok_abort "Namespace too long" t
          else Ok (t_token t)
      end
  end.

(** The sections declared so far, with their tokens. *)
Record SectionTokens := { sec_constant : option (list Token); sec_witness : option (list Token); sec_circuit : option (list Token) }.

Fixpoint parse_sections (fuel : nat) (iter : list Token) (ns : option text) (s : SectionTokens) : ZRes (text * list Token * list Token * list Token) :=
  match iter, fuel with
  | [], _ =>
      match ns with
      | None => abort "Missing namespace in .zk source." 0 0
      | Some n =>
          match sec_constant s with
          | None => abort "Missing `constant` section in .zk source." 0 0
          | Some c =>
              match sec_witness s with
              | None => abort "Missing `witness` section in .zk source." 0 0
              | Some w => match sec_circuit s with None => abort "Missing `circuit` section in .zk source." 0 0 | Some i => Ok (n, c, w, i) end
              end
          end
      end
  | _ :: _, O => Err Panic
  | t :: rest, S fuel' =>
      let continue (declared : option (list Token)) (set : list Token -> SectionTokens) :=
        match declared with
        | Some _ => tok_abort "Duplicate section found." t
        | None =>
            let? (tokens, rest') := absorb_section_tokens rest [] in
            let? n := validate_section_namespace tokens ns in
            parse_sections fuel' rest' (Some n) (set tokens)
        end in
      if bool_decide (t_token t = ascii_key "constant") then
        continue (sec_constant s) (fun l => {| sec_constant := Some l; sec_witness := sec_witness s; sec_circuit := sec_circuit s |})
      else if bool_decide (t_token t = ascii_key "witness") then
        continue (sec_witness s) (fun l => {| sec_constant := sec_constant s; sec_witness := Some l; sec_circuit := sec_circuit s |})
      else if bool_decide (t_token t = ascii_key "circuit") then
        continue (sec_circuit s) (fun l => {| sec_constant := sec_constant s; sec_witness := sec_witness s; sec_circuit := Some l |})
      else tok_abort "is not a valid section" t
  end.

Inductive SectionKind := SecTyped | SecCircuit.

(** [tokens[2..tokens.len() - 1]]: between the braces. *)
Definition inner_tokens (tokens : list Token) : list Token := take (length tokens - 3) (drop 2 tokens).

Definition check_section_structure (kind : SectionKind) (tokens : list Token) : ZRes unit :=
  match tokens with
  | t0 :: t1 :: _ =>
      if negb (bool_decide (t_type t0 = TString)) then tok_abort "Section declaration must start with a naming string." t0
      else if negb (bool_decide (t_type t1 = LeftBrace)) then tok_abort "Section must be opened with a left brace" t0
      else
        let? tlast := ok_or (last tokens) Panic in
        if negb (bool_decide (t_type tlast = RightBrace)) then tok_abort "Section must be closed with a right brace" t0
        else
          match kind with
          | SecTyped =>
              if (length (inner_tokens tokens) mod 3 =? 0)%nat then Ok tt else tok_abort "Invalid number of elements in section." t0
          | SecCircuit =>
              if (length tokens =? 3)%nat then abort "circuit section is empty." 0 0
              else
                let? t := index tokens (length tokens - 2) in
                if bool_decide (t_type t = Semicolon) then Ok tt else tok_abort "Circuit section does not end with a semicolon." t
          end
  | _ => abort "Insufficient number of tokens in section." 0 0
  end.

(** [parse_typed_section]: the map in its order of insertion. *)
Fixpoint parse_typed (iter : list Token) (acc : list (Token * Token)) : ZRes (list (Token * Token)) :=
  match iter with
  | typ :: name :: comma :: rest =>
      if negb (bool_decide (t_type comma = Comma)) then tok_abort "Separator is not a comma." comma
      else if existsb (fun e => bool_decide (t_token e.1 = t_token name)) acc then tok_abort "Section already contains the token" name
      else parse_typed rest (acc ++ [(name, typ)])
  | _ => Ok acc
  end.

Definition validate_section_entry (name typ : Token) : ZRes unit :=
  if negb (bool_decide (t_type name = TSymbol)) then tok_abort "name is not a symbol." name
  else if negb (bool_decide (t_type typ = TSymbol)) then tok_abort "type is not a symbol." typ
  else Ok tt.

Definition build_constant (e : Token * Token) : ZRes Constant :=
  let (name, typ) := e in
  let? _ := validate_section_entry name typ in
  match List.find (fun d => bool_decide (d.1.1 = t_token typ)) CONSTANT_TYPES with
  | Some (_, t, valid) =>
      if negb (bool_decide (valid = [])) && negb (text_in (t_token name) valid) then tok_abort "is not a valid constant" name
      else Ok {| c_name := t_token name; c_typ := t; c_line := t_line typ; c_column := t_column typ |}
  | None => tok_abort "is an unsupported constant type." typ
  end.

Definition build_witness (e : Token * Token) : ZRes Witness :=
  let (name, typ) := e in
  let? _ := validate_section_entry name typ in
  match VarType_try_from typ with
  | Some t => Ok {| w_name := t_token name; w_typ := t; w_line := t_line name; w_column := t_column name |}
  | None => tok_abort "is an unsupported witness type" typ
  end.

Fixpoint build_all {A B : Type} (f : A -> ZRes B) (l : list A) : ZRes (list B) :=
  match l with [] => Ok [] | a :: rest => let? b := f a in let? bs := build_all f rest in Ok (b :: bs) end.

Definition build_constants (tokens : list Token) : ZRes (list Constant) :=
  let? _ := check_section_structure SecTyped tokens in
  let? parsed := parse_typed (inner_tokens tokens) [] in build_all build_constant parsed.
Definition build_witnesses (tokens : list Token) : ZRes (list Witness) :=
  let? _ := check_section_structure SecTyped tokens in
  let? parsed := parse_typed (inner_tokens tokens) [] in build_all build_witness parsed.

(** The name of the result of a nested call. *)
Fixpoint dec_digits (fuel : nat) (n : Z) (acc : text) : text :=
  match fuel with O => acc | S f => let acc := (48 + n mod 10) :: acc in if n <? 10 then acc else dec_digits f (n / 10) acc end.
Definition dec_text (n : Z) : text := dec_digits 20 n [].
Definition inner_name (line column : Z) : text := ascii_key "_op_inner_" ++ dec_text line ++ ascii_key "_" ++ dec_text column.

Definition mkVar (name : text) (t : Token) : Variable_ := {| v_name := name; v_typ := Dummy; v_line := t_line t; v_column := t_column t |}.

(** [if let Some(comma) = iter.peek() { if it is one { iter.next(); } }]. *)
Definition skip_comma (iter : list Token) : list Token :=
  match iter with t :: rest => if bool_decide (t_type t = Comma) then rest else iter | [] => [] end.

(** The loop of [parse_function_call], behind the opening parenthesis; the
    arguments, and the tokens that are left. *)
Fixpoint parse_call_args (fuel : nat) (iter : list Token) (ret : list Arg) : ZRes (list Arg * list Token) :=
  match iter, fuel with
  | [], _ => Ok (ret, [])
  | _ :: _, O => Err Panic
  | arg :: iter1, S fuel' =>
      match from_name (t_token arg) with
      | Some op_inner =>
          match iter1 with
          | [] => tok_abort "Missing tokens in statement, there's a syntax error here." arg
          | paren :: iter2 =>
              if negb (bool_decide (t_type paren = LeftParen)) then tok_abort "Invalid function call opening. Must start with a '('." paren
              else
                let? (args, iter3) := parse_call_args fuel' iter2 [] in
                let var := mkVar (inner_name (t_line arg) (t_column arg)) arg in
                parse_call_args fuel' iter3 (ret ++ [ArgFunc (mkStatement StAssign op_inner (Some var) args (t_line arg))])
          end
      | None =>
          match iter1 with
          | [] => Ok (ret, [])
          | sep :: iter2 =>
              let continue (ret : list Arg) :=
                if bool_decide (t_type sep = RightParen) then Ok (ret, skip_comma iter2)
                else if negb (bool_decide (t_type sep = Comma)) then tok_abort "Argument separator is not a comma (`,`)" sep
                else parse_call_args fuel' iter2 ret in
              match t_type arg with
              | TSymbol => continue (ret ++ [ArgVar (mkVar (t_token arg) arg)])
              | TNumber =>
                  match parse_u64 (t_token arg) with
                  | None => tok_abort "Failed to convert literal into u64" arg
                  | Some _ => continue (ret ++ [ArgLit {| l_name := t_token arg; l_typ := LitUint64; l_line := t_line arg; l_column := t_column arg |}])
                  end
              | RightParen => Ok (ret, skip_comma iter2)
              | _ => tok_abort "Character is illegal/unimplemented in this context" arg
              end
          end
      end
  end.

Definition parse_function_call (token : Token) (iter : list Token) : ZRes (list Arg * list Token) :=
  match iter with
  | [] => tok_abort "Premature ending of statement." token
  | next :: rest =>
      if negb (bool_decide (t_type next = LeftParen)) then tok_abort "Invalid function call opening. Must start with a '('." next
      else parse_call_args (length rest) rest []
  end.

(** The opcode and the arguments of a statement; what is left is not looked at. *)
Definition parse_opcode_call (token : Token) (iter : list Token) : ZRes (Opcode * list Arg) :=
  if negb (bool_decide (t_type token = TSymbol)) then tok_abort "This token is not a symbol." token
  else
    match from_name (t_token token) with
    | Some op => let? (rhs, _) := parse_function_call token iter in Ok (op, rhs)
    | None => tok_abort "Unimplemented opcode" token
    end.

Definition parse_statement (iter : list Token) : ZRes Statement :=
  match iter with
  | [] => abort "Empty statement" 0 0
  | [token] => tok_abort "Statement is a NOOP; not allowed. (Did you miss a semicolon?)" token
  | token :: next :: rest =>
      if bool_decide (t_type next = Assign) then
        match rest with
        | [] => tok_abort "Expected opcode after assignment" token
        | opcode_token :: rest' =>
            let? (op, rhs) := parse_opcode_call opcode_token rest' in
            Ok (mkStatement StAssign op (Some (mkVar (t_token token) token)) rhs (t_line token))
        end
      else if bool_decide (t_type next = LeftParen) then
        let? (op, rhs) := parse_opcode_call token (next :: rest) in
        Ok (mkStatement StCall op None rhs (t_line token))
      else if bool_decide (t_type next = LeftBracket) then tok_abort "Arrays are not implemented yet." token
      else tok_abort "Illegal token" next
  end.

Definition count_token (s : string) (l : list Token) : nat := length (List.filter (fun t => bool_decide (t_token t = ascii_key s)) l).

Definition validate_statement_brackets (statement : list Token) : ZRes unit :=
  let? t0 := index statement 0 in
  let (lp, rp) := (count_token "(" statement, count_token ")" statement) in
  let (lb, rb) := (count_token "[" statement, count_token "]" statement) in
  if ((lp =? 0) && (rp =? 0) && (lb =? 0) && (rb =? 0))%nat then tok_abort "Statement must include a function call or array initialization." t0
  else if (negb (lb =? rb) || negb (lp =? rp))%nat then tok_abort "Parentheses or brackets are not matched." t0
  else if (1 <? lb)%nat then tok_abort "Only one pair of brackets allowed for array declaration" t0
  else Ok tt.

(** The statements, each up to its semicolon; what follows the last is dropped. *)
Fixpoint split_statements (tokens current : list Token) : list (list Token) :=
  match tokens with
  | [] => []
  | t :: rest => if bool_decide (t_type t = Semicolon) then current :: split_statements rest [] else split_statements rest (current ++ [t])
  end.

Definition parse_circuit_statement (statement : list Token) : ZRes (list Statement) :=
  match statement with
  | [] => Ok []
  | _ => let? _ := validate_statement_brackets statement in let? s := parse_statement statement in Ok [s]
  end.

Definition parse_ast_circuit (tokens : list Token) : ZRes (list Statement) :=
  let? _ := check_section_structure SecCircuit tokens in
  let? parsed := build_all parse_circuit_statement (split_statements (inner_tokens tokens) []) in
  Ok (concat parsed).

Record Parsed := { pa_namespace : text; pa_k : Z; pa_constants : list Constant; pa_witnesses : list Witness; pa_statements : list Statement }.

Definition parse (tokens : list Token) : ZRes Parsed :=
  match tokens with
  | [] => abort "Source file does not contain any valid tokens." 0 0
  | t0 :: _ =>
      if negb (bool_decide (t_type t0 = TSymbol)) then abort "Source file does not start with a section." 0 0
      else
        let? (declared_k, iter) := parse_header tokens in
        let? (ns, constant, witness, circuit) := parse_sections (length iter) iter None {| sec_constant := None; sec_witness := None; sec_circuit := None |} in
        let? constants := build_constants constant in
        let? witnesses := build_witnesses witness in
        let? statements := parse_ast_circuit circuit in
        match statements with
        | [] => abort "Circuit section is empty." 0 0
        | _ => Ok {| pa_namespace := ns; pa_k := declared_k; pa_constants := constants; pa_witnesses := witnesses; pa_statements := statements |}
        end
  end.

(** The tool: characters to bytes, with the hash of the source it is given. *)
Definition compile_source (source : list Z) (debug : bool) (hash : option text) : ZRes (list Z) :=
  let? tokens := lex source in
  let? p := parse tokens in
  let? a := analyze_types (new_analyzer (pa_constants p) (pa_witnesses p) (pa_statements p)) in
  compile (compiler_of (pa_namespace p) (pa_k p) debug hash a).
