(* ===== verification/ZkasFront.v ===== *)
(** * What the front end accepts

    What the parser returns is a circuit the analyzer and the compiler are made
    for, so a source that passes the checks compiles; the parser reads a call
    back as the tree it spells, as long as no call that is followed by another
    argument ends in two nested calls; and it does not look at what follows a
    call. *)

From Stdlib Require Import String.
From S2P Require Import Prelude Serial Zkas ZkasBinary ZkasCompile ZkasAnalyzer ZkasParser.

(** ** Statements as the analyzer expects them *)

Lemma parsed_call typ op v args line : Forall parsed_arg args -> typ = StAssign -> parsed_arg (ArgFunc (mkStatement typ op (Some v) args line)).
Proof. intros H ->. cbn. split_and!; [done | by eexists |]. induction H as [|a l Ha _ IH]; [done | by split]. Qed.

Lemma parse_call_args_parsed (fuel : nat) iter ret args rest :
  parse_call_args fuel iter ret = Ok (args, rest) -> Forall parsed_arg ret -> Forall parsed_arg args.
Proof.
  revert iter ret args rest. induction fuel as [|fuel IH]; intros [|arg iter] ret args rest E Hret; cbn [parse_call_args] in E; try discriminate;
    try (injection E as <- _; exact Hret).
  destruct (from_name (t_token arg)) as [op|].
  - destruct iter as [|paren iter2]; [discriminate |]. destruct (negb _); [discriminate |].
    destruct (parse_call_args fuel iter2 []) as [[a iter3]|] eqn:Ea; [| discriminate]. eapply IH; [exact E |].
    apply Forall_app. split; [done |]. constructor; [| constructor]. apply parsed_call; [| done]. by eapply IH.
  - destruct iter as [|sep iter2]; [injection E as <- _; exact Hret |].
    assert (forall a, parsed_arg a -> (if bool_decide (t_type sep = RightParen) then Ok (ret ++ [a], skip_comma iter2)
      else if negb (bool_decide (t_type sep = Comma)) then tok_abort "Argument separator is not a comma (`,`)" sep
      else parse_call_args fuel iter2 (ret ++ [a])) = Ok (args, rest) -> Forall parsed_arg args) as Hc.
    { intros a Ha. destruct (bool_decide _); [intros [= <- _]; apply Forall_app; by split; [| constructor] |]. destruct (negb _); [discriminate |].
      intros H. eapply IH; [exact H |]. apply Forall_app. split; [done | by constructor]. }
    destruct (t_type arg); try discriminate; [by eapply Hc; [| exact E] | | by injection E as <- _].
    destruct (parse_u64 (t_token arg)); [| discriminate]. by eapply Hc; [| exact E].
Qed.

Lemma parse_opcode_call_parsed token iter op rhs : parse_opcode_call token iter = Ok (op, rhs) -> Forall parsed_arg rhs.
Proof.
  unfold parse_opcode_call, parse_function_call. destruct (negb _); [discriminate |]. destruct (from_name _); [| discriminate].
  destruct iter as [|next rest]; [discriminate |]. destruct (negb _); [discriminate |].
  destruct (parse_call_args _ rest []) as [[a r]|] eqn:E; [| discriminate]. intros [= _ <-]. by eapply parse_call_args_parsed.
Qed.

Lemma parse_statement_parsed iter s : parse_statement iter = Ok s -> parsed s.
Proof.
  unfold parse_statement. destruct iter as [|token [|next rest]]; [discriminate.. |].
  destruct (bool_decide (t_type next = Assign)).
  - destruct rest as [|o rest]; [discriminate |]. destruct (parse_opcode_call o rest) as [[op rhs]|] eqn:E; [| discriminate].
    intros [= <-]. split; [by eexists | by eapply parse_opcode_call_parsed].
  - destruct (bool_decide (t_type next = LeftParen)); [| destruct (bool_decide _); discriminate].
    destruct (parse_opcode_call token (next :: rest)) as [[op rhs]|] eqn:E; [| discriminate].
    intros [= <-]. split; [done | by eapply parse_opcode_call_parsed].
Qed.

Lemma build_all_forall {A B : Type} (f : A -> ZRes B) (P : B -> Prop) l bs : (forall a b, f a = Ok b -> P b) -> build_all f l = Ok bs -> Forall P bs.
Proof.
  intros Hf. revert bs. induction l as [|a l IH]; intros bs E; cbn [build_all] in E; [injection E as <-; constructor |].
  destruct (f a) as [b|] eqn:Ef; [| discriminate]. destruct (build_all f l) as [rest|]; [| discriminate]. injection E as <-.
  constructor; [by eapply Hf | by apply IH].
Qed.

Lemma parse_parsed tokens p : parse tokens = Ok p -> Forall parsed (pa_statements p).
Proof.
  unfold parse. destruct tokens as [|t0 tokens']; [discriminate |]. destruct (negb _); [discriminate |].
  destruct (parse_header _) as [[k iter]|]; [| discriminate]. destruct (parse_sections _ _ _ _) as [[[[ns c] w] i]|]; [| discriminate].
  destruct (build_constants c); [| discriminate]. destruct (build_witnesses w); [| discriminate].
  destruct (parse_ast_circuit i) as [l|] eqn:E; [| discriminate]. intros H. assert (pa_statements p = l) as -> by (destruct l; [discriminate | by injection H as <-]).
  unfold parse_ast_circuit in E. destruct (check_section_structure _ _); [| discriminate]. destruct (build_all _ _) as [ls|] eqn:Eb; [| discriminate].
  injection E as <-. apply (build_all_forall _ (Forall parsed)) in Eb; [by apply Forall_concat |].
  intros [|t st] b; cbn [parse_circuit_statement]; [intros [= <-]; constructor |]. destruct (validate_statement_brackets _); [| discriminate].
  destruct (parse_statement _) as [s|] eqn:Es; [| discriminate]. intros [= <-]. constructor; [by eapply parse_statement_parsed | constructor].
Qed.

(** C36: a source that passes the lexer, the parser and the analyzer compiles:
    the compiler finds every name and every literal, nested calls of any depth
    included, and meets none of its unreachable cases. *)
Theorem checked_source_compiles source tokens p a (debug : bool) hash :
  lex source = Ok tokens -> parse tokens = Ok p -> analyze_types (new_analyzer (pa_constants p) (pa_witnesses p) (pa_statements p)) = Ok a ->
  exists bytes, compile_source source debug hash = Ok bytes.
Proof.
  intros El Ep Ea. unfold compile_source. rewrite El, Ep, Ea. eapply analyzed_compile; [| exact Ea]. by eapply parse_parsed.
Qed.

(** ** Calls and how they are spelled *)

Inductive Expr := EAtom (t : Token) | ECall (t : Token) (args : list Expr).

(** The argument a token stands for by itself. *)
Definition atom_arg (t : Token) : option Arg :=
  match from_name (t_token t), t_type t with
  | None, TSymbol => Some (ArgVar (mkVar (t_token t) t))
  | None, TNumber => (fun _ => ArgLit {| l_name := t_token t; l_typ := LitUint64; l_line := t_line t; l_column := t_column t |}) <$> parse_u64 (t_token t)
  | _, _ => None
  end.

Definition call_arg (t : Token) (op : Opcode) (args : list Arg) : Arg :=
  ArgFunc (mkStatement StAssign op (Some (mkVar (inner_name (t_line t) (t_column t)) t)) args (t_line t)).

Definition closes (t : Token) : Prop := t_type t = RightParen /\ from_name (t_token t) = None.

(** [spelled es args ts]: the tokens [ts] spell the expressions [es], which
    denote [args]; there is at least one, and commas are between them. *)
Inductive spelled : list Expr -> list Arg -> list Token -> Prop :=
| spelled_atom t a : atom_arg t = Some a -> spelled [EAtom t] [a] [t]
| spelled_call t op lp es args ts rp :
    from_name (t_token t) = Some op -> t_type t = TSymbol -> t_type lp = LeftParen -> spelled es args ts -> closes rp ->
    spelled [ECall t es] [call_arg t op args] (t :: lp :: ts ++ [rp])
| spelled_atom_more t a cm es args ts :
    atom_arg t = Some a -> t_type cm = Comma -> spelled es args ts -> spelled (EAtom t :: es) (a :: args) (t :: cm :: ts)
| spelled_call_more t op lp es0 args0 ts0 rp cm es args ts :
    from_name (t_token t) = Some op -> t_type t = TSymbol -> t_type lp = LeftParen -> spelled es0 args0 ts0 -> closes rp -> t_type cm = Comma -> spelled es args ts ->
    spelled (ECall t es0 :: es) (call_arg t op args0 :: args) (t :: lp :: ts0 ++ rp :: cm :: ts).

(** How many calls end where the list ends. *)
Fixpoint tail_calls (e : Expr) : nat :=
  match e with
  | EAtom _ => 0
  | ECall _ es => S ((fix go l := match l with [] => 0 | [x] => tail_calls x | _ :: r => go r end) es)
  end%nat.
Definition tail_of (es : list Expr) : nat := from_option tail_calls 0%nat (last es).

(** No call that is followed by another argument ends in two nested calls. *)
Fixpoint readable (e : Expr) : bool :=
  match e with
  | EAtom _ => true
  | ECall _ es => (fix go l := match l with [] => true | [x] => readable x | x :: r => (tail_calls x <=? 2)%nat && readable x && go r end) es
  end.
Fixpoint all_readable (l : list Expr) : bool :=
  match l with [] => true | [x] => readable x | x :: r => (tail_calls x <=? 2)%nat && readable x && all_readable r end.

Lemma tail_calls_call t es : tail_calls (ECall t es) = S (tail_of es).
Proof. cbn. f_equal. unfold tail_of. induction es as [|x [|y r] IH]; [done | done |]. cbn [last] in *. exact IH. Qed.

Lemma readable_call t es : readable (ECall t es) = all_readable es.
Proof. cbn. induction es as [|x [|y r] IH]; [done | done |]. cbn [all_readable] in *. by rewrite <- IH. Qed.

Lemma tail_of_cons x y r : tail_of (x :: y :: r) = tail_of (y :: r).
Proof. done. Qed.

(** ** Reading an atom, and the end of a list *)

Lemma skip_comma_other t rest : t_type t <> Comma -> skip_comma (t :: rest) = t :: rest.
Proof. intros H. cbn [skip_comma]. by rewrite bool_decide_eq_false_2. Qed.

Lemma atom_type t a : atom_arg t = Some a -> t_type t <> Comma /\ from_name (t_token t) = None.
Proof. unfold atom_arg. destruct (from_name (t_token t)); [discriminate |]. destruct (t_type t); done. Qed.

Lemma read_atom (fuel : nat) t a sep rest ret :
  atom_arg t = Some a ->
  parse_call_args (S fuel) (t :: sep :: rest) ret =
    if bool_decide (t_type sep = RightParen) then Ok (ret ++ [a], skip_comma rest)
    else if negb (bool_decide (t_type sep = Comma)) then tok_abort "Argument separator is not a comma (`,`)" sep
    else parse_call_args fuel rest (ret ++ [a]).
Proof.
  unfold atom_arg. intros E. cbn [parse_call_args]. destruct (from_name (t_token t)); [discriminate |].
  destruct (t_type t); try discriminate; [by injection E as <- |]. destruct (parse_u64 (t_token t)); [| discriminate]. by injection E as <-.
Qed.

Lemma read_close (fuel : nat) rp rest ret :
  closes rp -> parse_call_args (S fuel) (rp :: rest) ret = Ok (ret, match rest with [] => [] | _ :: r => skip_comma r end).
Proof. intros [Ht Hn]. cbn [parse_call_args]. rewrite Hn. destruct rest as [|sep r]; [done |]. by rewrite Ht. Qed.

Lemma read_call (fuel : nat) t op lp rest ret :
  from_name (t_token t) = Some op -> t_type lp = LeftParen ->
  parse_call_args (S fuel) (t :: lp :: rest) ret =
    let? (args, iter) := parse_call_args fuel rest [] in parse_call_args fuel iter (ret ++ [call_arg t op args]).
Proof. intros Hn Hl. cbn [parse_call_args]. by rewrite Hn, Hl, bool_decide_eq_true_2 by done. Qed.

(** The first token of a list is no comma. *)
Lemma spelled_head es args ts : spelled es args ts -> exists t ts', ts = t :: ts' /\ t_type t <> Comma.
Proof. destruct 1; eexists _, _; (split; [done |]); try (by eapply atom_type); congruence. Qed.

Lemma spelled_cons es args ts : spelled es args ts -> exists e es', es = e :: es'.
Proof. destruct 1; by eexists _, _. Qed.

Lemma skip_closes rest : Forall closes rest -> skip_comma rest = rest.
Proof. destruct 1 as [|t rest [Ht _] _]; [done |]. apply skip_comma_other. congruence. Qed.

Definition past (rest : list Token) : list Token := match rest with [] => [] | _ :: r => skip_comma r end.

(** What the loop makes of the tokens of a list, of its closing parenthesis and
    of what follows: it reads the list; a call in last position makes it take a
    token more than its own. *)
Lemma spelled_read es args ts :
  spelled es args ts -> all_readable es = true -> forall (fuel : nat) rp rest ret, closes rp -> (length (ts ++ rp :: rest) <= fuel)%nat ->
  (tail_of es = 0%nat -> parse_call_args fuel (ts ++ rp :: rest) ret = Ok (ret ++ args, skip_comma rest)) /\
  (tail_of es = 1%nat -> parse_call_args fuel (ts ++ rp :: rest) ret = Ok (ret ++ args, past rest)) /\
  (Forall closes rest -> exists rest', Forall closes rest' /\ (length rest' <= length rest)%nat /\
     parse_call_args fuel (ts ++ rp :: rest) ret = Ok (ret ++ args, rest')).
Proof.
  induction 1 as [t a Ha | t op lp es args ts rp1 Hop Hty Hlp Hsp IH Hrp1 | t a cm es args ts Ha Hcm Hsp IH
                 | t op lp es0 args0 ts0 rp1 cm es args ts Hop Hty Hlp Hsp0 IH0 Hrp1 Hcm Hsp IH];
    intros Hr fuel rp rest ret Hrp Hf; (destruct fuel as [|fuel]; [cbn in Hf; lia |]).
  - assert (parse_call_args (S fuel) ([t] ++ rp :: rest) ret = Ok (ret ++ [a], skip_comma rest)) as E.
    { cbn [app]. rewrite (read_atom fuel t a) by done. by rewrite bool_decide_eq_true_2 by apply Hrp. }
    split_and!; [done | discriminate |]. intros Hc. exists rest. by rewrite E, skip_closes by done.
  - change (all_readable [ECall t es]) with (readable (ECall t es)) in Hr. rewrite readable_call in Hr.
    change (tail_of [ECall t es]) with (tail_calls (ECall t es)). rewrite tail_calls_call.
    cbn [app length] in Hf |- *. rewrite (read_call fuel t op) by done. rewrite <- app_assoc in Hf |- *. cbn [app] in Hf |- *.
    destruct (IH Hr fuel rp1 (rp :: rest) [] Hrp1 ltac:(cbn [length] in *; lia)) as (HA & _ & HC).
    assert (exists f, fuel = S f) as [f ->] by (destruct fuel; [rewrite length_app in Hf; cbn [length] in Hf; lia | by eexists]).
    split_and!; [discriminate | |].
    + intros [= Ht]. rewrite (HA Ht). rewrite skip_comma_other by (destruct Hrp; congruence). by rewrite read_close.
    + intros Hc. destruct HC as (rest' & Hc' & Hl' & ->); [by constructor |]. cbn [app]. destruct Hc' as [|c rest' Hcl Hc'].
      * exists []. split_and!; [done | cbn; lia | done].
      * rewrite read_close by done. cbn [length] in Hl'. exists (past rest'). split_and!; [| | done].
        -- destruct Hc' as [|? ? ? Hc'']; [constructor |]. cbn [past]. by rewrite skip_closes.
        -- destruct Hc' as [|? ? ? Hc'']; cbn [past length]; [lia |]. rewrite skip_closes by done. cbn [length] in Hl'. lia.
  - destruct (spelled_cons _ _ _ Hsp) as (e & es' & ->). rewrite tail_of_cons. cbn [all_readable] in Hr. apply andb_true_iff in Hr as [_ Hr].
    cbn [app length] in Hf |- *. rewrite (read_atom fuel t a) by done. rewrite bool_decide_eq_false_2 by congruence.
    rewrite bool_decide_eq_true_2 by done. cbn [negb]. destruct (IH Hr fuel rp rest (ret ++ [a]) Hrp ltac:(lia)) as (HA & HB & HC).
    rewrite <- app_assoc in HA, HB, HC. done.
  - destruct (spelled_cons _ _ _ Hsp) as (e & es' & ->). rewrite tail_of_cons.
    change (all_readable (ECall t es0 :: e :: es')) with ((tail_calls (ECall t es0) <=? 2)%nat && readable (ECall t es0) && all_readable (e :: es')) in Hr.
    apply andb_true_iff in Hr as [[Htail Hr0]%andb_true_iff Hr]. rewrite readable_call in Hr0. rewrite tail_calls_call in Htail. apply Nat.leb_le in Htail.
    cbn [app length] in Hf |- *. rewrite (read_call fuel t op) by done. rewrite <- app_assoc in Hf |- *. cbn [app] in Hf |- *.
    set (X := ts ++ rp :: rest) in *. rewrite length_app in Hf. cbn [length] in Hf.
    destruct (IH0 Hr0 fuel rp1 (cm :: X) [] Hrp1 ltac:(rewrite length_app; cbn [length]; lia)) as (HA & HB & _).
    assert (parse_call_args fuel (ts0 ++ rp1 :: cm :: X) [] = Ok (args0, X)) as ->.
    { destruct (tail_of es0) as [|[|n]]; [| | lia].
      - rewrite HA by done. cbn [skip_comma app]. by rewrite bool_decide_eq_true_2 by done.
      - rewrite HB by done. cbn [past app]. unfold X. destruct (spelled_head _ _ _ Hsp) as (t' & ts' & -> & Hn'). cbn [app]. by rewrite skip_comma_other. }
    destruct (IH Hr fuel rp rest (ret ++ [call_arg t op args0]) Hrp ltac:(fold X; lia)) as (HA' & HB' & HC'). fold X in HA', HB', HC'.
    rewrite <- app_assoc in HA', HB', HC'. done.
Qed.

(** C37: the parser reads a call back from its tokens, the whole tree with its
    literals, variables and the names of its nested calls.  The tokens are those
    that [spelled] gives to a tree of expressions, atoms and calls separated by
    commas, calls closed by a parenthesis, of any number and depth, and the tree is one in which no call that is followed by another argument ends
    in two nested calls; without this last condition an argument is swallowed
    ([ZkExample.argument_swallowed]). *)
Theorem call_read_back token lp es args ts rp :
  t_type lp = LeftParen -> spelled es args ts -> all_readable es = true -> closes rp ->
  parse_function_call token (lp :: ts ++ [rp]) = Ok (args, []).
Proof.
  intros Hlp Hsp Hr Hrp. cbn [parse_function_call]. rewrite bool_decide_eq_true_2 by done. cbn [negb].
  destruct (spelled_read es args ts Hsp Hr (length (ts ++ [rp])) rp [] [] Hrp ltac:(lia)) as (_ & _ & HC).
  destruct HC as (rest' & _ & Hl & ->); [constructor |]. destruct rest'; [done | cbn in Hl; lia].
Qed.

(** What follows a call up to the semicolon is dropped without a word: two
    calls with a semicolon missing between them are one call, and the second,
    a constraint perhaps, is not in the circuit. *)
Lemma rest_of_statement_dropped t op lp es args ts rp extra :
  t_type t = TSymbol -> from_name (t_token t) = Some op -> t_type lp = LeftParen -> spelled es args ts -> all_readable es = true ->
  tail_of es = 0%nat -> closes rp -> parse_statement (t :: lp :: ts ++ rp :: extra) = Ok (mkStatement StCall op None args (t_line t)).
Proof.
  intros Ht Hop Hlp Hsp Hr H0 Hrp. cbn [parse_statement]. rewrite bool_decide_eq_false_2, bool_decide_eq_true_2 by congruence.
  unfold parse_opcode_call, parse_function_call. rewrite bool_decide_eq_true_2, Hop, bool_decide_eq_true_2 by done. cbn [negb].
  destruct (spelled_read es args ts Hsp Hr (length (ts ++ rp :: extra)) rp extra [] Hrp ltac:(lia)) as (HA & _ & _). by rewrite (HA H0).
Qed.
