(* ===== verification/ZkVm.v ===== *)
(** * The machine that runs a circuit ([src/zk/vm.rs], [vm_heap.rs], [tracer.rs])

    [synthesize] lays a decoded circuit out: it fills a heap with the constants
    and the witnesses and goes through the instructions, each of which reads
    heap entries by position, has a chip constrain them, and may leave a result
    on the heap.  The chips of the proof system are a parameter: a value of a
    cell for the operations that have one, or the failure of the proof system.
    What the run leaves is the log of everything that was laid out, in order,
    with the rows of the public inputs.  Indexing out of range panics.  All chips
    are configured whatever the circuit uses, and assigning a free cell or a row
    of the instance column is taken to succeed. *)

From Stdlib Require Import String.
From S2P Require Import Prelude Serial Zkas ZkasBinary.

Inductive VmError := Synthesis | VmPanic.
Notation VRes A := (result VmError A).

Definition vm_index {A : Type} (l : list A) (i : nat) : VRes A := ok_or (l !! i) VmPanic.

(** The chips: the value a literal or a named constant has in the circuit, and
    what an operation on assigned cells gives, if the proof system lays it out.
    An operation without a result still has to be laid out. *)
Class Chips (V : Type) := {
  base_from : Z -> V;
  fixed_base : text -> V;
  chip : Opcode -> option Z -> list V -> option V;
}.

Section Vm.
Context {V : Type} `{!Chips V}.

(** An assigned variable with the variant of [HeapVar] it is. *)
Notation Var := (VarType * V)%type.

(** What was laid out: an operation, or a row of the instance column. *)
Inductive Event := Applied (op : Opcode) (lit : option Z) (args : list V) (ret : option V) | PublicInput (v : V) (row : Z).

(** [HeapVar]'s [TryFrom]. *)
Definition try_into (t : VarType) (h : Var) : VRes V := if bool_decide (h.1 = t) then Ok h.2 else Err Synthesis.

Definition VALUE_COMMIT_VALUE : text := ascii_key "VALUE_COMMIT_VALUE".
Definition VALUE_COMMIT_RANDOM : text := ascii_key "VALUE_COMMIT_RANDOM".
Definition VALUE_COMMIT_RANDOM_BASE : text := ascii_key "VALUE_COMMIT_RANDOM_BASE".
Definition NULLIFIER_K : text := ascii_key "NULLIFIER_K".

Definition load_constant (c : VarType * text) : VRes Var :=
  if bool_decide (c.2 = VALUE_COMMIT_VALUE) then Ok (EcFixedPointShort, fixed_base c.2)
  else if bool_decide (c.2 = VALUE_COMMIT_RANDOM) then Ok (EcFixedPoint, fixed_base c.2)
  else if bool_decide (c.2 = VALUE_COMMIT_RANDOM_BASE) then Ok (EcFixedPointBase, fixed_base c.2)
  else if bool_decide (c.2 = NULLIFIER_K) then Ok (EcFixedPointBase, fixed_base c.2)
  else if bool_decide (c.1 = Base) then Ok (Base, base_from 0)
  else Err Synthesis.

Definition load_literal (l : LitType * text) : VRes Z :=
  match l.1 with LitUint64 => ok_or (parse_u64 l.2) Synthesis | LitDummy => Err Synthesis end.

(** A witness is pushed as it is, but fixed points cannot be witnessed. *)
Definition load_witness (w : Var) : VRes Var := if bool_decide (w.1 = EcFixedPoint) then Err Synthesis else Ok w.

Fixpoint load_all {A B : Type} (f : A -> VRes B) (l : list A) : VRes (list B) :=
  match l with [] => Ok [] | a :: rest => let? b := f a in let? bs := load_all f rest in Ok (b :: bs) end.

(** The variables of [synthesize]; [vm_traced] counts the entries of the tracer. *)
Record Vm := { vm_heap : list Var; vm_public : Z; vm_lits : nat; vm_log : list Event; vm_traced : nat }.

Definition push_result (t : VarType) (v : V) (vm : Vm) : Vm := {|
  vm_heap := vm_heap vm ++ [(t, v)]; vm_public := vm_public vm; vm_lits := vm_lits vm; vm_log := vm_log vm; vm_traced := S (vm_traced vm) |}.
Definition push_void (vm : Vm) : Vm := {|
  vm_heap := vm_heap vm; vm_public := vm_public vm; vm_lits := vm_lits vm; vm_log := vm_log vm; vm_traced := S (vm_traced vm) |}.
Definition lay_out (e : Event) (vm : Vm) : Vm := {|
  vm_heap := vm_heap vm; vm_public := vm_public vm; vm_lits := vm_lits vm; vm_log := vm_log vm ++ [e]; vm_traced := vm_traced vm |}.
Definition constrain_instance (v : V) (vm : Vm) : Vm := {|
  vm_heap := vm_heap vm; vm_public := vm_public vm + 1; vm_lits := vm_lits vm; vm_log := vm_log vm ++ [PublicInput v (vm_public vm)];
  vm_traced := vm_traced vm |}.
Definition next_literal (vm : Vm) : Vm := {|
  vm_heap := vm_heap vm; vm_public := vm_public vm; vm_lits := S (vm_lits vm); vm_log := vm_log vm; vm_traced := vm_traced vm |}.

(** [heap[args[k].1].clone().try_into()?]; the kind of the argument is not read. *)
Definition operand (vm : Vm) (args : list (HeapType * Z)) (k : nat) (t : VarType) : VRes V :=
  let? a := vm_index args k in let? h := vm_index (vm_heap vm) (Z.to_nat a.2) in try_into t h.

Fixpoint read_operands (vm : Vm) (args : list (HeapType * Z)) (l : list (nat * VarType)) : VRes (list V) :=
  match l with [] => Ok [] | (k, t) :: rest => let? v := operand vm args k t in let? vs := read_operands vm args rest in Ok (v :: vs) end.

(** Which arguments an instruction reads, in which order and as what. *)
Definition operands (op : Opcode) : list (nat * VarType) :=
  match op with
  | EcAdd => [(0%nat, EcPoint); (1%nat, EcPoint)]
  | EcMul => [(1%nat, EcFixedPoint); (0%nat, Scalar)]
  | EcMulVarBase => [(1%nat, EcNiPoint); (0%nat, Base)]
  | EcMulBase => [(1%nat, EcFixedPointBase); (0%nat, Base)]
  | EcMulShort => [(1%nat, EcFixedPointShort); (0%nat, Base)]
  | EcGetX | EcGetY => [(0%nat, EcPoint)]
  | MerkleRoot => [(0%nat, Uint32); (1%nat, MerklePath); (2%nat, Base)]
  | SparseMerkleRoot => [(0%nat, Base); (1%nat, SparseMerklePath); (2%nat, Base)]
  | SetMembership => [(0%nat, Base); (1%nat, SparseMerklePath); (2%nat, Base); (3%nat, Base)]
  | BaseAdd | BaseMul | BaseSub | LessThanStrict | LessThanLoose | IsEqualBase | IsNotEqualBase | LessThanOrEqual
  | BaseLtStrict | BaseDiv | ZeroCondSelect | ConstrainEqualBase => [(0%nat, Base); (1%nat, Base)]
  | BoolCheck | NotBase | ConstrainInstance => [(0%nat, Base)]
  | CondSelect => [(0%nat, Base); (1%nat, Base); (2%nat, Base)]
  | ConstrainEqualPoint => [(0%nat, EcPoint); (1%nat, EcPoint)]
  | _ => []
  end.

(** A chip lays an operation out; its result, if it has one, goes to the heap. *)
Definition apply (op : Opcode) (lit : option Z) (vs : list V) (vm : Vm) : VRes Vm :=
  match chip op lit vs with
  | None => Err Synthesis
  | Some r =>
      match ret_types op with
      | [] => Ok (push_void (lay_out (Applied op lit vs None) vm))
      | t :: _ => Ok (push_result t r (lay_out (Applied op lit vs (Some r)) vm))
      end
  end.

Definition MAX_HASH_ARGS : nat := 24.

(** One round of the loop over the opcodes. *)
Definition vm_step (litheap : list Z) (i : Opcode * list (HeapType * Z)) (vm : Vm) : VRes Vm :=
  let args := i.2 in
  match i.1 with
  | Noop => Err Synthesis
  | EcGetX | EcGetY =>
      let? a := vm_index args 0 in
      if Z.of_nat (length (vm_heap vm)) <=? a.2 then Err Synthesis
      else let? vs := read_operands vm args (operands i.1) in apply i.1 None vs vm
  | PoseidonHash =>
      let? vs := read_operands vm args (imap (fun k _ => (k, Base)) args) in
      if (1 <=? length args)%nat && (length args <=? MAX_HASH_ARGS)%nat then apply PoseidonHash None vs vm else Err Synthesis
  | WitnessBase =>
      let? lit := vm_index litheap (vm_lits vm) in
      match chip WitnessBase (Some lit) [] with
      | None => Err Synthesis
      | Some _ => Ok (push_result Base (base_from lit) (lay_out (Applied WitnessBase (Some lit) [] (Some (base_from lit))) (next_literal vm)))
      end
  | RangeCheck =>
      let? lit := vm_index litheap (vm_lits vm) in
      let? a := vm_index args 1 in
      let? h := vm_index (vm_heap vm) (Z.to_nat a.2) in
      if (lit =? 64) || (lit =? 253) then let? v := try_into Base h in apply RangeCheck (Some lit) [v] (next_literal vm)
      else Err Synthesis
  | SetMembership =>
      let? vs := read_operands vm args (operands SetMembership) in
      let? expected_root := vm_index vs 3 in
      apply SetMembership None vs (constrain_instance expected_root vm)
  | ConstrainInstance =>
      let? v := operand vm args 0 Base in
      Ok (push_void (constrain_instance v vm))
  | DebugPrint =>
      let? a := vm_index args 0 in
      let? _ := vm_index (vm_heap vm) (Z.to_nat a.2) in
      Ok (push_void vm)
  | op => let? vs := read_operands vm args (operands op) in apply op None vs vm
  end.

Fixpoint vm_run (litheap : list Z) (l : list (Opcode * list (HeapType * Z))) (vm : Vm) : VRes Vm :=
  match l with [] => Ok vm | i :: rest => let? vm' := vm_step litheap i vm in vm_run litheap rest vm' end.

Record ZkCircuit := { zc_constants : list (VarType * text); zc_witnesses : list Var; zc_literals : list (LitType * text); zc_opcodes : list (Opcode * list (HeapType * Z)) }.

(** [ZkCircuit::new]: the witnesses are not compared with the binary. *)
Definition new_circuit (witnesses : list Var) (b : ZkBinary) : ZkCircuit := {|
  zc_constants := zb_constants b; zc_witnesses := witnesses; zc_literals := zb_literals b; zc_opcodes := zb_opcodes b |}.

(** [tracing]: the tracer is enabled, and asserts that it saw every opcode. *)
Definition synthesize (tracing : bool) (c : ZkCircuit) : VRes Vm :=
  let? constants := load_all load_constant (zc_constants c) in
  let? litheap := load_all load_literal (zc_literals c) in
  let? witnesses := load_all load_witness (zc_witnesses c) in
  let? vm := vm_run litheap (zc_opcodes c) {| vm_heap := constants ++ witnesses; vm_public := 0; vm_lits := 0; vm_log := []; vm_traced := 0 |} in
  if tracing && negb (vm_traced vm =? length (zc_opcodes c))%nat then Err VmPanic else Ok vm.

End Vm.
Arguments Event : clear implicits.
Arguments Vm : clear implicits.
Arguments ZkCircuit : clear implicits.
