(* ===== verification/ZkSemantics.v ===== *)
(** * What a circuit means, and that the machine does it

    A reference semantics of the source: names denote the value bound last, a
    nested call is evaluated where it stands, an assignment to a name that
    exists also constrains the two values to be equal.  It knows neither heap
    positions nor generated names nor the order of literals.  This file shows
    that the machine, run on the instructions the compiler makes of flat
    statements, lays out what the reference semantics says of them. *)

From Stdlib Require Import String.
From S2P Require Import Prelude Serial Zkas ZkasBinary ZkasCompile ZkasAnalyzer ZkVm.

(** Values by name, the latest at the end. *)
Notation Env V := (list (text * (VarType * V))).

Section Semantics.
Context {V : Type} `{!Chips V}.
Notation Var := (VarType * V)%type.

(** ** Operations *)

Inductive Operand := OVar (h : Var) | OLit (n : Z).

Record Effects := { e_public : Z; e_log : list (Event V) }.

Definition as_var (t : VarType) (o : Operand) : option V :=
  match o with OVar h => if bool_decide (h.1 = t) then Some h.2 else None | OLit _ => None end.

Definition log_event (ev : Event V) (e : Effects) : Effects := {| e_public := e_public e; e_log := e_log e ++ [ev] |}.
Definition public_input (v : V) (e : Effects) : Effects := {| e_public := e_public e + 1; e_log := e_log e ++ [PublicInput v (e_public e)] |}.

Definition exec_chip (op : Opcode) (lit : option Z) (vs : list V) (e : Effects) : option (option V * Effects) :=
  r ← chip op lit vs;
  match ret_types op with
  | [] => Some (None, log_event (Applied op lit vs None) e)
  | _ => Some (Some r, log_event (Applied op lit vs (Some r)) e)
  end.

Definition pick (ops : list Operand) (kt : nat * VarType) : option V := o ← ops !! kt.1; as_var kt.2 o.

(** An operation on its operands in the order of the source. *)
Definition exec_op (op : Opcode) (ops : list Operand) (e : Effects) : option (option V * Effects) :=
  match op with
  | Noop => None
  | WitnessBase =>
      match ops with
      | [OLit n] => _ ← chip WitnessBase (Some n) []; Some (Some (base_from n), log_event (Applied WitnessBase (Some n) [] (Some (base_from n))) e)
      | _ => None
      end
  | RangeCheck =>
      match ops with
      | [OLit n; o] => if (n =? 64) || (n =? 253) then v ← as_var Base o; exec_chip RangeCheck (Some n) [v] e else None
      | _ => None
      end
  | PoseidonHash =>
      vs ← mapM (as_var Base) ops;
      if (1 <=? length ops)%nat && (length ops <=? MAX_HASH_ARGS)%nat then exec_chip PoseidonHash None vs e else None
  | SetMembership =>
      vs ← mapM (pick ops) (operands SetMembership);
      root ← vs !! 3%nat;
      exec_chip SetMembership None vs (public_input root e)
  | ConstrainInstance => v ← pick ops (0%nat, Base); Some (None, public_input v e)
  | DebugPrint => Some (None, e)
  | _ => vs ← mapM (pick ops) (operands op); exec_chip op None vs e
  end.

(** ** Expressions and statements *)

(** The value bound last. *)
Definition lookup_env (env : Env V) (name : text) : option Var :=
  i ← rposition (fun b => bool_decide (b.1 = name)) env; snd <$> env !! i.

Definition literal_value (l : Literal) : option Z := match load_literal (l_typ l, l_name l) with Ok n => Some n | Err _ => None end.

Fixpoint eval_arg (env : Env V) (a : Arg) (e : Effects) : option (Operand * Effects) :=
  match a with
  | ArgVar v => h ← lookup_env env (v_name v); Some (OVar h, e)
  | ArgLit l => n ← literal_value l; Some (OLit n, e)
  | ArgFunc (mkStatement _ op _ rhs _) =>
      '(ops, e1) ← (fix go l e := match l with
                                  | [] => Some ([], e)
                                  | x :: r => '(o, e1) ← eval_arg env x e; '(os, e2) ← go r e1; Some (o :: os, e2)
                                  end) rhs e;
      '(r, e2) ← exec_op op ops e1;
      v ← r; t ← head (ret_types op); Some (OVar (t, v), e2)
  end.

Fixpoint eval_args (env : Env V) (l : list Arg) (e : Effects) : option (list Operand * Effects) :=
  match l with
  | [] => Some ([], e)
  | x :: r => '(o, e1) ← eval_arg env x e; '(os, e2) ← eval_args env r e1; Some (o :: os, e2)
  end.

Lemma eval_arg_func env f e :
  eval_arg env (ArgFunc f) e =
    '(ops, e1) ← eval_args env (s_rhs f) e; '(r, e2) ← exec_op (s_opcode f) ops e1;
    v ← r; t ← head (ret_types (s_opcode f)); Some (OVar (t, v), e2).
Proof.
  destruct f as [typ op lhs rhs line]. cbn [eval_arg s_rhs s_opcode]. f_equal. revert e. induction rhs as [|x rhs IH]; intros e; [done |].
  cbn [eval_args]. destruct (eval_arg env x e) as [[o e1]|]; [| done]. cbn [mbind option_bind]. by rewrite IH.
Qed.

Definition exec_stmt (env : Env V) (s : Statement) (e : Effects) : option (Env V * Effects) :=
  '(ops, e1) ← eval_args env (s_rhs s) e;
  '(r, e2) ← exec_op (s_opcode s) ops e1;
  match s_typ s, s_lhs s with
  | StCall, _ => Some (env, e2)
  | StAssign, Some lhs =>
      v ← r; t ← head (ret_types (s_opcode s));
      e3 ← match lookup_env env (v_name lhs) with
           | Some old => '(_, e') ← exec_op ConstrainEqualBase [OVar old; OVar (t, v)] e2; Some e'
           | None => Some e2
           end;
      Some (env ++ [(v_name lhs, (t, v))], e3)
  | _, _ => None
  end.

Fixpoint exec_stmts (env : Env V) (l : list Statement) (e : Effects) : option (Env V * Effects) :=
  match l with [] => Some (env, e) | s :: rest => '(env', e') ← exec_stmt env s e; exec_stmts env' rest e' end.

(** A circuit: constants and witnesses by name, then the statements. *)
Definition run_source (cs : list Constant) (ws : list Witness) (l : list Statement) (witnesses : list Var) : option Effects :=
  constants ← match load_all load_constant (map (fun i => (c_typ i, c_name i)) cs) with Ok x => Some x | Err _ => None end;
  loaded ← match load_all load_witness witnesses with Ok x => Some x | Err _ => None end;
  snd <$> exec_stmts (zip (map c_name cs) constants ++ zip (map w_name ws) loaded) l {| e_public := 0; e_log := [] |}.

(** ** One instruction *)

Definition effects_of (vm : Vm V) : Effects := {| e_public := vm_public vm; e_log := vm_log vm |}.

Definition is_lit (o : Operand) : bool := match o with OLit _ => true | OVar _ => false end.
Definition lits_of (ops : list Operand) : list Z := omap (fun o => match o with OLit n => Some n | OVar _ => None end) ops.

(** The operands have the shape the machine relies on. *)
Definition shaped (op : Opcode) (ops : list Operand) : Prop :=
  match op with
  | WitnessBase => exists n, ops = [OLit n]
  | RangeCheck => exists n h, ops = [OLit n; OVar h]
  | PoseidonHash => Forall (fun o => is_lit o = false) ops
  | _ => Forall (fun o => is_lit o = false) ops /\ length ops = length (arg_types op)
  end.

(** An argument of an instruction denotes an operand. *)
Definition denotes (heap : list Var) (a : HeapType * Z) (o : Operand) : Prop :=
  match o with OVar h => a.1 = HeapVar_ /\ 0 <= a.2 /\ heap !! Z.to_nat a.2 = Some h | OLit _ => a.1 = HeapLit end.

Definition after (vm : Vm V) (op : Opcode) (lits : nat) (r : option V) (e : Effects) : Vm V := {|
  vm_heap := vm_heap vm ++ match r, ret_types op with Some v, t :: _ => [(t, v)] | _, _ => [] end;
  vm_public := e_public e; vm_lits := (vm_lits vm + lits)%nat; vm_log := e_log e; vm_traced := S (vm_traced vm) |}.

Definition outcome (vm : Vm V) (op : Opcode) (lits : nat) (x : option (option V * Effects)) : VRes (Vm V) :=
  match x with Some (r, e) => Ok (after vm op lits r e) | None => Err Synthesis end.

Lemma read_operands_pick (vm : Vm V) args ops kts :
  Forall2 (denotes (vm_heap vm)) args ops -> Forall (fun o => is_lit o = false) ops -> Forall (fun kt => (kt.1 < length ops)%nat) kts ->
  read_operands vm args kts = match mapM (pick ops) kts with Some vs => Ok vs | None => Err Synthesis end.
Proof.
  intros Hd Hv. induction 1 as [|[k t] kts Hk _ IH]; [done |]. cbn [read_operands fst] in *.
  apply lookup_lt_is_Some_2 in Hk as [o Ho]. destruct (Forall2_lookup_r _ _ _ _ _ Hd Ho) as ([ty i] & Ha & Hx).
  pose proof (Forall_lookup_1 _ _ _ _ Hv Ho) as Hl. destruct o as [h|n]; [| done]. destruct Hx as (_ & Hi & Hh). cbn [snd] in *.
  cbn [mapM]. assert (pick ops (k, t) = as_var t (OVar h)) as -> by (unfold pick; cbn [fst snd]; by rewrite Ho). cbn [as_var]. unfold operand, vm_index. rewrite Ha. cbn [ok_or snd]. rewrite Hh. cbn [ok_or].
  unfold try_into. destruct (bool_decide (h.1 = t)); [| done]. cbn [mbind option_bind]. rewrite IH. by destruct (mapM (pick ops) kts).
Qed.

Lemma apply_exec (vm : Vm V) op lit vs :
  apply op lit vs vm = outcome vm op 0 (exec_chip op lit vs (effects_of vm)).
Proof.
  unfold apply, exec_chip. destruct (chip op lit vs) as [r|]; [| done]. cbn [mbind option_bind]. unfold outcome, after.
  destruct (ret_types op) as [|t ?]; unfold push_void, push_result, lay_out; cbn; by rewrite ?Nat.add_0_r, ?app_nil_r.
Qed.

(** Positions of the operands are within the signature. *)
Lemma operands_arity op : op <> PoseidonHash -> Forall (fun kt => (kt.1 < length (arg_types op))%nat) (operands op).
Proof. destruct op; intros; try done; cbn; repeat constructor; lia. Qed.

Lemma generic_step (vm : Vm V) op args ops :
  Forall2 (denotes (vm_heap vm)) args ops -> Forall (fun o => is_lit o = false) ops -> length ops = length (arg_types op) -> op <> PoseidonHash ->
  (let? vs := read_operands vm args (operands op) in apply op None vs vm) =
    outcome vm op 0 (vs ← mapM (pick ops) (operands op); exec_chip op None vs (effects_of vm)).
Proof.
  intros Hd Hv Hn Hop. rewrite (read_operands_pick vm args ops) by (done || rewrite Hn; by apply operands_arity).
  destruct (mapM (pick ops) (operands op)) as [vs|]; [| done]. cbn [mbind option_bind]. apply apply_exec.
Qed.

Lemma poseidon_operands (vm : Vm V) args ops :
  Forall2 (denotes (vm_heap vm)) args ops -> Forall (fun o => is_lit o = false) ops ->
  read_operands vm args (imap (fun k _ => (k, Base)) args) = match mapM (as_var Base) ops with Some vs => Ok vs | None => Err Synthesis end.
Proof.
  intros Hd Hv. rewrite (read_operands_pick vm args ops); [| done | done |].
  - assert (mapM (pick ops) (imap (fun k _ => (k, Base)) args) = mapM (as_var Base) ops) as ->; [| done].
    assert (forall pre post l, ops = pre ++ post -> length l = length post ->
      mapM (pick ops) (imap (fun k (_ : HeapType * Z) => ((length pre + k)%nat, Base)) l) = mapM (as_var Base) post) as H.
    { intros pre post l. revert pre post. induction l as [|x l IH]; intros pre [|o post] E Hl; try discriminate; [done |].
      cbn [imap mapM]. assert (pick ops ((length pre + 0)%nat, Base) = as_var Base o) as ->.
      { unfold pick. cbn [fst snd]. by rewrite E, Nat.add_0_r, list_lookup_middle. }
      destruct (as_var Base o); [| done]. cbn [mbind option_bind].
      rewrite <- (IH (pre ++ [o]) post) by (rewrite ?E, <- ?app_assoc; done || (injection Hl; done)).
      rewrite length_app. cbn [length]. f_equal. f_equal. apply imap_ext. intros. cbn. f_equal. lia. }
    apply (H [] ops args); [done |]. by eapply Forall2_length.
  - rewrite Forall_lookup. intros i kt. rewrite list_lookup_imap. intros (y & Hy & ->)%fmap_Some. cbn.
    rewrite <- (Forall2_length _ _ _ Hd). by eapply lookup_lt_Some.
Qed.

Lemma lits_of_vars ops : Forall (fun o => is_lit o = false) ops -> lits_of ops = [].
Proof. unfold lits_of. induction 1 as [|[] ? ? _ IH]; [done | exact IH | done]. Qed.

(** A single heap argument of the right shape. *)
Lemma denotes_one heap args ops : Forall2 (denotes heap) args ops -> Forall (fun o => is_lit o = false) ops -> length ops = 1%nat ->
  exists ty i h, args = [(ty, i)] /\ ops = [OVar h] /\ 0 <= i /\ heap !! Z.to_nat i = Some h.
Proof.
  intros Hd Hv Hn. destruct ops as [|[h|n] [|? ?]]; try discriminate; [| by inversion Hv]. inversion Hd as [|[ty i] ? ? ? Hx Hd' E1 E2]; subst.
  inversion Hd'; subst. destruct Hx as (_ & Hi & Hh). by exists ty, i, h.
Qed.

Lemma get_coordinate_step (vm : Vm V) op args ops litheap :
  op = EcGetX \/ op = EcGetY -> Forall2 (denotes (vm_heap vm)) args ops -> shaped op ops ->
  vm_step litheap (op, args) vm = outcome vm op 0 (vs ← mapM (pick ops) (operands op); exec_chip op None vs (effects_of vm)).
Proof.
  intros Hop Hd Hs. assert (Forall (fun o => is_lit o = false) ops /\ length ops = 1%nat) as [Hv Hn] by (destruct Hop as [-> | ->]; exact Hs).
  rewrite <- (generic_step vm op args ops); [| done | done | destruct Hop as [-> | ->]; exact Hn | by destruct Hop as [-> | ->]].
  destruct (denotes_one _ _ _ Hd Hv Hn) as (ty & i & h & -> & -> & Hi & Hh).
  apply lookup_lt_Some in Hh. assert (Z.of_nat (length (vm_heap vm)) <=? i = false) as Hb by lia.
  destruct Hop as [-> | ->]; unfold vm_step; cbn [fst snd]; unfold vm_index at 1; cbn [lookup list_lookup ok_or snd]; by rewrite Hb.
Qed.

Lemma witness_base_step (vm : Vm V) args (n : Z) litheap :
  [n] `prefix_of` drop (vm_lits vm) litheap -> vm_step litheap (WitnessBase, args) vm = outcome vm WitnessBase 1 (exec_op WitnessBase [OLit n] (effects_of vm)).
Proof.
  intros [post Hp]. unfold vm_step, exec_op. cbn [fst snd]. unfold vm_index.
  assert (litheap !! vm_lits vm = Some n) as -> by (rewrite <- (Nat.add_0_r (vm_lits vm)), <- lookup_drop, Hp; done). cbn [ok_or].
  destruct (chip WitnessBase (Some n) []); [| done]. cbn [mbind option_bind outcome]. unfold after, push_result, lay_out, next_literal. cbn. by rewrite Nat.add_1_r.
Qed.

Lemma range_check_step (vm : Vm V) a (ty : HeapType) (i : Z) (n : Z) h litheap :
  [n] `prefix_of` drop (vm_lits vm) litheap -> vm_heap vm !! Z.to_nat i = Some h ->
  vm_step litheap (RangeCheck, [a; (ty, i)]) vm = outcome vm RangeCheck 1 (exec_op RangeCheck [OLit n; OVar h] (effects_of vm)).
Proof.
  intros [post Hp] Hh. unfold vm_step, exec_op. cbn [fst snd]. unfold vm_index.
  assert (litheap !! vm_lits vm = Some n) as -> by (rewrite <- (Nat.add_0_r (vm_lits vm)), <- lookup_drop, Hp; done).
  cbn [ok_or lookup list_lookup snd]. rewrite Hh. cbn [ok_or]. destruct ((n =? 64) || (n =? 253)); [| done]. unfold try_into. cbn [as_var].
  destruct (bool_decide (h.1 = Base)); [| done]. cbn [mbind option_bind]. unfold apply, exec_chip. destruct (chip RangeCheck (Some n) [h.2]); [| done].
  cbn [mbind option_bind ret_types opcode_row fst snd outcome]. unfold after, push_void, lay_out, next_literal. cbn. by rewrite Nat.add_1_r, app_nil_r.
Qed.

Lemma set_membership_step (vm : Vm V) args ops litheap :
  Forall2 (denotes (vm_heap vm)) args ops -> shaped SetMembership ops ->
  vm_step litheap (SetMembership, args) vm = outcome vm SetMembership 0 (exec_op SetMembership ops (effects_of vm)).
Proof.
  intros Hd [Hv Hn]. unfold vm_step, exec_op. cbn [fst snd]. rewrite (read_operands_pick vm args ops) by (done || rewrite Hn; by apply operands_arity).
  destruct (mapM (pick ops) (operands SetMembership)) as [vs|] eqn:E; [| done]. cbn [mbind option_bind]. unfold vm_index.
  apply length_mapM in E. destruct (vs !! 3%nat) as [root|] eqn:E3; [| apply lookup_ge_None in E3; cbn in E; lia]. cbn [ok_or mbind option_bind].
  rewrite apply_exec. unfold effects_of, constrain_instance, public_input. cbn.
  destruct (exec_chip SetMembership None vs _) as [[r e]|]; [| done]. done.
Qed.

Lemma void_step (vm : Vm V) op args ops litheap :
  op = ConstrainInstance \/ op = DebugPrint -> Forall2 (denotes (vm_heap vm)) args ops -> shaped op ops ->
  vm_step litheap (op, args) vm = outcome vm op 0 (exec_op op ops (effects_of vm)).
Proof.
  intros Hop Hd Hs. assert (Forall (fun o => is_lit o = false) ops /\ length ops = 1%nat) as [Hv Hn] by (destruct Hop as [-> | ->]; exact Hs).
  destruct (denotes_one _ _ _ Hd Hv Hn) as (ty & i & h & -> & -> & Hi & Hh). clear Hd Hs Hv Hn.
  destruct Hop as [-> | ->]; unfold vm_step, exec_op, operand, vm_index; cbn [fst snd lookup list_lookup ok_or]; rewrite Hh; cbn [ok_or].
  - unfold try_into, pick. cbn [fst snd lookup list_lookup mbind option_bind as_var]. destruct (bool_decide (h.1 = Base)); [| done].
    cbn [mbind option_bind outcome]. unfold after, push_void, constrain_instance. cbn. by rewrite Nat.add_0_r, app_nil_r.
  - cbn [outcome]. unfold after, push_void, effects_of. cbn. by rewrite Nat.add_0_r, app_nil_r.
Qed.

Lemma poseidon_step (vm : Vm V) args ops litheap :
  Forall2 (denotes (vm_heap vm)) args ops -> Forall (fun o => is_lit o = false) ops ->
  vm_step litheap (PoseidonHash, args) vm = outcome vm PoseidonHash 0 (exec_op PoseidonHash ops (effects_of vm)).
Proof.
  intros Hd Hv. unfold vm_step, exec_op. cbn [fst snd]. rewrite (poseidon_operands vm args ops) by done. rewrite (Forall2_length _ _ _ Hd).
  destruct (mapM (as_var Base) ops) as [vs|]; [| done]. cbn [mbind option_bind]. destruct (_ && _); [apply apply_exec | done].
Qed.

(** The machine agrees with the reference semantics on every instruction. *)
Lemma vm_step_exec litheap (vm : Vm V) op args ops :
  Forall2 (denotes (vm_heap vm)) args ops -> shaped op ops -> lits_of ops `prefix_of` drop (vm_lits vm) litheap ->
  vm_step litheap (op, args) vm = outcome vm op (length (lits_of ops)) (exec_op op ops (effects_of vm)).
Proof.
  intros Hd Hs Hl. pose proof Hs as Hs'.
  destruct op; cbn [shaped] in Hs;
    try (rewrite (lits_of_vars ops) by apply Hs; cbn [length];
         first [by apply get_coordinate_step; [by auto | ..] | by apply set_membership_step | by apply void_step; [by auto | ..] | by apply poseidon_step
               | destruct Hs as [Hv Hn]; by apply generic_step | done]).
  - destruct Hs as [n ->]. by apply witness_base_step.
  - destruct Hs as (n & h & ->). inversion Hd as [|a o ? ? _ Hd' E1 E2]; subst. inversion Hd' as [|b o ? ? Hx Hd'' E1 E2]; subst.
    inversion Hd''; subst. destruct b as [ty i], Hx as (_ & _ & Hh). by apply range_check_step.
Qed.

(** ** Statements without nested calls *)

Definition state_of (env : Env V) (e : Effects) (lits traced : nat) : Vm V := {|
  vm_heap := map snd env; vm_public := e_public e; vm_lits := lits; vm_log := e_log e; vm_traced := traced |}.

Definition stmt_lits (i : Statement) : list Literal := omap (fun a => match a with ArgLit l => Some l | _ => None end) (s_rhs i).

Definition is_var_arg (a : Arg) : bool := match a with ArgVar _ => true | _ => false end.
Definition is_lit_arg (a : Arg) : bool := match a with ArgLit _ => true | _ => false end.

(** The arguments are what the machine takes for this opcode: literals where it
    consumes literals, the number of its signature. *)
Definition arg_shape (i : Statement) : bool :=
  match s_opcode i, s_rhs i with
  | WitnessBase, [a] => is_lit_arg a
  | RangeCheck, [a; b] => is_lit_arg a && is_var_arg b
  | WitnessBase, _ | RangeCheck, _ => false
  | PoseidonHash, rhs => forallb is_var_arg rhs
  | op, rhs => forallb is_var_arg rhs && (length rhs =? length (arg_types op))%nat
  end.

Lemma rposition_map {A B : Type} (p : B -> bool) (f : A -> B) (l : list A) : rposition p (map f l) = rposition (fun x => p (f x)) l.
Proof. induction l as [|x l IH]; [done |]. cbn [map rposition]. by rewrite IH. Qed.

Lemma lookup_env_heap (env : Env V) name : lookup_env env name = i ← lookup_heap (map fst env) name; map snd env !! i.
Proof.
  unfold lookup_env, lookup_heap. rewrite (rposition_map (fun n => bool_decide (n = name)) fst env).
  destruct (rposition _ env) as [i|]; [| done]. cbn [mbind option_bind]. by rewrite list_lookup_fmap.
Qed.

Lemma lookup_env_index (env : Env V) name i : lookup_heap (map fst env) name = Some i -> exists h, lookup_env env name = Some h /\ map snd env !! i = Some h.
Proof.
  intros E. rewrite lookup_env_heap, E. cbn [mbind option_bind]. apply rposition_bound in E.
  destruct (lookup_lt_is_Some_2 (map snd env) i) as [h Hh]; [by rewrite length_map in E |- * |]. by exists h.
Qed.

(** Flat arguments are read without effect, and the compiled arguments denote them. *)
Lemma flat_args (env : Env V) lits rhs args e :
  mapM (resolve_arg (map fst env) lits) rhs = Some args ->
  Forall (fun l => is_Some (literal_value l)) (omap (fun a => match a with ArgLit l => Some l | _ => None end) rhs) ->
  exists ops, eval_args env rhs e = Some (ops, e) /\ Forall2 (denotes (map snd env)) args ops /\
    mapM literal_value (omap (fun a => match a with ArgLit l => Some l | _ => None end) rhs) = Some (lits_of ops) /\
    Forall2 (fun a o => is_lit o = is_lit_arg a /\ is_var_arg a = negb (is_lit_arg a)) rhs ops.
Proof.
  revert args. induction rhs as [|a rhs IH]; intros args E Hl; cbn [mapM] in E; [injection E as <-; exists []; by repeat constructor |].
  destruct (resolve_arg _ _ a) as [x|] eqn:Ea; [| discriminate]. cbn [mbind option_bind] in E.
  destruct (mapM _ rhs) as [xs|] eqn:Er; [| discriminate]. injection E as <-. cbn [eval_args].
  destruct a as [v|l|f]; cbn [resolve_arg] in Ea; [| | discriminate].
  - destruct (IH xs eq_refl Hl) as (ops & Ho & Hd & Hv & Hk). apply fmap_Some in Ea as (i & Hi & ->).
    destruct (lookup_env_index env _ _ Hi) as (h & Eh & Hh). cbn [eval_arg]. rewrite Eh. cbn [mbind option_bind]. rewrite Ho. cbn [mbind option_bind].
    exists (OVar h :: ops). split_and!; [done | constructor; [cbn; rewrite Nat2Z.id; split_and!; [done | lia | done] | done] | done | by constructor].
  - cbn [omap list_omap] in Hl. inversion_clear Hl as [|?? [n Hn] Hl']. destruct (IH xs eq_refl Hl') as (ops & Ho & Hd & Hv & Hk).
    apply fmap_Some in Ea as (i & Hi & ->). cbn [eval_arg]. rewrite Hn. cbn [mbind option_bind]. rewrite Ho. cbn [mbind option_bind].
    exists (OLit n :: ops). split_and!; [done | by constructor | | by constructor].
    cbn [omap list_omap mapM]. rewrite Hn. cbn [mbind option_bind]. by rewrite Hv.
Qed.

Lemma kinds_all_var rhs ops :
  Forall2 (fun a o => is_lit o = is_lit_arg a /\ is_var_arg a = negb (is_lit_arg a)) rhs ops -> forallb is_var_arg rhs = true ->
  Forall (fun o => is_lit o = false) ops.
Proof.
  induction 1 as [|a o rhs ops [Ho Ha] _ IH]; [constructor |]. cbn [forallb]. intros [Hv Hr]%andb_true_iff. constructor; [| by apply IH].
  rewrite Ho. rewrite Ha in Hv. by destruct (is_lit_arg a).
Qed.

Lemma shape_shaped i ops :
  Forall2 (fun a o => is_lit o = is_lit_arg a /\ is_var_arg a = negb (is_lit_arg a)) (s_rhs i) ops -> arg_shape i = true -> shaped (s_opcode i) ops.
Proof.
  unfold arg_shape. intros Hk. destruct (s_opcode i) eqn:Eop; cbn [shaped];
    try (intros [Hv Hn]%andb_true_iff; split; [by eapply kinds_all_var | apply Nat.eqb_eq in Hn; rewrite <- Hn; symmetry; by eapply Forall2_length]);
    [by apply kinds_all_var | |].
  - destruct (s_rhs i) as [|a [|? ?]]; [done | | done]. inversion_clear Hk as [|? o ? ? [Ho _] Hk']. inversion_clear Hk'. intros Ha.
    destruct o as [|n]; [cbn in Ho; congruence |]. by exists n.
  - destruct (s_rhs i) as [|a [|b [|? ?]]]; [done | done | | done]. inversion_clear Hk as [|? o ? ? [Ho _] Hk']. inversion_clear Hk' as [|? o' ? ? [Ho' Hb'] Hk''].
    inversion_clear Hk''. intros [Ha Hb]%andb_true_iff. destruct o as [|n]; [cbn in Ho; congruence |].
    destruct o' as [h|n']; [by exists n, h |]. cbn in Ho'. rewrite <- Ho' in Hb'. cbn in Hb'. congruence.
Qed.

Lemma resolve_snoc heap lits a x : (forall v, a = ArgVar v -> v_name v <> x) -> resolve_arg (heap ++ [x]) lits a = resolve_arg heap lits a.
Proof.
  intros H. destruct a as [v| |]; [| done..]. cbn [resolve_arg]. rewrite lookup_heap_snoc, bool_decide_eq_false_2; [done |]. intros ->. by apply (H v).
Qed.

Lemma resolve_all_snoc heap lits args x : x ∉ arg_names args -> mapM (resolve_arg (heap ++ [x]) lits) args = mapM (resolve_arg heap lits) args.
Proof.
  induction args as [|a args IH]; [done |]. intros Hx. cbn [mapM]. rewrite resolve_snoc, IH; [done | | ].
  - destruct a as [v| |]; cbn [arg_names omap list_omap] in Hx; [| done..]. unfold arg_names. set_solver.
  - intros v -> <-. apply Hx. cbn. set_solver.
Qed.

Lemma effects_of_state env e k n : effects_of (state_of env e k n) = e.
Proof. by destruct e. Qed.

Lemma one_step litheap env e k n op args ops :
  Forall2 (denotes (map snd env)) args ops -> shaped op ops -> lits_of ops `prefix_of` drop k litheap ->
  vm_step litheap (op, args) (state_of env e k n) =
    match exec_op op ops e with
    | Some (r, e') => Ok (after (state_of env e k n) op (length (lits_of ops)) r e')
    | None => Err Synthesis
    end.
Proof. intros Hd Hs Hl. rewrite (vm_step_exec litheap _ op args ops) by done. rewrite effects_of_state. by destruct (exec_op op ops e) as [[r e']|]. Qed.

(** Only operations with a result have one. *)
Lemma exec_op_result op ops e r e' : exec_op op ops e = Some (r, e') -> r = None <-> returns op = false.
Proof.
  assert (forall lit vs e0, exec_chip op lit vs e0 = Some (r, e') -> r = None <-> returns op = false) as Hc.
  { intros lit vs e0. unfold exec_chip, returns. destruct (chip op lit vs); [| discriminate]. cbn [mbind option_bind].
    destruct (ret_types op); intros [= <- _]; done. }
  unfold exec_op. destruct op; repeat match goal with |- context [mapM ?f ?l] => destruct (mapM f l); cbn [mbind option_bind]; [| discriminate] end;
    try apply Hc; try discriminate.
  - destruct (_ && _); [apply Hc | discriminate].
  - destruct ops as [|[|n] [|? ?]]; try discriminate. destruct (chip _ _ _); [| discriminate]. cbn [mbind option_bind]. by intros [= <- _].
  - destruct ops as [|[|n] [|o [|? ?]]]; try discriminate. destruct (_ || _); [| discriminate]. destruct (as_var Base o); [| discriminate]. apply Hc.
  - destruct (_ !! _); [apply Hc | discriminate].
  - destruct (pick ops (0%nat, Base)); [| discriminate]. cbn [mbind option_bind]. by intros [= <- _].
  - by intros [= <- _].
Qed.

Definition values_at (litheap : list Z) (k : nat) (l : list Literal) : Prop := exists ns, mapM literal_value l = Some ns /\ ns `prefix_of` drop k litheap.

Lemma values_known (l : list Literal) ns : mapM literal_value l = Some ns -> Forall (fun l => is_Some (literal_value l)) l.
Proof. intros H%mapM_Some_1. induction H as [|x n l ns Hx _ IH]; constructor; [by eexists | done]. Qed.

(** One flat statement: the machine on its instructions does what it means. *)
Lemma flat_stmt litheap lits env e k n i code names' :
  stmt_code lits i (map fst env) = Some (code, names') -> stmt_ok i -> arg_shape i = true -> values_at litheap k (stmt_lits i) ->
  vm_run litheap code (state_of env e k n) =
    match exec_stmt env i e with
    | Some (env', e') => Ok (state_of env' e' (k + length (stmt_lits i)) (n + length code))
    | None => Err Synthesis
    end /\ forall env' e', exec_stmt env i e = Some (env', e') -> map fst env' = names'.
Proof.
  intros Hc Hok Hsh (ns & Hns & Hpre). unfold stmt_code, stmt_ok in *. unfold stmt_lits in *.
  pose proof (values_known _ _ Hns) as Hl.
  destruct (s_typ i) eqn:Et; [done | |].
  - destruct (s_lhs i) as [lhs|] eqn:El; [| discriminate]. destruct Hok as [Hret Hself]. specialize (Hself lhs eq_refl).
    rewrite resolve_all_snoc in Hc by done. destruct (mapM _ (s_rhs i)) as [args|] eqn:Ea; [| discriminate]. cbn [mbind option_bind] in Hc.
    destruct (flat_args env lits (s_rhs i) args e Ea Hl) as (ops & Ho & Hd & Hv & Hk). rewrite Hns in Hv. injection Hv as ->.
    unfold exec_stmt. rewrite Ho, Et, El. cbn [mbind option_bind]. rewrite (length_mapM _ _ _ Hns).
    injection Hc as <- <-. cbn [vm_run]. rewrite (one_step litheap env e k n _ args ops) by (done || by eapply shape_shaped).
    destruct (exec_op (s_opcode i) ops e) as [[r e1]|] eqn:Ex; [| done]. cbn [mbind option_bind].
    pose proof (exec_op_result _ _ _ _ _ Ex) as Hr. destruct r as [v|]; [| rewrite Hret in Hr; naive_solver].
    destruct (ret_types_short _ Hret) as [t Ht]. cbn [mbind option_bind]. rewrite Ht. cbn [head mbind option_bind].
    assert (after (state_of env e k n) (s_opcode i) (length (lits_of ops)) (Some v) e1 = state_of (env ++ [(v_name lhs, (t, v))]) e1 (k + length (lits_of ops)) (S n)) as Hafter.
    { unfold after, state_of. rewrite Ht. cbn. by rewrite map_app. }
    rewrite Hafter. rewrite lookup_env_heap. destruct (lookup_heap (map fst env) (v_name lhs)) as [prev|] eqn:Ep; cbn [mbind option_bind].
    + destruct (lookup_env_index env _ _ Ep) as (old & _ & Hold). rewrite Hold. cbn [vm_run].
      rewrite (one_step litheap _ e1 _ (S n) ConstrainEqualBase _ [OVar old; OVar (t, v)]).
      * change (lits_of [OVar old; OVar (t, v)]) with (@nil Z). cbn [length].
        destruct (exec_op ConstrainEqualBase _ e1) as [[r' e2]|] eqn:Ex2; [| done]. cbn [mbind option_bind]. split; [| intros ? ? [= <- _]; by rewrite map_app].
        unfold after, state_of. cbn [ret_types opcode_row fst snd]. do 2 f_equal; cbn.
        -- by destruct r'; rewrite app_nil_r.
        -- lia.
        -- lia.
      * repeat constructor; cbn; rewrite ?Nat2Z.id; try lia; rewrite map_app; [by apply lookup_app_l_Some |].
        rewrite lookup_app_r by (rewrite !length_map; lia). by rewrite !length_map, Nat.sub_diag.
      * by repeat constructor.
      * by apply prefix_nil.
    + cbn [vm_run length]. split; [| intros ? ? [= <- _]; by rewrite map_app]. rewrite Nat.add_1_r. done.
  - destruct (mapM _ (s_rhs i)) as [args|] eqn:Ea; [| discriminate]. cbn [mbind option_bind] in Hc.
    destruct (flat_args env lits (s_rhs i) args e Ea Hl) as (ops & Ho & Hd & Hv & Hk). rewrite Hns in Hv. injection Hv as ->.
    unfold exec_stmt. rewrite Ho, Et. cbn [mbind option_bind]. rewrite (length_mapM _ _ _ Hns).
    injection Hc as <- <-. cbn [vm_run]. rewrite (one_step litheap env e k n _ args ops) by (done || by eapply shape_shaped).
    destruct (exec_op (s_opcode i) ops e) as [[r e1]|] eqn:Ex; [| done]. cbn [mbind option_bind vm_run length].
    split; [| by intros ? ? [= <- _]]. apply exec_op_result in Ex as [_ Hr]. rewrite (Hr Hok). unfold after, state_of. cbn. by rewrite app_nil_r, Nat.add_1_r.
Qed.

Lemma vm_run_app litheap l l' (vm : Vm V) : vm_run litheap (l ++ l') vm = let? vm' := vm_run litheap l vm in vm_run litheap l' vm'.
Proof. revert vm. induction l as [|i l IH]; intros vm; [done |]. cbn [app vm_run]. destruct (vm_step litheap i vm); [apply IH | done]. Qed.

Lemma mapM_split {A B : Type} (f : A -> option B) l l' ns :
  mapM f (l ++ l') = Some ns -> exists ns1 ns2, mapM f l = Some ns1 /\ mapM f l' = Some ns2 /\ ns = ns1 ++ ns2.
Proof.
  intros H%mapM_Some_1. apply Forall2_app_inv_l in H as (ns1 & ns2 & H1 & H2 & ->). exists ns1, ns2. by rewrite !mapM_Some.
Qed.

(** Statement by statement, with the literals in the order in which they are used. *)
Lemma flat_stmts litheap lits l env e k n code names' :
  stmts_code lits l (map fst env) = Some (code, names') -> Forall stmt_ok l -> Forall (fun i => arg_shape i = true) l ->
  values_at litheap k (flat_map stmt_lits l) ->
  vm_run litheap code (state_of env e k n) =
    match exec_stmts env l e with
    | Some (env', e') => Ok (state_of env' e' (k + length (flat_map stmt_lits l)) (n + length code))
    | None => Err Synthesis
    end.
Proof.
  revert env e k n code names'. induction l as [|i l IH]; intros env e k n code names' E Hok Hsh (ns & Hns & Hpre); cbn [stmts_code exec_stmts] in *.
  { injection E as <- <-. cbn. by rewrite !Nat.add_0_r. }
  destruct (stmt_code lits i (map fst env)) as [[code1 names1]|] eqn:E1; [| discriminate]. cbn [mbind option_bind] in E.
  destruct (stmts_code lits l names1) as [[code2 names2]|] eqn:E2; [| discriminate]. injection E as <- <-.
  inversion_clear Hok as [|?? Hi Hok']. inversion_clear Hsh as [|?? Hs Hsh']. cbn [flat_map] in *.
  apply mapM_split in Hns as (ns1 & ns2 & En1 & En2 & ->). destruct Hpre as [post Hpost].
  rewrite <- app_assoc in Hpost.
  destruct (flat_stmt litheap lits env e k n i code1 names1 E1 Hi Hs) as [H1 Hn1]; [exists ns1; split; [done | by exists (ns2 ++ post)] |].
  rewrite vm_run_app, H1. destruct (exec_stmt env i e) as [[env1 e1]|]; [| done]. cbn [mbind option_bind].
  rewrite <- (Hn1 env1 e1 eq_refl) in E2. rewrite (IH env1 e1 _ _ code2 names2 E2 Hok' Hsh').
  - rewrite !length_app, !Nat.add_assoc. done.
  - exists ns2. split; [done |]. exists post. rewrite (length_mapM _ _ _ En1), <- drop_drop, Hpost, drop_app_length. done.
Qed.

End Semantics.
