(* ===== verification/ZkCorrect.v ===== *)
(** * Compiled circuits are correct

    The analyzer moves nested calls in front of their statements under generated
    names; that this changes nothing is the first half of this file.  Put
    together with what the compiler writes, the decoder reads and the machine
    runs, it gives the correctness of the tool chain from the parsed source to
    the constraints. *)

From Stdlib Require Import String.
From S2P Require Import Prelude Serial Zkas ZkasBinary ZkasCompile ZkasAnalyzer ZkVm ZkSemantics.

Section Flatten.
Context {V : Type} `{!Chips V}.

(** Names the parser generates for nested calls. *)
Context (gen : text -> bool).

(** The source gives its own names and the parser the generated ones, and
    literals are numbers. *)
Fixpoint source_arg (a : Arg) : Prop :=
  match a with
  | ArgVar v => gen (v_name v) = false
  | ArgLit l => is_Some (literal_value l)
  | ArgFunc (mkStatement _ _ lhs rhs _) =>
      from_option (fun v => gen (v_name v)) false lhs = true /\ (fix all l := match l with [] => True | x :: r => source_arg x /\ all r end) rhs
  end.

Fixpoint inner_names (a : Arg) : list text :=
  match a with
  | ArgFunc (mkStatement _ _ lhs rhs _) =>
      (fix all l := match l with [] => [] | x :: r => inner_names x ++ all r end) rhs ++ from_option (fun v => [v_name v]) [] lhs
  | _ => []
  end.

Definition source_stmt (s : Statement) : Prop := Forall source_arg (s_rhs s) /\ Forall (fun n => gen n = false) (assigned_name s).
Definition stmt_inner (s : Statement) : list text := flat_map inner_names (s_rhs s).

Lemma source_func f lhs : source_arg (ArgFunc f) -> s_lhs f = Some lhs -> gen (v_name lhs) = true /\ Forall source_arg (s_rhs f).
Proof.
  destruct f as [typ op l rhs line]. cbn [s_lhs s_rhs]. intros Hs ->. destruct Hs as [Hg Hr]. cbn [from_option] in Hg. split; [done |].
  induction rhs as [|a rhs IH]; [constructor |]. destruct Hr as [Ha Hr]. constructor; [done | by apply IH].
Qed.

Lemma inner_func f lhs : s_lhs f = Some lhs -> inner_names (ArgFunc f) = flat_map inner_names (s_rhs f) ++ [v_name lhs].
Proof. destruct f as [typ op l rhs line]. cbn [s_lhs s_rhs]. intros ->. cbn [inner_names from_option]. by f_equal. Qed.

(** ** Environments with generated names *)

Definition visible (env : Env V) : Env V := List.filter (fun b => negb (gen b.1)) env.

Lemma lookup_env_snoc (env : Env V) m h name : lookup_env (env ++ [(m, h)]) name = if bool_decide (m = name) then Some h else lookup_env env name.
Proof.
  unfold lookup_env. rewrite rposition_app_r. cbn [fst]. destruct (bool_decide (m = name)).
  - cbn [mbind option_bind]. by rewrite lookup_app_r, Nat.sub_diag by lia.
  - destruct (rposition _ env) as [i|] eqn:E; [| done]. cbn [mbind option_bind]. apply rposition_bound in E. by rewrite lookup_app_l.
Qed.

Lemma lookup_env_app (env ext : Env V) name : name ∉ map fst ext -> lookup_env (env ++ ext) name = lookup_env env name.
Proof.
  induction ext as [|[m h] ext IH] using rev_ind; [by rewrite app_nil_r |]. rewrite map_app. intros Hn. rewrite app_assoc, lookup_env_snoc.
  cbn in Hn. rewrite bool_decide_eq_false_2 by set_solver. apply IH. set_solver.
Qed.

Lemma lookup_env_none (env : Env V) name : name ∉ map fst env -> lookup_env env name = None.
Proof. intros H. by apply (lookup_env_app [] env). Qed.

Lemma lookup_env_some (env : Env V) name : name ∈ map fst env -> is_Some (lookup_env env name).
Proof.
  induction env as [|[m h] env IH] using rev_ind; [set_solver |]. rewrite map_app, lookup_env_snoc. destruct (decide (m = name)) as [->|Hne].
  - rewrite bool_decide_eq_true_2 by done. by eexists.
  - rewrite bool_decide_eq_false_2 by done. intros H. apply IH. cbn in H. set_solver.
Qed.

Lemma lookup_visible (env : Env V) name : gen name = false -> lookup_env (visible env) name = lookup_env env name.
Proof.
  intros Hg. induction env as [|[m h] env IH] using rev_ind; [done |]. unfold visible in *. rewrite List.filter_app, lookup_env_snoc. cbn [List.filter fst].
  destruct (gen m) eqn:Em; cbn [negb].
  - rewrite app_nil_r, IH, bool_decide_eq_false_2; [done |]. intros ->. congruence.
  - rewrite lookup_env_snoc. by rewrite IH.
Qed.

Lemma visible_app (env ext : Env V) : Forall (fun n => gen n = true) (map fst ext) -> visible (env ++ ext) = visible env.
Proof.
  intros H. unfold visible. rewrite List.filter_app. assert (List.filter (fun b : text * (VarType * V) => negb (gen b.1)) ext = []) as ->; [| apply app_nil_r].
  induction ext as [|b ext IH]; [done |]. inversion_clear H as [|?? Hb H']. cbn [List.filter]. rewrite Hb. by apply IH.
Qed.

Lemma visible_snoc (env : Env V) m h : gen m = false -> visible (env ++ [(m, h)]) = visible env ++ [(m, h)].
Proof. intros Hg. unfold visible. rewrite List.filter_app. cbn [List.filter fst]. by rewrite Hg. Qed.

Lemma exec_stmts_app (env : Env V) l l' e : exec_stmts env (l ++ l') e = '(env', e') ← exec_stmts env l e; exec_stmts env' l' e'.
Proof. revert env e. induction l as [|i l IH]; intros env e; [done |]. cbn [app exec_stmts]. destruct (exec_stmt env i e) as [[env1 e1]|]; [apply IH | done]. Qed.

Lemma exec_stmt_names (env : Env V) s e env' e' : exec_stmt env s e = Some (env', e') -> map fst env' = map fst env ++ assigned_name s.
Proof.
  unfold exec_stmt, assigned_name. destruct (eval_args env (s_rhs s) e) as [[ops e1]|]; [| discriminate]. cbn [mbind option_bind].
  destruct (exec_op (s_opcode s) ops e1) as [[r e2]|]; [| discriminate]. cbn [mbind option_bind]. destruct (s_typ s); [discriminate | |].
  - destruct (s_lhs s) as [lhs|]; [| discriminate]. destruct r as [v|]; [| discriminate]. cbn [mbind option_bind].
    destruct (head (ret_types (s_opcode s))) as [t|]; [| discriminate]. cbn [mbind option_bind].
    destruct (match lookup_env env (v_name lhs) with Some _ => _ | None => _ end); [| discriminate]. intros [= <- _]. by rewrite map_app.
  - intros [= <- _]. by rewrite app_nil_r.
Qed.

Lemma exec_stmts_names (env : Env V) l e env' e' : exec_stmts env l e = Some (env', e') -> map fst env' = map fst env ++ flat_map assigned_name l.
Proof.
  revert env e. induction l as [|s l IH]; intros env e; cbn [exec_stmts flat_map]; [intros [= <- _]; by rewrite app_nil_r |].
  destruct (exec_stmt env s e) as [[env1 e1]|] eqn:E; [| discriminate]. cbn [mbind option_bind]. intros H%IH. rewrite H.
  apply exec_stmt_names in E as ->. by rewrite app_assoc.
Qed.

Lemma inner_generated a : parsed_arg a -> source_arg a -> Forall (fun n => gen n = true) (inner_names a).
Proof.
  revert a. fix IH 1. intros [v|l|[typ op lhs rhs line]]; [constructor.. |]. cbn [parsed_arg source_arg inner_names]. intros (_ & _ & Hp) (Hg & Hs).
  apply Forall_app. split; [| destruct lhs; cbn in *; by repeat constructor].
  clear Hg. induction rhs as [|a rhs IHr]; [constructor |]. destruct Hp as [Hpa Hp], Hs as [Hsa Hs]. apply Forall_app. split; [by apply IH | by apply IHr].
Qed.

Lemma inner_all_generated l : Forall parsed_arg l -> Forall source_arg l -> Forall (fun n => gen n = true) (flat_map inner_names l).
Proof.
  induction 1 as [|a l Ha _ IH]; intros Hs; [constructor |]. inversion_clear Hs as [|?? Hsa Hs']. cbn [flat_map]. apply Forall_app.
  split; [by apply inner_generated | by apply IH].
Qed.

(** ** Nested calls in front of their statement *)

Context (cs : list Constant) (ws : list Witness).

(** What flattening promises of a list of statements put before a point: it
    binds the names [inner] and has the effects of evaluating in place. *)
Definition binds (env : Env V) (stmts : list Statement) (e e' : Effects) (inner : list text) (ext : Env V) : Prop :=
  exec_stmts env stmts e = Some (env ++ ext, e') /\ map fst ext = inner.

Definition nested_sem (nested : Statement -> nat -> Pass -> ZRes (Variable_ * list Statement * Pass)) : Prop :=
  forall f i p v stmts p' (env : Env V) e,
    parsed_arg (ArgFunc f) -> source_arg (ArgFunc f) -> NoDup (inner_names (ArgFunc f)) -> (forall n, n ∈ inner_names (ArgFunc f) -> n ∉ map fst env) ->
    known_at cs ws p ⊆ map fst env -> nested f i p = Ok (v, stmts, p') ->
    v_name v ∈ inner_names (ArgFunc f) /\
    match eval_arg (visible env) (ArgFunc f) e with
    | Some (o, e') => exists ext h, binds env stmts e e' (inner_names (ArgFunc f)) ext /\ o = OVar h /\ lookup_env (env ++ ext) (v_name v) = Some h
    | None => exec_stmts env stmts e = None
    end.

(** One argument, rewritten. *)
Lemma analyze_arg_sem (outer : bool) nested types a idx p a' stmts p' (env : Env V) e :
  nested_sem nested -> parsed_arg a -> source_arg a -> NoDup (inner_names a) -> (forall n, n ∈ inner_names a -> n ∉ map fst env) ->
  known_at cs ws p ⊆ map fst env -> analyze_args cs ws outer nested types [a] idx p = Ok ([a'], stmts, p') ->
  match eval_arg (visible env) a e with
  | Some (o, e') => exists ext, binds env stmts e e' (inner_names a) ext /\
      forall more e0, (forall n, n ∈ map fst more -> gen n = true /\ n ∉ inner_names a) -> eval_arg (env ++ ext ++ more) a' e0 = Some (o, e0)
  | None => exec_stmts env stmts e = None
  end.
Proof.
  intros Hn Hp Hs Hd Hf Hk E. cbn [analyze_args] in E. destruct a as [v|l|f].
  - cbn [source_arg] in Hs. destruct (lookup_var cs ws (p_heap p) (v_name v)) as [[[t ln] col]|] eqn:El; [| discriminate].
    destruct (if outer then _ else _); [| discriminate]. injection E as <- <- _. cbn [eval_arg]. rewrite lookup_visible by done.
    destruct (lookup_env_some env (v_name v)) as [h Hh]; [apply Hk; unfold known_at; by eapply lookup_var_known |]. rewrite Hh. cbn [mbind option_bind].
    exists []. split; [by split; [rewrite app_nil_r |] |]. intros more e0 Hm. cbn [app eval_arg with_typ v_name].
    rewrite lookup_env_app, Hh; [done |]. intros Hin. apply Hm in Hin as [Hg _]. congruence.
  - destruct (if outer then _ else _); [| discriminate]. injection E as <- <- _. destruct Hs as [n Hl]. cbn [eval_arg]. rewrite Hl. cbn [mbind option_bind].
    exists []. split; [by split; [rewrite app_nil_r |] |]. by intros more e0 _.
  - destruct (nested f idx p) as [[[v s] p1]|] eqn:Ef; [| discriminate]. injection E as <- <- _. rewrite app_nil_r.
    destruct (Hn f idx p v s p1 env e Hp Hs Hd Hf Hk Ef) as [Hv Hm]. destruct (eval_arg (visible env) (ArgFunc f) e) as [[o e']|]; [| done].
    destruct Hm as (ext & h & Hb & -> & Hh). exists ext. split; [done |]. intros more e0 Hmore. cbn [eval_arg].
    rewrite app_assoc, lookup_env_app, Hh; [done |]. intros Hin. by apply Hmore in Hin as [_ Hx].
Qed.

Lemma analyze_args_cons (outer : bool) nested types a args idx p rhs stmts p' :
  analyze_args cs ws outer nested types (a :: args) idx p = Ok (rhs, stmts, p') ->
  exists a' s1 p1 rest s2, analyze_args cs ws outer nested types [a] idx p = Ok ([a'], s1, p1) /\
    analyze_args cs ws outer nested types args (S idx) p1 = Ok (rest, s2, p') /\ rhs = a' :: rest /\ stmts = s1 ++ s2.
Proof.
  cbn [analyze_args]. match goal with |- match ?m with _ => _ end = _ -> _ => destruct m as [[[a' s1] p1]|]; [| discriminate] end.
  destruct (analyze_args cs ws outer nested types args (S idx) p1) as [[[rest s2] p2]|] eqn:E2; [| discriminate]. intros [= <- <- <-].
  exists a', s1, p1, rest, s2. by rewrite app_nil_r.
Qed.

Lemma analyze_args_sem (outer : bool) nested types args idx p rhs stmts p' (env : Env V) e :
  nested_ok cs ws nested -> nested_sem nested -> Forall parsed_arg args -> Forall source_arg args -> NoDup (flat_map inner_names args) ->
  (forall n, n ∈ flat_map inner_names args -> n ∉ map fst env) -> known_at cs ws p ⊆ map fst env ->
  analyze_args cs ws outer nested types args idx p = Ok (rhs, stmts, p') ->
  match eval_args (visible env) args e with
  | Some (ops, e') => exists ext, binds env stmts e e' (flat_map inner_names args) ext /\ forall e0, eval_args (env ++ ext) rhs e0 = Some (ops, e0)
  | None => exec_stmts env stmts e = None
  end.
Proof.
  intros Hok Hn. revert idx p rhs stmts p' env e. induction args as [|a args IH]; intros idx p rhs stmts p' env e Hp Hs Hd Hf Hk E.
  { cbn [analyze_args] in E. injection E as <- <- _. cbn [eval_args]. exists []. split; [by split; [rewrite app_nil_r |] | done]. }
  apply analyze_args_cons in E as (a' & s1 & p1 & rest & s2 & E1 & E2 & -> & ->). inversion_clear Hp as [|?? Hpa Hp']. inversion_clear Hs as [|?? Hsa Hs'].
  cbn [flat_map] in *. apply NoDup_app in Hd as (Hd1 & Hd12 & Hd2).
  assert (pass_ok cs ws p s1 p1) as Hpass by (eapply (analyze_args_known cs ws outer nested types [a]); [done | by constructor | exact E1]).
  pose proof (analyze_arg_sem outer nested types a idx p a' s1 p1 env e Hn Hpa Hsa Hd1 ltac:(set_solver) Hk E1) as Ha.
  cbn [eval_args]. rewrite exec_stmts_app. destruct (eval_arg (visible env) a e) as [[o e1]|]; [| by rewrite Ha]. cbn [mbind option_bind].
  destruct Ha as (ext1 & [Hx1 Hn1] & Hr1). rewrite Hx1. cbn [mbind option_bind].
  assert (visible (env ++ ext1) = visible env) as Hvis by (apply visible_app; rewrite Hn1; by apply inner_generated).
  assert (forall n, n ∈ flat_map inner_names args -> n ∉ map fst (env ++ ext1)) as Hf2.
  { intros n Hin. rewrite map_app, Hn1. apply not_elem_of_app. split; [set_solver |]. intros Hin'. by apply (Hd12 n). }
  assert (known_at cs ws p1 ⊆ map fst (env ++ ext1)) as Hk2.
  { rewrite (pass_known cs ws _ _ _ Hpass), (exec_stmts_names _ _ _ _ _ Hx1). set_solver. }
  specialize (IH (S idx) p1 rest s2 p' (env ++ ext1) e1 Hp' Hs' Hd2 Hf2 Hk2 E2). rewrite Hvis in IH.
  destruct (eval_args (visible env) args e1) as [[ops e2]|]; [| done]. cbn [mbind option_bind]. destruct IH as (ext2 & [Hx2 Hn2] & Hr2).
  exists (ext1 ++ ext2). split; [split; [rewrite exec_stmts_app, Hx1; cbn [mbind option_bind]; by rewrite Hx2, app_assoc | by rewrite map_app, Hn1, Hn2] |]. intros e0. cbn [eval_args].
  rewrite Hr1; [cbn [mbind option_bind]; by rewrite app_assoc, Hr2 |].
  intros n Hin. rewrite Hn2 in Hin. split; [| intros Hin'; by apply (Hd12 n)].
  by eapply Forall_forall in Hin; [| by apply inner_all_generated].
Qed.

Lemma process_nested_sem (fuel : nat) types : nested_sem (fun f i => process_nested_func cs ws fuel f types i).
Proof.
  revert types. induction fuel as [|fuel IH]; intros types f i p v stmts p' env e Hp Hs Hd Hf Hk E; cbn [process_nested_func] in E; [discriminate |].
  pose proof (parsed_func f Hp) as (Ht & [lhs Hlhs] & Hpr). destruct (source_func f lhs Hs Hlhs) as [Hg Hsr].
  rewrite (inner_func f lhs Hlhs) in *. apply NoDup_app in Hd as (Hd1 & Hd12 & _).
  unfold lhs_of in E. rewrite Hlhs in E. cbn [ok_or] in E.
  destruct (ret_types (s_opcode f)) as [|ret rest] eqn:Er; [discriminate |]. destruct (check_type _ _ _ _ _ _); [| discriminate].
  destruct (analyze_args _ _ _ _ _ _ _ _) as [[[rhs nested] p1]|] eqn:Ea; [| discriminate]. injection E as <- <- _. cbn [with_typ v_name].
  split; [apply elem_of_app; right; constructor |]. eapply (analyze_args_sem _ _ _ _ _ _ _ _ _ env e) in Ea; [| apply process_nested_known | apply IH | done | done | done | intros n Hin; apply Hf, elem_of_app; by left | done].
  rewrite eval_arg_func, exec_stmts_app, Er. destruct (eval_args (visible env) (s_rhs f) e) as [[ops e1]|]; [| by rewrite Ea].
  cbn [mbind option_bind]. destruct Ea as (ext & [Hx Hn] & Hr).
  assert (lookup_env (env ++ ext) (v_name lhs) = None) as Hfresh.
  { apply lookup_env_none. rewrite map_app, Hn. apply not_elem_of_app. split; [apply Hf; set_solver |]. intros Hin. apply (Hd12 _ Hin). set_solver. }
  assert (exec_stmt (env ++ ext) (mkStatement (s_typ f) (s_opcode f) (Some (with_typ ret lhs)) rhs (s_line f)) e1 =
    '(r, e2) ← exec_op (s_opcode f) ops e1; v ← r; Some ((env ++ ext) ++ [(v_name lhs, (ret, v))], e2)) as Hst.
  { unfold exec_stmt. cbn [s_rhs s_opcode s_typ s_lhs with_typ v_name]. rewrite Hr, Ht. cbn [mbind option_bind].
    destruct (exec_op (s_opcode f) ops e1) as [[r e2]|]; [| done]. cbn [mbind option_bind]. destruct r as [v|]; [| done].
    cbn [mbind option_bind]. rewrite Er, Hfresh. done. }
  destruct (exec_op (s_opcode f) ops e1) as [[r e2]|] eqn:Eo; cbn [mbind option_bind] in *.
  - destruct r as [v|]; cbn [mbind option_bind head] in *.
    + exists (ext ++ [(v_name lhs, (ret, v))]), (ret, v). rewrite app_assoc, lookup_env_snoc, bool_decide_eq_true_2 by done.
      split; [| done]. split; [| by rewrite map_app, Hn]. rewrite exec_stmts_app, Hx. cbn [mbind option_bind exec_stmts]. rewrite Hst. cbn. by rewrite app_assoc.
    + rewrite Hx. cbn [mbind option_bind exec_stmts]. by rewrite Hst.
  - rewrite Hx. cbn [mbind option_bind exec_stmts]. by rewrite Hst.
Qed.

(** A statement and the statements it becomes. *)
Lemma analyze_statement_sem s p out p' (env : Env V) e :
  parsed s -> source_stmt s -> NoDup (stmt_inner s) -> (forall n, n ∈ stmt_inner s -> n ∉ map fst env) -> known_at cs ws p ⊆ map fst env ->
  analyze_statement cs ws s p = Ok (out, p') ->
  match exec_stmt (visible env) s e with
  | Some (env_s, e') => exists env', exec_stmts env out e = Some (env', e') /\ visible env' = env_s /\ map fst env' = map fst env ++ stmt_inner s ++ assigned_name s
  | None => exec_stmts env out e = None
  end.
Proof.
  intros [Ht Hp] [Hs Ha] Hd Hf Hk E. unfold analyze_statement in E. destruct (check_arity s); [| discriminate]. destruct (check_range s); [| discriminate].
  destruct (analyze_args _ _ _ _ _ _ _ _) as [[[rhs nested] p1]|] eqn:Ea; [| discriminate].
  eapply (analyze_args_sem _ _ _ _ _ _ _ _ _ env e) in Ea; [| apply process_nested_known | apply process_nested_sem | done | done | done | done | done].
  unfold exec_stmt at 1. destruct (eval_args (visible env) (s_rhs s) e) as [[ops e1]|]; cycle 1.
  { cbn [mbind option_bind]. destruct (bool_decide (s_typ s = StAssign)).
    - destruct (lhs_of s); [| discriminate]. destruct (ret_types (s_opcode s)); [discriminate |]. injection E as <- _. by rewrite exec_stmts_app, Ea.
    - injection E as <- _. by rewrite exec_stmts_app, Ea. }
  cbn [mbind option_bind]. destruct Ea as (ext & [Hx Hn] & Hr). fold (stmt_inner s) in Hn.
  assert (visible (env ++ ext) = visible env) as Hvis by (apply visible_app; rewrite Hn; by apply inner_all_generated).
  destruct (s_typ s) eqn:Es; [done | |]; unfold assigned_name in *; rewrite Es in *.
  - rewrite bool_decide_eq_true_2 in E by done. unfold lhs_of in E. destruct Ht as [lhs Hlhs]. rewrite Hlhs in *. cbn [ok_or from_option] in *.
    apply Forall_inv in Ha. destruct (ret_types (s_opcode s)) as [|ret rest] eqn:Er; [discriminate |]. injection E as <- _.
    assert (exec_stmts env (nested ++ [mkStatement StAssign (s_opcode s) (Some (with_typ ret lhs)) rhs (s_line s)]) e =
      exec_stmt (env ++ ext) (mkStatement StAssign (s_opcode s) (Some (with_typ ret lhs)) rhs (s_line s)) e1) as ->.
    { rewrite exec_stmts_app, Hx. cbn [mbind option_bind exec_stmts]. by destruct (exec_stmt _ _ e1) as [[? ?]|]. }
    unfold exec_stmt. cbn [s_rhs s_opcode s_typ s_lhs with_typ v_name]. rewrite Hr, Er. cbn [mbind option_bind head].
    destruct (exec_op (s_opcode s) ops e1) as [[[v|] e2]|]; [| done | done]. cbn [mbind option_bind].
    rewrite <- (lookup_visible (env ++ ext)), Hvis by exact Ha.
    destruct (match lookup_env (visible env) (v_name lhs) with Some _ => _ | None => _ end) as [e3|]; [| done]. cbn [mbind option_bind].
    eexists. split; [done |]. rewrite visible_snoc, Hvis by done. split; [done |]. by rewrite !map_app, Hn, app_assoc.
  - rewrite bool_decide_eq_false_2 in E by done. injection E as <- _.
    assert (exec_stmts env (nested ++ [mkStatement StCall (s_opcode s) (s_lhs s) rhs (s_line s)]) e =
      exec_stmt (env ++ ext) (mkStatement StCall (s_opcode s) (s_lhs s) rhs (s_line s)) e1) as ->.
    { rewrite exec_stmts_app, Hx. cbn [mbind option_bind exec_stmts]. by destruct (exec_stmt _ _ e1) as [[? ?]|]. }
    unfold exec_stmt. cbn [s_rhs s_opcode s_typ s_lhs]. rewrite Hr. cbn [mbind option_bind].
    destruct (exec_op (s_opcode s) ops e1) as [[r e2]|]; [| done]. cbn [mbind option_bind].
    eexists. split; [done |]. split; [exact Hvis |]. by rewrite map_app, Hn, app_nil_r.
Qed.

Lemma analyze_statements_sem l p out p' (env : Env V) e :
  Forall parsed l -> Forall source_stmt l -> NoDup (flat_map stmt_inner l) -> (forall n, n ∈ flat_map stmt_inner l -> n ∉ map fst env) ->
  known_at cs ws p ⊆ map fst env -> analyze_statements cs ws l p = Ok (out, p') ->
  (snd <$> exec_stmts env out e) = (snd <$> exec_stmts (visible env) l e).
Proof.
  revert p out p' env e. induction l as [|s l IH]; intros p out p' env e Hp Hs Hd Hf Hk E; cbn [analyze_statements] in E.
  { injection E as <- _. done. }
  inversion_clear Hp as [|?? Hps Hp']. inversion_clear Hs as [|?? Hss Hs']. cbn [flat_map] in *. apply NoDup_app in Hd as (Hd1 & Hd12 & Hd2).
  destruct (analyze_statement cs ws s p) as [[o1 p1]|] eqn:E1; [| discriminate]. destruct (analyze_statements cs ws l p1) as [[o2 p2]|] eqn:E2; [| discriminate].
  injection E as <- _. pose proof (analyze_statement_known cs ws s p o1 p1 Hps E1) as Hpass.
  pose proof (analyze_statement_sem s p o1 p1 env e Hps Hss Hd1 ltac:(set_solver) Hk E1) as H1. rewrite exec_stmts_app. cbn [exec_stmts].
  destruct (exec_stmt (visible env) s e) as [[env_s e1]|]; [| by rewrite H1]. destruct H1 as (env1 & Hx1 & <- & Hn1). rewrite Hx1. cbn [mbind option_bind].
  eapply IH; [done | done | done | | | exact E2].
  - intros n Hin. rewrite Hn1. assert (gen n = true) as Hgn.
    { eapply (Forall_forall (fun n => gen n = true)); [| exact Hin]. rewrite Forall_flat_map. rewrite Forall_forall. intros x Hx.
      apply inner_all_generated; [by apply (Forall_forall parsed l) in Hx as [_ Hx] | by apply (Forall_forall source_stmt l) in Hx as [Hx _]]. }
    rewrite !not_elem_of_app. split; [set_solver |]. split; [intros Hin'; by apply (Hd12 n) |].
    intros Hin'. destruct Hss as [_ Ha]. apply (Forall_forall _ _) with (x := n) in Ha; [congruence | done].
  - rewrite (pass_known cs ws _ _ _ Hpass), (exec_stmts_names _ _ _ _ _ Hx1). set_solver.
Qed.

End Flatten.

(** ** From the source to the constraints *)

Section Correct.
Context {V : Type} `{!Chips V}.

Lemma load_all_length {A B : Type} (f : A -> VRes B) l l' : load_all f l = Ok l' -> length l' = length l.
Proof.
  revert l'. induction l as [|a l IH]; intros l' E; cbn [load_all] in E; [by injection E as <- |].
  destruct (f a); [| discriminate]. destruct (load_all f l) as [bs|]; [| discriminate]. injection E as <-. cbn [length]. by rewrite (IH bs).
Qed.

Lemma load_all_err {A B : Type} (f : A -> VRes B) l e : (forall a e, f a = Err e -> e = Synthesis) -> load_all f l = Err e -> e = Synthesis.
Proof.
  intros Hf. revert e. induction l as [|a l IH]; intros e E; cbn [load_all] in E; [discriminate |].
  destruct (f a) eqn:Ef; [| injection E as <-; by eapply Hf]. destruct (load_all f l) as [bs|]; [discriminate |]. injection E as <-. by apply IH.
Qed.

Lemma load_constant_err (c : VarType * text) e : load_constant (V := V) c = Err e -> e = Synthesis.
Proof. unfold load_constant. repeat (case_match; try discriminate). congruence. Qed.

Lemma load_witness_err (w : VarType * V) e : load_witness w = Err e -> e = Synthesis.
Proof. unfold load_witness. case_match; congruence. Qed.

Lemma load_literals l : Forall (fun x => is_Some (literal_value x)) l ->
  exists ns, load_all load_literal (map (fun i => (l_typ i, l_name i)) l) = Ok ns /\ mapM literal_value l = Some ns.
Proof.
  induction 1 as [|x l [n Hn] _ (ns & H1 & H2)]; [by exists [] |]. exists (n :: ns). cbn [map load_all mapM]. rewrite Hn. cbn [mbind option_bind]. rewrite H2.
  unfold literal_value in Hn. destruct (load_literal (l_typ x, l_name x)) as [m|]; [| discriminate]. injection Hn as ->. by rewrite H1.
Qed.

(** What the tool chain relies on, of a parsed circuit and of what the analyzer
    makes of it: names the source chooses are not generated ones and every
    nested call has its own name; every result is assigned and no assignment
    reads its own name; an opcode has the arguments it takes, with literals
    where the machine consumes literals; and the literals are collected in the
    order in which they are used. *)
Record regular (gen : text -> bool) (cs : list Constant) (ws : list Witness) (l : list Statement) (a : Analyzer) : Prop := {
  rg_parsed : Forall parsed l;
  rg_source : Forall (source_stmt gen) l;
  rg_inner : NoDup (flat_map stmt_inner l);
  rg_names : Forall (fun n => gen n = false) (map c_name cs ++ map w_name ws);
  rg_assigned : Forall stmt_ok (an_statements a);
  rg_shape : Forall (fun i => arg_shape i = true) (an_statements a);
  rg_order : an_literals a = flat_map stmt_lits (an_statements a);
  rg_values : Forall (fun x => is_Some (literal_value x)) (an_literals a)
}.

Definition laid_out (r : VRes (Vm V)) : VRes Effects := let? vm := r in Ok (effects_of vm).

Definition meaning (x : option (Effects (V := V))) : VRes Effects := ok_or x Synthesis.

Lemma visible_all gen (env : Env V) : Forall (fun n => gen n = false) (map fst env) -> visible gen env = env.
Proof. induction env as [|[m h] env IH]; [done |]. intros H. inversion_clear H as [|?? Hm H']. unfold visible. cbn [List.filter fst]. rewrite Hm. cbn [negb]. f_equal. by apply IH. Qed.

(** The machine on the instructions of an analyzed circuit. *)
Lemma analyzed_run gen cs ws l a ns k (dbg : bool) hash bytes (env : Env V) e litheap :
  regular gen cs ws l a -> analyze_types (new_analyzer cs ws l) = Ok a -> compile (compiler_of ns k dbg hash a) = Ok bytes ->
  map fst env = map c_name cs ++ map w_name ws -> mapM literal_value (an_literals a) = Some litheap ->
  exists lits vm', vm_run litheap (instructions (compiler_of ns k dbg hash a)) (state_of env e 0 0) =
    match exec_stmts env l e with
    | Some (_, e') => Ok vm'
    | None => Err Synthesis
    end /\ forall env' e', exec_stmts env l e = Some (env', e') -> effects_of vm' = e' /\ vm_traced vm' = length (instructions (compiler_of ns k dbg hash a)) /\ vm_lits vm' = lits.
Proof.
  intros [Hp Hs Hi Hn Hok Hsh Hor Hva] E Hc Hfst Hlits.
  assert (an_constants a = cs /\ an_witnesses a = ws) as [Hcs Hws].
  { unfold analyze_types in E. cbn in E. destruct (analyze_statements cs ws l _) as [[out p]|]; [| discriminate]. by injection E as <-. }
  destruct (compile_layout _ _ Hc) as (_ & Hcode & _). unfold code_of, start_heap in Hcode.
  cbn [compiler_of cc_constants cc_witnesses cc_statements cc_literals] in Hcode. rewrite Hcs, Hws, <- Hfst in Hcode.
  assert ((snd <$> exec_stmts env (an_statements a) e) = (snd <$> exec_stmts env l e)) as Hsem.
  { unfold analyze_types in E. cbn [new_analyzer an_constants an_witnesses an_statements an_literals an_heap] in E.
    destruct (analyze_statements cs ws l _) as [[out p]|] eqn:Eo; [| discriminate]. injection E as <-. cbn [an_statements].
    rewrite <- (visible_all gen env) at 2 by (by rewrite Hfst). eapply (analyze_statements_sem gen cs ws); [done | done | done | | | exact Eo].
    - rewrite Hfst. intros n Hin Hin'. apply (Forall_forall _ _) with (x := n) in Hn; [| done].
      assert (gen n = true); [| congruence]. eapply (Forall_forall (fun n => gen n = true)); [| exact Hin]. rewrite Forall_flat_map, Forall_forall.
      intros x Hx. apply inner_all_generated; [by apply (Forall_forall parsed l) in Hx as [_ Hx] | by apply (Forall_forall (source_stmt gen) l) in Hx as [Hx _]].
    - rewrite Hfst. unfold known_at. cbn. by rewrite app_nil_r. }
  pose proof (flat_stmts litheap (an_literals a) (an_statements a) env e 0 0 _ _ Hcode Hok Hsh) as Hrun.
  rewrite Hrun by (exists litheap; rewrite <- Hor; by rewrite drop_0).
  destruct (exec_stmts env (an_statements a) e) as [[env1 e1]|], (exec_stmts env l e) as [[env2 e2]|]; try discriminate.
  - injection Hsem as ->. eexists _, _. split; [done |]. intros env' e' [= _ <-]. by rewrite effects_of_state.
  - by eexists 0%nat, (state_of env e 0 0).
Qed.

(** C6: the whole tool chain is correct for the circuits that are regular and fit.
    Analyzing, compiling, decoding and running such a circuit, with as many
    witnesses as it declares, lays out exactly what the source means: the same
    operations on the same values in the same order, the same public inputs in
    the same rows, and a failure exactly where running the source fails.
    [regular] asks that the statements are as the parser builds them, that the
    names the source chooses are none of the generated ones and every nested call
    has a name of its own, that every result is assigned and no assignment reads
    the name it assigns, that every opcode has the arguments the machine takes,
    literals where it consumes literals, that the literals are collected in the
    order in which they are used, and that they are 64-bit numbers; [fits] asks
    that the circuit is within the limits of the decoder, without placeholder
    types or opcodes.  Where the order of the
    literals is not kept the conclusion fails ([ZkExample.literals_swapped]). *)
Theorem compiled_circuit_correct gen cs ws l a ns k (dbg debug tracing : bool) hash bytes (witnesses : list (VarType * V)) :
  regular gen cs ws l a -> analyze_types (new_analyzer cs ws l) = Ok a -> compile (compiler_of ns k dbg hash a) = Ok bytes ->
  fits (compiler_of ns k dbg hash a) bytes -> length witnesses = length ws ->
  exists b, ZkBinary_decode bytes debug = Ok b /\
    laid_out (synthesize tracing (new_circuit witnesses b)) = meaning (run_source cs ws l witnesses).
Proof.
  intros Hreg E Hc Hf Hw. assert (an_constants a = cs /\ an_witnesses a = ws) as [Hcs Hws].
  { unfold analyze_types in E. cbn in E. destruct (analyze_statements cs ws l _) as [[out p]|]; [| discriminate]. by injection E as <-. }
  eexists. split; [apply (compiled_decodes _ _ debug Hc Hf); by apply (rg_assigned _ _ _ _ _ Hreg) |].
  unfold synthesize, new_circuit, run_source. cbn [binary_of zb_constants zb_literals zb_opcodes zc_constants zc_literals zc_witnesses zc_opcodes].
  cbn [compiler_of cc_constants cc_literals]. rewrite Hcs.
  destruct (load_literals _ (rg_values _ _ _ _ _ Hreg)) as (litheap & -> & Hlits).
  destruct (load_all load_constant _) as [constants|] eqn:Eco; [| by rewrite (load_all_err _ _ _ load_constant_err Eco)]. cbn [mbind option_bind].
  destruct (load_all load_witness witnesses) as [loaded|] eqn:Ewi; [| by rewrite (load_all_err _ _ _ load_witness_err Ewi)]. cbn [mbind option_bind].
  apply load_all_length in Eco, Ewi. rewrite length_map in Eco. set (env := zip (map c_name cs) constants ++ zip (map w_name ws) loaded).
  assert (map fst env = map c_name cs ++ map w_name ws) as Hfst by (unfold env; rewrite map_app, !fst_zip; [done | rewrite length_map; lia..]).
  assert (map snd env = constants ++ loaded) as Hsnd by (unfold env; rewrite map_app, !snd_zip; [done | rewrite length_map; lia..]).
  destruct (analyzed_run gen cs ws l a ns k dbg hash bytes env {| e_public := 0; e_log := [] |} litheap Hreg E Hc Hfst Hlits) as (n & vm' & Hrun & Hvm).
  unfold state_of in Hrun. rewrite Hsnd in Hrun. cbn [e_public e_log] in Hrun. rewrite Hrun.
  destruct (exec_stmts env l _) as [[env' e']|]; [| done]. destruct (Hvm _ _ eq_refl) as (He & Ht & _).
  rewrite Ht, Nat.eqb_refl, andb_false_r. cbn [laid_out]. by rewrite He.
Qed.

End Correct.
