(* ===== verification/ZkExample.v ===== *)
(** * A circuit, from its characters to its constraints

    The theorems on the tool chain at work on small sources, and the sources on
    which its stages disagree. *)

From Stdlib Require Import String.
From S2P Require Import Prelude Serial Zkas ZkasBinary ZkasCompile ZkasDecode ZkasAnalyzer ZkasParser ZkasFront ZkVm ZkSemantics ZkCorrect.

Definition quoted (s : string) : list Z := [34] ++ ascii_key s ++ [34].
Definition line (s : string) : list Z := ascii_key s ++ [10].

(** A source file with two witnesses and the given statements. *)
Definition source_of (statements : list string) : list Z :=
  line "k = 13;" ++ ascii_key "field = " ++ quoted "pallas" ++ line ";" ++
  ascii_key "constant " ++ quoted "Demo" ++ line " { Base LIMIT, }" ++
  ascii_key "witness " ++ quoted "Demo" ++ line " { Base x, Base y, }" ++
  ascii_key "circuit " ++ quoted "Demo" ++ line " { # the statements" ++ concat (map line statements) ++ line "}".

(** Values of cells as integers, for running circuits: sums and products. *)
#[local] Instance demo_chips : Chips Z := {|
  base_from := id; fixed_base := fun _ => 1;
  chip := fun op _ vs =>
    match op with
    | BaseMul => Some (fold_right Z.mul 1 vs)
    | ConstrainEqualBase => match vs with [a; b] => if a =? b then Some 0 else None | _ => None end
    | _ => Some (fold_right Z.add 0 vs)
    end |}.

Definition front (source : list Z) : option Parsed := match (let? t := lex source in parse t) with Ok p => Some p | Err _ => None end.

(** A result, which the examples compute. *)
Definition get {E A : Type} (d : A) (r : result E A) : A := match r with Ok a => a | Err _ => d end.

Definition demo : list Z := source_of
  ["h = poseidon_hash(x, base_add(x, base_mul(y, LIMIT)));"; "range_check(64, x);"; "one = witness_base(1);"; "constrain_instance(base_mul(h, one));"]%string.

Definition demo_tokens : list Token := Eval vm_compute in get [] (lex demo).
Definition demo_parsed : Parsed := Eval vm_compute in
  get {| pa_namespace := []; pa_k := 0; pa_constants := []; pa_witnesses := []; pa_statements := [] |} (parse demo_tokens).
Definition demo_analyzed : Analyzer := Eval vm_compute in
  get (new_analyzer [] [] []) (analyze_types (new_analyzer (pa_constants demo_parsed) (pa_witnesses demo_parsed) (pa_statements demo_parsed))).
Definition demo_compiler : Compiler := compiler_of (pa_namespace demo_parsed) (pa_k demo_parsed) true None demo_analyzed.
Definition demo_bytes : list Z := Eval vm_compute in get [] (compile demo_compiler).

Lemma demo_lexed : lex demo = Ok demo_tokens.
Proof. vm_compute. reflexivity. Qed.

Lemma demo_parses : parse demo_tokens = Ok demo_parsed.
Proof. vm_compute. reflexivity. Qed.

Lemma demo_analyzes : analyze_types (new_analyzer (pa_constants demo_parsed) (pa_witnesses demo_parsed) (pa_statements demo_parsed)) = Ok demo_analyzed.
Proof. vm_compute. reflexivity. Qed.

Lemma demo_compiles : compile demo_compiler = Ok demo_bytes.
Proof. vm_compute. reflexivity. Qed.

Lemma checked_source_compiles_witness : exists bytes, compile_source demo true None = Ok bytes.
Proof. exact (checked_source_compiles demo demo_tokens demo_parsed demo_analyzed true None demo_lexed demo_parses demo_analyzes). Defined.

(** ** The demonstration is regular and within the limits *)

Definition generated (n : text) : bool := bool_decide (take 10 n = ascii_key "_op_inner_").

(** Deciding by computation. *)
Ltac by_compute := apply (bool_decide_unpack _); vm_compute; exact I.

Lemma demo_regular : regular generated (pa_constants demo_parsed) (pa_witnesses demo_parsed) (pa_statements demo_parsed) demo_analyzed.
Proof.
  split.
  - exact (parse_parsed demo_tokens demo_parsed demo_parses).
  - vm_compute. repeat (split || constructor || eexists).
  - by_compute.
  - by_compute.
  - vm_compute. repeat constructor; intros v [= <-]; vm_compute; set_solver.
  - by_compute.
  - vm_compute. reflexivity.
  - vm_compute. repeat (constructor || eexists).
Qed.

Definition short_string_b (max : Z) (s : text) : bool :=
  forallb (in_range 0 255) s && utf8_valid s && (Z.of_nat (length s) <=? max) && (Z.of_nat (length s) <=? MAX_VEC_BYTES).

Lemma short_string_b_ok (max : Z) (s : text) : short_string_b max s = true -> short_string max s.
Proof.
  unfold short_string_b, short_string, string_wf, vec_wf, vec_fits. rewrite !andb_true_iff, !Z.leb_le, forallb_forall. intros [[[Hb Hu] Hm] Hv].
  split_and!; [| change (size_of u8_codec) with 1; lia | done | done]. apply Forall_forall. intros x Hx%list_elem_of_In%Hb. unfold is_byte, is_u, in_range in *. lia.
Qed.

Lemma short_strings_ok (max : Z) (l : list text) : forallb (short_string_b max) l = true -> Forall (short_string max) l.
Proof. rewrite forallb_forall, Forall_forall. intros H x Hx. by apply short_string_b_ok, H, list_elem_of_In. Qed.

Lemma demo_fits : fits demo_compiler demo_bytes.
Proof.
  split.
  - by apply Z.leb_le.
  - vm_compute. done.
  - by apply short_string_b_ok.
  - done.
  - split; [by apply Z.leb_le | by_compute].
  - split; [by apply Z.leb_le |]. repeat (constructor; [split; [done | by apply short_string_b_ok] |]). constructor.
  - split; [by apply Z.leb_le | by_compute].
  - by apply Z.leb_le.
  - repeat (apply Forall_cons_2; [split_and!; [by_compute | by apply Z.leb_le | split; by_compute | split; by_compute] |]). constructor.
  - by apply short_strings_ok.
Qed.

Lemma demo_statements_ok : Forall stmt_ok (cc_statements demo_compiler).
Proof. exact (rg_assigned _ _ _ _ _ demo_regular). Qed.

Lemma compiled_binary_decodes_witness : ZkBinary_decode demo_bytes true = Ok (binary_of true demo_compiler).
Proof. exact (compiled_binary_decodes demo_compiler demo_bytes true demo_compiles demo_fits demo_statements_ok). Defined.

(** With [x = 3] and [y = 4] and the constant a zero, [h] is [3 + 3] and the
    public input is [6]. *)
Lemma compiled_circuit_correct_witness : exists b, ZkBinary_decode demo_bytes true = Ok b /\
  laid_out (synthesize true (new_circuit [(Base, 3); (Base, 4)] b)) =
    meaning (run_source (pa_constants demo_parsed) (pa_witnesses demo_parsed) (pa_statements demo_parsed) [(Base, 3); (Base, 4)]).
Proof.
  exact (compiled_circuit_correct generated _ _ _ demo_analyzed (pa_namespace demo_parsed) (pa_k demo_parsed) true true true None demo_bytes [(Base, 3); (Base, 4)]
    demo_regular demo_analyzes demo_compiles demo_fits eq_refl).
Defined.

Example demo_public_input :
  (fun e => List.last (e_log e) (PublicInput 0 0)) <$> run_source (pa_constants demo_parsed) (pa_witnesses demo_parsed) (pa_statements demo_parsed) [(Base, 3); (Base, 4)] = Some (PublicInput 6 0).
Proof. vm_compute. reflexivity. Qed.

Definition demo_decoded : ZkBinary := Eval vm_compute in
  get {| zb_namespace := []; zb_k := 0; zb_constants := []; zb_literals := []; zb_witnesses := []; zb_opcodes := []; zb_debug_info := None; zb_source_hash := None |} (ZkBinary_decode demo_bytes true).

Lemma decoded_binary_bounded_witness :
  zb_k demo_decoded <= MAX_K /\ Z.of_nat (length (zb_namespace demo_decoded)) <= MAX_NS_LEN /\ sections_bounded demo_decoded /\
  (forall i op args, zb_opcodes demo_decoded !! i = Some (op, args) -> Forall (refers demo_decoded i) args) /\
  (forall d, zb_debug_info demo_decoded = Some d -> debug_complete demo_decoded d).
Proof. apply (decoded_binary_bounded demo_bytes true false demo_decoded (length demo_bytes)). vm_compute. reflexivity. Defined.

(** ** Calls *)

Definition tok (s : string) (ty : TokenType) (column : Z) : Token := {| t_token := ascii_key s; t_type := ty; t_line := 1; t_column := column |}.

Definition call_tokens : list Token :=
  [tok "base_add" TSymbol 1; tok "(" LeftParen 9; tok "x" TSymbol 10; tok "," Comma 11; tok "y" TSymbol 13; tok ")" RightParen 14; tok "," Comma 15; tok "y" TSymbol 17].

Definition call_exprs : list Expr := [ECall (tok "base_add" TSymbol 1) [EAtom (tok "x" TSymbol 10); EAtom (tok "y" TSymbol 13)]; EAtom (tok "y" TSymbol 17)].

Definition var_arg (s : string) (column : Z) : Arg := ArgVar (mkVar (ascii_key s) (tok s TSymbol column)).

Lemma call_spelled : spelled call_exprs [call_arg (tok "base_add" TSymbol 1) BaseAdd [var_arg "x" 10; var_arg "y" 13]; var_arg "y" 17] call_tokens.
Proof.
  apply (spelled_call_more (tok "base_add" TSymbol 1) BaseAdd (tok "(" LeftParen 9) [EAtom (tok "x" TSymbol 10); EAtom (tok "y" TSymbol 13)]
    [var_arg "x" 10; var_arg "y" 13] [tok "x" TSymbol 10; tok "," Comma 11; tok "y" TSymbol 13]); try (done || by split).
  - apply spelled_atom_more; [done | done |]. by apply spelled_atom.
  - by apply spelled_atom.
Qed.

Lemma call_read_back_witness :
  parse_function_call (tok "poseidon_hash" TSymbol 0) (tok "(" LeftParen 0 :: call_tokens ++ [tok ")" RightParen 18]) =
    Ok ([call_arg (tok "base_add" TSymbol 1) BaseAdd [var_arg "x" 10; var_arg "y" 13]; var_arg "y" 17], []).
Proof. apply (call_read_back _ _ call_exprs); [reflexivity | exact call_spelled | vm_compute; reflexivity | split; vm_compute; reflexivity]. Defined.

(** [constrain_instance(x) constrain_instance(y);] is one constraint. *)
Lemma rest_of_statement_dropped_witness :
  parse_statement (tok "constrain_instance" TSymbol 1 :: tok "(" LeftParen 19 :: [tok "x" TSymbol 20] ++ tok ")" RightParen 21 ::
                   [tok "constrain_instance" TSymbol 23; tok "(" LeftParen 41; tok "y" TSymbol 42; tok ")" RightParen 43]) =
    Ok (mkStatement StCall ConstrainInstance None [var_arg "x" 20] 1).
Proof.
  apply (rest_of_statement_dropped (tok "constrain_instance" TSymbol 1) ConstrainInstance (tok "(" LeftParen 19) [EAtom (tok "x" TSymbol 20)] [var_arg "x" 20] [tok "x" TSymbol 20]); [reflexivity | reflexivity | reflexivity | apply spelled_atom; reflexivity | reflexivity | reflexivity |].
  split; vm_compute; reflexivity.
Defined.

(** The calls of an argument, without positions and generated names. *)
Fixpoint outline (a : Arg) : string :=
  match a with
  | ArgVar v => String.string_of_list_ascii (map (fun c => Ascii.ascii_of_nat (Z.to_nat c)) (v_name v))
  | ArgLit l => String.string_of_list_ascii (map (fun c => Ascii.ascii_of_nat (Z.to_nat c)) (l_name l))
  | ArgFunc (mkStatement _ op _ rhs _) =>
      String.append (opcode_row op).1.1.2 (String.append "("
        (String.append (String.concat ", " ((fix go l := match l with [] => [] | x :: r => outline x :: go r end) rhs)) ")"))
  end.

Definition outlines (source : list Z) : list (list string) :=
  from_option (fun p => map (fun s => map outline (s_rhs s)) (pa_statements p)) [] (front source).

(** Three calls that end together swallow the argument behind them: it is the
    inner hash that gets [y], and the circuit still compiles. *)
Example argument_swallowed :
  let source := source_of ["constrain_instance(poseidon_hash(poseidon_hash(base_add(x, base_mul(x, x))), y));"]%string in
  outlines source = [["poseidon_hash(poseidon_hash(base_add(x, base_mul(x, x)), y))"]]%string /\ get [] (compile_source source false None) <> [].
Proof. vm_compute. done. Qed.

(** A symbol at the end of the source is no token; a parenthesis in a string is. *)
Example last_symbol_lost : lex (ascii_key "k = 13; field") = lex (ascii_key "k = 13; ").
Proof. vm_compute. reflexivity. Qed.
Example special_in_string : (map (fun t => t_type t) <$> match lex (quoted "a(b") with Ok l => Some l | Err _ => None end) = Some [LeftParen; TString].
Proof. vm_compute. reflexivity. Qed.

(** ** Where the stages disagree *)

Definition analyzed (source : list Z) : option (Parsed * Analyzer) :=
  p ← front source; match analyze_types (new_analyzer (pa_constants p) (pa_witnesses p) (pa_statements p)) with Ok a => Some (p, a) | Err _ => None end.
Definition machine (source : list Z) (witnesses : list (VarType * Z)) : VRes (list (Event Z)) :=
  match compile_source source false None with
  | Ok bytes => match ZkBinary_decode bytes false with Ok b => let? vm := synthesize false (new_circuit witnesses b) in Ok (vm_log vm) | Err _ => Err Synthesis end
  | Err _ => Err Synthesis
  end.
Definition reference (source : list Z) (witnesses : list (VarType * Z)) : VRes (list (Event Z)) :=
  match front source with Some p => let? e := meaning (run_source (pa_constants p) (pa_witnesses p) (pa_statements p) witnesses) in Ok (e_log e) | None => Err Synthesis end.

(** Literals are collected in the order of the arguments and consumed in the
    order of execution: the constant becomes 64 and the range 253 bits. *)
Example literals_swapped :
  let source := source_of ["range_check(64, witness_base(253));"]%string in
  reference source [(Base, 3); (Base, 4)] = Ok [Applied WitnessBase (Some 253) [] (Some 253); Applied RangeCheck (Some 64) [253] None] /\
  machine source [(Base, 3); (Base, 4)] = Ok [Applied WitnessBase (Some 64) [] (Some 64); Applied RangeCheck (Some 253) [64] None].
Proof. vm_compute. done. Qed.

(** A result that is not assigned is on the heap of the machine and not on that
    of the compiler: the public input is the sum, not the product. *)
Example unassigned_result_shifts :
  let source := source_of ["base_add(x, y);"; "p = base_mul(x, y);"; "constrain_instance(p);"]%string in
  reference source [(Base, 3); (Base, 4)] = Ok [Applied BaseAdd None [3; 4] (Some 7); Applied BaseMul None [3; 4] (Some 12); PublicInput 12 0] /\
  machine source [(Base, 3); (Base, 4)] = Ok [Applied BaseAdd None [3; 4] (Some 7); Applied BaseMul None [3; 4] (Some 12); PublicInput 7 0].
Proof. vm_compute. done. Qed.

(** An assignment that reads its own name. *)
Definition selfish : list Z := source_of ["x = base_add(x, y);"]%string.
Definition selfish_analyzed : Analyzer := Eval vm_compute in from_option snd (new_analyzer [] [] []) (analyzed selfish).
Definition selfish_compiler : Compiler := compiler_of (ascii_key "Demo") 13 false None selfish_analyzed.
Definition selfish_bytes : list Z := Eval vm_compute in get [] (compile selfish_compiler).
Definition selfish_statement : Statement := Eval vm_compute in default (mkStatement StNoop Noop None [] 0) (head (cc_statements selfish_compiler)).
Definition selfish_lhs : Variable_ := Eval vm_compute in default {| v_name := []; v_typ := Dummy; v_line := 0; v_column := 0 |} (s_lhs selfish_statement).

Lemma selfish_fits : fits selfish_compiler selfish_bytes.
Proof.
  split.
  - by apply Z.leb_le.
  - vm_compute. done.
  - by apply short_string_b_ok.
  - done.
  - split; [by apply Z.leb_le | by_compute].
  - split; [by apply Z.leb_le | constructor].
  - split; [by apply Z.leb_le | by_compute].
  - by apply Z.leb_le.
  - repeat (apply Forall_cons_2; [split_and!; [by_compute | by apply Z.leb_le | split; by_compute | split; by_compute] |]). constructor.
  - by apply short_strings_ok.
Qed.

Lemma self_assignment_undecodable_witness : ZkBinary_decode selfish_bytes false = Err (ZkasErr "Opcode references an entry that is not available").
Proof.
  apply (self_assignment_undecodable selfish_compiler selfish_bytes false [] selfish_statement [] selfish_lhs); [vm_compute; reflexivity | exact selfish_fits | reflexivity |
    constructor | reflexivity | reflexivity |]. by_compute.
Defined.

(** The locations of the added equalities come last: the equality, the third
    instruction, is reported at the line of the statement after it. *)
Example equality_mislocated :
  let source := source_of ["s = base_add(x, y);"; "s = base_mul(x, y);"; "constrain_instance(s);"]%string in
  match compile_source source true None with
  | Ok bytes =>
      match ZkBinary_decode bytes true with
      | Ok b => map fst (zb_opcodes b) = [BaseAdd; BaseMul; ConstrainEqualBase; ConstrainInstance] /\
                map (fun i => fst <$> opcode_location b i) [0; 1; 2; 3]%nat = [Some 6; Some 7; Some 8; Some 7]
      | Err _ => False
      end
  | Err _ => False
  end.
Proof. vm_compute. done. Qed.

(** The decoder counts no arguments: this binary is accepted, and the machine
    panics on it. *)
Definition crafted : Compiler := {|
  cc_namespace := ascii_key "Demo"; cc_k := 13; cc_constants := []; cc_witnesses := [];
  cc_statements := [mkStatement StCall BoolCheck None [] 1]; cc_literals := []; cc_debug_info := false; cc_source_hash := None |}.

Example accepted_binary_panics :
  match ZkBinary_decode (get [] (compile crafted)) false with
  | Ok b => match synthesize false (new_circuit [] b) with Err VmPanic => True | _ => False end
  | Err _ => False
  end.
Proof. vm_compute. done. Qed.
