(* ===== verification/ZkGadget.v ===== *)
(** * The gates of the circuits ([src/zk/gadget/*.rs])

    What a prover may assign: the values of the cells of a region are his, and a
    proof exists for those on which every gate vanishes and every lookup is in
    its table.  A gate is the list of its polynomials in the values it queries,
    with the selector of its row; field elements are their representatives below
    the modulus [p].  Soundness of a gadget is that its constraints force the
    result it promises; completeness, that what the code assigns satisfies them. *)

From Stdlib Require Import Znumtheory.
From S2P Require Import Prelude Serial.

Definition gate_ok (p : Z) (polys : list Z) : bool := forallb (fun c => c mod p =? 0) polys.

(** Membership in the table of the values below [2^w]. *)
Definition in_table (p w x : Z) : bool := x mod p <? 2 ^ w.

(** ** Arithmetic ([arithmetic.rs]) *)

Definition add_gate (q_add a b c : Z) : list Z := [q_add * (a + b - c)].
Definition sub_gate (q_sub a b c : Z) : list Z := [q_sub * (a - b - c)].
Definition mul_gate (q_mul a b c : Z) : list Z := [q_mul * (a * b - c)].

(** ** Equality ([is_equal.rs]) *)

Definition is_eq_gate (s lhs rhs out delta_invert : Z) : list Z :=
  [s * (out * (1 - out));
   s * ((lhs - rhs) * delta_invert + (out - 1));
   s * out * (delta_invert - 1);
   s * (lhs - rhs) * ((lhs - rhs) * delta_invert - 1)].

Definition is_not_eq_gate (s lhs rhs out delta_invert : Z) : list Z :=
  [s * (out * (1 - out));
   s * ((lhs - rhs) * delta_invert - out);
   s * (lhs - rhs) * ((lhs - rhs) * delta_invert - 1);
   s * (1 - out) * (delta_invert - 1)].

Definition assert_eq_gate (s lhs rhs : Z) : list Z := [s * (lhs - rhs)].

(** ** Selection ([cond_select.rs], [is_zero.rs], [zero_cond.rs]) *)

Definition conditional_select_gate (s lhs rhs out cond : Z) : list Z :=
  [s * (cond * (1 - cond)); s * ((lhs - rhs) * cond + rhs - out)].

Definition is_zero_expr (value value_inv : Z) : Z := 1 - value * value_inv.
Definition is_zero_gate (q_enable value value_inv : Z) : list Z := [q_enable * value * is_zero_expr value value_inv].

Definition zero_cond_gate (s a b value_inv output : Z) : list Z :=
  is_zero_gate s a value_inv ++
  [s * (is_zero_expr a value_inv * output + (1 - is_zero_expr a value_inv) * (output - b))].

(** ** Small ranges ([small_range_check.rs]): [word * (1 - word) * ... * (range - 1 - word)] *)

Definition range_check_poly (word : Z) (range : nat) : Z := fold_left (fun acc i => acc * (Z.of_nat i - word)) (seq 1 (range - 1)) word.
Definition small_range_gate (selector word : Z) (range : nat) : list Z := [selector * range_check_poly word range].

(** ** Ranges of bits ([native_range_check.rs]) *)

Section Range.
Context (p : Z).

(** The inverse of a power of two, as [invert] computes it. *)
Definition inv_two_pow (s : Z) : Z := ((p + 1) / 2) ^ s mod p.

Definition num_windows (w bits : Z) : Z := (bits + w - 1) / w.
Definition last_chunk_length (w bits : Z) : Z := bits - w * (num_windows w bits - 1).

(** The running sum: each cell is a window plus [2^w] times the next, and the
    last is zero; [z] are the cells from here on. *)
Fixpoint running_sum (w : Z) (z : list Z) : bool :=
  match z with
  | [] => false
  | z_curr :: rest =>
      match rest with
      | [] => z_curr mod p =? 0
      | z_next :: _ => in_table p w (z_curr - z_next * 2 ^ w) && running_sum w rest
      end
  end.

Definition shift_gate (s_short w s last_chunk shifted : Z) : list Z := [s_short * (last_chunk * 2 ^ w * inv_two_pow s - shifted)].

(** The region of [decompose]: [num_windows + 1] cells of running sum and, when
    the last window is shorter, its shifted value. *)
Definition range_region (w bits : Z) (z : list Z) (shifted : Z) : bool :=
  (Z.of_nat (length z) =? num_windows w bits + 1) && running_sum w z &&
  if last_chunk_length w bits <? w then
    in_table p w shifted &&
    gate_ok p (shift_gate 1 w (bits mod w) (nth (Z.to_nat (num_windows w bits - 1)) z 0) shifted)
  else true.

(** What [decompose] assigns for a value in range. *)
Fixpoint decompose (w : Z) (n : nat) (v : Z) : list Z := match n with O => [v] | S n' => v :: decompose w n' (v / 2 ^ w) end.
Definition shifted_last_chunk (w bits v : Z) : Z := (v / 2 ^ (w * (num_windows w bits - 1))) * 2 ^ (w - bits mod w).

(** [copy_range_check]: a proof exists for this value. *)
Definition range_check (w bits v : Z) : Prop := exists z shifted, head z = Some v /\ range_region w bits z shifted = true.

(** ** Comparisons ([less_than.rs]) *)

Definition a_offset_gate (bits s_lt s_leq a b a_offset : Z) : list Z :=
  [s_lt * (a_offset - 2 ^ bits + b - a); s_leq * (a_offset - 2 ^ bits + b - a + 1)].

Definition leq_out_gate (s_leq_out a b a_offset out : Z) : list Z :=
  [s_leq_out * out * (1 - out); s_leq_out * (a_offset - (out * (b - a) + (1 - out) * (a - b - 1)))].
Definition lt_out_gate (s_lt_out a b a_offset out : Z) : list Z :=
  [s_lt_out * out * (1 - out); s_lt_out * (a_offset - (out * (b - a - 1) + (1 - out) * (a - b)))].

(** [less_than_range_check]: [a] and the offset, not [b]. *)
Definition less_than_range_check (w bits a a_offset : Z) : Prop := range_check w bits a /\ range_check w bits a_offset.

(** [copy_less_than], and the two with an output: a proof exists. *)
Definition copy_less_than (w bits : Z) (strict : bool) (a b : Z) : Prop :=
  exists a_offset, 0 <= a_offset < p /\ gate_ok p (a_offset_gate bits (if strict then 1 else 0) (if strict then 0 else 1) a b a_offset) = true /\
    less_than_range_check w bits a a_offset.
Definition copy_less_than_or_equal_with_output (w bits a b out : Z) : Prop :=
  exists a_offset, 0 <= a_offset < p /\ gate_ok p (leq_out_gate 1 a b a_offset out) = true /\ less_than_range_check w bits a a_offset.
Definition copy_less_than_strict_with_output (w bits a b out : Z) : Prop :=
  exists a_offset, 0 <= a_offset < p /\ gate_ok p (lt_out_gate 1 a b a_offset out) = true /\ less_than_range_check w bits a a_offset.

End Range.

(** The base field of the circuits, the window of the lookup table, and the bits
    of the comparisons. *)
Definition PALLAS_P : Z := 0x40000000000000000000000000000000224698fc094cf91b992d30ed00000001.
Definition K : Z := 10.
Definition COMPARED_BITS : Z := 253.

(** ** Division ([BaseDiv] of [src/zk/vm.rs]) *)

Definition PALLAS_P_MINUS_2 : list Z :=
  [0xff; 0xff; 0xff; 0xff; 0xec; 0x30; 0x2d; 0x99; 0x1b; 0xcf; 0x4c; 0x09; 0xfc; 0x98; 0x46; 0x22;
   0x00; 0x00; 0x00; 0x00; 0x00; 0x00; 0x00; 0x00; 0x00; 0x00; 0x00; 0x00; 0x00; 0x00; 0x00; 0x40].

Definition bit_set (bytes : list Z) (i : nat) : bool := Z.land (Z.shiftr (nth (i / 8) bytes 0) (Z.of_nat (i mod 8))) 1 =? 1.

(** Square and multiply over the bits [i], ..., of the exponent; every product
    is a [mul_gate], so it is the product modulo [p]. *)
Fixpoint pow_loop (p : Z) (bytes : list Z) (n i : nat) (result current : Z) : Z :=
  match n with
  | O => result
  | S n' =>
      let current := current * current mod p in
      let result := if bit_set bytes i then result * current mod p else result in
      pow_loop p bytes n' (S i) result current
  end.
Definition base_div (p : Z) (bytes : list Z) (a b : Z) : Z := a * pow_loop p bytes 254 1 b b mod p.
