(* ===== verification/ZkSound.v ===== *)
(** * The gates force what they promise

    Exact characterizations of the gadgets: for which values a proof exists.  The
    equality, selection and small range gates are functions of their inputs. *)

From Stdlib Require Import Znumtheory.
From S2P Require Import Prelude Serial ZkGadget.

Lemma gate_ok_cons (p c : Z) (l : list Z) : gate_ok p (c :: l) = true <-> c mod p = 0 /\ gate_ok p l = true.
Proof. unfold gate_ok. cbn [forallb]. by rewrite andb_true_iff, Z.eqb_eq. Qed.

Lemma gate_ok_nil (p : Z) : gate_ok p [] = true <-> True.
Proof. done. Qed.

(** ** Congruence to a representative *)

Lemma mod_unique_small (p x r : Z) : 0 <= r < p -> (x - r) mod p = 0 -> x mod p = r.
Proof. intros Hr H. apply Z.mod_divide in H as [k Hk]; [| lia]. replace x with (r + k * p) by lia. rewrite Z_mod_plus_full. by apply Z.mod_small. Qed.

Lemma mod_zero_small (p x : Z) : - p < x < p -> x mod p = 0 -> x = 0.
Proof. intros Hx H. apply Z.mod_divide in H as [k Hk]; [| lia]. assert (k = 0 \/ 1 <= k \/ k <= -1) as [->|[?|?]] by lia; nia. Qed.

Lemma mod_zero_iff (p x : Z) : 0 < p -> x mod p = 0 <-> (p | x).
Proof. intros Hp. apply Z.mod_divide. lia. Qed.

Lemma prime_product (p a b : Z) : prime p -> (a * b) mod p = 0 -> a mod p = 0 \/ b mod p = 0.
Proof. intros Hp. pose proof (prime_ge_2 p Hp). rewrite !mod_zero_iff by lia. by apply prime_mult. Qed.

(** A bit: the only roots of [x * (1 - x)]. *)
Lemma bit_roots (p x : Z) : prime p -> 0 <= x < p -> (x * (1 - x)) mod p = 0 <-> x = 0 \/ x = 1.
Proof.
  intros Hp Hx. pose proof (prime_ge_2 p Hp). split; [| intros [-> | ->]; by rewrite Z.mod_0_l by lia].
  intros [E|E]%(prime_product p); [| | done]; [apply mod_zero_small in E; lia | apply mod_zero_small in E; lia].
Qed.

Lemma prime_inverse (p x : Z) : prime p -> x mod p <> 0 -> exists d, 0 <= d < p /\ (x * d - 1) mod p = 0.
Proof.
  intros Hp Hx. pose proof (prime_ge_2 p Hp). assert (rel_prime x p) as Hr.
  { apply rel_prime_sym, prime_rel_prime; [done |]. rewrite <- mod_zero_iff by lia. done. }
  apply rel_prime_bezout in Hr as [u v E]. exists (u mod p). split; [apply Z.mod_pos_bound; lia |].
  rewrite Zminus_mod, Zmult_mod_idemp_r, <- Zminus_mod. replace (x * u - 1) with ((- v) * p) by lia. apply Z_mod_mult.
Qed.

Lemma not_congruent (p a b : Z) : 0 <= a < p -> 0 <= b < p -> a <> b -> (a - b) mod p <> 0.
Proof. intros Ha Hb Hn E. apply mod_zero_small in E; lia. Qed.

(** ** Equality and selection *)

Lemma is_eq_exact (p lhs rhs out : Z) : prime p -> 0 <= lhs < p -> 0 <= rhs < p -> 0 <= out < p ->
  (exists d, gate_ok p (is_eq_gate 1 lhs rhs out d) = true) <-> out = if lhs =? rhs then 1 else 0.
Proof.
  intros Hp Hl Hr Ho. pose proof (prime_ge_2 p Hp). unfold is_eq_gate. setoid_rewrite gate_ok_cons. setoid_rewrite gate_ok_cons.
  setoid_rewrite gate_ok_cons. setoid_rewrite gate_ok_cons. split.
  - intros (d & _ & H2 & _ & H4 & _). destruct (lhs =? rhs) eqn:E.
    + apply Z.eqb_eq in E as ->. replace (1 * ((rhs - rhs) * d + (out - 1))) with (out - 1) in H2 by lia. apply mod_zero_small in H2; lia.
    + apply Z.eqb_neq in E. rewrite Z.mul_1_l in H4. apply prime_product in H4 as [H4|H4]; [by apply not_congruent in H4 | | done].
      apply (mod_zero_small p out); [lia |]. replace out with (1 * ((lhs - rhs) * d + (out - 1)) - ((lhs - rhs) * d - 1)) by lia.
      rewrite Zminus_mod, H2, H4. by rewrite Z.mod_0_l by lia.
  - intros ->. destruct (lhs =? rhs) eqn:E.
    + apply Z.eqb_eq in E as ->. exists 1. rewrite !Z.sub_diag, !Z.mul_0_r, ?Z.mul_0_l. by rewrite Z.mod_0_l by lia.
    + apply Z.eqb_neq in E. destruct (prime_inverse p (lhs - rhs) Hp) as (d & _ & Hd); [by apply not_congruent |]. exists d.
      split_and!; [by rewrite Z.mod_0_l by lia | | by rewrite Z.mod_0_l by lia | | done].
      * replace (1 * ((lhs - rhs) * d + (0 - 1))) with ((lhs - rhs) * d - 1) by lia. done.
      * rewrite Z.mul_1_l, Zmult_mod, Hd, Z.mul_0_r. by rewrite Z.mod_0_l by lia.
Qed.

Lemma is_not_eq_exact (p lhs rhs out : Z) : prime p -> 0 <= lhs < p -> 0 <= rhs < p -> 0 <= out < p ->
  (exists d, gate_ok p (is_not_eq_gate 1 lhs rhs out d) = true) <-> out = if lhs =? rhs then 0 else 1.
Proof.
  intros Hp Hl Hr Ho. pose proof (prime_ge_2 p Hp). unfold is_not_eq_gate. setoid_rewrite gate_ok_cons. setoid_rewrite gate_ok_cons.
  setoid_rewrite gate_ok_cons. setoid_rewrite gate_ok_cons. split.
  - intros (d & _ & H2 & H3 & _ & _). destruct (lhs =? rhs) eqn:E.
    + apply Z.eqb_eq in E as ->. replace (1 * ((rhs - rhs) * d - out)) with (- out) in H2 by lia. apply mod_zero_small in H2; lia.
    + apply Z.eqb_neq in E. rewrite Z.mul_1_l in H3. apply prime_product in H3 as [H3|H3]; [by apply not_congruent in H3 | | done].
      enough (out - 1 = 0) by lia. apply (mod_zero_small p); [lia |].
      replace (out - 1) with (((lhs - rhs) * d - 1) - 1 * ((lhs - rhs) * d - out)) by lia. rewrite Zminus_mod, H2, H3. by rewrite Z.mod_0_l by lia.
  - intros ->. destruct (lhs =? rhs) eqn:E.
    + apply Z.eqb_eq in E as ->. exists 1. rewrite !Z.sub_diag, !Z.mul_0_r, ?Z.mul_0_l. by rewrite Z.mod_0_l by lia.
    + apply Z.eqb_neq in E. destruct (prime_inverse p (lhs - rhs) Hp) as (d & _ & Hd); [by apply not_congruent |]. exists d.
      split_and!; [by rewrite Z.mod_0_l by lia | by rewrite Z.mul_1_l | | by rewrite Z.mod_0_l by lia | done].
      rewrite Z.mul_1_l, Zmult_mod, Hd, Z.mul_0_r. by rewrite Z.mod_0_l by lia.
Qed.

Lemma conditional_select_exact (p lhs rhs out cond : Z) : prime p -> 0 <= lhs < p -> 0 <= rhs < p -> 0 <= out < p -> 0 <= cond < p ->
  gate_ok p (conditional_select_gate 1 lhs rhs out cond) = true <-> (cond = 1 /\ out = lhs) \/ (cond = 0 /\ out = rhs).
Proof.
  intros Hp Hl Hr Ho Hc. pose proof (prime_ge_2 p Hp). unfold conditional_select_gate. rewrite !gate_ok_cons, gate_ok_nil, !Z.mul_1_l, bit_roots by done.
  split.
  - intros ([-> | ->] & H2 & _); [right | left]; (split; [done |]).
    + replace ((lhs - rhs) * 0 + rhs - out) with (rhs - out) in H2 by lia. apply mod_zero_small in H2; lia.
    + replace ((lhs - rhs) * 1 + rhs - out) with (lhs - out) in H2 by lia. apply mod_zero_small in H2; lia.
  - intros [[-> ->]|[-> ->]]; (split; [auto |]); (split; [| done]).
    + replace ((lhs - rhs) * 1 + rhs - lhs) with 0 by lia. by rewrite Z.mod_0_l by lia.
    + replace ((lhs - rhs) * 0 + rhs - rhs) with 0 by lia. by rewrite Z.mod_0_l by lia.
Qed.

Lemma zero_cond_exact (p a b out : Z) : prime p -> 0 <= a < p -> 0 <= b < p -> 0 <= out < p ->
  (exists inv, gate_ok p (zero_cond_gate 1 a b inv out) = true) <-> out = if a =? 0 then 0 else b.
Proof.
  intros Hp Ha Hb Ho. pose proof (prime_ge_2 p Hp). unfold zero_cond_gate, is_zero_gate. cbn [app]. setoid_rewrite gate_ok_cons. setoid_rewrite gate_ok_cons.
  unfold is_zero_expr. split.
  - intros (inv & H1 & H2 & _). destruct (a =? 0) eqn:E.
    + apply Z.eqb_eq in E as ->. replace (1 * ((1 - 0 * inv) * out + (1 - (1 - 0 * inv)) * (out - b))) with out in H2 by lia. apply mod_zero_small in H2; lia.
    + apply Z.eqb_neq in E. rewrite Z.mul_1_l in H1. apply prime_product in H1 as [H1|H1]; [apply mod_zero_small in H1; lia | | done].
      enough (out - b = 0) by lia. apply (mod_zero_small p); [lia |].
      replace (out - b) with (1 * ((1 - a * inv) * out + (1 - (1 - a * inv)) * (out - b)) - (1 - a * inv) * b) by lia.
      rewrite Zminus_mod, H2, Zmult_mod, H1, Z.mul_0_l. by rewrite Z.mod_0_l by lia.
  - intros ->. destruct (a =? 0) eqn:E.
    + apply Z.eqb_eq in E as ->. exists 0. cbn. by rewrite Z.mod_0_l by lia.
    + apply Z.eqb_neq in E. destruct (prime_inverse p a Hp) as (d & _ & Hd); [rewrite Z.mod_small by lia; lia |].
      assert ((1 - a * d) mod p = 0) as Hd' by (replace (1 - a * d) with (- (a * d - 1)) by lia; by rewrite Z.mod_opp_l_z by lia).
      exists d. split_and!; [| | done].
      * rewrite Z.mul_1_l, Zmult_mod, Hd', Z.mul_0_r. by rewrite Z.mod_0_l by lia.
      * replace (1 * ((1 - a * d) * b + (1 - (1 - a * d)) * (b - b))) with ((1 - a * d) * b) by lia. rewrite Zmult_mod, Hd', Z.mul_0_l. by rewrite Z.mod_0_l by lia.
Qed.

(** Roots of the product over a range. *)
Lemma range_poly_roots (p word : Z) (n k : nat) (acc : Z) : prime p -> 0 <= word < p -> Z.of_nat (k + n) <= p ->
  (fold_left (fun acc i => acc * (Z.of_nat i - word)) (seq k n) acc) mod p = 0 <-> acc mod p = 0 \/ Z.of_nat k <= word < Z.of_nat (k + n).
Proof.
  intros Hp Hw. pose proof (prime_ge_2 p Hp). revert k acc. induction n as [|n IH]; intros k acc Hk; cbn [seq fold_left].
  { rewrite Nat.add_0_r. split; [auto | intros [?|?]; [done | lia]]. }
  rewrite IH by lia. replace (S k + n)%nat with (k + S n)%nat by lia. split.
  - intros [E|E]; [| right; lia]. apply prime_product in E as [E|E]; [by left | | done]. right. apply mod_zero_small in E; lia.
  - intros [E|E]; [left; rewrite Zmult_mod, E, Z.mul_0_l; by rewrite Z.mod_0_l by lia |].
    destruct (decide (word = Z.of_nat k)) as [->|]; [left; rewrite Z.sub_diag, Z.mul_0_r; by rewrite Z.mod_0_l by lia | right; lia].
Qed.

Lemma small_range_exact (p word : Z) (range : nat) : prime p -> 0 <= word < p -> (0 < range)%nat -> Z.of_nat range <= p ->
  gate_ok p (small_range_gate 1 word range) = true <-> word < Z.of_nat range.
Proof.
  intros Hp Hw Hr Hle. unfold small_range_gate, range_check_poly. rewrite gate_ok_cons, gate_ok_nil, Z.mul_1_l. rewrite range_poly_roots by (done || lia).
  rewrite Z.mod_small by done. split; [intros [[?|?] _]; lia | intros; split; [lia | done]].
Qed.

(** C38: the equality, selection and boolean gates leave a prover no choice: the
    rows that satisfy them are exactly those with the result the opcode stands
    for, whatever he assigns to the auxiliary cells, and there is always one. *)
Theorem gates_exact (p : Z) : prime p -> forall a b out cond : Z,
  0 <= a < p -> 0 <= b < p -> 0 <= out < p -> 0 <= cond < p ->
  ((exists d, gate_ok p (is_eq_gate 1 a b out d) = true) <-> out = if a =? b then 1 else 0) /\
  ((exists d, gate_ok p (is_not_eq_gate 1 a b out d) = true) <-> out = if a =? b then 0 else 1) /\
  (gate_ok p (conditional_select_gate 1 a b out cond) = true <-> (cond = 1 /\ out = a) \/ (cond = 0 /\ out = b)) /\
  ((exists inv, gate_ok p (zero_cond_gate 1 a b inv out) = true) <-> out = if a =? 0 then 0 else b) /\
  (gate_ok p (small_range_gate 1 a 2) = true <-> a = 0 \/ a = 1).
Proof.
  intros Hp a b out cond Ha Hb Ho Hc. pose proof (prime_ge_2 p Hp).
  split_and!; [by apply is_eq_exact | by apply is_not_eq_exact | by apply conditional_select_exact | by apply zero_cond_exact |].
  rewrite small_range_exact by (done || lia). lia.
Qed.

Lemma gates_exact_witness : gate_ok 7 (is_eq_gate 1 3 5 0 3) = true /\ ((exists d, gate_ok 7 (is_eq_gate 1 3 5 0 d) = true) <-> 0 = if 3 =? 5 then 1 else 0).
Proof.
  split; [vm_compute; reflexivity |]. apply (gates_exact 7 ltac:(apply prime_intro; [lia |]; intros n Hn; assert (n = 1 \/ n = 2 \/ n = 3 \/ n = 4 \/ n = 5 \/ n = 6) as Hc by lia;
    apply Zgcd_1_rel_prime; repeat destruct Hc as [->|Hc]; try subst n; reflexivity) 3 5 0 0); lia.
Defined.
