(* ===== verification/ZkCompare.v ===== *)
(** * Ranges and comparisons

    The range check is the range: a decomposition into windows exists exactly
    for the numbers of that many bits.  The comparisons of [less_than.rs] are
    then exact up to the missing range check of their second operand, and what
    that allows is stated. *)

From Stdlib Require Import Znumtheory Zpow_facts.
From S2P Require Import Prelude Serial ZkGadget ZkSound.

(** ** The range check is the range *)

Section Range.
Context (p w bits : Z) (Hodd : p mod 2 = 1) (Hw : 0 < w) (Hbits : 0 < bits) (Hww : 2 ^ (2 * w) <= p) (Hp : 2 ^ bits <= p).

Lemma p_pos : 0 < p.
Proof. pose proof (Z.pow_pos_nonneg 2 bits ltac:(lia) ltac:(lia)). lia. Qed.

Lemma pow_w_pos (k : Z) : 0 <= k -> 0 < 2 ^ k.
Proof. intros. by apply Z.pow_pos_nonneg. Qed.

(** The inverse is one. *)
Lemma inv_two_pow_ok (s : Z) : 0 <= s -> (2 ^ s * inv_two_pow p s) mod p = 1 mod p.
Proof.
  intros Hs. unfold inv_two_pow. rewrite Zmult_mod_idemp_r, <- Z.pow_mul_l. pose proof p_pos.
  assert (2 * ((p + 1) / 2) = p + 1) as ->. { pose proof (Z.div_mod (p + 1) 2 ltac:(lia)) as E. pose proof (Z.div_mod p 2 ltac:(lia)).
    assert ((p + 1) mod 2 = 0); [| lia]. rewrite Zplus_mod, Hodd. done. }
  rewrite Zpower_mod by lia. replace ((p + 1) mod p) with (1 mod p) by (rewrite <- (Z_mod_plus_full 1 1 p); f_equal; lia).
  rewrite <- Zpower_mod by lia. by rewrite Z.pow_1_l.
Qed.

Lemma windows_bits : 1 <= num_windows w bits /\ bits = w * (num_windows w bits - 1) + last_chunk_length w bits /\ 0 < last_chunk_length w bits <= w /\
  (last_chunk_length w bits < w -> bits mod w = last_chunk_length w bits).
Proof.
  unfold last_chunk_length, num_windows. pose proof (Z.div_mod (bits + w - 1) w ltac:(lia)). pose proof (Z.mod_pos_bound (bits + w - 1) w Hw).
  assert (1 <= (bits + w - 1) / w) by (apply Z.div_le_lower_bound; lia). split_and!; [lia | lia | nia | nia |]. intros Hl.
  symmetry. apply (Z.mod_unique_pos _ _ ((bits + w - 1) / w - 1)); nia.
Qed.

(** From the last window up: a cell is congruent to a number below a power of two. *)
Lemma running_sum_value (z0 : Z) (z : list Z) (last : Z) :
  running_sum p w (z0 :: z) = true -> z <> [] -> 0 < last -> nth (length z - 1) (z0 :: z) 0 mod p < last ->
  exists v, 0 <= v < 2 ^ (w * (Z.of_nat (length z) - 1)) * last /\ (z0 - v) mod p = 0.
Proof.
  pose proof p_pos as H0. revert z0. induction z as [|z1 z IH]; intros z0 Hs Hne Hlast Hl; [done |].
  cbn [running_sum] in Hs. apply andb_true_iff in Hs as [Hk Hs]. unfold in_table in Hk. apply Z.ltb_lt in Hk. pose proof (Z.mod_pos_bound (z0 - z1 * 2 ^ w) p H0).
  destruct z as [|z2 z].
  - cbn [length nth Nat.sub] in *. exists (z0 mod p). replace (w * (Z.of_nat 1 - 1)) with 0 by lia. rewrite Z.pow_0_r, Z.mul_1_l.
    pose proof (Z.mod_pos_bound z0 p H0). split; [lia |]. rewrite Zminus_mod, Z.mod_mod, Z.sub_diag by lia. by rewrite Z.mod_0_l by lia.
  - destruct (IH z1 Hs ltac:(done) Hlast) as (v & Hv & Ev).
    { cbn [length Nat.sub] in Hl |- *. rewrite Nat.sub_0_r. cbn [nth] in Hl. exact Hl. }
    set (k := (z0 - z1 * 2 ^ w) mod p) in *. exists (k + 2 ^ w * v). cbn [length] in *.
    assert (2 ^ (w * (Z.of_nat (S (S (length z))) - 1)) = 2 ^ w * 2 ^ (w * (Z.of_nat (S (length z)) - 1))) as ->.
    { rewrite <- Z.pow_add_r by nia. f_equal. lia. }
    pose proof (pow_w_pos w ltac:(lia)). split; [nia |].
    replace (z0 - (k + 2 ^ w * v)) with ((z0 - z1 * 2 ^ w - k) + (z1 - v) * 2 ^ w) by lia.
    rewrite Zplus_mod, (Zmult_mod (z1 - v)), Ev, Z.mul_0_l, Z.mod_0_l, Z.add_0_r, Z.mod_mod by lia.
    unfold k. rewrite Zminus_mod_idemp_r, Z.sub_diag. by rewrite Z.mod_0_l by lia.
Qed.

(** The last window is below [2^w], and below [2^s] by the shifted lookup. *)
Lemma short_window (c shifted s : Z) :
  0 <= s < w -> 0 <= c < 2 ^ w -> 0 <= shifted mod p < 2 ^ w -> (c * 2 ^ w * inv_two_pow p s - shifted) mod p = 0 -> c < 2 ^ s.
Proof.
  intros Hs Hc Hsh E. pose proof p_pos. pose proof (pow_w_pos (w - s) ltac:(lia)). pose proof (pow_w_pos s ltac:(lia)).
  assert (2 ^ w = 2 ^ (w - s) * 2 ^ s) as Hsplit by (rewrite <- Z.pow_add_r by lia; f_equal; lia).
  assert ((c * 2 ^ (w - s)) mod p = shifted mod p) as Eq.
  { assert ((c * 2 ^ w * inv_two_pow p s) mod p = (c * 2 ^ (w - s)) mod p) as E1.
    { rewrite Hsplit. replace (c * (2 ^ (w - s) * 2 ^ s) * inv_two_pow p s) with ((c * 2 ^ (w - s)) * (2 ^ s * inv_two_pow p s)) by lia.
      rewrite Zmult_mod, inv_two_pow_ok by lia. rewrite <- Zmult_mod. f_equal. lia. }
    rewrite <- E1. apply Z.mod_divide in E as [k Ek]; [| lia]. replace (c * 2 ^ w * inv_two_pow p s) with (shifted + k * p) by lia. apply Z_mod_plus_full. }
  rewrite Z.mod_small in Eq; [nia |]. split; [nia |]. apply Z.lt_le_trans with (2 ^ (2 * w)); [| done].
  replace (2 ^ (2 * w)) with (2 ^ w * 2 ^ w) by (rewrite <- Z.pow_add_r by lia; f_equal; lia).
  assert (2 ^ (w - s) <= 2 ^ w) by (apply Z.pow_le_mono_r; lia). nia.
Qed.

Lemma nth_last_window (z0 : Z) z : running_sum p w (z0 :: z) = true -> z <> [] -> nth (length z - 1) (z0 :: z) 0 mod p < 2 ^ w.
Proof.
  pose proof p_pos. revert z0. induction z as [|z1 z IH]; intros z0 Hs Hne; [done |]. cbn [running_sum] in Hs. apply andb_true_iff in Hs as [Hk Hs].
  destruct z as [|z2 z].
  - cbn [running_sum] in Hs. apply Z.eqb_eq in Hs. cbn. unfold in_table in Hk. apply Z.ltb_lt in Hk.
    rewrite Zminus_mod, (Zmult_mod z1), Hs, Z.mul_0_l, Z.mod_0_l, Z.sub_0_r, Z.mod_mod in Hk by lia. done.
  - cbn [length Nat.sub nth] in *. specialize (IH z1 Hs ltac:(done)). rewrite Nat.sub_0_r in IH. exact IH.
Qed.

Lemma range_check_sound (v : Z) : 0 <= v < p -> range_check p w bits v -> v < 2 ^ bits.
Proof.
  intros Hv (z & shifted & Hz & Hr). pose proof p_pos. destruct windows_bits as (Hn & Hb & Hlen & Hmod).
  unfold range_region in Hr. apply andb_true_iff in Hr as [[Hl Hs]%andb_true_iff Hshort]. apply Z.eqb_eq in Hl.
  destruct z as [|z0 z]; [discriminate |]. injection Hz as ->. cbn [length] in Hl. assert (z <> []) as Hne by (intros ->; cbn in Hl; lia).
  assert (Z.to_nat (num_windows w bits - 1) = (length z - 1)%nat) as Hidx by lia. rewrite Hidx in Hshort.
  pose proof (nth_last_window v z Hs Hne) as Hw1. set (c := nth (length z - 1) (v :: z) 0) in *.
  assert (c mod p < 2 ^ last_chunk_length w bits) as Hc.
  { destruct (last_chunk_length w bits <? w) eqn:E.
    - apply Z.ltb_lt in E. apply andb_true_iff in Hshort as [Ht Hg]. unfold in_table in Ht. apply Z.ltb_lt in Ht.
      unfold shift_gate in Hg. apply gate_ok_cons in Hg as [Hg _]. rewrite (Hmod E), Z.mul_1_l in Hg.
      apply (short_window (c mod p) shifted); [lia | pose proof (Z.mod_pos_bound c p H); lia | pose proof (Z.mod_pos_bound shifted p H); lia |].
      rewrite <- Hg. rewrite Zminus_mod, <- Z.mul_assoc, Zmult_mod_idemp_l, Z.mul_assoc, <- Zminus_mod. done.
    - apply Z.ltb_ge in E. assert (last_chunk_length w bits = w) as -> by lia. done. }
  destruct (running_sum_value v z (2 ^ last_chunk_length w bits) Hs Hne (pow_w_pos (last_chunk_length w bits) ltac:(lia)) Hc) as (x & Hx & Ex).
  assert (Z.of_nat (length z) = num_windows w bits) as Hlz by lia. rewrite Hlz, <- Z.pow_add_r, <- Hb in Hx by nia.
  apply mod_zero_small in Ex; lia.
Qed.

(** What the code assigns. *)
Lemma decompose_sum (n : nat) (v : Z) : 0 <= v < 2 ^ (w * Z.of_nat n) -> running_sum p w (decompose w n v) = true /\ length (decompose w n v) = S n /\ head (decompose w n v) = Some v.
Proof.
  pose proof p_pos. revert v. induction n as [|n IH]; intros v Hv.
  - replace (w * Z.of_nat 0) with 0 in Hv by lia. assert (v = 0) as -> by (cbn in Hv; lia). cbn. by rewrite Z.mod_0_l by lia.
  - pose proof (pow_w_pos w ltac:(lia)) as Hpw. assert (0 <= v / 2 ^ w < 2 ^ (w * Z.of_nat n)) as Hq.
    { split; [apply Z.div_pos; lia |]. apply Z.div_lt_upper_bound; [lia |]. rewrite <- Z.pow_add_r by nia. replace (w + w * Z.of_nat n) with (w * Z.of_nat (S n)) by lia. lia. }
    destruct (IH _ Hq) as (Hs & Hl & Hh). cbn [decompose length head]. split_and!; [| by rewrite Hl | done].
    destruct (decompose w n (v / 2 ^ w)) as [|z1 rest] eqn:Ed; [discriminate |]. injection Hh as ->. cbn [running_sum]. apply andb_true_iff. split; [| exact Hs].
    unfold in_table. apply Z.ltb_lt. pose proof (Z.div_mod v (2 ^ w) ltac:(lia)). pose proof (Z.mod_pos_bound v (2 ^ w) ltac:(lia)).
    assert (2 ^ w <= 2 ^ (2 * w)) by (apply Z.pow_le_mono_r; lia).
    replace (v - v / 2 ^ w * 2 ^ w) with (v mod 2 ^ w) by lia. rewrite Z.mod_small by lia. lia.
Qed.

Lemma decompose_nth (n k : nat) (v : Z) : (k <= n)%nat -> 0 <= v -> nth k (decompose w n v) 0 = v / 2 ^ (w * Z.of_nat k).
Proof.
  revert k v. induction n as [|n IH]; intros [|k] v Hk Hv; cbn [decompose nth]; try (replace (w * Z.of_nat 0) with 0 by lia; by rewrite Z.div_1_r); [lia |].
  pose proof (pow_w_pos w ltac:(lia)). pose proof (pow_w_pos (w * Z.of_nat k) ltac:(lia)).
  rewrite IH; [| lia | apply Z.div_pos; lia]. rewrite Z.div_div by lia.
  rewrite <- Z.pow_add_r by lia. f_equal. f_equal. lia.
Qed.

Lemma range_check_complete (v : Z) : 0 <= v < 2 ^ bits ->
  range_region p w bits (decompose w (Z.to_nat (num_windows w bits)) v) (shifted_last_chunk w bits v) = true.
Proof.
  intros Hv. pose proof p_pos. destruct windows_bits as (Hn & Hb & Hlen & Hmod). set (n := num_windows w bits) in *.
  assert (0 <= v < 2 ^ (w * Z.of_nat (Z.to_nat n))) as Hv'.
  { split; [lia |]. apply Z.lt_le_trans with (2 ^ bits); [lia |]. apply Z.pow_le_mono_r; [lia |]. rewrite Z2Nat.id by lia. nia. }
  destruct (decompose_sum (Z.to_nat n) v Hv') as (Hs & Hl & _). unfold range_region. fold n. rewrite Hl, Hs, !andb_true_iff.
  split; [split; [apply Z.eqb_eq; lia | done] |]. destruct (last_chunk_length w bits <? w) eqn:E; [| done]. apply Z.ltb_lt in E. rewrite (Hmod E).
  unfold shifted_last_chunk. fold n. rewrite (Hmod E). set (s := last_chunk_length w bits) in *. rewrite decompose_nth by lia. rewrite Z2Nat.id by lia.
  set (c := v / 2 ^ (w * (n - 1))). assert (0 <= c < 2 ^ s) as Hc.
  { unfold c. pose proof (pow_w_pos (w * (n - 1)) ltac:(nia)). split; [apply Z.div_pos; lia |]. apply Z.div_lt_upper_bound; [lia |].
    rewrite <- Z.pow_add_r by nia. rewrite <- Hb. lia. }
  pose proof (pow_w_pos (w - s) ltac:(lia)). assert (2 ^ w = 2 ^ (w - s) * 2 ^ s) as Hsplit by (rewrite <- Z.pow_add_r by lia; f_equal; lia).
  assert (2 ^ w <= 2 ^ (2 * w)) by (apply Z.pow_le_mono_r; lia). apply andb_true_iff. split.
  - unfold in_table. apply Z.ltb_lt. rewrite Z.mod_small by nia. nia.
  - unfold shift_gate. apply gate_ok_cons. split; [| done]. rewrite Z.mul_1_l. apply Z.mod_divide; [lia |].
    pose proof (inv_two_pow_ok s ltac:(lia)) as Hi.
    assert ((2 ^ s * inv_two_pow p s - 1) mod p = 0) as Hz by (rewrite Zminus_mod, Hi, Z.sub_diag; by apply Z.mod_0_l; lia).
    apply Z.mod_divide in Hz as [k Hk]; [| lia].
    exists (c * 2 ^ (w - s) * k). rewrite Hsplit. nia.
Qed.

Lemma range_check_iff (v : Z) : 0 <= v < p -> range_check p w bits v <-> v < 2 ^ bits.
Proof.
  intros Hv. split; [by apply range_check_sound |]. intros Hlt.
  exists (decompose w (Z.to_nat (num_windows w bits)) v), (shifted_last_chunk w bits v). split; [| apply range_check_complete; lia].
  by destruct (Z.to_nat (num_windows w bits)).
Qed.

End Range.

(** ** Comparisons *)

(** A representative that is congruent to a number between [-p] and [p]. *)
Lemma congruent_cases (p x y : Z) : 0 <= x < p -> - p <= y < p -> (x - y) mod p = 0 -> x = y \/ x = y + p.
Proof.
  intros Hx Hy E. apply Z.mod_divide in E as [k Hk]; [| lia]. assert (k = 0 \/ k = 1 \/ k <= -1 \/ 2 <= k) as [Hk0|[Hk1|[?|?]]] by lia; [left | right | nia | nia]; lia.
Qed.

Lemma congruent_eq (p x y : Z) : 0 < p -> x = y \/ x = y + p -> (x - y) mod p = 0.
Proof. intros Hp [-> | ->]; [rewrite Z.sub_diag; apply Z.mod_0_l; lia |]. replace (y + p - y) with (1 * p) by lia. apply Z_mod_mult. Qed.

Section Compare.
Context (p w bits : Z) (Hodd : p mod 2 = 1) (Hw : 0 < w) (Hbits : 0 < bits) (Hww : 2 ^ (2 * w) <= p) (Hp : 2 ^ (bits + 1) < p).

Lemma two_ranges : 0 < 2 ^ bits /\ 2 * 2 ^ bits < p.
Proof. split; [by apply Z.pow_pos_nonneg; lia |]. rewrite Z.pow_add_r in Hp by lia. lia. Qed.

Lemma range_check_is (v : Z) : 0 <= v < p -> range_check p w bits v <-> v < 2 ^ bits.
Proof. pose proof two_ranges. apply range_check_iff; [done | done | done | done | lia]. Qed.

Lemma copy_less_than_exact (strict : bool) (a b : Z) : 0 <= a < p -> 0 <= b < p ->
  copy_less_than p w bits strict a b <-> a < 2 ^ bits /\ if strict then a < b <= a + 2 ^ bits else a <= b < a + 2 ^ bits.
Proof.
  intros Ha Hb. destruct two_ranges as [H0 H2]. unfold copy_less_than, less_than_range_check, a_offset_gate. split.
  - intros (o & Ho & Hg & Hra & Hro). rewrite !gate_ok_cons in Hg. destruct Hg as (G1 & G2 & _). apply range_check_is in Hra, Hro; [| done..].
    split; [done |]. destruct strict.
    + rewrite Z.mul_1_l in G1. replace (o - 2 ^ bits + b - a) with (o - (a + 2 ^ bits - b)) in G1 by lia. apply congruent_cases in G1; lia.
    + rewrite Z.mul_1_l in G2. replace (o - 2 ^ bits + b - a + 1) with (o - (a + 2 ^ bits - b - 1)) in G2 by lia. apply congruent_cases in G2; lia.
  - intros [Hlt Hc]. exists (a + 2 ^ bits - b - if strict then 0 else 1). destruct strict.
    + split; [lia |]. split; [| by rewrite !range_check_is by lia; lia]. rewrite !gate_ok_cons. split_and!; [| | done].
      * rewrite Z.mul_1_l. replace (a + 2 ^ bits - b - 0 - 2 ^ bits + b - a) with 0 by lia. apply Z.mod_0_l. lia.
      * rewrite Z.mul_0_l. apply Z.mod_0_l. lia.
    + split; [lia |]. split; [| by rewrite !range_check_is by lia; lia]. rewrite !gate_ok_cons. split_and!; [| | done].
      * rewrite Z.mul_0_l. apply Z.mod_0_l. lia.
      * rewrite Z.mul_1_l. replace (a + 2 ^ bits - b - 1 - 2 ^ bits + b - a + 1) with 0 by lia. apply Z.mod_0_l. lia.
Qed.

(** With the output a bit, the offset is one of two differences. *)
Lemma output_offset (a b d1 d0 out : Z) (gate : Z -> list Z) :
  0 <= a < p -> - p <= d1 < p -> - p <= d0 < p -> out = 1 \/ out = 0 ->
  (forall o, gate o = [1 * out * (1 - out); 1 * (o - (out * d1 + (1 - out) * d0))]) ->
  (exists o, 0 <= o < p /\ gate_ok p (gate o) = true /\ less_than_range_check p w bits a o) <->
    a < 2 ^ bits /\ exists o, 0 <= o < 2 ^ bits /\ let d := if out =? 1 then d1 else d0 in (o = d \/ o = d + p).
Proof.
  intros Ha H1 H0 Hout Hgate. destruct two_ranges as [Hb0 Hb2]. unfold less_than_range_check. split.
  - intros (o & Ho & Hg & Hra & Hro). apply range_check_is in Hra, Hro; [| done..]. split; [done |]. exists o. split; [lia |].
    rewrite Hgate, !gate_ok_cons in Hg. destruct Hg as (_ & G & _). destruct Hout as [-> | ->]; cbn [Z.eqb Pos.eqb].
    + replace (1 * (o - (1 * d1 + (1 - 1) * d0))) with (o - d1) in G by lia. by apply congruent_cases in G.
    + replace (1 * (o - (0 * d1 + (1 - 0) * d0))) with (o - d0) in G by lia. by apply congruent_cases in G.
  - intros (Hlt & o & Ho & Hd). exists o. split; [lia |]. split; [| by rewrite !range_check_is by lia; lia]. rewrite Hgate, !gate_ok_cons.
    destruct Hout as [-> | ->]; cbn [Z.eqb Pos.eqb] in Hd; (split_and!; [apply Z.mod_0_l; lia | | done]).
    + replace (1 * (o - (1 * d1 + (1 - 1) * d0))) with (o - d1) by lia. apply congruent_eq; [lia | done].
    + replace (1 * (o - (0 * d1 + (1 - 0) * d0))) with (o - d0) by lia. apply congruent_eq; [lia | done].
Qed.

Lemma leq_out_exact (a b out : Z) : 0 <= a < p -> 0 <= b < p -> out = 1 \/ out = 0 ->
  copy_less_than_or_equal_with_output p w bits a b out <->
    a < 2 ^ bits /\ if out =? 1 then a <= b < a + 2 ^ bits else b < a \/ a + p - 2 ^ bits <= b.
Proof.
  intros Ha Hb Hout. destruct two_ranges as [Hb0 Hb2]. unfold copy_less_than_or_equal_with_output.
  rewrite (output_offset a b (b - a) (a - b - 1) out) by (done || lia).
  split.
  - intros (Hlt & o & Ho & Hd). split; [done |]. destruct Hout as [-> | ->]; cbn [Z.eqb Pos.eqb] in *; lia.
  - intros (Hlt & Hc). split; [done |]. destruct Hout as [-> | ->]; cbn [Z.eqb Pos.eqb] in *.
    + exists (b - a). lia.
    + destruct (decide (b < a)); [exists (a - b - 1) | exists (a - b - 1 + p)]; lia.
Qed.

Lemma lt_out_exact (a b out : Z) : 0 <= a < p -> 0 <= b < p -> out = 1 \/ out = 0 ->
  copy_less_than_strict_with_output p w bits a b out <->
    a < 2 ^ bits /\ if out =? 1 then a < b <= a + 2 ^ bits else b <= a \/ a + p - 2 ^ bits < b.
Proof.
  intros Ha Hb Hout. destruct two_ranges as [Hb0 Hb2]. unfold copy_less_than_strict_with_output.
  rewrite (output_offset a b (b - a - 1) (a - b) out) by (done || lia). split.
  - intros (Hlt & o & Ho & Hd). split; [done |]. destruct Hout as [-> | ->]; cbn [Z.eqb Pos.eqb] in *; lia.
  - intros (Hlt & Hc). split; [done |]. destruct Hout as [-> | ->]; cbn [Z.eqb Pos.eqb] in *.
    + exists (b - a - 1). lia.
    + destruct (decide (b <= a)); [exists (a - b) | exists (a - b + p)]; lia.
Qed.

End Compare.

(** C39: the comparisons of the circuits, over the field they use and with the
    windows they use.  A proof that [a < b] or [a <= b] exists only if it is so,
    with [a] below [2^253], and it exists exactly if [b] is within [2^253] of
    [a]; the same holds of an output one of the comparisons with an output. *)
Theorem comparisons_exact (a b : Z) : 0 <= a < PALLAS_P -> 0 <= b < PALLAS_P ->
  (copy_less_than PALLAS_P K COMPARED_BITS true a b <-> a < 2 ^ 253 /\ a < b <= a + 2 ^ 253) /\
  (copy_less_than PALLAS_P K COMPARED_BITS false a b <-> a < 2 ^ 253 /\ a <= b < a + 2 ^ 253) /\
  (copy_less_than_or_equal_with_output PALLAS_P K COMPARED_BITS a b 1 <-> a < 2 ^ 253 /\ a <= b < a + 2 ^ 253) /\
  (copy_less_than_strict_with_output PALLAS_P K COMPARED_BITS a b 1 <-> a < 2 ^ 253 /\ a < b <= a + 2 ^ 253).
Proof.
  intros Ha Hb. change 253 with COMPARED_BITS.
  assert (0 < K) as HK by done. assert (0 < COMPARED_BITS) as HB by done. assert (PALLAS_P mod 2 = 1) as Ho by done.
  assert (2 ^ (2 * K) <= PALLAS_P) as HW by (by apply Z.leb_le). assert (2 ^ (COMPARED_BITS + 1) < PALLAS_P) as HP by (by apply Z.ltb_lt).
  split_and!.
  - exact (copy_less_than_exact PALLAS_P K COMPARED_BITS Ho HK HB HW HP true a b Ha Hb).
  - exact (copy_less_than_exact PALLAS_P K COMPARED_BITS Ho HK HB HW HP false a b Ha Hb).
  - exact (leq_out_exact PALLAS_P K COMPARED_BITS Ho HK HB HW HP a b 1 Ha Hb (or_introl eq_refl)).
  - exact (lt_out_exact PALLAS_P K COMPARED_BITS Ho HK HB HW HP a b 1 Ha Hb (or_introl eq_refl)).
Qed.

Lemma comparisons_exact_witness : copy_less_than PALLAS_P K COMPARED_BITS true 3 5 <-> 3 < 2 ^ 253 /\ 3 < 5 <= 3 + 2 ^ 253.
Proof. apply (comparisons_exact 3 5); split; [lia | by apply Z.ltb_lt | lia | by apply Z.ltb_lt]. Defined.

(** C40: the second operand of a comparison with an output is not checked to be
    in range, and near the modulus the output can be forged: for [a] below
    [2^253] and [b] at least [a + p - 2^253] a proof exists that [a <= b] does
    not hold, and none that it does. *)
Theorem comparison_output_forgeable (a b : Z) : 0 <= a < 2 ^ 253 -> a + PALLAS_P - 2 ^ 253 <= b < PALLAS_P ->
  a <= b /\ copy_less_than_or_equal_with_output PALLAS_P K COMPARED_BITS a b 0 /\ ~ copy_less_than_or_equal_with_output PALLAS_P K COMPARED_BITS a b 1.
Proof.
  change 253 with COMPARED_BITS. intros Ha Hb.
  assert (0 < K) as HK by done. assert (0 < COMPARED_BITS) as HB by done. assert (PALLAS_P mod 2 = 1) as Ho by done.
  assert (2 ^ (2 * K) <= PALLAS_P) as HW by (by apply Z.leb_le). assert (2 ^ (COMPARED_BITS + 1) < PALLAS_P) as HP by (by apply Z.ltb_lt).
  assert (2 * 2 ^ COMPARED_BITS < PALLAS_P) as H2 by (by apply Z.ltb_lt). assert (0 < 2 ^ COMPARED_BITS) as H0 by done. split; [lia |].
  pose proof (leq_out_exact PALLAS_P K COMPARED_BITS Ho HK HB HW HP a b) as Hex.
  rewrite (Hex 0), (Hex 1) by (lia || auto). cbn [Z.eqb Pos.eqb]. lia.
Qed.

Lemma comparison_output_forgeable_witness :
  0 <= PALLAS_P - 1 /\ copy_less_than_or_equal_with_output PALLAS_P K COMPARED_BITS 0 (PALLAS_P - 1) 0 /\
  ~ copy_less_than_or_equal_with_output PALLAS_P K COMPARED_BITS 0 (PALLAS_P - 1) 1.
Proof. apply (comparison_output_forgeable 0 (PALLAS_P - 1)); split; [lia | by apply Z.ltb_lt | by apply Z.leb_le | lia]. Defined.
