(* ===== verification/ZkField.v ===== *)
(** * Division in the circuit field

    [BaseDiv] of [src/zk/vm.rs] divides by raising the divisor to [p - 2].  That
    is division because [p], the order of the Pallas base field, is prime: the
    file proves Fermat's theorem, checks the primality of [PALLAS_P] with
    Pocklington certificates, and follows square and multiply bit by bit. *)

From Stdlib Require Import Znumtheory Zpow_facts.
From S2P Require Import Prelude Serial ZkGadget ZkSound.

(** ** Fermat's little theorem *)

Definition product (l : list Z) : Z := fold_right Z.mul 1 l.

Lemma product_permutation (l l' : list Z) : Permutation l l' -> product l = product l'.
Proof.
  induction 1 as [|x l l' _ IH|x y l|l l' l'' _ IH1 _ IH2]; [done | | | congruence]; unfold product in *; cbn [fold_right]; [by rewrite IH |].
  rewrite !Z.mul_assoc. f_equal. apply Z.mul_comm.
Qed.

Lemma product_scaled (p b : Z) (l : list Z) : 0 < p -> product (map (fun k => b * k mod p) l) mod p = (b ^ Z.of_nat (length l) * product l) mod p.
Proof.
  intros Hp. induction l as [|k l IH]; [done |]. cbn [map product fold_right length]. fold (product l). fold (product (map (fun k => b * k mod p) l)).
  rewrite Nat2Z.inj_succ, Z.pow_succ_r by lia. rewrite Zmult_mod, IH, <- Zmult_mod, Zmult_mod_idemp_l. f_equal. lia.
Qed.

Lemma product_nonzero (p : Z) (l : list Z) : prime p -> Forall (fun k => k mod p <> 0) l -> product l mod p <> 0.
Proof.
  intros Hp. pose proof (prime_ge_2 p Hp). induction 1 as [|k l Hk _ IH]; cbn [product fold_right]; [rewrite Z.mod_1_l; lia |].
  intros E. apply prime_product in E as [E|E]; done.
Qed.

Lemma fermat (p b : Z) : prime p -> b mod p <> 0 -> b ^ (p - 1) mod p = 1.
Proof.
  intros Hp Hb. pose proof (prime_ge_2 p Hp) as H2. set (l := map Z.of_nat (seq 1 (Z.to_nat (p - 1)))).
  assert (forall k, In k l <-> 1 <= k < p) as Hin.
  { intros k. unfold l. rewrite in_map_iff. setoid_rewrite in_seq. split; [intros (n & <- & Hn); lia |]. intros Hk. exists (Z.to_nat k). lia. }
  assert (Permutation (map (fun k => b * k mod p) l) l) as Hperm.
  { apply Stdlib.Sorting.Permutation.NoDup_Permutation_bis.
    - unfold l. rewrite map_map. apply NoDup_ListNoDup, NoDup_fmap_2_strong; [| apply NoDup_seq].
      intros x y Hx%elem_of_seq Hy%elem_of_seq E. enough (Z.of_nat x - Z.of_nat y = 0) by lia. apply (mod_zero_small p); [lia |].
      assert ((b * (Z.of_nat x - Z.of_nat y)) mod p = 0) as E0.
      { rewrite Z.mul_sub_distr_l, Zminus_mod, E, Z.sub_diag. apply Z.mod_0_l. lia. }
      apply prime_product in E0 as [E0|E0]; done.
    - rewrite length_map. done.
    - intros x (k & <- & Hk)%in_map_iff. apply Hin. apply Hin in Hk. pose proof (Z.mod_pos_bound (b * k) p ltac:(lia)).
      assert ((b * k) mod p <> 0); [| lia]. intros E. apply prime_product in E as [E|E]; [done | rewrite Z.mod_small in E by lia; lia | done]. }
  assert (product l mod p <> 0) as Hne.
  { apply product_nonzero; [done |]. apply Forall_forall. intros k Hk%list_elem_of_In%Hin. rewrite Z.mod_small by lia. lia. }
  assert (Z.of_nat (length l) = p - 1) as Hl by (unfold l; rewrite length_map, length_seq; lia).
  pose proof (product_scaled p b l ltac:(lia)) as E. rewrite (product_permutation _ _ Hperm), Hl in E.
  assert (((b ^ (p - 1) - 1) * product l) mod p = 0) as E0.
  { rewrite Z.mul_sub_distr_r, Zminus_mod, <- E, Z.mul_1_l, Z.sub_diag. apply Z.mod_0_l. lia. }
  apply prime_product in E0 as [E0|E0]; [| done | done]. apply mod_unique_small; [lia | done].
Qed.

(** ** Primality certificates *)

Lemma prime_factor (n : Z) : 1 < n -> exists r, prime r /\ (r | n).
Proof.
  induction n as [n IH] using (well_founded_ind (Z.lt_wf 1)). intros Hn.
  destruct (prime_dec n) as [Hp|Hp]; [by exists n |].
  destruct (not_prime_divide n Hn Hp) as (d & Hd & Hdn). destruct (IH d) as (r & Hr & Hrd); [lia | lia |].
  exists r. split; [done |]. by apply (Z.divide_trans r d n).
Qed.

(** A number is prime when no prime [r] with [r * r <= n] divides it. *)
Lemma prime_of_factors (n : Z) : 1 < n -> (forall r, prime r -> (r | n) -> n < r * r) -> prime n.
Proof.
  intros Hn H. destruct (prime_dec n) as [?|Hp]; [done | exfalso]. destruct (not_prime_divide n Hn Hp) as (d & Hd & [e He]).
  assert (1 < e) by nia.
  assert (exists c, 1 < c /\ c * c <= n /\ (c | n)) as (c & Hc & Hcc & Hcn).
  { destruct (decide (d <= e)); [exists d | exists e]; (split; [lia | split; [nia |]]); [by exists e | exists d; lia]. }
  destruct (prime_factor c Hc) as (r & Hr & Hrc). pose proof (prime_ge_2 r Hr). apply Z.divide_pos_le in Hrc as Hle; [| lia].
  assert (n < r * r) by (apply H; [done | by apply (Z.divide_trans r c n)]). nia.
Qed.

(** Trial division by [2 .. m]. *)
Definition no_divisor (n : Z) (m : nat) : bool := forallb (fun k => negb (n mod Z.of_nat k =? 0)) (seq 2 (m - 1)).

Lemma prime_by_trial (n : Z) (m : nat) : 1 < n -> n < (Z.of_nat m + 1) * (Z.of_nat m + 1) -> no_divisor n m = true -> prime n.
Proof.
  intros Hn Hm H. apply prime_of_factors; [done |]. intros r Hr Hrn. pose proof (prime_ge_2 r Hr). destruct (decide (Z.of_nat m < r)) as [|Hle]; [nia | exfalso].
  unfold no_divisor in H. rewrite forallb_forall in H. specialize (H (Z.to_nat r)). rewrite Z2Nat.id in H by lia.
  assert (n mod r = 0) as E by (apply mod_zero_iff; [lia | done]). rewrite E in H. enough (negb (0 =? 0) = true) by done. apply H, in_seq. lia.
Qed.

(** [2] certifies that every prime factor of [n] is [1] modulo [q]. *)
Definition certifies (n q : Z) : bool :=
  ((n - 1) mod q =? 0) && (Zpow_mod 2 (n - 1) n =? 1) && (Z.gcd (Zpow_mod 2 ((n - 1) / q) n - 1) n =? 1).

Lemma power_mod_divisor (r n x k : Z) : 0 < r -> 0 < n -> (r | n) -> (x ^ k mod n) mod r = x ^ k mod r.
Proof. intros Hr Hn [c Hc]. subst n. rewrite (Z.mul_comm c r). rewrite Z.rem_mul_r by nia. rewrite Z.mul_comm, Z_mod_plus_full. by rewrite Z.mod_mod by lia. Qed.

Lemma certified_factor (n q r : Z) : 1 < n -> prime q -> certifies n q = true -> prime r -> (r | n) -> (q | r - 1).
Proof.
  intros Hn Hq H Hr Hrn. unfold certifies in H. rewrite !andb_true_iff, !Z.eqb_eq, !Zpow_mod_correct in H by lia. destruct H as [[Hd H1] Hg].
  pose proof (prime_ge_2 q Hq). pose proof (prime_ge_2 r Hr). set (m := (n - 1) / q) in *.
  assert (n - 1 = q * m) as Hm by (pose proof (Z.div_mod (n - 1) q); lia). assert (0 <= m) by nia.
  destruct (Zdivide_dec q (r - 1)) as [|Hnd]; [done | exfalso].
  assert (2 ^ (n - 1) mod r = 1) as E1 by (rewrite <- (power_mod_divisor r n), H1 by (lia || done); apply Z.mod_1_l; lia).
  assert (2 ^ m mod r <> 1) as E2.
  { intros E. rewrite <- (power_mod_divisor r n) in E by (lia || done). assert ((r | 2 ^ m mod n - 1)) as Hdv.
    { apply mod_zero_iff; [lia |]. rewrite Zminus_mod, E, (Z.mod_1_l r), Z.sub_diag by lia. apply Z.mod_0_l. lia. }
    pose proof (Z.gcd_greatest _ _ r Hdv Hrn) as Hone. rewrite Hg in Hone. apply Z.divide_pos_le in Hone; lia. }
  assert (2 mod r <> 0) as Hnz.
  { intros E. rewrite Zpower_mod, E, Z.pow_0_l, Z.mod_0_l in E1 by lia. done. }
  pose proof (fermat r 2 Hr Hnz) as HF.
  destruct (rel_prime_bezout _ _ (prime_rel_prime q Hq (r - 1) Hnd)) as [u v Huv].
  assert (r <> 2) by (intros ->; done). set (u' := u mod (r - 1)). pose proof (Z.mod_pos_bound u (r - 1)). pose proof (Z.div_mod u (r - 1)).
  set (w := (u' * q - 1) / (r - 1)). assert (u' * q - 1 = (r - 1) * w) as Hw.
  { apply Z_div_exact_full_2; [lia |]. apply mod_zero_iff; [lia |]. exists (- v - q * (u / (r - 1))). unfold u' in *. nia. }
  assert (0 <= u') by lia. assert (0 <= w) by nia. apply E2.
  transitivity (2 ^ (m * (u' * q)) mod r).
  - replace (m * (u' * q)) with (m + (r - 1) * (w * m)) by nia.
    rewrite Z.pow_add_r, (Z.pow_mul_r 2 (r - 1)) by nia. rewrite Zmult_mod, (Zpower_mod (2 ^ (r - 1))), HF, Z.pow_1_l, (Z.mod_1_l r), Z.mul_1_r by nia. by rewrite Z.mod_mod by lia.
  - replace (m * (u' * q)) with ((n - 1) * u') by nia. rewrite Z.pow_mul_r, Zpower_mod, E1, Z.pow_1_l by lia. apply Z.mod_1_l. lia.
Qed.

(** The certificate covers the square root of [n] with one or two primes. *)
Lemma prime_by_certificate (n q : Z) : 1 < n -> prime q -> n < q * q -> certifies n q = true -> prime n.
Proof.
  intros Hn Hq Hlt Hc. apply prime_of_factors; [done |]. intros r Hr Hrn. pose proof (prime_ge_2 r Hr). pose proof (prime_ge_2 q Hq).
  assert (q <= r - 1) by (apply Z.divide_pos_le; [lia | by apply (certified_factor n)]). nia.
Qed.

Lemma prime_by_certificates (n q q' : Z) : 1 < n -> prime q -> prime q' -> q <> q' -> n < q * q' * (q * q') -> certifies n q = true -> certifies n q' = true -> prime n.
Proof.
  intros Hn Hq Hq' Hne Hlt Hc Hc'. apply prime_of_factors; [done |]. intros r Hr Hrn. pose proof (prime_ge_2 r Hr). pose proof (prime_ge_2 q Hq). pose proof (prime_ge_2 q' Hq').
  assert (q * q' <= r - 1); [| nia]. apply Z.divide_pos_le; [lia |].
  destruct (certified_factor n q r) as [c Hcq]; try done. apply (certified_factor n q' r) in Hc' as Hd; try done.
  assert ((q' | c)) as [e He]; [| exists e; lia]. rewrite Hcq in Hd. apply (Gauss q' q c); [by rewrite Z.mul_comm |].
  apply prime_rel_prime; [done |]. intros Hdq. apply (prime_div_prime q' q) in Hdq; [lia | done | done].
Qed.

Ltac certificate := lazymatch goal with |- _ = true => vm_compute; reflexivity | |- prime _ => assumption | |- _ => by vm_compute end.

Lemma prime_6942563 : prime 6942563.
Proof.
  assert (prime 977) by (apply (prime_by_trial _ 31); certificate). assert (prime 19) by (apply (prime_by_trial _ 4); certificate).
  apply (prime_by_certificates _ 977 19); certificate.
Qed.

Lemma prime_22160661629 : prime 22160661629.
Proof.
  pose proof prime_6942563. assert (prime 41655379) by (apply (prime_by_certificate _ 6942563); certificate).
  apply (prime_by_certificate _ 41655379); certificate.
Qed.

Lemma prime_325086459374267 : prime 325086459374267.
Proof.
  assert (prime 413527) by (apply (prime_by_trial _ 643); certificate). assert (prime 772231) by (apply (prime_by_trial _ 878); certificate).
  apply (prime_by_certificates _ 413527 772231); certificate.
Qed.

Lemma pallas_prime : prime PALLAS_P.
Proof.
  pose proof prime_22160661629. pose proof prime_325086459374267.
  assert (prime 8999194758858563409123804352480028797519453) by (apply (prime_by_certificates _ 325086459374267 22160661629); certificate).
  apply (prime_by_certificate _ 8999194758858563409123804352480028797519453); certificate.
Qed.

(** ** Square and multiply *)

Lemma byte_bit (b i : Z) : 0 <= i -> Z.odd (b / 2 ^ i) = Z.testbit b i.
Proof. intros Hi. by rewrite Z.testbit_odd, Z.shiftr_div_pow2. Qed.

Lemma bit_set_spec (bytes : list Z) (i : nat) : Forall is_byte bytes -> (i < 8 * length bytes)%nat -> bit_set bytes i = Z.testbit (from_le_bytes bytes) (Z.of_nat i).
Proof.
  intros Hb Hi. unfold bit_set. rewrite (Z.land_ones _ 1), <- Z.bit0_mod, Z.shiftr_spec, Z.add_0_l by lia.
  transitivity (Z.testbit (nth (i / 8) bytes 0) (Z.of_nat (i mod 8))); [by destruct (Z.testbit _ _) |].
  revert i Hi. induction Hb as [|b bs Hb _ IH]; intros i Hi; [cbn in Hi; lia |]. cbn [from_le_bytes length] in *. unfold is_byte in Hb.
  change 256 with (2 ^ 8). destruct (decide (i < 8)%nat) as [Hs|Hs].
  - rewrite Nat.div_small, Nat.mod_small by lia. cbn [nth]. rewrite <- (Z.mod_pow2_bits_low (b + _) 8) by lia.
    rewrite Z.mul_comm, Z_mod_plus_full, Z.mod_small by lia. done.
  - assert (i = 8 + (i - 8))%nat as Ei by lia. set (j := (i - 8)%nat) in *. rewrite Ei.
    replace ((8 + j) / 8)%nat with (S (j / 8)) by (change (8 + j)%nat with (1 * 8 + j)%nat; rewrite Nat.div_add_l; lia).
    replace ((8 + j) mod 8)%nat with (j mod 8)%nat by (rewrite (Nat.add_comm 8 j); change (j + 8)%nat with (j + 1 * 8)%nat; by rewrite Nat.Div0.mod_add).
    cbn [nth]. rewrite IH by lia. replace (Z.of_nat (8 + j)) with (Z.of_nat j + 8) by lia. rewrite <- Z.div_pow2_bits by lia.
    rewrite (Z.mul_comm (2 ^ 8)), Z.div_add, Z.div_small by lia. done.
Qed.

Lemma next_bits (e i : Z) : 0 <= i -> e mod 2 ^ (i + 1) = e mod 2 ^ i + (if Z.testbit e i then 2 ^ i else 0).
Proof.
  intros Hi. rewrite Z.pow_add_r, Z.pow_1_r, Z.rem_mul_r by lia. f_equal. rewrite <- Z.testbit_spec' by done. destruct (Z.testbit e i); cbn [Z.b2z]; lia.
Qed.

Lemma pow_loop_spec (p b : Z) (bytes : list Z) (n i : nat) (result current : Z) :
  1 < p -> Forall is_byte bytes -> (S i + n <= 8 * length bytes)%nat -> 0 <= result < p ->
  let E := from_le_bytes bytes in
  result = b ^ (E mod 2 ^ Z.of_nat (S i)) mod p -> current mod p = b ^ (2 ^ Z.of_nat i) mod p ->
  pow_loop p bytes n (S i) result current = b ^ (E mod 2 ^ Z.of_nat (S i + n)) mod p.
Proof.
  intros Hp Hb. cbn zeta. set (E := from_le_bytes bytes). revert i result current. induction n as [|n IH]; intros i result current Hlen Hres Hr Hc; cbn [pow_loop].
  - by rewrite Nat.add_0_r.
  - assert (current * current mod p = b ^ (2 ^ Z.of_nat (S i)) mod p) as Hsq.
    { rewrite Zmult_mod, Hc, <- Zmult_mod, <- Z.pow_add_r, Z.add_diag, Nat2Z.inj_succ, Z.pow_succ_r by (try apply Z.pow_nonneg; lia). done. }
    replace (S i + S n)%nat with (S (S i) + n)%nat by lia. apply IH; [lia | | |].
    + destruct (bit_set bytes (S i)); [apply Z.mod_pos_bound; lia | done].
    + rewrite (Nat2Z.inj_succ (S i)), <- Z.add_1_r, next_bits, bit_set_spec by (done || lia). fold E. destruct (Z.testbit E (Z.of_nat (S i))).
      * rewrite Hsq, Hr, <- Zmult_mod, <- Z.pow_add_r by (apply Z.mod_pos_bound || apply Z.pow_nonneg; lia). done.
      * by rewrite Z.add_0_r.
    + rewrite Z.mod_mod by lia. done.
Qed.

Lemma pow_loop_power (p b : Z) (bytes : list Z) :
  1 < p -> Forall is_byte bytes -> length bytes = 32%nat -> from_le_bytes bytes < 2 ^ 255 -> bit_set bytes 0 = true -> 0 <= b < p ->
  pow_loop p bytes 254 1 b b = b ^ from_le_bytes bytes mod p.
Proof.
  intros Hp Hb Hlen Hlt H0 Hrange. pose proof (from_le_bytes_bound bytes Hb). rewrite (pow_loop_spec p b).
  - change (Z.of_nat (1 + 254)) with 255. by rewrite (Z.mod_small (from_le_bytes bytes)) by lia.
  - done.
  - done.
  - lia.
  - done.
  - rewrite bit_set_spec in H0 by (done || lia). change (Z.of_nat 1) with (0 + 1). rewrite next_bits by lia. change (Z.of_nat 0) with 0 in H0.
    rewrite H0, Z.pow_0_r, Z.mod_1_r, Z.add_0_l, Z.pow_1_r. by rewrite Z.mod_small.
  - by rewrite Z.pow_0_r, Z.pow_1_r.
Qed.

Lemma quotient_unique (p b q q' : Z) : prime p -> b mod p <> 0 -> 0 <= q < p -> 0 <= q' < p -> q * b mod p = q' * b mod p -> q = q'.
Proof.
  intros Hp Hb Hq Hq' E. assert (((q - q') * b) mod p = 0) as E0 by (rewrite Z.mul_sub_distr_r, Zminus_mod, E, Z.sub_diag; apply Z.mod_0_l; lia).
  apply prime_product in E0 as [E0|E0]; [apply mod_zero_small in E0; lia | done | done].
Qed.

(** What multiplying the computed quotient back by the divisor gives. *)
Lemma base_div_product (p a b : Z) (bytes : list Z) :
  1 < p -> Forall is_byte bytes -> length bytes = 32%nat -> from_le_bytes bytes < 2 ^ 255 -> bit_set bytes 0 = true -> 0 <= b < p ->
  base_div p bytes a b * b mod p = a * b ^ (from_le_bytes bytes + 1) mod p.
Proof.
  intros Hp Hb Hlen Hlt H0 Hrange. pose proof (from_le_bytes_bound bytes Hb). unfold base_div. rewrite pow_loop_power by done. rewrite Zmult_mod_idemp_l.
  rewrite Z.pow_add_r, Z.pow_1_r by lia. set (x := b ^ from_le_bytes bytes). replace (a * (x mod p) * b) with (x mod p * (a * b)) by lia. rewrite Zmult_mod_idemp_l. f_equal. lia.
Qed.

(** The square and multiply of [BaseDiv] is division when the bytes are those
    of the field order minus two: it returns the one element whose product with
    the divisor is the dividend, and zero when the divisor is zero.  (The order
    of the Pallas base field is proved prime.) *)
Lemma base_div_divides (bytes : list Z) (a b : Z) :
  Forall is_byte bytes -> length bytes = 32%nat -> from_le_bytes bytes = PALLAS_P - 2 -> 0 <= a < PALLAS_P -> 0 <= b < PALLAS_P ->
  let q := base_div PALLAS_P bytes a b in
  (b = 0 -> q = 0) /\
  (b <> 0 -> forall x, 0 <= x < PALLAS_P -> x = q <-> x * b mod PALLAS_P = a).
Proof.
  intros Hby Hlen HE Ha Hb. assert (2 < PALLAS_P) as Hp by (by vm_compute). pose proof pallas_prime as Hpr. cbn zeta.
  assert (from_le_bytes bytes < 2 ^ 255) as Hlt by (rewrite HE; by vm_compute).
  assert (bit_set bytes 0 = true) as H0 by (rewrite bit_set_spec, HE by (done || lia); by vm_compute). split.
  - intros ->. unfold base_div. rewrite pow_loop_power, HE, Z.pow_0_l, Z.mod_0_l, Z.mul_0_r by (done || lia). apply Z.mod_0_l. lia.
  - intros Hz x Hx. assert (b mod PALLAS_P <> 0) as Hnz by (rewrite Z.mod_small; lia).
    assert (base_div PALLAS_P bytes a b * b mod PALLAS_P = a) as E.
    { rewrite base_div_product, HE by (done || lia). replace (PALLAS_P - 2 + 1) with (PALLAS_P - 1) by lia.
      rewrite Zmult_mod, fermat, Z.mul_1_r, Z.mod_mod by (done || lia). by apply Z.mod_small. }
    split; [by intros -> |]. intros Ex. apply (quotient_unique PALLAS_P b); try done; [| congruence]. unfold base_div. apply Z.mod_pos_bound. lia.
Qed.

Lemma base_div_divides_witness : base_div PALLAS_P (to_le_bytes 32 (PALLAS_P - 2)) 6 3 = 2 /\ base_div PALLAS_P (to_le_bytes 32 (PALLAS_P - 2)) 6 0 = 0.
Proof.
  split.
  - destruct (base_div_divides (to_le_bytes 32 (PALLAS_P - 2)) 6 3) as (_ & H);
      [apply to_le_bytes_are_bytes | apply to_le_bytes_length | by vm_compute | by vm_compute | by vm_compute |]. symmetry. apply H; [done | by vm_compute | by vm_compute].
  - destruct (base_div_divides (to_le_bytes 32 (PALLAS_P - 2)) 6 0) as (H & _);
      [apply to_le_bytes_are_bytes | apply to_le_bytes_length | by vm_compute | by vm_compute | by vm_compute |]. by apply H.
Defined.

Lemma power_inverse (p b e : Z) (n : Z) : prime p -> b mod p <> 0 -> 0 <= e -> 0 <= n -> n + e = p - 1 -> b ^ n mod p = 1 <-> b ^ e mod p = 1.
Proof.
  intros Hp Hb He Hn Hsum. pose proof (fermat p b Hp Hb) as HF. rewrite <- Hsum, Z.pow_add_r, Zmult_mod in HF by lia. pose proof (prime_ge_2 p Hp).
  split; intros E; rewrite E in HF; [rewrite Z.mul_1_l in HF | rewrite Z.mul_1_r in HF]; by rewrite Z.mod_mod in HF by lia.
Qed.

(** C33: The exponent [BaseDiv] spells out is not the field order minus two (byte
    9 is [0xcf] where it has [0xf9]), so the opcode does not divide: its result
    times the divisor is the dividend only when the dividend is zero or the
    divisor is a root of unity of order dividing [42 * 2^72]. *)
Theorem base_div_does_not_divide (a b : Z) :
  0 <= a < PALLAS_P -> 0 < b < PALLAS_P ->
  from_le_bytes PALLAS_P_MINUS_2 = PALLAS_P - 2 - 42 * 2 ^ 72 /\
  (base_div PALLAS_P PALLAS_P_MINUS_2 a b * b mod PALLAS_P = a <-> a = 0 \/ b ^ (42 * 2 ^ 72) mod PALLAS_P = 1).
Proof.
  intros Ha Hb. assert (2 < PALLAS_P) as Hp by (by vm_compute). pose proof pallas_prime as Hpr. assert (b mod PALLAS_P <> 0) as Hnz by (rewrite Z.mod_small; lia).
  assert (from_le_bytes PALLAS_P_MINUS_2 = PALLAS_P - 2 - 42 * 2 ^ 72) as HE by (vm_compute; reflexivity). split; [done |].
  rewrite base_div_product; [| lia | apply forallb_is_byte; by vm_compute | done | by vm_compute | by vm_compute | lia].
  rewrite HE. set (n := PALLAS_P - 2 - 42 * 2 ^ 72 + 1). assert (0 <= n) as Hn by (by vm_compute).
  rewrite <- (power_inverse PALLAS_P b (42 * 2 ^ 72) n) by (done || unfold n; lia). split.
  - intros E. destruct (decide (a = 0)) as [|Hz]; [by left | right]. assert ((a * (b ^ n - 1)) mod PALLAS_P = 0) as E0.
    { rewrite Z.mul_sub_distr_l, Z.mul_1_r, Zminus_mod, E, (Z.mod_small a), Z.sub_diag by lia. apply Z.mod_0_l. lia. }
    apply prime_product in E0 as [E0|E0]; [rewrite Z.mod_small in E0; lia | | done]. apply mod_unique_small; [lia | done].
  - intros [-> | E]; [rewrite Z.mul_0_l; apply Z.mod_0_l; lia |]. rewrite Zmult_mod, E, Z.mul_1_r, Z.mod_mod by lia. by apply Z.mod_small.
Qed.

Lemma base_div_does_not_divide_witness : base_div PALLAS_P PALLAS_P_MINUS_2 6 3 * 3 mod PALLAS_P <> 6.
Proof.
  destruct (base_div_does_not_divide 6 3) as [_ H]; [by vm_compute | by vm_compute |]. intros E. apply H in E as [E|E]; [done |].
  rewrite <- Zpow_mod_correct in E by done. vm_compute in E. done.
Defined.
