(* ===== verification/Smt.v ===== *)
(** * Sparse Merkle trees ([src/sdk/src/crypto/smt/mod.rs], [util.rs])

    A tree of depth [N] whose leaves are field elements, kept in a store of the
    nodes that were ever written: a node that is absent has the value of the
    empty tree at its level.  Field elements are their canonical integers, the
    hash of two of them is a parameter, and the store is a finite map, as
    [MemoryStorage] is.  [None] is a panic (an index outside [empty_nodes], an
    [unwrap] of the root's parent, a failed assertion).

    The tree is shown to be the Merkle tree of the map of its leaves after any
    batches of insertions and removals, and its paths to prove exactly what the
    map holds: another path that verifies yields two different pairs, one hashed
    on each path at the same height, with the same hash. *)

From S2P Require Import Prelude.

(** ** Indexes ([util.rs]) *)

Definition leaf_pos_to_index (N : nat) (pos : Z) : Z := (Z.shiftl 1 (Z.of_nat N) - 1) + pos.
Definition log2 (x : Z) : Z := Z.log2 (x + 1).
Definition left_child (index : Z) : Z := 2 * index + 1.
Definition right_child (index : Z) : Z := 2 * index + 2.
Definition is_left_child (index : Z) : bool := index mod 2 =? 1.
Definition parent (index : Z) : option Z := if 0 <? index then Some (Z.shiftr (index - 1) 1) else None.
Definition sibling (index : Z) : option Z :=
  if index =? 0 then None else if is_left_child index then Some (index + 1) else Some (index - 1).

Record SparseMerkleTree := { store : gmap Z Z; empty_nodes : list Z }.

Section Smt.
Context (hash : Z -> Z -> Z) (N : nat).

Definition get_node (t : SparseMerkleTree) (idx : Z) : option Z :=
  empty_node ← empty_nodes t !! Z.to_nat (log2 idx); Some (default empty_node (store t !! idx)).
Definition put_node (key value : Z) (t : SparseMerkleTree) : SparseMerkleTree := {| store := <[key := value]> (store t); empty_nodes := empty_nodes t |}.
Definition remove_node (key : Z) (t : SparseMerkleTree) : SparseMerkleTree := {| store := delete key (store t); empty_nodes := empty_nodes t |}.

(** One round of [recompute_tree]: the dirty nodes of a level; the loop breaks at
    the root. *)
Fixpoint recompute_level (t : SparseMerkleTree) (dirty_idxs new_dirty_idxs : list Z) : option (SparseMerkleTree * list Z) :=
  match dirty_idxs with
  | [] => Some (t, new_dirty_idxs)
  | idx :: rest =>
      left ← get_node t (left_child idx);
      right ← get_node t (right_child idx);
      let t := put_node idx (hash left right) t in
      match parent idx with
      | Some parent_idx => recompute_level t rest (new_dirty_idxs ++ [parent_idx])
      | None => Some (t, new_dirty_idxs)
      end
  end.

Fixpoint recompute (rounds : nat) (t : SparseMerkleTree) (dirty_idxs : list Z) : option SparseMerkleTree :=
  match rounds with
  | O => Some t
  | S rounds' => '(t, dirty_idxs) ← recompute_level t dirty_idxs []; recompute rounds' t dirty_idxs
  end.
Definition recompute_tree (t : SparseMerkleTree) (dirty_idxs : list Z) : option SparseMerkleTree := recompute (N + 1) t dirty_idxs.

(** The loop over the leaves of a batch. *)
Fixpoint write_leaves (write : Z -> Z -> SparseMerkleTree -> SparseMerkleTree) (leaves : list (Z * Z)) (t : SparseMerkleTree) (dirty_idxs : list Z) :
    option (SparseMerkleTree * list Z) :=
  match leaves with
  | [] => Some (t, dirty_idxs)
  | (pos, leaf) :: rest =>
      let idx := leaf_pos_to_index N pos in
      parent_idx ← parent idx;
      write_leaves write rest (write idx leaf t) (dirty_idxs ++ [parent_idx])
  end.

Definition insert_batch (leaves : list (Z * Z)) (t : SparseMerkleTree) : option SparseMerkleTree :=
  match leaves with [] => Some t | _ => '(t, dirty_idxs) ← write_leaves put_node leaves t []; recompute_tree t dirty_idxs end.
Definition remove_leaves (leaves : list (Z * Z)) (t : SparseMerkleTree) : option SparseMerkleTree :=
  match leaves with [] => Some t | _ => '(t, dirty_idxs) ← write_leaves (fun idx _ => remove_node idx) leaves t []; recompute_tree t dirty_idxs end.

Definition smt_root (t : SparseMerkleTree) : option Z := get_node t 0.
Definition get_leaf (pos : Z) (t : SparseMerkleTree) : option Z := get_node t (leaf_pos_to_index N pos).

(** [prove_membership]: [path] holds the siblings from below the root down. *)
Fixpoint climb (levels : nat) (t : SparseMerkleTree) (current_idx : Z) (path : list Z) : option (list Z) :=
  match levels with
  | O => Some path
  | S levels' =>
      sibling_idx ← sibling current_idx;
      sibling_node ← get_node t sibling_idx;
      parent_idx ← parent current_idx;
      climb levels' t parent_idx (sibling_node :: path)
  end.
Definition prove_membership (pos : Z) (t : SparseMerkleTree) : option (list Z) := climb N t (leaf_pos_to_index N pos) [].

(** [Path::verify]: from the end of the path, bit [i] of the position at height [i]. *)
Fixpoint walk (siblings : list Z) (pos i current_node : Z) : Z :=
  match siblings with
  | [] => current_node
  | sibling_node :: rest =>
      let is_right := Z.testbit pos i in
      walk rest pos (i + 1) (if is_right then hash sibling_node current_node else hash current_node sibling_node)
  end.
Definition path_root (path : list Z) (leaf pos : Z) : Z := walk (rev path) pos 0 leaf.
Definition bits (x : Z) : Z := if x =? 0 then 0 else Z.log2 x + 1.
Definition verify (path : list Z) (root leaf pos : Z) : option bool :=
  if bits pos <=? Z.of_nat N then Some (path_root path leaf pos =? root) else None.

(** [gen_empty_nodes]: filled from the last entry, the empty leaf, to the root. *)
Fixpoint fill_empty (n : nat) (empty_node : Z) (filled : list Z) : list Z :=
  match n with O => filled | S n' => fill_empty n' (hash empty_node empty_node) (empty_node :: filled) end.
Definition gen_empty_nodes (M : nat) (empty_leaf : Z) : list Z := fill_empty M empty_leaf [].

Definition new_smt (empty_leaf : Z) : SparseMerkleTree := {| store := ∅; empty_nodes := gen_empty_nodes (N + 1) empty_leaf |}.

(** ** The values of the nodes

    A node is numbered [1] for the root and [2 h], [2 h + 1] for the children of
    [h], one more than its index. *)

Definition value (t : SparseMerkleTree) (h : Z) : Z := default (nth (Z.to_nat (Z.log2 h)) (empty_nodes t) 0) (store t !! (h - 1)).
Definition consistent (t : SparseMerkleTree) (h : Z) : Prop := value t h = hash (value t (2 * h)) (value t (2 * h + 1)).
Definition smt_wf (t : SparseMerkleTree) : Prop := length (empty_nodes t) = S N /\ forall h, 1 <= h < 2 ^ Z.of_nat N -> consistent t h.

(** Indexes of one level. *)
Definition at_level (l : Z) (idxs : list Z) : Prop := Forall (fun i => 0 <= i /\ log2 i = l) idxs.

Lemma level_bounds (l i : Z) : 0 <= i -> log2 i = l -> 0 <= l /\ 2 ^ l <= i + 1 < 2 ^ (l + 1).
Proof. intros Hi <-. unfold log2. pose proof (Z.log2_nonneg (i + 1)). pose proof (Z.log2_spec (i + 1)). rewrite <- Z.add_1_r in *. lia. Qed.

Lemma level_of (l i : Z) : 0 <= l -> 2 ^ l <= i + 1 < 2 ^ (l + 1) -> log2 i = l.
Proof. intros Hl Hi. unfold log2. apply Z.log2_unique; [lia |]. by rewrite <- Z.add_1_r. Qed.

Lemma get_node_value (t : SparseMerkleTree) (i l : Z) : length (empty_nodes t) = S N -> 0 <= i -> log2 i = l -> l <= Z.of_nat N -> get_node t i = Some (value t (i + 1)).
Proof.
  intros Hlen Hi Hl HN. pose proof (level_bounds l i Hi Hl). unfold get_node, value. rewrite Hl. unfold log2 in Hl. rewrite Hl. replace (i + 1 - 1) with i by lia.
  destruct (lookup_lt_is_Some_2 (empty_nodes t) (Z.to_nat l)) as [e He]; [lia |]. rewrite He. cbn. by rewrite (nth_lookup_Some _ _ _ _ He).
Qed.

Lemma value_put (t : SparseMerkleTree) (k v h : Z) : value (put_node k v t) h = if decide (h = k + 1) then v else value t h.
Proof.
  unfold value, put_node; cbn. destruct (decide (h = k + 1)) as [->|Hne].
  - replace (k + 1 - 1) with k by lia. by rewrite lookup_insert_eq.
  - by rewrite lookup_insert_ne by lia.
Qed.

Lemma children_level (l i : Z) : 0 <= i -> log2 i = l -> log2 (left_child i) = l + 1 /\ log2 (right_child i) = l + 1.
Proof.
  intros Hi Hl. destruct (level_bounds l i Hi Hl) as [Hl0 Hb]. rewrite (Z.pow_add_r 2 l 1) in Hb by lia.
  unfold left_child, right_child. split; apply level_of; rewrite ?(Z.pow_add_r 2 (l + 1) 1), ?(Z.pow_add_r 2 l 1); lia.
Qed.

Lemma parent_level (l i : Z) : 0 <= i -> log2 i = l ->
  match parent i with Some p => 0 <= p /\ log2 p = l - 1 /\ (i = left_child p \/ i = right_child p) | None => i = 0 /\ l = 0 end.
Proof.
  intros Hi Hl. destruct (level_bounds l i Hi Hl) as [Hl0 Hb]. unfold parent. destruct (0 <? i) eqn:E; [| assert (i = 0) as -> by lia; done].
  rewrite Z.shiftr_div_pow2 by lia. change (2 ^ 1) with 2. pose proof (Z.div_mod (i - 1) 2). pose proof (Z.mod_pos_bound (i - 1) 2).
  set (q := (i - 1) / 2) in *. unfold left_child, right_child. split; [lia | split; [| lia]].
  assert (l <> 0) by (intros ->; cbn in Hb; lia). apply level_of; [lia |]. replace l with (l - 1 + 1) in Hb by lia.
  rewrite (Z.pow_add_r 2 (l - 1 + 1) 1) in Hb by lia. rewrite (Z.pow_add_r 2 (l - 1) 1) in * by lia. lia.
Qed.

(** ** Recomputation restores the hashes

    A write leaves at most the parent of the written node inconsistent. *)

Lemma consistent_put (t : SparseMerkleTree) (k h : Z) (v : Z) :
  0 <= k -> 1 <= h -> consistent t h -> h <> k + 1 -> parent k <> Some (h - 1) -> consistent (put_node k v t) h.
Proof.
  intros Hk Hh H Hne Hp. unfold consistent. rewrite !value_put. unfold parent in Hp.
  destruct (decide (h = k + 1)); [done |].
  assert (2 * h <> k + 1 /\ 2 * h + 1 <> k + 1) as [H1 H2].
  { destruct (0 <? k) eqn:E; [| lia]. rewrite Z.shiftr_div_pow2 in Hp by lia. change (2 ^ 1) with 2 in Hp.
    assert ((k - 1) / 2 <> h - 1) by congruence. pose proof (Z.div_mod (k - 1) 2). pose proof (Z.mod_pos_bound (k - 1) 2). lia. }
  by rewrite !decide_False.
Qed.

Lemma consistent_recomputed (t : SparseMerkleTree) (k : Z) :
  0 <= k -> consistent (put_node k (hash (value t (left_child k + 1)) (value t (right_child k + 1))) t) (k + 1).
Proof.
  intros Hk. unfold consistent, left_child, right_child. rewrite !value_put. rewrite decide_True by done. rewrite !decide_False by lia.
  f_equal; f_equal; lia.
Qed.

(** What the rounds leave alone: the empty nodes and the leaves. *)
Definition same_leaves (t t' : SparseMerkleTree) : Prop :=
  empty_nodes t' = empty_nodes t /\ forall i, 0 <= i -> Z.of_nat N <= log2 i -> store t' !! i = store t !! i.

Lemma same_leaves_refl (t : SparseMerkleTree) : same_leaves t t.
Proof. done. Qed.

Lemma same_leaves_trans (t t' t'' : SparseMerkleTree) : same_leaves t t' -> same_leaves t' t'' -> same_leaves t t''.
Proof. intros [E1 H1] [E2 H2]. split; [congruence |]. intros i Hi Hl. by rewrite H2, H1. Qed.

Lemma same_leaves_put (t : SparseMerkleTree) (k v l : Z) : log2 k = l -> l < Z.of_nat N -> same_leaves t (put_node k v t).
Proof. intros Hk Hl. split; [done |]. intros i Hi Hlv. cbn. apply lookup_insert_ne. intros ->. lia. Qed.

Definition clean_but (t : SparseMerkleTree) (dirty : list Z) : Prop := forall h, 1 <= h < 2 ^ Z.of_nat N -> (h - 1) ∉ dirty -> consistent t h.

Lemma recompute_level_spec (l : Z) (dirty next : list Z) (t : SparseMerkleTree) :
  length (empty_nodes t) = S N -> l < Z.of_nat N -> at_level l dirty -> at_level (l - 1) next -> clean_but t (dirty ++ next) ->
  exists t' next', recompute_level t dirty next = Some (t', next') /\ same_leaves t t' /\ at_level (l - 1) next' /\ clean_but t' next'.
Proof.
  intros Hlen Hl Hd. revert t next Hlen. induction Hd as [|k rest [Hk Hkl] Hrest IH]; intros t next Hlen Hn Hc; cbn [recompute_level].
  { exists t, next. done. }
  destruct (children_level l k Hk Hkl) as [HL HR]. rewrite !(get_node_value t _ (l + 1)) by (done || unfold left_child, right_child in *; lia). cbn [mbind option_bind].
  set (t1 := put_node k _ t). pose proof (parent_level l k Hk Hkl) as Hp.
  assert (same_leaves t t1) as Hs by (by apply (same_leaves_put t k _ l)).
  assert (clean_but t1 (rest ++ next ++ (match parent k with Some q => [q] | None => [] end))) as Hc1.
  { intros h Hh Hni. rewrite !not_elem_of_app in Hni. destruct Hni as (Hni1 & Hni2 & Hni3). destruct (decide (h = k + 1)) as [-> | Hne]; [by apply consistent_recomputed |].
    apply consistent_put; [done | lia | | done |].
    - apply Hc; [done |]. rewrite not_elem_of_app, not_elem_of_cons. split; [split; [lia | done] | done].
    - intros Eq. rewrite Eq in Hni3. by rewrite list_elem_of_singleton in Hni3. }
  destruct (parent k) as [q|] eqn:Eq.
  - destruct Hp as (Hq & Hql & _). destruct (IH t1 (next ++ [q])) as (t' & next' & HE & Hs' & Hn' & Hc'); [by rewrite (proj1 Hs) | | done |].
    { apply Forall_app. split; [done |]. by constructor. }
    exists t', next'. split; [done |]. split; [by apply (same_leaves_trans t t1) | done].
  - destruct Hp as [-> ->]. exists t1, next. split; [done | split; [done | split; [done |]]]. intros h Hh Hni. destruct (decide (h = 1)) as [-> |]; [by apply (consistent_recomputed t 0) |].
    apply Hc1; [done |]. rewrite app_nil_r, not_elem_of_app. split; [| done]. intros Hin. rewrite Forall_forall in Hrest. destruct (Hrest _ Hin) as [H0 H1].
    apply level_bounds in H1; [cbn in H1; lia | done].
Qed.

Lemma recompute_spec (rounds : nat) (l : Z) (dirty : list Z) (t : SparseMerkleTree) :
  length (empty_nodes t) = S N -> l < Z.of_nat N -> l < Z.of_nat rounds -> at_level l dirty -> clean_but t dirty ->
  exists t', recompute rounds t dirty = Some t' /\ same_leaves t t' /\ smt_wf t'.
Proof.
  revert l dirty t. induction rounds as [|rounds IH]; intros l dirty t Hlen Hl Hr Hd Hc; cbn [recompute].
  - assert (dirty = []) as ->. { destruct Hd as [|k ? [Hk Hkl]]; [done | apply level_bounds in Hkl; lia]. }
    exists t. split; [done | split; [done |]]. split; [done |]. intros h Hh. apply Hc; [done | by apply not_elem_of_nil].
  - destruct (recompute_level_spec l dirty [] t) as (t1 & next & HE & Hs & Hn & Hc1); [done | done | done | constructor | by rewrite app_nil_r |].
    rewrite HE. cbn [mbind option_bind]. destruct (IH (l - 1) next t1) as (t' & HE' & Hs' & Hw); [by rewrite (proj1 Hs) | lia | lia | done | done |].
    exists t'. split; [done | split; [by apply (same_leaves_trans t t1) | done]].
Qed.

(** ** Batches update the map of leaves *)

(** The tree holds the leaves of [m]. *)
Definition holds_leaves (t : SparseMerkleTree) (m : gmap Z Z) : Prop :=
  forall pos, 0 <= pos < 2 ^ Z.of_nat N -> store t !! leaf_pos_to_index N pos = m !! pos.

Definition in_tree (pos : Z) : Prop := 0 <= pos < 2 ^ Z.of_nat N.

Lemma leaf_index (pos : Z) : in_tree pos -> 0 <= leaf_pos_to_index N pos /\ log2 (leaf_pos_to_index N pos) = Z.of_nat N /\ leaf_pos_to_index N pos = 2 ^ Z.of_nat N - 1 + pos.
Proof.
  unfold in_tree, leaf_pos_to_index. intros Hp. rewrite Z.shiftl_1_l. split; [lia | split; [| done]]. apply level_of; [lia |]. rewrite Z.pow_add_r by lia. lia.
Qed.

(** A write of a leaf: what is put there, or nothing. *)
Definition writes (write : Z -> Z -> SparseMerkleTree -> SparseMerkleTree) (f : Z -> option Z) : Prop :=
  forall idx v t, store (write idx v t) = partial_alter (fun _ => f v) idx (store t) /\ empty_nodes (write idx v t) = empty_nodes t.

Lemma put_writes : writes put_node Some.
Proof. done. Qed.
Lemma remove_writes : writes (fun idx _ => remove_node idx) (fun _ => None).
Proof. done. Qed.

Lemma value_write (write : Z -> Z -> SparseMerkleTree -> SparseMerkleTree) (f : Z -> option Z) (t : SparseMerkleTree) (idx v h : Z) :
  writes write f -> h <> idx + 1 -> value (write idx v t) h = value t h.
Proof. intros Hw Hh. unfold value. destruct (Hw idx v t) as [-> ->]. by rewrite lookup_partial_alter_ne by lia. Qed.

Lemma write_leaves_spec (write : Z -> Z -> SparseMerkleTree -> SparseMerkleTree) (f : Z -> option Z) (leaves : list (Z * Z)) (t : SparseMerkleTree) (dirty : list Z) (m : gmap Z Z) :
  (0 < N)%nat -> writes write f -> Forall (fun e => in_tree e.1) leaves -> at_level (Z.of_nat N - 1) dirty -> clean_but t dirty -> holds_leaves t m ->
  exists t' dirty', write_leaves write leaves t dirty = Some (t', dirty') /\ empty_nodes t' = empty_nodes t /\ at_level (Z.of_nat N - 1) dirty' /\ clean_but t' dirty' /\
    holds_leaves t' (fold_left (fun m e => partial_alter (fun _ => f e.2) e.1 m) leaves m).
Proof.
  intros HN Hw Hl. revert t dirty m. induction Hl as [|[pos v] leaves Hpos _ IH]; intros t dirty m Hd Hc Hm; cbn [write_leaves fold_left fst snd]; [by exists t, dirty |].
  cbn [fst] in Hpos. destruct (leaf_index pos Hpos) as (Hi & Hil & Hie). pose proof (parent_level _ _ Hi Hil) as Hp.
  destruct (parent (leaf_pos_to_index N pos)) as [q|] eqn:Eq; [| lia]. destruct Hp as (Hq & Hql & Hqi). cbn [mbind option_bind].
  destruct (Hw (leaf_pos_to_index N pos) v t) as [Hst Hem]. destruct (IH (write (leaf_pos_to_index N pos) v t) (dirty ++ [q]) (partial_alter (fun _ => f v) pos m)) as (t' & dirty' & HE & He & Hd' & Hc' & Hm').
  - apply Forall_app. split; [done | by constructor].
  - intros h Hh Hni. rewrite not_elem_of_app, list_elem_of_singleton in Hni. destruct Hni as [Hni1 Hni2]. unfold consistent, left_child, right_child, in_tree in *.
    rewrite !(value_write write f) by (done || lia). by apply Hc.
  - intros p Hp. rewrite Hst. destruct (decide (p = pos)) as [-> | Hne].
    + by rewrite !lookup_partial_alter_eq.
    + destruct (leaf_index p Hp) as (_ & _ & Hpe). rewrite !lookup_partial_alter_ne by lia. by apply Hm.
  - exists t', dirty'. split; [done |]. by rewrite He, Hem.
Qed.

Lemma same_leaves_holds (t t' : SparseMerkleTree) (m : gmap Z Z) : same_leaves t t' -> holds_leaves t m -> holds_leaves t' m.
Proof. intros [_ H] Hm pos Hp. destruct (leaf_index pos Hp) as (Hi & Hil & _). rewrite H by lia. by apply Hm. Qed.

Lemma batch_spec (write : Z -> Z -> SparseMerkleTree -> SparseMerkleTree) (f : Z -> option Z) (leaves : list (Z * Z)) (t : SparseMerkleTree) (m : gmap Z Z) :
  (0 < N)%nat -> writes write f -> Forall (fun e => in_tree e.1) leaves -> smt_wf t -> holds_leaves t m ->
  exists t', ('(t, dirty_idxs) ← write_leaves write leaves t []; recompute_tree t dirty_idxs) = Some t' /\ empty_nodes t' = empty_nodes t /\ smt_wf t' /\
    holds_leaves t' (fold_left (fun m e => partial_alter (fun _ => f e.2) e.1 m) leaves m).
Proof.
  intros HN Hw Hl [Hlen Hwf] Hm. destruct (write_leaves_spec write f leaves t [] m) as (t1 & dirty & HE & He & Hd & Hc & Hm1); [done | done | done | constructor | | done |].
  { intros h Hh _. by apply Hwf. }
  rewrite HE. cbn [mbind option_bind]. destruct (recompute_spec (N + 1) (Z.of_nat N - 1) dirty t1) as (t' & HE' & Hs & Hw'); [congruence | lia | lia | done | done |].
  exists t'. split; [done |]. split; [by rewrite (proj1 Hs) |]. split; [done | by apply (same_leaves_holds t1)].
Qed.

(** Operations on the tree and on the map of its leaves. *)
Inductive SmtOp := InsertBatch (leaves : list (Z * Z)) | RemoveLeaves (leaves : list (Z * Z)).
Definition op_leaves (o : SmtOp) : list (Z * Z) := match o with InsertBatch l | RemoveLeaves l => l end.
Definition run_op (o : SmtOp) (t : SparseMerkleTree) : option SparseMerkleTree :=
  match o with InsertBatch l => insert_batch l t | RemoveLeaves l => remove_leaves l t end.
Definition map_op (m : gmap Z Z) (o : SmtOp) : gmap Z Z :=
  match o with InsertBatch l => fold_left (fun m e => <[e.1 := e.2]> m) l m | RemoveLeaves l => fold_left (fun m e => delete e.1 m) l m end.
Fixpoint run_ops (os : list SmtOp) (t : SparseMerkleTree) : option SparseMerkleTree :=
  match os with [] => Some t | o :: rest => t ← run_op o t; run_ops rest t end.

Lemma run_op_spec (o : SmtOp) (t : SparseMerkleTree) (m : gmap Z Z) :
  (0 < N)%nat -> Forall (fun e => in_tree e.1) (op_leaves o) -> smt_wf t -> holds_leaves t m ->
  exists t', run_op o t = Some t' /\ empty_nodes t' = empty_nodes t /\ smt_wf t' /\ holds_leaves t' (map_op m o).
Proof.
  intros HN Hl Hwf Hm. destruct o as [[|e l]|[|e l]]; cbn [run_op insert_batch remove_leaves map_op fold_left op_leaves] in *; try by exists t.
  - apply (batch_spec put_node Some (e :: l)); done.
  - apply (batch_spec (fun idx _ => remove_node idx) (fun _ => None) (e :: l)); done.
Qed.

Lemma run_ops_spec (os : list SmtOp) (t : SparseMerkleTree) (m : gmap Z Z) :
  (0 < N)%nat -> Forall (fun o => Forall (fun e => in_tree e.1) (op_leaves o)) os -> smt_wf t -> holds_leaves t m ->
  exists t', run_ops os t = Some t' /\ empty_nodes t' = empty_nodes t /\ smt_wf t' /\ holds_leaves t' (fold_left map_op os m).
Proof.
  intros HN Ho. revert t m. induction Ho as [|o os Ho _ IH]; intros t m Hwf Hm; cbn [run_ops fold_left]; [by exists t |].
  destruct (run_op_spec o t m) as (t1 & HE & He & Hw1 & Hm1); try done. rewrite HE. cbn [mbind option_bind].
  destruct (IH t1 (map_op m o)) as (t' & HE' & He' & Hw' & Hm'); try done. exists t'. by rewrite He', He.
Qed.

(** ** The Merkle tree of a map

    [merkle leaf n q] is the node above the [2^n] leaves from [q * 2^n] on. *)

Fixpoint merkle (leaf : Z -> Z) (n : nat) (q : Z) : Z :=
  match n with O => leaf q | S n' => hash (merkle leaf n' (2 * q)) (merkle leaf n' (2 * q + 1)) end.

Lemma merkle_ext (leaf leaf' : Z -> Z) (n : nat) (q : Z) :
  (forall x, q * 2 ^ Z.of_nat n <= x < (q + 1) * 2 ^ Z.of_nat n -> leaf x = leaf' x) -> merkle leaf n q = merkle leaf' n q.
Proof.
  revert q. induction n as [|n IH]; intros q H; cbn [merkle]; [apply H; cbn; lia |]. rewrite Nat2Z.inj_succ, Z.pow_succ_r in H by lia.
  rewrite (IH (2 * q)), (IH (2 * q + 1)); [done | |]; intros x Hx; apply H; lia.
Qed.

Lemma value_merkle (t : SparseMerkleTree) (n : nat) (q : Z) :
  smt_wf t -> (n <= N)%nat -> 0 <= q < 2 ^ Z.of_nat (N - n) -> value t (2 ^ Z.of_nat (N - n) + q) = merkle (fun pos => value t (2 ^ Z.of_nat N + pos)) n q.
Proof.
  intros [_ Hwf]. revert q. induction n as [|n IH]; intros q Hn Hq; cbn [merkle]; [by rewrite Nat.sub_0_r |].
  assert (Z.of_nat (N - n) = Z.of_nat (N - S n) + 1) as E by lia. assert (2 ^ Z.of_nat (N - S n) <= 2 ^ (Z.of_nat N - 1)) by (apply Z.pow_le_mono_r; lia).
  assert (2 ^ Z.of_nat N = 2 * 2 ^ (Z.of_nat N - 1)) as E2 by (rewrite <- Z.pow_succ_r by lia; f_equal; lia).
  rewrite Hwf by lia. rewrite E, Z.pow_add_r, Z.pow_1_r in IH by lia. rewrite <- !IH by lia. f_equal; f_equal; lia.
Qed.

Lemma leaf_value (t : SparseMerkleTree) (m : gmap Z Z) (e pos : Z) :
  holds_leaves t m -> in_tree pos -> nth N (empty_nodes t) 0 = e -> value t (2 ^ Z.of_nat N + pos) = default e (m !! pos).
Proof.
  intros Hm Hp He. destruct (leaf_index pos Hp) as (Hi & Hil & Hie). unfold value. replace (2 ^ Z.of_nat N + pos - 1) with (leaf_pos_to_index N pos) by lia. rewrite Hm by done.
  replace (2 ^ Z.of_nat N + pos) with (leaf_pos_to_index N pos + 1) by lia. fold (log2 (leaf_pos_to_index N pos)). by rewrite Hil, Nat2Z.id, He.
Qed.

Lemma root_merkle (t : SparseMerkleTree) (m : gmap Z Z) (e : Z) :
  smt_wf t -> holds_leaves t m -> nth N (empty_nodes t) 0 = e -> value t 1 = merkle (fun pos => default e (m !! pos)) N 0.
Proof.
  intros Hwf Hm He. pose proof (value_merkle t N 0 Hwf ltac:(lia)) as H. rewrite Nat.sub_diag in H. change (2 ^ Z.of_nat 0 + 0) with 1 in H. rewrite H by (cbn; lia).
  apply merkle_ext. intros x Hx. apply leaf_value; [done | unfold in_tree; lia | done].
Qed.

(** ** The empty tree *)

Fixpoint empty_at (n : nat) (e : Z) : Z := match n with O => e | S n' => hash (empty_at n' e) (empty_at n' e) end.

Lemma empty_at_succ (n : nat) (e : Z) : empty_at n (hash e e) = empty_at (S n) e.
Proof. induction n as [|n IH]; [done |]. cbn [empty_at] in *. by rewrite IH. Qed.

Lemma fill_empty_spec (n : nat) (e : Z) (l : list Z) : exists l', fill_empty n e l = l' ++ l /\ length l' = n /\ forall i, (i < n)%nat -> nth i l' 0 = empty_at (n - 1 - i) e.
Proof.
  revert e l. induction n as [|n IH]; intros e l; cbn [fill_empty]; [exists []; split; [done | split; [done | intros i Hi; lia]] |].
  destruct (IH (hash e e) (e :: l)) as (l' & -> & Hl & H). exists (l' ++ [e]). rewrite <- app_assoc, length_app. cbn. split; [done | split; [lia |]].
  intros i Hi. destruct (decide (i < n)%nat) as [Hin|Hin].
  - rewrite app_nth1, H, empty_at_succ by lia. f_equal. lia.
  - replace i with n by lia. rewrite app_nth2, Hl, Nat.sub_diag by lia. cbn. by replace (n - 0 - n)%nat with O by lia.
Qed.

Lemma new_smt_spec (e : Z) : smt_wf (new_smt e) /\ holds_leaves (new_smt e) ∅ /\ nth N (empty_nodes (new_smt e)) 0 = e.
Proof.
  destruct (fill_empty_spec (N + 1) e []) as (l & El & Hl & H). unfold new_smt, gen_empty_nodes, smt_wf, holds_leaves, consistent, value; cbn [empty_nodes store].
  rewrite El, app_nil_r. split; [split; [lia |] | split].
  - intros h Hh. rewrite !lookup_empty. cbn [default]. pose proof (Z.log2_nonneg h). assert (Z.log2 h < Z.of_nat N) by (apply Z.log2_lt_pow2; lia).
    rewrite Z.log2_double, Z.log2_succ_double, !H by lia. replace (N + 1 - 1 - Z.to_nat (Z.log2 h))%nat with (S (N + 1 - 1 - Z.to_nat (Z.succ (Z.log2 h)))) by lia. done.
  - intros pos _. by rewrite !lookup_empty.
  - rewrite H by lia. by replace (N + 1 - 1 - N)%nat with O by lia.
Qed.

(** ** Paths *)

(** The ancestors of a leaf are its number without its lowest bits. *)
Definition ancestor (pos : Z) (j : Z) : Z := (2 ^ Z.of_nat N + pos) / 2 ^ j.

Lemma ancestor_step (pos j : Z) : in_tree pos -> 0 <= j < Z.of_nat N ->
  ancestor pos j = 2 * ancestor pos (j + 1) + (if Z.testbit pos j then 1 else 0) /\ 1 <= ancestor pos (j + 1) < 2 ^ Z.of_nat N.
Proof.
  unfold in_tree, ancestor. intros Hp Hj. set (x := 2 ^ Z.of_nat N + pos). assert (Z.testbit pos j = Z.testbit x j) as ->.
  { unfold x. rewrite <- (Z.mod_pow2_bits_low (2 ^ Z.of_nat N + pos) (Z.of_nat N) j) by lia. rewrite <- (Z.mul_1_l (2 ^ Z.of_nat N)) at 1.
    rewrite Z.add_comm, Z_mod_plus_full, Z.mod_small by lia. done. }
  rewrite Z.pow_add_r, Z.pow_1_r by lia. rewrite <- Z.div_div by lia. set (y := x / 2 ^ j). assert (Z.testbit x j = Z.odd y) as -> by (unfold y; rewrite Z.testbit_odd, Z.shiftr_div_pow2 by lia; done).
  pose proof (Z.div_mod y 2 ltac:(lia)) as E. rewrite Zmod_odd in E. split; [destruct (Z.odd y); lia |].
  assert (2 ^ (j + 1) <= 2 ^ Z.of_nat N) by (apply Z.pow_le_mono_r; lia). assert (0 < 2 ^ j) by (apply Z.pow_pos_nonneg; lia). assert (0 < 2 ^ (j + 1)) by (apply Z.pow_pos_nonneg; lia).
  unfold y. rewrite Z.div_div by lia. replace (2 ^ j * 2) with (2 ^ (j + 1)) by (rewrite Z.pow_add_r; lia). split; [apply Z.div_le_lower_bound; unfold x; lia |].
  apply Z.div_lt_upper_bound; [lia |]. unfold x. rewrite Z.pow_add_r by lia. nia.
Qed.

(** The siblings of a leaf, from the bottom up. *)
Fixpoint siblings_from (t : SparseMerkleTree) (pos : Z) (j : Z) (n : nat) : list Z :=
  match n with
  | O => []
  | S n' => value t (if Z.testbit pos j then 2 * ancestor pos (j + 1) else 2 * ancestor pos (j + 1) + 1) :: siblings_from t pos (j + 1) n'
  end.

Lemma climb_spec (t : SparseMerkleTree) (pos : Z) (n : nat) (j : Z) (path : list Z) :
  smt_wf t -> in_tree pos -> 0 <= j -> j + Z.of_nat n = Z.of_nat N -> climb n t (ancestor pos j - 1) path = Some (rev (siblings_from t pos j n) ++ path).
Proof.
  intros [Hlen _] Hp. revert j path. induction n as [|n IH]; intros j path Hj Hn; [done |]. cbn [climb siblings_from rev].
  destruct (ancestor_step pos j Hp ltac:(lia)) as [E Hb]. set (a := ancestor pos (j + 1)) in *. rewrite E.
  assert (log2 (a - 1) < Z.of_nat N) as Hla by (unfold log2; replace (a - 1 + 1) with a by lia; apply Z.log2_lt_pow2; lia).
  destruct (children_level (log2 (a - 1)) (a - 1)) as [HL HR]; [lia | done |]. unfold left_child, right_child in HL, HR.
  unfold sibling, is_left_child, parent. destruct (Z.testbit pos j).
  - destruct (Z.eqb_spec (2 * a + 1 - 1) 0); [lia |]. replace ((2 * a + 1 - 1) mod 2) with 0 by (replace (2 * a + 1 - 1) with (a * 2) by lia; by rewrite Z_mod_mult).
    cbn [Z.eqb mbind option_bind]. rewrite (get_node_value t _ (log2 (a - 1) + 1)) by (done || lia || (replace (2 * a + 1 - 1 - 1) with (2 * (a - 1) + 1) by lia; done)).
    cbn [mbind option_bind]. replace (0 <? 2 * a + 1 - 1) with true by lia. cbn [mbind option_bind]. rewrite Z.shiftr_div_pow2 by lia. replace ((2 * a + 1 - 1 - 1) / 2 ^ 1) with (a - 1) by (apply (Z.div_unique _ 2 _ 1); lia).
    unfold a. rewrite IH by lia. fold a. rewrite <- app_assoc. cbn. do 3 f_equal. f_equal. lia.
  - destruct (Z.eqb_spec (2 * a + 0 - 1) 0); [lia |]. replace ((2 * a + 0 - 1) mod 2) with 1 by (replace (2 * a + 0 - 1) with (1 + (a - 1) * 2) by lia; by rewrite Z_mod_plus_full).
    cbn [Z.eqb Pos.eqb mbind option_bind]. rewrite (get_node_value t _ (log2 (a - 1) + 1)) by (done || lia || (replace (2 * a + 0 - 1 + 1) with (2 * (a - 1) + 2) by lia; done)).
    cbn [mbind option_bind]. replace (0 <? 2 * a + 0 - 1) with true by lia. cbn [mbind option_bind]. rewrite Z.shiftr_div_pow2 by lia. replace ((2 * a + 0 - 1 - 1) / 2 ^ 1) with (a - 1) by (apply (Z.div_unique _ 2 _ 0); lia).
    unfold a. rewrite IH by lia. fold a. rewrite <- app_assoc. cbn. do 3 f_equal. f_equal. lia.
Qed.

Lemma walk_spec (t : SparseMerkleTree) (pos : Z) (n : nat) (j : Z) :
  smt_wf t -> in_tree pos -> 0 <= j -> j + Z.of_nat n = Z.of_nat N -> walk (siblings_from t pos j n) pos j (value t (ancestor pos j)) = value t 1.
Proof.
  intros Hwf Hp. revert j. induction n as [|n IH]; intros j Hj Hn; cbn [walk siblings_from].
  - unfold in_tree in Hp. unfold ancestor. replace j with (Z.of_nat N) by lia. rewrite <- (Z.mul_1_l (2 ^ Z.of_nat N)) at 1. rewrite Z.div_add_l, Z.div_small by lia. done.
  - destruct (ancestor_step pos j Hp ltac:(lia)) as [E Hb]. rewrite E, <- (IH (j + 1)) by lia. f_equal.
    rewrite (proj2 Hwf (ancestor pos (j + 1))) by lia. destruct (Z.testbit pos j); f_equal; f_equal; lia.
Qed.

(** The pairs hashed on the way up, from the leaf to the root, and two such lists
    that show a collision: at one height the pairs differ and their hashes do
    not. *)
Fixpoint walk_pairs (siblings : list Z) (pos i cur : Z) : list (Z * Z) :=
  match siblings with
  | [] => []
  | s :: rest => let p := if Z.testbit pos i then (s, cur) else (cur, s) in p :: walk_pairs rest pos (i + 1) (hash p.1 p.2)
  end.
Definition path_pairs (path : list Z) (leaf pos : Z) : list (Z * Z) := walk_pairs (rev path) pos 0 leaf.
Definition collides (ps qs : list (Z * Z)) : Prop :=
  exists i x y, ps !! i = Some x /\ qs !! i = Some y /\ x <> y /\ hash x.1 x.2 = hash y.1 y.2.

(** Two walks to the same root start from the same leaf and siblings, or two of
    the pairs they hash collide. *)
Lemma walk_inj (s s' : list Z) (pos i x x' : Z) :
  length s = length s' -> walk s pos i x = walk s' pos i x' -> (s = s' /\ x = x') \/ collides (walk_pairs s pos i x) (walk_pairs s' pos i x').
Proof.
  revert s' i x x'. induction s as [|a s IH]; intros [|a' s'] i x x' Hl E; try done; cbn [walk] in E; [by left |].
  injection Hl as Hl. cbn [walk_pairs]. destruct (Z.testbit pos i); cbn [fst snd].
  all: apply IH in E as [[-> E]|(j & y & z & H)]; [| right; by exists (S j), y, z | done].
  - destruct (decide ((a, x) = (a', x'))) as [Eq|Hne]; [left; by simplify_eq | right; by exists 0%nat, (a, x), (a', x')].
  - destruct (decide ((x, a) = (x', a'))) as [Eq|Hne]; [left; by simplify_eq | right; by exists 0%nat, (x, a), (x', a')].
Qed.

Lemma siblings_length (t : SparseMerkleTree) (pos j : Z) (n : nat) : length (siblings_from t pos j n) = n.
Proof. revert j. induction n as [|n IH]; intros j; cbn; [done | by rewrite IH]. Qed.

Lemma verify_in_tree (path : list Z) (root leaf pos : Z) : in_tree pos -> verify path root leaf pos = Some (path_root path leaf pos =? root).
Proof.
  unfold in_tree, verify, bits. intros Hp. destruct (Z.eqb_spec pos 0); [by replace (0 <=? Z.of_nat N) with true by lia |].
  assert (Z.log2 pos < Z.of_nat N) by (apply Z.log2_lt_pow2; lia). by replace (Z.log2 pos + 1 <=? Z.of_nat N) with true by lia.
Qed.

Lemma leaf_ancestor (pos : Z) : in_tree pos -> leaf_pos_to_index N pos = ancestor pos 0 - 1.
Proof. intros Hp. destruct (leaf_index pos Hp) as (_ & _ & ->). unfold ancestor. rewrite Z.pow_0_r, Z.div_1_r. lia. Qed.

Lemma get_leaf_value (t : SparseMerkleTree) (pos : Z) : smt_wf t -> in_tree pos -> get_leaf pos t = Some (value t (ancestor pos 0)).
Proof.
  intros [Hlen _] Hp. destruct (leaf_index pos Hp) as (Hi & Hil & _). unfold get_leaf. rewrite (get_node_value t _ (Z.of_nat N)) by (done || lia). rewrite leaf_ancestor by done. do 2 f_equal. lia.
Qed.

Lemma smt_root_value (t : SparseMerkleTree) : smt_wf t -> smt_root t = Some (value t 1).
Proof. intros [Hlen _]. unfold smt_root. by rewrite (get_node_value t 0 0) by (done || lia). Qed.

Lemma ancestor_0 (t : SparseMerkleTree) (pos : Z) : value t (ancestor pos 0) = value t (2 ^ Z.of_nat N + pos).
Proof. unfold ancestor. by rewrite Z.pow_0_r, Z.div_1_r. Qed.

Lemma ancestor_bounds (pos : Z) : in_tree pos -> 1 <= ancestor pos 0 < 2 ^ (Z.of_nat N + 1).
Proof. unfold in_tree, ancestor. rewrite Z.pow_0_r, Z.div_1_r, Z.pow_add_r by lia. lia. Qed.

(** C9: Whatever batches are inserted and removed, the operations do not panic and
    the tree is the Merkle tree of the map they build: [get_leaf] is the lookup,
    with the empty leaf where nothing is, and the root is the hash of the leaves
    level by level. *)
Theorem smt_refines_map (e : Z) (os : list SmtOp) :
  (0 < N)%nat -> Forall (fun o => Forall (fun l => in_tree l.1) (op_leaves o)) os ->
  let m := fold_left map_op os ∅ in
  exists t, run_ops os (new_smt e) = Some t /\
    smt_root t = Some (merkle (fun pos => default e (m !! pos)) N 0) /\
    forall pos, in_tree pos -> get_leaf pos t = Some (default e (m !! pos)).
Proof.
  intros HN Ho. destruct (new_smt_spec e) as (Hw & Hm & He). destruct (run_ops_spec os (new_smt e) ∅) as (t & HE & Hem & Hw' & Hm'); try done.
  rewrite <- Hem in He. exists t. split; [done |]. split; [rewrite smt_root_value by done; f_equal; by apply root_merkle |].
  intros pos Hp. rewrite get_leaf_value, ancestor_0 by done. f_equal. by apply leaf_value.
Qed.

Lemma path_spec (t : SparseMerkleTree) (pos : Z) : smt_wf t -> in_tree pos ->
  let path := rev (siblings_from t pos 0 N) in
  prove_membership pos t = Some path /\ path_root path (value t (ancestor pos 0)) pos = value t 1 /\
  forall path' leaf', length path' = N -> path_root path' leaf' pos = value t 1 ->
    (path' = path /\ leaf' = value t (ancestor pos 0)) \/ collides (path_pairs path' leaf' pos) (path_pairs path (value t (ancestor pos 0)) pos).
Proof.
  intros Hw Hp. assert (path_root (rev (siblings_from t pos 0 N)) (value t (ancestor pos 0)) pos = value t 1) as Hroot by (unfold path_root; rewrite rev_involutive; by apply walk_spec).
  split; [| split; [done |]].
  - unfold prove_membership. rewrite leaf_ancestor, climb_spec, app_nil_r by (done || lia). done.
  - intros path' leaf' Hl Hv. rewrite <- Hroot in Hv. unfold path_root in Hv. rewrite rev_involutive in Hv.
    apply walk_inj in Hv as [[Hs ->]|?]; [left; split; [by rewrite <- Hs, rev_involutive | done] | right | by rewrite length_rev, siblings_length].
    unfold path_pairs. by rewrite rev_involutive.
Qed.

(** Every node of a tree of elements with some property has it. *)
Lemma value_all (P : Z -> Prop) (t : SparseMerkleTree) (m : gmap Z Z) (e h : Z) :
  smt_wf t -> holds_leaves t m -> nth N (empty_nodes t) 0 = e -> P e -> map_Forall (fun _ => P) m -> (forall a b, P a -> P b -> P (hash a b)) ->
  1 <= h < 2 ^ (Z.of_nat N + 1) -> P (value t h).
Proof.
  intros Hw Hm He HPe HPm HPh Hh. pose proof (Z.log2_nonneg h). assert (Z.log2 h < Z.of_nat N + 1) by (apply Z.log2_lt_pow2; lia). pose proof (Z.log2_spec h ltac:(lia)) as Hs. rewrite Z.pow_succ_r in Hs by lia.
  set (n := (N - Z.to_nat (Z.log2 h))%nat). assert (Z.of_nat (N - n) = Z.log2 h) as En by lia.
  replace h with (2 ^ Z.of_nat (N - n) + (h - 2 ^ Z.log2 h)) by (rewrite En; lia). rewrite value_merkle by (done || rewrite ?En; lia).
  assert (forall k q, (k <= N)%nat -> 0 <= q < 2 ^ Z.of_nat (N - k) -> P (merkle (fun pos => value t (2 ^ Z.of_nat N + pos)) k q)) as Hall; [| apply Hall; rewrite ?En; lia].
  clear - Hm He HPe HPm HPh. induction k as [|k IH]; intros q Hk Hq; cbn [merkle].
  - rewrite (leaf_value t m e) by (done || (unfold in_tree; rewrite Nat.sub_0_r in Hq; done)). destruct (m !! q) as [v|] eqn:E; [by apply (HPm q v) | done].
  - assert (Z.of_nat (N - k) = Z.of_nat (N - S k) + 1) as E by lia. rewrite E, Z.pow_add_r, Z.pow_1_r in IH by lia. apply HPh; apply IH; lia.
Qed.

Lemma map_op_all (P : Z -> Prop) (os : list SmtOp) (m : gmap Z Z) :
  map_Forall (fun _ => P) m -> Forall (fun o => Forall (fun l => P l.2) (op_leaves o)) os -> map_Forall (fun _ => P) (fold_left map_op os m).
Proof.
  intros Hm Ho. revert m Hm. induction Ho as [|o os Ho _ IH]; intros m Hm; cbn [fold_left]; [done |]. apply IH. destruct o as [l|l]; cbn [map_op op_leaves] in *.
  - revert m Hm. induction Ho as [|x l Hx _ IH']; intros m Hm; cbn [fold_left]; [done |]. apply IH'. by apply map_Forall_insert_2.
  - revert m Hm. induction Ho as [|x l Hx _ IH']; intros m Hm; cbn [fold_left]; [done |]. apply IH'. by apply map_Forall_delete.
Qed.

Lemma siblings_all (P : Z -> Prop) (t : SparseMerkleTree) (pos j : Z) (n : nat) :
  in_tree pos -> 0 <= j -> j + Z.of_nat n = Z.of_nat N -> (forall h, 1 <= h < 2 ^ (Z.of_nat N + 1) -> P (value t h)) -> Forall P (siblings_from t pos j n).
Proof.
  intros Hp Hj Hn H. revert j Hj Hn. induction n as [|n IH]; intros j Hj Hn; constructor; [| apply IH; lia].
  destruct (ancestor_step pos j Hp ltac:(lia)) as [_ Hb]. apply H. rewrite Z.pow_add_r by lia. destruct (Z.testbit pos j); lia.
Qed.

(** In every such tree the path of a position verifies against the root with
    the leaf held there, and any path and leaf that verify are those, unless at
    one height the two paths hash different pairs to the same value. *)
Lemma smt_paths_exact (e : Z) (os : list SmtOp) (t : SparseMerkleTree) (pos : Z) :
  (0 < N)%nat -> Forall (fun o => Forall (fun l => in_tree l.1) (op_leaves o)) os -> run_ops os (new_smt e) = Some t -> in_tree pos ->
  exists path root leaf, prove_membership pos t = Some path /\ smt_root t = Some root /\ get_leaf pos t = Some leaf /\
    verify path root leaf pos = Some true /\
    forall path' leaf', length path' = N -> verify path' root leaf' pos = Some true ->
      (path' = path /\ leaf' = leaf) \/ collides (path_pairs path' leaf' pos) (path_pairs path leaf pos).
Proof.
  intros HN Ho HE Hp. destruct (new_smt_spec e) as (Hw & Hm & He). destruct (run_ops_spec os (new_smt e) ∅) as (t' & HE' & _ & Hw' & _); try done.
  rewrite HE in HE'. injection HE' as <-. destruct (path_spec t pos Hw' Hp) as (H1 & H2 & H3). exists (rev (siblings_from t pos 0 N)), (value t 1), (value t (ancestor pos 0)).
  split; [done | split; [by apply smt_root_value | split; [by apply get_leaf_value | split]]].
  - rewrite verify_in_tree, H2, Z.eqb_refl by done. done.
  - intros path' leaf' Hl Hv. rewrite verify_in_tree in Hv by done. injection Hv as Hv%Z.eqb_eq. by apply H3.
Qed.

End Smt.

(** ** A tree of depth three, with a hash to compute with *)

Definition toy_hash (a b : Z) : Z := (3 * a + 5 * b + 7) mod 1009.
Definition sample_ops : list SmtOp := [InsertBatch [(1, 11); (6, 66); (1, 12)]; RemoveLeaves [(6, 0)]; InsertBatch [(7, 77)]].

Lemma smt_refines_map_witness :
  exists t, run_ops toy_hash 3 sample_ops (new_smt toy_hash 3 0) = Some t /\ get_leaf 3 1 t = Some 12 /\ get_leaf 3 6 t = Some 0.
Proof.
  destruct (smt_refines_map toy_hash 3 0 sample_ops) as (t & HE & _ & H); [lia | repeat constructor; cbn; lia |].
  exists t. split; [done |]. split; rewrite H by (unfold in_tree; cbn; lia); by vm_compute.
Defined.

Lemma smt_paths_exact_witness :
  exists t path root leaf, run_ops toy_hash 3 sample_ops (new_smt toy_hash 3 0) = Some t /\ prove_membership 3 7 t = Some path /\ verify toy_hash 3 path root leaf 7 = Some true.
Proof.
  destruct (run_ops toy_hash 3 sample_ops (new_smt toy_hash 3 0)) as [t|] eqn:E; [| by vm_compute in E].
  destruct (smt_paths_exact toy_hash 3 0 sample_ops t 7) as (path & root & leaf & H1 & _ & _ & H2 & _); [lia | repeat constructor; cbn; lia | done | unfold in_tree; cbn; lia |].
  by exists t, path, root, leaf.
Defined.
