(* ===== verification/SmtGadget.v ===== *)
(** * Membership in a sparse Merkle tree, in the circuit ([src/zk/gadget/smt.rs])

    The chip behind the opcodes [sparse_merkle_root] and [set_membership].  The
    prover assigns the bits of the position and the siblings; the gates tie the
    bits to the position, twice: as a sum modulo [p], which alone would allow the
    bits of the position plus [p], and as a number below [p].  The proof system's
    Poseidon chip is a parameter: the hash it constrains.

    A proof exists exactly when the native verifier accepts the path. *)

From Stdlib Require Import Znumtheory.
From S2P Require Import Prelude ZkGadget ZkSound ZkField Smt.

Definition SMT_FP_DEPTH : nat := 255.

Definition two_pow_128 : Z := 1 * 2 ^ 128.
Definition two_pow_126 : Z := 0x4000000000000000 * 2 ^ 64.
Definition p_low_tail_minus_one : Z := 0x992d30ed00000000 + 0x224698fc094cf91b * 2 ^ 64.

Definition path_gate (s_path current_path bit next_path : Z) : list Z := [s_path * (next_path - (current_path * 2 + bit))].
Definition bool_gate (s_bool bit : Z) : list Z := [s_bool * (bit * (1 - bit))].
Definition canonical_gate (s_canon pos high low k top : Z) : list Z :=
  [s_canon * (high * two_pow_128 + low - pos); s_canon * (top * (high - two_pow_126)); s_canon * (top * (low + k - p_low_tail_minus_one))].

(** A field element. *)
Definition field (x : Z) : Prop := 0 <= x < PALLAS_P.

(** The loops that accumulate bits from the highest: each round a region with the
    path gate and the gates of the bit. *)
Fixpoint sum_region (bit_gate : Z -> list Z) (bits : list Z) (acc out : Z) : Prop :=
  match bits with
  | [] => out = acc
  | bit :: rest => exists next, field next /\ gate_ok PALLAS_P (path_gate 1 acc bit next ++ bit_gate bit) = true /\ sum_region bit_gate rest next out
  end.

Definition running_sum_from_bits (bits : list Z) (out : Z) : Prop := sum_region (fun _ => []) (rev bits) 0 out.
Definition range_check_value (n_bits : nat) (out : Z) : Prop :=
  exists bits, length bits = n_bits /\ Forall field bits /\ sum_region (bool_gate 1) (rev bits) 0 out.

Definition enforce_canonical_position (bits : list Z) (pos : Z) : Prop :=
  exists high low k, running_sum_from_bits (drop 128 bits) high /\ field low /\ range_check_value 128 k /\
    gate_ok PALLAS_P (canonical_gate 1 pos high low k (nth (SMT_FP_DEPTH - 1) bits 0)) = true.

Section Membership.
Context (hash : Z -> Z -> Z).

Fixpoint tree_region (bits siblings : list Z) (current_node root : Z) : Prop :=
  match bits, siblings with
  | bit :: bits', sibling :: siblings' =>
      exists left right, field left /\ field right /\
        gate_ok PALLAS_P (conditional_select_gate 1 sibling current_node left bit) = true /\
        gate_ok PALLAS_P (conditional_select_gate 1 current_node sibling right bit) = true /\
        tree_region bits' siblings' (hash left right) root
  | _, _ => root = current_node
  end.

Definition membership_inner (bits path : list Z) (pos leaf root : Z) : Prop :=
  length bits = SMT_FP_DEPTH /\ exists current_path, sum_region (fun _ => []) (rev bits) 0 current_path /\
    enforce_canonical_position bits pos /\
    tree_region bits (rev path) leaf root /\
    gate_ok PALLAS_P (assert_eq_gate 1 current_path pos) = true.

(** What a proof of [check_membership] with this path shows: the bits are the
    prover's to choose. *)
Definition check_membership (path : list Z) (pos leaf root : Z) : Prop := exists bits, Forall field bits /\ membership_inner bits path pos leaf root.

(** The opcode [SetMembership] of [vm.rs]. *)
Definition set_membership (path : list Z) (pos leaf expected_root is_member : Z) : Prop :=
  exists computed_root delta_invert, field computed_root /\ check_membership path pos leaf computed_root /\
    gate_ok PALLAS_P (is_eq_gate 1 computed_root expected_root is_member delta_invert) = true /\
    gate_ok PALLAS_P (small_range_gate 1 is_member 2) = true.
End Membership.

(** The bits the code witnesses. *)
Fixpoint decompose_value (n : nat) (value : Z) : list Z := match n with O => [] | S n' => value mod 2 :: decompose_value n' (value / 2) end.

(** ** Sums of bits *)

Definition is_bit (b : Z) : Prop := b = 0 \/ b = 1.
Fixpoint bits_value (bits : list Z) : Z := match bits with [] => 0 | b :: rest => b + 2 * bits_value rest end.

Lemma gate_ok_app (p : Z) (l l' : list Z) : gate_ok p (l ++ l') = true <-> gate_ok p l = true /\ gate_ok p l' = true.
Proof. unfold gate_ok. by rewrite forallb_app, andb_true_iff. Qed.

Lemma pallas_size : 2 ^ 254 < PALLAS_P < 2 ^ 255.
Proof. by vm_compute. Qed.

Lemma sum_region_iff (bit_gate : Z -> list Z) (l : list Z) (acc out : Z) :
  sum_region bit_gate l acc out <-> Forall (fun b => gate_ok PALLAS_P (bit_gate b) = true) l /\ out = fold_left (fun a b => (a * 2 + b) mod PALLAS_P) l acc.
Proof.
  pose proof pallas_size as Hp. revert acc. induction l as [|b l IH]; intros acc; cbn [sum_region fold_left]; [by intuition constructor |].
  setoid_rewrite IH. setoid_rewrite gate_ok_app. unfold path_gate. setoid_rewrite gate_ok_cons. rewrite Forall_cons. split.
  - intros (next & Hn & [[H _] Hb] & Hl & ->). rewrite Z.mul_1_l in H. split; [done |]. f_equal.
    apply (mod_unique_small PALLAS_P (acc * 2 + b) next) in Hn; [done |]. replace (acc * 2 + b - next) with (- (next - (acc * 2 + b))) by lia. by rewrite Z.mod_opp_l_z by lia.
  - intros [[Hb Hl] ->]. exists ((acc * 2 + b) mod PALLAS_P). split; [apply Z.mod_pos_bound; lia |]. split; [| done]. split; [| done]. split; [| done].
    rewrite Z.mul_1_l, Zminus_mod_idemp_l, Z.sub_diag. apply Z.mod_0_l. lia.
Qed.

Lemma fold_bits (bits : list Z) : fold_left (fun a b => (a * 2 + b) mod PALLAS_P) (rev bits) 0 = bits_value bits mod PALLAS_P.
Proof.
  rewrite <- fold_left_rev_right, rev_involutive. induction bits as [|b bits IH]; [done |]. cbn [fold_right bits_value]. rewrite IH.
  rewrite <- Zplus_mod_idemp_l, Zmult_mod_idemp_l, Zplus_mod_idemp_l. f_equal. lia.
Qed.

Lemma bits_value_bound (bits : list Z) : Forall is_bit bits -> 0 <= bits_value bits < 2 ^ Z.of_nat (length bits).
Proof. induction 1 as [|b bits Hb _ IH]; cbn [bits_value length]; [cbn; lia |]. rewrite Nat2Z.inj_succ, Z.pow_succ_r by lia. destruct Hb; lia. Qed.

Lemma bits_value_split (n : nat) (bits : list Z) : (n <= length bits)%nat -> bits_value bits = bits_value (take n bits) + 2 ^ Z.of_nat n * bits_value (drop n bits).
Proof.
  revert bits. induction n as [|n IH]; intros bits Hn; [rewrite take_0, drop_0; cbn; lia |]. destruct bits as [|b bits]; cbn in Hn; [lia |].
  cbn [take drop bits_value]. rewrite (IH bits), Nat2Z.inj_succ, Z.pow_succ_r by lia. lia.
Qed.

Lemma bits_value_testbit (bits : list Z) (i : nat) : Forall is_bit bits -> (i < length bits)%nat -> Z.testbit (bits_value bits) (Z.of_nat i) = (nth i bits 0 =? 1).
Proof.
  intros Hb. revert i. induction Hb as [|b bits Hb _ IH]; intros i Hi; cbn [length] in Hi; [lia |]. cbn [bits_value]. destruct i as [|i]; cbn [nth].
  - rewrite Z.bit0_odd, Z.odd_add_mul_2. by destruct Hb as [-> | ->].
  - rewrite Nat2Z.inj_succ, <- IH by lia. destruct Hb as [-> | ->].
    + rewrite Z.add_0_l. apply Z.testbit_even_succ. lia.
    + rewrite Z.add_comm. apply Z.testbit_odd_succ. lia.
Qed.

Lemma decompose_bits (n : nat) (x : Z) : Forall is_bit (decompose_value n x).
Proof. revert x. induction n as [|n IH]; intros x; constructor; [| done]. unfold is_bit. pose proof (Z.mod_pos_bound x 2). lia. Qed.

Lemma decompose_length (n : nat) (x : Z) : length (decompose_value n x) = n.
Proof. revert x. induction n as [|n IH]; intros x; cbn; [done | by rewrite IH]. Qed.

Lemma decompose_value_sum (n : nat) (x : Z) : bits_value (decompose_value n x) = x mod 2 ^ Z.of_nat n.
Proof.
  revert x. induction n as [|n IH]; intros x; cbn [decompose_value bits_value]; [by rewrite Z.mod_1_r |].
  rewrite IH, Nat2Z.inj_succ, Z.pow_succ_r, Z.rem_mul_r by lia. done.
Qed.

Lemma is_bit_field (l : list Z) : Forall is_bit l -> Forall field l.
Proof. pose proof pallas_size. induction 1 as [|b l [-> | ->]]; constructor; [unfold field; lia | done | unfold field; lia | done]. Qed.

(** ** The tree *)

Section Exact.
Context (hash : Z -> Z -> Z) (Hhash : forall a b, field a -> field b -> field (hash a b)).

(** The walk with the bits of a list. *)
Fixpoint walk_bits (bits siblings : list Z) (current : Z) : Z :=
  match bits, siblings with
  | b :: bits', s :: siblings' => walk_bits bits' siblings' (if b =? 1 then hash s current else hash current s)
  | _, _ => current
  end.

Lemma tree_region_iff (bits siblings : list Z) (current root : Z) :
  length bits = length siblings -> Forall field bits -> Forall field siblings -> field current ->
  tree_region hash bits siblings current root <-> Forall is_bit bits /\ root = walk_bits bits siblings current.
Proof.
  pose proof pallas_prime as Hp. intros Hl Hb. revert siblings current Hl. induction Hb as [|b bits Hb Hbs IH]; intros [|s siblings] current Hl Hs Hc; try done; cbn [tree_region walk_bits].
  { by intuition constructor. }
  injection Hl as Hl. apply Forall_cons in Hs as [Hs Hss]. rewrite Forall_cons. split.
  - intros (left & right & HL & HR & H1 & H2 & H3). rewrite conditional_select_exact in H1, H2 by done.
    destruct H1 as [[-> ->]|[-> ->]]; destruct H2 as [[? ->]|[? ->]]; try done; apply IH in H3 as [H3 ->]; auto; (split; [split; [unfold is_bit; lia | done] | done]).
  - intros [[Hbit Hbits] ->]. destruct Hbit as [-> | ->]; [exists current, s | exists s, current]; (split; [done | split; [done |]]); rewrite !conditional_select_exact by done;
      (split; [auto | split; [auto |]]); apply IH; auto.
Qed.

Lemma walk_bits_walk (bits siblings : list Z) (pos : Z) (j : nat) (current : Z) :
  length bits = length siblings -> (forall i, (i < length bits)%nat -> Z.testbit pos (Z.of_nat (j + i)) = (nth i bits 0 =? 1)) ->
  walk_bits bits siblings current = walk hash siblings pos (Z.of_nat j) current.
Proof.
  revert siblings j current. induction bits as [|b bits IH]; intros [|s siblings] j current Hl H; try done. cbn [walk_bits walk]. injection Hl as Hl.
  rewrite (IH siblings (S j)); [| done |].
  - pose proof (H 0%nat ltac:(cbn; lia)) as H0. cbn [nth] in H0. rewrite Nat.add_0_r in H0. rewrite H0. f_equal. lia.
  - intros i Hi. pose proof (H (S i) ltac:(cbn; lia)) as H1. cbn [nth] in H1. rewrite <- H1. f_equal. lia.
Qed.

(** ** The position *)

Lemma range_check_value_iff (n : nat) (out : Z) : Z.of_nat n <= 254 -> range_check_value n out <-> 0 <= out < 2 ^ Z.of_nat n.
Proof.
  pose proof pallas_prime as Hpr. pose proof pallas_size as Hp. intros Hn. assert (2 ^ Z.of_nat n <= 2 ^ 254) by (apply Z.pow_le_mono_r; lia). unfold range_check_value. setoid_rewrite sum_region_iff. split.
  - intros (bits & Hl & Hf & Hg & ->). assert (Forall is_bit bits) as Hb.
    { apply Forall_rev in Hg. rewrite rev_involutive in Hg. rewrite Forall_forall in Hf, Hg |- *. intros b Hin. specialize (Hf b Hin). specialize (Hg b Hin).
      unfold bool_gate in Hg. rewrite gate_ok_cons, Z.mul_1_l, bit_roots in Hg by done. by destruct Hg. }
    rewrite fold_bits. pose proof (bits_value_bound bits Hb) as Hv. rewrite Hl in Hv. rewrite Z.mod_small by lia. done.
  - intros Ho. exists (decompose_value n out). rewrite decompose_length. split; [done |]. pose proof (decompose_bits n out) as Hb. split; [by apply is_bit_field |]. split.
    + apply Forall_rev. rewrite Forall_forall in Hb |- *. intros b Hin. unfold bool_gate. rewrite gate_ok_cons, gate_ok_nil, Z.mul_1_l. destruct (Hb b Hin) as [-> | ->]; by rewrite Z.mod_0_l by lia.
    + rewrite fold_bits, decompose_value_sum, (Z.mod_small out) by lia. by rewrite Z.mod_small by lia.
Qed.

Lemma no_gates (l : list Z) : Forall (fun b => gate_ok PALLAS_P ((fun _ : Z => []) b) = true) l.
Proof. by induction l; constructor. Qed.

Lemma pallas_tail : PALLAS_P = 2 ^ 254 + p_low_tail_minus_one + 1.
Proof. by vm_compute. Qed.

Lemma tail_bound : 0 <= p_low_tail_minus_one < 2 ^ 128.
Proof. by vm_compute. Qed.

(** Bits that sum to the position modulo [p] and pass the gate are its bits. *)
Lemma canonical_unique (bits : list Z) (pos : Z) :
  length bits = SMT_FP_DEPTH -> Forall is_bit bits -> field pos -> bits_value bits mod PALLAS_P = pos -> enforce_canonical_position bits pos -> bits_value bits = pos.
Proof.
  intros Hl Hb Hpos Hsum (high & low & k & Hh & Hlow & Hk & Hg). pose proof pallas_size as Hp. pose proof pallas_tail as Ht. pose proof tail_bound as Htb. unfold field in Hpos, Hlow.
  apply sum_region_iff in Hh as [_ Hh]. rewrite fold_bits in Hh. apply range_check_value_iff in Hk; [| lia].
  pose proof (bits_value_bound _ (Forall_drop _ 128 _ Hb)) as Hhb. rewrite length_drop, Hl in Hhb. change (Z.of_nat (SMT_FP_DEPTH - 128)) with 127 in Hhb.
  pose proof (bits_value_bound _ (Forall_take _ 128 _ Hb)) as Hlb. rewrite length_take, Hl in Hlb. change (Z.of_nat (Nat.min 128 SMT_FP_DEPTH)) with 128 in Hlb.
  pose proof (bits_value_split 128 bits ltac:(rewrite Hl; unfold SMT_FP_DEPTH; lia)) as Hsp. change (Z.of_nat 128) with 128 in *.
  assert (2 ^ 127 < 2 ^ 254 /\ 2 ^ 129 < 2 ^ 254 /\ 2 ^ 129 = 2 * 2 ^ 128 /\ 2 ^ 254 = 2 ^ 126 * 2 ^ 128) as (E1 & E2 & E3 & E4) by (by vm_compute).
  rewrite Z.mod_small in Hh by lia. subst high. set (hi := bits_value (drop 128 bits)) in *. set (lo := bits_value (take 128 bits)) in *.
  unfold canonical_gate, two_pow_128, two_pow_126 in Hg. rewrite !gate_ok_cons, !Z.mul_1_l in Hg. destruct Hg as (G1 & G2 & G3 & _).
  assert (low = lo) as ->.
  { enough (low - lo = 0) by lia. apply (mod_zero_small PALLAS_P); [lia |]. replace (low - lo) with ((hi * 2 ^ 128 + low - pos) + (pos - bits_value bits)) by lia.
    rewrite Zplus_mod, G1, <- Hsum, Zminus_mod_idemp_l, Z.sub_diag. done. }
  destruct (decide (nth (SMT_FP_DEPTH - 1) bits 0 = 1)) as [Htop|Htop].
  - rewrite Htop, Z.mul_1_l in G2, G3. apply mod_zero_small in G2; [| change (0x4000000000000000 * 2 ^ 64) with (2 ^ 126); lia]. apply mod_zero_small in G3; [| lia].
    change (0x4000000000000000 * 2 ^ 64) with (2 ^ 126) in G2. rewrite Z.mod_small in Hsum by nia. done.
  - pose proof (bits_value_bound bits Hb) as Hv. pose proof (bits_value_testbit bits (SMT_FP_DEPTH - 1) Hb ltac:(rewrite Hl; unfold SMT_FP_DEPTH; lia)) as Htb2.
    replace (nth (SMT_FP_DEPTH - 1) bits 0 =? 1) with false in Htb2 by lia. change (Z.of_nat (SMT_FP_DEPTH - 1)) with 254 in Htb2. rewrite Hl in Hv. change (Z.of_nat SMT_FP_DEPTH) with 255 in Hv.
    assert (bits_value bits < 2 ^ 254).
    { pose proof (Z.testbit_spec' (bits_value bits) 254 ltac:(lia)) as Hts. rewrite Htb2 in Hts. cbn [Z.b2z] in Hts. change (2 ^ 255) with (2 * 2 ^ 254) in Hv.
      assert (0 <= bits_value bits / 2 ^ 254 < 2) by (split; [apply Z.div_pos; lia | apply Z.div_lt_upper_bound; lia]). rewrite Z.mod_small in Hts by lia.
      pose proof (Z.div_mod (bits_value bits) (2 ^ 254) ltac:(lia)). pose proof (Z.mod_pos_bound (bits_value bits) (2 ^ 254) ltac:(lia)). lia. }
    rewrite Z.mod_small in Hsum by lia. done.
Qed.

Lemma drop_decompose (k n : nat) (x : Z) : drop k (decompose_value (k + n) x) = decompose_value n (x / 2 ^ Z.of_nat k).
Proof.
  revert x. induction k as [|k IH]; intros x; [cbn; by rewrite Z.div_1_r |]. cbn [Nat.add decompose_value drop]. rewrite IH, Nat2Z.inj_succ, Z.pow_succ_r, Z.div_div by lia. done.
Qed.

Lemma nth_decompose (n i : nat) (x : Z) : (i < n)%nat -> nth i (decompose_value n x) 0 = (x / 2 ^ Z.of_nat i) mod 2.
Proof.
  revert n x. induction i as [|i IH]; intros [|n] x Hi; try lia; cbn [decompose_value nth]; [cbn; by rewrite Z.div_1_r |].
  rewrite IH, Nat2Z.inj_succ, Z.pow_succ_r, Z.div_div by lia. done.
Qed.

Lemma canonical_holds (pos : Z) : field pos -> enforce_canonical_position (decompose_value SMT_FP_DEPTH pos) pos.
Proof.
  unfold field. intros Hpos. pose proof pallas_size as Hp. pose proof pallas_tail as Ht. pose proof tail_bound as Htb.
  assert (2 ^ 255 = 2 ^ 127 * 2 ^ 128 /\ 2 ^ 254 = 2 ^ 126 * 2 ^ 128 /\ 2 ^ 255 = 2 * 2 ^ 254 /\ 2 ^ 127 < 2 ^ 254) as (E1 & E2 & E3 & E4) by (by vm_compute).
  pose proof (Z.div_mod pos (2 ^ 128) ltac:(lia)) as Hdm. pose proof (Z.mod_pos_bound pos (2 ^ 128) ltac:(lia)) as Hlo.
  assert (0 <= pos / 2 ^ 128 < 2 ^ 127) as Hhi by (split; [apply Z.div_pos; lia | apply Z.div_lt_upper_bound; lia]).
  assert (nth (SMT_FP_DEPTH - 1) (decompose_value SMT_FP_DEPTH pos) 0 = if 2 ^ 254 <=? pos then 1 else 0) as Htop.
  { rewrite nth_decompose by (unfold SMT_FP_DEPTH; lia). change (Z.of_nat (SMT_FP_DEPTH - 1)) with 254. destruct (Z.leb_spec (2 ^ 254) pos).
    - replace (pos / 2 ^ 254) with 1; [done |]. apply (Z.div_unique _ _ _ (pos - 2 ^ 254)); lia.
    - rewrite Z.div_small by lia. done. }
  exists (pos / 2 ^ 128), (pos mod 2 ^ 128), (if 2 ^ 254 <=? pos then p_low_tail_minus_one - pos mod 2 ^ 128 else 0).
  assert (2 ^ 254 <= pos -> pos / 2 ^ 128 = 2 ^ 126 /\ pos mod 2 ^ 128 <= p_low_tail_minus_one) as Hcase.
  { intros Hge. assert (pos / 2 ^ 128 = 2 ^ 126) as Eh by (symmetry; apply (Z.div_unique _ _ _ (pos - 2 ^ 254)); lia). split; [done |]. rewrite Eh in Hdm. lia. }
  split; [| split; [unfold field; lia | split]].
  - apply sum_region_iff. split; [apply no_gates |]. rewrite fold_bits. change SMT_FP_DEPTH with (128 + 127)%nat. rewrite drop_decompose, decompose_value_sum.
    change (Z.of_nat 128) with 128. change (Z.of_nat 127) with 127. rewrite (Z.mod_small (pos / 2 ^ 128)) by lia. rewrite Z.mod_small by lia. done.
  - apply range_check_value_iff; [lia |]. change (Z.of_nat 128) with 128. destruct (Z.leb_spec (2 ^ 254) pos) as [Hge|]; [destruct (Hcase Hge) |]; lia.
  - rewrite Htop. unfold canonical_gate, two_pow_128, two_pow_126. rewrite !gate_ok_cons, gate_ok_nil, !Z.mul_1_l.
    replace (pos / 2 ^ 128 * 2 ^ 128 + pos mod 2 ^ 128 - pos) with 0 by lia. change (0x4000000000000000 * 2 ^ 64) with (2 ^ 126).
    destruct (Z.leb_spec (2 ^ 254) pos) as [Hge|_]; [destruct (Hcase Hge) as [-> _] |].
    + rewrite Z.sub_diag. replace (pos mod 2 ^ 128 + (p_low_tail_minus_one - pos mod 2 ^ 128) - p_low_tail_minus_one) with 0 by lia. by rewrite Z.mod_0_l by lia.
    + by rewrite !Z.mul_0_l, Z.mod_0_l by lia.
Qed.

Lemma membership_iff (path : list Z) (pos leaf root : Z) :
  length path = SMT_FP_DEPTH -> Forall field path -> field pos -> field leaf -> check_membership hash path pos leaf root <-> root = path_root hash path leaf pos.
Proof.
  intros Hl Hpath Hpos Hleaf. pose proof pallas_size as Hp. assert (Forall field (rev path)) as Hrev by (by apply Forall_rev).
  assert (forall bits, length bits = SMT_FP_DEPTH -> Forall is_bit bits -> bits_value bits = pos -> walk_bits bits (rev path) leaf = path_root hash path leaf pos) as Hwalk.
  { intros bits Hlb Hb <-. unfold path_root. apply (walk_bits_walk bits (rev path) _ 0); [by rewrite length_rev; congruence |]. intros i Hi. by apply bits_value_testbit. }
  unfold check_membership, membership_inner, assert_eq_gate. split.
  - intros (bits & Hf & Hlb & cur & Hsum & Hcan & Htree & Heq). apply tree_region_iff in Htree as [Hb ->]; [| by rewrite length_rev; congruence | done | done | done].
    apply Hwalk; [done | done |]. apply canonical_unique; [done | done | done | | done]. apply sum_region_iff in Hsum as [_ ->].
    rewrite fold_bits, gate_ok_cons, Z.mul_1_l in Heq. destruct Heq as [Heq _]. rewrite Zminus_mod_idemp_l in Heq. by apply mod_unique_small.
  - intros ->. pose proof (decompose_bits SMT_FP_DEPTH pos) as Hb. assert (bits_value (decompose_value SMT_FP_DEPTH pos) = pos) as Hv.
    { rewrite decompose_value_sum. apply Z.mod_small. change (Z.of_nat SMT_FP_DEPTH) with 255. unfold field in Hpos. lia. }
    exists (decompose_value SMT_FP_DEPTH pos). split; [by apply is_bit_field |]. split; [apply decompose_length |]. exists pos. split; [| split; [by apply canonical_holds | split]].
    + apply sum_region_iff. split; [apply no_gates |]. rewrite fold_bits, Hv. symmetry. by apply Z.mod_small.
    + apply tree_region_iff; [by rewrite decompose_length, length_rev | by apply is_bit_field | done | done |]. split; [done |]. symmetry. apply Hwalk; [apply decompose_length | done | done].
    + rewrite gate_ok_cons, gate_ok_nil, Z.sub_diag, Z.mul_0_r, Z.mod_0_l by lia. done.
Qed.

Lemma walk_field (l : list Z) (pos i x : Z) : Forall field l -> field x -> field (walk hash l pos i x).
Proof. intros Hl. revert i x. induction Hl as [|s l Hs _ IH]; intros i x Hx; cbn [walk]; [done |]. apply IH. destruct (Z.testbit pos i); auto. Qed.

Lemma set_membership_iff (path : list Z) (pos leaf expected_root is_member : Z) :
  length path = SMT_FP_DEPTH -> Forall field path -> field pos -> field leaf -> field expected_root -> field is_member ->
  set_membership hash path pos leaf expected_root is_member <-> is_member = if path_root hash path leaf pos =? expected_root then 1 else 0.
Proof.
  intros Hl Hpath Hpos Hleaf Hroot Hout. pose proof pallas_prime as Hp. pose proof pallas_size as Hs.
  assert (field (path_root hash path leaf pos)) as Hpr by (apply walk_field; [by apply Forall_rev | done]). unfold set_membership. split.
  - intros (c & d & Hc & Hm & He & _). apply membership_iff in Hm as ->; [| done | done | done | done]. apply (is_eq_exact PALLAS_P); try done. by exists d.
  - intros E. exists (path_root hash path leaf pos). destruct (proj2 (is_eq_exact PALLAS_P (path_root hash path leaf pos) expected_root is_member Hp Hpr Hroot Hout) E) as [d Hd].
    exists d. split; [done | split; [by apply membership_iff | split; [done |]]]. apply small_range_exact; [done | done | lia | lia |]. rewrite E. destruct (_ =? _); lia.
Qed.

End Exact.

(** C8: The circuit proves what the native verifier checks: for a path of field
    elements a satisfying assignment of [check_membership] exists exactly when
    [Path::verify] accepts, and [set_membership] forces its output to that
    answer, although the prover chooses the bits of the position himself. *)
Theorem membership_gates_exact (hash : Z -> Z -> Z) (path : list Z) (pos leaf expected_root is_member : Z) :
  (forall a b, field a -> field b -> field (hash a b)) ->
  length path = SMT_FP_DEPTH -> Forall field path -> field pos -> field leaf -> field expected_root -> field is_member ->
  (check_membership hash path pos leaf expected_root <-> verify hash SMT_FP_DEPTH path expected_root leaf pos = Some true) /\
  (set_membership hash path pos leaf expected_root is_member <-> verify hash SMT_FP_DEPTH path expected_root leaf pos = Some (is_member =? 1) /\ (is_member = 0 \/ is_member = 1)).
Proof.
  intros Hh Hl Hpath Hpos Hleaf Hroot Hout. pose proof pallas_size as Hs. rewrite verify_in_tree by (unfold in_tree, field in *; change (Z.of_nat SMT_FP_DEPTH) with 255; lia). split.
  - rewrite membership_iff by done. split; [intros ->; by rewrite Z.eqb_refl | intros E; injection E as E%Z.eqb_eq; done].
  - rewrite set_membership_iff by done. destruct (path_root hash path leaf pos =? expected_root); split.
    + intros ->. auto.
    + intros [E [-> | ->]]; done.
    + intros ->. auto.
    + intros [E [-> | ->]]; done.
Qed.

Lemma field_in_tree (x : Z) : field x -> in_tree SMT_FP_DEPTH x.
Proof. pose proof pallas_size. unfold in_tree, field. change (Z.of_nat SMT_FP_DEPTH) with 255. lia. Qed.

(** The nodes of a tree of field elements. *)
Lemma tree_in_field (hash : Z -> Z -> Z) (e : Z) (os : list SmtOp) (t : SparseMerkleTree) :
  (forall a b, field a -> field b -> field (hash a b)) -> field e -> Forall (fun o => Forall (fun l => field l.1 /\ field l.2) (op_leaves o)) os ->
  run_ops hash SMT_FP_DEPTH os (new_smt hash SMT_FP_DEPTH e) = Some t ->
  smt_wf hash SMT_FP_DEPTH t /\ forall h, 1 <= h < 2 ^ (Z.of_nat SMT_FP_DEPTH + 1) -> field (value t h).
Proof.
  intros Hh He Hos HE. destruct (new_smt_spec hash SMT_FP_DEPTH e) as (Hw & Hm & Hem).
  destruct (run_ops_spec hash SMT_FP_DEPTH os (new_smt hash SMT_FP_DEPTH e) ∅) as (t' & HE' & Hnodes & Hw' & Hm').
  - apply Nat.lt_0_succ.
  - eapply List.Forall_impl; [| exact Hos]. intros o. apply List.Forall_impl. intros l [? _]. by apply field_in_tree.
  - exact Hw.
  - exact Hm.
  - rewrite HE in HE'. injection HE' as <-. split; [exact Hw' |]. intros h Hb. apply (value_all hash SMT_FP_DEPTH field t (fold_left map_op os ∅) e h Hw' Hm'); [by rewrite Hnodes | exact He | | exact Hh | exact Hb].
    apply map_op_all; [apply map_Forall_empty |]. eapply List.Forall_impl; [| exact Hos]. intros o. apply List.Forall_impl. by intros l [_ ?].
Qed.

(** C7: A membership proof against the root of a tree is about its leaves: at
    every position the output one can be proved with the leaf the tree holds and
    the path [prove_membership] returns, and whenever it can be proved with a
    path and a leaf, whatever the bits the prover brings, these are that path and
    that leaf, or at some height the two paths hash different pairs to the same
    value. *)
Theorem membership_proofs_exact (hash : Z -> Z -> Z) (e : Z) (os : list SmtOp) (t : SparseMerkleTree) (pos root : Z) :
  (forall a b, field a -> field b -> field (hash a b)) -> field e ->
  Forall (fun o => Forall (fun l => field l.1 /\ field l.2) (op_leaves o)) os ->
  run_ops hash SMT_FP_DEPTH os (new_smt hash SMT_FP_DEPTH e) = Some t -> smt_root t = Some root -> field pos ->
  exists path leaf, prove_membership SMT_FP_DEPTH pos t = Some path /\ get_leaf SMT_FP_DEPTH pos t = Some leaf /\
    length path = SMT_FP_DEPTH /\ Forall field path /\ set_membership hash path pos leaf root 1 /\
    forall path' leaf', length path' = SMT_FP_DEPTH -> Forall field path' -> field leaf' -> set_membership hash path' pos leaf' root 1 ->
      (path' = path /\ leaf' = leaf) \/ collides hash (path_pairs hash path' leaf' pos) (path_pairs hash path leaf pos).
Proof.
  intros Hh He Hos HE Hroot Hpos. destruct (tree_in_field hash e os t Hh He Hos HE) as [Hw Hall]. pose proof (field_in_tree pos Hpos) as Hin. pose proof pallas_size as Hs.
  rewrite (smt_root_value hash SMT_FP_DEPTH t Hw) in Hroot. injection Hroot as <-.
  destruct (path_spec hash SMT_FP_DEPTH t pos Hw Hin) as (Hm & Hv & Hu). assert (field (value t 1)) as Hr by (apply Hall; split; [apply Z.le_refl | reflexivity]). clear HE. assert (field 1) as H1 by (unfold field; lia).
  assert (field (value t (ancestor SMT_FP_DEPTH pos 0))) as Hleaf by (apply Hall, ancestor_bounds, Hin).
  set (path := rev (siblings_from SMT_FP_DEPTH t pos 0 SMT_FP_DEPTH)) in *.
  assert (length path = SMT_FP_DEPTH) as Hl by (unfold path; by rewrite length_rev, siblings_length).
  assert (Forall field path) as Hf by (apply Forall_rev, siblings_all; [exact Hin | lia | reflexivity | exact Hall]).
  exists path, (value t (ancestor SMT_FP_DEPTH pos 0)). split; [exact Hm |]. split; [exact (get_leaf_value hash SMT_FP_DEPTH t pos Hw Hin) |]. split; [exact Hl |]. split; [exact Hf |]. split.
  - apply (set_membership_iff hash Hh); [exact Hl | exact Hf | exact Hpos | exact Hleaf | exact Hr | exact H1 |]. by rewrite Hv, Z.eqb_refl.
  - intros path' leaf' Hl' Hf' Hleaf' Hset. apply (set_membership_iff hash Hh) in Hset; [| assumption ..].
    destruct (Z.eqb_spec (path_root hash path' leaf' pos) (value t 1)) as [E|]; [| discriminate]. exact (Hu path' leaf' Hl' E).
Qed.

(** ** A path and a tree of full depth, with a hash to compute with *)

Definition sample_hash (a b : Z) : Z := (a + 2 * b + 1) mod PALLAS_P.

Lemma sample_hash_field (a b : Z) : field a -> field b -> field (sample_hash a b).
Proof. intros _ _. apply Z.mod_pos_bound. reflexivity. Qed.

Definition sample_path : list Z := replicate SMT_FP_DEPTH 3.

Lemma sample_path_field : Forall field sample_path.
Proof. apply Forall_replicate. split; [discriminate | reflexivity]. Qed.

Lemma membership_gates_exact_witness :
  check_membership sample_hash sample_path 5 7 (path_root sample_hash sample_path 7 5) /\ set_membership sample_hash sample_path 5 7 8 0.
Proof.
  split.
  - apply (membership_gates_exact sample_hash sample_path 5 7 (path_root sample_hash sample_path 7 5) 1 sample_hash_field); [reflexivity | exact sample_path_field | ..].
    1, 2, 3, 4: split; [vm_compute; discriminate | vm_compute; reflexivity]. vm_compute. reflexivity.
  - apply (membership_gates_exact sample_hash sample_path 5 7 8 0 sample_hash_field); [reflexivity | exact sample_path_field | ..].
    1, 2, 3, 4: split; [vm_compute; discriminate | vm_compute; reflexivity]. split; [vm_compute; reflexivity | left; reflexivity].
Defined.

Definition sample_tree : SparseMerkleTree :=
  default (new_smt sample_hash SMT_FP_DEPTH 0) (run_ops sample_hash SMT_FP_DEPTH [InsertBatch [(5, 7); (2 ^ 254, 9)]] (new_smt sample_hash SMT_FP_DEPTH 0)).
Definition sample_root : Z := default 0 (smt_root sample_tree).

Lemma membership_proofs_exact_witness : exists path, length path = SMT_FP_DEPTH /\ Forall field path /\ set_membership sample_hash path (2 ^ 254) 9 sample_root 1.
Proof.
  destruct (membership_proofs_exact sample_hash 0 [InsertBatch [(5, 7); (2 ^ 254, 9)]] sample_tree (2 ^ 254) sample_root sample_hash_field) as (path & leaf & _ & Hg & Hl & Hf & Hs & _).
  1, 5: split; [vm_compute; discriminate | vm_compute; reflexivity].
  - repeat constructor; vm_compute; discriminate.
  - vm_compute. reflexivity.
  - vm_compute. reflexivity.
  - assert (get_leaf SMT_FP_DEPTH (2 ^ 254) sample_tree = Some 9) as Hg' by (vm_compute; reflexivity). rewrite Hg' in Hg. injection Hg as <-. exists path. exact (conj Hl (conj Hf Hs)).
Defined.
