(* ===== verification/Externals.v ===== *)
(** * Code outside the repository

    What the consensus code uses of third-party crates and of the compiler, as
    the fields of one class: BLAKE3 (crate [blake3]), RandomX (crate
    [randomx]), the canonical encodings of the pallas fields and points, the
    Poseidon hash and the contract identifiers derived with it (crates
    [pasta_curves] and [poseidon]), the
    Monero proof carried by merge-mined blocks (types of the crate [monero]),
    and the in-memory sizes the compiler chooses for the block structures,
    which the vector length policy consults.  The laws are documented facts of
    those libraries: BLAKE3 outputs 32 bytes, the contract identifiers are
    canonical field elements, the Monero structures are read back from their
    own encoding. *)

From S2P Require Import Prelude Serial.

Class Externals := {
  blake3 : list Z -> list Z;
  blake3_wf : forall m, bytes_wf 32 (blake3 m);

  (** [RandomXVM::calculate_hash] under a key; [None] is any RandomX error. *)
  randomx : list Z -> list Z -> option (list Z);

  (** [pallas::Base::from_repr] succeeds on these 32 bytes. *)
  fp_canonical : list Z -> bool;
  (** [pallas::Scalar::from_repr] and [pallas::Point::from_bytes] succeed; a
      point stands for its compressed encoding, the identity's included. *)
  scalar_canonical : list Z -> bool;
  point_canonical : list Z -> bool;
  point_identity : list Z;
  (** The affine coordinates of a point, and the Poseidon hash of field elements. *)
  point_xy : list Z -> list Z * list Z;
  poseidon_hash : list (list Z) -> list Z;
  NATIVE_TOKEN_CONTRACT_ID : list Z;
  DEPLOYOOOR_CONTRACT_ID : list Z;
  PROMISSORY_NOTE_CONTRACT_ID : list Z;
  PURSE_CONTRACT_ID : list Z;
  BOX_CONTRACT_ID : list Z;

  MoneroPowData : Type;
  monero_codec : codec MoneroPowData;
  monero_wf : MoneroPowData -> Prop;
  monero_ok :: CodecOk monero_codec monero_wf;

  size_of_TxInput : Z;
  size_of_TxOutput : Z;
  size_of_ContractCall : Z;
  size_of_Transaction : Z;
  size_of_BlockHeader : Z;
  size_of_Block : Z;
  size_of_UncleBlock : Z
}.

Definition zero32 : list Z := replicate 32 0.

Lemma zero32_wf : bytes_wf 32 zero32.
Proof. split; [done |]. apply Forall_replicate. unfold is_byte. lia. Qed.

(** ** A concrete instance for the witnesses

    A toy checksum of 32 bytes stands for BLAKE3 and RandomX, the field is the
    integers below the pallas modulus, and scalars and points are the integers
    below the order of the curve. *)

Definition toy_digest (m : list Z) : list Z :=
  to_le_bytes 32 (foldl (fun acc b => (acc * 257 + b + 1) mod 2 ^ 61) 5381 m).

Lemma toy_digest_wf (m : list Z) : bytes_wf 32 (toy_digest m).
Proof. split; [apply to_le_bytes_length | apply to_le_bytes_are_bytes]. Qed.

Definition pallas_modulus : Z :=
  0x40000000000000000000000000000000224698fc094cf91b992d30ed00000001.

Definition vesta_modulus : Z :=
  0x40000000000000000000000000000000224698fc0994a8dd8c46eb2100000001.

Definition unit_codec : codec unit := mk_codec (fun _ => []) (fun bs => Ok (tt, bs)) 0.

Lemma unit_codec_ok : CodecOk unit_codec (fun _ => True).
Proof. apply mk_codec_ok; [constructor | by intros []]. Qed.

Definition toy : Externals := {|
  blake3 := toy_digest;
  blake3_wf := toy_digest_wf;
  randomx := fun key m => Some (toy_digest (key ++ m));
  fp_canonical := fun bs => from_le_bytes bs <? pallas_modulus;
  scalar_canonical := fun bs => from_le_bytes bs <? vesta_modulus;
  point_canonical := fun bs => from_le_bytes bs <? vesta_modulus;
  point_identity := replicate 32 0;
  point_xy := fun bs => (bs, to_le_bytes 32 1);
  poseidon_hash := fun l => toy_digest (concat l);
  NATIVE_TOKEN_CONTRACT_ID := to_le_bytes 32 4;
  DEPLOYOOOR_CONTRACT_ID := to_le_bytes 32 2;
  PROMISSORY_NOTE_CONTRACT_ID := to_le_bytes 32 5;
  PURSE_CONTRACT_ID := to_le_bytes 32 6;
  BOX_CONTRACT_ID := to_le_bytes 32 7;
  MoneroPowData := unit;
  monero_codec := unit_codec;
  monero_wf := fun _ => True;
  monero_ok := unit_codec_ok;
  size_of_TxInput := 64;
  size_of_TxOutput := 32;
  size_of_ContractCall := 56;
  size_of_Transaction := 136;
  size_of_BlockHeader := 480;
  size_of_Block := 504;
  size_of_UncleBlock := 520
|}.
