(* ===== verification/Transaction.v ===== *)
(** * Transactions ([src/linear/src/transaction.rs], [src/linear/src/serial_sync.rs])

    The transaction structures, the call-data classification of
    [src/sdk/src/mass_balance_call_data.rs], the identity hash's preimage and
    the storage codec.  A [ContractId] or a [Nullifier] is the canonical
    32-byte encoding of its field element. *)

From S2P Require Import Prelude Serial Externals.

Record TxInput := {
  previous_output : list Z;
  in_script : list Z;
  sequence : Z
}.

Record TxOutput := {
  value : Z;
  out_script : list Z
}.

Record ContractCall := {
  contract_id : list Z;
  data : list Z
}.

Record Transaction := {
  tx_version : Z;
  inputs : list TxInput;
  outputs : list TxOutput;
  contract_calls : list ContractCall;
  lock_time : Z;
  nullifiers : list (list Z);
  witness : list Z
}.

Definition CHAIN_ID : list Z :=
  [0xd2; 0x8b; 0x4a; 0x76; 0x3c; 0x62; 0xf2; 0x5e;
   0xa1; 0xf9; 0x3d; 0x81; 0x4e; 0xbc; 0x7a; 0x5f;
   0x8d; 0x2c; 0x91; 0x4b; 0xe3; 0x66; 0xa5; 0x7d;
   0x0e; 0xf9; 0x1a; 0x82; 0xcc; 0xe5; 0x3b; 0x44].

(** [BlockVersion::CURRENT] and [Transaction::default]. *)
Definition BlockVersion_CURRENT : Z := 1.
Definition Transaction_default : Transaction := {|
  tx_version := BlockVersion_CURRENT; inputs := []; outputs := []; contract_calls := [];
  lock_time := 0; nullifiers := []; witness := [] |}.

(** ** Call classification *)

Section calls.
Context `{Externals}.

Definition first_byte_is (sel : Z) (d : list Z) : bool :=
  match d with b :: _ => b =? sel | [] => false end.

(** [MassBalanceFeeV3CallData::from_bytes]: the parameters after the selector. *)
Definition fee_v3_from_bytes (d : list Z) : option (list Z) :=
  if Z.of_nat (length d) <? 444 then None
  else if negb (first_byte_is 0x08 d) then None
  else Some (drop 1 d).

Definition fee_v3_encode (params_bytes : list Z) : list Z := 0x08 :: params_bytes.

(** [MassBalanceCoinbaseV1CallData::from_bytes]. *)
Definition coinbase_v1_from_bytes (d : list Z) : option (list Z) :=
  if negb (first_byte_is 0x05 d) then None else Some (drop 1 d).

Definition coinbase_v1_encode (params_bytes : list Z) : list Z := 0x05 :: params_bytes.

Definition as_mass_balance_fee_v3 (c : ContractCall) : option (list Z) :=
  if negb (bool_decide (contract_id c = NATIVE_TOKEN_CONTRACT_ID)) then None
  else fee_v3_from_bytes (data c).

Definition as_mass_balance_coinbase_v1 (c : ContractCall) : option (list Z) :=
  if negb (bool_decide (contract_id c = NATIVE_TOKEN_CONTRACT_ID)) then None
  else coinbase_v1_from_bytes (data c).

Definition is_pow_reward_coinbase_tx (t : Transaction) : bool :=
  match contract_calls t with
  | c :: _ => bool_decide (contract_id c = NATIVE_TOKEN_CONTRACT_ID) && first_byte_is 0x05 (data c)
  | [] => false
  end.

Definition is_fee_collect_tx (t : Transaction) : bool :=
  match contract_calls t with
  | c :: _ => bool_decide (contract_id c = NATIVE_TOKEN_CONTRACT_ID) && first_byte_is 0x06 (data c)
  | [] => false
  end.

Definition first_call_is_pow_reward (t : Transaction) : bool :=
  match contract_calls t with c :: _ => first_byte_is 0x05 (data c) | [] => false end.
End calls.

(** ** The identity hash *)

(** [(v.len() as u32).to_le_bytes()] followed by the elements. *)
Definition u32_len {A : Type} (l : list A) : list Z := to_le_bytes 4 (wrap 32 (Z.of_nat (length l))).
Definition counted {A : Type} (enc : A -> list Z) (l : list A) : list Z :=
  u32_len l ++ concat (map enc l).
Definition hash_bytes (s : list Z) : list Z := u32_len s ++ s.

Definition hash_input (i : TxInput) : list Z :=
  previous_output i ++ hash_bytes (in_script i) ++ to_le_bytes 4 (sequence i).
Definition hash_output (o : TxOutput) : list Z :=
  to_le_bytes 8 (value o) ++ hash_bytes (out_script o).
Definition hash_call (c : ContractCall) : list Z := contract_id c ++ hash_bytes (data c).

(** Everything [Transaction::hash] feeds to the hasher, in order. *)
Definition hash_preimage (t : Transaction) : list Z :=
  CHAIN_ID ++ [tx_version t] ++
  counted hash_input (inputs t) ++
  counted hash_output (outputs t) ++
  counted hash_call (contract_calls t) ++
  to_le_bytes 8 (lock_time t) ++
  counted (fun nf => nf) (nullifiers t).

Definition tx_hash `{Externals} (t : Transaction) : list Z := blake3 (hash_preimage t).

(** ** The storage codec *)

Section tx_codec.
Context `{Externals}.

(** [pallas::Base]: 32 bytes, refused when not canonical. *)
Definition fp_codec : codec (list Z) :=
  mk_codec (fun h => h)
    (fun bs => let? (raw, rest) := read_exact 32 bs in
               if fp_canonical raw then Ok (raw, rest) else Err NonCanonicalField) 32.

(** [Nullifier]: encodes like its field element, but decoding refuses zero. *)
Definition nullifier_codec : codec (list Z) :=
  mk_codec (encode fp_codec)
    (fun bs => let? (base, rest) := decode fp_codec bs in
               if bool_decide (base = zero32) then Err ZeroNullifier else Ok (base, rest)) 32.

Definition byte_vec_codec : codec (list Z) := vec_codec u8_codec.

Definition TxInput_codec : codec TxInput :=
  mk_codec (fun i => encode (bytes_codec 32) (previous_output i) ++
                     encode byte_vec_codec (in_script i) ++ encode u32_codec (sequence i))
    (fun bs => let? (po, bs1) := decode (bytes_codec 32) bs in
               let? (sc, bs2) := decode byte_vec_codec bs1 in
               let? (sq, bs3) := decode u32_codec bs2 in
               Ok ({| previous_output := po; in_script := sc; sequence := sq |}, bs3))
    size_of_TxInput.

Definition TxOutput_codec : codec TxOutput :=
  mk_codec (fun o => encode u64_codec (value o) ++ encode byte_vec_codec (out_script o))
    (fun bs => let? (v, bs1) := decode u64_codec bs in
               let? (sc, bs2) := decode byte_vec_codec bs1 in
               Ok ({| value := v; out_script := sc |}, bs2))
    size_of_TxOutput.

Definition ContractCall_codec : codec ContractCall :=
  mk_codec (fun c => encode fp_codec (contract_id c) ++ encode byte_vec_codec (data c))
    (fun bs => let? (cid, bs1) := decode fp_codec bs in
               let? (d, bs2) := decode byte_vec_codec bs1 in
               Ok ({| contract_id := cid; data := d |}, bs2))
    size_of_ContractCall.

Definition Transaction_codec : codec Transaction :=
  mk_codec (fun t => encode u8_codec (tx_version t) ++
                     encode (vec_codec TxInput_codec) (inputs t) ++
                     encode (vec_codec TxOutput_codec) (outputs t) ++
                     encode (vec_codec ContractCall_codec) (contract_calls t) ++
                     encode u64_codec (lock_time t) ++
                     encode (vec_codec nullifier_codec) (nullifiers t) ++
                     encode byte_vec_codec (witness t))
    (fun bs => let? (ver, bs1) := decode u8_codec bs in
               let? (ins, bs2) := decode (vec_codec TxInput_codec) bs1 in
               let? (outs, bs3) := decode (vec_codec TxOutput_codec) bs2 in
               let? (calls, bs4) := decode (vec_codec ContractCall_codec) bs3 in
               let? (lt, bs5) := decode u64_codec bs4 in
               let? (nfs, bs6) := decode (vec_codec nullifier_codec) bs5 in
               let? (wit, bs7) := decode byte_vec_codec bs6 in
               Ok ({| tx_version := ver; inputs := ins; outputs := outs; contract_calls := calls;
                      lock_time := lt; nullifiers := nfs; witness := wit |}, bs7))
    size_of_Transaction.
End tx_codec.

(** ** Well-formed transactions

    What the Rust types guarantee (integers in range, 32-byte hashes, canonical
    field elements), together with the vector length policy of the codec. *)

Section wf.
Context `{Externals}.

Definition fp_wf (h : list Z) : Prop := bytes_wf 32 h /\ fp_canonical h = true.
Definition nullifier_wf (h : list Z) : Prop := fp_wf h /\ h <> zero32.
Definition byte_vec_wf : list Z -> Prop := vec_wf u8_codec is_byte.
Definition TxInput_wf (i : TxInput) : Prop :=
  bytes_wf 32 (previous_output i) /\ byte_vec_wf (in_script i) /\ is_u32 (sequence i).
Definition TxOutput_wf (o : TxOutput) : Prop := is_u64 (value o) /\ byte_vec_wf (out_script o).
Definition ContractCall_wf (c : ContractCall) : Prop :=
  fp_wf (contract_id c) /\ byte_vec_wf (data c).
Definition Transaction_wf (t : Transaction) : Prop :=
  is_byte (tx_version t) /\
  vec_wf TxInput_codec TxInput_wf (inputs t) /\
  vec_wf TxOutput_codec TxOutput_wf (outputs t) /\
  vec_wf ContractCall_codec ContractCall_wf (contract_calls t) /\
  is_u64 (lock_time t) /\
  vec_wf nullifier_codec nullifier_wf (nullifiers t) /\
  byte_vec_wf (witness t).

#[export] Instance byte_vec_ok : CodecOk byte_vec_codec byte_vec_wf := vec_ok u8_codec is_byte.
#[export] Instance byte_vec_canonical : CodecCanonical byte_vec_codec byte_vec_wf :=
  vec_canonical u8_codec is_byte.

#[export] Instance fp_ok : CodecOk fp_codec fp_wf.
Proof.
  apply mk_codec_ok; [by intros h [[_ Hb] _] |].
  intros h rest [[Hl _] Hc]. rewrite read_exact_app by done. by rewrite Hc.
Qed.

#[export] Instance fp_codec_canonical : CodecCanonical fp_codec fp_wf.
Proof.
  apply mk_codec_canonical. intros bs h rest Hb Hd. inv_result.
  apply read_exact_inv in E as [-> Hl]. apply Forall_app in Hb as [Hb _]. done.
Qed.

#[export] Instance nullifier_ok : CodecOk nullifier_codec nullifier_wf.
Proof.
  apply mk_codec_ok; [intros h [Hh _]; by eapply encode_bytes |].
  intros h rest [Hh Hz]. rewrite decode_encode by done. by rewrite bool_decide_false.
Qed.

#[export] Instance nullifier_canonical : CodecCanonical nullifier_codec nullifier_wf.
Proof.
  apply mk_codec_canonical. intros bs h rest Hb Hd. inv_result.
  apply decode_sound in E as [? ->]; [| done]. by apply bool_decide_eq_false in E0.
Qed.

#[export] Instance TxInput_ok : CodecOk TxInput_codec TxInput_wf.
Proof.
  apply mk_codec_ok; intros i.
  - intros (? & ? & ?). encode_fields.
  - intros rest (? & ? & ?). decode_fields. by destruct i.
Qed.

#[export] Instance TxInput_canonical : CodecCanonical TxInput_codec TxInput_wf.
Proof.
  apply mk_codec_canonical. intros bs i rest Hb Hd. inv_result. sound_fields.
  rewrite <- !app_assoc. done.
Qed.

#[export] Instance TxOutput_ok : CodecOk TxOutput_codec TxOutput_wf.
Proof.
  apply mk_codec_ok; intros i.
  - intros (? & ?). encode_fields.
  - intros rest (? & ?). decode_fields. by destruct i.
Qed.

#[export] Instance TxOutput_canonical : CodecCanonical TxOutput_codec TxOutput_wf.
Proof.
  apply mk_codec_canonical. intros bs i rest Hb Hd. inv_result. sound_fields.
  rewrite <- !app_assoc. done.
Qed.

#[export] Instance ContractCall_ok : CodecOk ContractCall_codec ContractCall_wf.
Proof.
  apply mk_codec_ok; intros i.
  - intros (? & ?). encode_fields.
  - intros rest (? & ?). decode_fields. by destruct i.
Qed.

#[export] Instance ContractCall_canonical : CodecCanonical ContractCall_codec ContractCall_wf.
Proof.
  apply mk_codec_canonical. intros bs i rest Hb Hd. inv_result. sound_fields.
  rewrite <- !app_assoc. done.
Qed.

#[export] Instance Transaction_ok : CodecOk Transaction_codec Transaction_wf.
Proof.
  apply mk_codec_ok; intros t.
  - intros (? & ? & ? & ? & ? & ? & ?). encode_fields.
  - intros rest (? & ? & ? & ? & ? & ? & ?). decode_fields. by destruct t.
Qed.

#[export] Instance Transaction_canonical : CodecCanonical Transaction_codec Transaction_wf.
Proof.
  apply mk_codec_canonical. intros bs t rest Hb Hd. inv_result. sound_fields.
  rewrite <- !app_assoc. unfold Transaction_wf. by split_and!.
Qed.
End wf.

(** ** What the identity hash commits to *)

Lemma u32_len_inj {A B : Type} (l1 : list A) (l2 : list B) (r s : list Z) :
  is_u32 (Z.of_nat (length l1)) -> is_u32 (Z.of_nat (length l2)) ->
  u32_len l1 ++ r = u32_len l2 ++ s -> length l1 = length l2 /\ r = s.
Proof.
  unfold u32_len. intros H1 H2 H. rewrite !wrap_small in H by done.
  apply prefix_inj_le in H as [H ->]; [| done | done]. split; [lia | done].
Qed.

(** A counted list within [u32] bounds is prefix-injective when its elements are. *)
Lemma prefix_inj_counted {A : Type} (enc : A -> list Z) (wf : A -> Prop) :
  prefix_inj enc wf ->
  prefix_inj (counted enc) (fun l => Forall wf l /\ is_u32 (Z.of_nat (length l))).
Proof.
  intros He l1 l2 r s [Hw1 Hl1] [Hw2 Hl2] H. unfold counted in H. rewrite <- !app_assoc in H.
  apply u32_len_inj in H as [Hlen H]; [| done | done].
  by apply (prefix_inj_concat enc wf) in H.
Qed.

Lemma prefix_inj_hash_bytes : prefix_inj hash_bytes (fun s => is_u32 (Z.of_nat (length s))).
Proof.
  intros a b r s Ha Hb H. unfold hash_bytes in H. rewrite <- !app_assoc in H.
  apply u32_len_inj in H as [Hlen H]; [| done | done]. by apply app_inj_1 in H.
Qed.
#[export] Hint Resolve prefix_inj_counted prefix_inj_hash_bytes : prefix.

Lemma vec_wf_u32 {A : Type} (c : codec A) (wf : A -> Prop) (l : list A) :
  vec_wf c wf l -> is_u32 (Z.of_nat (length l)).
Proof. intros [_ Hf]. unfold vec_fits, MAX_VEC_BYTES in Hf. unfold is_u. nia. Qed.

Section identity.
Context `{Externals}.

(** Peel one field off an equation of encodings. *)
Ltac peel H L := apply L in H as [? H]; [| eauto using vec_wf_u32 ..].

Lemma prefix_inj_input : prefix_inj hash_input TxInput_wf.
Proof.
  intros [p1 s1 q1] [p2 s2 q2] r s ([Hp1 _] & Hs1 & Hq1) ([Hp2 _] & Hs2 & Hq2) Heq.
  unfold hash_input in Heq. cbn [previous_output in_script sequence value out_script contract_id data] in *.
  rewrite <- !app_assoc in Heq.
  peel Heq (prefix_inj_fixed 32). peel Heq prefix_inj_hash_bytes. peel Heq (prefix_inj_le 4).
  by subst.
Qed.

Lemma prefix_inj_output : prefix_inj hash_output TxOutput_wf.
Proof.
  intros [v1 s1] [v2 s2] r s [Hv1 Hs1] [Hv2 Hs2] Heq.
  unfold hash_output in Heq. cbn [previous_output in_script sequence value out_script contract_id data] in *.
  rewrite <- !app_assoc in Heq.
  peel Heq (prefix_inj_le 8). peel Heq prefix_inj_hash_bytes. by subst.
Qed.

Lemma prefix_inj_call : prefix_inj hash_call ContractCall_wf.
Proof.
  intros [c1 d1] [c2 d2] r s [[[Hc1 _] _] Hd1] [[[Hc2 _] _] Hd2] Heq.
  unfold hash_call in Heq. cbn [previous_output in_script sequence value out_script contract_id data] in *.
  rewrite <- !app_assoc in Heq.
  peel Heq (prefix_inj_fixed 32). peel Heq prefix_inj_hash_bytes. by subst.
Qed.

Lemma prefix_inj_nullifier : prefix_inj (fun nf : list Z => nf) nullifier_wf.
Proof.
  intros a b r s [[[Ha _] _] _] [[[Hb _] _] _] Heq. by apply (prefix_inj_fixed 32) in Heq.
Qed.

(** Two transactions that differ at most in their witness. *)
Definition same_semantics (t1 t2 : Transaction) : Prop :=
  tx_version t1 = tx_version t2 /\ inputs t1 = inputs t2 /\ outputs t1 = outputs t2 /\
  contract_calls t1 = contract_calls t2 /\ lock_time t1 = lock_time t2 /\
  nullifiers t1 = nullifiers t2.

Lemma counted_vec_inj {A : Type} (enc : A -> list Z) (c : codec A) (wf : A -> Prop)
    (l1 l2 : list A) (r s : list Z) :
  prefix_inj enc wf -> vec_wf c wf l1 -> vec_wf c wf l2 ->
  counted enc l1 ++ r = counted enc l2 ++ s -> l1 = l2 /\ r = s.
Proof.
  intros He H1 H2 Heq. apply (prefix_inj_counted enc wf He) in Heq; [done | |];
    (split; [by apply H1 || apply H2 | by eapply vec_wf_u32]).
Qed.

Lemma hash_preimage_inj (t1 t2 : Transaction) :
  Transaction_wf t1 -> Transaction_wf t2 ->
  hash_preimage t1 = hash_preimage t2 -> same_semantics t1 t2.
Proof.
  intros (Hv1 & Hi1 & Ho1 & Hc1 & Hl1 & Hn1 & _) (Hv2 & Hi2 & Ho2 & Hc2 & Hl2 & Hn2 & _) Heq.
  unfold hash_preimage in Heq. apply app_inv_head in Heq.
  apply (prefix_inj_fixed 1) in Heq as [[= Hver] Heq]; [| done | done].
  apply (counted_vec_inj _ _ _ _ _ _ _ prefix_inj_input Hi1 Hi2) in Heq as [Hin Heq].
  apply (counted_vec_inj _ _ _ _ _ _ _ prefix_inj_output Ho1 Ho2) in Heq as [Hout Heq].
  apply (counted_vec_inj _ _ _ _ _ _ _ prefix_inj_call Hc1 Hc2) in Heq as [Hcall Heq].
  apply (prefix_inj_le 8) in Heq as [Hlt Heq]; [| done | done].
  rewrite <- (app_nil_r (counted _ (nullifiers t1))), <- (app_nil_r (counted _ (nullifiers t2))) in Heq.
  apply (counted_vec_inj _ _ _ _ _ _ _ prefix_inj_nullifier Hn1 Hn2) in Heq as [Hnf _].
  by split_and!.
Qed.
End identity.

(** ** Properties *)

Section properties.
Context `{Externals}.

(** A transaction's identity is its semantics and nothing else.  Changing
    the witness (proofs, signatures) never changes the hash, and two
    transactions with the same hash agree on every other field unless their two
    preimages are different strings with the same BLAKE3 digest: the
    length-prefixed preimage is injective. *)
Lemma tx_hash_commits_semantics (t1 t2 : Transaction) :
  Transaction_wf t1 -> Transaction_wf t2 ->
  (same_semantics t1 t2 -> tx_hash t1 = tx_hash t2) /\
  (tx_hash t1 = tx_hash t2 ->
   same_semantics t1 t2 \/
   (hash_preimage t1 <> hash_preimage t2 /\
    blake3 (hash_preimage t1) = blake3 (hash_preimage t2))).
Proof.
  intros H1 H2. split.
  - intros (Ev & Ei & Eo & Ec & El & En). unfold tx_hash, hash_preimage.
    by rewrite Ev, Ei, Eo, Ec, El, En.
  - intros Heq. destruct (decide (hash_preimage t1 = hash_preimage t2)) as [Hp | Hp].
    + left. by apply hash_preimage_inj.
    + by right.
Qed.

(** The storage codec of a transaction is a bijection on the accepted
    bytes: a well-formed transaction is read back from its serialization, and
    bytes that deserialize to a transaction are exactly its serialization, so
    a stored or relayed transaction has one byte form.  A transaction carrying
    the zero nullifier serializes but never deserializes. *)
Lemma tx_codec_bijective (t : Transaction) (bs : list Z) :
  Forall is_byte bs ->
  (Transaction_wf t -> deserialize Transaction_codec (serialize Transaction_codec t) = Ok t) /\
  (deserialize Transaction_codec bs = Ok t ->
   serialize Transaction_codec t = bs /\ Forall (fun nf => nf <> zero32) (nullifiers t)).
Proof.
  intros Hb. split; [apply deserialize_serialize; apply _ |]. intros Hd.
  apply (serialize_deserialize _ Transaction_wf) in Hd as [Hw <-]; [| done]. split; [done |].
  destruct Hw as (_ & _ & _ & _ & _ & [Hn _] & _).
  by eapply Forall_impl; [exact Hn |]; intros nf [_ Hz].
Qed.
End properties.

Definition sample_tx : Transaction := {|
  tx_version := 1;
  inputs := [{| previous_output := replicate 32 7; in_script := [1; 2]; sequence := 0xFFFFFFFF |}];
  outputs := [{| value := 5000; out_script := [9] |}];
  contract_calls := [{| contract_id := to_le_bytes 32 4; data := [0x05; 0xAA] |}];
  lock_time := 0; nullifiers := [to_le_bytes 32 77]; witness := [] |}.

Definition sample_tx_signed : Transaction := {|
  tx_version := 1; inputs := inputs sample_tx; outputs := outputs sample_tx;
  contract_calls := contract_calls sample_tx; lock_time := 0;
  nullifiers := nullifiers sample_tx; witness := [1; 2; 3] |}.

Lemma sample_tx_wf : @Transaction_wf toy sample_tx.
Proof. apply (wf_of_roundtrip (@Transaction_codec toy) (@Transaction_wf toy)); vm_compute; reflexivity. Qed.

Lemma sample_tx_signed_wf : @Transaction_wf toy sample_tx_signed.
Proof. apply (wf_of_roundtrip (@Transaction_codec toy) (@Transaction_wf toy)); vm_compute; reflexivity. Qed.

Lemma tx_hash_commits_semantics_witness :
  @tx_hash toy sample_tx = @tx_hash toy sample_tx_signed.
Proof.
  apply (@tx_hash_commits_semantics toy sample_tx sample_tx_signed);
    [exact sample_tx_wf | exact sample_tx_signed_wf | by split_and!].
Defined.

Lemma tx_codec_bijective_witness :
  deserialize (@Transaction_codec toy) (serialize (@Transaction_codec toy) sample_tx) = Ok sample_tx.
Proof. apply (@tx_codec_bijective toy sample_tx []); [constructor | exact sample_tx_wf]. Defined.
