(* ===== verification/Merkle.v ===== *)
(** * The Merkle trees ([src/linear/src/block.rs])

    [merkle_layers] is the one construction behind the transaction root and
    the uncle root; [merkle_path] is the proof builder of [build_uncle_merkle]
    and [climb] the proof loop of [verify_uncle_proof].  Nodes are 32-byte
    digests.  Results about forged proofs say "or a BLAKE3 collision", and the
    collision is always between two messages of an explicit finite list: those
    the program hashes while it builds the tree and while it checks the proof. *)

From S2P Require Import Prelude Serial Externals.

Section merkle.
Context `{Externals}.

Definition node (a b : list Z) : list Z := blake3 (a ++ b).

(** One pass over a layer: pairs of neighbours, an odd last one with itself. *)
Fixpoint pair_up (layer : list (list Z)) : list (list Z) :=
  match layer with
  | [] => []
  | [a] => [node a a]
  | a :: b :: rest => node a b :: pair_up rest
  end.

(** The [loop] of [merkle_layers]; [None] is a loop that has not finished. *)
Fixpoint layers_loop (fuel : nat) (current : list (list Z)) : option (list (list (list Z))) :=
  if (length current <=? 1)%nat then Some [current]
  else match fuel with
       | O => None
       | S fuel' =>
           match layers_loop fuel' (pair_up current) with
           | Some layers => Some (current :: layers)
           | None => None
           end
       end.

(** A pass at least decrements the layer, so its length bounds the passes. *)
Definition merkle_layers (leaves : list (list Z)) : list (list (list Z)) :=
  default [leaves] (layers_loop (length leaves) leaves).

(** [layers.last().and_then(|l| l.first())]. *)
Definition top_hash (layers : list (list (list Z))) : option (list Z) :=
  match last layers with Some l => head l | None => None end.

Definition merkle_root_of (hashes : list (list Z)) : list Z :=
  match hashes with
  | [] => blake3 []
  | _ => default (blake3 []) (top_hash (merkle_layers hashes))
  end.

(** The sibling of [pos] in a layer of [len] nodes. *)
Definition sibling_pos (pos len : nat) : nat :=
  if (pos mod 2 =? 1)%nat then pos - 1
  else if (pos + 1 <? len)%nat then pos + 1
  else pos.

(** The walk from leaf [pos] to the root: every layer but the last one. *)
Fixpoint merkle_path (layers : list (list (list Z))) (pos : nat) : list (list Z) :=
  match layers with
  | layer :: ((_ :: _) as rest) =>
      match layer !! sibling_pos pos (length layer) with
      | Some n => n :: merkle_path rest (pos / 2)
      | None => merkle_path rest (pos / 2)
      end
  | _ => []
  end.

(** The proof loop: bit [level] of the position says which side we are on. *)
Fixpoint climb (position level : Z) (path : list (list Z)) (current : list Z) : list Z :=
  match path with
  | [] => current
  | sibling :: path' =>
      let bit := Z.land (Z.shiftr position level) 1 in
      let combined := if bit =? 0 then node current sibling else node sibling current in
      climb position (level + 1) path' combined
  end.

(** ** The loop terminates and ends in one node *)

Lemma merkle_path_cons (l l' : list (list Z)) (layers : list (list (list Z))) (pos : nat) :
  merkle_path (l :: l' :: layers) pos =
  match l !! sibling_pos pos (length l) with
  | Some n => n :: merkle_path (l' :: layers) (pos / 2)
  | None => merkle_path (l' :: layers) (pos / 2)
  end.
Proof. done. Qed.

Lemma pair_up_length (l : list (list Z)) : length (pair_up l) = Nat.div2 (S (length l)).
Proof.
  revert l. fix IH 1. intros [|a [|b l]]; [done | done |].
  cbn [pair_up length]. by rewrite IH.
Qed.

Lemma pair_up_shrinks (l : list (list Z)) :
  (2 <= length l)%nat -> (length (pair_up l) < length l)%nat.
Proof.
  intros Hl. rewrite pair_up_length, Nat.div2_div.
  apply Nat.Div0.div_lt_upper_bound; lia.
Qed.

Lemma layers_loop_total (fuel : nat) (l : list (list Z)) :
  (length l <= S fuel)%nat -> is_Some (layers_loop fuel l).
Proof.
  revert l. induction fuel as [|fuel IH]; intros l Hl; cbn [layers_loop].
  - by assert ((length l <=? 1)%nat = true) as -> by (apply Nat.leb_le; lia).
  - destruct (length l <=? 1)%nat eqn:E; [done |]. apply Nat.leb_gt in E.
    pose proof (pair_up_shrinks l ltac:(lia)).
    destruct (IH (pair_up l)) as [ls ->]; [lia | done].
Qed.

Lemma merkle_layers_loop (l : list (list Z)) :
  layers_loop (length l) l = Some (merkle_layers l).
Proof.
  unfold merkle_layers. destruct (layers_loop_total (length l) l) as [ls ->]; [lia | done].
Qed.

(** Rule induction for the layers a finished loop returns. *)
Inductive tower : list (list (list Z)) -> Prop :=
| tower_top l : (length l <= 1)%nat -> tower [l]
| tower_step l layers :
    (2 <= length l)%nat -> tower (pair_up l :: layers) -> tower (l :: pair_up l :: layers).

Lemma layers_loop_tower (fuel : nat) (l : list (list Z)) (ls : list (list (list Z))) :
  layers_loop fuel l = Some ls -> tower ls /\ head ls = Some l.
Proof.
  revert l ls. induction fuel as [|fuel IH]; intros l ls; cbn [layers_loop];
    destruct (length l <=? 1)%nat eqn:E; intros Hl; simplify_eq;
    try (split; [constructor; by apply Nat.leb_le | done]).
  destruct (layers_loop fuel (pair_up l)) as [layers|] eqn:El; simplify_eq.
  apply IH in El as [Ht Hh]. destruct layers as [|x layers]; simplify_eq/=.
  split; [| done]. constructor; [apply Nat.leb_gt in E; lia | done].
Qed.

Lemma merkle_layers_tower (l : list (list Z)) :
  tower (merkle_layers l) /\ head (merkle_layers l) = Some l.
Proof. apply (layers_loop_tower (length l)). apply merkle_layers_loop. Qed.

(** The layers are determined by the leaves. *)
Lemma tower_unique (ls1 ls2 : list (list (list Z))) :
  tower ls1 -> tower ls2 -> head ls1 = head ls2 -> ls1 = ls2.
Proof.
  intros Ht1. revert ls2. induction Ht1 as [l Hl | l layers Hl Ht1 IH]; intros ls2 Ht2 Hh;
    destruct Ht2 as [l' Hl' | l' layers' Hl' Ht2]; injection Hh as ->; [done | lia | lia |].
  f_equal. by apply IH.
Qed.

Lemma pair_up_nonempty (l : list (list Z)) : l <> [] -> pair_up l <> [].
Proof. by destruct l as [|a [|b l]]. Qed.

Lemma tower_top_hash (ls : list (list (list Z))) (l : list (list Z)) :
  tower ls -> head ls = Some l -> l <> [] -> exists r, last ls = Some [r].
Proof.
  intros Ht. revert l. induction Ht as [l Hl | l layers Hl Ht IH]; intros l0 [= <-] Hne.
  - destruct l as [|r [|]]; [done | by exists r | simpl in Hl; lia].
  - destruct (IH (pair_up l) eq_refl (pair_up_nonempty l Hne)) as [r Hr].
    exists r. by rewrite last_cons_cons.
Qed.

(** ** Completeness: built proofs climb to the root *)

Lemma pair_up_lookup (l : list (list Z)) (k : nat) :
  pair_up l !! k =
  match l !! (2 * k)%nat, l !! (2 * k + 1)%nat with
  | Some a, Some b => Some (node a b)
  | Some a, None => Some (node a a)
  | None, _ => None
  end.
Proof.
  revert l k. fix IH 1. intros [|a [|b l]] k.
  - done.
  - by destruct k as [|[|k]].
  - destruct k as [|k]; [done |]. cbn [pair_up lookup list_lookup]. rewrite IH.
    replace (2 * S k)%nat with (S (S (2 * k))) by lia.
    replace (S (S (2 * k)) + 1)%nat with (S (S (2 * k + 1))) by lia. done.
Qed.

(** The node above [pos] from the node and its sibling. *)
Lemma sibling_lookup (l : list (list Z)) (pos : nat) (x : list Z) :
  l !! pos = Some x ->
  exists y, l !! sibling_pos pos (length l) = Some y /\
            pair_up l !! (pos / 2)%nat
            = Some (if (pos mod 2 =? 0)%nat then node x y else node y x).
Proof.
  intros Hx. pose proof (lookup_lt_Some _ _ _ Hx) as Hlt.
  pose proof (Nat.div_mod_eq pos 2) as Hd. pose proof (Nat.mod_upper_bound pos 2 ltac:(lia)) as Hm.
  unfold sibling_pos. rewrite pair_up_lookup.
  destruct (pos mod 2)%nat as [|[|n]] eqn:Em; [| | lia]; cbn [Nat.eqb].
  - replace (2 * (pos / 2))%nat with pos by lia. rewrite Hx.
    destruct (pos + 1 <? length l)%nat eqn:El.
    + apply Nat.ltb_lt in El. destruct (lookup_lt_is_Some_2 l (pos + 1) El) as [y Hy].
      exists y. by rewrite Hy.
    + apply Nat.ltb_ge in El. exists x. by rewrite (lookup_ge_None_2 l (pos + 1)).
  - replace (2 * (pos / 2))%nat with (pos - 1)%nat by lia.
    replace (pos - 1 + 1)%nat with pos by lia. rewrite Hx.
    destruct (lookup_lt_is_Some_2 l (pos - 1) ltac:(lia)) as [y Hy]. exists y. by rewrite Hy.
Qed.

Lemma position_bit (position level : Z) (pos : nat) :
  0 <= level -> Z.shiftr position level = Z.of_nat pos ->
  Z.land (Z.shiftr position level) 1 = Z.of_nat (pos mod 2) /\
  Z.shiftr position (level + 1) = Z.of_nat (pos / 2).
Proof.
  intros Hl Hp. split.
  - rewrite Hp, Nat2Z.inj_mod. exact (Z.land_ones (Z.of_nat pos) 1 ltac:(lia)).
  - rewrite <- Z.shiftr_shiftr, Hp, Z.shiftr_div_pow2, Nat2Z.inj_div by lia. done.
Qed.

Lemma climb_path (ls : list (list (list Z))) (l : list (list Z)) (pos : nat) (x r : list Z)
    (position level : Z) :
  tower ls -> head ls = Some l -> l !! pos = Some x -> last ls = Some [r] ->
  0 <= level -> Z.shiftr position level = Z.of_nat pos ->
  climb position level (merkle_path ls pos) x = r.
Proof.
  intros Ht. revert l pos x level.
  induction Ht as [l Hl | l layers Hl Ht IH]; intros l0 pos x level [= <-] Hx Hr Hlev Hpos.
  - cbn in Hr. simplify_eq. apply list_lookup_singleton_Some in Hx as [_ ->]. done.
  - destruct (position_bit _ _ _ Hlev Hpos) as [Hbit Hpos'].
    destruct (sibling_lookup l pos x Hx) as (y & Hy & Hup).
    rewrite merkle_path_cons, Hy. cbn [climb]. rewrite Hbit.
    rewrite last_cons_cons in Hr. eapply (IH (pair_up l)); [done | | done | lia | done].
    rewrite Hup. destruct (pos mod 2 =? 0)%nat eqn:Em.
    + apply Nat.eqb_eq in Em. by rewrite Em.
    + apply Nat.eqb_neq in Em. by assert (Z.of_nat (pos mod 2) =? 0 = false) as -> by lia.
Qed.

(** A layer of at most [2^k] nodes has a proof of at most [k] siblings. *)
Lemma merkle_path_length (ls : list (list (list Z))) (l : list (list Z)) (pos k : nat) :
  tower ls -> head ls = Some l -> (length l <= 2 ^ k)%nat ->
  (length (merkle_path ls pos) <= k)%nat.
Proof.
  intros Ht. revert l pos k. induction Ht as [l Hl | l layers Hl Ht IH]; intros l0 pos k [= <-] Hk.
  - simpl. lia.
  - destruct k as [|k]; [simpl in Hk; lia |]. rewrite merkle_path_cons.
    assert (length (pair_up l) <= 2 ^ k)%nat.
    { rewrite pair_up_length, Nat.div2_div. rewrite Nat.pow_succ_r' in Hk.
      assert (S (length l) / 2 < S (2 ^ k))%nat by (apply Nat.Div0.div_lt_upper_bound; lia). lia. }
    specialize (IH (pair_up l) (pos / 2)%nat k eq_refl ltac:(done)).
    destruct (l !! _); cbn [length]; lia.
Qed.

(** ** Soundness: a proof that climbs to the root starts at a leaf *)

(** The messages one pass hashes, those of a whole tree, and those of a proof
    check.  The top layer is not hashed again. *)
Fixpoint pair_msgs (layer : list (list Z)) : list (list Z) :=
  match layer with
  | [] => []
  | [a] => [a ++ a]
  | a :: b :: rest => (a ++ b) :: pair_msgs rest
  end.

Fixpoint tower_msgs (layers : list (list (list Z))) : list (list Z) :=
  match layers with
  | layer :: ((_ :: _) as rest) => pair_msgs layer ++ tower_msgs rest
  | _ => []
  end.

Fixpoint climb_msgs (position level : Z) (path : list (list Z)) (current : list Z) : list (list Z) :=
  match path with
  | [] => []
  | sibling :: path' =>
      let m := if Z.land (Z.shiftr position level) 1 =? 0
               then current ++ sibling else sibling ++ current in
      m :: climb_msgs position (level + 1) path' (blake3 m)
  end.

(** Two different messages of the list have the same digest. *)
Definition collides (M : list (list Z)) : Prop :=
  exists m1 m2 : list Z, m1 ∈ M /\ m2 ∈ M /\ m1 <> m2 /\ blake3 m1 = blake3 m2.

Definition digests (l : list (list Z)) : Prop := Forall (fun h => length h = 32%nat) l.

Lemma node_length (a b : list Z) : length (node a b) = 32%nat.
Proof. apply blake3_wf. Qed.

Lemma pair_up_digests (l : list (list Z)) : digests (pair_up l).
Proof.
  unfold digests. revert l. fix IH 1. intros [|a [|b l]]; cbn [pair_up];
    repeat constructor; try apply node_length. apply IH.
Qed.

Lemma app_subset (l1 l2 M : list (list Z)) : l1 ++ l2 ⊆ M -> l1 ⊆ M /\ l2 ⊆ M.
Proof. intros HM. split; intros m Hm; apply HM, elem_of_app; auto. Qed.

Lemma blake3_inj_or (M : list (list Z)) (m1 m2 : list Z) :
  m1 ∈ M -> m2 ∈ M -> blake3 m1 = blake3 m2 -> m1 = m2 \/ collides M.
Proof. intros H1 H2 Heq. destruct (decide (m1 = m2)); [by left | right; by exists m1, m2]. Qed.

(** Every node of a paired layer is the hash of two nodes below. *)
Lemma pair_up_elem (l : list (list Z)) (x : list Z) :
  x ∈ pair_up l -> exists a b, a ∈ l /\ b ∈ l /\ a ++ b ∈ pair_msgs l /\ x = node a b.
Proof.
  revert l x. fix IH 1. intros [|a [|b l]] x Hx; cbn [pair_up pair_msgs] in *.
  - by apply not_elem_of_nil in Hx.
  - apply list_elem_of_singleton in Hx as ->. clear IH. exists a, a. split_and!; try done; apply list_elem_of_here.
  - apply elem_of_cons in Hx as [-> | Hx].
    + clear IH. exists a, b. split_and!; [apply list_elem_of_here | | apply list_elem_of_here | done].
      apply list_elem_of_further, list_elem_of_here.
    + destruct (IH l x Hx) as (c & d & Hc & Hd & Hm & ->). clear IH. exists c, d.
      split_and!; [by do 2 apply list_elem_of_further | by do 2 apply list_elem_of_further
        | by apply list_elem_of_further | done].
Qed.

Lemma climb_cons (position level : Z) (s : list Z) (path : list (list Z)) (x : list Z) :
  exists a b, climb position level (s :: path) x = climb position (level + 1) path (node a b) /\
              climb_msgs position level (s :: path) x
              = (a ++ b) :: climb_msgs position (level + 1) path (node a b) /\
              ((a = x /\ b = s) \/ (a = s /\ b = x)).
Proof. cbn [climb climb_msgs]. destruct (_ =? 0); [exists x, s | exists s, x]; auto. Qed.

Lemma tower_elem (ls : list (list (list Z))) (l layer : list (list Z)) :
  tower ls -> head ls = Some l -> layer ∈ ls ->
  layer = l \/ exists l', l' ∈ ls /\ pair_msgs l' ⊆ tower_msgs ls /\ layer = pair_up l'.
Proof.
  intros Ht. revert l. induction Ht as [l Hl | l layers Hl Ht IH]; intros l0 [= <-] Hin.
  - left. by apply list_elem_of_singleton in Hin.
  - apply elem_of_cons in Hin as [-> | Hin]; [by left | right].
    change (tower_msgs (l :: pair_up l :: layers))
      with (pair_msgs l ++ tower_msgs (pair_up l :: layers)).
    destruct (IH _ eq_refl Hin) as [-> | (l' & Hl' & Hm & ->)].
    + exists l. split_and!; [apply list_elem_of_here | | done]. intros m H'. apply elem_of_app. by left.
    + exists l'. split_and!; [by apply list_elem_of_further | | done].
      intros m H'. apply elem_of_app. right. by apply Hm.
Qed.

Lemma tower_digests (ls : list (list (list Z))) (l layer : list (list Z)) :
  tower ls -> head ls = Some l -> digests l -> layer ∈ ls -> digests layer.
Proof.
  intros Ht Hh Hd Hin. destruct (tower_elem _ _ _ Ht Hh Hin) as [-> | (l' & _ & _ & ->)]; [done |].
  apply pair_up_digests.
Qed.

(** The lemmas below are relative to a list [M] of the messages hashed. *)
Section hashed.
Variable M : list (list Z).

Lemma node_inj_or (a b c d : list Z) :
  length a = 32%nat -> length c = 32%nat -> a ++ b ∈ M -> c ++ d ∈ M ->
  node a b = node c d -> (a = c /\ b = d) \/ collides M.
Proof.
  intros Ha Hc Hm1 Hm2 Heq. apply (blake3_inj_or M) in Heq as [Heq | Hcol]; [left | by right | done | done].
  apply app_inj_1 in Heq; [done | congruence].
Qed.

(** One step down: a node of a paired layer opens to nodes of the layer. *)
Lemma open_node (l : list (list Z)) (a b : list Z) :
  digests l -> length a = 32%nat -> a ++ b ∈ M -> pair_msgs l ⊆ M ->
  node a b ∈ pair_up l -> (a ∈ l /\ b ∈ l) \/ collides M.
Proof.
  intros Hl Ha Hm HM Hn. apply pair_up_elem in Hn as (c & d & Hc & Hd & Hcd & Heq).
  pose proof (proj1 (Forall_forall _ _) Hl c Hc) as Hlc.
  apply node_inj_or in Heq as [[-> ->] | Hcol]; [by left | by right | done | done | done | by apply HM].
Qed.

Lemma climb_sound (ls : list (list (list Z))) (l : list (list Z)) (r : list Z) (position : Z) :
  tower ls -> head ls = Some l -> digests l -> last ls = Some [r] -> tower_msgs ls ⊆ M ->
  forall path x level,
  digests path -> length x = 32%nat -> climb_msgs position level path x ⊆ M ->
  climb position level path x = r ->
  (exists layer, layer ∈ ls /\ x ∈ layer) \/
  (exists a b, length a = 32%nat /\ length b = 32%nat /\ a ++ b ∈ M /\ node a b ∈ l) \/ collides M.
Proof.
  intros Ht Hh Hd Hr HM path. induction path as [|s path IH]; intros x level Hp Hx Hcm Hc.
  - left. exists [r]. split; [by apply last_Some_elem_of | cbn in Hc; subst; apply list_elem_of_here].
  - apply Forall_cons in Hp as [Hs Hp'].
    destruct (climb_cons position level s path x) as (a & b & Heq & Heqm & Hxab).
    rewrite Heq in Hc. rewrite Heqm in Hcm.
    assert (length a = 32%nat /\ length b = 32%nat) as [Ha Hb] by (destruct Hxab as [[]|[]]; by subst).
    assert (a ++ b ∈ M) as Hab by apply Hcm, list_elem_of_here.
    destruct (IH (node a b) (level + 1) Hp' (node_length a b)) as [(layer & Hin & Hn) | Hrest];
      [intros m Hm; by apply Hcm, list_elem_of_further | done | | by right].
    destruct (tower_elem _ _ _ Ht Hh Hin) as [-> | (l' & Hl' & Hm' & ->)]; [right; left; eauto 6 |].
    destruct (open_node l' a b) as [[Ha' Hb'] | Hcol];
      [by eapply tower_digests | done | done | by etransitivity | done | | by auto].
    left. exists l'. split; [done |]. destruct Hxab as [[]|[]]; by subst.
Qed.
End hashed.

(** ** Roots *)

Lemma root_layers (hashes : list (list Z)) (r : list Z) :
  last (merkle_layers hashes) = Some [r] -> hashes <> [] -> merkle_root_of hashes = r.
Proof.
  intros Hr Hne. unfold merkle_root_of, top_hash. rewrite Hr. by destruct hashes.
Qed.

Lemma merkle_layers_last (hashes : list (list Z)) :
  hashes <> [] -> last (merkle_layers hashes) = Some [merkle_root_of hashes].
Proof.
  intros Hne. destruct (merkle_layers_tower hashes) as [Ht Hh].
  destruct (tower_top_hash _ _ Ht Hh Hne) as [r Hr]. by rewrite (root_layers hashes r).
Qed.

(** The path of [i] leads from leaf [i] to the root. *)
Lemma merkle_complete (hashes : list (list Z)) (i : nat) (x : list Z) :
  hashes !! i = Some x ->
  climb (Z.of_nat i) 0 (merkle_path (merkle_layers hashes) i) x = merkle_root_of hashes.
Proof.
  intros Hx. destruct (merkle_layers_tower hashes) as [Ht Hh].
  eapply climb_path; [done | done | done | | lia | by rewrite Z.shiftr_0_r].
  apply merkle_layers_last. by intros ->.
Qed.

(** Everything hashed when a tree over [msgs] is built and [m] is checked
    against it. *)
Definition proof_msgs (msgs : list (list Z)) (m : list Z) (position : Z) (path : list (list Z)) :
    list (list Z) :=
  (msgs ++ tower_msgs (merkle_layers (map blake3 msgs))) ++
  m :: climb_msgs position 0 path (blake3 m).

(** A digest of a message that is not two digests long is not an inner node. *)
Lemma leaf_not_node (M : list (list Z)) (a b m : list Z) :
  length a = 32%nat -> length b = 32%nat -> length m <> 64%nat -> m ∈ M -> a ++ b ∈ M ->
  blake3 m = node a b -> collides M.
Proof.
  intros Ha Hb Hm HmM HabM Heq. apply (blake3_inj_or M) in Heq as [-> | Hcol]; [| done | done | done].
  rewrite length_app in Hm. lia.
Qed.

(** Leaves that are hashes of messages of a length other than two digests: only
    a leaf's message can be proved, whatever path and position are offered. *)
Lemma merkle_sound (msgs : list (list Z)) (m : list Z) (path : list (list Z)) (position : Z) :
  msgs <> [] -> Forall (fun m => length m <> 64%nat) msgs -> length m <> 64%nat ->
  digests path ->
  climb position 0 path (blake3 m) = merkle_root_of (map blake3 msgs) ->
  m ∈ msgs \/ collides (proof_msgs msgs m position path).
Proof.
  intros Hne Hmsgs Hm Hp Hc. set (M := proof_msgs msgs m position path).
  destruct (merkle_layers_tower (map blake3 msgs)) as [Ht Hh].
  assert (msgs ⊆ M) as HM1 by (intros z Hz; unfold M, proof_msgs; rewrite !elem_of_app; auto).
  assert (tower_msgs (merkle_layers (map blake3 msgs)) ⊆ M) as HM2
    by (intros z Hz; unfold M, proof_msgs; rewrite !elem_of_app; auto).
  assert (m ∈ M) as HM3 by (unfold M, proof_msgs; rewrite elem_of_app, elem_of_cons; auto).
  assert (climb_msgs position 0 path (blake3 m) ⊆ M) as HM4
    by (intros z Hz; unfold M, proof_msgs; rewrite elem_of_app, elem_of_cons; auto).
  assert (digests (map blake3 msgs)) as Hd by (apply Forall_map, Forall_forall; intros x _; apply blake3_wf).
  assert (map blake3 msgs <> []) as Hne' by (by destruct msgs).
  destruct (climb_sound M _ _ _ position Ht Hh Hd
    (merkle_layers_last _ Hne') HM2 path (blake3 m) 0 Hp (proj1 (blake3_wf m)) HM4 Hc)
    as [(layer & Hin & Hx) | [(a & b & Ha & Hb & Hab & Hx) | Hcol]]; [| | by right].
  - destruct (tower_elem _ _ _ Ht Hh Hin) as [-> | (l' & Hl' & Hml & ->)].
    + apply list_elem_of_fmap in Hx as (m' & Heq & Hm').
      apply (blake3_inj_or M) in Heq as [-> | Hcol]; [by left | by right | done | by apply HM1].
    + right. apply pair_up_elem in Hx as (a & b & Ha & Hb & Hab & Heq).
      pose proof (tower_digests _ _ _ Ht Hh Hd Hl') as Hdl.
      unfold digests in Hdl. rewrite Forall_forall in Hdl.
      by apply (leaf_not_node M a b m); auto.
  - right. apply list_elem_of_fmap in Hx as (m' & Heq & Hm').
    rewrite Forall_forall in Hmsgs. by apply (leaf_not_node M a b m'); auto.
Qed.

(** ** Equal roots *)

Lemma pair_up_inj_or (M l1 l2 : list (list Z)) :
  length l1 = length l2 -> digests l1 -> digests l2 -> pair_msgs l1 ⊆ M -> pair_msgs l2 ⊆ M ->
  pair_up l1 = pair_up l2 -> l1 = l2 \/ collides M.
Proof.
  revert l1 l2. fix IH 1. intros [|a [|b l1]] [|c [|d l2]] Hlen H1 H2 HM1 HM2 Heq; try discriminate Hlen.
  - by left.
  - injection Heq as Heq. inversion H1; inversion H2; subst.
    apply (node_inj_or M) in Heq as [[-> _] | Hc];
      [by left | by right | done | done | apply HM1 | apply HM2]; apply list_elem_of_here.
  - injection Heq as Heq Hrest. inversion H1 as [|? ? Ha H1']; inversion H2 as [|? ? Hc H2']; subst.
    inversion H1' as [|? ? Hb H1'']; inversion H2' as [|? ? Hd H2'']; subst.
    cbn [pair_msgs] in HM1, HM2.
    apply (node_inj_or M) in Heq as [[-> ->] | Hcol];
      [| by right | done | done | apply HM1, list_elem_of_here | apply HM2, list_elem_of_here].
    injection Hlen as Hlen.
    destruct (IH l1 l2 Hlen H1'' H2'') as [-> | Hcol];
      [intros z Hz; by apply HM1, list_elem_of_further | intros z Hz; by apply HM2, list_elem_of_further
      | done | by left | by right].
Qed.

Lemma tower_inj_or (M : list (list Z)) (ls1 ls2 : list (list (list Z))) (l1 l2 : list (list Z)) :
  tower ls1 -> tower ls2 -> head ls1 = Some l1 -> head ls2 = Some l2 ->
  length l1 = length l2 -> digests l1 -> digests l2 ->
  tower_msgs ls1 ⊆ M -> tower_msgs ls2 ⊆ M -> last ls1 = last ls2 ->
  l1 = l2 \/ collides M.
Proof.
  intros Ht1. revert ls2 l1 l2. induction Ht1 as [l Hl | l layers Hl Ht1 IH];
    intros ls2 l1 l2 Ht2 [= <-] Hh2 Hlen H1 H2 HM1 HM2 Hlast;
    destruct Ht2 as [l' Hl' | l' layers' Hl' Ht2]; injection Hh2 as <-.
  - left. by injection Hlast.
  - lia.
  - lia.
  - rewrite !last_cons_cons in Hlast.
    change (pair_msgs l ++ tower_msgs (pair_up l :: layers) ⊆ M) in HM1.
    change (pair_msgs l' ++ tower_msgs (pair_up l' :: layers') ⊆ M) in HM2.
    apply app_subset in HM1 as [HM1 HM1']. apply app_subset in HM2 as [HM2 HM2'].
    destruct (IH (pair_up l' :: layers') _ _ Ht2 eq_refl eq_refl) as [Heq | Hc];
      [by rewrite !pair_up_length, Hlen | apply pair_up_digests | apply pair_up_digests
      | done | done | done | by apply pair_up_inj_or | by right].
Qed.

(** Everything hashed above the leaves [l1] and [l2]. *)
Definition root_msgs (l1 l2 : list (list Z)) : list (list Z) :=
  tower_msgs (merkle_layers l1) ++ tower_msgs (merkle_layers l2).

Lemma root_inj_or (l1 l2 : list (list Z)) :
  length l1 = length l2 -> digests l1 -> digests l2 ->
  merkle_root_of l1 = merkle_root_of l2 -> l1 = l2 \/ collides (root_msgs l1 l2).
Proof.
  intros Hlen H1 H2 Heq. destruct (decide (l1 = [])) as [-> | Hne].
  { left. by destruct l2. }
  assert (l2 <> []) as Hne2 by (by intros ->; destruct l1).
  destruct (merkle_layers_tower l1) as [Ht1 Hh1]. destruct (merkle_layers_tower l2) as [Ht2 Hh2].
  apply (tower_inj_or _ (merkle_layers l1) (merkle_layers l2)); try done.
  - intros z Hz. apply elem_of_app. by left.
  - intros z Hz. apply elem_of_app. by right.
  - by rewrite !merkle_layers_last, Heq.
Qed.

(** An odd list and the list with its last element repeated have the same root. *)
Lemma pair_up_dup (l : list (list Z)) (a : list Z) :
  Nat.Even (length l) -> pair_up (l ++ [a]) = pair_up (l ++ [a; a]).
Proof.
  revert l. fix IH 1. intros [|x [|y l]] He; [done | |].
  - destruct He as [k Hk]. simpl in Hk. lia.
  - cbn [app pair_up]. f_equal. apply IH. destruct He as [k Hk]. exists (k - 1)%nat.
    simpl in Hk. lia.
Qed.

Lemma root_of_pair_up (l : list (list Z)) :
  (2 <= length l)%nat -> merkle_root_of l = merkle_root_of (pair_up l).
Proof.
  intros Hl. assert (l <> []) as Hne by (by intros ->; simpl in Hl; lia).
  destruct (merkle_layers_tower l) as [Ht Hh]. pose proof (merkle_layers_last l Hne) as Hr.
  destruct (merkle_layers_tower (pair_up l)) as [Ht' Hh'].
  pose proof (merkle_layers_last _ (pair_up_nonempty l Hne)) as Hr'.
  destruct Ht as [l0 Hl0 | l0 layers Hl0 Ht]; injection Hh as ->; [lia |].
  rewrite last_cons_cons in Hr.
  assert (pair_up l :: layers = merkle_layers (pair_up l)) as Heq by by apply tower_unique.
  rewrite Heq in Hr. congruence.
Qed.
End merkle.
