(* ===== verification/Block.v ===== *)
(** * Blocks ([src/linear/src/block.rs], [src/linear/src/serial_sync.rs], [src/linear/src/error.rs])

    The block structures and their storage codec, the 292-byte mining blob, the
    transaction and uncle Merkle roots with their proofs, and the reward split
    between the canonical miner and the uncles. *)

From Stdlib Require Import String.
From S2P Require Import Prelude Units Emission Serial Externals Transaction Merkle.

(** ** Errors *)

(** [LinearError]; the text of a message is kept as a short reason. *)
Inductive LinearError :=
| BlockNotFound (height : Z)
| TransactionNotFound (hash : list Z)
| StorageError (reason : string)
| SerializationError (e : io_error)
| BlockIsInvalid (reason : string)
| InvalidPoW (hash : list Z)
| InvalidTarget (declared expected height : Z)
| HeightDiscontinuity (expected got : Z)
| InvalidPreviousHash (hash : list Z)
| MerkleRootMismatch (hash : list Z)
| UncleMerkleRootMismatch (hash : list Z)
| UncleProofInvalid (key : list Z)
| UncleTooOld (uncle_height current max_depth : Z)
| DuplicateUncle (key : list Z)
| TooManyUncles (count max : Z)
| BlockStructure (reason : string)
| DifficultyNotMet
| AnchoredBlockConflict
| InvalidTimestamp (timestamp : Z) (reason : string)
| RandomXError
| MoneroMergeMineError (reason : string)
| LockPoisoned.

Definition Res (A : Type) : Type := result LinearError A.

(** ** Limits *)

Definition BLOCK_GAS_LIMIT : Z := 100000000000.
Definition MAX_UNCLE_DEPTH : Z := 6.
Definition MAX_UNCLE_COUNT : Z := 6.
Definition MAX_COMPETING_BLOCKS : Z := 20.
Definition NONCE_OFFSET : nat := 39.
Definition POW_SOURCE_OFFSET : nat := 227.
Definition ANCHOR_OWNER_OFFSET : nat := 260.
Definition MINING_BLOB_LEN : nat := 292.

(** ** Structures *)

Inductive PowSource `{Externals} :=
| Native
| Monero (proof_data : MoneroPowData).

Record BlockHeader `{Externals} := {
  version : Z;
  previous : list Z;
  merkle_root : list Z;
  timestamp : Z;
  target : Z;
  nonce : Z;
  height : Z;
  uncle_merkle_root : list Z;
  total_reward : Z;
  randomx_key : list Z;
  miner : list Z;
  anchor_owner : list Z;
  commitment_merkle_root : list Z;
  nullifier_root : list Z;
  anchor_tx_id : list Z;
  caribina_anchor : option (list Z);
  anchor_monero_height : Z;
  anchor_monero_hash : list Z;
  finality_flags : Z;
  fee_window_flags : Z;
  pow_source : PowSource
}.

Record Block `{Externals} := {
  header : BlockHeader;
  transactions : list Transaction
}.

Record UncleBlock `{Externals} := {
  uncle_header : BlockHeader;
  uncle_transactions : list Transaction;
  pin_accepted : bool;
  pin_confirmed : Z
}.

Record UncleProof := {
  proof_path : list (list Z);
  position : Z
}.

Section block.
Context `{Externals}.

(** ** The mining blob *)

Definition pow_disc (p : PowSource) : Z := match p with Native => 0 | Monero _ => 1 end.

Definition to_mining_blob (h : BlockHeader) : list Z :=
  previous h ++
  [version h] ++
  to_le_bytes 4 (target h) ++
  [0; 0] ++
  to_le_bytes 4 (nonce h) ++
  to_le_bytes 8 (height h) ++
  merkle_root h ++
  to_le_bytes 8 (timestamp h) ++
  uncle_merkle_root h ++
  to_le_bytes 8 (total_reward h) ++
  randomx_key h ++
  commitment_merkle_root h ++
  nullifier_root h ++
  [pow_disc (pow_source h)] ++
  miner h ++
  anchor_owner h.

(** [hash_with_vm] under a VM keyed with [vm_key]: the first 32 output bytes. *)
Definition hash_with_vm (h : BlockHeader) (vm_key : list Z) : Res (list Z) :=
  match randomx vm_key (to_mining_blob h) with
  | None => Err RandomXError
  | Some rx_hash =>
      if (length rx_hash <? 32)%nat then Err RandomXError else Ok (take 32 rx_hash)
  end.

(** [u32::from_le_bytes([b[0], b[1], b[2], b[3]])]. *)
Definition hash_u32 (hash : list Z) : Z := from_le_bytes (take 4 hash).

(** ** Uncles *)

Definition accept_pin (u : UncleBlock) : UncleBlock :=
  {| uncle_header := uncle_header u; uncle_transactions := uncle_transactions u;
     pin_accepted := true; pin_confirmed := pin_confirmed u |}.

Definition depth_for (current_height uncle_height : Z) : Z :=
  wrap 8 (Z.min (saturating_sub current_height uncle_height) MAX_UNCLE_DEPTH).

Definition create_uncle (b : Block) (depth base_reward : Z) : UncleBlock :=
  let depth := Z.min depth MAX_UNCLE_DEPTH in
  {| uncle_header := header b; uncle_transactions := transactions b;
     pin_accepted := false; pin_confirmed := BlockReward.split_for_uncle base_reward depth |}.

(** ** Merkle roots *)

Definition compute_merkle_root (txs : list Transaction) : list Z := merkle_root_of (map tx_hash txs).

Definition verify_merkle_root (b : Block) : bool :=
  bool_decide (compute_merkle_root (transactions b) = merkle_root (header b)).

Definition uncle_leaf (u : UncleBlock) : list Z := blake3 (to_mining_blob (uncle_header u)).

Definition build_uncle_merkle (uncles : list UncleBlock) : list Z * list UncleProof :=
  match uncles with
  | [] => (zero32, [])
  | _ =>
      let layers := merkle_layers (map uncle_leaf uncles) in
      let root := match top_hash layers with Some n => n | None => zero32 end in
      let proofs := map (fun i => {| proof_path := merkle_path layers i;
                                     position := wrap 32 (Z.of_nat i) |})
                        (seq 0 (length uncles)) in
      (root, proofs)
  end.

Definition verify_uncle_proof (h : BlockHeader) (proof : UncleProof) (root : list Z)
    (tgt : Z) : bool :=
  match randomx (randomx_key h) (to_mining_blob h) with
  | None => false
  | Some rx_hash =>
      if (length rx_hash <? 32)%nat then false
      else if negb (BlockTarget.hash_is_valid tgt (hash_u32 (take 32 rx_hash))) then false
      else if MAX_UNCLE_DEPTH <? Z.of_nat (length (proof_path proof)) then false
      else bool_decide (climb (position proof) 0 (proof_path proof) (blake3 (to_mining_blob h)) = root)
  end.

(** ** Rewards *)

Fixpoint total_accepted_pin_from (total : Z) (uncles : list UncleBlock) : Res Z :=
  match uncles with
  | [] => Ok total
  | u :: rest =>
      if negb (pin_accepted u) then total_accepted_pin_from total rest
      else match checked_add 64 total (pin_confirmed u) with
           | Some total' => total_accepted_pin_from total' rest
           | None => Err (BlockIsInvalid "pin overflow")
           end
  end.
Definition total_accepted_pin (uncles : list UncleBlock) : Res Z := total_accepted_pin_from 0 uncles.

Definition compute_reward (base_reward : Z) (uncles : list UncleBlock) : Res (Z * list Z) :=
  match uncles with
  | [] => Ok (base_reward, [])
  | _ =>
      let uncle_rewards := map (fun u => if pin_accepted u then pin_confirmed u else 0) uncles in
      let? total := total_accepted_pin uncles in
      match checked_sub 64 base_reward total with
      | Some canonical => Ok (canonical, uncle_rewards)
      | None => Err (BlockIsInvalid "pin rewards exceed base reward")
      end
  end.

(** [create_block_with_uncles]; [now] is the system clock in seconds. *)
Definition create_block_with_uncles (now : Z) (prev : list Z) (h : Z) (txs : list Transaction)
    (tgt : Z) (uncles : list UncleBlock) : Res Block :=
  let root := compute_merkle_root txs in
  let '(uncle_root, _) := build_uncle_merkle uncles in
  let base_reward := expected_reward h in
  let? (reward, _) := compute_reward base_reward uncles in
  Ok {| header := {|
          version := BlockVersion_CURRENT; previous := prev; merkle_root := root;
          timestamp := now; target := tgt; nonce := 0; height := h;
          uncle_merkle_root := uncle_root; total_reward := reward;
          randomx_key := zero32; miner := zero32; anchor_owner := zero32;
          commitment_merkle_root := zero32; nullifier_root := zero32;
          anchor_tx_id := zero32; caribina_anchor := None;
          anchor_monero_height := 0; anchor_monero_hash := zero32;
          finality_flags := 0; fee_window_flags := 0; pow_source := Native |};
        transactions := txs |}.

Definition create_block (now : Z) (prev : list Z) (h : Z) (txs : list Transaction) (tgt : Z) :
    Res Block :=
  create_block_with_uncles now prev h txs tgt [].

(** ** The storage codec *)

Definition PowSource_codec : codec PowSource :=
  mk_codec (fun p => match p with
                     | Native => encode u8_codec 0
                     | Monero d => encode u8_codec 1 ++ encode monero_codec d
                     end)
    (fun bs => let? (disc, bs1) := decode u8_codec bs in
               if disc =? 0 then Ok (Native, bs1)
               else if disc =? 1 then let? (d, bs2) := decode monero_codec bs1 in Ok (Monero d, bs2)
               else Err (UnknownPowSource disc))
    (size_of monero_codec).

Definition hash32 : codec (list Z) := bytes_codec 32.
Definition arr32 : codec (list Z) := array_codec 32 u8_codec.
Definition opt_bytes : codec (option (list Z)) := option_codec 24 byte_vec_codec.

Definition BlockHeader_codec : codec BlockHeader :=
  mk_codec (fun h =>
      encode u8_codec (version h) ++ encode hash32 (previous h) ++ encode hash32 (merkle_root h) ++
      encode u64_codec (timestamp h) ++ encode u32_codec (target h) ++ encode u32_codec (nonce h) ++
      encode u64_codec (height h) ++ encode arr32 (uncle_merkle_root h) ++
      encode u64_codec (total_reward h) ++ encode arr32 (randomx_key h) ++ encode arr32 (miner h) ++
      encode arr32 (commitment_merkle_root h) ++ encode arr32 (nullifier_root h) ++
      encode arr32 (anchor_tx_id h) ++ encode u64_codec (anchor_monero_height h) ++
      encode arr32 (anchor_monero_hash h) ++ encode u8_codec (finality_flags h) ++
      encode PowSource_codec (pow_source h) ++ encode arr32 (anchor_owner h) ++
      encode opt_bytes (caribina_anchor h))
    (fun bs =>
      let? (v, bs) := decode u8_codec bs in let? (prev, bs) := decode hash32 bs in
      let? (mr, bs) := decode hash32 bs in let? (ts, bs) := decode u64_codec bs in
      let? (tg, bs) := decode u32_codec bs in let? (nc, bs) := decode u32_codec bs in
      let? (ht, bs) := decode u64_codec bs in let? (umr, bs) := decode arr32 bs in
      let? (tr, bs) := decode u64_codec bs in let? (rk, bs) := decode arr32 bs in
      let? (mi, bs) := decode arr32 bs in let? (cmr, bs) := decode arr32 bs in
      let? (nr, bs) := decode arr32 bs in let? (atx, bs) := decode arr32 bs in
      let? (amh, bs) := decode u64_codec bs in let? (amx, bs) := decode arr32 bs in
      let? (ff, bs) := decode u8_codec bs in let? (ps, bs) := decode PowSource_codec bs in
      let? (ao, bs) := decode arr32 bs in let? (ca, bs) := decode opt_bytes bs in
      Ok ({| version := v; previous := prev; merkle_root := mr; timestamp := ts; target := tg;
             nonce := nc; height := ht; uncle_merkle_root := umr; total_reward := tr;
             randomx_key := rk; miner := mi; anchor_owner := ao; commitment_merkle_root := cmr;
             nullifier_root := nr; anchor_tx_id := atx; caribina_anchor := ca;
             anchor_monero_height := amh; anchor_monero_hash := amx; finality_flags := ff;
             fee_window_flags := 0; pow_source := ps |}, bs))
    size_of_BlockHeader.

Definition Block_codec : codec Block :=
  mk_codec (fun b => encode BlockHeader_codec (header b) ++
                     encode (vec_codec Transaction_codec) (transactions b))
    (fun bs => let? (h, bs1) := decode BlockHeader_codec bs in
               let? (txs, bs2) := decode (vec_codec Transaction_codec) bs1 in
               Ok ({| header := h; transactions := txs |}, bs2))
    size_of_Block.

Definition UncleBlock_codec : codec UncleBlock :=
  mk_codec (fun u => encode BlockHeader_codec (uncle_header u) ++
                     encode (vec_codec Transaction_codec) (uncle_transactions u) ++
                     encode bool_codec (pin_accepted u) ++ encode u64_codec (pin_confirmed u))
    (fun bs => let? (h, bs1) := decode BlockHeader_codec bs in
               let? (txs, bs2) := decode (vec_codec Transaction_codec) bs1 in
               let? (pa, bs3) := decode bool_codec bs2 in
               let? (pc, bs4) := decode u64_codec bs3 in
               Ok ({| uncle_header := h; uncle_transactions := txs;
                      pin_accepted := pa; pin_confirmed := pc |}, bs4))
    size_of_UncleBlock.

(** ** Well-formed blocks *)

Definition PowSource_wf (p : PowSource) : Prop :=
  match p with Native => True | Monero d => monero_wf d end.

Definition BlockHeader_wf (h : BlockHeader) : Prop :=
  is_byte (version h) /\ bytes_wf 32 (previous h) /\ bytes_wf 32 (merkle_root h) /\
  is_u64 (timestamp h) /\ is_u32 (target h) /\ is_u32 (nonce h) /\ is_u64 (height h) /\
  bytes_wf 32 (uncle_merkle_root h) /\ is_u64 (total_reward h) /\ bytes_wf 32 (randomx_key h) /\
  bytes_wf 32 (miner h) /\ bytes_wf 32 (commitment_merkle_root h) /\
  bytes_wf 32 (nullifier_root h) /\ bytes_wf 32 (anchor_tx_id h) /\
  is_u64 (anchor_monero_height h) /\ bytes_wf 32 (anchor_monero_hash h) /\
  is_byte (finality_flags h) /\ PowSource_wf (pow_source h) /\ bytes_wf 32 (anchor_owner h) /\
  option_wf byte_vec_wf (caribina_anchor h).

Definition Block_wf (b : Block) : Prop :=
  BlockHeader_wf (header b) /\ vec_wf Transaction_codec Transaction_wf (transactions b).

Definition UncleBlock_wf (u : UncleBlock) : Prop :=
  BlockHeader_wf (uncle_header u) /\
  vec_wf Transaction_codec Transaction_wf (uncle_transactions u) /\
  True /\ is_u64 (pin_confirmed u).

(** What a header looks like after a trip through the storage codec: the codec
    has no field for the fee-window flags and decoding puts the default. *)
Definition stored_header (h : BlockHeader) : BlockHeader :=
  {| version := version h; previous := previous h; merkle_root := merkle_root h;
     timestamp := timestamp h; target := target h; nonce := nonce h; height := height h;
     uncle_merkle_root := uncle_merkle_root h; total_reward := total_reward h;
     randomx_key := randomx_key h; miner := miner h; anchor_owner := anchor_owner h;
     commitment_merkle_root := commitment_merkle_root h; nullifier_root := nullifier_root h;
     anchor_tx_id := anchor_tx_id h; caribina_anchor := caribina_anchor h;
     anchor_monero_height := anchor_monero_height h; anchor_monero_hash := anchor_monero_hash h;
     finality_flags := finality_flags h; fee_window_flags := 0; pow_source := pow_source h |}.

Definition stored_block (b : Block) : Block :=
  {| header := stored_header (header b); transactions := transactions b |}.

#[export] Instance hash32_ok : CodecOk hash32 (bytes_wf 32) := bytes_ok 32.
#[export] Instance arr32_ok : CodecOk arr32 (bytes_wf 32) := array_ok u8_codec is_byte 32.
#[export] Instance opt_bytes_ok : CodecOk opt_bytes (option_wf byte_vec_wf) :=
  option_ok byte_vec_codec byte_vec_wf 24.

#[export] Instance PowSource_ok : CodecOk PowSource_codec PowSource_wf.
Proof.
  apply mk_codec_ok; intros [|d] Hp.
  - repeat constructor; unfold is_byte; lia.
  - apply Forall_app. split; [repeat constructor; unfold is_byte; lia | by apply (encode_bytes (wf := monero_wf))].
  - done.
  - intros Hd. rewrite <- app_assoc. rewrite (decode_encode (c := u8_codec) (wf := is_byte)) by (unfold is_byte; lia).
    cbn [Z.eqb]. by rewrite (decode_encode (wf := monero_wf)).
Qed.

Lemma header_encode_bytes (h : BlockHeader) :
  BlockHeader_wf h -> Forall is_byte (encode BlockHeader_codec h).
Proof.
  intros (? & ? & ? & ? & ? & ? & ? & ? & ? & ? & ? & ? & ? & ? & ? & ? & ? & ? & ? & ?).
  cbn [BlockHeader_codec mk_codec encode]. encode_fields.
Qed.

Lemma header_decode_encode (h : BlockHeader) (rest : list Z) :
  BlockHeader_wf h ->
  decode BlockHeader_codec (encode BlockHeader_codec h ++ rest) = Ok (stored_header h, rest).
Proof.
  intros (? & ? & ? & ? & ? & ? & ? & ? & ? & ? & ? & ? & ? & ? & ? & ? & ? & ? & ? & ?).
  cbn [BlockHeader_codec mk_codec encode decode]. decode_fields. reflexivity.
Qed.

Lemma block_decode_encode (b : Block) (rest : list Z) :
  Block_wf b -> decode Block_codec (encode Block_codec b ++ rest) = Ok (stored_block b, rest).
Proof.
  intros [Hh Ht]. cbn [Block_codec mk_codec encode decode].
  rewrite <- app_assoc, header_decode_encode by done. by decode_fields.
Qed.

Lemma uncle_decode_encode (u : UncleBlock) (rest : list Z) :
  UncleBlock_wf u ->
  decode UncleBlock_codec (encode UncleBlock_codec u ++ rest) =
  Ok ({| uncle_header := stored_header (uncle_header u);
         uncle_transactions := uncle_transactions u;
         pin_accepted := pin_accepted u; pin_confirmed := pin_confirmed u |}, rest).
Proof.
  intros (Hh & ? & ? & ?). cbn [UncleBlock_codec mk_codec encode decode].
  rewrite <- app_assoc, header_decode_encode by done. rewrite <- !app_assoc.
  rewrite (decode_encode (c := vec_codec Transaction_codec)) by done.
  rewrite (decode_encode (c := bool_codec) (wf := fun _ => True)) by done.
  by rewrite (decode_encode (c := u64_codec)).
Qed.

(** ** The blob's layout *)

Lemma mining_blob_length (h : BlockHeader) :
  BlockHeader_wf h -> length (to_mining_blob h) = MINING_BLOB_LEN.
Proof.
  unfold BlockHeader_wf, bytes_wf. intros Hw. destruct_and! Hw.
  unfold to_mining_blob. rewrite !length_app, !to_le_bytes_length. cbn [length].
  repeat match goal with E : length ?l = 32%nat |- _ => rewrite E; clear E end. done.
Qed.

(** The fields the proof of work covers. *)
Definition same_pow_fields (h1 h2 : BlockHeader) : Prop :=
  previous h1 = previous h2 /\ version h1 = version h2 /\ target h1 = target h2 /\
  nonce h1 = nonce h2 /\ height h1 = height h2 /\ merkle_root h1 = merkle_root h2 /\
  timestamp h1 = timestamp h2 /\ uncle_merkle_root h1 = uncle_merkle_root h2 /\
  total_reward h1 = total_reward h2 /\ randomx_key h1 = randomx_key h2 /\
  commitment_merkle_root h1 = commitment_merkle_root h2 /\
  nullifier_root h1 = nullifier_root h2 /\ pow_disc (pow_source h1) = pow_disc (pow_source h2) /\
  miner h1 = miner h2 /\ anchor_owner h1 = anchor_owner h2.

(** Peel the next fixed-width field off an equation of blobs. *)
Ltac peel_next Heq :=
  first [ apply (prefix_inj_fixed 1) in Heq as [[= ?] Heq]; [| done | done]
        | apply (prefix_inj_fixed 2) in Heq as [_ Heq]; [| done | done]
        | apply (prefix_inj_le 4) in Heq as [? Heq]; [| done | done]
        | apply (prefix_inj_le 8) in Heq as [? Heq]; [| done | done]
        | apply (prefix_inj_fixed 32) in Heq as [? Heq]; [| done | done] ].

Lemma mining_blob_inj (h1 h2 : BlockHeader) :
  BlockHeader_wf h1 -> BlockHeader_wf h2 ->
  to_mining_blob h1 = to_mining_blob h2 -> same_pow_fields h1 h2.
Proof.
  unfold BlockHeader_wf, bytes_wf. intros Hw1 Hw2 Heq. destruct_and! Hw1. destruct_and! Hw2.
  unfold to_mining_blob in Heq.
  do 15 peel_next Heq. by repeat split.
Qed.

(** ** The reward split *)

(** What an uncle is paid. *)
Definition pin_of (u : UncleBlock) : Z := if pin_accepted u then pin_confirmed u else 0.
Definition pin_sum (uncles : list UncleBlock) : Z := foldr (fun u acc => pin_of u + acc) 0 uncles.

Lemma pin_sum_nonneg (uncles : list UncleBlock) :
  Forall (fun u => 0 <= pin_confirmed u) uncles -> 0 <= pin_sum uncles.
Proof.
  unfold pin_sum. induction 1 as [|u l Hu _ IH]; cbn [foldr]; [lia |].
  unfold pin_of at 1. destruct (pin_accepted u); lia.
Qed.

Lemma total_accepted_pin_from_spec (total : Z) (uncles : list UncleBlock) :
  is_u64 total -> Forall (fun u => 0 <= pin_confirmed u) uncles ->
  total_accepted_pin_from total uncles =
  if total + pin_sum uncles <? 2 ^ 64 then Ok (total + pin_sum uncles)
  else Err (BlockIsInvalid "pin overflow").
Proof.
  intros Ht Hu. revert total Ht. induction Hu as [|u l Hu Hl IH]; intros total Ht;
    cbn [total_accepted_pin_from pin_sum foldr].
  - unfold is_u in Ht. rewrite Z.add_0_r. by assert (total <? 2 ^ 64 = true) as -> by lia.
  - fold (pin_sum l). unfold pin_of. pose proof (pin_sum_nonneg l Hl).
    destruct (pin_accepted u); cbn [negb]; [| by rewrite IH].
    unfold checked_add. unfold is_u in Ht.
    destruct (checked 64 (total + pin_confirmed u)) as [t'|] eqn:E.
    + apply checked_spec in E as [<- Hr]. rewrite IH by done. by rewrite Z.add_assoc.
    + apply checked_none in E. unfold is_u in E.
      by assert (total + (pin_confirmed u + pin_sum l) <? 2 ^ 64 = false) as -> by lia.
Qed.

(** The split, on every branch: it succeeds exactly when the accepted pins fit
    the base reward. *)
Lemma compute_reward_spec (base : Z) (uncles : list UncleBlock) :
  is_u64 base -> Forall (fun u => 0 <= pin_confirmed u) uncles ->
  (pin_sum uncles <= base ->
   compute_reward base uncles = Ok (base - pin_sum uncles, map pin_of uncles)) /\
  (base < pin_sum uncles -> exists r, compute_reward base uncles = Err (BlockIsInvalid r)).
Proof.
  intros Hb Hu. pose proof (pin_sum_nonneg uncles Hu) as Hp. unfold compute_reward.
  destruct uncles as [|u l]; [cbn in *; split; intros; [by rewrite Z.sub_0_r | unfold is_u in Hb; lia] |].
  unfold total_accepted_pin. rewrite total_accepted_pin_from_spec by (done || unfold is_u; lia).
  rewrite Z.add_0_l. set (p := pin_sum (u :: l)) in *. unfold is_u in Hb. split; intros Hc.
  - assert (p <? 2 ^ 64 = true) as -> by lia. unfold checked_sub.
    rewrite (proj2 (checked_spec 64 (base - p) (base - p))) by (split; [done | unfold is_u; lia]).
    reflexivity.
  - destruct (p <? 2 ^ 64); [| eauto]. unfold checked_sub.
    rewrite (proj2 (checked_none 64 (base - p))) by (unfold is_u; lia). eauto.
Qed.

(** ** Uncle proofs *)

Definition pow_ok (h : BlockHeader) (tgt : Z) : Prop :=
  exists rx, randomx (randomx_key h) (to_mining_blob h) = Some rx /\ (32 <= length rx)%nat /\
             hash_u32 (take 32 rx) <= tgt.

Lemma verify_uncle_proof_spec (h : BlockHeader) (proof : UncleProof) (root : list Z) (tgt : Z) :
  verify_uncle_proof h proof root tgt = true <->
  pow_ok h tgt /\ Z.of_nat (length (proof_path proof)) <= MAX_UNCLE_DEPTH /\
  climb (position proof) 0 (proof_path proof) (blake3 (to_mining_blob h)) = root.
Proof.
  unfold verify_uncle_proof, pow_ok, BlockTarget.hash_is_valid, BlockTarget.reached.
  destruct (randomx _ _) as [rx|]; [| naive_solver].
  destruct (length rx <? 32)%nat eqn:E1.
  { apply Nat.ltb_lt in E1. split; [done |]. intros [(rx' & [= <-] & Hl & _) _]. lia. }
  apply Nat.ltb_ge in E1. destruct (_ <=? tgt) eqn:E2; cbn [negb].
  - destruct (MAX_UNCLE_DEPTH <? _) eqn:E3.
    + split; [done |]. intros (_ & Hl & _). lia.
    + rewrite bool_decide_eq_true. split; [| naive_solver]. intros Hc.
      split; [exists rx; split_and!; [done | done | lia] |]. split; [lia | done].
  - split; [done |]. intros [(rx' & [= <-] & _ & Hle) _]. lia.
Qed.

Lemma build_uncle_root (uncles : list UncleBlock) :
  uncles <> [] -> (build_uncle_merkle uncles).1 = merkle_root_of (map uncle_leaf uncles).
Proof.
  intros Hne. unfold build_uncle_merkle. destruct uncles as [|u l]; [done |]. cbn [fst].
  unfold top_hash. rewrite merkle_layers_last by done. done.
Qed.

Lemma build_uncle_proof (uncles : list UncleBlock) (i : nat) :
  (i < length uncles)%nat ->
  (build_uncle_merkle uncles).2 !! i =
  Some {| proof_path := merkle_path (merkle_layers (map uncle_leaf uncles)) i;
          position := wrap 32 (Z.of_nat i) |}.
Proof.
  intros Hi. destruct uncles as [|u l]; [simpl in Hi; lia |].
  unfold build_uncle_merkle. cbn [snd]. rewrite list_lookup_fmap, lookup_seq_lt by done. done.
Qed.

Lemma uncle_proof_complete_aux (uncles : list UncleBlock) (i : nat) (u : UncleBlock) (tgt : Z)
    (proof : UncleProof) :
  (length uncles <= 64)%nat -> uncles !! i = Some u -> pow_ok (uncle_header u) tgt ->
  (build_uncle_merkle uncles).2 !! i = Some proof ->
  verify_uncle_proof (uncle_header u) proof (build_uncle_merkle uncles).1 tgt = true.
Proof.
  intros Hlen Hu Hp Hproof. pose proof (lookup_lt_Some _ _ _ Hu) as Hi.
  rewrite build_uncle_proof in Hproof by done. injection Hproof as <-.
  rewrite build_uncle_root by (by intros ->). apply verify_uncle_proof_spec. cbn [position proof_path].
  destruct (merkle_layers_tower (map uncle_leaf uncles)) as [Ht Hh]. split_and!; [done | |].
  - pose proof (merkle_path_length _ _ i 6 Ht Hh) as Hl. rewrite length_map in Hl.
    specialize (Hl ltac:(simpl; lia)). unfold MAX_UNCLE_DEPTH. lia.
  - rewrite wrap_small by (unfold is_u; lia). apply merkle_complete.
    rewrite list_lookup_fmap, Hu. done.
Qed.

(** ** Properties *)

Lemma slice_at (a b c : list Z) (n k : nat) :
  length a = n -> length b = k -> take k (drop n (a ++ b ++ c)) = b.
Proof. intros <- <-. by rewrite drop_app_length, take_app_length. Qed.

Lemma blob_slice (h : BlockHeader) (a b c : list Z) (n k : nat) :
  to_mining_blob h = a ++ b ++ c -> length a = n -> length b = k ->
  take k (drop n (to_mining_blob h)) = b.
Proof. intros -> Ha Hb. by apply slice_at. Qed.

Lemma mining_blob_slices (h : BlockHeader) :
  BlockHeader_wf h ->
  take 4 (drop NONCE_OFFSET (to_mining_blob h)) = to_le_bytes 4 (nonce h) /\
  take 1 (drop POW_SOURCE_OFFSET (to_mining_blob h)) = [pow_disc (pow_source h)] /\
  take 32 (drop ANCHOR_OWNER_OFFSET (to_mining_blob h)) = anchor_owner h.
Proof.
  unfold BlockHeader_wf, bytes_wf, NONCE_OFFSET, POW_SOURCE_OFFSET, ANCHOR_OWNER_OFFSET.
  intros Hw. destruct_and! Hw.
  set (a := previous h ++ [version h] ++ to_le_bytes 4 (target h) ++ [0; 0]).
  set (b := to_le_bytes 4 (nonce h) ++ to_le_bytes 8 (height h) ++ merkle_root h ++
      to_le_bytes 8 (timestamp h) ++ uncle_merkle_root h ++ to_le_bytes 8 (total_reward h) ++
      randomx_key h ++ commitment_merkle_root h ++ nullifier_root h).
  assert (length a = 39%nat) as Ha
    by (unfold a; rewrite !length_app, !to_le_bytes_length; cbn [length]; lia).
  assert (length b = 188%nat) as Hb
    by (unfold b; rewrite !length_app, !to_le_bytes_length; cbn [length]; lia).
  split_and!.
  - eapply (blob_slice h a); [| done | apply to_le_bytes_length].
    unfold to_mining_blob, a. rewrite <- !app_assoc. reflexivity.
  - eapply (blob_slice h (a ++ b)); [| rewrite length_app; lia | done].
    unfold to_mining_blob, a, b. rewrite <- !app_assoc. reflexivity.
  - eapply (blob_slice h (a ++ b ++ [pow_disc (pow_source h)] ++ miner h) _ []).
    + unfold to_mining_blob, a, b. rewrite <- !app_assoc, app_nil_r. reflexivity.
    + rewrite !length_app. cbn [length]. lia.
    + done.
Qed.

Lemma mining_blob_same (h1 h2 : BlockHeader) :
  same_pow_fields h1 h2 -> to_mining_blob h1 = to_mining_blob h2.
Proof.
  intros (E1 & E2 & E3 & E4 & E5 & E6 & E7 & E8 & E9 & E10 & E11 & E12 & E13 & E14 & E15).
  unfold to_mining_blob. by rewrite E1, E2, E3, E4, E5, E6, E7, E8, E9, E10, E11, E12, E13, E14, E15.
Qed.

(** The mining blob is exactly 292 bytes, carries the nonce at byte 39 (the
    offset external miners rewrite), the PoW-source discriminator at 227 and
    the anchor owner at 260, and determines every field the proof of work is
    meant to cover: two headers have the same blob exactly when they agree on
    those fields.  The anchor, finality and fee-window fields stay outside. *)
Lemma mining_blob_layout (h1 h2 : BlockHeader) :
  BlockHeader_wf h1 -> BlockHeader_wf h2 ->
  length (to_mining_blob h1) = MINING_BLOB_LEN /\
  take 4 (drop NONCE_OFFSET (to_mining_blob h1)) = to_le_bytes 4 (nonce h1) /\
  take 1 (drop POW_SOURCE_OFFSET (to_mining_blob h1)) = [pow_disc (pow_source h1)] /\
  take 32 (drop ANCHOR_OWNER_OFFSET (to_mining_blob h1)) = anchor_owner h1 /\
  (to_mining_blob h1 = to_mining_blob h2 <-> same_pow_fields h1 h2).
Proof.
  intros H1 H2. destruct (mining_blob_slices h1 H1) as (Hn & Hp & Ha).
  split_and!; [by apply mining_blob_length | done | done | done |].
  split; [by apply mining_blob_inj | apply mining_blob_same].
Qed.

(** Every uncle a block lists can be proved: for up to 64 uncles the proof
    the builder makes for position [i], odd layers included, verifies against
    the root it returns for exactly the uncles whose hash meets the target. *)
Lemma uncle_proofs_complete (uncles : list UncleBlock) (i : nat) (u : UncleBlock) (tgt : Z) :
  (length uncles <= 64)%nat -> uncles !! i = Some u ->
  exists proof, (build_uncle_merkle uncles).2 !! i = Some proof /\
    (verify_uncle_proof (uncle_header u) proof (build_uncle_merkle uncles).1 tgt = true <->
     pow_ok (uncle_header u) tgt).
Proof.
  intros Hlen Hu. pose proof (lookup_lt_Some _ _ _ Hu) as Hi.
  eexists. split; [by apply build_uncle_proof |]. split.
  - intros Hv. by apply verify_uncle_proof_spec in Hv as [Hp _].
  - intros Hp. eapply uncle_proof_complete_aux; [done | done | done | by apply build_uncle_proof].
Qed.

(** Everything hashed when the uncle tree is built and a proof is checked. *)
Definition uncle_proof_msgs (uncles : list UncleBlock) (h : BlockHeader) (proof : UncleProof) :
    list (list Z) :=
  proof_msgs (map (fun u => to_mining_blob (uncle_header u)) uncles) (to_mining_blob h)
    (position proof) (proof_path proof).

(** No proof can be forged: whatever path of digests and position is
    offered, a header that verifies against the root of a block's uncles has
    the same mining blob as one of those uncles, or two different messages
    among those hashed by building the tree and checking this proof have the
    same BLAKE3 digest. *)
Lemma uncle_proof_sound (uncles : list UncleBlock) (h : BlockHeader) (proof : UncleProof)
    (tgt : Z) :
  uncles <> [] -> Forall (fun u => BlockHeader_wf (uncle_header u)) uncles ->
  BlockHeader_wf h -> digests (proof_path proof) ->
  verify_uncle_proof h proof (build_uncle_merkle uncles).1 tgt = true ->
  (exists u, u ∈ uncles /\ same_pow_fields h (uncle_header u)) \/
  collides (uncle_proof_msgs uncles h proof).
Proof.
  intros Hne Hu Hh Hd Hv. apply verify_uncle_proof_spec in Hv as (_ & _ & Hc).
  rewrite build_uncle_root in Hc by done. unfold uncle_leaf in Hc.
  rewrite <- (map_map (fun u => to_mining_blob (uncle_header u)) blake3) in Hc.
  apply merkle_sound in Hc as [Hin | Hcol]; [| by right | by destruct uncles | | | done].
  - left. apply list_elem_of_fmap in Hin as (u & Heq & Hu'). exists u. split; [done |].
    rewrite Forall_forall in Hu. apply mining_blob_inj; auto.
  - apply Forall_map, (Forall_impl _ _ _ Hu). intros u Hw. by rewrite mining_blob_length.
  - by rewrite mining_blob_length.
Qed.

(** Money is conserved by the reward split: whenever it succeeds, the
    canonical reward plus the uncle rewards is the base reward, uncles that did
    not accept their pin get nothing, and it fails (never wraps or clamps)
    exactly when the accepted pins exceed the base reward. *)
Lemma compute_reward_conserves (base : Z) (uncles : list UncleBlock) :
  is_u64 base -> Forall (fun u => is_u64 (pin_confirmed u)) uncles ->
  match compute_reward base uncles with
  | Ok (canonical, rewards) =>
      0 <= canonical /\ canonical + foldr Z.add 0 rewards = base /\
      rewards = map pin_of uncles /\ pin_sum uncles <= base
  | Err _ => base < pin_sum uncles
  end.
Proof.
  intros Hb Hu.
  assert (Forall (fun u => 0 <= pin_confirmed u) uncles) as Hu'.
  { eapply Forall_impl; [exact Hu |]. by intros u [? _]. }
  destruct (compute_reward_spec base uncles Hb Hu') as [Hok Herr].
  destruct (Z.le_gt_cases (pin_sum uncles) base) as [Hle | Hgt].
  - rewrite Hok by done. split_and!; [lia | | done | done].
    enough (foldr Z.add 0 (map pin_of uncles) = pin_sum uncles) by lia.
    unfold pin_sum. clear. induction uncles as [|u l IH]; [done |]. cbn [map foldr]. by rewrite IH.
  - destruct (Herr Hgt) as [r ->]. done.
Qed.

(** A stored header is read back from its encoding except for the
    fee-window flags, which the codec does not write and decoding resets to
    zero; the mining blob, hence the proof of work, is unaffected. *)
Lemma header_storage_roundtrip (h : BlockHeader) :
  BlockHeader_wf h ->
  deserialize BlockHeader_codec (serialize BlockHeader_codec h) = Ok (stored_header h) /\
  to_mining_blob (stored_header h) = to_mining_blob h /\
  (stored_header h = h <-> fee_window_flags h = 0).
Proof.
  intros Hw. split_and!.
  - unfold deserialize, deserialize_partial, serialize.
    rewrite <- (app_nil_r (encode _ h)), header_decode_encode by done. cbn [length].
    by rewrite Z.sub_0_r, Z.eqb_refl.
  - reflexivity.
  - destruct h as [? ? ? ? ? ? ? ? ? ? ? ? ? ? ? ? ? ? ? flags ?]. unfold stored_header. cbn.
    split; [intros E | intros ->; reflexivity].
    by apply (f_equal fee_window_flags) in E.
Qed.

(** The transaction root binds the transactions of a block: two lists of
    the same length with the same root have pairwise the same transaction
    hashes, unless two different messages among the inner nodes of the two trees
    have the same BLAKE3 digest.  The length matters: repeating the last
    transaction of an odd list leaves the root unchanged. *)
Lemma tx_root_binding (txs1 txs2 : list Transaction) (txs : list Transaction) (t : Transaction) :
  (length txs1 = length txs2 ->
   compute_merkle_root txs1 = compute_merkle_root txs2 ->
   map tx_hash txs1 = map tx_hash txs2 \/
   collides (root_msgs (map tx_hash txs1) (map tx_hash txs2))) /\
  (Nat.Even (length txs) -> txs <> [] ->
   compute_merkle_root (txs ++ [t]) = compute_merkle_root (txs ++ [t; t])).
Proof.
  assert (forall l, digests (map tx_hash l)) as Hd.
  { intros l. apply Forall_map, Forall_forall. intros x _. apply blake3_wf. }
  split.
  - intros Hlen Heq. apply root_inj_or; [by rewrite !length_map | apply Hd | apply Hd | done].
  - intros He Hne. unfold compute_merkle_root. rewrite !map_app. cbn [map].
    rewrite (root_of_pair_up (map tx_hash txs ++ [tx_hash t])),
      (root_of_pair_up (map tx_hash txs ++ [tx_hash t; tx_hash t])).
    + rewrite pair_up_dup by (by rewrite length_map). done.
    + rewrite length_app. cbn [length]. lia.
    + rewrite length_app, length_map. cbn [length]. destruct txs; [done | cbn [length]; lia].
Qed.
End block.

(** ** Concrete blocks *)

Definition sample_header (h n flags : Z) : @BlockHeader toy := {|
  version := 1; previous := replicate 32 3; merkle_root := replicate 32 4; timestamp := 1000;
  target := 0xFFFFFFFF; nonce := n; height := h; uncle_merkle_root := replicate 32 0;
  total_reward := 100; randomx_key := replicate 32 9; miner := replicate 32 1;
  anchor_owner := replicate 32 0; commitment_merkle_root := replicate 32 0;
  nullifier_root := replicate 32 0; anchor_tx_id := replicate 32 0; caribina_anchor := None;
  anchor_monero_height := 0; anchor_monero_hash := replicate 32 0; finality_flags := flags;
  fee_window_flags := 0x11; pow_source := Native |}.

Definition sample_uncle (h n : Z) (accepted : bool) (pin : Z) : @UncleBlock toy := {|
  uncle_header := sample_header h n 0; uncle_transactions := [];
  pin_accepted := accepted; pin_confirmed := pin |}.

Lemma sample_header_wf (h n flags : Z) :
  is_u64 h -> is_u32 n -> is_byte flags -> BlockHeader_wf (sample_header h n flags).
Proof.
  intros Hh Hn Hf. unfold BlockHeader_wf, bytes_wf. cbn [sample_header version previous merkle_root
    timestamp target nonce height uncle_merkle_root total_reward randomx_key miner anchor_owner
    commitment_merkle_root nullifier_root anchor_tx_id caribina_anchor anchor_monero_height
    anchor_monero_hash finality_flags pow_source].
  split_and!; try done; try (apply Forall_replicate); unfold is_byte, is_u; lia.
Qed.

Definition three_uncles : list (@UncleBlock toy) :=
  [sample_uncle 9 1 true 40; sample_uncle 8 2 false 20; sample_uncle 7 3 true 10].

Lemma mining_blob_layout_witness :
  take 4 (drop NONCE_OFFSET (to_mining_blob (sample_header 5 0x01020304 0))) = [4; 3; 2; 1] /\
  length (to_mining_blob (sample_header 5 0x01020304 0)) = 292%nat.
Proof.
  destruct (mining_blob_layout (sample_header 5 0x01020304 0) (sample_header 5 0x01020304 0))
    as (Hl & Hn & _); [apply sample_header_wf; unfold is_u, is_byte; lia
                      | apply sample_header_wf; unfold is_u, is_byte; lia |].
  rewrite Hn, Hl. split; reflexivity.
Defined.

Lemma uncle_proofs_complete_witness :
  exists proof, (build_uncle_merkle three_uncles).2 !! 2%nat = Some proof /\
    (verify_uncle_proof (sample_header 7 3 0) proof (build_uncle_merkle three_uncles).1 0xFFFFFFFF
     = true <-> pow_ok (sample_header 7 3 0) 0xFFFFFFFF).
Proof.
  apply (uncle_proofs_complete three_uncles 2 (sample_uncle 7 3 true 10)); [simpl; lia | done].
Defined.

(** The proof of the unpaired third leaf, evaluated. *)
Definition third_proof : UncleProof :=
  default {| proof_path := []; position := 0 |} ((build_uncle_merkle three_uncles).2 !! 2%nat).

Lemma uncle_proof_sound_witness :
  (exists u, u ∈ three_uncles /\ same_pow_fields (sample_header 7 3 0) (uncle_header u)) \/
  @collides toy (uncle_proof_msgs three_uncles (sample_header 7 3 0) third_proof).
Proof.
  apply (uncle_proof_sound three_uncles (sample_header 7 3 0) third_proof 0xFFFFFFFF).
  - done.
  - do 3 (apply Forall_cons; split; [apply sample_header_wf; unfold is_u, is_byte; lia |]).
    by apply Forall_nil.
  - apply sample_header_wf; unfold is_u, is_byte; lia.
  - vm_compute. repeat constructor.
  - vm_compute. reflexivity.
Defined.

Lemma compute_reward_conserves_witness :
  compute_reward 100 three_uncles = Ok (50, [40; 0; 10]) /\
  match compute_reward 100 three_uncles with
  | Ok (canonical, rewards) =>
      0 <= canonical /\ canonical + foldr Z.add 0 rewards = 100 /\
      rewards = map pin_of three_uncles /\ pin_sum three_uncles <= 100
  | Err _ => 100 < pin_sum three_uncles
  end.
Proof.
  split; [reflexivity |]. apply (compute_reward_conserves 100 three_uncles).
  - unfold is_u. lia.
  - repeat constructor; cbn; lia.
Defined.

Lemma header_storage_roundtrip_witness :
  deserialize BlockHeader_codec (serialize BlockHeader_codec (sample_header 5 6 7))
  = Ok (stored_header (sample_header 5 6 7)).
Proof.
  apply (header_storage_roundtrip (sample_header 5 6 7)).
  apply sample_header_wf; unfold is_u, is_byte; lia.
Defined.

Lemma tx_root_binding_witness :
  @compute_merkle_root toy ([sample_tx; sample_tx] ++ [sample_tx])
  = @compute_merkle_root toy ([sample_tx; sample_tx] ++ [sample_tx; sample_tx]).
Proof.
  apply (@tx_root_binding toy [] [] [sample_tx; sample_tx] sample_tx); [| done].
  by exists 1%nat.
Defined.
