(* ===== verification/Store.v ===== *)
(** * The block store ([src/linear/src/store.rs])

    [LinearStore] is a set of sled trees.  A tree is a finite map from byte
    keys to byte values; sled keeps the keys in lexicographic order, which only
    [last()] observes, so that operation is the interface [SledOrder] with its
    documented contract.  Disk errors are not modelled: every read and write of
    a tree succeeds. *)

From Stdlib Require Import String.
From S2P Require Import Prelude Units Serial Externals Transaction Block.

Abbreviation bytes := (list Z).
Abbreviation Tree := (gmap (list Z) (list Z)).

(** Lexicographic order on byte strings. *)
Fixpoint lex_le (a b : list Z) : bool :=
  match a, b with
  | [], _ => true
  | _ :: _, [] => false
  | x :: a', y :: b' => (x <? y) || ((x =? y) && lex_le a' b')
  end.

(** [Tree::last]: the entry with the greatest key. *)
Class SledOrder := {
  tree_last : Tree -> option (bytes * bytes);
  tree_last_none : forall t, tree_last t = None <-> t = ∅;
  tree_last_some : forall t k v, tree_last t = Some (k, v) ->
    t !! k = Some v /\ forall k', is_Some (t !! k') -> lex_le k' k = true
}.

Record LinearStore := {
  blocks : Tree;
  transactions_tree : Tree;
  contracts : Tree;
  uncles : Tree;
  consensus : Tree;
  commitment_set : Tree;
  nullifiers_tree : Tree;
  supply_chain : Tree;
  block_targets : Tree;
  contract_risk : Tree;
  contracts_undo : Tree;
  uncles_by_height : Tree
}.

(** [LinearStore::new] on a fresh database: every tree opens empty. *)
Definition LinearStore_new : LinearStore := {|
  blocks := ∅; transactions_tree := ∅; contracts := ∅; uncles := ∅; consensus := ∅;
  commitment_set := ∅; nullifiers_tree := ∅; supply_chain := ∅; block_targets := ∅;
  contract_risk := ∅; contracts_undo := ∅; uncles_by_height := ∅ |}.

Definition set_blocks (t : Tree) (s : LinearStore) : LinearStore := {|
  blocks := t; transactions_tree := transactions_tree s; contracts := contracts s;
  uncles := uncles s; consensus := consensus s; commitment_set := commitment_set s;
  nullifiers_tree := nullifiers_tree s; supply_chain := supply_chain s;
  block_targets := block_targets s; contract_risk := contract_risk s;
  contracts_undo := contracts_undo s; uncles_by_height := uncles_by_height s |}.

Definition set_contracts (t : Tree) (s : LinearStore) : LinearStore := {|
  blocks := blocks s; transactions_tree := transactions_tree s; contracts := t;
  uncles := uncles s; consensus := consensus s; commitment_set := commitment_set s;
  nullifiers_tree := nullifiers_tree s; supply_chain := supply_chain s;
  block_targets := block_targets s; contract_risk := contract_risk s;
  contracts_undo := contracts_undo s; uncles_by_height := uncles_by_height s |}.

Section store.
Context `{Externals}.

Definition height_key (h : Z) : bytes := BlockHeight.bytes h.

Definition insert_block (h : Z) (b : Block) (s : LinearStore) : LinearStore :=
  set_blocks (<[height_key h := serialize Block_codec b]> (blocks s)) s.

Definition map_ser {A : Type} (r : result io_error A) : Res A :=
  match r with Ok a => Ok a | Err e => Err (SerializationError e) end.

Definition get_block (s : LinearStore) (h : Z) : Res Block :=
  let? value := ok_or (blocks s !! height_key h) (BlockNotFound h) in
  map_ser (deserialize Block_codec value).

Definition get_transaction (s : LinearStore) (hash : bytes) : Res Transaction :=
  let? value := ok_or (transactions_tree s !! hash) (TransactionNotFound hash) in
  map_ser (deserialize Transaction_codec value).

(** [get_height]: the last key of the tree, read back as a height. *)
Definition get_height `{SledOrder} (s : LinearStore) : Res Z :=
  match tree_last (blocks s) with
  | Some (k, _) =>
      if (length k =? 8)%nat then Ok (BlockHeight.of_bytes k) else Err (BlockNotFound 0)
  | None => Err (BlockNotFound 0)
  end.

Definition set_contract_data (contract_id data : bytes) (s : LinearStore) : LinearStore :=
  set_contracts (<[contract_id := data]> (contracts s)) s.

Definition get_contract_data (s : LinearStore) (contract_id : bytes) : bytes :=
  match contracts s !! contract_id with Some v => v | None => [] end.

(** The ASCII bytes of [b"_manifest"]. *)
Definition manifest_suffix : bytes := [95; 109; 97; 110; 105; 102; 101; 115; 116].
Definition get_contract_manifest (s : LinearStore) (contract_id : bytes) : option bytes :=
  contracts s !! (contract_id ++ manifest_suffix).

(** ** Keys *)

Lemma height_key_inj (h1 h2 : Z) :
  is_u64 h1 -> is_u64 h2 -> height_key h1 = height_key h2 -> h1 = h2.
Proof.
  intros H1 H2 Heq. rewrite <- (le_bytes_roundtrip 8 h1), <- (le_bytes_roundtrip 8 h2) by done.
  by unfold height_key, BlockHeight.bytes in Heq; rewrite Heq.
Qed.

Lemma of_height_key (h : Z) : is_u64 h -> BlockHeight.of_bytes (height_key h) = h.
Proof. intros Hh. by apply le_bytes_roundtrip. Qed.

Lemma get_insert_block (s : LinearStore) (h : Z) (b : Block) :
  Block_wf b -> get_block (insert_block h b s) h = Ok (stored_block b).
Proof.
  intros Hb. unfold get_block, insert_block. cbn [blocks set_blocks]. rewrite lookup_insert_eq.
  cbn [ok_or]. unfold deserialize, deserialize_partial, serialize.
  rewrite <- (app_nil_r (encode _ b)), block_decode_encode by done. cbn [length].
  by rewrite Z.sub_0_r, Z.eqb_refl.
Qed.

Lemma get_insert_block_ne (s : LinearStore) (h h' : Z) (b : Block) :
  is_u64 h -> is_u64 h' -> h <> h' -> get_block (insert_block h b s) h' = get_block s h'.
Proof.
  intros H1 H2 Hne. unfold get_block, insert_block. cbn [blocks set_blocks].
  rewrite lookup_insert_ne; [done |]. intros Heq. by apply Hne, height_key_inj.
Qed.

(** ** The height of a stored chain *)

(** The block tree of a chain that has reached height [n]. *)
Definition chain_to (n : Z) (s : LinearStore) : Prop :=
  forall k, is_Some (blocks s !! k) <-> exists h, 1 <= h <= n /\ k = height_key h.

Lemma height_key_cons (h : Z) :
  height_key h = h mod 256 :: to_le_bytes 7 (h / 256).
Proof. reflexivity. Qed.

(** The greatest key of a chain and the height it stands for. *)
Lemma get_height_last `{SledOrder} (s : LinearStore) (n : Z) :
  1 <= n -> is_u64 n -> chain_to n s ->
  exists h, get_height s = Ok h /\ 1 <= h <= n /\
            forall h', 1 <= h' <= n -> lex_le (height_key h') (height_key h) = true.
Proof.
  intros H1 Hn Hc. unfold get_height. destruct (tree_last (blocks s)) as [[k v]|] eqn:E.
  - apply tree_last_some in E as [Hk Hmax].
    destruct (proj1 (Hc k) (mk_is_Some _ _ Hk)) as (h & Hh & ->). exists h. split_and!; try lia.
    + unfold height_key at 1, BlockHeight.bytes. rewrite to_le_bytes_length. cbn [Nat.eqb].
      rewrite of_height_key; [done | unfold is_u in *; lia].
    + intros h' Hh'. apply Hmax, Hc. eauto.
  - apply tree_last_none in E. exfalso.
    destruct (proj2 (Hc (height_key 1))) as [v Hv]; [exists 1; split; [lia | done] |].
    by rewrite E, lookup_empty in Hv.
Qed.

Lemma lex_le_head (x y : Z) (a b : list Z) : lex_le (x :: a) (y :: b) = true -> x <= y.
Proof. cbn. rewrite orb_true_iff, andb_true_iff. lia. Qed.

(** ** Properties *)

(** A block written at a height is read back from it unchanged (up to the
    fee-window flags the codec drops), whatever was stored there before, and
    the blocks at every other height are untouched. *)
Lemma store_block_roundtrip (s : LinearStore) (h h' : Z) (b : Block) :
  Block_wf b -> is_u64 h -> is_u64 h' ->
  get_block (insert_block h b s) h = Ok (stored_block b) /\
  (h' <> h -> get_block (insert_block h b s) h' = get_block s h').
Proof.
  intros Hb H1 H2. split; [by apply get_insert_block |].
  intros Hne. apply get_insert_block_ne; auto.
Qed.

(** What [get_height] returns for a chain of [n] blocks.  Up to 255 blocks
    it is [n].  Beyond, it is a height whose low byte is 255, because the keys
    are little-endian while the tree is ordered from the first byte: for every
    chain height from 256 on that is not itself of that form, the stored height
    is not the chain's height. *)
Lemma get_height_of_chain `{SledOrder} (s : LinearStore) (n : Z) :
  1 <= n -> is_u64 n -> chain_to n s ->
  (n <= 255 -> get_height s = Ok n) /\
  (255 <= n -> exists h, get_height s = Ok h /\ h <= n /\ h mod 256 = 255) /\
  (256 <= n -> n mod 256 <> 255 -> get_height s <> Ok n).
Proof.
  intros H1 Hn Hc. destruct (get_height_last s n H1 Hn Hc) as (h & Hg & Hh & Hmax).
  assert (255 <= n -> h mod 256 = 255) as Hlow.
  { intros Hge. specialize (Hmax 255 ltac:(lia)). rewrite !height_key_cons in Hmax.
    apply lex_le_head in Hmax. change (255 mod 256) with 255 in Hmax.
    pose proof (Z.mod_pos_bound h 256 ltac:(lia)). lia. }
  split_and!.
  - intros Hle. specialize (Hmax n ltac:(lia)). rewrite !height_key_cons in Hmax.
    apply lex_le_head in Hmax. rewrite !Z.mod_small in Hmax by lia. rewrite Hg. f_equal. lia.
  - intros Hge. exists h. split_and!; [done | lia | by apply Hlow].
  - intros Hge Hmod. rewrite Hg. intros [= ->]. specialize (Hlow ltac:(lia)). lia.
Qed.
End store.

(** ** A concrete order for the witnesses: the greatest key by a scan *)

Lemma lex_le_refl (a : list Z) : lex_le a a = true.
Proof. induction a as [|x a IH]; [done |]. cbn. by rewrite Z.eqb_refl, IH, orb_true_r. Qed.

Lemma lex_le_total (a b : list Z) : lex_le a b = false -> lex_le b a = true.
Proof.
  revert b. induction a as [|x a IH]; intros [|y b]; cbn; try done.
  rewrite orb_false_iff, andb_false_iff, orb_true_iff, andb_true_iff.
  intros [Hlt [Hne | Ha]]; [left; lia |]. specialize (IH b Ha).
  destruct (Z.eq_dec y x); [right; split; [lia | done] | left; lia].
Qed.

Lemma lex_le_trans (a b c : list Z) : lex_le a b = true -> lex_le b c = true -> lex_le a c = true.
Proof.
  revert b c. induction a as [|x a IH]; intros [|y b] [|z c]; cbn; try done.
  rewrite !orb_true_iff, !andb_true_iff.
  intros [Hxy | [Hxy Hab]] [Hyz | [Hyz Hbc]]; try (left; lia). right. split; [lia | by eapply IH].
Qed.

Definition later (e acc : bytes * bytes) : bytes * bytes := if lex_le acc.1 e.1 then e else acc.
Definition scan_last (t : Tree) : option (bytes * bytes) :=
  match map_to_list t with [] => None | e :: es => Some (foldr later e es) end.

Lemma scan_max (e : bytes * bytes) (es : list (bytes * bytes)) :
  foldr later e es ∈ e :: es /\
  forall e', e' ∈ e :: es -> lex_le e'.1 (foldr later e es).1 = true.
Proof.
  induction es as [|x es [Hin Hmax]]; cbn [foldr].
  - split; [apply list_elem_of_here |]. intros e' He'. apply list_elem_of_singleton in He' as ->.
    apply lex_le_refl.
  - unfold later at 1 3. destruct (lex_le (foldr later e es).1 x.1) eqn:E.
    + split; [by apply list_elem_of_further, list_elem_of_here |]. intros e' He'.
      apply elem_of_cons in He' as [-> | He'].
      * eapply lex_le_trans; [| exact E]. apply Hmax, list_elem_of_here.
      * apply elem_of_cons in He' as [-> | He']; [apply lex_le_refl |].
        eapply lex_le_trans; [| exact E]. by apply Hmax, list_elem_of_further.
    + apply lex_le_total in E. split; [set_solver |]. intros e' He'.
      apply elem_of_cons in He' as [-> | He']; [apply Hmax, list_elem_of_here |].
      apply elem_of_cons in He' as [-> | He']; [done |]. by apply Hmax, list_elem_of_further.
Qed.

Lemma scan_last_none (t : Tree) : scan_last t = None <-> t = ∅.
Proof.
  unfold scan_last. rewrite <- map_to_list_empty_iff. by destruct (map_to_list t).
Qed.

Lemma scan_last_some (t : Tree) (k v : bytes) :
  scan_last t = Some (k, v) ->
  t !! k = Some v /\ forall k', is_Some (t !! k') -> lex_le k' k = true.
Proof.
  unfold scan_last. destruct (map_to_list t) as [|e es] eqn:El; [done |]. intros [= Hl].
  destruct (scan_max e es) as [Hin Hmax]. rewrite Hl, <- El in Hin. rewrite Hl, <- El in Hmax.
  split; [by apply elem_of_map_to_list in Hin |]. intros k' [v' Hk'].
  by apply (Hmax (k', v')), elem_of_map_to_list.
Qed.

Definition scan_order : SledOrder := {|
  tree_last := scan_last; tree_last_none := scan_last_none; tree_last_some := scan_last_some |}.

(** A store holding (empty) blocks at the heights [1..=n]. *)
Definition chain_store (n : nat) : LinearStore :=
  set_blocks (list_to_map (map (fun i => (height_key (Z.of_nat i), [])) (seq 1 n))) LinearStore_new.

Lemma chain_store_spec (n : nat) :
  Z.of_nat n < 2 ^ 64 -> chain_to (Z.of_nat n) (chain_store n).
Proof.
  intros Hn k. unfold chain_store. cbn [blocks set_blocks]. split.
  - intros [v Hv]. apply elem_of_list_to_map_2 in Hv.
    apply list_elem_of_fmap in Hv as (i & [= -> ->] & Hi). apply elem_of_seq in Hi.
    exists (Z.of_nat i). split; [lia | done].
  - intros (h & Hh & ->). apply not_eq_None_Some. intros Hnone.
    apply not_elem_of_list_to_map in Hnone. apply Hnone.
    rewrite map_map. apply list_elem_of_fmap. exists (Z.to_nat h). cbn [fst]. split.
    + f_equal. lia.
    + apply elem_of_seq. lia.
Qed.

Lemma store_block_roundtrip_witness :
  get_block (insert_block 256 {| header := sample_header 5 6 7; transactions := [sample_tx] |}
    LinearStore_new) 256
  = Ok (stored_block {| header := sample_header 5 6 7; transactions := [sample_tx] |}).
Proof.
  apply (store_block_roundtrip LinearStore_new 256 1).
  - split; [apply sample_header_wf; unfold is_u, is_byte; lia |].
    split; [| vm_compute; discriminate]. constructor; [exact sample_tx_wf | by apply Forall_nil].
  - unfold is_u. lia.
  - unfold is_u. lia.
Defined.

(** With 300 blocks on disk the store reports height 255. *)
Lemma get_height_of_chain_witness :
  @get_height scan_order (chain_store 300) <> Ok 300 /\
  @get_height scan_order (chain_store 255) = Ok 255 /\
  @get_height scan_order (chain_store 300) = Ok 255.
Proof.
  split_and!.
  - apply (@get_height_of_chain scan_order (chain_store 300) 300); [lia | unfold is_u; lia | | lia |].
    + by apply (chain_store_spec 300).
    + discriminate.
  - apply (@get_height_of_chain scan_order (chain_store 255) 255); [lia | unfold is_u; lia | | lia].
    by apply (chain_store_spec 255).
  - vm_compute. reflexivity.
Defined.
