(* ===== verification/FeeEstimator.v ===== *)
(** * The fee estimator ([src/linear/src/fee_estimator.rs])

    A rolling window of the gas used by recent blocks, and the fee a wallet is
    told from it.  Plain arithmetic wraps as in the release profile. *)

From S2P Require Import Prelude F64 Units Externals Block.

Definition MIN_FEE_ESTIMATE_VALUE : Z := 1001000.

Record FeeEstimator := { gas_history : list Z; window_size : Z }.

Definition FeeEstimator_new (window : Z) : FeeEstimator := {| gas_history := []; window_size := window |}.
Definition FeeEstimator_default : FeeEstimator := FeeEstimator_new 20.

Definition record_block_gas (gas_used : Z) (e : FeeEstimator) : FeeEstimator :=
  let history := gas_history e ++ [gas_used] in
  {| gas_history := if window_size e <? Z.of_nat (length history) then drop 1 history else history;
     window_size := window_size e |}.

Definition total_gas (e : FeeEstimator) : Z := wrap 64 (foldr Z.add 0 (gas_history e)).
Definition gas_capacity (e : FeeEstimator) : Z := wrap 64 (Z.of_nat (length (gas_history e)) * BLOCK_GAS_LIMIT).

(** The fee at a utilization in basis points. *)
Definition fee_at (utilization_bp : Z) : Z :=
  if utilization_bp <? 5000 then MIN_FEE_ESTIMATE_VALUE
  else if utilization_bp <? 8000 then
    let multiplier_bp := 10000 + (utilization_bp - 5000) * 10000 / 3000 in
    MIN_FEE_ESTIMATE_VALUE * multiplier_bp / 10000
  else MIN_FEE_ESTIMATE_VALUE * 2.

Definition estimate (e : FeeEstimator) : Z :=
  match gas_history e with
  | [] => MIN_FEE_ESTIMATE_VALUE
  | _ =>
      if gas_capacity e =? 0 then MIN_FEE_ESTIMATE_VALUE
      else fee_at (wrap 64 (total_gas e * 10000) / gas_capacity e)
  end.

Definition utilization (e : FeeEstimator) : f64 :=
  match gas_history e with
  | [] => of_uint 0
  | _ => if gas_capacity e =? 0 then of_uint 0 else f64_div (of_uint (total_gas e)) (of_uint (gas_capacity e))
  end.

Definition blocks_sampled (e : FeeEstimator) : Z := Z.of_nat (length (gas_history e)).

(** ** Properties *)

(** Execution admits only blocks below the limit. *)
Definition sampled (gs : list Z) : Prop := Forall (fun g => 0 <= g < BLOCK_GAS_LIMIT) gs.

Definition record_all (gs : list Z) (e : FeeEstimator) : FeeEstimator := foldl (fun e g => record_block_gas g e) e gs.

(** The last [w] samples. *)
Definition latest (w : Z) (gs : list Z) : list Z := drop (length gs - Z.to_nat w) gs.

Lemma record_all_latest (w : Z) (gs : list Z) :
  0 < w -> record_all gs (FeeEstimator_new w) = {| gas_history := latest w gs; window_size := w |}.
Proof.
  intros Hw. induction gs as [| g gs IH] using rev_ind; [done |].
  unfold record_all in *. rewrite foldl_app. cbn [foldl]. rewrite IH. unfold record_block_gas, latest. cbn [gas_history window_size].
  f_equal. rewrite !length_app, length_drop. cbn [length].
  destruct (Z.ltb_spec w (Z.of_nat (length gs - (length gs - Z.to_nat w) + 1))).
  - rewrite drop_app_le by (rewrite length_drop; lia). rewrite drop_drop.
    rewrite (drop_app_le gs [g]) by lia. f_equal. f_equal. lia.
  - rewrite (drop_app_le gs [g]) by lia. f_equal. f_equal. lia.
Qed.

Lemma fee_at_bounds (bp : Z) : MIN_FEE_ESTIMATE_VALUE <= fee_at bp <= 2 * MIN_FEE_ESTIMATE_VALUE.
Proof.
  unfold fee_at, MIN_FEE_ESTIMATE_VALUE. destruct (Z.ltb_spec bp 5000); [lia |]. destruct (Z.ltb_spec bp 8000); [| lia].
  pose proof (Z.div_pos ((bp - 5000) * 10000) 3000 ltac:(lia) ltac:(lia)).
  pose proof (Z.div_lt_upper_bound ((bp - 5000) * 10000) 3000 10000 ltac:(lia) ltac:(lia)).
  split; [apply Z.div_le_lower_bound | apply Z.div_le_upper_bound]; lia.
Qed.

Lemma fee_at_mono (a b : Z) : a <= b -> fee_at a <= fee_at b.
Proof.
  intros Hab. pose proof (fee_at_bounds a). pose proof (fee_at_bounds b). unfold fee_at in *.
  destruct (Z.ltb_spec a 5000); [lia |]. destruct (Z.ltb_spec b 5000); [lia |].
  destruct (Z.ltb_spec b 8000); [| lia]. destruct (Z.ltb_spec a 8000); [| lia].
  apply Z.div_le_mono; [lia |]. apply Z.mul_le_mono_nonneg_l; [done |].
  apply Z.add_le_mono_l, Z.div_le_mono; lia.
Qed.

Lemma sum_sampled (gs : list Z) : sampled gs -> 0 <= foldr Z.add 0 gs <= Z.of_nat (length gs) * BLOCK_GAS_LIMIT.
Proof. induction 1 as [| g gs [Hg0 Hg1] Hgs IH]; cbn [foldr length]; [lia |]. unfold BLOCK_GAS_LIMIT in *. lia. Qed.

(** The utilization of sampled blocks, in basis points, is exact. *)
Lemma estimate_exact (gs : list Z) (w : Z) :
  sampled gs -> gs <> [] -> Z.of_nat (length gs) <= 18446 ->
  estimate {| gas_history := gs; window_size := w |} =
  fee_at (foldr Z.add 0 gs * 10000 / (Z.of_nat (length gs) * BLOCK_GAS_LIMIT)).
Proof.
  intros Hs Hne Hl. pose proof (sum_sampled gs Hs) as Hsum. assert (0 < Z.of_nat (length gs)) as Hpos.
  { destruct gs; [done |]. cbn [length]. lia. }
  unfold estimate, total_gas, gas_capacity. cbn [gas_history]. unfold BLOCK_GAS_LIMIT in *.
  rewrite !(wrap_small 64) by (unfold is_u; lia). destruct gs; [done |].
  rewrite (proj2 (Z.eqb_neq _ _)) by lia. rewrite (wrap_small 64 (foldr Z.add 0 _)), wrap_small by (unfold is_u; lia). done.
Qed.

(** A wallet is told a fee between the baseline and twice the baseline,
    whatever was sampled; over a window of up to 18446 blocks of admissible gas
    the estimate is the tariff at the exact utilization of the last blocks, and
    it does not fall when a block of the window used more. *)
Theorem estimate_tracks_utilization (w : Z) (gs gs' : list Z) :
  0 < w <= 18446 -> sampled gs -> sampled gs' -> Forall2 Z.le gs gs' -> gs <> [] ->
  let e := record_all gs (FeeEstimator_new w) in
  let recent := latest w gs in
  MIN_FEE_ESTIMATE_VALUE <= estimate e <= 2 * MIN_FEE_ESTIMATE_VALUE /\
  blocks_sampled e = Z.min w (Z.of_nat (length gs)) /\
  estimate e = fee_at (foldr Z.add 0 recent * 10000 / (Z.of_nat (length recent) * BLOCK_GAS_LIMIT)) /\
  estimate e <= estimate (record_all gs' (FeeEstimator_new w)).
Proof.
  intros Hw Hs Hs' Hle Hne e recent. pose proof (Forall2_length _ _ _ Hle) as Hlen.
  assert (0 < length gs)%nat as Hpos by (destruct gs; cbn; [done | lia]).
  assert (forall l : list Z, sampled l -> sampled (latest w l)) as Hsub by (intros l Hl; by apply Forall_drop).
  assert (forall l : list Z, length l = length gs -> length (latest w l) = Nat.min (Z.to_nat w) (length gs)) as Hll.
  { intros l Hl. unfold latest. rewrite length_drop. lia. }
  assert (forall l : list Z, length l = length gs -> latest w l <> []) as Hnn.
  { intros l Hl E. pose proof (Hll l Hl) as Hx. rewrite E in Hx. cbn [length] in Hx. lia. }
  pose proof (Hll gs eq_refl) as Hl1. pose proof (Hll gs' (eq_sym Hlen)) as Hl2.
  assert (Z.of_nat (length (latest w gs)) <= 18446) as Hb by (rewrite Hl1; lia).
  unfold e. rewrite !record_all_latest by lia. unfold recent, blocks_sampled. cbn [gas_history].
  rewrite !estimate_exact; [| by auto | by auto | lia | by auto | by auto | lia].
  split; [apply fee_at_bounds |]. split; [rewrite Hl1; lia |]. split; [done |].
  apply fee_at_mono. rewrite Hl1, Hl2. apply Z.div_le_mono; [unfold BLOCK_GAS_LIMIT; lia |].
  apply Z.mul_le_mono_nonneg_r; [done |]. unfold latest. rewrite <- Hlen. generalize (length gs - Z.to_nat w)%nat. intros n.
  assert (Forall2 Z.le (drop n gs) (drop n gs')) as Hd by (by apply Forall2_drop).
  induction Hd; cbn [foldr]; lia.
Qed.

Lemma estimate_tracks_utilization_witness :
  let e := record_all [0; 65000000000] (FeeEstimator_new 1) in
  MIN_FEE_ESTIMATE_VALUE <= estimate e <= 2 * MIN_FEE_ESTIMATE_VALUE /\ estimate e = 1501500.
Proof.
  destruct (estimate_tracks_utilization 1 [0; 65000000000] [0; 70000000000]) as (H1 & H2 & H3 & H4);
    [lia | repeat constructor; unfold BLOCK_GAS_LIMIT; lia | repeat constructor; unfold BLOCK_GAS_LIMIT; lia
    | repeat constructor; lia | discriminate |].
  split; [exact H1 |]. rewrite H3. vm_compute. reflexivity.
Defined.
