(* ===== verification/DarkTree.v ===== *)
(** * Call trees ([src/sdk/src/dark_tree.rs])

    The calls of a transaction form a forest, flattened in post-order; every
    leaf carries the positions of its parent and children.  Indexes are [Z];
    reading a slice outside its range is [OutOfRange], which Rust turns into a
    panic.  The mutable iterator is modelled by what the one loop that uses it
    does: numbering the leaves in the order of the traversal. *)

From S2P Require Import Prelude.

Inductive DarkTreeError :=
| InvalidLeafIndex (found expected : Z)
| InvalidLeafParentIndex (leaf : Z)
| InvalidLeafChildrenIndexes (leaf : Z)
| InvalidMinCapacity (min : Z)
| MinCapacityNotExceeded
| InvalidMaxCapacity (max min : Z)
| MaxCapacityExceeded
| OutOfRange.

Abbreviation TRes := (result DarkTreeError).

Record DarkLeaf (T : Type) := {
  leaf_data : T;
  parent_index : option Z;
  children_indexes : list Z
}.
Arguments leaf_data {T} _.
Arguments parent_index {T} _.
Arguments children_indexes {T} _.
Arguments Build_DarkLeaf {T} _ _ _.

Record DarkTreeLeaf (T : Type) := { leaf_index : Z; leaf_info : DarkLeaf T }.
Arguments leaf_index {T} _.
Arguments leaf_info {T} _.
Arguments Build_DarkTreeLeaf {T} _ _.

Inductive DarkTree (T : Type) : Type :=
| mkTree (l : DarkTreeLeaf T) (cs : list (DarkTree T)) (mn : Z) (mx : option Z).
Arguments mkTree {T} _ _ _ _.

(** Induction with a hypothesis for every child. *)
Lemma DarkTree_nested_ind {T : Type} (P : DarkTree T -> Prop) :
  (forall l cs mn mx, Forall P cs -> P (mkTree l cs mn mx)) -> forall t, P t.
Proof.
  intros H. fix IH 1. intros [l cs mn mx]. apply H.
  induction cs as [|c cs IHcs]; constructor; [apply IH | exact IHcs].
Qed.

Section tree.
Context {T : Type}.
Implicit Types (t : DarkTree T) (ts : list (DarkTree T)).

Definition tree_leaf t : DarkTreeLeaf T := let '(mkTree l _ _ _) := t in l.
Definition tree_children t : list (DarkTree T) := let '(mkTree _ cs _ _) := t in cs.
Definition tree_min_capacity t : Z := let '(mkTree _ _ mn _) := t in mn.
Definition tree_max_capacity t : option Z := let '(mkTree _ _ _ mx) := t in mx.

Definition DarkTreeLeaf_new (x : T) : DarkTreeLeaf T :=
  {| leaf_index := 0; leaf_info := {| leaf_data := x; parent_index := None; children_indexes := [] |} |}.

(** [None] and zero both mean one. *)
Definition min_capacity_or_one (mn : option Z) : Z :=
  match mn with Some m => if m =? 0 then 1 else m | None => 1 end.

Definition DarkTree_new (x : T) (cs : list (DarkTree T)) (mn mx : option Z) : DarkTree T :=
  mkTree (DarkTreeLeaf_new x) cs (min_capacity_or_one mn) mx.

(** ** The traversals *)

(** [DarkTreeIter]: what is left of a list of siblings, and the iterator of the
    level above, whose first tree is the parent of these siblings. *)
Inductive DarkTreeIter := mkIter (siblings : list (DarkTree T)) (up : option DarkTreeIter).

Inductive Next := Finished | Yields (l : DarkTreeLeaf T) (it : DarkTreeIter) | Panics.

(** Going down the first children until there are none. *)
Fixpoint enter t (rest : list (DarkTree T)) (up : option DarkTreeIter) : Next :=
  match t with
  | mkTree l cs _ _ =>
      match cs with
      | [] => Yields l (mkIter rest up)
      | c :: cs' => enter c cs' (Some (mkIter (t :: rest) up))
      end
  end.

Definition iter_next (it : DarkTreeIter) : Next :=
  match it with
  | mkIter [] None => Finished
  | mkIter [] (Some (mkIter (p :: rest) up)) => Yields (tree_leaf p) (mkIter rest up)
  | mkIter [] (Some (mkIter [] _)) => Panics
  | mkIter (t :: rest) up => enter t rest up
  end.

Definition tree_iter t : DarkTreeIter := mkIter [t] None.

(** Running an iterator to its end, [None] when the fuel is out or it panics. *)
Fixpoint iter_run (fuel : nat) (it : DarkTreeIter) : option (list (DarkTreeLeaf T)) :=
  match fuel with
  | O => None
  | S fuel' =>
      match iter_next it with
      | Finished => Some []
      | Yields l it' => (fun ls => l :: ls) <$> iter_run fuel' it'
      | Panics => None
      end
  end.

(** [DarkTreeIntoIter]: a tree with children is put back, without them, after
    them. *)
Inductive DarkTreeIntoIter := mkInto (queue : list (DarkTree T)) (above : option DarkTreeIntoIter).

Fixpoint into_next (fuel : nat) (it : DarkTreeIntoIter) : option (option (DarkTreeLeaf T * DarkTreeIntoIter)) :=
  match fuel with
  | O => None
  | S fuel' =>
      match it with
      | mkInto [] None => Some None
      | mkInto [] (Some above) => into_next fuel' above
      | mkInto (mkTree l [] _ _ :: rest) above => Some (Some (l, mkInto rest above))
      | mkInto (mkTree l cs mn mx :: rest) above =>
          into_next fuel' (mkInto (cs ++ [mkTree l [] mn mx]) (Some (mkInto rest above)))
      end
  end.

(** [fuel] for the run and [depth] for each call. *)
Fixpoint into_run (fuel depth : nat) (it : DarkTreeIntoIter) : option (list (DarkTreeLeaf T)) :=
  match fuel with
  | O => None
  | S fuel' =>
      match into_next depth it with
      | None => None
      | Some None => Some []
      | Some (Some (l, it')) => (fun ls => l :: ls) <$> into_run fuel' depth it'
      end
  end.

Definition tree_into_iter t : DarkTreeIntoIter := mkInto [t] None.

(** The reference: children first, then the node. *)
Fixpoint postorder t : list (DarkTreeLeaf T) :=
  let '(mkTree l cs _ _) := t in
  (fix all ts := match ts with [] => [] | c :: rest => postorder c ++ all rest end) cs ++ [l].

Definition postorders ts : list (DarkTreeLeaf T) := flat_map postorder ts.

(** ** Capacity, indexing and integrity *)

Definition tree_len t : Z := Z.of_nat (length (postorder t)).

Definition check_min_capacity t : TRes unit :=
  if tree_len t <? tree_min_capacity t then Err MinCapacityNotExceeded else Ok tt.

Definition check_max_capacity t : TRes unit :=
  match tree_max_capacity t with
  | Some mx => if mx <? tree_len t then Err MaxCapacityExceeded else Ok tt
  | None => Ok tt
  end.

Definition tree_append (child : DarkTree T) t : TRes (DarkTree T) :=
  let '(mkTree l cs mn mx) := t in
  let full := match mx with Some m => m <? tree_len t + 1 | None => false end in
  if full then Err MaxCapacityExceeded else Ok (mkTree l (cs ++ [child]) mn mx).

(** The loop [for (index, leaf) in self.iter_mut().enumerate()]. *)
Fixpoint set_indexes (next : Z) t : DarkTree T * Z :=
  let '(mkTree l cs mn mx) := t in
  let '(cs', n) :=
    (fix all (next : Z) ts : list (DarkTree T) * Z :=
       match ts with
       | [] => ([], next)
       | c :: rest =>
           let '(c', n) := set_indexes next c in
           let '(rest', n') := all n rest in (c' :: rest', n')
       end) next cs in
  (mkTree {| leaf_index := n; leaf_info := leaf_info l |} cs' mn mx, n + 1).

Definition set_links (parent : option Z) (children : list Z) (l : DarkTreeLeaf T) : DarkTreeLeaf T :=
  {| leaf_index := leaf_index l;
     leaf_info := {| leaf_data := leaf_data (leaf_info l); parent_index := parent; children_indexes := children |} |}.

Fixpoint set_parent_children_indexes (parent : option Z) t : DarkTree T :=
  let '(mkTree l cs mn mx) := t in
  let cs' := map (set_parent_children_indexes (Some (leaf_index l))) cs in
  mkTree (set_links parent (map (fun c => leaf_index (tree_leaf c)) cs') l) cs' mn mx.

Definition tree_index t : DarkTree T := set_parent_children_indexes None (set_indexes 0 t).1.

Fixpoint check_parent_children_indexes (parent : option Z) t : TRes unit :=
  let '(mkTree l cs _ _) := t in
  if negb (bool_decide (parent_index (leaf_info l) = parent)) then Err (InvalidLeafParentIndex (leaf_index l))
  else
    let? _ :=
      (fix all ts : TRes unit :=
         match ts with
         | [] => Ok tt
         | c :: rest => let? _ := check_parent_children_indexes (Some (leaf_index l)) c in all rest
         end) cs in
    if negb (bool_decide (children_indexes (leaf_info l) = map (fun c => leaf_index (tree_leaf c)) cs))
    then Err (InvalidLeafChildrenIndexes (leaf_index l)) else Ok tt.

Fixpoint check_positions (expected : Z) (ls : list (DarkTreeLeaf T)) : TRes unit :=
  match ls with
  | [] => Ok tt
  | l :: rest =>
      if negb (expected =? leaf_index l) then Err (InvalidLeafIndex (leaf_index l) expected)
      else check_positions (expected + 1) rest
  end.

Definition tree_integrity_check t : TRes unit :=
  if tree_min_capacity t <? 1 then Err (InvalidMinCapacity (tree_min_capacity t))
  else
    let? _ := (match tree_max_capacity t with
               | Some mx => if mx <? tree_min_capacity t then Err (InvalidMaxCapacity mx (tree_min_capacity t)) else Ok tt
               | None => Ok tt
               end : TRes unit) in
    let? _ := check_min_capacity t in
    let? _ := check_max_capacity t in
    let? _ := check_positions 0 (postorder t) in
    check_parent_children_indexes None t.

(** [build] leaves the tree indexed whether or not the check passes. *)
Definition tree_build t : DarkTree T * TRes unit :=
  let t' := tree_index t in (t', tree_integrity_check t').

Definition tree_build_vec t : DarkTree T * TRes (list (DarkLeaf T)) :=
  let '(t', r) := tree_build t in
  (t', let? _ := r in Ok (map leaf_info (postorder t'))).

(** ** Checking a flattened tree *)

Definition leaf_at (leafs : list (DarkLeaf T)) (i : Z) : TRes (DarkLeaf T) :=
  if i <? 0 then Err OutOfRange else ok_or (leafs !! Z.to_nat i) OutOfRange.

Definition capacity_checks (mn : Z) (mx : option Z) (len : Z) : TRes unit :=
  let? _ := (match mx with Some m => if m <? mn then Err (InvalidMaxCapacity m mn) else Ok tt | None => Ok tt end : TRes unit) in
  if len <? mn then Err MinCapacityNotExceeded
  else match mx with Some m => if m <? len then Err MaxCapacityExceeded else Ok tt | None => Ok tt end.

(** [last] is the child checked before. *)
Fixpoint check_children (leafs : list (DarkLeaf T)) (index : Z) (checked : list Z) (offset : Z) (last : option Z)
    (cs : list Z) : TRes unit :=
  match cs with
  | [] => Ok tt
  | child :: rest =>
      if child <? offset then Err (InvalidLeafChildrenIndexes index)
      else if match last with Some l => child <=? l | None => false end then Err (InvalidLeafChildrenIndexes index)
      else if negb (bool_decide (child ∈ checked)) then Err (InvalidLeafChildrenIndexes index)
      else if index <=? child then Err (InvalidLeafChildrenIndexes index)
      else
        let? leaf := leaf_at leafs (child - offset) in
        match parent_index leaf with
        | Some p =>
            if negb (p =? index) then Err (InvalidLeafParentIndex child)
            else check_children leafs index checked offset (Some child) rest
        | None => Err (InvalidLeafParentIndex child)
        end
  end.

(** The leaves before the root, [index] the shifted position of the first. *)
Fixpoint check_inner (leafs : list (DarkLeaf T)) (root_index offset : Z) (ls : list (DarkLeaf T)) (index : Z)
    (checked : list Z) : TRes (list Z) :=
  match ls with
  | [] => Ok checked
  | leaf :: rest =>
      match parent_index leaf with
      | None => Err (InvalidLeafParentIndex index)
      | Some p =>
          if root_index <? p then Err (InvalidLeafParentIndex index)
          else if p <=? index then Err (InvalidLeafParentIndex index)
          else
            let? parent := leaf_at leafs (p - offset) in
            if negb (bool_decide (index ∈ children_indexes parent)) then Err (InvalidLeafChildrenIndexes p)
            else
              let? _ := check_children leafs index checked offset None (children_indexes leaf) in
              check_inner leafs root_index offset rest (index + 1) (checked ++ [index])
      end
  end.

Definition dark_leaf_vec_integrity_check (leafs : list (DarkLeaf T)) (mn mx offset : option Z) : TRes unit :=
  let? _ := capacity_checks (min_capacity_or_one mn) mx (Z.of_nat (length leafs)) in
  let offset := default 0 offset in
  let root_index := Z.of_nat (length leafs) - 1 + offset in
  let? checked := check_inner leafs root_index offset (removelast leafs) offset [] in
  let? root := ok_or (last leafs) OutOfRange in
  match parent_index root with
  | Some _ => Err (InvalidLeafParentIndex root_index)
  | None => check_children leafs root_index checked offset None (children_indexes root)
  end.

(** ** Forests *)

Record DarkForest := { trees : list (DarkTree T); forest_min_capacity : option Z; forest_max_capacity : option Z }.

Definition DarkForest_new (mn mx : option Z) : DarkForest :=
  {| trees := []; forest_min_capacity := mn; forest_max_capacity := mx |}.

Definition forest_len (f : DarkForest) : Z := foldl (fun n t => n + tree_len t) 0 (trees f).

Definition forest_check_min_capacity (f : DarkForest) : TRes unit :=
  match forest_min_capacity f with
  | Some mn => if forest_len f <? mn then Err MinCapacityNotExceeded else Ok tt
  | None => Ok tt
  end.

Definition forest_check_max_capacity (f : DarkForest) : TRes unit :=
  match forest_max_capacity f with
  | Some mx => if mx <? forest_len f then Err MaxCapacityExceeded else Ok tt
  | None => Ok tt
  end.

Definition forest_append t (f : DarkForest) : TRes DarkForest :=
  let full := match forest_max_capacity f with Some mx => mx <? forest_len f + tree_len t | None => false end in
  if full then Err MaxCapacityExceeded
  else Ok {| trees := trees f ++ [t]; forest_min_capacity := forest_min_capacity f;
             forest_max_capacity := forest_max_capacity f |}.

Definition forest_index (f : DarkForest) : DarkForest :=
  {| trees := map tree_index (trees f); forest_min_capacity := forest_min_capacity f;
     forest_max_capacity := forest_max_capacity f |}.

Fixpoint check_all ts : TRes unit :=
  match ts with [] => Ok tt | t :: rest => let? _ := tree_integrity_check t in check_all rest end.

Definition forest_integrity_check (f : DarkForest) : TRes unit :=
  let? _ := (match forest_min_capacity f, forest_max_capacity f with
             | Some mn, Some mx => if mx <? mn then Err (InvalidMaxCapacity mx mn) else Ok tt
             | _, _ => Ok tt
             end : TRes unit) in
  let? _ := forest_check_min_capacity f in
  let? _ := forest_check_max_capacity f in
  check_all (trees f).

Definition forest_build (f : DarkForest) : DarkForest * TRes unit :=
  let f' := forest_index f in (f', forest_integrity_check f').

Definition shift_leaf (shift : Z) (l : DarkLeaf T) : DarkLeaf T :=
  {| leaf_data := leaf_data l; parent_index := (fun p => p + shift) <$> parent_index l;
     children_indexes := map (fun c => c + shift) (children_indexes l) |}.

Definition add_tree (leafs : list (DarkLeaf T)) t : list (DarkLeaf T) :=
  leafs ++ map (shift_leaf (Z.of_nat (length leafs))) (map leaf_info (postorder t)).

Definition forest_build_vec (f : DarkForest) : DarkForest * TRes (list (DarkLeaf T)) :=
  let '(f', r) := forest_build f in
  (f', let? _ := r in Ok (foldl add_tree [] (trees f'))).

(** The trees of the slice one after the other; a leaf without a parent ends
    one.  The offset of a tree is the length of the tree before it. *)
Fixpoint check_trees (leafs tree_leafs : list (DarkLeaf T)) (offset : Z) : TRes (list (DarkLeaf T)) :=
  match leafs with
  | [] => Ok tree_leafs
  | leaf :: rest =>
      let tree_leafs := tree_leafs ++ [leaf] in
      match parent_index leaf with
      | Some _ => check_trees rest tree_leafs offset
      | None =>
          let? _ := dark_leaf_vec_integrity_check tree_leafs None None (Some offset) in
          check_trees rest [] (Z.of_nat (length tree_leafs))
      end
  end.

Definition dark_forest_leaf_vec_integrity_check (leafs : list (DarkLeaf T)) (mn mx : option Z) : TRes unit :=
  let? _ := capacity_checks (min_capacity_or_one mn) mx (Z.of_nat (length leafs)) in
  let? left_over := check_trees leafs [] 0 in
  match left_over with
  | [] => Ok tt
  | _ => Err (InvalidLeafParentIndex (Z.of_nat (length leafs) - 1))
  end.
End tree.
Arguments DarkForest T : clear implicits.
Arguments DarkTreeIter T : clear implicits.
