(* ===== verification/CallTrees.v ===== *)
(** * What the call trees guarantee

    The traversals visit the leaves in post-order; the check of a flattened tree
    accepts exactly the slices whose parent and child indexes agree; what a tree
    is built into passes it.  The check of a flattened forest is right for two
    trees only. *)

From stdpp Require Import sorting.
From S2P Require Import Prelude DarkTree.

Section traversal.
Context {T : Type}.
Implicit Types (t : DarkTree T) (ts : list (DarkTree T)).

Lemma postorder_eq (l : DarkTreeLeaf T) ts (mn : Z) (mx : option Z) : postorder (mkTree l ts mn mx) = postorders ts ++ [l].
Proof. reflexivity. Qed.

Lemma postorder_last t : exists ls, postorder t = ls ++ [tree_leaf t].
Proof. destruct t. rewrite postorder_eq. by eexists. Qed.

(** ** The borrowing iterator *)

(** What is left to visit above a level: the parent, then its siblings. *)
Fixpoint visits_above (up : DarkTreeIter T) : list (DarkTreeLeaf T) :=
  match up with
  | mkIter [] _ => []
  | mkIter (p :: rest) up' =>
      tree_leaf p :: postorders rest ++ match up' with Some u => visits_above u | None => [] end
  end.

Definition visits (it : DarkTreeIter T) : list (DarkTreeLeaf T) :=
  let '(mkIter ts up) := it in postorders ts ++ match up with Some u => visits_above u | None => [] end.

(** Every level above has its parent first. *)
Fixpoint level_ok (up : DarkTreeIter T) : Prop :=
  let '(mkIter ts up') := up in ts <> [] /\ match up' with Some u => level_ok u | None => True end.

Definition iter_ok (up : option (DarkTreeIter T)) : Prop := match up with Some u => level_ok u | None => True end.

Lemma enter_visits t ts (up : option (DarkTreeIter T)) :
  iter_ok up ->
  exists l ts' up', enter t ts up = Yields l (mkIter ts' up') /\ iter_ok up' /\
    visits (mkIter (t :: ts) up) = l :: visits (mkIter ts' up').
Proof.
  revert ts up. induction t as [l cs mn mx IH] using DarkTree_nested_ind. intros ts up Hup. cbn [enter].
  destruct cs as [|c cs].
  - by exists l, ts, up.
  - inversion IH as [|? ? Hc _]; subst.
    destruct (Hc cs (Some (mkIter (mkTree l (c :: cs) mn mx :: ts) up))) as (l' & ts' & up' & -> & Hok & Hv); [by split |].
    exists l', ts', up'. split_and!; [done | done |]. rewrite <- Hv. cbn [visits visits_above].
    cbn [postorders flat_map]. rewrite postorder_eq. cbn [postorders flat_map]. by rewrite <- !app_assoc.
Qed.

Lemma iter_run_visits (fuel : nat) ts (up : option (DarkTreeIter T)) :
  iter_ok up -> (length (visits (mkIter ts up)) < fuel)%nat -> iter_run fuel (mkIter ts up) = Some (visits (mkIter ts up)).
Proof.
  revert ts up. induction fuel as [|fuel IH]; intros ts up Hup Hf; [lia |]. cbn [iter_run].
  destruct ts as [|t ts].
  - cbn [iter_next]. destruct up as [[[|p rest] up]|]; [by destruct Hup | | done]. destruct Hup as [_ Hup].
    cbn [visits visits_above postorders flat_map app length] in *. rewrite (IH rest up) by (try done; cbn [visits]; lia). done.
  - cbn [iter_next]. destruct (enter_visits t ts up Hup) as (l & ts' & up' & -> & Hok & Hv).
    rewrite Hv in *. cbn [length] in Hf. rewrite IH by (done || lia). done.
Qed.

(** ** The consuming iterator *)

Fixpoint queued (it : DarkTreeIntoIter) : list (DarkTreeLeaf T) :=
  let '(mkInto q above) := it in postorders q ++ match above with Some u => queued u | None => [] end.

(** Trees still to be opened, and levels still to be left. *)
Fixpoint openings t : nat :=
  let '(mkTree _ cs _ _) := t in
  match cs with
  | [] => 0%nat
  | _ => S ((fix all ts := match ts with [] => 0%nat | c :: rest => (openings c + all rest)%nat end) cs)
  end.

Definition openings_all ts : nat := sum_list (map openings ts).

Fixpoint work (it : @DarkTreeIntoIter T) : nat :=
  let '(mkInto q above) := it in (2 * openings_all q + match above with Some u => S (work u) | None => 0 end)%nat.

Lemma openings_eq (l : DarkTreeLeaf T) ts (mn : Z) (mx : option Z) :
  openings (mkTree l ts mn mx) = match ts with [] => 0%nat | _ => S (openings_all ts) end.
Proof.
  cbn [openings]. destruct ts as [|c ts]; [done |]. f_equal. unfold openings_all. cbn [map sum_list].
  f_equal. induction ts as [|c' ts IH]; [done |]. cbn [map sum_list]. by f_equal.
Qed.

Lemma openings_cons t ts : openings_all (t :: ts) = (openings t + openings_all ts)%nat.
Proof. done. Qed.

Lemma openings_app ts ts' : openings_all (ts ++ ts') = (openings_all ts + openings_all ts')%nat.
Proof. unfold openings_all. rewrite map_app. induction ts; cbn [map app sum_list]; lia. Qed.

Lemma postorders_app ts ts' : postorders (ts ++ ts') = postorders ts ++ postorders ts'.
Proof. apply flat_map_app. Qed.

Lemma into_next_spec (fuel : nat) (it : DarkTreeIntoIter) :
  (work it < fuel)%nat ->
  match queued it with
  | [] => into_next fuel it = Some None
  | l :: ls => exists it', into_next fuel it = Some (Some (l, it')) /\ queued it' = ls /\ (work it' <= work it)%nat
  end.
Proof.
  revert it. induction fuel as [|fuel IH]; intros it Hf; [lia |]. destruct it as [q above]. cbn [into_next].
  destruct q as [|[l cs mn mx] rest].
  - destruct above as [above|]; [| done]. cbn [work queued openings_all map sum_list] in Hf.
    specialize (IH above). cbn [queued postorders flat_map app]. destruct (queued above) as [|l ls] eqn:Eq.
    + apply IH. lia.
    + destruct IH as (it' & -> & Hq & Hw); [lia |]. exists it'. split_and!; [done | done |]. cbn [work openings_all map sum_list]. lia.
  - destruct cs as [|c cs].
    + cbn [queued postorders flat_map]. rewrite postorder_eq. cbn [postorders flat_map app].
      exists (mkInto rest above). split_and!; [done | done |]. cbn [work openings_all map sum_list]. fold (openings_all rest). lia.
    + set (it' := mkInto ((c :: cs) ++ [mkTree l [] mn mx]) (Some (mkInto rest above))).
      assert (queued (mkInto (mkTree l (c :: cs) mn mx :: rest) above) = queued it') as ->.
      { unfold it'. cbn [queued]. rewrite postorders_app. cbn [postorders flat_map]. rewrite !postorder_eq.
        cbn [postorders flat_map app]. by rewrite <- !app_assoc. }
      assert (S (work it') = work (mkInto (mkTree l (c :: cs) mn mx :: rest) above)) as Hw.
      { unfold it'. cbn [work]. rewrite openings_app, !(openings_cons (mkTree _ _ _ _)), !openings_eq. cbn. lia. }
      specialize (IH it' ltac:(lia)). destruct (queued it') as [|l' ls]; [done |].
      destruct IH as (it2 & -> & Hq & Hw2). exists it2. split_and!; [done | done | lia].
Qed.
Lemma into_run_queued (fuel depth : nat) (it : DarkTreeIntoIter) :
  (length (queued it) < fuel)%nat -> (work it < depth)%nat -> into_run fuel depth it = Some (queued it).
Proof.
  revert it. induction fuel as [|fuel IH]; intros it Hf Hd; [lia |]. cbn [into_run].
  pose proof (into_next_spec depth it Hd) as Hn. destruct (queued it) as [|l ls]; [by rewrite Hn |].
  destruct Hn as (it' & -> & Hq & Hw). cbn [length] in Hf. rewrite IH by (rewrite ?Hq; lia). by rewrite Hq.
Qed.

(** Fewer trees have children than there are leaves. *)
Lemma openings_bound t : (openings t < length (postorder t))%nat.
Proof.
  induction t as [l cs mn mx IH] using DarkTree_nested_ind. rewrite openings_eq, postorder_eq, length_app. cbn [length].
  assert ((openings_all cs + length cs)%nat <= length (postorders cs))%nat as Hall.
  { induction IH as [|c cs Hc _ IHcs]; [done |]. rewrite openings_cons. change (postorders (c :: cs)) with (postorder c ++ postorders cs).
    rewrite length_app. cbn [length]. lia. }
  destruct cs; cbn [length] in *; lia.
Qed.

(** the two iterators that walk a tree with an explicit stack, the one that
    borrows it and the one that takes it apart, end after as many steps as there
    are leaves, never reach the unwrap of an empty level, and visit the leaves
    in post-order: children first, then the node. *)
Lemma traversals_are_postorder t :
  let n := length (postorder t) in
  iter_run (S n) (tree_iter t) = Some (postorder t) /\ into_run (S n) (2 * n)%nat (tree_into_iter t) = Some (postorder t).
Proof.
  assert (postorders [t] = postorder t) as E by (cbn [postorders flat_map]; apply app_nil_r).
  cbv zeta. split.
  - unfold tree_iter. rewrite iter_run_visits; cbn [visits iter_ok]; rewrite ?app_nil_r, ?E; [done | done | lia].
  - unfold tree_into_iter. pose proof (openings_bound t) as Hb.
    rewrite into_run_queued; cbn [queued work]; rewrite ?app_nil_r, ?E, ?openings_cons; [done | lia |].
    assert (openings_all (@nil (DarkTree T)) = 0%nat) as -> by done. lia.
Qed.
End traversal.

(** ** The check of a flattened tree *)

Section flattened.
Context {T : Type}.
Implicit Types (ls leafs : list (DarkLeaf T)) (l : DarkLeaf T) (off k : Z).

(** The positions, from [pos] on, of the leaves whose parent is [k]. *)
Fixpoint children_from (pos : Z) ls k : list Z :=
  match ls with
  | [] => []
  | l :: rest => (if bool_decide (parent_index l = Some k) then [pos] else []) ++ children_from (pos + 1) rest k
  end.

(** The last leaf is the root; every other has its parent after it; the children
    of a leaf are the leaves that name it, in order. *)
Record linked off ls : Prop := {
  linked_root : exists l, last ls = Some l /\ parent_index l = None;
  linked_parent : forall (i : nat) l, ls !! i = Some l -> (S i < length ls)%nat ->
    exists p, parent_index l = Some p /\ off + Z.of_nat i < p < off + Z.of_nat (length ls);
  linked_children : forall (i : nat) l, ls !! i = Some l -> children_indexes l = children_from off ls (off + Z.of_nat i)
}.

Lemma elem_of_children_from off ls k (c : Z) :
  c ∈ children_from off ls k <-> exists (j : nat) l, c = off + Z.of_nat j /\ ls !! j = Some l /\ parent_index l = Some k.
Proof.
  revert off. induction ls as [|l ls IH]; intros off; cbn [children_from].
  { split; [by intros ?%elem_of_nil |]. by intros (j & l & _ & Hl & _). }
  rewrite elem_of_app, IH. split.
  - intros [Hc | (j & l' & -> & Hl & Hp)].
    + destruct (bool_decide_reflect (parent_index l = Some k)); [| by apply elem_of_nil in Hc].
      apply list_elem_of_singleton in Hc as ->. exists 0%nat, l. split_and!; [lia | done | done].
    + exists (S j), l'. split_and!; [lia | done | done].
  - intros ([|j] & l' & -> & Hl & Hp); cbn in Hl.
    + left. injection Hl as <-. rewrite bool_decide_true by done. apply list_elem_of_singleton. lia.
    + right. exists j, l'. split_and!; [lia | done | done].
Qed.

Lemma children_from_bounds off ls k (c : Z) : c ∈ children_from off ls k -> off <= c < off + Z.of_nat (length ls).
Proof. rewrite elem_of_children_from. intros (j & l & -> & Hl%lookup_lt_Some & _). lia. Qed.

Lemma children_from_sorted off ls k : StronglySorted Z.lt (children_from off ls k).
Proof.
  revert off. induction ls as [|l ls IH]; intros off; cbn [children_from]; [constructor |].
  destruct (bool_decide_reflect (parent_index l = Some k)); cbn [app]; [| apply IH].
  constructor; [apply IH |]. apply Forall_forall. intros c Hc%children_from_bounds. lia.
Qed.

Lemma children_from_app off ls1 ls2 k :
  children_from off (ls1 ++ ls2) k = children_from off ls1 k ++ children_from (off + Z.of_nat (length ls1)) ls2 k.
Proof.
  revert off. induction ls1 as [|l ls1 IH]; intros off; cbn [children_from app length]; [by rewrite Z.add_0_r |].
  rewrite IH, <- app_assoc. do 3 f_equal. lia.
Qed.

Lemma sorted_unique (l1 l2 : list Z) :
  StronglySorted Z.lt l1 -> StronglySorted Z.lt l2 -> (forall c, c ∈ l1 <-> c ∈ l2) -> l1 = l2.
Proof.
  assert (forall cs : list Z, StronglySorted Z.lt cs -> NoDup cs) as Hnd.
  { intros cs. induction 1 as [|c cs Hl IH Hc]; constructor; [| done]. intros Hin. rewrite Forall_forall in Hc. specialize (Hc c Hin). lia. }
  intros H1 H2 Heq. apply (StronglySorted_unique_strong Z.lt); [| done | done |].
  - intros x y _ _ ? ?. lia.
  - apply NoDup_Permutation; auto.
Qed.

(** What [check_children] accepts. *)
Definition kids_ok leafs off (index : Z) (checked cs : list Z) : Prop :=
  StronglySorted Z.lt cs /\
  Forall (fun c => off <= c < index /\ c ∈ checked /\
    exists l, leafs !! Z.to_nat (c - off) = Some l /\ parent_index l = Some index) cs.

Lemma leaf_at_ok leafs (i : Z) l : leaf_at leafs i = Ok l <-> 0 <= i /\ leafs !! Z.to_nat i = Some l.
Proof. unfold leaf_at. destruct (Z.ltb_spec i 0); [naive_solver lia |]. rewrite ok_or_ok. naive_solver. Qed.

Lemma check_children_ok leafs off (index : Z) (checked : list Z) (prev : option Z) (cs : list Z) :
  check_children leafs index checked off prev cs = Ok tt <->
  kids_ok leafs off index checked cs /\ forall x, prev = Some x -> Forall (fun c => x < c) cs.
Proof.
  revert prev. induction cs as [|c cs IH]; intros prev; cbn [check_children].
  { split; [| done]. intros _. split; [split; constructor | constructor]. }
  unfold kids_ok. split.
  - intros H. inv_result. destruct (parent_index a) as [p|] eqn:Ep; [| discriminate]. inv_result. bool_facts.
    apply leaf_at_ok in E3 as [Hc0 El].
    apply IH in H as [[Hs Hf] Hlt]. specialize (Hlt c eq_refl). split_and!.
    + by constructor.
    + constructor; [| done]. split_and!; [lia | lia | done |]. exists a. split; [done |]. rewrite Ep. f_equal. lia.
    + intros x ->. constructor; [lia |]. eapply Forall_impl; [exact Hlt |]. cbn. lia.
  - intros [[Hs Hf] Hlt]. inversion Hs as [|? ? Hs' Hc]; subst. inversion Hf as [|? ? (Hb & Hin & l & El & Ep) Hf']; subst.
    assert (c <? off = false) as -> by lia.
    assert (match prev with Some l0 => c <=? l0 | None => false end = false) as ->.
    { destruct prev as [x|]; [| done]. specialize (Hlt x eq_refl). inversion Hlt; subst. lia. }
    rewrite bool_decide_true by done. cbn [negb]. assert (index <=? c = false) as -> by lia.
    rewrite (proj2 (leaf_at_ok _ _ l)) by (split; [lia | done]). rewrite Ep, Z.eqb_refl. cbn [negb].
    apply IH. split; [done |]. by intros x [= <-].
Qed.

(** What is asked of a leaf before the root. *)
Definition node_ok leafs off (root : Z) (i : nat) l : Prop :=
  exists p parent, parent_index l = Some p /\ off + Z.of_nat i < p <= root /\
    leafs !! Z.to_nat (p - off) = Some parent /\ off + Z.of_nat i ∈ children_indexes parent /\
    kids_ok leafs off (off + Z.of_nat i) (seqZ off (Z.of_nat i)) (children_indexes l).

Lemma check_inner_ok leafs off (root : Z) ls (k : nat) (checked : list Z) :
  check_inner leafs root off ls (off + Z.of_nat k) (seqZ off (Z.of_nat k)) = Ok checked <->
  checked = seqZ off (Z.of_nat (k + length ls)) /\ forall (i : nat) l, ls !! i = Some l -> node_ok leafs off root (k + i) l.
Proof.
  revert k. induction ls as [|l ls IH]; intros k; cbn [check_inner length].
  { rewrite Nat.add_0_r. split; [intros [= <-]; by split | by intros [-> _]]. }
  assert (check_inner leafs root off ls (off + Z.of_nat k + 1) (seqZ off (Z.of_nat k) ++ [off + Z.of_nat k]) = Ok checked <->
    checked = seqZ off (Z.of_nat (k + S (length ls))) /\ forall (i : nat) l, ls !! i = Some l -> node_ok leafs off root (k + S i) l) as Hrest.
  { specialize (IH (S k)). rewrite seqZ_S in IH.
    replace (off + Z.of_nat k + 1) with (off + Z.of_nat (S k)) by lia. rewrite IH.
    replace (S k + length ls)%nat with (k + S (length ls))%nat by lia.
    by setoid_rewrite Nat.add_succ_r. }
  split.
  - intros H. destruct (parent_index l) as [p|] eqn:Ep; [| discriminate]. inv_result. bool_facts. rename a into parent.
    match goal with u : unit |- _ => destruct u end.
    match goal with H1 : leaf_at _ _ = _, H2 : check_children _ _ _ _ _ _ = _ |- _ =>
      apply leaf_at_ok in H1 as [_ El]; apply check_children_ok in H2 as [Hk _] end.
    apply Hrest in H as [-> Hr]. split; [done |]. intros [|i] l' Hl; cbn in Hl; [| by apply Hr].
    injection Hl as <-. rewrite Nat.add_0_r. exists p, parent. split_and!; [done | lia | lia | done | done | apply Hk..].
  - intros [-> Hn]. pose proof (Hn 0%nat l eq_refl) as (p & parent & Ep & Hp & El & Hin & Hk). rewrite Nat.add_0_r in *.
    rewrite Ep. assert (root <? p = false) as -> by lia. assert (p <=? off + Z.of_nat k = false) as -> by lia.
    rewrite (proj2 (leaf_at_ok _ _ parent)) by (split; [lia | done]). rewrite bool_decide_true by done. cbn [negb].
    rewrite (proj2 (check_children_ok _ _ _ _ _ _)) by done. apply Hrest. split; [done |]. intros i l' Hl. by apply Hn.
Qed.
Lemma check_inner_all leafs off (root : Z) ls (checked : list Z) :
  check_inner leafs root off ls off [] = Ok checked <->
  checked = seqZ off (Z.of_nat (length ls)) /\ forall (i : nat) l, ls !! i = Some l -> node_ok leafs off root i l.
Proof.
  pose proof (check_inner_ok leafs off root ls 0 checked) as H. cbn [Nat.add] in H.
  change (Z.of_nat 0) with 0 in H. by rewrite Z.add_0_r in H.
Qed.

Definition capacity_ok (mn mx : option Z) (n : Z) : Prop :=
  min_capacity_or_one mn <= n /\ forall m, mx = Some m -> min_capacity_or_one mn <= m /\ n <= m.

Lemma capacity_checks_ok (mn mx : option Z) (n : Z) :
  capacity_checks (min_capacity_or_one mn) mx n = Ok tt <-> capacity_ok mn mx n.
Proof.
  unfold capacity_checks, capacity_ok. destruct mx as [m|].
  - destruct (Z.ltb_spec m (min_capacity_or_one mn)), (Z.ltb_spec n (min_capacity_or_one mn)), (Z.ltb_spec m n);
      split; try done; try (intros [? H']; specialize (H' m eq_refl); lia); intros _; (split; [lia |]); intros ? [= <-]; lia.
  - destruct (Z.ltb_spec n (min_capacity_or_one mn)); split; try done; lia.
Qed.

(** The children a checked slice lists are the leaves that name the parent. *)
Lemma kids_children leafs off (i : nat) l :
  leafs !! i = Some l ->
  (exists checked, kids_ok leafs off (off + Z.of_nat i) checked (children_indexes l)) ->
  (forall (j : nat) l', leafs !! j = Some l' -> parent_index l' = Some (off + Z.of_nat i) -> off + Z.of_nat j ∈ children_indexes l) ->
  children_indexes l = children_from off leafs (off + Z.of_nat i).
Proof.
  intros Hl (checked & Hs & Hf) Hback. apply sorted_unique; [done | apply children_from_sorted |].
  intros c. rewrite elem_of_children_from. split.
  - intros Hc. rewrite Forall_forall in Hf. destruct (Hf c Hc) as ([Hb _] & _ & l' & Hl' & Hp).
    exists (Z.to_nat (c - off)), l'. split_and!; [lia | done | done].
  - intros (j & l' & -> & Hl' & Hp). by eapply Hback.
Qed.

Lemma children_kids leafs off (i : nat) l :
  linked off leafs -> leafs !! i = Some l ->
  kids_ok leafs off (off + Z.of_nat i) (seqZ off (Z.of_nat i)) (children_from off leafs (off + Z.of_nat i)).
Proof.
  intros [(root & Hr & Hr') Hp Hc] Hl. split; [apply children_from_sorted |]. apply Forall_forall.
  intros c (j & l' & -> & Hl' & Ep)%elem_of_children_from.
  destruct (decide (S j < length leafs)%nat) as [Hj | Hj].
  - destruct (Hp j l' Hl' Hj) as (p & Ep' & Hb). rewrite Ep in Ep'. injection Ep' as <-.
    split_and!; [lia | lia | apply elem_of_seqZ; lia |]. exists l'. split; [| done]. rewrite <- Hl'. f_equal. lia.
  - pose proof (lookup_lt_Some _ _ _ Hl') as Hlt. rewrite last_lookup in Hr. replace (pred (length leafs)) with j in Hr by lia.
    rewrite Hr in Hl'. injection Hl' as <-. by rewrite Hr' in Ep.
Qed.

Lemma linked_node ls root off :
  linked off (ls ++ [root]) -> forall (i : nat) l, ls !! i = Some l -> node_ok (ls ++ [root]) off (off + Z.of_nat (length ls)) i l.
Proof.
  intros [Hr Hp Hc] i l Hl. pose proof (lookup_lt_Some _ _ _ Hl) as Hi.
  assert ((ls ++ [root]) !! i = Some l) as Hl' by (by rewrite lookup_app_l).
  destruct (Hp i l Hl') as (p & Ep & Hb); [rewrite length_app; cbn; lia |]. rewrite length_app in Hb. cbn [length] in Hb.
  destruct (lookup_lt_is_Some_2 (ls ++ [root]) (Z.to_nat (p - off))) as [parent Epar]; [rewrite length_app; cbn; lia |].
  exists p, parent. split_and!; [done | lia | lia | done | |].
  - rewrite (Hc _ _ Epar). apply elem_of_children_from. exists i, l. split_and!; [done | done |]. rewrite Ep. f_equal. lia.
  - rewrite (Hc _ _ Hl'). by apply (children_kids _ _ i l).
Qed.
Lemma leaf_vec_check_iff leafs (mn mx : option Z) off :
  dark_leaf_vec_integrity_check leafs mn mx (Some off) = Ok tt <->
  capacity_ok mn mx (Z.of_nat (length leafs)) /\ linked off leafs.
Proof.
  unfold dark_leaf_vec_integrity_check. rewrite <- capacity_checks_ok. change (default 0 (Some off)) with off. cbv zeta.
  destruct (capacity_checks _ _ _) as [[]|e]; [| by split; [| intros [? _]]].
  destruct leafs as [|root ls _] using rev_ind.
  { split; [by intros ?; inv_result | intros [_ [(l & Hl & _) _ _]]; done]. }
  rewrite removelast_last, last_snoc, length_app. cbn [length ok_or].
  replace (Z.of_nat (length ls + 1) - 1 + off) with (off + Z.of_nat (length ls)) by lia.
  assert ((ls ++ [root]) !! length ls = Some root) as Hroot by (by rewrite lookup_app_r, Nat.sub_diag).
  split.
  - intros H. inv_result. rename a into checked. apply check_inner_all in E as [-> Hn].
    destruct (parent_index root) eqn:Er; [discriminate |]. apply check_children_ok in H as [Hk _]. split; [done |].
    assert (forall (i j : nat) l l', (ls ++ [root]) !! i = Some l -> (ls ++ [root]) !! j = Some l' ->
      parent_index l' = Some (off + Z.of_nat i) -> off + Z.of_nat j ∈ children_indexes l) as Hback.
    { intros i j l l' Hi Hj Hp. apply lookup_app_Some in Hj as [Hj | [_ Hj]].
      - destruct (Hn j l' Hj) as (p & parent & Ep & _ & El & Hin & _). rewrite Hp in Ep. injection Ep as <-.
        replace (Z.to_nat (off + Z.of_nat i - off)) with i in El by lia. rewrite Hi in El. by injection El as <-.
      - apply list_lookup_singleton_Some in Hj as [_ <-]. congruence. }
    constructor.
    + exists root. by rewrite last_snoc.
    + intros i l Hl Hi. rewrite length_app in *. cbn [length] in *. rewrite lookup_app_l in Hl by lia.
      destruct (Hn i l Hl) as (p & parent & Ep & Hb & _). exists p. split; [done | lia].
    + intros i l Hl. apply kids_children; [done | | by intros j l'; apply Hback].
      pose proof Hl as Hl'. apply lookup_app_Some in Hl' as [Hi | [Hge Hi]].
      * destruct (Hn i l Hi) as (p & parent & _ & _ & _ & _ & Hki). by eexists.
      * apply list_lookup_singleton_Some in Hi as [Hi <-]. replace i with (length ls) by lia. by eexists.
  - intros [_ Hlk]. rewrite (proj2 (check_inner_all _ _ _ _ _)) by (split; [done | by apply linked_node]).
    destruct (linked_root _ _ Hlk) as (r & Er & Ep). rewrite last_snoc in Er. injection Er as <-. rewrite Ep.
    apply check_children_ok. split; [| done]. rewrite (linked_children _ _ Hlk _ _ Hroot). by apply (children_kids _ _ _ root).
Qed.
Lemma leaf_vec_check_holds leafs (mn mx : option Z) off :
  capacity_ok mn mx (Z.of_nat (length leafs)) -> linked off leafs -> dark_leaf_vec_integrity_check leafs mn mx (Some off) = Ok tt.
Proof. intros. by apply leaf_vec_check_iff. Qed.

Lemma leaf_vec_check_linked leafs (mn mx : option Z) off :
  dark_leaf_vec_integrity_check leafs mn mx (Some off) = Ok tt -> linked off leafs.
Proof. by intros [_ ?]%leaf_vec_check_iff. Qed.

(** [dark_leaf_vec_integrity_check] accepts a slice exactly when its length
    is within the capacities, its last leaf has no parent, every other leaf
    names a parent after it, and the children a leaf lists are the leaves that
    name it, each once and in order; it never reads outside the slice.  It does
    not ask for post-order. *)
Theorem leaf_vec_check_exact leafs (mn mx : option Z) off :
  dark_leaf_vec_integrity_check leafs mn mx (Some off) = Ok tt <->
  capacity_ok mn mx (Z.of_nat (length leafs)) /\ linked off leafs.
Proof. apply leaf_vec_check_iff. Qed.
End flattened.

(** ** What a tree is built into *)

Section building.
Context {T : Type}.
Implicit Types (t : DarkTree T) (ts : list (DarkTree T)) (ls : list (DarkLeaf T)) (off k : Z).

Lemma tree_len_pos t : 1 <= tree_len t.
Proof. unfold tree_len. destruct t. rewrite postorder_eq, length_app. cbn [length]. lia. Qed.

Definition trees_len ts : Z := Z.of_nat (length (postorders ts)).

Lemma trees_len_cons t ts : trees_len (t :: ts) = tree_len t + trees_len ts.
Proof. unfold trees_len, tree_len. change (postorders (t :: ts)) with (postorder t ++ postorders ts). rewrite length_app. lia. Qed.

Lemma tree_len_eq (l : DarkTreeLeaf T) ts (mn : Z) (mx : option Z) : tree_len (mkTree l ts mn mx) = trees_len ts + 1.
Proof. unfold tree_len, trees_len. rewrite postorder_eq, length_app. cbn [length]. lia. Qed.

(** The positions of the roots of trees laid out from [off]. *)
Fixpoint roots off ts : list Z :=
  match ts with [] => [] | t :: rest => off + tree_len t - 1 :: roots (off + tree_len t) rest end.

(** The leaves of a tree laid out from [off]. *)
Fixpoint flat (off : Z) (parent : option Z) t : list (DarkLeaf T) :=
  let '(mkTree l cs _ _) := t in
  let r := off + trees_len cs in
  (fix all (off : Z) ts : list (DarkLeaf T) :=
     match ts with [] => [] | c :: rest => flat off (Some r) c ++ all (off + tree_len c) rest end) off cs ++
  [{| leaf_data := leaf_data (leaf_info l); parent_index := parent; children_indexes := roots off cs |}].

Fixpoint flats off (parent : option Z) ts : list (DarkLeaf T) :=
  match ts with [] => [] | c :: rest => flat off parent c ++ flats (off + tree_len c) parent rest end.

Lemma flat_eq off (parent : option Z) (l : DarkTreeLeaf T) ts (mn : Z) (mx : option Z) :
  flat off parent (mkTree l ts mn mx) = flats off (Some (off + trees_len ts)) ts ++
    [{| leaf_data := leaf_data (leaf_info l); parent_index := parent; children_indexes := roots off ts |}].
Proof.
  cbn [flat]. f_equal. generalize (Some (off + trees_len ts)). intros r. revert off.
  induction ts as [|c ts IH]; intros off; [done |]. cbn [flats]. by rewrite IH.
Qed.

(** [set_indexes] over siblings. *)
Fixpoint set_all (next : Z) ts : list (DarkTree T) * Z :=
  match ts with
  | [] => ([], next)
  | c :: rest => let '(c', n) := set_indexes next c in let '(rest', n') := set_all n rest in (c' :: rest', n')
  end.

Lemma set_indexes_eq (next : Z) (l : DarkTreeLeaf T) ts (mn : Z) (mx : option Z) :
  set_indexes next (mkTree l ts mn mx) =
  (mkTree {| leaf_index := (set_all next ts).2; leaf_info := leaf_info l |} (set_all next ts).1 mn mx, (set_all next ts).2 + 1).
Proof. cbn [set_indexes]. change (_ next ts) with (set_all next ts) at 1. by destruct (set_all next ts). Qed.

Lemma set_indexes_next (next : Z) t : (set_indexes next t).2 = next + tree_len t.
Proof.
  revert next. induction t as [l cs mn mx IH] using DarkTree_nested_ind. intros next. rewrite set_indexes_eq, tree_len_eq. cbn [snd].
  rewrite Z.add_assoc. f_equal. revert next. induction IH as [|c cs Hc _ IHcs]; intros next; [unfold trees_len; cbn; lia |].
  cbn [set_all]. specialize (Hc next). destruct (set_indexes next c) as [c' n]. specialize (IHcs n).
  destruct (set_all n cs) as [cs' n']. cbn [snd] in *. rewrite trees_len_cons. lia.
Qed.

Lemma set_all_next (next : Z) ts : (set_all next ts).2 = next + trees_len ts.
Proof.
  revert next. induction ts as [|c ts IH]; intros next; [unfold trees_len; cbn; lia |]. cbn [set_all].
  pose proof (set_indexes_next next c) as Hc. destruct (set_indexes next c) as [c' n]. specialize (IH n).
  destruct (set_all n ts) as [ts' n']. cbn [snd] in *. rewrite trees_len_cons. lia.
Qed.

(** A tree indexed from [off] under a parent. *)
Definition indexed_at off (parent : option Z) t : DarkTree T := set_parent_children_indexes parent (set_indexes off t).1.

Fixpoint indexed_all off (parent : option Z) ts : list (DarkTree T) :=
  match ts with [] => [] | c :: rest => indexed_at off parent c :: indexed_all (off + tree_len c) parent rest end.

Lemma indexed_root off (parent : option Z) t : leaf_index (tree_leaf (indexed_at off parent t)) = off + tree_len t - 1.
Proof.
  unfold indexed_at. destruct t as [l cs mn mx]. rewrite set_indexes_eq, tree_len_eq. cbn. rewrite set_all_next. lia.
Qed.

Lemma indexed_roots off (parent : option Z) ts :
  map (fun c => leaf_index (tree_leaf c)) (indexed_all off parent ts) = roots off ts.
Proof. revert off. induction ts as [|c ts IH]; intros off; [done |]. cbn [indexed_all map roots]. by rewrite indexed_root, IH. Qed.

Lemma set_all_indexed off (parent : option Z) ts :
  map (set_parent_children_indexes parent) (set_all off ts).1 = indexed_all off parent ts.
Proof.
  revert off. induction ts as [|c ts IH]; intros off; [done |]. cbn [set_all indexed_all].
  pose proof (set_indexes_next off c) as Hc. unfold indexed_at. destruct (set_indexes off c) as [c' n]. cbn [snd] in Hc. subst n.
  specialize (IH (off + tree_len c)). destruct (set_all _ ts) as [ts' n']. cbn [fst map] in *. by rewrite IH.
Qed.

Lemma indexed_eq off (parent : option Z) (l : DarkTreeLeaf T) ts (mn : Z) (mx : option Z) :
  indexed_at off parent (mkTree l ts mn mx) =
  mkTree {| leaf_index := off + trees_len ts;
            leaf_info := {| leaf_data := leaf_data (leaf_info l); parent_index := parent; children_indexes := roots off ts |} |}
    (indexed_all off (Some (off + trees_len ts)) ts) mn mx.
Proof.
  unfold indexed_at. rewrite set_indexes_eq. cbn [fst set_parent_children_indexes leaf_index].
  rewrite set_all_next, set_all_indexed, indexed_roots. done.
Qed.

(** The leaves of the indexed tree, and the positions they carry. *)
Lemma indexed_leaves off (parent : option Z) t :
  map leaf_info (postorder (indexed_at off parent t)) = flat off parent t /\
  map leaf_index (postorder (indexed_at off parent t)) = seqZ off (tree_len t).
Proof.
  revert off parent. induction t as [l cs mn mx IH] using DarkTree_nested_ind. intros off parent.
  rewrite indexed_eq, flat_eq, tree_len_eq, postorder_eq, !map_app. cbn [map leaf_info leaf_index].
  assert (forall p, map leaf_info (postorders (indexed_all off p cs)) = flats off p cs /\
    map leaf_index (postorders (indexed_all off p cs)) = seqZ off (trees_len cs)) as Hall.
  { intros p. revert off. induction IH as [|c cs Hc _ IHcs]; intros off; [done |].
    cbn [indexed_all flats]. change (postorders (?a :: ?b)) with (postorder a ++ postorders b). rewrite !map_app.
    destruct (Hc off p) as [-> ->]. destruct (IHcs (off + tree_len c)) as [-> ->]. split; [done |].
    rewrite trees_len_cons. symmetry. apply seqZ_app; unfold tree_len, trees_len; lia. }
  destruct (Hall (Some (off + trees_len cs))) as [-> ->]. split; [done |].
  rewrite (seqZ_app off (trees_len cs) 1) by (unfold trees_len; lia). done.
Qed.
Lemma flat_length off (parent : option Z) t : Z.of_nat (length (flat off parent t)) = tree_len t.
Proof.
  destruct (indexed_leaves off parent t) as [<- E]. apply (f_equal length) in E. rewrite !length_map in *.
  rewrite E, length_seqZ. pose proof (tree_len_pos t). lia.
Qed.

(** *** The integrity check of an indexed tree *)

Lemma check_positions_ok off (ls : list (DarkTreeLeaf T)) :
  map leaf_index ls = seqZ off (Z.of_nat (length ls)) -> check_positions off ls = Ok tt.
Proof.
  revert off. induction ls as [|l ls IH]; intros off E; [done |]. cbn [check_positions map length] in *.
  rewrite Nat2Z.inj_succ, seqZ_cons in E by lia. injection E as El E. rewrite El, Z.eqb_refl. cbn [negb].
  apply IH. rewrite E. f_equal; lia.
Qed.

Definition check_links_all (parent : option Z) : list (DarkTree T) -> TRes unit :=
  fix all ts := match ts with [] => Ok tt | c :: rest => let? _ := check_parent_children_indexes parent c in all rest end.

Lemma check_links_eq (parent : option Z) (l : DarkTreeLeaf T) ts (mn : Z) (mx : option Z) :
  check_parent_children_indexes parent (mkTree l ts mn mx) =
  if negb (bool_decide (parent_index (leaf_info l) = parent)) then Err (InvalidLeafParentIndex (leaf_index l))
  else
    let? _ := check_links_all (Some (leaf_index l)) ts in
    if negb (bool_decide (children_indexes (leaf_info l) = map (fun c => leaf_index (tree_leaf c)) ts))
    then Err (InvalidLeafChildrenIndexes (leaf_index l)) else Ok tt.
Proof. reflexivity. Qed.

Lemma check_links_ok off (parent : option Z) t : check_parent_children_indexes parent (indexed_at off parent t) = Ok tt.
Proof.
  revert off parent. induction t as [l cs mn mx IH] using DarkTree_nested_ind. intros off parent.
  rewrite indexed_eq, check_links_eq. cbn [leaf_info leaf_index parent_index children_indexes].
  rewrite bool_decide_true by done. cbn [negb]. set (r := Some (off + trees_len cs)).
  assert (check_links_all r (indexed_all off r cs) = Ok tt) as ->.
  { clearbody r. clear l mn mx parent. revert off. induction IH as [|c cs Hc _ IHcs]; intros off; [done |].
    cbn [indexed_all check_links_all]. by rewrite Hc. }
  by rewrite indexed_roots, bool_decide_true.
Qed.

Definition tree_caps t : Prop :=
  1 <= tree_min_capacity t <= tree_len t /\
  forall m, tree_max_capacity t = Some m -> tree_min_capacity t <= m /\ tree_len t <= m.

Lemma indexed_len off (parent : option Z) t : tree_len (indexed_at off parent t) = tree_len t.
Proof.
  destruct (indexed_leaves off parent t) as [_ E]. apply (f_equal length) in E. rewrite length_map, length_seqZ in E.
  unfold tree_len at 1. rewrite E. pose proof (tree_len_pos t). lia.
Qed.

Lemma tree_integrity_ok t : tree_integrity_check (tree_index t) = Ok tt <-> tree_caps t.
Proof.
  unfold tree_integrity_check. change (tree_index t) with (indexed_at 0 None t).
  assert (tree_min_capacity (indexed_at 0 None t) = tree_min_capacity t /\ tree_max_capacity (indexed_at 0 None t) = tree_max_capacity t)
    as [-> ->] by (destruct t; by rewrite indexed_eq).
  rewrite check_positions_ok, check_links_ok
    by (destruct (indexed_leaves 0 None t) as [_ ->]; f_equal; symmetry; exact (indexed_len 0 None t)).
  unfold check_min_capacity, check_max_capacity, tree_caps. rewrite indexed_len.
  assert (tree_min_capacity (indexed_at 0 None t) = tree_min_capacity t /\ tree_max_capacity (indexed_at 0 None t) = tree_max_capacity t)
    as [-> ->] by (destruct t; by rewrite indexed_eq).
  destruct (Z.ltb_spec (tree_min_capacity t) 1), (Z.ltb_spec (tree_len t) (tree_min_capacity t)), (tree_max_capacity t) as [m|];
    try (destruct (Z.ltb_spec m (tree_min_capacity t))); try (destruct (Z.ltb_spec m (tree_len t)));
    (split; [intros ?; try done; (split; [lia |]); intros ? [= <-]; lia |
       intros [? Hm]; try (specialize (Hm _ eq_refl)); try done; lia]).
Qed.

Lemma tree_build_vec_ok t : tree_caps t -> (tree_build_vec t).2 = Ok (flat 0 None t).
Proof.
  intros Hc. unfold tree_build_vec, tree_build. rewrite (proj2 (tree_integrity_ok t)) by done. cbn [snd]. f_equal.
  apply indexed_leaves.
Qed.
End building.

(** ** What is built passes the check *)

Section built.
Context {T : Type}.
Implicit Types (t : DarkTree T) (ts : list (DarkTree T)) (ls : list (DarkLeaf T)) (l : DarkLeaf T) (off k : Z).

(** A flattened tree below [parent]. *)
Record block off (parent : option Z) ls : Prop := {
  block_root : exists l, last ls = Some l /\ parent_index l = parent;
  block_parent : forall (i : nat) l, ls !! i = Some l -> (S i < length ls)%nat ->
    exists p, parent_index l = Some p /\ off + Z.of_nat i < p < off + Z.of_nat (length ls);
  block_children : forall (i : nat) l, ls !! i = Some l -> children_indexes l = children_from off ls (off + Z.of_nat i)
}.

Lemma block_linked off ls : block off None ls <-> linked off ls.
Proof. split; intros [H1 H2 H3]; by constructor. Qed.

(** Flattened siblings below [r]. *)
Record siblings off (r : Z) ls (rts : list Z) : Prop := {
  sib_parent : forall (i : nat) l, ls !! i = Some l ->
    exists p, parent_index l = Some p /\ off + Z.of_nat i < p /\ (p < off + Z.of_nat (length ls) \/ p = r);
  sib_children : forall (i : nat) l, ls !! i = Some l -> children_indexes l = children_from off ls (off + Z.of_nat i);
  sib_roots : children_from off ls r = rts
}.

Lemma children_from_none off ls k :
  (forall (i : nat) l, ls !! i = Some l -> parent_index l <> Some k) -> children_from off ls k = [].
Proof.
  intros H. destruct (children_from off ls k) as [|c cs] eqn:E; [done |].
  assert (c ∈ children_from off ls k) as (j & l & _ & Hl & Hp)%elem_of_children_from by (rewrite E; by left).
  by destruct (H j l Hl).
Qed.

Lemma block_last off (parent : option Z) ls : block off parent ls ->
  exists ls' l, ls = ls' ++ [l] /\ parent_index l = parent.
Proof. intros [(l & Hl & Hp) _ _]. apply last_Some in Hl as [ls' ->]. by exists ls', l. Qed.

Lemma block_parents off (r : Z) ls (i : nat) l :
  block off (Some r) ls -> ls !! i = Some l ->
  exists p, parent_index l = Some p /\ ((S i < length ls)%nat /\ off + Z.of_nat i < p < off + Z.of_nat (length ls) \/ S i = length ls /\ p = r).
Proof.
  intros Hb Hl. pose proof (lookup_lt_Some _ _ _ Hl). destruct (decide (S i < length ls)%nat) as [Hi | Hi].
  - destruct (block_parent _ _ _ Hb i l Hl Hi) as (p & Ep & Hp). exists p. split; [done |]. left. lia.
  - destruct (block_root _ _ _ Hb) as (l' & Hl' & Ep). rewrite last_lookup in Hl'.
    replace (pred (length ls)) with i in Hl' by lia. rewrite Hl in Hl'. injection Hl' as <-. exists r. split; [done |]. right. lia.
Qed.

(** A block in front of siblings, all below the same parent. *)
Lemma siblings_cons off (r : Z) b ls (rts : list Z) :
  block off (Some r) b -> siblings (off + Z.of_nat (length b)) r ls rts -> off + Z.of_nat (length b) + Z.of_nat (length ls) <= r ->
  siblings off r (b ++ ls) (off + Z.of_nat (length b) - 1 :: rts).
Proof.
  intros Hb [Sp Sc Sr] Hr. destruct (block_last _ _ _ Hb) as (b' & rt & Eb & Ert).
  assert (forall k, off <= k < off + Z.of_nat (length b) -> children_from (off + Z.of_nat (length b)) ls k = []) as Hright.
  { intros k Hk. apply children_from_none. intros i l Hl Ep. destruct (Sp i l Hl) as (p & Ep' & Hp). rewrite Ep in Ep'. injection Ep' as <-. lia. }
  assert (forall k, off + Z.of_nat (length b) <= k < r -> children_from off b k = []) as Hleft.
  { intros k Hk. apply children_from_none. intros i l Hl Ep. destruct (block_parents _ _ _ _ _ Hb Hl) as (p & Ep' & Hp).
    rewrite Ep in Ep'. injection Ep' as <-. lia. }
  constructor.
  - intros i l [Hl | [Hge Hl]]%lookup_app_Some; rewrite length_app.
    + destruct (block_parents _ _ _ _ _ Hb Hl) as (p & Ep & Hp). pose proof (lookup_lt_Some _ _ _ Hl). exists p. split; [done |]. lia.
    + destruct (Sp _ l Hl) as (p & Ep & Hp). exists p. split; [done |]. lia.
  - intros i l [Hl | [Hge Hl]]%lookup_app_Some; rewrite children_from_app.
    + pose proof (lookup_lt_Some _ _ _ Hl). rewrite Hright, app_nil_r by lia. by apply (block_children _ _ _ Hb).
    + pose proof (lookup_lt_Some _ _ _ Hl). rewrite Hleft by lia. rewrite (Sc _ l Hl). cbn [app]. f_equal. lia.
  - rewrite children_from_app, Sr, Eb, children_from_app. cbn [children_from app]. rewrite bool_decide_true by done.
    rewrite length_app. cbn [length app]. rewrite children_from_none; [cbn [app]; f_equal; lia |].
    intros i l Hl Ep. assert (b !! i = Some l) as Hl' by (rewrite Eb; by apply lookup_app_l_Some).
    destruct (block_parents _ _ _ _ _ Hb Hl') as (p & Ep' & Hp). rewrite Ep in Ep'. injection Ep' as <-.
    pose proof (lookup_lt_Some _ _ _ Hl). rewrite Eb, length_app in Hp. cbn [length] in Hp. rewrite Eb, length_app in Hr. cbn [length] in Hr. lia.
Qed.

(** Siblings with their parent at the end. *)
Lemma siblings_block off (parent : option Z) (x : T) ls (rts : list Z) :
  siblings off (off + Z.of_nat (length ls)) ls rts ->
  (forall r, parent = Some r -> off + Z.of_nat (length ls) < r) ->
  block off parent (ls ++ [{| leaf_data := x; parent_index := parent; children_indexes := rts |}]).
Proof.
  intros [Sp Sc Sr] Hr. set (root := {| leaf_data := x; parent_index := parent; children_indexes := rts |}).
  assert (forall k, off <= k <= off + Z.of_nat (length ls) -> children_from off (ls ++ [root]) k = children_from off ls k) as Hroot.
  { intros k Hk. rewrite children_from_app, (children_from_none _ [root]), app_nil_r; [done |].
    intros i l [-> <-]%list_lookup_singleton_Some Ep. specialize (Hr k Ep). lia. }
  constructor.
  - exists root. by rewrite last_snoc.
  - intros i l Hl Hi. rewrite length_app in *. cbn [length] in *. rewrite lookup_app_l in Hl by lia.
    destruct (Sp i l Hl) as (p & Ep & Hp). exists p. split; [done | lia].
  - intros i l Hl. pose proof (lookup_lt_Some _ _ _ Hl) as Hi. rewrite length_app in Hi. cbn [length] in Hi.
    rewrite Hroot by lia. apply lookup_app_Some in Hl as [Hl | [Hge Hl]]; [by apply Sc |].
    apply list_lookup_singleton_Some in Hl as [Hl <-]. replace i with (length ls) by lia. by rewrite Sr.
Qed.

Lemma flat_block off (parent : option Z) t :
  (forall r, parent = Some r -> off + tree_len t <= r) -> block off parent (flat off parent t).
Proof.
  revert off parent. induction t as [l cs mn mx IH] using DarkTree_nested_ind. intros off parent Hr.
  rewrite flat_eq. rewrite tree_len_eq in Hr.
  assert (forall r off, off + trees_len cs <= r ->
    Z.of_nat (length (flats off (Some r) cs)) = trees_len cs /\ siblings off r (flats off (Some r) cs) (roots off cs)) as Hall.
  { clear Hr off. intros r. induction IH as [|c cs Hc _ IHcs]; intros off Hr.
    { split; [done |]. constructor; [done | done | done]. }
    rewrite trees_len_cons in Hr. cbn [flats roots]. pose proof (flat_length off (Some r) c) as Hl.
    destruct (IHcs (off + tree_len c)) as [Hl' Hs]; [lia |]. split; [rewrite length_app, trees_len_cons; lia |].
    rewrite <- Hl in Hl', Hs, Hr |- *. apply siblings_cons; [| done | rewrite Hl'; lia].
    apply Hc. intros ? [= <-]. pose proof (tree_len_pos c). unfold trees_len in *. lia. }
  destruct (Hall (off + trees_len cs) off) as [Hl Hs]; [lia |]. rewrite <- Hl in Hs at 1.
  apply siblings_block; [exact Hs |].
  - intros r Er. specialize (Hr r Er). lia.
Qed.
Lemma flat_data off (parent : option Z) t : map leaf_data (flat off parent t) = map (fun x => leaf_data (leaf_info x)) (postorder t).
Proof.
  revert off parent. induction t as [l cs mn mx IH] using DarkTree_nested_ind. intros off parent.
  rewrite flat_eq, postorder_eq, !map_app. cbn [map leaf_data]. f_equal. generalize (Some (off + trees_len cs)). intros r. revert off.
  induction IH as [|c cs Hc _ IHcs]; intros off; [done |]. cbn [flats]. change (postorders (c :: cs)) with (postorder c ++ postorders cs).
  by rewrite !map_app, Hc, IHcs.
Qed.

(** A tree whose size is within its capacities is built: [build_vec]
    succeeds, the leaves come in post-order with their data, and the flattened
    tree passes [dark_leaf_vec_integrity_check] under the same capacities. *)
Theorem built_tree_accepted t :
  tree_caps t ->
  exists leafs, (tree_build_vec t).2 = Ok leafs /\
    map leaf_data leafs = map (fun x => leaf_data (leaf_info x)) (postorder t) /\
    dark_leaf_vec_integrity_check leafs (Some (tree_min_capacity t)) (tree_max_capacity t) None = Ok tt.
Proof.
  intros Hc. exists (flat 0 None t). split_and!; [by apply tree_build_vec_ok | apply flat_data |].
  change (dark_leaf_vec_integrity_check _ _ _ None) with
    (dark_leaf_vec_integrity_check (flat 0 None t) (Some (tree_min_capacity t)) (tree_max_capacity t) (Some 0)).
  apply leaf_vec_check_holds; [| apply block_linked, flat_block; done]. rewrite flat_length.
  destruct Hc as [Hmin Hmax]. unfold capacity_ok, min_capacity_or_one.
  assert (tree_min_capacity t =? 0 = false) as -> by lia. split; [lia |]. intros m Hm. specialize (Hmax m Hm). lia.
Qed.

(** ** Forests *)

Lemma shift_flat off (shift : Z) (parent : option Z) t :
  map (shift_leaf shift) (flat off parent t) = flat (off + shift) ((fun p => p + shift) <$> parent) t.
Proof.
  revert off parent. induction t as [l cs mn mx IH] using DarkTree_nested_ind. intros off parent.
  rewrite !flat_eq, map_app. cbn [map]. f_equal.
  - replace (off + shift + trees_len cs) with (off + trees_len cs + shift) by lia. generalize (off + trees_len cs). intros r. revert off.
    induction IH as [|c cs Hc _ IHcs]; intros off; [done |]. cbn [flats]. rewrite map_app, Hc, IHcs. cbn. do 2 f_equal. lia.
  - unfold shift_leaf. cbn. do 2 f_equal. clear IH. revert off. induction cs as [|c cs IHcs]; intros off; [done |].
    cbn [roots map]. rewrite IHcs. f_equal; [lia |]. f_equal. lia.
Qed.

Lemma add_trees_flats ts ls :
  foldl add_tree ls (map tree_index ts) = ls ++ flats (Z.of_nat (length ls)) None ts.
Proof.
  revert ls. induction ts as [|t ts IH]; intros ls; cbn [map foldl flats]; [by rewrite app_nil_r |].
  rewrite IH. unfold add_tree. change (tree_index t) with (indexed_at 0 None t).
  destruct (indexed_leaves 0 None t) as [-> _]. rewrite shift_flat, <- app_assoc. cbn [fmap option_fmap option_map].
  rewrite Z.add_0_l. do 2 f_equal. rewrite length_app, Nat2Z.inj_add, flat_length. done.
Qed.

Lemma check_trees_app ls acc rest (root : DarkLeaf T) off :
  Forall (fun l => is_Some (parent_index l)) ls -> parent_index root = None ->
  check_trees (ls ++ root :: rest) acc off =
  let? _ := dark_leaf_vec_integrity_check (acc ++ ls ++ [root]) None None (Some off) in
  check_trees rest [] (Z.of_nat (length (acc ++ ls ++ [root]))).
Proof.
  intros Hf Hr. revert acc. induction Hf as [|l ls [p Hp] _ IH]; intros acc; cbn [check_trees app]; [by rewrite Hr |].
  rewrite Hp, IH. by rewrite <- !app_assoc.
Qed.

(** One tree of a forest: where it starts, and where the check believes so. *)
Lemma check_tree_at off off' t rest :
  check_trees (flat off None t ++ rest) [] off' = Ok [] <->
  (off' = off \/ tree_children t = []) /\ check_trees rest [] (tree_len t) = Ok [].
Proof.
  assert (block off None (flat off None t)) as Hb by (by apply flat_block). pose proof (flat_length off None t) as Hl.
  destruct (block_last _ _ _ Hb) as (ls & root & E & Hr). rewrite E, <- app_assoc. cbn [app].
  assert (Forall (fun l => is_Some (parent_index l)) ls) as Hf.
  { apply Forall_lookup. intros i l Hi. pose proof (lookup_lt_Some _ _ _ Hi).
    destruct (block_parent _ _ _ Hb i l) as (p & -> & _); [| | done]; rewrite E.
    - by apply lookup_app_l_Some.
    - rewrite length_app. cbn [length]. lia. }
  rewrite check_trees_app by done. cbn [app]. rewrite <- E, Hl.
  assert (linked off' (flat off None t) <-> off' = off \/ tree_children t = []) as Hlk.
  { split.
    - intros Hk. destruct t as [l cs mn mx]. cbn [tree_children]. destruct cs as [|c cs]; [by right | left].
      rewrite tree_len_eq, trees_len_cons in Hl. pose proof (tree_len_pos c). assert (0 <= trees_len cs) by (unfold trees_len; lia).
      destruct ls as [|x ls _] using rev_ind; [rewrite E in Hl; cbn [app length] in Hl; lia |].
      set (b := flat off None (mkTree l (c :: cs) mn mx)) in *. assert (b !! length ls = Some x) as Hx
        by (rewrite E, <- app_assoc, lookup_app_r, Nat.sub_diag by lia; done).
      assert (length b = S (S (length ls))) as Hlen by (rewrite E, !length_app; cbn; lia).
      destruct (block_parent _ _ _ Hb _ _ Hx) as (p & Ep & Hp); [lia |].
      destruct (linked_parent _ _ Hk _ _ Hx) as (q & Eq & Hq); [lia |]. rewrite Ep in Eq. injection Eq as <-. lia.
    - intros [-> | Hc]; [by apply block_linked |]. destruct t as [l cs mn mx]. cbn [tree_children] in Hc. subst cs.
      apply block_linked. apply (siblings_block _ _ _ [] []); [| done]. by constructor. }
  rewrite <- Hlk. destruct (dark_leaf_vec_integrity_check (flat off None t) None None (Some off')) as [[]|e] eqn:Ec.
  - apply leaf_vec_check_linked in Ec. tauto.
  - split; [done |]. intros [Hk _]. rewrite leaf_vec_check_holds in Ec; [done | | done]. rewrite Hl.
    unfold capacity_ok, min_capacity_or_one. pose proof (tree_len_pos t). split; [lia | done].
Qed.

Lemma check_trees_later off t ts :
  0 < off -> check_trees (flats (off + tree_len t) None ts) [] (tree_len t) = Ok [] <-> Forall (fun t => tree_children t = []) ts.
Proof.
  revert off t. induction ts as [|t' ts IH]; intros off t Ho; [done |]. cbn [flats]. rewrite check_tree_at, Forall_cons.
  specialize (IH (off + tree_len t) t'). pose proof (tree_len_pos t). rewrite IH by lia. split; [| by intros [? ?]; auto].
  intros [[? | ?] ?]; [lia | done].
Qed.

Lemma check_trees_forest ts : check_trees (flats 0 None ts) [] 0 = Ok [] <-> Forall (fun t => tree_children t = []) (drop 2 ts).
Proof.
  destruct ts as [|t1 [|t2 ts]]; [done | |]; cbn [flats drop]; rewrite !check_tree_at.
  - split; [done |]. intros _. by split; [left |].
  - pose proof (tree_len_pos t1). rewrite (check_trees_later (0 + tree_len t1) t2) by lia. split; [tauto |]. intros Hf.
    split_and!; [by left | left; lia | done].
Qed.
Lemma flats_length off (parent : option Z) ts : Z.of_nat (length (flats off parent ts)) = trees_len ts.
Proof.
  revert off. induction ts as [|t ts IH]; intros off; [done |]. cbn [flats].
  by rewrite length_app, Nat2Z.inj_add, flat_length, IH, trees_len_cons.
Qed.

Lemma forest_len_index (f : DarkForest T) : forest_len (forest_index f) = trees_len (trees f).
Proof.
  unfold forest_len. cbn [forest_index trees].
  assert (forall ts n, foldl (fun n t => n + tree_len t) n (map tree_index ts) = n + trees_len ts) as H; [| by rewrite H].
  induction ts as [|t ts IH]; intros n; cbn [map foldl]; [unfold trees_len; cbn; lia |].
  rewrite IH, trees_len_cons. change (tree_index t) with (indexed_at 0 None t). rewrite indexed_len. lia.
Qed.

Lemma forest_built (f : DarkForest T) ls :
  (forest_build_vec f).2 = Ok ls -> trees f <> [] ->
  ls = flats 0 None (trees f) /\ capacity_ok (forest_min_capacity f) (forest_max_capacity f) (Z.of_nat (length ls)).
Proof.
  unfold forest_build_vec, forest_build. cbn [snd]. intros H Hne. destruct (forest_integrity_check _) as [[]|e] eqn:Ec; [| done].
  injection H as <-. cbn [forest_index trees]. rewrite add_trees_flats. cbn [app length]. change (Z.of_nat 0) with 0.
  split; [done |]. rewrite flats_length. unfold forest_integrity_check, forest_check_min_capacity, forest_check_max_capacity in Ec.
  rewrite forest_len_index in Ec. cbn [forest_index forest_min_capacity forest_max_capacity] in Ec.
  assert (1 <= trees_len (trees f)) as Hpos.
  { destruct (trees f) as [|t ts]; [done |]. rewrite trees_len_cons. pose proof (tree_len_pos t). unfold trees_len. lia. }
  unfold capacity_ok, min_capacity_or_one.
  destruct (forest_min_capacity f) as [mn|], (forest_max_capacity f) as [mx|]; inv_result;
    (split; [try (destruct (Z.eqb_spec mn 0)); lia |]); intros ? ?; simplify_eq; try (destruct (Z.eqb_spec mn 0)); lia.
Qed.

(** The leaves a forest is built into pass the check of forests exactly when
    every tree from the third on is a single leaf.  The offset of a tree is set
    to the length of the tree before it and not increased by it, so it is right
    for two trees only. *)
Theorem forest_check_two_trees (f : DarkForest T) ls :
  trees f <> [] -> (forest_build_vec f).2 = Ok ls ->
  dark_forest_leaf_vec_integrity_check ls (forest_min_capacity f) (forest_max_capacity f) = Ok tt <->
  Forall (fun t => tree_children t = []) (drop 2 (trees f)).
Proof.
  intros Hne Hb. destruct (forest_built f ls Hb Hne) as [-> Hc]. unfold dark_forest_leaf_vec_integrity_check.
  rewrite (proj2 (capacity_checks_ok _ _ _)) by done. rewrite <- check_trees_forest.
  destruct (check_trees _ [] 0) as [[|l left]|e]; done.
Qed.
End built.

(** ** Examples *)

Definition small_tree (x : Z) (cs : list (DarkTree Z)) : DarkTree Z := DarkTree_new x cs None None.

(** The tree of the source's tests, on its first levels. *)
Definition sample_tree : DarkTree Z :=
  small_tree 10 [small_tree 2 [small_tree 0 []; small_tree 1 []]; small_tree 4 [small_tree 3 []]; small_tree 5 []].

Lemma built_tree_accepted_witness :
  exists leafs, (tree_build_vec sample_tree).2 = Ok leafs /\
    map leaf_data leafs = map (fun x => leaf_data (leaf_info x)) (postorder sample_tree) /\
    dark_leaf_vec_integrity_check leafs (Some (tree_min_capacity sample_tree)) (tree_max_capacity sample_tree) None = Ok tt.
Proof.
  apply (built_tree_accepted sample_tree). split; [vm_compute; split; discriminate |]. intros m H. vm_compute in H. discriminate H.
Defined.

Definition three_trees : DarkForest Z :=
  {| trees := [small_tree 0 []; small_tree 1 []; small_tree 3 [small_tree 2 []]];
     forest_min_capacity := Some 1; forest_max_capacity := Some 20 |}.

Definition three_trees_leafs : list (DarkLeaf Z) :=
  match (forest_build_vec three_trees).2 with Ok ls => ls | Err _ => [] end.

Lemma forest_check_two_trees_witness :
  (forest_build_vec three_trees).2 = Ok three_trees_leafs /\
  dark_forest_leaf_vec_integrity_check three_trees_leafs (Some 1) (Some 20) <> Ok tt.
Proof.
  split; [vm_compute; reflexivity |]. intros H.
  apply (forest_check_two_trees three_trees three_trees_leafs) in H; [| discriminate | vm_compute; reflexivity].
  inversion H as [|? ? E _]. discriminate E.
Defined.

(** The other way round: four leaves, the third its own parent and the fourth
    with a child that belongs to another tree, pass. *)
Lemma forest_check_accepts_crossed_links :
  exists leafs : list (DarkLeaf Z),
    dark_forest_leaf_vec_integrity_check leafs (Some 1) (Some 20) = Ok tt /\
    (exists l, leafs !! 2%nat = Some l /\ parent_index l = Some 2) /\
    (exists l, leafs !! 3%nat = Some l /\ children_indexes l = [1]) /\
    exists l, leafs !! 1%nat = Some l /\ parent_index l = None.
Proof.
  exists [Build_DarkLeaf 0 None []; Build_DarkLeaf 1 None []; Build_DarkLeaf 2 (Some 2) []; Build_DarkLeaf 3 None [1]].
  split_and!; [vm_compute; reflexivity | by eexists..].
Qed.

(** A slice that is accepted though it is no post-order: leaf 0 belongs to leaf
    2 and leaf 1, between them, to the root. *)
Lemma leaf_vec_check_not_postorder :
  dark_leaf_vec_integrity_check
    [Build_DarkLeaf 0 (Some 2) []; Build_DarkLeaf 1 (Some 3) []; Build_DarkLeaf 2 (Some 3) [0]; Build_DarkLeaf 3 None [1; 2]]
    None None None = Ok tt.
Proof. reflexivity. Qed.
