(* ===== verification/Competing.v ===== *)
(** * Competing blocks ([src/linear/src/chain_state.rs])

    The blocks a node has seen beside its canonical chain: candidates for uncle
    rewards and for a reorganisation.  [pool] holds them by height and [seen]
    the deduplication keys, two fields with a mutex each.  Every operation is a
    function on the pair: what happens when two threads interleave between the
    critical sections of one operation is outside the model. *)

From S2P Require Import Prelude Units Serial Externals Transaction Merkle Block.

Section competing.
Context {EXT : Externals}.

Record Competing := { pool : gmap Z (list Block); seen : gset (list Z) }.

Definition Competing_new : Competing := {| pool := ∅; seen := ∅ |}.

Definition competing_dedup_key (b : Block) : list Z := blake3 (serialize BlockHeader_codec (header b)).

Definition keys_of (bs : list Block) : gset (list Z) := list_to_set (map competing_dedup_key bs).

(** [peek_competing_blocks]. *)
Definition peek_competing_blocks (h : Z) (c : Competing) : list Block := default [] (pool c !! h).

Definition take_competing_blocks (h : Z) (c : Competing) : Competing * list Block :=
  let blocks := peek_competing_blocks h c in
  ({| pool := delete h (pool c); seen := seen c ∖ keys_of blocks |}, blocks).

Definition put_competing_blocks (h : Z) (bs : list Block) (c : Competing) : Competing :=
  match bs with
  | [] => c
  | _ => {| pool := <[h := peek_competing_blocks h c ++ bs]> (pool c); seen := seen c ∪ keys_of bs |}
  end.

Definition restore_competing_blocks (taken_at : Z) (bs : list Block) (c : Competing) : Competing :=
  put_competing_blocks taken_at bs c.

(** [prune_competing]: heights below the cutoff leave with their keys. *)
Definition prune_competing (current : Z) (c : Competing) : Competing :=
  if current <=? MAX_UNCLE_DEPTH then c
  else
    let cutoff := BlockHeight.saturating_sub_blocks current MAX_UNCLE_DEPTH in
    let gone := filter (fun hb : Z * list Block => hb.1 < cutoff) (pool c) in
    {| pool := filter (fun hb : Z * list Block => ~ hb.1 < cutoff) (pool c);
       seen := seen c ∖ keys_of (concat (map snd (map_to_list gone))) |}.

(** [competing.entry(h).or_default()]. *)
Definition entry_or_default (h : Z) (c : Competing) : Competing :=
  {| pool := <[h := peek_competing_blocks h c]> (pool c); seen := seen c |}.

(** Deduplicate and append, under the cap. *)
Definition push_competing (b : Block) (h : Z) (c : Competing) : Competing :=
  if MAX_COMPETING_BLOCKS <=? Z.of_nat (length (peek_competing_blocks h c)) then c
  else if bool_decide (competing_dedup_key b ∈ seen c) then c
  else {| pool := <[h := peek_competing_blocks h c ++ [b]]> (pool c);
          seen := seen c ∪ {[ competing_dedup_key b ]} |}.

Definition store_competing_block (b : Block) (h : Z) (c : Competing) : Competing := push_competing b h c.

(** The two branches of [connect_block] that store a block test the cap through
    the map's [entry], which leaves an empty list where there was none. *)
Definition connect_competing (b : Block) (h : Z) (c : Competing) : Competing :=
  push_competing b h (entry_or_default h c).

(** The competing block at [h] a block builds on; a block whose hash cannot be
    computed is not the parent. *)
Definition is_parent (prev : list Z) (b : Block) : bool :=
  match hash_with_vm (header b) (randomx_key (header b)) with
  | Ok hash => bool_decide (hash = prev)
  | Err _ => false
  end.

Definition uncle_parent (prev : list Z) (h : Z) (c : Competing) : option Block :=
  List.find (is_parent prev) (peek_competing_blocks h c).

Definition remove_competing (h : Z) (parent_hash : list Z) (c : Competing) : Competing :=
  match pool c !! h with
  | Some bs => {| pool := <[h := List.filter (fun b => negb (is_parent parent_hash b)) bs]> (pool c);
                  seen := seen c |}
  | None => c
  end.

(** ** Invariant

    No height holds more than the cap, and a key is in [seen] for every block
    held and belongs to at most one of them. *)

Definition held (c : Competing) (h : Z) (i : nat) (b : Block) : Prop :=
  peek_competing_blocks h c !! i = Some b.

Record competing_ok (c : Competing) : Prop := {
  ok_cap : forall h, Z.of_nat (length (peek_competing_blocks h c)) <= MAX_COMPETING_BLOCKS;
  ok_seen : forall h i b, held c h i b -> competing_dedup_key b ∈ seen c;
  ok_once : forall h1 i1 b1 h2 i2 b2, held c h1 i1 b1 -> held c h2 i2 b2 ->
    competing_dedup_key b1 = competing_dedup_key b2 -> h1 = h2 /\ i1 = i2
}.

Lemma elem_of_keys (bs : list Block) (k : list Z) :
  k ∈ keys_of bs <-> exists b, b ∈ bs /\ k = competing_dedup_key b.
Proof.
  unfold keys_of. rewrite elem_of_list_to_set, list_elem_of_fmap. split; intros (b & ? & ?); by exists b.
Qed.

Lemma peek_insert (h h' : Z) (bs : list Block) (m : gmap Z (list Block)) (s : gset (list Z)) :
  peek_competing_blocks h' {| pool := <[h := bs]> m; seen := s |} =
  if decide (h' = h) then bs else default [] (m !! h').
Proof.
  unfold peek_competing_blocks. cbn [pool]. destruct (decide (h' = h)) as [-> | Hne].
  - by rewrite lookup_insert_eq.
  - by rewrite lookup_insert_ne.
Qed.

Lemma new_competing_ok : competing_ok Competing_new.
Proof.
  assert (forall h, peek_competing_blocks h Competing_new = []) as He
    by (intros h; unfold peek_competing_blocks; cbn [pool Competing_new]; by rewrite lookup_empty).
  constructor; unfold held; intros *; rewrite ?He; cbn [length]; try done.
Qed.

(** A pool whose lists are those of [c] or shorter, and whose keys lose none
    that a held block needs. *)
Lemma competing_ok_sub (c c' : Competing) :
  competing_ok c ->
  (forall h, peek_competing_blocks h c' = peek_competing_blocks h c \/ peek_competing_blocks h c' = []) ->
  (forall h i b, held c' h i b -> competing_dedup_key b ∈ seen c') ->
  competing_ok c'.
Proof.
  intros Hc Hsub Hseen. assert (forall h i b, held c' h i b -> held c h i b) as Hheld.
  { unfold held. intros h i b Hb. destruct (Hsub h) as [E | E]; rewrite E in Hb; done. }
  constructor; [| done |].
  - intros h. destruct (Hsub h) as [-> | ->]; [by apply ok_cap | done].
  - intros h1 i1 b1 h2 i2 b2 H1 H2. by apply (ok_once c Hc); apply Hheld.
Qed.

(** A block held at another height keeps its key when [bs], held at [h], leave. *)
Lemma key_survives (c : Competing) (h h' : Z) (i : nat) (b : Block) (bs : gset (list Z)) :
  competing_ok c -> held c h' i b ->
  (forall k, k ∈ bs -> exists h0 j b0, held c h0 j b0 /\ h0 <> h' /\ k = competing_dedup_key b0) ->
  competing_dedup_key b ∈ seen c ∖ bs.
Proof.
  intros Hc Hb Hbs. apply elem_of_difference. split; [by eapply ok_seen |]. intros Hin.
  destruct (Hbs _ Hin) as (h0 & j & b0 & H0 & Hne & Hk).
  destruct (ok_once c Hc _ _ _ _ _ _ Hb H0 Hk) as [-> _]. done.
Qed.

Lemma take_ok (c : Competing) (h : Z) : competing_ok c -> competing_ok (take_competing_blocks h c).1.
Proof.
  intros Hc. unfold take_competing_blocks. cbn [fst].
  assert (forall h', peek_competing_blocks h' {| pool := delete h (pool c);
    seen := seen c ∖ keys_of (peek_competing_blocks h c) |} =
    if decide (h' = h) then [] else peek_competing_blocks h' c) as Hp.
  { intros h'. unfold peek_competing_blocks at 1. cbn [pool]. destruct (decide (h' = h)) as [-> | Hne].
    - by rewrite lookup_delete_eq.
    - by rewrite lookup_delete_ne. }
  apply (competing_ok_sub c); [done | |].
  - intros h'. rewrite Hp. destruct (decide (h' = h)); auto.
  - intros h' i b. unfold held. rewrite Hp. destruct (decide (h' = h)) as [-> | Hne]; [done |]. intros Hb.
    cbn [seen]. apply (key_survives c h h' i b); [done | done |].
    intros k (b0 & Hb0 & ->)%elem_of_keys. apply list_elem_of_lookup in Hb0 as [j Hj].
    exists h, j, b0. done.
Qed.

Lemma prune_ok (c : Competing) (h : Z) : competing_ok c -> competing_ok (prune_competing h c).
Proof.
  intros Hc. unfold prune_competing. destruct (h <=? MAX_UNCLE_DEPTH); [done |].
  set (cut := BlockHeight.saturating_sub_blocks h MAX_UNCLE_DEPTH). cbv zeta.
  assert (forall h' s, (cut <= h' -> peek_competing_blocks h' {| pool :=
      filter (fun hb : Z * list Block => ~ hb.1 < cut) (pool c); seen := s |} = peek_competing_blocks h' c) /\
    (h' < cut -> peek_competing_blocks h' {| pool :=
      filter (fun hb : Z * list Block => ~ hb.1 < cut) (pool c); seen := s |} = [])) as Hp.
  { intros h' s. unfold peek_competing_blocks. cbn [pool]. split; intros Hh.
    - destruct (pool c !! h') as [bs|] eqn:E.
      + by rewrite (map_lookup_filter_Some_2 _ _ _ _ E) by (cbn; lia).
      + by rewrite map_lookup_filter_None_2 by (by left).
    - rewrite map_lookup_filter_None_2; [done |]. right. cbn. intros bs _ Hn. lia. }
  apply (competing_ok_sub c); [done | |].
  - intros h'. destruct (Z.lt_ge_cases h' cut); [right | left]; by apply Hp.
  - intros h' i b. unfold held. cbn [seen].
    destruct (Z.lt_ge_cases h' cut) as [Hl | Hl]; [by rewrite (proj2 (Hp h' _)) by done |].
    rewrite (proj1 (Hp h' _)) by done. intros Hb. apply (key_survives c h h' i b); [done | done |].
    intros k (b0 & Hb0 & ->)%elem_of_keys. apply list_elem_of_In, in_concat in Hb0 as (bs & Hbs & Hb0).
    apply in_map_iff in Hbs as ([h0 bs0] & <- & Hbs). apply list_elem_of_In, elem_of_map_to_list in Hbs.
    apply map_lookup_filter_Some in Hbs as [Hbs Hlt]. cbn in Hlt, Hb0.
    apply list_elem_of_In, list_elem_of_lookup in Hb0 as [j Hj]. exists h0, j, b0.
    split_and!; [| lia | done]. unfold held, peek_competing_blocks. by rewrite Hbs.
Qed.

Lemma entry_ok (c : Competing) (h : Z) : competing_ok c -> competing_ok (entry_or_default h c).
Proof.
  intros Hc.
  assert (forall h', peek_competing_blocks h' (entry_or_default h c) = peek_competing_blocks h' c) as Hp.
  { intros h'. unfold entry_or_default. rewrite peek_insert. by destruct (decide (h' = h)) as [-> |]. }
  apply (competing_ok_sub c); [done | intros h'; left; apply Hp |].
  intros h' i b. unfold held. rewrite Hp. apply (ok_seen c Hc).
Qed.

Lemma push_ok (b : Block) (c : Competing) (h : Z) : competing_ok c -> competing_ok (push_competing b h c).
Proof.
  intros Hc. unfold push_competing.
  destruct (Z.leb_spec MAX_COMPETING_BLOCKS (Z.of_nat (length (peek_competing_blocks h c)))) as [_ | Hcap];
    [done |].
  case_bool_decide as Hin; [done |]. set (c' := {| pool := _; seen := _ |}).
  assert (forall h' i b', held c' h' i b' -> held c h' i b' \/
    (h' = h /\ i = length (peek_competing_blocks h c) /\ b' = b)) as Hheld.
  { intros h' i b'. unfold held, c'. rewrite peek_insert. destruct (decide (h' = h)) as [-> | Hne]; [| by left].
    rewrite lookup_snoc_Some. naive_solver. }
  constructor.
  - intros h'. unfold c'. rewrite peek_insert. destruct (decide (h' = h)) as [-> | Hne]; [| by apply ok_cap].
    rewrite length_app. cbn [length]. lia.
  - intros h' i b' [Hb | (-> & -> & ->)]%Hheld; cbn [seen c'];
      [apply elem_of_union_l; by eapply ok_seen | by apply elem_of_union_r, elem_of_singleton].
  - intros h1 i1 b1 h2 i2 b2 [H1 | (-> & -> & ->)]%Hheld [H2 | (-> & -> & ->)]%Hheld Hk; try done.
    + by apply (ok_once c Hc _ _ b1 _ _ b2).
    + destruct Hin. rewrite <- Hk. by eapply ok_seen.
    + destruct Hin. rewrite Hk. by eapply ok_seen.
Qed.

Lemma filter_sub {A : Type} (f : A -> bool) (l : list A) : List.filter f l `sublist_of` l.
Proof.
  induction l as [|x l IH]; [done |]. cbn [List.filter].
  destruct (f x); [by apply sublist_skip | by apply sublist_cons].
Qed.

Lemma map_sub {A B : Type} (f : A -> B) (l1 l2 : list A) :
  l1 `sublist_of` l2 -> map f l1 `sublist_of` map f l2.
Proof. induction 1; [done | by apply sublist_skip | by apply sublist_cons]. Qed.

(** Removing blocks keeps what is left in order and under its keys. *)
Lemma remove_competing_ok (c : Competing) (h : Z) (hash : list Z) :
  competing_ok c -> competing_ok (remove_competing h hash c).
Proof.
  intros Hc. unfold remove_competing. destruct (pool c !! h) as [bs|] eqn:E; [| done].
  set (kept := List.filter _ bs). set (c' := {| pool := _; seen := _ |}).
  assert (peek_competing_blocks h c = bs) as Hbs by (unfold peek_competing_blocks; by rewrite E).
  assert (kept `sublist_of` bs) as Hsub by apply filter_sub.
  assert (forall h', peek_competing_blocks h' c' = if decide (h' = h) then kept else peek_competing_blocks h' c)
    as Hp by (intros h'; unfold c'; apply peek_insert).
  assert (NoDup (map competing_dedup_key bs)) as Hnd.
  { apply NoDup_alt. intros i j k Hi Hj. apply list_lookup_fmap_Some in Hi as (b1 & -> & H1).
    apply list_lookup_fmap_Some in Hj as (b2 & Hk & H2).
    destruct (ok_once c Hc h i b1 h j b2) as [_ ->]; unfold held; rewrite ?Hbs; done. }
  assert (forall h' i b, held c' h' i b -> exists j, held c h' j b) as Hheld.
  { unfold held. intros h' i b. rewrite Hp. destruct (decide (h' = h)) as [-> | Hne]; [| by exists i].
    intros Hb%list_elem_of_lookup_2. rewrite Hbs. by apply list_elem_of_lookup, (elem_of_sublist kept). }
  constructor.
  - intros h'. rewrite Hp. destruct (decide (h' = h)) as [-> | Hne]; [| by apply ok_cap].
    pose proof (ok_cap c Hc h) as Hcap. rewrite Hbs in Hcap. apply sublist_length in Hsub. lia.
  - intros h' i b Hb. destruct (Hheld h' i b Hb) as [j Hj]. by apply (ok_seen c Hc h' j).
  - intros h1 i1 b1 h2 i2 b2 H1 H2 Hk.
    destruct (Hheld _ _ _ H1) as [j1 J1]. destruct (Hheld _ _ _ H2) as [j2 J2].
    destruct (ok_once c Hc _ _ _ _ _ _ J1 J2 Hk) as [<- _]. split; [done |].
    unfold held in H1, H2. rewrite Hp in H1, H2. destruct (decide (h1 = h)) as [-> | Hne].
    + eapply (NoDup_lookup (map competing_dedup_key kept)).
      * eapply sublist_NoDup; [exact Hnd |]. by apply map_sub.
      * apply list_lookup_fmap_Some. eauto.
      * apply list_lookup_fmap_Some. rewrite Hk. eauto.
    + by apply (ok_once c Hc h1 i1 b1 h1 i2 b2).
Qed.

(** ** Restoring what was taken *)

(** Every operation but the restore, whose caller decides what it puts back. *)
Inductive pool_step : Competing -> Competing -> Prop :=
| pool_take h c : pool_step c (take_competing_blocks h c).1
| pool_store b h c : pool_step c (store_competing_block b h c)
| pool_connect b h c : pool_step c (connect_competing b h c)
| pool_prune h c : pool_step c (prune_competing h c)
| pool_remove h hash c : pool_step c (remove_competing h hash c).

Lemma pool_step_ok (c c' : Competing) : pool_step c c' -> competing_ok c -> competing_ok c'.
Proof.
  intros [h c0 | b h c0 | b h c0 | h c0 | h hash c0] Hc.
  - by apply take_ok.
  - by apply push_ok.
  - by apply push_ok, entry_ok.
  - by apply prune_ok.
  - by apply remove_competing_ok.
Qed.

Lemma put_ok (h : Z) (bs : list Block) (c : Competing) :
  competing_ok c ->
  Z.of_nat (length (peek_competing_blocks h c ++ bs)) <= MAX_COMPETING_BLOCKS ->
  NoDup (map competing_dedup_key bs) -> (forall b, b ∈ bs -> competing_dedup_key b ∉ seen c) ->
  competing_ok (put_competing_blocks h bs c).
Proof.
  intros Hc Hcap Hnd Hfresh. destruct bs as [|b0 bs0] eqn:Ebs; [done |]. rewrite <- Ebs in *.
  assert (put_competing_blocks h bs c = {| pool := <[h := peek_competing_blocks h c ++ bs]> (pool c);
    seen := seen c ∪ keys_of bs |}) as -> by (by rewrite Ebs).
  set (c' := {| pool := _; seen := _ |}). set (n := length (peek_competing_blocks h c)).
  assert (forall h' i b, held c' h' i b -> held c h' i b \/
    (h' = h /\ (n <= i)%nat /\ bs !! (i - n)%nat = Some b)) as Hheld.
  { intros h' i b. unfold held, c'. rewrite peek_insert. destruct (decide (h' = h)) as [-> | Hne]; [| by left].
    rewrite lookup_app_Some. naive_solver. }
  assert (forall i b, bs !! i = Some b -> b ∈ bs) as Hel by (intros i b Hi; by eapply list_elem_of_lookup_2).
  constructor.
  - intros h'. unfold c'. rewrite peek_insert. destruct (decide (h' = h)); [done | by apply ok_cap].
  - intros h' i b [Hb | (-> & _ & Hb)]%Hheld; cbn [seen c'].
    + apply elem_of_union_l. by eapply ok_seen.
    + apply elem_of_union_r, elem_of_keys. eauto.
  - intros h1 i1 b1 h2 i2 b2 [H1 | (-> & L1 & H1)]%Hheld [H2 | (-> & L2 & H2)]%Hheld Hk.
    + by apply (ok_once c Hc _ _ b1 _ _ b2).
    + destruct (Hfresh b2); [by eauto |]. rewrite <- Hk. by eapply ok_seen.
    + destruct (Hfresh b1); [by eauto |]. rewrite Hk. by eapply ok_seen.
    + assert (i1 - n = i2 - n)%nat; [| split; [done | lia]].
      eapply (NoDup_lookup (map competing_dedup_key bs)); [done | |].
      * apply list_lookup_fmap_Some. eauto.
      * apply list_lookup_fmap_Some. eauto.
Qed.

(** Restoring straight after taking gives the pool back, entry for entry. *)
Lemma restore_undoes_take (h : Z) (c : Competing) :
  competing_ok c ->
  let '(c', bs) := take_competing_blocks h c in
  (forall h', peek_competing_blocks h' (restore_competing_blocks h bs c') = peek_competing_blocks h' c) /\
  seen (restore_competing_blocks h bs c') = seen c.
Proof.
  intros Hc. unfold take_competing_blocks, restore_competing_blocks, put_competing_blocks.
  destruct (peek_competing_blocks h c) as [|b bs] eqn:E.
  - split.
    + intros h'. unfold peek_competing_blocks in E |- *. cbn [pool].
      destruct (decide (h' = h)) as [-> | Hne]; [by rewrite lookup_delete_eq | by rewrite lookup_delete_ne].
    + cbn [seen]. apply set_eq. intros k. rewrite elem_of_difference. split; [by intros [] |].
      intros Hk. split; [done |]. by intros (b & Hb%not_elem_of_nil & _)%elem_of_keys.
  - rewrite <- E. split.
    + intros h'. rewrite peek_insert. unfold peek_competing_blocks at 1. cbn [pool].
      rewrite lookup_delete_eq. cbn [default app]. destruct (decide (h' = h)) as [-> | Hne]; [done |].
      by rewrite lookup_delete_ne.
    + cbn [seen]. rewrite E. rewrite <- E. apply set_eq. intros k.
      rewrite elem_of_union, elem_of_difference. split; [| destruct (decide (k ∈ keys_of (peek_competing_blocks h c))); auto].
      intros [[? _] | (b' & Hb' & ->)%elem_of_keys]; [done |].
      apply list_elem_of_lookup in Hb' as [i Hi]. by eapply ok_seen.
Qed.

Lemma pool_reachable_ok (c : Competing) : rtc pool_step Competing_new c -> competing_ok c.
Proof.
  intros Hr. pose proof new_competing_ok as H0. revert H0.
  induction Hr as [c | c c1 c2 Hs _ IH]; intros Hc; [done |]. by apply IH, (pool_step_ok c).
Qed.

Lemma store_fresh (b : Block) (h : Z) (c : Competing) :
  peek_competing_blocks h c = [] -> competing_dedup_key b ∉ seen c ->
  peek_competing_blocks h (store_competing_block b h c) = [b].
Proof.
  intros He Hk. unfold store_competing_block, push_competing. rewrite He, bool_decide_false by done.
  change (MAX_COMPETING_BLOCKS <=? Z.of_nat (length (@nil Block))) with false. cbv iota.
  rewrite peek_insert. by rewrite decide_True by done.
Qed.

(** ** Properties *)

(** Taking, storing, pruning and removing keep the pool within its cap and
    free of duplicates, with a deduplication key for every block held; and
    restoring straight after taking gives the pool back as it was. *)
Lemma competing_invariant (c : Competing) (h : Z) :
  rtc pool_step Competing_new c ->
  competing_ok c /\
  let '(c', bs) := take_competing_blocks h c in
  (forall h', peek_competing_blocks h' (restore_competing_blocks h bs c') = peek_competing_blocks h' c) /\
  seen (restore_competing_blocks h bs c') = seen c.
Proof.
  intros Hr. pose proof (pool_reachable_ok c Hr) as Hc. split; [done |]. by apply restore_undoes_take.
Qed.

(** A restore that comes late duplicates.  Taking drops the keys, so a block
    that is relayed again while a template is built is stored a second time, and
    restoring the taken blocks then leaves two copies of it at its height. *)
Lemma restore_duplicates_uncle (c : Competing) (h : Z) (b : Block) :
  rtc pool_step Competing_new c -> b ∈ peek_competing_blocks h c ->
  let '(c', bs) := take_competing_blocks h c in
  peek_competing_blocks h (restore_competing_blocks h bs (store_competing_block b h c')) = b :: bs.
Proof.
  intros Hr Hb. pose proof (pool_reachable_ok c Hr) as Hc. unfold take_competing_blocks.
  set (bs := peek_competing_blocks h c) in *. set (c' := {| pool := _; seen := _ |}).
  assert (peek_competing_blocks h c' = []) as He
    by (unfold peek_competing_blocks; cbn [pool c']; by rewrite lookup_delete_eq).
  assert (competing_dedup_key b ∉ seen c') as Hk.
  { cbn [seen c']. intros [_ Hn]%elem_of_difference. apply Hn, elem_of_keys. by exists b. }
  assert (peek_competing_blocks h (store_competing_block b h c') = [b]) as Hs by (by apply store_fresh).
  unfold restore_competing_blocks, put_competing_blocks. destruct bs as [|b0 bs0] eqn:Ebs;
    [by apply not_elem_of_nil in Hb |]. rewrite peek_insert, decide_True by done. by rewrite Hs.
Qed.
End competing.

(** ** A concrete pool *)

Definition rival (n : Z) : @Block toy := {| header := sample_header 7 n 0; transactions := [] |}.

Definition rivals : @Competing toy := @store_competing_block toy (rival 1) 7 (@Competing_new toy).

Lemma rivals_reachable : rtc (@pool_step toy) (@Competing_new toy) rivals.
Proof. eapply rtc_l; [apply (@pool_store toy (rival 1) 7) |]. apply rtc_refl. Qed.

Lemma rivals_held : @peek_competing_blocks toy 7 rivals = [rival 1].
Proof. apply (@store_fresh toy); [reflexivity | apply not_elem_of_empty]. Qed.

Lemma competing_invariant_witness :
  @competing_ok toy rivals /\
  let '(c', bs) := @take_competing_blocks toy 7 rivals in
  (forall h', @peek_competing_blocks toy h' (@restore_competing_blocks toy 7 bs c') =
     @peek_competing_blocks toy h' rivals) /\
  seen (@restore_competing_blocks toy 7 bs c') = seen rivals.
Proof. exact (@competing_invariant toy rivals 7 rivals_reachable). Defined.

Lemma restore_duplicates_uncle_witness :
  let '(c', bs) := @take_competing_blocks toy 7 rivals in
  @peek_competing_blocks toy 7
    (@restore_competing_blocks toy 7 bs (@store_competing_block toy (rival 1) 7 c')) = rival 1 :: bs.
Proof.
  apply (@restore_duplicates_uncle toy rivals 7 (rival 1) rivals_reachable).
  rewrite rivals_held. apply list_elem_of_here.
Defined.
