(* ===== verification/Consensus.v ===== *)
(** * Proof-of-work consensus ([src/linear/src/consensus.rs])

    The difficulty controller: the sliding window of timestamps, the two
    implementations of the adjustment ([adjust_target] on the live state,
    [compute_adjustment] on a slice), persistence, and the chain-derived target
    [get_next_work_required] with its cached fast path.  The mutexes and the
    atomic are plain fields: every operation holds the state exclusively. *)

From Stdlib Require Import String Ascii.
From S2P Require Import Prelude Units Serial Externals Transaction Block Store.

Definition TIMESTAMP_WINDOW : nat := 20.
Definition SCALE : Z := 1000000.

Record PoWConsensus := {
  cur_target : Z;
  target_block_time : Z;
  min_target : Z;
  max_target : Z;
  initial_target : Z;
  timestamps : list Z;
  accumulated_work : Z
}.

Definition PoWConsensus_new (tbt init mn mx : Z) : PoWConsensus := {|
  cur_target := init; target_block_time := tbt; min_target := mn; max_target := mx;
  initial_target := init; timestamps := []; accumulated_work := 0 |}.

Definition PoWConsensus_default : PoWConsensus := PoWConsensus_new 120 0x0FFFFFFF 1 BlockTarget.MAX.

Definition set_target (t : Z) (c : PoWConsensus) : PoWConsensus := {|
  cur_target := t; target_block_time := target_block_time c; min_target := min_target c;
  max_target := max_target c; initial_target := initial_target c; timestamps := timestamps c;
  accumulated_work := accumulated_work c |}.

Definition set_timestamps (ts : list Z) (c : PoWConsensus) : PoWConsensus := {|
  cur_target := cur_target c; target_block_time := target_block_time c; min_target := min_target c;
  max_target := max_target c; initial_target := initial_target c; timestamps := ts;
  accumulated_work := accumulated_work c |}.

Definition set_work (w : Z) (c : PoWConsensus) : PoWConsensus := {|
  cur_target := cur_target c; target_block_time := target_block_time c; min_target := min_target c;
  max_target := max_target c; initial_target := initial_target c; timestamps := timestamps c;
  accumulated_work := w |}.

(** [force_target], [restore_timestamps] and [ChainWork::store] are the setters;
    [ChainWork::add_block] is a [u128] addition. *)
Definition add_block_work (t : Z) (c : PoWConsensus) : PoWConsensus :=
  set_work (wrap 128 (accumulated_work c + BlockTarget.chain_work t)) c.

(** The window shared by [record_block] and the chain walk: drop the oldest of
    [TIMESTAMP_WINDOW], append the new one. *)
Definition record_block (ts : Z) (c : PoWConsensus) : PoWConsensus :=
  let w := timestamps c in
  let w' := if (TIMESTAMP_WINDOW <=? List.length w)%nat then drop 1 w else w in
  set_timestamps (w' ++ [ts]) c.

(** ** The adjustment *)

(** [for i in start+1..len { total += ts[i].checked_sub(ts[i-1])? }] on the
    suffix that starts at [start]; [None] is a decreasing pair. *)
Fixpoint total_interval (ts : list Z) (total : Z) : option Z :=
  match ts with
  | t0 :: ((t1 :: _) as rest) =>
      match checked_sub 64 t1 t0 with
      | Some interval => total_interval rest (wrap 64 (total + interval))
      | None => None
      end
  | _ => Some total
  end.

Definition ratio_scaled (tbt avg_interval : Z) : Z :=
  clamp (wrap 64 (tbt * SCALE) / avg_interval) (SCALE / 2) (SCALE * 2).

Definition adjustment_factor (ratio : Z) : Z :=
  let tenth := SCALE / 10 in
  if SCALE <? ratio then SCALE + Z.min (ratio - SCALE) tenth
  else if ratio <? SCALE then SCALE - Z.min (SCALE - ratio) tenth
  else SCALE.

Definition compute_adjustment (ts : list Z) (current tbt mn mx : Z) : Z :=
  let len := List.length ts in
  let n := Nat.min len 10 in
  let start := (len - n)%nat in
  match total_interval (drop start ts) 0 with
  | None => current
  | Some total =>
      let count := wrap 64 (Z.of_nat n - 1) in
      let avg_interval := if 0 <? count then total / count else tbt in
      if avg_interval =? 0 then current
      else BlockTarget.adjust current SCALE (adjustment_factor (ratio_scaled tbt avg_interval)) mn mx
  end.

Definition adjust_target (c : PoWConsensus) : Z * PoWConsensus :=
  let ts := timestamps c in
  let len := List.length ts in
  if (len <? 2)%nat then (cur_target c, c)
  else
    let n := Nat.min len 10 in
    let start := (len - n)%nat in
    match total_interval (drop start ts) 0 with
    | None => (cur_target c, c)
    | Some total =>
        let count := Z.of_nat (n - 1) in
        let avg_interval := if 0 <? count then total / count else target_block_time c in
        if avg_interval =? 0 then (cur_target c, c)
        else
          let adjustment := adjustment_factor (ratio_scaled (target_block_time c) avg_interval) in
          let clamped := BlockTarget.adjust (cur_target c) SCALE adjustment (min_target c) (max_target c) in
          (clamped, set_target clamped c)
    end.

(** [check_pow]: the first four bytes, little-endian, against the target. *)
Definition check_pow (c : PoWConsensus) (hash : list Z) : bool := hash_u32 hash <=? cur_target c.

Definition difficulty (c : PoWConsensus) : Z := BlockTarget.difficulty (cur_target c).

(** ** Persistence *)

Definition key_target : bytes := ascii_key "target".
Definition key_target_block_time : bytes := ascii_key "target_block_time".
Definition key_min_target : bytes := ascii_key "min_target".
Definition key_max_target : bytes := ascii_key "max_target".
Definition key_timestamps : bytes := ascii_key "timestamps".

(** [save_to_batch] followed by [apply_batch] on the tree [t]. *)
Definition save (c : PoWConsensus) (t : Tree) : Tree :=
  let t1 := <[key_target := to_le_bytes 4 (cur_target c)]> t in
  let t2 := <[key_target_block_time := to_le_bytes 8 (target_block_time c)]> t1 in
  let t3 := <[key_min_target := to_le_bytes 4 (min_target c)]> t2 in
  let t4 := <[key_max_target := to_le_bytes 4 (max_target c)]> t3 in
  match timestamps c with
  | [] => t4
  | ts => <[key_timestamps := concat (map (to_le_bytes 8) ts)]> t4
  end.

(** [bytes.chunks_exact(8)], each read as a little-endian [u64]. *)
Fixpoint read_words (n : nat) (bs : bytes) : list Z :=
  match n with
  | O => []
  | S n' => from_le_bytes (take 8 bs) :: read_words n' (drop 8 bs)
  end.

(** [load]: the state after the call and its result; an error after the target
    was read leaves the target already replaced. *)
Definition load (t : Tree) (c : PoWConsensus) : PoWConsensus * Res unit :=
  let step1 :=
    match t !! key_target with
    | None => Ok c
    | Some raw =>
        if (List.length raw =? 4)%nat then Ok (set_target (from_le_bytes raw) c)
        else Err (StorageError "consensus target length")
    end in
  match step1 with
  | Err e => (c, Err e)
  | Ok c1 =>
      match t !! key_timestamps with
      | None => (c1, Ok tt)
      | Some raw =>
          if (List.length raw mod 8 =? 0)%nat
          then (set_timestamps (read_words (List.length raw / 8) raw) c1, Ok tt)
          else (c1, Err (StorageError "consensus timestamps length"))
      end
  end.

(** ** The target a block must declare *)

Section next_work.
Context `{Externals}.

(** One block of the slow path: push, trim to the window, adjust. *)
Definition walk_step (c : PoWConsensus) (st : list Z * Z) (ts : Z) : list Z * Z :=
  let w := st.1 ++ [ts] in
  let w' := if (TIMESTAMP_WINDOW <? List.length w)%nat then drop 1 w else w in
  (w', if (2 <=? List.length w')%nat
       then compute_adjustment w' st.2 (target_block_time c) (min_target c) (max_target c)
       else st.2).

(** [for h in h..h+n], failing on the first missing block. *)
Fixpoint chain_walk (c : PoWConsensus) (s : LinearStore) (n : nat) (h : Z) (st : list Z * Z) :
    Res (list Z * Z) :=
  match n with
  | O => Ok st
  | S n' =>
      match get_block s h with
      | Ok b => chain_walk c s n' (h + 1) (walk_step c st (timestamp (header b)))
      | Err _ => Err (BlockNotFound h)
      end
  end.

(** The timestamps of the blocks present in [h..h+n]. *)
Fixpoint gather_timestamps (s : LinearStore) (n : nat) (h : Z) : list Z :=
  match n with
  | O => []
  | S n' =>
      match get_block s h with
      | Ok b => timestamp (header b) :: gather_timestamps s n' (h + 1)
      | Err _ => gather_timestamps s n' (h + 1)
      end
  end.

Definition slow_path (c : PoWConsensus) (s : LinearStore) (h : Z) : Res Z :=
  let? st := chain_walk c s (Z.to_nat (h - 1)) 1 ([], initial_target c) in Ok (snd st).

Definition fast_path (c : PoWConsensus) (s : LinearStore) (h prev_target : Z) : Z :=
  let start_h := if Z.of_nat TIMESTAMP_WINDOW <? h then h - Z.of_nat TIMESTAMP_WINDOW else 1 in
  let ts := gather_timestamps s (Z.to_nat (h - start_h)) start_h in
  if (2 <=? List.length ts)%nat
  then compute_adjustment ts prev_target (target_block_time c) (min_target c) (max_target c)
  else prev_target.

(** The cached target of a height: four bytes, not zero. *)
Definition cached_target (s : LinearStore) (h : Z) : option Z :=
  match block_targets s !! height_key h with
  | Some raw =>
      if (List.length raw =? 4)%nat
      then let t := from_le_bytes raw in if 0 <? t then Some t else None
      else None
  | None => None
  end.

Definition get_next_work_required (c : PoWConsensus) (s : LinearStore) (h : Z) : Res Z :=
  if h <=? BlockHeight.GENESIS then Ok BlockTarget.MAX
  else
    match cached_target s (BlockHeight.saturating_sub_blocks h 1) with
    | Some prev_target => Ok (fast_path c s h prev_target)
    | None => slow_path c s h
    end.
End next_work.

(** ** The window's total *)

Fixpoint ascending (ts : list Z) : bool :=
  match ts with
  | t0 :: ((t1 :: _) as rest) => (t0 <=? t1) && ascending rest
  | _ => true
  end.

Fixpoint newest (t0 : Z) (ts : list Z) : Z :=
  match ts with [] => t0 | t1 :: rest => newest t1 rest end.

(** Time elapsed from the first to the last timestamp. *)
Definition elapsed (ts : list Z) : Z :=
  match ts with [] => 0 | t0 :: rest => newest t0 rest - t0 end.

Lemma newest_is_u64 (t0 : Z) (ts : list Z) : Forall is_u64 (t0 :: ts) -> is_u64 (newest t0 ts).
Proof.
  revert t0. induction ts as [|t1 ts IH]; intros t0 Hu; inversion Hu; subst; cbn [newest]; auto.
Qed.

Lemma ascending_newest (t0 : Z) (ts : list Z) : ascending (t0 :: ts) = true -> t0 <= newest t0 ts.
Proof.
  revert t0. induction ts as [|t1 ts IH]; intros t0 Ha; cbn [newest]; [lia |].
  cbn [ascending] in Ha. apply andb_true_iff in Ha as [H01 Ha]. specialize (IH t1 Ha). lia.
Qed.

Lemma total_interval_cons (t0 t1 : Z) (ts : list Z) (acc : Z) :
  total_interval (t0 :: t1 :: ts) acc =
  match checked_sub 64 t1 t0 with
  | Some interval => total_interval (t1 :: ts) (wrap 64 (acc + interval))
  | None => None
  end.
Proof. reflexivity. Qed.

Lemma ascending_cons (t0 t1 : Z) (ts : list Z) :
  ascending (t0 :: t1 :: ts) = (t0 <=? t1) && ascending (t1 :: ts).
Proof. reflexivity. Qed.

(** A decreasing pair anywhere in the window abandons the sum. *)
Lemma total_interval_none (ts : list Z) (acc : Z) :
  ascending ts = false -> total_interval ts acc = None.
Proof.
  destruct ts as [|t0 ts]; [done |]. revert t0 acc. induction ts as [|t1 ts IH]; intros t0 acc Ha;
    [done |]. rewrite ascending_cons in Ha. rewrite total_interval_cons. unfold checked_sub.
  destruct (checked 64 (t1 - t0)) as [iv|] eqn:E; [| done].
  apply checked_spec in E as [_ Hr]. unfold is_u in Hr. apply IH.
  apply andb_false_iff in Ha as [Ha | Ha]; [lia | done].
Qed.

(** Otherwise it telescopes to the elapsed time and never wraps. *)
Lemma total_interval_elapsed (t0 : Z) (ts : list Z) (acc : Z) :
  Forall is_u64 (t0 :: ts) -> ascending (t0 :: ts) = true -> 0 <= acc ->
  acc + elapsed (t0 :: ts) < 2 ^ 64 ->
  total_interval (t0 :: ts) acc = Some (acc + elapsed (t0 :: ts)).
Proof.
  revert t0 acc. induction ts as [|t1 ts IH]; intros t0 acc Hu Ha H0 Hb.
  { cbn. f_equal. lia. }
  inversion Hu as [|? ? Hu0 Hu']; subst. inversion Hu' as [|? ? Hu1 _]; subst.
  rewrite ascending_cons in Ha. apply andb_true_iff in Ha as [H01 Ha].
  pose proof (ascending_newest t1 ts Ha). cbn [elapsed newest] in *.
  rewrite total_interval_cons. unfold checked_sub, is_u in *.
  rewrite (proj2 (checked_spec 64 (t1 - t0) (t1 - t0))) by (unfold is_u; lia).
  rewrite wrap_small by (unfold is_u; lia).
  rewrite IH by (done || lia). f_equal. lia.
Qed.

Lemma elapsed_bound (ts : list Z) :
  Forall is_u64 ts -> ascending ts = true -> 0 <= elapsed ts < 2 ^ 64.
Proof.
  intros Hu Ha. destruct ts as [|t0 ts]; [cbn; lia |]. cbn [elapsed].
  pose proof (ascending_newest t0 ts Ha). pose proof (newest_is_u64 t0 ts Hu) as Hn.
  inversion Hu; subst. unfold is_u in *. lia.
Qed.

(** ** The factor and the step *)

(** The last ten timestamps, the ones the adjustment reads. *)
Definition window (ts : list Z) : list Z := drop (List.length ts - Nat.min (List.length ts) 10) ts.
Definition intervals (ts : list Z) : Z := Z.of_nat (Nat.min (List.length ts) 10) - 1.

Lemma adjustment_factor_range (r : Z) : 900000 <= adjustment_factor r <= 1100000.
Proof.
  unfold adjustment_factor, SCALE. cbv zeta. change (1000000 / 10) with 100000.
  destruct (_ <? r) eqn:E1; [lia |]. destruct (r <? _) eqn:E2; lia.
Qed.

Lemma adjustment_factor_fast (tbt avg : Z) :
  0 < avg -> avg <= tbt -> tbt * SCALE < 2 ^ 64 ->
  SCALE <= adjustment_factor (ratio_scaled tbt avg).
Proof.
  intros H0 Ha Ht. unfold SCALE in *.
  assert (1000000 <= ratio_scaled tbt avg).
  { unfold ratio_scaled, SCALE. rewrite wrap_small by (unfold is_u; lia).
    assert (1000000 <= tbt * 1000000 / avg) by (apply Z.div_le_lower_bound; lia).
    by apply clamp_ge. }
  unfold adjustment_factor, SCALE. cbv zeta. change (1000000 / 10) with 100000.
  destruct (_ <? ratio_scaled _ _) eqn:E1; [lia |].
  destruct (ratio_scaled _ _ <? _) eqn:E2; lia.
Qed.

Lemma ratio_scaled_slow (tbt avg : Z) :
  0 < tbt -> tbt <= avg -> tbt * SCALE < 2 ^ 64 -> ratio_scaled tbt avg <= SCALE.
Proof.
  intros H0 Ha Ht. unfold ratio_scaled, SCALE in *. rewrite wrap_small by (unfold is_u; lia).
  assert (tbt * 1000000 / avg <= 1000000) by (apply Z.div_le_upper_bound; lia).
  by apply clamp_le.
Qed.

Lemma adjustment_factor_slow (tbt avg : Z) :
  0 < tbt -> tbt <= avg -> tbt * SCALE < 2 ^ 64 ->
  adjustment_factor (ratio_scaled tbt avg) <= SCALE.
Proof.
  intros H0 Ha Ht. pose proof (ratio_scaled_slow tbt avg H0 Ha Ht) as Hr.
  unfold adjustment_factor, SCALE in *. cbv zeta. change (1000000 / 10) with 100000.
  destruct (_ <? ratio_scaled _ _) eqn:E1; [lia |].
  destruct (ratio_scaled _ _ <? _) eqn:E2; lia.
Qed.

(** The largest target whose quotient by 0.9 still fits [u32]. *)
Definition SAFE_TARGET : Z := 3865470566.

Lemma adjust_step (cur f mn mx : Z) :
  0 <= cur <= SAFE_TARGET -> 900000 <= f <= 1100000 ->
  BlockTarget.adjust cur SCALE f mn mx = clamp (cur * SCALE / f) mn mx.
Proof.
  unfold SAFE_TARGET, SCALE. intros Hc Hf. apply adjust_exact; unfold is_u; [lia | lia |].
  split; [apply Z.div_pos; lia |]. apply Z.div_lt_upper_bound; nia.
Qed.

Lemma step_range (cur f : Z) :
  0 <= cur -> 900000 <= f <= 1100000 -> cur * 10 / 11 <= cur * SCALE / f <= cur * 10 / 9.
Proof.
  intros Hc Hf. unfold SCALE. split.
  - apply Z.div_le_lower_bound; [lia |].
    pose proof (Z.mul_div_le (cur * 10) 11 ltac:(lia)).
    assert (0 <= cur * 10 / 11) by (apply Z.div_pos; lia). nia.
  - apply Z.div_le_lower_bound; [lia |].
    pose proof (Z.mul_div_le (cur * 1000000) f ltac:(lia)).
    assert (0 <= cur * 1000000 / f) by (apply Z.div_pos; lia). nia.
Qed.

Lemma clamp_between (x lo hi cur a b : Z) :
  lo <= cur <= hi -> a <= x <= b -> a <= cur <= b -> a <= clamp x lo hi <= b.
Proof. unfold clamp. intros. destruct (x <? lo) eqn:E1; [lia |]. destruct (hi <? x) eqn:E2; lia. Qed.

(** The result, as a case analysis on the window. *)
Lemma compute_adjustment_cases (ts : list Z) (cur tbt mn mx : Z) :
  compute_adjustment ts cur tbt mn mx = cur \/
  exists f, 900000 <= f <= 1100000 /\
            compute_adjustment ts cur tbt mn mx = BlockTarget.adjust cur SCALE f mn mx.
Proof.
  unfold compute_adjustment. destruct (total_interval _ 0); [| by left].
  destruct (_ =? 0); [by left | right]. eexists. split; [apply adjustment_factor_range | reflexivity].
Qed.

Lemma compute_adjustment_window (ts : list Z) (cur tbt mn mx : Z) :
  (2 <= List.length ts)%nat -> Forall is_u64 ts ->
  compute_adjustment ts cur tbt mn mx =
  if ascending (window ts) then
    let avg := elapsed (window ts) / intervals ts in
    if avg =? 0 then cur
    else BlockTarget.adjust cur SCALE (adjustment_factor (ratio_scaled tbt avg)) mn mx
  else cur.
Proof.
  intros Hl Hu. unfold compute_adjustment. fold (window ts).
  assert (Forall is_u64 (window ts)) as Hw by (by apply Forall_drop).
  destruct (ascending (window ts)) eqn:Ea; [| by rewrite total_interval_none].
  pose proof (elapsed_bound (window ts) Hw Ea) as He.
  assert (wrap 64 (Z.of_nat (Nat.min (List.length ts) 10) - 1) = intervals ts) as ->.
  { unfold intervals. apply wrap_small. unfold is_u. lia. }
  assert (0 <? intervals ts = true) as -> by (apply Z.ltb_lt; unfold intervals; lia).
  destruct (window ts) as [|t0 w] eqn:Ew.
  - apply (f_equal List.length) in Ew. unfold window in Ew. rewrite length_drop in Ew.
    cbn in Ew. lia.
  - rewrite total_interval_elapsed by (done || lia). by rewrite Z.add_0_l.
Qed.

(** ** Properties of the adjustment *)

(** One adjustment moves the target by at most ten per cent (between 10/11
    and 10/9 of it, rounded down) and never outside its limits, whatever the
    timestamps are, for every target up to 0.9 * 2^32. *)
Lemma adjustment_bounded (ts : list Z) (cur tbt mn mx : Z) :
  0 <= mn -> mn <= cur <= mx -> cur <= SAFE_TARGET ->
  mn <= compute_adjustment ts cur tbt mn mx <= mx /\
  cur * 10 / 11 <= compute_adjustment ts cur tbt mn mx <= cur * 10 / 9.
Proof.
  intros H0 Hc Hs.
  assert (cur * 10 / 11 <= cur <= cur * 10 / 9) as Hcur
    by (split; [apply Z.div_le_upper_bound | apply Z.div_le_lower_bound]; lia).
  destruct (compute_adjustment_cases ts cur tbt mn mx) as [-> | (f & Hf & ->)]; [lia |].
  rewrite adjust_step by lia. split; [apply clamp_bounds; lia |].
  apply (clamp_between _ mn mx cur); [lia | apply step_range; lia | done].
Qed.

Lemma adjustment_bounded_witness :
  compute_adjustment [0; 600] 1000000 120 1 u32_max = 1111111 /\
  1000000 * 10 / 11 <= compute_adjustment [0; 600] 1000000 120 1 u32_max <= 1000000 * 10 / 9.
Proof.
  split; [reflexivity |].
  apply (adjustment_bounded [0; 600] 1000000 120 1 u32_max); unfold SAFE_TARGET, u32_max; lia.
Defined.

(** The controller steers the right way.  With [avg] the elapsed time of
    the last ten timestamps divided by the number of intervals: blocks at or
    faster than the target interval never raise the target, blocks at or
    slower than it never lower it, a decreasing pair in the window leaves it
    unchanged, and so does an average that rounds down to zero seconds. *)
Lemma adjustment_direction (ts : list Z) (cur tbt mn mx : Z) :
  (2 <= List.length ts)%nat -> Forall is_u64 ts -> 0 < tbt -> tbt * SCALE < 2 ^ 64 ->
  0 <= mn -> mn <= cur <= mx -> cur <= SAFE_TARGET ->
  let avg := elapsed (window ts) / intervals ts in
  let r := compute_adjustment ts cur tbt mn mx in
  (ascending (window ts) = false -> r = cur) /\
  (avg = 0 -> r = cur) /\
  (ascending (window ts) = true -> avg <= tbt -> r <= cur) /\
  (ascending (window ts) = true -> tbt <= avg -> cur <= r).
Proof.
  intros Hl Hu Ht Hts H0 Hc Hs avg r. subst r. rewrite compute_adjustment_window by done.
  fold avg. cbv zeta.
  destruct (ascending (window ts)) eqn:Ea; [| split_and!; try done; lia].
  pose proof (elapsed_bound _ (Forall_drop _ _ _ Hu) Ea) as He. fold (window ts) in He.
  assert (0 <= avg) by (apply Z.div_pos; [lia | unfold intervals; lia]).
  destruct (avg =? 0) eqn:E0; [split_and!; intros; done || lia |].
  pose proof (adjustment_factor_range (ratio_scaled tbt avg)) as Hf. rewrite adjust_step by lia.
  split_and!; [done | lia | |]; intros _ Havg.
  - pose proof (adjustment_factor_fast tbt avg ltac:(lia) Havg Hts) as Hfast. unfold SCALE in *.
    apply clamp_le; [| lia]. apply Z.div_le_upper_bound; nia.
  - pose proof (adjustment_factor_slow tbt avg Ht Havg Hts) as Hslow. unfold SCALE in *.
    apply clamp_ge; [| lia]. apply Z.div_le_lower_bound; nia.
Qed.

Lemma adjustment_direction_witness :
  compute_adjustment [0; 60; 120] 1000000 120 1 u32_max <= 1000000 /\
  1000000 <= compute_adjustment [0; 240; 480] 1000000 120 1 u32_max.
Proof.
  split.
  - apply (adjustment_direction [0; 60; 120] 1000000 120 1 u32_max);
      try (unfold SAFE_TARGET, u32_max, SCALE; cbn; lia); try reflexivity.
    + repeat constructor; unfold is_u; lia.
    + vm_compute. discriminate.
  - apply (adjustment_direction [0; 240; 480] 1000000 120 1 u32_max);
      try (unfold SAFE_TARGET, u32_max, SCALE; cbn; lia); try reflexivity.
    + repeat constructor; unfold is_u; lia.
    + vm_compute. discriminate.
Defined.

Lemma adjust_target_eq (c : PoWConsensus) :
  (2 <= List.length (timestamps c))%nat ->
  let t := compute_adjustment (timestamps c) (cur_target c) (target_block_time c)
             (min_target c) (max_target c) in
  adjust_target c = (t, set_target t c).
Proof.
  intros Hl. unfold adjust_target, compute_adjustment.
  assert ((List.length (timestamps c) <? 2)%nat = false) as -> by (apply Nat.ltb_ge; lia).
  assert (set_target (cur_target c) c = c) as Hid by (by destruct c).
  destruct (total_interval _ 0); cbv zeta; [| by rewrite Hid].
  rewrite wrap_small by (unfold is_u; lia).
  replace (Z.of_nat (Nat.min (List.length (timestamps c)) 10 - 1))
    with (Z.of_nat (Nat.min (List.length (timestamps c)) 10) - 1) by lia.
  destruct (_ =? 0); [by rewrite Hid | done].
Qed.

(** The live adjustment and the chain-derived one agree on every window of
    at least two timestamps (a disagreement would be a fork): [adjust_target]
    returns and stores exactly [compute_adjustment] of its own state, and
    changes nothing else. *)
Lemma adjust_target_agrees (c : PoWConsensus) :
  (2 <= List.length (timestamps c))%nat ->
  let t := compute_adjustment (timestamps c) (cur_target c) (target_block_time c)
             (min_target c) (max_target c) in
  adjust_target c = (t, set_target t c).
Proof. apply adjust_target_eq. Qed.

Definition sample_consensus : PoWConsensus := set_timestamps [100; 160; 220] PoWConsensus_default.

Lemma adjust_target_agrees_witness :
  adjust_target sample_consensus
  = (compute_adjustment [100; 160; 220] 0x0FFFFFFF 120 1 u32_max,
     set_target (compute_adjustment [100; 160; 220] 0x0FFFFFFF 120 1 u32_max) sample_consensus).
Proof. apply (adjust_target_agrees sample_consensus). cbn. lia. Defined.

(** Above 0.9 * 2^32 the quotient no longer fits [u32] and the [as u32]
    conversion wraps: with blocks at half the intended rate or slower, where the
    target should be eased by ten per cent up to its ceiling [u32::MAX], it
    collapses to at most a ninth of the range (or the floor), making blocks at
    least eight times harder. *)
Lemma adjustment_wraps_near_ceiling (ts : list Z) (cur tbt mn : Z) :
  (2 <= List.length ts)%nat -> Forall is_u64 ts -> ascending (window ts) = true ->
  0 < tbt -> tbt * SCALE < 2 ^ 64 -> 2 * tbt <= elapsed (window ts) / intervals ts ->
  SAFE_TARGET < cur <= u32_max -> 0 <= mn <= 477218588 ->
  compute_adjustment ts cur tbt mn u32_max <= 477218588 < cur / 8.
Proof.
  intros Hl Hu Ha Ht Hts Havg Hc Hm. rewrite compute_adjustment_window, Ha by done. cbv zeta.
  set (avg := elapsed (window ts) / intervals ts) in *.
  assert (avg =? 0 = false) as -> by lia.
  assert (adjustment_factor (ratio_scaled tbt avg) = 900000) as ->.
  { assert (ratio_scaled tbt avg = 500000) as Hr.
    { unfold ratio_scaled, SCALE in *. rewrite wrap_small by (unfold is_u; lia).
      assert (tbt * 1000000 / avg <= 500000) by (apply Z.div_le_upper_bound; nia).
      apply Z.le_antisymm; [by apply clamp_le | apply clamp_bounds; done]. }
    by rewrite Hr. }
  unfold SAFE_TARGET, u32_max, SCALE in *. split.
  - unfold BlockTarget.adjust, checked_mul, checked_div. cbn [Z.eqb].
    rewrite (proj2 (checked_spec 64 (cur * 1000000) (cur * 1000000))) by (unfold is_u; lia).
    apply clamp_le; [| lia]. unfold wrap.
    assert (4294967296 <= cur * 1000000 / 900000) by (apply Z.div_le_lower_bound; lia).
    assert (cur * 1000000 / 900000 < 4772185884) by (apply Z.div_lt_upper_bound; lia).
    rewrite <- (Z.mod_add _ (-1)), Z.mod_small; lia.
  - apply Z.lt_le_trans with (3865470567 / 8); [reflexivity |]. apply Z.div_le_mono; lia.
Qed.

Lemma adjustment_wraps_near_ceiling_witness :
  compute_adjustment [0; 100000] u32_max 120 1 u32_max = 477218587 /\
  compute_adjustment [0; 100000] u32_max 120 1 u32_max <= 477218588 < u32_max / 8.
Proof.
  split; [reflexivity |].
  apply (adjustment_wraps_near_ceiling [0; 100000] u32_max 120 1);
    try (unfold SAFE_TARGET, u32_max, SCALE; cbn; lia); try reflexivity.
  - repeat constructor; unfold is_u; lia.
  - vm_compute. discriminate.
Defined.

(** ** Persistence *)

Lemma words_length (ts : list Z) : List.length (concat (map (to_le_bytes 8) ts)) = (8 * List.length ts)%nat.
Proof.
  induction ts as [|t ts IH]; [done |]. cbn [map concat List.length].
  rewrite length_app, to_le_bytes_length, IH. lia.
Qed.

Lemma read_words_concat (ts : list Z) :
  Forall is_u64 ts -> read_words (List.length ts) (concat (map (to_le_bytes 8) ts)) = ts.
Proof.
  induction 1 as [|t ts Ht _ IH]; [done |]. cbn [List.length map concat read_words].
  rewrite take_app_length', drop_app_length', IH by (by rewrite to_le_bytes_length).
  by rewrite le_bytes_roundtrip.
Qed.

(** Difficulty survives a restart: what [save] writes, [load] reads back
    into any fresh state, target and timestamps both; and a stored target of
    the wrong length, or a timestamp record that is not a whole number of
    entries, is an error rather than a silently kept default. *)
Lemma consensus_save_load (c c0 : PoWConsensus) (t : Tree) (raw : bytes) :
  is_u32 (cur_target c) -> Forall is_u64 (timestamps c) -> timestamps c <> [] ->
  load (save c t) c0 = (set_timestamps (timestamps c) (set_target (cur_target c) c0), Ok tt) /\
  (List.length raw <> 4%nat ->
   load (<[key_target := raw]> t) c0 = (c0, Err (StorageError "consensus target length"))) /\
  ((List.length raw mod 8)%nat <> 0%nat ->
   exists c1 e, load (<[key_timestamps := raw]> t) c0 = (c1, Err (StorageError e))).
Proof.
  intros Ht Hts Hne. split_and!.
  - assert (save c t !! key_target = Some (to_le_bytes 4 (cur_target c))) as E1.
    { unfold save. destruct (timestamps c); [done |].
      rewrite !lookup_insert_ne by done. apply lookup_insert_eq. }
    assert (save c t !! key_timestamps = Some (concat (map (to_le_bytes 8) (timestamps c)))) as E2.
    { unfold save. destruct (timestamps c); [done | apply lookup_insert_eq]. }
    unfold load. rewrite E1, E2, to_le_bytes_length. cbn [Nat.eqb].
    rewrite words_length, Nat.mul_comm, Nat.Div0.mod_mul, Nat.div_mul by done. cbn [Nat.eqb].
    by rewrite read_words_concat, le_bytes_roundtrip.
  - intros Hlen. unfold load. rewrite lookup_insert_eq.
    by rewrite (proj2 (Nat.eqb_neq _ _) Hlen).
  - intros Hlen. unfold load. rewrite lookup_insert_ne by done. rewrite lookup_insert_eq.
    rewrite (proj2 (Nat.eqb_neq _ _) Hlen). destruct (t !! key_target) as [r|]; [| eauto].
    destruct (List.length r =? 4)%nat; eauto.
Qed.

Lemma consensus_save_load_witness :
  load (save sample_consensus ∅) PoWConsensus_default
  = (set_timestamps [100; 160; 220] (set_target 0x0FFFFFFF PoWConsensus_default), Ok tt).
Proof.
  apply (consensus_save_load sample_consensus PoWConsensus_default ∅ []).
  - unfold is_u. cbn. lia.
  - repeat constructor; unfold is_u; lia.
  - discriminate.
Defined.

(** ** The cached target *)

Section next_work_facts.
Context `{Externals}.
Implicit Types (c : PoWConsensus) (s : LinearStore).

(** Blocks [h..h+n] are all in the store. *)
Definition present s (n : nat) (h : Z) : Prop :=
  forall i, (i < n)%nat -> exists b, get_block s (h + Z.of_nat i) = Ok b.

Lemma present_tail s (n : nat) (h : Z) :
  present s (S n) h -> (exists b, get_block s h = Ok b) /\ present s n (h + 1).
Proof.
  intros Hp. split.
  - destruct (Hp 0%nat) as [b Hb]; [lia |]. rewrite Z.add_0_r in Hb. eauto.
  - intros i Hi. destruct (Hp (S i)) as [b Hb]; [lia |]. exists b. rewrite <- Hb. f_equal. lia.
Qed.

Lemma gather_length s (n : nat) (h : Z) : present s n h -> List.length (gather_timestamps s n h) = n.
Proof.
  revert h. induction n as [|n IH]; intros h Hp; [done |].
  apply present_tail in Hp as [[b Hb] Hp]. cbn [gather_timestamps]. rewrite Hb. cbn. by rewrite IH.
Qed.

Lemma gather_drop s (k n : nat) (h : Z) :
  present s (k + n) h ->
  drop k (gather_timestamps s (k + n) h) = gather_timestamps s n (h + Z.of_nat k).
Proof.
  revert h. induction k as [|k IH]; intros h Hp; [cbn; by rewrite Z.add_0_r |].
  cbn [Nat.add] in *. apply present_tail in Hp as [[b Hb] Hp]. cbn [gather_timestamps].
  rewrite Hb. cbn [drop]. rewrite IH by done. f_equal. lia.
Qed.

Lemma gather_snoc s (n : nat) (h : Z) :
  present s (n + 1) h ->
  exists x, gather_timestamps s (n + 1) h = gather_timestamps s n h ++ [x].
Proof.
  revert h. induction n as [|n IH]; intros h Hp; cbn [Nat.add] in *;
    apply present_tail in Hp as [[b Hb] Hp]; cbn [gather_timestamps]; rewrite Hb.
  - by eexists.
  - destruct (IH _ Hp) as [x ->]. by exists x.
Qed.

Lemma chain_walk_present c s (n : nat) (h : Z) (st : list Z * Z) :
  present s n h -> chain_walk c s n h st = Ok (foldl (walk_step c) st (gather_timestamps s n h)).
Proof.
  revert h st. induction n as [|n IH]; intros h st Hp; [done |].
  apply present_tail in Hp as [[b Hb] Hp]. cbn [chain_walk gather_timestamps]. rewrite Hb.
  by rewrite IH.
Qed.

Lemma walk_step_fst c (st : list Z * Z) (x : Z) :
  (walk_step c st x).1 =
  let w := st.1 ++ [x] in if (TIMESTAMP_WINDOW <? List.length w)%nat then drop 1 w else w.
Proof. reflexivity. Qed.

Lemma walk_step_snd c (st : list Z * Z) (x : Z) :
  (walk_step c st x).2 =
  let w := (walk_step c st x).1 in
  if (2 <=? List.length w)%nat
  then compute_adjustment w st.2 (target_block_time c) (min_target c) (max_target c) else st.2.
Proof. reflexivity. Qed.

(** The walk's window is the last [TIMESTAMP_WINDOW] timestamps seen. *)
Lemma walk_window c (t0 : Z) (l : list Z) :
  (foldl (walk_step c) ([], t0) l).1 = drop (List.length l - TIMESTAMP_WINDOW) l.
Proof.
  induction l as [|x l IH] using rev_ind; [done |].
  rewrite foldl_app. cbn [foldl]. rewrite walk_step_fst, IH. cbv zeta.
  unfold TIMESTAMP_WINDOW in *. rewrite !length_app, length_drop. cbn [List.length].
  destruct (20 <? List.length l - (List.length l - 20) + 1)%nat eqn:E.
  - apply Nat.ltb_lt in E. rewrite <- drop_app_le by lia. rewrite drop_drop. f_equal. lia.
  - apply Nat.ltb_ge in E. rewrite <- drop_app_le by lia. f_equal. lia.
Qed.

(** The walk's last step, as the fast path computes it. *)
Lemma walk_snoc c (t0 : Z) (l : list Z) (x p : Z) :
  (foldl (walk_step c) ([], t0) l).2 = p ->
  (foldl (walk_step c) ([], t0) (l ++ [x])).2 =
  let w := drop (List.length (l ++ [x]) - TIMESTAMP_WINDOW) (l ++ [x]) in
  if (2 <=? List.length w)%nat
  then compute_adjustment w p (target_block_time c) (min_target c) (max_target c) else p.
Proof.
  intros <-. pose proof (walk_window c t0 (l ++ [x])) as Hw.
  rewrite foldl_app in *. cbn [foldl] in *. by rewrite walk_step_snd, Hw.
Qed.

Lemma next_work_coherent c s (h p : Z) :
  3 <= h -> is_u64 h -> present s (Z.to_nat (h - 1)) 1 ->
  cached_target s (h - 1) = Some p -> slow_path c s (h - 1) = Ok p ->
  get_next_work_required c s h = slow_path c s h /\
  exists t, slow_path c s h = Ok t.
Proof.
  intros Hh Hu Hp Hcache Hslow.
  set (n := Z.to_nat (h - 2)). assert (Z.to_nat (h - 1) = (n + 1)%nat) as En by lia.
  rewrite En in Hp.
  assert (present s n 1) as Hp' by (intros i Hi; apply Hp; lia).
  assert (exists x, gather_timestamps s (n + 1) 1 = gather_timestamps s n 1 ++ [x]) as [x Hx].
  { by apply gather_snoc. }
  unfold slow_path in Hslow. replace (Z.to_nat (h - 1 - 1)) with n in Hslow by lia.
  rewrite chain_walk_present in Hslow by done. injection Hslow as Hslow.
  assert (slow_path c s h = Ok (fast_path c s h p)) as Hs.
  { unfold slow_path. rewrite En, chain_walk_present by done. rewrite Hx. f_equal.
    rewrite (walk_snoc c _ _ _ p Hslow). rewrite <- Hx. cbv zeta. unfold fast_path.
    rewrite gather_length by done.
    set (k := (n + 1 - TIMESTAMP_WINDOW)%nat).
    assert ((if Z.of_nat TIMESTAMP_WINDOW <? h then h - Z.of_nat TIMESTAMP_WINDOW else 1)
            = 1 + Z.of_nat k) as ->.
    { unfold k, TIMESTAMP_WINDOW. destruct (Z.ltb_spec (Z.of_nat 20) h); lia. }
    replace (Z.to_nat (h - (1 + Z.of_nat k))) with (n + 1 - k)%nat by lia.
    rewrite <- gather_drop by (by replace (k + (n + 1 - k))%nat with (n + 1)%nat by lia).
    by replace (k + (n + 1 - k))%nat with (n + 1)%nat by lia. }
  split; [| eauto]. rewrite Hs. unfold get_next_work_required.
  assert (h <=? BlockHeight.GENESIS = false) as -> by (unfold BlockHeight.GENESIS; lia).
  unfold BlockHeight.saturating_sub_blocks, saturating_sub. rewrite Z.max_l by lia.
  by rewrite Hcache.
Qed.

(** The cached fast path returns the target of the full walk from genesis:
    when the blocks below [h] are stored and the cache at [h - 1] holds what
    the walk gives there, the two paths agree at [h] (and both succeed), so
    nodes with and without the cache require the same target. *)
Lemma next_work_cache_coherent c s (h p : Z) :
  3 <= h -> is_u64 h -> present s (Z.to_nat (h - 1)) 1 ->
  cached_target s (h - 1) = Some p -> slow_path c s (h - 1) = Ok p ->
  get_next_work_required c s h = slow_path c s h /\
  exists t, slow_path c s h = Ok t.
Proof. apply next_work_coherent. Qed.
End next_work_facts.

(** Two stored blocks and the target cached for the second. *)
Definition two_block_store : LinearStore :=
  let b h := {| header := sample_header h 0 0; transactions := [] |} in
  let s := insert_block 2 (b 2) (insert_block 1 (b 1) LinearStore_new) in
  {| blocks := blocks s; transactions_tree := ∅; contracts := ∅; uncles := ∅; consensus := ∅;
     commitment_set := ∅; nullifiers_tree := ∅; supply_chain := ∅;
     block_targets := {[height_key 2 := to_le_bytes 4 0x0FFFFFFF]};
     contract_risk := ∅; contracts_undo := ∅; uncles_by_height := ∅ |}.

Lemma next_work_cache_coherent_witness :
  @get_next_work_required toy PoWConsensus_default two_block_store 3
  = @slow_path toy PoWConsensus_default two_block_store 3.
Proof.
  apply (@next_work_cache_coherent toy PoWConsensus_default two_block_store 3 0x0FFFFFFF).
  - lia.
  - unfold is_u. lia.
  - intros [|[|i]] Hi; [apply is_ok_inv; vm_compute; reflexivity
                       | apply is_ok_inv; vm_compute; reflexivity | cbn in Hi; lia].
  - vm_compute. reflexivity.
  - vm_compute. reflexivity.
Defined.
