(* ===== verification/NativeToken.v ===== *)
(** * Native token call parameters ([src/contract/native_token/src/model])

    The wire formats of the native token contract's calls: fixed-layout fields
    read at computed offsets, every field element, scalar, point and key
    re-validated.  A field element, a scalar and a point stand for their
    32-byte encodings.  The node decodes these parameters itself, to check the
    coinbase and to derive the nullifiers a transaction spends. *)

From Stdlib Require Import String.
From S2P Require Import Prelude Units Serial Externals Transaction.

(** [ContractError], the text of a message kept as a short reason. *)
Inductive ContractError :=
| IoError (reason : string)
| ParseError
| DecodeFailure (field : string)
| InvalidFunction
| DbGetEmpty
| HostError (what : string)
| Custom (code : Z).

Definition CRes (A : Type) : Type := result ContractError A.

(** ** Reading at an offset *)

(** [data.get(offset..offset.saturating_add(len))]: a sum that would saturate
    is past the end of any buffer, so the exact sum answers the same. *)
Definition read_slice (data : list Z) (offset len : Z) : CRes (list Z) :=
  if offset + len <=? Z.of_nat (List.length data)
  then Ok (take (Z.to_nat len) (drop (Z.to_nat offset) data))
  else Err (IoError "truncated field").

Definition read_field (n : Z) (data : list Z) (offset : Z) : CRes (list Z) :=
  read_slice data offset n.

Definition read_byte (data : list Z) (offset : Z) : CRes Z :=
  let? b := read_slice data offset 1 in ok_or (head b) (IoError "truncated byte").

(** [SerializedLen]: a length is four bytes and never silently narrowed. *)
Definition try_from_len (len : nat) : CRes Z :=
  if Z.of_nat len <=? u32_max then Ok (Z.of_nat len) else Err (IoError "length exceeds u32").

Definition read_u64 (data : list Z) (offset : Z) : CRes Z :=
  let? b := read_field 8 data offset in Ok (from_le_bytes b).

Definition read_len (data : list Z) (offset : Z) : CRes Z :=
  let? b := read_field 4 data offset in Ok (from_le_bytes b).

Section fields.
Context `{Externals}.

(** [pallas::Base::from_repr] behind a field, an asset id, a function id, a
    Merkle node or a blind; then scalars, points, keys and nullifiers. *)
Definition read_base (what : string) (data : list Z) (offset : Z) : CRes (list Z) :=
  let? b := read_field 32 data offset in
  if fp_canonical b then Ok b else Err (IoError what).

Definition read_scalar (what : string) (data : list Z) (offset : Z) : CRes (list Z) :=
  let? b := read_field 32 data offset in
  if scalar_canonical b then Ok b else Err (IoError what).

Definition read_point (what : string) (data : list Z) (offset : Z) : CRes (list Z) :=
  let? b := read_field 32 data offset in
  if point_canonical b then Ok b else Err (IoError what).

(** [PublicKey::from_bytes]. *)
Definition public_key_from_bytes (b : list Z) : CRes (list Z) :=
  if point_canonical b then
    if bool_decide (b = point_identity) then Err (IoError "Could not convert bytes to PublicKey")
    else Ok b
  else Err (IoError "Could not convert bytes to PublicKey").

(** [Nullifier::from_bytes]. *)
Definition nullifier_from_bytes (b : list Z) : CRes (list Z) :=
  if fp_canonical b then
    if bool_decide (b = zero32) then Err (IoError "Nullifier is zero") else Ok b
  else Err (IoError "Non-canonical bytes for Nullifier").

Definition read_public_key (data : list Z) (offset : Z) : CRes (list Z) :=
  let? b := read_field 32 data offset in public_key_from_bytes b.

Definition read_nullifier (data : list Z) (offset : Z) : CRes (list Z) :=
  let? b := read_field 32 data offset in nullifier_from_bytes b.

(** [pallas::Point] in a derived codec; the identity is a point. *)
Definition point_codec : codec (list Z) :=
  mk_codec (fun p => p)
    (fun bs => let? (raw, rest) := read_exact 32 bs in
               if point_canonical raw then Ok (raw, rest) else Err NonCanonicalField) 96.

(** [PublicKey::decode]: the point, then [from_bytes], which refuses the
    identity. *)
Definition public_key_codec : codec (list Z) :=
  mk_codec (fun h => h)
    (fun bs => let? (raw, rest) := decode point_codec bs in
               match public_key_from_bytes raw with Ok k => Ok (k, rest) | Err _ => Err NonCanonicalField end) 96.
End fields.

(** [AeadEncryptedNote]. *)
Record AeadEncryptedNote := { ciphertext : list Z; ephem_public : list Z }.

Definition note_codec `{Externals} : codec AeadEncryptedNote :=
  mk_codec (fun n => encode byte_vec_codec (ciphertext n) ++ encode public_key_codec (ephem_public n))
    (fun bs => let? (c, bs1) := decode byte_vec_codec bs in
               let? (e, bs2) := decode public_key_codec bs1 in
               Ok ({| ciphertext := c; ephem_public := e |}, bs2)) 120.

Definition MAX_NOTE_LEN : Z := 4096.

(** ** Building blocks *)

Module CommitmentAttributes.
Record t := {
  version : Z; public_key : list Z; value : Z; asset_id : list Z; spend_hook : list Z;
  user_data : list Z; blind : list Z
}.

Definition ENCODED_SIZE : Z := 169.

Definition enc (a : t) : list Z :=
  [version a] ++ public_key a ++ to_le_bytes 8 (value a) ++ asset_id a ++ spend_hook a ++
  user_data a ++ blind a.

Definition dec `{Externals} (data : list Z) : CRes t :=
  if negb (Z.of_nat (List.length data) =? ENCODED_SIZE) then Err (IoError "CommitmentAttributes: length")
  else
    let? ver := read_byte data 0 in
    let? pk := read_public_key data 1 in
    let? val := read_u64 data 33 in
    let? asset := read_base "CommitmentAttributes: invalid asset_id" data 41 in
    let? hook := read_base "CommitmentAttributes: invalid spend_hook" data 73 in
    let? user := read_base "CommitmentAttributes: invalid user_data" data 105 in
    let? bl := read_base "CommitmentAttributes: invalid blind" data 137 in
    Ok {| version := ver; public_key := pk; value := val; asset_id := asset; spend_hook := hook;
          user_data := user; blind := bl |}.

(** [DRK_POSEIDON_DOMAIN_COMMITMENT] and [pallas::Base::from(u64)]. *)
Definition DOMAIN_COMMITMENT : list Z := to_le_bytes 32 4.

Definition to_commitment `{Externals} (a : t) : list Z :=
  let '(x, y) := point_xy (public_key a) in
  poseidon_hash [DOMAIN_COMMITMENT; x; y; to_le_bytes 32 (value a); asset_id a; spend_hook a;
                 user_data a; blind a].
End CommitmentAttributes.

Module Input.
Record t := {
  value_commit : list Z; token_commit : list Z; nullifier : list Z; merkle_root : list Z;
  user_data_enc : list Z; spend_hook : list Z; signature_public : list Z
}.

Definition ENCODED_SIZE : Z := 224.

Definition enc (i : t) : list Z :=
  value_commit i ++ token_commit i ++ nullifier i ++ merkle_root i ++ user_data_enc i ++
  spend_hook i ++ signature_public i.

Definition dec `{Externals} (data : list Z) : CRes t :=
  if negb (Z.of_nat (List.length data) =? ENCODED_SIZE) then Err (IoError "Input: length")
  else
    let? vc := read_point "Input: invalid value_commit" data 0 in
    let? tc := read_base "Input: invalid token_commit" data 32 in
    let? nf := read_nullifier data 64 in
    let? root := read_base "Input: invalid merkle_root" data 96 in
    let? ude := read_base "Input: invalid user_data_enc" data 128 in
    let? hook := read_base "Input: invalid spend_hook" data 160 in
    let? sp := read_public_key data 192 in
    Ok {| value_commit := vc; token_commit := tc; nullifier := nf; merkle_root := root;
          user_data_enc := ude; spend_hook := hook; signature_public := sp |}.
End Input.

Module Output.
Record t := {
  value_commit : list Z; token_commit : list Z; commitment : list Z;
  nullifier : option (list Z); note : AeadEncryptedNote
}.

Definition enc `{Externals} (o : t) : CRes (list Z) :=
  let note_bytes := serialize note_codec (note o) in
  let? n := try_from_len (List.length note_bytes) in
  Ok (value_commit o ++ token_commit o ++ commitment o ++ default zero32 (nullifier o) ++
      to_le_bytes 4 n ++ note_bytes).

Definition dec `{Externals} (data : list Z) : CRes t :=
  if Z.of_nat (List.length data) <? 132 then Err (IoError "Output: too short")
  else
    let? vc := read_point "Output: invalid value_commit" data 0 in
    let? tc := read_base "Output: invalid token_commit" data 32 in
    let? cm := read_base "Commitment: invalid field element" data 64 in
    let? nf_bytes := read_field 32 data 96 in
    let? nf := (if bool_decide (nf_bytes = zero32) then Ok None
                else let? nf := nullifier_from_bytes nf_bytes in Ok (Some nf)) in
    let? note_len := read_len data 128 in
    if MAX_NOTE_LEN <? note_len then Err (IoError "Output: note length exceeds max")
    else if negb (Z.of_nat (List.length data) =? 132 + note_len) then Err (IoError "Output: length")
    else
      let? raw := read_slice data 132 note_len in
      match deserialize note_codec raw with
      | Ok n => Ok {| value_commit := vc; token_commit := tc; commitment := cm; nullifier := nf;
                      note := n |}
      | Err _ => Err (IoError "Output: invalid note")
      end.
End Output.

Module ClearInput.
Record t := {
  value : Z; asset_id : list Z; value_blind : list Z; token_blind : list Z;
  signature_public : list Z
}.

Definition ENCODED_SIZE : Z := 136.

Definition enc (c : t) : list Z :=
  to_le_bytes 8 (value c) ++ asset_id c ++ value_blind c ++ token_blind c ++ signature_public c.

Definition dec `{Externals} (data : list Z) : CRes t :=
  if negb (Z.of_nat (List.length data) =? ENCODED_SIZE) then Err (IoError "ClearInput: length")
  else
    let? val := read_u64 data 0 in
    let? asset := read_base "ClearInput: invalid asset_id" data 8 in
    let? vb := read_scalar "ClearInput: invalid value_blind" data 40 in
    let? tb := read_base "ClearInput: invalid token_blind" data 72 in
    let? sp := read_public_key data 104 in
    Ok {| value := val; asset_id := asset; value_blind := vb; token_blind := tb;
          signature_public := sp |}.
End ClearInput.

(** ** Parameters of the calls *)

(** [data.len() < n] as a guard. *)
Definition at_least {A : Type} (data : list Z) (n : Z) (e : ContractError) (k : CRes A) : CRes A :=
  if Z.of_nat (List.length data) <? n then Err e else k.

(** The output that starts at [offset], whose length is in its own header. *)
Definition read_output `{Externals} (data : list Z) (offset : Z) : CRes (Output.t * Z) :=
  let? note_len := read_len data (offset + 128) in
  let output_len := 132 + note_len in
  let? raw := read_slice data offset output_len in
  let? o := Output.dec raw in
  Ok (o, offset + output_len).

Module PoWRewardParamsV1.
Record t := {
  input : ClearInput.t; total_pin : Z; effective_value : Z;
  commitment_attrs : CommitmentAttributes.t; output : Output.t; nullifier : list Z;
  expected_cumulative_supply : Z; old_cumulative_commit : list Z; old_cumulative_blind : list Z;
  new_cumulative_commit : list Z; tx_nonce : list Z
}.

Definition enc `{Externals} (p : t) : CRes (list Z) :=
  let? output_bytes := Output.enc (output p) in
  Ok (ClearInput.enc (input p) ++ output_bytes ++ nullifier p ++
      to_le_bytes 8 (expected_cumulative_supply p) ++ old_cumulative_commit p ++
      old_cumulative_blind p ++ new_cumulative_commit p ++ tx_nonce p ++
      to_le_bytes 8 (total_pin p) ++ to_le_bytes 8 (effective_value p) ++
      CommitmentAttributes.enc (commitment_attrs p)).

Definition dec `{Externals} (data : list Z) : CRes t :=
  let? raw := read_slice data 0 ClearInput.ENCODED_SIZE in
  let? inp := ClearInput.dec raw in
  let input_len := ClearInput.ENCODED_SIZE in
  at_least data (input_len + 132) (IoError "PoWRewardParamsV1: length") (
  let? (out, pos) := read_output data input_len in
  let trailer := 176 + 8 + CommitmentAttributes.ENCODED_SIZE in
  at_least data (pos + trailer) (IoError "PoWRewardParamsV1: length") (
  let? nf := read_nullifier data pos in
  let? supply := read_u64 data (pos + 32) in
  let? oc := read_point "PoWRewardParamsV1: invalid old_cumulative_commit" data (pos + 40) in
  let? ob := read_scalar "PoWRewardParamsV1: invalid old_cumulative_blind" data (pos + 72) in
  let? nc := read_point "PoWRewardParamsV1: invalid new_cumulative_commit" data (pos + 104) in
  let? nonce := read_base "PoWRewardParamsV1: invalid tx_nonce" data (pos + 136) in
  let? pin := read_u64 data (pos + 168) in
  let? eff := read_u64 data (pos + 176) in
  let? raw_attrs := read_slice data (pos + 184) CommitmentAttributes.ENCODED_SIZE in
  let? attrs := CommitmentAttributes.dec raw_attrs in
  Ok {| input := inp; total_pin := pin; effective_value := eff; commitment_attrs := attrs;
        output := out; nullifier := nf; expected_cumulative_supply := supply;
        old_cumulative_commit := oc; old_cumulative_blind := ob; new_cumulative_commit := nc;
        tx_nonce := nonce |})).
End PoWRewardParamsV1.

Module UncleMintParamsV1.
Record t := {
  input : ClearInput.t; total_pin : Z; output : Output.t; effective_value : Z;
  commitment_attrs : CommitmentAttributes.t; tx_nonce : list Z
}.

Definition TRAILER_SIZE : Z := 32 + 8 + 8 + CommitmentAttributes.ENCODED_SIZE.

Definition enc `{Externals} (p : t) : CRes (list Z) :=
  let? output_bytes := Output.enc (output p) in
  Ok (ClearInput.enc (input p) ++ output_bytes ++ tx_nonce p ++ to_le_bytes 8 (total_pin p) ++
      to_le_bytes 8 (effective_value p) ++ CommitmentAttributes.enc (commitment_attrs p)).

Definition dec `{Externals} (data : list Z) : CRes t :=
  let? raw := read_slice data 0 ClearInput.ENCODED_SIZE in
  let? inp := ClearInput.dec raw in
  let input_len := ClearInput.ENCODED_SIZE in
  at_least data (input_len + 132) (IoError "UncleMintParamsV1: length") (
  let? (out, pos) := read_output data input_len in
  at_least data (pos + TRAILER_SIZE) (IoError "UncleMintParamsV1: length") (
  let? nonce := read_base "UncleMintParamsV1: invalid tx_nonce" data pos in
  let? pin := read_u64 data (pos + 32) in
  let? eff := read_u64 data (pos + 40) in
  let? raw_attrs := read_slice data (pos + 48) CommitmentAttributes.ENCODED_SIZE in
  let? attrs := CommitmentAttributes.dec raw_attrs in
  Ok {| input := inp; total_pin := pin; output := out; effective_value := eff;
        commitment_attrs := attrs; tx_nonce := nonce |})).
End UncleMintParamsV1.

(** The [for i in 0..count] loops over records of a fixed size and over
    length-prefixed records. *)
Section loops.
Context {A : Type} (dec : list Z -> CRes A).

Fixpoint read_fixed (size : Z) (count : nat) (data : list Z) (pos : Z) : CRes (list A * Z) :=
  match count with
  | O => Ok ([], pos)
  | S count' =>
      at_least data (pos + size) (IoError "input truncated") (
      let? raw := read_slice data pos size in
      let? i := dec raw in
      let? (rest, pos') := read_fixed size count' data (pos + size) in
      Ok (i :: rest, pos'))
  end.

Fixpoint read_framed (count : nat) (data : list Z) (pos : Z) : CRes (list A * Z) :=
  match count with
  | O => Ok ([], pos)
  | S count' =>
      at_least data (pos + 4) (IoError "output truncated") (
      let? out_len := read_len data pos in
      at_least data (pos + 4 + out_len) (IoError "output data truncated") (
      let? raw := read_slice data (pos + 4) out_len in
      let? o := dec raw in
      let? (rest, pos') := read_framed count' data (pos + 4 + out_len) in
      Ok (o :: rest, pos')))
  end.
End loops.

Module TransferParamsV1.
Record t := { inputs : list Input.t; outputs : list Output.t; tx_nonce : list Z }.

(** One output with its length in front. *)
Definition enc_output `{Externals} (o : Output.t) : CRes (list Z) :=
  let? ob := Output.enc o in
  let? n := try_from_len (List.length ob) in
  Ok (to_le_bytes 4 n ++ ob).

Fixpoint enc_outputs `{Externals} (os : list Output.t) : CRes (list Z) :=
  match os with
  | [] => Ok []
  | o :: os' => let? b := enc_output o in let? bs := enc_outputs os' in Ok (b ++ bs)
  end.

Definition enc `{Externals} (p : t) : CRes (list Z) :=
  let? ic := try_from_len (List.length (inputs p)) in
  let? oc := try_from_len (List.length (outputs p)) in
  let? output_bytes := enc_outputs (outputs p) in
  Ok (to_le_bytes 4 ic ++ concat (map Input.enc (inputs p)) ++ to_le_bytes 4 oc ++ output_bytes ++
      tx_nonce p).

Definition dec `{Externals} (data : list Z) : CRes t :=
  at_least data 40 (IoError "TransferParamsV1: too short") (
  let? input_count := read_len data 0 in
  let? (ins, pos) := read_fixed Input.dec Input.ENCODED_SIZE (Z.to_nat input_count) data 4 in
  at_least data (pos + 4) (IoError "TransferParamsV1: missing output count") (
  let? output_count := read_len data pos in
  let? (outs, pos') := read_framed Output.dec (Z.to_nat output_count) data (pos + 4) in
  at_least data (pos' + 32) (IoError "TransferParamsV1: missing trailing fields") (
  let? nonce := read_base "TransferParamsV1: invalid tx_nonce" data pos' in
  Ok {| inputs := ins; outputs := outs; tx_nonce := nonce |}))).
End TransferParamsV1.

Module SpendParamsV1.
Record t := { input : Input.t; output : Output.t; tx_nonce : list Z }.

Definition enc `{Externals} (p : t) : CRes (list Z) :=
  let? output_bytes := Output.enc (output p) in
  Ok (Input.enc (input p) ++ output_bytes ++ tx_nonce p).

Definition dec `{Externals} (data : list Z) : CRes t :=
  let? raw := read_slice data 0 Input.ENCODED_SIZE in
  let? inp := Input.dec raw in
  let? (out, pos) := read_output data Input.ENCODED_SIZE in
  at_least data (pos + 32) (IoError "SpendParamsV1: length") (
  let? nonce := read_base "SpendParamsV1: invalid tx_nonce" data pos in
  Ok {| input := inp; output := out; tx_nonce := nonce |}).
End SpendParamsV1.

Module BurnParamsV1.
Record t := { inputs : list Input.t; tx_nonce : list Z }.

Definition enc (p : t) : CRes (list Z) :=
  let? n := try_from_len (List.length (inputs p)) in
  Ok (to_le_bytes 4 n ++ concat (map Input.enc (inputs p)) ++ tx_nonce p).

Definition dec `{Externals} (data : list Z) : CRes t :=
  at_least data 36 (IoError "BurnParamsV1: too short") (
  let? count := read_len data 0 in
  let? (ins, pos) := read_fixed Input.dec Input.ENCODED_SIZE (Z.to_nat count) data 4 in
  at_least data (pos + 32) (IoError "BurnParamsV1: missing trailing fields") (
  let? nonce := read_base "BurnParamsV1: invalid tx_nonce" data pos in
  Ok {| inputs := ins; tx_nonce := nonce |})).
End BurnParamsV1.

Module FeeCollectParamsV1.
Record t := { total_fees : Z; output : Output.t; nullifier : list Z; tx_nonce : list Z }.

Definition enc `{Externals} (p : t) : CRes (list Z) :=
  let? output_bytes := Output.enc (output p) in
  Ok (to_le_bytes 8 (total_fees p) ++ output_bytes ++ nullifier p ++ tx_nonce p).

Definition dec `{Externals} (data : list Z) : CRes t :=
  at_least data 72 (IoError "FeeCollectParamsV1: too short") (
  let? fees := read_u64 data 0 in
  let? (out, pos) := read_output data 8 in
  at_least data (pos + 64) (IoError "FeeCollectParamsV1: length") (
  let? nf := read_nullifier data pos in
  let? nonce := read_base "FeeCollectParamsV1: invalid tx_nonce" data (pos + 32) in
  Ok {| total_fees := fees; output := out; nullifier := nf; tx_nonce := nonce |})).
End FeeCollectParamsV1.

Module FeeParamsV3.
Record t := {
  input : Input.t; output : Output.t; fee : Z; tier : FeeTier.t; fee_value_commit : list Z;
  tx_nonce : list Z
}.

Definition enc `{Externals} (p : t) : CRes (list Z) :=
  let? output_bytes := Output.enc (output p) in
  Ok (Input.enc (input p) ++ output_bytes ++ to_le_bytes 8 (fee p) ++
      [FeeTier.tier_multiplier (tier p)] ++ fee_value_commit p ++ tx_nonce p).

Definition dec `{Externals} (data : list Z) : CRes t :=
  at_least data (Input.ENCODED_SIZE + 132) ParseError (
  let? raw := read_slice data 0 Input.ENCODED_SIZE in
  let? inp := Input.dec raw in
  let? (out, pos) := read_output data Input.ENCODED_SIZE in
  at_least data (pos + 8) ParseError (
  let? amount := read_u64 data pos in
  at_least data (pos + 8 + 1) ParseError (
  let? tier_byte := read_byte data (pos + 8) in
  match FeeTier.new tier_byte with
  | None => Err ParseError
  | Some tr =>
      at_least data (pos + 9 + 32) ParseError (
      let? raw_commit := read_field 32 data (pos + 9) in
      if negb (point_canonical raw_commit) then Err ParseError
      else
        at_least data (pos + 41 + 32) ParseError (
        let? raw_nonce := read_field 32 data (pos + 41) in
        if negb (fp_canonical raw_nonce) then Err ParseError
        else Ok {| input := inp; output := out; fee := amount; tier := tr;
                   fee_value_commit := raw_commit; tx_nonce := raw_nonce |}))
  end))).
End FeeParamsV3.

(** ** Reading back *)

Lemma read_slice_here (b c : list Z) (offset n : Z) :
  offset = 0 -> Z.of_nat (List.length b) = n -> read_slice (b ++ c) offset n = Ok b.
Proof.
  intros -> <-. unfold read_slice. rewrite length_app.
  rewrite (proj2 (Z.leb_le _ _)) by lia.
  rewrite Nat2Z.id, drop_0, take_app_length. done.
Qed.

Lemma read_slice_skip (x d : list Z) (offset n : Z) :
  Z.of_nat (List.length x) <= offset ->
  read_slice (x ++ d) offset n = read_slice d (offset - Z.of_nat (List.length x)) n.
Proof.
  intros Hx. unfold read_slice. rewrite length_app, Nat2Z.inj_add.
  assert (offset + n <=? Z.of_nat (List.length x) + Z.of_nat (List.length d)
          = (offset - Z.of_nat (List.length x) + n <=? Z.of_nat (List.length d))) as ->
    by (destruct (Z.leb_spec (offset - Z.of_nat (List.length x) + n) (Z.of_nat (List.length d)));
        [apply Z.leb_le | apply Z.leb_gt]; lia).
  replace (Z.to_nat offset) with (List.length x + Z.to_nat (offset - Z.of_nat (List.length x)))%nat by lia.
  rewrite <- drop_drop, drop_app_length. done.
Qed.

Lemma read_slice_all (b : list Z) (offset n : Z) :
  offset = 0 -> Z.of_nat (List.length b) = n -> read_slice b offset n = Ok b.
Proof. intros H1 H2. rewrite <- (app_nil_r b) at 1. by apply read_slice_here. Qed.

Lemma read_slice_prefix (b c : list Z) (offset n : Z) :
  0 <= offset -> 0 <= n -> offset + n <= Z.of_nat (List.length b) ->
  read_slice (b ++ c) offset n = read_slice b offset n.
Proof.
  intros H1 H2 H3. unfold read_slice. rewrite length_app.
  rewrite !(proj2 (Z.leb_le _ _)) by lia.
  rewrite drop_app_le, take_app_le; [done | rewrite length_drop; lia | lia].
Qed.

(** Lengths of known fields, then the offset arithmetic. *)
Ltac lengths := rewrite ?length_app, ?to_le_bytes_length; cbn [List.length]; lia.

Ltac read_back :=
  repeat first
    [ rewrite read_slice_here by lengths
    | rewrite read_slice_all by lengths
    | rewrite read_slice_skip by lengths ].

Lemma at_least_ok {A : Type} (data : list Z) (n : Z) (e : ContractError) (k : CRes A) :
  n <= Z.of_nat (List.length data) -> at_least data n e k = k.
Proof. intros Hn. unfold at_least. destruct (Z.ltb_spec (Z.of_nat (List.length data)) n); [lia | done]. Qed.

Section wellformed.
Context `{Externals}.

Definition scalar_wf (b : list Z) : Prop := bytes_wf 32 b /\ scalar_canonical b = true.
Definition point_wf (b : list Z) : Prop := bytes_wf 32 b /\ point_canonical b = true.
Definition key_wf (b : list Z) : Prop := point_wf b /\ b <> point_identity.

Definition attrs_wf (a : CommitmentAttributes.t) : Prop :=
  is_byte (CommitmentAttributes.version a) /\ key_wf (CommitmentAttributes.public_key a) /\
  is_u64 (CommitmentAttributes.value a) /\ fp_wf (CommitmentAttributes.asset_id a) /\
  fp_wf (CommitmentAttributes.spend_hook a) /\ fp_wf (CommitmentAttributes.user_data a) /\
  fp_wf (CommitmentAttributes.blind a).

Definition input_wf (i : Input.t) : Prop :=
  point_wf (Input.value_commit i) /\ fp_wf (Input.token_commit i) /\
  nullifier_wf (Input.nullifier i) /\ fp_wf (Input.merkle_root i) /\
  fp_wf (Input.user_data_enc i) /\ fp_wf (Input.spend_hook i) /\ key_wf (Input.signature_public i).

Definition note_wf (n : AeadEncryptedNote) : Prop :=
  byte_vec_wf (ciphertext n) /\ key_wf (ephem_public n).

Definition output_wf (o : Output.t) : Prop :=
  point_wf (Output.value_commit o) /\ fp_wf (Output.token_commit o) /\
  fp_wf (Output.commitment o) /\ from_option nullifier_wf True (Output.nullifier o) /\
  note_wf (Output.note o) /\
  Z.of_nat (List.length (serialize note_codec (Output.note o))) <= MAX_NOTE_LEN.

Definition clear_input_wf (c : ClearInput.t) : Prop :=
  is_u64 (ClearInput.value c) /\ fp_wf (ClearInput.asset_id c) /\
  scalar_wf (ClearInput.value_blind c) /\ fp_wf (ClearInput.token_blind c) /\
  key_wf (ClearInput.signature_public c).

Lemma read_nullifier_ok (data : list Z) (offset : Z) (b : list Z) :
  read_slice data offset 32 = Ok b -> nullifier_wf b -> read_nullifier data offset = Ok b.
Proof.
  intros Hr [[_ Hc] Hz]. unfold read_nullifier, read_field, nullifier_from_bytes.
  by rewrite Hr, Hc, bool_decide_false.
Qed.

Lemma read_key_ok (data : list Z) (offset : Z) (b : list Z) :
  read_slice data offset 32 = Ok b -> key_wf b -> read_public_key data offset = Ok b.
Proof.
  intros Hr [[_ Hc] Hz]. unfold read_public_key, read_field, public_key_from_bytes.
  by rewrite Hr, Hc, bool_decide_false.
Qed.

Lemma read_base_ok (what : string) (data : list Z) (offset : Z) (b : list Z) :
  read_slice data offset 32 = Ok b -> fp_wf b -> read_base what data offset = Ok b.
Proof. intros Hr [_ Hc]. unfold read_base, read_field. by rewrite Hr, Hc. Qed.

Lemma read_point_ok (what : string) (data : list Z) (offset : Z) (b : list Z) :
  read_slice data offset 32 = Ok b -> point_wf b -> read_point what data offset = Ok b.
Proof. intros Hr [_ Hc]. unfold read_point, read_field. by rewrite Hr, Hc. Qed.

Lemma read_scalar_ok (what : string) (data : list Z) (offset : Z) (b : list Z) :
  read_slice data offset 32 = Ok b -> scalar_wf b -> read_scalar what data offset = Ok b.
Proof. intros Hr [_ Hc]. unfold read_scalar, read_field. by rewrite Hr, Hc. Qed.

Lemma read_u64_ok (data : list Z) (offset v : Z) :
  read_slice data offset 8 = Ok (to_le_bytes 8 v) -> is_u64 v -> read_u64 data offset = Ok v.
Proof. intros Hr Hv. unfold read_u64, read_field. rewrite Hr. f_equal. by apply le_bytes_roundtrip. Qed.

Lemma read_len_ok (data : list Z) (offset v : Z) :
  read_slice data offset 4 = Ok (to_le_bytes 4 v) -> is_u32 v -> read_len data offset = Ok v.
Proof. intros Hr Hv. unfold read_len, read_field. rewrite Hr. f_equal. by apply le_bytes_roundtrip. Qed.

Lemma read_byte_ok (data : list Z) (offset v : Z) :
  read_slice data offset 1 = Ok [v] -> read_byte data offset = Ok v.
Proof. intros Hr. unfold read_byte. by rewrite Hr. Qed.
End wellformed.

(** The lengths of the fields of a well-formed structure, and one read per
    field. *)
Ltac field_lengths :=
  repeat match goal with
  | H : nullifier_wf ?x |- _ =>
      lazymatch goal with Hl : List.length x = 32%nat |- _ => fail
      | _ => pose proof (proj1 (proj1 (proj1 H)) : List.length x = 32%nat) end
  | H : key_wf ?x |- _ =>
      lazymatch goal with Hl : List.length x = 32%nat |- _ => fail
      | _ => pose proof (proj1 (proj1 (proj1 H)) : List.length x = 32%nat) end
  | H : fp_wf ?x |- _ =>
      lazymatch goal with Hl : List.length x = 32%nat |- _ => fail
      | _ => pose proof (proj1 (proj1 H) : List.length x = 32%nat) end
  | H : point_wf ?x |- _ =>
      lazymatch goal with Hl : List.length x = 32%nat |- _ => fail
      | _ => pose proof (proj1 (proj1 H) : List.length x = 32%nat) end
  | H : scalar_wf ?x |- _ =>
      lazymatch goal with Hl : List.length x = 32%nat |- _ => fail
      | _ => pose proof (proj1 (proj1 H) : List.length x = 32%nat) end
  end.

Ltac read_next :=
  first
    [ erewrite read_nullifier_ok; [| read_back; reflexivity | done]
    | erewrite read_key_ok; [| read_back; reflexivity | done]
    | erewrite read_base_ok; [| read_back; reflexivity | done]
    | erewrite read_point_ok; [| read_back; reflexivity | done]
    | erewrite read_scalar_ok; [| read_back; reflexivity | done]
    | erewrite read_u64_ok; [| read_back; reflexivity | done]
    | erewrite read_byte_ok; [| read_back; reflexivity] ].

Section roundtrip.
Context `{Externals}.

Lemma attrs_length (a : CommitmentAttributes.t) :
  attrs_wf a -> Z.of_nat (List.length (CommitmentAttributes.enc a)) = CommitmentAttributes.ENCODED_SIZE.
Proof.
  intros (? & ? & ? & ? & ? & ? & ?). field_lengths. unfold CommitmentAttributes.enc,
    CommitmentAttributes.ENCODED_SIZE. lengths.
Qed.

Lemma attrs_roundtrip (a : CommitmentAttributes.t) :
  attrs_wf a -> CommitmentAttributes.dec (CommitmentAttributes.enc a) = Ok a.
Proof.
  intros Hw. unfold CommitmentAttributes.dec. rewrite attrs_length, Z.eqb_refl by done. cbn [negb].
  destruct Hw as (? & ? & ? & ? & ? & ? & ?). field_lengths. unfold CommitmentAttributes.enc.
  do 7 read_next. by destruct a.
Qed.

Lemma input_length (i : Input.t) :
  input_wf i -> Z.of_nat (List.length (Input.enc i)) = Input.ENCODED_SIZE.
Proof.
  intros (? & ? & ? & ? & ? & ? & ?). field_lengths. unfold Input.enc, Input.ENCODED_SIZE. lengths.
Qed.

Lemma input_roundtrip (i : Input.t) : input_wf i -> Input.dec (Input.enc i) = Ok i.
Proof.
  intros Hw. unfold Input.dec. rewrite input_length, Z.eqb_refl by done. cbn [negb].
  destruct Hw as (? & ? & ? & ? & ? & ? & ?). field_lengths. unfold Input.enc.
  do 7 read_next. by destruct i.
Qed.

Lemma clear_input_length (c : ClearInput.t) :
  clear_input_wf c -> Z.of_nat (List.length (ClearInput.enc c)) = ClearInput.ENCODED_SIZE.
Proof.
  intros (? & ? & ? & ? & ?). field_lengths. unfold ClearInput.enc, ClearInput.ENCODED_SIZE. lengths.
Qed.

Lemma clear_input_roundtrip (c : ClearInput.t) :
  clear_input_wf c -> ClearInput.dec (ClearInput.enc c) = Ok c.
Proof.
  intros Hw. unfold ClearInput.dec. rewrite clear_input_length, Z.eqb_refl by done. cbn [negb].
  destruct Hw as (? & ? & ? & ? & ?). field_lengths. unfold ClearInput.enc.
  do 5 read_next. by destruct c.
Qed.

#[export] Instance point_codec_ok : CodecOk point_codec point_wf.
Proof.
  apply mk_codec_ok; [by intros h [[_ Hb] _] |].
  intros h rest [[Hl _] Hc]. rewrite read_exact_app by done. by rewrite Hc.
Qed.

#[export] Instance public_key_codec_ok : CodecOk public_key_codec key_wf.
Proof.
  apply mk_codec_ok; [by intros h [[[_ Hb] _] _] |].
  intros h rest [Hp Hi]. change (h ++ rest) with (encode point_codec h ++ rest). rewrite decode_encode by exact Hp.
  unfold public_key_from_bytes. by rewrite (proj2 Hp), bool_decide_false.
Qed.

#[export] Instance note_codec_ok : CodecOk note_codec note_wf.
Proof.
  apply mk_codec_ok; intros n.
  - intros (? & ?). encode_fields.
  - intros rest (? & ?). decode_fields. by destruct n.
Qed.

(** The bytes [Output::encode] writes for an output it accepts. *)
Definition output_bytes (o : Output.t) : list Z :=
  Output.value_commit o ++ Output.token_commit o ++ Output.commitment o ++
  default zero32 (Output.nullifier o) ++
  to_le_bytes 4 (Z.of_nat (List.length (serialize note_codec (Output.note o)))) ++
  serialize note_codec (Output.note o).

Definition note_length (o : Output.t) : Z :=
  Z.of_nat (List.length (serialize note_codec (Output.note o))).

Lemma note_length_u32 (o : Output.t) : output_wf o -> is_u32 (note_length o).
Proof.
  intros (_ & _ & _ & _ & _ & Hn). unfold note_length, is_u, MAX_NOTE_LEN in *. lia.
Qed.

Lemma output_enc (o : Output.t) : output_wf o -> Output.enc o = Ok (output_bytes o).
Proof.
  intros Hw. pose proof (note_length_u32 o Hw) as [_ Hn]. unfold Output.enc, try_from_len.
  fold (note_length o). unfold u32_max. rewrite (proj2 (Z.leb_le _ _)) by lia. done.
Qed.

Lemma nullifier_length (o : Output.t) :
  output_wf o -> List.length (default zero32 (Output.nullifier o)) = 32%nat.
Proof.
  intros (_ & _ & _ & Hn & _). destruct (Output.nullifier o) as [nf|]; [apply Hn | done].
Qed.

Lemma output_length (o : Output.t) :
  output_wf o -> Z.of_nat (List.length (output_bytes o)) = 132 + note_length o.
Proof.
  intros Hw. pose proof (nullifier_length o Hw). destruct Hw as (? & ? & ? & _).
  field_lengths. unfold output_bytes, note_length. lengths.
Qed.

Lemma output_roundtrip (o : Output.t) : output_wf o -> Output.dec (output_bytes o) = Ok o.
Proof.
  intros Hw. unfold Output.dec. rewrite output_length by done.
  pose proof (note_length_u32 o Hw) as Hu. pose proof (nullifier_length o Hw) as Hnl.
  assert (Z.of_nat (List.length (serialize note_codec (Output.note o))) = note_length o) by done.
  destruct Hw as (? & ? & ? & Hnf & Hnote & Hmax). fold (note_length o) in Hmax. field_lengths.
  rewrite (proj2 (Z.ltb_ge _ _)) by (destruct Hu; lia). unfold output_bytes. fold (note_length o).
  do 3 read_next. unfold read_field. read_back.
  assert ((if bool_decide (default zero32 (Output.nullifier o) = zero32) then Ok None
           else let? nf := nullifier_from_bytes (default zero32 (Output.nullifier o)) in Ok (Some nf))
          = Ok (E := ContractError) (Output.nullifier o)) as ->.
  { destruct (Output.nullifier o) as [nf|]; [| by rewrite bool_decide_true].
    cbn in Hnf |- *. destruct Hnf as [[_ Hc] Hz]. unfold nullifier_from_bytes.
    by rewrite bool_decide_false, Hc, bool_decide_false. }
  erewrite (read_len_ok _ _ (note_length o)); [| read_back; reflexivity | done].
  rewrite (proj2 (Z.ltb_ge _ _)), Z.eqb_refl by lia. cbn [negb].
  read_back. rewrite (deserialize_serialize note_codec note_wf) by done. by destruct o.
Qed.

(** An output in the middle of a buffer. *)
Lemma read_output_ok (pre rest : list Z) (o : Output.t) (offset : Z) :
  output_wf o -> Z.of_nat (List.length pre) = offset ->
  read_output (pre ++ output_bytes o ++ rest) offset = Ok (o, offset + (132 + note_length o)).
Proof.
  intros Hw Hpre. unfold read_output. pose proof (output_length o Hw) as Hol.
  pose proof (note_length_u32 o Hw) as Hu.
  erewrite (read_len_ok _ _ (note_length o)); [| | done].
  - read_back. by rewrite output_roundtrip.
  - rewrite read_slice_skip by lia. rewrite read_slice_prefix by (destruct Hu; lia).
    pose proof (nullifier_length o Hw). destruct Hw as (? & ? & ? & _). field_lengths.
    unfold output_bytes. fold (note_length o). read_back. done.
Qed.

Definition pow_params_wf (p : PoWRewardParamsV1.t) : Prop :=
  clear_input_wf (PoWRewardParamsV1.input p) /\ is_u64 (PoWRewardParamsV1.total_pin p) /\
  is_u64 (PoWRewardParamsV1.effective_value p) /\
  attrs_wf (PoWRewardParamsV1.commitment_attrs p) /\ output_wf (PoWRewardParamsV1.output p) /\
  nullifier_wf (PoWRewardParamsV1.nullifier p) /\
  is_u64 (PoWRewardParamsV1.expected_cumulative_supply p) /\
  point_wf (PoWRewardParamsV1.old_cumulative_commit p) /\
  scalar_wf (PoWRewardParamsV1.old_cumulative_blind p) /\
  point_wf (PoWRewardParamsV1.new_cumulative_commit p) /\ fp_wf (PoWRewardParamsV1.tx_nonce p).

Lemma pow_params_roundtrip (p : PoWRewardParamsV1.t) :
  pow_params_wf p ->
  exists bytes, PoWRewardParamsV1.enc p = Ok bytes /\
    forall rest, PoWRewardParamsV1.dec (bytes ++ rest) = Ok p.
Proof.
  intros (Hi & Htp & Hev & Ha & Ho & Hnf & Hs & Hoc & Hob & Hnc & Hn). field_lengths.
  unfold PoWRewardParamsV1.enc. rewrite output_enc by done. eexists. split; [reflexivity |].
  intros rest. rewrite <- !app_assoc.
  pose proof (clear_input_length _ Hi) as Hil. pose proof (output_length _ Ho) as Hol.
  pose proof (attrs_length _ Ha) as Hal. pose proof (note_length_u32 _ Ho) as [Hnl _].
  unfold PoWRewardParamsV1.dec, ClearInput.ENCODED_SIZE, CommitmentAttributes.ENCODED_SIZE in *.
  read_back. rewrite clear_input_roundtrip by done. rewrite at_least_ok by lengths.
  rewrite read_output_ok by done. rewrite at_least_ok by lengths. do 8 read_next.
  read_back. rewrite attrs_roundtrip by done. by destruct p.
Qed.

Definition uncle_mint_params_wf (p : UncleMintParamsV1.t) : Prop :=
  clear_input_wf (UncleMintParamsV1.input p) /\ is_u64 (UncleMintParamsV1.total_pin p) /\
  output_wf (UncleMintParamsV1.output p) /\ is_u64 (UncleMintParamsV1.effective_value p) /\
  attrs_wf (UncleMintParamsV1.commitment_attrs p) /\ fp_wf (UncleMintParamsV1.tx_nonce p).

Lemma uncle_mint_params_roundtrip (p : UncleMintParamsV1.t) :
  uncle_mint_params_wf p ->
  exists bytes, UncleMintParamsV1.enc p = Ok bytes /\
    forall rest, UncleMintParamsV1.dec (bytes ++ rest) = Ok p.
Proof.
  intros (Hi & Htp & Ho & Hev & Ha & Hn). field_lengths.
  unfold UncleMintParamsV1.enc. rewrite output_enc by done. eexists. split; [reflexivity |].
  intros rest. rewrite <- !app_assoc.
  pose proof (clear_input_length _ Hi) as Hil. pose proof (output_length _ Ho) as Hol.
  pose proof (attrs_length _ Ha) as Hal. pose proof (note_length_u32 _ Ho) as [Hnl _].
  unfold UncleMintParamsV1.dec, UncleMintParamsV1.TRAILER_SIZE, ClearInput.ENCODED_SIZE,
    CommitmentAttributes.ENCODED_SIZE in *.
  read_back. rewrite clear_input_roundtrip by done. rewrite at_least_ok by lengths.
  rewrite read_output_ok by done. rewrite at_least_ok by lengths. do 3 read_next.
  read_back. rewrite attrs_roundtrip by done. by destruct p.
Qed.

Definition spend_params_wf (p : SpendParamsV1.t) : Prop :=
  input_wf (SpendParamsV1.input p) /\ output_wf (SpendParamsV1.output p) /\
  fp_wf (SpendParamsV1.tx_nonce p).

Lemma spend_params_roundtrip (p : SpendParamsV1.t) :
  spend_params_wf p ->
  exists bytes, SpendParamsV1.enc p = Ok bytes /\ forall rest, SpendParamsV1.dec (bytes ++ rest) = Ok p.
Proof.
  intros (Hi & Ho & Hn). field_lengths. unfold SpendParamsV1.enc. rewrite output_enc by done.
  eexists. split; [reflexivity |]. intros rest. rewrite <- !app_assoc.
  pose proof (input_length _ Hi) as Hil. pose proof (output_length _ Ho) as Hol.
  pose proof (note_length_u32 _ Ho) as [Hnl _]. unfold SpendParamsV1.dec, Input.ENCODED_SIZE in *.
  read_back. rewrite input_roundtrip by done. rewrite read_output_ok by done.
  rewrite at_least_ok by lengths. read_next. by destruct p.
Qed.

Definition fee_collect_params_wf (p : FeeCollectParamsV1.t) : Prop :=
  is_u64 (FeeCollectParamsV1.total_fees p) /\ output_wf (FeeCollectParamsV1.output p) /\
  nullifier_wf (FeeCollectParamsV1.nullifier p) /\ fp_wf (FeeCollectParamsV1.tx_nonce p).

Lemma fee_collect_params_roundtrip (p : FeeCollectParamsV1.t) :
  fee_collect_params_wf p ->
  exists bytes, FeeCollectParamsV1.enc p = Ok bytes /\
    forall rest, FeeCollectParamsV1.dec (bytes ++ rest) = Ok p.
Proof.
  intros (Hf & Ho & Hnf & Hn). field_lengths. unfold FeeCollectParamsV1.enc.
  rewrite output_enc by done. eexists. split; [reflexivity |]. intros rest. rewrite <- !app_assoc.
  pose proof (output_length _ Ho) as Hol. pose proof (note_length_u32 _ Ho) as [Hnl _].
  unfold FeeCollectParamsV1.dec. rewrite at_least_ok by lengths. read_next.
  rewrite read_output_ok by done. rewrite at_least_ok by lengths. do 2 read_next. by destruct p.
Qed.

Definition fee_params_wf (p : FeeParamsV3.t) : Prop :=
  input_wf (FeeParamsV3.input p) /\ output_wf (FeeParamsV3.output p) /\ is_u64 (FeeParamsV3.fee p) /\
  point_wf (FeeParamsV3.fee_value_commit p) /\ fp_wf (FeeParamsV3.tx_nonce p).

Lemma fee_params_roundtrip (p : FeeParamsV3.t) :
  fee_params_wf p ->
  exists bytes, FeeParamsV3.enc p = Ok bytes /\ forall rest, FeeParamsV3.dec (bytes ++ rest) = Ok p.
Proof.
  intros (Hi & Ho & Hf & Hc & Hn). field_lengths. unfold FeeParamsV3.enc.
  rewrite output_enc by done. eexists. split; [reflexivity |]. intros rest. rewrite <- !app_assoc.
  pose proof (input_length _ Hi) as Hil. pose proof (output_length _ Ho) as Hol.
  pose proof (note_length_u32 _ Ho) as [Hnl _]. unfold FeeParamsV3.dec, Input.ENCODED_SIZE, read_field in *.
  rewrite at_least_ok by lengths. read_back. rewrite input_roundtrip by done.
  rewrite read_output_ok by done. rewrite at_least_ok by lengths. read_next.
  rewrite at_least_ok by lengths. read_next.
  assert (FeeTier.new (FeeTier.tier_multiplier (FeeParamsV3.tier p)) = Some (FeeParamsV3.tier p)) as ->
    by (by destruct (FeeParamsV3.tier p)).
  rewrite at_least_ok by lengths. read_back. destruct Hc as [_ ->]. cbn [negb].
  rewrite at_least_ok by lengths. read_back. destruct Hn as [_ ->]. by destruct p.
Qed.

(** ** The loops *)

Lemma read_inputs_ok (ins : list Input.t) (pre rest : list Z) (pos : Z) :
  Forall input_wf ins -> Z.of_nat (List.length pre) = pos ->
  read_fixed Input.dec Input.ENCODED_SIZE (List.length ins) (pre ++ concat (map Input.enc ins) ++ rest) pos =
  Ok (ins, pos + Z.of_nat (List.length (concat (map Input.enc ins)))).
Proof.
  intros Hw. revert pre pos. induction Hw as [|i ins Hi _ IH]; intros pre pos Hpre.
  { cbn. by rewrite Z.add_0_r. }
  pose proof (input_length _ Hi) as Hl. unfold Input.ENCODED_SIZE in *.
  cbn [List.length map concat read_fixed]. unfold Input.ENCODED_SIZE.
  rewrite <- (app_assoc (Input.enc i)). rewrite at_least_ok by lengths. read_back.
  rewrite input_roundtrip by done.
  specialize (IH (pre ++ Input.enc i) (pos + 224) ltac:(lengths)). rewrite <- app_assoc in IH.
  rewrite IH. do 2 f_equal. rewrite length_app. lia.
Qed.

Definition framed_output (o : Output.t) : list Z :=
  to_le_bytes 4 (132 + note_length o) ++ output_bytes o.

Lemma framed_enc (o : Output.t) : output_wf o -> TransferParamsV1.enc_output o = Ok (framed_output o).
Proof.
  intros Hw. unfold TransferParamsV1.enc_output. rewrite output_enc by done.
  pose proof (output_length o Hw) as Hl. destruct Hw as (_ & _ & _ & _ & _ & Hn).
  fold (note_length o) in Hn. unfold try_from_len, u32_max, MAX_NOTE_LEN in *.
  rewrite (proj2 (Z.leb_le _ _)) by lia. by rewrite Hl.
Qed.

Lemma framed_enc_all (os : list Output.t) :
  Forall output_wf os -> TransferParamsV1.enc_outputs os = Ok (concat (map framed_output os)).
Proof.
  induction 1 as [|o os Ho _ IH]; [done |]. cbn [TransferParamsV1.enc_outputs map concat].
  by rewrite framed_enc, IH.
Qed.

Lemma read_outputs_ok (os : list Output.t) (pre rest : list Z) (pos : Z) :
  Forall output_wf os -> Z.of_nat (List.length pre) = pos ->
  read_framed Output.dec (List.length os) (pre ++ concat (map framed_output os) ++ rest) pos =
  Ok (os, pos + Z.of_nat (List.length (concat (map framed_output os)))).
Proof.
  intros Hw. revert pre pos. induction Hw as [|o os Ho _ IH]; intros pre pos Hpre.
  { cbn. by rewrite Z.add_0_r. }
  pose proof (output_length _ Ho) as Hl. pose proof (note_length_u32 _ Ho) as [Hn _].
  assert (is_u32 (132 + note_length o)) as Hu.
  { destruct Ho as (_ & _ & _ & _ & _ & Hmax). fold (note_length o) in Hmax.
    unfold is_u, MAX_NOTE_LEN in *. lia. }
  assert (framed_output o = to_le_bytes 4 (132 + note_length o) ++ output_bytes o) as Hf by done.
  specialize (IH (pre ++ framed_output o) (pos + 4 + (132 + note_length o))).
  rewrite Hf in IH. rewrite <- !app_assoc in IH. specialize (IH ltac:(lengths)).
  cbn [List.length map concat read_framed]. rewrite Hf, <- !app_assoc.
  rewrite at_least_ok by lengths.
  erewrite (read_len_ok _ _ (132 + note_length o)); [| read_back; reflexivity | done].
  rewrite at_least_ok by lengths. read_back. rewrite output_roundtrip by done.
  rewrite IH. do 2 f_equal. rewrite !length_app, to_le_bytes_length. lia.
Qed.

Definition burn_params_wf (p : BurnParamsV1.t) : Prop :=
  Forall input_wf (BurnParamsV1.inputs p) /\
  is_u32 (Z.of_nat (List.length (BurnParamsV1.inputs p))) /\ fp_wf (BurnParamsV1.tx_nonce p).

Lemma try_from_len_ok (n : nat) : is_u32 (Z.of_nat n) -> try_from_len n = Ok (Z.of_nat n).
Proof.
  intros [_ Hn]. unfold try_from_len, u32_max. by rewrite (proj2 (Z.leb_le _ _)) by lia.
Qed.

Lemma burn_params_roundtrip (p : BurnParamsV1.t) :
  burn_params_wf p ->
  exists bytes, BurnParamsV1.enc p = Ok bytes /\ forall rest, BurnParamsV1.dec (bytes ++ rest) = Ok p.
Proof.
  intros (Hi & Hl & Hn). field_lengths. unfold BurnParamsV1.enc. rewrite try_from_len_ok by done.
  eexists. split; [reflexivity |]. intros rest. rewrite <- !app_assoc. unfold BurnParamsV1.dec.
  rewrite at_least_ok by lengths.
  erewrite (read_len_ok _ _ (Z.of_nat (List.length (BurnParamsV1.inputs p))));
    [| read_back; reflexivity | done].
  rewrite Nat2Z.id, read_inputs_ok; [| done | by rewrite to_le_bytes_length].
  rewrite at_least_ok by lengths. read_next. by destruct p.
Qed.

Definition transfer_params_wf (p : TransferParamsV1.t) : Prop :=
  Forall input_wf (TransferParamsV1.inputs p) /\ Forall output_wf (TransferParamsV1.outputs p) /\
  is_u32 (Z.of_nat (List.length (TransferParamsV1.inputs p))) /\
  is_u32 (Z.of_nat (List.length (TransferParamsV1.outputs p))) /\ fp_wf (TransferParamsV1.tx_nonce p).

Lemma transfer_params_roundtrip (p : TransferParamsV1.t) :
  transfer_params_wf p ->
  exists bytes, TransferParamsV1.enc p = Ok bytes /\
    forall rest, TransferParamsV1.dec (bytes ++ rest) = Ok p.
Proof.
  intros (Hi & Ho & Hil & Hol & Hn). field_lengths. unfold TransferParamsV1.enc.
  rewrite !try_from_len_ok, framed_enc_all by done. eexists. split; [reflexivity |].
  intros rest. rewrite <- !app_assoc. unfold TransferParamsV1.dec.
  rewrite at_least_ok by lengths.
  erewrite (read_len_ok _ _ (Z.of_nat (List.length (TransferParamsV1.inputs p))));
    [| read_back; reflexivity | done].
  rewrite Nat2Z.id, read_inputs_ok; [| done | by rewrite to_le_bytes_length].
  rewrite at_least_ok by lengths.
  erewrite (read_len_ok _ _ (Z.of_nat (List.length (TransferParamsV1.outputs p))));
    [| read_back; reflexivity | done].
  rewrite Nat2Z.id.
  set (pre := to_le_bytes 4 (Z.of_nat (List.length (TransferParamsV1.inputs p))) ++
    concat (map Input.enc (TransferParamsV1.inputs p)) ++
    to_le_bytes 4 (Z.of_nat (List.length (TransferParamsV1.outputs p)))).
  pose proof (read_outputs_ok (TransferParamsV1.outputs p) pre (TransferParamsV1.tx_nonce p ++ rest)
    (4 + Z.of_nat (List.length (concat (map Input.enc (TransferParamsV1.inputs p)))) + 4) Ho
    ltac:(unfold pre; lengths)) as Hr.
  unfold pre in Hr. rewrite <- !app_assoc in Hr. rewrite Hr.
  rewrite at_least_ok by lengths. read_next. by destruct p.
Qed.

(** ** Properties *)

(** The parameters of the calls that mint, pay and move tokens survive
    their wire format: a well-formed coinbase, fee payment or transfer (with
    any number of inputs and outputs and notes of any admissible size) encodes,
    and decoding the bytes, even followed by others, gives it back. *)
Lemma call_params_roundtrip (cb : PoWRewardParamsV1.t) (fee : FeeParamsV3.t)
    (tr : TransferParamsV1.t) :
  pow_params_wf cb -> fee_params_wf fee -> transfer_params_wf tr ->
  exists b1 b2 b3,
    PoWRewardParamsV1.enc cb = Ok b1 /\ FeeParamsV3.enc fee = Ok b2 /\
    TransferParamsV1.enc tr = Ok b3 /\
    forall rest, PoWRewardParamsV1.dec (b1 ++ rest) = Ok cb /\ FeeParamsV3.dec (b2 ++ rest) = Ok fee /\
                 TransferParamsV1.dec (b3 ++ rest) = Ok tr.
Proof.
  intros Hc Hf Ht. destruct (pow_params_roundtrip cb Hc) as (b1 & He1 & Hd1).
  destruct (fee_params_roundtrip fee Hf) as (b2 & He2 & Hd2).
  destruct (transfer_params_roundtrip tr Ht) as (b3 & He3 & Hd3).
  exists b1, b2, b3. split_and!; [done | done | done |]. intros rest. by split_and!.
Qed.
End roundtrip.

(** ** Concrete calls *)

Definition elem (k : Z) : list Z := to_le_bytes 32 k.

Lemma elem_bytes (k : Z) : bytes_wf 32 (elem k).
Proof. split; [apply to_le_bytes_length | apply to_le_bytes_are_bytes]. Qed.

Definition sample_note : AeadEncryptedNote := {| ciphertext := [7; 8; 9]; ephem_public := elem 5 |}.

Definition sample_output : Output.t := {|
  Output.value_commit := elem 21; Output.token_commit := elem 22; Output.commitment := elem 23;
  Output.nullifier := Some (elem 24); Output.note := sample_note |}.

Definition sample_input (k : Z) : Input.t := {|
  Input.value_commit := elem 31; Input.token_commit := elem 32; Input.nullifier := elem k;
  Input.merkle_root := elem 34; Input.user_data_enc := elem 35; Input.spend_hook := elem 0;
  Input.signature_public := elem 37 |}.

Definition sample_attrs : CommitmentAttributes.t := {|
  CommitmentAttributes.version := 0; CommitmentAttributes.public_key := elem 41;
  CommitmentAttributes.value := 60; CommitmentAttributes.asset_id := elem 0;
  CommitmentAttributes.spend_hook := elem 0; CommitmentAttributes.user_data := elem 0;
  CommitmentAttributes.blind := elem 42 |}.

(** A coinbase of 100 that keeps 60 and pays 40 to uncles. *)
Definition sample_coinbase : PoWRewardParamsV1.t := {|
  PoWRewardParamsV1.input := {|
    ClearInput.value := 100; ClearInput.asset_id := elem 0; ClearInput.value_blind := elem 51;
    ClearInput.token_blind := elem 52; ClearInput.signature_public := elem 53 |};
  PoWRewardParamsV1.total_pin := 40; PoWRewardParamsV1.effective_value := 60;
  PoWRewardParamsV1.commitment_attrs := sample_attrs;
  PoWRewardParamsV1.output := {|
    Output.value_commit := elem 21; Output.token_commit := elem 22;
    Output.commitment := @CommitmentAttributes.to_commitment toy sample_attrs;
    Output.nullifier := Some (elem 24); Output.note := sample_note |};
  PoWRewardParamsV1.nullifier := elem 77; PoWRewardParamsV1.expected_cumulative_supply := 500;
  PoWRewardParamsV1.old_cumulative_commit := elem 61; PoWRewardParamsV1.old_cumulative_blind := elem 62;
  PoWRewardParamsV1.new_cumulative_commit := elem 63; PoWRewardParamsV1.tx_nonce := elem 64 |}.

Definition sample_fee : FeeParamsV3.t := {|
  FeeParamsV3.input := sample_input 33; FeeParamsV3.output := sample_output;
  FeeParamsV3.fee := 2000000; FeeParamsV3.tier := FeeTier.MEDIUM;
  FeeParamsV3.fee_value_commit := elem 71; FeeParamsV3.tx_nonce := elem 72 |}.

Definition sample_transfer : TransferParamsV1.t := {|
  TransferParamsV1.inputs := [sample_input 81; sample_input 82];
  TransferParamsV1.outputs := [sample_output]; TransferParamsV1.tx_nonce := elem 83 |}.

Ltac elem_wf :=
  repeat match goal with
  | |- _ /\ _ => split
  | |- bytes_wf 32 (elem _) => apply elem_bytes
  | |- fp_wf _ => split
  | |- scalar_wf _ => split
  | |- point_wf _ => split
  | |- key_wf _ => split
  | |- nullifier_wf _ => split
  | |- _ = true => vm_compute; reflexivity
  | |- _ <> _ => vm_compute; discriminate
  | |- is_u _ _ => unfold is_u; cbn; lia
  | |- is_byte _ => unfold is_byte; cbn; lia
  end.

Lemma sample_note_wf : @note_wf toy sample_note.
Proof.
  split; [| cbn [ephem_public sample_note]; elem_wf].
  apply (wf_of_roundtrip byte_vec_codec byte_vec_wf); vm_compute; reflexivity.
Qed.

Lemma sample_output_wf (c : list Z) :
  @fp_wf toy c ->
  @output_wf toy {| Output.value_commit := elem 21; Output.token_commit := elem 22;
    Output.commitment := c; Output.nullifier := Some (elem 24); Output.note := sample_note |}.
Proof.
  intros Hc. unfold output_wf. cbn [Output.value_commit Output.token_commit Output.commitment
    Output.nullifier Output.note from_option]. split_and!; try done; try exact sample_note_wf; elem_wf.
Qed.

Lemma sample_input_wf (k : Z) : @nullifier_wf toy (elem k) -> @input_wf toy (sample_input k).
Proof.
  intros Hk. unfold input_wf. cbn [sample_input Input.value_commit Input.token_commit Input.nullifier
    Input.merkle_root Input.user_data_enc Input.spend_hook Input.signature_public].
  split_and!; try exact Hk; elem_wf.
Qed.

Lemma sample_coinbase_wf : @pow_params_wf toy sample_coinbase.
Proof.
  unfold pow_params_wf. cbn [sample_coinbase PoWRewardParamsV1.input PoWRewardParamsV1.total_pin
    PoWRewardParamsV1.effective_value PoWRewardParamsV1.commitment_attrs PoWRewardParamsV1.output
    PoWRewardParamsV1.nullifier PoWRewardParamsV1.expected_cumulative_supply
    PoWRewardParamsV1.old_cumulative_commit PoWRewardParamsV1.old_cumulative_blind
    PoWRewardParamsV1.new_cumulative_commit PoWRewardParamsV1.tx_nonce].
  split_and!; try (unfold clear_input_wf, attrs_wf; cbn [sample_attrs ClearInput.value
    ClearInput.asset_id ClearInput.value_blind ClearInput.token_blind ClearInput.signature_public
    CommitmentAttributes.version CommitmentAttributes.public_key CommitmentAttributes.value
    CommitmentAttributes.asset_id CommitmentAttributes.spend_hook CommitmentAttributes.user_data
    CommitmentAttributes.blind]; elem_wf).
  apply sample_output_wf. split; [apply toy_digest_wf | vm_compute; reflexivity].
Qed.

Lemma sample_fee_wf : @fee_params_wf toy sample_fee.
Proof.
  unfold fee_params_wf. cbn [sample_fee FeeParamsV3.input FeeParamsV3.output FeeParamsV3.fee
    FeeParamsV3.fee_value_commit FeeParamsV3.tx_nonce].
  split_and!; [apply sample_input_wf; elem_wf | apply sample_output_wf; elem_wf | elem_wf ..].
Qed.

Lemma sample_transfer_wf : @transfer_params_wf toy sample_transfer.
Proof.
  unfold transfer_params_wf. cbn [sample_transfer TransferParamsV1.inputs TransferParamsV1.outputs
    TransferParamsV1.tx_nonce]. split_and!.
  - repeat (apply Forall_cons; split; [apply sample_input_wf; elem_wf |]). by apply Forall_nil.
  - apply Forall_cons. split; [apply sample_output_wf; elem_wf | by apply Forall_nil].
  - unfold is_u. cbn. lia.
  - unfold is_u. cbn. lia.
  - elem_wf.
Qed.

Lemma call_params_roundtrip_witness :
  exists b1 b2 b3,
    @PoWRewardParamsV1.enc toy sample_coinbase = Ok b1 /\ @FeeParamsV3.enc toy sample_fee = Ok b2 /\
    @TransferParamsV1.enc toy sample_transfer = Ok b3 /\
    forall rest, @PoWRewardParamsV1.dec toy (b1 ++ rest) = Ok sample_coinbase /\
      @FeeParamsV3.dec toy (b2 ++ rest) = Ok sample_fee /\
      @TransferParamsV1.dec toy (b3 ++ rest) = Ok sample_transfer.
Proof.
  apply (@call_params_roundtrip toy sample_coinbase sample_fee sample_transfer);
    [exact sample_coinbase_wf | exact sample_fee_wf | exact sample_transfer_wf].
Defined.
