(* ===== verification/TokenParams.v ===== *)
(** * Decoded call parameters are well-formed

    The decoders of the native token's calls are the only way call data becomes
    field elements, points, keys and nullifiers.  Whatever bytes they are given,
    what they return satisfies the well-formedness the encoders ask for, so the
    rest of the node and the contract work on canonical values only. *)

From Stdlib Require Import String.
From S2P Require Import Prelude Units Serial Externals Transaction Store NativeToken.

Section decoded.
Context `{Externals}.
Implicit Types (data raw b : bytes) (offset : Z).

Lemma read_slice_inv data offset (n : Z) b :
  Forall is_byte data -> 0 <= offset -> 0 <= n -> read_slice data offset n = Ok b ->
  Forall is_byte b /\ Z.of_nat (List.length b) = n.
Proof.
  intros Hd Ho Hn Hr. unfold read_slice in Hr. destruct (Z.leb_spec (offset + n) (Z.of_nat (List.length data))) as [Hl |]; [| done].
  injection Hr as <-. split; [by apply Forall_take, Forall_drop |]. rewrite length_take, length_drop. lia.
Qed.

Lemma read_slice_32 data offset b :
  Forall is_byte data -> 0 <= offset -> read_slice data offset 32 = Ok b -> bytes_wf 32 b.
Proof. intros Hd Ho Hr. apply read_slice_inv in Hr as [Hb Hl]; [| done..]. split; [lia | done]. Qed.

Lemma read_base_wf (what : string) data offset b :
  Forall is_byte data -> 0 <= offset -> read_base what data offset = Ok b -> fp_wf b.
Proof. unfold read_base. intros Hd Ho Hr. inv_result. split; [by eapply read_slice_32 | done]. Qed.

Lemma read_scalar_wf (what : string) data offset b :
  Forall is_byte data -> 0 <= offset -> read_scalar what data offset = Ok b -> scalar_wf b.
Proof. unfold read_scalar. intros Hd Ho Hr. inv_result. split; [by eapply read_slice_32 | done]. Qed.

Lemma read_point_wf (what : string) data offset b :
  Forall is_byte data -> 0 <= offset -> read_point what data offset = Ok b -> point_wf b.
Proof. unfold read_point. intros Hd Ho Hr. inv_result. split; [by eapply read_slice_32 | done]. Qed.

Lemma read_key_wf data offset b :
  Forall is_byte data -> 0 <= offset -> read_public_key data offset = Ok b -> key_wf b.
Proof.
  unfold read_public_key, public_key_from_bytes. intros Hd Ho Hr. inv_result. bool_facts.
  split; [split; [by eapply read_slice_32 | done] | done].
Qed.

Lemma nullifier_of_bytes raw b : bytes_wf 32 raw -> nullifier_from_bytes raw = Ok b -> nullifier_wf b.
Proof. unfold nullifier_from_bytes. intros Hb Hr. inv_result. bool_facts. done. Qed.

Lemma read_nullifier_wf data offset b :
  Forall is_byte data -> 0 <= offset -> read_nullifier data offset = Ok b -> nullifier_wf b.
Proof.
  unfold read_nullifier. intros Hd Ho Hr. inv_result. eapply nullifier_of_bytes; [by eapply read_slice_32 | done].
Qed.

Lemma from_le_is_u (n : nat) (b : bytes) : Forall is_byte b -> List.length b = n -> is_u (8 * Z.of_nat n) (from_le_bytes b).
Proof.
  intros Hb <-. pose proof (from_le_bytes_bound b Hb) as Hbound. unfold is_u.
  rewrite Z.pow_mul_r by lia. exact Hbound.
Qed.

Lemma read_u64_wf data offset (v : Z) : Forall is_byte data -> 0 <= offset -> read_u64 data offset = Ok v -> is_u64 v.
Proof.
  unfold read_u64. intros Hd Ho Hr. inv_result. unfold read_field in E. apply read_slice_inv in E as [Hb Hl]; [| done..].
  apply (from_le_is_u 8); [done | lia].
Qed.

Lemma read_len_wf data offset (v : Z) : Forall is_byte data -> 0 <= offset -> read_len data offset = Ok v -> is_u32 v.
Proof.
  unfold read_len. intros Hd Ho Hr. inv_result. unfold read_field in E. apply read_slice_inv in E as [Hb Hl]; [| done..].
  apply (from_le_is_u 4); [done | lia].
Qed.

Lemma read_byte_wf data offset (v : Z) : Forall is_byte data -> 0 <= offset -> read_byte data offset = Ok v -> is_byte v.
Proof.
  unfold read_byte. intros Hd Ho Hr. inv_result. apply read_slice_inv in E as [Hb Hl]; [| done..].
  match goal with Hr : ok_or (head ?l) _ = Ok _ |- _ => destruct l as [| x l']; [done |]; cbn in Hr; injection Hr as <- end.
  by inversion Hb.
Qed.
End decoded.

(** One read of a decoder: its result is well-formed. *)
Ltac read_wf :=
  repeat match goal with
  | E : read_base _ _ _ = Ok _ |- _ => apply read_base_wf in E; [| done | lia]
  | E : read_scalar _ _ _ = Ok _ |- _ => apply read_scalar_wf in E; [| done | lia]
  | E : read_point _ _ _ = Ok _ |- _ => apply read_point_wf in E; [| done | lia]
  | E : read_public_key _ _ = Ok _ |- _ => apply read_key_wf in E; [| done | lia]
  | E : read_nullifier _ _ = Ok _ |- _ => apply read_nullifier_wf in E; [| done | lia]
  | E : read_u64 _ _ = Ok _ |- _ => apply read_u64_wf in E; [| done | lia]
  | E : read_byte _ _ = Ok _ |- _ => apply read_byte_wf in E; [| done | lia]
  | E : read_slice _ _ _ = Ok _ |- _ => apply read_slice_inv in E as [? ?]; [| done | lia | done]
  end.

Section params.
Context `{Externals}.
Implicit Types (data raw : bytes).

Lemma attrs_decoded data (a : CommitmentAttributes.t) :
  Forall is_byte data -> CommitmentAttributes.dec data = Ok a -> attrs_wf a.
Proof. unfold CommitmentAttributes.dec. intros Hd Hr. inv_result. read_wf. done. Qed.

Lemma input_decoded data (i : Input.t) : Forall is_byte data -> Input.dec data = Ok i -> input_wf i.
Proof. unfold Input.dec. intros Hd Hr. inv_result. read_wf. done. Qed.

Lemma clear_input_decoded data (c : ClearInput.t) : Forall is_byte data -> ClearInput.dec data = Ok c -> clear_input_wf c.
Proof. unfold ClearInput.dec. intros Hd Hr. inv_result. read_wf. done. Qed.

#[export] Instance point_codec_canonical : CodecCanonical point_codec point_wf.
Proof.
  apply mk_codec_canonical. intros bs h rest Hb Hd. inv_result.
  apply read_exact_inv in E as [-> Hl]. apply Forall_app in Hb as [Hb _]. done.
Qed.

#[export] Instance public_key_codec_canonical : CodecCanonical public_key_codec key_wf.
Proof.
  apply mk_codec_canonical. intros bs h rest Hb Hd. inv_result. apply decode_sound in E as [Hw ->]; [| done].
  unfold public_key_from_bytes in *. destruct (point_canonical _); [| done]. destruct (bool_decide _) eqn:Ei; [done |].
  bool_facts. simplify_eq. by split.
Qed.

#[export] Instance note_codec_canonical : CodecCanonical note_codec note_wf.
Proof.
  apply mk_codec_canonical. intros bs n rest Hb Hd. inv_result.
  apply decode_sound in E as [? ->]; [| done]. apply Forall_app in Hb as [_ Hb].
  apply decode_sound in E0 as [? ->]; [| done]. cbn. by rewrite app_assoc.
Qed.

Lemma output_decoded data (o : Output.t) : Forall is_byte data -> Output.dec data = Ok o -> output_wf o.
Proof.
  unfold Output.dec. intros Hd Hr. inv_result;
    match goal with E : read_len data _ = Ok _ |- _ => apply read_len_wf in E as [Hl _]; [| done | lia] end;
    match goal with E : read_slice data 132 _ = Ok _ |- _ => apply read_slice_inv in E as [Hraw Hlen]; [| done | lia | done] end;
    match goal with En : deserialize note_codec _ = Ok _ |- _ => apply (serialize_deserialize note_codec note_wf) in En as [Hn En]; [| done] end;
    match goal with E : (MAX_NOTE_LEN <? _) = false |- _ => apply Z.ltb_ge in E end;
    match goal with E : read_field 32 data 96 = Ok _ |- _ => apply read_slice_32 in E; [| done | lia] end;
    read_wf; subst; unfold output_wf; cbn [Output.value_commit Output.token_commit Output.commitment Output.nullifier Output.note from_option];
    split_and!; try done; try lia.
  by eapply nullifier_of_bytes.
Qed.

Lemma read_output_decoded data (offset : Z) (o : Output.t) (pos : Z) :
  Forall is_byte data -> 0 <= offset -> read_output data offset = Ok (o, pos) -> output_wf o /\ 0 <= pos.
Proof.
  unfold read_output. intros Hd Ho Hr. inv_result.
  match goal with E : read_len data _ = Ok _ |- _ => apply read_len_wf in E as [Hl _]; [| done | lia] end.
  match goal with E : read_slice data _ _ = Ok _ |- _ => apply read_slice_inv in E as [Hraw _]; [| done | lia | lia] end.
  split; [by eapply output_decoded | lia].
Qed.

Lemma read_fixed_decoded {A : Type} (dec : bytes -> CRes A) (P : A -> Prop) (size : Z) (n : nat) data (pos : Z) (l : list A) (p : Z) :
  (forall raw a, Forall is_byte raw -> dec raw = Ok a -> P a) -> Forall is_byte data -> 0 <= pos -> 0 <= size ->
  read_fixed dec size n data pos = Ok (l, p) -> Forall P l /\ 0 <= p /\ List.length l = n.
Proof.
  intros HP Hd Hpos Hsize. revert pos l p Hpos. induction n as [|n IH]; intros pos l p Hpos Hr; cbn [read_fixed] in Hr.
  - by inversion Hr; subst.
  - unfold at_least in Hr. inv_result.
    match goal with E : read_slice data _ _ = Ok _ |- _ => apply read_slice_inv in E as [Hraw _]; [| done..] end.
    edestruct IH as (Hl & Hp & Hn); [| eassumption |]; [lia |].
    split_and!; [constructor; [by eapply HP | done] | done | cbn; lia].
Qed.

Lemma read_framed_decoded {A : Type} (dec : bytes -> CRes A) (P : A -> Prop) (n : nat) data (pos : Z) (l : list A) (p : Z) :
  (forall raw a, Forall is_byte raw -> dec raw = Ok a -> P a) -> Forall is_byte data -> 0 <= pos ->
  read_framed dec n data pos = Ok (l, p) -> Forall P l /\ 0 <= p /\ List.length l = n.
Proof.
  intros HP Hd. revert pos l p. induction n as [|n IH]; intros pos l p Hpos Hr; cbn [read_framed] in Hr.
  - by inversion Hr; subst.
  - unfold at_least in Hr. inv_result.
    match goal with E : read_len data _ = Ok _ |- _ => apply read_len_wf in E as [Hl _]; [| done | lia] end.
    match goal with E : read_slice data _ _ = Ok _ |- _ => apply read_slice_inv in E as [Hraw _]; [| done | lia | done] end.
    edestruct IH as (Hf & Hp & Hn); [| eassumption |]; [lia |].
    split_and!; [constructor; [by eapply HP | done] | done | cbn; lia].
Qed.
End params.

(** The structures of a decoder: their fields, then the reads around them. *)
Ltac decoded :=
  unfold at_least in *; inv_result;
  repeat match goal with
  | E : read_output _ _ = Ok _ |- _ => apply read_output_decoded in E as [? ?]; [| done | lia]
  | E : read_slice _ _ _ = Ok _ |- _ => apply read_slice_inv in E as [? ?]; [| done | lia | done]
  | E : Input.dec _ = Ok _ |- _ => apply input_decoded in E; [| done]
  | E : ClearInput.dec _ = Ok _ |- _ => apply clear_input_decoded in E; [| done]
  | E : CommitmentAttributes.dec _ = Ok _ |- _ => apply attrs_decoded in E; [| done]
  end; read_wf.

Section theorems.
Context `{Externals}.
Implicit Types (data : bytes).

Lemma pow_decoded data (p : PoWRewardParamsV1.t) : Forall is_byte data -> PoWRewardParamsV1.dec data = Ok p -> pow_params_wf p.
Proof. unfold PoWRewardParamsV1.dec, ClearInput.ENCODED_SIZE, CommitmentAttributes.ENCODED_SIZE. intros Hd Hr. decoded. done. Qed.

Lemma uncle_mint_decoded data (p : UncleMintParamsV1.t) :
  Forall is_byte data -> UncleMintParamsV1.dec data = Ok p -> uncle_mint_params_wf p.
Proof.
  unfold UncleMintParamsV1.dec, UncleMintParamsV1.TRAILER_SIZE, ClearInput.ENCODED_SIZE, CommitmentAttributes.ENCODED_SIZE.
  intros Hd Hr. decoded. done.
Qed.

Lemma spend_decoded data (p : SpendParamsV1.t) : Forall is_byte data -> SpendParamsV1.dec data = Ok p -> spend_params_wf p.
Proof. unfold SpendParamsV1.dec, Input.ENCODED_SIZE. intros Hd Hr. decoded. done. Qed.

Lemma fee_collect_decoded data (p : FeeCollectParamsV1.t) :
  Forall is_byte data -> FeeCollectParamsV1.dec data = Ok p -> fee_collect_params_wf p.
Proof. unfold FeeCollectParamsV1.dec. intros Hd Hr. decoded. done. Qed.

Lemma fee_decoded data (p : FeeParamsV3.t) : Forall is_byte data -> FeeParamsV3.dec data = Ok p -> fee_params_wf p.
Proof.
  unfold FeeParamsV3.dec, Input.ENCODED_SIZE. intros Hd Hr. unfold at_least in Hr. inv_result.
  match goal with Hr : match FeeTier.new ?b with _ => _ end = _ |- _ => destruct (FeeTier.new b) end; [| done].
  unfold read_field in *. decoded. bool_facts.
  unfold fee_params_wf. cbn [FeeParamsV3.input FeeParamsV3.output FeeParamsV3.fee FeeParamsV3.fee_value_commit FeeParamsV3.tx_nonce].
  split_and!; try done; (split; [split; [lia | done] | done]).
Qed.

Lemma burn_decoded data (p : BurnParamsV1.t) : Forall is_byte data -> BurnParamsV1.dec data = Ok p -> burn_params_wf p.
Proof.
  unfold BurnParamsV1.dec. intros Hd Hr. unfold at_least in Hr. inv_result.
  match goal with E : read_len data _ = Ok _ |- _ => apply read_len_wf in E as Hu; [| done | lia] end.
  match goal with E : read_fixed _ _ _ _ _ = Ok _ |- _ =>
    apply (read_fixed_decoded _ input_wf) in E as (Hi & Hp & Hn); [| by apply input_decoded | done..] end.
  read_wf. split_and!; [done | | done]. cbn [BurnParamsV1.inputs]. rewrite Hn. destruct Hu. split; lia.
Qed.

Lemma transfer_decoded data (p : TransferParamsV1.t) :
  Forall is_byte data -> TransferParamsV1.dec data = Ok p -> transfer_params_wf p.
Proof.
  unfold TransferParamsV1.dec. intros Hd Hr. unfold at_least in Hr. inv_result.
  match goal with E : read_fixed _ _ _ _ _ = Ok _ |- _ =>
    apply (read_fixed_decoded _ input_wf) in E as (Hi & Hp & Hn); [| by apply input_decoded | done..] end.
  match goal with E : read_framed _ _ _ _ = Ok _ |- _ =>
    apply (read_framed_decoded _ output_wf) in E as (Ho & Hq & Hm); [| by apply output_decoded | done | lia] end.
  repeat match goal with E : read_len data _ = Ok _ |- _ => apply read_len_wf in E; [| done | lia] end.
  read_wf. split_and!; [done | done | | | done]; cbn [TransferParamsV1.inputs TransferParamsV1.outputs];
    rewrite ?Hn, ?Hm; unfold is_u in *; lia.
Qed.

(** C25: whatever bytes the decoders of the native token's calls are given, the
    parameters they return are well-formed: every field element, scalar and
    point is canonical, no key is the identity, no nullifier is zero, every
    amount fits its machine integer and every count its length prefix. *)
Theorem decoded_params_wf data :
  Forall is_byte data ->
  (forall p, PoWRewardParamsV1.dec data = Ok p -> pow_params_wf p) /\
  (forall p, UncleMintParamsV1.dec data = Ok p -> uncle_mint_params_wf p) /\
  (forall p, FeeParamsV3.dec data = Ok p -> fee_params_wf p) /\
  (forall p, FeeCollectParamsV1.dec data = Ok p -> fee_collect_params_wf p) /\
  (forall p, TransferParamsV1.dec data = Ok p -> transfer_params_wf p) /\
  (forall p, SpendParamsV1.dec data = Ok p -> spend_params_wf p) /\
  (forall p, BurnParamsV1.dec data = Ok p -> burn_params_wf p).
Proof.
  intros Hd. split_and!; intros p.
  - by apply pow_decoded.
  - by apply uncle_mint_decoded.
  - by apply fee_decoded.
  - by apply fee_collect_decoded.
  - by apply transfer_decoded.
  - by apply spend_decoded.
  - by apply burn_decoded.
Qed.
End theorems.

Definition sample_bytes : bytes := match @TransferParamsV1.enc toy sample_transfer with Ok b => b | Err _ => [] end.

Lemma decoded_params_wf_witness :
  Forall is_byte sample_bytes /\ @TransferParamsV1.dec toy sample_bytes = Ok sample_transfer /\
  @transfer_params_wf toy sample_transfer.
Proof.
  assert (Forall is_byte sample_bytes) as Hb by (apply forallb_is_byte; vm_compute; reflexivity).
  split_and!; [exact Hb | vm_compute; reflexivity |].
  apply (@decoded_params_wf toy sample_bytes Hb). vm_compute. reflexivity.
Defined.
