(* ===== verification/FeeWindow.v ===== *)
(** * The fee window ([src/linear/src/fee_window.rs])

    Congestion factors for the circuit and the WASM axis, a premium and a
    standard tier each, adjusted every [FeeWindowId.WINDOW_SIZE] blocks from the
    demand of the completed window.  [FeeWindowState] keeps the factors in force
    and those of the previous window; the atomics and mutexes of its eight cells
    are fields of the record.  Also the fee formulas the mempool uses. *)

From Stdlib Require Import String.
From S2P Require Import Prelude F64 Units Serial Externals Transaction Block Store Consensus NativeToken.

(** ** Signalling bytes *)

Module WindowSignalling.
Definition LEGACY : Z := 0x00.
Definition FEE_WINDOW_ACTIVE : Z := 0x01.
Definition CM_SHIFT : Z := 4.
Definition CM_MASK : Z := 0xF0.

Definition is_active (v : Z) : bool := negb (Z.land v FEE_WINDOW_ACTIVE =? 0).

Definition encode_cm (ratio_index : Z) : Z :=
  Z.lor FEE_WINDOW_ACTIVE (wrap 8 (Z.shiftl (Z.land ratio_index 0x0F) CM_SHIFT)).

Definition congestion_multiplier (v : Z) : Z := Z.shiftr (Z.land v CM_MASK) CM_SHIFT.
End WindowSignalling.

(** ** Factors *)

(** [CfValue] is a [u32] in units of [CfValue::SCALE]. *)
Definition CF_SCALE : Z := 1000000.

Record CongestionFactor := { premium : Z; standard : Z }.

Definition cf_identity : CongestionFactor := {| premium := CF_SCALE; standard := CF_SCALE |}.

(** [CongestionFactor::new] keeps the tiers ordered. *)
Definition cf_new (p s : Z) : CongestionFactor := {| premium := Z.max p s; standard := s |}.

Module FeeWindowFlags.
Definition pack (circuit wasm : Z) : Z := Z.lor circuit (Z.shiftl wasm 8).
Definition circuit_byte (f : Z) : Z := Z.land f 0xFF.
Definition wasm_byte (f : Z) : Z := Z.land (Z.shiftr f 8) 0xFF.
Definition is_active (f : Z) : bool :=
  WindowSignalling.is_active (circuit_byte f) || WindowSignalling.is_active (wasm_byte f).

Definition byte_cf (b : Z) : CongestionFactor :=
  if WindowSignalling.is_active b then
    let cm := WindowSignalling.congestion_multiplier b in
    {| premium := if cm =? 0x01 then CF_SCALE * 110 / 100
                  else if cm =? 0x02 then CF_SCALE * 90 / 100 else CF_SCALE;
       standard := CF_SCALE |}
  else cf_identity.

Definition derive_cfs (f : Z) : CongestionFactor * CongestionFactor := (byte_cf (circuit_byte f), byte_cf (wasm_byte f)).
End FeeWindowFlags.

(** ** Fees *)

Definition BASELINE_STORAGE : Z := 1000000.

Definition compute_storage_fee (wasm_kb : Z) : Z := wrap 64 (wasm_kb * BASELINE_STORAGE).

Definition compute_fee_v3 (gas : Z) (cf : CongestionFactor) (tier : FeeTier.t) (risk : Z) : Z :=
  let cf_val := if bool_decide (tier = FeeTier.HIGH) then premium cf else standard cf in
  let num := wrap 128 (gas * cf_val * FeeTier.tier_multiplier tier * risk) in
  let den := CF_SCALE * RiskFactor.SCALE in
  wrap 64 (num / den).

Definition attestation_risk_factor (is_genesis has_manifest : bool) : Z :=
  if is_genesis then RiskFactor.BASELINE else if has_manifest then 150000 else RiskFactor.MAX.

(** ** Configuration and state *)

Record FeeWindowConfig := {
  window_size : Z; alpha_premium : f64; alpha_standard : f64; max_adjustment : f64;
  high_water : f64; low_water : f64
}.

Definition FeeWindowConfig_default : FeeWindowConfig := {|
  window_size := 20; alpha_premium := literal 5 100; alpha_standard := literal 1 100;
  max_adjustment := literal 10 100; high_water := literal 75 100; low_water := literal 25 100 |}.

Record FeeWindowState := {
  config : FeeWindowConfig;
  circuit_premium_cf : Z; circuit_standard_cf : Z;
  circuit_prev_premium_cf : Z; circuit_prev_standard_cf : Z;
  wasm_premium_cf : Z; wasm_standard_cf : Z;
  wasm_prev_premium_cf : Z; wasm_prev_standard_cf : Z
}.

Definition FeeWindowState_new (c : FeeWindowConfig) : FeeWindowState := {|
  config := c;
  circuit_premium_cf := CF_SCALE; circuit_standard_cf := CF_SCALE;
  circuit_prev_premium_cf := CF_SCALE; circuit_prev_standard_cf := CF_SCALE;
  wasm_premium_cf := CF_SCALE; wasm_standard_cf := CF_SCALE;
  wasm_prev_premium_cf := CF_SCALE; wasm_prev_standard_cf := CF_SCALE |}.

Definition circuit_cf (w : FeeWindowState) : CongestionFactor :=
  {| premium := circuit_premium_cf w; standard := circuit_standard_cf w |}.

Definition wasm_cf (w : FeeWindowState) : CongestionFactor :=
  {| premium := wasm_premium_cf w; standard := wasm_standard_cf w |}.

(** [log2] of [compute_cf]: [ilog2(x + 1)], saturating. *)
Definition pending_log2 (x : Z) : Z := if x =? 0 then 0 else Z.log2 (saturating_add 64 x 1).

Definition order_tiers (p s premium_pending standard_pending : Z) : Z * Z :=
  if (p <=? s) && ((0 <? premium_pending) || (0 <? standard_pending))
  then (saturating_add 32 s 1, s) else (p, s).

Definition compute_cf (premium_pending standard_pending : Z) (ap as_ : f64) : CongestionFactor :=
  let scale := of_uint CF_SCALE in
  let factor alpha pending :=
    saturating_add 32 CF_SCALE
      (to_uint 32 (f64_mul (f64_mul alpha scale) (of_uint (pending_log2 pending)))) in
  let '(p, s) := order_tiers (factor ap premium_pending) (factor as_ standard_pending)
                   premium_pending standard_pending in
  {| premium := p; standard := s |}.

(** The cap around the previous value.  [u32::clamp] asserts that its bounds are
    ordered; [cap_bounds] shows that they are under the default configuration. *)
Definition cap_max (prev : Z) (max_adj : f64) : Z := to_uint 32 (f64_mul (of_uint prev) (f64_add (of_uint 1) max_adj)).
Definition cap_min (prev : Z) (max_adj : f64) : Z := to_uint 32 (f64_mul (of_uint prev) (f64_sub (of_uint 1) max_adj)).

Definition cap_one (prev raw : Z) (max_adj : f64) : Z :=
  if 0 <? prev then clamp raw (cap_min prev max_adj) (cap_max prev max_adj) else raw.

Definition cap_with (prev_p prev_s : Z) (raw : CongestionFactor) (max_adj : f64)
    (premium_pending standard_pending : Z) : CongestionFactor :=
  let '(p, s) := order_tiers (cap_one prev_p (premium raw) max_adj) (cap_one prev_s (standard raw) max_adj)
                   premium_pending standard_pending in
  cf_new p s.

(** ** Adjustment at a window boundary *)

Record WindowCounts := { count_premium : Z; count_standard : Z }.

Definition set_circuit (cf : CongestionFactor) (w : FeeWindowState) : FeeWindowState := {|
  config := config w;
  circuit_premium_cf := premium cf; circuit_standard_cf := standard cf;
  circuit_prev_premium_cf := premium cf; circuit_prev_standard_cf := standard cf;
  wasm_premium_cf := wasm_premium_cf w; wasm_standard_cf := wasm_standard_cf w;
  wasm_prev_premium_cf := wasm_prev_premium_cf w; wasm_prev_standard_cf := wasm_prev_standard_cf w |}.

Definition set_wasm (cf : CongestionFactor) (w : FeeWindowState) : FeeWindowState := {|
  config := config w;
  circuit_premium_cf := circuit_premium_cf w; circuit_standard_cf := circuit_standard_cf w;
  circuit_prev_premium_cf := circuit_prev_premium_cf w; circuit_prev_standard_cf := circuit_prev_standard_cf w;
  wasm_premium_cf := premium cf; wasm_standard_cf := standard cf;
  wasm_prev_premium_cf := premium cf; wasm_prev_standard_cf := standard cf |}.

Definition adjust_circuit (premium_pending standard_pending : Z) (w : FeeWindowState) : FeeWindowState * CongestionFactor :=
  let raw := compute_cf premium_pending standard_pending (alpha_premium (config w)) (alpha_standard (config w)) in
  let cf := cap_with (circuit_prev_premium_cf w) (circuit_prev_standard_cf w) raw
              (max_adjustment (config w)) premium_pending standard_pending in
  (set_circuit cf w, cf).

Definition adjust_wasm (premium_pending standard_pending : Z) (w : FeeWindowState) : FeeWindowState * CongestionFactor :=
  let raw := compute_cf premium_pending standard_pending (alpha_premium (config w)) (alpha_standard (config w)) in
  let cf := cap_with (wasm_prev_premium_cf w) (wasm_prev_standard_cf w) raw
              (max_adjustment (config w)) premium_pending standard_pending in
  (set_wasm cf w, cf).

Definition adjust_from_window (counts : WindowCounts) (w : FeeWindowState) :
    FeeWindowState * (CongestionFactor * CongestionFactor) :=
  let '(w1, circuit) := adjust_circuit (count_premium counts) (count_standard counts) w in
  let '(w2, wasm) := adjust_wasm (count_premium counts) (count_standard counts) w1 in
  (w2, (circuit, wasm)).

Definition derive_window (counts : WindowCounts) (w : FeeWindowState) : CongestionFactor * CongestionFactor :=
  let cfg := config w in
  let raw := compute_cf (count_premium counts) (count_standard counts) (alpha_premium cfg) (alpha_standard cfg) in
  (cap_with (circuit_prev_premium_cf w) (circuit_prev_standard_cf w) raw (max_adjustment cfg)
     (count_premium counts) (count_standard counts),
   cap_with (wasm_prev_premium_cf w) (wasm_prev_standard_cf w) raw (max_adjustment cfg)
     (count_premium counts) (count_standard counts)).

(** [encode_byte] of [encode_flags_for]: up, down or hold, against the previous
    premium factor. *)
Definition encode_byte (cf : CongestionFactor) (prev : Z) : Z :=
  if (prev =? 0) || (prev =? CF_SCALE) then WindowSignalling.encode_cm 0x00
  else
    let ratio := f64_div (of_uint (premium cf)) (of_uint prev) in
    if SpecFloat.SFltb (literal 105 100) ratio then WindowSignalling.encode_cm 0x01
    else if SpecFloat.SFltb ratio (literal 95 100) then WindowSignalling.encode_cm 0x02
    else WindowSignalling.encode_cm 0x00.

Definition encode_flags_for (w : FeeWindowState) (circuit wasm : CongestionFactor) : Z :=
  FeeWindowFlags.pack (encode_byte circuit (circuit_prev_premium_cf w)) (encode_byte wasm (wasm_prev_premium_cf w)).

Definition encode_flags (w : FeeWindowState) : Z := encode_flags_for w (circuit_cf w) (wasm_cf w).

(** ** Snapshots *)

Record FeeWindowSnapshot := { snap_circuit : CongestionFactor; snap_wasm : CongestionFactor }.

Definition snapshot_identity : FeeWindowSnapshot :=
  {| snap_circuit := cf_new CF_SCALE CF_SCALE; snap_wasm := cf_new CF_SCALE CF_SCALE |}.

Definition snapshot (w : FeeWindowState) : FeeWindowSnapshot := {|
  snap_circuit := cf_new (circuit_premium_cf w) (circuit_standard_cf w);
  snap_wasm := cf_new (wasm_premium_cf w) (wasm_standard_cf w) |}.

(** [restore] through [store_settled]. *)
Definition restore (s : FeeWindowSnapshot) (w : FeeWindowState) : FeeWindowState :=
  set_wasm (snap_wasm s) (set_circuit (snap_circuit s) w).

Definition next_snapshot (prev : FeeWindowSnapshot) (counts : WindowCounts) (c : FeeWindowConfig) : FeeWindowSnapshot * Z :=
  let fw := restore prev (FeeWindowState_new c) in
  let '(circuit, wasm) := derive_window counts fw in
  ({| snap_circuit := circuit; snap_wasm := wasm |}, encode_flags_for fw circuit wasm).

Definition FEE_WINDOW_LATEST_KEY : bytes := ascii_key "fee_window_latest".
Definition snapshot_key (h : Z) : bytes := ascii_key "fee_window_snapshot:" ++ BlockHeight.bytes h.

Definition snapshot_encode (s : FeeWindowSnapshot) : bytes :=
  to_le_bytes 4 (premium (snap_circuit s)) ++ to_le_bytes 4 (standard (snap_circuit s)) ++
  to_le_bytes 4 (premium (snap_wasm s)) ++ to_le_bytes 4 (standard (snap_wasm s)).

Definition snapshot_decode (b : bytes) : option FeeWindowSnapshot :=
  if negb (List.length b =? 16)%nat then None
  else
    let read offset := from_le_bytes (take 4 (drop offset b)) in
    Some {| snap_circuit := cf_new (read 0%nat) (read 4%nat); snap_wasm := cf_new (read 8%nat) (read 12%nat) |}.

Definition snapshot_read (t : Tree) (h : Z) : option FeeWindowSnapshot :=
  match t !! snapshot_key h with Some b => snapshot_decode b | None => None end.

Definition snapshot_latest (t : Tree) : option (Z * FeeWindowSnapshot) :=
  match t !! FEE_WINDOW_LATEST_KEY with
  | Some b =>
      if negb (List.length b =? 8)%nat then None
      else
        let h := from_le_bytes b in
        if h =? 0 then None
        else match snapshot_read t h with Some s => Some (h, s) | None => None end
  | None => None
  end.

(** The eight keys of the unversioned record. *)
Definition k_cp : bytes := ascii_key "fee_window_circuit_premium_cf".
Definition k_cs : bytes := ascii_key "fee_window_circuit_standard_cf".
Definition k_wp : bytes := ascii_key "fee_window_wasm_premium_cf".
Definition k_ws : bytes := ascii_key "fee_window_wasm_standard_cf".
Definition k_pcp : bytes := ascii_key "fee_window_circuit_prev_premium_cf".
Definition k_pcs : bytes := ascii_key "fee_window_circuit_prev_standard_cf".
Definition k_pwp : bytes := ascii_key "fee_window_wasm_prev_premium_cf".
Definition k_pws : bytes := ascii_key "fee_window_wasm_prev_standard_cf".

Definition insert_u32s (kvs : list (bytes * Z)) (t : Tree) : Tree :=
  foldl (fun t kv => <[kv.1 := to_le_bytes 4 kv.2]> t) t kvs.

(** [save_to_batch], applied to the tree. *)
Definition save_window (w : FeeWindowState) (t : Tree) : Tree :=
  insert_u32s [(k_cp, circuit_premium_cf w); (k_cs, circuit_standard_cf w);
    (k_wp, wasm_premium_cf w); (k_ws, wasm_standard_cf w);
    (k_pcp, circuit_prev_premium_cf w); (k_pcs, circuit_prev_standard_cf w);
    (k_pwp, wasm_prev_premium_cf w); (k_pws, wasm_prev_standard_cf w)] t.

Definition save_snapshot (s : FeeWindowSnapshot) (h : Z) (t : Tree) : Tree :=
  <[FEE_WINDOW_LATEST_KEY := BlockHeight.bytes h]> (<[snapshot_key h := snapshot_encode s]> t).

(** [save_snapshot_to_batch]. *)
Definition save_boundary (w : FeeWindowState) (h : Z) (t : Tree) : Tree :=
  save_window w (save_snapshot (snapshot w) h t).

Definition write_legacy_keys (s : FeeWindowSnapshot) (t : Tree) : Tree :=
  let cp := premium (snap_circuit s) in let cs := standard (snap_circuit s) in
  let wp := premium (snap_wasm s) in let ws := standard (snap_wasm s) in
  insert_u32s [(k_cp, cp); (k_cs, cs); (k_wp, wp); (k_ws, ws); (k_pcp, cp); (k_pcs, cs); (k_pwp, wp); (k_pws, ws)] t.

(** [load]: the latest snapshot, or else the cells that are present; having
    read some of the eight but not all is an error after the fact. *)
Definition load_u32 (t : Tree) (k : bytes) (dflt : Z) : Z * Z :=
  match t !! k with
  | Some b => if (List.length b =? 4)%nat then (from_le_bytes b, 1) else (dflt, 0)
  | None => (dflt, 0)
  end.

Definition load_window (t : Tree) (w : FeeWindowState) : FeeWindowState * Res unit :=
  match snapshot_latest t with
  | Some (_, s) => (restore s w, Ok tt)
  | None =>
      let '(cp, n1) := load_u32 t k_cp (circuit_premium_cf w) in
      let '(cs, n2) := load_u32 t k_cs (circuit_standard_cf w) in
      let '(wp, n3) := load_u32 t k_wp (wasm_premium_cf w) in
      let '(ws, n4) := load_u32 t k_ws (wasm_standard_cf w) in
      let '(pcp, n5) := load_u32 t k_pcp (circuit_prev_premium_cf w) in
      let '(pcs, n6) := load_u32 t k_pcs (circuit_prev_standard_cf w) in
      let '(pwp, n7) := load_u32 t k_pwp (wasm_prev_premium_cf w) in
      let '(pws, n8) := load_u32 t k_pws (wasm_prev_standard_cf w) in
      let loaded := n1 + n2 + n3 + n4 + n5 + n6 + n7 + n8 in
      let w' := {| config := config w; circuit_premium_cf := cp; circuit_standard_cf := cs;
                   circuit_prev_premium_cf := pcp; circuit_prev_standard_cf := pcs;
                   wasm_premium_cf := wp; wasm_standard_cf := ws;
                   wasm_prev_premium_cf := pwp; wasm_prev_standard_cf := pws |} in
      if (0 <? loaded) && (loaded <? 8) then (w', Err (StorageError "fee_window: partial persistence"))
      else (w', Ok tt)
  end.

(** ** Demand *)

Section demand.
Context `{Externals}.

(** [completed_window_heights]. *)
Definition completed_window_heights (boundary : Z) : list Z :=
  let start := Z.max (saturating_sub boundary FeeWindowId.WINDOW_SIZE) 1 in
  map (fun i => start + Z.of_nat i) (seq 0 (Z.to_nat (boundary - start))).

(** [tx_demand]: premium, standard, or no FeeV3 call. *)
Fixpoint first_fee_v3 (cs : list ContractCall) : option (list Z) :=
  match cs with
  | [] => None
  | c :: rest => match as_mass_balance_fee_v3 c with Some p => Some p | None => first_fee_v3 rest end
  end.

Definition tx_demand (t : Transaction) : option bool :=
  match first_fee_v3 (contract_calls t) with
  | None => None
  | Some params =>
      Some (match FeeParamsV3.dec params with
            | Ok p => bool_decide (FeeParamsV3.tier p = FeeTier.HIGH)
            | Err _ => false
            end)
  end.

Definition count_tx (c : WindowCounts) (t : Transaction) : WindowCounts :=
  match tx_demand t with
  | Some true => {| count_premium := wrap 64 (count_premium c + 1); count_standard := count_standard c |}
  | Some false => {| count_premium := count_premium c; count_standard := wrap 64 (count_standard c + 1) |}
  | None => c
  end.

Definition window_counts (bs : list Block) : WindowCounts :=
  foldl (fun c b => foldl count_tx c (transactions b)) {| count_premium := 0; count_standard := 0 |} bs.
End demand.

(** ** Bounds under the default configuration *)

Abbreviation MAX_ADJ := (max_adjustment FeeWindowConfig_default).

Definition PREMIUM_MAX : Z := 4150000.
Definition STANDARD_MAX : Z := 1630000.

(** Cutting a scaled product: constants a hair above a tenth's multiple. *)
Lemma tenths_range (p c d t ten : Z) :
  0 < p < 2 ^ 32 -> 52 <= d -> 10 * c = ten * 2 ^ d + 2 \/ 10 * c = ten * 2 ^ d + 4 ->
  p * c / 2 ^ d <= t -> t * 2 ^ d <= p * c + 2 ^ 32 ->
  ten * p - 9 <= 10 * t <= ten * p.
Proof.
  intros Hp Hd Hc Hl Hu.
  assert (2 ^ 52 <= 2 ^ d) as Hbig by (apply Z.pow_le_mono_r; lia). change (2 ^ 52) with 4503599627370496 in Hbig.
  change (2 ^ 32) with 4294967296 in *. set (D := 2 ^ d) in *. split.
  - assert (p * c < (t + 1) * D).
    { assert (p * c / D < t + 1) as Hlt by lia. destruct (Z.lt_ge_cases (p * c) ((t + 1) * D)) as [? | Hge]; [done |].
      assert (t + 1 <= p * c / D) by (apply Z.div_le_lower_bound; lia). lia. }
    nia.
  - nia.
Qed.

Lemma cap_bounds (p : Z) :
  0 < p < 2 ^ 32 ->
  (exists t, cap_max p MAX_ADJ = Z.min (2 ^ 32 - 1) t /\ 11 * p - 9 <= 10 * t <= 11 * p) /\
  9 * p - 9 <= 10 * cap_min p MAX_ADJ <= 9 * p /\
  cap_min p MAX_ADJ <= cap_max p MAX_ADJ.
Proof.
  intros Hp. destruct p as [|q|q]; [lia | | lia].
  destruct (scaled_range q 4953959590107546 52) as (t & Et & Hl & Hu); [lia | lia | lia |].
  destruct (scaled_range q 8106479329266893 53) as (t' & Et' & Hl' & Hu'); [lia | lia | lia |].
  assert (cap_max (Zpos q) MAX_ADJ = Z.min (2 ^ 32 - 1) t) as E1 by exact Et.
  assert (cap_min (Zpos q) MAX_ADJ = Z.min (2 ^ 32 - 1) t') as E2 by exact Et'.
  assert (11 * Zpos q - 9 <= 10 * t <= 11 * Zpos q) as Ht
    by (apply (tenths_range _ 4953959590107546 52); [lia | lia | right; reflexivity | done | done]).
  assert (9 * Zpos q - 9 <= 10 * t' <= 9 * Zpos q) as Ht'
    by (apply (tenths_range _ 8106479329266893 53); [lia | lia | left; reflexivity | done | done]).
  rewrite E1, E2. split; [eauto |]. split; [lia |].
  destruct (Z.le_gt_cases 5 (Zpos q)) as [H5 | H5]; [lia |].
  assert (Zpos q = 1 \/ Zpos q = 2 \/ Zpos q = 3 \/ Zpos q = 4) as [E | [E | [E | E]]] by lia; rewrite E in Ht, Ht'; lia.
Qed.

Lemma raw_factors (k : nat) :
  (k < 64)%nat ->
  to_uint 32 (f64_mul (f64_mul (literal 5 100) (of_uint CF_SCALE)) (of_uint (Z.of_nat k))) = 50000 * Z.of_nat k /\
  to_uint 32 (f64_mul (f64_mul (literal 1 100) (of_uint CF_SCALE)) (of_uint (Z.of_nat k))) = 10000 * Z.of_nat k.
Proof.
  intros Hk. assert (forallb (fun k =>
    (to_uint 32 (f64_mul (f64_mul (literal 5 100) (of_uint CF_SCALE)) (of_uint (Z.of_nat k))) =? 50000 * Z.of_nat k) &&
    (to_uint 32 (f64_mul (f64_mul (literal 1 100) (of_uint CF_SCALE)) (of_uint (Z.of_nat k))) =? 10000 * Z.of_nat k))
    (seq 0 64) = true) as H by (vm_compute; reflexivity).
  rewrite forallb_forall in H. specialize (H k ltac:(apply in_seq; lia)).
  apply andb_true_iff in H as [H1 H2]. split; lia.
Qed.

Lemma pending_log2_range (x : Z) : is_u64 x -> exists k, pending_log2 x = Z.of_nat k /\ (k < 64)%nat.
Proof.
  intros Hx. unfold pending_log2. destruct (Z.eqb_spec x 0); [by exists 0%nat; split; [| lia] |].
  pose proof (saturating_add_is_u 64 x 1) as Hs. unfold is_u in *.
  assert (1 <= saturating_add 64 x 1) by (unfold saturating_add, umax; lia).
  exists (Z.to_nat (Z.log2 (saturating_add 64 x 1))).
  assert (0 <= Z.log2 (saturating_add 64 x 1) < 64) by (split; [apply Z.log2_nonneg |];
    apply Z.log2_lt_pow2; lia). lia.
Qed.

Lemma sat32_small (a b : Z) : 0 <= a + b < 2 ^ 32 -> saturating_add 32 a b = a + b.
Proof. unfold saturating_add, umax. lia. Qed.

Definition cf_ok (c : CongestionFactor) : Prop :=
  CF_SCALE <= standard c <= STANDARD_MAX /\ standard c <= premium c <= PREMIUM_MAX.

Abbreviation default_cf pp sp :=
  (compute_cf pp sp (alpha_premium FeeWindowConfig_default) (alpha_standard FeeWindowConfig_default)).

Lemma raw_ok (pp sp : Z) : is_u64 pp -> is_u64 sp -> cf_ok (default_cf pp sp).
Proof.
  intros Hp Hs. destruct (pending_log2_range pp Hp) as (k & Ek & Hk).
  destruct (pending_log2_range sp Hs) as (j & Ej & Hj). unfold compute_cf, order_tiers.
  change (alpha_premium FeeWindowConfig_default) with (literal 5 100).
  change (alpha_standard FeeWindowConfig_default) with (literal 1 100).
  rewrite Ek, Ej. destruct (raw_factors k Hk) as [-> _]. destruct (raw_factors j Hj) as [_ ->].
  unfold cf_ok, CF_SCALE, STANDARD_MAX, PREMIUM_MAX. rewrite !(sat32_small 1000000) by lia.
  destruct (Z.leb_spec (1000000 + 50000 * Z.of_nat k) (1000000 + 10000 * Z.of_nat j)) as [Hle | Hlt];
    cbn [andb]; [| cbn [premium standard]; lia].
  destruct ((0 <? pp) || (0 <? sp)) eqn:Epend; cbn [premium standard].
  - rewrite sat32_small by lia. lia.
  - apply orb_false_iff in Epend as [E1 E2]. apply Z.ltb_ge in E1, E2.
    assert (pp = 0) as -> by (unfold is_u in Hp; lia). assert (sp = 0) as -> by (unfold is_u in Hs; lia).
    cbn in Ek, Ej. lia.
Qed.

Lemma cap_one_range (prev raw top : Z) :
  CF_SCALE <= prev <= top -> CF_SCALE <= raw <= top -> top <= PREMIUM_MAX ->
  CF_SCALE <= cap_one prev raw MAX_ADJ <= top /\
  9 * prev - 9 <= 10 * cap_one prev raw MAX_ADJ <= 11 * prev.
Proof.
  unfold CF_SCALE, PREMIUM_MAX. intros Hp Hr Ht.
  destruct (cap_bounds prev) as ((t & Et & Hmax) & Hmin & Hle); [lia |].
  unfold cap_one, clamp. destruct (Z.ltb_spec 0 prev) as [_ | ?]; [| lia].
  destruct (Z.ltb_spec raw (cap_min prev MAX_ADJ)); [lia |].
  destruct (Z.ltb_spec (cap_max prev MAX_ADJ) raw); lia.
Qed.

(** One capped step of an axis whose previous factors are in range. *)
Lemma cap_with_range (prev raw : CongestionFactor) (pp sp : Z) :
  cf_ok prev -> cf_ok raw ->
  let c := cap_with (premium prev) (standard prev) raw MAX_ADJ pp sp in
  cf_ok c /\ (0 < pp \/ 0 < sp -> standard c < premium c) /\
  9 * standard prev - 9 <= 10 * standard c <= 11 * standard prev /\
  9 * premium prev - 9 <= 10 * premium c <= 11 * premium prev + 10.
Proof.
  intros [Hs Hp] [Hrs Hrp]. unfold cap_with, order_tiers.
  destruct (cap_one_range (premium prev) (premium raw) PREMIUM_MAX) as [H1 H2];
    [unfold PREMIUM_MAX, STANDARD_MAX in *; lia .. |].
  destruct (cap_one_range (standard prev) (standard raw) STANDARD_MAX) as [H3 H4];
    [unfold PREMIUM_MAX, STANDARD_MAX in *; lia .. |].
  set (p := cap_one (premium prev) _ _) in *. set (s := cap_one (standard prev) _ _) in *.
  unfold cf_ok, cf_new, PREMIUM_MAX, STANDARD_MAX, CF_SCALE in *.
  destruct (Z.leb_spec p s) as [Hle | Hlt]; cbn [andb]; [| cbn [premium standard]; lia].
  destruct (Z.ltb_spec 0 pp), (Z.ltb_spec 0 sp); cbn [orb]; try rewrite sat32_small by lia;
    cbn [premium standard]; lia.
Qed.

(** ** Reachable windows *)

(** The previous factors are the ones in force, on both axes. *)
Record window_ok (w : FeeWindowState) : Prop := {
  ok_config : config w = FeeWindowConfig_default;
  ok_circuit : cf_ok (circuit_cf w);
  ok_wasm : cf_ok (wasm_cf w);
  ok_settled : circuit_prev_premium_cf w = circuit_premium_cf w /\
    circuit_prev_standard_cf w = circuit_standard_cf w /\
    wasm_prev_premium_cf w = wasm_premium_cf w /\ wasm_prev_standard_cf w = wasm_standard_cf w
}.

Lemma cf_ok_identity : cf_ok cf_identity.
Proof. unfold cf_ok, cf_identity, CF_SCALE, STANDARD_MAX, PREMIUM_MAX. cbn. lia. Qed.

Lemma new_window_ok : window_ok (FeeWindowState_new FeeWindowConfig_default).
Proof. constructor; [done | apply cf_ok_identity | apply cf_ok_identity | done]. Qed.

Lemma cf_new_id (c : CongestionFactor) : cf_ok c -> cf_new (premium c) (standard c) = c.
Proof. intros [_ Hp]. destruct c as [p s]. unfold cf_new. cbn [premium standard] in *. f_equal. lia. Qed.

(** Restoring the snapshot of a reachable window gives the window back. *)
Lemma restore_snapshot (w w0 : FeeWindowState) :
  window_ok w -> config w0 = FeeWindowConfig_default -> restore (snapshot w) w0 = w.
Proof.
  intros [Hcfg Hc Hw Hs] H0. unfold restore, snapshot, set_wasm, set_circuit. cbn [snap_circuit snap_wasm].
  change (circuit_premium_cf w) with (premium (circuit_cf w)).
  change (circuit_standard_cf w) with (standard (circuit_cf w)).
  change (wasm_premium_cf w) with (premium (wasm_cf w)). change (wasm_standard_cf w) with (standard (wasm_cf w)).
  rewrite (cf_new_id (circuit_cf w) Hc), (cf_new_id (wasm_cf w) Hw).
  destruct w. cbn in *. destruct Hs as (-> & -> & -> & ->). by rewrite H0, Hcfg.
Qed.

(** One boundary from a reachable window. *)
Lemma window_step (w : FeeWindowState) (counts : WindowCounts) :
  window_ok w -> is_u64 (count_premium counts) -> is_u64 (count_standard counts) ->
  let w' := (adjust_from_window counts w).1 in
  window_ok w' /\
  Forall (fun '(old, new) =>
    (0 < count_premium counts \/ 0 < count_standard counts -> standard new < premium new) /\
    9 * standard old - 9 <= 10 * standard new <= 11 * standard old /\
    9 * premium old - 9 <= 10 * premium new <= 11 * premium old + 10)
    [(circuit_cf w, circuit_cf w'); (wasm_cf w, wasm_cf w')].
Proof.
  intros [Hcfg Hc Hw Hs] Hp Hst. pose proof (raw_ok _ _ Hp Hst) as Hraw.
  destruct (cap_with_range (circuit_cf w) _ (count_premium counts) (count_standard counts) Hc Hraw) as (A1 & A2 & A3 & A4).
  destruct (cap_with_range (wasm_cf w) _ (count_premium counts) (count_standard counts) Hw Hraw) as (B1 & B2 & B3 & B4).
  destruct Hs as (Es1 & Es2 & Es3 & Es4).
  unfold adjust_from_window, adjust_circuit, adjust_wasm. cbn [fst set_circuit set_wasm config
    circuit_prev_premium_cf circuit_prev_standard_cf wasm_prev_premium_cf wasm_prev_standard_cf].
  rewrite Hcfg, Es1, Es2, Es3, Es4. split.
  - constructor; [done | exact A1 | exact B1 | done].
  - constructor; [exact (conj A2 (conj A3 A4)) |]. constructor; [exact (conj B2 (conj B3 B4)) | constructor].
Qed.

(** ** Persistence *)

Lemma insert_u32s_ne (kvs : list (bytes * Z)) (t : Tree) (k : bytes) :
  k ∉ map fst kvs -> insert_u32s kvs t !! k = t !! k.
Proof.
  revert t. induction kvs as [|[k' v] kvs IH]; intros t Hk; [done |]. cbn [map fst] in Hk.
  apply not_elem_of_cons in Hk as [Hne Hk]. unfold insert_u32s. cbn [foldl fst snd].
  fold (insert_u32s kvs (<[k' := to_le_bytes 4 v]> t)). rewrite IH by done. by apply lookup_insert_ne.
Qed.

Lemma insert_u32s_elem (kvs : list (bytes * Z)) (t : Tree) (k : bytes) (v : Z) :
  NoDup (map fst kvs) -> (k, v) ∈ kvs -> insert_u32s kvs t !! k = Some (to_le_bytes 4 v).
Proof.
  revert t. induction kvs as [|[k' v'] kvs IH]; intros t Hnd Hk; [by apply not_elem_of_nil in Hk |].
  cbn [map fst] in Hnd. apply NoDup_cons in Hnd as [Hn Hnd]. unfold insert_u32s. cbn [foldl fst snd].
  fold (insert_u32s kvs (<[k' := to_le_bytes 4 v']> t)). apply elem_of_cons in Hk as [E | Hk].
  - injection E as -> ->. rewrite insert_u32s_ne by done. apply lookup_insert_eq.
  - by apply IH.
Qed.

Lemma window_keys_distinct : NoDup [k_cp; k_cs; k_wp; k_ws; k_pcp; k_pcs; k_pwp; k_pws].
Proof. apply (bool_decide_unpack _). vm_compute. exact I. Qed.

(** The snapshots live beside the eight cells. *)
Lemma snapshot_latest_save (w : FeeWindowState) (t : Tree) :
  snapshot_latest (save_window w t) = snapshot_latest t.
Proof.
  unfold snapshot_latest, snapshot_read, save_window. rewrite insert_u32s_ne.
  - destruct (t !! FEE_WINDOW_LATEST_KEY) as [b|]; [| done]. destruct (negb _); [done |].
    destruct (_ =? 0); [done |]. rewrite insert_u32s_ne; [done |].
    cbn [map fst]. unfold snapshot_key. rewrite !not_elem_of_cons. split_and!; try discriminate. apply not_elem_of_nil.
  - apply (bool_decide_unpack _). vm_compute. exact I.
Qed.

Lemma load_u32_saved (t : Tree) (k : bytes) (v d : Z) :
  t !! k = Some (to_le_bytes 4 v) -> is_u32 v -> load_u32 t k d = (v, 1).
Proof.
  intros E Hv. unfold load_u32. rewrite E, to_le_bytes_length. cbn [Nat.eqb].
  by rewrite le_bytes_roundtrip.
Qed.

Lemma cf_ok_u32 (c : CongestionFactor) : cf_ok c -> is_u32 (premium c) /\ is_u32 (standard c).
Proof. unfold cf_ok, is_u, CF_SCALE, PREMIUM_MAX, STANDARD_MAX. lia. Qed.

Lemma snapshot_decode_encode (c x : CongestionFactor) :
  cf_ok c -> cf_ok x ->
  snapshot_decode (snapshot_encode {| snap_circuit := c; snap_wasm := x |}) =
  Some {| snap_circuit := c; snap_wasm := x |}.
Proof.
  intros Hc Hx. destruct (cf_ok_u32 c Hc), (cf_ok_u32 x Hx).
  unfold snapshot_decode, snapshot_encode. cbn [snap_circuit snap_wasm].
  rewrite !length_app, !to_le_bytes_length. cbn [Nat.add Nat.eqb negb].
  assert (forall v rest, take 4 (to_le_bytes 4 v ++ rest) = to_le_bytes 4 v) as T
    by (intros; by rewrite take_app_length' by (by rewrite to_le_bytes_length)).
  assert (forall v rest, drop 4 (to_le_bytes 4 v ++ rest) = rest) as D
    by (intros; by rewrite drop_app_length' by (by rewrite to_le_bytes_length)).
  change 12%nat with (4 + (4 + 4))%nat. change 8%nat with (4 + 4)%nat. rewrite drop_0, <- !drop_drop, !D, !T.
  rewrite (take_ge (to_le_bytes 4 (standard x))) by (by rewrite to_le_bytes_length).
  rewrite !le_bytes_roundtrip by done. by rewrite !cf_new_id.
Qed.

Lemma snapshot_latest_boundary (w : FeeWindowState) (t : Tree) (h : Z) :
  window_ok w -> is_u64 h -> h <> 0 ->
  snapshot_latest (save_snapshot (snapshot w) h t) = Some (h, snapshot w).
Proof.
  intros Hw Hh Hne. unfold snapshot_latest, save_snapshot. rewrite lookup_insert_eq.
  unfold BlockHeight.bytes. rewrite to_le_bytes_length. cbn [Nat.eqb negb]. rewrite le_bytes_roundtrip by done.
  rewrite (proj2 (Z.eqb_neq h 0) Hne). unfold snapshot_read.
  rewrite lookup_insert_ne by (unfold snapshot_key; discriminate). rewrite lookup_insert_eq.
  assert (snapshot w = {| snap_circuit := circuit_cf w; snap_wasm := wasm_cf w |}) as ->.
  { unfold snapshot. f_equal; [exact (cf_new_id _ (ok_circuit w Hw)) | exact (cf_new_id _ (ok_wasm w Hw))]. }
  by rewrite snapshot_decode_encode by (apply Hw).
Qed.

(** Without a snapshot, all eight cells are read back. *)
Lemma load_cells (w w0 : FeeWindowState) (t : Tree) :
  window_ok w -> config w0 = FeeWindowConfig_default -> snapshot_latest t = None ->
  load_window (save_window w t) w0 = (w, Ok tt).
Proof.
  intros [Hcfg Hc Hx Hs] H0 E. unfold load_window. rewrite snapshot_latest_save, E.
  destruct (cf_ok_u32 _ Hc) as [Hc1 Hc2]. destruct (cf_ok_u32 _ Hx) as [Hx1 Hx2].
  cbn [premium standard circuit_cf wasm_cf] in *. destruct Hs as (E1 & E2 & E3 & E4).
  unfold save_window. set (kvs := [(k_cp, _); _; _; _; _; _; _; _]).
  assert (forall i k v d, kvs !! i = Some (k, v) -> is_u32 v -> load_u32 (insert_u32s kvs t) k d = (v, 1)) as L.
  { intros i k v d Hi Hv. apply load_u32_saved; [| done]. apply insert_u32s_elem; [exact window_keys_distinct |].
    by eapply list_elem_of_lookup_2. }
  rewrite (L 0%nat k_cp (circuit_premium_cf w)), (L 1%nat k_cs (circuit_standard_cf w)),
    (L 2%nat k_wp (wasm_premium_cf w)), (L 3%nat k_ws (wasm_standard_cf w)),
    (L 4%nat k_pcp (circuit_prev_premium_cf w)), (L 5%nat k_pcs (circuit_prev_standard_cf w)),
    (L 6%nat k_pwp (wasm_prev_premium_cf w)), (L 7%nat k_pws (wasm_prev_standard_cf w)) by (done || congruence).
  rewrite H0, <- Hcfg. destruct w. reflexivity.
Qed.

(** ** Properties *)

(** a window boundary moves each factor by at most ten per cent (one unit
    more for the premium, which is lifted above the standard when both meet),
    keeps every factor between 1.0 and its ceiling (4.15 premium, 1.63 standard)
    and the tiers ordered, strictly when the window had any demand: whatever the
    counts, from any reachable window, on both axes, with the binary64 rounding
    of the source. *)
Lemma window_step_bounded (w : FeeWindowState) (counts : WindowCounts) :
  window_ok w -> is_u64 (count_premium counts) -> is_u64 (count_standard counts) ->
  let w' := (adjust_from_window counts w).1 in
  window_ok w' /\
  Forall (fun '(old, new) =>
    (0 < count_premium counts \/ 0 < count_standard counts -> standard new < premium new) /\
    9 * standard old - 9 <= 10 * standard new <= 11 * standard old /\
    9 * premium old - 9 <= 10 * premium new <= 11 * premium old + 10)
    [(circuit_cf w, circuit_cf w'); (wasm_cf w, wasm_cf w')].
Proof. apply window_step. Qed.

(** Announcement and application agree.  What a miner derives read-only for
    the boundary, what a wallet derives from the previous snapshot alone, and
    what connecting the boundary block stores are the same factors and flags. *)
Lemma window_announced (w : FeeWindowState) (counts : WindowCounts) :
  window_ok w -> is_u64 (count_premium counts) -> is_u64 (count_standard counts) ->
  let '(w', (circuit, wasm)) := adjust_from_window counts w in
  derive_window counts w = (circuit, wasm) /\ (circuit_cf w', wasm_cf w') = (circuit, wasm) /\
  next_snapshot (snapshot w) counts FeeWindowConfig_default = (snapshot w', encode_flags_for w circuit wasm).
Proof.
  intros Hw Hp Hst. pose proof (proj1 (window_step w counts Hw Hp Hst)) as Hw'.
  unfold next_snapshot. rewrite restore_snapshot by done.
  assert (exists c x, adjust_from_window counts w = (set_wasm x (set_circuit c w), (c, x)) /\
    derive_window counts w = (c, x)) as (c & x & Ea & Ed) by (eexists _, _; split; reflexivity).
  rewrite Ea, Ed in *. cbn [fst] in Hw'. split; [done |]. split; [by destruct c, x |]. f_equal.
  unfold snapshot. f_equal; symmetry; [apply (cf_new_id c) | apply (cf_new_id x)];
    [exact (ok_circuit _ Hw') | exact (ok_wasm _ Hw')].
Qed.

(** The fee window survives a restart.  The state stored with a boundary
    block is read back whatever the tree held; between boundaries the tree keeps
    the last snapshot, and before the first one the eight cells are enough. *)
Lemma window_restart (w w0 : FeeWindowState) (t : Tree) (h : Z) :
  window_ok w -> config w0 = FeeWindowConfig_default -> is_u64 h -> h <> 0 ->
  load_window (save_boundary w h t) w0 = (w, Ok tt) /\
  (snapshot_latest t = Some (h, snapshot w) \/ snapshot_latest t = None ->
   load_window (save_window w t) w0 = (w, Ok tt)).
Proof.
  intros Hw H0 Hh Hne. split; [| intros [E | E]].
  - unfold load_window, save_boundary. rewrite snapshot_latest_save, snapshot_latest_boundary by done.
    by rewrite restore_snapshot.
  - unfold load_window. by rewrite snapshot_latest_save, E, restore_snapshot.
  - by apply load_cells.
Qed.

(** ** Concrete windows *)

Definition fresh_window : FeeWindowState := FeeWindowState_new FeeWindowConfig_default.
Definition busy : WindowCounts := {| count_premium := 300; count_standard := 40 |}.

(** Standard demand alone pushes the standard factor to its cap and the premium
    one unit beyond its own. *)
Example premium_over_cap :
  circuit_cf (adjust_from_window {| count_premium := 0; count_standard := 1023 |} fresh_window).1 =
    {| premium := 1100001; standard := 1100000 |} /\ cap_max CF_SCALE MAX_ADJ = 1100000.
Proof. vm_compute. done. Qed.

Lemma window_step_bounded_witness :
  window_ok (adjust_from_window busy fresh_window).1 /\
  circuit_cf (adjust_from_window busy fresh_window).1 = {| premium := 1100000; standard := 1050000 |}.
Proof.
  assert (is_u64 (count_premium busy) /\ is_u64 (count_standard busy)) as [B1 B2]
    by (unfold is_u; cbn; lia).
  destruct (window_step_bounded fresh_window busy new_window_ok B1 B2) as [Hok _].
  split; [exact Hok | vm_compute; reflexivity].
Defined.

Lemma window_announced_witness :
  derive_window busy fresh_window = (circuit_cf (adjust_from_window busy fresh_window).1,
                                     wasm_cf (adjust_from_window busy fresh_window).1).
Proof.
  assert (is_u64 (count_premium busy) /\ is_u64 (count_standard busy)) as [B1 B2]
    by (unfold is_u; cbn; lia).
  pose proof (window_announced fresh_window busy new_window_ok B1 B2) as H.
  destruct (adjust_from_window busy fresh_window) as [w' [c x]]. destruct H as (H1 & H2 & _).
  cbn [fst]. by rewrite H1, H2.
Defined.

Lemma window_restart_witness :
  load_window (save_boundary fresh_window 20 ∅) fresh_window = (fresh_window, Ok tt).
Proof.
  assert (is_u64 20) as B by (unfold is_u; lia).
  exact (proj1 (window_restart fresh_window fresh_window ∅ 20 new_window_ok eq_refl B ltac:(lia))).
Defined.
