(* ===== verification/ContractRisk.v ===== *)
(** * Contract risk ([src/linear/src/contract_risk.rs], [opcode_cost.rs])

    A contract declares the cost of its functions in its manifest; the node
    measures the advice rows of the circuit a call proves.  [ContractRiskTracker]
    collects the pairs of a fee window and moves the contract's risk factor at
    the boundary.  Parsing a manifest and decoding a circuit are the class
    [ContractInfo]: the first is a TOML library, the second the decoder of the
    zkas compiler. *)

From S2P Require Import Prelude F64 Units Serial Externals Transaction Block Store.

(** ** The cost of a circuit *)

Inductive Opcode :=
| Noop | EcAdd | EcMul | EcMulBase | EcMulShort | EcMulVarBase | EcGetX | EcGetY
| PoseidonHash | MerkleRoot | SparseMerkleRoot | SetMembership
| BaseAdd | BaseMul | BaseSub | BaseDiv | WitnessBase
| RangeCheck | LessThanStrict | LessThanLoose | LessThanOrEqual | BaseLtStrict
| IsEqualBase | IsNotEqualBase | BoolCheck | NotBase | CondSelect | ZeroCondSelect
| ConstrainEqualBase | ConstrainEqualPoint | ConstrainInstance | DebugPrint.

Definition RANGE_CHECK_WINDOW : Z := 10.
Definition POSEIDON_ROWS_PER_PERMUTATION : Z := 36.
Definition POSEIDON_RATE : Z := 2.

Definition div_ceil (a b : Z) : Z := a / b + (if a mod b =? 0 then 0 else 1).

Definition range_check_rows (bits : Z) : Z :=
  let windows := div_ceil bits RANGE_CHECK_WINDOW in
  let short := if bits mod RANGE_CHECK_WINDOW =? 0 then 0 else 2 in
  wrap 64 (windows + short).

Definition poseidon_rows (n : Z) : Z := wrap 64 (div_ceil n POSEIDON_RATE * POSEIDON_ROWS_PER_PERMUTATION).

Definition opcode_cost (op : Opcode) (operand_count : Z) : Z :=
  match op with
  | BaseAdd | BaseSub | BaseMul | WitnessBase => 1
  | BaseDiv => 331
  | RangeCheck => wrap 32 (range_check_rows 253)
  | LessThanStrict | LessThanLoose | LessThanOrEqual | BaseLtStrict => 57
  | IsEqualBase | IsNotEqualBase | BoolCheck => 1
  | NotBase => 2
  | CondSelect | ZeroCondSelect => 1
  | ConstrainEqualBase => 1
  | ConstrainEqualPoint => 2
  | ConstrainInstance => 1
  | PoseidonHash => wrap 32 (poseidon_rows operand_count)
  | EcAdd => 6
  | EcMul | EcMulVarBase => 510
  | EcMulBase | EcMulShort => 85
  | EcGetX | EcGetY => 0
  | MerkleRoot => 1632
  | SparseMerkleRoot | SetMembership => 9180
  | Noop | DebugPrint => 0
  end.

(** The second component is the number of operands. *)
Definition circuit_difficulty (opcodes : list (Opcode * Z)) : Z :=
  foldl (fun acc o => wrap 64 (acc + opcode_cost o.1 o.2)) 0 opcodes.

(** ** Observations *)

(** The fields of a manifest the tracker reads; strings are their bytes. *)
Record ManifestFunction := { fn_name : bytes; fn_code : Z; proof_circuit : option bytes }.
Record ManifestCostProfile := { cp_function : bytes; cp_difficulty : Z }.
Record ManifestCircuit := { ci_name : bytes; ci_namespace : bytes }.

Record ContractManifest := {
  functions : list ManifestFunction; cost_profiles : list ManifestCostProfile; circuits : list ManifestCircuit
}.

Class ContractInfo := {
  from_toml : list Z -> option ContractManifest;
  (** [ContractId::hash_state_id] for the zkas tree. *)
  zkas_prefix : list Z -> list Z;
  (** [ZkBinary::decode], with the operand counts of its opcodes. *)
  zkbin_opcodes : list Z -> option (list (Opcode * Z))
}.

Section observation.
Context `{Externals} `{ContractInfo}.

(** [load_zkbin]: the first of the two byte strings stored under the namespace. *)
Definition load_zkbin (s : LinearStore) (cid namespace : bytes) : option bytes :=
  let key := zkas_prefix cid ++ serialize string_codec namespace in
  match deserialize (pair_codec 48 (vec_codec u8_codec) (vec_codec u8_codec)) (get_contract_data s key) with
  | Ok (zkbin, _) => Some zkbin
  | Err _ => None
  end.

Definition manifest_of (s : LinearStore) (cid : bytes) : option ContractManifest :=
  raw ← get_contract_manifest s cid;
  if utf8_valid raw then from_toml raw else None.

Definition find_function (m : ContractManifest) (selector : Z) : option ManifestFunction :=
  List.find (fun f => fn_code f =? selector) (functions m).

Definition find_profile (m : ContractManifest) (f : ManifestFunction) : option ManifestCostProfile :=
  List.find (fun p => bool_decide (cp_function p = fn_name f)) (cost_profiles m).

Definition call_cost_observation (s : LinearStore) (cid : bytes) (selector : Z) : option (bytes * Z * Z) :=
  m ← manifest_of s cid;
  func ← find_function m selector;
  profile ← find_profile m func;
  circuit ← List.find (fun c => bool_decide (Some (ci_name c) = proof_circuit func)) (circuits m);
  zkbin ← load_zkbin s cid (ci_namespace circuit);
  opcodes ← zkbin_opcodes zkbin;
  Some (fn_name func, cp_difficulty profile, circuit_difficulty opcodes).

Definition declared_call_gas (s : LinearStore) (cid : bytes) (selector : Z) : option Z :=
  m ← manifest_of s cid;
  func ← find_function m selector;
  cp_difficulty <$> find_profile m func.
End observation.

(** ** The tracker *)

Record RiskTrackerParams := {
  escalation_step : Z; deescalation_step : Z; max_risk_factor : Z; baseline_risk_factor : Z;
  tolerance : f64; conforming_windows_for_deescalation : Z
}.

Definition RiskTrackerParams_default : RiskTrackerParams := {|
  escalation_step := 25000; deescalation_step := 5000; max_risk_factor := RiskFactor.MAX;
  baseline_risk_factor := RiskFactor.BASELINE; tolerance := literal 50 100;
  conforming_windows_for_deescalation := 4 |}.

Record CostDeviation := {
  dev_contract : bytes; dev_function : bytes; declared_cost : Z; observed_cost : Z; window_id : Z
}.

Definition within_tolerance (d : CostDeviation) (tol : f64) : bool :=
  if declared_cost d =? 0 then false
  else
    let ratio := f64_div (of_uint (observed_cost d)) (of_uint (declared_cost d)) in
    SpecFloat.SFleb (SpecFloat.SFabs (f64_sub ratio (of_uint 1))) tol.

Record ContractRiskTracker := {
  params : RiskTrackerParams;
  risk_of : gmap bytes Z;
  deviations : gmap bytes (list CostDeviation);
  conforming_windows : gmap bytes Z
}.

Definition ContractRiskTracker_new (p : RiskTrackerParams) : ContractRiskTracker :=
  {| params := p; risk_of := ∅; deviations := ∅; conforming_windows := ∅ |}.

Definition get_risk_factor (t : ContractRiskTracker) (cid : bytes) : Z :=
  default (baseline_risk_factor (params t)) (risk_of t !! cid).

Definition record (cid fn : bytes) (declared observed window : Z) (t : ContractRiskTracker) : ContractRiskTracker :=
  let dev := {| dev_contract := cid; dev_function := fn; declared_cost := declared;
                observed_cost := observed; window_id := window |} in
  {| params := params t; risk_of := risk_of t;
     deviations := <[cid := default [] (deviations t !! cid) ++ [dev]]> (deviations t);
     conforming_windows := conforming_windows t |}.

(** The new factor and the counter of conforming windows. *)
Definition evaluate (p : RiskTrackerParams) (devs : list CostDeviation) (current conforming : Z) : Z * Z :=
  if negb (forallb (fun d => within_tolerance d (tolerance p)) devs) then
    let escalated := saturating_add 64 current (escalation_step p) in
    (if max_risk_factor p <? escalated then max_risk_factor p else escalated, 0)
  else
    let consecutive := wrap 32 (conforming + 1) in
    if conforming_windows_for_deescalation p <=? consecutive then
      let deescalated := saturating_sub current (deescalation_step p) in
      (if deescalated <? baseline_risk_factor p then baseline_risk_factor p else deescalated, 0)
    else (current, consecutive).

Definition evaluate_window (cid : bytes) (t : ContractRiskTracker) : ContractRiskTracker * Z :=
  let current := get_risk_factor t cid in
  let devs := default [] (deviations t !! cid) in
  let remaining := delete cid (deviations t) in
  match devs with
  | [] => ({| params := params t; risk_of := risk_of t; deviations := remaining;
              conforming_windows := conforming_windows t |}, current)
  | _ =>
      let '(new_risk, count) := evaluate (params t) devs current (default 0 (conforming_windows t !! cid)) in
      ({| params := params t; risk_of := <[cid := new_risk]> (risk_of t); deviations := remaining;
          conforming_windows := <[cid := count]> (conforming_windows t) |}, new_risk)
  end.

Section evaluation.
Context `{Externals}.

Definition is_contract_id (k : bytes) : bool := (length k =? 32)%nat && fp_canonical k.

Definition evaluate_keys (keys : list bytes) (t : ContractRiskTracker) : ContractRiskTracker * list (bytes * Z) :=
  foldl (fun '(t, updated) k =>
    if is_contract_id k then
      let '(t', r) := evaluate_window k t in (t', updated ++ [(k, r)])
    else (t, updated)) (t, []) keys.

(** [evaluate_all_windows]: the keys in some order of the hash map. *)
Definition evaluate_all_windows (t : ContractRiskTracker) : ContractRiskTracker * list (bytes * Z) :=
  evaluate_keys (map fst (map_to_list (deviations t))) t.
End evaluation.

Definition save_to_tree (t : ContractRiskTracker) (tree : Tree) : Tree :=
  map_fold (fun k r tree => <[k := to_le_bytes 8 r]> tree) tree (risk_of t).

Definition load_from_tree (tree : Tree) (t : ContractRiskTracker) : ContractRiskTracker := {|
  params := params t;
  risk_of := map_fold (fun k v m =>
    if (length k =? 32)%nat && (length v =? 8)%nat then <[k := from_le_bytes v]> m else m) (risk_of t) tree;
  deviations := deviations t; conforming_windows := conforming_windows t |}.

(** ** Facts about one evaluation *)

Abbreviation P0 := RiskTrackerParams_default.

Definition risk_in_range (r : Z) : Prop := RiskFactor.BASELINE <= r <= RiskFactor.MAX.

Lemma evaluate_range (devs : list CostDeviation) (r n : Z) :
  risk_in_range r -> 0 <= n < 4 ->
  risk_in_range (evaluate P0 devs r n).1 /\ 0 <= (evaluate P0 devs r n).2 < 4.
Proof.
  unfold risk_in_range, evaluate. cbn [max_risk_factor baseline_risk_factor escalation_step deescalation_step
    conforming_windows_for_deescalation RiskTrackerParams_default].
  unfold RiskFactor.BASELINE, RiskFactor.MAX, RiskFactor.SCALE. intros Hr Hn.
  destruct (negb _); [cbn [fst snd] |].
  - destruct (Z.ltb_spec 200000 (saturating_add 64 r 25000)); unfold saturating_add, umax in *; lia.
  - rewrite wrap_small by (unfold is_u; lia). destruct (Z.leb_spec 4 (n + 1)); cbn [fst snd].
    + unfold saturating_sub. destruct (Z.ltb_spec (Z.max (r - 5000) 0) 100000); lia.
    + lia.
Qed.

Definition conforms (devs : list CostDeviation) : Prop :=
  forallb (fun d => within_tolerance d (tolerance P0)) devs = true.

(** Evaluating one conforming window after another. *)
Fixpoint conforming_run (windows : list (list CostDeviation)) (st : Z * Z) : Z * Z :=
  match windows with
  | [] => st
  | devs :: rest => conforming_run rest (evaluate P0 devs st.1 st.2)
  end.

Lemma conforming_run_spec (windows : list (list CostDeviation)) (r k n : Z) :
  Forall conforms windows -> risk_in_range r -> 0 <= n < 4 -> RiskFactor.BASELINE <= r - 5000 * k -> 0 <= k ->
  conforming_run windows (r - 5000 * k, n) =
  (Z.max RiskFactor.BASELINE (r - 5000 * (k + (n + Z.of_nat (length windows)) / 4)),
   (n + Z.of_nat (length windows)) mod 4) \/
  r - 5000 * (k + (n + Z.of_nat (length windows)) / 4) < RiskFactor.BASELINE.
Proof.
  intros Hw Hr. revert k n. induction Hw as [|devs ws Hd _ IH]; intros k n Hn Hb Hk; cbn [conforming_run length].
  - left. rewrite Z.add_0_r, Z.div_small, Z.mod_small, Z.add_0_r by lia. f_equal. lia.
  - cbn [fst snd]. unfold evaluate at 1. rewrite Hd. cbn [negb max_risk_factor baseline_risk_factor
      deescalation_step conforming_windows_for_deescalation RiskTrackerParams_default].
    rewrite wrap_small by (unfold is_u; lia). unfold saturating_sub, risk_in_range in *.
    destruct (Z.leb_spec 4 (n + 1)) as [H4 | H4].
    + assert (n = 3) as -> by lia.
      replace (3 + Z.of_nat (S (length ws))) with (0 + Z.of_nat (length ws) + 1 * 4) by lia.
      rewrite Z.div_add, Z.mod_add by lia. unfold RiskFactor.BASELINE, RiskFactor.SCALE in *.
      destruct (Z.ltb_spec (Z.max (r - 5000 * k - 5000) 0) 100000) as [Hlt | Hge].
      * right. pose proof (Z.div_pos (0 + Z.of_nat (length ws)) 4). lia.
      * replace (Z.max (r - 5000 * k - 5000) 0) with (r - 5000 * (k + 1)) by lia.
        replace (k + ((0 + Z.of_nat (length ws)) / 4 + 1)) with (k + 1 + (0 + Z.of_nat (length ws)) / 4) by lia.
        apply IH; lia.
    + replace (n + Z.of_nat (S (length ws))) with (n + 1 + Z.of_nat (length ws)) by lia. apply IH; lia.
Qed.

(** ** Contracts are independent *)

(** What the tracker holds for one contract. *)
Definition view (t : ContractRiskTracker) (cid : bytes) : option Z * option (list CostDeviation) * option Z :=
  (risk_of t !! cid, deviations t !! cid, conforming_windows t !! cid).

Definition eval_view (p : RiskTrackerParams) (v : option Z * option (list CostDeviation) * option Z) :
    option Z * option (list CostDeviation) * option Z :=
  let '(r, devs, n) := v in
  match default [] devs with
  | [] => (r, None, n)
  | ds => let '(r', n') := evaluate p ds (default (baseline_risk_factor p) r) (default 0 n) in (Some r', None, Some n')
  end.

Lemma evaluate_window_view (k cid : bytes) (t : ContractRiskTracker) :
  view (evaluate_window k t).1 cid = if decide (cid = k) then eval_view (params t) (view t cid) else view t cid.
Proof.
  unfold evaluate_window, view, eval_view, get_risk_factor.
  destruct (decide (cid = k)) as [-> | Hne].
  - destruct (default [] (deviations t !! k)) as [|d ds]; [cbn; by rewrite lookup_delete_eq |].
    destruct (evaluate _ _ _ _) as [r n]. cbn. by rewrite lookup_delete_eq, !lookup_insert_eq.
  - destruct (default [] (deviations t !! k)) as [|d ds]; [cbn; by rewrite lookup_delete_ne |].
    destruct (evaluate _ _ _ _) as [r n]. cbn. by rewrite lookup_delete_ne, !lookup_insert_ne.
Qed.

Lemma evaluate_window_params (k : bytes) (t : ContractRiskTracker) : params (evaluate_window k t).1 = params t.
Proof.
  unfold evaluate_window. destruct (default [] _); [done |]. by destruct (evaluate _ _ _ _).
Qed.

Lemma tracker_ext (t1 t2 : ContractRiskTracker) :
  params t1 = params t2 -> (forall cid, view t1 cid = view t2 cid) -> t1 = t2.
Proof.
  destruct t1, t2. unfold view. cbn. intros -> Hv.
  f_equal; apply map_eq; intros cid; specialize (Hv cid); congruence.
Qed.

Section evaluation_facts.
Context `{Externals}.

Lemma evaluate_keys_cons (k : bytes) (keys : list bytes) (t : ContractRiskTracker) :
  (evaluate_keys (k :: keys) t).1 =
  (evaluate_keys keys (if is_contract_id k then (evaluate_window k t).1 else t)).1.
Proof.
  unfold evaluate_keys. cbn [foldl].
  assert (forall l t0 u u', (foldl (fun '(t, updated) k =>
    if is_contract_id k then let '(t', r) := evaluate_window k t in (t', updated ++ [(k, r)])
    else (t, updated)) (t0, u) l).1 = (foldl (fun '(t, updated) k =>
    if is_contract_id k then let '(t', r) := evaluate_window k t in (t', updated ++ [(k, r)])
    else (t, updated)) (t0, u') l).1) as Hu.
  { induction l as [|k' l IH]; intros t0 u u'; [done |]. cbn [foldl].
    destruct (is_contract_id k'); [| apply IH]. destruct (evaluate_window k' t0); apply IH. }
  destruct (is_contract_id k); [| done]. destruct (evaluate_window k t) as [t' r]. apply Hu.
Qed.

Lemma evaluate_keys_view (keys : list bytes) (t : ContractRiskTracker) :
  NoDup keys ->
  params (evaluate_keys keys t).1 = params t /\
  forall cid, view (evaluate_keys keys t).1 cid =
    if bool_decide (cid ∈ keys) && is_contract_id cid then eval_view (params t) (view t cid) else view t cid.
Proof.
  intros Hnd. revert t. induction Hnd as [|k keys Hk _ IH]; intros t; [done |].
  rewrite evaluate_keys_cons.
  destruct (IH (if is_contract_id k then (evaluate_window k t).1 else t)) as [Hp Hv]. split.
  - rewrite Hp. destruct (is_contract_id k); [apply evaluate_window_params | done].
  - intros cid. rewrite Hv. destruct (decide (cid = k)) as [-> | Hne].
    + rewrite bool_decide_false by done. rewrite bool_decide_true by set_solver. cbn [andb].
      destruct (is_contract_id k); [| done]. by rewrite evaluate_window_view, decide_True.
    + replace (bool_decide (cid ∈ k :: keys)) with (bool_decide (cid ∈ keys))
        by (apply bool_decide_ext; set_solver).
      destruct (is_contract_id k); [| done].
      by rewrite evaluate_window_params, evaluate_window_view, decide_False.
Qed.

(** ** Reachable trackers *)

Inductive tracker_step : ContractRiskTracker -> ContractRiskTracker -> Prop :=
| step_record cid fn d o w t : tracker_step t (record cid fn d o w t)
| step_evaluate t : tracker_step t (evaluate_all_windows t).1
| step_restart t : tracker_step t (load_from_tree (save_to_tree t ∅) (ContractRiskTracker_new (params t))).

Record tracker_ok (t : ContractRiskTracker) : Prop := {
  ok_params : params t = P0;
  ok_risk : forall cid r, risk_of t !! cid = Some r -> risk_in_range r;
  ok_ids : forall cid, is_Some (risk_of t !! cid) -> is_contract_id cid = true;
  ok_count : forall cid n, conforming_windows t !! cid = Some n -> 0 <= n < 4
}.

Lemma new_tracker_ok : tracker_ok (ContractRiskTracker_new P0).
Proof.
  constructor; cbn; [done | | |]; intros *; rewrite ?lookup_empty; [done | by intros [] | done].
Qed.

Lemma save_lookup (t : ContractRiskTracker) (tree : Tree) (k : bytes) :
  save_to_tree t tree !! k = match risk_of t !! k with Some r => Some (to_le_bytes 8 r) | None => tree !! k end.
Proof.
  unfold save_to_tree. revert k. apply (map_fold_weak_ind (fun (res : Tree) m => forall k,
    res !! k = match m !! k with Some r => Some (to_le_bytes 8 r) | None => tree !! k end)).
  - intros k. by rewrite lookup_empty.
  - intros k0 r m res Hk0 IH k. destruct (decide (k = k0)) as [-> | Hne].
    + by rewrite !lookup_insert_eq.
    + by rewrite !lookup_insert_ne.
Qed.

Lemma load_lookup (tree : Tree) (t : ContractRiskTracker) (k : bytes) :
  risk_of (load_from_tree tree t) !! k =
  match tree !! k with
  | Some v => if (length k =? 32)%nat && (length v =? 8)%nat then Some (from_le_bytes v) else risk_of t !! k
  | None => risk_of t !! k
  end.
Proof.
  unfold load_from_tree. cbn [risk_of]. revert k. apply (map_fold_weak_ind (fun (res : gmap bytes Z) m => forall k,
    res !! k = match m !! k with
    | Some v => if (length k =? 32)%nat && (length v =? 8)%nat then Some (from_le_bytes v) else risk_of t !! k
    | None => risk_of t !! k end)).
  - intros k. by rewrite lookup_empty.
  - intros k0 v m res Hk0 IH k. specialize (IH k). destruct (decide (k = k0)) as [-> | Hne].
    + rewrite lookup_insert_eq. rewrite Hk0 in IH.
      destruct ((length k0 =? 32)%nat && (length v =? 8)%nat); [by rewrite lookup_insert_eq | done].
    + rewrite lookup_insert_ne by done.
      destruct ((length k0 =? 32)%nat && (length v =? 8)%nat); [by rewrite lookup_insert_ne | done].
Qed.

(** A restart keeps the factors, and nothing else. *)
Lemma restart_view (t : ContractRiskTracker) :
  tracker_ok t ->
  load_from_tree (save_to_tree t ∅) (ContractRiskTracker_new (params t)) =
  {| params := params t; risk_of := risk_of t; deviations := ∅; conforming_windows := ∅ |}.
Proof.
  intros [Hp Hr Hid Hc]. apply tracker_ext; [done |]. intros k. unfold view. f_equal. f_equal.
  rewrite load_lookup, save_lookup, lookup_empty. cbn [risk_of]. destruct (risk_of t !! k) as [r|] eqn:E; [| done].
  assert (is_contract_id k = true) as [Hl _]%andb_true_iff by (apply Hid; by rewrite E).
  rewrite Hl, to_le_bytes_length. cbn [Nat.eqb andb]. specialize (Hr k r E).
  rewrite le_bytes_roundtrip; [done |]. unfold risk_in_range, is_u, RiskFactor.BASELINE, RiskFactor.MAX, RiskFactor.SCALE in *. lia.
Qed.

Lemma eval_view_ok (t : ContractRiskTracker) (cid : bytes) :
  tracker_ok t -> let '(r, devs, n) := eval_view P0 (view t cid) in
  devs = None /\ (forall x, r = Some x -> risk_in_range x) /\ (forall x, n = Some x -> 0 <= x < 4).
Proof.
  intros [Hp Hr Hid Hc]. unfold eval_view, view. specialize (Hr cid). specialize (Hc cid).
  destruct (default [] (deviations t !! cid)) as [|d ds]; [by auto |].
  assert (risk_in_range (default (baseline_risk_factor P0) (risk_of t !! cid))) as Hr0.
  { destruct (risk_of t !! cid) as [r|]; [by apply Hr |]. split; vm_compute; discriminate. }
  assert (0 <= default 0 (conforming_windows t !! cid) < 4) as Hc0.
  { destruct (conforming_windows t !! cid) as [n|]; [by apply Hc |]. cbn. lia. }
  destruct (evaluate_range (d :: ds) _ _ Hr0 Hc0) as [H1 H2].
  destruct (evaluate _ _ _ _) as [r' n']. split; [done |]. split; intros x [= <-]; done.
Qed.

Lemma keys_of_deviations (t : ContractRiskTracker) (cid : bytes) :
  cid ∈ map fst (map_to_list (deviations t)) <-> is_Some (deviations t !! cid).
Proof.
  rewrite list_elem_of_fmap. split.
  - intros ([k ds] & -> & Hk). apply elem_of_map_to_list in Hk. eauto.
  - intros [ds Hd]. exists (cid, ds). split; [done |]. by apply elem_of_map_to_list.
Qed.

Lemma deviation_keys_NoDup (t : ContractRiskTracker) : NoDup (map fst (map_to_list (deviations t))).
Proof. apply NoDup_fst_map_to_list. Qed.

Lemma evaluate_all_ok (t : ContractRiskTracker) : tracker_ok t -> tracker_ok (evaluate_all_windows t).1.
Proof.
  intros Ht. destruct (evaluate_keys_view _ t (deviation_keys_NoDup t)) as [Hp Hv].
  fold (evaluate_all_windows t) in Hp, Hv. pose proof (ok_params t Ht) as Hpt. rewrite Hpt in Hp, Hv.
  assert (forall cid, (risk_of (evaluate_all_windows t).1 !! cid,
    conforming_windows (evaluate_all_windows t).1 !! cid) =
    ((view (evaluate_all_windows t).1 cid).1.1, (view (evaluate_all_windows t).1 cid).2)) as Hpr by done.
  constructor; [done | | |].
  - intros cid r Hr. specialize (Hpr cid). rewrite Hv, Hr in Hpr. pose proof (eval_view_ok t cid Ht) as He.
    destruct (bool_decide _ && _); [| injection Hpr as E _; by apply (ok_risk t Ht cid)].
    destruct (eval_view P0 (view t cid)) as [[r' d'] n']. injection Hpr as E _. by apply He.
  - intros cid [r Hr]. specialize (Hpr cid). rewrite Hv, Hr in Hpr.
    destruct (bool_decide (cid ∈ _)); cbn [andb] in Hpr; [destruct (is_contract_id cid) eqn:E; [done |] |];
      injection Hpr as E' _; rewrite <- ?E; apply (ok_ids t Ht); by rewrite <- E'.
  - intros cid n Hn. specialize (Hpr cid). rewrite Hv, Hn in Hpr. pose proof (eval_view_ok t cid Ht) as He.
    destruct (bool_decide _ && _); [| injection Hpr as _ E; by apply (ok_count t Ht cid)].
    destruct (eval_view P0 (view t cid)) as [[r' d'] n']. injection Hpr as _ E. by apply He.
Qed.

Lemma tracker_step_ok (t t' : ContractRiskTracker) : tracker_step t t' -> tracker_ok t -> tracker_ok t'.
Proof.
  intros [cid fn d o w t0 | t0 | t0] Ht.
  - destruct Ht as [Hp Hr Hid Hc]. by constructor.
  - by apply evaluate_all_ok.
  - rewrite restart_view by done. destruct Ht as [Hp Hr Hid Hc]. constructor; [done .. |].
    intros cid n. cbn. by rewrite lookup_empty.
Qed.

(** ** Properties *)

(** In every state the tracker can reach, restarts included, each factor is
    between 1.0 and 2.0, belongs to a contract, and no counter of conforming
    windows has reached its threshold.  Evaluating a window gives each contract
    with recorded calls the outcome of its own record, whatever the order in
    which the hash map yields the contracts, and empties that record; the other
    contracts keep theirs. *)
Lemma risk_evaluation (t : ContractRiskTracker) (keys : list bytes) :
  rtc tracker_step (ContractRiskTracker_new P0) t -> keys ≡ₚ map fst (map_to_list (deviations t)) ->
  tracker_ok t /\ (evaluate_keys keys t).1 = (evaluate_all_windows t).1 /\
  forall cid, is_contract_id cid = true ->
    view (evaluate_all_windows t).1 cid =
    if bool_decide (is_Some (deviations t !! cid)) then eval_view P0 (view t cid) else view t cid.
Proof.
  intros Hr Hperm. assert (tracker_ok t) as Ht.
  { pose proof new_tracker_ok as H0. revert H0. clear Hperm. induction Hr as [t | t t1 t2 Hs _ IH]; [done |].
    intros H0. by apply IH, (tracker_step_ok t). }
  pose proof (deviation_keys_NoDup t) as Hnd.
  destruct (evaluate_keys_view _ t Hnd) as [Hp Hv]. fold (evaluate_all_windows t) in Hp, Hv.
  destruct (evaluate_keys_view keys t) as [Hp' Hv']; [by rewrite Hperm |]. split; [done |]. split.
  - apply tracker_ext; [by rewrite Hp, Hp' |]. intros cid. rewrite Hv, Hv'.
    replace (bool_decide (cid ∈ keys)) with (bool_decide (cid ∈ map fst (map_to_list (deviations t))));
      [done |]. apply bool_decide_ext. by rewrite Hperm.
  - intros cid Hid. rewrite Hv, Hid, andb_true_r, (ok_params t Ht).
    replace (bool_decide (cid ∈ map fst (map_to_list (deviations t)))) with (bool_decide (is_Some (deviations t !! cid)));
      [done |]. apply bool_decide_ext. by rewrite keys_of_deviations.
Qed.

(** Trust is lost fast and regained slowly.  A window with one call outside
    tolerance raises the factor by 0.25 (up to the cap), and it takes exactly
    twenty conforming windows in a row to bring it back. *)
Lemma risk_recovery (bad : list CostDeviation) (windows : list (list CostDeviation)) (r n : Z) :
  risk_in_range r -> r + 25000 <= RiskFactor.MAX -> ~ conforms bad -> Forall conforms windows ->
  evaluate P0 bad r n = (r + 25000, 0) /\
  ((length windows < 20)%nat -> r < (conforming_run windows (evaluate P0 bad r n)).1) /\
  (length windows = 20%nat -> (conforming_run windows (evaluate P0 bad r n)).1 = r).
Proof.
  intros Hr Hmax Hbad Hw. assert (evaluate P0 bad r n = (r + 25000, 0)) as E.
  { unfold evaluate, conforms in *. destruct (forallb _ bad); [done |].
    cbn [negb escalation_step max_risk_factor RiskTrackerParams_default].
    unfold risk_in_range, RiskFactor.MAX, RiskFactor.BASELINE, RiskFactor.SCALE, saturating_add, umax in *.
    destruct (Z.ltb_spec 200000 (Z.min (r + 25000) (2 ^ 64 - 1))); f_equal; lia. }
  rewrite E. split; [done |].
  destruct (conforming_run_spec windows (r + 25000) 0 0 Hw) as [Hrun | Hlow];
    [unfold risk_in_range, RiskFactor.BASELINE, RiskFactor.SCALE in *; lia | lia |
     unfold risk_in_range, RiskFactor.BASELINE, RiskFactor.SCALE in *; lia | lia | |].
  - rewrite Z.mul_0_r, Z.sub_0_r, Z.add_0_l in Hrun. rewrite Hrun. cbn [fst].
    unfold risk_in_range, RiskFactor.BASELINE, RiskFactor.SCALE in *. split; intros Hl.
    + assert ((0 + Z.of_nat (length windows)) / 4 < 5) by (apply Z.div_lt_upper_bound; lia). lia.
    + rewrite Hl. change ((0 + Z.of_nat 20) / 4) with 5. lia.
  - unfold risk_in_range, RiskFactor.BASELINE, RiskFactor.SCALE in *. split; intros Hl.
    + assert ((0 + Z.of_nat (length windows)) / 4 < 5) by (apply Z.div_lt_upper_bound; lia). lia.
    + rewrite Hl in Hlow. change ((0 + Z.of_nat 20) / 4) with 5 in Hlow. lia.
Qed.

(** The stored factors are not a function of the chain.  A restart keeps the
    factors but not the window in progress nor the counters, so a node that was
    restarted and one that was not, holding the same factors and applying the
    same calls from then on, part at a later boundary. *)
Lemma risk_restart_diverges (t : ContractRiskTracker) (cid : bytes) (r : Z) (d : CostDeviation) :
  tracker_ok t -> is_contract_id cid = true -> risk_of t !! cid = Some r -> RiskFactor.BASELINE + 5000 <= r ->
  deviations t = ∅ -> conforming_windows t !! cid = Some 3 -> conforms [d] -> dev_contract d = cid ->
  let apply_call t := (evaluate_all_windows
    (record cid (dev_function d) (declared_cost d) (observed_cost d) (window_id d) t)).1 in
  let t' := load_from_tree (save_to_tree t ∅) (ContractRiskTracker_new (params t)) in
  risk_of t' = risk_of t /\
  get_risk_factor (apply_call t) cid = r - 5000 /\ get_risk_factor (apply_call t') cid = r.
Proof.
  intros Ht Hid Hr Hlow Hd Hn Hc Hcid. cbv zeta. rewrite restart_view by done. split; [done |].
  pose proof (ok_params t Ht) as Hp.
  assert (forall t0, params t0 = P0 -> deviations t0 = ∅ -> risk_of t0 !! cid = Some r ->
    get_risk_factor (evaluate_all_windows (record cid (dev_function d) (declared_cost d) (observed_cost d)
      (window_id d) t0)).1 cid = (evaluate P0 [d] r (default 0 (conforming_windows t0 !! cid))).1) as Heval.
  { intros t0 Hp0 Hd0 Hr0. set (t1 := record _ _ _ _ _ t0).
    destruct (evaluate_keys_view _ t1 (deviation_keys_NoDup t1)) as [_ Hv].
    fold (evaluate_all_windows t1) in Hv. specialize (Hv cid). unfold get_risk_factor.
    rewrite bool_decide_true in Hv by (apply keys_of_deviations; cbn; rewrite lookup_insert_eq; eauto).
    rewrite Hid in Hv. cbn [andb] in Hv.
    unfold eval_view, view at 2 in Hv. cbn [t1 record deviations risk_of conforming_windows params] in Hv.
    rewrite lookup_insert_eq, Hd0, lookup_empty, Hr0, Hp0 in Hv. cbn [default app] in Hv.
    assert ({| dev_contract := cid; dev_function := dev_function d; declared_cost := declared_cost d;
      observed_cost := observed_cost d; window_id := window_id d |} = d) as Ed by (rewrite <- Hcid; by destruct d).
    rewrite Ed in Hv.
    apply (f_equal (fun v => v.1.1)) in Hv. unfold view in Hv. cbn [fst] in Hv. rewrite Hv.
    unfold id. cbv iota beta. by destruct (evaluate P0 [d] r _) as [r' n']. }
  rewrite !Heval by (done || exact Hp). rewrite Hn. cbn [conforming_windows]. rewrite lookup_empty.
  unfold evaluate. rewrite Hc. cbn. unfold saturating_sub, RiskFactor.BASELINE, RiskFactor.SCALE in *. split; [| done].
  change (4 <=? wrap 32 (3 + 1)) with true. destruct (Z.ltb_spec (Z.max (r - 5000) 0) 100000); cbn [fst]; lia.
Qed.
End evaluation_facts.

(** ** Concrete trackers *)

Definition sample_cid : bytes := to_le_bytes 32 9.

Definition honest_call : CostDeviation := {|
  dev_contract := sample_cid; dev_function := []; declared_cost := 1000; observed_cost := 1100; window_id := 20 |}.

(** A call whose circuit is a third of the declaration: outside tolerance too. *)
Definition modest_call : CostDeviation := {|
  dev_contract := sample_cid; dev_function := []; declared_cost := 1000; observed_cost := 400; window_id := 20 |}.

(** Declaring too much is punished like declaring too little. *)
Example over_declaration_escalates :
  evaluate P0 [modest_call] RiskFactor.BASELINE 0 = (RiskFactor.BASELINE + 25000, 0).
Proof. vm_compute. reflexivity. Qed.

Definition recovering : ContractRiskTracker := {|
  params := P0; risk_of := {[ sample_cid := 125000 ]}; deviations := ∅;
  conforming_windows := {[ sample_cid := 3 ]} |}.

Lemma recovering_ok : @tracker_ok toy recovering.
Proof.
  constructor; [done | | |]; cbn [risk_of conforming_windows recovering].
  - intros cid r [<- <-]%lookup_singleton_Some. split; vm_compute; discriminate.
  - intros cid [r [<- _]%lookup_singleton_Some]. vm_compute. reflexivity.
  - intros cid n [<- <-]%lookup_singleton_Some. lia.
Qed.

Lemma risk_evaluation_witness :
  @tracker_ok toy (record sample_cid [] 1000 400 20 (ContractRiskTracker_new P0)).
Proof.
  eapply (@risk_evaluation toy); [| reflexivity].
  eapply rtc_l; [apply (@step_record toy) | apply rtc_refl].
Defined.

Lemma risk_recovery_witness :
  evaluate P0 [modest_call] 100000 0 = (125000, 0) /\
  (conforming_run (replicate 20 [honest_call]) (evaluate P0 [modest_call] 100000 0)).1 = 100000.
Proof.
  destruct (risk_recovery [modest_call] (replicate 20 [honest_call]) 100000 0) as (H1 & _ & H3).
  - split; vm_compute; discriminate.
  - vm_compute. discriminate.
  - vm_compute. discriminate.
  - apply Forall_replicate. vm_compute. reflexivity.
  - split; [exact H1 | apply H3; reflexivity].
Defined.

Lemma risk_restart_diverges_witness :
  let apply_call t := (@evaluate_all_windows toy (record sample_cid [] 1000 1100 20 t)).1 in
  let t' := load_from_tree (save_to_tree recovering ∅) (ContractRiskTracker_new P0) in
  get_risk_factor (apply_call recovering) sample_cid = 120000 /\
  get_risk_factor (apply_call t') sample_cid = 125000.
Proof.
  destruct (@risk_restart_diverges toy recovering sample_cid 125000 honest_call recovering_ok) as (_ & H1 & H2).
  - vm_compute. reflexivity.
  - apply lookup_singleton_eq.
  - vm_compute. discriminate.
  - reflexivity.
  - apply lookup_singleton_eq.
  - vm_compute. reflexivity.
  - reflexivity.
  - exact (conj H1 H2).
Defined.
