(* ===== verification/Supply.v ===== *)
(** * The cumulative supply chain ([src/linear/src/supply_chain.rs])

    One entry per height: the running Pedersen commitment, the running blinding
    factor and the plaintext total.  The tree is the store's [supply_chain]
    tree; [latest] is the cached entry, a field behind a mutex.  Points and
    scalars are their canonical encodings, and their addition comes from the
    curve library. *)

From Stdlib Require Import String.
From S2P Require Import Prelude Units Serial Externals Transaction Block Store.

(** Addition of pallas points and scalars. *)
Class CurveOps `{Externals} := {
  point_add : bytes -> bytes -> bytes;
  scalar_add : bytes -> bytes -> bytes
}.

Section supply.
Context `{Externals}.

Definition point_codec : codec bytes :=
  mk_codec (fun h => h)
    (fun bs => let? (raw, rest) := read_exact 32 bs in
               if point_canonical raw then Ok (raw, rest) else Err NonCanonicalField) 32.

Definition scalar_codec : codec bytes :=
  mk_codec (fun h => h)
    (fun bs => let? (raw, rest) := read_exact 32 bs in
               if scalar_canonical raw then Ok (raw, rest) else Err NonCanonicalField) 32.

Record CumulativeSupplyEntry := { value_commit : bytes; blind : bytes; total_supply : Z }.

Definition supply_genesis : CumulativeSupplyEntry :=
  {| value_commit := point_identity; blind := zero32; total_supply := 0 |}.

Definition to_bytes (e : CumulativeSupplyEntry) : bytes :=
  serialize point_codec (value_commit e) ++ serialize scalar_codec (blind e) ++ to_le_bytes 8 (total_supply e).

Definition slice (a b : nat) (data : bytes) : bytes := take (b - a) (drop a data).

(** [from_bytes], after the length of the data has fixed the offsets. *)
Definition from_bytes_at (point_len scalar_offset supply_offset : nat) (data : bytes) : Res CumulativeSupplyEntry :=
  let? vc := map_ser (deserialize point_codec (slice 0 point_len data)) in
  let? bl := map_ser (deserialize scalar_codec (slice scalar_offset supply_offset data)) in
  Ok {| value_commit := vc; blind := bl; total_supply := from_le_bytes (slice supply_offset (supply_offset + 8) data) |}.

Definition from_bytes (data : bytes) : Res CumulativeSupplyEntry :=
  if (List.length data =? 72)%nat then from_bytes_at 32 32 64 data
  else if (List.length data =? 104)%nat then from_bytes_at 64 64 96 data
  else Err (SerializationError ForeignError).

(** The highest key of eight bytes. *)
Definition max_height (t : Tree) : option Z :=
  map_fold (fun k _ (m : option Z) =>
    if (List.length k =? 8)%nat then
      let h := BlockHeight.of_bytes k in Some (match m with Some x => Z.max x h | None => h end)
    else m) None t.

Definition supply_get (t : Tree) (h : Z) : Res CumulativeSupplyEntry :=
  if h =? 0 then Ok supply_genesis
  else
    let? val := ok_or (t !! height_key h) (StorageError "supply_chain: no entry") in
    from_bytes val.

Definition restore_latest (t : Tree) : Res (option (Z * CumulativeSupplyEntry)) :=
  match max_height t with
  | Some h =>
      let? val := ok_or (t !! height_key h) (StorageError "supply_chain entry missing") in
      let? entry := from_bytes val in
      Ok (Some (h, entry))
  | None => Ok None
  end.

Definition get_latest (latest : option (Z * CumulativeSupplyEntry)) : CumulativeSupplyEntry :=
  match latest with Some (_, e) => e | None => supply_genesis end.

Definition get_latest_height (latest : option (Z * CumulativeSupplyEntry)) : Z :=
  match latest with Some (h, _) => h | None => 0 end.

Definition compute_next `{!CurveOps} (prev : CumulativeSupplyEntry) (commit coinbase_blind : bytes) (value : Z) :
    CumulativeSupplyEntry := {|
  value_commit := point_add (value_commit prev) commit;
  blind := scalar_add (blind prev) coinbase_blind;
  total_supply := SupplyAmount.add (total_supply prev) value |}.

(** Plain additions: they wrap in the release profile. *)
Definition verify_uncle_split (base_reward canonical_reward : Z) (pins : list Z) : Res unit :=
  let total_pin := wrap 64 (foldl Z.add 0 pins) in
  if negb (wrap 64 (canonical_reward + total_pin) =? base_reward)
  then Err (BlockIsInvalid "Supply invariant violated") else Ok tt.

Definition commit_to_batch (h : Z) (e : CumulativeSupplyEntry) (t : Tree) : Tree := <[height_key h := to_bytes e]> t.

Definition commit (h : Z) (e : CumulativeSupplyEntry) (t : Tree) : Tree * option (Z * CumulativeSupplyEntry) :=
  (<[height_key h := to_bytes e]> t, Some (h, e)).

Definition update_cache (h : Z) (e : CumulativeSupplyEntry) (latest : option (Z * CumulativeSupplyEntry)) :
    option (Z * CumulativeSupplyEntry) :=
  match latest with
  | Some (existing, _) => if h <=? existing then latest else Some (h, e)
  | None => Some (h, e)
  end.

Definition rollback_cache (t : Tree) (h : Z) : Res (option (Z * CumulativeSupplyEntry)) :=
  let? entry := supply_get t h in
  Ok (Some (h, entry)).

(** ** Entries on disk *)

Definition entry_wf (e : CumulativeSupplyEntry) : Prop :=
  (bytes_wf 32 (value_commit e) /\ point_canonical (value_commit e) = true) /\
  (bytes_wf 32 (blind e) /\ scalar_canonical (blind e) = true) /\ is_u64 (total_supply e).

Lemma deserialize_exact (ok : bytes -> bool) (h : bytes) (e : io_error) :
  length h = 32%nat -> ok h = true ->
  deserialize (mk_codec (fun h => h) (fun bs => let? (raw, rest) := read_exact 32 bs in
    if ok raw then Ok (raw, rest) else Err e) 32) h = Ok h.
Proof.
  intros Hl Hok. unfold deserialize, deserialize_partial. cbn [decode mk_codec].
  pose proof (read_exact_app 32 h [] Hl) as E. rewrite app_nil_r in E. rewrite E. cbn. rewrite Hok. cbn.
  by rewrite Z.sub_0_r, Z.eqb_refl.
Qed.

Lemma deserialize_long (ok : bytes -> bool) (h : bytes) (e : io_error) :
  length h = 64%nat ->
  exists e', deserialize (mk_codec (fun h => h) (fun bs => let? (raw, rest) := read_exact 32 bs in
    if ok raw then Ok (raw, rest) else Err e) 32) h = Err e'.
Proof.
  intros Hl. unfold deserialize, deserialize_partial. cbn [decode mk_codec].
  rewrite <- (take_drop 32 h). rewrite read_exact_app by (rewrite length_take; lia). cbn.
  destruct (ok (take 32 h)); cbn; [| eauto]. rewrite length_app, length_take, length_drop.
  destruct (Z.eqb_spec (Z.of_nat (32 `min` length h + (length h - 32)) - Z.of_nat (length h - 32))
    (Z.of_nat (32 `min` length h + (length h - 32)))) as [E | E]; cbn; [lia | eauto].
Qed.

(** What the round trip needs of an entry. *)
Definition entry_shape (e : CumulativeSupplyEntry) : Prop :=
  (length (value_commit e) = 32%nat /\ point_canonical (value_commit e) = true) /\
  (length (blind e) = 32%nat /\ scalar_canonical (blind e) = true) /\ is_u64 (total_supply e).

Lemma entry_shape_roundtrip (e : CumulativeSupplyEntry) : entry_shape e -> from_bytes (to_bytes e) = Ok e.
Proof.
  intros ([Hv Hvc] & [Hb Hbc] & Ht). unfold from_bytes, to_bytes, serialize. cbn [encode mk_codec point_codec scalar_codec].
  rewrite !length_app, to_le_bytes_length, Hv, Hb. cbn [Nat.add Nat.eqb]. unfold from_bytes_at, slice.
  cbn [Nat.sub Nat.add]. rewrite drop_0, take_app_length' by done.
  assert (deserialize point_codec (value_commit e) = Ok (value_commit e)) as -> by (by apply deserialize_exact).
  rewrite drop_app_length', take_app_length' by done.
  assert (deserialize scalar_codec (blind e) = Ok (blind e)) as -> by (by apply deserialize_exact).
  cbn -[from_le_bytes to_le_bytes take drop].
  rewrite app_assoc, drop_app_length' by (rewrite length_app; lia).
  rewrite take_ge by (by rewrite to_le_bytes_length). rewrite le_bytes_roundtrip by done. by destruct e.
Qed.

Lemma entry_roundtrip (e : CumulativeSupplyEntry) : entry_wf e -> from_bytes (to_bytes e) = Ok e.
Proof. intros ([[Hv _] Hvc] & [[Hb _] Hbc] & Ht). by apply entry_shape_roundtrip. Qed.

(** The longer format the reader announces is never accepted. *)
Lemma long_entry_refused (data : bytes) : length data = 104%nat -> exists e, from_bytes data = Err e.
Proof.
  intros Hl. unfold from_bytes. rewrite Hl. cbn [Nat.eqb]. unfold from_bytes_at.
  destruct (deserialize_long point_canonical (slice 0 64 data) NonCanonicalField) as [e E].
  { unfold slice. rewrite drop_0, length_take. lia. }
  change (deserialize point_codec (slice 0 64 data)) with
    (deserialize (mk_codec (fun h => h) (fun bs => let? (raw, rest) := read_exact 32 bs in
      if point_canonical raw then Ok (raw, rest) else Err NonCanonicalField) 32) (slice 0 64 data)).
  rewrite E. cbn. eauto.
Qed.
End supply.
