(* ===== verification/Pedersen.v ===== *)
(** * Pedersen commitments ([src/sdk/src/crypto/pedersen.rs])

    The curve comes from a library: its scalar multiplication and hash to the
    curve are operations of [CurveMul], its group laws are [CurveLaws].  What
    the token needs of them is proved here: commitments add, and a sum of
    commitments opens to the sums of the values and of the blinding factors. *)

From Stdlib Require Import String.
From S2P Require Import Prelude Units Serial Externals Transaction Block Store Consensus NativeToken Supply.

(** [point * scalar] and [pallas::Point::hash_to_curve(domain)(message)]; a
    scalar is the integer it encodes. *)
Class CurveMul `{EXT : Externals} := {
  point_mul : bytes -> Z -> bytes;
  hash_to_curve : bytes -> bytes -> bytes
}.

(** The points are a commutative group in which the scalars act; a result of an
    operation is a point or a scalar, in its encoding. *)
Class CurveLaws `{EXT : Externals} `{OPS : !CurveOps} `{MUL : !CurveMul} : Prop := {
  hash_to_curve_wf : forall d m, point_wf (hash_to_curve d m);
  point_identity_wf : point_wf point_identity;
  point_add_wf : forall p q, point_wf (point_add p q);
  point_mul_wf : forall p n, point_wf (point_mul p n);
  point_add_comm : forall p q, point_wf p -> point_wf q -> point_add p q = point_add q p;
  point_add_assoc : forall p q r, point_wf p -> point_wf q -> point_wf r ->
    point_add p (point_add q r) = point_add (point_add p q) r;
  point_add_identity : forall p, point_wf p -> point_add point_identity p = p;
  point_mul_zero : forall p, point_wf p -> point_mul p 0 = point_identity;
  point_mul_add : forall p a b, point_wf p -> point_mul p (a + b) = point_add (point_mul p a) (point_mul p b);
  scalar_zero_wf : scalar_wf zero32;
  scalar_add_wf : forall a b, scalar_wf (scalar_add a b);
  scalar_add_mul : forall p a b, point_wf p -> scalar_wf a -> scalar_wf b ->
    point_mul p (from_le_bytes (scalar_add a b)) = point_mul p (from_le_bytes a + from_le_bytes b)
}.

(** Membership in the curve, by its closure laws. *)
Ltac curve_wf := repeat first [assumption | apply point_add_wf | apply point_mul_wf | apply point_identity_wf | apply hash_to_curve_wf].

Definition VALUE_COMMITMENT_PERSONALIZATION : bytes := ascii_key "z.cash:Orchard-cv".
Definition VALUE_COMMITMENT_V_BYTES : bytes := ascii_key "v".
Definition VALUE_COMMITMENT_R_BYTES : bytes := ascii_key "r".

Section pedersen.
Context `{EXT : Externals} `{OPS : !CurveOps} `{MUL : !CurveMul}.

Definition value_base : bytes := hash_to_curve VALUE_COMMITMENT_PERSONALIZATION VALUE_COMMITMENT_V_BYTES.
Definition random_base : bytes := hash_to_curve VALUE_COMMITMENT_PERSONALIZATION VALUE_COMMITMENT_R_BYTES.

(** [value * V + blind * R] for any integers. *)
Definition commitment_to (v r : Z) : bytes := point_add (point_mul value_base v) (point_mul random_base r).

Definition pedersen_commitment_u64 (v : Z) (blind : bytes) : bytes := commitment_to v (from_le_bytes blind).

(** The total the token code accumulates from the identity. *)
Definition point_sum (ps : list bytes) : bytes := foldl point_add point_identity ps.

(** [o] is a value and a blinding factor that open the point. *)
Definition opens (p : bytes) (o : Z * bytes) : Prop :=
  is_u64 o.1 /\ scalar_wf o.2 /\ p = pedersen_commitment_u64 o.1 o.2.

Definition values (os : list (Z * bytes)) : Z := foldr (fun o acc => o.1 + acc) 0 os.
Definition blinds (os : list (Z * bytes)) : Z := foldr (fun o acc => from_le_bytes o.2 + acc) 0 os.

Context `{LAWS : !CurveLaws}.

Lemma value_base_wf : point_wf value_base.
Proof. apply hash_to_curve_wf. Qed.

Lemma random_base_wf : point_wf random_base.
Proof. apply hash_to_curve_wf. Qed.

Lemma commitment_to_wf (v r : Z) : point_wf (commitment_to v r).
Proof. apply point_add_wf. Qed.

Lemma point_add_swap (p q r s : bytes) :
  point_wf p -> point_wf q -> point_wf r -> point_wf s ->
  point_add (point_add p q) (point_add r s) = point_add (point_add p r) (point_add q s).
Proof.
  intros Hp Hq Hr Hs. rewrite (point_add_assoc _ r s) by curve_wf.
  rewrite <- (point_add_assoc p q r), (point_add_comm q r), (point_add_assoc p r q) by done.
  symmetry. apply point_add_assoc; curve_wf.
Qed.

(** Commitments are homomorphic. *)
Lemma commitment_to_add (v r v' r' : Z) :
  point_add (commitment_to v r) (commitment_to v' r') = commitment_to (v + v') (r + r').
Proof.
  unfold commitment_to. pose proof value_base_wf. pose proof random_base_wf.
  rewrite point_add_swap by curve_wf. by rewrite !point_mul_add.
Qed.

Lemma commitment_to_zero : commitment_to 0 0 = point_identity.
Proof.
  unfold commitment_to. rewrite !point_mul_zero by apply hash_to_curve_wf.
  apply point_add_identity, point_identity_wf.
Qed.

Lemma point_fold_wf (ps : list bytes) (a : bytes) : point_wf a -> Forall point_wf ps -> point_wf (foldl point_add a ps).
Proof. intros Ha Hps. revert a Ha. induction Hps; intros a Ha; cbn [foldl]; [done |]. apply IHHps. curve_wf. Qed.

Lemma point_sum_wf (ps : list bytes) : Forall point_wf ps -> point_wf (point_sum ps).
Proof. apply point_fold_wf, point_identity_wf. Qed.

Lemma point_sum_from (ps : list bytes) (a : bytes) :
  point_wf a -> Forall point_wf ps -> foldl point_add a ps = point_add a (point_sum ps).
Proof.
  intros Ha Hps. revert a Ha. induction Hps as [| p ps Hp Hps IH]; intros a Ha; unfold point_sum; cbn [foldl].
  - rewrite point_add_comm by curve_wf. by rewrite point_add_identity.
  - rewrite IH, (IH (point_add point_identity p)) by curve_wf.
    rewrite point_add_identity by done. symmetry. apply point_add_assoc; [done.. | by apply point_sum_wf].
Qed.

Lemma point_sum_cons (p : bytes) (ps : list bytes) :
  point_wf p -> Forall point_wf ps -> point_sum (p :: ps) = point_add p (point_sum ps).
Proof.
  intros Hp Hps. unfold point_sum at 1. cbn [foldl]. rewrite point_add_identity by done. by apply point_sum_from.
Qed.

Lemma opens_wf (p : bytes) (o : Z * bytes) : opens p o -> point_wf p.
Proof. intros (_ & _ & ->). apply commitment_to_wf. Qed.

Lemma opens_all_wf (ps : list bytes) (os : list (Z * bytes)) : Forall2 opens ps os -> Forall point_wf ps.
Proof. induction 1; constructor; eauto using opens_wf. Qed.

(** A sum of commitments opens to the sums. *)
Lemma point_sum_opens (ps : list bytes) (os : list (Z * bytes)) :
  Forall2 opens ps os -> point_sum ps = commitment_to (values os) (blinds os).
Proof.
  induction 1 as [| p o ps os Ho Hos IH]; [symmetry; apply commitment_to_zero |].
  rewrite point_sum_cons by eauto using opens_wf, opens_all_wf. rewrite IH.
  destruct Ho as (_ & _ & ->). apply commitment_to_add.
Qed.

(** Two openings of one point give a relation between the bases. *)
Lemma commitment_to_relation (v r v' r' : Z) :
  commitment_to v r = commitment_to v' r' -> commitment_to (v - v') (r - r') = point_identity.
Proof.
  intros E. transitivity (commitment_to (v' + - v') (r' + - r')).
  - by rewrite <- !Z.add_opp_r, <- !commitment_to_add, E.
  - rewrite !Z.add_opp_diag_r. apply commitment_to_zero.
Qed.

(** Two commitments are equal exactly when the differences commit to nothing. *)
Lemma commitment_to_eq (v r v' r' : Z) :
  commitment_to v r = commitment_to v' r' <-> commitment_to (v - v') (r - r') = point_identity.
Proof.
  split; [apply commitment_to_relation |]. intros E. transitivity (commitment_to ((v - v') + v') ((r - r') + r')).
  - f_equal; lia.
  - rewrite <- commitment_to_add, E. apply point_add_identity, commitment_to_wf.
Qed.

Lemma values_bounds (ps : list bytes) (os : list (Z * bytes)) :
  Forall2 opens ps os -> 0 <= values os <= 2 ^ 64 * Z.of_nat (List.length ps).
Proof.
  induction 1 as [| p o ps os (Hv & _) Hos IH]; [done |]. cbn [values foldr]. fold (values os).
  unfold is_u in Hv. rewrite length_cons. lia.
Qed.
End pedersen.

(** ** A concrete curve: the integers modulo the order of the pallas group *)

Definition residue (n : Z) : bytes := to_le_bytes 32 (n mod vesta_modulus).

#[export] Instance toy_curve : @CurveOps toy := {|
  point_add p q := residue (from_le_bytes p + from_le_bytes q);
  scalar_add a b := residue (from_le_bytes a + from_le_bytes b)
|}.

#[export] Instance toy_mul : @CurveMul toy := {|
  point_mul p n := residue (from_le_bytes p * n);
  hash_to_curve d m := toy_digest (d ++ m)
|}.

Lemma residue_value (n : Z) : from_le_bytes (residue n) = n mod vesta_modulus.
Proof.
  unfold residue. apply le_bytes_roundtrip. pose proof (Z.mod_pos_bound n vesta_modulus ltac:(done)).
  split; [lia |]. eapply Z.lt_trans; [apply H | done].
Qed.

Lemma residue_wf (n : Z) : bytes_wf 32 (residue n) /\ (from_le_bytes (residue n) <? vesta_modulus) = true.
Proof.
  split; [split; [apply to_le_bytes_length | apply to_le_bytes_are_bytes] |].
  rewrite residue_value. apply Z.ltb_lt, Z.mod_pos_bound. done.
Qed.

Lemma residue_id (p : bytes) :
  bytes_wf 32 p -> (from_le_bytes p <? vesta_modulus) = true -> residue (from_le_bytes p) = p.
Proof.
  intros [Hl Hb] Hlt. apply Z.ltb_lt in Hlt. unfold residue. rewrite Z.mod_small.
  - rewrite <- Hl. by apply bytes_le_roundtrip.
  - split; [| done]. by apply from_le_bytes_bound.
Qed.

Lemma residue_eq (a b : Z) : a mod vesta_modulus = b mod vesta_modulus -> residue a = residue b.
Proof. unfold residue. by intros ->. Qed.

Lemma toy_digest_small (m : list Z) : (from_le_bytes (toy_digest m) <? vesta_modulus) = true.
Proof.
  unfold toy_digest. set (v := foldl _ _ m).
  assert (0 <= v < 2 ^ 61) as Hv.
  { subst v. destruct m as [| b m _] using rev_ind; [done |]. rewrite foldl_app. cbn [foldl]. by apply Z.mod_pos_bound. }
  rewrite le_bytes_roundtrip by (split; [lia |]; eapply Z.lt_trans; [apply Hv | done]).
  apply Z.ltb_lt. eapply Z.lt_trans; [apply Hv | done].
Qed.

Lemma toy_point_wf (n : Z) : @point_wf toy (residue n).
Proof. apply residue_wf. Qed.

Lemma toy_scalar_wf (n : Z) : @scalar_wf toy (residue n).
Proof. apply residue_wf. Qed.

#[export] Instance toy_laws : @CurveLaws toy toy_curve toy_mul.
Proof.
  constructor; intros; cbn [point_add point_mul scalar_add hash_to_curve toy_curve toy_mul].
  - split; [apply toy_digest_wf | apply toy_digest_small].
  - split; [apply zero32_wf | done].
  - apply toy_point_wf.
  - apply toy_point_wf.
  - f_equal. lia.
  - apply residue_eq. rewrite !residue_value, Zplus_mod_idemp_r, Zplus_mod_idemp_l. f_equal. lia.
  - destruct H as [Hb Hc]. by apply residue_id.
  - rewrite Z.mul_0_r. done.
  - apply residue_eq. rewrite !residue_value, <- Zplus_mod. f_equal. lia.
  - split; [apply zero32_wf | done].
  - apply toy_scalar_wf.
  - apply residue_eq. by rewrite residue_value, Zmult_mod_idemp_r.
Qed.
