(* ===== verification/CoreTx.v ===== *)
(** * The authenticated transaction ([src/tx/mod.rs])

    The transaction a wallet builds and a chain transaction carries as its
    witness: a forest of calls with proofs and signatures for each, and a
    commitment to the calls every proof is made for.  With it the Schnorr
    signatures of [src/sdk/src/crypto/schnorr.rs] and the hashes to the two
    fields of [src/sdk/src/crypto/util.rs]. *)

From Stdlib Require Import String.
From S2P Require Import Prelude Units Serial Externals Transaction Block Store Consensus NativeToken Supply Pedersen DarkTree.

(** BLAKE2b with a personalization followed by the reduction to a field
    element, the operations of the curve the signatures use beyond those of
    commitments, and the sizes the compiler gives the structures. *)
Class CoreEnv `{EXT : Externals} := {
  blake2b_to_scalar : bytes -> bytes -> bytes;
  blake2b_to_base : bytes -> bytes -> bytes;
  nullifier_k_generator : bytes;
  point_sub : bytes -> bytes -> bytes;
  scalar_mul : bytes -> bytes -> bytes;
  size_of_DarkLeaf : Z;
  size_of_Signature : Z;
  size_of_CoreTransaction : Z
}.

(** Documented facts: hashes to a field are field elements; subtraction undoes
    addition; multiplying by a product is multiplying twice. *)
Class CoreLaws `{EXT : Externals} `{OPS : !CurveOps} `{MUL : !CurveMul} `{CORE : !CoreEnv} : Prop := {
  blake2b_scalar_wf : forall p m, scalar_wf (blake2b_to_scalar p m);
  blake2b_base_wf : forall p m, fp_wf (blake2b_to_base p m);
  generator_wf : point_wf nullifier_k_generator;
  point_sub_add : forall p q, point_wf p -> point_wf q -> point_sub (point_add p q) q = p;
  scalar_mul_wf : forall a b, scalar_wf (scalar_mul a b);
  scalar_mul_mul : forall p a b, point_wf p -> scalar_wf a -> scalar_wf b ->
    point_mul p (from_le_bytes (scalar_mul a b)) = point_mul (point_mul p (from_le_bytes b)) (from_le_bytes a);
  base_below_scalar : forall k, fp_wf k -> scalar_canonical k = true
}.

Section core.
Context `{EXT : Externals} `{OPS : !CurveOps} `{MUL : !CurveMul} `{CORE : !CoreEnv}.

(** ** Hashes to the fields ([util.rs]) *)

Definition hash_to_scalar (persona : bytes) (vals : list bytes) : bytes := blake2b_to_scalar persona (concat vals).
Definition hash_to_base (persona : bytes) (vals : list bytes) : bytes := blake2b_to_base persona (concat vals).

Definition TX_COMMITMENT_PERSONA : bytes := ascii_key "DarkWow_TxCommit".

Definition tx_commitment (calls : list ContractCall) : bytes :=
  hash_to_base TX_COMMITMENT_PERSONA (map (serialize ContractCall_codec) calls).

(** [fp_mod_fv]: the bytes of a base element as a scalar. *)
Definition fp_mod_fv (v : bytes) : option bytes := if scalar_canonical v then Some v else None.

(** ** Schnorr signatures ([schnorr.rs]) *)

Definition DRK_SCHNORR_NONCE_DOMAIN : bytes := ascii_key "DarkFi_Schnorr_n".
Definition DRK_SCHNORR_CHALLENGE_DOMAIN : bytes := ascii_key "DarkFi_Schnorr_c".

Record Signature := { sig_commit : bytes; sig_response : bytes }.

Definition signature_encode (s : Signature) : bytes := sig_commit s ++ sig_response s.

Definition signature_decode (d : bytes) : option Signature :=
  if negb (length d =? 64)%nat then None
  else if point_canonical (take 32 d) then
    if scalar_canonical (drop 32 d) then Some {| sig_commit := take 32 d; sig_response := drop 32 d |} else None
  else None.

(** [PublicKey::from_secret]; [None] is the [expect] failing. *)
Definition public_of_secret (sk : bytes) : option bytes :=
  (fun s => point_mul nullifier_k_generator (from_le_bytes s)) <$> fp_mod_fv sk.

Definition schnorr_challenge (commit pk message : bytes) : bytes :=
  hash_to_scalar DRK_SCHNORR_CHALLENGE_DOMAIN [commit; pk; message].

Definition schnorr_sign (sk message : bytes) : option Signature :=
  let mask := hash_to_scalar DRK_SCHNORR_NONCE_DOMAIN [sk; message] in
  let commit := point_mul nullifier_k_generator (from_le_bytes mask) in
  match public_of_secret sk, fp_mod_fv sk with
  | Some pk, Some s =>
      Some {| sig_commit := commit; sig_response := scalar_add mask (scalar_mul (schnorr_challenge commit pk message) s) |}
  | _, _ => None
  end.

Definition schnorr_verify (pk message : bytes) (s : Signature) : bool :=
  let challenge := schnorr_challenge (sig_commit s) pk message in
  bool_decide (point_sub (point_mul nullifier_k_generator (from_le_bytes (sig_response s)))
                 (point_mul pk (from_le_bytes challenge)) = sig_commit s).

(** ** The transaction *)

Record CoreTransaction := {
  calls : list (DarkLeaf ContractCall);
  proofs : list (list bytes);
  signatures : list (list Signature);
  core_commitment : bytes;
  core_nullifiers : list bytes
}.

Definition DarkLeaf_codec : codec (DarkLeaf ContractCall) :=
  mk_codec (fun l => encode ContractCall_codec (leaf_data l) ++ encode (option_codec 16 u64_codec) (parent_index l) ++
                     encode (vec_codec u64_codec) (children_indexes l))
    (fun bs => let? (d, bs1) := decode ContractCall_codec bs in
               let? (p, bs2) := decode (option_codec 16 u64_codec) bs1 in
               let? (cs, bs3) := decode (vec_codec u64_codec) bs2 in
               Ok ({| leaf_data := d; parent_index := p; children_indexes := cs |}, bs3))
    size_of_DarkLeaf.

(** [struct Proof(Vec<u8>)]. *)
Definition Proof_codec : codec bytes := byte_vec_codec.

Definition Signature_codec : codec Signature :=
  mk_codec (fun s => encode point_codec (sig_commit s) ++ encode scalar_codec (sig_response s))
    (fun bs => let? (c, bs1) := decode point_codec bs in
               let? (r, bs2) := decode scalar_codec bs1 in
               Ok ({| sig_commit := c; sig_response := r |}, bs2))
    size_of_Signature.

Definition calls_codec : codec (list (DarkLeaf ContractCall)) := vec_codec DarkLeaf_codec.
Definition proofs_codec : codec (list (list bytes)) := vec_codec (vec_codec Proof_codec).

Definition CoreTransaction_codec : codec CoreTransaction :=
  mk_codec (fun t => encode calls_codec (calls t) ++ encode proofs_codec (proofs t) ++
                     encode (vec_codec (vec_codec Signature_codec)) (signatures t) ++
                     encode (array_codec 32 u8_codec) (core_commitment t) ++
                     encode (vec_codec nullifier_codec) (core_nullifiers t))
    (fun bs => let? (c, bs1) := decode calls_codec bs in
               let? (p, bs2) := decode proofs_codec bs1 in
               let? (s, bs3) := decode (vec_codec (vec_codec Signature_codec)) bs2 in
               let? (m, bs4) := decode (array_codec 32 u8_codec) bs3 in
               let? (n, bs5) := decode (vec_codec nullifier_codec) bs4 in
               Ok ({| calls := c; proofs := p; signatures := s; core_commitment := m; core_nullifiers := n |}, bs5))
    size_of_CoreTransaction.

(** The digest the signatures are made over: calls and proofs. *)
Definition sigs_data_hash (t : CoreTransaction) : bytes :=
  blake3 (encode calls_codec (calls t) ++ encode proofs_codec (proofs t)).

Inductive SigError := InvalidInputLengths | InvalidSignature.

Fixpoint verify_row (hash : bytes) (pubkeys : list bytes) (sigs : list Signature) : result SigError unit :=
  match pubkeys, sigs with
  | pk :: pks, s :: ss => if schnorr_verify pk hash s then verify_row hash pks ss else Err InvalidSignature
  | _, _ => Ok tt
  end.

Fixpoint verify_rows (hash : bytes) (sigs : list (list Signature)) (table : list (list bytes)) : result SigError unit :=
  match sigs, table with
  | row :: rows, pubkeys :: rest =>
      if negb (length row =? length pubkeys)%nat then Err InvalidInputLengths
      else let? _ := verify_row hash pubkeys row in verify_rows hash rows rest
  | _, _ => Ok tt
  end.

Definition verify_sigs (table : list (list bytes)) (t : CoreTransaction) : result SigError unit :=
  if negb (length (signatures t) =? length table)%nat then Err InvalidInputLengths
  else verify_rows (sigs_data_hash t) (signatures t) table.

Definition create_sigs (secret_keys : list bytes) (t : CoreTransaction) : option (list Signature) :=
  mapM (fun sk => schnorr_sign sk (sigs_data_hash t)) secret_keys.

Definition core_hash (t : CoreTransaction) : bytes := blake3 (serialize CoreTransaction_codec t).

Definition is_single_call (t : CoreTransaction) : bool :=
  match calls t with [c] => negb (bool_decide (data (leaf_data c) = [])) | _ => false end.

Definition is_pow_reward (t : CoreTransaction) : bool :=
  is_single_call t &&
  match calls t with c :: _ => bool_decide (is_Some (as_mass_balance_coinbase_v1 (leaf_data c))) | [] => false end.

Definition commitment_of_calls (cs : list (DarkLeaf ContractCall)) : bytes := tx_commitment (map leaf_data cs).

(** ** The builder *)

Definition MIN_TX_CALLS : Z := 1.
Definition MAX_TX_CALLS : Z := 20.

Record ContractCallLeaf := { leaf_call : ContractCall; leaf_proofs : list bytes }.

Record TransactionBuilder := { builder_calls : DarkForest ContractCallLeaf; builder_nullifiers : list bytes }.

Definition builder_append (x : ContractCallLeaf) (children : list (DarkTree ContractCallLeaf)) (b : TransactionBuilder) :
    TRes TransactionBuilder :=
  let? f := forest_append (DarkTree_new x children None None) (builder_calls b) in
  Ok {| builder_calls := f; builder_nullifiers := builder_nullifiers b |}.

Definition TransactionBuilder_new (x : ContractCallLeaf) (children : list (DarkTree ContractCallLeaf)) : TRes TransactionBuilder :=
  builder_append x children
    {| builder_calls := DarkForest_new (Some MIN_TX_CALLS) (Some MAX_TX_CALLS); builder_nullifiers := [] |}.

Definition call_leaf (l : DarkLeaf ContractCallLeaf) : DarkLeaf ContractCall :=
  {| leaf_data := leaf_call (leaf_data l); parent_index := parent_index l; children_indexes := children_indexes l |}.

Definition builder_build (b : TransactionBuilder) : TransactionBuilder * TRes CoreTransaction :=
  let '(f, r) := forest_build_vec (builder_calls b) in
  ({| builder_calls := f; builder_nullifiers := builder_nullifiers b |},
   let? leafs := r in
   let? _ := dark_forest_leaf_vec_integrity_check leafs (Some MIN_TX_CALLS) (Some MAX_TX_CALLS) in
   let cs := map call_leaf leafs in
   Ok {| calls := cs; proofs := map (fun l => leaf_proofs (leaf_data l)) leafs;
         signatures := map (fun _ => []) cs; core_commitment := commitment_of_calls cs;
         core_nullifiers := builder_nullifiers b |}).

(** ** The codec round trip *)

Definition DarkLeaf_wf (l : DarkLeaf ContractCall) : Prop :=
  ContractCall_wf (leaf_data l) /\ option_wf is_u64 (parent_index l) /\ vec_wf u64_codec is_u64 (children_indexes l).

Definition Signature_wf (s : Signature) : Prop := point_wf (sig_commit s) /\ scalar_wf (sig_response s).

Definition CoreTransaction_wf (t : CoreTransaction) : Prop :=
  vec_wf DarkLeaf_codec DarkLeaf_wf (calls t) /\
  vec_wf (vec_codec Proof_codec) (vec_wf Proof_codec byte_vec_wf) (proofs t) /\
  vec_wf (vec_codec Signature_codec) (vec_wf Signature_codec Signature_wf) (signatures t) /\
  array_wf is_byte 32 (core_commitment t) /\
  vec_wf nullifier_codec nullifier_wf (core_nullifiers t).

#[export] Instance point_codec_ok : CodecOk point_codec point_wf.
Proof.
  apply mk_codec_ok; [by intros h [[_ Hb] _] |].
  intros h rest [[Hl _] Hc]. rewrite read_exact_app by done. by rewrite Hc.
Qed.

#[export] Instance scalar_codec_ok : CodecOk scalar_codec scalar_wf.
Proof.
  apply mk_codec_ok; [by intros h [[_ Hb] _] |].
  intros h rest [[Hl _] Hc]. rewrite read_exact_app by done. by rewrite Hc.
Qed.

#[export] Instance Proof_codec_ok : CodecOk Proof_codec byte_vec_wf := byte_vec_ok.

#[export] Instance DarkLeaf_ok : CodecOk DarkLeaf_codec DarkLeaf_wf.
Proof.
  apply mk_codec_ok; intros l.
  - intros (? & ? & ?). encode_fields.
  - intros rest (? & ? & ?). decode_fields. by destruct l.
Qed.

#[export] Instance Signature_codec_ok : CodecOk Signature_codec Signature_wf.
Proof.
  apply mk_codec_ok; intros s.
  - intros (? & ?). encode_fields.
  - intros rest (? & ?). decode_fields. by destruct s.
Qed.

#[export] Instance CoreTransaction_ok : CodecOk CoreTransaction_codec CoreTransaction_wf.
Proof.
  apply mk_codec_ok; intros t.
  - intros (? & ? & ? & ? & ?). encode_fields.
  - intros rest (? & ? & ? & ? & ?). decode_fields. by destruct t.
Qed.

(** ** The commitment binds the calls *)

Lemma concat_calls_inj (c1 c2 : list ContractCall) :
  Forall ContractCall_wf c1 -> Forall ContractCall_wf c2 ->
  concat (map (serialize ContractCall_codec) c1) = concat (map (serialize ContractCall_codec) c2) -> c1 = c2.
Proof.
  assert (forall c rest, ContractCall_wf c -> serialize ContractCall_codec c ++ rest <> []) as Hne.
  { intros c rest Hc E. pose proof (decode_encode c rest Hc) as Hd. unfold serialize in E. rewrite E in Hd. by cbn in Hd. }
  intros H1. revert c2. induction H1 as [|a c1 Ha _ IH]; intros c2 H2 E; destruct H2 as [|b c2 Hb H2]; cbn [map concat] in E; [done | | |].
  - symmetry in E. by apply Hne in E.
  - by apply Hne in E.
  - unfold serialize at 1 3 in E. pose proof (decode_encode a (concat (map (serialize ContractCall_codec) c1)) Ha) as Hd.
    rewrite E, decode_encode in Hd by done. injection Hd as <- Hd. f_equal. by apply IH.
Qed.

(** The messages differ and hash to the same base field element. *)
Definition base_collision (persona m m' : bytes) : Prop :=
  m <> m' /\ blake2b_to_base persona m = blake2b_to_base persona m'.

(** What [tx_commitment] hashes. *)
Definition calls_message (cs : list ContractCall) : bytes := concat (map (serialize ContractCall_codec) cs).

Lemma tx_commitment_binds (c1 c2 : list ContractCall) :
  Forall ContractCall_wf c1 -> Forall ContractCall_wf c2 -> tx_commitment c1 = tx_commitment c2 ->
  c1 = c2 \/ base_collision TX_COMMITMENT_PERSONA (calls_message c1) (calls_message c2).
Proof.
  intros H1 H2 E. destruct (decide (calls_message c1 = calls_message c2)) as [Ec | Ec].
  - left. by apply concat_calls_inj.
  - by right.
Qed.

(** ** Signatures *)

Context `{LAWS : !CurveLaws} `{CLAWS : !CoreLaws}.

Lemma schnorr_complete (sk message : bytes) :
  fp_wf sk -> exists pk s, public_of_secret sk = Some pk /\ schnorr_sign sk message = Some s /\ schnorr_verify pk message s = true.
Proof.
  intros Hk. assert (scalar_wf sk) as Hs by (split; [apply Hk | by apply base_below_scalar]).
  unfold schnorr_sign, public_of_secret, fp_mod_fv. rewrite (proj2 Hs). cbn [fmap option_fmap option_map].
  set (mask := hash_to_scalar _ _). set (commit := point_mul _ (from_le_bytes mask)).
  eexists _, _. split_and!; [done | done |]. unfold schnorr_verify. cbn [sig_commit sig_response].
  apply bool_decide_eq_true. set (c := schnorr_challenge _ _ _).
  assert (scalar_wf mask) by apply blake2b_scalar_wf. assert (scalar_wf c) by apply blake2b_scalar_wf.
  rewrite scalar_add_mul, point_mul_add by (done || apply generator_wf || apply scalar_mul_wf).
  rewrite scalar_mul_mul by (done || apply generator_wf). apply point_sub_add; apply point_mul_wf.
Qed.

Lemma verify_row_ok (hash : bytes) (sks pks : list bytes) (row : list Signature) :
  Forall fp_wf sks -> mapM public_of_secret sks = Some pks -> mapM (fun sk => schnorr_sign sk hash) sks = Some row ->
  verify_row hash pks row = Ok tt.
Proof.
  intros Hs. revert pks row. induction Hs as [|sk sks Hk _ IH]; intros pks row Hp Hr.
  { injection Hp as <-. done. }
  apply mapM_Some in Hp, Hr. inversion Hp as [|? pk ? pks' Epk Hp']; subst. inversion Hr as [|? s ? row' Es Hr']; subst.
  cbn [verify_row]. destruct (schnorr_complete sk hash Hk) as (pk' & s' & Epk' & Es' & Hv).
  rewrite Epk in Epk'. rewrite Es in Es'. simplify_eq. rewrite Hv. apply IH; by apply mapM_Some.
Qed.

(** A transaction whose signature rows were made with [create_sigs] by the
    secret keys behind a table of public keys, one row per call, passes
    [verify_sigs] against that table. *)
Lemma created_sigs_verify (t : CoreTransaction) (keys table : list (list bytes)) :
  Forall (Forall fp_wf) keys -> Forall2 (fun sks pks => mapM public_of_secret sks = Some pks) keys table ->
  Forall2 (fun sks row => create_sigs sks t = Some row) keys (signatures t) ->
  verify_sigs table t = Ok tt.
Proof.
  intros Hk Ht Hs. unfold verify_sigs. rewrite <- (Forall2_length _ _ _ Ht), <- (Forall2_length _ _ _ Hs), Nat.eqb_refl. cbn [negb].
  unfold create_sigs in Hs. generalize dependent (sigs_data_hash t). intros hash. generalize (signatures t). intros sigs.
  revert table Ht sigs. induction Hk as [|sks keys Hk _ IH]; intros table Ht sigs Hs;
    inversion Ht as [|? pks ? table' Hp Ht']; inversion Hs as [|? row ? sigs' Hr Hs']; subst; [done |].
  cbn [verify_rows]. assert (length row = length pks) as ->.
  { apply mapM_Some, Forall2_length in Hp. apply mapM_Some, Forall2_length in Hr. lia. }
  rewrite Nat.eqb_refl. cbn [negb]. rewrite (verify_row_ok hash sks pks row) by done. by apply IH.
Qed.
End core.

(** ** The concrete curve *)

#[export] Instance toy_core : @CoreEnv toy := {|
  blake2b_to_scalar p m := toy_digest (p ++ m);
  blake2b_to_base p m := toy_digest (p ++ m);
  nullifier_k_generator := residue 7;
  point_sub p q := residue (from_le_bytes p - from_le_bytes q);
  scalar_mul a b := residue (from_le_bytes a * from_le_bytes b);
  size_of_DarkLeaf := 96; size_of_Signature := 128; size_of_CoreTransaction := 128
|}.

Lemma toy_digest_fp (m : list Z) : (from_le_bytes (toy_digest m) <? pallas_modulus) = true.
Proof.
  unfold toy_digest. set (v := foldl _ _ m).
  assert (0 <= v < 2 ^ 61) as Hv.
  { subst v. destruct m as [| b m _] using rev_ind; [done |]. rewrite foldl_app. cbn [foldl]. by apply Z.mod_pos_bound. }
  rewrite le_bytes_roundtrip by (split; [lia |]; eapply Z.lt_trans; [apply Hv | done]).
  apply Z.ltb_lt. eapply Z.lt_trans; [apply Hv | done].
Qed.

#[export] Instance toy_core_laws : @CoreLaws toy toy_curve toy_mul toy_core.
Proof.
  constructor; intros; cbn [point_add point_mul scalar_add point_sub scalar_mul blake2b_to_scalar blake2b_to_base
    nullifier_k_generator toy_curve toy_mul toy_core].
  - split; [apply toy_digest_wf | apply toy_digest_small].
  - split; [apply toy_digest_wf | apply toy_digest_fp].
  - apply toy_point_wf.
  - rewrite residue_value. destruct H as [Hb Hc]. rewrite <- (residue_id p Hb Hc) at 2. apply residue_eq.
    rewrite Zminus_mod_idemp_l. f_equal. lia.
  - apply toy_scalar_wf.
  - apply residue_eq. rewrite !residue_value, Zmult_mod_idemp_r, Zmult_mod_idemp_l. f_equal. lia.
  - destruct H as [_ Hc]. cbn [fp_canonical toy] in Hc. apply Z.ltb_lt in Hc. apply Z.ltb_lt. eapply Z.lt_trans; [exact Hc | done].
Qed.

Definition toy_call (x : Z) : ContractCall := {| contract_id := to_le_bytes 32 9; data := [x] |}.

Definition toy_core_tx (sigs : list (list Signature)) : CoreTransaction := {|
  calls := [{| leaf_data := toy_call 1; parent_index := None; children_indexes := [] |}]; proofs := [[]]; signatures := sigs;
  core_commitment := zero32; core_nullifiers := [] |}.

Definition toy_row : list Signature :=
  default [] (@create_sigs toy toy_curve toy_mul toy_core [to_le_bytes 32 5] (toy_core_tx [])).

Lemma created_sigs_verify_witness :
  @verify_sigs toy toy_mul toy_core [[@point_mul toy toy_mul (@nullifier_k_generator toy toy_core) 5]] (toy_core_tx [toy_row]) = Ok tt.
Proof.
  apply (@created_sigs_verify toy toy_curve toy_mul toy_core toy_laws toy_core_laws (toy_core_tx [toy_row]) [[to_le_bytes 32 5]]).
  - apply Forall_singleton, Forall_singleton. split; [split; [reflexivity | apply to_le_bytes_are_bytes] | reflexivity].
  - constructor; [vm_compute; reflexivity | constructor].
  - constructor; [vm_compute; reflexivity | constructor].
Defined.
