(* ===== verification/TokenUpdates.v ===== *)
(** * State updates of the native token ([src/contract/native_token/src/model/mod.rs])

    The verification half of a call returns its effect as bytes, and the host
    hands them to the half that writes: fixed layouts, re-validated field by
    field when read.  Here are the seven formats and that each is read back. *)

From Stdlib Require Import String.
From S2P Require Import Prelude Units Serial Externals Transaction Store NativeToken.

(** [if data.len() != n { return Err(e) }]. *)
Definition exactly {A : Type} (data : list Z) (n : Z) (e : ContractError) (k : CRes A) : CRes A :=
  if negb (Z.of_nat (List.length data) =? n) then Err e else k.

(** The [for i in 0..count] loops over 32-byte elements from [pos]. *)
Fixpoint read_each (read : list Z -> Z -> CRes bytes) (count : nat) (data : list Z) (pos : Z) : CRes (list bytes) :=
  match count with
  | O => Ok []
  | S count' =>
      let? x := read data pos in
      let? rest := read_each read count' data (pos + 32) in
      Ok (x :: rest)
  end.

Module FeeUpdate.
Record t := { nullifier : bytes; commitment : bytes; height : Z; fee : Z }.

Definition ENCODED_SIZE : Z := 80.

Definition enc (u : t) : bytes :=
  nullifier u ++ commitment u ++ to_le_bytes 8 (height u) ++ to_le_bytes 8 (fee u).

Definition dec `{Externals} (data : bytes) : CRes t :=
  exactly data ENCODED_SIZE (IoError "FeeUpdate: length") (
  let? nf := read_nullifier data 0 in
  let? cm := read_base "FeeUpdate: invalid commitment" data 32 in
  let? h := read_u64 data 64 in
  let? f := read_u64 data 72 in
  Ok {| nullifier := nf; commitment := cm; height := h; fee := f |}).
End FeeUpdate.

Module BurnUpdateV1.
Record t := { nullifiers : list bytes }.

Definition enc (u : t) : CRes bytes :=
  let? n := try_from_len (List.length (nullifiers u)) in
  Ok (to_le_bytes 4 n ++ concat (nullifiers u)).

Definition dec `{Externals} (data : bytes) : CRes t :=
  at_least data 4 (IoError "BurnUpdateV1: empty data") (
  let? count := read_len data 0 in
  exactly data (4 + count * 32) (IoError "BurnUpdateV1: length") (
  let? nfs := read_each read_nullifier (Z.to_nat count) data 4 in
  Ok {| nullifiers := nfs |})).
End BurnUpdateV1.

Module TransferUpdateV1.
Record t := { nullifiers : list bytes; commitments : list bytes }.

Definition enc (u : t) : CRes bytes :=
  let? nf := try_from_len (List.length (nullifiers u)) in
  let? cm := try_from_len (List.length (commitments u)) in
  Ok (to_le_bytes 4 nf ++ concat (nullifiers u) ++ to_le_bytes 4 cm ++ concat (commitments u)).

Definition dec `{Externals} (data : bytes) : CRes t :=
  at_least data 8 (IoError "TransferUpdateV1: data too short") (
  let? nf_count := read_len data 0 in
  let nf_end := 4 + nf_count * 32 in
  at_least data (nf_end + 4) (IoError "TransferUpdateV1: length") (
  let? commitment_count := read_len data nf_end in
  exactly data (nf_end + 4 + commitment_count * 32) (IoError "TransferUpdateV1: length") (
  let? nfs := read_each read_nullifier (Z.to_nat nf_count) data 4 in
  let? cms := read_each (read_base "TransferUpdateV1: invalid commitment") (Z.to_nat commitment_count) data
                (nf_end + 4) in
  Ok {| nullifiers := nfs; commitments := cms |}))).
End TransferUpdateV1.

Module SpendUpdateV1.
Record t := { nullifier : bytes; commitment : bytes }.

Definition ENCODED_SIZE : Z := 64.

Definition enc (u : t) : bytes := nullifier u ++ commitment u.

Definition dec `{Externals} (data : bytes) : CRes t :=
  exactly data ENCODED_SIZE (IoError "SpendUpdateV1: length") (
  let? nf := read_nullifier data 0 in
  let? cm := read_base "SpendUpdateV1: invalid commitment" data 32 in
  Ok {| nullifier := nf; commitment := cm |}).
End SpendUpdateV1.

Module PoWRewardUpdateV1.
Record t := {
  commitment : bytes; height : Z; new_total_supply : Z; cumulative_value_commit : bytes; aggregate_blind : bytes
}.

Definition ENCODED_SIZE : Z := 112.

Definition enc (u : t) : bytes :=
  commitment u ++ to_le_bytes 8 (height u) ++ to_le_bytes 8 (new_total_supply u) ++
  cumulative_value_commit u ++ aggregate_blind u.

Definition dec `{Externals} (data : bytes) : CRes t :=
  exactly data ENCODED_SIZE (IoError "PoWRewardUpdateV1: length") (
  let? cm := read_base "PoWRewardUpdateV1: invalid commitment" data 0 in
  let? h := read_u64 data 32 in
  let? supply := read_u64 data 40 in
  let? vc := read_point "PoWRewardUpdateV1: invalid cumulative_value_commit" data 48 in
  let? bl := read_scalar "PoWRewardUpdateV1: invalid aggregate_blind" data 80 in
  Ok {| commitment := cm; height := h; new_total_supply := supply; cumulative_value_commit := vc;
        aggregate_blind := bl |}).
End PoWRewardUpdateV1.

Module UncleMintUpdateV1.
Record t := { commitment : bytes; height : Z }.

Definition ENCODED_SIZE : Z := 40.

Definition enc (u : t) : bytes := commitment u ++ to_le_bytes 8 (height u).

Definition dec `{Externals} (data : bytes) : CRes t :=
  exactly data ENCODED_SIZE (IoError "UncleMintUpdateV1: length") (
  let? cm := read_base "UncleMintUpdateV1: invalid commitment" data 0 in
  let? h := read_u64 data 32 in
  Ok {| commitment := cm; height := h |}).
End UncleMintUpdateV1.

Module FeeCollectUpdateV1.
Record t := { commitment : bytes; height : Z; total_fees : Z }.

Definition ENCODED_SIZE : Z := 48.

Definition enc (u : t) : bytes := commitment u ++ to_le_bytes 8 (height u) ++ to_le_bytes 8 (total_fees u).

Definition dec `{Externals} (data : bytes) : CRes t :=
  exactly data ENCODED_SIZE (IoError "FeeCollectUpdateV1: length") (
  let? cm := read_base "FeeCollectUpdateV1: invalid commitment" data 0 in
  let? h := read_u64 data 32 in
  let? f := read_u64 data 40 in
  Ok {| commitment := cm; height := h; total_fees := f |}).
End FeeCollectUpdateV1.

(** ** Reading back *)

Lemma exactly_ok {A : Type} (data : list Z) (n : Z) (e : ContractError) (k : CRes A) :
  Z.of_nat (List.length data) = n -> exactly data n e k = k.
Proof. intros <-. unfold exactly. by rewrite Z.eqb_refl. Qed.

(** The length check, then one read per field. *)
Ltac update_back := field_lengths; rewrite exactly_ok by lengths; repeat read_next; done.

Section roundtrip.
Context `{Externals}.

Lemma fee_update_roundtrip (u : FeeUpdate.t) :
  nullifier_wf (FeeUpdate.nullifier u) -> fp_wf (FeeUpdate.commitment u) -> is_u64 (FeeUpdate.height u) ->
  is_u64 (FeeUpdate.fee u) -> FeeUpdate.dec (FeeUpdate.enc u) = Ok u.
Proof. intros. destruct u. unfold FeeUpdate.dec, FeeUpdate.enc, FeeUpdate.ENCODED_SIZE in *. cbn [FeeUpdate.nullifier FeeUpdate.commitment FeeUpdate.height FeeUpdate.fee] in *. update_back. Qed.

Lemma spend_update_roundtrip (u : SpendUpdateV1.t) :
  nullifier_wf (SpendUpdateV1.nullifier u) -> fp_wf (SpendUpdateV1.commitment u) ->
  SpendUpdateV1.dec (SpendUpdateV1.enc u) = Ok u.
Proof. intros. destruct u. unfold SpendUpdateV1.dec, SpendUpdateV1.enc, SpendUpdateV1.ENCODED_SIZE in *. cbn [SpendUpdateV1.nullifier SpendUpdateV1.commitment] in *. update_back. Qed.

Lemma pow_update_roundtrip (u : PoWRewardUpdateV1.t) :
  fp_wf (PoWRewardUpdateV1.commitment u) -> is_u64 (PoWRewardUpdateV1.height u) ->
  is_u64 (PoWRewardUpdateV1.new_total_supply u) -> point_wf (PoWRewardUpdateV1.cumulative_value_commit u) ->
  scalar_wf (PoWRewardUpdateV1.aggregate_blind u) -> PoWRewardUpdateV1.dec (PoWRewardUpdateV1.enc u) = Ok u.
Proof.
  intros. destruct u. unfold PoWRewardUpdateV1.dec, PoWRewardUpdateV1.enc, PoWRewardUpdateV1.ENCODED_SIZE in *.
  cbn [PoWRewardUpdateV1.commitment PoWRewardUpdateV1.height PoWRewardUpdateV1.new_total_supply PoWRewardUpdateV1.cumulative_value_commit PoWRewardUpdateV1.aggregate_blind] in *. update_back.
Qed.

Lemma uncle_update_roundtrip (u : UncleMintUpdateV1.t) :
  fp_wf (UncleMintUpdateV1.commitment u) -> is_u64 (UncleMintUpdateV1.height u) ->
  UncleMintUpdateV1.dec (UncleMintUpdateV1.enc u) = Ok u.
Proof.
  intros. destruct u. unfold UncleMintUpdateV1.dec, UncleMintUpdateV1.enc, UncleMintUpdateV1.ENCODED_SIZE in *.
  cbn [UncleMintUpdateV1.commitment UncleMintUpdateV1.height] in *. update_back.
Qed.

Lemma fee_collect_update_roundtrip (u : FeeCollectUpdateV1.t) :
  fp_wf (FeeCollectUpdateV1.commitment u) -> is_u64 (FeeCollectUpdateV1.height u) ->
  is_u64 (FeeCollectUpdateV1.total_fees u) -> FeeCollectUpdateV1.dec (FeeCollectUpdateV1.enc u) = Ok u.
Proof.
  intros. destruct u. unfold FeeCollectUpdateV1.dec, FeeCollectUpdateV1.enc, FeeCollectUpdateV1.ENCODED_SIZE in *.
  cbn [FeeCollectUpdateV1.commitment FeeCollectUpdateV1.height FeeCollectUpdateV1.total_fees] in *. update_back.
Qed.

Lemma concat_length (xs : list bytes) :
  Forall (fun x => List.length x = 32%nat) xs -> Z.of_nat (List.length (concat xs)) = 32 * Z.of_nat (List.length xs).
Proof. induction 1 as [| x xs Hx _ IH]; [done |]. cbn [concat]. rewrite length_app, length_cons. lia. Qed.

Lemma read_each_ok (read : list Z -> Z -> CRes bytes) (P : bytes -> Prop) (xs : list bytes) (pre rest : list Z) (pos : Z) :
  (forall data offset x, read_slice data offset 32 = Ok x -> P x -> read data offset = Ok x) ->
  Forall (fun x => P x /\ List.length x = 32%nat) xs -> Z.of_nat (List.length pre) = pos ->
  read_each read (List.length xs) (pre ++ concat xs ++ rest) pos = Ok xs.
Proof.
  intros Hread Hxs. revert pre pos. induction Hxs as [| x xs [Hx Hl] _ IH]; intros pre pos Hpre; [done |].
  cbn [List.length concat read_each]. rewrite <- (app_assoc x).
  erewrite Hread; [| read_back; reflexivity | done].
  specialize (IH (pre ++ x) (pos + 32) ltac:(lengths)). rewrite <- app_assoc in IH. by rewrite IH.
Qed.

Lemma nullifiers_sized (ns : list bytes) :
  Forall nullifier_wf ns -> Forall (fun x => nullifier_wf x /\ List.length x = 32%nat) ns.
Proof. intros Hs. eapply Forall_impl; [exact Hs |]. intros x Hx. split; [done |]. apply (proj1 (proj1 (proj1 Hx))). Qed.

Lemma commitments_sized (cs : list bytes) :
  Forall fp_wf cs -> Forall (fun x => fp_wf x /\ List.length x = 32%nat) cs.
Proof. intros Hs. eapply Forall_impl; [exact Hs |]. intros x Hx. split; [done |]. apply (proj1 (proj1 Hx)). Qed.

Lemma sized (P : bytes -> Prop) (xs : list bytes) :
  Forall (fun x => P x /\ List.length x = 32%nat) xs -> Z.of_nat (List.length (concat xs)) = 32 * Z.of_nat (List.length xs).
Proof. intros Hx. apply concat_length. eapply Forall_impl; [exact Hx | by intros ? []]. Qed.

Lemma burn_update_roundtrip (u : BurnUpdateV1.t) :
  Forall nullifier_wf (BurnUpdateV1.nullifiers u) -> is_u32 (Z.of_nat (List.length (BurnUpdateV1.nullifiers u))) ->
  exists b, BurnUpdateV1.enc u = Ok b /\ BurnUpdateV1.dec b = Ok u.
Proof.
  intros Hn%nullifiers_sized Hl. pose proof (sized _ _ Hn) as Hc. destruct u as [ns].
  unfold BurnUpdateV1.enc, BurnUpdateV1.dec. cbn [BurnUpdateV1.nullifiers] in *.
  rewrite try_from_len_ok by done. eexists. split; [reflexivity |].
  rewrite at_least_ok by lengths. erewrite (read_len_ok _ _ (Z.of_nat (List.length ns))); [| read_back; reflexivity | done].
  rewrite exactly_ok by lengths. rewrite Nat2Z.id, <- (app_nil_r (concat ns)).
  rewrite (read_each_ok _ nullifier_wf); [done | | done | by rewrite to_le_bytes_length].
  intros. by apply read_nullifier_ok.
Qed.

Lemma transfer_update_roundtrip (u : TransferUpdateV1.t) :
  Forall nullifier_wf (TransferUpdateV1.nullifiers u) -> Forall fp_wf (TransferUpdateV1.commitments u) ->
  is_u32 (Z.of_nat (List.length (TransferUpdateV1.nullifiers u))) ->
  is_u32 (Z.of_nat (List.length (TransferUpdateV1.commitments u))) ->
  exists b, TransferUpdateV1.enc u = Ok b /\ TransferUpdateV1.dec b = Ok u.
Proof.
  intros Hn%nullifiers_sized Hc%commitments_sized Hl Hm. pose proof (sized _ _ Hn) as Hcn. pose proof (sized _ _ Hc) as Hcc.
  destruct u as [ns cs]. unfold TransferUpdateV1.enc, TransferUpdateV1.dec. cbn [TransferUpdateV1.nullifiers TransferUpdateV1.commitments] in *.
  rewrite !try_from_len_ok by done. eexists. split; [reflexivity |].
  rewrite at_least_ok by lengths. erewrite (read_len_ok _ _ (Z.of_nat (List.length ns))); [| read_back; reflexivity | done].
  rewrite at_least_ok by lengths. erewrite (read_len_ok _ _ (Z.of_nat (List.length cs))); [| read_back; reflexivity | done].
  rewrite exactly_ok by lengths. rewrite !Nat2Z.id, (read_each_ok _ nullifier_wf); [| intros; by apply read_nullifier_ok | done | by rewrite to_le_bytes_length].
  pose proof (read_each_ok (read_base "TransferUpdateV1: invalid commitment") fp_wf cs
    (to_le_bytes 4 (Z.of_nat (List.length ns)) ++ concat ns ++ to_le_bytes 4 (Z.of_nat (List.length cs))) []
    (4 + Z.of_nat (List.length ns) * 32 + 4)) as Hr.
  rewrite <- !app_assoc, app_nil_r in Hr. rewrite Hr; [done | intros; by apply read_base_ok | done | lengths].
Qed.
End roundtrip.
