(* ===== verification/L1Contracts.v ===== *)
(** * Call parameters of the other L1 contracts ([src/contract/{promissory_note,purse,box}])

    The decoders the node runs on untrusted call data to learn which nullifiers
    a call spends, and the function selectors of the four L1 contracts.  The
    parameters are the front of a payload that continues with a note, so the
    length checks are minima. *)

From Stdlib Require Import String.
From S2P Require Import Prelude Units Serial Externals Transaction NativeToken.

(** ** Function selectors *)

Inductive NativeTokenFunction :=
| MintV1 | BurnV1 | TransferV1 | SpendV1 | PoWRewardV1 | FeeCollectV1 | UncleMintV1 | FeeV3.

Definition native_token_function (b : Z) : CRes NativeTokenFunction :=
  match b with
  | 0x01 => Ok MintV1
  | 0x02 => Ok BurnV1
  | 0x03 => Ok TransferV1
  | 0x04 => Ok SpendV1
  | 0x05 => Ok PoWRewardV1
  | 0x06 => Ok FeeCollectV1
  | 0x07 => Ok UncleMintV1
  | 0x08 => Ok FeeV3
  | _ => Err InvalidFunction
  end.

Inductive PromissoryNoteFunction :=
| PnRegisterTypeV1 | PnRedeemV1 | PnIssueV1 | PnRevokeV1 | PnTransferV1 | PnOtcSwapV1.

Definition promissory_note_function (b : Z) : CRes PromissoryNoteFunction :=
  match b with
  | 0x00 => Ok PnRegisterTypeV1
  | 0x01 => Ok PnRedeemV1
  | 0x02 => Ok PnIssueV1
  | 0x03 => Ok PnRevokeV1
  | 0x04 => Ok PnTransferV1
  | 0x05 => Ok PnOtcSwapV1
  | _ => Err InvalidFunction
  end.

Inductive PurseFunction := PurseInitialize | PurseDeposit | PurseWithdraw | PurseBalance.

Definition purse_function (b : Z) : CRes PurseFunction :=
  match b with
  | 0x00 => Ok PurseInitialize
  | 0x01 => Ok PurseDeposit
  | 0x02 => Ok PurseWithdraw
  | 0x03 => Ok PurseBalance
  | _ => Err InvalidFunction
  end.

Inductive BoxFunction := BoxInitialize | BoxPut | BoxTake.

Definition box_function (b : Z) : CRes BoxFunction :=
  match b with
  | 0x00 => Ok BoxInitialize
  | 0x01 => Ok BoxPut
  | 0x02 => Ok BoxTake
  | _ => Err InvalidFunction
  end.

(** ** Promissory notes *)

(** The input differs from the native one in its signature key, a field
    element here. *)
Module PnInput.
Record t := {
  value_commit : list Z; token_commit : list Z; nullifier : list Z; merkle_root : list Z;
  user_data_enc : list Z; spend_hook : list Z; signature_public : list Z
}.

Definition ENCODED_SIZE : Z := 224.

Definition dec `{Externals} (data : list Z) : CRes t :=
  if negb (Z.of_nat (List.length data) =? ENCODED_SIZE) then Err (IoError "Input: length")
  else
    let? vc := read_point "Input: invalid value_commit" data 0 in
    let? tc := read_base "Input: invalid token_commit" data 32 in
    let? nf := read_nullifier data 64 in
    let? root := read_base "Input: invalid merkle_root" data 96 in
    let? ude := read_base "Input: invalid user_data_enc" data 128 in
    let? hook := read_base "Input: invalid spend_hook" data 160 in
    let? sp := read_base "Input: invalid signature_public" data 192 in
    Ok {| value_commit := vc; token_commit := tc; nullifier := nf; merkle_root := root;
          user_data_enc := ude; spend_hook := hook; signature_public := sp |}.
End PnInput.

Module PnOutput.
Record t := {
  value_commit : list Z; token_commit : list Z; commitment : list Z;
  note : AeadEncryptedNote; spend_hook : list Z
}.

Definition enc `{Externals} (o : t) : CRes (list Z) :=
  let note_bytes := serialize note_codec (note o) in
  let? n := try_from_len (List.length note_bytes) in
  Ok (value_commit o ++ token_commit o ++ commitment o ++ to_le_bytes 4 n ++ note_bytes ++
      spend_hook o).

Definition dec `{Externals} (data : list Z) : CRes t :=
  at_least data 132 (IoError "Output: too short") (
  let? vc := read_point "Output: invalid value_commit" data 0 in
  let? tc := read_base "Output: invalid token_commit" data 32 in
  let? cm := read_base "CapCommitment: invalid field element" data 64 in
  let? note_len := read_len data 96 in
  let note_end := 100 + note_len in
  at_least data (note_end + 32) (IoError "Output: length") (
  let? raw := read_slice data 100 (note_end - 100) in
  match deserialize note_codec raw with
  | Err _ => Err (IoError "Output: invalid note")
  | Ok n =>
      let? hook := read_base "Output: invalid spend_hook" data note_end in
      Ok {| value_commit := vc; token_commit := tc; commitment := cm; note := n; spend_hook := hook |}
  end)).
End PnOutput.

Module PnRedeemParamsV1.
Record t := { input : PnInput.t; output : PnOutput.t; tx_nonce : list Z }.

Definition dec `{Externals} (data : list Z) : CRes t :=
  let? raw := read_slice data 0 PnInput.ENCODED_SIZE in
  let? inp := PnInput.dec raw in
  let pos := PnInput.ENCODED_SIZE in
  if Z.of_nat (List.length data) <? pos then Err (IoError "payload truncated")
  else
    let? out := PnOutput.dec (drop (Z.to_nat pos) data) in
    let? output_bytes := PnOutput.enc out in
    let pos2 := pos + Z.of_nat (List.length output_bytes) in
    at_least data (pos2 + 32) (IoError "RedeemParamsV1: length") (
    let? nonce := read_base "RedeemParamsV1: invalid tx_nonce" data pos2 in
    Ok {| input := inp; output := out; tx_nonce := nonce |}).
End PnRedeemParamsV1.

Module PnRevokeParamsV1.
Record t := { inputs : list PnInput.t; tx_nonce : list Z }.

Definition dec `{Externals} (data : list Z) : CRes t :=
  at_least data 36 (IoError "RevokeParamsV1: too short") (
  let? count := read_len data 0 in
  let? (ins, pos) := read_fixed PnInput.dec PnInput.ENCODED_SIZE (Z.to_nat count) data 4 in
  at_least data (pos + 32) (IoError "RevokeParamsV1: missing trailing field") (
  let? nonce := read_base "RevokeParamsV1: invalid tx_nonce" data pos in
  Ok {| inputs := ins; tx_nonce := nonce |})).
End PnRevokeParamsV1.

(** [TransferParamsV1] and [OtcSwapParamsV1] have one wire format. *)
Module PnTransferParamsV1.
Record t := { inputs : list PnInput.t; outputs : list PnOutput.t; tx_nonce : list Z }.

Definition dec `{Externals} (data : list Z) : CRes t :=
  at_least data 40 (IoError "TransferParamsV1: too short") (
  let? input_count := read_len data 0 in
  let? (ins, pos) := read_fixed PnInput.dec PnInput.ENCODED_SIZE (Z.to_nat input_count) data 4 in
  at_least data (pos + 4) (IoError "TransferParamsV1: missing output count") (
  let? output_count := read_len data pos in
  let? (outs, pos') := read_framed PnOutput.dec (Z.to_nat output_count) data (pos + 4) in
  at_least data (pos' + 32) (IoError "TransferParamsV1: missing trailing fields") (
  let? nonce := read_base "TransferParamsV1: invalid tx_nonce" data pos' in
  Ok {| inputs := ins; outputs := outs; tx_nonce := nonce |}))).

Definition dec_otc_swap `{Externals} (data : list Z) : CRes t :=
  at_least data 40 (IoError "OtcSwapParamsV1: too short") (
  let? input_count := read_len data 0 in
  let? (ins, pos) := read_fixed PnInput.dec PnInput.ENCODED_SIZE (Z.to_nat input_count) data 4 in
  at_least data (pos + 4) (IoError "OtcSwapParamsV1: missing output count") (
  let? output_count := read_len data pos in
  let? (outs, pos') := read_framed PnOutput.dec (Z.to_nat output_count) data (pos + 4) in
  at_least data (pos' + 32) (IoError "OtcSwapParamsV1: missing trailing field") (
  let? nonce := read_base "OtcSwapParamsV1: invalid tx_nonce" data pos' in
  Ok {| inputs := ins; outputs := outs; tx_nonce := nonce |}))).
End PnTransferParamsV1.

(** ** Purses and boxes *)

(** [read_merkle_node] at the [n] consecutive slots from [offset]. *)
Fixpoint read_path `{Externals} (n : nat) (data : list Z) (offset : Z) : CRes (list (list Z)) :=
  match n with
  | O => Ok []
  | S n' =>
      let? node := read_base "read_merkle_node: invalid MerkleNode" data offset in
      let? rest := read_path n' data (offset + 32) in
      Ok (node :: rest)
  end.

(** The length-prefixed proof at [offset] and the position after it, with
    [tail] more bytes required. *)
Definition read_proof (field : string) (data : list Z) (offset tail : Z) : CRes (list Z * Z) :=
  let? proof_len := read_len data offset in
  let pos2 := offset + 4 + proof_len in
  at_least data (pos2 + tail) (DecodeFailure field) (
  let? proof := read_slice data (offset + 4) proof_len in
  Ok (proof, pos2)).

Module DepositParams.
Record t := {
  nullifier : list Z; expected_root : list Z; new_leaf : list Z; old_commit_x : list Z;
  old_commit_y : list Z; new_commit_x : list Z; new_commit_y : list Z; leaf_pos : Z;
  merkle_path : list (list Z); proof : list Z; tx_nonce : list Z; derived_purse_id : list Z
}.

Definition dec `{Externals} (data : list Z) : CRes t :=
  at_least data (228 + 1024 + 1) (DecodeFailure "DepositParams") (
  let? nf := read_nullifier data 0 in
  let? er := read_base "invalid MerkleNode" data 32 in
  let? nl := read_base "invalid MerkleNode" data 64 in
  let? ocx := read_base "invalid base" data 96 in
  let? ocy := read_base "invalid base" data 128 in
  let? ncx := read_base "invalid base" data 160 in
  let? ncy := read_base "invalid base" data 192 in
  let? lp := read_len data 224 in
  let? mp := read_path 32 data 228 in
  let? (pf, p2) := read_proof "DepositParams" data (228 + 1024) 64 in
  let? tn := read_base "invalid base" data p2 in
  let? dpi := read_base "invalid base" data (p2 + 32) in
  Ok {| nullifier := nf; expected_root := er; new_leaf := nl; old_commit_x := ocx;
        old_commit_y := ocy; new_commit_x := ncx; new_commit_y := ncy; leaf_pos := lp;
        merkle_path := mp; proof := pf; tx_nonce := tn; derived_purse_id := dpi |}).

(** [WithdrawParams::decode] is [DepositParams::decode]. *)
Definition dec_withdraw `{Externals} (data : list Z) : CRes t := dec data.
End DepositParams.

Module PutParams.
Record t := {
  nullifier : list Z; expected_root : list Z; new_leaf : list Z; leaf_pos : Z;
  merkle_path : list (list Z); proof : list Z; tx_nonce : list Z
}.

Definition dec `{Externals} (data : list Z) : CRes t :=
  at_least data (100 + 1024 + 1) (DecodeFailure "PutParams") (
  let? nf := read_nullifier data 0 in
  let? er := read_base "invalid MerkleNode" data 32 in
  let? nl := read_base "invalid MerkleNode" data 64 in
  let? lp := read_len data 96 in
  let? mp := read_path 32 data 100 in
  let? (pf, p2) := read_proof "PutParams" data (100 + 1024) 32 in
  let? tn := read_base "invalid base" data p2 in
  Ok {| nullifier := nf; expected_root := er; new_leaf := nl; leaf_pos := lp; merkle_path := mp;
        proof := pf; tx_nonce := tn |}).
End PutParams.

Module TakeParams.
Record t := {
  box_tag : list Z; nullifier : list Z; expected_root : list Z; leaf_pos : Z;
  merkle_path : list (list Z); proof : list Z; tx_nonce : list Z
}.

Definition dec `{Externals} (data : list Z) : CRes t :=
  at_least data (100 + 1024 + 1) (DecodeFailure "TakeParams") (
  let? tag := read_base "invalid base" data 0 in
  let? nf := read_nullifier data 32 in
  let? er := read_base "invalid MerkleNode" data 64 in
  let? lp := read_len data 96 in
  let? mp := read_path 32 data 100 in
  let? (pf, p2) := read_proof "TakeParams" data (100 + 1024) 32 in
  let? tn := read_base "invalid base" data p2 in
  Ok {| box_tag := tag; nullifier := nf; expected_root := er; leaf_pos := lp; merkle_path := mp;
        proof := pf; tx_nonce := tn |}).
End TakeParams.
