(* ===== verification/TokenContract.v ===== *)
(** * The native token contract ([src/contract/native_token/src/entrypoint/mod.rs])

    The contract that mints, moves, burns and collects the native token.  A call
    has three parts: [get_metadata] names the public inputs of the proofs the
    host verifies, [process_instruction] checks the call against the contract's
    databases and returns an update, [process_update] writes it.  The databases
    are parts of one key-value view (the overlay of the block in progress over
    the contracts tree): the key of an entry is the hash of contract and
    database name, followed by the entry's own key.  Looking a
    database up by name always succeeds: it is the hash of the name.  The host undoes the writes of a call that fails,
    so a failed update has no resulting view. *)

From Stdlib Require Import String.
From S2P Require Import Prelude Units Emission Serial Externals Transaction Store Consensus NativeToken L1Contracts.
From S2P Require Import Supply Pedersen TokenUpdates.

(** The append-only Merkle tree of the library [bridgetree], the circuits built
    into the contract and the host's registration of a circuit. *)
Class ContractHost `{EXT : Externals} := {
  MerkleTree : Type;
  mt_new : MerkleTree;
  mt_append : MerkleTree -> bytes -> MerkleTree;
  mt_root : MerkleTree -> option bytes;
  mt_encode : MerkleTree -> bytes;
  mt_decode : bytes -> option MerkleTree;
  mt_codec : forall t, mt_decode (mt_encode t) = Some t;
  mt_root_wf : forall t r, mt_root t = Some r -> bytes_wf 32 r;
  zkas_db_set : bytes -> bytes -> Tree -> CRes Tree;
  mint_bincode : bytes;
  burn_bincode : bytes;
  fee_bincode : bytes;
  CARGO_PKG_VERSION : bytes
}.

(** What the host says about the call being executed. *)
Record CallEnv := { verifying_block_height : Z; call_tx_hash : bytes; call_index : Z; call_tx_commitment : bytes }.

(** [NativeTokenError], and its numbers on the wire. *)
Inductive NativeTokenError :=
| InsufficientBalance | InvalidSignature | FeeParseError | CommitmentNotFound | InvalidMerkleProof | AssetIdMismatch
| RootsValueDataMismatch | TransferMerkleRootNotFound | DuplicateCommitment | TransferMissingInputs
| TransferMissingOutputs | TokenMismatch | DuplicateNullifier | UnassignedFunction | ValueMismatch
| FeeTotalMismatch | ZeroFeeClaim.

Definition token_error (e : NativeTokenError) : ContractError :=
  Custom match e with
  | InsufficientBalance => 0 | InvalidSignature => 1 | FeeParseError => 2 | CommitmentNotFound => 3
  | InvalidMerkleProof => 4 | AssetIdMismatch => 5 | RootsValueDataMismatch => 6 | TransferMerkleRootNotFound => 7
  | DuplicateCommitment => 8 | TransferMissingInputs => 9 | TransferMissingOutputs => 10 | TokenMismatch => 11
  | DuplicateNullifier => 12 | UnassignedFunction => 13 | ValueMismatch => 14 | FeeTotalMismatch => 15
  | ZeroFeeClaim => 16
  end.

(** ** Databases and keys *)

Definition COMMITMENT_SET_TREE : bytes := ascii_key "commitment_set".
Definition NULLIFIERS_TREE : bytes := ascii_key "nullifiers".
Definition INFO_TREE : bytes := ascii_key "info".
Definition COMMITMENT_ROOTS_TREE : bytes := ascii_key "commitment_roots".
Definition NULLIFIER_ROOTS_TREE : bytes := ascii_key "nullifier_roots".
Definition FEES_TREE : bytes := ascii_key "fees".

Definition DB_VERSION : bytes := ascii_key "db_version".
Definition TOTAL_SUPPLY : bytes := ascii_key "total_supply".
Definition CUMULATIVE_VALUE_COMMIT : bytes := ascii_key "cumulative_value_commit".
Definition CUMULATIVE_BLIND : bytes := ascii_key "cumulative_blind".
Definition LATEST_COMMITMENT_ROOT : bytes := ascii_key "last_commitment_root".
Definition LATEST_NULLIFIER_ROOT : bytes := ascii_key "last_nullifier_root".
Definition COMMITMENT_MERKLE_TREE : bytes := ascii_key "commitment_merkle_tree".

Definition EMPTY_COMMITMENT_SET_ROOT : bytes :=
  [0xb8; 0xc1; 0x07; 0x5a; 0x80; 0xa8; 0x09; 0x65; 0xc2; 0x39; 0x8f; 0x71; 0x1f; 0xe7; 0x3e; 0x05;
   0xb4; 0xed; 0xae; 0xde; 0xf1; 0x62; 0xf2; 0x61; 0xd4; 0xee; 0xd7; 0xcd; 0x72; 0x74; 0x8d; 0x17].

Definition DRKW_ASSET_ID : bytes := zero32.
Definition DOMAIN_TOKEN_COMMIT : bytes := to_le_bytes 32 2.
Definition DOMAIN_TX_BINDING : bytes := to_le_bytes 32 3.

Section contract.
Context `{EXT : Externals} `{OPS : !CurveOps} `{MUL : !CurveMul} `{HOST : !ContractHost}.

(** [ContractId::hash_state_id]. *)
Definition hash_state_id (cid name : bytes) : bytes := blake3 (cid ++ name).

(** [TxBackend::composite_key]. *)
Definition composite_key (cid name key : bytes) : bytes := hash_state_id cid name ++ key.

(** The host's view: an empty value counts as absent. *)
Definition db_get (cid name key : bytes) (st : Tree) : option bytes :=
  match st !! composite_key cid name key with Some [] | None => None | Some v => Some v end.

Definition db_contains_key (cid name key : bytes) (st : Tree) : bool := bool_decide (is_Some (db_get cid name key st)).

Definition db_set (cid name key value : bytes) (st : Tree) : Tree := <[composite_key cid name key := value]> st.

Definition db_mark_spent (cid name key : bytes) (st : Tree) : Tree := db_set cid name key [1] st.

(** [merkle_add] of the host: append the nodes, store the tree, record the new
    root and make it the latest. *)
Definition merkle_add (cid info roots root_key tree_key : bytes) (nodes : list bytes) (env : CallEnv) (st : Tree) : CRes Tree :=
  let? return_data := ok_or (db_get cid info tree_key st) DbGetEmpty in
  let? (set_size, rest) :=
    (match decode u32_codec return_data with Ok p => Ok p | Err _ => Err (HostError "merkle set size") end) in
  let? tree := ok_or (mt_decode rest) (HostError "merkle tree") in
  let tree' := foldl mt_append tree nodes in
  let size' := wrap 32 (set_size + wrap 32 (Z.of_nat (List.length nodes))) in
  let st1 := db_set cid info tree_key (to_le_bytes 4 size' ++ mt_encode tree') st in
  let? latest_root := ok_or (mt_root tree') (HostError "merkle root") in
  let st2 := db_set cid roots latest_root (call_tx_hash env ++ [call_index env]) st1 in
  Ok (db_set cid info root_key latest_root st2).

Definition add_commitments (cid : bytes) (nodes : list bytes) (env : CallEnv) (st : Tree) : CRes Tree :=
  merkle_add cid INFO_TREE COMMITMENT_ROOTS_TREE LATEST_COMMITMENT_ROOT COMMITMENT_MERKLE_TREE nodes env st.

(** The token commitment of the native asset with a zero blind. *)
Definition native_token_commit : bytes := poseidon_hash [DOMAIN_TOKEN_COMMIT; zero32; zero32].

Definition is_nil {A : Type} (l : list A) : bool := match l with [] => true | _ => false end.

(** [if !cond { return Err(e.into()) }]. *)
Definition require {A : Type} (b : bool) (e : NativeTokenError) (k : CRes A) : CRes A :=
  ensure b (token_error e) k.

(** [data.try_into::<[u8; n]>()], the name of the value in the error. *)
Definition sized_value (n : Z) (what : string) (v : bytes) : CRes bytes :=
  if Z.of_nat (List.length v) =? n then Ok v else Err (IoError what).

(** ** Initialization *)

Definition roots_value (env : CallEnv) : bytes := call_tx_hash env ++ [call_index env].

Definition set_if_absent (cid name key value : bytes) (st : Tree) : Tree :=
  if db_contains_key cid name key st then st else db_set cid name key value st.

Definition init_contract (cid : bytes) (env : CallEnv) (st : Tree) : CRes Tree :=
  let? st := zkas_db_set cid mint_bincode st in
  let? st := zkas_db_set cid burn_bincode st in
  let? st := zkas_db_set cid fee_bincode st in
  require (Z.of_nat (List.length (roots_value env)) =? 33) RootsValueDataMismatch (
  let st := set_if_absent cid COMMITMENT_ROOTS_TREE EMPTY_COMMITMENT_SET_ROOT (roots_value env) st in
  let st := set_if_absent cid NULLIFIER_ROOTS_TREE zero32 (roots_value env) st in
  let st := set_if_absent cid FEES_TREE (to_le_bytes 8 (BlockHeight.succ BlockHeight.GENESIS)) (to_le_bytes 8 0) st in
  let st :=
    if db_contains_key cid INFO_TREE DB_VERSION st then st
    else
      let tree := mt_append mt_new zero32 in
      let st := db_set cid INFO_TREE COMMITMENT_MERKLE_TREE (to_le_bytes 4 0 ++ mt_encode tree) st in
      let st := db_set cid INFO_TREE LATEST_COMMITMENT_ROOT EMPTY_COMMITMENT_SET_ROOT st in
      db_set cid INFO_TREE LATEST_NULLIFIER_ROOT zero32 st in
  Ok (db_set cid INFO_TREE DB_VERSION CARGO_PKG_VERSION st)).

(** ** Metadata

    The public inputs of the proofs, one entry per proof with the circuit's
    name.  The empty buffer ([None]) is how the contract rejects a call; tables
    are followed on the wire by an empty list of signers. *)

Definition MINT_NS : string := "Mint_V2".
Definition BURN_NS : string := "Burn_V2".
Definition FEE_NS : string := "Fee_V3".

Abbreviation Tables := (list (string * list bytes)).

(** [to_affine().coordinates()]: the identity has none. *)
Definition coordinates (p : bytes) : option (bytes * bytes) :=
  if bool_decide (p = point_identity) then None else Some (point_xy p).

(** A key's [xy()], an error at the identity. *)
Definition key_coordinates (p : bytes) : CRes (bytes * bytes) := ok_or (coordinates p) (token_error InvalidSignature).

Definition tx_binding_of (env : CallEnv) (tx_nonce : bytes) : CRes bytes :=
  if fp_canonical (call_tx_commitment env)
  then Ok (poseidon_hash [DOMAIN_TX_BINDING; call_tx_commitment env; tx_nonce])
  else Err (IoError "get_tx_commitment: host value is not a canonical field element").

(** [None] of a coordinate is the early [return Ok(vec![])]. *)
Definition or_empty {A B : Type} (o : option A) (k : A -> CRes (option B)) : CRes (option B) :=
  match o with Some a => k a | None => Ok None end.

(** The burn proof of one input: the eleven public inputs. *)
Definition burn_entry (env : CallEnv) (nonce : bytes) (i : Input.t) (v sig : bytes * bytes) : CRes (string * list bytes) :=
  let? binding := tx_binding_of env nonce in
  Ok (BURN_NS, [Input.nullifier i; v.1; v.2; Input.token_commit i; Input.merkle_root i; Input.user_data_enc i;
                Input.spend_hook i; sig.1; sig.2; binding; nonce]).

(** The mint proof of one output: the ten public inputs. *)
Definition mint_entry (env : CallEnv) (nonce : bytes) (o : Output.t) (nf : bytes) (v : bytes * bytes) : CRes (string * list bytes) :=
  let? binding := tx_binding_of env nonce in
  Ok (MINT_NS, [Output.commitment o; nf; v.1; v.2; Output.token_commit o; v.1; v.2; zero32; binding; nonce]).

(** The input loop of a burn; the transfer's looks at the key first. *)
Fixpoint burn_tables (env : CallEnv) (nonce : bytes) (ins : list Input.t) : CRes (option Tables) :=
  match ins with
  | [] => Ok (Some [])
  | i :: rest =>
      or_empty (coordinates (Input.value_commit i)) (fun v =>
      let? sig := key_coordinates (Input.signature_public i) in
      let? e := burn_entry env nonce i v sig in
      let? es := burn_tables env nonce rest in
      Ok (option_map (cons e) es))
  end.

Fixpoint transfer_in_tables (env : CallEnv) (nonce : bytes) (ins : list Input.t) : CRes (option Tables) :=
  match ins with
  | [] => Ok (Some [])
  | i :: rest =>
      let? sig := key_coordinates (Input.signature_public i) in
      or_empty (coordinates (Input.value_commit i)) (fun v =>
      let? e := burn_entry env nonce i v sig in
      let? es := transfer_in_tables env nonce rest in
      Ok (option_map (cons e) es))
  end.

Fixpoint transfer_out_tables (env : CallEnv) (nonce : bytes) (outs : list Output.t) : CRes (option Tables) :=
  match outs with
  | [] => Ok (Some [])
  | o :: rest =>
      or_empty (coordinates (Output.value_commit o)) (fun v =>
      or_empty (Output.nullifier o) (fun nf =>
      let? e := mint_entry env nonce o nf v in
      let? es := transfer_out_tables env nonce rest in
      Ok (option_map (cons e) es)))
  end.

(** Empty or undecodable parameters give the empty buffer. *)
Definition decoded_or_empty {A B : Type} (params : bytes) (r : CRes A) (k : A -> CRes (option B)) : CRes (option B) :=
  if is_nil params then Ok None else match r with Ok p => k p | Err _ => Ok None end.

Definition burn_get_metadata (env : CallEnv) (params : bytes) : CRes (option Tables) :=
  decoded_or_empty params (BurnParamsV1.dec params) (fun bp =>
  burn_tables env (BurnParamsV1.tx_nonce bp) (BurnParamsV1.inputs bp)).

Definition transfer_get_metadata (env : CallEnv) (params : bytes) : CRes (option Tables) :=
  decoded_or_empty params (TransferParamsV1.dec params) (fun tp =>
  let nonce := TransferParamsV1.tx_nonce tp in
  let? ins := transfer_in_tables env nonce (TransferParamsV1.inputs tp) in
  or_empty ins (fun burns =>
  let? outs := transfer_out_tables env nonce (TransferParamsV1.outputs tp) in
  Ok (option_map (app burns) outs))).

Definition spend_get_metadata (env : CallEnv) (params : bytes) : CRes (option Tables) :=
  decoded_or_empty params (SpendParamsV1.dec params) (fun sp =>
  let inp := SpendParamsV1.input sp in
  let out := SpendParamsV1.output sp in
  let nonce := SpendParamsV1.tx_nonce sp in
  or_empty (coordinates (Input.value_commit inp)) (fun v =>
  or_empty (coordinates (Output.value_commit out)) (fun w =>
  let? sig := key_coordinates (Input.signature_public inp) in
  let? e := burn_entry env nonce inp v sig in
  or_empty (Output.nullifier out) (fun nf =>
  let? e' := mint_entry env nonce out nf w in
  Ok (Some [e; e']))))).

Definition fee_v3_get_metadata (env : CallEnv) (params : bytes) : CRes (option Tables) :=
  let? fp := FeeParamsV3.dec params in
  let inp := FeeParamsV3.input fp in
  let out := FeeParamsV3.output fp in
  or_empty (coordinates (Input.value_commit inp)) (fun v =>
  or_empty (coordinates (Output.value_commit out)) (fun w =>
  or_empty (coordinates (FeeParamsV3.fee_value_commit fp)) (fun f =>
  let? sig := key_coordinates (Input.signature_public inp) in
  let? binding := tx_binding_of env (FeeParamsV3.tx_nonce fp) in
  Ok (Some [(FEE_NS, [Input.nullifier inp; v.1; v.2; Input.token_commit inp; Input.merkle_root inp;
    Input.user_data_enc inp; sig.1; sig.2; Output.commitment out; w.1; w.2; f.1; f.2; binding;
    FeeParamsV3.tx_nonce fp])])))).

Definition plaintext_call_get_metadata {A : Type} (params : bytes) (decoded : CRes A) : CRes (option Tables) :=
  decoded_or_empty params decoded (fun _ => Ok (Some [])).

Definition get_metadata (env : CallEnv) (ix : bytes) : CRes (option Tables) :=
  match ix with
  | [] => Ok None
  | selector :: params =>
      match native_token_function selector with
      | Err _ => Ok None
      | Ok MintV1 => Err InvalidFunction
      | Ok BurnV1 => burn_get_metadata env params
      | Ok TransferV1 => transfer_get_metadata env params
      | Ok SpendV1 => spend_get_metadata env params
      | Ok PoWRewardV1 => plaintext_call_get_metadata params (PoWRewardParamsV1.dec params)
      | Ok FeeCollectV1 => plaintext_call_get_metadata params (FeeCollectParamsV1.dec params)
      | Ok UncleMintV1 => plaintext_call_get_metadata params (UncleMintParamsV1.dec params)
      | Ok FeeV3 => fee_v3_get_metadata env params
      end
  end.

(** ** The checks *)

(** [fees_db[height]]; a stored value that is not eight bytes is an error. *)
Definition read_fees (cid : bytes) (h : Z) (st : Tree) : CRes (option Z) :=
  match db_get cid FEES_TREE (to_le_bytes 8 h) st with
  | Some v => let? b := sized_value 8 "Corrupt state: fees_db value wrong size" v in Ok (Some (from_le_bytes b))
  | None => Ok None
  end.

(** The sum is plain: it wraps in the release profile. *)
Definition fee_v3 (cid : bytes) (env : CallEnv) (params : bytes) (st : Tree) : CRes bytes :=
  let? p := FeeParamsV3.dec params in
  let inp := FeeParamsV3.input p in
  let out := FeeParamsV3.output p in
  require (bool_decide (Input.token_commit inp = native_token_commit)) TokenMismatch (
  require (bool_decide (Output.token_commit out = native_token_commit)) TokenMismatch (
  require (db_contains_key cid COMMITMENT_ROOTS_TREE (Input.merkle_root inp) st) TransferMerkleRootNotFound (
  require (negb (db_contains_key cid NULLIFIERS_TREE (Input.nullifier inp) st)) DuplicateNullifier (
  require (negb (db_contains_key cid COMMITMENT_SET_TREE (Output.commitment out) st)) DuplicateCommitment (
  let? current := read_fees cid (verifying_block_height env) st in
  let total := wrap 64 (default 0 current + FeeParamsV3.fee p) in
  Ok (0x08 :: FeeUpdate.enc {| FeeUpdate.nullifier := Input.nullifier inp; FeeUpdate.commitment := Output.commitment out;
        FeeUpdate.height := verifying_block_height env; FeeUpdate.fee := total |})))))).

(** The loops over inputs and outputs: every root known, every nullifier
    unspent, every commitment new, against the databases as they were. *)
Fixpoint check_inputs (cid : bytes) (ins : list Input.t) (st : Tree) : CRes (list bytes) :=
  match ins with
  | [] => Ok []
  | i :: rest =>
      require (db_contains_key cid COMMITMENT_ROOTS_TREE (Input.merkle_root i) st) TransferMerkleRootNotFound (
      require (negb (db_contains_key cid NULLIFIERS_TREE (Input.nullifier i) st)) DuplicateNullifier (
      let? ns := check_inputs cid rest st in Ok (Input.nullifier i :: ns)))
  end.

Fixpoint check_outputs (cid : bytes) (outs : list Output.t) (st : Tree) : CRes (list bytes) :=
  match outs with
  | [] => Ok []
  | o :: rest =>
      require (negb (db_contains_key cid COMMITMENT_SET_TREE (Output.commitment o) st)) DuplicateCommitment (
      let? cs := check_outputs cid rest st in Ok (Output.commitment o :: cs))
  end.

(** The running sums per token: [iter_mut().find] then add, or push. *)
Fixpoint add_to_sums (tc vc : bytes) (sums : list (bytes * bytes)) : list (bytes * bytes) :=
  match sums with
  | [] => [(tc, vc)]
  | (t, s) :: rest => if bool_decide (t = tc) then (t, point_add s vc) :: rest else (t, s) :: add_to_sums tc vc rest
  end.

Definition token_sums (entries : list (bytes * bytes)) : list (bytes * bytes) :=
  foldl (fun sums e => add_to_sums e.1 e.2 sums) [] entries.

Fixpoint find_sum (tc : bytes) (sums : list (bytes * bytes)) : option bytes :=
  match sums with
  | [] => None
  | (t, s) :: rest => if bool_decide (t = tc) then Some s else find_sum tc rest
  end.

Definition input_entry (i : Input.t) : bytes * bytes := (Input.token_commit i, Input.value_commit i).
Definition output_entry (o : Output.t) : bytes * bytes := (Output.token_commit o, Output.value_commit o).

Definition conserves (ins : list Input.t) (outs : list Output.t) : bool :=
  let input_sums := token_sums (map input_entry ins) in
  let output_sums := token_sums (map output_entry outs) in
  forallb (fun e => bool_decide (find_sum e.1 output_sums = Some e.2)) input_sums &&
  forallb (fun e => bool_decide (is_Some (find_sum e.1 input_sums))) output_sums.

Definition transfer_v1 (cid : bytes) (params : bytes) (st : Tree) : CRes bytes :=
  let? tp := TransferParamsV1.dec params in
  require (negb (is_nil (TransferParamsV1.inputs tp))) TransferMissingInputs (
  require (negb (is_nil (TransferParamsV1.outputs tp))) TransferMissingOutputs (
  let? ns := check_inputs cid (TransferParamsV1.inputs tp) st in
  let? cs := check_outputs cid (TransferParamsV1.outputs tp) st in
  require (conserves (TransferParamsV1.inputs tp) (TransferParamsV1.outputs tp)) ValueMismatch (
  let? b := TransferUpdateV1.enc {| TransferUpdateV1.nullifiers := ns; TransferUpdateV1.commitments := cs |} in
  Ok (0x03 :: b)))).

Definition spend_v1 (cid : bytes) (params : bytes) (st : Tree) : CRes bytes :=
  let? sp := SpendParamsV1.dec params in
  let inp := SpendParamsV1.input sp in
  let out := SpendParamsV1.output sp in
  require (bool_decide (Input.token_commit inp = native_token_commit)) TokenMismatch (
  require (bool_decide (Output.token_commit out = native_token_commit)) TokenMismatch (
  require (db_contains_key cid COMMITMENT_ROOTS_TREE (Input.merkle_root inp) st) TransferMerkleRootNotFound (
  require (negb (db_contains_key cid NULLIFIERS_TREE (Input.nullifier inp) st)) DuplicateNullifier (
  require (negb (db_contains_key cid COMMITMENT_SET_TREE (Output.commitment out) st)) DuplicateCommitment (
  require (bool_decide (Input.value_commit inp = Output.value_commit out)) ValueMismatch (
  Ok (0x04 :: SpendUpdateV1.enc {| SpendUpdateV1.nullifier := Input.nullifier inp;
        SpendUpdateV1.commitment := Output.commitment out |}))))))).

Definition burn_v1 (cid : bytes) (params : bytes) (st : Tree) : CRes bytes :=
  let? bp := BurnParamsV1.dec params in
  require (negb (is_nil (BurnParamsV1.inputs bp))) TransferMissingInputs (
  let? ns := check_inputs cid (BurnParamsV1.inputs bp) st in
  let? b := BurnUpdateV1.enc {| BurnUpdateV1.nullifiers := ns |} in
  Ok (0x02 :: b)).

(** [pallas::Base::zero()] as a nullifier, the mint's clear input against its
    output, the note against its preimage. *)
Definition clear_mint_ok (i : ClearInput.t) (o : Output.t) : CRes unit :=
  require (bool_decide (ClearInput.asset_id i = DRKW_ASSET_ID)) TokenMismatch (
  require (bool_decide (pedersen_commitment_u64 (ClearInput.value i) (ClearInput.value_blind i) = Output.value_commit o))
    ValueMismatch (
  require (bool_decide (poseidon_hash [DOMAIN_TOKEN_COMMIT; ClearInput.asset_id i; ClearInput.token_blind i] =
    Output.token_commit o)) TokenMismatch (Ok tt))).

Definition read_supply (cid : bytes) (st : Tree) : CRes Z :=
  match db_get cid INFO_TREE TOTAL_SUPPLY st with
  | Some v => let? b := sized_value 8 "Corrupt state: TOTAL_SUPPLY wrong size" v in Ok (from_le_bytes b)
  | None => Ok 0
  end.

Definition read_cumulative (cid : bytes) (st : Tree) : CRes bytes :=
  match db_get cid INFO_TREE CUMULATIVE_VALUE_COMMIT st with
  | Some v =>
      let? b := sized_value 32 "Corrupt state: CUMULATIVE_VALUE_COMMIT wrong size" v in
      if point_canonical b then Ok b else Err (IoError "Corrupt state: CUMULATIVE_VALUE_COMMIT invalid point")
  | None => Ok point_identity
  end.

Definition read_blind (cid : bytes) (st : Tree) : CRes bytes :=
  match db_get cid INFO_TREE CUMULATIVE_BLIND st with
  | Some v =>
      let? b := sized_value 32 "Corrupt state: CUMULATIVE_BLIND wrong size" v in
      if scalar_canonical b then Ok b else Err (IoError "Corrupt state: CUMULATIVE_BLIND invalid scalar")
  | None => Ok zero32
  end.

(** The note: its preimage, its commitment and the value kept after the pins. *)
Definition note_ok (pr : PoWRewardParamsV1.t) : CRes unit :=
  require (CommitmentAttributes.value (PoWRewardParamsV1.commitment_attrs pr) =? PoWRewardParamsV1.effective_value pr)
    ValueMismatch (
  require (bool_decide (CommitmentAttributes.to_commitment (PoWRewardParamsV1.commitment_attrs pr) =
    Output.commitment (PoWRewardParamsV1.output pr))) ValueMismatch (
  require (bool_decide (checked_add 64 (PoWRewardParamsV1.effective_value pr) (PoWRewardParamsV1.total_pin pr) =
    Some (ClearInput.value (PoWRewardParamsV1.input pr)))) ValueMismatch (Ok tt))).

Definition pow_reward_v1 (cid : bytes) (env : CallEnv) (params : bytes) (st : Tree) : CRes bytes :=
  let? pr := PoWRewardParamsV1.dec params in
  let inp := PoWRewardParamsV1.input pr in
  let out := PoWRewardParamsV1.output pr in
  let h := verifying_block_height env in
  let? _ := clear_mint_ok inp out in
  let? _ := note_ok pr in
  require (negb (db_contains_key cid COMMITMENT_SET_TREE (Output.commitment out) st)) DuplicateCommitment (
  ensure (negb (bool_decide (PoWRewardParamsV1.nullifier pr = zero32))) InvalidFunction (
  require (ClearInput.value inp =? expected_reward h) ValueMismatch (
  let? current_supply := read_supply cid st in
  let? new_supply := ok_or (checked_add 64 current_supply (ClearInput.value inp))
                       (IoError "Supply overflow: cumulative supply exceeds u64") in
  ensure (new_supply =? PoWRewardParamsV1.expected_cumulative_supply pr) InvalidFunction (
  let? old_cumulative := read_cumulative cid st in
  let? old_blind := read_blind cid st in
  ensure (bool_decide (PoWRewardParamsV1.old_cumulative_commit pr = old_cumulative)) InvalidFunction (
  ensure (negb ((0 <? current_supply) && negb (bool_decide (PoWRewardParamsV1.old_cumulative_blind pr = old_blind))))
    InvalidFunction (
  let new_blind := scalar_add old_blind (ClearInput.value_blind inp) in
  let new_cumulative := point_add old_cumulative (Output.value_commit out) in
  ensure (bool_decide (PoWRewardParamsV1.new_cumulative_commit pr = new_cumulative)) InvalidFunction (
  Ok (0x05 :: PoWRewardUpdateV1.enc {| PoWRewardUpdateV1.commitment := Output.commitment out;
        PoWRewardUpdateV1.height := h; PoWRewardUpdateV1.new_total_supply := new_supply;
        PoWRewardUpdateV1.cumulative_value_commit := new_cumulative;
        PoWRewardUpdateV1.aggregate_blind := new_blind |})))))))).

Definition uncle_mint_v1 (cid : bytes) (env : CallEnv) (params : bytes) (st : Tree) : CRes bytes :=
  let? um := UncleMintParamsV1.dec params in
  let inp := UncleMintParamsV1.input um in
  let out := UncleMintParamsV1.output um in
  let attrs := UncleMintParamsV1.commitment_attrs um in
  let? _ := clear_mint_ok inp out in
  require (negb (db_contains_key cid COMMITMENT_SET_TREE (Output.commitment out) st)) DuplicateCommitment (
  require (UncleMintParamsV1.effective_value um =? ClearInput.value inp) ValueMismatch (
  require (CommitmentAttributes.value attrs =? UncleMintParamsV1.effective_value um) ValueMismatch (
  require (bool_decide (CommitmentAttributes.to_commitment attrs = Output.commitment out)) ValueMismatch (
  ensure (match Output.nullifier out with None => true | Some _ => false end) InvalidFunction (
  Ok (0x07 :: UncleMintUpdateV1.enc {| UncleMintUpdateV1.commitment := Output.commitment out;
        UncleMintUpdateV1.height := verifying_block_height env |})))))).

Definition fee_collect_v1 (cid : bytes) (env : CallEnv) (params : bytes) (st : Tree) : CRes bytes :=
  let? fc := FeeCollectParamsV1.dec params in
  let h := verifying_block_height env in
  let out := FeeCollectParamsV1.output fc in
  require (negb (FeeCollectParamsV1.total_fees fc =? 0)) ZeroFeeClaim (
  let? pot := read_fees cid h st in
  let? accumulated := ok_or pot DbGetEmpty in
  require (FeeCollectParamsV1.total_fees fc =? accumulated) FeeTotalMismatch (
  require (negb (db_contains_key cid COMMITMENT_SET_TREE (Output.commitment out) st)) DuplicateCommitment (
  require (bool_decide (Output.token_commit out = native_token_commit)) TokenMismatch (
  Ok (0x06 :: FeeCollectUpdateV1.enc {| FeeCollectUpdateV1.commitment := Output.commitment out;
        FeeCollectUpdateV1.height := h; FeeCollectUpdateV1.total_fees := FeeCollectParamsV1.total_fees fc |}))))).

Definition process_instruction (cid : bytes) (env : CallEnv) (ix : bytes) (st : Tree) : CRes bytes :=
  match ix with
  | [] => Err (IoError "Empty call data")
  | selector :: params =>
      let? func := native_token_function selector in
      match func with
      | MintV1 => Err InvalidFunction
      | BurnV1 => burn_v1 cid params st
      | TransferV1 => transfer_v1 cid params st
      | SpendV1 => spend_v1 cid params st
      | PoWRewardV1 => pow_reward_v1 cid env params st
      | FeeCollectV1 => fee_collect_v1 cid env params st
      | UncleMintV1 => uncle_mint_v1 cid env params st
      | FeeV3 => fee_v3 cid env params st
      end
  end.

(** ** The writes *)

Definition mark_spent_all (cid : bytes) (ns : list bytes) (st : Tree) : Tree :=
  foldl (fun st n => db_mark_spent cid NULLIFIERS_TREE n st) st ns.

Definition add_to_set (cid : bytes) (cs : list bytes) (st : Tree) : Tree :=
  foldl (fun st c => db_set cid COMMITMENT_SET_TREE c [1] st) st cs.

Definition apply_fee (cid : bytes) (env : CallEnv) (u : FeeUpdate.t) (st : Tree) : CRes Tree :=
  let st := db_mark_spent cid NULLIFIERS_TREE (FeeUpdate.nullifier u) st in
  let st := db_set cid COMMITMENT_SET_TREE (FeeUpdate.commitment u) [1] st in
  let? st := add_commitments cid [FeeUpdate.commitment u] env st in
  Ok (db_set cid FEES_TREE (to_le_bytes 8 (FeeUpdate.height u)) (to_le_bytes 8 (FeeUpdate.fee u)) st).

Definition apply_transfer (cid : bytes) (env : CallEnv) (u : TransferUpdateV1.t) (st : Tree) : CRes Tree :=
  let st := mark_spent_all cid (TransferUpdateV1.nullifiers u) st in
  let st := add_to_set cid (TransferUpdateV1.commitments u) st in
  add_commitments cid (TransferUpdateV1.commitments u) env st.

Definition apply_spend (cid : bytes) (env : CallEnv) (u : SpendUpdateV1.t) (st : Tree) : CRes Tree :=
  let st := db_mark_spent cid NULLIFIERS_TREE (SpendUpdateV1.nullifier u) st in
  let st := db_set cid COMMITMENT_SET_TREE (SpendUpdateV1.commitment u) [1] st in
  add_commitments cid [SpendUpdateV1.commitment u] env st.

Definition apply_burn (cid : bytes) (u : BurnUpdateV1.t) (st : Tree) : CRes Tree :=
  Ok (mark_spent_all cid (BurnUpdateV1.nullifiers u) st).

Definition apply_pow_reward (cid : bytes) (env : CallEnv) (u : PoWRewardUpdateV1.t) (st : Tree) : CRes Tree :=
  let st := db_set cid FEES_TREE (to_le_bytes 8 (BlockHeight.succ (PoWRewardUpdateV1.height u))) (to_le_bytes 8 0) st in
  let st := db_set cid INFO_TREE TOTAL_SUPPLY (to_le_bytes 8 (PoWRewardUpdateV1.new_total_supply u)) st in
  let st := db_set cid INFO_TREE CUMULATIVE_VALUE_COMMIT (PoWRewardUpdateV1.cumulative_value_commit u) st in
  let st := db_set cid INFO_TREE CUMULATIVE_BLIND (PoWRewardUpdateV1.aggregate_blind u) st in
  let st := db_set cid COMMITMENT_SET_TREE (PoWRewardUpdateV1.commitment u) [1] st in
  add_commitments cid [PoWRewardUpdateV1.commitment u] env st.

Definition apply_uncle_mint (cid : bytes) (env : CallEnv) (u : UncleMintUpdateV1.t) (st : Tree) : CRes Tree :=
  let st := db_set cid COMMITMENT_SET_TREE (UncleMintUpdateV1.commitment u) [1] st in
  add_commitments cid [UncleMintUpdateV1.commitment u] env st.

Definition apply_fee_collect (cid : bytes) (env : CallEnv) (u : FeeCollectUpdateV1.t) (st : Tree) : CRes Tree :=
  let st := db_set cid COMMITMENT_SET_TREE (FeeCollectUpdateV1.commitment u) [1] st in
  let? st := add_commitments cid [FeeCollectUpdateV1.commitment u] env st in
  Ok (db_set cid FEES_TREE (to_le_bytes 8 (FeeCollectUpdateV1.height u)) (to_le_bytes 8 0) st).

Definition process_update (cid : bytes) (env : CallEnv) (update_data : bytes) (st : Tree) : CRes Tree :=
  match update_data with
  | [] => Err (IoError "Empty update data")
  | selector :: rest =>
      let? func := native_token_function selector in
      match func with
      | MintV1 => Err InvalidFunction
      | BurnV1 => let? u := BurnUpdateV1.dec rest in apply_burn cid u st
      | TransferV1 => let? u := TransferUpdateV1.dec rest in apply_transfer cid env u st
      | SpendV1 => let? u := SpendUpdateV1.dec rest in apply_spend cid env u st
      | PoWRewardV1 => let? u := PoWRewardUpdateV1.dec rest in apply_pow_reward cid env u st
      | FeeCollectV1 => let? u := FeeCollectUpdateV1.dec rest in apply_fee_collect cid env u st
      | UncleMintV1 => let? u := UncleMintUpdateV1.dec rest in apply_uncle_mint cid env u st
      | FeeV3 => let? u := FeeUpdate.dec rest in apply_fee cid env u st
      end
  end.
End contract.
