(* ===== verification/ZkVerifier.v ===== *)
(** * Verification of witnesses ([src/linear/src/zk_verifier.rs])

    A chain transaction carries the authenticated one as its witness.  The
    witness is decoded, held against the chain transaction, and its proofs are
    verified against the public inputs the contracts' metadata declares.  Key
    derivation and proof verification come from halo2, through [verify_zkp] of
    [src/zk/verifier.rs]. *)

From Stdlib Require Import String.
From S2P Require Import Prelude Units Serial Externals Transaction Block Store Consensus NativeToken Supply Pedersen.
From S2P Require Import DarkTree CallTrees CoreTx TokenContract.

(** Building a verifying key from circuit bytes, and checking a proof. *)
Class ProofSystem := {
  VerifyingKey : Type;
  derive_vk : bytes -> option VerifyingKey;
  proof_verify : VerifyingKey -> bytes -> list bytes -> bool
}.

Inductive VerifyError :=
| NoWitness
| WitnessDecode
| Reconciliation (what : string)
| StoreRead
| MissingCircuit
| InvalidProof (what : string)
| BindingMismatch (what : string)
| CallOutOfRange.

Inductive ZkVerifyResult := ZkOk | ZkInvalidProof | ZkInvalidVk.

(** For each call, a namespace and the public inputs of every proof. *)
Abbreviation ZkTable := (list (list (bytes * list bytes))).

Definition MAX_CALLS_BY_INDEX_ENCODING : Z := u8_max.
Definition ZKAS_DB_NAME : bytes := ascii_key "_zkas".

Section verifier.
Context `{EXT : Externals} `{CORE : !CoreEnv} `{PS : ProofSystem}.

Definition verify_zkp (proof zkbin : bytes) (instances : list bytes) : ZkVerifyResult :=
  match derive_vk zkbin with
  | None => ZkInvalidVk
  | Some vk => if proof_verify vk proof instances then ZkOk else ZkInvalidProof
  end.

(** The calls of the witness against those of the chain, position by position. *)
Fixpoint reconcile_calls (cs : list (DarkLeaf ContractCall)) (chain : list ContractCall) : result VerifyError unit :=
  match cs, chain with
  | leaf :: cs', c :: chain' =>
      if negb (bool_decide (contract_id (leaf_data leaf) = contract_id c)) then Err (Reconciliation "contract_id mismatch")
      else if negb (bool_decide (data (leaf_data leaf) = data c)) then Err (Reconciliation "data mismatch")
      else reconcile_calls cs' chain'
  | _, _ => Ok tt
  end.

Definition decode_and_reconcile (tx : Transaction) : result VerifyError CoreTransaction :=
  if bool_decide (witness tx = []) then Err NoWitness
  else
    match deserialize CoreTransaction_codec (witness tx) with
    | Err _ => Err WitnessDecode
    | Ok core =>
        match dark_forest_leaf_vec_integrity_check (calls core) (Some MIN_TX_CALLS) (Some MAX_CALLS_BY_INDEX_ENCODING) with
        | Err _ => Err (Reconciliation "witness call tree is not well-formed")
        | Ok _ =>
            if negb (List.length (calls core) =? List.length (contract_calls tx))%nat then Err (Reconciliation "call count mismatch")
            else
              let? _ := reconcile_calls (calls core) (contract_calls tx) in
              if negb (bool_decide (core_nullifiers core = nullifiers tx)) then Err (Reconciliation "nullifier mismatch")
              else if negb (bool_decide (core_commitment core = commitment_of_calls (calls core)))
              then Err (Reconciliation "witness tx_commitment does not match")
              else Ok core
        end
    end.

(** The store answers an absent key with no bytes. *)
Definition load_zkbin (store : LinearStore) (cid namespace : bytes) : result VerifyError bytes :=
  let key := hash_state_id cid ZKAS_DB_NAME ++ serialize string_codec namespace in
  match deserialize (pair_codec 48 byte_vec_codec byte_vec_codec) (get_contract_data store key) with
  | Ok (zkbin, _) => Ok zkbin
  | Err _ => Err StoreRead
  end.

(** The pair is the end of the public inputs. *)
Definition tx_binding_mismatch (pubvals : list bytes) (commitment : bytes) : option string :=
  match List.rev pubvals with
  | tx_nonce :: tx_binding :: _ =>
      if negb (fp_canonical commitment) then Some "witness tx_commitment is not a canonical field element"%string
      else if negb (bool_decide (poseidon_hash [DOMAIN_TX_BINDING; commitment; tx_nonce] = tx_binding))
      then Some "published tx_binding does not bind to the enclosing transaction"%string
      else None
  | _ => Some "circuit instances no tx pair"%string
  end.

Definition verify_proof (store : LinearStore) (cid commitment proof : bytes) (entry : bytes * list bytes) : result VerifyError unit :=
  let? zkbin := load_zkbin store cid entry.1 in
  match verify_zkp proof zkbin entry.2 with
  | ZkOk => match tx_binding_mismatch entry.2 commitment with Some reason => Err (BindingMismatch reason) | None => Ok tt end
  | _ => Err (InvalidProof "proof does not verify")
  end.

Fixpoint verify_call_proofs (store : LinearStore) (cid commitment : bytes) (ps : list bytes) (entries : list (bytes * list bytes)) :
    result VerifyError unit :=
  match ps, entries with
  | p :: ps', e :: entries' =>
      let? _ := verify_proof store cid commitment p e in verify_call_proofs store cid commitment ps' entries'
  | _, _ => Ok tt
  end.

(** [i] is the position of the first of the remaining calls. *)
Fixpoint verify_tables_from (store : LinearStore) (core : CoreTransaction) (i : nat) (pss : list (list bytes)) (table : ZkTable) :
    result VerifyError unit :=
  match pss, table with
  | ps :: pss', entries :: table' =>
      let? leaf := ok_or (calls core !! i) CallOutOfRange in
      if negb (List.length ps =? List.length entries)%nat then Err (InvalidProof "proofs and metadata entries differ in number")
      else
        let? _ := verify_call_proofs store (contract_id (leaf_data leaf)) (core_commitment core) ps entries in
        verify_tables_from store core (S i) pss' table'
  | _, _ => Ok tt
  end.

Definition verify_core_tx_with_tables (store : LinearStore) (core : CoreTransaction) (table : ZkTable) : result VerifyError unit :=
  if negb (List.length (proofs core) =? List.length table)%nat then Err (InvalidProof "proof vec length")
  else verify_tables_from store core 0 (proofs core) table.

Definition is_native_proof_call (c : ContractCall) : bool :=
  bool_decide (contract_id c = NATIVE_TOKEN_CONTRACT_ID) &&
  match data c with b :: _ => existsb (Z.eqb b) [0x00; 0x02; 0x03; 0x04; 0x08] | [] => false end.

Fixpoint proofs_present (cs : list (DarkLeaf ContractCall)) (pss : list (list bytes)) : result VerifyError unit :=
  match cs, pss with
  | leaf :: cs', ps :: pss' =>
      if is_native_proof_call (leaf_data leaf) && bool_decide (ps = []) then Err (InvalidProof "call requires a proof but has none")
      else proofs_present cs' pss'
  | _, _ => Ok tt
  end.

Definition verify_single_tx (tx : Transaction) : result VerifyError unit :=
  let? core := decode_and_reconcile tx in
  if negb (List.length (proofs core) =? List.length (calls core))%nat then Err (InvalidProof "proof vec length")
  else proofs_present (calls core) (proofs core).

(** ** What the reconciliation establishes *)

Lemma reconcile_calls_ok (cs : list (DarkLeaf ContractCall)) (chain : list ContractCall) :
  List.length cs = List.length chain -> reconcile_calls cs chain = Ok tt <-> map leaf_data cs = chain.
Proof.
  revert chain. induction cs as [|l cs IH]; intros [|c chain] Hl; cbn [reconcile_calls map]; [done | done | done |].
  injection Hl as Hl. specialize (IH chain Hl). destruct (leaf_data l) as [cid d], c as [cid' d']. cbn [contract_id data].
  destruct (bool_decide_reflect (cid = cid')), (bool_decide_reflect (d = d')); cbn [negb]; rewrite ?IH; naive_solver.
Qed.

Record reconciled (tx : Transaction) (core : CoreTransaction) : Prop := {
  rec_witness : deserialize CoreTransaction_codec (witness tx) = Ok core /\ witness tx <> [];
  rec_tree : dark_forest_leaf_vec_integrity_check (calls core) (Some MIN_TX_CALLS) (Some MAX_CALLS_BY_INDEX_ENCODING) = Ok tt;
  rec_calls : map leaf_data (calls core) = contract_calls tx;
  rec_nullifiers : core_nullifiers core = nullifiers tx;
  rec_commitment : core_commitment core = tx_commitment (contract_calls tx)
}.

Lemma decode_and_reconcile_ok (tx : Transaction) (core : CoreTransaction) :
  decode_and_reconcile tx = Ok core <-> reconciled tx core.
Proof.
  unfold decode_and_reconcile. split.
  - intros H. destruct (bool_decide_reflect (witness tx = [])) as [|Hne]; [done |].
    destruct (deserialize CoreTransaction_codec (witness tx)) as [core'|] eqn:Ed; [| done].
    destruct (dark_forest_leaf_vec_integrity_check _ _ _) as [[]|] eqn:Et; [| done].
    inv_result. bool_facts. match goal with u : unit |- _ => destruct u end.
    match goal with H1 : reconcile_calls _ _ = _, H2 : (_ =? _)%nat = true |- _ =>
      apply Nat.eqb_eq in H2; apply (reconcile_calls_ok _ _ H2) in H1; rename H1 into Hc end.
    constructor; [done | done | done | done |]. match goal with H1 : core_commitment _ = _ |- _ => rewrite H1 end.
    unfold commitment_of_calls. by rewrite Hc.
  - intros [[Ed Hne] Et Hc Hn Hm]. rewrite bool_decide_false by done. rewrite Ed, Et.
    assert (List.length (calls core) = List.length (contract_calls tx)) as Hl by (rewrite <- Hc; by rewrite length_map).
    rewrite Hl, Nat.eqb_refl. cbn [negb]. rewrite (proj2 (reconcile_calls_ok _ _ Hl)) by done.
    rewrite bool_decide_true by done. cbn [negb]. unfold commitment_of_calls. by rewrite Hc, Hm, bool_decide_true.
Qed.

(** ** No declared proof is skipped *)

(** The proof, its circuit and its transaction fit. *)
Definition proof_ok (store : LinearStore) (cid commitment proof : bytes) (entry : bytes * list bytes) : Prop :=
  exists zkbin vk, load_zkbin store cid entry.1 = Ok zkbin /\ derive_vk zkbin = Some vk /\
    proof_verify vk proof entry.2 = true /\ tx_binding_mismatch entry.2 commitment = None.

Lemma verify_proof_ok (store : LinearStore) (cid commitment proof : bytes) (entry : bytes * list bytes) :
  verify_proof store cid commitment proof entry = Ok tt <-> proof_ok store cid commitment proof entry.
Proof.
  unfold verify_proof, proof_ok, verify_zkp. split.
  - intros H. destruct (load_zkbin store cid entry.1) as [zkbin|e]; [| done]. destruct (derive_vk zkbin) as [vk|] eqn:Ev; [| done].
    destruct (proof_verify vk proof entry.2) eqn:Ep; [| done]. destruct (tx_binding_mismatch entry.2 commitment); [done |].
    by exists zkbin, vk.
  - intros (zkbin & vk & -> & -> & -> & ->). done.
Qed.

Lemma verify_call_proofs_ok (store : LinearStore) (cid commitment : bytes) (ps : list bytes) (entries : list (bytes * list bytes)) :
  List.length ps = List.length entries ->
  verify_call_proofs store cid commitment ps entries = Ok tt <-> Forall2 (proof_ok store cid commitment) ps entries.
Proof.
  revert entries. induction ps as [|p ps IH]; intros [|e entries] Hl; cbn [verify_call_proofs]; [split; [constructor | done] | done | done |].
  injection Hl as Hl. rewrite Forall2_cons, <- (IH entries Hl), <- verify_proof_ok.
  destruct (verify_proof store cid commitment p e) as [[]|]; naive_solver.
Qed.

(** Every row of proofs against the row its call declares. *)
Definition rows_ok (store : LinearStore) (core : CoreTransaction) (i : nat) (pss : list (list bytes)) (table : ZkTable) : Prop :=
  List.length pss = List.length table /\
  forall (j : nat) ps entries, pss !! j = Some ps -> table !! j = Some entries ->
    exists leaf, calls core !! (i + j)%nat = Some leaf /\
      Forall2 (proof_ok store (contract_id (leaf_data leaf)) (core_commitment core)) ps entries.

Lemma verify_tables_from_ok (store : LinearStore) (core : CoreTransaction) (i : nat) (pss : list (list bytes)) (table : ZkTable) :
  List.length pss = List.length table -> verify_tables_from store core i pss table = Ok tt <-> rows_ok store core i pss table.
Proof.
  revert i table. induction pss as [|ps pss IH]; intros i [|entries table] Hl; cbn [verify_tables_from]; [| done | done |].
  { split; [| done]. intros _. split; [done |]. by intros [|j]. }
  injection Hl as Hl. specialize (IH (S i) table Hl). unfold rows_ok in *. split.
  - intros H. inv_result. bool_facts. apply Nat.eqb_eq in E0. match goal with u : unit |- _ => destruct u end.
    apply ok_or_ok in E. apply (verify_call_proofs_ok _ _ _ _ _ E0) in E1. apply IH in H as [_ Hr].
    split; [cbn; lia |]. intros [|j] ps' entries' Hp He; cbn in Hp, He.
    + simplify_eq. exists a. by rewrite Nat.add_0_r.
    + destruct (Hr j ps' entries' Hp He) as (leaf & Hleaf & Hf). exists leaf. by rewrite Nat.add_succ_r.
  - intros [_ Hr]. destruct (Hr 0%nat ps entries eq_refl eq_refl) as (leaf & Hleaf & Hf). rewrite Nat.add_0_r in Hleaf.
    rewrite Hleaf. cbn [ok_or]. pose proof (Forall2_length _ _ _ Hf) as E. rewrite E, Nat.eqb_refl. cbn [negb].
    rewrite (proj2 (verify_call_proofs_ok _ _ _ _ _ E)) by done. apply IH. split; [done |]. intros j ps' entries' Hp He.
    destruct (Hr (S j) ps' entries' Hp He) as (leaf' & Hleaf' & Hf'). exists leaf'. by rewrite Nat.add_succ_r in Hleaf'.
Qed.

Lemma verify_tables_ok (store : LinearStore) (core : CoreTransaction) (table : ZkTable) :
  verify_core_tx_with_tables store core table = Ok tt <-> rows_ok store core 0 (proofs core) table.
Proof.
  unfold verify_core_tx_with_tables. destruct (Nat.eqb_spec (List.length (proofs core)) (List.length table)) as [Hl | Hl]; cbn [negb].
  - by apply verify_tables_from_ok.
  - split; [done |]. by intros [? _].
Qed.

(** The proofs of a witness are accepted exactly when there are as many rows
    as the metadata declares, each row names a call, and every entry the call
    declares has its own proof, which verifies under the circuit stored for
    that contract and namespace and publishes the binding of this transaction:
    no declared proof is skipped. *)
Lemma verification_covers_metadata (store : LinearStore) (core : CoreTransaction) (table : ZkTable) :
  verify_core_tx_with_tables store core table = Ok tt <-> rows_ok store core 0 (proofs core) table.
Proof. apply verify_tables_ok. Qed.

(** The lists of elements differ and Poseidon hashes them to the same one. *)
Definition poseidon_collision (l l' : list bytes) : Prop := l <> l' /\ poseidon_hash l = poseidon_hash l'.

(** What the binding of a transaction hashes, with the nonce that the public
    inputs end with. *)
Definition binding_message (pubvals : list bytes) (commitment : bytes) : list bytes :=
  [DOMAIN_TX_BINDING; commitment; hd [] (List.rev pubvals)].

Lemma binding_commits (c1 c2 : bytes) (p : list bytes) :
  tx_binding_mismatch p c1 = None -> tx_binding_mismatch p c2 = None ->
  c1 = c2 \/ poseidon_collision (binding_message p c1) (binding_message p c2).
Proof.
  unfold tx_binding_mismatch, binding_message. destruct (List.rev p) as [|nonce [|binding rest]]; [done | done |].
  destruct (fp_canonical c1), (fp_canonical c2); cbn [negb]; try done.
  destruct (bool_decide_reflect (poseidon_hash [DOMAIN_TX_BINDING; c1; nonce] = binding)) as [E1|]; [| done].
  destruct (bool_decide_reflect (poseidon_hash [DOMAIN_TX_BINDING; c2; nonce] = binding)) as [E2|]; [| done]. intros _ _.
  destruct (decide (c1 = c2)) as [| Hne]; [by left | right]. cbn [hd].
  split; [by intros [= ?] | congruence].
Qed.

(** The public inputs stand somewhere in the table. *)
Definition declares (table : ZkTable) (pubvals : list bytes) : Prop :=
  exists (j : nat) entries ns, table !! j = Some entries /\ (ns, pubvals) ∈ entries.

Lemma declared_bound (store : LinearStore) (core : CoreTransaction) (table : ZkTable) (pubvals : list bytes) :
  verify_core_tx_with_tables store core table = Ok tt -> declares table pubvals ->
  tx_binding_mismatch pubvals (core_commitment core) = None.
Proof.
  intros [Hl Hr]%verify_tables_ok (j & entries & ns & Hj & Hin).
  destruct (lookup_lt_is_Some_2 (proofs core) j) as [ps Hps]; [rewrite Hl; by eapply lookup_lt_Some |].
  destruct (Hr j ps entries Hps Hj) as (leaf & _ & Hf). apply list_elem_of_lookup in Hin as [k Hk].
  destruct (Forall2_lookup_r _ _ _ _ _ Hf Hk) as (p & _ & zkbin & vk & _ & _ & _ & Hb). exact Hb.
Qed.

(** C20: a proof belongs to one set of calls.  Two transactions that pass the
    reconciliation and the verification with a proof over the same public inputs
    make the same calls; if they do not, a collision is in plain sight: either
    Poseidon takes the two binding messages, made of the commitments to the calls
    and the nonce of the public inputs, to the same element, or the hash to the
    field takes the two serialized lists of calls to the same commitment. *)
Theorem verified_proof_binds (tx1 tx2 : Transaction) (core1 core2 : CoreTransaction) (st1 st2 : LinearStore)
    (table1 table2 : ZkTable) (pubvals : list bytes) :
  decode_and_reconcile tx1 = Ok core1 -> decode_and_reconcile tx2 = Ok core2 ->
  verify_core_tx_with_tables st1 core1 table1 = Ok tt -> verify_core_tx_with_tables st2 core2 table2 = Ok tt ->
  declares table1 pubvals -> declares table2 pubvals ->
  Forall ContractCall_wf (contract_calls tx1) -> Forall ContractCall_wf (contract_calls tx2) ->
  contract_calls tx1 = contract_calls tx2 \/
  poseidon_collision (binding_message pubvals (tx_commitment (contract_calls tx1))) (binding_message pubvals (tx_commitment (contract_calls tx2))) \/
  base_collision TX_COMMITMENT_PERSONA (calls_message (contract_calls tx1)) (calls_message (contract_calls tx2)).
Proof.
  intros H1%decode_and_reconcile_ok H2%decode_and_reconcile_ok V1 V2 D1 D2 W1 W2.
  pose proof (declared_bound _ _ _ _ V1 D1) as B1. pose proof (declared_bound _ _ _ _ V2 D2) as B2.
  rewrite (rec_commitment _ _ H1) in B1. rewrite (rec_commitment _ _ H2) in B2.
  destruct (binding_commits _ _ _ B1 B2) as [E | ?]; [| auto].
  destruct (tx_commitment_binds _ _ W1 W2 E); auto.
Qed.

(** ** What the wallet builds, the node reconciles *)

Section relink.
Context {A B : Type} (g : A -> B).

(** A leaf with other data and the same links. *)
Definition relink (l : DarkLeaf A) : DarkLeaf B :=
  {| leaf_data := g (leaf_data l); parent_index := parent_index l; children_indexes := children_indexes l |}.

Lemma leaf_at_relink (ls : list (DarkLeaf A)) (i : Z) :
  leaf_at (map relink ls) i = match leaf_at ls i with Ok l => Ok (relink l) | Err e => Err e end.
Proof. unfold leaf_at. destruct (i <? 0); [done |]. rewrite list_lookup_fmap. by destruct (ls !! _). Qed.

Lemma check_children_relink (ls : list (DarkLeaf A)) (index off : Z) (checked cs : list Z) (prev : option Z) :
  check_children (map relink ls) index checked off prev cs = check_children ls index checked off prev cs.
Proof.
  revert prev. induction cs as [|c cs IH]; intros prev; cbn [check_children]; [done |]. rewrite leaf_at_relink.
  destruct (leaf_at ls (c - off)) as [l|]; [| done]. cbn [relink parent_index]. destruct (parent_index l); by rewrite ?IH.
Qed.

Lemma check_inner_relink (leafs ls : list (DarkLeaf A)) (root off index : Z) (checked : list Z) :
  check_inner (map relink leafs) root off (map relink ls) index checked = check_inner leafs root off ls index checked.
Proof.
  revert index checked. induction ls as [|l ls IH]; intros index checked; cbn [map check_inner]; [done |]. cbn [relink parent_index].
  destruct (parent_index l) as [p|]; [| done]. rewrite leaf_at_relink. destruct (leaf_at leafs (p - off)) as [q|]; [| done].
  cbn [relink children_indexes]. by rewrite check_children_relink, IH.
Qed.

Lemma tree_check_relink (ls : list (DarkLeaf A)) (mn mx off : option Z) :
  dark_leaf_vec_integrity_check (map relink ls) mn mx off = dark_leaf_vec_integrity_check ls mn mx off.
Proof.
  unfold dark_leaf_vec_integrity_check. rewrite length_map.
  destruct ls as [|root ls _] using rev_ind; [done |].
  assert (removelast (map relink (ls ++ [root])) = map relink ls /\ last (map relink (ls ++ [root])) = Some (relink root)) as [-> ->].
  { rewrite map_app. cbn [map]. by rewrite removelast_last, last_snoc. }
  rewrite removelast_last, last_snoc, check_inner_relink. cbn [ok_or relink parent_index children_indexes].
  destruct (capacity_checks _ _ _); [| done]. destruct (check_inner _ _ _ _ _ _); [| done]. by rewrite check_children_relink.
Qed.

Lemma forest_check_relink (ls : list (DarkLeaf A)) (mn mx : option Z) :
  dark_forest_leaf_vec_integrity_check (map relink ls) mn mx = dark_forest_leaf_vec_integrity_check ls mn mx.
Proof.
  unfold dark_forest_leaf_vec_integrity_check. rewrite length_map.
  assert (forall ls acc off, check_trees (map relink ls) (map relink acc) off =
    match check_trees ls acc off with Ok l => Ok (map relink l) | Err e => Err e end) as H.
  { clear ls. induction ls as [|l ls IH]; intros acc off; cbn [check_trees map]; [done |]. cbn [relink parent_index].
    change (map relink acc ++ [_]) with (map relink acc ++ map relink [l]). rewrite <- map_app. destruct (parent_index l); [apply IH |].
    rewrite tree_check_relink, length_map. destruct (dark_leaf_vec_integrity_check _ _ _ _); [| done]. apply (IH []). }
  specialize (H ls [] 0). cbn [map] in H. rewrite H. destruct (check_trees ls [] 0) as [[|]|]; done.
Qed.
End relink.

Lemma forest_check_wider {A : Type} (ls : list (DarkLeaf A)) :
  dark_forest_leaf_vec_integrity_check ls (Some MIN_TX_CALLS) (Some MAX_TX_CALLS) = Ok tt ->
  dark_forest_leaf_vec_integrity_check ls (Some MIN_TX_CALLS) (Some MAX_CALLS_BY_INDEX_ENCODING) = Ok tt.
Proof.
  unfold dark_forest_leaf_vec_integrity_check. intros H. destruct (capacity_checks _ (Some MAX_TX_CALLS) _) as [[]|] eqn:E; [| done].
  apply capacity_checks_ok in E as [E1 E2]. specialize (E2 _ eq_refl).
  rewrite (proj2 (capacity_checks_ok _ _ _)); [done |]. split; [done |]. intros m [= <-].
  unfold min_capacity_or_one, MIN_TX_CALLS, MAX_TX_CALLS, MAX_CALLS_BY_INDEX_ENCODING, u8_max in *. cbn in *. lia.
Qed.

(** What [TransactionBuilder::build] returns, serialized as the witness of a
    chain transaction with the same calls and nullifiers, is decoded and
    reconciled by the node to the same transaction. *)
Theorem built_transaction_reconciles (b : TransactionBuilder) (core : CoreTransaction) (tx : Transaction) :
  (builder_build b).2 = Ok core -> CoreTransaction_wf core ->
  contract_calls tx = map leaf_data (calls core) -> nullifiers tx = core_nullifiers core ->
  witness tx = serialize CoreTransaction_codec core -> decode_and_reconcile tx = Ok core.
Proof.
  intros Hb Hw Hc Hn Ht. apply decode_and_reconcile_ok. unfold builder_build in Hb.
  destruct (forest_build_vec (builder_calls b)) as [f r]. cbn [snd] in Hb. destruct r as [leafs|]; [| done].
  destruct (dark_forest_leaf_vec_integrity_check leafs _ _) as [[]|] eqn:Ei; [| done].
  assert (calls core = map (relink leaf_call) leafs /\ core_commitment core = commitment_of_calls (calls core)) as [Ecalls Ecom]
    by (injection Hb as <-; done).
  constructor; [split | | done | done |].
  - rewrite Ht. by apply (deserialize_serialize CoreTransaction_codec CoreTransaction_wf).
  - rewrite Ht. intros E. pose proof (decode_encode core [] Hw) as Hd. unfold serialize in E. rewrite E in Hd. by cbn in Hd.
  - rewrite Ecalls, forest_check_relink. by apply forest_check_wider.
  - rewrite Ecom. unfold commitment_of_calls. by rewrite Hc.
Qed.
End verifier.

(** ** A concrete transaction *)

(** A proof is one byte that every non-empty circuit accepts. *)
Definition toy_proofs : ProofSystem := {|
  VerifyingKey := bytes;
  derive_vk := fun zkbin => match zkbin with [] => None | _ => Some zkbin end;
  proof_verify := fun _ p _ => bool_decide (p = [1]) |}.

Definition toy_leaf (x : Z) : ContractCallLeaf := {| leaf_call := toy_call x; leaf_proofs := [[1]] |}.

(** Two call trees, the first with a child. *)
Definition toy_builder : TransactionBuilder :=
  match (let? b := TransactionBuilder_new (toy_leaf 2) [DarkTree_new (toy_leaf 1) [] None None] in
         builder_append (toy_leaf 3) [] b) with
  | Ok b => {| builder_calls := builder_calls b; builder_nullifiers := [to_le_bytes 32 77] |}
  | Err _ => {| builder_calls := DarkForest_new None None; builder_nullifiers := [] |}
  end.

Definition toy_built : CoreTransaction :=
  match (@builder_build toy toy_core toy_builder).2 with Ok c => c | Err _ => toy_core_tx [] end.

(** The chain transaction; the lock time is outside the calls. *)
Definition toy_carrier (lock : Z) : Transaction := {|
  tx_version := 1; inputs := []; outputs := []; contract_calls := map leaf_data (calls toy_built); lock_time := lock;
  nullifiers := core_nullifiers toy_built; witness := serialize (@CoreTransaction_codec toy toy_core) toy_built |}.

Lemma toy_fp_wf (x : Z) : 0 <= x < 256 -> @fp_wf toy (to_le_bytes 32 x).
Proof.
  intros Hx. split; [split; [apply to_le_bytes_length | apply to_le_bytes_are_bytes] |].
  cbn [fp_canonical toy]. rewrite le_bytes_roundtrip by (split; [lia |]; eapply Z.lt_trans; [apply Hx | done]).
  apply Z.ltb_lt. eapply Z.lt_trans; [apply Hx | done].
Qed.

Lemma toy_leaf_wf (x : Z) (p : option Z) (cs : list Z) :
  is_byte x -> option_wf is_u64 p -> vec_wf u64_codec is_u64 cs ->
  @DarkLeaf_wf toy {| leaf_data := toy_call x; parent_index := p; children_indexes := cs |}.
Proof.
  intros Hx Hp Hcs. split_and!; [| done | done]. split; [apply toy_fp_wf; lia |]. split; [by constructor |]. vm_compute. discriminate.
Qed.

Lemma toy_built_calls : calls toy_built =
  [ {| leaf_data := toy_call 1; parent_index := Some 1; children_indexes := [] |};
    {| leaf_data := toy_call 2; parent_index := None; children_indexes := [0] |};
    {| leaf_data := toy_call 3; parent_index := None; children_indexes := [] |} ].
Proof. vm_compute. reflexivity. Qed.

Lemma toy_built_wf : @CoreTransaction_wf toy toy_core toy_built.
Proof.
  assert (is_byte 1 /\ is_byte 2 /\ is_byte 3) as (H1 & H2 & H3) by (unfold is_byte; lia).
  assert (is_u64 0 /\ is_u64 1) as (U0 & U1) by (unfold is_u; lia).
  assert (vec_wf Proof_codec (@byte_vec_wf) [[1]]) as Hp.
  { split; [| vm_compute; discriminate]. constructor; [| constructor]. split; [by constructor |]. vm_compute. discriminate. }
  assert (forall cs : list Z, Forall (is_u 64) cs -> (List.length cs <= 1)%nat -> vec_wf u64_codec is_u64 cs) as Hv.
  { intros cs Hcs Hl. split; [done |]. unfold vec_fits, MAX_VEC_BYTES. cbn [size_of u64_codec uint_codec mk_codec]. lia. }
  split_and!.
  - rewrite toy_built_calls. split; [| vm_compute; discriminate].
    repeat (constructor; [apply toy_leaf_wf; [done | done | apply Hv; [repeat constructor; done | cbn; lia]] |]). constructor.
  - assert (proofs toy_built = [[[1]]; [[1]]; [[1]]]) as -> by (vm_compute; reflexivity).
    split; [| vm_compute; discriminate]. repeat (constructor; [exact Hp |]). constructor.
  - assert (signatures toy_built = [[]; []; []]) as -> by (vm_compute; reflexivity).
    split; [| vm_compute; discriminate]. repeat (constructor; [split; [constructor | vm_compute; discriminate] |]). constructor.
  - assert (core_commitment toy_built = toy_digest (TX_COMMITMENT_PERSONA ++ concat (map (serialize (@ContractCall_codec toy)) [toy_call 1; toy_call 2; toy_call 3]))) as ->
      by (vm_compute; reflexivity). apply toy_digest_wf.
  - assert (core_nullifiers toy_built = [to_le_bytes 32 77]) as -> by (vm_compute; reflexivity).
    split; [| vm_compute; discriminate]. constructor; [| constructor]. split; [apply toy_fp_wf; lia |]. discriminate.
Qed.

Lemma built_transaction_reconciles_witness :
  @decode_and_reconcile toy toy_core (toy_carrier 0) = Ok toy_built.
Proof.
  apply (@built_transaction_reconciles toy toy_core toy_builder toy_built (toy_carrier 0));
    [vm_compute; reflexivity | exact toy_built_wf | reflexivity..].
Defined.

(** A circuit in the store, and a table that declares one proof per call. *)
Definition toy_ns : bytes := ascii_key "Circuit".

Definition toy_circuits : LinearStore :=
  let key := @hash_state_id toy (to_le_bytes 32 9) ZKAS_DB_NAME ++ serialize string_codec toy_ns in
  set_contracts (<[key := serialize (pair_codec 48 byte_vec_codec byte_vec_codec) ([5], [6])]> ∅) LinearStore_new.

Definition toy_pubvals : list bytes :=
  let nonce := to_le_bytes 32 3 in
  [@poseidon_hash toy [DOMAIN_TX_BINDING; core_commitment toy_built; nonce]; nonce].

Definition toy_table : ZkTable := replicate 3 [(toy_ns, toy_pubvals)].

Lemma verified_proof_binds_witness :
  let commitment lock := @tx_commitment toy toy_core (contract_calls (toy_carrier lock)) in
  contract_calls (toy_carrier 0) = contract_calls (toy_carrier 8) \/
  @poseidon_collision toy (binding_message toy_pubvals (commitment 0)) (binding_message toy_pubvals (commitment 8)) \/
  @base_collision toy toy_core TX_COMMITMENT_PERSONA (@calls_message toy (contract_calls (toy_carrier 0))) (@calls_message toy (contract_calls (toy_carrier 8))).
Proof.
  assert (Forall (@ContractCall_wf toy) (map leaf_data (calls toy_built))) as Hw.
  { rewrite toy_built_calls. repeat (constructor; [split; [apply toy_fp_wf; lia | split; [repeat constructor; unfold is_byte; lia | vm_compute; discriminate]] |]).
    constructor. }
  assert (declares toy_table toy_pubvals) as Hd by (exists 0%nat, [(toy_ns, toy_pubvals)], toy_ns; split; [reflexivity | left]).
  assert (forall lock, lock = 0 \/ lock = 8 -> @decode_and_reconcile toy toy_core (toy_carrier lock) = Ok toy_built) as Hr
    by (intros lock [-> | ->]; vm_compute; reflexivity).
  assert (@verify_core_tx_with_tables toy toy_proofs toy_circuits toy_built toy_table = Ok tt) as Hv by (vm_compute; reflexivity).
  exact (@verified_proof_binds toy toy_core toy_proofs (toy_carrier 0) (toy_carrier 8) toy_built toy_built toy_circuits toy_circuits
    toy_table toy_table toy_pubvals (Hr 0 (or_introl eq_refl)) (Hr 8 (or_intror eq_refl)) Hv Hv Hd Hd Hw Hw).
Defined.
