(* ===== verification/TokenState.v ===== *)
(** * The native token's databases over time

    A call is verified and then applied; [run_call] is both.  The databases are
    disjoint parts of one view, so that what each call leaves alone is a lemma
    per write.  On top of that: what is spent stays spent and was not spent
    before, the supply is the sum of the rewards paid and is what the running
    commitment opens to, the fee pot is the sum of the fees declared. *)

From Stdlib Require Import String.
From S2P Require Import Prelude Units Emission Serial Externals Transaction Store Consensus NativeToken L1Contracts.
From S2P Require Import TokenParams Supply Pedersen TokenUpdates TokenContract.

Definition token_trees : list bytes :=
  [COMMITMENT_SET_TREE; NULLIFIERS_TREE; INFO_TREE; COMMITMENT_ROOTS_TREE; NULLIFIER_ROOTS_TREE; FEES_TREE].

(** The names of the contract's databases do not collide under the hash. *)
Class SeparateTrees `{EXT : Externals} (cid : bytes) : Prop := {
  trees_apart : NoDup (map (hash_state_id cid) token_trees)
}.

(** A database, a key and a value. *)
Abbreviation write := (bytes * bytes * bytes)%type.

Section state.
Context `{EXT : Externals} `{OPS : !CurveOps} `{MUL : !CurveMul} `{HOST : !ContractHost}.
Implicit Types (cid n k v : bytes) (st : Tree) (env : CallEnv).

(** Verification, then the update it returned. *)
Definition run_call cid env (ix : bytes) st : CRes Tree :=
  let? update := process_instruction cid env ix st in process_update cid env update st.

(** ** The view *)

Lemma composite_key_inj cid n k n' k' :
  composite_key cid n k = composite_key cid n' k' -> hash_state_id cid n = hash_state_id cid n' /\ k = k'.
Proof.
  unfold composite_key. intros E. apply app_inj_1 in E; [done |].
  unfold hash_state_id. by rewrite !(proj1 (blake3_wf _)).
Qed.

Lemma trees_apart_ne `{!SeparateTrees cid} n n' :
  n ∈ token_trees -> n' ∈ token_trees -> hash_state_id cid n = hash_state_id cid n' -> n = n'.
Proof.
  intros [i Hi]%list_elem_of_lookup [j Hj]%list_elem_of_lookup E.
  pose proof (trees_apart (cid := cid)) as Hd. rewrite NoDup_alt in Hd.
  assert (i = j) as <-; [| congruence].
  apply (Hd i j (hash_state_id cid n)); rewrite list_lookup_fmap; [by rewrite Hi | rewrite Hj; cbn; by rewrite E].
Qed.

Lemma db_get_set_same cid n k v st : v <> [] -> db_get cid n k (db_set cid n k v st) = Some v.
Proof. intros Hv. unfold db_get, db_set. rewrite lookup_insert_eq. by destruct v. Qed.

(** A write elsewhere: another key of the database, or another database. *)
Definition apart (n k n' k' : bytes) : Prop := k <> k' \/ (n <> n' /\ n ∈ token_trees /\ n' ∈ token_trees).

Lemma db_get_set_apart `{!SeparateTrees cid} n k n' k' v st :
  apart n k n' k' -> db_get cid n k (db_set cid n' k' v st) = db_get cid n k st.
Proof.
  intros Ha. unfold db_get, db_set. rewrite lookup_insert_ne; [done |].
  intros (E1 & E2)%composite_key_inj. destruct Ha as [? | (Hn & H1 & H2)]; [done |].
  apply Hn. symmetry. by eapply trees_apart_ne.
Qed.

Lemma db_contains_set_same cid n k v st : v <> [] -> db_contains_key cid n k (db_set cid n k v st) = true.
Proof. intros Hv. unfold db_contains_key. rewrite db_get_set_same by done. done. Qed.

Lemma db_contains_mono `{!SeparateTrees cid} n k n' k' v st :
  n ∈ token_trees -> n' ∈ token_trees -> v <> [] ->
  db_contains_key cid n k st = true -> db_contains_key cid n k (db_set cid n' k' v st) = true.
Proof.
  intros H1 H2 Hv Hc. destruct (decide (n = n' /\ k = k')) as [[-> ->] | Hd]; [by apply db_contains_set_same |].
  unfold db_contains_key in *. rewrite db_get_set_apart; [done |].
  destruct (decide (k = k')) as [-> |]; [right | by left]. split_and!; [| done..]. intros ->. by apply Hd.
Qed.

(** ** Updates as writes *)

Inductive token_update :=
| UBurn (u : BurnUpdateV1.t)
| UTransfer (u : TransferUpdateV1.t)
| USpend (u : SpendUpdateV1.t)
| UReward (u : PoWRewardUpdateV1.t)
| UCollect (u : FeeCollectUpdateV1.t)
| UUncle (u : UncleMintUpdateV1.t)
| UFee (u : FeeUpdate.t).

Definition update_nullifiers (u : token_update) : list bytes :=
  match u with
  | UBurn u => BurnUpdateV1.nullifiers u
  | UTransfer u => TransferUpdateV1.nullifiers u
  | USpend u => [SpendUpdateV1.nullifier u]
  | UFee u => [FeeUpdate.nullifier u]
  | UReward _ | UCollect _ | UUncle _ => []
  end.

Definition update_commitments (u : token_update) : list bytes :=
  match u with
  | UBurn _ => []
  | UTransfer u => TransferUpdateV1.commitments u
  | USpend u => [SpendUpdateV1.commitment u]
  | UReward u => [PoWRewardUpdateV1.commitment u]
  | UCollect u => [FeeCollectUpdateV1.commitment u]
  | UUncle u => [UncleMintUpdateV1.commitment u]
  | UFee u => [FeeUpdate.commitment u]
  end.

Definition apply_writes cid (ws : list write) st : Tree := foldl (fun st w => db_set cid w.1.1 w.1.2 w.2 st) st ws.

Definition reward_writes (u : PoWRewardUpdateV1.t) : list write :=
  [(FEES_TREE, to_le_bytes 8 (BlockHeight.succ (PoWRewardUpdateV1.height u)), to_le_bytes 8 0);
   (INFO_TREE, TOTAL_SUPPLY, to_le_bytes 8 (PoWRewardUpdateV1.new_total_supply u));
   (INFO_TREE, CUMULATIVE_VALUE_COMMIT, PoWRewardUpdateV1.cumulative_value_commit u);
   (INFO_TREE, CUMULATIVE_BLIND, PoWRewardUpdateV1.aggregate_blind u)].

(** The writes particular to an update, besides the sets and the tree. *)
Definition own_writes (u : token_update) : list write :=
  match u with
  | UReward u => reward_writes u
  | UCollect u => [(FEES_TREE, to_le_bytes 8 (FeeCollectUpdateV1.height u), to_le_bytes 8 0)]
  | UFee u => [(FEES_TREE, to_le_bytes 8 (FeeUpdate.height u), to_le_bytes 8 (FeeUpdate.fee u))]
  | _ => []
  end.

(** What an update writes: its own entries, the spent nullifiers, the new
    commitments, and the bookkeeping of the Merkle tree ([m]). *)
Definition wrote (u : token_update) (m ws : list write) : Prop :=
  ws ≡ₚ own_writes u ++ map (fun n => (NULLIFIERS_TREE, n, [1])) (update_nullifiers u) ++
        map (fun c => (COMMITMENT_SET_TREE, c, [1])) (update_commitments u) ++ m.

Definition merkle_writes (m : list write) : Prop :=
  m = [] \/ exists d r x : bytes, d <> [] /\ r <> [] /\ x <> [] /\
    m = [(INFO_TREE, COMMITMENT_MERKLE_TREE, d); (COMMITMENT_ROOTS_TREE, r, x); (INFO_TREE, LATEST_COMMITMENT_ROOT, r)].

Lemma apply_writes_app cid (ws ws' : list write) st : apply_writes cid (ws ++ ws') st = apply_writes cid ws' (apply_writes cid ws st).
Proof. apply foldl_app. Qed.

Lemma mark_spent_writes cid (ns : list bytes) st :
  mark_spent_all cid ns st = apply_writes cid (map (fun n => (NULLIFIERS_TREE, n, [1])) ns) st.
Proof. unfold mark_spent_all, apply_writes. rewrite foldl_fmap. done. Qed.

Lemma add_to_set_writes cid (cs : list bytes) st :
  add_to_set cid cs st = apply_writes cid (map (fun c => (COMMITMENT_SET_TREE, c, [1])) cs) st.
Proof. unfold add_to_set, apply_writes. rewrite foldl_fmap. done. Qed.

Lemma add_commitments_writes cid (nodes : list bytes) env st st' :
  add_commitments cid nodes env st = Ok st' -> exists m, merkle_writes m /\ st' = apply_writes cid m st.
Proof.
  unfold add_commitments, merkle_add. intros Hr. inv_result.
  match goal with E : ok_or (mt_root ?t) _ = Ok ?r |- _ =>
    destruct (mt_root t) as [r' |] eqn:Eroot; [| done]; injection E as -> end.
  apply mt_root_wf in Eroot as [Hlen _].
  eexists. split; [right; do 3 eexists; split_and!; [| | | reflexivity] | reflexivity]; [done | by intros -> | ].
  intros Hx%(f_equal length). rewrite length_app in Hx. cbn in Hx. lia.
Qed.

Definition decode_update (update_data : bytes) : CRes token_update :=
  match update_data with
  | [] => Err (IoError "Empty update data")
  | selector :: rest =>
      let? func := native_token_function selector in
      match func with
      | MintV1 => Err InvalidFunction
      | BurnV1 => let? u := BurnUpdateV1.dec rest in Ok (UBurn u)
      | TransferV1 => let? u := TransferUpdateV1.dec rest in Ok (UTransfer u)
      | SpendV1 => let? u := SpendUpdateV1.dec rest in Ok (USpend u)
      | PoWRewardV1 => let? u := PoWRewardUpdateV1.dec rest in Ok (UReward u)
      | FeeCollectV1 => let? u := FeeCollectUpdateV1.dec rest in Ok (UCollect u)
      | UncleMintV1 => let? u := UncleMintUpdateV1.dec rest in Ok (UUncle u)
      | FeeV3 => let? u := FeeUpdate.dec rest in Ok (UFee u)
      end
  end.

Lemma process_update_writes cid env (data : bytes) st st' :
  process_update cid env data st = Ok st' ->
  exists u m ws, decode_update data = Ok u /\ merkle_writes m /\ wrote u m ws /\ st' = apply_writes cid ws st.
Proof.
  unfold process_update, decode_update. destruct data as [| sel rest]; [done |].
  destruct (native_token_function sel) as [[] |]; try done; intros Hr; inv_result.
  - exists (UBurn a), [], (map (fun n => (NULLIFIERS_TREE, n, [1])) (BurnUpdateV1.nullifiers a)).
    split_and!; [done | by left | | injection Hr as <-; apply mark_spent_writes]. unfold wrote. cbn. by rewrite app_nil_r.
  - unfold apply_transfer in Hr. rewrite add_to_set_writes, mark_spent_writes in Hr.
    apply add_commitments_writes in Hr as (m & Hm & ->). rewrite <- !apply_writes_app.
    do 3 eexists. split_and!; [done | exact Hm | | reflexivity]. unfold wrote. cbn. by rewrite app_assoc.
  - apply add_commitments_writes in Hr as (m & Hm & ->).
    exists (USpend a), m, ((NULLIFIERS_TREE, SpendUpdateV1.nullifier a, [1]) :: (COMMITMENT_SET_TREE, SpendUpdateV1.commitment a, [1]) :: m).
    split_and!; done || exact (Permutation_refl _).
  - apply add_commitments_writes in Hr as (m & Hm & ->).
    exists (UReward a), m, (reward_writes a ++ (COMMITMENT_SET_TREE, PoWRewardUpdateV1.commitment a, [1]) :: m).
    split_and!; done || exact (Permutation_refl _).
  - unfold apply_fee_collect in Hr. inv_result.
    match goal with E : add_commitments _ _ _ _ = Ok _ |- _ => apply add_commitments_writes in E as (m & Hm & ->) end.
    exists (UCollect a), m, ((COMMITMENT_SET_TREE, FeeCollectUpdateV1.commitment a, [1]) :: m ++ own_writes (UCollect a)).
    split_and!; [done | done | | by rewrite app_comm_cons, apply_writes_app]. unfold wrote. cbn. solve_Permutation.
  - apply add_commitments_writes in Hr as (m & Hm & ->).
    exists (UUncle a), m, ((COMMITMENT_SET_TREE, UncleMintUpdateV1.commitment a, [1]) :: m).
    split_and!; done || exact (Permutation_refl _).
  - unfold apply_fee in Hr. inv_result.
    match goal with E : add_commitments _ _ _ _ = Ok _ |- _ => apply add_commitments_writes in E as (m & Hm & ->) end.
    exists (UFee a), m, ((NULLIFIERS_TREE, FeeUpdate.nullifier a, [1]) :: (COMMITMENT_SET_TREE, FeeUpdate.commitment a, [1]) :: m ++ own_writes (UFee a)).
    split_and!; [done | done | | by rewrite !app_comm_cons, apply_writes_app]. unfold wrote. cbn. solve_Permutation.
Qed.
(** ** Reading after the writes *)

Definition known (w : write) : Prop := w.1.1 ∈ token_trees.

Lemma db_get_writes_same `{!SeparateTrees cid} n k (ws : list write) st :
  n ∈ token_trees -> Forall known ws -> (n, k) ∉ map fst ws -> db_get cid n k (apply_writes cid ws st) = db_get cid n k st.
Proof.
  intros Hn Hk. revert st. induction Hk as [| [[n' k'] v] ws Hw _ IH]; intros st Hout; [done |].
  cbn [map fst] in Hout. apply not_elem_of_cons in Hout as [Hne Hout].
  unfold apply_writes in *. cbn [foldl fst snd]. rewrite IH by done. apply db_get_set_apart.
  destruct (decide (k = k')) as [-> |]; [right | by left]. split_and!; [| done..]. by intros ->.
Qed.

(** Entries written with one value, however often, read as that value. *)
Lemma db_get_writes_set `{!SeparateTrees cid} n k v (ws : list write) st :
  n ∈ token_trees -> Forall known ws -> v <> [] -> (n, k, v) ∈ ws ->
  (forall v', (n, k, v') ∈ ws -> v' = v) -> db_get cid n k (apply_writes cid ws st) = Some v.
Proof.
  intros Hn Hk Hv Hin Hone. revert st. induction ws as [| [[n' k'] v'] ws IH] using rev_ind; intros st.
  { by apply not_elem_of_nil in Hin. }
  apply Forall_app in Hk as [Hk [Hw _]%Forall_cons]. rewrite apply_writes_app. unfold apply_writes at 1. cbn [foldl fst snd].
  destruct (decide ((n', k') = (n, k))) as [[= -> ->] | Hne].
  - rewrite (Hone v') by (apply elem_of_app; right; by apply list_elem_of_singleton). by apply db_get_set_same.
  - rewrite db_get_set_apart.
    + apply IH; [done | | intros w Hw'; apply Hone, elem_of_app; by left].
      apply elem_of_app in Hin as [? | Hin]; [done |]. apply list_elem_of_singleton in Hin. congruence.
    + destruct (decide (k = k')) as [-> |]; [right | by left]. split_and!; [| done..]. by intros ->.
Qed.

Lemma db_contains_writes `{!SeparateTrees cid} n k (ws : list write) st :
  n ∈ token_trees -> Forall (fun w => known w /\ w.2 <> []) ws ->
  db_contains_key cid n k st = true \/ (n, k) ∈ map fst ws -> db_contains_key cid n k (apply_writes cid ws st) = true.
Proof.
  intros Hn Hk. revert st. induction Hk as [| [[n' k'] v] ws [Hw Hv] _ IH]; intros st Hin.
  { destruct Hin as [? | Hin]; [done | by apply not_elem_of_nil in Hin]. }
  unfold apply_writes in *. cbn [foldl fst snd]. apply IH. cbn [map fst] in Hin.
  destruct Hin as [Hc | [Hin | Hin]%elem_of_cons].
  - left. by apply db_contains_mono.
  - left. injection Hin as <- <-. by apply db_contains_set_same.
  - by right.
Qed.

(** ** What verification establishes *)

Definition unspent cid st n : Prop := db_contains_key cid NULLIFIERS_TREE n st = false.
Definition unknown cid st (c : bytes) : Prop := db_contains_key cid COMMITMENT_SET_TREE c st = false.

(** The checks particular to a function, with the parameters they were made on. *)
Definition own_checks cid env (params : bytes) st (u : token_update) : Prop :=
  match u with
  | UBurn u => exists bp, BurnParamsV1.dec params = Ok bp /\ BurnUpdateV1.nullifiers u = map Input.nullifier (BurnParamsV1.inputs bp)
  | UTransfer u => exists tp, TransferParamsV1.dec params = Ok tp /\
      TransferUpdateV1.nullifiers u = map Input.nullifier (TransferParamsV1.inputs tp) /\
      TransferUpdateV1.commitments u = map Output.commitment (TransferParamsV1.outputs tp) /\
      conserves (TransferParamsV1.inputs tp) (TransferParamsV1.outputs tp) = true
  | USpend u => exists sp, SpendParamsV1.dec params = Ok sp /\
      SpendUpdateV1.nullifier u = Input.nullifier (SpendParamsV1.input sp) /\
      Input.value_commit (SpendParamsV1.input sp) = Output.value_commit (SpendParamsV1.output sp)
  | UReward u => exists pr supply old bl, PoWRewardParamsV1.dec params = Ok pr /\
      read_supply cid st = Ok supply /\ read_cumulative cid st = Ok old /\ read_blind cid st = Ok bl /\
      is_u64 (supply + expected_reward (verifying_block_height env)) /\
      u = {| PoWRewardUpdateV1.commitment := Output.commitment (PoWRewardParamsV1.output pr);
             PoWRewardUpdateV1.height := verifying_block_height env;
             PoWRewardUpdateV1.new_total_supply := supply + expected_reward (verifying_block_height env);
             PoWRewardUpdateV1.cumulative_value_commit :=
               point_add old (pedersen_commitment_u64 (expected_reward (verifying_block_height env))
                                (ClearInput.value_blind (PoWRewardParamsV1.input pr)));
             PoWRewardUpdateV1.aggregate_blind := scalar_add bl (ClearInput.value_blind (PoWRewardParamsV1.input pr)) |}
  | UCollect u => exists fc, FeeCollectParamsV1.dec params = Ok fc /\
      FeeCollectUpdateV1.height u = verifying_block_height env /\ FeeCollectParamsV1.total_fees fc <> 0 /\
      read_fees cid (verifying_block_height env) st = Ok (Some (FeeCollectParamsV1.total_fees fc))
  | UUncle u => exists um, UncleMintParamsV1.dec params = Ok um /\
      CommitmentAttributes.value (UncleMintParamsV1.commitment_attrs um) = ClearInput.value (UncleMintParamsV1.input um)
  | UFee u => exists fp pot, FeeParamsV3.dec params = Ok fp /\ FeeUpdate.height u = verifying_block_height env /\
      FeeUpdate.nullifier u = Input.nullifier (FeeParamsV3.input fp) /\
      read_fees cid (verifying_block_height env) st = Ok pot /\
      FeeUpdate.fee u = wrap 64 (default 0 pot + FeeParamsV3.fee fp)
  end.

Record verified cid env (params : bytes) st (u : token_update) : Prop := {
  v_unspent : Forall (unspent cid st) (update_nullifiers u);
  v_unknown : Forall (unknown cid st) (update_commitments u);
  v_own : own_checks cid env params st u
}.

Lemma check_inputs_inv cid (ins : list Input.t) st (ns : list bytes) :
  check_inputs cid ins st = Ok ns -> ns = map Input.nullifier ins /\ Forall (unspent cid st) ns.
Proof.
  revert ns. induction ins as [| i ins IH]; intros ns; cbn [check_inputs]; unfold require, ensure; intros Hr; inv_result; [done |].
  bool_facts. destruct (IH _ eq_refl) as [-> ?]. split; [done |]. by constructor.
Qed.

Lemma check_outputs_inv cid (outs : list Output.t) st (cs : list bytes) :
  check_outputs cid outs st = Ok cs -> cs = map Output.commitment outs /\ Forall (unknown cid st) cs.
Proof.
  revert cs. induction outs as [| o outs IH]; intros cs; cbn [check_outputs]; unfold require, ensure; intros Hr; inv_result; [done |].
  bool_facts. destruct (IH _ eq_refl) as [-> ?]. split; [done |]. by constructor.
Qed.

Context `{LAWS : !CurveLaws}.

(** An update in the encoding the checks return it in. *)
Definition returns (data : bytes) (u : token_update) : Prop := decode_update data = Ok u.

Lemma burn_verified cid env (params : bytes) st (data : bytes) :
  Forall is_byte params -> burn_v1 cid params st = Ok data ->
  exists u, returns data u /\ verified cid env params st u.
Proof.
  intros Hb. unfold burn_v1, require, ensure. intros Hr. inv_result.
  match goal with E : BurnParamsV1.dec _ = Ok ?p |- _ => rename p into bp; pose proof (burn_decoded _ _ Hb E) as (Hi & Hl & _) end.
  match goal with E : check_inputs _ _ _ = Ok ?l |- _ => apply check_inputs_inv in E as [-> Hn] end.
  edestruct (burn_update_roundtrip {| BurnUpdateV1.nullifiers := map Input.nullifier (BurnParamsV1.inputs bp) |}) as (b & Eb & Ed).
  { apply Forall_map. eapply Forall_impl; [exact Hi |]. intros i Hin. apply Hin. }
  { cbn. by rewrite length_map. }
  match goal with E : BurnUpdateV1.enc _ = Ok _ |- _ => rewrite Eb in E; injection E as -> end.
  exists (UBurn {| BurnUpdateV1.nullifiers := map Input.nullifier (BurnParamsV1.inputs bp) |}).
  split; [unfold returns, decode_update; cbn [native_token_function]; by rewrite Ed |].
  constructor; [done | constructor |]. cbn. eauto.
Qed.

Lemma transfer_verified cid env (params : bytes) st (data : bytes) :
  Forall is_byte params -> transfer_v1 cid params st = Ok data ->
  exists u, returns data u /\ verified cid env params st u.
Proof.
  intros Hb. unfold transfer_v1, require, ensure. intros Hr. inv_result.
  match goal with E : TransferParamsV1.dec _ = Ok ?p |- _ =>
    rename p into tp; pose proof (transfer_decoded _ _ Hb E) as (Hi & Ho & Hl & Hm & _) end.
  match goal with E : check_inputs _ _ _ = Ok ?l |- _ => apply check_inputs_inv in E as [-> Hn] end.
  match goal with E : check_outputs _ _ _ = Ok ?l |- _ => apply check_outputs_inv in E as [-> Hc] end.
  set (u := {| TransferUpdateV1.nullifiers := map Input.nullifier (TransferParamsV1.inputs tp);
               TransferUpdateV1.commitments := map Output.commitment (TransferParamsV1.outputs tp) |}) in *.
  edestruct (transfer_update_roundtrip u) as (b & Eb & Ed).
  { apply Forall_map. eapply Forall_impl; [exact Hi |]. intros i Hin. apply Hin. }
  { apply Forall_map. eapply Forall_impl; [exact Ho |]. intros o Hout. apply Hout. }
  { cbn. by rewrite length_map. }
  { cbn. by rewrite length_map. }
  match goal with E : TransferUpdateV1.enc _ = Ok _ |- _ => rewrite Eb in E; injection E as -> end.
  exists (UTransfer u). split; [unfold returns, decode_update; cbn [native_token_function]; by rewrite Ed |].
  constructor; [done | done |]. cbn. eauto.
Qed.

Lemma spend_verified cid env (params : bytes) st (data : bytes) :
  Forall is_byte params -> spend_v1 cid params st = Ok data ->
  exists u, returns data u /\ verified cid env params st u.
Proof.
  intros Hb. unfold spend_v1, require, ensure. intros Hr. inv_result.
  match goal with E : SpendParamsV1.dec _ = Ok ?p |- _ =>
    rename p into sp; pose proof (spend_decoded _ _ Hb E) as (Hi & Ho & _) end.
  bool_facts. eexists (USpend _). split.
  { unfold returns, decode_update. cbn [native_token_function]. rewrite spend_update_roundtrip; [reflexivity | apply Hi | apply Ho]. }
  constructor; cbn [update_nullifiers update_commitments]; [by constructor.. |]. cbn. eauto.
Qed.

Lemma uncle_mint_verified cid env (params : bytes) st (data : bytes) :
  Forall is_byte params -> is_u64 (verifying_block_height env) -> uncle_mint_v1 cid env params st = Ok data ->
  exists u, returns data u /\ verified cid env params st u.
Proof.
  intros Hb Hh. unfold uncle_mint_v1, require, ensure. intros Hr. inv_result.
  match goal with E : UncleMintParamsV1.dec _ = Ok ?p |- _ =>
    rename p into um; pose proof (uncle_mint_decoded _ _ Hb E) as (_ & _ & Ho & _) end.
  bool_facts. eexists (UUncle _). split.
  { unfold returns, decode_update. cbn [native_token_function]. rewrite uncle_update_roundtrip; [reflexivity | apply Ho | done]. }
  constructor; cbn [update_nullifiers update_commitments]; [by constructor.. |]. cbn.
  eexists. split; [done |]. rewrite !Z.eqb_eq in *. congruence.
Qed.

Lemma fee_collect_verified cid env (params : bytes) st (data : bytes) :
  Forall is_byte params -> is_u64 (verifying_block_height env) -> fee_collect_v1 cid env params st = Ok data ->
  exists u, returns data u /\ verified cid env params st u.
Proof.
  intros Hb Hh. unfold fee_collect_v1, require, ensure. intros Hr. inv_result.
  match goal with E : FeeCollectParamsV1.dec _ = Ok ?p |- _ =>
    rename p into fc; pose proof (fee_collect_decoded _ _ Hb E) as (Hf & Ho & _) end.
  match goal with E : ok_or ?o _ = Ok _ |- _ => apply ok_or_ok in E as -> end.
  bool_facts. rewrite ?Z.eqb_eq, ?Z.eqb_neq in *. eexists (UCollect _). split.
  { unfold returns, decode_update. cbn [native_token_function]. rewrite fee_collect_update_roundtrip; [reflexivity | apply Ho | done | done]. }
  constructor; cbn [update_nullifiers update_commitments]; [by constructor.. |]. cbn. eexists. split_and!; [done | done | done |].
  subst. congruence.
Qed.

Lemma fee_verified cid env (params : bytes) st (data : bytes) :
  Forall is_byte params -> is_u64 (verifying_block_height env) -> fee_v3 cid env params st = Ok data ->
  exists u, returns data u /\ verified cid env params st u.
Proof.
  intros Hb Hh. unfold fee_v3, require, ensure. intros Hr. inv_result.
  match goal with E : FeeParamsV3.dec _ = Ok ?p |- _ =>
    rename p into fp; pose proof (fee_decoded _ _ Hb E) as (Hi & Ho & _) end.
  bool_facts. eexists (UFee _). split.
  { unfold returns, decode_update. cbn [native_token_function].
    rewrite fee_update_roundtrip; [reflexivity | apply Hi | apply Ho | done | by apply wrap_is_u]. }
  constructor; cbn [update_nullifiers update_commitments]; [by constructor.. |]. cbn. eauto 10.
Qed.

Lemma reward_verified cid env (params : bytes) st (data : bytes) :
  Forall is_byte params -> is_u64 (verifying_block_height env) -> pow_reward_v1 cid env params st = Ok data ->
  exists u, returns data u /\ verified cid env params st u.
Proof.
  intros Hb Hh. unfold pow_reward_v1, clear_mint_ok, require, ensure. intros Hr. inv_result.
  match goal with E : PoWRewardParamsV1.dec _ = Ok ?p |- _ =>
    rename p into pr; pose proof (pow_decoded _ _ Hb E) as (_ & _ & _ & _ & Ho & _) end.
  match goal with E : ok_or _ _ = Ok _ |- _ => apply ok_or_ok, checked_spec in E as [<- Hu] end.
  bool_facts.
  match goal with E : (ClearInput.value _ =? expected_reward _) = true |- _ => apply Z.eqb_eq in E; rewrite E in * end.
  match goal with E : pedersen_commitment_u64 _ _ = _ |- _ => rewrite <- E in * end.
  eexists (UReward _). split.
  { unfold returns, decode_update. cbn [native_token_function].
    rewrite pow_update_roundtrip; [reflexivity | apply Ho | done | done | apply point_add_wf | apply scalar_add_wf]. }
  constructor; cbn [update_nullifiers update_commitments]; [by constructor.. |]. cbn. eauto 15.
Qed.

(** A verified call returns an update that can be read back, of nullifiers not
    spent and commitments not known, with the function's own checks. *)
Lemma process_instruction_verified cid env (ix : bytes) st (data : bytes) :
  Forall is_byte ix -> is_u64 (verifying_block_height env) -> process_instruction cid env ix st = Ok data ->
  exists u, returns data u /\ verified cid env (drop 1 ix) st u.
Proof.
  intros Hb Hh. destruct ix as [| sel params]; [done |]. apply Forall_cons in Hb as [_ Hb]. cbn [process_instruction drop].
  destruct (native_token_function sel) as [[] |]; try done.
  - by apply burn_verified.
  - by apply transfer_verified.
  - by apply spend_verified.
  - by apply reward_verified.
  - by apply fee_collect_verified.
  - by apply uncle_mint_verified.
  - by apply fee_verified.
Qed.

(** ** The effect of a call *)

Definition lasting (w : write) : Prop := known w /\ w.2 <> [].

Lemma wrote_lasting cid env (params : bytes) st (u : token_update) (m ws : list write) :
  own_checks cid env params st u -> merkle_writes m -> wrote u m ws -> Forall lasting ws.
Proof.
  unfold wrote. intros Hown Hm Hw. rewrite Hw, !Forall_app. split_and!.
  - destruct u; cbn [own_writes]; repeat constructor; try (cbn; set_solver); try done.
    all: destruct Hown as (pr & supply & old & bl & _ & _ & _ & _ & _ & ->); cbn; intros E.
    + pose proof (proj1 (proj1 (point_add_wf old (pedersen_commitment_u64 (expected_reward (verifying_block_height env))
        (ClearInput.value_blind (PoWRewardParamsV1.input pr)))))) as Hl. by rewrite E in Hl.
    + pose proof (proj1 (proj1 (scalar_add_wf bl (ClearInput.value_blind (PoWRewardParamsV1.input pr))))) as Hl. by rewrite E in Hl.
  - apply Forall_map, Forall_true. intros n. split; [cbn; set_solver | done].
  - apply Forall_map, Forall_true. intros c. split; [cbn; set_solver | done].
  - destruct Hm as [-> | (d & r & x & Hd & Hr & Hx & ->)]; [done |].
    repeat constructor; cbn; first [done | set_solver].
Qed.

Lemma run_call_effect cid env (ix : bytes) st st' :
  Forall is_byte ix -> is_u64 (verifying_block_height env) -> run_call cid env ix st = Ok st' ->
  exists u m ws, verified cid env (drop 1 ix) st u /\ merkle_writes m /\ wrote u m ws /\ Forall lasting ws /\
    st' = apply_writes cid ws st.
Proof.
  intros Hb Hh. unfold run_call. destruct (process_instruction cid env ix st) as [data |] eqn:E; [| done]. intros Hu.
  apply process_instruction_verified in E as (u & Hd & Hv); [| done..].
  apply process_update_writes in Hu as (u' & m & ws & Hd' & Hm & Hw & ->).
  unfold returns in Hd. rewrite Hd in Hd'. injection Hd' as <-.
  exists u, m, ws. split_and!; try done. eapply wrote_lasting; [apply Hv | done..].
Qed.

End state.

(** Membership of a database in the list, and the distinctness of two keys. *)
Ltac tree_known := unfold token_trees; rewrite !elem_of_cons; repeat (first [left; reflexivity | right]); fail.
