(* ===== verification/TokenRuns.v ===== *)
(** * Runs of the native token contract

    Sequences of calls accepted one after the other, as a chain of blocks makes
    them, each with the update its verification returned.  What such a sequence
    does to the spent set, to the set of commitments, to the supply and its
    running commitment, and to the pot of fees. *)

From Stdlib Require Import String.
From S2P Require Import Prelude Units Emission Serial Externals Transaction Store Consensus NativeToken L1Contracts.
From S2P Require Import TokenParams Supply Pedersen TokenUpdates TokenContract TokenState.

Section runs.
Context `{EXT : Externals} `{OPS : !CurveOps} `{MUL : !CurveMul} `{HOST : !ContractHost} `{LAWS : !CurveLaws}.
Implicit Types (cid n k v : bytes) (st : Tree) (env : CallEnv) (u : token_update).

(** A call that is verified and applied, with the update it makes. *)
Definition calls cid env (ix : bytes) u st st' : Prop :=
  exists data, process_instruction cid env ix st = Ok data /\ decode_update data = Ok u /\
    process_update cid env data st = Ok st'.

Inductive run cid : Tree -> list (CallEnv * bytes * token_update) -> Tree -> Prop :=
| run_nil st : run cid st [] st
| run_call_then st env ix u st1 tr st2 :
    Forall is_byte ix -> is_u64 (verifying_block_height env) -> calls cid env ix u st st1 -> run cid st1 tr st2 ->
    run cid st ((env, ix, u) :: tr) st2.

Definition trace_nullifiers (tr : list (CallEnv * bytes * token_update)) : list bytes := flat_map (fun x => update_nullifiers x.2) tr.
Definition trace_commitments (tr : list (CallEnv * bytes * token_update)) : list bytes := flat_map (fun x => update_commitments x.2) tr.

Lemma calls_effect cid env (ix : bytes) u st st' :
  Forall is_byte ix -> is_u64 (verifying_block_height env) -> calls cid env ix u st st' ->
  exists m ws, verified cid env (drop 1 ix) st u /\ merkle_writes m /\ wrote u m ws /\ Forall lasting ws /\
    st' = apply_writes cid ws st.
Proof.
  intros Hb Hh (data & Hp & Hd & Hu).
  apply process_instruction_verified in Hp as (u1 & Hd1 & Hv1); [| done..]. unfold returns in Hd1.
  rewrite Hd in Hd1. injection Hd1 as <-.
  apply process_update_writes in Hu as (u2 & m & ws & Hd2 & Hm & Hw & E).
  rewrite Hd in Hd2. injection Hd2 as <-. exists m, ws. split_and!; [done.. | | exact E].
  by eapply wrote_lasting; [apply Hv1 | |].
Qed.

Lemma lasting_known (ws : list write) : Forall lasting ws -> Forall known ws.
Proof. intros Hl. eapply Forall_impl; [exact Hl | by intros w []]. Qed.

(** ** Where an update writes *)

Lemma merkle_writes_at (m : list write) n k :
  merkle_writes m -> (n, k) ∈ map fst m ->
  n = COMMITMENT_ROOTS_TREE \/ (n = INFO_TREE /\ (k = COMMITMENT_MERKLE_TREE \/ k = LATEST_COMMITMENT_ROOT)).
Proof.
  intros [-> | (d & r & x & _ & _ & _ & ->)]; cbn [map fst]; intros Hin; [by apply not_elem_of_nil in Hin |].
  rewrite !elem_of_cons, elem_of_nil in Hin. destruct Hin as [E | [E | [E | []]]]; injection E as -> ->; eauto.
Qed.

Lemma own_writes_at u n k : (n, k) ∈ map fst (own_writes u) -> n = FEES_TREE \/ n = INFO_TREE.
Proof.
  destruct u; cbn [own_writes reward_writes map fst]; rewrite ?elem_of_cons, elem_of_nil; intros Hin; try done;
    repeat (destruct Hin as [[= -> _] | Hin]; [auto |]); done.
Qed.

Lemma wrote_locations u (m ws : list write) n k :
  wrote u m ws -> ((n, k) ∈ map fst ws <->
    (n, k) ∈ map fst (own_writes u) \/ (n = NULLIFIERS_TREE /\ k ∈ update_nullifiers u) \/
    (n = COMMITMENT_SET_TREE /\ k ∈ update_commitments u) \/ (n, k) ∈ map fst m).
Proof.
  unfold wrote. intros Hw. rewrite Hw, !map_app, !elem_of_app, !map_map. cbn [fst].
  assert (forall (t : bytes) (l : list bytes), (n, k) ∈ map (fun x => (t, x)) l <-> n = t /\ k ∈ l) as Hmap.
  { intros t l. rewrite list_elem_of_fmap. split; [intros (x & [= -> ->] & Hx); done |].
    intros [-> Hk]. by exists k. }
  rewrite !Hmap. tauto.
Qed.

Lemma wrote_nullifier u (m ws : list write) k :
  merkle_writes m -> wrote u m ws -> ((NULLIFIERS_TREE, k) ∈ map fst ws <-> k ∈ update_nullifiers u).
Proof.
  intros Hm Hw. rewrite (wrote_locations u m ws) by done. split.
  - intros [E%own_writes_at | [[_ ?] | [[E _] | E%merkle_writes_at]]]; [by destruct E | done | done | | done].
    destruct E as [E | [E _]]; done.
  - auto.
Qed.

Lemma wrote_commitment u (m ws : list write) k :
  merkle_writes m -> wrote u m ws -> ((COMMITMENT_SET_TREE, k) ∈ map fst ws <-> k ∈ update_commitments u).
Proof.
  intros Hm Hw. rewrite (wrote_locations u m ws) by done. split.
  - intros [E%own_writes_at | [[E _] | [[_ ?] | E%merkle_writes_at]]]; [by destruct E | done | done | | done].
    destruct E as [E | [E _]]; done.
  - auto 6.
Qed.

Lemma contains_exactly `{!SeparateTrees cid} n k (ws : list write) st :
  n ∈ token_trees -> Forall lasting ws ->
  (db_contains_key cid n k (apply_writes cid ws st) = true <-> db_contains_key cid n k st = true \/ (n, k) ∈ map fst ws).
Proof.
  intros Hn Hl. split; [| by apply db_contains_writes].
  intros Hc. destruct (decide ((n, k) ∈ map fst ws)) as [| Hout]; [by right | left].
  unfold db_contains_key in *. by rewrite db_get_writes_same in Hc by eauto using lasting_known.
Qed.

(** ** Spent and minted *)

Lemma nullifiers_tree_known : NULLIFIERS_TREE ∈ token_trees.
Proof. set_solver. Qed.

Lemma commitments_tree_known : COMMITMENT_SET_TREE ∈ token_trees.
Proof. set_solver. Qed.

Lemma info_tree_known : INFO_TREE ∈ token_trees.
Proof. set_solver. Qed.

Lemma fees_tree_known : FEES_TREE ∈ token_trees.
Proof. set_solver. Qed.
(** A database of marks that each call extends by [f], with marks that were not
    there. *)
Definition marks cid (name : bytes) (f : token_update -> list bytes) : Prop :=
  forall env ix u st st' k, Forall is_byte ix -> is_u64 (verifying_block_height env) -> calls cid env ix u st st' ->
  (db_contains_key cid name k st' = true <-> db_contains_key cid name k st = true \/ k ∈ f u) /\
  (k ∈ f u -> db_contains_key cid name k st = false).

Lemma nullifiers_mark `{!SeparateTrees cid} : marks cid NULLIFIERS_TREE update_nullifiers.
Proof.
  intros env ix u st st' k Hb Hh Hc. destruct (calls_effect _ _ _ _ _ _ Hb Hh Hc) as (m & ws & Hv & Hm & Hw & Hl & ->). split.
  - rewrite contains_exactly by (done || apply nullifiers_tree_known). by rewrite wrote_nullifier.
  - intros Hk. apply (proj1 (Forall_forall _ _) (v_unspent _ _ _ _ _ Hv) k Hk).
Qed.

Lemma commitments_mark `{!SeparateTrees cid} : marks cid COMMITMENT_SET_TREE update_commitments.
Proof.
  intros env ix u st st' k Hb Hh Hc. destruct (calls_effect _ _ _ _ _ _ Hb Hh Hc) as (m & ws & Hv & Hm & Hw & Hl & ->). split.
  - rewrite contains_exactly by (done || apply commitments_tree_known). by rewrite wrote_commitment.
  - intros Hk. apply (proj1 (Forall_forall _ _) (v_unknown _ _ _ _ _ Hv) k Hk).
Qed.

(** Over a run the database grows by exactly the marks of its calls, which were
    not in it, and no mark is made by two calls. *)
Definition marked_once cid (name : bytes) (f : token_update -> list bytes) st (tr : list (CallEnv * bytes * token_update)) st' : Prop :=
  (forall k, db_contains_key cid name k st' = true <-> db_contains_key cid name k st = true \/ k ∈ flat_map (fun x => f x.2) tr) /\
  (forall k, k ∈ flat_map (fun x => f x.2) tr -> db_contains_key cid name k st = false) /\
  (forall (i j : nat) x y k, (i < j)%nat -> tr !! i = Some x -> tr !! j = Some y -> k ∈ f x.2 -> k ∉ f y.2).

Lemma run_marked cid (name : bytes) (f : token_update -> list bytes) st (tr : list (CallEnv * bytes * token_update)) st' :
  marks cid name f -> run cid st tr st' -> marked_once cid name f st tr st'.
Proof.
  intros Hmarks. induction 1 as [st | st env ix u st1 tr st2 Hb Hh Hc _ (IH1 & IH2 & IH3)].
  { split_and!; [intros k; cbn; set_solver | cbn; set_solver | by intros [] j x y k Hij]. }
  pose proof (fun k => Hmarks env ix u st st1 k Hb Hh Hc) as Hstep. unfold marked_once. cbn [flat_map snd].
  assert (forall k, k ∈ f u ++ flat_map (fun x => f x.2) tr -> db_contains_key cid name k st = false) as Hnew.
  { intros k [Hk | Hk]%elem_of_app; [by apply Hstep |]. apply IH2 in Hk. destruct (db_contains_key cid name k st) eqn:E; [| done].
    rewrite (proj2 (proj1 (Hstep k))) in Hk; [done | by left]. }
  split_and!; [| exact Hnew |].
  - intros k. rewrite elem_of_app, IH1, (proj1 (Hstep k)). tauto.
  - intros [| i] [| j] x y k Hij Hx Hy Hkx; [lia | | lia |]; cbn in Hx, Hy.
    + injection Hx as <-. cbn in Hkx. intros Hky.
      assert (k ∈ flat_map (fun x => f x.2) tr) as Hk%IH2.
      { apply list_elem_of_In, in_flat_map. exists y. split; apply list_elem_of_In; [by eapply list_elem_of_lookup_2 | done]. }
      rewrite (proj2 (proj1 (Hstep k))) in Hk; [done | by right].
    + eapply (IH3 i j); [lia | done..].
Qed.

(** C10: over any sequence of accepted calls, whatever they are and at whatever
    heights, the databases of nullifiers and of commitments grow by exactly what
    the calls spend and create; none of it was in them before, and no two calls
    of the sequence spend the same nullifier or create the same commitment. *)
Theorem calls_spend_once `{!SeparateTrees cid} st tr st' :
  run cid st tr st' ->
  marked_once cid NULLIFIERS_TREE update_nullifiers st tr st' /\
  marked_once cid COMMITMENT_SET_TREE update_commitments st tr st'.
Proof. intros Hr. split; eapply run_marked; [apply nullifiers_mark | done | apply commitments_mark | done]. Qed.

(** ** The supply and the commitment to it *)

Definition supply_key k : Prop := k = TOTAL_SUPPLY \/ k = CUMULATIVE_VALUE_COMMIT \/ k = CUMULATIVE_BLIND.

Lemma supply_key_apart k : supply_key k -> k <> COMMITMENT_MERKLE_TREE /\ k <> LATEST_COMMITMENT_ROOT.
Proof. by intros [-> | [-> | ->]]. Qed.

Definition is_reward u : bool := match u with UReward _ => true | _ => false end.

(** Only a reward writes the supply. *)
Lemma supply_unchanged `{!SeparateTrees cid} u (m ws : list write) k st :
  is_reward u = false -> merkle_writes m -> wrote u m ws -> Forall lasting ws -> supply_key k ->
  db_get cid INFO_TREE k (apply_writes cid ws st) = db_get cid INFO_TREE k st.
Proof.
  intros Hu Hm Hw Hl [Hk1 Hk2]%supply_key_apart.
  apply db_get_writes_same; [apply info_tree_known | by apply lasting_known |].
  rewrite wrote_locations by done. intros [Hin | [[E _] | [[E _] | Hin]]]; [| done | done |].
  - destruct u; try done; cbn in Hin; rewrite ?elem_of_cons, elem_of_nil in Hin; naive_solver.
  - apply merkle_writes_at in Hin as [E | [_ [E | E]]]; done.
Qed.

Lemma supply_written `{!SeparateTrees cid} (u : PoWRewardUpdateV1.t) (m ws : list write) k v st :
  merkle_writes m -> wrote (UReward u) m ws -> Forall lasting ws -> supply_key k -> (INFO_TREE, k, v) ∈ reward_writes u ->
  db_get cid INFO_TREE k (apply_writes cid ws st) = Some v.
Proof.
  intros Hm Hw Hl Hk Hin. assert (forall v', (INFO_TREE, k, v') ∈ ws -> v' = v) as Hone.
  { intros v' Hin'. unfold wrote in Hw. rewrite Hw in Hin'. rewrite !elem_of_app, !list_elem_of_fmap in Hin'.
    destruct Hin' as [Hin' | [(x & [=] & _) | [(x & [=] & _) | Hin']]].
    - cbn [own_writes] in Hin'. unfold reward_writes in Hin, Hin'. rewrite !elem_of_cons, elem_of_nil in Hin, Hin'.
      destruct Hin as [[= -> ->] | [[= -> ->] | [[= -> ->] | [[= -> ->] | []]]]];
      destruct Hin' as [[=] | [[=] | [[=] | [[=] | []]]]]; done.
    - apply supply_key_apart in Hk as [Hk1 Hk2].
      apply (list_elem_of_fmap_2 fst) in Hin'. apply merkle_writes_at in Hin' as [E | [_ [E | E]]]; done. }
  assert ((INFO_TREE, k, v) ∈ ws) as Hws by (unfold wrote in Hw; rewrite Hw; apply elem_of_app; by left).
  apply db_get_writes_set; [apply info_tree_known | by apply lasting_known | | done | done].
  apply (proj1 (Forall_forall _ _) Hl _ Hws).
Qed.

Lemma supply_after `{!SeparateTrees cid} (u : PoWRewardUpdateV1.t) (m ws : list write) st :
  merkle_writes m -> wrote (UReward u) m ws -> Forall lasting ws ->
  db_get cid INFO_TREE TOTAL_SUPPLY (apply_writes cid ws st) = Some (to_le_bytes 8 (PoWRewardUpdateV1.new_total_supply u)) /\
  db_get cid INFO_TREE CUMULATIVE_VALUE_COMMIT (apply_writes cid ws st) = Some (PoWRewardUpdateV1.cumulative_value_commit u) /\
  db_get cid INFO_TREE CUMULATIVE_BLIND (apply_writes cid ws st) = Some (PoWRewardUpdateV1.aggregate_blind u).
Proof.
  intros Hm Hw Hl. split_and!; eapply supply_written; try done; unfold supply_key, reward_writes; auto; rewrite !elem_of_cons; auto 6.
Qed.

(** The stored commitment opens to the stored supply with the stored blind. *)
Definition audited cid st (s : Z) (bl : bytes) : Prop :=
  read_supply cid st = Ok s /\ read_blind cid st = Ok bl /\ scalar_wf bl /\
  read_cumulative cid st = Ok (commitment_to s (from_le_bytes bl)).

Definition reward_of u : Z := match u with UReward u => expected_reward (PoWRewardUpdateV1.height u) | _ => 0 end.
Definition rewards (tr : list (CallEnv * bytes * token_update)) : Z := foldr (fun x acc => reward_of x.2 + acc) 0 tr.

Lemma sized_value_ok (n : Z) (what : string) v : Z.of_nat (List.length v) = n -> sized_value n what v = Ok v.
Proof. intros <-. unfold sized_value. by rewrite Z.eqb_refl. Qed.

Lemma audited_same cid st st' (s : Z) (bl : bytes) :
  (forall k, supply_key k -> db_get cid INFO_TREE k st' = db_get cid INFO_TREE k st) -> audited cid st s bl -> audited cid st' s bl.
Proof.
  intros Hk. unfold audited, read_supply, read_blind, read_cumulative. by rewrite !Hk by (unfold supply_key; auto).
Qed.

Lemma audited_call `{!SeparateTrees cid} env (ix : bytes) u st st' (s : Z) (bl : bytes) :
  Forall is_byte ix -> is_u64 (verifying_block_height env) -> calls cid env ix u st st' -> audited cid st s bl ->
  exists bl', audited cid st' (s + reward_of u) bl'.
Proof.
  intros Hb Hh Hc Ha. destruct (calls_effect _ _ _ _ _ _ Hb Hh Hc) as (m & ws & Hv & Hm & Hw & Hl & ->).
  destruct (is_reward u) eqn:Eu.
  2: { exists bl. replace (s + reward_of u) with s by (destruct u; cbn; done || lia).
       eapply audited_same; [| done]. intros k Hk. by eapply supply_unchanged. }
  destruct u; try done. destruct (v_own _ _ _ _ _ Hv) as (pr & supply & old & bl0 & Hd & Hs & Hold & Hbl & Hu & ->).
  destruct Ha as (As & Ab & Hwf & Ac). rewrite As in Hs. injection Hs as <-. rewrite Ab in Hbl. injection Hbl as <-.
  rewrite Ac in Hold. injection Hold as <-.
  assert (scalar_wf (ClearInput.value_blind (PoWRewardParamsV1.input pr))) as Hvb.
  { apply (pow_decoded (drop 1 ix) pr); [by apply Forall_drop | done]. }
  cbn [reward_of PoWRewardUpdateV1.height]. eexists (scalar_add bl _). unfold audited, read_supply, read_blind, read_cumulative.
  destruct (supply_after (cid := cid) _ m ws st Hm Hw Hl) as (-> & -> & ->).
  cbn [PoWRewardUpdateV1.new_total_supply PoWRewardUpdateV1.aggregate_blind PoWRewardUpdateV1.cumulative_value_commit].
  pose proof (scalar_add_wf bl (ClearInput.value_blind (PoWRewardParamsV1.input pr))) as Hsw.
  match goal with |- context [point_add ?a ?b] => pose proof (point_add_wf a b) as [[Hpl _] Hpc] end.
  rewrite !sized_value_ok by (rewrite ?to_le_bytes_length, ?Hpl, ?(proj1 (proj1 Hsw)); done).
  rewrite le_bytes_roundtrip, (proj2 Hsw), Hpc by done. split_and!; [done.. |].
  f_equal. unfold pedersen_commitment_u64. rewrite commitment_to_add. unfold commitment_to.
  f_equal. symmetry. apply scalar_add_mul; [apply random_base_wf | done | done].
Qed.

Lemma audited_run `{!SeparateTrees cid} st tr st' (s : Z) (bl : bytes) :
  run cid st tr st' -> audited cid st s bl -> exists bl', audited cid st' (s + rewards tr) bl'.
Proof.
  intros Hr. revert s bl. induction Hr as [st | st env ix u st1 tr st2 Hb Hh Hc _ IH]; intros s bl Ha; cbn [rewards foldr snd].
  - exists bl. by rewrite Z.add_0_r.
  - destruct (audited_call _ _ _ _ _ _ _ Hb Hh Hc Ha) as [bl1 Ha1]. rewrite Z.add_assoc. by eapply IH.
Qed.

(** A contract that has paid no reward yet. *)
Definition unminted cid st : Prop := forall k, supply_key k -> db_get cid INFO_TREE k st = None.

Lemma unminted_audited cid st : unminted cid st -> audited cid st 0 zero32.
Proof.
  intros Hu. unfold audited, read_supply, read_blind, read_cumulative. rewrite !Hu by (unfold supply_key; auto).
  split_and!; [done | done | apply scalar_zero_wf |]. f_equal. symmetry. apply commitment_to_zero.
Qed.

(** C11: however calls of the contract are interleaved, the supply it records is
    the sum of the scheduled rewards of the heights at which rewards were paid,
    and the commitment it records opens to that supply with the blinding factor
    it records: the public audit of the supply never fails. *)
Theorem supply_is_audited `{!SeparateTrees cid} st tr st' :
  unminted cid st -> run cid st tr st' ->
  exists bl, read_supply cid st' = Ok (rewards tr) /\ read_blind cid st' = Ok bl /\
    read_cumulative cid st' = Ok (commitment_to (rewards tr) (from_le_bytes bl)).
Proof.
  intros Hu%unminted_audited Hr. destruct (audited_run _ _ _ _ _ Hr Hu) as (bl & Hs & Hb & _ & Hc). by exists bl.
Qed.

(** ** The fee pot *)

(** The pot of a height; absent counts as empty. *)
Definition pot cid (h : Z) st : CRes Z := let? p := read_fees cid h st in Ok (default 0 p).

Definition paid_at (h : Z) (x : CallEnv * bytes * token_update) : Z :=
  match x with
  | (env, ix, UFee _) =>
      if verifying_block_height env =? h then match FeeParamsV3.dec (drop 1 ix) with Ok p => FeeParamsV3.fee p | Err _ => 0 end else 0
  | _ => 0
  end.

Definition claimed_at (h : Z) (x : CallEnv * bytes * token_update) : Z :=
  match x with
  | (env, ix, UCollect _) =>
      if verifying_block_height env =? h
      then match FeeCollectParamsV1.dec (drop 1 ix) with Ok p => FeeCollectParamsV1.total_fees p | Err _ => 0 end else 0
  | _ => 0
  end.

(** A reward empties the pot of the next height. *)
Definition opens_pot (h : Z) (x : CallEnv * bytes * token_update) : bool :=
  match x with (env, _, UReward _) => BlockHeight.succ (verifying_block_height env) =? h | _ => false end.

Lemma pot_key_inj (a b : Z) : is_u64 a -> is_u64 b -> to_le_bytes 8 a = to_le_bytes 8 b -> a = b.
Proof.
  intros Ha Hb E. apply (f_equal from_le_bytes) in E. by rewrite !le_bytes_roundtrip in E.
Qed.

Lemma fees_unchanged `{!SeparateTrees cid} u (m ws : list write) k st :
  merkle_writes m -> wrote u m ws -> Forall lasting ws -> (FEES_TREE, k) ∉ map fst (own_writes u) ->
  db_get cid FEES_TREE k (apply_writes cid ws st) = db_get cid FEES_TREE k st.
Proof.
  intros Hm Hw Hl Hout. apply db_get_writes_same; [apply fees_tree_known | by apply lasting_known |].
  rewrite wrote_locations by done. intros [Hin | [[E _] | [[E _] | Hin]]]; [done.. |].
  apply merkle_writes_at in Hin as [E | [E _]]; done.
Qed.

Lemma fees_written `{!SeparateTrees cid} u (m ws : list write) k v st :
  merkle_writes m -> wrote u m ws -> Forall lasting ws -> (FEES_TREE, k, v) ∈ own_writes u ->
  db_get cid FEES_TREE k (apply_writes cid ws st) = Some v.
Proof.
  intros Hm Hw Hl Hin. assert (forall v', (FEES_TREE, k, v') ∈ ws -> v' = v) as Hone.
  { intros v' Hin'. unfold wrote in Hw. rewrite Hw in Hin'. rewrite !elem_of_app, !list_elem_of_fmap in Hin'.
    destruct Hin' as [Hin' | [(x & [=] & _) | [(x & [=] & _) | Hin']]].
    - destruct u; cbn [own_writes] in Hin, Hin'; unfold reward_writes in *; rewrite ?elem_of_cons, elem_of_nil in Hin, Hin'; try done;
        repeat (destruct Hin as [[=] | Hin]); repeat (destruct Hin' as [[=] | Hin']); try done; congruence.
    - apply (list_elem_of_fmap_2 fst) in Hin'. apply merkle_writes_at in Hin' as [E | [E _]]; done. }
  assert ((FEES_TREE, k, v) ∈ ws) as Hws by (unfold wrote in Hw; rewrite Hw; apply elem_of_app; by left).
  apply db_get_writes_set; [apply fees_tree_known | by apply lasting_known | | done | done].
  apply (proj1 (Forall_forall _ _) Hl _ Hws).
Qed.

Lemma pot_stored cid (h : Z) st (p : Z) :
  is_u64 p -> db_get cid FEES_TREE (to_le_bytes 8 h) st = Some (to_le_bytes 8 p) -> pot cid h st = Ok p.
Proof.
  intros Hp E. unfold pot, read_fees. rewrite E, sized_value_ok by (by rewrite to_le_bytes_length). cbn [default from_option id]. by rewrite le_bytes_roundtrip.
Qed.

Lemma pot_same cid (h : Z) st st' :
  db_get cid FEES_TREE (to_le_bytes 8 h) st' = db_get cid FEES_TREE (to_le_bytes 8 h) st -> pot cid h st' = pot cid h st.
Proof. unfold pot, read_fees. by intros ->. Qed.

Definition sum_of (f : CallEnv * bytes * token_update -> Z) (tr : list (CallEnv * bytes * token_update)) : Z :=
  foldr (fun x acc => f x + acc) 0 tr.

Lemma pot_call `{!SeparateTrees cid} env (ix : bytes) u st st' (h p : Z) :
  Forall is_byte ix -> is_u64 (verifying_block_height env) -> calls cid env ix u st st' -> is_u64 h -> is_u64 p ->
  pot cid h st = Ok p -> opens_pot h (env, ix, u) = false ->
  exists q, pot cid h st' = Ok q /\ is_u64 q /\ (p + paid_at h (env, ix, u) < 2 ^ 64 ->
    q + claimed_at h (env, ix, u) = p + paid_at h (env, ix, u)) /\ 0 <= paid_at h (env, ix, u).
Proof.
  intros Hb He Hc Hh Hp Hpot Ho. destruct (calls_effect _ _ _ _ _ _ Hb He Hc) as (m & ws & Hv & Hm & Hw & Hl & ->).
  pose proof (v_own _ _ _ _ _ Hv) as Hown.
  assert ((FEES_TREE, to_le_bytes 8 h) ∉ map fst (own_writes u) ->
    pot cid h (apply_writes cid ws st) = Ok p) as Hsame.
  { intros Hout. rewrite (pot_same cid h st); [done |]. by eapply fees_unchanged. }
  destruct u as [u | u | u | u | u | u | u]; cbn [paid_at claimed_at own_writes map] in *;
    try (exists p; split_and!; [apply Hsame; by apply not_elem_of_nil | done | lia | lia]).
  - exists p. split_and!; [apply Hsame | done | lia | lia].
    destruct Hown as (pr & supply & old & bl & _ & _ & _ & _ & _ & ->).
    unfold reward_writes. cbn [map fst PoWRewardUpdateV1.height]. rewrite !not_elem_of_cons.
    split_and!; try done; [| apply not_elem_of_nil]. intros E%(f_equal snd). cbn [opens_pot snd] in *. apply Z.eqb_neq in Ho.
    apply pot_key_inj in E; [congruence | done |]. unfold BlockHeight.succ. by apply wrap_is_u.
  - destruct Hown as (fc & Hd & Eh & Hnz & Hf). rewrite Hd. destruct (Z.eqb_spec (verifying_block_height env) h) as [E | E].
    + exists 0. split_and!; [| done | | lia].
      * apply pot_stored; [done |]. eapply fees_written; [done.. |]. cbn [own_writes]. rewrite Eh, E. by apply list_elem_of_singleton.
      * unfold pot in Hpot. rewrite E in Hf. rewrite Hf in Hpot. cbn in Hpot. injection Hpot as ->. lia.
    + exists p. split_and!; [apply Hsame | done | lia | lia]. cbn [map fst]. rewrite Eh. rewrite not_elem_of_cons. split; [| apply not_elem_of_nil].
      intros Ek%(f_equal snd). cbn [snd] in Ek. apply pot_key_inj in Ek; [congruence | done..].
  - destruct Hown as (fp & pt & Hd & Eh & _ & Hf & Efee). rewrite Hd.
    assert (is_u64 (FeeParamsV3.fee fp)) as [Hfee0 _].
    { apply (fee_decoded (drop 1 ix) fp); [by apply Forall_drop | done]. }
    destruct (Z.eqb_spec (verifying_block_height env) h) as [E | E].
    + exists (FeeUpdate.fee u). unfold pot in Hpot. rewrite E in Hf. rewrite Hf in Hpot. injection Hpot as Hpt.
      rewrite Hpt in Efee. split_and!; [| rewrite Efee; by apply wrap_is_u | | done].
      * apply pot_stored; [rewrite Efee; by apply wrap_is_u |]. eapply fees_written; [done.. |]. cbn [own_writes].
        rewrite Eh, E. by apply list_elem_of_singleton.
      * intros Hlt. rewrite Efee, wrap_small; [lia |]. destruct Hp. split; lia.
    + exists p. split_and!; [apply Hsame | done | lia | lia]. cbn [map fst]. rewrite Eh. rewrite not_elem_of_cons. split; [| apply not_elem_of_nil].
      intros Ek%(f_equal snd). cbn [snd] in Ek. apply pot_key_inj in Ek; [congruence | done..].
Qed.

Lemma paid_nonneg (h : Z) env (ix : bytes) u : Forall is_byte ix -> 0 <= paid_at h (env, ix, u).
Proof.
  intros Hb. destruct u; cbn [paid_at]; try lia. destruct (_ =? h); [| done].
  destruct (FeeParamsV3.dec (drop 1 ix)) as [fp |] eqn:E; [| done].
  apply (fee_decoded (drop 1 ix) fp); [by apply Forall_drop | done].
Qed.

Lemma run_paid_nonneg cid st tr st' (h : Z) : run cid st tr st' -> 0 <= sum_of (paid_at h) tr.
Proof.
  induction 1 as [| st env ix u st1 tr st2 Hb _ _ _ IH]; [done |]. cbn [sum_of foldr]. fold (sum_of (paid_at h) tr).
  pose proof (paid_nonneg h env ix u Hb). lia.
Qed.

(** C14: the fees of a block are neither lost nor multiplied: over any sequence of
    calls in which the pot of height [h] is not re-opened, what was in it and
    what the fee calls declare is what the collections claim and what is left,
    as long as the total fits 64 bits. *)
Theorem fees_conserved `{!SeparateTrees cid} st tr st' (h p : Z) :
  is_u64 h -> is_u64 p -> pot cid h st = Ok p -> run cid st tr st' ->
  Forall (fun x => opens_pot h x = false) tr -> p + sum_of (paid_at h) tr < 2 ^ 64 ->
  exists q, pot cid h st' = Ok q /\ q + sum_of (claimed_at h) tr = p + sum_of (paid_at h) tr.
Proof.
  intros Hh Hp Hpot Hr. revert p Hp Hpot. induction Hr as [st | st env ix u st1 tr st2 Hb He Hc Hr IH]; intros p Hp Hpot Hopen Hlt.
  { by exists p. }
  apply Forall_cons in Hopen as [Ho Hopen]. cbn [sum_of foldr] in *. fold (sum_of (paid_at h) tr) in *. fold (sum_of (claimed_at h) tr) in *.
  destruct (pot_call env ix u st st1 h p Hb He Hc Hh Hp Hpot Ho) as (q1 & Hq & Hu & Hcons & Hnn).
  pose proof (run_paid_nonneg _ _ _ _ h Hr) as Hsum. specialize (Hcons ltac:(lia)).
  assert (0 <= claimed_at h (env, ix, u)) as Hcl.
  { destruct u; cbn [claimed_at]; try lia. destruct (_ =? h); [| done].
    destruct (FeeCollectParamsV1.dec (drop 1 ix)) as [fc |] eqn:E; [| done].
    apply (fee_collect_decoded (drop 1 ix) fc); [by apply Forall_drop | done]. }
  destruct (IH q1 Hu Hq Hopen ltac:(lia)) as (q & Hpq & E). exists q. split; [done | lia].
Qed.

End runs.
