(* ===== verification/TokenFlows.v ===== *)
(** * Conservation of value by the native token contract

    A transfer passes when, token by token, the commitments of its inputs add up
    to those of its outputs.  For the values behind the commitments this means
    that they add up too, or that the difference of the values and the difference
    of the blinding factors are the coefficients of a relation between the two
    bases of the commitment scheme. *)

From Stdlib Require Import String.
From S2P Require Import Prelude Units Emission Serial Externals Transaction Store Consensus NativeToken L1Contracts.
From S2P Require Import TokenParams Supply Pedersen TokenUpdates TokenContract TokenState TokenRuns.

Section sums.
Context `{EXT : Externals} `{OPS : !CurveOps} `{MUL : !CurveMul} `{HOST : !ContractHost} `{LAWS : !CurveLaws}.

(** [a] and [b] are a relation between the bases: [a * V + b * R] is the identity,
    [a] nonzero and small against the order of the group. *)
Definition bases_relation (n : nat) (a b : Z) : Prop :=
  a <> 0 /\ Z.abs a <= 2 ^ 64 * Z.of_nat n /\ commitment_to a b = point_identity.

(** The commitments of one token. *)
Definition of_token (tc : bytes) (entries : list (bytes * bytes)) : list bytes :=
  map snd (filter (fun e => e.1 = tc) entries).

(** Sums of commitments are equal exactly when the differences of their openings
    commit to nothing. *)
Lemma balanced_iff (ps qs : list bytes) (os os' : list (Z * bytes)) :
  Forall2 opens ps os -> Forall2 opens qs os' ->
  (point_sum ps = point_sum qs <-> commitment_to (values os - values os') (blinds os - blinds os') = point_identity).
Proof. intros Hp Hq. rewrite (point_sum_opens _ _ Hp), (point_sum_opens _ _ Hq). apply commitment_to_eq. Qed.

(** If they do and the values differ, the differences are a relation. *)
Lemma balanced_values (ps qs : list bytes) (os os' : list (Z * bytes)) :
  Forall2 opens ps os -> Forall2 opens qs os' ->
  commitment_to (values os - values os') (blinds os - blinds os') = point_identity ->
  values os = values os' \/ bases_relation (List.length ps + List.length qs) (values os - values os') (blinds os - blinds os').
Proof.
  intros Hp Hq E. destruct (decide (values os = values os')) as [| Hne]; [by left | right].
  pose proof (values_bounds _ _ Hp). pose proof (values_bounds _ _ Hq). split_and!; [lia | lia | done].
Qed.

Lemma find_add (tc t v : bytes) (sums : list (bytes * bytes)) :
  find_sum tc (add_to_sums t v sums) =
  if bool_decide (t = tc) then Some (match find_sum tc sums with Some s => point_add s v | None => v end) else find_sum tc sums.
Proof.
  induction sums as [| [t' s] sums IH]; cbn [add_to_sums find_sum]; [by destruct (bool_decide (t = tc)) |].
  destruct (bool_decide (t' = t)) eqn:Et; cbn [find_sum]; bool_facts.
  - subst t'. by destruct (bool_decide (t = tc)).
  - rewrite IH. destruct (bool_decide (t' = tc)) eqn:Etc; bool_facts; [| done]. by rewrite bool_decide_false by congruence.
Qed.

Lemma find_token_sums (tc : bytes) (entries : list (bytes * bytes)) :
  Forall (fun e => point_wf e.2) entries ->
  find_sum tc (token_sums entries) =
  match of_token tc entries with [] => None | ps => Some (point_sum ps) end.
Proof.
  induction entries as [| [t v] entries IH] using rev_ind; intros Hwf; [done |].
  apply Forall_app in Hwf as [Hwf [Hv _]%Forall_cons]. cbn [snd] in Hv.
  unfold token_sums in *. rewrite foldl_app. cbn [foldl fst snd]. rewrite find_add, IH by done.
  unfold of_token. rewrite filter_app, map_app. destruct (bool_decide (t = tc)) eqn:Et; bool_facts.
  - rewrite filter_cons_True, filter_nil by done. cbn [map snd].
    destruct (map snd (filter (fun e => e.1 = tc) entries)) as [| p ps] eqn:Em; cbn [app].
    + unfold point_sum. cbn [foldl]. by rewrite point_add_identity.
    + unfold point_sum. cbn [foldl]. by rewrite foldl_app.
  - rewrite filter_cons_False, filter_nil by done. cbn [map]. by rewrite app_nil_r.
Qed.

Lemma find_sum_in (tc s : bytes) (sums : list (bytes * bytes)) : find_sum tc sums = Some s -> (tc, s) ∈ sums.
Proof.
  induction sums as [| [t v] sums IH]; cbn [find_sum]; [done |]. destruct (bool_decide (t = tc)) eqn:E; bool_facts.
  - intros [= ->]. subst t. apply elem_of_cons. by left.
  - intros Hf. apply elem_of_cons. right. by apply IH.
Qed.

Lemma conserves_sums (ins : list Input.t) (outs : list Output.t) (tc : bytes) :
  conserves ins outs = true ->
  find_sum tc (token_sums (map input_entry ins)) = find_sum tc (token_sums (map output_entry outs)).
Proof.
  unfold conserves. rewrite andb_true_iff, !forallb_forall. intros [Hin Hout].
  destruct (find_sum tc (token_sums (map input_entry ins))) as [s |] eqn:E.
  - apply find_sum_in in E. specialize (Hin _ (proj1 (list_elem_of_In _ _) E)). bool_facts. done.
  - destruct (find_sum tc (token_sums (map output_entry outs))) as [s |] eqn:E'; [| done].
    apply find_sum_in in E'. specialize (Hout _ (proj1 (list_elem_of_In _ _) E')). bool_facts.
    cbn in Hout. rewrite E in Hout. by destruct Hout.
Qed.

Lemma conserves_points (ins : list Input.t) (outs : list Output.t) (tc : bytes) :
  Forall input_wf ins -> Forall output_wf outs -> conserves ins outs = true ->
  point_sum (of_token tc (map input_entry ins)) = point_sum (of_token tc (map output_entry outs)).
Proof.
  intros Hi Ho Hc. apply (conserves_sums ins outs tc) in Hc.
  rewrite !find_token_sums in Hc.
  - destruct (of_token tc (map input_entry ins)), (of_token tc (map output_entry outs)); congruence.
  - apply Forall_map. eapply Forall_impl; [exact Ho |]. intros o Hw. apply Hw.
  - apply Forall_map. eapply Forall_impl; [exact Hi |]. intros i Hw. apply Hw.
Qed.

(** C12: an accepted transfer conserves value: take any token and any openings of
    the commitments of the transfer's inputs and outputs in that token, and the
    difference of the two sums of values and the difference of the two sums of
    blinding factors commit to the identity.  So the values of the inputs add up
    to the values of the outputs, or these two differences are themselves a
    relation between the bases of the scheme. *)
Theorem transfer_conserves (cid : bytes) (env : CallEnv) (ix : bytes) (u : TransferUpdateV1.t) (st st' : Tree) :
  Forall is_byte ix -> is_u64 (verifying_block_height env) -> calls cid env ix (UTransfer u) st st' ->
  exists tp, TransferParamsV1.dec (drop 1 ix) = Ok tp /\ forall tc os os',
    let ins := of_token tc (map input_entry (TransferParamsV1.inputs tp)) in
    let outs := of_token tc (map output_entry (TransferParamsV1.outputs tp)) in
    Forall2 opens ins os -> Forall2 opens outs os' ->
    let a := values os - values os' in
    let b := blinds os - blinds os' in
    commitment_to a b = point_identity /\ (values os = values os' \/ bases_relation (List.length ins + List.length outs) a b).
Proof.
  intros Hb Hh Hc. destruct (calls_effect _ _ _ _ _ _ Hb Hh Hc) as (m & ws & Hv & _).
  destruct (v_own _ _ _ _ _ Hv) as (tp & Hd & _ & _ & Hcons). exists tp. split; [done |]. intros tc os os' ins outs Hi Ho a b.
  enough (commitment_to a b = point_identity) as E by (split; [done | by apply balanced_values]).
  apply (balanced_iff ins outs); [done.. |].
  pose proof (transfer_decoded (drop 1 ix) tp ltac:(by apply Forall_drop) Hd) as (Hwi & Hwo & _).
  by apply conserves_points.
Qed.
End sums.
