(* ===== verification/TokenBalance.v ===== *)
(** * Proof of token balance ([src/linear/src/proof_of_token_balance.rs])

    The node's own check, before any contract runs, that the transactions of a
    block create no native token: commitments of outputs, burns and fees add up
    to those of inputs.  The coinbase transaction is left out; mints, rewards,
    uncle notes and fee collections are not counted. *)

From Stdlib Require Import String.
From S2P Require Import Prelude Units Emission Serial Externals Transaction Block Store Consensus NativeToken L1Contracts.
From S2P Require Import TokenParams Supply Pedersen TokenUpdates TokenContract TokenState TokenRuns TokenFlows.

Inductive BalanceError := MassBalanceFailed | MissingCoinbase | Deserialize (e : ContractError).

(** The four accumulators. *)
Record Sums := { total_inputs : bytes; total_outputs : bytes; burn_aggregate : bytes; fee_aggregate : bytes }.

Section balance.
Context `{EXT : Externals} `{OPS : !CurveOps}.

Definition no_sums : Sums :=
  {| total_inputs := point_identity; total_outputs := point_identity; burn_aggregate := point_identity;
     fee_aggregate := point_identity |}.

Definition add_input (p : bytes) (s : Sums) : Sums :=
  {| total_inputs := point_add (total_inputs s) p; total_outputs := total_outputs s;
     burn_aggregate := burn_aggregate s; fee_aggregate := fee_aggregate s |}.
Definition add_output (p : bytes) (s : Sums) : Sums :=
  {| total_inputs := total_inputs s; total_outputs := point_add (total_outputs s) p;
     burn_aggregate := burn_aggregate s; fee_aggregate := fee_aggregate s |}.
Definition add_burn (p : bytes) (s : Sums) : Sums :=
  {| total_inputs := total_inputs s; total_outputs := total_outputs s;
     burn_aggregate := point_add (burn_aggregate s) p; fee_aggregate := fee_aggregate s |}.
Definition add_fee (p : bytes) (s : Sums) : Sums :=
  {| total_inputs := total_inputs s; total_outputs := total_outputs s; burn_aggregate := burn_aggregate s;
     fee_aggregate := point_add (fee_aggregate s) p |}.

(** [map_err(BalanceError::Deserialize)]. *)
Definition decoded_call {A : Type} (r : CRes A) : result BalanceError A :=
  match r with Ok a => Ok a | Err e => Err (Deserialize e) end.

Definition matches_native_token (c : ContractCall) : bool := bool_decide (contract_id c = NATIVE_TOKEN_CONTRACT_ID).

Definition process_fee_v3_call (d tc : bytes) (s : Sums) : result BalanceError Sums :=
  let? p := decoded_call (FeeParamsV3.dec (drop 1 d)) in
  if negb (bool_decide (Input.token_commit (FeeParamsV3.input p) = tc)) then Ok s
  else Ok (add_fee (FeeParamsV3.fee_value_commit p) (add_output (Output.value_commit (FeeParamsV3.output p))
             (add_input (Input.value_commit (FeeParamsV3.input p)) s))).

Definition burn_input (tc : bytes) (s : Sums) (i : Input.t) : Sums :=
  if bool_decide (Input.token_commit i = tc) then add_burn (Input.value_commit i) (add_input (Input.value_commit i) s) else s.

Definition process_burn_call (d tc : bytes) (s : Sums) : result BalanceError Sums :=
  let? p := decoded_call (BurnParamsV1.dec (drop 1 d)) in
  Ok (foldl (burn_input tc) s (BurnParamsV1.inputs p)).

Definition count_input (tc : bytes) (s : Sums) (i : Input.t) : Sums :=
  if bool_decide (Input.token_commit i = tc) then add_input (Input.value_commit i) s else s.

Definition count_output (tc : bytes) (s : Sums) (o : Output.t) : Sums :=
  if bool_decide (Output.token_commit o = tc) then add_output (Output.value_commit o) s else s.

Definition process_transfer_call (d tc : bytes) (s : Sums) : result BalanceError Sums :=
  let? p := decoded_call (TransferParamsV1.dec (drop 1 d)) in
  Ok (foldl (count_output tc) (foldl (count_input tc) s (TransferParamsV1.inputs p)) (TransferParamsV1.outputs p)).

Definition process_spend_call (d tc : bytes) (s : Sums) : result BalanceError Sums :=
  let? p := decoded_call (SpendParamsV1.dec (drop 1 d)) in
  Ok (count_output tc (count_input tc s (SpendParamsV1.input p)) (SpendParamsV1.output p)).

(** The body of the loop over the calls. *)
Definition balance_call (tc : bytes) (c : ContractCall) (s : Sums) : result BalanceError Sums :=
  if negb (matches_native_token c) then Ok s
  else match data c with
       | [] => Ok s
       | func_byte :: _ =>
           match native_token_function func_byte with
           | Err _ => Ok s
           | Ok (MintV1 | PoWRewardV1 | FeeCollectV1 | UncleMintV1) => Ok s
           | Ok BurnV1 => process_burn_call (data c) tc s
           | Ok TransferV1 => process_transfer_call (data c) tc s
           | Ok SpendV1 => process_spend_call (data c) tc s
           | Ok FeeV3 => process_fee_v3_call (data c) tc s
           end
       end.

Fixpoint balance_calls (tc : bytes) (cs : list ContractCall) (s : Sums) : result BalanceError Sums :=
  match cs with
  | [] => Ok s
  | c :: rest => let? s' := balance_call tc c s in balance_calls tc rest s'
  end.

Fixpoint balance_txs (tc : bytes) (first : bool) (txs : list Transaction) (s : Sums) : result BalanceError Sums :=
  match txs with
  | [] => Ok s
  | t :: rest =>
      if first && first_call_is_pow_reward t then balance_txs tc false rest s
      else let? s' := balance_calls tc (contract_calls t) s in balance_txs tc false rest s'
  end.

Definition verify_coinbase (b : Block) : result BalanceError unit :=
  match transactions b with
  | t :: _ => if first_call_is_pow_reward t then Ok tt else Err MissingCoinbase
  | [] => Err MissingCoinbase
  end.

Definition verify_proof_of_token_balance (b : Block) : result BalanceError unit :=
  let? s := balance_txs native_token_commit true (transactions b) no_sums in
  let left := point_add (point_add (total_outputs s) (burn_aggregate s)) (fee_aggregate s) in
  if negb (bool_decide (left = total_inputs s)) then Err MassBalanceFailed else verify_coinbase b.

(** ** What is counted *)

(** The commitments a call moves in the native token. *)
Record Flows := { ins : list bytes; outs : list bytes; burns : list bytes; fees : list bytes }.

Definition no_flows : Flows := {| ins := []; outs := []; burns := []; fees := [] |}.
Definition flows_app (f g : Flows) : Flows :=
  {| ins := ins f ++ ins g; outs := outs f ++ outs g; burns := burns f ++ burns g; fees := fees f ++ fees g |}.

Definition native_ins (is_ : list Input.t) : list bytes := of_token native_token_commit (map input_entry is_).
Definition native_outs (os : list Output.t) : list bytes := of_token native_token_commit (map output_entry os).

Definition call_flows (c : ContractCall) : Flows :=
  if negb (matches_native_token c) then no_flows
  else match data c with
  | [] => no_flows
  | sel :: params =>
      match native_token_function sel with
      | Ok BurnV1 => match BurnParamsV1.dec params with
          | Ok p => {| ins := native_ins (BurnParamsV1.inputs p); outs := []; burns := native_ins (BurnParamsV1.inputs p); fees := [] |}
          | Err _ => no_flows end
      | Ok TransferV1 => match TransferParamsV1.dec params with
          | Ok p => {| ins := native_ins (TransferParamsV1.inputs p); outs := native_outs (TransferParamsV1.outputs p); burns := []; fees := [] |}
          | Err _ => no_flows end
      | Ok SpendV1 => match SpendParamsV1.dec params with
          | Ok p => {| ins := native_ins [SpendParamsV1.input p]; outs := native_outs [SpendParamsV1.output p]; burns := []; fees := [] |}
          | Err _ => no_flows end
      | Ok FeeV3 => match FeeParamsV3.dec params with
          | Ok p => if bool_decide (Input.token_commit (FeeParamsV3.input p) = native_token_commit)
                    then {| ins := [Input.value_commit (FeeParamsV3.input p)]; outs := [Output.value_commit (FeeParamsV3.output p)];
                            burns := []; fees := [FeeParamsV3.fee_value_commit p] |}
                    else no_flows
          | Err _ => no_flows end
      | _ => no_flows
      end
  end.

Definition all_flows (cs : list ContractCall) : Flows := foldr (fun c f => flows_app (call_flows c) f) no_flows cs.

(** The calls after the coinbase. *)
Definition counted_calls (b : Block) : list ContractCall := flat_map contract_calls (drop 1 (transactions b)).

(** The accumulators after the flows. *)
Definition with_flows (s : Sums) (f : Flows) : Sums :=
  {| total_inputs := foldl point_add (total_inputs s) (ins f); total_outputs := foldl point_add (total_outputs s) (outs f);
     burn_aggregate := foldl point_add (burn_aggregate s) (burns f); fee_aggregate := foldl point_add (fee_aggregate s) (fees f) |}.

Lemma with_flows_app (s : Sums) (f g : Flows) : with_flows s (flows_app f g) = with_flows (with_flows s f) g.
Proof. unfold with_flows, flows_app. cbn [ins outs burns fees total_inputs total_outputs burn_aggregate fee_aggregate]. by rewrite !foldl_app. Qed.

Lemma with_no_flows (s : Sums) : with_flows s no_flows = s.
Proof. by destruct s. Qed.

Lemma of_token_cons (tc : bytes) (e : bytes * bytes) (es : list (bytes * bytes)) :
  of_token tc (e :: es) = if bool_decide (e.1 = tc) then e.2 :: of_token tc es else of_token tc es.
Proof. unfold of_token. rewrite filter_cons. by destruct (decide (e.1 = tc)) as [E | E]; [rewrite bool_decide_true | rewrite bool_decide_false]. Qed.

Lemma count_inputs_flows (is_ : list Input.t) (s : Sums) :
  foldl (count_input native_token_commit) s is_ = with_flows s {| ins := native_ins is_; outs := []; burns := []; fees := [] |}.
Proof.
  revert s. induction is_ as [| i is_ IH]; intros s; [by destruct s |]. cbn [foldl]. rewrite IH. unfold count_input, native_ins.
  cbn [map]. rewrite of_token_cons. cbn [input_entry fst snd]. by destruct (bool_decide _).
Qed.

Lemma count_outputs_flows (os : list Output.t) (s : Sums) :
  foldl (count_output native_token_commit) s os = with_flows s {| ins := []; outs := native_outs os; burns := []; fees := [] |}.
Proof.
  revert s. induction os as [| o os IH]; intros s; [by destruct s |]. cbn [foldl]. rewrite IH. unfold count_output, native_outs.
  cbn [map]. rewrite of_token_cons. cbn [output_entry fst snd]. by destruct (bool_decide _).
Qed.

Lemma burn_inputs_flows (is_ : list Input.t) (s : Sums) :
  foldl (burn_input native_token_commit) s is_ =
  with_flows s {| ins := native_ins is_; outs := []; burns := native_ins is_; fees := [] |}.
Proof.
  revert s. induction is_ as [| i is_ IH]; intros s; [by destruct s |]. cbn [foldl]. rewrite IH. unfold burn_input, native_ins.
  cbn [map]. rewrite of_token_cons. cbn [input_entry fst snd]. by destruct (bool_decide _).
Qed.

Lemma flows_in_out (l l' : list bytes) :
  flows_app {| ins := l; outs := []; burns := []; fees := [] |} {| ins := []; outs := l'; burns := []; fees := [] |} =
  {| ins := l; outs := l'; burns := []; fees := [] |}.
Proof. unfold flows_app. cbn. by rewrite app_nil_r. Qed.

(** The parameters of a call that is counted decode. *)
Definition readable (c : ContractCall) : bool := is_ok (balance_call native_token_commit c no_sums).

Lemma balance_call_flows (c : ContractCall) (s : Sums) :
  match balance_call native_token_commit c s with
  | Ok s' => readable c = true /\ s' = with_flows s (call_flows c)
  | Err _ => readable c = false
  end.
Proof.
  unfold readable, balance_call, call_flows. destruct (matches_native_token c); cbn [negb]; [| by rewrite with_no_flows].
  destruct (data c) as [| sel params]; [by rewrite with_no_flows |].
  destruct (native_token_function sel) as [[] |]; try by rewrite with_no_flows.
  - unfold process_burn_call. cbn [drop]. rewrite drop_0. destruct (BurnParamsV1.dec params); cbn [decoded_call is_ok]; [| done].
    by rewrite burn_inputs_flows.
  - unfold process_transfer_call. cbn [drop]. rewrite drop_0. destruct (TransferParamsV1.dec params); cbn [decoded_call is_ok]; [| done].
    rewrite !count_inputs_flows, !count_outputs_flows, <- !with_flows_app. by rewrite flows_in_out.
  - unfold process_spend_call. cbn [drop]. rewrite drop_0. destruct (SpendParamsV1.dec params) as [p |]; cbn [decoded_call is_ok]; [| done].
    split; [done |]. change (count_input ?tc s ?i) with (foldl (count_input tc) s [i]).
    rewrite count_inputs_flows. change (count_output ?tc ?t ?o) with (foldl (count_output tc) t [o]).
    by rewrite count_outputs_flows, <- with_flows_app, flows_in_out.
  - unfold process_fee_v3_call. cbn [drop]. rewrite drop_0. destruct (FeeParamsV3.dec params) as [p |]; cbn [decoded_call is_ok]; [| done].
    destruct (bool_decide _); cbn [negb is_ok]; [done | by rewrite with_no_flows].
Qed.

Lemma balance_calls_flows (cs : list ContractCall) (s : Sums) :
  match balance_calls native_token_commit cs s with
  | Ok s' => forallb readable cs = true /\ s' = with_flows s (all_flows cs)
  | Err _ => forallb readable cs = false
  end.
Proof.
  revert s. induction cs as [| c cs IH]; intros s; cbn [balance_calls forallb all_flows foldr]; [by rewrite with_no_flows |].
  pose proof (balance_call_flows c s) as Hc. destruct (balance_call _ c s) as [s' | e]; [| by rewrite Hc].
  destruct Hc as [-> ->]. specialize (IH (with_flows s (call_flows c))). rewrite with_flows_app. exact IH.
Qed.

Lemma all_flows_app (cs cs' : list ContractCall) : all_flows (cs ++ cs') = flows_app (all_flows cs) (all_flows cs').
Proof.
  induction cs as [| c cs IH]; [cbn [app]; by destruct (all_flows cs') |]. cbn [app all_flows foldr] in *. fold (all_flows cs) in *.
  fold (all_flows (cs ++ cs')). rewrite IH. unfold flows_app. cbn [ins outs burns fees]. by rewrite !app_assoc.
Qed.

Lemma balance_rest_flows (txs : list Transaction) (s : Sums) :
  match balance_txs native_token_commit false txs s with
  | Ok s' => forallb readable (flat_map contract_calls txs) = true /\ s' = with_flows s (all_flows (flat_map contract_calls txs))
  | Err _ => forallb readable (flat_map contract_calls txs) = false
  end.
Proof.
  revert s. induction txs as [| t txs IH]; intros s; cbn [balance_txs flat_map andb]; [by rewrite with_no_flows |].
  rewrite forallb_app, all_flows_app, with_flows_app.
  pose proof (balance_calls_flows (contract_calls t) s) as Hc.
  destruct (balance_calls _ _ s) as [s' | e]; [| by rewrite Hc]. destruct Hc as [-> ->]. exact (IH _).
Qed.

Context `{MUL : !CurveMul} `{LAWS : !CurveLaws}.

(** The outputs, burns and fees together. *)
Definition leaving (f : Flows) : list bytes := outs f ++ burns f ++ fees f.

Lemma sums_leaving (f : Flows) :
  Forall point_wf (leaving f) ->
  let s := with_flows no_sums f in
  point_add (point_add (total_outputs s) (burn_aggregate s)) (fee_aggregate s) = point_sum (leaving f) /\
  total_inputs s = point_sum (ins f).
Proof.
  unfold leaving. rewrite !Forall_app. intros (Ho & Hb & Hf). split; [| done].
  cbn [with_flows no_sums total_outputs burn_aggregate fee_aggregate].
  fold (point_sum (outs f)) (point_sum (burns f)) (point_sum (fees f)).
  unfold point_sum at 4. rewrite !foldl_app. fold (point_sum (outs f)).
  rewrite !(point_sum_from (fees f)), (point_sum_from (burns f)) by eauto using point_fold_wf, point_sum_wf. done.
Qed.

(** Acceptance: the coinbase is first, the calls after it decode and their
    points balance. *)
Lemma balance_accepts (b : Block) :
  Forall point_wf (leaving (all_flows (counted_calls b))) ->
  (verify_proof_of_token_balance b = Ok tt <->
   verify_coinbase b = Ok tt /\ forallb readable (counted_calls b) = true /\
   point_sum (ins (all_flows (counted_calls b))) = point_sum (leaving (all_flows (counted_calls b)))).
Proof.
  unfold verify_proof_of_token_balance, verify_coinbase, counted_calls. destruct (transactions b) as [| t txs].
  { cbn [balance_txs]. destruct (negb _); naive_solver. }
  cbn [balance_txs andb drop]. rewrite drop_0. intros Hwf. destruct (first_call_is_pow_reward t).
  - pose proof (balance_rest_flows txs no_sums) as Hr. destruct (balance_txs _ _ _ _) as [s | e].
    + destruct Hr as [-> ->]. destruct (sums_leaving _ Hwf) as [-> ->]. cbn zeta.
      destruct (bool_decide _) eqn:E; bool_facts; cbn [negb]; split; [done | done | done |]. intros (_ & _ & Eq). by destruct E.
    + rewrite Hr. naive_solver.
  - split; [| naive_solver]. destruct (balance_calls _ _ _); [| done]. destruct (balance_txs _ _ _ _); [| done]. by destruct (negb _).
Qed.

Lemma blinds_app (os os' : list (Z * bytes)) : blinds (os ++ os') = blinds os + blinds os'.
Proof. induction os as [| o os IH]; cbn [app blinds foldr]; [done |]. fold (blinds (os ++ os')) (blinds os). lia. Qed.

Lemma values_app (os os' : list (Z * bytes)) : values (os ++ os') = values os + values os'.
Proof. induction os as [| o os IH]; cbn [app values foldr]; [done |]. fold (values (os ++ os')) (values os). lia. Qed.

(** C13: a block creates no token after its coinbase: take any openings of the
    commitments that its burns, transfers, spends and fees move in the native
    token.  The block passes the proof of token balance exactly when it starts
    with its coinbase, its calls decode, and what comes in less what goes out as
    outputs, burns and fees, in values and in blinding factors, commits to the
    identity.  Then the values balance, or these two differences are themselves a
    relation between the bases of the scheme; and openings that balance in values
    and in blinding factors are enough. *)
Theorem mass_balance_conserves (b : Block) (oi oo ob of_ : list (Z * bytes)) :
  let f := all_flows (counted_calls b) in
  Forall2 opens (ins f) oi -> Forall2 opens (outs f) oo -> Forall2 opens (burns f) ob -> Forall2 opens (fees f) of_ ->
  let dv := values oi - (values oo + values ob + values of_) in
  let dr := blinds oi - (blinds oo + blinds ob + blinds of_) in
  (verify_proof_of_token_balance b = Ok tt <->
   verify_coinbase b = Ok tt /\ forallb readable (counted_calls b) = true /\ commitment_to dv dr = point_identity) /\
  (commitment_to dv dr = point_identity ->
   values oi = values oo + values ob + values of_ \/ bases_relation (List.length (ins f) + List.length (leaving f)) dv dr) /\
  (values oi = values oo + values ob + values of_ ->
   point_mul random_base (blinds oi) = point_mul random_base (blinds oo + blinds ob + blinds of_) ->
   commitment_to dv dr = point_identity).
Proof.
  intros f Hi Ho Hb Hf. assert (Forall2 opens (leaving f) (oo ++ ob ++ of_)) as Hl by (by repeat apply Forall2_app).
  replace (values oo + values ob + values of_) with (values (oo ++ ob ++ of_)) by (rewrite !values_app; lia).
  replace (blinds oo + blinds ob + blinds of_) with (blinds (oo ++ ob ++ of_)) by (rewrite !blinds_app; lia). cbv zeta. split_and!.
  - rewrite balance_accepts by (by eapply opens_all_wf). fold f. by rewrite (balanced_iff (ins f) (leaving f)) by done.
  - by apply balanced_values.
  - intros Hv Hbl. apply commitment_to_eq. unfold commitment_to. by rewrite Hv, Hbl.
Qed.
End balance.
