(* ===== verification/TokenExample.v ===== *)
(** * A concrete run of the native token contract

    A host with a toy Merkle tree, the first calls of a chain executed on it,
    and the theorems about runs, transfers and balances applied to them. *)

From Stdlib Require Import String.
From S2P Require Import Prelude Units Emission Serial Externals Transaction Block Store Consensus NativeToken L1Contracts.
From S2P Require Import TokenParams Supply Pedersen TokenUpdates TokenContract TokenState TokenRuns TokenFlows TokenBalance.

(** The tree is the digest of what was appended. *)
#[export] Instance toy_host : @ContractHost toy := {|
  MerkleTree := bytes;
  mt_new := zero32;
  mt_append := fun t x => toy_digest (t ++ x);
  mt_root := fun t => Some (toy_digest t);
  mt_encode := fun t => t;
  mt_decode := Some;
  mt_codec := fun t => eq_refl;
  mt_root_wf := fun t r H => match H in _ = o return match o with Some r => bytes_wf 32 r | None => True end with eq_refl => toy_digest_wf t end;
  zkas_db_set := fun _ _ st => Ok st;
  mint_bincode := [1];
  burn_bincode := [2];
  fee_bincode := [3];
  CARGO_PKG_VERSION := ascii_key "0.1.0"
|}.

Abbreviation toy_cid := (@NATIVE_TOKEN_CONTRACT_ID toy).

#[export] Instance toy_trees_separate : @SeparateTrees toy toy_cid.
Proof. constructor. apply (bool_decide_unpack _). vm_compute. exact I. Qed.

Section execute.
Context `{EXT : Externals} `{OPS : !CurveOps} `{MUL : !CurveMul} `{HOST : !ContractHost}.

(** The calls executed in order, with the updates they make. *)
Fixpoint execute (cid : bytes) (steps : list (CallEnv * bytes)) (st : Tree) : CRes (list (CallEnv * bytes * token_update) * Tree) :=
  match steps with
  | [] => Ok ([], st)
  | (env, ix) :: rest =>
      let? update_data := process_instruction cid env ix st in
      let? u := decode_update update_data in
      let? st1 := process_update cid env update_data st in
      let? (tr, st2) := execute cid rest st1 in
      Ok ((env, ix, u) :: tr, st2)
  end.

Definition step_wf (s : CallEnv * bytes) : bool :=
  forallb (fun b => (0 <=? b) && (b <? 256)) s.2 && (0 <=? verifying_block_height s.1) && (verifying_block_height s.1 <? 2 ^ 64).

Lemma step_wf_inv (s : CallEnv * bytes) : step_wf s = true -> Forall is_byte s.2 /\ is_u64 (verifying_block_height s.1).
Proof.
  unfold step_wf. intros [[Hb H0]%andb_true_iff H1]%andb_true_iff. apply Z.leb_le in H0. apply Z.ltb_lt in H1. split; [| done].
  rewrite forallb_forall in Hb. apply Forall_forall. intros b Hin%list_elem_of_In%Hb. unfold is_byte. lia.
Qed.

Lemma execute_run (cid : bytes) (steps : list (CallEnv * bytes)) (st : Tree) (tr : list (CallEnv * bytes * token_update)) (st' : Tree) :
  forallb step_wf steps = true -> execute cid steps st = Ok (tr, st') -> run cid st tr st'.
Proof.
  revert st tr st'. induction steps as [| [env ix] steps IH]; intros st tr st'; cbn [forallb execute]; intros Hwf He.
  - injection He as <- <-. constructor.
  - apply andb_true_iff in Hwf as [Hs Hwf]. apply step_wf_inv in Hs as [Hb Hh]. inv_result. econstructor; [done.. | by eexists |]. by apply IH.
Qed.
End execute.

(** ** The first calls of a chain *)

Definition env_at (h : Z) : CallEnv :=
  {| verifying_block_height := h; call_tx_hash := elem 9; call_index := 0; call_tx_commitment := elem 10 |}.

Definition call_bytes (sel : Z) (r : CRes bytes) : bytes := match r with Ok b => sel :: b | Err _ => [] end.

Definition value_of (v blind : Z) : bytes := @pedersen_commitment_u64 toy toy_curve toy_mul v (elem blind).

Definition native_input (v blind nf : Z) : Input.t := {|
  Input.value_commit := value_of v blind; Input.token_commit := @native_token_commit toy; Input.nullifier := elem nf;
  Input.merkle_root := EMPTY_COMMITMENT_SET_ROOT; Input.user_data_enc := elem 35; Input.spend_hook := elem 0;
  Input.signature_public := elem 37 |}.

Definition native_output (v blind commitment : Z) : Output.t := {|
  Output.value_commit := value_of v blind; Output.token_commit := @native_token_commit toy; Output.commitment := elem commitment;
  Output.nullifier := None; Output.note := sample_note |}.

Definition first_reward : Z := expected_reward 1.

Definition reward_attrs : CommitmentAttributes.t := {|
  CommitmentAttributes.version := 0; CommitmentAttributes.public_key := elem 41;
  CommitmentAttributes.value := first_reward; CommitmentAttributes.asset_id := elem 0;
  CommitmentAttributes.spend_hook := elem 0; CommitmentAttributes.user_data := elem 0;
  CommitmentAttributes.blind := elem 42 |}.

Definition reward_ix : bytes := call_bytes 0x05 (@PoWRewardParamsV1.enc toy {|
  PoWRewardParamsV1.input := {|
    ClearInput.value := first_reward; ClearInput.asset_id := elem 0; ClearInput.value_blind := elem 51;
    ClearInput.token_blind := elem 0; ClearInput.signature_public := elem 53 |};
  PoWRewardParamsV1.total_pin := 0; PoWRewardParamsV1.effective_value := first_reward;
  PoWRewardParamsV1.commitment_attrs := reward_attrs;
  PoWRewardParamsV1.output := {|
    Output.value_commit := value_of first_reward 51; Output.token_commit := @native_token_commit toy;
    Output.commitment := @CommitmentAttributes.to_commitment toy reward_attrs;
    Output.nullifier := None; Output.note := sample_note |};
  PoWRewardParamsV1.nullifier := elem 77; PoWRewardParamsV1.expected_cumulative_supply := first_reward;
  PoWRewardParamsV1.old_cumulative_commit := @point_identity toy; PoWRewardParamsV1.old_cumulative_blind := elem 0;
  PoWRewardParamsV1.new_cumulative_commit := value_of first_reward 51; PoWRewardParamsV1.tx_nonce := elem 64 |}).

(** A fee of 2000000 out of a note of 5000000. *)
Definition fee_ix : bytes := call_bytes 0x08 (@FeeParamsV3.enc toy {|
  FeeParamsV3.input := native_input 5000000 90 201; FeeParamsV3.output := native_output 3000000 60 301;
  FeeParamsV3.fee := 2000000; FeeParamsV3.tier := FeeTier.MEDIUM;
  FeeParamsV3.fee_value_commit := value_of 2000000 30; FeeParamsV3.tx_nonce := elem 72 |}).

(** Two notes into one. *)
Definition transfer_ix : bytes := call_bytes 0x03 (@TransferParamsV1.enc toy {|
  TransferParamsV1.inputs := [native_input 700 11 202; native_input 300 12 203];
  TransferParamsV1.outputs := [native_output 1000 23 302]; TransferParamsV1.tx_nonce := elem 83 |}).

Definition collect_ix : bytes := call_bytes 0x06 (@FeeCollectParamsV1.enc toy {|
  FeeCollectParamsV1.total_fees := 2000000; FeeCollectParamsV1.output := native_output 2000000 5 303;
  FeeCollectParamsV1.nullifier := elem 204; FeeCollectParamsV1.tx_nonce := elem 84 |}).

(** The contract as deployed, and after the first reward. *)
Definition deployed : CRes Tree := @init_contract toy toy_host toy_cid (env_at 0) ∅.

Definition first_steps : list (CallEnv * bytes) :=
  [(env_at 1, reward_ix); (env_at 2, fee_ix); (env_at 2, transfer_ix); (env_at 2, collect_ix)].

Example first_calls_accepted :
  is_ok (let? st := deployed in @execute toy toy_curve toy_mul toy_host toy_cid first_steps st) = true /\
  forallb step_wf first_steps = true.
Proof. vm_compute. split; reflexivity. Qed.

(** What an execution that succeeds shows, from any starting view. *)
Lemma executed_run (D : CRes Tree) (steps : list (CallEnv * bytes)) :
  is_ok (let? st := D in @execute toy toy_curve toy_mul toy_host toy_cid steps st) = true -> forallb step_wf steps = true ->
  exists st tr st', D = Ok st /\ @run toy toy_curve toy_mul toy_host toy_cid st tr st' /\
    @execute toy toy_curve toy_mul toy_host toy_cid steps st = Ok (tr, st').
Proof.
  intros Hok Hwf. destruct D as [st |]; [| discriminate Hok].
  destruct (execute toy_cid steps st) as [[tr st'] |] eqn:Ee; [| discriminate Hok].
  exists st, tr, st'. split; [reflexivity |]. split; [| exact Ee]. exact (execute_run toy_cid steps st tr st' Hwf Ee).
Qed.

Lemma first_run :
  exists st tr st', deployed = Ok st /\ @run toy toy_curve toy_mul toy_host toy_cid st tr st' /\
    @execute toy toy_curve toy_mul toy_host toy_cid first_steps st = Ok (tr, st').
Proof. exact (executed_run deployed first_steps (proj1 first_calls_accepted) (proj2 first_calls_accepted)). Qed.

Lemma calls_spend_once_witness :
  exists st tr st', deployed = Ok st /\
    @marked_once toy toy_cid NULLIFIERS_TREE update_nullifiers st tr st' /\
    @marked_once toy toy_cid COMMITMENT_SET_TREE update_commitments st tr st'.
Proof.
  destruct first_run as (st & tr & st' & Hd & Hr & _). exists st, tr, st'. split; [exact Hd |].
  apply (@calls_spend_once toy toy_curve toy_mul toy_host toy_laws toy_cid toy_trees_separate st tr st' Hr).
Defined.

(** A view that stores nothing of the supply, and calls that pay [total]. *)
Definition unminted_run (D : CRes Tree) (steps : list (CallEnv * bytes)) (total : Z) : bool :=
  match D with
  | Ok st =>
      forallb (fun k => bool_decide (@db_get toy toy_cid INFO_TREE k st = None)) [TOTAL_SUPPLY; CUMULATIVE_VALUE_COMMIT; CUMULATIVE_BLIND] &&
      match @execute toy toy_curve toy_mul toy_host toy_cid steps st with Ok (tr, _) => rewards tr =? total | Err _ => false end
  | Err _ => false
  end.

Lemma unminted_run_inv (D : CRes Tree) (steps : list (CallEnv * bytes)) (total : Z) :
  unminted_run D steps total = true -> forallb step_wf steps = true ->
  exists st tr st', D = Ok st /\ @unminted toy toy_cid st /\ @run toy toy_curve toy_mul toy_host toy_cid st tr st' /\ rewards tr = total.
Proof.
  unfold unminted_run. intros H Hwf. destruct D as [st |]; [| discriminate H]. apply andb_true_iff in H as [Hu H].
  destruct (execute toy_cid steps st) as [[tr st'] |] eqn:Ee; [| discriminate H]. exists st, tr, st'.
  split; [reflexivity |]. split; [| split; [exact (execute_run toy_cid steps st tr st' Hwf Ee) | by apply Z.eqb_eq]].
  cbn [forallb] in Hu. rewrite !andb_true_iff in Hu. destruct Hu as (H1 & H2 & H3 & _). bool_facts. intros k [-> | [-> | ->]]; assumption.
Qed.

Example first_rewards : unminted_run deployed first_steps first_reward = true.
Proof. vm_compute. reflexivity. Qed.

Lemma supply_is_audited_witness :
  exists st st' bl, deployed = Ok st /\ @read_supply toy toy_cid st' = Ok first_reward /\
    @read_cumulative toy toy_cid st' = Ok (@commitment_to toy toy_curve toy_mul first_reward (from_le_bytes bl)).
Proof.
  destruct (unminted_run_inv deployed first_steps first_reward first_rewards (proj2 first_calls_accepted)) as (st & tr & st' & Hd & Hu & Hr & <-).
  destruct (@supply_is_audited toy toy_curve toy_mul toy_host toy_laws toy_cid toy_trees_separate st tr st' Hu Hr) as (bl & Hs & Hb & Hc).
  exists st, st', bl. split; [exact Hd |]. split; [exact Hs | exact Hc].
Defined.

Definition block_two : list (CallEnv * bytes) := [(env_at 2, fee_ix); (env_at 2, transfer_ix); (env_at 2, collect_ix)].

(** After the steps [before] the pot of height 2 is open and empty, and the
    steps leave it alone and declare [total]. *)
Definition fee_run (D : CRes Tree) (before steps : list (CallEnv * bytes)) (total : Z) : bool :=
  match (let? st := D in @execute toy toy_curve toy_mul toy_host toy_cid before st) with
  | Err _ => false
  | Ok (_, st1) =>
      match @pot toy toy_cid 2 st1 with Ok p => p =? 0 | Err _ => false end &&
      match @execute toy toy_curve toy_mul toy_host toy_cid steps st1 with
      | Err _ => false
      | Ok (tr, _) => forallb (fun x => negb (opens_pot 2 x)) tr && (sum_of (@paid_at toy 2) tr =? total)
      end
  end.

Lemma fee_run_inv (D : CRes Tree) (before steps : list (CallEnv * bytes)) (total : Z) :
  fee_run D before steps total = true -> forallb step_wf steps = true ->
  exists st1 tr st', @pot toy toy_cid 2 st1 = Ok 0 /\ @run toy toy_curve toy_mul toy_host toy_cid st1 tr st' /\
    Forall (fun x => opens_pot 2 x = false) tr /\ sum_of (@paid_at toy 2) tr = total.
Proof.
  unfold fee_run. intros Hok Hwf. destruct D as [st0 |]; [| discriminate Hok].
  destruct (execute toy_cid before st0) as [[tr0 st1] |]; [| discriminate Hok].
  apply andb_true_iff in Hok as [Hp Hok]. destruct (pot toy_cid 2 st1) as [p |] eqn:Hpot; [| discriminate Hp].
  apply Z.eqb_eq in Hp. subst p. destruct (execute toy_cid steps st1) as [[tr st'] |] eqn:Ee; [| discriminate Hok].
  apply andb_true_iff in Hok as [Hopen Hsum%Z.eqb_eq]. exists st1, tr, st'. split; [exact Hpot |].
  split; [exact (execute_run toy_cid steps st1 tr st' Hwf Ee) |]. split; [| exact Hsum].
  rewrite forallb_forall in Hopen. apply Forall_forall. intros x Hx%list_elem_of_In%Hopen. by apply negb_true_iff.
Qed.

Example fee_run_accepted : fee_run deployed [(env_at 1, reward_ix)] block_two 2000000 = true /\ forallb step_wf block_two = true.
Proof. vm_compute. split; reflexivity. Qed.

Lemma fees_conserved_witness :
  exists st1 tr st' q, @run toy toy_curve toy_mul toy_host toy_cid st1 tr st' /\
    @pot toy toy_cid 2 st' = Ok q /\ q + sum_of (@claimed_at toy 2) tr = 2000000.
Proof.
  assert (is_u64 2 /\ is_u64 0) as [U2 U0] by (split; split; reflexivity || discriminate).
  destruct fee_run_accepted as [Hok Hwf]. destruct (fee_run_inv _ _ _ _ Hok Hwf) as (st1 & tr & st' & Hpot & Hr & Hclosed & Hsum).
  assert (0 + sum_of (@paid_at toy 2) tr < 2 ^ 64) as Hsmall by (rewrite Hsum; reflexivity).
  destruct (@fees_conserved toy toy_curve toy_mul toy_host toy_laws toy_cid toy_trees_separate st1 tr st' 2 0
    U2 U0 Hpot Hr Hclosed Hsmall) as (q & Hq & E).
  exists st1, tr, st', q. rewrite Hsum in E. split; [exact Hr |]. split; [exact Hq | exact E].
Defined.

(** ** Openings *)

Definition opening (v blind : Z) : Z * bytes := (v, elem blind).

Lemma opens_value_of (v blind : Z) :
  is_u64 v -> 0 <= blind < 2 ^ 64 -> @opens toy toy_curve toy_mul (value_of v blind) (opening v blind).
Proof.
  intros Hv Hb. split; [exact Hv |]. split; [| reflexivity]. split; [apply elem_bytes |]. cbn [scalar_canonical toy opening snd].
  unfold elem. rewrite le_bytes_roundtrip by (split; [lia |]; eapply Z.lt_trans; [apply Hb | done]).
  apply Z.ltb_lt. eapply Z.lt_trans; [apply Hb | done].
Qed.

Ltac openings := repeat apply List.Forall2_cons; try apply List.Forall2_nil; apply opens_value_of; unfold is_u; lia.

Definition one_transfer : list (CallEnv * bytes) := [(env_at 2, transfer_ix)].

(** A single call that makes a transfer. *)
Definition transfers (D : CRes Tree) (env : CallEnv) (ix : bytes) : bool :=
  match (let? st := D in @execute toy toy_curve toy_mul toy_host toy_cid [(env, ix)] st) with
  | Ok ([(_, _, UTransfer _)], _) => true
  | _ => false
  end.

Lemma transfers_inv (D : CRes Tree) (env : CallEnv) (ix : bytes) :
  transfers D env ix = true -> exists st st' u, @calls toy toy_curve toy_mul toy_host toy_cid env ix (UTransfer u) st st'.
Proof.
  unfold transfers, execute. intros Hok. destruct D as [st |]; [| discriminate Hok].
  destruct (process_instruction toy_cid env ix st) as [d |] eqn:Ep; [| discriminate Hok].
  destruct (decode_update d) as [u |] eqn:Eu; [| discriminate Hok].
  destruct (process_update toy_cid env d st) as [st' |] eqn:Es; [| discriminate Hok].
  destruct u as [| u | | | | |]; try discriminate Hok. exists st, st', u, d. split; [exact Ep |]. split; [exact Eu | exact Es].
Qed.

Example transfer_accepted : transfers deployed (env_at 2) transfer_ix = true /\ forallb step_wf one_transfer = true.
Proof. vm_compute. split; reflexivity. Qed.

(** The transfer of the example, read back from the call. *)
Definition transfer_ins (tp : TransferParamsV1.t) : list bytes := of_token (@native_token_commit toy) (map input_entry (TransferParamsV1.inputs tp)).
Definition transfer_outs (tp : TransferParamsV1.t) : list bytes := of_token (@native_token_commit toy) (map output_entry (TransferParamsV1.outputs tp)).

Lemma transfer_flows (tp : TransferParamsV1.t) :
  @TransferParamsV1.dec toy (drop 1 transfer_ix) = Ok tp ->
  transfer_ins tp = [value_of 700 11; value_of 300 12] /\ transfer_outs tp = [value_of 1000 23].
Proof.
  assert (match @TransferParamsV1.dec toy (drop 1 transfer_ix) with
    | Ok tp => bool_decide (transfer_ins tp = [value_of 700 11; value_of 300 12]) && bool_decide (transfer_outs tp = [value_of 1000 23])
    | Err _ => false end = true) as H by (vm_compute; reflexivity).
  intros E. rewrite E in H. apply andb_true_iff in H as [H1 H2]. split; eapply bool_decide_eq_true_1; eassumption.
Qed.

Lemma transfer_conserves_witness :
  exists st st' u, @calls toy toy_curve toy_mul toy_host toy_cid (env_at 2) transfer_ix (UTransfer u) st st' /\
    (values [opening 700 11; opening 300 12] = values [opening 1000 23] \/
     @bases_relation toy toy_curve toy_mul 3 (700 + 300 - 1000) (blinds [opening 700 11; opening 300 12] - blinds [opening 1000 23])).
Proof.
  destruct transfer_accepted as [Hok Hwf]. cbn [forallb one_transfer] in Hwf.
  apply andb_true_iff in Hwf as [[Hb Hh]%step_wf_inv _]. cbn [fst snd] in Hb, Hh.
  destruct (transfers_inv _ _ _ Hok) as (st & st' & u & Hc). exists st, st', u.
  split; [exact Hc |].
  destruct (@transfer_conserves toy toy_curve toy_mul toy_host toy_laws toy_cid (env_at 2) transfer_ix u st st' Hb Hh Hc) as (tp & Hd & H).
  specialize (H (@native_token_commit toy) [opening 700 11; opening 300 12] [opening 1000 23]). cbv zeta in H.
  destruct (transfer_flows tp Hd) as [Ei Eo]. unfold transfer_ins, transfer_outs in Ei, Eo. rewrite Ei, Eo in H.
  apply H; openings.
Defined.

(** A block: its coinbase, then a transfer and a fee. *)
Definition token_call (ix : bytes) : ContractCall := {| contract_id := toy_cid; data := ix |}.
Definition tx_of (cs : list ContractCall) : Transaction := {|
  tx_version := 1; Transaction.inputs := []; Transaction.outputs := []; contract_calls := cs; lock_time := 0;
  Transaction.nullifiers := []; witness := [] |}.
Definition block_of (txs : list Transaction) : @Block toy := {| header := sample_header 2 0 0; transactions := txs |}.
Definition balanced_block : @Block toy := block_of [tx_of [token_call reward_ix]; tx_of [token_call transfer_ix; token_call fee_ix]].

Example balanced_flows :
  @all_flows toy (counted_calls balanced_block) =
  {| ins := [value_of 700 11; value_of 300 12; value_of 5000000 90]; outs := [value_of 1000 23; value_of 3000000 60];
     burns := []; fees := [value_of 2000000 30] |}.
Proof. vm_compute. reflexivity. Qed.

Lemma mass_balance_conserves_witness :
  verify_proof_of_token_balance balanced_block = Ok tt /\
  @commitment_to toy toy_curve toy_mul (700 + 300 + 5000000 - (1000 + 3000000 + 0 + 2000000)) (11 + 12 + 90 - (23 + 60 + 0 + 30)) = @point_identity toy.
Proof.
  destruct (@mass_balance_conserves toy toy_curve toy_mul toy_laws balanced_block
    [opening 700 11; opening 300 12; opening 5000000 90] [opening 1000 23; opening 3000000 60] [] [opening 2000000 30]) as (Hv & _ & Hc);
    rewrite ?balanced_flows; cbn [ins outs burns fees]; try openings.
  specialize (Hc ltac:(vm_compute; reflexivity) ltac:(vm_compute; reflexivity)). split; [| exact Hc].
  apply Hv. split; [vm_compute; reflexivity |]. split; [vm_compute; reflexivity | exact Hc].
Defined.
