(* ===== verification/Nullifiers.v ===== *)
(** * Which nullifiers a transaction spends ([src/linear/src/nullifiers.rs])

    [derive_l1_nullifiers] decodes the calls of the four L1 contracts and
    collects the nullifiers they spend; [reconcile_declared] compares them with
    what the transaction declares.  Both the block connector and the mempool run
    them. *)

From Stdlib Require Import String.
From S2P Require Import Prelude Units Serial Externals Transaction Merkle Block NativeToken L1Contracts.

Section nullifiers.
Context `{Externals}.

(** [map_err(|e| BlockIsInvalid(..))]. *)
Definition lift {A : Type} (what : string) (r : CRes A) : Res A :=
  match r with Ok a => Ok a | Err _ => Err (BlockIsInvalid what) end.

(** What one call adds to the set; [None] is a call of another contract. *)
Definition call_spends (call : ContractCall) : Res (option (list (list Z))) :=
  match data call with
  | [] => Err (BlockIsInvalid "call data is empty: no function selector")
  | selector :: payload =>
      if bool_decide (contract_id call = NATIVE_TOKEN_CONTRACT_ID) then
        let? func := lift "native_token selector invalid" (native_token_function selector) in
        match func with
        | BurnV1 =>
            let? p := lift "native_token burn params" (BurnParamsV1.dec payload) in
            Ok (Some (map Input.nullifier (BurnParamsV1.inputs p)))
        | TransferV1 =>
            let? p := lift "native_token transfer params" (TransferParamsV1.dec payload) in
            Ok (Some (map Input.nullifier (TransferParamsV1.inputs p)))
        | SpendV1 =>
            let? p := lift "native_token spend params" (SpendParamsV1.dec payload) in
            Ok (Some [Input.nullifier (SpendParamsV1.input p)])
        | FeeV3 =>
            let? p := lift "native_token fee params" (FeeParamsV3.dec payload) in
            Ok (Some [Input.nullifier (FeeParamsV3.input p)])
        | MintV1 | PoWRewardV1 | FeeCollectV1 | UncleMintV1 => Ok (Some [])
        end
      else if bool_decide (contract_id call = PROMISSORY_NOTE_CONTRACT_ID) then
        let? func := lift "promissory_note selector invalid" (promissory_note_function selector) in
        match func with
        | PnRedeemV1 =>
            let? p := lift "promissory_note redeem params" (PnRedeemParamsV1.dec payload) in
            Ok (Some [PnInput.nullifier (PnRedeemParamsV1.input p)])
        | PnRevokeV1 =>
            let? p := lift "promissory_note revoke params" (PnRevokeParamsV1.dec payload) in
            Ok (Some (map PnInput.nullifier (PnRevokeParamsV1.inputs p)))
        | PnTransferV1 =>
            let? p := lift "promissory_note transfer params" (PnTransferParamsV1.dec payload) in
            Ok (Some (map PnInput.nullifier (PnTransferParamsV1.inputs p)))
        | PnOtcSwapV1 =>
            let? p := lift "promissory_note otc_swap params" (PnTransferParamsV1.dec_otc_swap payload) in
            Ok (Some (map PnInput.nullifier (PnTransferParamsV1.inputs p)))
        | PnRegisterTypeV1 | PnIssueV1 => Ok (Some [])
        end
      else if bool_decide (contract_id call = PURSE_CONTRACT_ID) then
        let? func := lift "purse selector invalid" (purse_function selector) in
        match func with
        | PurseDeposit =>
            let? p := lift "purse deposit params" (DepositParams.dec payload) in
            Ok (Some [DepositParams.nullifier p])
        | PurseWithdraw =>
            let? p := lift "purse withdraw params" (DepositParams.dec_withdraw payload) in
            Ok (Some [DepositParams.nullifier p])
        | PurseBalance | PurseInitialize => Ok (Some [])
        end
      else if bool_decide (contract_id call = BOX_CONTRACT_ID) then
        let? func := lift "box selector invalid" (box_function selector) in
        match func with
        | BoxPut =>
            let? p := lift "box put params" (PutParams.dec payload) in
            Ok (Some [PutParams.nullifier p])
        | BoxTake =>
            let? p := lift "box take params" (TakeParams.dec payload) in
            Ok (Some [TakeParams.nullifier p])
        | BoxInitialize => Ok (Some [])
        end
      else Ok None
  end.

(** The loop over the calls. *)
Fixpoint derive_loop (calls : list ContractCall) (out : gset (list Z)) (all_l1 : bool) :
    Res (gset (list Z) * bool) :=
  match calls with
  | [] => Ok (out, all_l1)
  | call :: rest =>
      let? spends := call_spends call in
      match spends with
      | Some nfs => derive_loop rest (out ∪ list_to_set nfs) all_l1
      | None => derive_loop rest out false
      end
  end.

Definition derive_l1_nullifiers (calls : list ContractCall) : Res (gset (list Z) * bool) :=
  derive_loop calls ∅ true.

Definition reconcile_declared (derived : gset (list Z)) (declared : list (list Z)) (all_l1 : bool) :
    result string unit :=
  let declared_set : gset (list Z) := list_to_set declared in
  if all_l1 then
    if bool_decide (declared_set = derived) then Ok tt
    else Err "declared nullifier set does not equal the set the L1 calls spend"%string
  else
    if bool_decide (derived ⊆ declared_set) then Ok tt
    else Err "declared nullifier set omits L1 spend(s)"%string.

(** ** What is derived *)

Definition is_l1 (call : ContractCall) : Prop :=
  contract_id call = NATIVE_TOKEN_CONTRACT_ID \/ contract_id call = PROMISSORY_NOTE_CONTRACT_ID \/
  contract_id call = PURSE_CONTRACT_ID \/ contract_id call = BOX_CONTRACT_ID.

Definition spent (calls : list ContractCall) (n : list Z) : Prop :=
  exists call nfs, call ∈ calls /\ call_spends call = Ok (Some nfs) /\ n ∈ nfs.

Lemma call_spends_l1 (call : ContractCall) (s : option (list (list Z))) :
  call_spends call = Ok s -> (is_Some s <-> is_l1 call).
Proof.
  unfold call_spends, is_l1. intros Hs. destruct (data call) as [|sel payload]; [done |].
  repeat case_bool_decide; repeat match type of Hs with
  | (match ?x with _ => _ end) = _ => destruct x eqn:?; try discriminate Hs
  end; inversion Hs; subst; split; intros Hx; try done; try naive_solver;
  try (by destruct Hx).
Qed.

Lemma derive_loop_spec (calls : list ContractCall) (out : gset (list Z)) (b : bool) :
  match derive_loop calls out b with
  | Ok (derived, all_l1) =>
      (forall c, c ∈ calls -> is_ok (call_spends c) = true) /\
      (forall n, n ∈ derived <-> n ∈ out \/ spent calls n) /\
      (all_l1 = true <-> b = true /\ forall c, c ∈ calls -> is_l1 c)
  | Err _ => exists c, c ∈ calls /\ is_ok (call_spends c) = false
  end.
Proof.
  revert out b. induction calls as [|c calls IH]; intros out b; cbn [derive_loop].
  { split_and!; [by intros c Hc; apply not_elem_of_nil in Hc | |].
    - intros n. split; [by left |]. intros [Hn | (c & nfs & Hc & _)]; [done | by apply not_elem_of_nil in Hc].
    - split; [| by intros [? _]]. intros ->. split; [done |]. by intros c Hc; apply not_elem_of_nil in Hc. }
  assert (forall n nfs, call_spends c = Ok (Some nfs) ->
    spent (c :: calls) n <-> n ∈ nfs \/ spent calls n) as Hsome.
  { intros n nfs Hc. split.
    - intros (c' & nfs' & Hin & Hs & Hn). apply elem_of_cons in Hin as [-> | Hin]; [left; congruence |].
      right. by exists c', nfs'.
    - intros [Hn | (c' & nfs' & Hin & Hs & Hn)];
        [exists c, nfs; split; [apply list_elem_of_here | done]
        | exists c', nfs'; split; [by apply list_elem_of_further | done]]. }
  destruct (call_spends c) as [[nfs|]|e] eqn:Ec.
  - specialize (IH (out ∪ list_to_set nfs) b). destruct (derive_loop calls _ b) as [[d a]|e].
    + destruct IH as (H1 & H2 & H3). split_and!.
      * intros c' [-> | Hc']%elem_of_cons; [by rewrite Ec | by apply H1].
      * intros n. rewrite H2, elem_of_union, elem_of_list_to_set, (Hsome n nfs) by done. naive_solver.
      * rewrite H3. apply and_iff_compat_l. pose proof (proj1 (call_spends_l1 c _ Ec) ltac:(eauto)) as Hl1.
        split; [intros Hall c' [-> | Hc']%elem_of_cons; auto |].
        intros Hall c' Hc'. apply Hall. by apply list_elem_of_further.
    + destruct IH as (c' & Hc' & Hf). exists c'. split; [by apply list_elem_of_further | done].
  - specialize (IH out false). destruct (derive_loop calls out false) as [[d a]|e].
    + destruct IH as (H1 & H2 & H3). split_and!.
      * intros c' [-> | Hc']%elem_of_cons; [by rewrite Ec | by apply H1].
      * intros n. rewrite H2. apply or_iff_compat_l. split.
        -- intros (c' & nfs' & Hin & Hs). exists c', nfs'. split; [by apply list_elem_of_further | done].
        -- intros (c' & nfs' & Hin & Hs & Hn). apply elem_of_cons in Hin as [-> | Hin]; [congruence |].
           by exists c', nfs'.
      * rewrite H3. split; [by intros [? _] |]. intros [_ Hall].
        pose proof (proj2 (call_spends_l1 c None Ec) (Hall c (list_elem_of_here _ _))) as [x Hx]. done.
    + destruct IH as (c' & Hc' & Hf). exists c'. split; [by apply list_elem_of_further | done].
  - exists c. split; [apply list_elem_of_here | by rewrite Ec].
Qed.

(** ** Derived nullifiers are canonical and never zero *)

Definition valid_nullifier (n : list Z) : Prop := fp_canonical n = true /\ n <> zero32.

Lemma read_nullifier_valid (d : list Z) (o : Z) (n : list Z) :
  read_nullifier d o = Ok n -> valid_nullifier n.
Proof.
  unfold read_nullifier, nullifier_from_bytes. intros Hn. inv_result. split; [done |].
  by apply bool_decide_eq_false in E1.
Qed.

Lemma read_fixed_forall {A : Type} (dec : list Z -> CRes A) (P : A -> Prop) (size : Z) (n : nat)
    (d : list Z) (pos : Z) (l : list A) (p : Z) :
  (forall raw a, dec raw = Ok a -> P a) -> read_fixed dec size n d pos = Ok (l, p) -> Forall P l.
Proof.
  intros HP. revert pos l p. induction n as [|n IH]; intros pos l p Hr; cbn [read_fixed] in Hr.
  - inversion Hr. constructor.
  - unfold at_least in Hr. inv_result. constructor; [by eapply HP | by eapply IH].
Qed.

Ltac params_valid := intros Hd; unfold at_least in Hd; inv_result; cbn; eauto using read_nullifier_valid.

Lemma input_valid (d : list Z) (i : Input.t) : Input.dec d = Ok i -> valid_nullifier (Input.nullifier i).
Proof. unfold Input.dec. params_valid. Qed.

Lemma pn_input_valid (d : list Z) (i : PnInput.t) :
  PnInput.dec d = Ok i -> valid_nullifier (PnInput.nullifier i).
Proof. unfold PnInput.dec. params_valid. Qed.

Lemma deposit_valid (d : list Z) (p : DepositParams.t) :
  DepositParams.dec d = Ok p -> valid_nullifier (DepositParams.nullifier p).
Proof. unfold DepositParams.dec. params_valid. Qed.

Lemma put_valid (d : list Z) (p : PutParams.t) :
  PutParams.dec d = Ok p -> valid_nullifier (PutParams.nullifier p).
Proof. unfold PutParams.dec. params_valid. Qed.

Lemma take_valid (d : list Z) (p : TakeParams.t) :
  TakeParams.dec d = Ok p -> valid_nullifier (TakeParams.nullifier p).
Proof. unfold TakeParams.dec. params_valid. Qed.

Lemma burn_valid (d : list Z) (p : BurnParamsV1.t) :
  BurnParamsV1.dec d = Ok p -> Forall (fun i => valid_nullifier (Input.nullifier i)) (BurnParamsV1.inputs p).
Proof. unfold BurnParamsV1.dec. params_valid. eapply read_fixed_forall; [apply input_valid | done]. Qed.

Lemma transfer_valid (d : list Z) (p : TransferParamsV1.t) :
  TransferParamsV1.dec d = Ok p ->
  Forall (fun i => valid_nullifier (Input.nullifier i)) (TransferParamsV1.inputs p).
Proof. unfold TransferParamsV1.dec. params_valid. eapply read_fixed_forall; [apply input_valid | done]. Qed.

Lemma pn_revoke_valid (d : list Z) (p : PnRevokeParamsV1.t) :
  PnRevokeParamsV1.dec d = Ok p ->
  Forall (fun i => valid_nullifier (PnInput.nullifier i)) (PnRevokeParamsV1.inputs p).
Proof. unfold PnRevokeParamsV1.dec. params_valid. eapply read_fixed_forall; [apply pn_input_valid | done]. Qed.

Lemma pn_transfer_valid (d : list Z) (p : PnTransferParamsV1.t) :
  PnTransferParamsV1.dec d = Ok p \/ PnTransferParamsV1.dec_otc_swap d = Ok p ->
  Forall (fun i => valid_nullifier (PnInput.nullifier i)) (PnTransferParamsV1.inputs p).
Proof.
  unfold PnTransferParamsV1.dec, PnTransferParamsV1.dec_otc_swap.
  intros [Hd | Hd]; revert Hd; params_valid; (eapply read_fixed_forall; [apply pn_input_valid | done]).
Qed.

Lemma spend_valid (d : list Z) (p : SpendParamsV1.t) :
  SpendParamsV1.dec d = Ok p -> valid_nullifier (Input.nullifier (SpendParamsV1.input p)).
Proof. unfold SpendParamsV1.dec. params_valid. by eapply input_valid. Qed.

Lemma fee_valid (d : list Z) (p : FeeParamsV3.t) :
  FeeParamsV3.dec d = Ok p -> valid_nullifier (Input.nullifier (FeeParamsV3.input p)).
Proof.
  unfold FeeParamsV3.dec. params_valid.
  match goal with Hd : match FeeTier.new ?b with _ => _ end = _ |- _ => destruct (FeeTier.new b) end;
    [| done]. inv_result. cbn. by eapply input_valid.
Qed.

Lemma pn_redeem_valid (d : list Z) (p : PnRedeemParamsV1.t) :
  PnRedeemParamsV1.dec d = Ok p -> valid_nullifier (PnInput.nullifier (PnRedeemParamsV1.input p)).
Proof. unfold PnRedeemParamsV1.dec. params_valid. by eapply pn_input_valid. Qed.

Lemma lift_ok {A : Type} (what : string) (r : CRes A) (a : A) : lift what r = Ok a -> r = Ok a.
Proof. unfold lift. by destruct r; intros [= ->]. Qed.

Lemma map_elem_valid {A : Type} (f : A -> list Z) (l : list A) (n : list Z) :
  Forall (fun i => valid_nullifier (f i)) l -> n ∈ map f l -> valid_nullifier n.
Proof.
  intros Hl Hn. apply list_elem_of_fmap in Hn as (i & -> & Hi). by eapply Forall_forall in Hl.
Qed.

Lemma spent_valid (calls : list ContractCall) (n : list Z) : spent calls n -> valid_nullifier n.
Proof.
  intros (c & nfs & _ & Hs & Hn). unfold call_spends in Hs.
  destruct (data c) as [|sel payload]; [done |].
  repeat match type of Hs with
  | (match lift ?w ?r with _ => _ end) = _ =>
      let E := fresh "E" in destruct (lift w r) eqn:E; [| discriminate Hs]; apply lift_ok in E
  | (match ?x with _ => _ end) = _ => destruct x; try discriminate Hs
  end; injection Hs as <-; try (by apply not_elem_of_nil in Hn);
  try (apply list_elem_of_singleton in Hn as ->);
  eauto using spend_valid, fee_valid, pn_redeem_valid, deposit_valid, put_valid, take_valid,
    map_elem_valid, burn_valid, transfer_valid, pn_revoke_valid, pn_transfer_valid.
Qed.

(** ** Properties *)

(** C31: what the reconciliation admits.  A declared nullifier list passes
    exactly when every call decodes, every nullifier an L1 call spends is
    declared, and, when all calls are L1 calls, nothing else is; the
    nullifiers derived are canonical and never zero, so none of them escapes
    the double-spend filters that skip zero. *)
Theorem declaration_covers_spends (calls : list ContractCall) (declared : list (list Z)) :
  (match derive_l1_nullifiers calls with
   | Ok (derived, all_l1) => reconcile_declared derived declared all_l1 = Ok tt
   | Err _ => False
   end <->
   (forall c, c ∈ calls -> is_ok (call_spends c) = true) /\
   (forall n, spent calls n -> n ∈ declared) /\
   ((forall c, c ∈ calls -> is_l1 c) -> forall n, n ∈ declared -> spent calls n)) /\
  (forall n, spent calls n -> fp_canonical n = true /\ n <> zero32).
Proof.
  split; [| apply spent_valid].
  pose proof (derive_loop_spec calls ∅ true) as Hd. unfold derive_l1_nullifiers.
  destruct (derive_loop calls ∅ true) as [[d a]|e].
  - destruct Hd as (H1 & H2 & H3).
    assert (forall n, n ∈ d <-> spent calls n) as Hd.
    { intros n. rewrite H2. pose proof (not_elem_of_empty (C := gset (list Z)) n). naive_solver. }
    unfold reconcile_declared. destruct a.
    + destruct H3 as [H3 _]. destruct (H3 eq_refl) as [_ Hall]. case_bool_decide as Heq.
      * split; [intros _ | done]. split_and!; [done | |].
        -- intros n Hn. apply Hd in Hn. rewrite <- Heq in Hn. by apply elem_of_list_to_set in Hn.
        -- intros _ n Hn. apply Hd. rewrite <- Heq. by apply elem_of_list_to_set.
      * split; [done |]. intros (_ & Hsub & Hsup). destruct Heq. apply set_eq. intros n.
        rewrite elem_of_list_to_set, Hd. split; [by apply Hsup | apply Hsub].
    + assert (~ forall c, c ∈ calls -> is_l1 c) as Hnot by (intros Hall; by destruct H3 as [_ H3]; discriminate H3).
      case_bool_decide as Hsub.
      * split; [intros _ | done]. split_and!; [done | | done].
        intros n Hn. apply Hd, Hsub in Hn. by apply elem_of_list_to_set in Hn.
      * split; [done |]. intros (_ & Hs & _). destruct Hsub. intros n Hn.
        apply elem_of_list_to_set, Hs, Hd, Hn.
  - split; [done |]. intros (Hall & _). destruct Hd as (c & Hc & Hf). by rewrite Hall in Hf.
Qed.
End nullifiers.
