(* ===== verification/TokenGaps.v ===== *)
(** * What the native token contract leaves unchecked

    The contract checks a call against the databases as they were before it, and
    leaves to proofs what the proofs cover.  Two of its checks do not cover what
    they are written for: the inputs of one transfer are not compared with each
    other, and the amounts of a fee and of its collection are not tied to the
    commitments that carry the value. *)

From Stdlib Require Import String.
From S2P Require Import Prelude Units Emission Serial Externals Transaction Block Store Consensus NativeToken L1Contracts.
From S2P Require Import TokenParams Supply Pedersen TokenUpdates TokenContract TokenState TokenRuns TokenFlows TokenBalance TokenExample Nullifiers.

Section gaps.
Context `{EXT : Externals} `{OPS : !CurveOps} `{MUL : !CurveMul} `{HOST : !ContractHost} `{LAWS : !CurveLaws}.
Implicit Types (cid params : bytes) (env : CallEnv) (st : Tree).

(** One input listed twice, one output with twice its value. *)
Record doubled (tp : TransferParamsV1.t) (i : Input.t) (o : Output.t) (v r : Z) : Prop := {
  d_ins : TransferParamsV1.inputs tp = [i; i];
  d_outs : TransferParamsV1.outputs tp = [o];
  d_token : Input.token_commit i = Output.token_commit o;
  d_value : Input.value_commit i = commitment_to v r;
  d_double : Output.value_commit o = commitment_to (v + v) (r + r)
}.

Lemma doubled_conserves (tp : TransferParamsV1.t) (i : Input.t) (o : Output.t) (v r : Z) :
  doubled tp i o v r -> conserves (TransferParamsV1.inputs tp) (TransferParamsV1.outputs tp) = true.
Proof.
  intros [-> -> Ht Hv Hd]. unfold conserves, token_sums. cbn [map foldl input_entry output_entry fst snd add_to_sums].
  rewrite bool_decide_true by done. cbn [forallb find_sum fst snd].
  rewrite Ht, Hv, Hd, commitment_to_add. by rewrite !(bool_decide_true (Output.token_commit o = Output.token_commit o)), !bool_decide_true.
Qed.

Lemma doubled_accepted cid params st (tp : TransferParamsV1.t) (i : Input.t) (o : Output.t) (v r : Z) :
  TransferParamsV1.dec params = Ok tp -> Forall is_byte params -> doubled tp i o v r ->
  db_contains_key cid COMMITMENT_ROOTS_TREE (Input.merkle_root i) st = true ->
  unspent cid st (Input.nullifier i) -> unknown cid st (Output.commitment o) ->
  exists b, transfer_v1 cid params st = Ok (0x03 :: b) /\
    TransferUpdateV1.dec b = Ok {| TransferUpdateV1.nullifiers := [Input.nullifier i; Input.nullifier i];
                                   TransferUpdateV1.commitments := [Output.commitment o] |}.
Proof.
  intros Hd Hb Hdb Hroot Hn Hc. pose proof (transfer_decoded _ _ Hb Hd) as (Hi & Ho & _ & _ & _).
  pose proof (doubled_conserves _ _ _ _ _ Hdb) as Hcons. destruct Hdb as [Ei Eo _ _ _]. rewrite Ei, Eo in *.
  apply Forall_cons in Hi as [Hi _]. apply Forall_cons in Ho as [Ho _]. unfold unspent, unknown in *.
  edestruct (transfer_update_roundtrip {| TransferUpdateV1.nullifiers := [Input.nullifier i; Input.nullifier i];
    TransferUpdateV1.commitments := [Output.commitment o] |}) as (b & Eb & Ed); [| | done | done |].
  { repeat constructor; apply Hi. }
  { repeat constructor; apply Ho. }
  exists b. split; [| done]. unfold transfer_v1. rewrite Hd, Ei, Eo. unfold require, ensure. cbn [is_nil negb check_inputs check_outputs].
  unfold require, ensure. rewrite Hroot, Hn, Hc, Hcons. cbn [negb]. by rewrite Eb.
Qed.

Lemma twice_in_tables env (nonce : bytes) (i : Input.t) (tables : list (string * list bytes)) :
  transfer_in_tables env nonce [i; i] = Ok (Some tables) -> exists e, tables = [e; e].
Proof.
  cbn [transfer_in_tables]. destruct (key_coordinates _) as [sig |]; [| done]. destruct (coordinates _) as [v |]; cbn [or_empty]; [| done].
  destruct (burn_entry env nonce i v sig) as [e |]; [| done]. cbn. intros [= <-]. by exists e.
Qed.

Lemma once_out_tables env (nonce : bytes) (o : Output.t) (tables : list (string * list bytes)) :
  transfer_out_tables env nonce [o] = Ok (Some tables) -> exists e, tables = [e].
Proof.
  cbn [transfer_out_tables]. destruct (coordinates _) as [v |]; cbn [or_empty]; [| done].
  destruct (Output.nullifier o) as [nf |]; cbn [or_empty]; [| done].
  destruct (mint_entry env nonce o nf v) as [e |]; [| done]. cbn. intros [= <-]. by exists e.
Qed.

Lemma doubled_metadata env params (tp : TransferParamsV1.t) (i : Input.t) (o : Output.t) (v r : Z) (tables : list (string * list bytes)) :
  TransferParamsV1.dec params = Ok tp -> doubled tp i o v r ->
  get_metadata env (0x03 :: params) = Ok (Some tables) -> exists e e', tables = [e; e; e'].
Proof.
  intros Hd [Ei Eo _ _ _]. change (get_metadata env (0x03 :: params)) with (transfer_get_metadata env params).
  unfold transfer_get_metadata, decoded_or_empty. rewrite Hd, Ei, Eo. destruct (is_nil params); [done |].
  destruct (transfer_in_tables _ _ _) as [[bs |] |] eqn:E; cbn [or_empty]; [| done | done].
  apply twice_in_tables in E as [e ->]. destruct (transfer_out_tables _ _ _) as [[ms |] |] eqn:E'; [| done | done].
  apply once_out_tables in E' as [e' ->]. cbn. intros [= <-]. by exists e, e'.
Qed.

(** C21: one note can be spent twice inside a transfer.  Take a transfer that
    lists an input twice and has an output of twice its value: the contract
    accepts it wherever the input is unspent and the output new, the nullifier
    set derived from it has the nullifier once, so a declaration of it alone
    reconciles, the proofs asked for are the input's burn proof twice and the
    output's mint proof, and the balance of points the node checks holds. *)
Theorem duplicate_input_inflates cid env params st (tp : TransferParamsV1.t) (i : Input.t) (o : Output.t) (v r : Z) :
  Forall is_byte params -> TransferParamsV1.dec params = Ok tp -> doubled tp i o v r ->
  db_contains_key cid COMMITMENT_ROOTS_TREE (Input.merkle_root i) st = true ->
  unspent cid st (Input.nullifier i) -> unknown cid st (Output.commitment o) ->
  let call := {| contract_id := NATIVE_TOKEN_CONTRACT_ID; data := 0x03 :: params |} in
  (exists data u, process_instruction cid env (0x03 :: params) st = Ok data /\ decode_update data = Ok (UTransfer u) /\
     TransferUpdateV1.commitments u = [Output.commitment o]) /\
  (exists derived, derive_l1_nullifiers [call] = Ok (derived, true) /\
     reconcile_declared derived [Input.nullifier i] true = Ok tt) /\
  (forall tables, get_metadata env (0x03 :: params) = Ok (Some tables) -> exists e e', tables = [e; e; e']) /\
  (Input.token_commit i = native_token_commit ->
     point_sum (ins (call_flows call)) = point_sum (leaving (call_flows call))).
Proof.
  intros Hb Hd Hdb Hroot Hn Hc call. split_and!.
  - destruct (doubled_accepted cid params st tp i o v r Hd Hb Hdb Hroot Hn Hc) as (b & Et & Eu). exists (0x03 :: b). eexists.
    split; [exact Et |]. split; [unfold decode_update; cbn [native_token_function]; by rewrite Eu | done].
  - unfold derive_l1_nullifiers. cbn [derive_loop]. unfold call_spends. cbn [data contract_id call].
    rewrite bool_decide_true by done. change (native_token_function 0x03) with (Ok TransferV1 : CRes NativeTokenFunction).
    rewrite Hd. cbv beta iota delta [lift]. rewrite (d_ins _ _ _ _ _ Hdb). cbn [map]. eexists. split; [reflexivity |].
    unfold reconcile_declared. rewrite bool_decide_true; [done | set_solver].
  - intros tables. by eapply doubled_metadata.
  - intros Ht. unfold call_flows, matches_native_token. cbn [contract_id data call]. rewrite bool_decide_true by done. cbn [negb].
    change (native_token_function 0x03) with (Ok TransferV1 : CRes NativeTokenFunction). rewrite Hd.
    pose proof (transfer_decoded _ _ Hb Hd) as (Hwi & Hwo & _). pose proof (doubled_conserves _ _ _ _ _ Hdb) as Hcons.
    unfold leaving. cbn [ins outs burns fees]. rewrite !app_nil_r. by apply conserves_points.
Qed.

(** The same fee call with another declared amount. *)
Definition with_fee (p : FeeParamsV3.t) (fee : Z) : FeeParamsV3.t := {|
  FeeParamsV3.input := FeeParamsV3.input p; FeeParamsV3.output := FeeParamsV3.output p; FeeParamsV3.fee := fee;
  FeeParamsV3.tier := FeeParamsV3.tier p; FeeParamsV3.fee_value_commit := FeeParamsV3.fee_value_commit p;
  FeeParamsV3.tx_nonce := FeeParamsV3.tx_nonce p |}.

Lemma fee_amount_unchecked cid env params params' st (p : FeeParamsV3.t) (fee : Z) :
  FeeParamsV3.dec params = Ok p -> FeeParamsV3.dec params' = Ok (with_fee p fee) ->
  is_ok (fee_v3 cid env params st) = is_ok (fee_v3 cid env params' st) /\
  fee_v3_get_metadata env params = fee_v3_get_metadata env params' /\
  forall tc s, process_fee_v3_call (0x08 :: params) tc s = process_fee_v3_call (0x08 :: params') tc s.
Proof.
  intros Hd Hd'. unfold fee_v3, fee_v3_get_metadata, process_fee_v3_call. cbn [drop]. rewrite !drop_0, Hd, Hd'. split_and!; [| done | done].
  unfold with_fee, require, ensure. cbn [FeeParamsV3.input FeeParamsV3.output FeeParamsV3.fee].
  repeat (match goal with |- is_ok (if ?b then _ else _) = _ => destruct b; [| done] end).
  by destruct (read_fees _ _ _).
Qed.

Lemma collected_note_unchecked cid env params params' st (fc fc' : FeeCollectParamsV1.t) :
  FeeCollectParamsV1.dec params = Ok fc -> FeeCollectParamsV1.dec params' = Ok fc' ->
  FeeCollectParamsV1.total_fees fc = FeeCollectParamsV1.total_fees fc' ->
  Output.token_commit (FeeCollectParamsV1.output fc) = Output.token_commit (FeeCollectParamsV1.output fc') ->
  unknown cid st (Output.commitment (FeeCollectParamsV1.output fc')) ->
  is_ok (fee_collect_v1 cid env params st) = true -> is_ok (fee_collect_v1 cid env params' st) = true.
Proof.
  intros Hd Hd' Et Ec Hu. unfold fee_collect_v1. rewrite Hd, Hd', Et, Ec. unfold unknown in Hu. rewrite Hu.
  unfold require, ensure. cbn [negb]. destruct (_ =? 0); [done |]. cbn [negb]. destruct (read_fees _ _ _) as [[a |] |]; cbn [ok_or]; [| done..].
  destruct (_ =? a); [| done]. destruct (db_contains_key cid _ (Output.commitment (FeeCollectParamsV1.output fc)) st); [done |]. cbn [negb]. by destruct (bool_decide _).
Qed.

(** The amounts of the fee market are not tied to the value that moves.  Two
    fee calls that differ only in the declared fee are accepted alike, ask for
    the same proofs with the same public inputs and count alike in the balance
    of the block; and a fee collection that is accepted is accepted as well with
    any other new note in place of its own, whatever its value commitment,
    with no proof asked for either. *)
Lemma declared_amounts_unbound cid env params params' st :
  (forall p fee, FeeParamsV3.dec params = Ok p -> FeeParamsV3.dec params' = Ok (with_fee p fee) ->
     is_ok (process_instruction cid env (0x08 :: params) st) = is_ok (process_instruction cid env (0x08 :: params') st) /\
     get_metadata env (0x08 :: params) = get_metadata env (0x08 :: params') /\
     forall tc s, balance_call tc {| contract_id := NATIVE_TOKEN_CONTRACT_ID; data := 0x08 :: params |} s =
                  balance_call tc {| contract_id := NATIVE_TOKEN_CONTRACT_ID; data := 0x08 :: params' |} s) /\
  (forall fc fc', FeeCollectParamsV1.dec params = Ok fc -> FeeCollectParamsV1.dec params' = Ok fc' ->
     FeeCollectParamsV1.total_fees fc = FeeCollectParamsV1.total_fees fc' ->
     Output.token_commit (FeeCollectParamsV1.output fc) = Output.token_commit (FeeCollectParamsV1.output fc') ->
     unknown cid st (Output.commitment (FeeCollectParamsV1.output fc')) ->
     is_ok (process_instruction cid env (0x06 :: params) st) = true ->
     is_ok (process_instruction cid env (0x06 :: params') st) = true /\
     (params' <> [] -> get_metadata env (0x06 :: params') = Ok (Some []))).
Proof.
  split.
  - intros p fee Hd Hd'. destruct (fee_amount_unchecked cid env params params' st p fee Hd Hd') as (H1 & H2 & H3).
    split; [exact H1 |]. split; [exact H2 |]. intros tc s. unfold balance_call. cbn [data]. rewrite H3. done.
  - intros fc fc' Hd Hd' Et Ec Hu Hok. split; [exact (collected_note_unchecked cid env params params' st fc fc' Hd Hd' Et Ec Hu Hok) |].
    intros Hne. change (get_metadata env (0x06 :: params')) with (plaintext_call_get_metadata params' (FeeCollectParamsV1.dec params')).
    unfold plaintext_call_get_metadata, decoded_or_empty. rewrite Hd'. by destruct params'.
Qed.
End gaps.

(** ** The gaps on the deployed contract *)

Definition minted_output (v blind commitment nf : Z) : Output.t := {|
  Output.value_commit := value_of v blind; Output.token_commit := @native_token_commit toy; Output.commitment := elem commitment;
  Output.nullifier := Some (elem nf); Output.note := sample_note |}.

Definition doubling : TransferParamsV1.t := {|
  TransferParamsV1.inputs := [native_input 700 11 202; native_input 700 11 202];
  TransferParamsV1.outputs := [minted_output 1400 22 305 402]; TransferParamsV1.tx_nonce := elem 83 |}.

Definition doubling_params : bytes := match @TransferParamsV1.enc toy doubling with Ok b => b | Err _ => [] end.

Example doubling_ready :
  forallb (fun b => (0 <=? b) && (b <? 256)) doubling_params = true /\
  @TransferParamsV1.dec toy doubling_params = Ok doubling /\
  (match deployed with
  | Ok st => @db_contains_key toy toy_cid COMMITMENT_ROOTS_TREE EMPTY_COMMITMENT_SET_ROOT st &&
      negb (@db_contains_key toy toy_cid NULLIFIERS_TREE (elem 202) st) &&
      negb (@db_contains_key toy toy_cid COMMITMENT_SET_TREE (elem 305) st)
  | Err _ => false end) = true.
Proof. vm_compute. split_and!; reflexivity. Qed.

Lemma doubling_doubled :
  @doubled toy toy_curve toy_mul doubling (native_input 700 11 202) (minted_output 1400 22 305 402) 700 11.
Proof. constructor; [reflexivity | reflexivity | reflexivity | reflexivity |]. vm_compute. reflexivity. Qed.

Lemma duplicate_input_inflates_witness :
  exists st update_data u, deployed = Ok st /\
    @process_instruction toy toy_curve toy_mul toy_cid (env_at 2) (0x03 :: doubling_params) st = Ok update_data /\
    @decode_update toy update_data = Ok (UTransfer u) /\ TransferUpdateV1.commitments u = [elem 305].
Proof.
  destruct doubling_ready as (Hb & Hd & Hst). destruct deployed as [st |] eqn:Ed; [| discriminate Hst].
  apply andb_true_iff in Hst as [[Hroot Hn%negb_true_iff]%andb_true_iff Hc%negb_true_iff].
  assert (Forall is_byte doubling_params) as Hbytes.
  { rewrite forallb_forall in Hb. apply Forall_forall. intros b Hin%list_elem_of_In%Hb. unfold is_byte. lia. }
  destruct (@duplicate_input_inflates toy toy_curve toy_mul toy_laws toy_cid (env_at 2) doubling_params st doubling
    (native_input 700 11 202) (minted_output 1400 22 305 402) 700 11 Hbytes Hd doubling_doubled Hroot Hn Hc) as [(d & u & Hp & Hu & Hcm) _].
  exists st, d, u. split; [reflexivity |]. split; [exact Hp |]. split; [exact Hu | exact Hcm].
Defined.

(** The fee call of the example, declared as one unit. *)
Definition fee_of_ix : FeeParamsV3.t := {|
  FeeParamsV3.input := native_input 5000000 90 201; FeeParamsV3.output := native_output 3000000 60 301;
  FeeParamsV3.fee := 2000000; FeeParamsV3.tier := FeeTier.MEDIUM;
  FeeParamsV3.fee_value_commit := value_of 2000000 30; FeeParamsV3.tx_nonce := elem 72 |}.
Definition underdeclared : bytes := match @FeeParamsV3.enc toy (with_fee fee_of_ix 1) with Ok b => b | Err _ => [] end.

Example fee_calls_decode :
  @FeeParamsV3.dec toy (drop 1 fee_ix) = Ok fee_of_ix /\ @FeeParamsV3.dec toy underdeclared = Ok (with_fee fee_of_ix 1).
Proof. vm_compute. split; reflexivity. Qed.

Lemma declared_amounts_unbound_witness :
  (forall st, is_ok (@process_instruction toy toy_curve toy_mul toy_cid (env_at 2) (0x08 :: drop 1 fee_ix) st) =
              is_ok (@process_instruction toy toy_curve toy_mul toy_cid (env_at 2) (0x08 :: underdeclared) st)) /\
  @get_metadata toy (env_at 2) (0x08 :: drop 1 fee_ix) = @get_metadata toy (env_at 2) (0x08 :: underdeclared).
Proof.
  destruct fee_calls_decode as [Hd Hd'].
  pose proof (fun st => proj1 (@declared_amounts_unbound toy toy_curve toy_mul toy_cid (env_at 2) (drop 1 fee_ix) underdeclared st)
    fee_of_ix 1 Hd Hd') as H.
  split; [intros st; apply (H st) | apply (H ∅)].
Defined.
