(* ===== verification/Mempool.v ===== *)
(** * The mempool ([crates/dwow-mempool/src/lib.rs])

    The pool is one record: the transactions by hash, the fee index of the
    legacy transactions, the three FIFO queues of FeeV3 transactions with their
    counters, the nullifiers in flight and the persistent tree.  Every method is
    a function on it; each runs under the locks it takes, so a method is one
    step.  Parameters: the fee extractor (a trait object), [serde_json], the
    chain state as the pool consults it, and the iteration order of a
    [HashMap], which Rust leaves open. *)

From stdpp Require Import sorting.
From S2P Require Import Prelude Units Serial Externals Transaction Merkle Block Store.
From S2P Require Import F64 NativeToken L1Contracts Nullifiers FeeWindow.

(** ** Interfaces *)

(** [FeeSignallingExtractor]. *)
Class FeeSignallingExtractor := {
  extract_fee : Transaction -> Z;
  extract_tier : Transaction -> FeeTier.t;
  declare_charge : Transaction -> Z
}.

(** [serde_json] on transactions: what it writes, it reads back. *)
Class Json := {
  to_json : Transaction -> option (list Z);
  from_json : list Z -> option Transaction;
  json_roundtrip : forall t b, to_json t = Some b -> from_json b = Some t
}.

(** The chain state as admission consults it. *)
Record ChainView := {
  has_nullifier : list Z -> bool;
  fee_window_cf : option CongestionFactor;
  declared_call_gas : list Z -> Z -> option Z;
  get_risk_factor : list Z -> Z
}.

Record MempoolConfig := {
  max_size : Z; max_age_secs : Z; max_tx_size : Z; max_bytes : Z; min_fee : Z;
  cfg_price_high : Z; cfg_price_medium : Z; cfg_price_low : Z
}.

Definition MempoolConfig_default : MempoolConfig := {|
  max_size := 10000; max_age_secs := 3600; max_tx_size := 1024 * 1024;
  max_bytes := 128 * 1024 * 1024; min_fee := 0; cfg_price_high := 4 * CF_SCALE;
  cfg_price_medium := 2 * CF_SCALE; cfg_price_low := CF_SCALE |}.

(** [MinerMode] and [MinerConfig]. *)
Inductive MinerMode := LowFee | Medium | High.

Record MinerConfig := {
  mode : MinerMode; max_charge : Z; max_txs : Z; min_fee_rate : option Z;
  top_n_pct : option f64
}.

(** ** State *)

Record MempoolEntry := {
  etx : Transaction; added_at : Z; fee : Z; declared_charge : Z; serialized_len : Z
}.

Definition rate_of (f charge : Z) : Z :=
  if 0 <? charge then saturating_mul 64 f 1000000 / charge else 0.
Definition entry_rate (e : MempoolEntry) : Z := rate_of (fee e) (declared_charge e).

Record Mempool := {
  txs : gmap (list Z) MempoolEntry;
  fee_index : gset (Z * list Z);
  high_queue : list (list Z); high_queue_count : Z;
  medium_queue : list (list Z); medium_queue_count : Z;
  low_queue : list (list Z); low_queue_count : Z;
  pool_nullifiers : gset (list Z);
  db : option Tree;
  price_high : Z; price_medium : Z; price_low : Z;
  fee_circuit_rows : Z
}.

Definition Mempool_new (cfg : MempoolConfig) (tree : option Tree) : Mempool := {|
  txs := ∅; fee_index := ∅; high_queue := []; high_queue_count := 0; medium_queue := [];
  medium_queue_count := 0; low_queue := []; low_queue_count := 0; pool_nullifiers := ∅; db := tree;
  price_high := cfg_price_high cfg; price_medium := cfg_price_medium cfg;
  price_low := cfg_price_low cfg; fee_circuit_rows := 0 |}.

(** The three structures [add] holds locked, and the tree. *)
Definition with_core (m : Mempool) (t : gmap (list Z) MempoolEntry) (i : gset (Z * list Z))
    (n : gset (list Z)) : Mempool := {|
  txs := t; fee_index := i; high_queue := high_queue m; high_queue_count := high_queue_count m;
  medium_queue := medium_queue m; medium_queue_count := medium_queue_count m;
  low_queue := low_queue m; low_queue_count := low_queue_count m; pool_nullifiers := n; db := db m;
  price_high := price_high m; price_medium := price_medium m; price_low := price_low m;
  fee_circuit_rows := fee_circuit_rows m |}.

Definition with_db (m : Mempool) (d : option Tree) : Mempool := {|
  txs := txs m; fee_index := fee_index m; high_queue := high_queue m;
  high_queue_count := high_queue_count m; medium_queue := medium_queue m;
  medium_queue_count := medium_queue_count m; low_queue := low_queue m;
  low_queue_count := low_queue_count m; pool_nullifiers := pool_nullifiers m; db := d;
  price_high := price_high m; price_medium := price_medium m; price_low := price_low m;
  fee_circuit_rows := fee_circuit_rows m |}.

Definition with_queues (m : Mempool) (hq : list (list Z)) (hc : Z) (mq : list (list Z)) (mc : Z)
    (lq : list (list Z)) (lc : Z) : Mempool := {|
  txs := txs m; fee_index := fee_index m; high_queue := hq; high_queue_count := hc;
  medium_queue := mq; medium_queue_count := mc; low_queue := lq; low_queue_count := lc;
  pool_nullifiers := pool_nullifiers m; db := db m; price_high := price_high m;
  price_medium := price_medium m; price_low := price_low m; fee_circuit_rows := fee_circuit_rows m |}.

Definition update_tier_prices (high medium low : Z) (m : Mempool) : Mempool := {|
  txs := txs m; fee_index := fee_index m; high_queue := high_queue m;
  high_queue_count := high_queue_count m; medium_queue := medium_queue m;
  medium_queue_count := medium_queue_count m; low_queue := low_queue m;
  low_queue_count := low_queue_count m; pool_nullifiers := pool_nullifiers m; db := db m;
  price_high := high; price_medium := medium; price_low := low;
  fee_circuit_rows := fee_circuit_rows m |}.

Definition update_fee_circuit_rows (rows : Z) (m : Mempool) : Mempool := {|
  txs := txs m; fee_index := fee_index m; high_queue := high_queue m;
  high_queue_count := high_queue_count m; medium_queue := medium_queue m;
  medium_queue_count := medium_queue_count m; low_queue := low_queue m;
  low_queue_count := low_queue_count m; pool_nullifiers := pool_nullifiers m; db := db m;
  price_high := price_high m; price_medium := price_medium m; price_low := price_low m;
  fee_circuit_rows := rows |}.

(** [HashMap::iter] visits every entry once, in an order of its own. *)
Class HashOrder := {
  iter_txs : gmap (list Z) MempoolEntry -> list (list Z * MempoolEntry);
  iter_txs_perm : forall t, Permutation (iter_txs t) (map_to_list t)
}.

(** [FeeIndexEntry::cmp]: fee rate descending, then hash ascending. *)
Definition fee_le (a b : Z * list Z) : Prop :=
  b.1 < a.1 \/ (a.1 = b.1 /\ lex_le a.2 b.2 = true).
#[global] Instance fee_le_dec : RelDecision fee_le.
Proof. intros a b. unfold fee_le. solve_decision. Defined.

Definition fee_iter (i : gset (Z * list Z)) : list (Z * list Z) := merge_sort fee_le (elements i).

(** [sled::Tree::iter]: the entries by ascending key. *)
Definition key_le (a b : list Z * list Z) : Prop := lex_le a.1 b.1 = true.
#[global] Instance key_le_dec : RelDecision key_le.
Proof. intros a b. unfold key_le. solve_decision. Defined.

Definition tree_iter (d : Tree) : list (list Z * list Z) := merge_sort key_le (map_to_list d).

Inductive AdmitError :=
| NoContent | CannotMeasure | TooLarge | FeeTooLow | BadDeclaration | ClaimSpends
| AlreadyInMempool | DoubleSpend | DoubleSpendOnChain | Full | ByteBudget
| BelowRequirement | BelowLowTier.

Definition extract_nullifiers (t : Transaction) : list (list Z) :=
  List.filter (fun n => negb (bool_decide (n = zero32))) (nullifiers t).

Section mempool.
Context {EXT : Externals} {FSE : FeeSignallingExtractor} {JSON : Json} {HO : HashOrder}.

(** ** Removal *)

(** Remove an entry with its index entry and its nullifiers, not from the tree. *)
Definition drop_entry (h : list Z) (e : MempoolEntry) (m : Mempool) : Mempool :=
  with_core m (delete h (txs m)) (fee_index m ∖ {[ (entry_rate e, h) ]})
    (pool_nullifiers m ∖ list_to_set (extract_nullifiers (etx e))).

(** The body shared by [mark_mined] and [evict_stale_locked]. *)
Definition remove_entry (m : Mempool) (h : list Z) : Mempool :=
  match txs m !! h with
  | Some e => with_db (drop_entry h e m) (delete h <$> db m)
  | None => m
  end.

Definition mark_mined (hashes : list (list Z)) (m : Mempool) : Mempool :=
  fold_left remove_entry hashes m.

(** [remove]. *)
Definition remove_tx (h : list Z) (m : Mempool) : Mempool := mark_mined [h] m.

Definition stale_hashes (cfg : MempoolConfig) (now : Z) (m : Mempool) : list (list Z) :=
  map fst (List.filter (fun he : list Z * MempoolEntry =>
    max_age_secs cfg <=? saturating_sub now (added_at he.2)) (iter_txs (txs m))).

(** [evict_stale_locked]: the new pool and the number of stale entries. *)
Definition evict_stale (cfg : MempoolConfig) (now : Z) (m : Mempool) : Mempool * nat :=
  let stale := stale_hashes cfg now m in
  (fold_left remove_entry stale m, length stale).

(** ** Admission *)

(** The single lowest-fee-rate entry leaves when the pool is full. *)
Definition make_room_count (cfg : MempoolConfig) (rate : Z) (m : Mempool) : Mempool :=
  if max_size cfg <=? Z.of_nat (size (txs m)) then
    match last (fee_iter (fee_index m)) with
    | Some (lowest_rate, lowest_hash) =>
        if (lowest_rate <? rate) || (max_size cfg <=? Z.of_nat (size (txs m))) then
          match txs m !! lowest_hash with
          | Some e =>
              with_core m (delete lowest_hash (txs m)) (fee_index m ∖ {[ (lowest_rate, lowest_hash) ]})
                (pool_nullifiers m ∖ list_to_set (extract_nullifiers (etx e)))
          | None => m
          end
        else m
    | None => m
    end
  else m.

(** [min_by_key]: the first entry of least rate. *)
Fixpoint min_by_rate (l : list (list Z * MempoolEntry)) : option (list Z * MempoolEntry) :=
  match l with
  | [] => None
  | x :: l' =>
      match min_by_rate l' with
      | Some y => if entry_rate y.2 <? entry_rate x.2 then Some y else Some x
      | None => Some x
      end
  end.

Definition total_bytes (t : gmap (list Z) MempoolEntry) : Z :=
  foldr Z.add 0 (map (fun he : list Z * MempoolEntry => serialized_len he.2) (iter_txs t)).

(** The byte-budget loop; every round removes an entry. *)
Fixpoint make_room_bytes (fuel : nat) (cfg : MempoolConfig) (rate len : Z) (total : Z) (m : Mempool) :
    Mempool * Z :=
  match fuel with
  | O => (m, total)
  | S fuel' =>
      if max_bytes cfg <? saturating_add 64 total len then
        match min_by_rate (iter_txs (txs m)) with
        | None => (m, total)
        | Some (victim, e) =>
            if rate <=? entry_rate e then (m, total)
            else make_room_bytes fuel' cfg rate len (saturating_sub total (serialized_len e))
                   (drop_entry victim e m)
        end
      else (m, total)
  end.

(** [rederived_minimum_fee]. *)
Definition rederived_minimum_fee (cs : option ChainView) (m : Mempool) (t : Transaction)
    (tier : FeeTier.t) : option Z :=
  if fee_circuit_rows m =? 0 then None
  else
    match cs with
    | None => None
    | Some c =>
        match fee_window_cf c with
        | None => None
        | Some cf =>
            match List.find (fun call => negb (bool_decide (is_Some (as_mass_balance_fee_v3 call))))
                    (contract_calls t) with
            | None => None
            | Some main =>
                let gas :=
                  match data main with
                  | selector :: _ =>
                      match declared_call_gas c (contract_id main) selector with
                      | Some declared => saturating_add 64 (fee_circuit_rows m) declared
                      | None => fee_circuit_rows m
                      end
                  | [] => fee_circuit_rows m
                  end in
                Some (compute_fee_v3 gas cf tier (get_risk_factor c (contract_id main)))
            end
        end
    end.

Definition is_coinbase (t : Transaction) : bool :=
  match contract_calls t with
  | c :: _ => bool_decide (is_Some (as_mass_balance_coinbase_v1 c))
  | [] => false
  end.

Definition is_fee_v3 (t : Transaction) : bool :=
  existsb (fun c => bool_decide (is_Some (as_mass_balance_fee_v3 c))) (contract_calls t).

(** The declaration check: claim transactions must spend nothing. *)
Definition check_declaration (t : Transaction) : result AdmitError unit :=
  match derive_l1_nullifiers (contract_calls t) with
  | Err _ => Err BadDeclaration
  | Ok (derived, all_l1) =>
      if is_coinbase t || is_fee_collect_tx t then
        if negb (bool_decide (derived = ∅)) then Err ClaimSpends else Ok tt
      else
        match reconcile_declared derived (nullifiers t) all_l1 with
        | Ok _ => Ok tt
        | Err _ => Err BadDeclaration
        end
  end.

(** The FeeV3 gate and the queue a transaction joins; an error takes the
    transaction back out. *)
Definition route_fee_v3 (cs : option ChainView) (h : list Z) (t : Transaction) (m : Mempool) :
    Mempool * result AdmitError unit :=
  let taken_out := with_core m (delete h (txs m)) (fee_index m)
                     (pool_nullifiers m ∖ list_to_set (extract_nullifiers t)) in
  let plain_fee := extract_fee t in
  let short := match rederived_minimum_fee cs m t (extract_tier t) with
               | Some required => plain_fee <? required
               | None => false
               end in
  if short then (taken_out, Err BelowRequirement)
  else if price_high m <=? plain_fee then
    (with_queues m (high_queue m ++ [h]) (wrap 64 (high_queue_count m + 1)) (medium_queue m)
       (medium_queue_count m) (low_queue m) (low_queue_count m), Ok tt)
  else if price_medium m <=? plain_fee then
    (with_queues m (high_queue m) (high_queue_count m) (medium_queue m ++ [h])
       (wrap 64 (medium_queue_count m + 1)) (low_queue m) (low_queue_count m), Ok tt)
  else if price_low m <=? plain_fee then
    (with_queues m (high_queue m) (high_queue_count m) (medium_queue m) (medium_queue_count m)
       (low_queue m ++ [h]) (wrap 64 (low_queue_count m + 1)), Ok tt)
  else (taken_out, Err BelowLowTier).

(** Insertion, routing and persistence of a transaction that passed. *)
Definition admit_tx (cs : option ChainView) (h : list Z) (t : Transaction) (e : MempoolEntry)
    (m : Mempool) : Mempool * result AdmitError (list Z) :=
  let m1 := with_core m (<[h := e]> (txs m)) (fee_index m ∪ {[ (entry_rate e, h) ]})
              (pool_nullifiers m ∪ list_to_set (extract_nullifiers t)) in
  let persist m' := with_db m' (match db m', to_json t with
                                | Some d, Some b => Some (<[h := b]> d)
                                | d, _ => d
                                end) in
  if is_fee_v3 t then
    let m2 := with_core m1 (txs m1) (fee_index m1 ∖ {[ (entry_rate e, h) ]}) (pool_nullifiers m1) in
    match route_fee_v3 cs h t m2 with
    | (m3, Ok _) => (persist m3, Ok h)
    | (m3, Err err) => (m3, Err err)
    end
  else (persist m1, Ok h).

(** The part of [add] that runs under the locks. *)
Definition add_locked (cfg : MempoolConfig) (cs : option ChainView) (t : Transaction) (len now : Z)
    (m0 : Mempool) : Mempool * result AdmitError (list Z) :=
  let h := tx_hash t in
  let f := extract_fee t in
  let gas := declare_charge t in
  let rate := rate_of f gas in
  let nfs := extract_nullifiers t in
  let m1 := (evict_stale cfg now m0).1 in
  if bool_decide (is_Some (txs m1 !! h)) then (m1, Err AlreadyInMempool)
  else if existsb (fun n => bool_decide (n ∈ pool_nullifiers m1)) nfs then (m1, Err DoubleSpend)
  else if match cs with Some c => existsb (has_nullifier c) nfs | None => false end
  then (m1, Err DoubleSpendOnChain)
  else
    let m2 := make_room_count cfg rate m1 in
    if max_size cfg <=? Z.of_nat (size (txs m2)) then (m2, Err Full)
    else
      let '(m3, total) := make_room_bytes (size (txs m2)) cfg rate len (total_bytes (txs m2)) m2 in
      if max_bytes cfg <? saturating_add 64 total len then (m3, Err ByteBudget)
      else admit_tx cs h t {| etx := t; added_at := now; fee := f; declared_charge := gas;
                           serialized_len := len |} m3.

Definition add (cfg : MempoolConfig) (cs : option ChainView) (t : Transaction) (now : Z)
    (m : Mempool) : Mempool * result AdmitError (list Z) :=
  if bool_decide (contract_calls t = []) && bool_decide (inputs t = []) then (m, Err NoContent)
  else
    match to_json t with
    | None => (m, Err CannotMeasure)
    | Some serialized =>
        let len := Z.of_nat (length serialized) in
        if max_tx_size cfg <? len then (m, Err TooLarge)
        else if negb (is_coinbase t) && (extract_fee t <? min_fee cfg) then (m, Err FeeTooLow)
        else
          match check_declaration t with
          | Err e => (m, Err e)
          | Ok _ => add_locked cfg cs t len now m
          end
    end.

(** ** Block selection *)

(** One [while let Some(hash) = queue.pop_front()] loop. *)
Fixpoint drain (t : gmap (list Z) MempoolEntry) (cfg : MinerConfig) (queue : list (list Z))
    (count : Z) (selected : list Transaction) (charge : Z) :
    list (list Z) * Z * list Transaction * Z :=
  match queue with
  | [] => ([], count, selected, charge)
  | h :: queue' =>
      match t !! h with
      | Some e =>
          let gas := Z.max (declared_charge e) 1 in
          if (max_charge cfg <? saturating_add 64 charge gas) ||
             (max_txs cfg <=? Z.of_nat (length selected))
          then (h :: queue', count, selected, charge)
          else drain t cfg queue' (wrap 64 (count - 1)) (selected ++ [etx e])
                 (saturating_add 64 charge gas)
      | None => drain t cfg queue' count selected charge
      end
  end.

Definition fee_cutoff (cfg : MinerConfig) (index : list (Z * list Z)) : option Z :=
  match mode cfg with
  | High =>
      let pct := default (literal 25 100) (top_n_pct cfg) in
      let count := Z.of_nat (length index) in
      let n := Z.max (to_uint_ceil 64 (f64_mul (of_uint count) pct)) 1 in
      if n - 1 <? count then fst <$> (index !! Z.to_nat (n - 1)) else None
  | Medium => min_fee_rate cfg
  | LowFee => None
  end.

(** The loop over the fee index. *)
Fixpoint select_legacy (t : gmap (list Z) MempoolEntry) (cfg : MinerConfig) (cutoff : option Z)
    (index : list (Z * list Z)) (selected : list Transaction) (charge : Z) :
    list Transaction * Z :=
  match index with
  | [] => (selected, charge)
  | (r, h) :: index' =>
      if max_txs cfg <=? Z.of_nat (length selected) then (selected, charge)
      else if match cutoff with Some c => r <? c | None => false end
      then select_legacy t cfg cutoff index' selected charge
      else
        match t !! h with
        | Some e =>
            if max_charge cfg <? saturating_add 64 charge (declared_charge e)
            then select_legacy t cfg cutoff index' selected charge
            else select_legacy t cfg cutoff index' (selected ++ [etx e])
                   (saturating_add 64 charge (declared_charge e))
        | None => select_legacy t cfg cutoff index' selected charge
        end
  end.

Definition select_for_block (cfg : MinerConfig) (m : Mempool) : Mempool * list Transaction :=
  let t := txs m in
  let '(hq, hc, sel1, ch1) := drain t cfg (high_queue m) (high_queue_count m) [] 0 in
  let '(mq, mc, sel2, ch2) := drain t cfg (medium_queue m) (medium_queue_count m) sel1 ch1 in
  let '(lq, lc, sel3, ch3) := drain t cfg (low_queue m) (low_queue_count m) sel2 ch2 in
  let index := fee_iter (fee_index m) in
  let '(selected, _) := select_legacy t cfg (fee_cutoff cfg index) index sel3 ch3 in
  (with_queues m hq hc mq mc lq lc, selected).

(** ** Restart *)

(** One entry read from the tree. *)
Definition load_entry (now : Z) (value : list Z) : option (list Z * MempoolEntry) :=
  match from_json value with
  | Some t =>
      Some (tx_hash t, {| etx := t; added_at := now; fee := extract_fee t;
                          declared_charge := declare_charge t;
                          serialized_len := Z.of_nat (length value) |})
  | None => None
  end.

(** The read loop: the tree loses each key as it is read; an entry that does
    not deserialize ends the load. *)
Fixpoint load_loop (now : Z) (entries : list (list Z * list Z)) (m : Mempool) (d : Tree) :
    Tree * option Mempool :=
  match entries with
  | [] => (d, Some m)
  | (key, value) :: entries' =>
      match load_entry now value with
      | Some (h, e) =>
          load_loop now entries'
            (with_core m (<[h := e]> (txs m)) (fee_index m ∪ {[ (entry_rate e, h) ]})
               (pool_nullifiers m ∪ list_to_set (extract_nullifiers (etx e))))
            (delete key d)
      | None => (d, None)
      end
  end.

(** The write-back loops of [load] and [flush] over the entries of the pool: a
    transaction that does not serialize ends them with an error. *)
Fixpoint write_back (entries : list (list Z * MempoolEntry)) (d : Tree) : Tree * bool :=
  match entries with
  | [] => (d, true)
  | (h, e) :: entries' =>
      match to_json (etx e) with
      | Some b => write_back entries' (<[h := b]> d)
      | None => (d, false)
      end
  end.

(** [Mempool::load]: the tree it leaves and the pool. *)
Definition load (tree : Tree) (now : Z) : Tree * option Mempool :=
  match load_loop now (tree_iter tree) (Mempool_new MempoolConfig_default None) tree with
  | (d, Some m) =>
      match write_back (iter_txs (txs m)) d with
      | (d', true) => (d', Some (with_db m (Some d')))
      | (d', false) => (d', None)
      end
  | (d, None) => (d, None)
  end.

Definition flush (m : Mempool) : Mempool * bool :=
  match db m with
  | Some d => let '(d', ok) := write_back (iter_txs (txs m)) d in (with_db m (Some d'), ok)
  | None => (m, true)
  end.

(** ** The pool invariant *)

Record pool_ok (cfg : MempoolConfig) (m : Mempool) : Prop := {
  ok_hash : forall h e, txs m !! h = Some e -> tx_hash (etx e) = h;
  ok_index : forall r h, (r, h) ∈ fee_index m -> exists e, txs m !! h = Some e /\ entry_rate e = r;
  ok_legacy : forall h e, txs m !! h = Some e -> is_fee_v3 (etx e) = false ->
    (entry_rate e, h) ∈ fee_index m;
  ok_nulls : forall n, n ∈ pool_nullifiers m <->
    exists h e, txs m !! h = Some e /\ n ∈ extract_nullifiers (etx e);
  ok_disjoint : forall h1 e1 h2 e2 n, txs m !! h1 = Some e1 -> txs m !! h2 = Some e2 ->
    n ∈ extract_nullifiers (etx e1) -> n ∈ extract_nullifiers (etx e2) -> h1 = h2;
  ok_len : forall h e, txs m !! h = Some e -> 0 <= serialized_len e;
  ok_db : forall d h e, db m = Some d -> txs m !! h = Some e ->
    d !! h = to_json (etx e) /\ is_Some (to_json (etx e));
  ok_size : Z.of_nat (size (txs m)) <= max_size cfg;
  ok_bytes : total_bytes (txs m) <= max_bytes cfg
}.

Lemma sum_perm (l1 l2 : list Z) : Permutation l1 l2 -> foldr Z.add 0 l1 = foldr Z.add 0 l2.
Proof. induction 1; cbn; lia. Qed.

Definition sum_lens (l : list (list Z * MempoolEntry)) : Z :=
  foldr Z.add 0 (map (fun he : list Z * MempoolEntry => serialized_len he.2) l).

Lemma total_bytes_list (t : gmap (list Z) MempoolEntry) : total_bytes t = sum_lens (map_to_list t).
Proof. apply sum_perm, Permutation_map, iter_txs_perm. Qed.

Lemma total_bytes_insert (t : gmap (list Z) MempoolEntry) (h : list Z) (e : MempoolEntry) :
  t !! h = None -> total_bytes (<[h := e]> t) = serialized_len e + total_bytes t.
Proof.
  intros Hn. rewrite !total_bytes_list. unfold sum_lens.
  rewrite (sum_perm _ _ (Permutation_map _ (map_to_list_insert t h e Hn))). done.
Qed.

Lemma total_bytes_delete (t : gmap (list Z) MempoolEntry) (h : list Z) (e : MempoolEntry) :
  t !! h = Some e -> total_bytes (delete h t) = total_bytes t - serialized_len e.
Proof.
  intros Hs. rewrite <- (insert_delete_id t h e Hs) at 2.
  rewrite total_bytes_insert by apply lookup_delete_eq. lia.
Qed.

Lemma size_delete (t : gmap (list Z) MempoolEntry) (h : list Z) (e : MempoolEntry) :
  t !! h = Some e -> size t = S (size (delete h t)).
Proof.
  intros Hs. rewrite <- (insert_delete_id t h e Hs) at 1.
  by rewrite map_size_insert_None by apply lookup_delete_eq.
Qed.

Lemma elem_of_nfs (l : list (list Z)) (n : list Z) : n ∈ (list_to_set l : gset (list Z)) <-> n ∈ l.
Proof. apply elem_of_list_to_set. Qed.

(** Removing an entry keeps the invariant. *)
Lemma drop_ok (cfg : MempoolConfig) (m : Mempool) (h : list Z) (e : MempoolEntry) :
  pool_ok cfg m -> txs m !! h = Some e -> pool_ok cfg (drop_entry h e m).
Proof.
  intros Hm He.
  assert (forall h' e', delete h (txs m) !! h' = Some e' -> h' <> h /\ txs m !! h' = Some e') as Hd.
  { intros h' e' Hl. apply lookup_delete_Some in Hl as [? ?]. done. }
  constructor; cbn [txs fee_index pool_nullifiers db drop_entry with_core].
  - intros h' e' [_ Hl]%Hd. by apply (ok_hash _ _ Hm).
  - intros r h' [Hin Hne]%elem_of_difference. destruct (ok_index _ _ Hm _ _ Hin) as (e' & Hl & Hr).
    exists e'. split; [| done]. apply lookup_delete_Some. split; [| done]. intros <-.
    apply Hne. rewrite He in Hl. injection Hl as <-. rewrite Hr. by apply elem_of_singleton.
  - intros h' e' [Hne Hl]%Hd Hf. apply elem_of_difference. split; [by apply (ok_legacy _ _ Hm) |].
    intros Hin%elem_of_singleton. congruence.
  - intros n. rewrite elem_of_difference, elem_of_nfs, (ok_nulls _ _ Hm). split.
    + intros [(h' & e' & Hl & Hn) Hnot]. exists h', e'. split; [| done].
      apply lookup_delete_Some. split; [| done]. intros ->. apply Hnot. congruence.
    + intros (h' & e' & [Hne Hl]%Hd & Hn). split; [by exists h', e' |]. intros Hn'.
      apply Hne. by apply (ok_disjoint _ _ Hm h' e' h e n).
  - intros h1 e1 h2 e2 n [_ H1]%Hd [_ H2]%Hd. by apply (ok_disjoint _ _ Hm h1 e1 h2 e2 n).
  - intros h' e' [_ Hl]%Hd. by apply (ok_len _ _ Hm h').
  - intros d h' e' Hdb [_ Hl]%Hd. by apply (ok_db _ _ Hm d h' e').
  - pose proof (size_delete _ _ _ He). pose proof (ok_size _ _ Hm). lia.
  - rewrite (total_bytes_delete _ _ _ He). pose proof (ok_len _ _ Hm _ _ He).
    pose proof (ok_bytes _ _ Hm). lia.
Qed.

(** Deleting the tree entry of a transaction that is gone is harmless. *)
Lemma with_db_ok (cfg : MempoolConfig) (m : Mempool) (d : option Tree) :
  pool_ok cfg m ->
  (forall d' h e, d = Some d' -> txs m !! h = Some e ->
     d' !! h = to_json (etx e) /\ is_Some (to_json (etx e))) ->
  pool_ok cfg (with_db m d).
Proof. intros [] Hd. constructor; cbn [txs fee_index pool_nullifiers db with_db]; try done. Qed.

Lemma remove_ok (cfg : MempoolConfig) (m : Mempool) (h : list Z) :
  pool_ok cfg m -> pool_ok cfg (remove_entry m h).
Proof.
  intros Hm. unfold remove_entry. destruct (txs m !! h) as [e|] eqn:He; [| done].
  apply with_db_ok; [by apply drop_ok |]. intros d' h' e' Hd Hl.
  destruct (db m) as [d|] eqn:Edb; [| done]. injection Hd as <-.
  cbn [txs drop_entry with_core] in Hl. apply lookup_delete_Some in Hl as [Hne Hl].
  rewrite lookup_delete_ne by done. by apply (ok_db _ _ Hm d h' e').
Qed.

Lemma remove_sub (m : Mempool) (h : list Z) : txs (remove_entry m h) ⊆ txs m.
Proof.
  unfold remove_entry. destruct (txs m !! h); [apply delete_subseteq | done].
Qed.

Lemma remove_all_ok (cfg : MempoolConfig) (hs : list (list Z)) (m : Mempool) :
  pool_ok cfg m -> pool_ok cfg (fold_left remove_entry hs m) /\
                   txs (fold_left remove_entry hs m) ⊆ txs m.
Proof.
  revert m. induction hs as [|h hs IH]; intros m Hm; [done |]. cbn [fold_left].
  destruct (IH (remove_entry m h) (remove_ok cfg m h Hm)) as [H1 H2]. split; [done |].
  etransitivity; [exact H2 | apply remove_sub].
Qed.

Lemma with_queues_ok (cfg : MempoolConfig) (m : Mempool) hq hc mq mc lq lc :
  pool_ok cfg m -> pool_ok cfg (with_queues m hq hc mq mc lq lc).
Proof. by intros []. Qed.

Lemma fee_iter_elem (i : gset (Z * list Z)) (x : Z * list Z) : x ∈ fee_iter i <-> x ∈ i.
Proof. unfold fee_iter. by rewrite merge_sort_Permutation, elem_of_elements. Qed.

Lemma make_room_count_ok (cfg : MempoolConfig) (rate : Z) (m : Mempool) :
  pool_ok cfg m -> pool_ok cfg (make_room_count cfg rate m) /\
                   txs (make_room_count cfg rate m) ⊆ txs m.
Proof.
  intros Hm. unfold make_room_count. destruct (max_size cfg <=? _); [| done].
  destruct (last _) as [[r h]|] eqn:El; [| done]. destruct (_ || _); [| done].
  destruct (txs m !! h) as [e|] eqn:He; [| done].
  assert ((r, h) ∈ fee_index m) as Hin by (by apply fee_iter_elem, last_Some_elem_of).
  destruct (ok_index _ _ Hm _ _ Hin) as (e' & Hl & Hr). rewrite He in Hl. injection Hl as <-.
  rewrite <- Hr. split; [by apply (drop_ok cfg m h e) | apply delete_subseteq].
Qed.

Lemma min_by_rate_elem (l : list (list Z * MempoolEntry)) (x : list Z * MempoolEntry) :
  min_by_rate l = Some x -> x ∈ l.
Proof.
  revert x. induction l as [|y l IH]; intros x Hx; [done |]. cbn [min_by_rate] in Hx.
  destruct (min_by_rate l) as [z|]; [destruct (_ <? _) |]; injection Hx as <-;
    try apply list_elem_of_here. apply list_elem_of_further. by apply IH.
Qed.

Lemma min_by_rate_lookup (t : gmap (list Z) MempoolEntry) (h : list Z) (e : MempoolEntry) :
  min_by_rate (iter_txs t) = Some (h, e) -> t !! h = Some e.
Proof.
  intros Hx%min_by_rate_elem. rewrite iter_txs_perm in Hx. by apply elem_of_map_to_list in Hx.
Qed.

Lemma total_bytes_nonneg (cfg : MempoolConfig) (m : Mempool) : pool_ok cfg m -> 0 <= total_bytes (txs m).
Proof.
  intros Hm. rewrite total_bytes_list. unfold sum_lens.
  assert (Forall (fun he : list Z * MempoolEntry => 0 <= serialized_len he.2) (map_to_list (txs m))) as Hf.
  { apply Forall_forall. intros [h e] Hin. apply elem_of_map_to_list in Hin. by apply (ok_len _ _ Hm h). }
  induction Hf; cbn; lia.
Qed.

Lemma make_room_bytes_ok (fuel : nat) (cfg : MempoolConfig) (rate len : Z) (m : Mempool) :
  pool_ok cfg m ->
  let r := make_room_bytes fuel cfg rate len (total_bytes (txs m)) m in
  pool_ok cfg r.1 /\ txs r.1 ⊆ txs m /\ r.2 = total_bytes (txs r.1).
Proof.
  revert m. induction fuel as [|fuel IH]; intros m Hm; [done |]. cbn [make_room_bytes].
  destruct (max_bytes cfg <? _); [| done].
  destruct (min_by_rate _) as [[h e]|] eqn:Emin; [| done].
  destruct (rate <=? _); [done |]. apply min_by_rate_lookup in Emin.
  pose proof (drop_ok cfg m h e Hm Emin) as Hd.
  assert (saturating_sub (total_bytes (txs m)) (serialized_len e) = total_bytes (txs (drop_entry h e m))) as ->.
  { pose proof (total_bytes_delete _ _ _ Emin) as Ht. pose proof (total_bytes_nonneg cfg _ Hd) as Hn.
    change (txs (drop_entry h e m)) with (delete h (txs m)) in *. unfold saturating_sub. lia. }
  destruct (IH (drop_entry h e m) Hd) as (H1 & H2 & H3). split_and!; [done | | done].
  etransitivity; [exact H2 | apply delete_subseteq].
Qed.

(** The invariant does not look at queues, counters and prices. *)
Lemma pool_ok_ext (cfg : MempoolConfig) (m m' : Mempool) :
  pool_ok cfg m -> txs m' = txs m -> fee_index m' = fee_index m ->
  pool_nullifiers m' = pool_nullifiers m -> db m' = db m -> pool_ok cfg m'.
Proof.
  intros [] Et Ei En Ed. constructor; rewrite ?Et, ?Ei, ?En, ?Ed; done.
Qed.

(** A transaction that may join the pool [m]. *)
Record admissible (cfg : MempoolConfig) (m : Mempool) (h : list Z) (e : MempoolEntry) : Prop := {
  adm_hash : tx_hash (etx e) = h;
  adm_fresh : txs m !! h = None;
  adm_nulls : forall n, n ∈ extract_nullifiers (etx e) -> n ∉ pool_nullifiers m;
  adm_json : is_Some (to_json (etx e));
  adm_len : 0 <= serialized_len e;
  adm_size : Z.of_nat (size (txs m)) < max_size cfg;
  adm_bytes : total_bytes (txs m) + serialized_len e <= max_bytes cfg
}.

Lemma fresh_index (cfg : MempoolConfig) (m : Mempool) (h : list Z) (r : Z) :
  pool_ok cfg m -> txs m !! h = None -> (r, h) ∉ fee_index m.
Proof. intros Hm Hn Hin. destruct (ok_index _ _ Hm _ _ Hin) as (e & He & _). congruence. Qed.

(** The nullifiers after an insertion. *)
Lemma insert_nulls (cfg : MempoolConfig) (m : Mempool) (h : list Z) (e : MempoolEntry) (n : list Z) :
  pool_ok cfg m -> admissible cfg m h e ->
  n ∈ pool_nullifiers m ∪ list_to_set (extract_nullifiers (etx e)) <->
  exists h' e', <[h := e]> (txs m) !! h' = Some e' /\ n ∈ extract_nullifiers (etx e').
Proof.
  intros Hm Ha. rewrite elem_of_union, elem_of_nfs, (ok_nulls _ _ Hm). split.
  - intros [(h' & e' & Hl & Hn) | Hn].
    + exists h', e'. split; [| done]. rewrite lookup_insert_ne; [done |]. intros <-.
      by rewrite (adm_fresh _ _ _ _ Ha) in Hl.
    + exists h, e. split; [apply lookup_insert_eq | done].
  - intros (h' & e' & Hl & Hn). apply lookup_insert_Some in Hl as [[<- <-] | [_ Hl]]; [by right |].
    left. by exists h', e'.
Qed.

Lemma insert_disjoint (cfg : MempoolConfig) (m : Mempool) (h : list Z) (e : MempoolEntry)
    h1 e1 h2 e2 n :
  pool_ok cfg m -> admissible cfg m h e ->
  <[h := e]> (txs m) !! h1 = Some e1 -> <[h := e]> (txs m) !! h2 = Some e2 ->
  n ∈ extract_nullifiers (etx e1) -> n ∈ extract_nullifiers (etx e2) -> h1 = h2.
Proof.
  intros Hm Ha H1 H2 N1 N2.
  assert (forall h' e', txs m !! h' = Some e' -> n ∈ extract_nullifiers (etx e') ->
    n ∈ pool_nullifiers m) as Hin by (intros h' e' Hl Hn; apply (ok_nulls _ _ Hm); eauto).
  pose proof (adm_nulls _ _ _ _ Ha n) as Hnot.
  apply lookup_insert_Some in H1 as [[<- <-] | [Hne1 H1]];
    apply lookup_insert_Some in H2 as [[<- <-] | [Hne2 H2]].
  - done.
  - by destruct (Hnot N1); apply (Hin h2 e2).
  - by destruct (Hnot N2); apply (Hin h1 e1).
  - by apply (ok_disjoint _ _ Hm h1 e1 h2 e2 n).
Qed.

Lemma insert_ok (cfg : MempoolConfig) (m m' : Mempool) (h : list Z) (e : MempoolEntry) :
  pool_ok cfg m -> admissible cfg m h e ->
  txs m' = <[h := e]> (txs m) ->
  pool_nullifiers m' = pool_nullifiers m ∪ list_to_set (extract_nullifiers (etx e)) ->
  fee_index m' = fee_index m ∪ {[ (entry_rate e, h) ]} \/
  (is_fee_v3 (etx e) = true /\ fee_index m' = fee_index m) ->
  db m' = match db m, to_json (etx e) with Some d, Some b => Some (<[h := b]> d) | d, _ => d end ->
  pool_ok cfg m'.
Proof.
  intros Hm Ha Et En Ei Ed. pose proof (adm_fresh _ _ _ _ Ha) as Hf.
  assert (forall h' e', txs m !! h' = Some e' -> h' <> h) as Hne by (intros h' e' Hl ->; congruence).
  constructor; rewrite ?Et, ?En.
  - intros h' e' [[<- <-] | [_ Hl]]%lookup_insert_Some; [apply Ha | by apply (ok_hash _ _ Hm)].
  - intros r h' Hin. assert ((r, h') ∈ fee_index m \/ (r = entry_rate e /\ h' = h)) as [Hi | [-> ->]].
    { destruct Ei as [Ei | [_ Ei]]; rewrite Ei in Hin; [| by left].
      apply elem_of_union in Hin as [Hin | Hin%elem_of_singleton]; [by left | right].
      by injection Hin as -> ->. }
    + destruct (ok_index _ _ Hm _ _ Hi) as (e' & Hl & Hr). exists e'.
      by rewrite lookup_insert_ne by (intros <-; by apply (Hne h e')).
    + exists e. by rewrite lookup_insert_eq.
  - intros h' e' Hl Hv. assert (fee_index m ⊆ fee_index m') as Hsub
      by (destruct Ei as [-> | [_ ->]]; [apply union_subseteq_l | done]).
    apply lookup_insert_Some in Hl as [[<- <-] | [_ Hl]]; [| by apply Hsub, (ok_legacy _ _ Hm)].
    destruct Ei as [-> | [Hv' _]]; [by apply elem_of_union_r, elem_of_singleton | congruence].
  - intros n. by apply insert_nulls with (cfg := cfg).
  - intros. by eapply insert_disjoint with (m := m) (e := e) (n := n).
  - intros h' e' [[<- <-] | [_ Hl]]%lookup_insert_Some; [apply Ha | by apply (ok_len _ _ Hm h')].
  - intros d h' e' Hd Hl. rewrite Ed in Hd. destruct (adm_json _ _ _ _ Ha) as [b Hb].
    destruct (db m) as [d0|] eqn:Edb; [| by destruct (to_json _)]. rewrite Hb in Hd. injection Hd as <-.
    apply lookup_insert_Some in Hl as [[<- <-] | [Hn Hl]]; [by rewrite lookup_insert_eq, Hb |].
    rewrite lookup_insert_ne by done. by apply (ok_db _ _ Hm d0).
  - rewrite map_size_insert_None by done. pose proof (adm_size _ _ _ _ Ha). lia.
  - rewrite total_bytes_insert by done. pose proof (adm_bytes _ _ _ _ Ha). lia.
Qed.

(** Adding and taking back leaves the locked structures as they were. *)
Lemma union_difference_fresh {A : Type} `{Countable A} (X Y : gset A) :
  (forall x, x ∈ Y -> x ∉ X) -> (X ∪ Y) ∖ Y = X.
Proof.
  intros Hd. apply set_eq. intros x. rewrite elem_of_difference, elem_of_union.
  split; [by intros [[?|?] ?] | intros Hx; split; [by left | intros Hy; by apply (Hd x)]].
Qed.

Lemma route_fee_v3_spec (cs : option ChainView) (h : list Z) (t : Transaction) (m : Mempool) :
  match route_fee_v3 cs h t m with
  | (m', Ok _) => exists hq hc mq mc lq lc, m' = with_queues m hq hc mq mc lq lc
  | (m', Err err) => m' = with_core m (delete h (txs m)) (fee_index m)
                     (pool_nullifiers m ∖ list_to_set (extract_nullifiers t)) /\
                     (err = BelowRequirement \/ err = BelowLowTier)
  end.
Proof.
  unfold route_fee_v3.
  destruct (match rederived_minimum_fee cs m t (extract_tier t) with
            | Some r => extract_fee t <? r | None => false end); [by auto |].
  destruct (price_high m <=? _); [eauto 8 |]. destruct (price_medium m <=? _); [eauto 8 |].
  destruct (price_low m <=? _); [eauto 8 | by auto].
Qed.

(** ** What makes room for a transaction, and what stays *)

Definition is_stale (cfg : MempoolConfig) (now : Z) (e : MempoolEntry) : bool :=
  max_age_secs cfg <=? saturating_sub now (added_at e).

(** [m'] is [m] without some entries that satisfy [P]; the tree, the queues, the
    counters and the prices are as they were. *)
Record shrunk (P : list Z -> MempoolEntry -> Prop) (m m' : Mempool) : Prop := {
  sh_txs : txs m' ⊆ txs m;
  sh_gone : forall h e, txs m !! h = Some e -> txs m' !! h = None -> P h e;
  sh_index : fee_index m' ⊆ fee_index m;
  sh_rest : m' = with_core m (txs m') (fee_index m') (pool_nullifiers m')
}.

Lemma shrunk_refl (P : list Z -> MempoolEntry -> Prop) (m : Mempool) : shrunk P m m.
Proof. constructor; [done | congruence | done | by destruct m]. Qed.

Lemma shrunk_trans (P : list Z -> MempoolEntry -> Prop) (m1 m2 m3 : Mempool) :
  shrunk P m1 m2 -> shrunk P m2 m3 -> shrunk P m1 m3.
Proof.
  intros H1 H2. constructor; [etransitivity; [apply H2 | apply H1] | | etransitivity; [apply H2 | apply H1] |].
  - intros h e He Hn. destruct (txs m2 !! h) as [e'|] eqn:E; [| by apply (sh_gone _ _ _ H1)].
    apply (sh_gone _ _ _ H2 h e); [| done]. rewrite E. rewrite <- He. symmetry. apply (lookup_weaken _ _ _ _ E), H1.
  - rewrite (sh_rest _ _ _ H2) at 1. by rewrite (sh_rest _ _ _ H1).
Qed.

Lemma shrunk_impl (P Q : list Z -> MempoolEntry -> Prop) (m m' : Mempool) :
  (forall h e, P h e -> Q h e) -> shrunk P m m' -> shrunk Q m m'.
Proof. intros HPQ []. constructor; eauto. Qed.

Lemma shrunk_drop (P : list Z -> MempoolEntry -> Prop) (m : Mempool) (h : list Z) (e : MempoolEntry) :
  txs m !! h = Some e -> P h e -> shrunk P m (drop_entry h e m).
Proof.
  intros He HP. constructor; cbn [drop_entry txs fee_index with_core]; [apply delete_subseteq | | set_solver | done].
  intros h' e' He' [-> | Hn]%lookup_delete_None; congruence.
Qed.

(** The single entry a full pool gives up: the last of its fee index, whatever
    the newcomer pays. *)
Definition last_of_full (cfg : MempoolConfig) (m : Mempool) (h : list Z) : Prop :=
  max_size cfg <= Z.of_nat (size (txs m)) /\ snd <$> last (fee_iter (fee_index m)) = Some h.

Lemma make_room_count_shrunk (cfg : MempoolConfig) (rate : Z) (m : Mempool) :
  pool_ok cfg m -> shrunk (fun h _ => last_of_full cfg m h) m (make_room_count cfg rate m).
Proof.
  intros Hm. unfold make_room_count. destruct (Z.leb_spec (max_size cfg) (Z.of_nat (size (txs m)))); [| apply shrunk_refl].
  destruct (last _) as [[r h]|] eqn:El; [| apply shrunk_refl]. destruct (_ || _); [| apply shrunk_refl].
  destruct (txs m !! h) as [e|] eqn:He; [| apply shrunk_refl].
  assert ((r, h) ∈ fee_index m) as Hin by (by apply fee_iter_elem, last_Some_elem_of).
  destruct (ok_index _ _ Hm _ _ Hin) as (e' & Hl & <-). rewrite He in Hl. injection Hl as <-.
  apply (shrunk_drop _ m h e He). split; [done | by rewrite El].
Qed.

Lemma make_room_bytes_shrunk (fuel : nat) (cfg : MempoolConfig) (rate len total : Z) (m : Mempool) :
  shrunk (fun _ e => entry_rate e < rate) m (make_room_bytes fuel cfg rate len total m).1.
Proof.
  revert total m. induction fuel as [|fuel IH]; intros total m; cbn [make_room_bytes]; [apply shrunk_refl |].
  destruct (max_bytes cfg <? _); [| apply shrunk_refl].
  destruct (min_by_rate _) as [[h e]|] eqn:Emin; [| apply shrunk_refl]. apply min_by_rate_lookup in Emin.
  destruct (Z.leb_spec rate (entry_rate e)); [apply shrunk_refl |].
  eapply shrunk_trans; [by apply (shrunk_drop _ m h e) | apply IH].
Qed.

(** Removing listed entries removes them everywhere, the tree included. *)
Lemma remove_all_spec (hs : list (list Z)) (m : Mempool) :
  NoDup hs -> (forall h, h ∈ hs -> is_Some (txs m !! h)) ->
  let m' := fold_left remove_entry hs m in
  txs m' = filter (fun kv => kv.1 ∉ hs) (txs m) /\ fee_index m' ⊆ fee_index m /\
  m' = with_db (with_core m (txs m') (fee_index m') (pool_nullifiers m')) (filter (fun kv => kv.1 ∉ hs) <$> db m).
Proof.
  assert (forall {A} (h : list Z) (hs : list (list Z)) (x : gmap (list Z) A),
    filter (fun kv => kv.1 ∉ hs) (delete h x) = filter (fun kv => kv.1 ∉ h :: hs) x) as Hd.
  { intros A h hs' x. apply map_eq. intros k. apply option_eq. intros v.
    rewrite !map_lookup_filter_Some, lookup_delete_Some, not_elem_of_cons. cbn. naive_solver. }
  revert m. induction hs as [|h hs IH]; intros m Hnd Hin; cbn [fold_left].
  { split_and!; [by rewrite map_filter_id by (intros; apply not_elem_of_nil) | done |].
    destruct m as [? ? ? ? ? ? ? ? ? [d|] ? ? ? ?]; cbn; [| done]. by rewrite map_filter_id by (intros; apply not_elem_of_nil). }
  apply NoDup_cons in Hnd as [Hh Hnd]. destruct (Hin h (list_elem_of_here _ _)) as [e He].
  assert (remove_entry m h = with_db (drop_entry h e m) (delete h <$> db m)) as Er by (unfold remove_entry; by rewrite He).
  destruct (IH (remove_entry m h) Hnd) as (Ht & Hi & Hr).
  { intros k Hk. rewrite Er. cbn [txs with_db drop_entry with_core]. rewrite lookup_delete_ne by (by intros ->).
    apply Hin. by apply list_elem_of_further. }
  set (m' := fold_left remove_entry hs (remove_entry m h)) in *. rewrite Er in Ht, Hi, Hr.
  cbn [txs with_db drop_entry with_core fee_index db] in Ht, Hi. split_and!; [by rewrite Ht, Hd | set_solver |].
  rewrite Hr at 1. unfold drop_entry, with_db, with_core. cbn. f_equal. destruct (db m) as [d|]; cbn; [by rewrite Hd | done].
Qed.

Lemma stale_hashes_elem (cfg : MempoolConfig) (now : Z) (m : Mempool) (h : list Z) :
  h ∈ stale_hashes cfg now m <-> exists e, txs m !! h = Some e /\ is_stale cfg now e = true.
Proof.
  unfold stale_hashes. rewrite list_elem_of_fmap. setoid_rewrite list_elem_of_In. setoid_rewrite filter_In.
  setoid_rewrite <- list_elem_of_In. split.
  - intros ([h' e] & -> & Hin & Hs). rewrite iter_txs_perm in Hin. apply elem_of_map_to_list in Hin. by exists e.
  - intros (e & He & Hs). exists (h, e). split_and!; [done | | done]. rewrite iter_txs_perm. by apply elem_of_map_to_list.
Qed.

Lemma stale_hashes_NoDup (cfg : MempoolConfig) (now : Z) (m : Mempool) : NoDup (stale_hashes cfg now m).
Proof.
  unfold stale_hashes. assert (NoDup (map fst (iter_txs (txs m)))) as Hn by (rewrite iter_txs_perm; apply NoDup_fst_map_to_list).
  induction (iter_txs (txs m)) as [|[h e] l IH]; [constructor |]. cbn [map fst List.filter snd] in *.
  apply NoDup_cons in Hn as [Hh Hn]. destruct (_ <=? _); [| by apply IH]. cbn [map fst]. constructor; [| by apply IH].
  intros Hin. apply Hh. apply list_elem_of_fmap in Hin as (x & -> & Hx). apply list_elem_of_fmap. exists x. split; [done |].
  apply list_elem_of_In in Hx. apply filter_In in Hx as [Hx _]. by apply list_elem_of_In.
Qed.

(** [m'] is what is left of [m] when room was made for a transaction of the rate
    at the time [now]: the stale entries are gone, from the tree too; any other
    entry that is gone paid less than the rate or was the last of the fee index
    of a pool that was full without the stale ones; nothing else changed. *)
Record cleared (cfg : MempoolConfig) (now rate : Z) (m m' : Mempool) : Prop := {
  cl_txs : txs m' ⊆ txs m;
  cl_stale : forall h e, txs m' !! h = Some e -> is_stale cfg now e = false;
  cl_gone : forall h e, txs m !! h = Some e -> txs m' !! h = None ->
    is_stale cfg now e = true \/ entry_rate e < rate \/ last_of_full cfg (evict_stale cfg now m).1 h;
  cl_index : fee_index m' ⊆ fee_index m;
  cl_rest : m' = with_db (with_core m (txs m') (fee_index m') (pool_nullifiers m'))
                   (filter (fun kv => kv.1 ∉ stale_hashes cfg now m) <$> db m)
}.

Lemma evict_stale_cleared (cfg : MempoolConfig) (now rate : Z) (m : Mempool) :
  cleared cfg now rate m (evict_stale cfg now m).1.
Proof.
  destruct (remove_all_spec (stale_hashes cfg now m) m) as (Ht & Hi & Hr).
  { apply stale_hashes_NoDup. }
  { intros h (e & He & _)%stale_hashes_elem. by exists e. }
  change (fold_left remove_entry (stale_hashes cfg now m) m) with (evict_stale cfg now m).1 in *.
  constructor; [rewrite Ht; apply map_filter_subseteq | | | done | done]; intros h e; rewrite Ht.
  - intros [He Hn]%map_lookup_filter_Some. cbn in Hn. apply not_true_is_false. intros Hs. apply Hn, stale_hashes_elem. by exists e.
  - intros He Hn. left. destruct (is_stale cfg now e) eqn:Es; [done |]. rewrite map_lookup_filter_None in Hn.
    destruct Hn as [Hn | Hn]; [congruence |]. destruct (Hn e He). cbn. intros (e' & He' & Hs)%stale_hashes_elem. congruence.
Qed.

Lemma cleared_shrunk (cfg : MempoolConfig) (now rate : Z) (m m1 m2 : Mempool) :
  cleared cfg now rate m m1 -> shrunk (fun h e => entry_rate e < rate \/ last_of_full cfg (evict_stale cfg now m).1 h) m1 m2 ->
  cleared cfg now rate m m2.
Proof.
  intros H1 H2. constructor; [etransitivity; [apply H2 | apply H1] | | | etransitivity; [apply H2 | apply H1] |].
  - intros h e He. apply (cl_stale _ _ _ _ _ H1 h). by eapply lookup_weaken; [| apply H2].
  - intros h e He Hn. destruct (txs m1 !! h) as [e'|] eqn:E; [| by apply (cl_gone _ _ _ _ _ H1)]. right.
    apply (sh_gone _ _ _ H2 h e); [| done]. rewrite E. rewrite <- He. symmetry. apply (lookup_weaken _ _ _ _ E), H1.
  - rewrite (sh_rest _ _ _ H2) at 1. by rewrite (cl_rest _ _ _ _ _ H1).
Qed.

(** [h] is appended to one of the three queues. *)
Definition queued (h : list Z) (m m' : Mempool) : Prop :=
  let q m := (high_queue m, medium_queue m, low_queue m) in
  q m' = (high_queue m ++ [h], medium_queue m, low_queue m) \/
  q m' = (high_queue m, medium_queue m ++ [h], low_queue m) \/
  q m' = (high_queue m, medium_queue m, low_queue m ++ [h]).

Lemma route_queued (cs : option ChainView) (h : list Z) (t : Transaction) (m m' : Mempool) (u : unit) :
  route_fee_v3 cs h t m = (m', Ok u) -> queued h m m'.
Proof.
  unfold route_fee_v3, queued.
  destruct (match rederived_minimum_fee cs m t (extract_tier t) with Some r => extract_fee t <? r | None => false end); [done |].
  destruct (price_high m <=? _); [intros [= <-]; by left |]. destruct (price_medium m <=? _); [intros [= <-]; by right; left |].
  destruct (price_low m <=? _); [intros [= <-]; by right; right | done].
Qed.

(** The entry joined the pool and the tree; a FeeV3 transaction joined a queue,
    another one the fee index. *)
Definition joined (h b : list Z) (e : MempoolEntry) (m m' : Mempool) : Prop :=
  txs m' = <[h := e]> (txs m) /\
  pool_nullifiers m' = pool_nullifiers m ∪ list_to_set (extract_nullifiers (etx e)) /\
  db m' = insert h b <$> db m /\
  if is_fee_v3 (etx e) then fee_index m' = fee_index m /\ queued h m m'
  else fee_index m' = fee_index m ∪ {[ (entry_rate e, h) ]} /\
       (high_queue m', medium_queue m', low_queue m') = (high_queue m, medium_queue m, low_queue m).

Lemma admit_ok (cfg : MempoolConfig) (cs : option ChainView) (h b : list Z) (e : MempoolEntry) (m : Mempool) :
  pool_ok cfg m -> admissible cfg m h e -> to_json (etx e) = Some b ->
  match admit_tx cs h (etx e) e m with
  | (m', Ok h') => h' = h /\ pool_ok cfg m' /\ joined h b e m m'
  | (m', Err err) => m' = m /\ (err = BelowRequirement \/ err = BelowLowTier)
  end.
Proof.
  intros Hm Ha Hb. pose proof (adm_fresh _ _ _ _ Ha) as Hf. unfold admit_tx, joined. rewrite Hb.
  pose proof (union_difference_fresh (fee_index m) {[ (entry_rate e, h) ]}) as Hidx.
  assert ((fee_index m ∪ {[ (entry_rate e, h) ]}) ∖ {[ (entry_rate e, h) ]} = fee_index m) as Hi.
  { apply Hidx. intros x ->%elem_of_singleton. by eapply fresh_index. }
  assert ((pool_nullifiers m ∪ list_to_set (extract_nullifiers (etx e)))
    ∖ list_to_set (extract_nullifiers (etx e)) = pool_nullifiers m) as Hn.
  { apply union_difference_fresh. intros n Hn%elem_of_nfs. by apply (adm_nulls _ _ _ _ Ha). }
  destruct (is_fee_v3 (etx e)) eqn:Ev.
  - cbn [txs fee_index pool_nullifiers with_core]. rewrite Hi.
    set (m2 := with_core _ _ _ _). pose proof (route_fee_v3_spec cs h (etx e) m2) as Hr.
    destruct (route_fee_v3 cs h (etx e) m2) as [m3 [u|err]] eqn:Er.
    + pose proof (route_queued _ _ _ _ _ _ Er) as Hq. destruct Hr as (hq & hc & mq & mc & lq & lc & ->).
      split; [done |]. split; [apply (insert_ok cfg m _ h e); [done | done | done | done | by right | by rewrite Hb] |].
      split_and!; [done | done | cbn; by destruct (db m) | done | exact Hq].
    + destruct Hr as [-> He]. split; [| done]. cbn [txs fee_index pool_nullifiers with_core m2]. rewrite Hn, delete_insert_id by done. by destruct m.
  - split; [done |]. split; [apply (insert_ok cfg m _ h e); [done | done | done | done | by left | by rewrite Hb] |]. split_and!; [done | done | cbn; by destruct (db m) | done | done].
Qed.

(** ** Admission *)

Definition sane_config (cfg : MempoolConfig) : Prop :=
  0 <= max_size cfg /\ 0 <= max_bytes cfg < u64_max.

Lemma not_existsb {A : Type} (P : A -> bool) (l : list A) (x : A) :
  existsb P l = false -> x ∈ l -> P x = false.
Proof.
  intros Hf Hx. destruct (P x) eqn:E; [| done]. rewrite <- Hf. symmetry.
  apply existsb_exists. exists x. by rewrite <- list_elem_of_In.
Qed.

(** A nullifier of a smaller valid pool is one of the larger. *)
Lemma sub_nulls (cfg : MempoolConfig) (m m' : Mempool) (n : list Z) :
  pool_ok cfg m -> pool_ok cfg m' -> txs m' ⊆ txs m -> n ∈ pool_nullifiers m' -> n ∈ pool_nullifiers m.
Proof.
  intros Hm Hm' Hsub Hn. apply (ok_nulls _ _ Hm') in Hn as (h & e & Hl & Hn).
  apply (ok_nulls _ _ Hm). exists h, e. split; [by eapply lookup_weaken | done].
Qed.

Definition newcomer_rate (t : Transaction) : Z := rate_of (extract_fee t) (declare_charge t).

(** What a successful admission guarantees of the pool it left: room was made, and
    the transaction joined what was left under its hash, with nullifiers that are
    neither there nor on chain. *)
Definition admitted (cfg : MempoolConfig) (cs : option ChainView) (t : Transaction) (now : Z)
    (m m' : Mempool) (h : list Z) : Prop :=
  h = tx_hash t /\
  exists left_ b e, cleared cfg now (newcomer_rate t) m left_ /\ txs left_ !! h = None /\
    to_json t = Some b /\ joined h b e left_ m' /\ etx e = t /\ added_at e = now /\ fee e = extract_fee t /\
    forall n, n ∈ extract_nullifiers t ->
      (forall h' e', txs left_ !! h' = Some e' -> n ∉ extract_nullifiers (etx e')) /\
      (forall c, cs = Some c -> has_nullifier c n = false).

(** What a refusal leaves: nothing changed where the transaction was looked at
    alone, the stale entries are gone where it was looked up in the pool, and
    room was made for it where it was weighed against other entries. *)
Definition refused (cfg : MempoolConfig) (t : Transaction) (now : Z) (m m' : Mempool) (err : AdmitError) : Prop :=
  match err with
  | NoContent | CannotMeasure | TooLarge | FeeTooLow | BadDeclaration | ClaimSpends => m' = m
  | AlreadyInMempool | DoubleSpend | DoubleSpendOnChain => m' = (evict_stale cfg now m).1
  | Full | ByteBudget | BelowRequirement | BelowLowTier =>
      cleared cfg now (newcomer_rate t) m m' /\ txs m' !! tx_hash t = None
  end.

Lemma add_locked_ok (cfg : MempoolConfig) (cs : option ChainView) (t : Transaction) (b : list Z)
    (now : Z) (m : Mempool) :
  sane_config cfg -> pool_ok cfg m -> to_json t = Some b ->
  match add_locked cfg cs t (Z.of_nat (length b)) now m with
  | (m', Ok h) => pool_ok cfg m' /\ admitted cfg cs t now m m' h
  | (m', Err err) => pool_ok cfg m' /\ refused cfg t now m m' err
  end.
Proof.
  intros Hcfg Hm Hb. unfold add_locked. fold (newcomer_rate t). set (rate := newcomer_rate t).
  destruct (remove_all_ok cfg (stale_hashes cfg now m) m Hm) as [Hm1 Hsub1].
  change (fold_left remove_entry (stale_hashes cfg now m) m) with (evict_stale cfg now m).1 in *.
  set (m1 := (evict_stale cfg now m).1) in *.
  case_bool_decide as Hpresent; [done |]. apply eq_None_not_Some in Hpresent.
  destruct (existsb _ (extract_nullifiers t)) eqn:Enull; [done |].
  destruct (match cs with Some c => _ | None => false end) eqn:Echain; [done |].
  destruct (make_room_count_ok cfg rate m1 Hm1) as [Hm2 Hsub2].
  assert (cleared cfg now rate m (make_room_count cfg rate m1)) as Hc2.
  { eapply cleared_shrunk; [apply evict_stale_cleared |]. eapply shrunk_impl; [| by apply make_room_count_shrunk]. by right. }
  set (m2 := make_room_count cfg rate m1) in *.
  destruct (Z.leb_spec (max_size cfg) (Z.of_nat (size (txs m2)))) as [_ | Hsize];
    [split; [done | split; [done | by eapply lookup_weaken_None]] |].
  pose proof (make_room_bytes_ok (size (txs m2)) cfg rate (Z.of_nat (length b)) m2 Hm2) as (Hm3 & Hsub3 & Htot).
  assert (cleared cfg now rate m (make_room_bytes (size (txs m2)) cfg rate (Z.of_nat (length b)) (total_bytes (txs m2)) m2).1) as Hc3.
  { eapply cleared_shrunk; [exact Hc2 |]. eapply shrunk_impl; [| apply make_room_bytes_shrunk]. by left. }
  destruct (make_room_bytes _ _ _ _ _ m2) as [m3 total] eqn:Eb. cbn [fst snd] in *.
  assert (txs m3 ⊆ txs m1) as Hsub31 by (by etransitivity).
  assert (txs m3 !! tx_hash t = None) as Hfresh by (by eapply lookup_weaken_None).
  destruct (Z.ltb_spec (max_bytes cfg) (saturating_add 64 total (Z.of_nat (length b)))) as [_ | Hbytes];
    [done |].
  set (e := {| etx := t; added_at := now; fee := extract_fee t; declared_charge := declare_charge t;
               serialized_len := Z.of_nat (length b) |}).
  assert (forall n, n ∈ extract_nullifiers t -> n ∉ pool_nullifiers m3) as Hnulls.
  { intros n Hn Hin. apply (sub_nulls cfg m1 m3) in Hin; [| done..].
    pose proof (not_existsb _ _ n Enull Hn) as Hf. by apply bool_decide_eq_false in Hf. }
  assert (admissible cfg m3 (tx_hash t) e) as Ha.
  { constructor; cbn [etx serialized_len e]; [done | done | done | eauto | lia | |].
    - assert (size (txs m3) <= size (txs m2))%nat by (by apply map_subseteq_size). lia.
    - destruct Hcfg as [_ Hmax]. unfold saturating_add, umax, u64_max in *. lia. }
  pose proof (admit_ok cfg cs (tx_hash t) b e m3 Hm3 Ha Hb) as Hadm. cbn [etx e] in Hadm. fold e.
  destruct (admit_tx cs (tx_hash t) t e m3) as [m' [h'|err]]; [| by destruct Hadm as [-> [-> | ->]]].
  destruct Hadm as (-> & Hok & Hj). split; [done |]. split; [done |].
  exists m3, b, e. split_and!; try done. intros n Hn. split.
  - intros h' e' Hl Hne. apply (Hnulls n Hn), (ok_nulls _ _ Hm3). by exists h', e'.
  - intros c ->. by apply (not_existsb _ _ n Echain).
Qed.

Lemma check_declaration_err (t : Transaction) (err : AdmitError) :
  check_declaration t = Err err -> err = BadDeclaration \/ err = ClaimSpends.
Proof.
  unfold check_declaration. destruct (derive_l1_nullifiers _) as [[derived all_l1]|]; [| intros [= <-]; by left].
  destruct (_ || _); [destruct (negb _); [intros [= <-]; by right | done] |].
  destruct (reconcile_declared _ _ _); [done | intros [= <-]; by left].
Qed.

Lemma add_ok (cfg : MempoolConfig) (cs : option ChainView) (t : Transaction) (now : Z) (m : Mempool) :
  sane_config cfg -> pool_ok cfg m ->
  match add cfg cs t now m with
  | (m', Ok h) => pool_ok cfg m' /\ admitted cfg cs t now m m' h /\ check_declaration t = Ok tt
  | (m', Err err) => pool_ok cfg m' /\ refused cfg t now m m' err
  end.
Proof.
  intros Hcfg Hm. unfold add. destruct (_ && _); [done |].
  destruct (to_json t) as [b|] eqn:Eb; [| done]. destruct (max_tx_size cfg <? _); [done |].
  destruct (_ && _); [done |]. destruct (check_declaration t) as [[]|e] eqn:Ec; [| by destruct (check_declaration_err t e Ec) as [-> | ->]].
  pose proof (add_locked_ok cfg cs t b now m Hcfg Hm Eb) as Ha.
  destruct (add_locked _ _ _ _ _ _) as [m' [h|e]]; [| done]. destruct Ha. done.
Qed.

(** ** The pool as a state machine *)

Inductive step (cfg : MempoolConfig) : Mempool -> Mempool -> Prop :=
| step_add cs t now m : step cfg m (add cfg cs t now m).1
| step_mark_mined hashes m : step cfg m (mark_mined hashes m)
| step_evict_stale now m : step cfg m (evict_stale cfg now m).1
| step_select miner m : step cfg m (select_for_block miner m).1
| step_prices high medium low m : step cfg m (update_tier_prices high medium low m)
| step_rows rows m : step cfg m (update_fee_circuit_rows rows m)
| step_flush m : step cfg m (flush m).1.

Definition reachable (cfg : MempoolConfig) (tree : option Tree) (m : Mempool) : Prop :=
  rtc (step cfg) (Mempool_new cfg tree) m.

Lemma select_queues (miner : MinerConfig) (m : Mempool) :
  exists hq hc mq mc lq lc, (select_for_block miner m).1 = with_queues m hq hc mq mc lq lc.
Proof.
  unfold select_for_block. destruct (drain _ _ _ _ _ _) as [[[hq hc] s1] c1].
  destruct (drain _ _ _ _ _ _) as [[[mq mc] s2] c2]. destruct (drain _ _ _ _ _ _) as [[[lq lc] s3] c3].
  destruct (select_legacy _ _ _ _ _ _). eauto 8.
Qed.

(** Writing back what the tree already has changes nothing. *)
Lemma write_back_same (entries : list (list Z * MempoolEntry)) (d : Tree) :
  (forall h e, (h, e) ∈ entries -> d !! h = to_json (etx e)) -> (write_back entries d).1 = d.
Proof.
  induction entries as [|[h e] entries IH]; intros Hd; [done |]. cbn [write_back].
  pose proof (Hd h e (list_elem_of_here _ _)) as Hh.
  destruct (to_json (etx e)) as [b|]; [| done]. rewrite insert_id by done. apply IH.
  intros h' e' Hin. apply Hd. by apply list_elem_of_further.
Qed.

Lemma flush_ok (cfg : MempoolConfig) (m : Mempool) : pool_ok cfg m -> (flush m).1 = m.
Proof.
  intros Hm. unfold flush. destruct (db m) as [d|] eqn:Ed; [| done].
  pose proof (write_back_same (iter_txs (txs m)) d) as Hw.
  destruct (write_back _ _) as [d' ok]. cbn [fst] in *. rewrite Hw.
  - destruct m. cbn in Ed |- *. by subst.
  - intros h e Hin. rewrite iter_txs_perm in Hin. apply elem_of_map_to_list in Hin.
    by apply (ok_db _ _ Hm d).
Qed.

Lemma new_ok (cfg : MempoolConfig) (tree : option Tree) : sane_config cfg -> pool_ok cfg (Mempool_new cfg tree).
Proof.
  intros [Hs Hb]. constructor; cbn [txs fee_index pool_nullifiers db Mempool_new].
  - done.
  - intros r h Hin. by apply not_elem_of_empty in Hin.
  - done.
  - intros n. split; [by intros Hin%not_elem_of_empty | by intros (h & e & Hl & _)].
  - done.
  - done.
  - done.
  - rewrite map_size_empty. lia.
  - rewrite total_bytes_list, map_to_list_empty. cbn. lia.
Qed.

Lemma step_ok (cfg : MempoolConfig) (m m' : Mempool) :
  sane_config cfg -> pool_ok cfg m -> step cfg m m' -> pool_ok cfg m'.
Proof.
  intros Hcfg Hm Hs. revert Hm.
  destruct Hs as [cs t now m0 | hs m0 | now m0 | miner m0 | ? ? ? m0 | ? m0 | m0]; intros Hm.
  - pose proof (add_ok cfg cs t now m0 Hcfg Hm) as Ha.
    destruct (add cfg cs t now m0) as [m1 [h|e]]; by destruct Ha.
  - by apply remove_all_ok.
  - by apply remove_all_ok.
  - destruct (select_queues miner m0) as (? & ? & ? & ? & ? & ? & ->). by apply with_queues_ok.
  - by apply (pool_ok_ext cfg m0).
  - by apply (pool_ok_ext cfg m0).
  - by rewrite (flush_ok cfg).
Qed.

Lemma reachable_ok (cfg : MempoolConfig) (tree : option Tree) (m : Mempool) :
  sane_config cfg -> reachable cfg tree m -> pool_ok cfg m.
Proof.
  intros Hcfg Hr. unfold reachable in Hr. pose proof (new_ok cfg tree Hcfg) as Hn.
  revert Hn. induction Hr as [m0 | m0 m1 m2 Hs _ IH]; intros Hm; [done |].
  apply IH. by eapply step_ok.
Qed.

(** ** Restart *)

(** Every entry of the tree is a serialized transaction under its hash. *)
Definition tree_ok (d : Tree) : Prop :=
  forall h b, d !! h = Some b -> exists t, to_json t = Some b /\ tx_hash t = h.

Definition db_ok (m : Mempool) : Prop := forall d, db m = Some d -> tree_ok d.

Lemma tree_ok_delete (d : Tree) (h : list Z) : tree_ok d -> tree_ok (delete h d).
Proof. intros Hd h' b [_ Hl]%lookup_delete_Some. by apply Hd. Qed.

Lemma tree_ok_insert (d : Tree) (t : Transaction) (b : list Z) :
  tree_ok d -> to_json t = Some b -> tree_ok (<[tx_hash t := b]> d).
Proof. intros Hd Hb h' b' [[<- <-] | [_ Hl]]%lookup_insert_Some; [by exists t | by apply Hd]. Qed.

Lemma remove_all_db (hs : list (list Z)) (m : Mempool) : db_ok m -> db_ok (fold_left remove_entry hs m).
Proof.
  revert m. induction hs as [|h hs IH]; intros m Hm; [done |]. cbn [fold_left]. apply IH.
  unfold remove_entry. destruct (txs m !! h) as [e|]; [| done]. intros d Hd.
  cbn [db with_db] in Hd. destruct (db m) as [d0|] eqn:E; [| done]. injection Hd as <-.
  by apply tree_ok_delete, Hm.
Qed.

Lemma make_room_count_db (cfg : MempoolConfig) (rate : Z) (m : Mempool) :
  db (make_room_count cfg rate m) = db m.
Proof.
  unfold make_room_count. destruct (_ <=? _); [| done]. destruct (last _) as [[r h]|]; [| done].
  destruct (_ || _); [| done]. by destruct (txs m !! h).
Qed.

Lemma make_room_bytes_db (fuel : nat) (cfg : MempoolConfig) (rate len total : Z) (m : Mempool) :
  db (make_room_bytes fuel cfg rate len total m).1 = db m.
Proof.
  revert total m. induction fuel as [|fuel IH]; intros total m; [done |]. cbn [make_room_bytes].
  destruct (_ <? _); [| done]. destruct (min_by_rate _) as [[v e]|]; [| done].
  destruct (_ <=? _); [done |]. by rewrite IH.
Qed.

Lemma admit_db (cs : option ChainView) (t : Transaction) (e : MempoolEntry) (m : Mempool) :
  db_ok m -> db_ok (admit_tx cs (tx_hash t) t e m).1.
Proof.
  intros Hm. unfold admit_tx. set (m1 := with_core m _ _ _).
  assert (forall m', db m' = db m -> db_ok (with_db m' (match db m', to_json t with
    | Some d, Some b => Some (<[tx_hash t := b]> d) | d, _ => d end))) as Hp.
  { intros m' Edb d Hd. cbn [db with_db] in Hd. rewrite Edb in Hd.
    destruct (db m) as [d0|] eqn:E, (to_json t) as [b|] eqn:Eb; try done; injection Hd as <-;
      [by apply tree_ok_insert; [apply Hm |] | by apply Hm]. }
  destruct (is_fee_v3 t); [| by apply Hp]. set (m2 := with_core m1 _ _ _).
  pose proof (route_fee_v3_spec cs (tx_hash t) t m2) as Hr.
  destruct (route_fee_v3 _ _ _ m2) as [m3 [u|err]]; cbn [fst].
  - destruct Hr as (? & ? & ? & ? & ? & ? & ->). by apply Hp.
  - by destruct Hr as [-> _].
Qed.

Lemma add_db (cfg : MempoolConfig) (cs : option ChainView) (t : Transaction) (now : Z) (m : Mempool) :
  db_ok m -> db_ok (add cfg cs t now m).1.
Proof.
  intros Hm. unfold add. destruct (_ && _); [done |]. destruct (to_json t) as [b|]; [| done].
  destruct (_ <? _); [done |]. destruct (_ && _); [done |].
  destruct (check_declaration t); [| done]. unfold add_locked.
  assert (db_ok (evict_stale cfg now m).1) as H1 by (by apply remove_all_db).
  set (m1 := (evict_stale cfg now m).1) in *. case_bool_decide; [done |].
  destruct (existsb _ _); [done |]. destruct (match cs with Some c => _ | None => false end); [done |].
  assert (db_ok (make_room_count cfg (rate_of (extract_fee t) (declare_charge t)) m1)) as H2
    by (intros d; rewrite make_room_count_db; apply H1).
  set (m2 := make_room_count cfg _ m1) in *. destruct (_ <=? _); [done |].
  pose proof (make_room_bytes_db (size (txs m2)) cfg (rate_of (extract_fee t) (declare_charge t))
    (Z.of_nat (length b)) (total_bytes (txs m2)) m2) as H3.
  destruct (make_room_bytes _ _ _ _ _ m2) as [m3 total]. cbn [fst] in H3.
  assert (db_ok m3) as H4 by (intros d; rewrite H3; apply H2).
  destruct (_ <? _); [done |]. by apply admit_db.
Qed.

Lemma step_db (cfg : MempoolConfig) (m m' : Mempool) :
  pool_ok cfg m -> db_ok m -> step cfg m m' -> db_ok m'.
Proof.
  intros Hm Hd Hs. revert Hm Hd.
  destruct Hs as [cs t now m0 | hs m0 | now m0 | miner m0 | ? ? ? m0 | ? m0 | m0]; intros Hm Hd.
  - by apply add_db.
  - by apply remove_all_db.
  - by apply remove_all_db.
  - destruct (select_queues miner m0) as (? & ? & ? & ? & ? & ? & ->). exact Hd.
  - exact Hd.
  - exact Hd.
  - by rewrite (flush_ok cfg).
Qed.

Lemma reachable_db (cfg : MempoolConfig) (tree : option Tree) (m : Mempool) :
  sane_config cfg -> (forall d, tree = Some d -> tree_ok d) -> reachable cfg tree m -> db_ok m.
Proof.
  intros Hcfg Ht Hr. unfold reachable in Hr. pose proof (new_ok cfg tree Hcfg) as Hn.
  assert (db_ok (Mempool_new cfg tree)) as Hd by exact Ht.
  revert Hn Hd. induction Hr as [m0 | m0 m1 m2 Hs _ IH]; intros Hm Hd; [done |].
  apply IH; [by eapply step_ok | by eapply step_db].
Qed.

(** The entry [load] makes of a transaction. *)
Definition reloaded (now : Z) (t : Transaction) (b : list Z) : MempoolEntry := {|
  etx := t; added_at := now; fee := extract_fee t; declared_charge := declare_charge t;
  serialized_len := Z.of_nat (length b) |}.

(** What the read loop leaves, entry by entry. *)
Lemma load_loop_spec (now : Z) (entries : list (list Z * list Z)) (m : Mempool) (d : Tree) :
  (forall h b, (h, b) ∈ entries -> exists t, to_json t = Some b /\ tx_hash t = h) ->
  exists m', load_loop now entries m d = (fold_left (fun d kv => delete kv.1 d) entries d, Some m') /\
    (forall h, (exists b, (h, b) ∈ entries) \/ is_Some (txs m !! h) <-> is_Some (txs m' !! h)) /\
    (forall h e, txs m' !! h = Some e -> txs m !! h = Some e \/
       exists t b, (h, b) ∈ entries /\ to_json t = Some b /\ e = reloaded now t b).
Proof.
  revert m d. induction entries as [|[k b] entries IH]; intros m d Hall.
  - exists m. split; [done |]. split; [| by left]. intros h. split; [| by right].
    intros [[b Hb] | ?]; [by apply not_elem_of_nil in Hb | done].
  - destruct (Hall k b (list_elem_of_here _ _)) as (t & Ht & Hk).
    cbn [load_loop fold_left]. unfold load_entry. rewrite (json_roundtrip _ _ Ht), Hk.
    destruct (IH (with_core m (<[k := reloaded now t b]> (txs m))
        (fee_index m ∪ {[ (entry_rate (reloaded now t b), k) ]})
        (pool_nullifiers m ∪ list_to_set (extract_nullifiers t))) (delete k d))
      as (m' & El & Hdom & Hent).
    { intros h' b' Hin. apply Hall. by apply list_elem_of_further. }
    exists m'. split; [exact El |]. cbn [txs with_core] in Hdom, Hent. split.
    + intros h. rewrite <- Hdom, lookup_insert_is_Some'. setoid_rewrite elem_of_cons.
      split.
      * intros [[b' [Heq | Hin]] | Hs]; [| left; by exists b' | by do 2 right].
        injection Heq as -> ->. right. by left.
      * intros [[b' Hin] | [<- | Hs]]; [left; exists b'; by right | left; exists b; by left | by right].
    + intros h e He. destruct (Hent h e He) as [Hl | (t' & b' & Hin & Hj & ->)].
      * apply lookup_insert_Some in Hl as [[<- <-] | [_ Hl]]; [| by left].
        right. exists t, b. split; [apply list_elem_of_here | done].
      * right. exists t', b'. split; [by apply list_elem_of_further | done].
Qed.

Lemma write_back_ok (entries : list (list Z * MempoolEntry)) (d : Tree) :
  (forall h e, (h, e) ∈ entries -> is_Some (to_json (etx e))) -> (write_back entries d).2 = true.
Proof.
  revert d. induction entries as [|[h e] entries IH]; intros d Hall; [done |]. cbn [write_back].
  destruct (Hall h e (list_elem_of_here _ _)) as [b ->]. apply IH. intros h' e' Hin.
  apply (Hall h' e'). by apply list_elem_of_further.
Qed.

Lemma tree_iter_elem (d : Tree) (h b : list Z) : (h, b) ∈ tree_iter d <-> d !! h = Some b.
Proof. unfold tree_iter. by rewrite merge_sort_Permutation, elem_of_map_to_list. Qed.

(** Loading a well-formed tree succeeds and holds exactly its transactions. *)
Lemma load_spec (d : Tree) (now : Z) :
  tree_ok d ->
  exists d' m', load d now = (d', Some m') /\
    (forall h, is_Some (txs m' !! h) <-> is_Some (d !! h)) /\
    (forall h e, txs m' !! h = Some e ->
       exists b, d !! h = Some b /\ to_json (etx e) = Some b /\ e = reloaded now (etx e) b).
Proof.
  intros Hd. unfold load.
  destruct (load_loop_spec now (tree_iter d) (Mempool_new MempoolConfig_default None) d)
    as (m' & -> & Hdom & Hent); [intros h b Hin%tree_iter_elem; by apply Hd |].
  assert (forall h e, txs m' !! h = Some e ->
    exists b, d !! h = Some b /\ to_json (etx e) = Some b /\ e = reloaded now (etx e) b) as Hent'.
  { intros h e He. destruct (Hent h e He) as [Hl | (t & b & Hin & Hj & ->)]; [done |].
    exists b. by apply tree_iter_elem in Hin. }
  pose proof (write_back_ok (iter_txs (txs m')) (fold_left (fun d kv => delete kv.1 d) (tree_iter d) d))
    as Hw.
  destruct (write_back _ _) as [d' ok]. cbn [snd] in Hw. rewrite Hw.
  - exists d', (with_db m' (Some d')). split_and!; [done | | exact Hent'].
    intros h. cbn [txs with_db]. rewrite <- Hdom. split.
    + intros [[b Hb%tree_iter_elem] | Hs]; [by exists b | by destruct Hs].
    + intros [b Hb]. left. exists b. by apply tree_iter_elem.
  - intros h e Hin. rewrite iter_txs_perm in Hin. apply elem_of_map_to_list in Hin.
    destruct (Hent' h e Hin) as (b & _ & -> & _). by exists b.
Qed.

(** ** Block selection *)

Definition sum_charges (es : list MempoolEntry) : Z := foldr Z.add 0 (map declared_charge es).

Definition charges_nonneg (t : gmap (list Z) MempoolEntry) : Prop :=
  forall h e, t !! h = Some e -> 0 <= declared_charge e.

Lemma sum_charges_app (l1 l2 : list MempoolEntry) :
  sum_charges (l1 ++ l2) = sum_charges l1 + sum_charges l2.
Proof. unfold sum_charges. induction l1 as [|e l1 IH]; cbn; lia. Qed.

(** The running totals of a selection: [es] are the entries behind [selected]. *)
Record selection (t : gmap (list Z) MempoolEntry) (cfg : MinerConfig) (es : list MempoolEntry)
    (selected : list Transaction) (charge : Z) : Prop := {
  sel_txs : selected = map etx es;
  sel_count : Z.of_nat (length selected) <= max_txs cfg;
  sel_charge : 0 <= sum_charges es <= charge;
  sel_limit : charge <= max_charge cfg
}.

(** One more entry that fits, charged [gas]. *)
Lemma selection_snoc (t : gmap (list Z) MempoolEntry) (cfg : MinerConfig) es selected charge h e gas :
  max_charge cfg < u64_max -> charges_nonneg t -> t !! h = Some e ->
  declared_charge e <= gas ->
  selection t cfg es selected charge ->
  (max_charge cfg <? saturating_add 64 charge gas) = false ->
  (max_txs cfg <=? Z.of_nat (length selected)) = false ->
  selection t cfg (es ++ [e]) (selected ++ [etx e]) (saturating_add 64 charge gas).
Proof.
  intros Hmax Hnn He Hgas [Htx Hc Hs Hl] Hfit%Z.ltb_ge Hroom%Z.leb_gt. pose proof (Hnn _ _ He).
  unfold saturating_add, umax, u64_max in *.
  constructor; rewrite ?Htx, ?length_app, ?map_app, ?sum_charges_app, ?Htx in *; cbn in *; try done; try lia.
Qed.

(** A drain takes a prefix of the queue, and stops only at a live entry that
    does not fit. *)
Lemma drain_spec (t : gmap (list Z) MempoolEntry) (cfg : MinerConfig) queue count es selected charge :
  max_charge cfg < u64_max -> charges_nonneg t -> selection t cfg es selected charge ->
  match drain t cfg queue count selected charge with
  | (queue', _, selected', charge') =>
      exists gone, queue = gone ++ queue' /\
        selection t cfg (es ++ omap (t !!.) gone) selected' charge'
  end.
Proof.
  intros Hmax Hnn. revert count es selected charge.
  induction queue as [|h queue IH]; intros count es selected charge Hsel; cbn [drain].
  - exists []. split; [done |]. cbn. by rewrite app_nil_r.
  - destruct (t !! h) as [e|] eqn:He.
    + destruct (_ <? _) eqn:Hfit; cbn [orb]; [exists []; split; [done | cbn; by rewrite app_nil_r] |].
      destruct (_ <=? _) eqn:Hroom; [exists []; split; [done | cbn; by rewrite app_nil_r] |].
      pose proof (selection_snoc t cfg es selected charge h e _ Hmax Hnn He (Z.le_max_l _ 1) Hsel Hfit Hroom) as Hs.
      specialize (IH (wrap 64 (count - 1)) _ _ _ Hs).
      destruct (drain _ _ _ _ _ _) as [[[q' c'] s'] ch']. destruct IH as (gone & -> & Hs').
      exists (h :: gone). split; [done |]. cbn [omap list_omap]. rewrite He.
      by rewrite <- app_assoc in Hs'.
    + specialize (IH count _ _ _ Hsel). destruct (drain _ _ _ _ _ _) as [[[q' c'] s'] ch'].
      destruct IH as (gone & -> & Hs'). exists (h :: gone). split; [done |].
      cbn [omap list_omap]. by rewrite He.
Qed.

(** The legacy part: entries of the fee index in its order, none below the cutoff. *)
Lemma select_legacy_spec (t : gmap (list Z) MempoolEntry) (cfg : MinerConfig) cutoff index es selected charge :
  max_charge cfg < u64_max -> charges_nonneg t -> selection t cfg es selected charge ->
  match select_legacy t cfg cutoff index selected charge with
  | (selected', charge') =>
      exists picked, picked `sublist_of` index /\
        (forall r h c, (r, h) ∈ picked -> cutoff = Some c -> c <= r) /\
        selection t cfg (es ++ omap (t !!.) (map snd picked)) selected' charge'
  end.
Proof.
  intros Hmax Hnn. revert es selected charge.
  induction index as [|[r h] index IH]; intros es selected charge Hsel; cbn [select_legacy].
  - exists []. split_and!; [done | by intros ? ? ? ?%not_elem_of_nil | cbn; by rewrite app_nil_r].
  - assert (forall es selected charge, selection t cfg es selected charge ->
      match select_legacy t cfg cutoff index selected charge with
      | (selected', charge') => exists picked, picked `sublist_of` (r, h) :: index /\
          (forall r h c, (r, h) ∈ picked -> cutoff = Some c -> c <= r) /\
          selection t cfg (es ++ omap (t !!.) (map snd picked)) selected' charge' end) as Hskip.
    { intros es0 s0 c0 Hs0. specialize (IH _ _ _ Hs0). destruct (select_legacy _ _ _ _ _ _).
      destruct IH as (picked & Hsub & ?). exists picked. split; [by apply sublist_cons | done]. }
    destruct (max_txs cfg <=? _) eqn:Hroom.
    { exists []. split_and!; [apply sublist_nil_l | by intros ? ? ? ?%not_elem_of_nil | cbn; by rewrite app_nil_r]. }
    destruct (match cutoff with Some c => r <? c | None => false end) eqn:Hcut; [by apply Hskip |].
    destruct (t !! h) as [e|] eqn:He; [| by apply Hskip].
    destruct (max_charge cfg <? _) eqn:Hfit; [by apply Hskip |].
    pose proof (selection_snoc t cfg es selected charge h e _ Hmax Hnn He (Z.le_refl _) Hsel Hfit Hroom) as Hs.
    specialize (IH _ _ _ Hs). destruct (select_legacy _ _ _ _ _ _) as [s' c'].
    destruct IH as (picked & Hsub & Hcuts & Hs'). exists ((r, h) :: picked). split_and!.
    + by apply sublist_skip.
    + intros r' h' c Hin Hc. apply elem_of_cons in Hin as [[= -> ->] | Hin]; [| by eapply Hcuts].
      rewrite Hc in Hcut. lia.
    + cbn [map snd omap list_omap]. rewrite He. by rewrite <- app_assoc in Hs'.
Qed.

#[local] Instance fee_le_trans : Transitive fee_le.
Proof.
  intros [r1 h1] [r2 h2] [r3 h3]. unfold fee_le. cbn. intros [?|[? ?]] [?|[? ?]]; try (left; lia).
  right. split; [lia | by eapply lex_le_trans].
Qed.

#[local] Instance fee_le_total : Total fee_le.
Proof.
  intros [r1 h1] [r2 h2]. unfold fee_le. cbn. destruct (Z.lt_trichotomy r1 r2) as [?|[->|?]]; [by right; left | | by left; left].
  destruct (lex_le h1 h2) eqn:E; [by left; right |]. right. right. split; [done | by apply lex_le_total].
Qed.

Lemma sublist_sorted {A : Type} (R : A -> A -> Prop) (l1 l2 : list A) :
  l1 `sublist_of` l2 -> StronglySorted R l2 -> StronglySorted R l1.
Proof.
  induction 1 as [| x l1 l2 Hs IH | x l1 l2 Hs IH]; intros Hl; [done | |]; inversion_clear Hl as [|? ? Hl' Hf].
  - constructor; [by apply IH |]. apply Forall_forall. intros y Hy.
    rewrite Forall_forall in Hf. apply Hf. by eapply elem_of_sublist.
  - by apply IH.
Qed.

Lemma fee_iter_sorted (i : gset (Z * list Z)) : StronglySorted fee_le (fee_iter i).
Proof. apply StronglySorted_merge_sort; apply _. Qed.

(** ** Theorems *)

(** C29: The pool invariant holds in every state that a pool that starts empty
    reaches by its operations, a reload from disk excepted ([restart_conflict] is
    a reload that breaks it): entries are filed under their hash, the fee index lists exactly rates of live entries and
    every legacy entry, the nullifier set is the union of the entries' nullifiers,
    no nullifier is spent by two entries, every entry is in the tree, and both the
    count and the byte budget hold. *)
Theorem mempool_invariant (cfg : MempoolConfig) (tree : option Tree) (m : Mempool) :
  sane_config cfg -> reachable cfg tree m -> pool_ok cfg m.
Proof. apply reachable_ok. Qed.

(** C30: [add] on a pool in a reachable state.  A transaction that is admitted has
    a declaration that covers its L1 spends; room is made for it, it is filed under
    its hash beside the entries that stay, in the tree too and in a queue or the fee
    index, and it spends no nullifier of theirs and none confirmed on chain.  A
    refusal for what the transaction is itself changes nothing; one because its
    hash or a nullifier is known leaves the pool without its stale entries; one for
    lack of room or of fee leaves the pool in which room was made, without the
    transaction.  Making room removes the stale entries, from the tree too, and
    besides them only entries of a lower rate and, from a full pool, the last of
    the fee index; queues, prices and the rest of the tree stay as they were.  The
    invariant holds either way. *)
Theorem add_spec (cfg : MempoolConfig) (tree : option Tree) (cs : option ChainView) (t : Transaction)
    (now : Z) (m : Mempool) :
  sane_config cfg -> reachable cfg tree m ->
  match add cfg cs t now m with
  | (m', Ok h) => pool_ok cfg m' /\ admitted cfg cs t now m m' h /\ check_declaration t = Ok tt
  | (m', Err err) => pool_ok cfg m' /\ refused cfg t now m m' err
  end.
Proof. intros Hcfg Hr. apply add_ok; [done |]. by eapply reachable_ok. Qed.

(** Block selection.  Each FIFO queue gives up a prefix; the legacy part is a
    subsequence of the fee index, by descending rate, with no rate below the miner's
    cutoff.  The selection is the live entries of these, in that order, and stays
    within the transaction and charge limits of the block.  No entry leaves the
    pool. *)
Lemma selection_sound (cfg : MinerConfig) (m : Mempool) :
  0 <= max_txs cfg -> 0 <= max_charge cfg < u64_max -> charges_nonneg (txs m) ->
  let '(m', selected) := select_for_block cfg m in
  txs m' = txs m /\
  exists high medium low legacy,
    high_queue m = high ++ high_queue m' /\ medium_queue m = medium ++ medium_queue m' /\
    low_queue m = low ++ low_queue m' /\
    legacy `sublist_of` fee_iter (fee_index m) /\ StronglySorted fee_le legacy /\
    (forall r h c, (r, h) ∈ legacy -> fee_cutoff cfg (fee_iter (fee_index m)) = Some c -> c <= r) /\
    let es := omap (txs m !!.) (high ++ medium ++ low ++ map snd legacy) in
    selected = map etx es /\ Z.of_nat (length selected) <= max_txs cfg /\
    sum_charges es <= max_charge cfg.
Proof.
  intros Htx [Hc0 Hmax] Hnn. unfold select_for_block.
  assert (selection (txs m) cfg [] [] 0) as S0 by (constructor; cbn; lia || done).
  pose proof (drain_spec (txs m) cfg (high_queue m) (high_queue_count m) [] [] 0 Hmax Hnn S0) as S1.
  destruct (drain _ _ _ _ [] 0) as [[[hq hc] s1] c1]. destruct S1 as (high & Eh & S1).
  pose proof (drain_spec (txs m) cfg (medium_queue m) (medium_queue_count m) _ s1 c1 Hmax Hnn S1) as S2.
  destruct (drain _ _ _ _ s1 c1) as [[[mq mc] s2] c2]. destruct S2 as (medium & Em & S2).
  pose proof (drain_spec (txs m) cfg (low_queue m) (low_queue_count m) _ s2 c2 Hmax Hnn S2) as S3.
  destruct (drain _ _ _ _ s2 c2) as [[[lq lc] s3] c3]. destruct S3 as (low & El & S3).
  pose proof (select_legacy_spec (txs m) cfg (fee_cutoff cfg (fee_iter (fee_index m)))
    (fee_iter (fee_index m)) _ s3 c3 Hmax Hnn S3) as S4.
  destruct (select_legacy _ _ _ _ s3 c3) as [s4 c4]. destruct S4 as (legacy & Hsub & Hcut & S4).
  split; [done |]. exists high, medium, low, legacy.
  cbn [high_queue medium_queue low_queue with_queues].
  assert (([] ++ omap (txs m !!.) high) ++ omap (txs m !!.) medium ++ omap (txs m !!.) low ++
    omap (txs m !!.) (map snd legacy) = omap (txs m !!.) (high ++ medium ++ low ++ map snd legacy)) as Eo
    by (rewrite !omap_app; done).
  rewrite <- !app_assoc in S4. rewrite <- !app_assoc in Eo. rewrite Eo in S4.
  destruct S4 as [E1 E2 E3 E4]. split_and!; try done; [| lia].
  by eapply sublist_sorted, fee_iter_sorted.
Qed.

(** Restart.  Reloading the tree of a pool in a reachable state succeeds, and
    every transaction the pool held is in the reloaded pool under the same hash,
    with its fee and charge measured again. *)
Lemma restart_recovers (cfg : MempoolConfig) (tree : option Tree) (m : Mempool) (d : Tree) (now : Z) :
  sane_config cfg -> (forall d0, tree = Some d0 -> tree_ok d0) -> reachable cfg tree m ->
  db m = Some d ->
  exists d' m', load d now = (d', Some m') /\
    forall h e, txs m !! h = Some e ->
      exists e', txs m' !! h = Some e' /\ etx e' = etx e /\ added_at e' = now /\
        fee e' = extract_fee (etx e) /\ declared_charge e' = declare_charge (etx e).
Proof.
  intros Hcfg Ht Hr Hd. pose proof (reachable_ok cfg tree m Hcfg Hr) as Hm.
  pose proof (reachable_db cfg tree m Hcfg Ht Hr d Hd) as Htree.
  destruct (load_spec d now Htree) as (d' & m' & El & Hdom & Hent).
  exists d', m'. split; [done |]. intros h e He. pose proof (ok_db _ _ Hm d h e Hd He) as [Hj [b Hb]].
  rewrite Hb in Hj. destruct (proj2 (Hdom h)) as [e' He']; [by exists b |].
  destruct (Hent h e' He') as (b' & Hl & Hb' & Hre). exists e'.
  assert (etx e' = etx e) as Et by (apply json_roundtrip in Hb, Hb'; congruence).
  rewrite Et in Hre. split_and!; [done | done | by rewrite Hre ..].
Qed.
End mempool.

(** ** Concrete pools *)

#[global] Instance TxInput_eq_dec : EqDecision TxInput.
Proof. solve_decision. Defined.
#[global] Instance TxOutput_eq_dec : EqDecision TxOutput.
Proof. solve_decision. Defined.
#[global] Instance ContractCall_eq_dec : EqDecision ContractCall.
Proof. solve_decision. Defined.
#[global] Instance Transaction_eq_dec : EqDecision Transaction.
Proof. solve_decision. Defined.

(** The storage codec stands for JSON, on the transactions it carries. *)
Definition toy_read (b : list Z) : option Transaction :=
  match deserialize (@Transaction_codec toy) b with Ok t => Some t | Err _ => None end.
Definition toy_write (t : Transaction) : option (list Z) :=
  let b := serialize (@Transaction_codec toy) t in
  if bool_decide (toy_read b = Some t) then Some b else None.

Lemma toy_json_roundtrip (t : Transaction) (b : list Z) : toy_write t = Some b -> toy_read b = Some t.
Proof. unfold toy_write. case_bool_decide; [| done]. by intros [= <-]. Qed.

#[local] Instance toy_json : Json :=
  {| to_json := toy_write; from_json := toy_read; json_roundtrip := toy_json_roundtrip |}.

(** A FeeV3 fee is read from the call; a legacy one stands in [lock_time]. *)
Definition toy_fee (t : Transaction) : Z :=
  match omap (@as_mass_balance_fee_v3 toy) (contract_calls t) with
  | payload :: _ => match @FeeParamsV3.dec toy payload with Ok p => FeeParamsV3.fee p | Err _ => 0 end
  | [] => lock_time t
  end.

#[local] Instance toy_extractor : FeeSignallingExtractor :=
  {| extract_fee := toy_fee; extract_tier := fun _ => FeeTier.LOW; declare_charge := fun _ => 1000 |}.

#[local] Instance toy_order : HashOrder :=
  {| iter_txs := map_to_list; iter_txs_perm := fun t => Permutation_refl (map_to_list t) |}.

#[local] Existing Instance toy.

Definition fee_params (k : Z) : FeeParamsV3.t := {|
  FeeParamsV3.input := sample_input k; FeeParamsV3.output := sample_output;
  FeeParamsV3.fee := 2000000; FeeParamsV3.tier := FeeTier.MEDIUM;
  FeeParamsV3.fee_value_commit := elem 71; FeeParamsV3.tx_nonce := elem 72 |}.

Definition call_with (selector : Z) (params : CRes (list Z)) : ContractCall := {|
  contract_id := NATIVE_TOKEN_CONTRACT_ID;
  data := selector :: match params with Ok b => b | Err _ => [] end |}.

Definition fee_tx (k : Z) : Transaction := {|
  tx_version := 1; inputs := []; outputs := [];
  contract_calls := [call_with 0x08 (FeeParamsV3.enc (fee_params k))];
  lock_time := 0; nullifiers := [elem k]; witness := [] |}.

Definition spend_tx (k nonce legacy_fee : Z) : Transaction := {|
  tx_version := 1; inputs := []; outputs := [];
  contract_calls := [call_with 0x03 (TransferParamsV1.enc {|
    TransferParamsV1.inputs := [sample_input k]; TransferParamsV1.outputs := [sample_output];
    TransferParamsV1.tx_nonce := elem nonce |})];
  lock_time := legacy_fee; nullifiers := [elem k]; witness := [] |}.

Definition adds (cfg : MempoolConfig) (l : list (Transaction * Z)) (m : Mempool) : Mempool :=
  fold_left (fun m tn => (add cfg None tn.1 tn.2 m).1) l m.

Lemma adds_reachable (cfg : MempoolConfig) (tree : option Tree) (l : list (Transaction * Z)) (m : Mempool) :
  reachable cfg tree m -> reachable cfg tree (adds cfg l m).
Proof.
  revert m. induction l as [|[t now] l IH]; intros m Hm; [done |]. cbn [adds fold_left].
  apply IH. eapply rtc_r; [exact Hm | constructor].
Qed.

Definition small_config : MempoolConfig := {|
  max_size := 1; max_age_secs := 3600; max_tx_size := 1024 * 1024; max_bytes := 1024 * 1024;
  min_fee := 0; cfg_price_high := 4 * CF_SCALE; cfg_price_medium := 2 * CF_SCALE;
  cfg_price_low := CF_SCALE |}.

Definition sample_miner : MinerConfig := {|
  mode := LowFee; max_charge := 100000000000; max_txs := 250; min_fee_rate := None;
  top_n_pct := None |}.

(** Three admissions into a pool of size one: each evicts the one before. *)
Definition crowded : Mempool :=
  adds small_config [(spend_tx 81 1 100, 0); (spend_tx 90 2 50, 1); (spend_tx 81 3 70, 2)]
    (Mempool_new small_config (Some ∅)).

(** A FeeV3 transaction that went stale and was admitted again. *)
Definition resubmitted : Mempool :=
  adds MempoolConfig_default [(fee_tx 33, 0); (spend_tx 90 2 50, 1); (fee_tx 33, 4000)]
    (Mempool_new MempoolConfig_default None).

Lemma small_config_sane : sane_config small_config.
Proof. split; vm_compute; [discriminate | split; [discriminate | reflexivity]]. Qed.

Lemma default_config_sane : sane_config MempoolConfig_default.
Proof. split; vm_compute; [discriminate | split; [discriminate | reflexivity]]. Qed.

Lemma crowded_reachable : reachable small_config (Some ∅) crowded.
Proof. apply adds_reachable, rtc_refl. Qed.

Lemma resubmitted_reachable : reachable MempoolConfig_default None resubmitted.
Proof. apply adds_reachable, rtc_refl. Qed.

Lemma mempool_invariant_witness : size (txs crowded) = 1%nat /\ pool_ok small_config crowded.
Proof.
  split; [vm_compute; reflexivity |].
  apply (mempool_invariant small_config (Some ∅)); [exact small_config_sane | exact crowded_reachable].
Defined.

Lemma add_spec_witness :
  match add small_config None (fee_tx 44) 3 crowded with
  | (m', Ok h) => pool_ok small_config m' /\ admitted small_config None (fee_tx 44) 3 crowded m' h /\
      check_declaration (fee_tx 44) = Ok tt
  | (_, Err _) => False
  end.
Proof.
  pose proof (add_spec small_config (Some ∅) None (fee_tx 44) 3 crowded small_config_sane
    crowded_reachable) as Ha.
  assert (is_ok (add small_config None (fee_tx 44) 3 crowded).2 = true) as Hok by (vm_compute; reflexivity).
  destruct (add small_config None (fee_tx 44) 3 crowded) as [m' [h|e]]; [exact Ha | discriminate Hok].
Defined.

Lemma charges_check (t : gmap (list Z) MempoolEntry) :
  forallb (fun he : list Z * MempoolEntry => 0 <=? declared_charge he.2) (map_to_list t) = true ->
  charges_nonneg t.
Proof.
  intros Ht h e He. rewrite forallb_forall in Ht. apply elem_of_map_to_list, list_elem_of_In in He.
  specialize (Ht _ He). cbn in Ht. lia.
Qed.

Lemma selection_sound_witness :
  let '(m', selected) := select_for_block sample_miner resubmitted in
  txs m' = txs resubmitted /\
  exists high medium low legacy,
    high_queue resubmitted = high ++ high_queue m' /\
    medium_queue resubmitted = medium ++ medium_queue m' /\
    low_queue resubmitted = low ++ low_queue m' /\
    legacy `sublist_of` fee_iter (fee_index resubmitted) /\ StronglySorted fee_le legacy /\
    (forall r h c, (r, h) ∈ legacy ->
       fee_cutoff sample_miner (fee_iter (fee_index resubmitted)) = Some c -> c <= r) /\
    let es := omap (txs resubmitted !!.) (high ++ medium ++ low ++ map snd legacy) in
    selected = map etx es /\ Z.of_nat (length selected) <= max_txs sample_miner /\
    sum_charges es <= max_charge sample_miner.
Proof.
  apply (selection_sound sample_miner resubmitted).
  - vm_compute. discriminate.
  - split; vm_compute; [discriminate | reflexivity].
  - apply charges_check. vm_compute. reflexivity.
Defined.

Lemma restart_recovers_witness :
  exists d d' m', db crowded = Some d /\ load d 9 = (d', Some m') /\
    forall h e, txs crowded !! h = Some e ->
      exists e', txs m' !! h = Some e' /\ etx e' = etx e /\ added_at e' = 9 /\
        fee e' = extract_fee (etx e) /\ declared_charge e' = declare_charge (etx e).
Proof.
  assert (bool_decide (is_Some (db crowded)) = true) as Hs by (vm_compute; reflexivity).
  apply bool_decide_eq_true in Hs as [d Hd].
  destruct (restart_recovers small_config (Some ∅) crowded d 9) as (d' & m' & Hl & Hall).
  - exact small_config_sane.
  - intros d0 [= <-] h b Hb. by rewrite lookup_empty in Hb.
  - exact crowded_reachable.
  - exact Hd.
  - exists d, d', m'. exact (conj Hd (conj Hl Hall)).
Defined.

(** The tree can hold more than the pool does: a transaction evicted for room
    stays in it.  A reachable pool can therefore reload into one that breaks the
    invariant: two transactions that spend the same nullifier are both in it. *)
Lemma restart_conflict :
  exists m d d' m' h1 e1 h2 e2 n,
    reachable small_config (Some ∅) m /\ db m = Some d /\ load d 9 = (d', Some m') /\ h1 <> h2 /\
    txs m' !! h1 = Some e1 /\ txs m' !! h2 = Some e2 /\
    n ∈ extract_nullifiers (etx e1) /\ n ∈ extract_nullifiers (etx e2).
Proof.
  assert (match db crowded with
    | Some d => match load d 9 with
        | (_, Some m') =>
            bool_decide (tx_hash (spend_tx 81 1 100) <> tx_hash (spend_tx 81 3 70)) &&
            bool_decide ((etx <$> txs m' !! tx_hash (spend_tx 81 1 100)) = Some (spend_tx 81 1 100)) &&
            bool_decide ((etx <$> txs m' !! tx_hash (spend_tx 81 3 70)) = Some (spend_tx 81 3 70))
        | _ => false end
    | None => false end = true) as Hrun by (vm_compute; reflexivity).
  destruct (db crowded) as [d|] eqn:Hd; [| discriminate Hrun].
  destruct (load d 9) as [d' [m'|]] eqn:Hl; [| discriminate Hrun].
  apply andb_prop in Hrun as [[Hne H1]%andb_prop H2].
  apply bool_decide_eq_true in Hne, H1, H2.
  apply fmap_Some in H1 as (e1 & He1 & E1). apply fmap_Some in H2 as (e2 & He2 & E2).
  exists crowded, d, d', m', (tx_hash (spend_tx 81 1 100)), e1, (tx_hash (spend_tx 81 3 70)), e2, (elem 81).
  refine (conj crowded_reachable (conj Hd (conj Hl (conj Hne (conj He1 (conj He2 (conj _ _))))))).
  - rewrite <- E1. apply list_elem_of_In. vm_compute. left. reflexivity.
  - rewrite <- E2. apply list_elem_of_In. vm_compute. left. reflexivity.
Qed.

(** Eviction leaves the hash of a FeeV3 transaction in its queue.  A
    transaction that went stale and came back is in the queue twice: one selection
    returns it twice, and the next returns it not at all, although it is still in
    the pool. *)
Lemma selection_can_repeat :
  exists m, reachable MempoolConfig_default None m /\
    let '(m', selected) := select_for_block sample_miner m in
    selected = [fee_tx 33; fee_tx 33] /\
    (select_for_block sample_miner m').2 = [] /\
    is_Some (txs m' !! tx_hash (fee_tx 33)).
Proof.
  exists resubmitted. split; [exact resubmitted_reachable |].
  destruct (select_for_block sample_miner resubmitted) as [m' selected] eqn:E.
  assert (m' = (select_for_block sample_miner resubmitted).1) as -> by (by rewrite E).
  assert (selected = (select_for_block sample_miner resubmitted).2) as -> by (by rewrite E).
  split_and!; [vm_compute; reflexivity | vm_compute; reflexivity | vm_compute; eexists; reflexivity].
Qed.
