(* ===== verification/Validation.v ===== *)
(** * Pure block validation ([src/linear/src/validation.rs])

    The header, timestamp, uncle and structure checks, each a function from
    data to [Ok tt] or the first error, in the source's order.  The Monero proof
    predicates are parameters. *)

From Stdlib Require Import String.
From stdpp Require Import sorting.
From S2P Require Import Prelude Units Emission Serial Externals Transaction Merkle Block.
From S2P Require Import Store Consensus NativeToken.

(** ** Counting *)

Definition count {A : Type} (f : A -> bool) (l : list A) : Z := Z.of_nat (List.length (List.filter f l)).

Lemma count_cons {A : Type} (f : A -> bool) (x : A) (l : list A) :
  count f (x :: l) = (if f x then 1 else 0) + count f l.
Proof. unfold count. cbn [List.filter]. destruct (f x); cbn [List.length]; lia. Qed.

Lemma count_app {A : Type} (f : A -> bool) (l1 l2 : list A) :
  count f (l1 ++ l2) = count f l1 + count f l2.
Proof. unfold count. rewrite List.filter_app, length_app. lia. Qed.

Lemma count_bounds {A : Type} (f : A -> bool) (l : list A) :
  0 <= count f l <= Z.of_nat (List.length l).
Proof.
  induction l as [|x l IH]; [done |]. rewrite count_cons. cbn [List.length]. destruct (f x); lia.
Qed.

Lemma count_all {A : Type} (f : A -> bool) (l : list A) :
  (forall x, x ∈ l -> f x = true) -> count f l = Z.of_nat (List.length l).
Proof.
  induction l as [|x l IH]; intros Hf; [done |]. rewrite count_cons, IH by set_solver.
  rewrite Hf by set_solver. cbn [List.length]. lia.
Qed.

Lemma count_zero {A : Type} (f : A -> bool) (l : list A) :
  count f l = 0 <-> forall x, x ∈ l -> f x = false.
Proof.
  induction l as [|x l IH]; [split; [set_solver | done] |]. rewrite count_cons.
  pose proof (count_bounds f l). split.
  - destruct (f x) eqn:E; [lia |]. intros Hc y Hy.
    apply elem_of_cons in Hy as [-> | Hy]; [done |]. apply IH; [lia | done].
  - intros Hf. rewrite Hf by set_solver. apply IH. set_solver.
Qed.

Lemma count_perm {A : Type} (f : A -> bool) (l1 l2 : list A) :
  l1 ≡ₚ l2 -> count f l1 = count f l2.
Proof.
  induction 1 as [| x l1 l2 _ IH | x y l | l1 l2 l3 _ IH1 _ IH2]; rewrite ?count_cons; lia || done.
Qed.

(** ** Proof of work and headers *)

Section header_check.
Context `{Externals}.

(** [MoneroPowData::is_coinbase_valid_merkle_root], [verify_aux_pow_binding]
    and [MoneroPowData::block_hash]. *)
Variable coinbase_merkle_ok : MoneroPowData -> bool.
Variable aux_pow_binding : Block -> MoneroPowData -> Res unit.
Variable monero_block_hash : MoneroPowData -> list Z.

Definition check_pow_stage (b : Block) (block_hash : list Z) : Res unit :=
  match pow_source (header b) with
  | Monero d =>
      if negb (coinbase_merkle_ok d) then Err (BlockIsInvalid "Monero coinbase Merkle proof invalid")
      else
        let? _ := aux_pow_binding b d in
        let claimed := anchor_monero_hash (header b) in
        if negb (bool_decide (claimed = zero32)) && negb (bool_decide (claimed = monero_block_hash d))
        then Err (BlockIsInvalid "Monero anchor hash does not match the block's own proof")
        else Ok tt
  | Native =>
      if negb (BlockTarget.hash_is_valid (target (header b)) (hash_u32 block_hash))
      then Err (InvalidPoW block_hash)
      else Ok tt
  end.

Definition check_block_header (b : Block) (vm_key : list Z) (expected_target current_height : Z)
    (previous_hash : option (list Z)) : Res unit :=
  if negb (version (header b) =? BlockVersion_CURRENT)
  then Err (BlockIsInvalid "unsupported block version")
  else
    let? block_hash := hash_with_vm (header b) vm_key in
    let? _ := check_pow_stage b block_hash in
    if negb (height (header b) =? BlockHeight.succ current_height)
    then Err (HeightDiscontinuity (BlockHeight.succ current_height) (height (header b)))
    else if match previous_hash with
            | Some prev => negb (bool_decide (previous (header b) = prev))
            | None => false
            end
    then Err (InvalidPreviousHash block_hash)
    else if negb (verify_merkle_root b) then Err (MerkleRootMismatch block_hash)
    else if negb (target (header b) =? expected_target)
    then Err (InvalidTarget (target (header b)) expected_target (height (header b)))
    else Ok tt.

(** What an accepted header guarantees, and all it asks for. *)
Definition header_valid (b : Block) (vm_key : list Z) (expected_target current_height : Z)
    (previous_hash : option (list Z)) : Prop :=
  version (header b) = BlockVersion_CURRENT /\
  (exists hash, hash_with_vm (header b) vm_key = Ok hash /\
     match pow_source (header b) with
     | Native => hash_u32 hash <= target (header b)
     | Monero d => coinbase_merkle_ok d = true /\ aux_pow_binding b d = Ok tt /\
         (anchor_monero_hash (header b) = zero32 \/
          anchor_monero_hash (header b) = monero_block_hash d)
     end) /\
  height (header b) = BlockHeight.succ current_height /\
  (forall prev, previous_hash = Some prev -> previous (header b) = prev) /\
  compute_merkle_root (transactions b) = merkle_root (header b) /\
  target (header b) = expected_target.

Lemma check_pow_stage_spec (b : Block) (hash : list Z) :
  check_pow_stage b hash = Ok tt <->
  match pow_source (header b) with
  | Native => hash_u32 hash <= target (header b)
  | Monero d => coinbase_merkle_ok d = true /\ aux_pow_binding b d = Ok tt /\
      (anchor_monero_hash (header b) = zero32 \/
       anchor_monero_hash (header b) = monero_block_hash d)
  end.
Proof.
  unfold check_pow_stage, BlockTarget.hash_is_valid, BlockTarget.reached.
  destruct (pow_source (header b)) as [|d].
  - destruct (_ <=? _) eqn:E; cbn [negb]; split; done || lia.
  - destruct (coinbase_merkle_ok d); cbn [negb]; [| naive_solver].
    destruct (aux_pow_binding b d) as [[]|]; [| naive_solver].
    repeat case_bool_decide; cbn [negb andb]; naive_solver.
Qed.

Lemma check_block_header_iff (b : Block) (vm_key : list Z)
    (expected_target current_height : Z) (previous_hash : option (list Z)) :
  check_block_header b vm_key expected_target current_height previous_hash = Ok tt <->
  header_valid b vm_key expected_target current_height previous_hash.
Proof.
  unfold check_block_header, header_valid.
  destruct (version (header b) =? _) eqn:Ev; cbn [negb]; [| split; [done | intros [? _]; lia]].
  destruct (hash_with_vm (header b) vm_key) as [hash|e] eqn:Eh; [| split; [done |]; naive_solver].
  pose proof (check_pow_stage_spec b hash) as Hp.
  destruct (check_pow_stage b hash) as [[]|e]; [| naive_solver].
  destruct (height (header b) =? _) eqn:Eht; cbn [negb]; [| split; [done | intros (_ & _ & ? & _); lia]].
  unfold verify_merkle_root.
  destruct (match previous_hash with Some prev => negb (bool_decide (previous (header b) = prev))
            | None => false end) eqn:Ep.
  { split; [done |]. intros (_ & _ & _ & Hprev & _). destruct previous_hash; [| done].
    rewrite bool_decide_true in Ep; [done | by apply Hprev]. }
  destruct (bool_decide_reflect (compute_merkle_root (transactions b) = merkle_root (header b)));
    cbn [negb]; [| naive_solver].
  destruct (target (header b) =? expected_target) eqn:Et; cbn [negb];
    [| split; [done | intros (_ & _ & _ & _ & _ & ?); lia]].
  split; [intros _ | done]. split_and!; [lia | exists hash; naive_solver | lia | | done | lia].
  intros prev ->. by apply negb_false_iff, bool_decide_eq_true in Ep.
Qed.

(** A header is accepted exactly when it has the current version, its hash
    under the given key carries enough work for its own declared target (or it
    carries a valid Monero proof bound to it), its height is the successor of
    the tip's, it names the tip as its parent, its Merkle root is that of its
    transactions, and the declared target is the one consensus requires. *)
Lemma check_block_header_spec (b : Block) (vm_key : list Z)
    (expected_target current_height : Z) (previous_hash : option (list Z)) :
  check_block_header b vm_key expected_target current_height previous_hash = Ok tt <->
  header_valid b vm_key expected_target current_height previous_hash.
Proof. apply check_block_header_iff. Qed.

End header_check.

(** ** Timestamps *)

(** [sorted[sorted.len() / 2]]; the slice is not empty here. *)
Definition median (ts : list Z) : Z :=
  default 0 (merge_sort Z.le ts !! (List.length ts / 2)%nat).

Definition check_block_timestamp (ts h : Z) (recent : list Z) : Res unit :=
  if (BlockHeight.GENESIS <? h) && negb (bool_decide (recent = [])) then
    if ts <=? median recent
    then Err (InvalidTimestamp ts "timestamp must be above the median")
    else Ok tt
  else Ok tt.

Definition MAX_FUTURE_SECS : Z := 2 * 60 * 60.

Definition check_future_timestamp (ts local_now max_future_secs : Z) : Res unit :=
  let bound := saturating_add 64 local_now max_future_secs in
  if bound <? ts then Err (InvalidTimestamp ts "too far ahead of the local clock") else Ok tt.

Definition earlier (x : Z) (l : list Z) : Z := count (fun y => y <? x) l.

Lemma earlier_sorted (l : list Z) (k : nat) (m x : Z) :
  StronglySorted Z.le l -> l !! k = Some m ->
  (m < x -> Z.of_nat k < earlier x l) /\ (x <= m -> earlier x l <= Z.of_nat k).
Proof.
  intros Hs Hm. apply list_elem_of_split_length in Hm as (l1 & l2 & -> & ->).
  apply StronglySorted_app in Hs as (Hle & _ & Hs2).
  apply StronglySorted_cons in Hs2 as [Hge _]. rewrite Forall_forall in Hge.
  unfold earlier. rewrite count_app, count_cons. pose proof (count_bounds (fun y => y <? x) l1).
  pose proof (count_bounds (fun y => y <? x) l2). split; intros Hx.
  - rewrite (count_all _ l1).
    + assert (m <? x = true) as -> by lia. lia.
    + intros y Hy. apply Z.ltb_lt. specialize (Hle y m Hy ltac:(set_solver)). lia.
  - assert (m <? x = false) as -> by lia.
    assert (count (fun y => y <? x) l2 = 0) as ->; [| lia].
    apply count_zero. intros y Hy. apply Z.ltb_ge. specialize (Hge y Hy). lia.
Qed.

(** A timestamp is above the median exactly when more than half (rounded down)
    of the timestamps are strictly earlier. *)
Lemma median_majority (ts : list Z) (x : Z) :
  ts <> [] -> median ts < x <-> Z.of_nat (List.length ts / 2) < earlier x ts.
Proof.
  intros Hne. unfold median. pose proof (merge_sort_Permutation Z.le ts) as Hp.
  pose proof (StronglySorted_merge_sort Z.le ts) as Hs.
  assert (List.length ts / 2 < List.length (merge_sort Z.le ts))%nat as Hlt.
  { rewrite Hp. apply Nat.div_lt; [| lia]. destruct ts; [done | cbn; lia]. }
  apply lookup_lt_is_Some_2 in Hlt as [m Hm]. rewrite Hm. cbn [default].
  destruct (earlier_sorted _ _ m x Hs Hm) as [H1 H2].
  unfold earlier in *. rewrite (count_perm _ _ _ Hp) in H1, H2. split; [done |].
  intros Hc. destruct (Z.lt_ge_cases m x) as [Hl | Hl]; [done |]. specialize (H2 Hl). lia.
Qed.

Lemma check_block_timestamp_majority (ts h : Z) (recent : list Z) :
  check_block_timestamp ts h recent = Ok tt <->
  h <= BlockHeight.GENESIS \/ recent = [] \/
  Z.of_nat (List.length recent / 2) < earlier ts recent.
Proof.
  unfold check_block_timestamp. destruct (BlockHeight.GENESIS <? h) eqn:Eh; cbn [andb];
    [| split; [intros _; left; lia | done]].
  case_bool_decide as Hr; cbn [negb]; [split; [by auto | done] |].
  rewrite <- median_majority by done. destruct (ts <=? median recent) eqn:E.
  - split; [done |]. intros [? | [? | ?]]; lia || done.
  - split; [intros _; right; right; lia | done].
Qed.

(** The median rule is a majority rule: after genesis a timestamp is
    accepted exactly when strictly more than half (rounded down) of the recent
    timestamps are strictly earlier than it; it need not exceed its parent's. *)
Lemma check_block_timestamp_spec (ts h : Z) (recent : list Z) :
  check_block_timestamp ts h recent = Ok tt <->
  h <= BlockHeight.GENESIS \/ recent = [] \/
  Z.of_nat (List.length recent / 2) < earlier ts recent.
Proof. apply check_block_timestamp_majority. Qed.

(** A miner's clock that advances one second every six blocks. *)
Definition crawl (t0 : Z) (i : nat) : Z := t0 + Z.of_nat (i / 6).

Lemma crawl_mono (t0 : Z) (i j : nat) : (i <= j)%nat -> crawl t0 i <= crawl t0 j.
Proof. intros Hij. unfold crawl. pose proof (Nat.Div0.div_le_mono i j 6 Hij). lia. Qed.

Lemma crawl_step (t0 : Z) (i : nat) : (6 <= i)%nat -> crawl t0 (i - 6) = crawl t0 i - 1.
Proof.
  intros Hi. unfold crawl. replace i with ((i - 6) + 1 * 6)%nat at 2 by lia.
  rewrite Nat.div_add by lia. lia.
Qed.

Lemma ascending_map (f : nat -> Z) (a n : nat) :
  (forall i j, (i <= j)%nat -> f i <= f j) -> ascending (map f (seq a n)) = true.
Proof.
  intros Hf. revert a. induction n as [|[|n] IH]; intros a; [done | done |].
  cbn [seq map]. rewrite ascending_cons. apply andb_true_iff. split; [apply Z.leb_le, Hf; lia |].
  apply (IH (S a)).
Qed.

Lemma newest_map (f : nat -> Z) (t0 : Z) (a n : nat) :
  newest t0 (map f (seq a (S n))) = f (a + n)%nat.
Proof.
  revert t0 a. induction n as [|n IH]; intros t0 a; [cbn; f_equal; lia |].
  change (newest (f a) (map f (seq (S a) (S n))) = f (a + S n)%nat). rewrite IH. f_equal. lia.
Qed.

Lemma crawl_window (t0 : Z) (i : nat) :
  (19 <= i)%nat ->
  window (map (crawl t0) (seq (i - 19) 20)) = map (crawl t0) (seq (i - 9) 10) /\
  0 < elapsed (map (crawl t0) (seq (i - 9) 10)) < 9.
Proof.
  intros Hi. split.
  - unfold window. rewrite length_map, length_seq. change (20 - Nat.min 20 10)%nat with 10%nat.
    rewrite skipn_map, skipn_seq. change (20 - 10)%nat with 10%nat. do 2 f_equal. lia.
  - assert (elapsed (map (crawl t0) (seq (i - 9) 10)) = crawl t0 i - crawl t0 (i - 9)) as ->.
    { change (map (crawl t0) (seq (i - 9) 10))
        with (crawl t0 (i - 9) :: map (crawl t0) (seq (S (i - 9)) 9)).
      cbn [elapsed]. rewrite (newest_map _ _ (S (i - 9)) 8). do 2 f_equal. lia. }
    pose proof (crawl_step t0 i ltac:(lia)). pose proof (crawl_step t0 (i - 6) ltac:(lia)).
    pose proof (crawl_mono t0 (i - 9) (i - 6) ltac:(lia)).
    pose proof (crawl_mono t0 (i - 6 - 6) (i - 9) ltac:(lia)). lia.
Qed.

(** Six of the eleven timestamps before block [i] are earlier than it. *)
Lemma crawl_majority (t0 : Z) (i : nat) :
  (11 <= i)%nat -> 6 <= earlier (crawl t0 i) (map (crawl t0) (seq (i - 11) 11)).
Proof.
  intros Hi. change 11%nat with (6 + 5)%nat at 2. rewrite seq_app, map_app. unfold earlier.
  rewrite count_app, (count_all _ (map _ (seq (i - 11) 6))).
  - rewrite length_map, length_seq.
    pose proof (count_bounds (fun y => y <? crawl t0 i) (map (crawl t0) (seq (i - 11 + 6) 5))). lia.
  - intros y Hy. apply list_elem_of_fmap in Hy as (j & -> & Hj). apply elem_of_seq in Hj.
    apply Z.ltb_lt. pose proof (crawl_step t0 i ltac:(lia)).
    pose proof (crawl_mono t0 j (i - 6) ltac:(lia)). lia.
Qed.

(** Difficulty can be kept from rising for ever.  A chain whose timestamps
    advance one second every six blocks passes the median rule at every block,
    and every adjustment over its last twenty timestamps leaves the target
    where it was, however fast the blocks really come: the average interval
    rounds down to zero although the window is not all equal. *)
Lemma crawling_clock_freezes_target (t0 h cur tbt mn mx : Z) (i : nat) :
  (19 <= i)%nat -> 0 <= t0 -> t0 + Z.of_nat i < 2 ^ 64 ->
  check_block_timestamp (crawl t0 i) h (map (crawl t0) (seq (i - 11) 11)) = Ok tt /\
  compute_adjustment (map (crawl t0) (seq (i - 19) 20)) cur tbt mn mx = cur /\
  0 < elapsed (window (map (crawl t0) (seq (i - 19) 20))).
Proof.
  intros Hi H0 Hb. destruct (crawl_window t0 i Hi) as [Hw He].
  pose proof (crawl_majority t0 i ltac:(lia)) as Hm. split_and!.
  - apply check_block_timestamp_majority. right. right. rewrite length_map, length_seq.
    change (Z.of_nat (11 / 2)) with 5. lia.
  - rewrite compute_adjustment_window, Hw.
    + rewrite ascending_map by apply crawl_mono. unfold intervals. rewrite length_map, length_seq.
      cbv zeta. by rewrite Z.div_small by (cbn in *; lia).
    + rewrite length_map, length_seq. lia.
    + apply Forall_map, Forall_forall. intros j Hj. apply elem_of_seq in Hj. unfold crawl, is_u.
      pose proof (Nat.Div0.div_le_upper_bound j 6 j ltac:(lia)). lia.
  - rewrite Hw. lia.
Qed.

(** ** Uncles *)

Section uncles_check.
Context `{Externals}.

(** The key of the stored-uncle set: [blake3(dwow_serialize(&header))]. *)
Definition uncle_key (h : BlockHeader) : list Z := blake3 (serialize BlockHeader_codec h).

Definition check_uncle (expected_root : list Z) (current_height base_reward : Z)
    (existing : gset (list Z)) (u : UncleBlock) (proof : UncleProof) (tgt : Z) : Res unit :=
  let key := uncle_key (uncle_header u) in
  let depth := saturating_sub current_height (height (uncle_header u)) in
  if depth =? 0 then Err (BlockIsInvalid "depth 0 is not an uncle")
  else if MAX_UNCLE_DEPTH <? depth
  then Err (UncleTooOld (height (uncle_header u)) current_height MAX_UNCLE_DEPTH)
  else if negb (verify_uncle_proof (uncle_header u) proof expected_root tgt)
  then Err (UncleProofInvalid key)
  else if pin_accepted u &&
          negb (pin_confirmed u =? BlockReward.split_for_uncle base_reward (wrap 8 depth))
  then Err (BlockIsInvalid "the split is derived from depth, not declared")
  else if bool_decide (key ∈ existing) then Err (DuplicateUncle key)
  else Ok tt.

Fixpoint check_uncles_loop (expected_root : list Z) (current_height base_reward : Z)
    (existing : gset (list Z)) (us : list UncleBlock) (proofs : list UncleProof)
    (tgts : list Z) : Res unit :=
  match us, proofs, tgts with
  | u :: us', p :: proofs', t :: tgts' =>
      let? _ := check_uncle expected_root current_height base_reward existing u p t in
      check_uncles_loop expected_root current_height base_reward existing us' proofs' tgts'
  | _, _, _ => Ok tt
  end.

Definition check_uncles (us : list UncleBlock) (proofs : list UncleProof) (expected_root : list Z)
    (current_height : Z) (uncle_targets : list Z) (existing : gset (list Z)) : Res unit :=
  if MAX_UNCLE_COUNT <? Z.of_nat (List.length us)
  then Err (TooManyUncles (Z.of_nat (List.length us)) MAX_UNCLE_COUNT)
  else if negb (List.length uncle_targets =? List.length us)%nat
  then Err (BlockIsInvalid "uncles and targets differ in number")
  else if negb (List.length proofs =? List.length us)%nat
  then Err (BlockIsInvalid "uncles and proofs differ in number")
  else
    check_uncles_loop expected_root current_height (expected_reward current_height) existing
      us proofs uncle_targets.

Definition uncle_depth (current_height : Z) (u : UncleBlock) : Z :=
  current_height - height (uncle_header u).

(** What [check_uncles] establishes of one uncle. *)
Definition uncle_valid (root : list Z) (cur : Z) (existing : gset (list Z)) (u : UncleBlock)
    (p : UncleProof) (t : Z) : Prop :=
  1 <= uncle_depth cur u <= MAX_UNCLE_DEPTH /\
  verify_uncle_proof (uncle_header u) p root t = true /\
  (pin_accepted u = true -> pin_confirmed u = expected_reward cur / 2 ^ uncle_depth cur u) /\
  uncle_key (uncle_header u) ∉ existing.

Lemma check_uncle_spec (root : list Z) (cur : Z) (existing : gset (list Z)) (u : UncleBlock)
    (p : UncleProof) (t : Z) :
  check_uncle root cur (expected_reward cur) existing u p t = Ok tt <->
  uncle_valid root cur existing u p t.
Proof.
  unfold check_uncle, uncle_valid, uncle_depth, MAX_UNCLE_DEPTH, saturating_sub.
  set (d := cur - height (uncle_header u)).
  destruct (Z.max d 0 =? 0) eqn:E0; [split; [done | intros [? _]; lia] |].
  rewrite Z.max_l by lia. destruct (6 <? d) eqn:E6; [split; [done | intros [? _]; lia] |].
  rewrite wrap_small by (unfold is_u; lia). rewrite split_for_uncle_in_range by lia.
  destruct (verify_uncle_proof _ p root t); cbn [negb]; [| naive_solver].
  destruct (pin_accepted u); cbn [andb].
  - destruct (pin_confirmed u =? _) eqn:Ep; cbn [negb].
    + case_bool_decide; [split; [done | naive_solver] |].
      split; [intros _; split_and!; done || (intros; lia) || done | done].
    + split; [done |]. intros (_ & _ & Hp & _). specialize (Hp eq_refl). lia.
  - case_bool_decide; [split; [done | naive_solver] |].
    split; [intros _; split_and!; done || (intros; lia) || done | done].
Qed.

Lemma check_uncles_loop_spec (root : list Z) (cur : Z) (existing : gset (list Z))
    (us : list UncleBlock) (ps : list UncleProof) (ts : list Z) :
  List.length ts = List.length us -> List.length ps = List.length us ->
  check_uncles_loop root cur (expected_reward cur) existing us ps ts = Ok tt <->
  forall i u, us !! i = Some u ->
    exists p t, ps !! i = Some p /\ ts !! i = Some t /\ uncle_valid root cur existing u p t.
Proof.
  revert ps ts. induction us as [|u us IH]; intros [|p ps] [|t ts] Ht Hp; try discriminate.
  { split; [done | done]. }
  cbn [check_uncles_loop]. pose proof (check_uncle_spec root cur existing u p t) as Hu.
  destruct (check_uncle root cur _ existing u p t) as [[]|e].
  - injection Ht as Ht. injection Hp as Hp. rewrite IH by done. split.
    + intros Hall [|i] u' Hu'; [injection Hu' as <-; exists p, t; naive_solver | by apply Hall].
    + intros Hall i u' Hu'. by apply (Hall (S i)).
  - split; [done |]. intros Hall. destruct (Hall 0%nat u eq_refl) as (p' & t' & [= <-] & [= <-] & Hv).
    naive_solver.
Qed.

Lemma check_uncles_ok (us : list UncleBlock) (ps : list UncleProof) (root : list Z) (cur : Z)
    (ts : list Z) (existing : gset (list Z)) :
  check_uncles us ps root cur ts existing = Ok tt <->
  Z.of_nat (List.length us) <= MAX_UNCLE_COUNT /\
  List.length ts = List.length us /\ List.length ps = List.length us /\
  forall i u, us !! i = Some u ->
    exists p t, ps !! i = Some p /\ ts !! i = Some t /\ uncle_valid root cur existing u p t.
Proof.
  unfold check_uncles. destruct (Z.ltb_spec MAX_UNCLE_COUNT (Z.of_nat (List.length us))).
  { split; [done | intros [? _]; lia]. }
  destruct (Nat.eqb_spec (List.length ts) (List.length us)) as [Et|Et]; cbn [negb]; [| naive_solver].
  destruct (Nat.eqb_spec (List.length ps) (List.length us)) as [Ep|Ep]; cbn [negb]; [| naive_solver].
  rewrite check_uncles_loop_spec by done. naive_solver.
Qed.

(** What uncle validation guarantees, and all it checks: at most six
    uncles, each one to six blocks below the referencing block, each with
    enough work (under its own key) for the target in force at its own height
    and a Merkle proof into the block's uncle root, each accepted pin exactly
    the base reward halved once per generation, and none of them stored before
    under the same key. *)
Lemma check_uncles_spec (us : list UncleBlock) (ps : list UncleProof) (root : list Z) (cur : Z)
    (ts : list Z) (existing : gset (list Z)) :
  check_uncles us ps root cur ts existing = Ok tt <->
  Z.of_nat (List.length us) <= MAX_UNCLE_COUNT /\
  List.length ts = List.length us /\ List.length ps = List.length us /\
  forall i u, us !! i = Some u ->
    exists p t, ps !! i = Some p /\ ts !! i = Some t /\ uncle_valid root cur existing u p t.
Proof. apply check_uncles_ok. Qed.

(** ** The pins of one block *)

Definition sum_over {A : Type} (f : A -> Z) (l : list A) : Z := foldr (fun x acc => f x + acc) 0 l.

Lemma sum_over_submseteq {A : Type} (f : A -> Z) (l k : list A) :
  (forall x, 0 <= f x) -> l ⊆+ k -> sum_over f l <= sum_over f k.
Proof.
  intros Hf. induction 1; cbn [sum_over foldr] in *; unfold sum_over in *;
    try (specialize (Hf x)); lia.
Qed.

Definition accepted (us : list UncleBlock) : list UncleBlock := List.filter pin_accepted us.

Lemma pin_sum_accepted (us : list UncleBlock) (cur : Z) :
  (forall u, u ∈ us -> pin_accepted u = true ->
     pin_confirmed u = expected_reward cur / 2 ^ uncle_depth cur u) ->
  pin_sum us = sum_over (fun d => expected_reward cur / 2 ^ d)
                 (map (uncle_depth cur) (accepted us)).
Proof.
  unfold pin_sum, accepted, sum_over. induction us as [|u us IH]; intros Hp; [done |].
  cbn [foldr List.filter]. rewrite IH by set_solver. unfold pin_of at 1.
  destruct (pin_accepted u) eqn:E; cbn [map foldr]; [rewrite Hp by set_solver |]; lia.
Qed.

Lemma expected_reward_nonneg (h : Z) : 0 <= expected_reward h.
Proof.
  unfold expected_reward. destruct (h =? 0); [lia |]. destruct (h =? 1); [by vm_compute |].
  cbv zeta. destruct (_ <=? Reward.TAIL_REWARD) eqn:E; [by vm_compute |].
  unfold Reward.TAIL_REWARD in E. lia.
Qed.

Lemma expected_reward_le_initial (h : Z) : is_u64 h -> expected_reward h <= Reward.INITIAL_REWARD.
Proof.
  intros Hh. destruct (Z.eq_dec h 0) as [-> | Hn]; [by vm_compute |].
  unfold is_u in Hh. apply expected_reward_bounds. lia.
Qed.

(** A half, a quarter, ..., a sixty-fourth, each rounded down. *)
Lemma halvings_sum (base : Z) :
  sum_over (fun d => base / 2 ^ d) [1; 2; 3; 4; 5; 6] <= base - base / 64.
Proof.
  unfold sum_over. cbn [foldr]. change (2 ^ 1) with 2. change (2 ^ 2) with 4.
  change (2 ^ 3) with 8. change (2 ^ 4) with 16. change (2 ^ 5) with 32. change (2 ^ 6) with 64.
  pose proof (Z.mul_div_le base 2 ltac:(lia)). pose proof (Z.mul_div_le base 4 ltac:(lia)).
  pose proof (Z.mul_div_le base 8 ltac:(lia)). pose proof (Z.mul_div_le base 16 ltac:(lia)).
  pose proof (Z.mul_div_le base 32 ltac:(lia)). pose proof (Z.mul_div_le base 64 ltac:(lia)). lia.
Qed.

Lemma expected_reward_u64 (h : Z) : is_u64 h -> expected_reward h < 2 ^ 64.
Proof.
  intros Hh. pose proof (expected_reward_le_initial h Hh). unfold Reward.INITIAL_REWARD in *. lia.
Qed.

(** The pins of a validated block never exceed its reward as long as its
    accepted uncles are of pairwise different depths: the split then succeeds
    and leaves the canonical miner at least one sixty-fourth of the base
    reward, whatever the number of uncles. *)
Lemma uncle_pins_within_reward (us : list UncleBlock) (ps : list UncleProof) (root : list Z)
    (cur : Z) (ts : list Z) (existing : gset (list Z)) :
  is_u64 cur -> check_uncles us ps root cur ts existing = Ok tt ->
  NoDup (map (uncle_depth cur) (accepted us)) ->
  Forall (fun u => is_u64 (pin_confirmed u)) us ->
  exists canonical rewards,
    compute_reward (expected_reward cur) us = Ok (canonical, rewards) /\
    expected_reward cur / 64 <= canonical.
Proof.
  intros Hcur Hc Hnd Hu. apply check_uncles_ok in Hc as (_ & _ & _ & Hall).
  set (base := expected_reward cur) in *. pose proof (expected_reward_nonneg cur) as H0. fold base in H0.
  assert (base < 2 ^ 64) as Hb by (by apply expected_reward_u64).
  assert (pin_sum us <= base - base / 64) as Hsum.
  { rewrite (pin_sum_accepted us cur).
    - transitivity (sum_over (fun d => base / 2 ^ d) [1; 2; 3; 4; 5; 6]).
      + apply sum_over_submseteq.
        * intros d. apply Z_div_nonneg_nonneg; [done |]. by apply Z.pow_nonneg.
        * apply NoDup_submseteq; [done |]. intros d Hd.
          apply list_elem_of_fmap in Hd as (u & -> & Hu').
          apply list_elem_of_In, filter_In in Hu' as [Hin _]. apply list_elem_of_In in Hin.
          apply list_elem_of_lookup in Hin as [i Hi].
          destruct (Hall i u Hi) as (p & t & _ & _ & Hd & _). unfold MAX_UNCLE_DEPTH in Hd.
          rewrite !elem_of_cons. lia.
      + apply halvings_sum.
    - intros u Hu' Ha. apply list_elem_of_lookup in Hu' as [i Hi].
      destruct (Hall i u Hi) as (p & t & _ & _ & _ & _ & Hp & _). auto. }
  destruct (compute_reward_spec base us) as [Hok _].
  - unfold is_u. lia.
  - eapply Forall_impl; [exact Hu |]. by intros u [? _].
  - rewrite Hok by (assert (0 <= base / 64) by (apply Z.div_pos; lia); lia).
    eexists _, _. split; [done | lia].
Qed.

(** An uncle that would be valid on its own. *)
Definition payable (u : UncleBlock) (t cur : Z) : Prop :=
  1 <= uncle_depth cur u <= MAX_UNCLE_DEPTH /\ pow_ok (uncle_header u) t /\
  pin_accepted u = true /\ pin_confirmed u = expected_reward cur / 2 ^ uncle_depth cur u.

(** Uncles that are payable and not stored pass, with the proofs of their own
    tree, whatever their multiplicity. *)
Lemma check_uncles_payable (us : list UncleBlock) (cur t : Z) (existing : gset (list Z)) :
  Z.of_nat (List.length us) <= MAX_UNCLE_COUNT ->
  (forall u, u ∈ us -> payable u t cur /\ uncle_key (uncle_header u) ∉ existing) ->
  check_uncles us (build_uncle_merkle us).2 (build_uncle_merkle us).1 cur
    (replicate (List.length us) t) existing = Ok tt.
Proof.
  intros Hlen Hu. apply check_uncles_ok. rewrite length_replicate. split_and!; [done | done | |].
  - unfold build_uncle_merkle. destruct us; [done |]. cbn [snd]. by rewrite length_map, length_seq.
  - intros i u Hi. pose proof (lookup_lt_Some _ _ _ Hi) as Hlt.
    destruct (Hu u (list_elem_of_lookup_2 _ _ _ Hi)) as [(Hd & Hp & Ha & Hpin) Hk].
    eexists _, t. split; [by apply build_uncle_proof |]. split; [by apply lookup_replicate_2 |].
    split; [done |]. split; [| split; [by intros _ | done]].
    eapply uncle_proof_complete_aux; [| done | done | by apply build_uncle_proof].
    unfold MAX_UNCLE_COUNT in Hlen. lia.
Qed.

(** One uncle can be listed, and paid, twice in the same block: the
    duplicate check only consults the uncles stored by earlier blocks.  For any
    payable uncle that is not stored yet, the block that lists it twice passes
    uncle validation and its accepted pins are twice the uncle's pin. *)
Lemma same_block_duplicate_paid (u : UncleBlock) (t cur : Z) (existing : gset (list Z)) :
  is_u64 cur -> payable u t cur -> uncle_key (uncle_header u) ∉ existing ->
  check_uncles [u; u] (build_uncle_merkle [u; u]).2 (build_uncle_merkle [u; u]).1 cur [t; t] existing
    = Ok tt /\
  total_accepted_pin [u; u] = Ok (2 * pin_confirmed u).
Proof.
  intros Hcur Hp Hk. split.
  - apply (check_uncles_payable [u; u]); [cbn; unfold MAX_UNCLE_COUNT; lia |].
    intros u' Hu'. assert (u' = u) as -> by set_solver. done.
  - destruct Hp as (Hd & _ & Ha & Hpin). pose proof (expected_reward_nonneg cur) as H0.
    assert (0 <= pin_confirmed u <= Reward.INITIAL_REWARD) as Hr.
    { rewrite Hpin. split; [apply Z_div_nonneg_nonneg; [done | by apply Z.pow_nonneg] |].
      transitivity (expected_reward cur); [| by apply expected_reward_le_initial].
      apply Z.div_le_upper_bound; [apply Z.pow_pos_nonneg; lia |].
      assert (1 <= 2 ^ uncle_depth cur u) by (apply (Z.pow_le_mono_r 2 0); lia). nia. }
    unfold Reward.INITIAL_REWARD in Hr. unfold total_accepted_pin.
    rewrite total_accepted_pin_from_spec.
    + unfold pin_sum. cbn [foldr]. unfold pin_of. rewrite Ha.
      assert (0 + (pin_confirmed u + (pin_confirmed u + 0)) <? 2 ^ 64 = true) as -> by lia.
      f_equal. lia.
    + unfold is_u. lia.
    + repeat constructor; lia.
Qed.

(** The same mined header with another (unmined) finality byte. *)
Definition reflag (f : Z) (h : BlockHeader) : BlockHeader :=
  {| version := version h; previous := previous h; merkle_root := merkle_root h;
     timestamp := timestamp h; target := target h; nonce := nonce h; height := height h;
     uncle_merkle_root := uncle_merkle_root h; total_reward := total_reward h;
     randomx_key := randomx_key h; miner := miner h; anchor_owner := anchor_owner h;
     commitment_merkle_root := commitment_merkle_root h; nullifier_root := nullifier_root h;
     anchor_tx_id := anchor_tx_id h; caribina_anchor := caribina_anchor h;
     anchor_monero_height := anchor_monero_height h; anchor_monero_hash := anchor_monero_hash h;
     finality_flags := f; fee_window_flags := fee_window_flags h; pow_source := pow_source h |}.

Definition reflag_uncle (f : Z) (u : UncleBlock) : UncleBlock :=
  {| uncle_header := reflag f (uncle_header u); uncle_transactions := uncle_transactions u;
     pin_accepted := pin_accepted u; pin_confirmed := pin_confirmed u |}.

Lemma reflag_key (f : Z) (h : BlockHeader) :
  BlockHeader_wf h -> is_byte f -> f <> finality_flags h ->
  uncle_key (reflag f h) <> uncle_key h \/
  collides (map (serialize BlockHeader_codec) [reflag f h; h]).
Proof.
  intros Hw Hf Hne.
  assert (BlockHeader_wf (reflag f h)) as Hw'.
  { unfold BlockHeader_wf in *. cbn. naive_solver. }
  destruct (decide (uncle_key (reflag f h) = uncle_key h)) as [Heq | ?]; [right | by left].
  exists (serialize BlockHeader_codec (reflag f h)), (serialize BlockHeader_codec h).
  split_and!; [cbn; apply list_elem_of_here | cbn; apply list_elem_of_further, list_elem_of_here | | done].
  intros Hser. unfold serialize in Hser.
  pose proof (header_decode_encode _ [] Hw) as Hd. pose proof (header_decode_encode _ [] Hw') as Hd'.
  rewrite Hser, Hd in Hd'. injection Hd' as Hd'. congruence.
Qed.

(** The cross-block duplicate check can be evaded: the stored key hashes
    the whole header while work and Merkle leaf cover only the mining blob.
    Changing the finality byte of an uncle that was already paid keeps its
    mining blob, and the changed uncle passes uncle validation again although
    the original's key is stored (unless the two encoded headers have the same
    BLAKE3 digest). *)
Lemma cross_block_duplicate_paid (u : UncleBlock) (t cur f : Z) :
  payable u t cur -> BlockHeader_wf (uncle_header u) -> is_byte f ->
  f <> finality_flags (uncle_header u) ->
  let u' := reflag_uncle f u in
  to_mining_blob (uncle_header u') = to_mining_blob (uncle_header u) /\
  (check_uncles [u'] (build_uncle_merkle [u']).2 (build_uncle_merkle [u']).1 cur [t]
     {[ uncle_key (uncle_header u) ]} = Ok tt \/
   collides (map (serialize BlockHeader_codec) [uncle_header u'; uncle_header u])).
Proof.
  intros Hp Hw Hf Hne u'. split; [reflexivity |].
  destruct (reflag_key f (uncle_header u) Hw Hf Hne) as [Hk | Hc]; [left | by right].
  apply (check_uncles_payable [u']); [cbn; unfold MAX_UNCLE_COUNT; lia |].
  intros v Hv. assert (v = u') as -> by set_solver. split; [| cbn; set_solver].
  destruct Hp as (Hd & Hpow & Ha & Hpin). exact (conj Hd (conj Hpow (conj Ha Hpin))).
Qed.

End uncles_check.

(** ** Structure *)

(** [iter().enumerate().find(..).map(|(i, _)| i)]. *)
Fixpoint find_position {A : Type} (f : A -> bool) (l : list A) : option nat :=
  match l with
  | [] => None
  | x :: l' => if f x then Some 0%nat else option_map S (find_position f l')
  end.

Lemma find_position_some {A : Type} (f : A -> bool) (l : list A) (i : nat) :
  find_position f l = Some i -> exists x, l !! i = Some x /\ f x = true.
Proof.
  revert i. induction l as [|x l IH]; intros i Hf; [done |]. cbn [find_position] in Hf.
  destruct (f x) eqn:E; [injection Hf as <-; by exists x |].
  destruct (find_position f l) as [j|]; [| done]. injection Hf as <-. by apply IH.
Qed.

Lemma find_position_none {A : Type} (f : A -> bool) (l : list A) :
  find_position f l = None <-> forall x, x ∈ l -> f x = false.
Proof.
  induction l as [|x l IH]; [split; [by intros _ x ?%not_elem_of_nil | done] |].
  cbn [find_position]. destruct (f x) eqn:E.
  { split; [done |]. intros Hf. by rewrite (Hf x (list_elem_of_here _ _)) in E. }
  split; intros Hf.
  - destruct (find_position f l) as [j|]; [done |]. intros y Hy.
    apply elem_of_cons in Hy as [-> | Hy]; [done |]. by apply IH.
  - rewrite (proj2 IH); [done |]. intros y Hy. by apply Hf, list_elem_of_further.
Qed.

Section structure.
Context `{Externals}.

Definition is_native_call (c : ContractCall) : bool :=
  bool_decide (contract_id c = NATIVE_TOKEN_CONTRACT_ID).
Definition is_fee_collect_call (c : ContractCall) : bool :=
  is_native_call c && first_byte_is 0x06 (data c).

Definition all_calls (b : Block) : list ContractCall := concat (map contract_calls (transactions b)).

Definition fee_call_count (b : Block) : Z :=
  count (fun c => match as_mass_balance_fee_v3 c with Some _ => true | None => false end) (all_calls b).
Definition fee_collect_position (b : Block) : option nat :=
  find_position (fun t => existsb is_fee_collect_call (contract_calls t)) (transactions b).

(** The rules of the fee-collect call: at most one, present exactly when the
    block has fee calls, and in the last transaction. *)
Definition check_fee_collect (b : Block) : Res unit :=
  if 1 <? count is_fee_collect_call (all_calls b)
  then Err (BlockStructure "expected at most 1 FeeCollectV1 call")
  else
    match fee_collect_position b with
    | Some pos =>
        if fee_call_count b =? 0
        then Err (BlockStructure "FeeCollectV1 present but block has zero fee calls")
        else if negb (pos =? List.length (transactions b) - 1)%nat
        then Err (BlockStructure "FeeCollectV1 must be the final transaction")
        else Ok tt
    | None =>
        if 0 <? fee_call_count b
        then Err (BlockStructure "fee calls but no FeeCollectV1 call")
        else Ok tt
    end.

Definition has_fee_collect (t : Transaction) : bool := existsb is_fee_collect_call (contract_calls t).

(** The fee-collect rules as a statement. *)
Definition fee_collect_rules (b : Block) : Prop :=
  count is_fee_collect_call (all_calls b) <= 1 /\
  (0 < fee_call_count b <-> exists t, t ∈ transactions b /\ has_fee_collect t = true) /\
  (forall i, fee_collect_position b = Some i -> S i = List.length (transactions b)).

Lemma check_fee_collect_sound (b : Block) : check_fee_collect b = Ok tt -> fee_collect_rules b.
Proof.
  unfold check_fee_collect, fee_collect_rules. intros Hc. destruct (_ <? _) eqn:E1; [done |].
  assert (0 <= fee_call_count b) as H0 by apply count_bounds.
  assert (fee_collect_position b = find_position has_fee_collect (transactions b)) as Ep by done.
  rewrite Ep in *. split; [lia |].
  destruct (find_position has_fee_collect (transactions b)) as [i|] eqn:E.
  - destruct (fee_call_count b =? 0) eqn:E0; [done |].
    destruct (Nat.eqb_spec i (List.length (transactions b) - 1)); [| done].
    destruct (find_position_some _ _ _ E) as (t & Ht & Hf). pose proof (lookup_lt_Some _ _ _ Ht).
    split; [| intros j [= <-]; lia]. split; [| lia]. intros _. exists t.
    split; [by eapply list_elem_of_lookup_2 | done].
  - destruct (0 <? fee_call_count b) eqn:E0; [done |].
    pose proof (proj1 (find_position_none _ _) E) as Hf. split; [| done].
    split; [lia |]. intros (t & Ht & Hh). by rewrite (Hf t Ht) in Hh.
Qed.

Definition validate_block_structure (b : Block) : Res unit :=
  match transactions b with
  | [] => Err (BlockStructure "empty block")
  | tx0 :: _ =>
      if negb (first_call_is_pow_reward tx0) then Err (BlockStructure "PoWRewardV1 not first")
      else if negb (count is_pow_reward_coinbase_tx (transactions b) =? 1)
      then Err (BlockStructure "expected exactly 1 PoWRewardV1 call")
      else match contract_calls tx0 with
      | [pow_call] =>
          if Z.of_nat (List.length (data pow_call)) <? 2
          then Err (BlockStructure "PoWRewardV1 call data too short")
          else if negb (is_native_call pow_call)
          then Err (BlockStructure "PoWRewardV1 must target NATIVE_TOKEN_CONTRACT_ID")
          else match PoWRewardParamsV1.dec (drop 1 (data pow_call)) with
          | Err _ => Err (BlockStructure "PoWRewardV1 params decode failed")
          | Ok p =>
              if bool_decide (PoWRewardParamsV1.nullifier p = zero32)
              then Err (BlockStructure "coinbase nullifier is zero")
              else if negb (CommitmentAttributes.value (PoWRewardParamsV1.commitment_attrs p)
                            =? PoWRewardParamsV1.effective_value p)
              then Err (BlockStructure "coinbase note preimage value mismatch")
              else if negb (bool_decide (CommitmentAttributes.to_commitment (PoWRewardParamsV1.commitment_attrs p)
                                         = Output.commitment (PoWRewardParamsV1.output p)))
              then Err (BlockStructure "coinbase commitment does not match its preimage")
              else if negb (bool_decide (checked_add 64 (PoWRewardParamsV1.effective_value p) (PoWRewardParamsV1.total_pin p)
                                         = Some (ClearInput.value (PoWRewardParamsV1.input p))))
              then Err (BlockStructure "over-mint")
              else check_fee_collect b
          end
      | _ => Err (BlockStructure "coinbase must have exactly 1 contract call")
      end
  end.


Lemma validate_block_structure_inv (b : Block) :
  validate_block_structure b = Ok tt ->
  exists tx0 rest call p,
    transactions b = tx0 :: rest /\ contract_calls tx0 = [call] /\
    contract_id call = NATIVE_TOKEN_CONTRACT_ID /\ first_byte_is 0x05 (data call) = true /\
    PoWRewardParamsV1.dec (drop 1 (data call)) = Ok p /\
    PoWRewardParamsV1.nullifier p <> zero32 /\
    CommitmentAttributes.value (PoWRewardParamsV1.commitment_attrs p)
      = PoWRewardParamsV1.effective_value p /\
    CommitmentAttributes.to_commitment (PoWRewardParamsV1.commitment_attrs p)
      = Output.commitment (PoWRewardParamsV1.output p) /\
    PoWRewardParamsV1.effective_value p + PoWRewardParamsV1.total_pin p
      = ClearInput.value (PoWRewardParamsV1.input p) /\
    Forall (fun t => is_pow_reward_coinbase_tx t = false) rest /\
    fee_collect_rules b.
Proof.
  unfold validate_block_structure. intros Hv. destruct (transactions b) as [|tx0 rest] eqn:Et; [done |].
  unfold first_call_is_pow_reward in Hv. rewrite count_cons in Hv.
  destruct (contract_calls tx0) as [|call [|]] eqn:Ec; cbn [negb] in Hv; [done | |].
  2: { inv_result. }
  destruct (first_byte_is 0x05 (data call)) eqn:E5; cbn [negb] in Hv; [| done].
  unfold is_pow_reward_coinbase_tx at 1 in Hv. rewrite Ec, E5, andb_true_r in Hv.
  inv_result. unfold is_native_call in *. bool_facts. rename a into p.
  rewrite bool_decide_true in E by done.
  match goal with Hc : checked_add 64 _ _ = Some _ |- _ => apply checked_spec in Hc as [Hsum _] end.
  assert (count is_pow_reward_coinbase_tx rest = 0) as Hz by lia.
  pose proof (proj1 (count_zero _ _) Hz) as Hrest.
  exists tx0, rest, call, p. split_and!; try done; [lia | by apply Forall_forall |].
  by apply check_fee_collect_sound.
Qed.

(** A structurally valid block has exactly one coinbase, in front: its
    first transaction is a single call of the native token contract with the
    reward selector and decodable parameters, whose nullifier is not zero,
    whose note commits the value it claims, and whose spendable value plus the
    uncle pins is exactly the minted input, so nothing is over-minted; no other
    transaction is a coinbase; and fees are collected exactly when there are
    fee calls, by at most one call, in the last transaction. *)
Lemma block_structure_sound (b : Block) :
  validate_block_structure b = Ok tt ->
  exists tx0 rest call p,
    transactions b = tx0 :: rest /\ contract_calls tx0 = [call] /\
    contract_id call = NATIVE_TOKEN_CONTRACT_ID /\ first_byte_is 0x05 (data call) = true /\
    PoWRewardParamsV1.dec (drop 1 (data call)) = Ok p /\
    PoWRewardParamsV1.nullifier p <> zero32 /\
    CommitmentAttributes.value (PoWRewardParamsV1.commitment_attrs p)
      = PoWRewardParamsV1.effective_value p /\
    CommitmentAttributes.to_commitment (PoWRewardParamsV1.commitment_attrs p)
      = Output.commitment (PoWRewardParamsV1.output p) /\
    PoWRewardParamsV1.effective_value p + PoWRewardParamsV1.total_pin p
      = ClearInput.value (PoWRewardParamsV1.input p) /\
    Forall (fun t => is_pow_reward_coinbase_tx t = false) rest /\
    fee_collect_rules b.
Proof. apply validate_block_structure_inv. Qed.
End structure.

(** ** Concrete checks *)

Definition coinbase_tx : Transaction := {|
  tx_version := 1; inputs := []; outputs := [];
  contract_calls := [{| contract_id := @NATIVE_TOKEN_CONTRACT_ID toy;
    data := 0x05 :: match @PoWRewardParamsV1.enc toy sample_coinbase with Ok b => b | Err _ => [] end |}];
  lock_time := 0; nullifiers := []; witness := [] |}.

Definition sample_block : @Block toy :=
  let txs := [coinbase_tx] in
  {| header := {| version := 1; previous := replicate 32 3; merkle_root := @compute_merkle_root toy txs;
       timestamp := 1000; target := 0xFFFFFFFF; nonce := 7; height := 5;
       uncle_merkle_root := zero32; total_reward := 100; randomx_key := replicate 32 9;
       miner := replicate 32 1; anchor_owner := zero32; commitment_merkle_root := zero32;
       nullifier_root := zero32; anchor_tx_id := zero32; caribina_anchor := None;
       anchor_monero_height := 0; anchor_monero_hash := zero32; finality_flags := 0;
       fee_window_flags := 0; pow_source := Native |};
     transactions := txs |}.

(** The header check accepts a block of height 5 on a tip of height 4, and
    refuses it on another tip. *)
Example header_check_runs :
  let check := @check_block_header toy (fun _ => true) (fun _ _ => Ok tt) (fun _ => []) in
  check sample_block (replicate 32 9) 0xFFFFFFFF 4 (Some (replicate 32 3)) = Ok tt /\
  check sample_block (replicate 32 9) 0xFFFFFFFF 3 None = Err (HeightDiscontinuity 4 5) /\
  check sample_block (replicate 32 9) 0x0FFFFFFF 4 None = Err (InvalidTarget 0xFFFFFFFF 0x0FFFFFFF 5).
Proof. split_and!; vm_compute; reflexivity. Qed.

Example timestamp_check_runs :
  check_block_timestamp 13 9 [10; 30; 11; 12; 13] = Ok tt /\
  is_ok (check_block_timestamp 12 9 [10; 30; 11; 12; 13]) = false.
Proof. split; vm_compute; reflexivity. Qed.

Lemma crawling_clock_freezes_target_witness :
  compute_adjustment (map (crawl 1000) (seq (30 - 19) 20)) 0x0FFFFFFF 120 1 u32_max = 0x0FFFFFFF.
Proof.
  destruct (crawling_clock_freezes_target 1000 30 0x0FFFFFFF 120 1 u32_max 30) as (_ & Hc & _);
    [lia | lia | lia | exact Hc].
Defined.

Definition paid_uncle : @UncleBlock toy := sample_uncle 8 2 true (expected_reward 10 / 4).

Lemma paid_uncle_payable : payable paid_uncle 0xFFFFFFFF 10.
Proof.
  split; [split; vm_compute; discriminate |].
  split; [| split; [reflexivity | vm_compute; reflexivity]].
  eexists. split; [reflexivity |]. split; vm_compute; [repeat constructor | discriminate].
Qed.

Lemma uncle_pins_within_reward_witness :
  exists canonical rewards,
    compute_reward (expected_reward 10) [paid_uncle] = Ok (canonical, rewards) /\
    expected_reward 10 / 64 <= canonical.
Proof.
  apply (uncle_pins_within_reward [paid_uncle] (build_uncle_merkle [paid_uncle]).2
    (build_uncle_merkle [paid_uncle]).1 10 [0xFFFFFFFF] ∅).
  - unfold is_u. lia.
  - vm_compute. reflexivity.
  - apply NoDup_singleton.
  - constructor; [vm_compute; split; [discriminate | reflexivity] | by apply Forall_nil].
Defined.

Lemma same_block_duplicate_paid_witness :
  total_accepted_pin [paid_uncle; paid_uncle] = Ok (2 * pin_confirmed paid_uncle).
Proof.
  apply (same_block_duplicate_paid paid_uncle 0xFFFFFFFF 10 ∅).
  - unfold is_u. lia.
  - exact paid_uncle_payable.
  - apply not_elem_of_empty.
Defined.

Lemma cross_block_duplicate_paid_witness :
  check_uncles [reflag_uncle 1 paid_uncle] (build_uncle_merkle [reflag_uncle 1 paid_uncle]).2
    (build_uncle_merkle [reflag_uncle 1 paid_uncle]).1 10 [0xFFFFFFFF]
    {[ uncle_key (uncle_header paid_uncle) ]} = Ok tt \/
  @collides toy (map (serialize BlockHeader_codec)
    [uncle_header (reflag_uncle 1 paid_uncle); uncle_header paid_uncle]).
Proof.
  apply (cross_block_duplicate_paid paid_uncle 0xFFFFFFFF 10 1).
  - exact paid_uncle_payable.
  - apply sample_header_wf; unfold is_u, is_byte; lia.
  - unfold is_byte. lia.
  - discriminate.
Defined.

Lemma block_structure_sound_witness :
  exists tx0 rest call p,
    transactions sample_block = tx0 :: rest /\ contract_calls tx0 = [call] /\
    contract_id call = @NATIVE_TOKEN_CONTRACT_ID toy /\ first_byte_is 0x05 (data call) = true /\
    @PoWRewardParamsV1.dec toy (drop 1 (data call)) = Ok p /\
    PoWRewardParamsV1.nullifier p <> zero32 /\
    CommitmentAttributes.value (PoWRewardParamsV1.commitment_attrs p)
      = PoWRewardParamsV1.effective_value p /\
    @CommitmentAttributes.to_commitment toy (PoWRewardParamsV1.commitment_attrs p)
      = Output.commitment (PoWRewardParamsV1.output p) /\
    PoWRewardParamsV1.effective_value p + PoWRewardParamsV1.total_pin p
      = ClearInput.value (PoWRewardParamsV1.input p) /\
    Forall (fun t => @is_pow_reward_coinbase_tx toy t = false) rest /\
    fee_collect_rules sample_block.
Proof. apply (block_structure_sound sample_block). vm_compute. reflexivity. Defined.
