(* ===== verification/Finality.v ===== *)
(** * Finality ([src/linear/src/finality.rs], [src/linear/src/caribina])

    A block can carry an anchor: an ANS-104 data item signed by the key its
    proof of work commits.  A node enforces verified anchors according to its
    mode.  SHA-384 and Ed25519 come from third-party crates. *)

From Stdlib Require Import String DecimalString.
From S2P Require Import Prelude Units Serial Externals Transaction Merkle Block Store Consensus Validation.

(** ** Configuration *)

Inductive FinalityMode := NativeMode | Always | Signaled.

#[export] Instance FinalityMode_eq_dec : EqDecision FinalityMode.
Proof. solve_decision. Defined.

Definition FINALITY_CARIBNIA : Z := 0x01.
Definition FINALITY_MONERO : Z := 0x02.
Definition FINALITY_SIGNALED : Z := 0x04.

Record FinalityConfig := {
  fin_mode : FinalityMode; caribina_enabled : bool; monero_enabled : bool;
  monero_min_confirmations : Z; monerod_url : option bytes; accept_unverified_merge_blocks : bool
}.

Definition FinalityConfig_default : FinalityConfig := {|
  fin_mode := Always; caribina_enabled := true; monero_enabled := false; monero_min_confirmations := 3;
  monerod_url := None; accept_unverified_merge_blocks := false |}.

Definition should_anchor (c : FinalityConfig) : bool :=
  negb (bool_decide (fin_mode c = NativeMode)) && caribina_enabled c.

Definition should_anchor_monero (c : FinalityConfig) : bool :=
  negb (bool_decide (fin_mode c = NativeMode)) && monero_enabled c.

Definition should_enforce (c : FinalityConfig) (block_flags : Z) : bool :=
  match fin_mode c with
  | NativeMode => false
  | Always => true
  | Signaled => negb (Z.land block_flags FINALITY_SIGNALED =? 0)
  end.

Definition mine_flags (c : FinalityConfig) : Z :=
  let f1 := if should_anchor c then Z.lor 0 FINALITY_CARIBNIA else 0 in
  let f2 := if should_anchor_monero c then Z.lor f1 FINALITY_MONERO else f1 in
  if bool_decide (fin_mode c = Signaled) then Z.lor f2 FINALITY_SIGNALED else f2.

(** ** Data items ([data_item.rs]) *)

(** The laws are what the signature scheme documents: fixed lengths, and a
    signature verifies under the key of its signer. *)
Class Signatures := {
  sha384 : bytes -> bytes;
  secret : Type;
  public_key : secret -> bytes;
  ed_sign : secret -> bytes -> bytes;
  ed_verify : bytes -> bytes -> bytes -> bool;
  public_key_length : forall sk, bytes_wf 32 (public_key sk);
  ed_sign_length : forall sk m, length (ed_sign sk m) = 64%nat;
  ed_sign_verifies : forall sk m, ed_verify (public_key sk) m (ed_sign sk m) = true
}.

Definition SIGNATURE_TYPE : Z := 2.
Definition HEADER_LENGTH : nat := 116.
Definition TIMESTAMP_TOLERANCE_MINUTES : Z := 30.

Definition decimal (n : nat) : bytes := ascii_key (NilZero.string_of_uint (Nat.to_uint n)).

Section anchors.
Context `{Externals} `{Signatures}.

Definition deep_hash_blob (d : bytes) : bytes :=
  sha384 (sha384 (ascii_key "blob" ++ decimal (List.length d)) ++ sha384 d).

Definition deep_hash_list (items : list bytes) : bytes :=
  let tag := sha384 (ascii_key "list" ++ decimal (List.length items)) in
  match items with
  | [] => tag
  | i0 :: rest =>
      foldl (fun acc item => sha384 (acc ++ deep_hash_blob item)) (sha384 (tag ++ deep_hash_blob i0)) rest
  end.

Definition region (a b : nat) (d : bytes) : bytes := take (b - a) (drop a d).

(** Accessors of a data item, which is its bytes. *)
Definition raw_signature (d : bytes) : bytes := region 2 66 d.
Definition raw_owner (d : bytes) : bytes := region 66 98 d.
Definition tag_count (d : bytes) : Z := from_le_bytes (region 100 108 d).
Definition tag_bytes (d : bytes) : Z := from_le_bytes (region 108 116 d).
Definition raw_data (d : bytes) : bytes := drop (HEADER_LENGTH + Z.to_nat (tag_bytes d)) d.
Definition raw_tags (d : bytes) : bytes :=
  if tag_count d =? 0 then [] else region HEADER_LENGTH (HEADER_LENGTH + Z.to_nat (tag_bytes d)) d.

Definition compute_signature_data (d : bytes) : bytes :=
  deep_hash_list [ascii_key "dataitem"; ascii_key "1"; ascii_key "2"; raw_owner d; []; []; raw_tags d; raw_data d].

Definition verify_signature (d : bytes) : bool := ed_verify (raw_owner d) (compute_signature_data d) (raw_signature d).

(** [DataItem::deserialize]; lengths fit in [usize], so only the declared tag
    area can be too long. *)
Definition data_item (d : bytes) : option bytes :=
  if (List.length d <? HEADER_LENGTH)%nat then None
  else if negb (from_le_bytes (region 0 2 d) =? SIGNATURE_TYPE) then None
  else match checked_add 64 (Z.of_nat HEADER_LENGTH) (tag_bytes d) with
       | None => None
       | Some tag_end => if Z.of_nat (List.length d) <? tag_end then None else Some d
       end.

(** [DataItem::new] and [sign]. *)
Definition data_item_new (payload : bytes) : bytes :=
  to_le_bytes 2 SIGNATURE_TYPE ++ replicate 114 0 ++ payload.

Definition data_item_sign (sk : secret) (d : bytes) : bytes :=
  let owned := region 0 66 d ++ public_key sk ++ drop 98 d in
  region 0 2 owned ++ ed_sign sk (compute_signature_data owned) ++ drop 66 owned.

(** ** Anchors ([verify.rs]) *)

Definition without_anchor (h : BlockHeader) : BlockHeader := {|
  version := version h; previous := previous h; merkle_root := merkle_root h; timestamp := timestamp h;
  target := target h; nonce := nonce h; height := height h; uncle_merkle_root := uncle_merkle_root h;
  total_reward := total_reward h; randomx_key := randomx_key h; miner := miner h;
  anchor_owner := anchor_owner h; commitment_merkle_root := commitment_merkle_root h;
  nullifier_root := nullifier_root h; anchor_tx_id := zero32; caribina_anchor := None;
  anchor_monero_height := 0; anchor_monero_hash := zero32; finality_flags := 0;
  fee_window_flags := fee_window_flags h; pow_source := pow_source h |}.

Definition anchor_commitment (h : BlockHeader) : bytes := blake3 (serialize BlockHeader_codec (without_anchor h)).

(** [(a as i64 - b as i64).abs()], wrapping as in the release profile. *)
Definition ts_diff (a b : Z) : Z := Endian.to_signed 64 (wrap 64 (Z.abs (Endian.to_signed 64 (wrap 64 (Endian.to_signed 64 a - Endian.to_signed 64 b))))).

Definition verify_payload (payload expected_hash : bytes) (expected_timestamp expected_height : Z) : bool :=
  if (List.length payload <? 48)%nat then false
  else if negb (bool_decide (region 0 32 payload = expected_hash)) then false
  else if negb (from_le_bytes (region 40 48 payload) =? expected_height) then false
  else if TIMESTAMP_TOLERANCE_MINUTES * 60 <? ts_diff (from_le_bytes (region 32 40 payload)) expected_timestamp then false
  else true.

Definition verify_anchor_proof (h : BlockHeader) : bool :=
  match caribina_anchor h with
  | None => false
  | Some raw =>
      if bool_decide (anchor_owner h = zero32) then false
      else match data_item raw with
           | None => false
           | Some item =>
               if negb (verify_signature item) || negb (bool_decide (raw_owner item = anchor_owner h)) then false
               else verify_payload (raw_data item) (anchor_commitment h) (timestamp h) (height h)
           end
  end.

(** The predicate of the enforcement sites in [chain_state.rs]. *)
Definition finalized (c : FinalityConfig) (h : BlockHeader) : bool :=
  should_enforce c (finality_flags h) && verify_anchor_proof h.

(** ** Layout of a signed item *)

Definition shape (sig pk payload : bytes) : bytes := to_le_bytes 2 SIGNATURE_TYPE ++ sig ++ pk ++ replicate 18 0 ++ payload.

Lemma shape_fields (sig pk payload : bytes) :
  length sig = 64%nat -> length pk = 32%nat ->
  raw_signature (shape sig pk payload) = sig /\ raw_owner (shape sig pk payload) = pk /\
  tag_count (shape sig pk payload) = 0 /\ tag_bytes (shape sig pk payload) = 0 /\
  raw_data (shape sig pk payload) = payload /\ data_item (shape sig pk payload) = Some (shape sig pk payload).
Proof.
  intros Hs Hp. unfold shape. set (ty := to_le_bytes 2 SIGNATURE_TYPE).
  assert (length ty = 2%nat) as Ht by done.
  assert (forall n, drop (98 + n) (ty ++ sig ++ pk ++ replicate 18 0 ++ payload) = drop n (replicate 18 0 ++ payload)) as Hd.
  { intros n. rewrite <- drop_drop. f_equal.
    replace (ty ++ sig ++ pk ++ replicate 18 0 ++ payload) with ((ty ++ sig ++ pk) ++ replicate 18 0 ++ payload)
      by (by rewrite <- !app_assoc).
    apply drop_app_length'. rewrite !length_app. lia. }
  assert (tag_bytes (ty ++ sig ++ pk ++ replicate 18 0 ++ payload) = 0) as Etb.
  { unfold tag_bytes, region. change 108%nat with (98 + 10)%nat. by rewrite Hd. }
  split_and!.
  - unfold raw_signature, region. rewrite drop_app_length' by done. by rewrite take_app_length' by done.
  - unfold raw_owner, region. rewrite app_assoc, drop_app_length' by (rewrite length_app; lia).
    by rewrite take_app_length' by done.
  - unfold tag_count, region. change 100%nat with (98 + 2)%nat. by rewrite Hd.
  - exact Etb.
  - unfold raw_data. rewrite Etb. change (HEADER_LENGTH + Z.to_nat 0)%nat with (98 + 18)%nat. rewrite Hd.
    by apply drop_app_length'.
  - unfold data_item. rewrite Etb. unfold HEADER_LENGTH. rewrite !length_app, length_replicate.
    destruct (Nat.ltb_spec (length ty + (length sig + (length pk + (18 + length payload)))) 116); [lia |].
    change (checked_add 64 (Z.of_nat 116) 0) with (Some 116). cbn [negb].
    destruct (Z.ltb_spec (Z.of_nat (length ty + (length sig + (length pk + (18 + length payload))))) 116); [lia |].
    unfold region. rewrite drop_0, take_app_length' by done. reflexivity.
Qed.

(** What a miner publishes for a header. *)
Definition anchor_payload (h : BlockHeader) : bytes :=
  anchor_commitment h ++ to_le_bytes 8 (timestamp h) ++ to_le_bytes 8 (height h).

Definition with_anchor (item : bytes) (h : BlockHeader) : BlockHeader := {|
  version := version h; previous := previous h; merkle_root := merkle_root h; timestamp := timestamp h;
  target := target h; nonce := nonce h; height := height h; uncle_merkle_root := uncle_merkle_root h;
  total_reward := total_reward h; randomx_key := randomx_key h; miner := miner h;
  anchor_owner := anchor_owner h; commitment_merkle_root := commitment_merkle_root h;
  nullifier_root := nullifier_root h; anchor_tx_id := anchor_tx_id h; caribina_anchor := Some item;
  anchor_monero_height := anchor_monero_height h; anchor_monero_hash := anchor_monero_hash h;
  finality_flags := finality_flags h; fee_window_flags := fee_window_flags h; pow_source := pow_source h |}.

Lemma signed_shape (sk : secret) (payload : bytes) :
  exists sig, data_item_sign sk (data_item_new payload) = shape sig (public_key sk) payload /\
    length sig = 64%nat /\
    sig = ed_sign sk (compute_signature_data (shape sig (public_key sk) payload)).
Proof.
  destruct (public_key_length sk) as [Hpk _].
  assert (region 0 66 (data_item_new payload) ++ public_key sk ++ drop 98 (data_item_new payload) =
    shape (replicate 64 0) (public_key sk) payload) as Eo by reflexivity.
  unfold data_item_sign. rewrite Eo.
  set (sig := ed_sign sk (compute_signature_data (shape (replicate 64 0) (public_key sk) payload))).
  assert (length sig = 64%nat) as Hsig by apply ed_sign_length.
  exists sig. split; [reflexivity |]. split; [done |]. unfold sig at 1. f_equal. unfold compute_signature_data, raw_tags.
  destruct (shape_fields (replicate 64 0) (public_key sk) payload) as (_ & -> & -> & _ & -> & _); [done | done |].
  by destruct (shape_fields sig (public_key sk) payload) as (_ & -> & -> & _ & -> & _).
Qed.

Lemma ts_diff_refl (t : Z) : ts_diff t t = 0.
Proof. unfold ts_diff. by rewrite Z.sub_diag. Qed.

Lemma payload_verifies (h : BlockHeader) :
  is_u64 (timestamp h) -> is_u64 (height h) ->
  verify_payload (anchor_payload h) (anchor_commitment h) (timestamp h) (height h) = true.
Proof.
  intros Ht Hh. pose proof (blake3_wf (serialize BlockHeader_codec (without_anchor h))) as [Hl _].
  fold (anchor_commitment h) in Hl. unfold verify_payload, anchor_payload, region.
  rewrite !length_app, !to_le_bytes_length, Hl. cbn [Nat.add Nat.ltb Nat.leb Nat.sub].
  rewrite drop_0, take_app_length' by done. rewrite bool_decide_true by done. cbn [negb].
  rewrite (drop_app_length' _ _ 32) by done. rewrite take_app_length' by (by rewrite to_le_bytes_length).
  rewrite app_assoc, drop_app_length' by (rewrite length_app, to_le_bytes_length; lia).
  rewrite (take_ge (to_le_bytes 8 (height h))) by (by rewrite to_le_bytes_length).
  rewrite !le_bytes_roundtrip by done. rewrite Z.eqb_refl, ts_diff_refl. done.
Qed.

Lemma verify_anchor_inv (h : BlockHeader) :
  verify_anchor_proof h = true ->
  exists item, caribina_anchor h = Some item /\ anchor_owner h <> zero32 /\
    ed_verify (anchor_owner h) (compute_signature_data item) (raw_signature item) = true /\
    take 32 (raw_data item) = anchor_commitment h /\
    from_le_bytes (region 40 48 (raw_data item)) = height h.
Proof.
  unfold verify_anchor_proof. destruct (caribina_anchor h) as [raw|]; [| done].
  case_bool_decide as Hz; [done |]. destruct (data_item raw) as [item|] eqn:Ed; [| done].
  assert (item = raw) as ->.
  { unfold data_item in Ed. destruct (_ <? _)%nat; [done |]. destruct (negb _); [done |].
    destruct (checked_add _ _ _); [| done]. destruct (_ <? _); congruence. }
  unfold verify_signature. destruct (ed_verify _ _ _) eqn:Ev; [| done]. cbn [negb orb].
  case_bool_decide as Eo; [| done]. cbn [negb]. unfold verify_payload.
  destruct (_ <? _)%nat; [done |]. case_bool_decide as Eh; [| done]. cbn [negb].
  destruct (Z.eqb_spec (from_le_bytes (region 40 48 (raw_data raw))) (height h)) as [Eht | ?]; [| done].
  intros _. exists raw. rewrite <- Eo. split_and!; try done; try congruence.
Qed.

(** ** Properties *)

(** Anchors are genuine and bound to one block.  An anchor made the way the
    miner makes it is accepted; and two headers that carry the same accepted
    anchor agree on everything but the fields set after mining, or two headers
    of an explicit pair collide under BLAKE3. *)
Lemma anchor_binds_block (sk : secret) (h h1 h2 : BlockHeader) :
  BlockHeader_wf h -> anchor_owner h = public_key sk -> public_key sk <> zero32 ->
  BlockHeader_wf h1 -> BlockHeader_wf h2 -> caribina_anchor h1 = caribina_anchor h2 ->
  verify_anchor_proof h1 = true -> verify_anchor_proof h2 = true ->
  verify_anchor_proof (with_anchor (data_item_sign sk (data_item_new (anchor_payload h))) h) = true /\
  (stored_header (without_anchor h1) = stored_header (without_anchor h2) \/
   collides (map (fun h => serialize BlockHeader_codec (without_anchor h)) [h1; h2])).
Proof.
  intros Hw Ho Hz Hw1 Hw2 Ea H1 H2. split.
  - destruct (signed_shape sk (anchor_payload h)) as (sig & -> & Hl & Esig).
    destruct (public_key_length sk) as [Hpk _].
    destruct (shape_fields sig (public_key sk) (anchor_payload h) Hl Hpk) as (E1 & E2 & E3 & E4 & E5 & E6).
    unfold verify_anchor_proof. cbn [caribina_anchor with_anchor anchor_owner]. rewrite Ho.
    rewrite bool_decide_false by done. rewrite E6. unfold verify_signature. rewrite E1, E2, E5.
    rewrite Esig at 2. rewrite ed_sign_verifies. rewrite bool_decide_true by done. cbn [negb orb].
    change (verify_payload (anchor_payload h) (anchor_commitment h) (timestamp h) (height h) = true).
    apply payload_verifies; apply Hw.
  - destruct (verify_anchor_inv h1 H1) as (i1 & E1 & _ & _ & C1 & _).
    destruct (verify_anchor_inv h2 H2) as (i2 & E2 & _ & _ & C2 & _).
    assert (i1 = i2) as -> by congruence. rewrite C1 in C2. unfold anchor_commitment in C2.
    apply (blake3_inj_or (map (fun h => serialize BlockHeader_codec (without_anchor h)) [h1; h2])) in C2
      as [Es | Hc]; [left | by right | cbn; apply list_elem_of_here
      | cbn; apply list_elem_of_further, list_elem_of_here].
    assert (forall h, BlockHeader_wf h -> BlockHeader_wf (without_anchor h)) as Hwf.
    { intros h0 Hw0. unfold BlockHeader_wf in *. cbn -[bytes_wf is_u is_byte]. pose proof zero32_wf.
      assert (is_byte 0) by (unfold is_byte; lia). assert (is_u64 0) by (unfold is_u; lia). naive_solver. }
    pose proof (header_decode_encode (without_anchor h1) [] (Hwf h1 Hw1)) as D1.
    pose proof (header_decode_encode (without_anchor h2) [] (Hwf h2 Hw2)) as D2.
    unfold serialize in Es. rewrite Es, D2 in D1. congruence.
Qed.

(** In the signaled mode finality can be switched off in transit.  The flag
    that asks for enforcement is covered neither by the proof of work nor by the
    anchor, so clearing it gives a header with the same hash and the same valid
    anchor that a signaling node does not protect. *)
Lemma finality_signal_unauthenticated (c : FinalityConfig) (h : BlockHeader) (key : bytes) (flags : Z) :
  fin_mode c = Signaled -> Z.land flags FINALITY_SIGNALED = 0 ->
  finalized c h = true ->
  hash_with_vm (reflag flags h) key = hash_with_vm h key /\
  verify_anchor_proof (reflag flags h) = true /\ finalized c (reflag flags h) = false.
Proof.
  intros Hm Hf Hfin. unfold finalized in *. apply andb_true_iff in Hfin as [_ Hv].
  split; [reflexivity |]. split; [exact Hv |]. unfold should_enforce. rewrite Hm.
  cbn [finality_flags reflag]. by rewrite Hf.
Qed.
End anchors.

(** ** A concrete signature scheme *)

Definition toy_secret : bytes := replicate 32 7.

(** Every key signs with the same 64 bytes. *)
Definition toy_signatures : Signatures.
Proof.
  refine {| sha384 := fun m => toy_digest m ++ replicate 16 0; secret := unit;
    public_key := fun _ => toy_secret; ed_sign := fun _ m => toy_digest m ++ toy_digest m;
    ed_verify := fun _ m s => bool_decide (s = toy_digest m ++ toy_digest m) |}.
  - intros _. split; [done |]. apply Forall_replicate. unfold is_byte. lia.
  - intros _ m. rewrite length_app. by destruct (toy_digest_wf m) as [-> _].
  - intros _ m. by apply bool_decide_true.
Defined.

Definition anchored_header : @BlockHeader toy := {|
  version := 1; previous := replicate 32 3; merkle_root := replicate 32 4; timestamp := 1000;
  target := 0xFFFFFFFF; nonce := 5; height := 9; uncle_merkle_root := replicate 32 0;
  total_reward := 100; randomx_key := replicate 32 9; miner := replicate 32 1;
  anchor_owner := toy_secret; commitment_merkle_root := replicate 32 0;
  nullifier_root := replicate 32 0; anchor_tx_id := replicate 32 0; caribina_anchor := None;
  anchor_monero_height := 0; anchor_monero_hash := replicate 32 0; finality_flags := FINALITY_SIGNALED;
  fee_window_flags := 0; pow_source := Native |}.

Definition anchored_item : bytes :=
  @data_item_sign toy_signatures tt (data_item_new (@anchor_payload toy anchored_header)).

Lemma anchored_header_wf : @BlockHeader_wf toy anchored_header.
Proof.
  unfold BlockHeader_wf, bytes_wf. cbn [anchored_header version previous merkle_root
    timestamp target nonce height uncle_merkle_root total_reward randomx_key miner anchor_owner
    commitment_merkle_root nullifier_root anchor_tx_id caribina_anchor anchor_monero_height
    anchor_monero_hash finality_flags pow_source].
  split_and!; try done; try (apply Forall_replicate); unfold is_byte, is_u, FINALITY_SIGNALED; lia.
Qed.

Lemma anchored_verifies : @verify_anchor_proof toy toy_signatures (with_anchor anchored_item anchored_header) = true.
Proof. vm_compute. reflexivity. Qed.

Lemma with_anchor_wf (item : bytes) :
  byte_vec_wf item -> @BlockHeader_wf toy (with_anchor item anchored_header).
Proof. intros Hi. pose proof anchored_header_wf as Hw. unfold BlockHeader_wf in *. cbn -[byte_vec_wf bytes_wf is_u is_byte] in *. naive_solver. Qed.

Lemma anchored_item_wf : byte_vec_wf anchored_item.
Proof.
  split; [| vm_compute; done]. apply forallb_is_byte. vm_compute. reflexivity.
Qed.

Lemma anchor_binds_block_witness :
  @verify_anchor_proof toy toy_signatures (with_anchor anchored_item anchored_header) = true.
Proof.
  pose proof (with_anchor_wf anchored_item anchored_item_wf) as Hw.
  apply (@anchor_binds_block toy toy_signatures tt anchored_header (with_anchor anchored_item anchored_header)
    (with_anchor anchored_item anchored_header)); try exact Hw; try exact anchored_verifies;
    [exact anchored_header_wf | reflexivity | discriminate | reflexivity].
Defined.

Lemma finality_signal_unauthenticated_witness :
  let c := {| fin_mode := Signaled; caribina_enabled := true; monero_enabled := false;
    monero_min_confirmations := 3; monerod_url := None; accept_unverified_merge_blocks := false |} in
  @finalized toy toy_signatures c (with_anchor anchored_item anchored_header) = true /\
  @finalized toy toy_signatures c (reflag 0 (with_anchor anchored_item anchored_header)) = false.
Proof.
  intros c. assert (@finalized toy toy_signatures c (with_anchor anchored_item anchored_header) = true) as Hf.
  { unfold finalized. rewrite anchored_verifies. reflexivity. }
  split; [exact Hf |].
  apply (@finality_signal_unauthenticated toy toy_signatures c _ [] 0 eq_refl eq_refl Hf).
Defined.
