(* ===== verification/Schedule.v ===== *)
(** * The execution schedule ([src/linear/src/schedule.rs])

    [ExecutionSchedule::build] partitions the calls of a block into waves whose
    members write disjoint keys.  The loops are modelled as written, over the
    vector of assignment flags; [greedy] and [greedy_waves] are the reference
    they are proved equal to, and the properties are proved of the reference. *)

From stdpp Require Import sorting.
From S2P Require Import Prelude.

Definition SledKey : Type := list Z.

(** The locals of one iteration of the outer loop. *)
Record scan_state := ScanState {
  assigned : list bool;
  wave : list nat;
  wave_keys : gset SledKey
}.

(** The body of [for i in 0..n]. *)
Definition scan_call (write_sets : list (gset SledKey)) (st : scan_state) (i : nat) : scan_state :=
  match assigned st !! i, write_sets !! i with
  | Some false, Some w =>
      let intersects := existsb (fun k => bool_decide (k ∈ wave_keys st)) (elements w) in
      if negb intersects then
        {| assigned := <[i := true]> (assigned st); wave := wave st ++ [i];
           wave_keys := wave_keys st ∪ w |}
      else st
  | _, _ => st
  end.

(** The deadlock breaker: the first unassigned call alone. *)
Definition break_deadlock (st : scan_state) : scan_state :=
  match wave st with
  | [] =>
      match list_find (fun a => a = false) (assigned st) with
      | Some (i, _) =>
          {| assigned := <[i := true]> (assigned st); wave := [i]; wave_keys := wave_keys st |}
      | None => st
      end
  | _ => st
  end.

Definition scan_wave (write_sets : list (gset SledKey)) (flags : list bool) : scan_state :=
  break_deadlock
    (fold_left (scan_call write_sets) (seq 0 (length write_sets)) (ScanState flags [] ∅)).

(** The outer [while]; [None] is a loop that has not finished. *)
Fixpoint build_loop (fuel : nat) (write_sets : list (gset SledKey)) (flags : list bool) :
    option (list (list nat)) :=
  if existsb negb flags then
    match fuel with
    | O => None
    | S fuel' =>
        let st := scan_wave write_sets flags in
        match build_loop fuel' write_sets (assigned st) with
        | Some waves => Some (wave st :: waves)
        | None => None
        end
    end
  else Some [].

(** Every iteration assigns a call, so [n] iterations are enough. *)
Definition build (write_sets : list (gset SledKey)) : list (list nat) :=
  match write_sets with
  | [] => []
  | _ =>
      let n := length write_sets in
      default [] (build_loop n write_sets (replicate n false))
  end.

Definition total_calls (waves : list (list nat)) : nat := sum_list (map length waves).
Definition wave_count (waves : list (list nat)) : nat := length waves.
Definition max_parallelism (waves : list (list nat)) : nat := max_list (map length waves).
Definition is_fully_parallel (waves : list (list nat)) : bool := (length waves <=? 1)%nat.
Definition is_fully_sequential (waves : list (list nat)) : bool :=
  forallb (fun w : list nat => (length w =? 1)%nat) waves.

(** ** The reference: greedy selection on the list of pending calls *)

Section reference.
Variable W : nat -> gset SledKey.

Definition conflict (i j : nat) : Prop := ~ (W i ## W j).

Fixpoint greedy (keys : gset SledKey) (pending : list nat) : list nat * list nat :=
  match pending with
  | [] => ([], [])
  | i :: p =>
      if decide (W i ## keys) then
        let '(t, l) := greedy (keys ∪ W i) p in (i :: t, l)
      else let '(t, l) := greedy keys p in (t, i :: l)
  end.

Fixpoint greedy_waves (fuel : nat) (pending : list nat) : list (list nat) :=
  match fuel, pending with
  | S fuel', _ :: _ => let '(t, l) := greedy ∅ pending in t :: greedy_waves fuel' l
  | _, _ => []
  end.

Lemma greedy_cons (keys : gset SledKey) (i : nat) (p : list nat) :
  greedy keys (i :: p) =
  if decide (W i ## keys) then (i :: (greedy (keys ∪ W i) p).1, (greedy (keys ∪ W i) p).2)
  else ((greedy keys p).1, i :: (greedy keys p).2).
Proof.
  cbn [greedy]. destruct (decide _); [by destruct (greedy (keys ∪ W i) p)
    | by destruct (greedy keys p)].
Qed.

Lemma greedy_perm (keys : gset SledKey) (p : list nat) :
  Permutation ((greedy keys p).1 ++ (greedy keys p).2) p.
Proof.
  revert keys. induction p as [|i p IH]; intros keys; [done |].
  rewrite greedy_cons. destruct (decide _); cbn [fst snd app].
  - by rewrite IH.
  - by rewrite <- Permutation_middle, IH.
Qed.

Lemma greedy_elem (keys : gset SledKey) (p : list nat) (i : nat) :
  i ∈ p <-> i ∈ (greedy keys p).1 \/ i ∈ (greedy keys p).2.
Proof. by rewrite <- elem_of_app, greedy_perm. Qed.

Lemma greedy_nonempty (i : nat) (p : list nat) : exists t, (greedy ∅ (i :: p)).1 = i :: t.
Proof.
  rewrite greedy_cons, decide_True by apply disjoint_empty_r. cbn [fst]. eauto.
Qed.

Lemma greedy_left_shorter (i : nat) (p : list nat) : (length (greedy ∅ (i :: p)).2 <= length p)%nat.
Proof.
  pose proof (Permutation_length (greedy_perm ∅ (i :: p))) as Hl. rewrite length_app in Hl.
  destruct (greedy_nonempty i p) as [t Ht]. rewrite Ht in Hl. cbn [length] in Hl. lia.
Qed.

(** The taken calls avoid the keys they started from and one another. *)
Lemma greedy_disjoint_keys (keys : gset SledKey) (p : list nat) (i : nat) :
  i ∈ (greedy keys p).1 -> W i ## keys.
Proof.
  revert keys. induction p as [|j p IH]; intros keys Hi; [by apply not_elem_of_nil in Hi |].
  rewrite greedy_cons in Hi. destruct (decide _) as [Hd | Hd]; cbn [fst] in Hi; [| by apply IH].
  apply elem_of_cons in Hi as [-> | Hi]; [done |]. apply IH in Hi.
  intros x Hx Hk. by apply (Hi x Hx), elem_of_union_l.
Qed.

Lemma greedy_pairwise (keys : gset SledKey) (p : list nat) :
  StronglySorted (fun i j => W i ## W j) (greedy keys p).1.
Proof.
  revert keys. induction p as [|j p IH]; intros keys; [constructor |].
  rewrite greedy_cons. destruct (decide _) as [Hd | Hd]; cbn [fst]; [| apply IH].
  constructor; [apply IH |]. apply Forall_forall. intros i Hi.
  apply greedy_disjoint_keys in Hi. intros x Hx Hk. by apply (Hi x Hk), elem_of_union_r.
Qed.

(** A call left behind collides with the initial keys or with an earlier call
    that was taken. *)
Lemma greedy_left_conflict (keys : gset SledKey) (p : list nat) (i : nat) :
  StronglySorted lt p -> i ∈ (greedy keys p).2 ->
  ~ (W i ## keys) \/ exists j, j ∈ (greedy keys p).1 /\ (j < i)%nat /\ conflict j i.
Proof.
  revert keys. induction p as [|j p IH]; intros keys Hs Hi; [by apply not_elem_of_nil in Hi |].
  apply StronglySorted_inv in Hs as [Hs Hlt]. rewrite Forall_forall in Hlt.
  rewrite greedy_cons in Hi |- *. destruct (decide _) as [Hd | Hd]; cbn [fst snd] in *.
  - destruct (IH _ Hs Hi) as [Hc | (j' & Hj & Hji & Hc)].
    + destruct (decide (W i ## keys)) as [Hk | Hk]; [right | by left].
      exists j. split_and!; [apply list_elem_of_here | |].
      * apply Hlt, (greedy_elem (keys ∪ W j)). by right.
      * intros Hji. apply Hc. intros x Hx Hu. apply elem_of_union in Hu as [Hu | Hu];
          [by apply (Hk x) | by apply (Hji x)].
    + right. exists j'. split; [by apply list_elem_of_further | done].
  - apply elem_of_cons in Hi as [-> | Hi]; [by left | by apply IH].
Qed.

Lemma greedy_sorted (keys : gset SledKey) (p : list nat) :
  StronglySorted lt p -> StronglySorted lt (greedy keys p).1 /\ StronglySorted lt (greedy keys p).2.
Proof.
  revert keys. induction p as [|j p IH]; intros keys Hs; [split; constructor |].
  apply StronglySorted_inv in Hs as [Hs Hlt]. rewrite Forall_forall in Hlt.
  rewrite greedy_cons. destruct (decide _) as [Hd | Hd]; cbn [fst snd].
  - destruct (IH (keys ∪ W j) Hs) as [H1 H2]. split; [| done]. constructor; [done |].
    apply Forall_forall. intros i Hi. apply Hlt, (greedy_elem (keys ∪ W j)). by left.
  - destruct (IH keys Hs) as [H1 H2]. split; [done |]. constructor; [done |].
    apply Forall_forall. intros i Hi. apply Hlt, (greedy_elem keys). by right.
Qed.
End reference.

(** ** The waves of the reference *)

Lemma sorted_impl (R1 R2 : nat -> nat -> Prop) (l : list nat) :
  (forall i j, R1 i j -> R2 i j) -> StronglySorted R1 l -> StronglySorted R2 l.
Proof.
  intros HR. induction 1 as [|a l Hs IH Ha]; constructor; [done |].
  eapply Forall_impl; [exact Ha | apply HR].
Qed.

Section waves.
Variable W : nat -> gset SledKey.

Lemma greedy_waves_cons (fuel : nat) (i : nat) (p : list nat) :
  greedy_waves W (S fuel) (i :: p) =
  (greedy W ∅ (i :: p)).1 :: greedy_waves W fuel (greedy W ∅ (i :: p)).2.
Proof. cbn [greedy_waves]. by destruct (greedy W ∅ (i :: p)). Qed.

Lemma greedy_waves_perm (fuel : nat) (p : list nat) :
  (length p <= fuel)%nat -> Permutation (concat (greedy_waves W fuel p)) p.
Proof.
  revert p. induction fuel as [|fuel IH]; intros [|i p] Hf; try done; [simpl in Hf; lia |].
  rewrite greedy_waves_cons. cbn [concat length] in *. pose proof (greedy_left_shorter W i p).
  rewrite IH by lia. apply greedy_perm.
Qed.

Lemma greedy_waves_count (fuel : nat) (p : list nat) : (length (greedy_waves W fuel p) <= fuel)%nat.
Proof.
  revert p. induction fuel as [|fuel IH]; intros [|i p]; try (simpl; lia).
  rewrite greedy_waves_cons. cbn [length]. specialize (IH (greedy W ∅ (i :: p)).2). lia.
Qed.

(** What a wave owes to its members and to the waves after it. *)
Definition wave_sound (t : list nat) (later : list (list nat)) : Prop :=
  t <> [] /\ StronglySorted lt t /\ StronglySorted (fun i j => W i ## W j) t /\
  forall i, i ∈ concat later -> exists j, j ∈ t /\ (j < i)%nat /\ conflict W j i.

Lemma greedy_waves_sound (fuel : nat) (p : list nat) (ws1 : list (list nat)) (t : list nat)
    (ws2 : list (list nat)) :
  (length p <= fuel)%nat -> StronglySorted lt p ->
  greedy_waves W fuel p = ws1 ++ t :: ws2 -> wave_sound t ws2.
Proof.
  revert p ws1. induction fuel as [|fuel IH]; intros [|i p] ws1 Hf Hs Heq; try (by destruct ws1).
  rewrite greedy_waves_cons in Heq. cbn [length] in Hf. pose proof (greedy_left_shorter W i p) as Hsh.
  destruct (greedy_sorted W ∅ _ Hs) as [Hs1 Hs2]. destruct ws1 as [|t' ws1]; cbn [app] in Heq.
  - assert (t = (greedy W ∅ (i :: p)).1 /\ ws2 = greedy_waves W fuel (greedy W ∅ (i :: p)).2)
      as [-> ->] by (split; congruence).
    split_and!; [| done | apply greedy_pairwise |].
    + by destruct (greedy_nonempty W i p) as [t ->].
    + intros k Hk. rewrite greedy_waves_perm in Hk by lia.
      destruct (greedy_left_conflict W ∅ _ _ Hs Hk) as [Hc | Hc]; [| done].
      by destruct Hc; apply disjoint_empty_r.
  - apply (IH (greedy W ∅ (i :: p)).2 ws1); [lia | done | congruence].
Qed.

Lemma pairwise_conflict (t : list nat) (i j : nat) :
  StronglySorted (fun i j => W i ## W j) t -> i ∈ t -> j ∈ t -> conflict W i j -> i = j.
Proof.
  induction t as [|a t IH]; intros Hs Hi Hj Hc; [by apply not_elem_of_nil in Hi |].
  apply StronglySorted_inv in Hs as [Hs Ha]. rewrite Forall_forall in Ha.
  apply elem_of_cons in Hi as [-> | Hi]; apply elem_of_cons in Hj as [-> | Hj]; [done | | | by apply IH].
  - by destruct Hc; apply Ha.
  - destruct Hc. symmetry. by apply Ha.
Qed.

(** Two conflicting calls appear in block order. *)
Definition in_order (l : list nat) : Prop :=
  StronglySorted (fun i j => conflict W i j -> (i < j)%nat) l.

Lemma in_order_app (l1 l2 : list nat) :
  in_order l1 -> in_order l2 ->
  (forall i j, i ∈ l1 -> j ∈ l2 -> conflict W i j -> (i < j)%nat) -> in_order (l1 ++ l2).
Proof.
  unfold in_order. induction l1 as [|a l1 IH]; intros H1 H2 H12; [done |].
  apply StronglySorted_inv in H1 as [H1 Ha]. cbn [app]. constructor.
  - apply IH; [done | done |]. intros i j Hi. apply H12. by apply list_elem_of_further.
  - apply Forall_app. split; [done |]. apply Forall_forall. intros j Hj. apply H12; [| done].
    apply list_elem_of_here.
Qed.

(** [ws] is [waves] with each wave rearranged. *)
Definition interleaving (waves ws : list (list nat)) : Prop := Forall2 Permutation waves ws.

Lemma interleaving_concat (waves ws : list (list nat)) :
  interleaving waves ws -> Permutation (concat waves) (concat ws).
Proof. induction 1 as [|x y l k Hxy _ IH]; [done |]. cbn [concat]. by apply Permutation_app. Qed.

(** A symmetric relation between all members survives rearranging. *)
Lemma pairwise_perm (R : nat -> nat -> Prop) (l1 l2 : list nat) :
  Symmetric R -> Permutation l1 l2 -> StronglySorted R l1 -> StronglySorted R l2.
Proof.
  intros HR. induction 1 as [| x l1 l2 Hp IH | x y l | l1 l2 l3 _ IH1 _ IH2]; intros Hs; [done | | | by auto].
  - apply StronglySorted_inv in Hs as [Hs Hx]. constructor; [by apply IH | by rewrite <- Hp].
  - apply StronglySorted_inv in Hs as [Hs Hy]. apply StronglySorted_inv in Hs as [Hs Hx].
    apply Forall_cons in Hy as [Hyx Hy]. repeat constructor; done.
Qed.

Lemma greedy_waves_in_order (fuel : nat) (p : list nat) (ws : list (list nat)) :
  (forall i j k, conflict W i j -> conflict W j k -> conflict W i k) ->
  (length p <= fuel)%nat -> StronglySorted lt p -> interleaving (greedy_waves W fuel p) ws ->
  in_order (concat ws).
Proof.
  intros Htr. revert p ws. induction fuel as [|fuel IH]; intros [|i p] ws Hf Hs Hws;
    try (by apply Forall2_nil_inv_l in Hws as ->; constructor).
  pose proof (greedy_waves_sound (S fuel) (i :: p) [] (greedy W ∅ (i :: p)).1
    (greedy_waves W fuel (greedy W ∅ (i :: p)).2) Hf Hs (greedy_waves_cons _ _ _))
    as (_ & _ & Hpw & Hlater).
  rewrite greedy_waves_cons in Hws. apply Forall2_cons_inv_l in Hws as (t & ws' & Ht & Hws & ->).
  cbn [concat length] in *. pose proof (greedy_left_shorter W i p).
  apply in_order_app; [| apply (IH (greedy W ∅ (i :: p)).2); [lia | by apply greedy_sorted | done] |].
  - eapply sorted_impl; [| eapply pairwise_perm; [| exact Ht | exact Hpw]].
    + intros a b Hd Hc. by destruct Hc.
    + intros a b Hd. by symmetry.
  - intros a b Ha Hb Hab. rewrite <- Ht in Ha. rewrite <- (interleaving_concat _ _ Hws) in Hb.
    destruct (Hlater b Hb) as (a' & Ha' & Hlt & Hab').
    enough (a = a') by (by subst). apply (pairwise_conflict (greedy W ∅ (i :: p)).1); try done.
    apply (Htr a b a'); [done |]. intros Hd. apply Hab'. by symmetry.
Qed.
End waves.

(** ** The loops compute the reference *)

Definition write_set (write_sets : list (gset SledKey)) (i : nat) : gset SledKey :=
  default ∅ (write_sets !! i).

Definition pending (flags : list bool) (l : list nat) : list nat :=
  filter (fun i => flags !! i = Some false) l.

Lemma intersects_spec (w keys : gset SledKey) :
  existsb (fun k => bool_decide (k ∈ keys)) (elements w) = bool_decide (~ (w ## keys)).
Proof.
  apply Bool.eq_iff_eq_true. rewrite existsb_exists, bool_decide_eq_true. split.
  - intros (k & Hk & Hb). apply bool_decide_eq_true in Hb. apply list_elem_of_In in Hk.
    intros Hd. by apply (Hd k); [apply elem_of_elements |].
  - intros Hd. destruct (decide (w ∩ keys = ∅)) as [He | He].
    { destruct Hd. by apply disjoint_intersection_L. }
    apply set_choose_L in He as [k Hk]. apply elem_of_intersection in Hk as [Hw Hk].
    exists k. rewrite bool_decide_true by done. by rewrite <- list_elem_of_In, elem_of_elements.
Qed.

Section loops.
Variable write_sets : list (gset SledKey).
Notation W := (write_set write_sets).

Lemma scan_call_spec (st : scan_state) (i : nat) :
  (i < length write_sets)%nat ->
  scan_call write_sets st i =
  if decide (assigned st !! i = Some false) then
    if decide (W i ## wave_keys st) then
      ScanState (<[i := true]> (assigned st)) (wave st ++ [i]) (wave_keys st ∪ W i)
    else st
  else st.
Proof.
  intros Hi. unfold scan_call, write_set. destruct (lookup_lt_is_Some_2 write_sets i Hi) as [w ->].
  change (default ∅ (Some w)) with w. destruct (assigned st !! i) as [[|]|] eqn:E;
    [by rewrite decide_False | | by rewrite decide_False].
  rewrite decide_True, intersects_spec by done.
  destruct (decide (w ## wave_keys st)) as [Hd | Hd].
  - rewrite bool_decide_false; [done |]. intros Hn. by apply Hn.
  - by rewrite bool_decide_true.
Qed.

Lemma pending_cons (flags : list bool) (j : nat) (l : list nat) :
  pending flags (j :: l) =
  if decide (flags !! j = Some false) then j :: pending flags l else pending flags l.
Proof. unfold pending. by rewrite filter_cons. Qed.

Lemma pending_insert (flags : list bool) (i : nat) (l : list nat) :
  i ∉ l -> pending (<[i := true]> flags) l = pending flags l.
Proof.
  induction l as [|j l IH]; intros Hi; [done |].
  apply not_elem_of_cons in Hi as [Hij Hi]. rewrite !pending_cons, IH by done.
  by rewrite list_lookup_insert_ne by done.
Qed.

Lemma scan_fold (l : list nat) (st : scan_state) :
  NoDup l -> Forall (fun i => (i < length write_sets)%nat) l ->
  let taken := (greedy W (wave_keys st) (pending (assigned st) l)).1 in
  let st' := fold_left (scan_call write_sets) l st in
  wave st' = wave st ++ taken /\
  length (assigned st') = length (assigned st) /\
  forall i, assigned st' !! i = if decide (i ∈ taken) then Some true else assigned st !! i.
Proof.
  revert st. induction l as [|j l IH]; intros st Hnd Hlt.
  { cbn. split_and!; [by rewrite app_nil_r | done | done]. }
  apply NoDup_cons in Hnd as [Hj Hnd]. apply Forall_cons in Hlt as [Hjl Hlt].
  cbv zeta. cbn [fold_left]. rewrite scan_call_spec, pending_cons by done.
  destruct (decide (assigned st !! j = Some false)) as [Ha | Ha];
    [| by apply IH].
  rewrite greedy_cons. destruct (decide (W j ## wave_keys st)) as [Hd | Hd]; [| by apply IH].
  destruct (IH (ScanState (<[j := true]> (assigned st)) (wave st ++ [j]) (wave_keys st ∪ W j)) Hnd Hlt)
    as (Hw & Hl & Hf). cbn [assigned wave wave_keys fst] in *.
  rewrite pending_insert in Hw, Hf by done. split_and!.
  - by rewrite Hw, <- app_assoc.
  - by rewrite Hl, length_insert.
  - intros i. rewrite Hf. destruct (decide (i = j)) as [-> | Hij].
    + rewrite (decide_True _ _ (list_elem_of_here _ _)).
      rewrite list_lookup_insert_eq by (by eapply lookup_lt_Some). by destruct (decide _).
    + rewrite list_lookup_insert_ne by done.
      destruct (decide (i ∈ (greedy W (wave_keys st ∪ W j) (pending (assigned st) l)).1)) as [Hi | Hi].
      * by rewrite decide_True by (by apply list_elem_of_further).
      * rewrite decide_False; [done |]. by intros [? | ?]%elem_of_cons.
Qed.

Lemma seq_sorted (a n : nat) : StronglySorted lt (seq a n).
Proof.
  revert a. induction n as [|n IH]; intros a; cbn [seq]; constructor; [apply IH |].
  apply Forall_forall. intros i Hi. apply elem_of_seq in Hi. lia.
Qed.

Lemma filter_sorted (P : nat -> Prop) `{!forall i, Decision (P i)} (l : list nat) :
  StronglySorted lt l -> StronglySorted lt (filter P l).
Proof.
  induction l as [|a l IH]; intros Hs; [constructor |]. apply StronglySorted_inv in Hs as [Hs Ha].
  rewrite filter_cons. destruct (decide (P a)); [| by apply IH]. constructor; [by apply IH |].
  rewrite Forall_forall in Ha |- *. intros i Hi. apply Ha. by apply list_elem_of_filter in Hi as [_ Hi].
Qed.

Lemma sorted_NoDup (l : list nat) : StronglySorted lt l -> NoDup l.
Proof.
  induction 1 as [|a l Hs IH Ha]; constructor; [| done]. intros Hin.
  rewrite Forall_forall in Ha. specialize (Ha a Hin). lia.
Qed.

Lemma sorted_elem_eq (l1 l2 : list nat) :
  StronglySorted lt l1 -> StronglySorted lt l2 -> (forall i, i ∈ l1 <-> i ∈ l2) -> l1 = l2.
Proof.
  intros H1 H2 Heq.
  assert (forall l, StronglySorted lt l -> StronglySorted le l) as Hle.
  { intros l Hl. eapply sorted_impl; [| exact Hl]. intros; lia. }
  apply (StronglySorted_unique le); [apply Hle; done | apply Hle; done |].
  apply NoDup_Permutation; [by apply sorted_NoDup | by apply sorted_NoDup | done].
Qed.

Definition todo (flags : list bool) : list nat := pending flags (seq 0 (length write_sets)).

Lemma todo_elem (flags : list bool) (i : nat) :
  length flags = length write_sets -> i ∈ todo flags <-> flags !! i = Some false.
Proof.
  intros Hl. unfold todo, pending. rewrite list_elem_of_filter, elem_of_seq.
  split; [by intros [? _] |]. intros Hi. split; [done |]. apply lookup_lt_Some in Hi. lia.
Qed.

Lemma todo_sorted (flags : list bool) : StronglySorted lt (todo flags).
Proof. apply filter_sorted, seq_sorted. Qed.

Lemma todo_nonempty (flags : list bool) :
  length flags = length write_sets -> existsb negb flags = true <-> todo flags <> [].
Proof.
  intros Hl. rewrite existsb_exists. split.
  - intros (b & Hb & Hn). apply negb_true_iff in Hn as ->. apply list_elem_of_In in Hb.
    apply list_elem_of_lookup in Hb as [i Hi]. apply (todo_elem flags i Hl) in Hi.
    intros E. rewrite E in Hi. by apply not_elem_of_nil in Hi.
  - destruct (todo flags) as [|i p] eqn:E; [done |]. intros _.
    assert (i ∈ todo flags) as Hi by (rewrite E; apply list_elem_of_here).
    apply todo_elem in Hi; [| done]. exists false. split; [| done].
    apply list_elem_of_In. by eapply list_elem_of_lookup_2.
Qed.

(** One iteration takes the greedy wave and leaves the rest pending; the
    deadlock breaker is never needed. *)
Lemma scan_wave_spec (flags : list bool) :
  length flags = length write_sets -> todo flags <> [] ->
  wave (scan_wave write_sets flags) = (greedy W ∅ (todo flags)).1 /\
  length (assigned (scan_wave write_sets flags)) = length write_sets /\
  todo (assigned (scan_wave write_sets flags)) = (greedy W ∅ (todo flags)).2.
Proof.
  intros Hl Hne. unfold scan_wave.
  destruct (scan_fold (seq 0 (length write_sets)) (ScanState flags [] ∅)) as (Hw & Hlen & Hf).
  { apply NoDup_seq. }
  { apply Forall_forall. intros i Hi. apply elem_of_seq in Hi. lia. }
  cbn [assigned wave wave_keys app] in *. fold (todo flags) in Hw, Hf.
  set (st := fold_left _ _ _) in *.
  assert (break_deadlock st = st) as ->.
  { unfold break_deadlock. destruct (todo flags) as [|i p]; [done |].
    destruct (greedy_nonempty W i p) as [t Ht]. by rewrite Hw, Ht. }
  split_and!; [done | lia |].
  apply sorted_elem_eq; [apply todo_sorted | apply greedy_sorted, todo_sorted |].
  intros i. rewrite todo_elem, Hf by lia.
  pose proof (greedy_perm W ∅ (todo flags)) as Hp.
  pose proof (sorted_NoDup _ (todo_sorted flags)) as Hnd. rewrite <- Hp in Hnd.
  apply NoDup_app in Hnd as (_ & Hdisj & _).
  pose proof (greedy_elem W ∅ (todo flags) i) as He. rewrite todo_elem in He by done.
  destruct (decide _) as [Hi | Hi]; [| naive_solver].
  split; [done |]. intros Hi2. by destruct (Hdisj i Hi).
Qed.

Lemma build_loop_spec (fuel : nat) (flags : list bool) :
  length flags = length write_sets -> (length (todo flags) <= fuel)%nat ->
  build_loop fuel write_sets flags = Some (greedy_waves W fuel (todo flags)).
Proof.
  revert flags. induction fuel as [|fuel IH]; intros flags Hl Hf; cbn [build_loop];
    pose proof (todo_nonempty flags Hl) as Hex.
  - destruct (todo flags) as [|i p]; [| simpl in Hf; lia].
    destruct (existsb negb flags); [by destruct Hex as [[] _] | done].
  - destruct (existsb negb flags) eqn:E.
    + destruct (scan_wave_spec flags Hl (proj1 Hex eq_refl)) as (Hw & Hl' & Ht).
      destruct (todo flags) as [|i p] eqn:Et; [by destruct (proj1 Hex eq_refl) |].
      pose proof (greedy_left_shorter W i p). cbn [length] in Hf.
      rewrite IH, Hw, Ht, greedy_waves_cons; [done | done | rewrite Ht; lia].
    + destruct (todo flags); [done |]. by destruct Hex as [_ Hex]; specialize (Hex ltac:(done)).
Qed.

Lemma todo_start : todo (replicate (length write_sets) false) = seq 0 (length write_sets).
Proof.
  apply sorted_elem_eq; [apply todo_sorted | apply seq_sorted |]. intros i.
  rewrite todo_elem by apply length_replicate. rewrite elem_of_seq, lookup_replicate. naive_solver lia.
Qed.

(** The program computes the reference schedule. *)
Lemma build_greedy :
  build write_sets = greedy_waves W (length write_sets) (seq 0 (length write_sets)).
Proof.
  unfold build. destruct write_sets as [|w ws] eqn:E; [done |]. rewrite <- E.
  rewrite build_loop_spec, todo_start; [done | apply length_replicate |].
  by rewrite todo_start, length_seq.
Qed.
End loops.

Lemma sum_length_concat (ls : list (list nat)) : total_calls ls = length (concat ls).
Proof.
  unfold total_calls. induction ls as [|l ls IH]; [done |]. cbn [map sum_list concat].
  rewrite length_app, <- IH. done.
Qed.

(** ** Properties *)

(** C32: The schedule loop ends, and its waves are a partition of the calls into
    at most as many waves as calls: every call is scheduled exactly once, the
    calls of one wave write pairwise disjoint keys and stand in block order, and
    a call is put off to a later wave only because it shares a key with an
    earlier call of every wave before its own.  When sharing a key is transitive
    among the calls (for instance when every call writes one key, or one
    record's keys), two calls that share a key stand in block order in every
    sequence that goes through the waves one after the other, the calls of a
    wave rearranged or not. *)
Theorem schedule_partition (write_sets : list (gset SledKey)) :
  let n := length write_sets in
  let W := write_set write_sets in
  is_Some (build_loop n write_sets (replicate n false)) /\
  Permutation (concat (build write_sets)) (seq 0 n) /\
  total_calls (build write_sets) = n /\ (wave_count (build write_sets) <= n)%nat /\
  (forall earlier t later, build write_sets = earlier ++ t :: later -> wave_sound W t later) /\
  ((forall i j k, conflict W i j -> conflict W j k -> conflict W i k) ->
   forall ws, interleaving (build write_sets) ws -> in_order W (concat ws)).
Proof.
  intros n W. assert (length (seq 0 n) <= n)%nat as Hn by (rewrite length_seq; lia).
  assert (Permutation (concat (build write_sets)) (seq 0 n)) as Hp
    by (rewrite build_greedy; by apply greedy_waves_perm).
  split_and!; [| done | | | |].
  - rewrite build_loop_spec; [done | apply length_replicate | by rewrite todo_start].
  - by rewrite sum_length_concat, Hp, length_seq.
  - rewrite build_greedy. apply greedy_waves_count.
  - intros earlier t later Heq. rewrite build_greedy in Heq.
    eapply greedy_waves_sound; [| apply seq_sorted | exact Heq]. done.
  - intros Htr ws Hws. rewrite build_greedy in Hws. by eapply greedy_waves_in_order; [| | apply seq_sorted | exact Hws].
Qed.

(** The three calls of the unit test [test_mixed_keys_two_waves]. *)
Definition mixed_keys : list (gset SledKey) := [{[ [1] ]}; {[ [1]; [2] ]}; {[ [2] ]}].

(** Without transitivity two conflicting calls can stand in the wrong order: on
    the three calls of the unit test the third one is a wave ahead of the second
    although both write key 2. *)
Lemma schedule_reorders_conflict :
  build mixed_keys = [[0; 2]; [1]]%nat /\ conflict (write_set mixed_keys) 1 2 /\
  ~ in_order (write_set mixed_keys) (concat (build mixed_keys)).
Proof.
  assert (conflict (write_set mixed_keys) 1 2) as Hc by (intros Hd; by apply (Hd [2]); vm_compute).
  assert (build mixed_keys = [[0; 2]; [1]]%nat) as Hb by (vm_compute; reflexivity). split_and!; [done | done |]. rewrite Hb. intros Ho.
  apply StronglySorted_inv in Ho as [Ho _]. apply StronglySorted_inv in Ho as [_ [H _]%Forall_cons].
  assert (2 < 1)%nat by (apply H; intros Hd; apply Hc; by symmetry). lia.
Qed.

(** Four calls on two keys, one key each. *)
Definition single_keys : list (gset SledKey) := [{[ [1] ]}; {[ [2] ]}; {[ [1] ]}; {[ [2] ]}].

Lemma single_keys_set (i : nat) : write_set single_keys i ⊆ {[ [Z.of_nat (i mod 2) + 1] ]}.
Proof.
  unfold single_keys, write_set. destruct i as [|[|[|[|i]]]]; cbn; done.
Qed.

Lemma conflict_common (W : nat -> gset SledKey) (i j : nat) :
  conflict W i j -> exists k, k ∈ W i /\ k ∈ W j.
Proof.
  intros Hc. destruct (decide (W i ∩ W j = ∅)) as [He | He].
  { destruct Hc. by apply disjoint_intersection_L. }
  apply set_choose_L in He as [k Hk]. exists k. by apply elem_of_intersection.
Qed.

Lemma schedule_partition_witness :
  build single_keys = [[0; 1]; [2; 3]]%nat /\ in_order (write_set single_keys) [1; 0; 3; 2]%nat.
Proof.
  assert (build single_keys = [[0; 1]; [2; 3]]%nat) as Hb by (vm_compute; reflexivity).
  split; [exact Hb |]. destruct (schedule_partition single_keys) as (_ & _ & _ & _ & _ & H).
  apply (fun Htr => H Htr [[1; 0]; [3; 2]]%nat).
  - intros i j k Hij Hjk Hd. apply conflict_common in Hij as (x & Hxi & Hxj).
    apply conflict_common in Hjk as (y & Hyj & Hyk). apply (Hd x Hxi).
    assert (x = y) as -> by (apply single_keys_set, elem_of_singleton in Hxj;
      apply single_keys_set, elem_of_singleton in Hyj; congruence). done.
  - rewrite Hb. repeat constructor.
Defined.
