(* ===== verification/ChainState.v ===== *)
(** * The chain state ([src/linear/src/chain_state.rs])

    [CChainState] holds the store, the live consensus state, the fee window, the
    risk tracker, the sets of commitments and nullifiers, the competing blocks
    and the height.  Blocks enter through [connect_block] and leave through
    [disconnect_block]; both run under the connect lock, so each is one step.
    The state is returned with every result, because an error can leave parts of
    it changed.  The pools of RandomX machines are caches of a pure function and
    are left out; a machine that cannot be built is [vm_ok] being false. *)

From Stdlib Require Import String.
From S2P Require Import Prelude F64 Units Emission Serial Externals Transaction Merkle Block Store Competing.
From S2P Require Import Consensus NativeToken L1Contracts Nullifiers FeeWindow ContractRisk Supply Validation Finality.

Definition COINBASE_MATURITY : Z := 100.

(** What the node asks of RandomX and of the Monero crates. *)
Class NodeEnv `{Externals} := {
  vm_ok : bytes -> bool;
  vm_ok_law : forall key m, vm_ok key = false -> randomx key m = None;
  coinbase_merkle_ok : MoneroPowData -> bool;
  aux_pow_binding : Block -> MoneroPowData -> Res unit;
  monero_block_hash : MoneroPowData -> bytes
}.

(** [sled::Batch]: the last operation on a key wins. *)
Abbreviation Batch := (list (bytes * option bytes)).

Definition apply_batch (b : Batch) (t : Tree) : Tree :=
  foldl (fun t op => match op.2 with Some v => <[op.1 := v]> t | None => delete op.1 t end) t b.

Section chain_state.
Context `{EXT : Externals} `{SIG : Signatures} `{INFO : ContractInfo} `{ENV : !NodeEnv}.

Inductive BlockConnectOutcome :=
| CanonicalExtension (new_height : Z)
| CompetingStored
| UncleExtended
| AlreadyKnown.

Inductive ReorgSignal :=
| NoReorg
| Heavier (fork_height : Z) (competing_block : Block)
| Lighter.

Record CChainState := {
  store : LinearStore;
  live : PoWConsensus;
  finality_config : FinalityConfig;
  fee_window : option FeeWindowState;
  contract_risk_tracker : ContractRiskTracker;
  chain_height : Z;
  commitments : gmap bytes Z;
  nullifier_set : gmap bytes Z;
  spent_nullifiers : gset bytes;
  anchor_leaves : list bytes;
  competing : Competing;
  supply_latest : option (Z * CumulativeSupplyEntry);
  tip_cache : option (Z * bytes)
}.

Definition with_live (c : PoWConsensus) (s : CChainState) : CChainState := {|
  store := store s; live := c; finality_config := finality_config s; fee_window := fee_window s;
  contract_risk_tracker := contract_risk_tracker s; chain_height := chain_height s;
  commitments := commitments s; nullifier_set := nullifier_set s; spent_nullifiers := spent_nullifiers s;
  anchor_leaves := anchor_leaves s; competing := competing s; supply_latest := supply_latest s;
  tip_cache := tip_cache s |}.

Definition with_store (st : LinearStore) (s : CChainState) : CChainState := {|
  store := st; live := live s; finality_config := finality_config s; fee_window := fee_window s;
  contract_risk_tracker := contract_risk_tracker s; chain_height := chain_height s;
  commitments := commitments s; nullifier_set := nullifier_set s; spent_nullifiers := spent_nullifiers s;
  anchor_leaves := anchor_leaves s; competing := competing s; supply_latest := supply_latest s;
  tip_cache := tip_cache s |}.

Definition with_competing (c : Competing) (s : CChainState) : CChainState := {|
  store := store s; live := live s; finality_config := finality_config s; fee_window := fee_window s;
  contract_risk_tracker := contract_risk_tracker s; chain_height := chain_height s;
  commitments := commitments s; nullifier_set := nullifier_set s; spent_nullifiers := spent_nullifiers s;
  anchor_leaves := anchor_leaves s; competing := c; supply_latest := supply_latest s;
  tip_cache := tip_cache s |}.

(** The components the commit closure updates before the store. *)
Definition with_parts (fw : option FeeWindowState) (t : ContractRiskTracker) (st : LinearStore) (c : PoWConsensus)
    (s : CChainState) : CChainState := {|
  store := st; live := c; finality_config := finality_config s; fee_window := fw;
  contract_risk_tracker := t; chain_height := chain_height s;
  commitments := commitments s; nullifier_set := nullifier_set s; spent_nullifiers := spent_nullifiers s;
  anchor_leaves := anchor_leaves s; competing := competing s; supply_latest := supply_latest s;
  tip_cache := tip_cache s |}.

(** ** Reads *)

Definition chain_block (s : CChainState) (h : Z) : Res Block :=
  match get_block (store s) h with Ok b => Ok b | Err _ => Err (StorageError "get_block") end.

Definition get_latest_block (s : CChainState) : Res Block :=
  if chain_height s =? 0 then Err (BlockNotFound (chain_height s)) else chain_block s (chain_height s).

(** [hash_block_with_cached_vm]. *)
Definition hash_block (b : Block) : Res bytes :=
  if vm_ok (randomx_key (header b)) then hash_with_vm (header b) (randomx_key (header b)) else Err RandomXError.

(** [tip_hash]: the cache answers when it is for the current height. *)
Definition tip_hash (s : CChainState) : CChainState * option (Z * bytes) :=
  let h := chain_height s in
  let recompute :=
    match get_block (store s) h with
    | Err _ => (s, None)
    | Ok tip =>
        match hash_block tip with
        | Err _ => (s, None)
        | Ok hash =>
            ({| store := store s; live := live s; finality_config := finality_config s; fee_window := fee_window s;
                contract_risk_tracker := contract_risk_tracker s; chain_height := chain_height s;
                commitments := commitments s; nullifier_set := nullifier_set s;
                spent_nullifiers := spent_nullifiers s; anchor_leaves := anchor_leaves s; competing := competing s;
                supply_latest := supply_latest s; tip_cache := Some (h, hash) |}, Some (h, hash))
        end
    end in
  match tip_cache s with
  | Some (h', hash) => if h' =? h then (s, Some (h', hash)) else recompute
  | None => recompute
  end.

Fixpoint blocks_at (s : CChainState) (hs : list Z) : Res (list Block) :=
  match hs with
  | [] => Ok []
  | h :: rest => let? b := chain_block s h in let? bs := blocks_at s rest in Ok (b :: bs)
  end.

Definition window_counts_before (s : CChainState) (boundary : Z) : Res WindowCounts :=
  let? bs := blocks_at s (completed_window_heights boundary) in Ok (window_counts bs).

Definition derive_fee_window (s : CChainState) (h : Z) : Res (FeeWindowSnapshot * Z) :=
  match fee_window s with
  | None => Err (StorageError "fee window state is not initialized")
  | Some fw =>
      let? counts := window_counts_before s h in
      let '(circuit, wasm) := derive_window counts fw in
      Ok ({| snap_circuit := circuit; snap_wasm := wasm |}, encode_flags_for fw circuit wasm)
  end.

(** Heights [max(1, at - 11) .. at), missing blocks skipped. *)
Definition recent_timestamps (s : CChainState) (at_h : Z) : list Z :=
  let start := if 11 <? at_h then at_h - 11 else 1 in
  gather_timestamps (store s) (Z.to_nat (at_h - start)) start.

Definition block_target_at (s : CChainState) (h : Z) : Res (option Z) :=
  if (h =? 0) || (chain_height s <? h) then Ok None
  else let? t := get_next_work_required (live s) (store s) h in Ok (Some t).

Definition has_commitment (s : CChainState) (c : bytes) : bool := bool_decide (is_Some (commitments s !! c)).
Definition has_nullifier (s : CChainState) (n : bytes) : bool := bool_decide (n ∈ spent_nullifiers s).
Definition nullifier_height (s : CChainState) (n : bytes) : option Z := nullifier_set s !! n.

(** Every key of the uncles tree must be 32 bytes. *)
Definition stored_uncle_hashes (s : CChainState) : Res (gset bytes) :=
  if forallb (fun kv : bytes * bytes => (List.length kv.1 =? 32)%nat) (map_to_list (uncles (store s)))
  then Ok (dom (uncles (store s))) else Err (StorageError "uncles tree key is not 32 bytes").

Definition immature (s : CChainState) (h : Z) (n : bytes) : bool :=
  match nullifier_height s n with
  | Some created_at => saturating_sub h created_at <? COINBASE_MATURITY
  | None => false
  end.

Definition check_coinbase_maturity (s : CChainState) (b : Block) (h : Z) : Res unit :=
  if existsb (fun tx => negb (is_pow_reward_coinbase_tx tx) && existsb (immature s h) (nullifiers tx)) (transactions b)
  then Err (BlockIsInvalid "Immature coinbase spend") else Ok tt.

(** ** What a transaction claims, mints and spends *)

(** The coinbase's commitment and claim nullifier. *)
Definition pow_claim (tx : Transaction) : list (bytes * bytes) :=
  match contract_calls tx with
  | c :: _ =>
      match PoWRewardParamsV1.dec (drop 1 (data c)) with
      | Ok p => [(Output.commitment (PoWRewardParamsV1.output p), PoWRewardParamsV1.nullifier p)]
      | Err _ => []
      end
  | [] => []
  end.

Definition native_selector (sel : Z) (c : ContractCall) : bool :=
  bool_decide (contract_id c = NATIVE_TOKEN_CONTRACT_ID) && first_byte_is sel (data c).

(** The first FeeCollectV1 call, and no other. *)
Definition fee_claim (tx : Transaction) : list (bytes * bytes) :=
  match List.find (native_selector 0x06) (contract_calls tx) with
  | Some c =>
      match FeeCollectParamsV1.dec (drop 1 (data c)) with
      | Ok p => [(Output.commitment (FeeCollectParamsV1.output p), FeeCollectParamsV1.nullifier p)]
      | Err _ => []
      end
  | None => []
  end.

Definition uncle_mints (tx : Transaction) : list bytes :=
  flat_map (fun c =>
    if native_selector 0x07 c then
      match UncleMintParamsV1.dec (drop 1 (data c)) with
      | Ok p => [Output.commitment (UncleMintParamsV1.output p)]
      | Err _ => []
      end
    else []) (contract_calls tx).

(** [first] says whether the coinbase rule applies to this transaction. *)
Definition claims_of (first : bool) (tx : Transaction) : list (bytes * bytes) :=
  (if first && is_pow_reward_coinbase_tx tx then pow_claim tx else []) ++ fee_claim tx.

Definition spends_of (first : bool) (tx : Transaction) : list bytes :=
  List.filter (fun n => negb (existsb (fun c => bool_decide (c.2 = n)) (claims_of first tx))) (nullifiers tx).

Definition indexed {A : Type} (l : list A) : list (nat * A) := combine (seq 0 (List.length l)) l.

(** ** The commit closure *)

(** OBL-C146: a claim transaction spends nothing, every other one declares what
    its calls spend. *)
Definition reconcile_tx (i : nat) (tx : Transaction) : Res unit :=
  let is_claim_tx := ((i =? 0)%nat && is_pow_reward_coinbase_tx tx) || is_fee_collect_tx tx in
  let? (derived, all_l1) := derive_l1_nullifiers (contract_calls tx) in
  if is_claim_tx then
    if negb (bool_decide (derived = ∅)) then Err (BlockIsInvalid "a claim transaction spends nullifiers") else Ok tt
  else match reconcile_declared derived (nullifiers tx) all_l1 with
       | Ok _ => Ok tt
       | Err e => Err (BlockIsInvalid e)
       end.

Fixpoint reconcile_all (txs : list (nat * Transaction)) : Res unit :=
  match txs with
  | [] => Ok tt
  | (i, tx) :: rest => let? _ := reconcile_tx i tx in reconcile_all rest
  end.

(** The replay gate, over every declared nullifier of the block. *)
Fixpoint replay_gate (s : CChainState) (nfs : list bytes) (block_nfs : gset bytes) : Res unit :=
  match nfs with
  | [] => Ok tt
  | nf :: rest =>
      if has_nullifier s nf then Err (BlockIsInvalid "nullifier already spent by an earlier block")
      else if bool_decide (nf ∈ block_nfs) then Err (BlockIsInvalid "nullifier declared twice in the block")
      else replay_gate s rest (block_nfs ∪ {[ nf ]})
  end.

Definition block_nullifiers (b : Block) : list bytes := flat_map nullifiers (transactions b).

Definition claim_value (h : Z) : bytes := 0 :: to_le_bytes 8 h.
Definition spend_value (h : Z) : bytes := 1 :: to_le_bytes 8 h.

(** The commitment and nullifier batches of one transaction. *)
Definition disk_tx (h : Z) (trees : Tree * Tree) (itx : nat * Transaction) : Tree * Tree :=
  let first := (itx.1 =? 0)%nat in
  let tx := itx.2 in
  let coins := foldl (fun t c => <[c.1 := BlockHeight.bytes h]> t) trees.1 (claims_of first tx) in
  let nulls := foldl (fun t c => <[c.2 := claim_value h]> t) trees.2 (claims_of first tx) in
  (foldl (fun t c => <[c := BlockHeight.bytes h]> t) coins (uncle_mints tx),
   foldl (fun t n => <[n := spend_value h]> t) nulls (spends_of first tx)).

Definition disk_block (h : Z) (b : Block) (trees : Tree * Tree) : Tree * Tree :=
  foldl (disk_tx h) trees (indexed (transactions b)).

(** Contract risk of the calls, fee calls excepted. *)
Definition record_call (st : LinearStore) (h : Z) (t : ContractRiskTracker) (c : ContractCall) : ContractRiskTracker :=
  match as_mass_balance_fee_v3 c with
  | Some _ => t
  | None =>
      match data c with
      | [] => t
      | selector :: _ =>
          match call_cost_observation st (contract_id c) selector with
          | Some (function, declared, measured) => record (contract_id c) function declared measured h t
          | None => t
          end
      end
  end.

Definition record_calls (st : LinearStore) (h : Z) (b : Block) (t : ContractRiskTracker) : ContractRiskTracker :=
  foldl (record_call st h) t (flat_map contract_calls (transactions b)).

Definition set_risk_tree (t : Tree) (s : LinearStore) : LinearStore := {|
  blocks := blocks s; transactions_tree := transactions_tree s; contracts := contracts s;
  uncles := uncles s; consensus := consensus s; commitment_set := commitment_set s;
  nullifiers_tree := nullifiers_tree s; supply_chain := supply_chain s;
  block_targets := block_targets s; contract_risk := t;
  contracts_undo := contracts_undo s; uncles_by_height := uncles_by_height s |}.

Definition key_accumulated_work : bytes := ascii_key "accumulated_work".

Definition uncle_hash (u : UncleBlock) : bytes := blake3 (serialize BlockHeader_codec (uncle_header u)).

Definition hash_list_codec : codec (list bytes) := vec_codec arr32.

(** The cross-tree transaction. *)
Definition commit_trees (b : Block) (us : list UncleBlock) (contracts_batch supply_batch : Batch)
    (undo : option bytes) (c : PoWConsensus) (fw : option FeeWindowState) (s : LinearStore) : LinearStore :=
  let h := height (header b) in
  let key := height_key h in
  let '(coins, nulls) := disk_block h b (commitment_set s, nullifiers_tree s) in
  let hashes := map uncle_hash us in
  let cons1 := save c (consensus s) in
  let cons2 := match fw with
               | Some w => if FeeWindowId.is_window_boundary h then save_boundary w h cons1 else save_window w cons1
               | None => cons1
               end in
  {| blocks := <[key := serialize Block_codec b]> (blocks s);
     transactions_tree := transactions_tree s;
     contracts := apply_batch contracts_batch (contracts s);
     uncles := foldl (fun t u => <[uncle_hash u := serialize UncleBlock_codec u]> t) (uncles s) us;
     consensus := <[key_accumulated_work := to_le_bytes 16 (accumulated_work c)]> cons2;
     commitment_set := coins; nullifiers_tree := nulls;
     supply_chain := apply_batch supply_batch (supply_chain s);
     block_targets := <[height_key (BlockHeight.succ h) := BlockTarget.bytes (cur_target c)]> (block_targets s);
     contract_risk := contract_risk s;
     contracts_undo := match undo with Some u => <[key := u]> (contracts_undo s) | None => contracts_undo s end;
     uncles_by_height := match hashes with
                         | [] => uncles_by_height s
                         | _ => <[key := serialize hash_list_codec hashes]> (uncles_by_height s)
                         end |}.

(** The checks at the start of the closure, none of which changes the state. *)
Definition commit_checks (b : Block) (us : list UncleBlock) (s : CChainState) : Res unit :=
  let? _ := (match us with
             | [] => if negb (bool_decide (uncle_merkle_root (header b) = zero32))
                     then Err (UncleMerkleRootMismatch (uncle_merkle_root (header b))) else Ok tt
             | _ => if bool_decide (uncle_merkle_root (header b) = zero32)
                    then Err (UncleMerkleRootMismatch zero32) else Ok tt
             end : Res unit) in
  let? _ := reconcile_all (indexed (transactions b)) in
  replay_gate s (block_nullifiers b) ∅.

(** The risk tracker, saved at a boundary outside the transaction. *)
Definition commit_risk (b : Block) (s : CChainState) : CChainState :=
  let h := height (header b) in
  let t1 := record_calls (store s) h b (contract_risk_tracker s) in
  if FeeWindowId.is_window_boundary h then
    let t2 := (evaluate_all_windows t1).1 in
    with_parts (fee_window s) t2 (set_risk_tree (save_to_tree t2 (contract_risk (store s))) (store s)) (live s) s
  else with_parts (fee_window s) t1 (store s) (live s) s.

Definition commit_window (b : Block) (s : CChainState) : CChainState * Res unit :=
  let h := height (header b) in
  if FeeWindowId.is_window_boundary h then
    match fee_window s with
    | Some fw =>
        match window_counts_before s h with
        | Err e => (s, Err e)
        | Ok counts =>
            (with_parts (Some (adjust_from_window counts fw).1) (contract_risk_tracker s) (store s) (live s) s, Ok tt)
        end
    | None => (s, Ok tt)
    end
  else (s, Ok tt).

Definition commit_block (b : Block) (us : list UncleBlock) (contracts_batch supply_batch : option Batch)
    (undo : option bytes) (s : CChainState) : CChainState * Res unit :=
  match commit_checks b us s with
  | Err e => (s, Err e)
  | Ok _ =>
      match commit_window b (commit_risk b s) with
      | (s1, Err e) => (s1, Err e)
      | (s1, Ok _) =>
          let s2 := with_live (add_block_work (target (header b)) (live s1)) s1 in
          if (BlockHeight.GENESIS <? height (header b)) &&
             (bool_decide (contracts_batch = None) || bool_decide (supply_batch = None))
          then (s2, Err (StorageError "connect_block: batch is None"))
          else (with_store (commit_trees b us (default [] contracts_batch) (default [] supply_batch) undo
                  (live s2) (fee_window s2) (store s2)) s2, Ok tt)
      end
  end.

(** ** After the commit: the in-memory sets *)

Definition track_nullifier (n : bytes) (h : Z) (is_spend : bool) (sets : gmap bytes Z * gset bytes) :
    gmap bytes Z * gset bytes :=
  if is_spend then (sets.1, sets.2 ∪ {[ n ]}) else (<[n := h]> sets.1, sets.2).

(** Here the coinbase rule is not limited to the first transaction. *)
Definition memory_tx (h : Z) (m : gmap bytes Z * (gmap bytes Z * gset bytes)) (tx : Transaction) :
    gmap bytes Z * (gmap bytes Z * gset bytes) :=
  let coins := foldl (fun t c => <[c.1 := h]> t) m.1 (claims_of true tx) in
  let sets := foldl (fun t c => track_nullifier c.2 h false t) m.2 (claims_of true tx) in
  (foldl (fun t c => <[c := h]> t) coins (uncle_mints tx),
   foldl (fun t n => track_nullifier n h true t) sets (spends_of true tx)).

Definition memory_block (h : Z) (b : Block) (m : gmap bytes Z * (gmap bytes Z * gset bytes)) :=
  foldl (memory_tx h) m (transactions b).

Definition fresh_anchor_leaves : list bytes := [to_le_bytes 32 2].

(** Entries older than the maturity leave the maps of heights. *)
Definition prune_heights (h : Z) (m : gmap bytes Z) : gmap bytes Z :=
  if COINBASE_MATURITY <? h
  then filter (fun kv : bytes * Z => BlockHeight.saturating_sub_blocks h COINBASE_MATURITY <= kv.2) m
  else m.

Definition after_commit (b : Block) (s : CChainState) : CChainState :=
  let h := height (header b) in
  let '(coins, (nulls, spent)) := memory_block h b (commitments s, (nullifier_set s, spent_nullifiers s)) in
  {| store := store s; live := live s; finality_config := finality_config s; fee_window := fee_window s;
     contract_risk_tracker := contract_risk_tracker s;
     chain_height := if chain_height s <? h then h else chain_height s;
     commitments := prune_heights h coins; nullifier_set := prune_heights h nulls; spent_nullifiers := spent;
     anchor_leaves := fresh_anchor_leaves; competing := prune_competing h (competing s);
     supply_latest := supply_latest s; tip_cache := tip_cache s |}.

(** ** [connect_block] *)

Abbreviation pow_stage := (check_pow_stage coinbase_merkle_ok aux_pow_binding monero_block_hash).
Abbreviation header_check := (check_block_header coinbase_merkle_ok aux_pow_binding monero_block_hash).

Definition validate_competing_block (s : CChainState) (b : Block) (h : Z) : Res unit :=
  let? block_hash := hash_with_vm (header b) (randomx_key (header b)) in
  let? _ := pow_stage b block_hash in
  let? expected := get_next_work_required (live s) (store s) h in
  if negb (target (header b) =? expected) then Err (InvalidTarget (target (header b)) expected h)
  else check_block_timestamp (timestamp (header b)) h (recent_timestamps s h).

(** A block at the height of the tip. *)
Definition connect_sibling (b : Block) (s : CChainState) : CChainState * Res BlockConnectOutcome :=
  let h := height (header b) in
  match validate_competing_block s b h with
  | Err e => (s, Err e)
  | Ok _ =>
      let parent_check : Res unit :=
        if 0 <? chain_height s then
          let? sibling := chain_block s (chain_height s) in
          if negb (bool_decide (previous (header b) = previous (header sibling)))
          then Err (InvalidPreviousHash (previous (header b))) else Ok tt
        else Ok tt in
      match parent_check with
      | Err e => (s, Err e)
      | Ok _ => (with_competing (connect_competing b h (competing s)) s, Ok CompetingStored)
      end
  end.

(** From the target to the anchored-conflict check: everything that is verified
    before the live consensus state changes. *)
Definition connect_checks (b : Block) (tip : option bytes) (s : CChainState) : Res unit :=
  let h := height (header b) in
  let? expected := get_next_work_required (live s) (store s) h in
  let? _ := header_check b (randomx_key (header b)) expected (chain_height s) tip in
  let? _ := check_block_timestamp (timestamp (header b)) h (recent_timestamps s h) in
  match get_block (store s) h with
  | Ok existing => if finalized (finality_config s) (header existing) then Err AnchoredBlockConflict else Ok tt
  | Err _ => Ok tt
  end.

(** The checks between the consensus update and the closure: the uncle split and
    the maturity rule. *)
Definition pre_commit_checks (b : Block) (us : list UncleBlock) (s : CChainState) : Res unit :=
  let h := height (header b) in
  let? total_pin := total_accepted_pin us in
  let? _ := verify_uncle_split (expected_reward h) (total_reward (header b)) [total_pin] in
  check_coinbase_maturity s b h.

Definition connect_canonical (b : Block) (us : list UncleBlock) (contracts_batch supply_batch : option Batch)
    (undo : option bytes) (tip : option bytes) (s : CChainState) : CChainState * Res BlockConnectOutcome :=
  match connect_checks b tip s with
  | Err e => (s, Err e)
  | Ok _ =>
      let pre := live s in
      let s1 := with_live (adjust_target (record_block (timestamp (header b)) pre)).2 s in
      match pre_commit_checks b us s1 with
      | Err e => (s1, Err e)
      | Ok _ =>
          match commit_block b us contracts_batch supply_batch undo s1 with
          | (s2, Err e) =>
              (with_live (set_timestamps (timestamps pre) (set_target (cur_target pre) (live s2))) s2, Err e)
          | (s2, Ok _) => (after_commit b s2, Ok (CanonicalExtension (height (header b))))
          end
      end
  end.

(** The hash of the tip; [None] before the genesis block. *)
Definition current_tip (s : CChainState) : Res (option bytes) :=
  if 0 <? chain_height s then
    let? prev := chain_block s (chain_height s) in
    let? hash := hash_block prev in
    Ok (Some hash)
  else Ok None.

Definition connect_next (b : Block) (us : list UncleBlock) (contracts_batch supply_batch : option Batch)
    (undo : option bytes) (s : CChainState) : CChainState * Res BlockConnectOutcome :=
  match current_tip s with
  | Err e => (s, Err e)
  | Ok tip =>
      let builds_on_tip := match tip with Some th => bool_decide (previous (header b) = th) | None => true end in
      match (if builds_on_tip then None else uncle_parent (previous (header b)) (chain_height s) (competing s)) with
      | Some _ =>
          match validate_competing_block s b (height (header b)) with
          | Err e => (s, Err e)
          | Ok _ => (with_competing (connect_competing b (height (header b)) (competing s)) s, Ok UncleExtended)
          end
      | None => connect_canonical b us contracts_batch supply_batch undo tip s
      end
  end.

Definition connect_block (b : Block) (us : list UncleBlock) (contracts_batch supply_batch : option Batch)
    (undo : option bytes) (s : CChainState) : CChainState * Res BlockConnectOutcome :=
  let h := height (header b) in
  let cur := chain_height s in
  if negb (vm_ok (randomx_key (header b))) then (s, Err RandomXError)
  else if BlockHeight.succ cur <? h then (s, Err (HeightDiscontinuity (BlockHeight.succ cur) h))
  else if h <? cur then (s, Ok AlreadyKnown)
  else if h =? cur then connect_sibling b s
  else connect_next b us contracts_batch supply_batch undo s.

(** ** Fork choice *)

Definition detect_reorg (b : Block) (s : CChainState) : Res ReorgSignal :=
  let cur := chain_height s in
  if negb (height (header b) =? BlockHeight.succ cur) then Ok NoReorg
  else match uncle_parent (previous (header b)) cur (competing s) with
       | None => Ok NoReorg
       | Some parent =>
           let? canonical := chain_block s cur in
           if finalized (finality_config s) (header canonical) then Ok NoReorg
           else
             let canonical_work := accumulated_work (live s) in
             let uncle_work :=
               saturating_add 128
                 (saturating_add 128
                    (saturating_sub canonical_work (BlockTarget.chain_work (target (header canonical))))
                    (BlockTarget.chain_work (target (header parent))))
                 (BlockTarget.chain_work (target (header b))) in
             if canonical_work <? uncle_work then Ok (Heavier cur parent) else Ok Lighter
       end.

Fixpoint finalized_from (s : CChainState) (n : nat) (h : Z) : Res bool :=
  match n with
  | O => Ok false
  | S n' =>
      let? b := chain_block s h in
      if finalized (finality_config s) (header b) then Ok true else finalized_from s n' (h + 1)
  end.

Definition displaced_range_is_finalized (s : CChainState) (fork_point : Z) : Res bool :=
  let start := BlockHeight.succ fork_point in
  finalized_from s (Z.to_nat (chain_height s - start + 1)) start.

(** ** [disconnect_block] *)

(** The target the disconnect computes: one adjustment per adjacent pair of the
    window's timestamps, from the initial target. *)
Fixpoint pairwise_target (c : PoWConsensus) (ts : list Z) (t : Z) : Z :=
  match ts with
  | a :: ((b :: _) as rest) =>
      pairwise_target c rest
        (compute_adjustment [a; b] t (target_block_time c) (min_target c) (max_target c))
  | _ => t
  end.

Definition rollback_target (c : PoWConsensus) (h : Z) : Z :=
  if 1 <? h then pairwise_target c (timestamps c) (initial_target c) else initial_target c.

Definition rollback_consensus (b : Block) (h : Z) (c : PoWConsensus) : PoWConsensus :=
  let c1 := set_work (saturating_sub (accumulated_work c) (BlockTarget.chain_work (target (header b)))) c in
  let c2 := set_timestamps (removelast (timestamps c1)) c1 in
  set_target (rollback_target c2 h) c2.

(** Keys removed from the trees of commitments and nullifiers. *)
Definition claimed_commitments (b : Block) : list bytes :=
  flat_map (fun itx : nat * Transaction =>
    map fst (claims_of (itx.1 =? 0)%nat itx.2) ++ uncle_mints itx.2) (indexed (transactions b)).

Definition claimed_nullifiers (b : Block) : list bytes :=
  flat_map (fun itx : nat * Transaction => map snd (claims_of (itx.1 =? 0)%nat itx.2)) (indexed (transactions b)).

Definition delete_keys {A : Type} (ks : list bytes) (m : gmap bytes A) : gmap bytes A :=
  foldl (fun m k => delete k m) m ks.

Definition undo_codec : codec (list (bytes * option bytes)) :=
  vec_codec (pair_codec 48 byte_vec_codec (option_codec 24 byte_vec_codec)).

(** The snapshot in force before the boundary [h], and its height (0: none). *)
Definition window_before (t : Tree) (h : Z) : FeeWindowSnapshot * Z :=
  if FeeWindowId.WINDOW_SIZE <? h
  then (default snapshot_identity (snapshot_read t (h - FeeWindowId.WINDOW_SIZE)), h - FeeWindowId.WINDOW_SIZE)
  else (snapshot_identity, 0).

Definition disconnect_consensus_tree (h : Z) (c : PoWConsensus) (t : Tree) : Tree :=
  let t1 := <[key_accumulated_work := to_le_bytes 16 (accumulated_work c)]> (save c t) in
  if FeeWindowId.is_window_boundary h then
    let '(snap, prev) := window_before t h in
    write_legacy_keys snap (<[FEE_WINDOW_LATEST_KEY := BlockHeight.bytes prev]> (delete (snapshot_key h) t1))
  else t1.

Definition disconnect_trees (b : Block) (h : Z) (undo : option Batch) (c : PoWConsensus) (s : LinearStore) :
    LinearStore :=
  let key := height_key h in
  let hashes := match uncles_by_height s !! key with
                | Some v => match deserialize hash_list_codec v with Ok l => l | Err _ => [] end
                | None => []
                end in
  {| blocks := delete key (blocks s); transactions_tree := transactions_tree s;
     contracts := match undo with Some u => apply_batch u (contracts s) | None => contracts s end;
     uncles := delete_keys hashes (uncles s);
     consensus := disconnect_consensus_tree h c (consensus s);
     commitment_set := delete_keys (claimed_commitments b) (commitment_set s);
     nullifiers_tree := delete_keys (block_nullifiers b) (delete_keys (claimed_nullifiers b) (nullifiers_tree s));
     supply_chain := delete key (supply_chain s);
     block_targets := delete (height_key (BlockHeight.succ h)) (block_targets s);
     contract_risk := contract_risk s;
     contracts_undo := match undo with Some _ => delete key (contracts_undo s) | None => contracts_undo s end;
     uncles_by_height := delete key (uncles_by_height s) |}.

Definition disconnect_block (h : Z) (s : CChainState) : CChainState * Res unit :=
  match chain_block s h with
  | Err e => (s, Err e)
  | Ok b =>
      if negb (h =? chain_height s) then (s, Err (StorageError "disconnect_block: height is not the tip"))
      else
        let c := rollback_consensus b h (live s) in
        let undo : Res (option Batch) :=
          match contracts_undo (store s) !! height_key h with
          | None => Ok None
          | Some raw => match deserialize undo_codec raw with
                        | Ok ops => Ok (Some ops)
                        | Err _ => Err (StorageError "deserialize contracts undo")
                        end
          end in
        match undo with
        | Err e => (with_live c s, Err e)
        | Ok ops =>
            let st := disconnect_trees b h ops c (store s) in
            let fw := if FeeWindowId.is_window_boundary h
                      then restore (window_before (consensus (store s)) h).1 <$> fee_window s else fee_window s in
            let prev := default 0 (BlockHeight.pred h) in
            let s1 := {| store := st; live := c; finality_config := finality_config s; fee_window := fw;
                         contract_risk_tracker := contract_risk_tracker s; chain_height := chain_height s;
                         commitments := delete_keys (claimed_commitments b) (commitments s);
                         nullifier_set := delete_keys (claimed_nullifiers b) (nullifier_set s);
                         spent_nullifiers := spent_nullifiers s ∖ list_to_set (block_nullifiers b);
                         anchor_leaves := anchor_leaves s; competing := competing s;
                         supply_latest := supply_latest s; tip_cache := tip_cache s |} in
            match rollback_cache (supply_chain st) prev with
            | Err e => (s1, Err e)
            | Ok latest =>
                ({| store := st; live := c; finality_config := finality_config s; fee_window := fw;
                    contract_risk_tracker := contract_risk_tracker s; chain_height := prev;
                    commitments := commitments s1; nullifier_set := nullifier_set s1;
                    spent_nullifiers := spent_nullifiers s1; anchor_leaves := anchor_leaves s;
                    competing := competing s; supply_latest := latest; tip_cache := tip_cache s |}, Ok tt)
            end
        end
  end.

(** ** Start-up: [CChainState::new] on an existing database *)

(** The nullifiers of one kind, with the height recorded for each. *)
Definition kinded (kind : Z) (t : Tree) : gmap bytes Z :=
  omap (fun v => match v with
                 | k :: rest => if (List.length rest =? 8)%nat && (k =? kind) then Some (from_le_bytes rest) else None
                 | [] => None
                 end)
    (filter (fun kv : bytes * bytes => List.length kv.1 = 32%nat /\ is_ok (nullifier_from_bytes kv.1) = true) t).

Definition restore_claims (t : Tree) : gmap bytes Z := kinded 0 t.
Definition restore_spent (t : Tree) : gset bytes := dom (kinded 1 t).

Definition restore_commitments (t : Tree) : gmap bytes Z :=
  omap (fun v => if (List.length v =? 8)%nat then Some (from_le_bytes v) else None)
    (filter (fun kv : bytes * bytes => List.length kv.1 = 32%nat /\ fp_canonical kv.1 = true) t).

(** The work of the blocks present from [h] on. *)
Fixpoint chain_work_from (s : LinearStore) (n : nat) (h work : Z) : Z :=
  match n with
  | O => work
  | S n' =>
      chain_work_from s n' (h + 1)
        (match get_block s h with
         | Ok b => saturating_add 128 work (u32_max / Z.max (target (header b)) 1)
         | Err _ => work
         end)
  end.

Definition set_targets (t : Tree) (s : LinearStore) : LinearStore := {|
  blocks := blocks s; transactions_tree := transactions_tree s; contracts := contracts s;
  uncles := uncles s; consensus := consensus s; commitment_set := commitment_set s;
  nullifiers_tree := nullifiers_tree s; supply_chain := supply_chain s;
  block_targets := t; contract_risk := contract_risk s;
  contracts_undo := contracts_undo s; uncles_by_height := uncles_by_height s |}.

Definition set_consensus_tree (t : Tree) (s : LinearStore) : LinearStore := {|
  blocks := blocks s; transactions_tree := transactions_tree s; contracts := contracts s;
  uncles := uncles s; consensus := t; commitment_set := commitment_set s;
  nullifiers_tree := nullifiers_tree s; supply_chain := supply_chain s;
  block_targets := block_targets s; contract_risk := contract_risk s;
  contracts_undo := contracts_undo s; uncles_by_height := uncles_by_height s |}.

(** The cache of targets, filled in and corrected. *)
Fixpoint fill_targets (c : PoWConsensus) (s : LinearStore) (n : nat) (h : Z) : Res LinearStore :=
  match n with
  | O => Ok s
  | S n' =>
      let? expected := get_next_work_required c s h in
      let fix_it := match block_targets s !! height_key h with
                    | Some existing => (List.length existing =? 4)%nat && negb (from_le_bytes existing =? expected)
                    | None => true
                    end in
      fill_targets c (if fix_it then set_targets (<[height_key h := to_le_bytes 4 expected]> (block_targets s)) s else s)
        n' (h + 1)
  end.

Definition CChainState_new `{SledOrder} (st : LinearStore) (tbt init mn mx : Z) (cfg : FinalityConfig) : Res CChainState :=
  let c0 := (Consensus.load (consensus st) (PoWConsensus_new tbt init mn mx)).1 in
  let sled_work := match consensus st !! key_accumulated_work with
                   | Some b => if (List.length b =? 16)%nat then Some (from_le_bytes b) else None
                   | None => None
                   end in
  let h := match get_height st with Ok h => h | Err _ => 0 end in
  let legacy := match blocks st !! height_key 1 with Some (123 :: _) => true | _ => false end in
  if (0 <? h) && legacy then Err (StorageError "Storage format migration required")
  else
    let work := chain_work_from st (Z.to_nat h) 1 0 in
    let stale := match sled_work with Some w => negb (w =? work) | None => 0 <? work end in
    let st1 := if stale then set_consensus_tree (<[key_accumulated_work := to_le_bytes 16 work]> (consensus st)) st else st in
    let c := set_work work c0 in
    let? st2 := fill_targets c st1 (Z.to_nat (h - 1)) 2 in
    let? latest := restore_latest (supply_chain st2) in
    Ok {| store := st2; live := c; finality_config := cfg;
          fee_window := Some (load_window (consensus st2) (FeeWindowState_new FeeWindowConfig_default)).1;
          contract_risk_tracker := load_from_tree (contract_risk st2) (ContractRiskTracker_new RiskTrackerParams_default);
          chain_height := h; commitments := restore_commitments (commitment_set st2);
          nullifier_set := restore_claims (nullifiers_tree st2);
          spent_nullifiers := restore_spent (nullifiers_tree st2);
          anchor_leaves := fresh_anchor_leaves; competing := Competing_new; supply_latest := latest;
          tip_cache := None |}.
End chain_state.

(** ** A concrete node *)

Definition toy_info : ContractInfo := {|
  from_toml := fun _ => None; zkas_prefix := fun c => c; zkbin_opcodes := fun _ => None |}.

Definition toy_env : @NodeEnv toy.
Proof.
  refine (@Build_NodeEnv toy (fun _ => true) _ (fun _ => false) (fun _ _ => Err RandomXError) (fun _ => zero32)).
  discriminate.
Defined.

#[export] Existing Instance toy | 100.
#[export] Existing Instance toy_signatures | 100.
#[export] Existing Instance toy_info | 100.
#[export] Existing Instance toy_env | 100.

(** An empty node whose initial target admits every hash. *)
Definition toy_node : CChainState := {|
  store := LinearStore_new; live := PoWConsensus_new 120 u32_max 1 u32_max;
  finality_config := FinalityConfig_default; fee_window := Some (FeeWindowState_new FeeWindowConfig_default);
  contract_risk_tracker := ContractRiskTracker_new RiskTrackerParams_default; chain_height := 0;
  commitments := ∅; nullifier_set := ∅; spent_nullifiers := ∅; anchor_leaves := fresh_anchor_leaves;
  competing := Competing_new; supply_latest := None; tip_cache := None |}.

Definition toy_block (h ts reward : Z) (prev : bytes) (tgt : Z) (txs : list Transaction) : Block := {|
  header := {|
    version := 1; previous := prev; merkle_root := compute_merkle_root txs; timestamp := ts;
    target := tgt; nonce := 0; height := h; uncle_merkle_root := zero32;
    total_reward := reward; randomx_key := zero32; miner := zero32; anchor_owner := zero32;
    commitment_merkle_root := zero32; nullifier_root := zero32; anchor_tx_id := zero32; caribina_anchor := None;
    anchor_monero_height := 0; anchor_monero_hash := zero32; finality_flags := 0;
    fee_window_flags := 0; pow_source := Native |};
  transactions := txs |}.

(** A transaction of an unknown contract that declares one nullifier. *)
Definition toy_spend (n : bytes) : Transaction := {|
  tx_version := 1; inputs := []; outputs := []; contract_calls := [{| contract_id := to_le_bytes 32 99; data := [0] |}];
  lock_time := 0; nullifiers := [n]; witness := [] |}.

Definition toy_hash (b : Block) : bytes := match hash_block b with Ok h => h | Err _ => [] end.

Definition toy_genesis : Block := toy_block 1 1000 (expected_reward 1) zero32 u32_max [].
Definition toy_second : Block :=
  toy_block 2 1120 (expected_reward 2) (toy_hash toy_genesis) u32_max [toy_spend (to_le_bytes 32 77)].
