(* ===== verification/Overlay.v ===== *)
(** * The overlay of the contracts tree (crate [sled-overlay])

    Contract execution writes to an overlay over the committed contracts tree;
    the block commits it as one batch.  The crate is not part of the repository,
    so its operations are the fields of a class.  The state of an overlay has two
    public fields, which the node reads and writes directly: a cache of written
    values and a set of removed keys.  The laws say what the crate documents: a
    read sees the cache over the tree without the removed keys, a diff records
    for every key its value in the tree, and the batch of an aggregate turns the
    tree into what was read through the overlay.  The laws on removed keys speak of
    overlays that have none: no operation of the node removes a key. *)

From S2P Require Import Prelude Serial Externals Transaction Block Store Consensus ChainState.

Record OverlayState := { ov_cache : gmap bytes bytes; ov_removed : gset bytes }.

#[export] Instance OverlayState_eq_dec : EqDecision OverlayState.
Proof. solve_decision. Defined.

Definition overlay_empty : OverlayState := {| ov_cache := ∅; ov_removed := ∅ |}.

(** [SledTreeOverlayStateDiff]: previous and new value of a written key, the
    previous value of a removed one. *)
Record OverlayDiff := { diff_cache : gmap bytes (option bytes * bytes); diff_removed : gmap bytes bytes }.

(** What a reader of the overlay sees of the tree. *)
Definition overlay_view (t : Tree) (o : OverlayState) : Tree :=
  ov_cache o ∪ filter (fun kv : bytes * bytes => kv.1 ∉ ov_removed o) t.

(** No key is both written and removed. *)
Definition overlay_ok (o : OverlayState) : Prop := dom (ov_cache o) ## ov_removed o.

(** No key is removed at all. *)
Definition keeps_keys (o : OverlayState) : Prop := ov_removed o = ∅.

Lemma keeps_keys_ok (o : OverlayState) : keeps_keys o -> overlay_ok o.
Proof. unfold keeps_keys, overlay_ok. intros ->. set_solver. Qed.

Class SledOverlay := {
  overlay_get : Tree -> bytes -> OverlayState -> option bytes;
  overlay_insert : Tree -> bytes -> bytes -> OverlayState -> OverlayState;
  overlay_remove : Tree -> bytes -> OverlayState -> OverlayState;
  (** [SledTreeOverlayStateDiff::new], which can fail. *)
  overlay_diff : Tree -> OverlayState -> option OverlayDiff;
  state_of_diff : OverlayDiff -> OverlayState;
  remove_diff : OverlayDiff -> OverlayDiff -> OverlayDiff;
  add_diff : OverlayDiff -> OverlayState -> OverlayState;
  overlay_aggregate : OverlayState -> option Batch
}.

Class SledOverlayLaws `{OV : SledOverlay} : Prop := {
  overlay_get_view : forall t k o, overlay_get t k o = overlay_view t o !! k;
  overlay_insert_view : forall t k v o, overlay_view t (overlay_insert t k v o) = <[k := v]> (overlay_view t o);
  overlay_remove_view : forall t k o, overlay_view t (overlay_remove t k o) = delete k (overlay_view t o);
  overlay_insert_ok : forall t k v o, overlay_ok o -> overlay_ok (overlay_insert t k v o);
  overlay_remove_ok : forall t k o, overlay_ok o -> overlay_ok (overlay_remove t k o);
  overlay_diff_cache : forall t o d k, overlay_diff t o = Some d -> diff_cache d !! k = (fun v => (t !! k, v)) <$> ov_cache o !! k;
  overlay_insert_cache : forall t k v o, ov_cache (overlay_insert t k v o) = <[k := v]> (ov_cache o);
  overlay_insert_removed : forall t k v o, ov_removed (overlay_insert t k v o) ⊆ ov_removed o;
  overlay_diff_removed : forall t o d, overlay_diff t o = Some d -> ov_removed o = ∅ -> diff_removed d = ∅;
  remove_diff_removed : forall d d', diff_removed d = ∅ -> diff_removed (remove_diff d d') = ∅;
  add_diff_removed : forall d o, diff_removed d = ∅ -> ov_removed (add_diff d o) ⊆ ov_removed o;
  overlay_aggregate_none : forall o, overlay_aggregate o = None -> o = overlay_empty;
  overlay_aggregate_view : forall t o b, overlay_ok o -> overlay_aggregate o = Some b -> apply_batch b t = overlay_view t o
}.

Section overlay.
Context `{OV : SledOverlay} `{OVL : !SledOverlayLaws}.

Lemma overlay_view_empty (t : Tree) : overlay_view t overlay_empty = t.
Proof.
  unfold overlay_view. cbn. rewrite map_empty_union. apply map_filter_id. intros k v _. cbn. set_solver.
Qed.

Lemma overlay_view_lookup (t : Tree) (o : OverlayState) (k : bytes) :
  overlay_view t o !! k = match ov_cache o !! k with
                          | Some v => Some v
                          | None => if decide (k ∈ ov_removed o) then None else t !! k
                          end.
Proof.
  unfold overlay_view. rewrite lookup_union. destruct (ov_cache o !! k) as [v|]; [by destruct (filter _ _ !! k) |].
  rewrite (left_id_L None _). destruct (decide (k ∈ ov_removed o)) as [Hin | Hout].
  - apply map_lookup_filter_None. right. intros v _. cbn. by intros [].
  - destruct (t !! k) as [v|] eqn:E.
    + by apply map_lookup_filter_Some.
    + apply map_lookup_filter_None. by left.
Qed.

(** Keys the overlay does not mention are read from the tree. *)
Lemma overlay_view_other (t : Tree) (o : OverlayState) (k : bytes) :
  ov_cache o !! k = None -> k ∉ ov_removed o -> overlay_view t o !! k = t !! k.
Proof. intros Hc Hr. rewrite overlay_view_lookup, Hc. by rewrite decide_False. Qed.

Lemma insert_keeps_keys (t : Tree) (k v : bytes) (o : OverlayState) : keeps_keys o -> keeps_keys (overlay_insert t k v o).
Proof. unfold keeps_keys. intros Ho. pose proof (overlay_insert_removed t k v o). set_solver. Qed.

Lemma add_diff_keeps_keys (d : OverlayDiff) (o : OverlayState) : diff_removed d = ∅ -> keeps_keys o -> keeps_keys (add_diff d o).
Proof. unfold keeps_keys. intros Hd Ho. pose proof (add_diff_removed d o Hd). set_solver. Qed.

(** [aggregate().unwrap_or_default()]. *)
Lemma aggregate_applies (t : Tree) (o : OverlayState) :
  overlay_ok o -> apply_batch (default [] (overlay_aggregate o)) t = overlay_view t o.
Proof.
  intros Ho. destruct (overlay_aggregate o) as [b|] eqn:E; [by apply overlay_aggregate_view |].
  apply overlay_aggregate_none in E as ->. by rewrite overlay_view_empty.
Qed.
End overlay.

(** ** Batches *)

Lemma apply_batch_app (b1 b2 : Batch) (t : Tree) : apply_batch (b1 ++ b2) t = apply_batch b2 (apply_batch b1 t).
Proof. apply foldl_app. Qed.

(** A batch that names a key at most once. *)
Lemma apply_batch_lookup (b : Batch) (t : Tree) (k : bytes) :
  NoDup (map fst b) ->
  apply_batch b t !! k = match list_to_map (M := gmap bytes (option bytes)) b !! k with Some v => v | None => t !! k end.
Proof.
  revert t. induction b as [|[k' v] b IH]; intros t Hn; [done |]. cbn [map fst] in Hn. apply NoDup_cons in Hn as [Hk Hn].
  change (apply_batch ((k', v) :: b) t) with (apply_batch b (match v with Some x => <[k' := x]> t | None => delete k' t end)).
  rewrite IH by done. cbn [list_to_map foldr]. destruct (decide (k = k')) as [-> | Hne].
  - rewrite lookup_insert_eq. assert (list_to_map (M := gmap bytes (option bytes)) b !! k' = None) as -> by (by apply not_elem_of_list_to_map_1).
    destruct v; [by rewrite lookup_insert_eq | by rewrite lookup_delete_eq].
  - rewrite lookup_insert_ne by done. destruct (list_to_map (M := gmap bytes (option bytes)) b !! k); [done |].
    destruct v; [by rewrite lookup_insert_ne | by rewrite lookup_delete_ne].
Qed.

(** ** A concrete overlay *)

Definition toy_aggregate (o : OverlayState) : option Batch :=
  if decide (o = overlay_empty) then None
  else Some (map (fun k => (k, None)) (elements (ov_removed o)) ++ map (fun kv => (kv.1, Some kv.2)) (map_to_list (ov_cache o))).

#[export] Instance toy_overlay : SledOverlay := {|
  overlay_get t k o := overlay_view t o !! k;
  overlay_insert t k v o := {| ov_cache := <[k := v]> (ov_cache o); ov_removed := ov_removed o ∖ {[ k ]} |};
  overlay_remove t k o := {| ov_cache := delete k (ov_cache o); ov_removed := ov_removed o ∪ {[ k ]} |};
  overlay_diff t o := Some {| diff_cache := map_imap (fun k v => Some (t !! k, v)) (ov_cache o);
                              diff_removed := filter (fun kv : bytes * bytes => kv.1 ∈ ov_removed o) t |};
  state_of_diff d := {| ov_cache := snd <$> diff_cache d; ov_removed := dom (diff_removed d) |};
  remove_diff d d' := {| diff_cache := filter (fun kv => diff_cache d' !! kv.1 = None /\ diff_removed d' !! kv.1 = None) (diff_cache d);
                         diff_removed := filter (fun kv => diff_cache d' !! kv.1 = None /\ diff_removed d' !! kv.1 = None) (diff_removed d) |};
  add_diff d o := {| ov_cache := (snd <$> diff_cache d) ∪ filter (fun kv => diff_removed d !! kv.1 = None) (ov_cache o);
                     ov_removed := (ov_removed o ∖ dom (diff_cache d)) ∪ dom (diff_removed d) |};
  overlay_aggregate := toy_aggregate
|}.

Lemma toy_aggregate_applies (t : Tree) (o : OverlayState) (b : Batch) :
  overlay_ok o -> toy_aggregate o = Some b -> apply_batch b t = overlay_view t o.
Proof.
  intros Ho. unfold toy_aggregate. destruct (decide _); [done |]. intros [= <-].
  set (dels := map (fun k => (k, None)) (elements (ov_removed o))).
  set (ins := map (fun kv : bytes * bytes => (kv.1, Some kv.2)) (map_to_list (ov_cache o))).
  assert (map fst dels = elements (ov_removed o)) as Ed by (unfold dels; rewrite map_map; apply map_id).
  assert (map fst ins = (map_to_list (ov_cache o)).*1) as Ei by (unfold ins; by rewrite map_map).
  assert (NoDup (map fst dels)) as Hd by (rewrite Ed; apply NoDup_elements).
  assert (NoDup (map fst ins)) as Hi by (rewrite Ei; apply NoDup_fst_map_to_list).
  apply map_eq. intros k. rewrite apply_batch_app, !apply_batch_lookup by done. rewrite overlay_view_lookup.
  assert (forall v, list_to_map (M := gmap bytes (option bytes)) ins !! k = Some v <-> exists x, v = Some x /\ ov_cache o !! k = Some x) as Hins.
  { intros v. rewrite <- elem_of_list_to_map by done. unfold ins. rewrite list_elem_of_fmap. split.
    - intros ([k' x] & [= -> ->] & Hin). exists x. split; [done |]. by apply elem_of_map_to_list.
    - intros (x & -> & Hx). exists (k, x). split; [done |]. by apply elem_of_map_to_list. }
  assert (forall v, list_to_map (M := gmap bytes (option bytes)) dels !! k = Some v <-> v = None /\ k ∈ ov_removed o) as Hdel.
  { intros v. rewrite <- elem_of_list_to_map by done. unfold dels. rewrite list_elem_of_fmap. split.
    - intros (k' & [= -> ->] & Hin). split; [done |]. by apply elem_of_elements.
    - intros [-> Hin]. exists k. split; [done |]. by apply elem_of_elements. }
  destruct (ov_cache o !! k) as [x|] eqn:Ec.
  - by rewrite (proj2 (Hins (Some x))) by eauto.
  - assert (list_to_map (M := gmap bytes (option bytes)) ins !! k = None) as ->.
    { apply eq_None_not_Some. intros [v (x & _ & ?)%Hins]. congruence. }
    destruct (decide (k ∈ ov_removed o)) as [Hin | Hout].
    + by rewrite (proj2 (Hdel None)).
    + assert (list_to_map (M := gmap bytes (option bytes)) dels !! k = None) as ->; [| done].
      apply eq_None_not_Some. by intros [v [_ ?]%Hdel].
Qed.

#[export] Instance toy_overlay_laws : SledOverlayLaws.
Proof.
  constructor; cbn [overlay_get overlay_insert overlay_remove overlay_diff remove_diff add_diff overlay_aggregate toy_overlay].
  - done.
  - intros t k v o. apply map_eq. intros k'. rewrite overlay_view_lookup. cbn [ov_cache ov_removed].
    destruct (decide (k' = k)) as [-> | Hne]; [by rewrite !lookup_insert_eq |]. rewrite !lookup_insert_ne, overlay_view_lookup by done.
    destruct (ov_cache o !! k'); [done |]. destruct (decide (k' ∈ ov_removed o ∖ {[k]})), (decide (k' ∈ ov_removed o)); set_solver.
  - intros t k o. apply map_eq. intros k'. rewrite overlay_view_lookup. cbn [ov_cache ov_removed].
    destruct (decide (k' = k)) as [-> | Hne].
    + rewrite !lookup_delete_eq. rewrite decide_True; [done | set_solver].
    + rewrite !lookup_delete_ne, overlay_view_lookup by done. destruct (ov_cache o !! k'); [done |].
      destruct (decide (k' ∈ ov_removed o ∪ {[k]})), (decide (k' ∈ ov_removed o)); set_solver.
  - unfold overlay_ok. cbn. intros t k v o Ho. rewrite dom_insert_L. set_solver.
  - unfold overlay_ok. cbn. intros t k o Ho. rewrite dom_delete_L. set_solver.
  - intros t o d k [= <-]. cbn [diff_cache]. rewrite map_lookup_imap. by destruct (ov_cache o !! k).
  - done.
  - intros t k v o. cbn. set_solver.
  - intros t o d [= <-] Ho. cbn [diff_removed]. rewrite Ho. apply map_eq. intros k. rewrite lookup_empty. apply map_lookup_filter_None. right. intros v _. cbn. set_solver.
  - intros d d' Hd. cbn [diff_removed]. rewrite Hd. apply map_filter_empty.
  - intros d o Hd. cbn [ov_removed]. rewrite Hd, dom_empty_L. set_solver.
  - intros o. unfold toy_aggregate. by destruct (decide (o = overlay_empty)).
  - apply toy_aggregate_applies.
Qed.
