(* ===== verification/Executor.v ===== *)
(** * What execution promises to the acceptor

    [execute_block] of [src/linear/src/execution.rs] as an interface: it reads
    the chain state, answers with an overlay of the contracts tree and the gas
    used, or refuses the block, and in both cases leaves the block's anchor tree
    behind.  The acceptor's theorems hold for every executor; [ExecutorOk] adds
    what some need. *)

From S2P Require Import Prelude Units Serial Externals Transaction Block Store Competing Consensus FeeWindow ContractRisk.
From S2P Require Import Finality ChainState Overlay.

(** [ExecutionOutcome], as far as the acceptor reads it. *)
Record Executed := { exec_overlay : OverlayState; exec_gas : Z }.

(** Arguments: the chain state, the block and its uncles, the key of the RandomX
    machine and the target; the height is the block's. *)
Class Executor `{EXT : Externals} := {
  execute_block : CChainState -> Block -> list UncleBlock -> bytes -> Z -> list bytes * option Executed
}.

(** The overlay comes out of operations that never remove a key. *)
Class ExecutorOk `{EXT : Externals} `{EXEC : !Executor} : Prop := {
  execute_overlay_ok : forall s b us key tgt leaves ex,
    execute_block s b us key tgt = (leaves, Some ex) -> keeps_keys (exec_overlay ex)
}.

Definition is_genesis_deployment_tx `{EXT : Externals} (tx : Transaction) : bool :=
  match contract_calls tx with
  | [c] =>
      bool_decide (inputs tx = []) && bool_decide (outputs tx = []) && bool_decide (nullifiers tx = []) &&
      bool_decide (contract_id c = DEPLOYOOOR_CONTRACT_ID) && (1 <? Z.of_nat (length (data c))) &&
      first_byte_is 0x00 (data c)
  | _ => false
  end.
