(* ===== verification/Backend.v ===== *)
(** * What a contract can ask of the node ([TxBackend], [src/linear/src/execution.rs])

    A contract is a guest of the WASM runtime and reaches the chain only through
    the calls of the trait [RuntimeBackend].  A guest is a tree of such calls: it
    returns, or it asks and continues with the answer; the gas meter keeps it
    finite.  [TxBackend] answers from the overlay of the block in progress, from
    the committed store and from the anchor tree of the block.  Failures of sled
    are not modelled. *)

From Stdlib Require Import String.
From S2P Require Import Prelude Units Serial Externals Transaction Merkle Block Store Consensus NativeToken TokenContract.
From S2P Require Import ChainState Overlay.

Inductive HostError := ContractStateNotFound | HostCustom (what : string).

Abbreviation HRes := (result HostError).

(** The methods of the trait, with the type of their answers. *)
Inductive HostCall : Type -> Type :=
| contract_lookup (cid name : bytes) : HostCall (HRes bytes)
| contract_init (cid name : bytes) : HostCall (HRes bytes)
| contract_insert_bincode (cid code : bytes) : HostCall (HRes unit)
| contract_get_bincode (cid : bytes) : HostCall (HRes bytes)
| host_db_insert (tree key value : bytes) : HostCall (HRes unit)
| host_db_get (tree key : bytes) : HostCall (HRes (option bytes))
| host_db_remove (tree key : bytes) : HostCall (HRes unit)
| host_db_contains_key (tree key : bytes) : HostCall (HRes bool)
| last_block_timestamp : HostCall (HRes bytes)
| last_block_height : HostCall (HRes Z)
| host_get_tx (hash : bytes) : HostCall (HRes (option bytes))
| get_tx_location (hash : bytes) : HostCall (HRes (option bytes))
| get_block_hash_by_height (height : Z) : HostCall (HRes (option bytes))
| block_anchor_append (entry : bytes) : HostCall (HRes unit).

Inductive Guest (A : Type) : Type :=
| Done (a : A)
| Ask (X : Type) (e : HostCall X) (k : X -> Guest A).
Arguments Done {A} a.
Arguments Ask {A X} e k.

(** What the calls change. *)
Record Backend := { bk_overlay : OverlayState; bk_anchors : list bytes }.

(** What they only read: the committed store, the height of the block in
    progress and the key of the RandomX machine. *)
Record BackendCtx := { bc_store : LinearStore; bc_height : Z; bc_key : bytes }.

(** [format!("{:?}", handle)]. *)
Definition decimal (b : Z) : bytes :=
  (if 100 <=? b then [48 + b / 100] else []) ++ (if 10 <=? b then [48 + b / 10 mod 10] else []) ++ [48 + b mod 10].

Fixpoint debug_items (bs : bytes) : bytes :=
  match bs with
  | [] => []
  | [b] => decimal b
  | b :: rest => decimal b ++ [44; 32] ++ debug_items rest
  end.

Definition debug_bytes (bs : bytes) : bytes := [91] ++ debug_items bs ++ [93].

(** [DRK_POSEIDON_DOMAIN_MERKLE_LEAF]. *)
Definition DOMAIN_MERKLE_LEAF : bytes := to_le_bytes 32 5.

Section backend.
Context `{EXT : Externals} `{OV : SledOverlay}.

(** [AnchorEntry::from_leaf_bytes] and [anchor_leaf]. *)
Definition anchor_leaf (nullifier cid root : bytes) : bytes := poseidon_hash [DOMAIN_MERKLE_LEAF; nullifier; cid; root].

Definition anchor_of_bytes (entry : bytes) : option bytes :=
  let nf := take 32 entry in let cid := take 32 (drop 32 entry) in let root := take 32 (drop 64 entry) in
  match nullifier_from_bytes nf with
  | Ok n => if fp_canonical cid && fp_canonical root then Some (anchor_leaf n cid root) else None
  | Err _ => None
  end.

(** The block and position of a transaction, as the guest reads them. *)
Fixpoint tx_position (hash : bytes) (i : Z) (txs : list Transaction) : option Z :=
  match txs with
  | [] => None
  | tx :: rest => if bool_decide (tx_hash tx = hash) then Some i else tx_position hash (i + 1) rest
  end.

Fixpoint find_tx (st : LinearStore) (hash : bytes) (n : nat) (h : Z) : HRes (option bytes) :=
  match n with
  | O => Ok None
  | S n' =>
      match get_block st h with
      | Ok b =>
          match tx_position hash 0 (transactions b) with
          | Some i => if i <? 2 ^ 16 then Ok (Some (to_le_bytes 8 h ++ to_le_bytes 2 i)) else Err (HostCustom "tx index exceeds u16")
          | None => find_tx st hash n' (h + 1)
          end
      | Err _ => find_tx st hash n' (h + 1)
      end
  end.

(** A read looks into the overlay, then into the committed tree; an empty value
    is an absent one, and it stops the search. *)
Definition read_through (ctx : BackendCtx) (k : bytes) (o : OverlayState) : option bytes :=
  match overlay_get (contracts (bc_store ctx)) k o with
  | Some [] => None
  | Some v => Some v
  | None => match get_contract_data (bc_store ctx) k with [] => None | v => Some v end
  end.

Definition write (ctx : BackendCtx) (k v : bytes) (bk : Backend) : Backend :=
  {| bk_overlay := overlay_insert (contracts (bc_store ctx)) k v (bk_overlay bk); bk_anchors := bk_anchors bk |}.

Definition handle {X : Type} (ctx : BackendCtx) (e : HostCall X) (bk : Backend) : X * Backend :=
  match e in HostCall X return X * Backend with
  | contract_lookup cid name =>
      let h := hash_state_id cid name in
      (match read_through ctx (debug_bytes h) (bk_overlay bk) with Some _ => Ok h | None => Err ContractStateNotFound end, bk)
  | contract_init cid name => let h := hash_state_id cid name in (Ok h, write ctx (debug_bytes h) name bk)
  | contract_insert_bincode cid code => (Ok tt, write ctx cid code bk)
  | contract_get_bincode cid => (ok_or (read_through ctx cid (bk_overlay bk)) ContractStateNotFound, bk)
  | host_db_insert tree key value => (Ok tt, write ctx (tree ++ key) value bk)
  | host_db_get tree key => (Ok (read_through ctx (tree ++ key) (bk_overlay bk)), bk)
  | host_db_remove tree key => (Ok tt, write ctx (tree ++ key) [] bk)
  | host_db_contains_key tree key => (Ok (bool_decide (is_Some (read_through ctx (tree ++ key) (bk_overlay bk)))), bk)
  | last_block_timestamp =>
      (if bc_height ctx =? 0 then Ok (to_le_bytes 8 0)
       else match get_block (bc_store ctx) (bc_height ctx) with
            | Ok b => Ok (to_le_bytes 8 (timestamp (header b)))
            | Err _ => Err (HostCustom "block")
            end, bk)
  | last_block_height => (Ok (bc_height ctx), bk)
  | host_get_tx hash =>
      (match get_transaction (bc_store ctx) hash with
       | Ok tx => Ok (Some (serialize Transaction_codec tx))
       | Err (TransactionNotFound _) => Ok None
       | Err _ => Err (HostCustom "transaction")
       end, bk)
  | get_tx_location hash => (find_tx (bc_store ctx) hash (Z.to_nat (bc_height ctx)) 1, bk)
  | get_block_hash_by_height h =>
      (match get_block (bc_store ctx) h with
       | Ok b => match hash_with_vm (header b) (bc_key ctx) with Ok hash => Ok (Some hash) | Err _ => Err (HostCustom "hash") end
       | Err (BlockNotFound _) => Ok None
       | Err _ => Err (HostCustom "block")
       end, bk)
  | block_anchor_append entry =>
      match anchor_of_bytes entry with
      | Some leaf => (Ok tt, {| bk_overlay := bk_overlay bk; bk_anchors := bk_anchors bk ++ [leaf] |})
      | None => (Err (HostCustom "block_anchor_append"), bk)
      end
  end.

Fixpoint interp {A : Type} (ctx : BackendCtx) (g : Guest A) (bk : Backend) : A * Backend :=
  match g with
  | Done a => (a, bk)
  | Ask e k => let '(x, bk') := handle ctx e bk in interp ctx (k x) bk'
  end.

(** ** What a guest can tell

    The reference: the same calls on one key-value tree, the state of the
    contracts as the block in progress has left it. *)

Definition view_read (k : bytes) (st : Tree) : option bytes := match st !! k with Some [] | None => None | Some v => Some v end.

Record View := { view_tree : Tree; view_anchors : list bytes }.

Definition view_write (k v : bytes) (w : View) : View := {| view_tree := <[k := v]> (view_tree w); view_anchors := view_anchors w |}.

Definition handle_view {X : Type} (ctx : BackendCtx) (e : HostCall X) (w : View) : X * View :=
  match e in HostCall X return X * View with
  | contract_lookup cid name =>
      let h := hash_state_id cid name in
      (match view_read (debug_bytes h) (view_tree w) with Some _ => Ok h | None => Err ContractStateNotFound end, w)
  | contract_init cid name => let h := hash_state_id cid name in (Ok h, view_write (debug_bytes h) name w)
  | contract_insert_bincode cid code => (Ok tt, view_write cid code w)
  | contract_get_bincode cid => (ok_or (view_read cid (view_tree w)) ContractStateNotFound, w)
  | host_db_insert tree key value => (Ok tt, view_write (tree ++ key) value w)
  | host_db_get tree key => (Ok (view_read (tree ++ key) (view_tree w)), w)
  | host_db_remove tree key => (Ok tt, view_write (tree ++ key) [] w)
  | host_db_contains_key tree key => (Ok (bool_decide (is_Some (view_read (tree ++ key) (view_tree w)))), w)
  | block_anchor_append entry =>
      match anchor_of_bytes entry with
      | Some leaf => (Ok tt, {| view_tree := view_tree w; view_anchors := view_anchors w ++ [leaf] |})
      | None => (Err (HostCustom "block_anchor_append"), w)
      end
  | e => ((handle ctx e {| bk_overlay := overlay_empty; bk_anchors := [] |}).1, w)
  end.

Fixpoint interp_view {A : Type} (ctx : BackendCtx) (g : Guest A) (w : View) : A * View :=
  match g with
  | Done a => (a, w)
  | Ask e k => let '(x, w') := handle_view ctx e w in interp_view ctx (k x) w'
  end.

Context `{OVL : !SledOverlayLaws}.

Definition view_of (ctx : BackendCtx) (bk : Backend) : View :=
  {| view_tree := overlay_view (contracts (bc_store ctx)) (bk_overlay bk); view_anchors := bk_anchors bk |}.

Lemma read_through_view (ctx : BackendCtx) (k : bytes) (o : OverlayState) :
  keeps_keys o -> read_through ctx k o = view_read k (overlay_view (contracts (bc_store ctx)) o).
Proof.
  intros Ho. unfold read_through, view_read. rewrite overlay_get_view.
  destruct (overlay_view _ o !! k) as [v|] eqn:E; [done |]. unfold get_contract_data.
  rewrite overlay_view_lookup in E. destruct (ov_cache o !! k); [done |]. unfold keeps_keys in Ho. rewrite Ho in E.
  rewrite decide_False in E by set_solver. by rewrite E.
Qed.

Lemma write_view (ctx : BackendCtx) (k v : bytes) (bk : Backend) :
  keeps_keys (bk_overlay bk) -> view_of ctx (write ctx k v bk) = view_write k v (view_of ctx bk) /\ keeps_keys (bk_overlay (write ctx k v bk)).
Proof.
  intros Hk. split; [| by apply insert_keeps_keys]. unfold view_of, view_write, write. cbn [bk_overlay bk_anchors view_tree view_anchors].
  by rewrite overlay_insert_view.
Qed.

Lemma handle_refines {X : Type} (ctx : BackendCtx) (e : HostCall X) (bk : Backend) :
  keeps_keys (bk_overlay bk) ->
  let '(x, bk') := handle ctx e bk in handle_view ctx e (view_of ctx bk) = (x, view_of ctx bk') /\ keeps_keys (bk_overlay bk').
Proof.
  intros Hk. destruct e as [cid name | cid name | cid code | cid | tree key value | tree key | tree key | tree key | | | hash | hash | h | entry];
    cbn [handle handle_view]; rewrite ?read_through_view by done;
    try (match goal with |- context [write ?c ?k ?v ?b] => destruct (write_view c k v b Hk) as [-> ?] end); try (split; [reflexivity | done]).
  destruct (anchor_of_bytes entry); split; done.
Qed.

Lemma interp_refines {A : Type} (ctx : BackendCtx) (g : Guest A) (bk : Backend) :
  keeps_keys (bk_overlay bk) ->
  let '(a, bk') := interp ctx g bk in interp_view ctx g (view_of ctx bk) = (a, view_of ctx bk') /\ keeps_keys (bk_overlay bk').
Proof.
  revert bk. induction g as [a | X e k IH]; intros bk Hk; cbn [interp interp_view]; [done |].
  pose proof (handle_refines ctx e bk Hk) as He. destruct (handle ctx e bk) as [x bk1]. destruct He as [-> Hk1]. by apply IH.
Qed.

(** C19: a contract cannot tell the overlay of the block in progress from one
    key-value tree.  Whatever calls it makes and however it uses the answers,
    it returns the same value on the backend as on that tree, and leaves the
    backend at what it leaves of the tree; no call removes a key, and the
    reads of the backend are the reads the contracts are modelled with. *)
Theorem guest_runs_on_view {A : Type} (ctx : BackendCtx) (g : Guest A) (bk : Backend) :
  keeps_keys (bk_overlay bk) ->
  interp_view ctx g (view_of ctx bk) = ((interp ctx g bk).1, view_of ctx (interp ctx g bk).2) /\
  keeps_keys (bk_overlay (interp ctx g bk).2) /\
  forall cid name key, read_through ctx (composite_key cid name key) (bk_overlay bk) = db_get cid name key (view_tree (view_of ctx bk)).
Proof.
  intros Hk. pose proof (interp_refines ctx g bk Hk) as Hi. destruct (interp ctx g bk) as [a bk']. destruct Hi as [E Hk'].
  split_and!; [done | done |]. intros cid name key. by rewrite read_through_view.
Qed.
End backend.

(** A guest that writes a key, removes it again and returns what it reads. *)
Definition toy_guest : Guest (HRes (option bytes) * HRes (option bytes)) :=
  Ask (host_db_insert [1] [2] [3]) (fun _ =>
  Ask (host_db_get [1] [2]) (fun r1 =>
  Ask (host_db_remove [1] [2]) (fun _ =>
  Ask (host_db_get [1] [2]) (fun r2 => Done (r1, r2))))).

Definition toy_ctx : BackendCtx := {| bc_store := LinearStore_new; bc_height := 5; bc_key := zero32 |}.
Definition toy_backend : Backend := {| bk_overlay := overlay_empty; bk_anchors := [] |}.

Lemma guest_runs_on_view_witness :
  interp_view toy_ctx toy_guest (view_of toy_ctx toy_backend) =
    ((Ok (Some [3]), Ok None), view_of toy_ctx (interp toy_ctx toy_guest toy_backend).2).
Proof.
  assert (keeps_keys (bk_overlay toy_backend)) as Hk by reflexivity.
  rewrite (proj1 (guest_runs_on_view toy_ctx toy_guest toy_backend Hk)).
  assert ((interp toy_ctx toy_guest toy_backend).1 = (Ok (Some [3]), Ok None)) as -> by (vm_compute; reflexivity). reflexivity.
Defined.
