(* ===== verification/Execution.v ===== *)
(** * Block execution ([src/linear/src/execution.rs])

    [execute_block]: the genesis deployments, the calls of the block in their
    order on one overlay, the calls of the uncles each on an overlay of its own,
    the verification of every transaction's proofs and signatures against what
    its contracts declared, the merge of the uncles' writes and the deployments
    the block asked for.  The WASM engine is a parameter: an instance runs a
    section of the contract as a guest of [Backend].  Logging is left out; the
    per-call write sets, which the source only logs, are kept in the outcome. *)

From Stdlib Require Import String.
From S2P Require Import Prelude Units Serial Externals Transaction Merkle Block Store Competing Consensus NativeToken Supply Pedersen.
From S2P Require Import FeeWindow ContractRisk TokenContract DarkTree CoreTx ZkVerifier Finality ChainState Overlay Executor Backend.

(** What [Runtime::new] is told about the call. *)
Record CallCtx := {
  ctx_contract_id : bytes; ctx_height : Z; ctx_target : Z; ctx_tx_hash : bytes; ctx_commitment : bytes; ctx_call_idx : Z
}.

(** An instance of the engine and the sections it runs; [None] is an error of
    the section.  A section may leave a spend hook to be called. *)
Class WasmRuntime := {
  Instance : Type;
  runtime_new : bytes -> CallCtx -> option Instance;
  runtime_metadata : bytes -> Instance -> Guest (Instance * option bytes);
  runtime_exec : bytes -> Instance -> Guest (Instance * option bytes);
  runtime_spend_hook : bytes -> Instance -> Guest (Instance * option bytes);
  runtime_apply : bytes -> Instance -> Guest (Instance * option bytes);
  runtime_deploy : bytes -> Instance -> Guest (Instance * option bytes);
  take_spend_hook : Instance -> Instance * option (bytes * bytes);
  (** The engine's meter: what is left of the budget, [None] when it ran out. *)
  remaining_points : Instance -> option Z
}.

(** [GAS_LIMIT] of the runtime: the budget of one call, shared by its sections. *)
Definition GAS_LIMIT : Z := 400000000.

(** [Runtime::gas_used]. *)
Definition gas_used `{RT : WasmRuntime} (r : Instance) : Z :=
  match remaining_points r with Some rem => GAS_LIMIT - rem | None => GAS_LIMIT + 1 end.

(** The meter starts at the limit and only goes down. *)
Class RuntimeMetered `{RT : WasmRuntime} : Prop := {
  remaining_within : forall r rem, remaining_points r = Some rem -> 0 <= rem <= GAS_LIMIT
}.

(** [TransactionHash::none()]. *)
Definition no_tx_hash : bytes := zero32.

Record CallJob := {
  job_tx_hash : bytes; job_wasm : bytes; job_contract_id : bytes; job_data : bytes; job_call_idx : Z; job_commitment : bytes
}.

(** One call's row of the verification tables: declared circuits with their
    public inputs, and signers. *)
Record MetaRow := { meta_zkp : list (bytes * list bytes); meta_sigs : list bytes }.

Record ExecutionStats := {
  stat_gas_used : Z; stat_calls_executed : Z; stat_calls_failed : Z; stat_uncle_calls_executed : Z; stat_uncle_calls_failed : Z
}.

Record ExecutionOutcome := { out_overlay : OverlayState; out_stats : ExecutionStats; out_write_sets : list (gset bytes) }.

(** [DeployParamsV1] of [src/sdk/src/deploy.rs]. *)
Record DeployParamsV1 := { wasm_bincode : bytes; deploy_key : bytes; deploy_ix : bytes }.

Inductive ExecError := ExecFailed (what : string).
Abbreviation ERes := (result ExecError).
Definition refuse {A : Type} (what : string) : ERes A := Err (ExecFailed what).

(** [overlay_opinions]: what the overlay says about every key it mentions. *)
Definition overlay_opinions (o : OverlayState) : gmap bytes (option bytes) :=
  gset_to_gmap None (ov_removed o) ∪ (Some <$> ov_cache o).

Definition changed_opinions (before after : gmap bytes (option bytes)) : gset bytes :=
  dom (filter (fun kv : bytes * option bytes => before !! kv.1 <> Some kv.2) after).

(** The keys an overlay mentions. *)
Definition overlay_keys (o : OverlayState) : gset bytes := dom (ov_cache o) ∪ ov_removed o.

Section execution.
Context `{EXT : Externals} `{CORE : !CoreEnv} `{OPS : !CurveOps} `{PS : ProofSystem} `{OV : SledOverlay} `{RT : WasmRuntime}.

Definition DeployParamsV1_codec : codec DeployParamsV1 :=
  mk_codec (fun p => encode byte_vec_codec (wasm_bincode p) ++ encode public_key_codec (deploy_key p) ++ encode byte_vec_codec (deploy_ix p))
    (fun bs =>
       let? (code, bs) := decode byte_vec_codec bs in
       let? (key, bs) := decode public_key_codec bs in
       let? (ix, bs) := decode byte_vec_codec bs in
       Ok ({| wasm_bincode := code; deploy_key := key; deploy_ix := ix |}, bs)) 144.

(** [ContractId::derive_public] and the identifiers fixed at genesis. *)
Definition CONTRACT_ID_PREFIX : bytes := to_le_bytes 32 42.

Definition derive_public (key : bytes) : bytes :=
  let '(x, y) := point_xy key in poseidon_hash [CONTRACT_ID_PREFIX; x; y].

Definition genesis_id (n : Z) : bytes := poseidon_hash [CONTRACT_ID_PREFIX; zero32; to_le_bytes 32 n].
Definition IDENTITY_CONTRACT_ID : bytes := genesis_id 5.
Definition ORACLE_CONTRACT_ID : bytes := genesis_id 6.
Definition ATTESTATION_CONTRACT_ID : bytes := genesis_id 7.
Definition MULTISIG_CONTRACT_ID : bytes := genesis_id 10.

Definition genesis_contracts : list (bytes * string) :=
  [(DEPLOYOOOR_CONTRACT_ID, "Deployooor"); (NATIVE_TOKEN_CONTRACT_ID, "NativeToken");
   (PROMISSORY_NOTE_CONTRACT_ID, "PromissoryNote"); (IDENTITY_CONTRACT_ID, "Identity"); (ORACLE_CONTRACT_ID, "Oracle");
   (ATTESTATION_CONTRACT_ID, "Attestation"); (PURSE_CONTRACT_ID, "Purse"); (BOX_CONTRACT_ID, "Box");
   (MULTISIG_CONTRACT_ID, "MultiSig")]%string.

(** The call tree and the commitment of a witness. *)
Definition extract_wasm_call_tree (w : bytes) : option (bytes * bytes) :=
  if bool_decide (w = []) then None
  else match deserialize CoreTransaction_codec w with
       | Ok core => Some (serialize calls_codec (calls core), core_commitment core)
       | Err _ => None
       end.

(** ** Deployments *)

(** The code goes into the cache of the overlay; the contract's initialization
    runs on it, with an anchor tree that is thrown away. *)
Definition deploy_contract_in_overlay (ctx : BackendCtx) (code cid ix : bytes) (tgt : Z) (o : OverlayState) : ERes OverlayState :=
  let o1 := {| ov_cache := <[cid := code]> (ov_cache o); ov_removed := ov_removed o |} in
  match runtime_new code {| ctx_contract_id := cid; ctx_height := bc_height ctx; ctx_target := tgt; ctx_tx_hash := no_tx_hash;
                            ctx_commitment := zero32; ctx_call_idx := 0 |} with
  | None => refuse "DeployV1 runtime"
  | Some r =>
      let '((_, ret), bk) := interp ctx (runtime_deploy ix r) {| bk_overlay := o1; bk_anchors := fresh_anchor_leaves |} in
      match ret with None => refuse "DeployV1 init" | Some _ => Ok (bk_overlay bk) end
  end.

(** The manifest goes under the contract's own key. *)
Definition manifest_key (cid : bytes) : bytes := cid ++ manifest_suffix.

Definition genesis_deployment (ctx : BackendCtx) (cid : bytes) (tx : Transaction) (tgt : Z) (o : OverlayState) : ERes OverlayState :=
  if negb (is_genesis_deployment_tx tx) then refuse "genesis tx is not a deployment tx"
  else
    match contract_calls tx with
    | c :: _ =>
        match decode DeployParamsV1_codec (drop 1 (data c)) with
        | Err _ => refuse "genesis deployment: DeployParamsV1 decode"
        | Ok (p, _) =>
            if bool_decide (wasm_bincode p = []) then refuse "genesis deployment: empty WASM"
            else
              let? o1 := deploy_contract_in_overlay ctx (wasm_bincode p) cid [] tgt o in
              Ok (if bool_decide (deploy_ix p = []) then o1
                  else {| ov_cache := <[manifest_key cid := deploy_ix p]> (ov_cache o1); ov_removed := ov_removed o1 |})
        end
    | [] => refuse "genesis tx is not a deployment tx"
    end.

Fixpoint genesis_deployments (ctx : BackendCtx) (table : list (bytes * string)) (txs : list Transaction) (tgt : Z) (o : OverlayState) :
    ERes OverlayState :=
  match table, txs with
  | (cid, _) :: table', tx :: txs' =>
      let? o1 := genesis_deployment ctx cid tx tgt o in genesis_deployments ctx table' txs' tgt o1
  | _, _ => Ok o
  end.

Definition apply_genesis_deployments (ctx : BackendCtx) (b : Block) (tgt : Z) (o : OverlayState) : ERes OverlayState :=
  if negb (List.length (transactions b) =? 1 + List.length genesis_contracts)%nat then refuse "genesis block must be 1 coinbase and 9 deployments"
  else genesis_deployments ctx genesis_contracts (drop 1 (transactions b)) tgt o.

(** ** Jobs *)

(** The native token reads its own call; the other contracts get the call tree
    of the witness, when there is one. *)
Definition payload_of (tree : option bytes) (c : ContractCall) : bytes :=
  if bool_decide (contract_id c = NATIVE_TOKEN_CONTRACT_ID) then data c else default (data c) tree.

Definition call_index_byte (i : nat) : Z := if Z.of_nat i <? 256 then Z.of_nat i else 255.

Definition job_of (tx : Transaction) (i : nat) (c : ContractCall) (code : bytes) : CallJob :=
  let extracted := extract_wasm_call_tree (witness tx) in {|
  job_tx_hash := tx_hash tx; job_wasm := code; job_contract_id := contract_id c; job_data := payload_of (fst <$> extracted) c;
  job_call_idx := call_index_byte i; job_commitment := default zero32 (snd <$> extracted) |}.

(** The code of a contract: at genesis the overlay comes first. *)
Definition canonical_wasm (st : LinearStore) (is_genesis : bool) (o : OverlayState) (cid : bytes) : option bytes :=
  let committed := match get_contract_data st cid with [] => None | v => Some v end in
  if is_genesis then match overlay_get (contracts st) cid o with Some [] | None => committed | Some v => Some v end
  else committed.

Fixpoint call_jobs (st : LinearStore) (is_genesis : bool) (o : OverlayState) (tx : Transaction) (i : nat) (cs : list ContractCall) :
    ERes (list CallJob) :=
  match cs with
  | [] => Ok []
  | c :: rest =>
      match canonical_wasm st is_genesis o (contract_id c) with
      | None => refuse "canonical call targets unknown contract"
      | Some code => let? jobs := call_jobs st is_genesis o tx (S i) rest in Ok (job_of tx i c code :: jobs)
      end
  end.

Fixpoint canonical_jobs (st : LinearStore) (is_genesis : bool) (o : OverlayState) (txs : list Transaction) : ERes (list CallJob) :=
  match txs with
  | [] => Ok []
  | tx :: rest =>
      if is_genesis && is_genesis_deployment_tx tx then canonical_jobs st is_genesis o rest
      else
        let? jobs := call_jobs st is_genesis o tx 0 (contract_calls tx) in
        let? more := canonical_jobs st is_genesis o rest in
        Ok (jobs ++ more)
  end.

(** Calls of uncles whose contract is not there are counted, not refused. *)
Definition uncle_call_jobs (st : LinearStore) (tx : Transaction) : list (option CallJob) :=
  imap (fun i c => match get_contract_data st (contract_id c) with [] => None | code => Some (job_of tx i c code) end) (contract_calls tx).

Definition uncle_jobs (st : LinearStore) (us : list UncleBlock) : list (option CallJob) :=
  flat_map (fun u => flat_map (uncle_call_jobs st) (uncle_transactions u)) us.

(** ** One call *)

(** The metadata a contract returns: the circuits, and the signers when
    something follows. *)
Definition zkp_codec : codec (list (bytes * list bytes)) := vec_codec (pair_codec 48 string_codec (vec_codec fp_codec)).

Definition decode_metadata (m : bytes) : option MetaRow :=
  match decode zkp_codec m with
  | Err _ => None
  | Ok (zkp, []) => Some {| meta_zkp := zkp; meta_sigs := [] |}
  | Ok (zkp, rest) =>
      match decode (vec_codec public_key_codec) rest with
      | Ok (sigs, _) => Some {| meta_zkp := zkp; meta_sigs := sigs |}
      | Err _ => None
      end
  end.

(** The hook of another contract, in the same overlay.  The source slices the
    first 32 bytes of the name; keys of the contracts tree are that long. *)
Definition execute_spend_hook (ctx : BackendCtx) (tgt : Z) (tx_hash target_cid payload : bytes) (bk : Backend) : bool * Backend :=
  match get_contract_data (bc_store ctx) target_cid with
  | [] => (false, bk)
  | code =>
      let cid := take 32 target_cid in
      if negb (fp_canonical cid) then (false, bk)
      else
        match runtime_new code {| ctx_contract_id := cid; ctx_height := bc_height ctx; ctx_target := tgt; ctx_tx_hash := tx_hash;
                                  ctx_commitment := zero32; ctx_call_idx := 0 |} with
        | None => (false, bk)
        | Some r =>
            let '((r1, m), bk1) := interp ctx (runtime_metadata payload r) bk in
            match m with
            | None => (false, bk1)
            | Some _ =>
                let '((r2, ret), bk2) := interp ctx (runtime_spend_hook payload r1) bk1 in
                match ret with
                | None => (false, bk2)
                | Some update =>
                    let '((_, done), bk3) := interp ctx (runtime_apply update r2) bk2 in
                    (bool_decide (is_Some done), bk3)
                end
            end
        end
  end.

(** The sections of the call in turn; [None] is a failure, at whatever stage. *)
Definition run_sections (ctx : BackendCtx) (tgt : Z) (j : CallJob) (bk : Backend) : option (MetaRow * Z) * Backend :=
  match runtime_new (job_wasm j)
          {| ctx_contract_id := job_contract_id j; ctx_height := bc_height ctx; ctx_target := tgt; ctx_tx_hash := job_tx_hash j;
             ctx_commitment := job_commitment j; ctx_call_idx := job_call_idx j |} with
  | None => (None, bk)
  | Some r =>
      let '((r1, m), bk1) := interp ctx (runtime_metadata (job_data j) r) bk in
      match m with
      | None => (None, bk1)
      | Some m =>
          match decode_metadata m with
          | None => (None, bk1)
          | Some row =>
              let '((r2, update), bk2) := interp ctx (runtime_exec (job_data j) r1) bk1 in
              match update with
              | None => (None, bk2)
              | Some update =>
                  let '(r3, hook) := take_spend_hook r2 in
                  let '(hooked, bk3) :=
                    match hook with
                    | None => (true, bk2)
                    | Some (cid, payload) => execute_spend_hook ctx tgt (job_tx_hash j) cid payload bk2
                    end in
                  if hooked then
                    let '((r4, done), bk4) := interp ctx (runtime_apply update r3) bk3 in
                    match done with None => (None, bk4) | Some _ => (Some (row, gas_used r4), bk4) end
                  else (None, bk3)
              end
          end
      end
  end.

(** A failure reverts the overlay to the checkpoint; the anchor tree has none. *)
Definition run_job (ctx : BackendCtx) (tgt : Z) (j : CallJob) (bk : Backend) : option (MetaRow * Z) * Backend :=
  match run_sections ctx tgt j bk with
  | (None, bk') => (None, {| bk_overlay := bk_overlay bk; bk_anchors := bk_anchors bk' |})
  | ok => ok
  end.
(** ** The calls of the block *)

(** What the loop carries: the backend, the rows of each transaction by its
    hash, the gas, the deployments asked for and the write sets. *)
Record Loop := {
  lp_bk : Backend; lp_tables : gmap bytes (list MetaRow); lp_gas : Z; lp_calls : Z;
  lp_deploys : list (bytes * bytes * bytes); lp_writes : list (gset bytes)
}.

(** The deployment an executed call of the deployer asks for. *)
Definition pending_deployment (j : CallJob) : option (bytes * bytes * bytes) :=
  if bool_decide (job_contract_id j = DEPLOYOOOR_CONTRACT_ID) then
    match deserialize calls_codec (job_data j) with
    | Ok cs =>
        match cs !! Z.to_nat (job_call_idx j) with
        | Some leaf =>
            let d := data (leaf_data leaf) in
            if (1 <? Z.of_nat (length d)) && first_byte_is 0x00 d then
              match decode DeployParamsV1_codec (drop 1 d) with
              | Ok (p, _) => Some (wasm_bincode p, derive_public (deploy_key p), deploy_ix p)
              | Err _ => None
              end
            else None
        | None => None
        end
    | Err _ => None
    end
  else None.

Definition after_call (j : CallJob) (row : MetaRow) (bk : Backend) (gas : Z) (l : Loop) : Loop := {|
  lp_bk := bk;
  lp_tables := <[job_tx_hash j := default [] (lp_tables l !! job_tx_hash j) ++ [row]]> (lp_tables l);
  lp_gas := gas; lp_calls := lp_calls l + 1;
  lp_deploys := lp_deploys l ++ option_list (pending_deployment j);
  lp_writes := lp_writes l ++ [changed_opinions (overlay_opinions (bk_overlay (lp_bk l))) (overlay_opinions (bk_overlay bk))]
|}.

Definition with_bk (bk : Backend) (l : Loop) : Loop := {|
  lp_bk := bk; lp_tables := lp_tables l; lp_gas := lp_gas l; lp_calls := lp_calls l; lp_deploys := lp_deploys l; lp_writes := lp_writes l |}.

Fixpoint run_canonical (ctx : BackendCtx) (tgt : Z) (js : list CallJob) (l : Loop) : Loop * ERes unit :=
  match js with
  | [] => (l, Ok tt)
  | j :: rest =>
      match run_job ctx tgt j (lp_bk l) with
      | (None, bk) => (with_bk bk l, refuse "canonical call failed")
      | (Some (row, gas), bk) =>
          let total := wrap 64 (lp_gas l + gas) in
          if BLOCK_GAS_LIMIT <=? total then (with_bk bk l, refuse "BlockGasLimitExceeded")
          else run_canonical ctx tgt rest (after_call j row bk total l)
      end
  end.

(** ** The calls of the uncles: each starts from the committed state *)

Definition run_uncle (ctx : BackendCtx) (tgt : Z) (j : CallJob) (anchors : list bytes) : list bytes * option (Z * OverlayDiff) :=
  let '(r, bk) := run_job ctx tgt j {| bk_overlay := overlay_empty; bk_anchors := anchors |} in
  (bk_anchors bk,
   match r with
   | None => None
   | Some (_, gas) => (fun d => (gas, d)) <$> overlay_diff (contracts (bc_store ctx)) (bk_overlay bk)
   end).

Fixpoint run_uncles (ctx : BackendCtx) (tgt : Z) (js : list CallJob) (anchors : list bytes) : list bytes * list (option (Z * OverlayDiff)) :=
  match js with
  | [] => (anchors, [])
  | j :: rest =>
      let '(a1, r) := run_uncle ctx tgt j anchors in
      let '(a2, rs) := run_uncles ctx tgt rest a1 in
      (a2, r :: rs)
  end.

(** ** Verification *)

Definition verify_tx (st : LinearStore) (tables : gmap bytes (list MetaRow)) (tx : Transaction) : ERes unit :=
  match tables !! tx_hash tx with
  | None => refuse "tx has no accumulated metadata tables"
  | Some rows =>
      match decode_and_reconcile tx with
      | Err _ => refuse "L2 witness verify"
      | Ok core =>
          match verify_core_tx_with_tables st core (map meta_zkp rows) with
          | Err _ => refuse "L2 proof verify"
          | Ok _ =>
              match verify_sigs (map meta_sigs rows) core with
              | Err _ => refuse "L2 signature verify"
              | Ok _ => Ok tt
              end
          end
      end
  end.

(** Transactions the loop does not look at. *)
Definition exempt (is_genesis : bool) (i : nat) (tx : Transaction) : bool :=
  ((i =? 0)%nat && is_pow_reward_coinbase_tx tx) || (is_genesis && is_genesis_deployment_tx tx).

Fixpoint verify_all (st : LinearStore) (is_genesis : bool) (tables : gmap bytes (list MetaRow)) (i : nat) (txs : list Transaction) : ERes unit :=
  match txs with
  | [] => Ok tt
  | tx :: rest =>
      if exempt is_genesis i tx then verify_all st is_genesis tables (S i) rest
      else let? _ := verify_tx st tables tx in verify_all st is_genesis tables (S i) rest
  end.

(** ** The merge *)

(** Inserting keys into a set, refusing one that is there. *)
Fixpoint claim_keys (ks : list bytes) (seen : gset bytes) : option (gset bytes) :=
  match ks with
  | [] => Some seen
  | k :: rest => if bool_decide (k ∈ seen) then None else claim_keys rest (seen ∪ {[ k ]})
  end.

Definition mentioned (o : OverlayState) : list bytes := elements (dom (ov_cache o)) ++ elements (ov_removed o).

Record Merge := { mg_overlay : OverlayState; mg_keys : gset bytes; mg_gas : Z; mg_executed : Z; mg_failed : Z }.

Fixpoint merge_uncles (canonical_total : OverlayDiff) (rs : list (option (Z * OverlayDiff))) (m : Merge) : ERes Merge :=
  match rs with
  | [] => Ok m
  | None :: rest =>
      merge_uncles canonical_total rest
        {| mg_overlay := mg_overlay m; mg_keys := mg_keys m; mg_gas := mg_gas m; mg_executed := mg_executed m; mg_failed := mg_failed m + 1 |}
  | Some (gas, diff) :: rest =>
      let total := wrap 64 (mg_gas m + gas) in
      if BLOCK_GAS_LIMIT <=? total then refuse "BlockGasLimitExceeded"
      else
        let d := remove_diff diff canonical_total in
        match claim_keys (mentioned (state_of_diff d)) (mg_keys m) with
        | None => refuse "DuplicateKeyConflict: two uncles wrote the same key"
        | Some keys =>
            merge_uncles canonical_total rest
              {| mg_overlay := add_diff d (mg_overlay m); mg_keys := keys; mg_gas := total; mg_executed := mg_executed m + 1; mg_failed := mg_failed m |}
        end
  end.

(** ** The deployments the block asked for *)

Fixpoint run_deployments (ctx : BackendCtx) (tgt : Z) (ds : list (bytes * bytes * bytes)) (written : gset bytes) (o : OverlayState) : ERes OverlayState :=
  match ds with
  | [] => Ok o
  | (code, cid, ix) :: rest =>
      let? o1 := deploy_contract_in_overlay ctx code cid ix tgt o in
      match claim_keys (List.filter (fun k => negb (bool_decide (k ∈ overlay_keys o))) (mentioned o1)) written with
      | None => refuse "DuplicateKeyConflict: Deployooor wrote key already in overlay"
      | Some written' => run_deployments ctx tgt rest written' o1
      end
  end.

(** ** [execute_block] *)

Definition ctx_of (s : CChainState) (b : Block) (key : bytes) : BackendCtx :=
  {| bc_store := store s; bc_height := height (header b); bc_key := key |}.

Definition loop_start (o : OverlayState) (anchors : list bytes) : Loop := {|
  lp_bk := {| bk_overlay := o; bk_anchors := anchors |}; lp_tables := ∅; lp_gas := 0; lp_calls := 0; lp_deploys := []; lp_writes := [] |}.

(** From the overlay the canonical calls left to the outcome. *)
Definition finish (ctx : BackendCtx) (tgt : Z) (l : Loop) (rs : list (option (Z * OverlayDiff))) (early_fail : Z) : ERes ExecutionOutcome :=
  let main := bk_overlay (lp_bk l) in
  match overlay_diff (contracts (bc_store ctx)) main with
  | None => refuse "diff"
  | Some total =>
      let? m := merge_uncles total rs {| mg_overlay := main; mg_keys := ∅; mg_gas := lp_gas l; mg_executed := 0; mg_failed := 0 |} in
      let? o := run_deployments ctx tgt (lp_deploys l) (overlay_keys (state_of_diff total)) (mg_overlay m) in
      Ok {| out_overlay := o;
            out_stats := {| stat_gas_used := mg_gas m; stat_calls_executed := lp_calls l; stat_calls_failed := early_fail;
                            stat_uncle_calls_executed := mg_executed m; stat_uncle_calls_failed := mg_failed m |};
            out_write_sets := lp_writes l |}
  end.

Definition execute_calls (s : CChainState) (b : Block) (us : list UncleBlock) (key : bytes) (tgt : Z) : list bytes * ERes ExecutionOutcome :=
  let ctx := ctx_of s b key in
  let is_genesis := height (header b) =? BlockHeight.GENESIS in
  match (if is_genesis then apply_genesis_deployments ctx b tgt overlay_empty else Ok overlay_empty) with
  | Err e => (anchor_leaves s, Err e)
  | Ok o =>
      match canonical_jobs (store s) is_genesis o (transactions b) with
      | Err e => (anchor_leaves s, Err e)
      | Ok jobs =>
          let ujobs := uncle_jobs (store s) us in
          match run_canonical ctx tgt jobs (loop_start o (anchor_leaves s)) with
          | (l, Err e) => (bk_anchors (lp_bk l), Err e)
          | (l, Ok _) =>
              let '(anchors, rs) := run_uncles ctx tgt (omap id ujobs) (bk_anchors (lp_bk l)) in
              (anchors,
               let? _ := verify_all (store s) is_genesis (lp_tables l) 0 (transactions b) in
               finish ctx tgt l rs (Z.of_nat (length ujobs - length (omap id ujobs))))
          end
      end
  end.

(** The executor of the node. *)
#[export] Instance node_executor : Executor := {|
  execute_block s b us key tgt :=
    let '(anchors, r) := execute_calls s b us key tgt in
    (anchors, match r with
              | Ok out => Some {| exec_overlay := out_overlay out; exec_gas := stat_gas_used (out_stats out) |}
              | Err _ => None
              end)
|}.
End execution.
