(* ===== verification/Ledger.v ===== *)
(** * The chain state as a ledger

    An abstract ledger is the list of its blocks, newest first; it grows by a
    block that continues it and spends nothing already spent, shrinks by its
    newest block, or stays.  Every step of [CChainState] is one of these: the
    state represents a ledger, in memory and on disk. *)

From Stdlib Require Import String.
From S2P Require Import Prelude F64 Units Emission Serial Externals Transaction Merkle Block Store Competing.
From S2P Require Import Consensus NativeToken L1Contracts Nullifiers FeeWindow ContractRisk Supply Validation Finality ChainState.

Section ledger.
Context `{EXT : Externals} `{SIG : Signatures} `{INFO : ContractInfo} `{ENV : !NodeEnv}.
Implicit Types (s : CChainState) (b : Block) (c : list Block).

(** ** What an operation leaves alone *)

(** The parts of the state that say what the chain is. *)
Definition ledger_part s :=
  (set_risk_tree ∅ (store s), chain_height s, commitments s, nullifier_set s, spent_nullifiers s).

Lemma commit_risk_part b s :
  ledger_part (commit_risk b s) = ledger_part s /\ live (commit_risk b s) = live s /\
  competing (commit_risk b s) = competing s /\ tip_cache (commit_risk b s) = tip_cache s.
Proof. unfold commit_risk. destruct (FeeWindowId.is_window_boundary _); done. Qed.

Lemma commit_window_part b s :
  ledger_part (commit_window b s).1 = ledger_part s /\ live (commit_window b s).1 = live s /\
  competing (commit_window b s).1 = competing s /\ tip_cache (commit_window b s).1 = tip_cache s.
Proof.
  unfold commit_window. destruct (FeeWindowId.is_window_boundary _); [| done].
  destruct (fee_window s); [| done]. by destruct (window_counts_before s _).
Qed.

(** The state the transaction is applied to. *)
Definition before_commit b s : CChainState :=
  let s1 := (commit_window b (commit_risk b s)).1 in
  with_live (add_block_work (target (header b)) (live s1)) s1.

Lemma before_commit_part b s :
  ledger_part (before_commit b s) = ledger_part s /\
  live (before_commit b s) = add_block_work (target (header b)) (live s) /\
  competing (before_commit b s) = competing s.
Proof.
  unfold before_commit. destruct (commit_window_part b (commit_risk b s)) as (E1 & E2 & E3 & _).
  destruct (commit_risk_part b s) as (F1 & F2 & F3 & _). cbn. rewrite E2, F2, E3, F3. split_and!; [| done..].
  rewrite <- F1, <- E1. done.
Qed.

(** The closure either commits from [before_commit] or leaves the ledger part. *)
Lemma commit_block_cases b us cb sb undo s :
  match commit_block b us cb sb undo s with
  | (s', Ok _) =>
      commit_checks b us s = Ok tt /\
      s' = with_store (commit_trees b us (default [] cb) (default [] sb) undo
             (live (before_commit b s)) (fee_window (before_commit b s)) (store (before_commit b s))) (before_commit b s)
  | (s', Err _) =>
      ledger_part s' = ledger_part s /\ competing s' = competing s /\
      (live s' = live s \/ live s' = add_block_work (target (header b)) (live s))
  end.
Proof.
  unfold commit_block. destruct (commit_checks b us s) as [[]|e] eqn:Ec; [| auto].
  destruct (commit_window_part b (commit_risk b s)) as (E1 & E2 & E3 & _).
  destruct (commit_risk_part b s) as (F1 & F2 & F3 & _).
  pose proof (before_commit_part b s) as (G1 & G2 & G3).
  unfold before_commit in *. destruct (commit_window b (commit_risk b s)) as [s1 [u|e]]; cbn in *.
  - destruct (_ && _); cbn; [| done]. split; [exact G1 | auto].
  - split_and!; [congruence | congruence | left; congruence].
Qed.

(** The live consensus state after the block's timestamp. *)
Definition adjusted b s : CChainState := with_live (adjust_target (record_block (timestamp (header b)) (live s))).2 s.

(** The state a canonical extension produces. *)
Definition extended b us (cb sb : option Batch) (undo : option bytes) s : CChainState :=
  let s2 := before_commit b (adjusted b s) in
  after_commit b (with_store (commit_trees b us (default [] cb) (default [] sb) undo
    (live s2) (fee_window s2) (store s2)) s2).

Record connects b us (tip : option bytes) s : Prop := {
  con_tip : current_tip s = Ok tip;
  con_checks : connect_checks b tip s = Ok tt;
  con_split : pre_commit_checks b us (adjusted b s) = Ok tt;
  con_commit : commit_checks b us (adjusted b s) = Ok tt
}.

Definition is_extension (r : Res BlockConnectOutcome) : bool :=
  match r with Ok (CanonicalExtension _) => true | _ => false end.

(** What a refusal leaves behind in the live consensus state. *)
Definition refused b us s (c : PoWConsensus) : Prop :=
  c = live s \/
  (exists e, pre_commit_checks b us (adjusted b s) = Err e /\ c = live (adjusted b s)) \/
  (pre_commit_checks b us (adjusted b s) = Ok tt /\ exists work, c = set_work work (live s)).

(** Recording a timestamp and adjusting touches the window and the target only. *)
Lemma adjusted_shape (ts : Z) (c : PoWConsensus) :
  exists w t, (adjust_target (record_block ts c)).2 = set_target t (set_timestamps w c).
Proof.
  destruct (decide (2 <= length (timestamps (record_block ts c)))%nat) as [Hl | Hl].
  - rewrite adjust_target_eq by done. cbn [snd]. by eexists _, _.
  - unfold adjust_target. rewrite (proj2 (Nat.ltb_lt _ _)) by lia. exists (timestamps (record_block ts c)), (cur_target c). by destruct c.
Qed.

Lemma restored_live (c : PoWConsensus) (work t : Z) (w : list Z) :
  set_timestamps (timestamps c) (set_target (cur_target c) (set_work work (set_target t (set_timestamps w c)))) = set_work work c.
Proof. by destruct c. Qed.

Lemma connect_block_cases b us cb sb undo s :
  let '(s', r) := connect_block b us cb sb undo s in
  if is_extension r then
    s' = extended b us cb sb undo s /\ r = Ok (CanonicalExtension (height (header b))) /\
    chain_height s < height (header b) /\ exists tip, connects b us tip s
  else
    ledger_part s' = ledger_part s /\
    match r with Ok _ => live s' = live s | Err _ => competing s' = competing s /\ refused b us s (live s') end.
Proof.
  assert (forall r : Res BlockConnectOutcome, is_extension r = false ->
    if is_extension r then s = extended b us cb sb undo s /\ r = Ok (CanonicalExtension (height (header b))) /\
      chain_height s < height (header b) /\ exists tip, connects b us tip s
    else ledger_part s = ledger_part s /\
      match r with Ok _ => live s = live s | Err _ => competing s = competing s /\ refused b us s (live s) end) as Hid.
  { intros r ->. split; [done |]. destruct r; unfold refused; auto. }
  unfold connect_block. destruct (negb (vm_ok _)); [by apply Hid |].
  destruct (Z.ltb_spec (BlockHeight.succ (chain_height s)) (height (header b))); [by apply Hid |].
  destruct (Z.ltb_spec (height (header b)) (chain_height s)); [by apply Hid |].
  destruct (Z.eqb_spec (height (header b)) (chain_height s)) as [_ | Hne].
  { unfold connect_sibling. destruct (validate_competing_block _ _ _); [| by apply Hid].
    destruct (if 0 <? chain_height s then (_ : Res unit) else _) as [u|e]; [cbn; done | by apply Hid]. }
  unfold connect_next. destruct (current_tip s) as [tip|e] eqn:Et; [| by apply Hid].
  match goal with |- context [match ?x with Some _ => _ | None => connect_canonical _ _ _ _ _ _ _ end] => destruct x end.
  { destruct (validate_competing_block _ _ _); [cbn; done | by apply Hid]. }
  unfold connect_canonical. destruct (connect_checks b tip s) as [[]|e] eqn:Ec; [| by apply Hid].
  fold (adjusted b s). destruct (pre_commit_checks b us (adjusted b s)) as [[]|e] eqn:Ep.
  - pose proof (commit_block_cases b us cb sb undo (adjusted b s)) as Hc.
    destruct (commit_block b us cb sb undo (adjusted b s)) as [s2 [u|e]].
    + destruct Hc as [Hc ->]. cbn [is_extension]. split_and!; [done | done | lia |].
      exists tip. by constructor.
    + cbn [is_extension]. destruct Hc as (Hl & Hco & Hlive). split; [exact Hl |]. split; [exact Hco |].
      right. right. split; [done |]. destruct (adjusted_shape (timestamp (header b)) (live s)) as (w & t & Es).
      assert (exists work, live s2 = set_work work (set_target t (set_timestamps w (live s)))) as [work Ew].
      { cbn [adjusted live with_live] in Hlive. rewrite Es in Hlive. destruct Hlive as [-> | ->]; by eexists. }
      exists work. cbn [live with_live]. rewrite Ew. apply restored_live.
  - cbn [is_extension]. split; [done |]. split; [done |]. right. left. by exists e.
Qed.

(** ** The replay gate and the set of spent nullifiers *)

Lemma replay_gate_ok s (nfs : list bytes) (seen : gset bytes) :
  replay_gate s nfs seen = Ok tt <->
  NoDup nfs /\ Forall (fun n => n ∉ spent_nullifiers s /\ n ∉ seen) nfs.
Proof.
  revert seen. induction nfs as [|n nfs IH]; intros seen; cbn [replay_gate].
  { split; [| done]. intros _. split; constructor. }
  unfold has_nullifier. rewrite NoDup_cons, Forall_cons.
  destruct (bool_decide_reflect (n ∈ spent_nullifiers s)); [naive_solver |].
  destruct (bool_decide_reflect (n ∈ seen)); [naive_solver |]. rewrite IH, !Forall_forall.
  setoid_rewrite not_elem_of_union. setoid_rewrite not_elem_of_singleton. split.
  - intros [Hnd Hf]. split_and!; [intros Hn; by destruct (Hf n Hn) as (_ & _ & []) | done | done | done |].
    intros x Hx. destruct (Hf x Hx) as (? & ? & _). done.
  - intros ([Hn Hnd] & _ & Hf). split; [done |]. intros x Hx. destruct (Hf x Hx). split_and!; try done.
    intros ->. done.
Qed.

Lemma has_nullifier_spent s (n : bytes) : has_nullifier s n = true -> n ∈ spent_nullifiers s.
Proof. apply bool_decide_eq_true_1. Qed.

Definition spends b : list bytes := flat_map (spends_of true) (transactions b).
Definition chain_spends c : list bytes := flat_map spends c.

Lemma spends_declared b (n : bytes) : n ∈ spends b -> n ∈ block_nullifiers b.
Proof.
  unfold spends, block_nullifiers. rewrite !list_elem_of_In, !in_flat_map.
  intros (tx & Htx & Hn). exists tx. split; [done |]. unfold spends_of in Hn. by apply filter_In in Hn as [Hn _].
Qed.

Lemma spends_NoDup b : NoDup (block_nullifiers b) -> NoDup (spends b).
Proof.
  unfold spends, block_nullifiers. induction (transactions b) as [|tx txs IH]; [done |]. cbn [flat_map].
  rewrite !NoDup_app. intros (H1 & Hd & H2). split_and!; [| | by apply IH].
  - apply NoDup_ListNoDup, List.NoDup_filter, NoDup_ListNoDup, H1.
  - intros n Hn Hn'. apply (Hd n).
    + unfold spends_of in Hn. by apply list_elem_of_In, filter_In in Hn as [Hn%list_elem_of_In _].
    + rewrite !list_elem_of_In, !in_flat_map in *. destruct Hn' as (t & Ht & Hn'). exists t. split; [done |].
      unfold spends_of in Hn'. by apply filter_In in Hn' as [Hn' _].
Qed.

Lemma track_claims (h : Z) (cs : list (bytes * bytes)) (m : gmap bytes Z * gset bytes) :
  (foldl (fun t cl => track_nullifier cl.2 h false t) m cs).2 = m.2.
Proof. revert m. induction cs as [|cl cs IH]; intros m; [done |]. cbn [foldl]. by rewrite IH. Qed.

Lemma track_spends (h : Z) (ns : list bytes) (m : gmap bytes Z * gset bytes) :
  foldl (fun t n => track_nullifier n h true t) m ns = (m.1, m.2 ∪ list_to_set ns).
Proof.
  revert m. induction ns as [|n ns IH]; intros m; cbn [foldl list_to_set].
  { rewrite union_empty_r_L. by destruct m. }
  rewrite IH. cbn [track_nullifier fst snd]. by rewrite union_assoc_L.
Qed.

Lemma memory_block_spent (h : Z) b (m : gmap bytes Z * (gmap bytes Z * gset bytes)) : (memory_block h b m).2.2 = m.2.2 ∪ list_to_set (spends b).
Proof.
  unfold memory_block, spends. revert m. induction (transactions b) as [|tx txs IH]; intros m; cbn [foldl flat_map].
  { cbn [list_to_set]. by rewrite union_empty_r_L. }
  rewrite IH, list_to_set_app_L, union_assoc_L. f_equal. unfold memory_tx. cbn [snd].
  rewrite track_spends. cbn [snd]. by rewrite track_claims.
Qed.

(** Taking a block's declared nullifiers out undoes putting its spends in. *)
Lemma spent_rollback b (spent : gset bytes) :
  Forall (fun n => n ∉ spent) (block_nullifiers b) ->
  (spent ∪ list_to_set (spends b)) ∖ list_to_set (block_nullifiers b) = spent.
Proof.
  intros Hf. rewrite Forall_forall in Hf. apply set_eq. intros n.
  rewrite elem_of_difference, elem_of_union, !elem_of_list_to_set. split.
  - intros [[? | Hn] Hnot]; [done |]. by apply spends_declared in Hn.
  - intros Hn. split; [auto |]. intros Hin. by apply (Hf n Hin).
Qed.

(** ** The abstract ledger *)

(** The hash a block is known by. *)
Definition block_hash b : Res bytes := hash_with_vm (header b) (randomx_key (header b)).

Record extends c b : Prop := {
  ext_height : height (header b) = Z.of_nat (length c) + 1;
  ext_parent : forall tip rest, c = tip :: rest -> block_hash tip = Ok (previous (header b));
  ext_root : compute_merkle_root (transactions b) = merkle_root (header b);
  ext_reward : exists pins : Z, (total_reward (header b) + pins) mod 2 ^ 64 = expected_reward (height (header b));
  ext_declared : reconcile_all (indexed (transactions b)) = Ok tt;
  ext_once : NoDup (block_nullifiers b);
  ext_fresh : Forall (fun n => n ∉ chain_spends c) (block_nullifiers b)
}.

Inductive ledger_step : list Block -> list Block -> Prop :=
| ledger_append c b : extends c b -> ledger_step c (b :: c)
| ledger_retract c b : ledger_step (b :: c) c
| ledger_stay c : ledger_step c c.

(** ** Steps of the node *)

Definition chain_part s := (blocks (store s), chain_height s, spent_nullifiers s).

Lemma chain_part_inv s (t : Tree) (h : Z) (spent : gset bytes) :
  chain_part s = (t, h, spent) -> blocks (store s) = t /\ chain_height s = h /\ spent_nullifiers s = spent.
Proof. intros E. split_and!; [exact (f_equal (fun p => p.1.1) E) | exact (f_equal (fun p => p.1.2) E) | exact (f_equal snd E)]. Qed.

Lemma ledger_part_chain s s' : ledger_part s' = ledger_part s -> chain_part s' = chain_part s.
Proof.
  intros E. exact (f_equal (fun p => (blocks p.1.1.1.1, p.1.1.1.2, p.2)) E).
Qed.

(** Every call of the two operations, whatever its result, and anything that
    touches neither the blocks nor the height nor the spent set: the pool of
    competing blocks, the caches, writes to the other trees. *)
Inductive node_step : CChainState -> CChainState -> Prop :=
| node_connect s b us cb sb undo : Block_wf b -> node_step s (connect_block b us cb sb undo s).1
| node_disconnect s h : is_u64 h -> node_step s (disconnect_block h s).1
| node_other s s' : chain_part s' = chain_part s -> node_step s s'.

(** The height says how many blocks there are, or one more when a disconnect
    failed after its transaction; no operation leaves the latter state. *)
Record represents c s : Prop := {
  rep_wf : Forall Block_wf c;
  rep_len : is_u64 (Z.of_nat (length c));
  rep_spent : spent_nullifiers s = list_to_set (chain_spends c);
  rep_blocks : forall (i : nat) b, c !! i = Some b ->
    blocks (store s) !! height_key (Z.of_nat (length c) - Z.of_nat i) = Some (serialize Block_codec b);
  rep_none : forall h, is_u64 h -> h = 0 \/ Z.of_nat (length c) < h -> blocks (store s) !! height_key h = None;
  rep_height : chain_height s = Z.of_nat (length c) \/
    (chain_height s = Z.of_nat (length c) + 1 /\ is_u64 (chain_height s))
}.

Lemma represents_part c s s' : chain_part s' = chain_part s -> represents c s -> represents c s'.
Proof.
  intros (E1 & E2 & E3)%chain_part_inv [H1 H2 H3 H4 H5 H6].
  constructor; rewrite ?E1, ?E2, ?E3; done.
Qed.

Lemma read_block s (h : Z) b :
  Block_wf b -> blocks (store s) !! height_key h = Some (serialize Block_codec b) ->
  chain_block s h = Ok (stored_block b).
Proof.
  intros Hw E. unfold chain_block, get_block. rewrite E. cbn [ok_or]. unfold deserialize, deserialize_partial, serialize.
  rewrite <- (app_nil_r (encode _ b)), block_decode_encode by done. cbn [length].
  by rewrite Z.sub_0_r, Z.eqb_refl.
Qed.

Lemma read_missing s (h : Z) : blocks (store s) !! height_key h = None -> exists e, chain_block s h = Err e.
Proof. intros E. unfold chain_block, get_block. rewrite E. cbn. eauto. Qed.

Lemma hash_block_stored b hash : hash_block (stored_block b) = Ok hash -> block_hash b = Ok hash.
Proof. unfold hash_block, block_hash. cbn [stored_block header]. destruct (vm_ok _); [| done]. by intros <-. Qed.

(** The tip the node reads is the newest block, and there is one to read. *)
Lemma represents_tip c s (tip : option bytes) :
  represents c s -> current_tip s = Ok tip ->
  chain_height s = Z.of_nat (length c) /\ forall t rest, c = t :: rest -> exists hash, tip = Some hash /\ block_hash t = Ok hash.
Proof.
  intros [H1 H2 H3 H4 H5 H6]. unfold current_tip. intros E.
  assert (chain_height s = Z.of_nat (length c)) as Hh.
  { destruct H6 as [? | [Eh Hu]]; [done |]. exfalso. rewrite Eh in *.
    assert (0 <? Z.of_nat (length c) + 1 = true) as Hp by lia. rewrite Hp in E.
    destruct (read_missing s (Z.of_nat (length c) + 1)) as [e Ee]; [apply H5; [done | lia] |].
    by rewrite Ee in E. }
  split; [done |]. intros t rest ->. rewrite Hh in E.
  assert (0 <? Z.of_nat (length (t :: rest)) = true) as Hp by (apply Z.ltb_lt; rewrite length_cons; lia). rewrite Hp in E.
  rewrite (read_block s _ t) in E.
  - destruct (hash_block (stored_block t)) as [hash|] eqn:Eb; [| done]. injection E as <-.
    exists hash. split; [done |]. by apply hash_block_stored.
  - by inversion H1.
  - pose proof (H4 0%nat t eq_refl) as E4. by rewrite Z.sub_0_r in E4.
Qed.

Lemma commit_trees_blocks b us cb sb undo (co : PoWConsensus) (fw : option FeeWindowState) (st : LinearStore) :
  blocks (commit_trees b us cb sb undo co fw st) = <[height_key (height (header b)) := serialize Block_codec b]> (blocks st).
Proof. unfold commit_trees. by destruct (disk_block _ _ _). Qed.

Lemma after_commit_part b s :
  chain_part (after_commit b s) =
  (blocks (store s), (if chain_height s <? height (header b) then height (header b) else chain_height s),
   spent_nullifiers s ∪ list_to_set (spends b)).
Proof.
  unfold after_commit, chain_part.
  pose proof (memory_block_spent (height (header b)) b (commitments s, (nullifier_set s, spent_nullifiers s))) as E.
  destruct (memory_block _ _ _) as [coins [nulls spent]]. cbn in *. by rewrite E.
Qed.

Lemma extended_part b us cb sb undo s :
  chain_height s < height (header b) ->
  chain_part (extended b us cb sb undo s) =
  (<[height_key (height (header b)) := serialize Block_codec b]> (blocks (store s)), height (header b),
   spent_nullifiers s ∪ list_to_set (spends b)).
Proof.
  intros Hlt. unfold extended. rewrite after_commit_part. cbn [store with_store chain_height spent_nullifiers].
  rewrite commit_trees_blocks.
  pose proof (ledger_part_chain _ _ (proj1 (before_commit_part b (adjusted b s)))) as (E1 & E2 & E3)%chain_part_inv.
  rewrite E1, E2, E3. cbn [adjusted with_live store chain_height spent_nullifiers].
  by rewrite (proj2 (Z.ltb_lt _ _) Hlt).
Qed.

(** What the three groups of checks establish. *)
Lemma connect_checks_inv b tip s :
  connect_checks b tip s = Ok tt ->
  exists expected, get_next_work_required (live s) (store s) (height (header b)) = Ok expected /\
    header_valid coinbase_merkle_ok aux_pow_binding monero_block_hash b (randomx_key (header b)) expected (chain_height s) tip /\
    check_block_timestamp (timestamp (header b)) (height (header b)) (recent_timestamps s (height (header b))) = Ok tt.
Proof.
  unfold connect_checks. destruct (get_next_work_required _ _ _) as [expected|]; [| done].
  destruct (check_block_header _ _ _ _ _ _ _) as [[]|] eqn:Eh; [| done].
  destruct (check_block_timestamp _ _ _) as [[]|]; [| done]. intros _. exists expected.
  split_and!; [done | by apply check_block_header_iff | done].
Qed.

Lemma pre_commit_checks_inv b us s :
  pre_commit_checks b us s = Ok tt ->
  (exists pins, total_accepted_pin us = Ok pins /\
     (total_reward (header b) + pins mod 2 ^ 64) mod 2 ^ 64 = expected_reward (height (header b))) /\
  check_coinbase_maturity s b (height (header b)) = Ok tt.
Proof.
  unfold pre_commit_checks. destruct (total_accepted_pin us) as [pins|]; [| done].
  unfold verify_uncle_split. cbn [foldl]. rewrite Z.add_0_l.
  destruct (_ =? _) eqn:E; cbn [negb]; [| done]. intros Hm. split; [| done]. exists pins. split; [done |]. by apply Z.eqb_eq in E.
Qed.

Lemma commit_checks_inv b us s :
  commit_checks b us s = Ok tt ->
  (us = [] <-> uncle_merkle_root (header b) = zero32) /\ reconcile_all (indexed (transactions b)) = Ok tt /\
  NoDup (block_nullifiers b) /\ Forall (fun n => n ∉ spent_nullifiers s) (block_nullifiers b).
Proof.
  unfold commit_checks. intros E.
  match type of E with match ?x with _ => _ end = _ => destruct x as [[]|] eqn:Eu end; [| done].
  destruct (reconcile_all _) as [[]|]; [| done]. apply replay_gate_ok in E as [Hnd Hf]. split_and!; [| done | done |].
  - destruct us; [destruct (bool_decide_reflect (uncle_merkle_root (header b) = zero32))
                 | destruct (bool_decide_reflect (uncle_merkle_root (header b) = zero32))]; cbn in Eu; done.
  - eapply Forall_impl; [exact Hf |]. by intros n [Hn _].
Qed.

Lemma connects_height c b us tip s :
  represents c s -> connects b us tip s -> Block_wf b -> chain_height s < height (header b) ->
  height (header b) = Z.of_nat (length c) + 1.
Proof.
  intros Hr [Et Ec _ _] Hw Hlt. destruct (represents_tip c s tip Hr Et) as [Hh _].
  apply connect_checks_inv in Ec as (_ & _ & (_ & _ & Eh & _) & _).
  assert (is_u64 (height (header b))) as Hu by (by destruct Hw as [(_ & _ & _ & _ & _ & _ & Hu & _) _]).
  pose proof (rep_len c s Hr) as Hl. rewrite Hh in *. unfold BlockHeight.succ, is_u in *.
  rewrite wrap_small in Eh; [done |]. unfold is_u. lia.
Qed.

Lemma connects_extends c b us tip s :
  represents c s -> connects b us tip s -> Block_wf b -> chain_height s < height (header b) -> extends c b.
Proof.
  intros Hr Hc Hw Hlt. pose proof (connects_height c b us tip s Hr Hc Hw Hlt) as Hh.
  destruct Hc as [Et Ec Es Em]. destruct (represents_tip c s tip Hr Et) as [_ Htip].
  apply connect_checks_inv in Ec as (_ & _ & (_ & _ & _ & Ep & Er & _) & _).
  apply pre_commit_checks_inv in Es as [(pins & _ & Epin) _]. apply commit_checks_inv in Em as (_ & Ed & Hnd & Hf).
  constructor; try done.
  - intros t rest Ec'. destruct (Htip t rest Ec') as (hash & -> & Ebh). by rewrite (Ep hash eq_refl).
  - by eexists.
  - eapply Forall_impl; [exact Hf |]. cbn. intros n Hn. by rewrite (rep_spent c s Hr), elem_of_list_to_set in Hn.
Qed.

Lemma represents_append c b us cb sb undo tip s :
  represents c s -> connects b us tip s -> Block_wf b -> chain_height s < height (header b) ->
  represents (b :: c) (extended b us cb sb undo s).
Proof.
  intros Hr Hc Hw Hlt. pose proof (connects_height c b us tip s Hr Hc Hw Hlt) as Hh.
  pose proof (extended_part b us cb sb undo s Hlt) as (E1 & E2 & E3)%chain_part_inv.
  assert (is_u64 (height (header b))) as Hu by (by destruct Hw as [(_ & _ & _ & _ & _ & _ & Hu & _) _]).
  destruct Hr as [H1 H2 H3 H4 H5 H6]. unfold is_u in *.
  constructor; rewrite ?length_cons, ?Nat2Z.inj_succ, ?E1, ?E2, ?E3.
  - by constructor.
  - unfold is_u. lia.
  - rewrite H3. unfold chain_spends. cbn [flat_map]. rewrite list_to_set_app_L. apply union_comm_L.
  - intros [|i] b' Eb.
    + injection Eb as <-. rewrite Hh. replace (Z.succ (Z.of_nat (length c)) - Z.of_nat 0) with (Z.of_nat (length c) + 1) by lia.
      apply lookup_insert_eq.
    + cbn in Eb. pose proof (lookup_lt_Some _ _ _ Eb) as Hi. rewrite lookup_insert_ne.
      * rewrite <- (H4 i b' Eb). do 2 f_equal. lia.
      * intros Ek. apply height_key_inj in Ek; unfold is_u; lia.
  - intros h Hhu Hor. rewrite lookup_insert_ne; [apply H5; [done | lia] |].
    intros Ek. apply height_key_inj in Ek; unfold is_u in *; lia.
  - left. lia.
Qed.

Lemma disconnect_block_cases s (h : Z) :
  let '(s', r) := disconnect_block h s in
  (chain_part s' = chain_part s /\ store s' = store s /\ exists e, r = Err e) \/
  exists b, chain_block s h = Ok b /\ h = chain_height s /\
    nullifiers_tree (store s') =
      delete_keys (block_nullifiers b) (delete_keys (claimed_nullifiers b) (nullifiers_tree (store s))) /\
    chain_part s' = (delete (height_key h) (blocks (store s)), (if is_ok r then default 0 (BlockHeight.pred h) else h),
                     spent_nullifiers s ∖ list_to_set (block_nullifiers b)).
Proof.
  unfold disconnect_block. destruct (chain_block s h) as [b|e] eqn:Eb; [| left; eauto].
  destruct (Z.eqb_spec h (chain_height s)) as [-> | Hne]; cbn [negb]; [| left; eauto].
  match goal with |- context [match ?u with Ok _ => _ | Err e => (with_live _ _, _) end] => destruct u as [ops|e] end;
    [| left; eauto].
  destruct (rollback_cache _ _); right; by exists b.
Qed.

Lemma represents_retract c b s s' (h' : Z) :
  represents (b :: c) s -> Forall (fun n => n ∉ chain_spends c) (block_nullifiers b) ->
  chain_part s' = (delete (height_key (chain_height s)) (blocks (store s)), h',
                   spent_nullifiers s ∖ list_to_set (block_nullifiers b)) ->
  chain_height s = Z.of_nat (length (b :: c)) -> h' = Z.of_nat (length c) \/ h' = chain_height s ->
  represents c s'.
Proof.
  intros [H1 H2 H3 H4 H5 H6] Hf (E1 & E2 & E3)%chain_part_inv Eh Eh'. rewrite length_cons, Nat2Z.inj_succ in *.
  unfold is_u in *. constructor; rewrite ?E1, ?E2, ?E3.
  - by inversion H1.
  - unfold is_u. lia.
  - rewrite H3. change (chain_spends (b :: c)) with (spends b ++ chain_spends c).
    rewrite list_to_set_app_L, (union_comm_L (list_to_set (spends b))). apply spent_rollback.
    eapply Forall_impl; [exact Hf |]. cbn. intros n. by rewrite elem_of_list_to_set.
  - intros i b' Eb. pose proof (lookup_lt_Some _ _ _ Eb). rewrite lookup_delete_ne.
    + rewrite <- (H4 (S i) b' Eb). do 2 f_equal. lia.
    + intros Ek. apply height_key_inj in Ek; unfold is_u; lia.
  - intros h Hu Hor. destruct (decide (h = chain_height s)) as [-> | Hne]; [apply lookup_delete_eq |].
    rewrite lookup_delete_ne; [apply H5; [done | lia] |]. intros Ek. apply height_key_inj in Ek; unfold is_u in *; lia.
  - unfold is_u. lia.
Qed.

Lemma represents_top c s (h : Z) b :
  represents c s -> h = chain_height s -> chain_block s h = Ok b ->
  exists t rest, c = t :: rest /\ b = stored_block t /\ h = Z.of_nat (length c).
Proof.
  intros [H1 H2 H3 H4 H5 H6] -> Eb. destruct H6 as [Eh | [Eh Hu]].
  - destruct c as [|t rest].
    + destruct (read_missing s (chain_height s)) as [e Ee]; [| congruence]. apply H5; [| by left].
      rewrite Eh. unfold is_u. cbn. lia.
    + exists t, rest. rewrite (read_block s _ t) in Eb.
      * by injection Eb as <-.
      * by inversion H1.
      * rewrite Eh. rewrite <- (H4 0%nat t eq_refl). by do 2 f_equal.
  - destruct (read_missing s (chain_height s)) as [e Ee]; [| congruence]. apply H5; [done | lia].
Qed.

Lemma pred_succ (n : nat) : is_u64 (Z.succ (Z.of_nat n)) -> default 0 (BlockHeight.pred (Z.succ (Z.of_nat n))) = Z.of_nat n.
Proof.
  intros Hu. unfold BlockHeight.pred, checked_sub. assert (Z.succ (Z.of_nat n) - 1 = Z.of_nat n) as -> by lia.
  assert (checked 64 (Z.of_nat n) = Some (Z.of_nat n)) as ->; [| done]. apply checked_spec. unfold is_u in *. lia.
Qed.

Inductive valid_chain : list Block -> Prop :=
| valid_nil : valid_chain []
| valid_cons c b : valid_chain c -> extends c b -> valid_chain (b :: c).

Lemma valid_step c c' : valid_chain c -> ledger_step c c' -> valid_chain c'.
Proof. intros Hv Hs. destruct Hs as [c b He | c b | c]; [by constructor | by inversion Hv | done]. Qed.

(** A disconnect changes nothing, or takes the newest block off. *)
Lemma disconnect_represents c s (h : Z) :
  valid_chain c -> represents c s ->
  (chain_part (disconnect_block h s).1 = chain_part s /\ store (disconnect_block h s).1 = store s) \/
  exists b rest, c = b :: rest /\ represents rest (disconnect_block h s).1 /\
    nullifiers_tree (store (disconnect_block h s).1) =
      delete_keys (block_nullifiers b) (delete_keys (claimed_nullifiers b) (nullifiers_tree (store s))).
Proof.
  intros Hv Hr. pose proof (disconnect_block_cases s h) as Hc. destruct (disconnect_block h s) as [s' r]. cbn [fst].
  destruct Hc as [(E & Es & _) | (b & Eb & Eh & En & E)]; [by left |]. right.
  destruct (represents_top c s h b Hr Eh Eb) as (t & rest & -> & -> & Elen).
  exists t, rest. split_and!; [done | | exact En]. inversion Hv as [|? ? Hv' He]; subst.
  eapply represents_retract; [exact Hr | exact (ext_fresh _ _ He) | exact E | done |].
  destruct (is_ok r); [left | by right]. rewrite Elen, length_cons, Nat2Z.inj_succ. apply pred_succ.
  pose proof (rep_len _ _ Hr) as Hl. by rewrite length_cons, Nat2Z.inj_succ in Hl.
Qed.

Lemma simulation c s s' :
  valid_chain c -> represents c s -> node_step s s' -> exists c', ledger_step c c' /\ represents c' s'.
Proof.
  intros Hv Hr Hs. destruct Hs as [s b us cb sb undo Hw | s h Hu | s s' E].
  - pose proof (connect_block_cases b us cb sb undo s) as Hc.
    destruct (connect_block b us cb sb undo s) as [s' r]. cbn [fst]. destruct (is_extension r).
    + destruct Hc as (-> & _ & Hlt & tip & Hcon). exists (b :: c). split.
      * constructor. by eapply connects_extends.
      * by eapply represents_append.
    + destruct Hc as [E _]. exists c. split; [constructor |]. eapply represents_part; [| done].
      by apply ledger_part_chain.
  - destruct (disconnect_represents c s h Hv Hr) as [[E _] | (b & rest & -> & Hr' & _)].
    + exists c. split; [constructor | by eapply represents_part].
    + exists rest. split; [constructor | done].
  - exists c. split; [constructor | by eapply represents_part].
Qed.

(** ** Properties *)

(** A node before its first block: nothing stored, nothing spent. *)
Definition pristine s : Prop := blocks (store s) = ∅ /\ chain_height s = 0 /\ spent_nullifiers s = ∅.

Lemma represents_pristine s : pristine s -> represents [] s.
Proof.
  intros (E1 & E2 & E3). constructor; rewrite ?E1, ?E2, ?E3; [constructor | | done | done | | by left].
  - unfold is_u. cbn. lia.
  - intros h _ _. apply lookup_empty.
Qed.

Lemma reachable_ledger s s' :
  pristine s -> rtc node_step s s' -> exists c, rtc ledger_step [] c /\ valid_chain c /\ represents c s'.
Proof.
  intros Hp. revert s'. apply rtc_ind_r.
  - exists []. split_and!; [constructor | constructor | by apply represents_pristine].
  - intros y z _ Hs (c & Hr & Hv & Hrep). destruct (simulation c y z) as (c' & Hl & Hrep'); [done..|].
    exists c'. split_and!; [by eapply rtc_r | by eapply valid_step | done].
Qed.

Lemma valid_chain_spends c : valid_chain c -> NoDup (chain_spends c).
Proof.
  induction 1 as [|c b Hv IH He]; [constructor |]. unfold chain_spends. cbn [flat_map]. fold (chain_spends c).
  apply NoDup_app. split_and!; [apply spends_NoDup, He | | done].
  intros n Hn Hc. pose proof (ext_fresh _ _ He) as Hf. rewrite Forall_forall in Hf.
  by apply (Hf n); [apply spends_declared |].
Qed.

(** A wedged node: the height names a block that is not there. *)
Lemma wedged_step c s s' :
  valid_chain c -> represents c s -> chain_height s = Z.of_nat (length c) + 1 -> node_step s s' ->
  chain_part s' = chain_part s.
Proof.
  intros Hv Hr Hh Hs. destruct Hs as [s b us cb sb undo Hw | s h Hu | s s' E]; [| | done].
  - pose proof (connect_block_cases b us cb sb undo s) as Hc. destruct (connect_block b us cb sb undo s) as [s' r].
    cbn [fst]. destruct (is_extension r); [| apply ledger_part_chain, Hc].
    destruct Hc as (_ & _ & _ & tip & Hcon). destruct (represents_tip c s tip Hr (con_tip _ _ _ _ Hcon)) as [Hh' _]. lia.
  - pose proof (disconnect_block_cases s h) as Hc. destruct (disconnect_block h s) as [s' r]. cbn [fst].
    destruct Hc as [(E & _) | (b & Eb & Eh & _)]; [done |].
    destruct (represents_top c s h b Hr Eh Eb) as (t & rest & -> & _ & Elen). lia.
Qed.

Lemma wedged_run c s s' :
  valid_chain c -> represents c s -> chain_height s = Z.of_nat (length c) + 1 -> rtc node_step s s' ->
  chain_part s' = chain_part s.
Proof.
  intros Hv Hr Hh. revert s'. apply rtc_ind_r; [done |]. intros y z _ Hs E. rewrite <- E.
  apply (wedged_step c); [done | by eapply represents_part | | done].
  by rewrite <- Hh, (f_equal (fun p => p.1.2) E : chain_height y = chain_height s).
Qed.

(** C2: the node refines the abstract ledger.  Whatever sequence of blocks is
    offered and disconnected, with whatever results, and whatever happens to the
    caches, the pool and the other trees in between, the state stands for a
    ledger that grew only by blocks that continue it. *)
Theorem ledger_refinement s0 s :
  pristine s0 -> rtc node_step s0 s -> exists c, rtc ledger_step [] c /\ represents c s.
Proof. intros Hp Hs. destruct (reachable_ledger s0 s Hp Hs) as (c & Hl & _ & Hr). eauto. Qed.


(** The records a disconnect reads: the undo record, if there is one, and the
    supply entry of the block below. *)
Definition can_disconnect s (h : Z) : Prop :=
  (forall raw, contracts_undo (store s) !! height_key h = Some raw -> is_ok (deserialize undo_codec raw) = true) /\
  is_ok (supply_get (supply_chain (store s)) (h - 1)) = true.

Lemma disconnect_succeeds c s b :
  represents (b :: c) s -> chain_height s = Z.of_nat (length (b :: c)) -> can_disconnect s (chain_height s) ->
  (disconnect_block (chain_height s) s).2 = Ok tt.
Proof.
  intros Hr Hh [Hu Hs]. pose proof (rep_len _ _ Hr) as Hl. unfold disconnect_block.
  rewrite (read_block s _ b); [| by pose proof (rep_wf _ _ Hr) as Hw; inversion Hw |].
  2: { rewrite Hh, <- (rep_blocks _ _ Hr 0%nat b eq_refl). by do 2 f_equal. }
  rewrite Z.eqb_refl. cbn [negb].
  assert (exists ops, (match contracts_undo (store s) !! height_key (chain_height s) with
    | None => Ok None
    | Some raw => match deserialize undo_codec raw with Ok ops => Ok (Some ops)
                  | Err _ => Err (StorageError "deserialize contracts undo") end end : Res (option Batch)) = Ok ops) as [ops ->].
  { destruct (contracts_undo (store s) !! _) as [raw|]; [| eauto]. destruct (is_ok_inv _ (Hu raw eq_refl)) as [o ->]. eauto. }
  rewrite Hh, length_cons, Nat2Z.inj_succ in *. rewrite pred_succ by done. unfold rollback_cache.
  assert (supply_get (supply_chain (disconnect_trees (stored_block b) (Z.succ (Z.of_nat (length c))) ops
      (rollback_consensus (stored_block b) (Z.succ (Z.of_nat (length c))) (live s)) (store s))) (Z.of_nat (length c))
    = supply_get (supply_chain (store s)) (Z.of_nat (length c))) as ->.
  { unfold supply_get. destruct (_ =? 0); [done |]. cbn [supply_chain disconnect_trees].
    rewrite lookup_delete_ne; [done |]. intros Ek. apply height_key_inj in Ek; unfold is_u in *; lia. }
  replace (Z.succ (Z.of_nat (length c)) - 1) with (Z.of_nat (length c)) in Hs by lia.
  destruct (is_ok_inv _ Hs) as [e ->]. done.
Qed.

(** A reorganization undoes what was connected.  In a reachable state,
    disconnecting a block just connected succeeds when the undo record decodes
    and the supply entry below can be read, and gives back the blocks, the
    height and the spent nullifiers. *)
Lemma disconnect_undoes_connect s0 s b us cb sb undo :
  pristine s0 -> rtc node_step s0 s -> Block_wf b ->
  is_extension (connect_block b us cb sb undo s).2 = true ->
  can_disconnect (connect_block b us cb sb undo s).1 (height (header b)) ->
  let out := disconnect_block (height (header b)) (connect_block b us cb sb undo s).1 in
  out.2 = Ok tt /\ chain_part out.1 = chain_part s.
Proof.
  intros Hp Hs Hw. destruct (reachable_ledger s0 s Hp Hs) as (c & _ & Hv & Hr).
  pose proof (connect_block_cases b us cb sb undo s) as Hc. destruct (connect_block b us cb sb undo s) as [s1 r1].
  cbn [fst snd]. intros Hx. rewrite Hx in Hc. destruct Hc as (-> & _ & Hlt & tip & Hcon).
  pose proof (connects_height c b us tip s Hr Hcon Hw Hlt) as Hh.
  pose proof (connects_extends c b us tip s Hr Hcon Hw Hlt) as He.
  pose proof (represents_append c b us cb sb undo tip s Hr Hcon Hw Hlt) as Hr1.
  destruct (represents_tip c s tip Hr (con_tip _ _ _ _ Hcon)) as [Hhs _].
  pose proof (disconnect_block_cases (extended b us cb sb undo s) (height (header b))) as Hd.
  pose proof (extended_part b us cb sb undo s Hlt) as (E1 & E2 & E3)%chain_part_inv. intros Hcan.
  pose proof (disconnect_succeeds c (extended b us cb sb undo s) b Hr1) as Hok. rewrite E2, length_cons in Hok.
  specialize (Hok ltac:(lia) Hcan).
  destruct (disconnect_block _ _) as [s2 r2]. cbn [snd] in Hok. subst r2. split; [done |]. cbn [fst].
  destruct Hd as [(_ & _ & e & ?) | (b' & Eb & Eh & _ & E)]; [done |]. cbn [is_ok] in E.
  destruct (represents_top _ _ _ _ Hr1 Eh Eb) as (t & rest & Ec & -> & _). injection Ec as <- <-. rewrite E. unfold chain_part.
  rewrite E1, E3. f_equal; [f_equal |].
  - rewrite delete_insert_id; [done |]. apply (rep_none _ _ Hr); [| lia]. by destruct Hw as [(_ & _ & _ & _ & _ & _ & Hu & _) _].
  - rewrite Hhs, Hh. replace (Z.of_nat (length c) + 1) with (Z.succ (Z.of_nat (length c))) by lia. apply pred_succ.
    destruct Hw as [(_ & _ & _ & _ & _ & _ & Hu & _) _]. rewrite Hh in Hu. by rewrite <- Z.add_1_r.
  - change (block_nullifiers (stored_block b)) with (block_nullifiers b). apply spent_rollback.
    eapply Forall_impl; [exact (ext_fresh _ _ He) |]. cbn. intros n. by rewrite (rep_spent c s Hr), elem_of_list_to_set.
Qed.

(** A disconnect that fails late wedges the node.  When the call fails after
    its transaction removed the block, nothing that is connected or disconnected
    afterwards changes the chain: the height names a block that is gone. *)
Lemma failed_disconnect_wedges s0 s (h : Z) s' :
  pristine s0 -> rtc node_step s0 s -> is_ok (disconnect_block h s).2 = false ->
  chain_part (disconnect_block h s).1 <> chain_part s ->
  rtc node_step (disconnect_block h s).1 s' ->
  chain_part s' = chain_part (disconnect_block h s).1 /\ exists e, chain_block s' (chain_height s') = Err e.
Proof.
  intros Hp Hs Herr Hch Hrun. destruct (reachable_ledger s0 s Hp Hs) as (c & _ & Hv & Hr).
  pose proof (disconnect_block_cases s h) as Hc. pose proof (disconnect_represents c s h Hv Hr) as Hd.
  destruct (disconnect_block h s) as [s1 r]. cbn [fst snd] in *. destruct Hd as [[E _] | (b & rest & -> & Hr1 & _)]; [done |].
  destruct Hc as [(E & _) | (b' & Eb & Eh & _ & E)]; [done |]. rewrite Herr in E.
  destruct (represents_top _ _ _ _ Hr Eh Eb) as (t & rest' & Ec & _ & Elen). injection Ec as <- <-.
  assert (chain_height s1 = Z.of_nat (length rest) + 1) as Hh.
  { rewrite (f_equal (fun p => p.1.2) E : chain_height s1 = h), Elen, length_cons. lia. }
  assert (valid_chain rest) as Hv' by (by inversion Hv).
  pose proof (wedged_run rest s1 s' Hv' Hr1 Hh Hrun) as Erun. split; [done |].
  pose proof (represents_part rest s1 s' Erun Hr1) as [_ _ _ _ Hnone Hhs].
  apply read_missing, Hnone.
  - pose proof (rep_len _ _ Hr) as Hl. rewrite length_cons in Hl. unfold is_u in *. destruct Hhs; lia.
  - right. rewrite (f_equal (fun p => p.1.2) Erun : chain_height s' = chain_height s1). lia.
Qed.

(** What a block that does not become canonical leaves behind.  The trees
    (that of the risk factors apart), the height, the commitments and the
    nullifiers never change.  An error leaves the pool of competing blocks and
    the difficulty state alone (the accumulated work may have grown), except one
    that comes from the uncle split or the maturity rule: these run after the
    difficulty state took the block's timestamp, and nothing takes it back. *)
Lemma refused_block_effects b us cb sb undo s :
  let out := connect_block b us cb sb undo s in
  is_extension out.2 = false ->
  ledger_part out.1 = ledger_part s /\
  match out.2 with
  | Ok _ => live out.1 = live s
  | Err _ => competing out.1 = competing s /\ refused b us s (live out.1)
  end.
Proof.
  pose proof (connect_block_cases b us cb sb undo s) as Hc. destruct (connect_block b us cb sb undo s) as [s' r].
  cbv zeta. cbn [fst snd]. intros Hx. by rewrite Hx in Hc.
Qed.
End ledger.

(** ** A concrete run *)

Ltac concrete_bytes := split; [vm_compute; reflexivity | apply forallb_is_byte; vm_compute; reflexivity].

Lemma toy_hash_wf b : bytes_wf 32 (toy_hash b).
Proof.
  unfold toy_hash, hash_block, hash_with_vm. cbn [vm_ok toy_env randomx toy].
  set (m := randomx_key (header b) ++ to_mining_blob (header b)). pose proof (toy_digest_wf m) as Hw.
  rewrite (proj1 Hw). cbn [Nat.ltb Nat.leb]. rewrite take_ge by (by rewrite (proj1 Hw)). exact Hw.
Qed.

Lemma toy_block_wf (h ts reward tgt : Z) (prev : bytes) (txs : list Transaction) :
  is_u64 h -> is_u64 ts -> is_u64 reward -> is_u32 tgt -> bytes_wf 32 prev -> bytes_wf 32 (compute_merkle_root txs) ->
  vec_wf Transaction_codec Transaction_wf txs -> Block_wf (toy_block h ts reward prev tgt txs).
Proof.
  intros. pose proof zero32_wf. split; [| done]. unfold BlockHeader_wf. cbn [toy_block header version previous merkle_root
    timestamp target nonce height uncle_merkle_root total_reward randomx_key miner anchor_owner commitment_merkle_root
    nullifier_root anchor_tx_id caribina_anchor anchor_monero_height anchor_monero_hash finality_flags pow_source].
  assert (is_u32 0 /\ is_u64 0 /\ is_byte 1 /\ is_byte 0) as (? & ? & ? & ?) by (unfold is_u, is_byte; lia).
  by split_and!.
Qed.

Ltac concrete_block :=
  apply toy_block_wf;
  [ split; vm_compute; discriminate || reflexivity .. | apply toy_hash_wf || exact zero32_wf | concrete_bytes
  | apply (wf_of_roundtrip (vec_codec Transaction_codec) (vec_wf Transaction_codec Transaction_wf)); vm_compute; reflexivity ].

Lemma toy_genesis_wf : Block_wf toy_genesis.
Proof. concrete_block. Qed.

Lemma toy_second_wf : Block_wf toy_second.
Proof. concrete_block. Qed.

Definition one_block : CChainState := (connect_block toy_genesis [] None None None toy_node).1.
Definition two_blocks : CChainState := (connect_block toy_second [] (Some []) (Some []) None one_block).1.

Lemma toy_pristine : pristine toy_node.
Proof. done. Qed.

Lemma toy_run_one : rtc node_step toy_node one_block.
Proof. apply rtc_once, node_connect, toy_genesis_wf. Qed.

Lemma toy_run : rtc node_step toy_node two_blocks.
Proof. eapply rtc_r; [exact toy_run_one |]. apply node_connect, toy_second_wf. Qed.

Lemma ledger_refinement_witness :
  chain_height two_blocks = 2 /\ exists c, rtc ledger_step [] c /\ represents c two_blocks.
Proof.
  split; [vm_compute; reflexivity |]. apply (ledger_refinement toy_node two_blocks); [exact toy_pristine | exact toy_run].
Defined.

(** The nullifier of the second block, offered again. *)
Definition toy_replay : Block :=
  toy_block 3 1240 (expected_reward 3) (toy_hash toy_second) u32_max [toy_spend (to_le_bytes 32 77)].


Lemma disconnect_undoes_connect_witness :
  let out := disconnect_block (height (header toy_genesis)) (connect_block toy_genesis [] None None None toy_node).1 in
  out.2 = Ok tt /\ chain_part out.1 = chain_part toy_node.
Proof.
  apply (disconnect_undoes_connect toy_node toy_node toy_genesis [] None None None).
  - exact toy_pristine.
  - constructor.
  - exact toy_genesis_wf.
  - vm_compute. reflexivity.
  - split; [| vm_compute; reflexivity]. intros raw E. exfalso.
    assert (forall o : option bytes, o = None -> o = Some raw -> False) as Hx by congruence.
    refine (Hx _ _ E). vm_compute. reflexivity.
Defined.

Lemma failed_disconnect_wedges_witness :
  exists e, chain_block (disconnect_block 2 two_blocks).1 2 = Err e.
Proof.
  destruct (failed_disconnect_wedges toy_node two_blocks 2 (disconnect_block 2 two_blocks).1) as [_ [e He]].
  - exact toy_pristine.
  - exact toy_run.
  - vm_compute. reflexivity.
  - intros E. apply (f_equal (fun p => bool_decide (is_Some (p.1.1 !! height_key 2)))) in E.
    assert (bool_decide (is_Some ((chain_part (disconnect_block 2 two_blocks).1).1.1 !! height_key 2)) = false) as E1
      by (vm_compute; reflexivity).
    assert (bool_decide (is_Some ((chain_part two_blocks).1.1 !! height_key 2)) = true) as E2 by (vm_compute; reflexivity).
    cbv beta in E. rewrite E1, E2 in E. discriminate E.
  - constructor.
  - exists e. assert (chain_height (disconnect_block 2 two_blocks).1 = 2) as Eh by (vm_compute; reflexivity).
    by rewrite Eh in He.
Defined.

(** A genesis block that claims no reward: refused, but not without a trace. *)
Definition toy_underpaid : Block := toy_block 1 1000 0 zero32 u32_max [].

Lemma refused_block_effects_witness :
  ledger_part (connect_block toy_underpaid [] None None None toy_node).1 = ledger_part toy_node /\
  timestamps (live toy_node) = [] /\
  timestamps (live (connect_block toy_underpaid [] None None None toy_node).1) = [1000].
Proof.
  split; [| split; vm_compute; reflexivity].
  apply (refused_block_effects toy_underpaid [] None None None toy_node). vm_compute. reflexivity.
Defined.
