(* ===== verification/Acceptor.v ===== *)
(** * The block acceptor ([bin/dwowd/src/block_acceptor.rs])

    Every block enters the chain here: the checks of the host, fork detection,
    execution, the cumulative supply, the atomic commit, and the reorganisation
    that adopts a heavier chain.  A step that fails returns the error with the
    state it leaves.  The reorganisation lock is not reentrant: taking it again
    never returns ([Blocked]).  [Exhausted] is the fuel of the recursion between
    acceptance and reorganisation, which two rounds cover. *)

From Stdlib Require Import String.
From S2P Require Import Prelude F64 Units Emission Serial Externals Transaction Merkle Block Store Competing FeeEstimator.
From S2P Require Import Consensus NativeToken L1Contracts Nullifiers FeeWindow ContractRisk Supply Pedersen TokenContract TokenBalance.
From S2P Require Import Validation Finality DarkTree CoreTx ZkVerifier ChainState Overlay Executor.

(** The text compiled in from [genesis_hash.txt], and the answer of a Monero
    node about the block a merge-mining proof describes. *)
Class AcceptEnv `{EXT : Externals} := {
  genesis_hash_txt : bytes;
  verify_monero_powdata : MoneroPowData -> bytes -> Z -> Res unit
}.

Inductive AcceptError := Rejected (stage : string) | Blocked | Exhausted.

Abbreviation ARes := (result AcceptError).

Definition at_stage {E A : Type} (name : string) (r : result E A) : ARes A :=
  match r with Ok a => Ok a | Err _ => Err (Rejected name) end.

(** ** The genesis pin ([bin/dwowd/src/lib.rs]) *)

Definition is_space (b : Z) : bool := (b =? 32) || ((9 <=? b) && (b <=? 13)).

Fixpoint trim_start (t : bytes) : bytes :=
  match t with b :: rest => if is_space b then trim_start rest else t | [] => [] end.

Definition trim (t : bytes) : bytes := rev (trim_start (rev (trim_start t))).

Definition hex_digit (b : Z) : option Z :=
  if (48 <=? b) && (b <=? 57) then Some (b - 48)
  else if (97 <=? b) && (b <=? 102) then Some (b - 87)
  else if (65 <=? b) && (b <=? 70) then Some (b - 55) else None.

Fixpoint hex_decode (t : bytes) : option bytes :=
  match t with
  | [] => Some []
  | [_] => None
  | a :: b :: rest =>
      match hex_digit a, hex_digit b, hex_decode rest with
      | Some x, Some y, Some l => Some (16 * x + y :: l)
      | _, _, _ => None
      end
  end.

(** The state the acceptor works on: the chain, the estimator its caller may
    pass, and the transactions handed to the mempool's [add]. *)
Record Node `{EXT : Externals} := {
  chain : CChainState;
  estimator : option FeeEstimator;
  returned : list Transaction
}.

Section acceptor.
Context `{EXT : Externals} `{SIG : Signatures} `{INFO : ContractInfo} `{ENV : !NodeEnv} `{OPS : !CurveOps} `{CORE : !CoreEnv}.
Context `{OV : SledOverlay} `{EXEC : !Executor} `{ACC : !AcceptEnv}.

Definition with_chain (s : CChainState) (n : Node) : Node :=
  {| chain := s; estimator := estimator n; returned := returned n |}.

Definition pinned_genesis_hash : option bytes :=
  let t := trim genesis_hash_txt in if forallb (Z.eqb 48) t then None else Some t.

Definition check_genesis_pin (hash : bytes) : ARes unit :=
  match pinned_genesis_hash with
  | None => Ok tt
  | Some hex =>
      match hex_decode hex with
      | None => Err (Rejected "genesis_hash.txt is not valid hex")
      | Some expected =>
          if negb (List.length expected =? 32)%nat then Err (Rejected "genesis_hash.txt must be 64 hex characters")
          else if bool_decide (hash = expected) then Ok tt else Err (Rejected "genesis hash does not match the pin")
      end
  end.

Definition pow_reward_params (txs : list Transaction) : option PoWRewardParamsV1.t :=
  match txs with
  | tx :: _ =>
      match contract_calls tx with
      | c :: _ =>
          if first_byte_is 0x05 (data c) then
            match PoWRewardParamsV1.dec (drop 1 (data c)) with Ok p => Some p | Err _ => None end
          else None
      | [] => None
      end
  | [] => None
  end.

(** ** The checks before execution *)

Definition check_genesis_admission (b : Block) (vm_key : bytes) : ARes unit :=
  if height (header b) =? BlockHeight.GENESIS then
    let? hash := at_stage "genesis hash" (hash_with_vm (header b) vm_key) in check_genesis_pin hash
  else Ok tt.

Fixpoint uncle_targets_of (s : CChainState) (us : list UncleBlock) : ARes (list Z) :=
  match us with
  | [] => Ok []
  | u :: rest =>
      let? t := at_stage "uncle target lookup" (block_target_at s (height (uncle_header u))) in
      let? t := ok_or t (Rejected "uncle has no target on this chain") in
      let? ts := uncle_targets_of s rest in
      Ok (t :: ts)
  end.

Definition check_uncle_set (s : CChainState) (b : Block) (us : list UncleBlock) : ARes unit :=
  match us with
  | [] => Ok tt
  | _ =>
      let '(expected_root, uncle_proofs) := build_uncle_merkle us in
      if negb (bool_decide (expected_root = uncle_merkle_root (header b))) then Err (Rejected "uncle merkle root mismatch")
      else
        let? existing := at_stage "uncle set unreadable" (stored_uncle_hashes s) in
        let? targets := uncle_targets_of s us in
        at_stage "uncle validation"
          (check_uncles us uncle_proofs (uncle_merkle_root (header b)) (height (header b)) targets existing)
  end.

Definition check_pow (s : CChainState) (b : Block) (vm_key : bytes) (tgt : Z) : ARes unit :=
  match pow_source (header b) with
  | Monero md =>
      if negb (coinbase_merkle_ok md) then Err (Rejected "Monero coinbase Merkle proof invalid")
      else
        let? _ := at_stage "AuxPoW binding" (aux_pow_binding b md) in
        match monerod_url (finality_config s) with
        | Some url =>
            at_stage "Monero admission policy" (verify_monero_powdata md url (monero_min_confirmations (finality_config s)))
        | None =>
            if negb (accept_unverified_merge_blocks (finality_config s)) then Err (Rejected "merge-mined without monerod_url")
            else Ok tt
        end
  | Native =>
      let? hash := at_stage "hash" (hash_with_vm (header b) vm_key) in
      if negb (BlockTarget.hash_is_valid tgt (hash_u32 hash)) then Err (Rejected "PoW invalid") else Ok tt
  end.

Fixpoint check_witnesses (h : Z) (txs : list Transaction) : ARes unit :=
  match txs with
  | [] => Ok tt
  | tx :: rest =>
      if is_pow_reward_coinbase_tx tx then check_witnesses h rest
      else if (h =? BlockHeight.GENESIS) && is_genesis_deployment_tx tx then check_witnesses h rest
      else let? _ := at_stage "witness verification" (verify_single_tx tx) in check_witnesses h rest
  end.

(** A minted uncle note belongs to an uncle of the block, by its pin and key. *)
Definition uncle_note_bound (us : list UncleBlock) (p : UncleMintParamsV1.t) : bool :=
  existsb (fun u => pin_accepted u && (pin_confirmed u =? ClearInput.value (UncleMintParamsV1.input p)) &&
    bool_decide (miner (uncle_header u) = CommitmentAttributes.public_key (UncleMintParamsV1.commitment_attrs p))) us.

Fixpoint sum_uncle_notes (us : list UncleBlock) (calls : list ContractCall) (sum : Z) : ARes Z :=
  match calls with
  | [] => Ok sum
  | c :: rest =>
      if negb (bool_decide (contract_id c = NATIVE_TOKEN_CONTRACT_ID)) then sum_uncle_notes us rest sum
      else if negb (first_byte_is 0x07 (data c)) then sum_uncle_notes us rest sum
      else
        let? p := at_stage "uncle mint params malformed" (UncleMintParamsV1.dec (drop 1 (data c))) in
        let? sum' := ok_or (checked_add 64 sum (ClearInput.value (UncleMintParamsV1.input p))) (Rejected "uncle note value sum overflow") in
        if negb (uncle_note_bound us p) then Err (Rejected "uncle note matches no included uncle")
        else sum_uncle_notes us rest sum'
  end.

Definition check_rewards (b : Block) (us : list UncleBlock) : ARes unit :=
  let h := height (header b) in
  let expected := expected_reward h in
  let? pins := at_stage "pins" (total_accepted_pin us) in
  let? effective := ok_or (checked_sub 64 expected pins) (Rejected "pins exceed expected_reward") in
  if negb (total_reward (header b) =? effective) then Err (Rejected "coinbase reward is not expected_reward less the pins")
  else
    let? p := ok_or (pow_reward_params (transactions b)) (Rejected "coinbase PoWRewardV1 params missing or malformed") in
    if negb (PoWRewardParamsV1.total_pin p =? pins) then Err (Rejected "coinbase total_pin is not the sum of pins")
    else if negb (bool_decide (checked_add 64 (PoWRewardParamsV1.effective_value p) pins = Some expected))
    then Err (Rejected "spendable-note over-mint")
    else if negb (h =? BlockHeight.GENESIS) &&
            negb (bool_decide (CommitmentAttributes.public_key (PoWRewardParamsV1.commitment_attrs p) = miner (header b)))
    then Err (Rejected "coinbase note is bound to a key that is not header.miner")
    else
      let? sum := sum_uncle_notes us (flat_map contract_calls (transactions b)) 0 in
      if negb (sum =? pins) then Err (Rejected "uncle note values are not the sum of pins") else Ok tt.

(** Everything before fork detection; nothing here changes the state. *)
Definition accept_checks (s : CChainState) (b : Block) (us : list UncleBlock) (vm_key : bytes) (tgt : Z) : ARes unit :=
  let? _ := at_stage "structure" (validate_block_structure b) in
  let? _ := check_genesis_admission b vm_key in
  let? _ := check_uncle_set s b us in
  let? _ := at_stage "proof of token balance" (verify_proof_of_token_balance b) in
  let? _ := check_pow s b vm_key tgt in
  let? _ := check_witnesses (height (header b)) (transactions b) in
  check_rewards b us.

(** ** The cumulative supply *)

Definition supply_state_key (k : bytes) : bytes := hash_state_id NATIVE_TOKEN_CONTRACT_ID INFO_TREE ++ k.

Definition read_overlay {A : Type} (c : codec A) (t : Tree) (k : bytes) (o : OverlayState) : ARes A :=
  let? raw := ok_or (overlay_get t (supply_state_key k) o) (Rejected "not found in WASM execution overlay") in
  at_stage "deserialize" (deserialize c raw).

Definition supply_entry_batch (h : Z) (e : CumulativeSupplyEntry) : Batch := [(height_key h, Some (to_bytes e))].

(** The entry WASM wrote, derived again from the entry before and the coinbase. *)
Definition check_rederived (s : CChainState) (b : Block) (e : CumulativeSupplyEntry) : ARes unit :=
  match pow_reward_params (transactions b) with
  | None => Ok tt
  | Some p =>
      let? prev := at_stage "supply_chain get prev"
        (supply_get (supply_chain (store s)) (default 0 (BlockHeight.pred (height (header b))))) in
      let expected := compute_next prev (Output.value_commit (PoWRewardParamsV1.output p))
        (ClearInput.value_blind (PoWRewardParamsV1.input p)) (ClearInput.value (PoWRewardParamsV1.input p)) in
      if bool_decide (value_commit expected = value_commit e) && bool_decide (blind expected = blind e) &&
         (total_supply expected =? total_supply e)
      then Ok tt else Err (Rejected "cumulative supply re-derivation mismatch")
  end.

Definition read_cumulative_from_overlay (s : CChainState) (o : OverlayState) (b : Block) :
    ARes (option (Batch * CumulativeSupplyEntry)) :=
  let t := contracts (store s) in
  let? supply := read_overlay u64_codec t TOTAL_SUPPLY o in
  let? vc := read_overlay point_codec t CUMULATIVE_VALUE_COMMIT o in
  let? bl := read_overlay scalar_codec t CUMULATIVE_BLIND o in
  if (supply =? 0) && bool_decide (vc = point_identity) then Ok None
  else
    let entry := {| value_commit := vc; blind := bl; total_supply := supply |} in
    let? _ := check_rederived s b entry in
    Ok (Some (supply_entry_batch (height (header b)) entry, entry)).

(** ** Execution and commit *)

(** The old value of every key the overlay touches, removed keys first. *)
Definition undo_ops (d : OverlayDiff) : Batch :=
  map (fun kv : bytes * bytes => (kv.1, Some kv.2)) (map_to_list (diff_removed d)) ++
  map (fun kv : bytes * (option bytes * bytes) => (kv.1, kv.2.1)) (map_to_list (diff_cache d)).

Definition with_anchors (leaves : list bytes) (s : CChainState) : CChainState := {|
  store := store s; live := live s; finality_config := finality_config s; fee_window := fee_window s;
  contract_risk_tracker := contract_risk_tracker s; chain_height := chain_height s;
  commitments := commitments s; nullifier_set := nullifier_set s; spent_nullifiers := spent_nullifiers s;
  anchor_leaves := leaves; competing := competing s; supply_latest := supply_latest s; tip_cache := tip_cache s |}.

Definition with_latest (l : option (Z * CumulativeSupplyEntry)) (s : CChainState) : CChainState := {|
  store := store s; live := live s; finality_config := finality_config s; fee_window := fee_window s;
  contract_risk_tracker := contract_risk_tracker s; chain_height := chain_height s;
  commitments := commitments s; nullifier_set := nullifier_set s; spent_nullifiers := spent_nullifiers s;
  anchor_leaves := anchor_leaves s; competing := competing s; supply_latest := l; tip_cache := tip_cache s |}.

(** From the overlay to the commit; the cache follows whatever the outcome. *)
Definition commit_executed (b : Block) (us : list UncleBlock) (o : OverlayState) (s : CChainState) :
    CChainState * ARes BlockConnectOutcome :=
  match read_cumulative_from_overlay s o b with
  | Err e => (s, Err e)
  | Ok None => (s, Err (Rejected "block must write cumulative supply state"))
  | Ok (Some (supply_batch, entry)) =>
      match overlay_diff (contracts (store s)) o with
      | None => (s, Err (Rejected "contracts overlay diff"))
      | Some d =>
          match connect_block b us (Some (default [] (overlay_aggregate o))) (Some supply_batch)
                  (Some (serialize undo_codec (undo_ops d))) s with
          | (s', Err _) => (s', Err (Rejected "connect_block failed"))
          | (s', Ok outcome) => (with_latest (update_cache (height (header b)) entry (supply_latest s')) s', Ok outcome)
          end
      end
  end.

Definition execute_and_commit (b : Block) (us : list UncleBlock) (vm_key : bytes) (tgt : Z) (n : Node) :
    Node * ARes BlockConnectOutcome :=
  let '(leaves, r) := execute_block (chain n) b us vm_key tgt in
  let s := with_anchors leaves (chain n) in
  match r with
  | None => (with_chain s n, Err (Rejected "execution"))
  | Some ex =>
      let '(s', r) := commit_executed b us (exec_overlay ex) s in
      ({| chain := s'; estimator := record_block_gas (exec_gas ex) <$> estimator n; returned := returned n |}, r)
  end.

(** A block at the height of the tip. *)
Definition accept_at_tip (b : Block) (us : list UncleBlock) (s : CChainState) : CChainState * ARes BlockConnectOutcome :=
  match hash_block b with
  | Err _ => (s, Err (Rejected "hash block for dup check"))
  | Ok hash =>
      let '(s1, tip) := tip_hash s in
      if bool_decide (snd <$> tip = Some hash) then (s1, Ok AlreadyKnown)
      else
        let '(s2, r) := connect_block b us None None None s1 in
        (s2, at_stage "store competing block" r)
  end.

(** The part after fork detection. *)
Definition accept_new (b : Block) (us : list UncleBlock) (vm_key : bytes) (tgt : Z) (n : Node) : Node * ARes BlockConnectOutcome :=
  let h := height (header b) in
  if h <? chain_height (chain n) then (n, Ok AlreadyKnown)
  else if h =? chain_height (chain n) then
    let '(s, r) := accept_at_tip b us (chain n) in (with_chain s n, r)
  else execute_and_commit b us vm_key tgt n.

(** ** Reorganisation *)

Definition rollback_cumulative_commit (h : Z) (s : CChainState) : CChainState * ARes unit :=
  match supply_get (supply_chain (store s)) h with
  | Err _ => (s, Err (Rejected "Reorg: supply_chain get"))
  | Ok e =>
      let batch : Batch :=
        [(supply_state_key TOTAL_SUPPLY, Some (serialize u64_codec (total_supply e)));
         (supply_state_key CUMULATIVE_VALUE_COMMIT, Some (serialize point_codec (value_commit e)));
         (supply_state_key CUMULATIVE_BLIND, Some (serialize scalar_codec (blind e)))] in
      (with_store (set_contracts (apply_batch batch (contracts (store s))) (store s)) s, Ok tt)
  end.

(** The loop from the tip down to the fork point: the blocks taken off, newest
    first.  A block that cannot be read returns at once; a failed disconnect
    goes to the restore. *)
Inductive Disconnected := AllOff (bs : list Block) | Unreadable | Stuck (bs : list Block).

Fixpoint disconnect_down (rounds : nat) (h : Z) (bs : list Block) (s : CChainState) : CChainState * Disconnected :=
  match rounds with
  | O => (s, AllOff bs)
  | S rounds' =>
      match chain_block s h with
      | Err _ => (s, Unreadable)
      | Ok b =>
          match disconnect_block h s with
          | (s', Err _) => (s', Stuck bs)
          | (s', Ok _) => disconnect_down rounds' (default 0 (BlockHeight.pred h)) (bs ++ [b]) s'
          end
      end
  end.

Definition disconnect_to (fork_point : Z) (s : CChainState) : CChainState * Disconnected :=
  disconnect_down (Z.to_nat (chain_height s - fork_point)) (chain_height s) [] s.

(** Accepting a block without uncles, its own key and target, and insisting that
    it extends the chain. *)
Definition Accept : Type := bool -> Block -> list UncleBlock -> bytes -> Z -> Node -> Node * ARes BlockConnectOutcome.

Definition reconnect (acc : Accept) (pool : bool) (b : Block) (n : Node) : Node * ARes unit :=
  if negb (vm_ok (randomx_key (header b))) then (n, Err (Rejected "RandomX"))
  else
    match acc pool b [] (randomx_key (header b)) (target (header b)) n with
    | (n', Err e) => (n', Err e)
    | (n', Ok (CanonicalExtension _)) => (n', Ok tt)
    | (n', Ok _) => (n', Err (Rejected "not accepted as canonical"))
    end.

Fixpoint reconnect_all (acc : Accept) (pool : bool) (bs : list Block) (n : Node) : Node * ARes unit :=
  match bs with
  | [] => (n, Ok tt)
  | b :: rest =>
      match reconnect acc pool b n with
      | (n', Ok _) => reconnect_all acc pool rest n'
      | (n', Err e) => (n', Err e)
      end
  end.

Definition restore_disconnected_chain (acc : Accept) (disconnected : list Block) (n : Node) : Node * ARes unit :=
  reconnect_all acc false (rev disconnected) n.

Definition reorg_failure_after_restore (acc : Accept) (disconnected : list Block) (n : Node) : Node * ARes unit :=
  match restore_disconnected_chain acc disconnected n with
  | (n', Ok _) => (n', Err (Rejected "Reorg failed; canonical chain restored"))
  | (n', Err (Rejected _)) => (n', Err (Rejected "Reorg failed AND rollback failed - chain truncated"))
  | (n', Err e) => (n', Err e)
  end.

(** Transactions a block generates for itself do not go back. *)
Definition readmitted (disconnected : list Block) : list Transaction :=
  List.filter (fun tx => negb (is_pow_reward_coinbase_tx tx || is_fee_collect_tx tx)) (flat_map transactions disconnected).

Definition give_back (pool : bool) (disconnected : list Block) (n : Node) : Node :=
  {| chain := chain n; estimator := estimator n;
     returned := if pool then returned n ++ readmitted disconnected else returned n |}.

Definition activate_with (acc : Accept) (locked pool : bool) (competing_blocks : list Block) (fork_point : Z) (n : Node) :
    Node * ARes unit :=
  if locked then (n, Err Blocked)
  else
    match displaced_range_is_finalized (chain n) fork_point with
    | Err _ => (n, Err (Rejected "reorg finality check"))
    | Ok true => (n, Err (Rejected "Reorg refused: would orphan a finalized block"))
    | Ok false =>
        match rollback_cumulative_commit fork_point (chain n) with
        | (s1, Err e) => (with_chain s1 n, Err e)
        | (s1, Ok _) =>
            match disconnect_to fork_point s1 with
            | (s2, Unreadable) => (with_chain s2 n, Err (Rejected "Reorg: get_block"))
            | (s2, Stuck bs) => reorg_failure_after_restore acc bs (with_chain s2 n)
            | (s2, AllOff bs) =>
                match reconnect_all acc pool competing_blocks (with_chain s2 n) with
                | (n3, Ok _) => (give_back pool bs n3, Ok tt)
                | (n3, Err (Rejected _)) => reorg_failure_after_restore acc bs n3
                | (n3, Err e) => (n3, Err e)
                end
            end
        end
    end.

(** [accept_block_locked]; [locked] says whether the reorganisation lock is
    held, [pool] whether a mempool was passed. *)
Fixpoint accept (fuel : nat) (locked pool : bool) (b : Block) (us : list UncleBlock) (vm_key : bytes) (tgt : Z) (n : Node) :
    Node * ARes BlockConnectOutcome :=
  match fuel with
  | O => (n, Err Exhausted)
  | S fuel' =>
      match accept_checks (chain n) b us vm_key tgt with
      | Err e => (n, Err e)
      | Ok _ =>
          match detect_reorg b (chain n) with
          | Err _ => (n, Err (Rejected "detect_reorg failed"))
          | Ok (Heavier fork_height parent) =>
              match hash_block parent with
              | Err _ => (n, Err (Rejected "Reorg: hash competing block"))
              | Ok parent_hash =>
                  let n1 := with_chain (with_competing (remove_competing fork_height parent_hash (competing (chain n))) (chain n)) n in
                  match activate_with (accept fuel' true) locked pool [parent] (default 0 (BlockHeight.pred fork_height)) n1 with
                  | (n2, Err e) => (n2, Err e)
                  | (n2, Ok _) => accept fuel' locked pool b us vm_key tgt n2
                  end
              end
          | Ok Lighter =>
              (with_chain (with_competing (store_competing_block b (height (header b)) (competing (chain n))) (chain n)) n, Ok UncleExtended)
          | Ok NoReorg => accept_new b us vm_key tgt n
          end
      end
  end.

Definition accept_block_with_mempool (pool : bool) (b : Block) (us : list UncleBlock) (vm_key : bytes) (tgt : Z) (n : Node) :
    Node * ARes BlockConnectOutcome :=
  accept 2 false pool b us vm_key tgt n.

Definition accept_block : Block -> list UncleBlock -> bytes -> Z -> Node -> Node * ARes BlockConnectOutcome :=
  accept_block_with_mempool false.

Definition activate_best_chain (pool : bool) (competing_blocks : list Block) (fork_point : Z) (n : Node) : Node * ARes unit :=
  activate_with (accept 1 true) false pool competing_blocks fork_point n.
End acceptor.
