(* ===== verification/Accepted.v ===== *)
(** * What the acceptor guarantees

    Whatever it is handed and whatever the contracts do, the acceptor moves the
    chain state by a few kinds of steps ([chain_step]); the ledger behind it
    stays valid, every block of it passed the host's checks, and the supply
    tree holds at every height the sum of the rewards up to it. *)

From Stdlib Require Import String.
From S2P Require Import Prelude F64 Units Emission Serial Externals Transaction Merkle Block Store Competing FeeEstimator.
From S2P Require Import Consensus NativeToken L1Contracts Nullifiers FeeWindow ContractRisk Supply Pedersen TokenContract TokenBalance.
From S2P Require Import Validation Finality DarkTree CoreTx ZkVerifier ChainState Overlay Executor Ledger Acceptor.

Section accepted.
Context `{EXT : Externals} `{SIG : Signatures} `{INFO : ContractInfo} `{ENV : !NodeEnv} `{OPS : !CurveOps} `{CORE : !CoreEnv}.
Context `{OV : SledOverlay} `{EXEC : !Executor} `{ACC : !AcceptEnv}.
Implicit Types (s : CChainState) (b : Block) (c : list Block) (n : Node) (us : list UncleBlock).

(** ** The host's checks on a block *)

Record host_checked b us : Prop := {
  hc_structure : validate_block_structure b = Ok tt;
  hc_balance : verify_proof_of_token_balance b = Ok tt;
  hc_rewards : check_rewards b us = Ok tt
}.

Lemma at_stage_ok {E A : Type} (name : string) (r : result E A) (a : A) : at_stage name r = Ok a -> r = Ok a.
Proof. destruct r; cbn; [by intros [= ->] | done]. Qed.

Lemma accept_checks_host s b us (key : bytes) (tgt : Z) : accept_checks s b us key tgt = Ok tt -> host_checked b us.
Proof.
  unfold accept_checks. intros H. inv_result. repeat match goal with u : unit |- _ => destruct u end.
  constructor; [by eapply at_stage_ok | by eapply at_stage_ok | done].
Qed.

(** The structure and reward checks together fix what the coinbase mints. *)
Lemma host_checked_mint b us :
  host_checked b us ->
  exists p, pow_reward_params (transactions b) = Some p /\
    ClearInput.value (PoWRewardParamsV1.input p) = expected_reward (height (header b)) /\
    is_u64 (expected_reward (height (header b))).
Proof.
  intros [Hs _ Hr]. apply validate_block_structure_inv in Hs as (tx0 & rest & call & p & Et & Ec & _ & E5 & Ed & _ & _ & _ & Hsum & _).
  assert (pow_reward_params (transactions b) = Some p) as Ep by (unfold pow_reward_params; by rewrite Et, Ec, E5, Ed).
  exists p. split; [done |]. unfold check_rewards in Hr. rewrite Ep in Hr. cbn [ok_or] in Hr. inv_result. bool_facts.
  match goal with H1 : checked_add 64 _ _ = Some _ |- _ => apply checked_spec in H1 as [H1 Hu] end.
  rewrite <- Hsum. split; [lia |]. by match goal with H1 : _ = expected_reward _ |- _ => rewrite <- H1 end.
Qed.

(** A block that was also executed, on a state with the same chain. *)
Record passed s b us : Prop := {
  passed_checks : host_checked b us;
  passed_execution : exists s0 key tgt leaves ex, chain_part s0 = chain_part s /\ execute_block s0 b us key tgt = (leaves, Some ex)
}.

(** Executed on a state that holds the chain below it. *)
Definition executed_on c b us : Prop :=
  exists s key tgt leaves ex, represents c s /\ execute_block s b us key tgt = (leaves, Some ex).

(** ** Steps *)

Definition pool_wf (co : Competing) : Prop := forall h, Forall Block_wf (peek_competing_blocks h co).

(** A state with the same chain and supply entries. *)
Record quiet s s' : Prop := {
  quiet_chain : chain_part s' = chain_part s;
  quiet_supply : supply_chain (store s') = supply_chain (store s);
  quiet_pool : pool_wf (competing s) -> pool_wf (competing s')
}.

(** The commit of an executed block, whatever its result; a disconnect; or
    anything else the acceptor writes. *)
Inductive chain_step : CChainState -> CChainState -> Prop :=
| step_commit s b us (o : OverlayState) : Block_wf b -> passed s b us -> chain_step s (commit_executed b us o s).1
| step_disconnect s (h : Z) : is_u64 h -> chain_step s (disconnect_block h s).1
| step_quiet s s' : quiet s s' -> chain_step s s'.

Lemma quiet_refl s : quiet s s.
Proof. by constructor. Qed.

Lemma quiet_trans s s' s'' : quiet s s' -> quiet s' s'' -> quiet s s''.
Proof. intros [H1 H2 H3] [G1 G2 G3]. constructor; [congruence | congruence | auto]. Qed.

Lemma quiet_step s s' : quiet s s' -> rtc chain_step s s'.
Proof. intros. apply rtc_once. by constructor. Qed.

(** *** The pool *)

Lemma pool_wf_sub (co co' : Competing) :
  (forall h, peek_competing_blocks h co' ⊆ peek_competing_blocks h co) -> pool_wf co -> pool_wf co'.
Proof. intros Hs Hw h. specialize (Hw h). rewrite Forall_forall in *. intros b Hb. apply Hw. by apply (Hs h). Qed.

Lemma prune_peek (h h' : Z) (co : Competing) :
  peek_competing_blocks h' (prune_competing h co) = peek_competing_blocks h' co \/ peek_competing_blocks h' (prune_competing h co) = [].
Proof.
  unfold prune_competing. destruct (h <=? MAX_UNCLE_DEPTH); [by left |]. unfold peek_competing_blocks. cbn [pool].
  destruct (filter _ (pool co) !! h') as [bs|] eqn:E; [| by right]. apply map_lookup_filter_Some in E as [-> _]. by left.
Qed.

Lemma prune_wf (h : Z) (co : Competing) : pool_wf co -> pool_wf (prune_competing h co).
Proof. apply pool_wf_sub. intros h'. destruct (prune_peek h h' co) as [-> | ->]; set_solver. Qed.

Lemma remove_peek (h : Z) (hash : bytes) (co : Competing) (h' : Z) :
  peek_competing_blocks h' (remove_competing h hash co) ⊆ peek_competing_blocks h' co.
Proof.
  unfold remove_competing. destruct (pool co !! h) as [bs|] eqn:E; [| done]. unfold peek_competing_blocks. cbn [pool].
  destruct (decide (h' = h)) as [-> | Hne]; [| by rewrite lookup_insert_ne]. rewrite lookup_insert_eq, E. cbn [default].
  intros b Hb. apply list_elem_of_In, filter_In in Hb as [Hb _]. by apply list_elem_of_In.
Qed.

Lemma push_wf b (h : Z) (co : Competing) : Block_wf b -> pool_wf co -> pool_wf (push_competing b h co).
Proof.
  intros Hb Hw. unfold push_competing. destruct (_ <=? _); [done |]. destruct (bool_decide _); [done |]. intros h'.
  rewrite peek_insert. destruct (decide (h' = h)) as [_ | _]; [apply Forall_app; split; [apply Hw | by constructor] | apply (Hw h')].
Qed.

Lemma connect_competing_wf b (h : Z) (co : Competing) : Block_wf b -> pool_wf co -> pool_wf (connect_competing b h co).
Proof.
  intros Hb Hw. apply push_wf; [done |]. intros h'. unfold entry_or_default. rewrite peek_insert.
  destruct (decide (h' = h)) as [-> | _]; apply Hw.
Qed.

Lemma connect_block_pool b us cb sb undo s :
  Block_wf b -> pool_wf (competing s) -> pool_wf (competing (connect_block b us cb sb undo s).1).
Proof.
  intros Hb Hw. pose proof (connect_block_cases b us cb sb undo s) as Hc.
  destruct (connect_block b us cb sb undo s) as [s' r] eqn:E. cbn [fst]. destruct (is_extension r) eqn:Ex.
  - destruct Hc as (-> & _ & _ & _). unfold extended, after_commit. destruct (memory_block _ _ _) as [coins [nulls spent]].
    cbn [competing with_store]. apply prune_wf. rewrite (proj2 (proj2 (before_commit_part b (adjusted b s)))). exact Hw.
  - destruct r as [out|e]; [| destruct Hc as [_ [-> _]]; done]. revert E. unfold connect_block.
    destruct (negb (vm_ok _)); [by intros [= <- _] |]. destruct (_ <? _); [by intros [= <- _] |].
    destruct (_ <? _); [by intros [= <- _] |]. destruct (_ =? _).
    + unfold connect_sibling. destruct (validate_competing_block _ _ _); [| by intros [= <- _]].
      destruct (if 0 <? chain_height s then (_ : Res unit) else _); [| done]. intros [= <- _]. by apply connect_competing_wf.
    + unfold connect_next. destruct (current_tip s); [| by intros [= <- _]].
      match goal with |- context [match ?x with Some _ => _ | None => connect_canonical _ _ _ _ _ _ _ end] => destruct x end.
      * destruct (validate_competing_block _ _ _); [| done]. intros [= <- _]. by apply connect_competing_wf.
      * unfold connect_canonical. destruct (connect_checks _ _ _); [| by intros [= <- _]].
        destruct (pre_commit_checks _ _ _); [| by intros [= <- _]].
        destruct (commit_block _ _ _ _ _ _) as [s2 [|]]; [| done]. intros [= <- <-]. done.
Qed.

(** ** The supply of a chain *)

(** The entry after a block, from the one before. *)
Definition coinbase_entry b (prev : CumulativeSupplyEntry) : CumulativeSupplyEntry :=
  match pow_reward_params (transactions b) with
  | Some p => compute_next prev (Output.value_commit (PoWRewardParamsV1.output p))
                (ClearInput.value_blind (PoWRewardParamsV1.input p)) (ClearInput.value (PoWRewardParamsV1.input p))
  | None => prev
  end.

Definition supply_of c : CumulativeSupplyEntry := foldr coinbase_entry supply_genesis c.

Inductive checked_chain : list Block -> Prop :=
| checked_nil : checked_chain []
| checked_cons c b us : host_checked b us -> executed_on c b us -> checked_chain c -> checked_chain (b :: c).

Lemma checked_drop c (k : nat) : checked_chain c -> checked_chain (drop k c).
Proof. intros Hc. revert k. induction Hc as [|c b us Hb He Hc IH]; intros [|k]; [constructor.. | by econstructor | apply IH]. Qed.

Lemma checked_suffix c c' : c' `suffix_of` c -> checked_chain c -> checked_chain c'.
Proof. intros [c1 ->] Hc. apply (checked_drop _ (length c1)) in Hc. by rewrite drop_app_length in Hc. Qed.

Lemma checked_blocks c : checked_chain c -> Forall (fun b => exists us, host_checked b us) c.
Proof. induction 1 as [|c b us Hb _ Hc IH]; constructor; [by exists us | done]. Qed.

Lemma supply_of_total c :
  checked_chain c -> is_u64 (total_supply (supply_of c)) /\
  forall b us, host_checked b us ->
    total_supply (supply_of (b :: c)) = saturating_add 64 (total_supply (supply_of c)) (expected_reward (height (header b))).
Proof.
  intros Hc. assert (forall b us, host_checked b us ->
    total_supply (supply_of (b :: c)) = saturating_add 64 (total_supply (supply_of c)) (expected_reward (height (header b)))) as Hnext.
  { intros b us Hb. destruct (host_checked_mint b us Hb) as (p & Ep & Ev & _). cbn [supply_of foldr]. unfold coinbase_entry.
    rewrite Ep. cbn [compute_next total_supply]. by rewrite Ev. }
  split; [| done]. clear Hnext. induction Hc as [|c b us Hb _ Hc IH]; [unfold is_u; cbn; lia |].
  destruct (host_checked_mint b us Hb) as (p & Ep & Ev & Hu). cbn [supply_of foldr]. unfold coinbase_entry. rewrite Ep.
  cbn [compute_next total_supply]. rewrite Ev. change (foldr coinbase_entry supply_genesis c) with (supply_of c).
  by apply saturating_add_is_u.
Qed.

(** *** Reading the entry the contracts wrote *)

Lemma read_overlay_shape (ok : bytes -> bool) (e : io_error) (t : Tree) (k v : bytes) (o : OverlayState) :
  read_overlay (mk_codec (fun h => h) (fun bs => let? (raw, rest) := read_exact 32 bs in
    if ok raw then Ok (raw, rest) else Err e) 32) t k o = Ok v -> length v = 32%nat /\ ok v = true.
Proof.
  unfold read_overlay. intros H. inv_result. apply at_stage_ok in H. unfold deserialize, deserialize_partial in H.
  cbn [decode mk_codec] in H. inv_result. match goal with H1 : read_exact 32 _ = Ok _ |- _ => apply read_exact_inv in H1 as [_ H1] end. done.
Qed.

Lemma read_cumulative_inv s (o : OverlayState) b (batch : Batch) (entry : CumulativeSupplyEntry) :
  read_cumulative_from_overlay s o b = Ok (Some (batch, entry)) ->
  batch = supply_entry_batch (height (header b)) entry /\
  (length (value_commit entry) = 32%nat /\ point_canonical (value_commit entry) = true) /\
  (length (blind entry) = 32%nat /\ scalar_canonical (blind entry) = true) /\
  forall p prev, pow_reward_params (transactions b) = Some p ->
    supply_get (supply_chain (store s)) (default 0 (BlockHeight.pred (height (header b)))) = Ok prev -> entry = coinbase_entry b prev.
Proof.
  unfold read_cumulative_from_overlay. intros H. inv_result.
  match goal with H1 : read_overlay point_codec _ _ _ = _, H2 : read_overlay scalar_codec _ _ _ = _ |- _ =>
    apply read_overlay_shape in H1; apply read_overlay_shape in H2 end.
  split; [done |]. split; [done |]. split; [done |]. intros p prev Ep Es. unfold coinbase_entry. rewrite Ep.
  match goal with H1 : check_rederived _ _ _ = _ |- _ => unfold check_rederived in H1; rewrite Ep, Es in H1; cbn [at_stage] in H1; rename H1 into Hr end.
  inv_result. bool_facts. cbn [value_commit blind total_supply] in *.
  repeat match goal with H1 : bool_decide _ = true |- _ => apply bool_decide_eq_true in H1 end.
  match goal with H1 : (_ =? _) = true |- _ => apply Z.eqb_eq in H1 end.
  match goal with |- _ = ?x => destruct x end. cbn in *. congruence.
Qed.

(** ** The invariant *)

Record tracked c s : Prop := {
  tr_valid : valid_chain c;
  tr_represents : represents c s;
  tr_checked : checked_chain c;
  tr_supply : forall c', c' `suffix_of` c -> supply_get (supply_chain (store s)) (Z.of_nat (length c')) = Ok (supply_of c');
  tr_pool : pool_wf (competing s)
}.

Lemma tracked_quiet c s s' : quiet s s' -> tracked c s -> tracked c s'.
Proof.
  intros [Hc Hs Hp] [H1 H2 H3 H4 H5]. constructor; [done | by eapply represents_part | done | | by apply Hp].
  intros c' Hc'. rewrite Hs. by apply H4.
Qed.

Lemma checked_next c s b us : tracked c s -> passed s b us -> checked_chain (b :: c).
Proof.
  intros Ht [Hb (s0 & key & tgt & leaves & ex & Ep & Ex)]. apply (checked_cons c b us Hb); [| apply (tr_checked c s Ht)].
  exists s0, key, tgt, leaves, ex. split; [| done]. by eapply represents_part, (tr_represents c s Ht).
Qed.

Lemma passed_on n b us (key : bytes) (tgt : Z) leaves ex :
  host_checked b us -> execute_block (chain n) b us key tgt = (leaves, Some ex) -> passed (with_anchors leaves (chain n)) b us.
Proof. intros Hb Ex. split; [done |]. by exists (chain n), key, tgt, leaves, ex. Qed.

(** What [commit_executed] did: nothing, or a call of [connect_block] with the
    entry of the supply. *)
Lemma commit_executed_inv b us (o : OverlayState) s :
  let '(s', r) := commit_executed b us o s in
  (s' = s /\ exists e, r = Err e) \/
  exists entry d s1 r1,
    read_cumulative_from_overlay s o b = Ok (Some (supply_entry_batch (height (header b)) entry, entry)) /\
    overlay_diff (contracts (store s)) o = Some d /\
    connect_block b us (Some (default [] (overlay_aggregate o))) (Some (supply_entry_batch (height (header b)) entry))
      (Some (serialize undo_codec (undo_ops d))) s = (s1, r1) /\
    match r1 with
    | Ok out => s' = with_latest (update_cache (height (header b)) entry (supply_latest s1)) s1 /\ r = Ok out
    | Err _ => s' = s1 /\ exists e, r = Err e
    end.
Proof.
  unfold commit_executed. destruct (read_cumulative_from_overlay s o b) as [[[batch entry]|]|e] eqn:Er; [| left; eauto..].
  destruct (read_cumulative_inv _ _ _ _ _ Er) as [-> _]. destruct (overlay_diff _ o) as [d|] eqn:Ed; [| left; eauto].
  destruct (connect_block _ _ _ _ _ s) as [s1 r1] eqn:Ec. destruct r1 as [out|e]; right; exists entry, d, s1.
  - exists (Ok out). by rewrite Ec.
  - exists (Err e). rewrite Ec. eauto 8.
Qed.

Lemma commit_trees_supply b us cb sb undo (co : PoWConsensus) (fw : option FeeWindowState) (st : LinearStore) :
  supply_chain (commit_trees b us cb sb undo co fw st) = apply_batch sb (supply_chain st).
Proof. unfold commit_trees. by destruct (disk_block _ _ _). Qed.

Lemma extended_supply b us cb sb undo s :
  supply_chain (store (extended b us cb sb undo s)) = apply_batch (default [] sb) (supply_chain (store s)).
Proof.
  unfold extended, after_commit. destruct (memory_block _ _ _) as [coins [nulls spent]]. cbn [store with_store].
  rewrite commit_trees_supply. f_equal.
  pose proof (proj1 (before_commit_part b (adjusted b s))) as E. exact (f_equal (fun p => supply_chain p.1.1.1.1) E).
Qed.

Lemma ledger_part_supply s s' : ledger_part s' = ledger_part s -> supply_chain (store s') = supply_chain (store s).
Proof. intros E. exact (f_equal (fun p => supply_chain p.1.1.1.1) E). Qed.

Lemma disconnect_supply s (h : Z) :
  let s' := (disconnect_block h s).1 in
  competing s' = competing s /\
  (supply_chain (store s') = supply_chain (store s) \/
   (h = chain_height s /\ supply_chain (store s') = delete (height_key h) (supply_chain (store s)))).
Proof.
  unfold disconnect_block. destruct (chain_block s h) as [b|e]; [| auto].
  destruct (Z.eqb_spec h (chain_height s)) as [-> | Hne]; cbn [negb]; [| auto].
  match goal with |- context [match ?u with Ok _ => _ | Err e => (with_live _ _, _) end] => destruct u as [ops|e] end; [| auto].
  destruct (rollback_cache _ _); cbn; auto.
Qed.

(** Entries at other heights. *)
Lemma supply_get_insert (t : Tree) (h h' : Z) (v : bytes) :
  is_u64 h -> is_u64 h' -> h <> h' -> supply_get (<[height_key h := v]> t) h' = supply_get t h'.
Proof.
  intros. unfold supply_get. destruct (h' =? 0); [done |]. rewrite lookup_insert_ne; [done |]. intros E. by apply height_key_inj in E.
Qed.

Lemma supply_get_delete (t : Tree) (h h' : Z) :
  is_u64 h -> is_u64 h' -> h <> h' -> supply_get (delete (height_key h) t) h' = supply_get t h'.
Proof.
  intros. unfold supply_get. destruct (h' =? 0); [done |]. rewrite lookup_delete_ne; [done |]. intros E. by apply height_key_inj in E.
Qed.

Lemma suffix_of_cons (b : Block) c c' : c' `suffix_of` (b :: c) -> c' = b :: c \/ c' `suffix_of` c.
Proof. intros [[|x k] E]; [by left | right]. injection E as _ ->. by exists k. Qed.

Lemma suffix_len c c' : c' `suffix_of` c -> (length c' <= length c)%nat.
Proof. intros [k ->]. rewrite length_app. lia. Qed.

Lemma apply_supply_batch (h : Z) (e : CumulativeSupplyEntry) (t : Tree) :
  apply_batch (supply_entry_batch h e) t = commit_to_batch h e t.
Proof. done. Qed.

Lemma block_height_u64 b : Block_wf b -> is_u64 (height (header b)).
Proof. by intros [(_ & _ & _ & _ & _ & _ & Hu & _) _]. Qed.

(** The entry committed with a block is the one its chain asks for. *)
Lemma committed_entry c s b us (o : OverlayState) (batch : Batch) (entry : CumulativeSupplyEntry) :
  tracked c s -> passed s b us -> height (header b) = Z.of_nat (length c) + 1 -> is_u64 (height (header b)) ->
  read_cumulative_from_overlay s o b = Ok (Some (batch, entry)) ->
  entry = supply_of (b :: c) /\ from_bytes (to_bytes entry) = Ok entry.
Proof.
  intros Ht Hb Hh Hu Hr. apply read_cumulative_inv in Hr as (_ & Hv & Hbl & He).
  destruct (host_checked_mint b us (passed_checks _ _ _ Hb)) as (p & Ep & _ & _).
  assert (default 0 (BlockHeight.pred (height (header b))) = Z.of_nat (length c)) as Epred.
  { rewrite Hh. rewrite Z.add_1_r. apply pred_succ. rewrite <- Z.add_1_r. by rewrite <- Hh. }
  assert (entry = supply_of (b :: c)) as ->.
  { apply (He p (supply_of c)); [done |]. rewrite Epred. by apply (tr_supply c s Ht). }
  split; [done |]. apply entry_shape_roundtrip. split_and!; [apply Hv | apply Hv | apply Hbl | apply Hbl |].
  apply (proj1 (supply_of_total (b :: c) (checked_next c s b us Ht Hb))).
Qed.

Lemma tracked_extended c s b us (o : OverlayState) cb undo tip (batch : Batch) (entry : CumulativeSupplyEntry) :
  Block_wf b -> passed s b us -> tracked c s -> connects b us tip s -> chain_height s < height (header b) ->
  read_cumulative_from_overlay s o b = Ok (Some (batch, entry)) -> pool_wf (competing (extended b us cb (Some batch) undo s)) ->
  tracked (b :: c) (extended b us cb (Some batch) undo s).
Proof.
  intros Hw Hb Ht Hcon Hlt Er Hpool. pose proof (connects_height c b us tip s (tr_represents c s Ht) Hcon Hw Hlt) as Hh.
  destruct (read_cumulative_inv _ _ _ _ _ Er) as [-> _].
  destruct (committed_entry c s b us o _ _ Ht Hb Hh (block_height_u64 b Hw) Er) as [-> Hround].
  constructor; [| by eapply represents_append; [apply (tr_represents c s Ht) | ..] | by apply (checked_next c s b us) | | done].
  - constructor; [apply (tr_valid c s Ht) |]. eapply connects_extends; [apply (tr_represents c s Ht) | done..].
  - intros c' Hc'. rewrite extended_supply. cbn [default]. change (apply_batch ?x ?t) with (commit_to_batch (height (header b)) (supply_of (b :: c)) t).
    unfold commit_to_batch. pose proof (block_height_u64 b Hw) as Hu. apply suffix_of_cons in Hc' as [-> | Hc'].
    + rewrite length_cons, Nat2Z.inj_succ, <- Z.add_1_r, <- Hh. unfold supply_get. rewrite lookup_insert_eq. cbn [ok_or].
      assert (height (header b) =? 0 = false) as -> by lia. exact Hround.
    + pose proof (suffix_len _ _ Hc'). rewrite supply_get_insert; [by apply (tr_supply c s Ht) | done | unfold is_u in *; lia | lia].
Qed.

(** The state of [commit_executed] when [connect_block] extends the chain. *)
Lemma commit_executed_cases b us (o : OverlayState) s :
  let '(s', r) := commit_executed b us o s in
  match r with
  | Ok (CanonicalExtension h) =>
      h = height (header b) /\ chain_height s < h /\ (exists tip, connects b us tip s) /\
      exists entry d,
        read_cumulative_from_overlay s o b = Ok (Some (supply_entry_batch h entry, entry)) /\
        overlay_diff (contracts (store s)) o = Some d /\
        (let s1 := extended b us (Some (default [] (overlay_aggregate o))) (Some (supply_entry_batch h entry))
                     (Some (serialize undo_codec (undo_ops d))) s in
         s' = with_latest (update_cache h entry (supply_latest s1)) s1)
  | _ => Block_wf b -> quiet s s'
  end.
Proof.
  pose proof (commit_executed_inv b us o s) as Hi. destruct (commit_executed b us o s) as [s' r].
  destruct Hi as [[-> [e ->]] | (entry & d & s1 & r1 & Er & Ed & Ec & Hr1)]; [intros _; apply quiet_refl |].
  set (cb := Some (default [] (overlay_aggregate o))) in *. set (sb := Some (supply_entry_batch (height (header b)) entry)) in *.
  set (undo := Some (serialize undo_codec (undo_ops d))) in *.
  pose proof (connect_block_cases b us cb sb undo s) as Hc. pose proof (connect_block_pool b us cb sb undo s) as Hp.
  rewrite Ec in Hc, Hp. cbn [fst] in Hp. destruct (is_extension r1) eqn:Ex.
  - destruct Hc as (-> & -> & Hlt & tip & Hcon). destruct Hr1 as [-> ->].
    split_and!; [done | done | by exists tip |]. by exists entry, d.
  - assert (Block_wf b -> quiet s s') as Hq.
    { intros Hw. destruct Hc as [Hl _]. constructor.
      - apply ledger_part_chain. destruct r1; destruct Hr1 as [-> _]; done.
      - apply ledger_part_supply. destruct r1; destruct Hr1 as [-> _]; done.
      - intros Hs. specialize (Hp Hw Hs). destruct r1; destruct Hr1 as [-> _]; done. }
    destruct r1 as [out|e]; [| destruct Hr1 as [_ [e' ->]]; done]. destruct Hr1 as [_ ->]. by destruct out.
Qed.

(** The ledger after an outcome. *)
Definition grown b c (r : ARes BlockConnectOutcome) : list Block :=
  match r with Ok (CanonicalExtension _) => b :: c | _ => c end.

Lemma tracked_commit c s b us (o : OverlayState) :
  Block_wf b -> passed s b us -> tracked c s ->
  tracked (grown b c (commit_executed b us o s).2) (commit_executed b us o s).1.
Proof.
  intros Hw Hb Ht. pose proof (commit_executed_cases b us o s) as Hc. destruct (commit_executed b us o s) as [s' r]. cbn [fst snd].
  destruct r as [[h | | |]|e]; cbn [grown]; try (by apply (tracked_quiet c s); [apply Hc |]).
  destruct Hc as (-> & Hlt & [tip Hcon] & entry & d & Er & _ & ->). cbv zeta.
  match goal with |- tracked _ (with_latest _ ?x) => apply (tracked_quiet _ x); [by constructor |] end.
  eapply tracked_extended; [done.. |]. unfold extended, after_commit. destruct (memory_block _ _ _) as [coins [nulls spent]].
  cbn [competing with_store]. apply prune_wf. rewrite (proj2 (proj2 (before_commit_part b (adjusted b s)))). apply (tr_pool c s Ht).
Qed.

Lemma tracked_disconnect c s (h : Z) : is_u64 h -> tracked c s -> exists c', tracked c' (disconnect_block h s).1 /\ (c' = c \/ exists b, c = b :: c').
Proof.
  intros Hu Ht. destruct (disconnect_supply s h) as [Hco Hsup].
  destruct (disconnect_represents c s h (tr_valid c s Ht) (tr_represents c s Ht)) as [[Hcp Hst] | (b & rest & -> & Hr & _)].
  - exists c. split; [| by left]. apply (tracked_quiet c s); [| done]. constructor; [done | by rewrite Hst | by rewrite Hco].
  - exists rest. split; [| right; by exists b]. constructor.
    + pose proof (tr_valid _ _ Ht) as Hv. by inversion Hv.
    + done.
    + apply (checked_suffix (b :: rest)); [by exists [b] | apply (tr_checked _ _ Ht)].
    + intros c' Hc'. pose proof (suffix_len _ _ Hc') as Hlen.
      assert (supply_get (supply_chain (store s)) (Z.of_nat (length c')) = Ok (supply_of c')) as Hold
        by (apply (tr_supply _ _ Ht); by apply suffix_cons_r).
      destruct Hsup as [-> | [Eh ->]]; [done |]. rewrite supply_get_delete; [done | done | |].
      * pose proof (rep_len _ _ (tr_represents _ _ Ht)) as Hl. rewrite length_cons in Hl. unfold is_u in *. lia.
      * destruct (rep_height _ _ (tr_represents _ _ Ht)) as [E | [E _]]; rewrite length_cons in E; lia.
    + rewrite Hco. apply (tr_pool _ _ Ht).
Qed.

Lemma tracked_step c s s' : tracked c s -> chain_step s s' -> exists c', tracked c' s'.
Proof.
  intros Ht Hs. destruct Hs as [s0 b us o Hw Hb | s0 h Hu | s0 s1 Hq].
  - eexists. by apply tracked_commit.
  - destruct (tracked_disconnect c s0 h Hu Ht) as (c' & Hc & _). by exists c'.
  - exists c. by eapply tracked_quiet.
Qed.

Definition good s : Prop := exists c, tracked c s.

Lemma good_run s s' : good s -> rtc chain_step s s' -> good s'.
Proof.
  intros Hg. induction 1 as [|x y z Hs _ IH]; [done |]. apply IH. destruct Hg as [c Hc].
  destruct (tracked_step c x y Hc Hs) as [c' Hc']. by exists c'.
Qed.

(** ** Every operation is a run of steps *)

Lemma tip_hash_quiet s : quiet s (tip_hash s).1.
Proof.
  assert (quiet s s) as Hs by apply quiet_refl. unfold tip_hash.
  destruct (tip_cache s) as [[h' hash]|].
  - destruct (_ =? _); [done |]. destruct (get_block _ _); [| done]. destruct (hash_block _); [by constructor | done].
  - destruct (get_block _ _); [| done]. destruct (hash_block _); [by constructor | done].
Qed.

Lemma with_anchors_quiet (leaves : list bytes) s : quiet s (with_anchors leaves s).
Proof. by constructor. Qed.

Lemma rollback_quiet (h : Z) s : quiet s (rollback_cumulative_commit h s).1.
Proof. unfold rollback_cumulative_commit. destruct (supply_get _ _); [by constructor | apply quiet_refl]. Qed.

Lemma with_competing_quiet (co : Competing) s : (pool_wf (competing s) -> pool_wf co) -> quiet s (with_competing co s).
Proof. intros H. by constructor. Qed.

(** A call of [connect_block] at or below the tip. *)
Lemma connect_low_quiet b us cb sb undo s :
  Block_wf b -> height (header b) <= chain_height s -> quiet s (connect_block b us cb sb undo s).1.
Proof.
  intros Hw Hle. pose proof (connect_block_cases b us cb sb undo s) as Hc. pose proof (connect_block_pool b us cb sb undo s Hw) as Hp.
  destruct (connect_block b us cb sb undo s) as [s' r]. cbn [fst] in *. destruct (is_extension r).
  - destruct Hc as (_ & _ & Hlt & _). lia.
  - destruct Hc as [Hl _]. constructor; [by apply ledger_part_chain | by apply ledger_part_supply | done].
Qed.

Lemma accept_at_tip_run b us s :
  Block_wf b -> height (header b) = chain_height s -> rtc chain_step s (accept_at_tip b us s).1.
Proof.
  intros Hw Hh. unfold accept_at_tip. destruct (hash_block b); [| constructor].
  pose proof (tip_hash_quiet s) as Hq. destruct (tip_hash s) as [s1 tip]. cbn [fst] in Hq.
  destruct (bool_decide _); [by apply quiet_step |].
  assert (height (header b) <= chain_height s1) as Hle.
  { pose proof (quiet_chain _ _ Hq) as (_ & E & _)%chain_part_inv. lia. }
  pose proof (connect_low_quiet b us None None None s1 Hw Hle) as Hq'.
  destruct (connect_block b us None None None s1) as [s2 r]. cbn [fst] in *. etrans; by apply quiet_step.
Qed.

Lemma execute_and_commit_run b us (key : bytes) (tgt : Z) n :
  Block_wf b -> host_checked b us -> rtc chain_step (chain n) (chain (execute_and_commit b us key tgt n).1).
Proof.
  intros Hw Hb. unfold execute_and_commit. destruct (execute_block (chain n) b us key tgt) as [leaves [ex|]] eqn:Ex.
  - pose proof (passed_on n b us key tgt leaves ex Hb Ex) as Hp.
    pose proof (step_commit (with_anchors leaves (chain n)) b us (exec_overlay ex) Hw Hp) as Hs.
    destruct (commit_executed _ _ _ _) as [s' r]. cbn [fst chain] in *. eapply rtc_l; [| by apply rtc_once].
    apply step_quiet, with_anchors_quiet.
  - cbn [fst chain with_chain]. apply quiet_step, with_anchors_quiet.
Qed.

Lemma accept_new_run b us (key : bytes) (tgt : Z) n :
  Block_wf b -> host_checked b us -> rtc chain_step (chain n) (chain (accept_new b us key tgt n).1).
Proof.
  intros Hw Hb. unfold accept_new. destruct (_ <? _); [constructor |]. destruct (Z.eqb_spec (height (header b)) (chain_height (chain n))) as [E | _].
  - pose proof (accept_at_tip_run b us (chain n) Hw E) as Hr. destruct (accept_at_tip b us (chain n)) as [s r]. exact Hr.
  - by apply execute_and_commit_run.
Qed.

Lemma stored_block_wf b : Block_wf b -> Block_wf (stored_block b).
Proof.
  intros [Hh Ht]. split; [| done]. unfold BlockHeader_wf in *. cbn [stored_block stored_header header version previous merkle_root timestamp
    target nonce height uncle_merkle_root total_reward randomx_key miner anchor_owner commitment_merkle_root nullifier_root
    anchor_tx_id caribina_anchor anchor_monero_height anchor_monero_hash finality_flags fee_window_flags pow_source]. naive_solver.
Qed.

Lemma chain_block_wf c s (h : Z) b : represents c s -> is_u64 h -> chain_block s h = Ok b -> Block_wf b /\ exists t, t ∈ c /\ b = stored_block t.
Proof.
  intros Hr Hu Eb. destruct (decide (h = 0 \/ Z.of_nat (length c) < h)) as [Hout | Hin].
  - destruct (read_missing s h) as [e Ee]; [by apply (rep_none c s Hr) | congruence].
  - assert (0 < h <= Z.of_nat (length c)) as Hh by (unfold is_u in Hu; lia).
    destruct (lookup_lt_is_Some_2 c (length c - Z.to_nat h)) as [t Et]; [lia |].
    pose proof (list_elem_of_lookup_2 _ _ _ Et) as Hin'. pose proof (rep_wf c s Hr) as Hw. rewrite Forall_forall in Hw. specialize (Hw t Hin').
    pose proof (rep_blocks c s Hr _ _ Et) as El. replace (Z.of_nat (length c) - Z.of_nat (length c - Z.to_nat h)) with h in El by lia.
    rewrite (read_block s h t Hw El) in Eb. injection Eb as <-. split; [by apply stored_block_wf | by exists t].
Qed.

Lemma pred_u64 (h : Z) : is_u64 h -> is_u64 (default 0 (BlockHeight.pred h)).
Proof.
  intros Hu. unfold BlockHeight.pred, checked_sub. destruct (checked 64 (h - 1)) as [x|] eqn:E; cbn; [| unfold is_u; lia].
  apply checked_spec in E as [<- ?]. done.
Qed.

Definition taken_off (d : Disconnected) : list Block := match d with AllOff bs | Stuck bs => bs | Unreadable => [] end.

Lemma disconnect_down_run (rounds : nat) (h : Z) (bs : list Block) s :
  good s -> is_u64 h -> Forall Block_wf bs ->
  rtc chain_step s (disconnect_down rounds h bs s).1 /\ Forall Block_wf (taken_off (disconnect_down rounds h bs s).2).
Proof.
  revert h bs s. induction rounds as [|rounds IH]; intros h bs s Hg Hu Hbs; cbn [disconnect_down]; [done |].
  destruct (chain_block s h) as [b|e] eqn:Eb; [| by split].
  assert (Block_wf b) as Hw by (destruct Hg as [c Hc]; by eapply chain_block_wf; [apply (tr_represents c s Hc) | ..]).
  pose proof (step_disconnect s h Hu) as Hs. destruct (disconnect_block h s) as [s' [u|e]]; cbn [fst] in Hs; [| by split; [apply rtc_once |]].
  destruct (IH (default 0 (BlockHeight.pred h)) (bs ++ [b]) s') as [Hr Hf].
  - eapply good_run; [done | by apply rtc_once].
  - by apply pred_u64.
  - apply Forall_app. by split; [| constructor].
  - split; [by eapply rtc_l | done].
Qed.

Lemma good_height s : good s -> is_u64 (chain_height s).
Proof.
  intros [c Hc]. pose proof (rep_len _ _ (tr_represents c s Hc)). by destruct (rep_height _ _ (tr_represents c s Hc)) as [-> | [_ ?]].
Qed.

(** An acceptor whose calls are runs of steps. *)
Definition runs_steps (acc : Accept) : Prop := forall (pool : bool) b us (key : bytes) (tgt : Z) n,
  Block_wf b -> good (chain n) -> rtc chain_step (chain n) (chain (acc pool b us key tgt n).1).

Lemma reconnect_all_run (acc : Accept) (pool : bool) (bs : list Block) n :
  runs_steps acc -> Forall Block_wf bs -> good (chain n) -> rtc chain_step (chain n) (chain (reconnect_all acc pool bs n).1).
Proof.
  intros Ha Hbs. revert n. induction Hbs as [|b bs Hb _ IH]; intros n Hg; cbn [reconnect_all]; [constructor |].
  unfold reconnect. destruct (negb (vm_ok _)); [constructor |].
  pose proof (Ha pool b [] (randomx_key (header b)) (target (header b)) n Hb Hg) as Hr.
  destruct (acc pool b [] _ _ n) as [n' [out|e]]; cbn [fst] in *; [| done].
  destruct out; [| done..]. etrans; [exact Hr |]. apply IH. by eapply good_run.
Qed.

Lemma reorg_failure_run (acc : Accept) (bs : list Block) n :
  runs_steps acc -> Forall Block_wf bs -> good (chain n) -> rtc chain_step (chain n) (chain (reorg_failure_after_restore acc bs n).1).
Proof.
  intros Ha Hbs Hg. unfold reorg_failure_after_restore, restore_disconnected_chain.
  pose proof (reconnect_all_run acc false (rev bs) n Ha ltac:(by apply Forall_rev) Hg) as Hr.
  destruct (reconnect_all acc false (rev bs) n) as [n' [u|e]]; [exact Hr |]. by destruct e.
Qed.

Lemma activate_run (acc : Accept) (locked pool : bool) (bs : list Block) (fork : Z) n :
  runs_steps acc -> Forall Block_wf bs -> good (chain n) -> rtc chain_step (chain n) (chain (activate_with acc locked pool bs fork n).1).
Proof.
  intros Ha Hbs Hg. unfold activate_with. destruct locked; [constructor |]. destruct (displaced_range_is_finalized _ _) as [[]|]; [constructor | | constructor].
  pose proof (quiet_step _ _ (rollback_quiet fork (chain n))) as H1.
  destruct (rollback_cumulative_commit fork (chain n)) as [s1 [u|e]]; cbn [fst] in H1; [| exact H1].
  assert (good s1) as Hg1 by (by eapply good_run).
  destruct (disconnect_down_run (Z.to_nat (chain_height s1 - fork)) (chain_height s1) [] s1 Hg1 (good_height s1 Hg1) ltac:(constructor)) as [H2 Hoff].
  fold (disconnect_to fork s1) in H2, Hoff. destruct (disconnect_to fork s1) as [s2 d]. cbn [fst snd] in *.
  assert (good s2) as Hg2 by (by eapply good_run). assert (rtc chain_step (chain n) s2) as H12 by (by etrans).
  destruct d as [off | | off]; cbn [taken_off] in Hoff; [| exact H12 | etrans; [exact H12 |]; by apply (reorg_failure_run acc off (with_chain s2 n))].
  pose proof (reconnect_all_run acc pool bs (with_chain s2 n) Ha Hbs Hg2) as H3.
  destruct (reconnect_all acc pool bs (with_chain s2 n)) as [n3 [v|e]]; cbn [fst chain with_chain] in H3.
  - by etrans.
  - assert (good (chain n3)) as Hg3 by (by eapply good_run). assert (rtc chain_step (chain n) (chain n3)) as H13 by (by etrans).
    destruct e; [| exact H13..]. etrans; [exact H13 |]. by apply reorg_failure_run.
Qed.

Lemma detect_reorg_heavier b s (h : Z) (parent : Block) : detect_reorg b s = Ok (Heavier h parent) ->
  h = chain_height s /\ uncle_parent (previous (header b)) (chain_height s) (competing s) = Some parent.
Proof.
  unfold detect_reorg. destruct (negb _); [done |]. destruct (uncle_parent _ _ _) as [p|] eqn:Eu; [| done].
  intros H. by inv_result.
Qed.

Lemma uncle_parent_wf (prev : bytes) (h : Z) (co : Competing) b : pool_wf co -> uncle_parent prev h co = Some b -> Block_wf b.
Proof.
  intros Hw Hf. apply List.find_some in Hf as [Hin _]. specialize (Hw h). rewrite Forall_forall in Hw. by apply Hw, list_elem_of_In.
Qed.

Lemma accept_run (fuel : nat) (locked : bool) : runs_steps (accept fuel locked).
Proof.
  revert locked. induction fuel as [|fuel IH]; intros locked pool b us key tgt n Hw Hg; cbn [accept]; [constructor |].
  destruct (accept_checks (chain n) b us key tgt) as [[]|e] eqn:Ec; [| constructor]. apply accept_checks_host in Ec.
  destruct (detect_reorg b (chain n)) as [[| h parent |]|e] eqn:Er; [by apply accept_new_run | | | constructor].
  - destruct (detect_reorg_heavier _ _ _ _ Er) as [-> Hp]. destruct (hash_block parent) as [hash|]; [| constructor].
    assert (Block_wf parent) as Hwp by (destruct Hg as [c Hc]; eapply uncle_parent_wf; [apply (tr_pool c _ Hc) | done]).
    set (n1 := with_chain _ n). assert (rtc chain_step (chain n) (chain n1)) as H1.
    { apply quiet_step, with_competing_quiet, pool_wf_sub. apply remove_peek. }
    pose proof (activate_run (accept fuel true) locked pool [parent] (default 0 (BlockHeight.pred (chain_height (chain n)))) n1
      (IH true) ltac:(by constructor) ltac:(by eapply good_run)) as H2.
    destruct (activate_with _ _ _ _ _ n1) as [n2 [u|e]]; cbn [fst] in H2; [| by etrans].
    etrans; [exact H1 |]. etrans; [exact H2 |]. apply IH; [done |]. eapply good_run; [| exact H2]. by eapply good_run.
  - apply quiet_step, with_competing_quiet. by apply push_wf.
Qed.
End accepted.
