(* ===== verification/Reorgs.v ===== *)
(** * Acceptance and reorganisation, end to end

    What holds after any sequence of calls of the acceptor; that its recursion
    ends; what a reorganisation that succeeds, fails or stops half-way leaves. *)

From Stdlib Require Import String.
From S2P Require Import Prelude F64 Units Emission Serial Externals Transaction Merkle Block Store Competing FeeEstimator.
From S2P Require Import Consensus NativeToken L1Contracts Nullifiers FeeWindow ContractRisk Supply Pedersen TokenContract TokenBalance.
From S2P Require Import Validation Finality DarkTree CoreTx ZkVerifier ChainState Overlay Executor Ledger Acceptor Accepted.

Section reorgs.
Context `{EXT : Externals} `{SIG : Signatures} `{INFO : ContractInfo} `{ENV : !NodeEnv} `{OPS : !CurveOps} `{CORE : !CoreEnv}.
Context `{OV : SledOverlay} `{EXEC : !Executor} `{ACC : !AcceptEnv}.
Implicit Types (s : CChainState) (b : Block) (c : list Block) (n : Node) (us : list UncleBlock).

(** ** Any sequence of calls *)

(** A block delivered with or without a mempool, or a whole competing chain. *)
Inductive accept_step : Node -> Node -> Prop :=
| deliver_block n (pool : bool) b us (key : bytes) (tgt : Z) :
    Block_wf b -> accept_step n (accept_block_with_mempool pool b us key tgt n).1
| deliver_chain n (pool : bool) (bs : list Block) (fork : Z) :
    Forall Block_wf bs -> accept_step n (activate_best_chain pool bs fork n).1.

Lemma accept_step_run n n' : accept_step n n' -> good (chain n) -> rtc chain_step (chain n) (chain n').
Proof.
  intros [n0 pool b us key tgt Hw | n0 pool bs fork Hw] Hg; [by apply accept_run | by apply activate_run; [apply accept_run | ..]].
Qed.

Lemma good_accepted n n' : good (chain n) -> rtc accept_step n n' -> good (chain n').
Proof.
  intros Hg. induction 1 as [|x y z Hs _ IH]; [done |]. apply IH. eapply good_run; [exact Hg |]. by apply accept_step_run.
Qed.

(** A node that holds no block yet. *)
Definition fresh_node n : Prop := pristine (chain n) /\ competing (chain n) = Competing_new.

Lemma fresh_good n : fresh_node n -> good (chain n).
Proof.
  intros [Hp Hc]. exists []. constructor; [constructor | by apply represents_pristine | constructor | |].
  - intros c' Hc'. apply suffix_nil_inv in Hc' as ->. done.
  - rewrite Hc. intros h. constructor.
Qed.

(** C1: whatever blocks, uncles and competing chains a new node is handed, in
    whatever order, and whatever its contract executor answers, the ledger it
    ends up with is a valid chain (heights, parents, Merkle roots, rewards,
    declared nullifiers, no nullifier twice), stored as such, and every block
    of it passed the structure check, the proof of token balance and the
    reward check of the host; no path around those checks exists, not through
    the pool of competing blocks, a reorganisation or a restore. *)
Theorem accepted_blocks_checked n0 n :
  fresh_node n0 -> rtc accept_step n0 n ->
  exists c, valid_chain c /\ represents c (chain n) /\
    Forall (fun b => exists us, validate_block_structure b = Ok tt /\ verify_proof_of_token_balance b = Ok tt /\
                       check_rewards b us = Ok tt) c.
Proof.
  intros Hf Hr. destruct (good_accepted n0 n (fresh_good n0 Hf) Hr) as [c [Hv Hrep Hc _ _]].
  exists c. split; [done |]. split; [done |]. apply checked_blocks in Hc. eapply Forall_impl; [exact Hc |]. cbn. intros b [us [H1 H2 H3]]. by exists us.
Qed.

(** ** The supply *)

Lemma supply_of_schedule c :
  valid_chain c -> checked_chain c -> total_supply (supply_of c) = expected_cumulative_supply (Z.of_nat (length c)).
Proof.
  intros Hv. induction Hv as [|c b Hv IH He]; [done |]. intros Hc. inversion Hc as [|? ? us Hb _ Hc']; subst.
  rewrite (proj2 (supply_of_total c Hc') b us Hb), IH by done. unfold expected_cumulative_supply.
  rewrite length_cons, !Nat2Z.id, supply_loop_snoc, (ext_height _ _ He). do 2 f_equal. lia.
Qed.

Lemma suffix_drop c (k : nat) : drop k c `suffix_of` c.
Proof. exists (take k c). by rewrite take_drop. Qed.

(** C4: the supply tree can be trusted without trusting the contract that writes
    it: at every height of the chain the stored entry is the sum of the
    coinbases below it (commitment, blinding factor and value), and its total
    is exactly the emission schedule's cumulative supply of that height, for
    every executor and after any sequence of deliveries and reorganisations. *)
Theorem accepted_supply_exact n0 n :
  fresh_node n0 -> rtc accept_step n0 n ->
  exists c, represents c (chain n) /\ forall k : nat, (k <= length c)%nat ->
    exists e, supply_get (supply_chain (store (chain n))) (Z.of_nat k) = Ok e /\
      e = supply_of (drop (length c - k) c) /\ total_supply e = expected_cumulative_supply (Z.of_nat k).
Proof.
  intros Hf Hr. destruct (good_accepted n0 n (fresh_good n0 Hf) Hr) as [c [Hv Hrep Hc Hs _]].
  exists c. split; [done |]. intros k Hk. exists (supply_of (drop (length c - k) c)).
  assert (length (drop (length c - k) c) = k) as El by (rewrite length_drop; lia).
  split_and!; [| done |].
  - rewrite <- (Hs _ (suffix_drop c (length c - k))), El. done.
  - rewrite supply_of_schedule, El; [done | | by apply checked_drop].
    clear -Hv. generalize (length c - k)%nat. intros j. revert c Hv. induction j as [|j IH]; intros c Hv; [done |].
    destruct Hv as [|c b Hv]; [constructor | by apply IH].
Qed.

(** ** Reconnecting a block *)

(** A block at the height of the tip does not extend the chain. *)
Lemma accept_at_tip_stays b us s s' (h : Z) :
  height (header b) = chain_height s -> accept_at_tip b us s = (s', Ok (CanonicalExtension h)) -> False.
Proof.
  intros Eh. unfold accept_at_tip. destruct (hash_block b); [| done]. pose proof (tip_hash_quiet s) as Hq.
  destruct (tip_hash s) as [s1 tip]. cbn [fst] in Hq. destruct (bool_decide _); [done |].
  pose proof (connect_block_cases b us None None None s1) as Hc. destruct (connect_block b us None None None s1) as [s2 [out|e]]; [| done].
  cbn [at_stage]. intros [= _ ->]. cbn [is_extension] in Hc. destruct Hc as (_ & _ & Hlt & _).
  pose proof (quiet_chain _ _ Hq) as (_ & E & _)%chain_part_inv. lia.
Qed.

(** Under the reorganisation lock a block extends the chain in one way. *)
Lemma locked_extension (fuel : nat) (pool : bool) b us (key : bytes) (tgt : Z) n n' (h : Z) :
  accept fuel true pool b us key tgt n = (n', Ok (CanonicalExtension h)) ->
  returned n' = returned n /\
  exists leaves o, passed (with_anchors leaves (chain n)) b us /\ commit_executed b us o (with_anchors leaves (chain n)) = (chain n', Ok (CanonicalExtension h)).
Proof.
  destruct fuel as [|fuel]; cbn [accept]; [done |].
  destruct (accept_checks (chain n) b us key tgt) as [[]|e] eqn:Ec; [| done]. apply accept_checks_host in Ec.
  destruct (detect_reorg b (chain n)) as [[| fh parent |]|e]; [| by destruct (hash_block parent) | done | done].
  unfold accept_new. destruct (_ <? _); [done |]. destruct (Z.eqb_spec (height (header b)) (chain_height (chain n))) as [Eh | _].
  - destruct (accept_at_tip b us (chain n)) as [s' r] eqn:Ea. intros [= _ ->]. by apply accept_at_tip_stays in Ea.
  - unfold execute_and_commit. destruct (execute_block (chain n) b us key tgt) as [leaves [ex|]] eqn:Ex; [| done].
    destruct (commit_executed b us (exec_overlay ex) (with_anchors leaves (chain n))) as [s' r] eqn:Ee.
    intros [= <- ->]. split; [done |]. exists leaves, (exec_overlay ex). split; [by eapply passed_on | done].
Qed.

(** What a successful reconnection did. *)
Record reconnected b n n' : Prop := {
  rc_uncles : uncle_merkle_root (header b) = zero32;
  rc_returned : returned n' = returned n;
  rc_pool : competing (chain n') = prune_competing (height (header b)) (competing (chain n));
  rc_above : chain_height (chain n) < height (header b);
  rc_tracked : forall c, Block_wf b -> tracked c (chain n) -> tracked (b :: c) (chain n')
}.

Lemma reconnect_inv (fuel : nat) (pool : bool) b n n' u : reconnect (accept fuel true) pool b n = (n', Ok u) -> reconnected b n n'.
Proof.
  unfold reconnect. destruct (negb _); [done |].
  destruct (accept fuel true pool b [] _ _ n) as [n1 [[h | | |]|e]] eqn:Ea; [| done..]. intros [= <- _].
  apply locked_extension in Ea as (Hret & leaves & o & Hh & Ee).
  pose proof (commit_executed_cases b [] o (with_anchors leaves (chain n))) as Hc. rewrite Ee in Hc.
  destruct Hc as (-> & Hlt & [tip Hcon] & entry & d & Er & _ & Es). cbv zeta in Es. constructor; [| done | | done |].
  - by apply (commit_checks_inv b [] _ (con_commit _ _ _ _ Hcon)).
  - rewrite Es. unfold extended, after_commit. destruct (memory_block _ _ _) as [coins [nulls spent]].
    cbn [competing with_store with_latest]. by rewrite (proj2 (proj2 (before_commit_part b (adjusted b (with_anchors leaves (chain n)))))).
  - intros c Hw Ht. pose proof (tracked_commit c (with_anchors leaves (chain n)) b [] o Hw Hh) as Hk. rewrite Ee in Hk.
    apply Hk. by apply (tracked_quiet c (chain n)); [apply with_anchors_quiet |].
Qed.

Lemma reconnect_all_inv (fuel : nat) (pool : bool) (bs : list Block) n n' u :
  reconnect_all (accept fuel true) pool bs n = (n', Ok u) ->
  Forall (fun b => uncle_merkle_root (header b) = zero32) bs /\ returned n' = returned n /\
  (forall h, peek_competing_blocks h (competing (chain n')) ⊆ peek_competing_blocks h (competing (chain n))) /\
  (forall c, Forall Block_wf bs -> tracked c (chain n) -> tracked (rev bs ++ c) (chain n')).
Proof.
  revert n. induction bs as [|b bs IH]; intros n; cbn [reconnect_all].
  { intros [= <- _]. split_and!; [constructor | done | done |]. intros c _ Ht. exact Ht. }
  destruct (reconnect (accept fuel true) pool b n) as [n1 [v|e]] eqn:Eb; [| done]. intros Er.
  destruct (reconnect_inv _ _ _ _ _ _ Eb) as [H1 H2 H3 _ H5]. destruct (IH n1 Er) as (G1 & G2 & G3 & G4). split_and!.
  - by constructor.
  - congruence.
  - intros h. etrans; [apply G3 |]. rewrite H3. destruct (prune_peek (height (header b)) h (competing (chain n))) as [-> | ->]; set_solver.
  - intros c Hw Ht. inversion Hw as [|? ? Hb Hbs]; subst. cbn [rev]. rewrite <- app_assoc. apply G4; [done |]. by apply H5.
Qed.

(** ** Termination *)

Definition same_accept (a1 a2 : Accept) : Prop := forall (pool : bool) b us (key : bytes) (tgt : Z) n,
  a1 pool b us key tgt n = a2 pool b us key tgt n.

Definition answers (acc : Accept) : Prop := forall (pool : bool) b us (key : bytes) (tgt : Z) n,
  (acc pool b us key tgt n).2 <> Err Exhausted.

Lemma reconnect_all_same (a1 a2 : Accept) (pool : bool) (bs : list Block) n :
  same_accept a1 a2 -> reconnect_all a1 pool bs n = reconnect_all a2 pool bs n.
Proof.
  intros Ha. revert n. induction bs as [|b bs IH]; intros n; cbn [reconnect_all]; [done |].
  assert (reconnect a1 pool b n = reconnect a2 pool b n) as -> by (unfold reconnect; by rewrite Ha).
  destruct (reconnect a2 pool b n) as [n' [u|e]]; [apply IH | done].
Qed.

Lemma reorg_failure_same (a1 a2 : Accept) (bs : list Block) n :
  same_accept a1 a2 -> reorg_failure_after_restore a1 bs n = reorg_failure_after_restore a2 bs n.
Proof. intros Ha. unfold reorg_failure_after_restore, restore_disconnected_chain. by rewrite (reconnect_all_same a1 a2). Qed.

Lemma activate_same (a1 a2 : Accept) (locked pool : bool) (bs : list Block) (fork : Z) n :
  same_accept a1 a2 -> activate_with a1 locked pool bs fork n = activate_with a2 locked pool bs fork n.
Proof.
  intros Ha. unfold activate_with. destruct locked; [done |]. destruct (displaced_range_is_finalized _ _) as [[]|]; [done | | done].
  destruct (rollback_cumulative_commit _ _) as [s1 [u|e]]; [| done]. destruct (disconnect_to fork s1) as [s2 [off | | off]];
    [| done | by apply reorg_failure_same]. rewrite (reconnect_all_same a1 a2) by done.
  destruct (reconnect_all a2 pool bs _) as [n3 [v|[]]]; [done | by apply reorg_failure_same | done..].
Qed.

Lemma reconnect_all_answers (acc : Accept) (pool : bool) (bs : list Block) n :
  answers acc -> (reconnect_all acc pool bs n).2 <> Err Exhausted.
Proof.
  intros Ha. revert n. induction bs as [|b bs IH]; intros n; cbn [reconnect_all]; [done |]. unfold reconnect.
  destruct (negb _); [done |]. pose proof (Ha pool b [] (randomx_key (header b)) (target (header b)) n) as Hb.
  destruct (acc pool b [] _ _ n) as [n' [[]|e]]; [apply IH | done.. |]. cbn [snd] in *. congruence.
Qed.

Lemma reorg_failure_answers (acc : Accept) (bs : list Block) n :
  answers acc -> (reorg_failure_after_restore acc bs n).2 <> Err Exhausted.
Proof.
  intros Ha. unfold reorg_failure_after_restore, restore_disconnected_chain.
  pose proof (reconnect_all_answers acc false (rev bs) n Ha) as Hr. destruct (reconnect_all acc false (rev bs) n) as [n' [u|[]]]; done.
Qed.

Lemma activate_answers (acc : Accept) (locked pool : bool) (bs : list Block) (fork : Z) n :
  answers acc -> (activate_with acc locked pool bs fork n).2 <> Err Exhausted.
Proof.
  intros Ha. unfold activate_with. destruct locked; [done |]. destruct (displaced_range_is_finalized _ _) as [[]|]; [done | | done].
  assert ((rollback_cumulative_commit fork (chain n)).2 <> Err Exhausted) as Hroll
    by (unfold rollback_cumulative_commit; by destruct (supply_get _ _)).
  destruct (rollback_cumulative_commit _ _) as [s1 [u|e]]; [| cbn [snd] in *; congruence].
  destruct (disconnect_to fork s1) as [s2 [off | | off]]; [| done | by apply reorg_failure_answers].
  pose proof (reconnect_all_answers acc pool bs (with_chain s2 n) Ha) as Hr.
  destruct (reconnect_all acc pool bs _) as [n3 [v|[]]]; [done | by apply reorg_failure_answers | done..].
Qed.

(** A locked call does not recurse. *)
Lemma locked_fuel (k : nat) : same_accept (accept (S k) true) (accept 1 true).
Proof.
  intros pool b us key tgt n. cbn [accept]. destruct (accept_checks _ _ _ _ _); [| done].
  destruct (detect_reorg b (chain n)) as [[| h parent |]|e]; done.
Qed.

(** Results that speak neither of the lock nor of the fuel. *)
Definition settled {A : Type} (r : ARes A) : Prop := match r with Ok _ | Err (Rejected _) => True | _ => False end.

Lemma settled_answers {A : Type} (r : ARes A) : settled r -> r <> Err Exhausted.
Proof. by intros Hs ->. Qed.

Lemma settled_stage {E A : Type} (st : string) (r : result E A) : settled (at_stage st r).
Proof. by destruct r. Qed.

Lemma settled_ok_or {A : Type} (o : option A) (st : string) : settled (ok_or o (Rejected st)).
Proof. by destruct o. Qed.

Lemma settled_bind {A B : Type} (r : ARes A) (k : A -> ARes B) :
  settled r -> (forall a, settled (k a)) -> settled (let? a := r in k a).
Proof. by destruct r as [a|[]]; cbn; auto. Qed.

Ltac settle := repeat first
  [ done | apply settled_stage | apply settled_ok_or | apply settled_bind; [| intros ?]
  | match goal with |- settled (if ?x then _ else _) => destruct x end
  | match goal with |- settled (match ?x with _ => _ end) => destruct x end ].

Lemma accept_checks_settled s b us (key : bytes) (tgt : Z) : settled (accept_checks s b us key tgt).
Proof.
  assert (forall us', settled (uncle_targets_of s us')) as H1 by (induction us' as [|u us' IH]; cbn [uncle_targets_of]; settle; exact IH).
  assert (forall h txs, settled (check_witnesses h txs)) as H2 by (intros h; induction txs as [|tx txs IH]; cbn [check_witnesses]; settle; exact IH).
  assert (forall cs sum, settled (sum_uncle_notes us cs sum)) as H3
    by (induction cs as [|x cs IH]; intros sum; cbn [sum_uncle_notes]; settle; apply IH).
  unfold accept_checks. apply settled_bind; [settle | intros _]. apply settled_bind; [unfold check_genesis_admission, check_genesis_pin; settle | intros _].
  apply settled_bind; [unfold check_uncle_set; destruct us; [done |]; destruct (build_uncle_merkle _); settle; apply H1 | intros _].
  apply settled_bind; [settle | intros _]. apply settled_bind; [unfold check_pow; settle | intros _].
  apply settled_bind; [apply H2 | intros _]. unfold check_rewards. settle.
Qed.

Lemma read_cumulative_settled s (o : OverlayState) b : settled (read_cumulative_from_overlay s o b).
Proof. unfold read_cumulative_from_overlay, read_overlay, check_rederived. settle. Qed.

Lemma accept_new_settled b us (key : bytes) (tgt : Z) n : settled (accept_new b us key tgt n).2.
Proof.
  unfold accept_new. destruct (_ <? _); [done |]. destruct (_ =? _).
  - unfold accept_at_tip. destruct (hash_block b); [| done]. destruct (tip_hash _) as [s1 tip]. destruct (bool_decide _); [done |].
    destruct (connect_block _ _ _ _ _ s1) as [s2 r]. apply settled_stage.
  - unfold execute_and_commit. destruct (execute_block _ _ _ _ _) as [leaves [ex|]]; [| done].
    assert (settled (commit_executed b us (exec_overlay ex) (with_anchors leaves (chain n))).2) as Hc.
    { unfold commit_executed. pose proof (read_cumulative_settled (with_anchors leaves (chain n)) (exec_overlay ex) b) as Hr.
      destruct (read_cumulative_from_overlay _ _ _) as [[[batch entry]|]|e]; [| done | done].
      destruct (overlay_diff _ _); [| done]. by destruct (connect_block _ _ _ _ _ _) as [s' [|]]. }
    by destruct (commit_executed _ _ _ _) as [s' r].
Qed.

Lemma locked_answers (k : nat) : answers (accept (S k) true).
Proof.
  intros pool b us key tgt n. rewrite locked_fuel. cbn [accept]. pose proof (accept_checks_settled (chain n) b us key tgt) as Hc.
  destruct (accept_checks _ _ _ _ _); [| by apply settled_answers]. destruct (detect_reorg b (chain n)) as [[| h parent |]|e];
    [apply settled_answers, accept_new_settled | by destruct (hash_block parent) | done | done].
Qed.

(** ** After a reorganisation to the parent of a block *)

(** What a successful activation did. *)
Lemma activate_ok (fuel : nat) (locked pool : bool) (bs : list Block) (fork : Z) n n' u :
  activate_with (accept fuel true) locked pool bs fork n = (n', Ok u) ->
  exists s1 s2 off n3,
    locked = false /\ displaced_range_is_finalized (chain n) fork = Ok false /\
    rollback_cumulative_commit fork (chain n) = (s1, Ok tt) /\ disconnect_to fork s1 = (s2, AllOff off) /\
    reconnect_all (accept fuel true) pool bs (with_chain s2 n) = (n3, Ok tt) /\ n' = give_back pool off n3.
Proof.
  unfold activate_with. destruct locked; [done |]. destruct (displaced_range_is_finalized _ _) as [[]|]; [done | | done].
  destruct (rollback_cumulative_commit fork (chain n)) as [s1 [[]|e]]; [| done].
  destruct (disconnect_to fork s1) as [s2 [off | | off]] eqn:Ed.
  - destruct (reconnect_all (accept fuel true) pool bs (with_chain s2 n)) as [n3 [[]|e]] eqn:Er.
    + intros [= <- _]. by exists s1, s2, off, n3.
    + unfold reorg_failure_after_restore. destruct e; [| done..]. by destruct (restore_disconnected_chain _ _ _) as [n4 [|[]]].
  - done.
  - unfold reorg_failure_after_restore. by destruct (restore_disconnected_chain _ _ _) as [n4 [|[]]].
Qed.

Lemma disconnect_down_pool (rounds : nat) (h : Z) (bs : list Block) s :
  competing (disconnect_down rounds h bs s).1 = competing s.
Proof.
  revert h bs s. induction rounds as [|rounds IH]; intros h bs s; cbn [disconnect_down]; [done |]. destruct (chain_block s h); [| done].
  pose proof (proj1 (disconnect_supply s h)) as Hc. destruct (disconnect_block h s) as [s' [u|e]]; cbn [fst] in *; [by rewrite IH | done].
Qed.

Lemma activate_pool (fuel : nat) (locked pool : bool) (bs : list Block) (fork : Z) n n' u :
  activate_with (accept fuel true) locked pool bs fork n = (n', Ok u) ->
  forall h, peek_competing_blocks h (competing (chain n')) ⊆ peek_competing_blocks h (competing (chain n)).
Proof.
  intros Ha h. apply activate_ok in Ha as (s1 & s2 & off & n3 & _ & _ & Er & Ed & Ec & ->).
  apply reconnect_all_inv in Ec as (_ & _ & Hp & _). etrans; [apply Hp |]. cbn [chain with_chain].
  pose proof (disconnect_down_pool (Z.to_nat (chain_height s1 - fork)) (chain_height s1) [] s1) as E. unfold disconnect_to in Ed.
  rewrite Ed in E. cbn [fst] in E. rewrite E. revert Er. unfold rollback_cumulative_commit. destruct (supply_get _ _); [| done].
  intros [= <-]. done.
Qed.

Lemma succ_u64_inj (x y : Z) : is_u64 x -> is_u64 y -> BlockHeight.succ x = BlockHeight.succ y -> x = y.
Proof.
  unfold BlockHeight.succ, wrap, is_u. intros Hx Hy E.
  destruct (decide (x = 2 ^ 64 - 1)) as [-> | Nx]; destruct (decide (y = 2 ^ 64 - 1)) as [-> | Ny]; [done | ..].
  - rewrite (Z.mod_small (y + 1)) in E by lia. change ((2 ^ 64 - 1 + 1) mod 2 ^ 64) with 0 in E. lia.
  - rewrite (Z.mod_small (x + 1)) in E by lia. change ((2 ^ 64 - 1 + 1) mod 2 ^ 64) with 0 in E. lia.
  - rewrite !Z.mod_small in E by lia. lia.
Qed.

Lemma detect_reorg_height b s (h : Z) (parent : Block) :
  detect_reorg b s = Ok (Heavier h parent) -> height (header b) = BlockHeight.succ (chain_height s).
Proof. unfold detect_reorg. by destruct (Z.eqb_spec (height (header b)) (BlockHeight.succ (chain_height s))). Qed.

Lemma removed_parent (prev hash : bytes) (h : Z) (co co' : Competing) (p p' : Block) :
  uncle_parent prev h co = Some p -> hash_block p = Ok hash ->
  (forall h', peek_competing_blocks h' co' ⊆ peek_competing_blocks h' (remove_competing h hash co)) ->
  uncle_parent prev h co' <> Some p'.
Proof.
  intros Hp Hh Hsub Hp'. apply List.find_some in Hp as [Hin Hpar]. apply List.find_some in Hp' as [Hin' Hpar'].
  assert (hash = prev) as ->.
  { unfold is_parent in Hpar. unfold hash_block in Hh. destruct (vm_ok _); [| done]. rewrite Hh in Hpar. by apply bool_decide_eq_true in Hpar. }
  apply list_elem_of_In, Hsub, list_elem_of_In in Hin'. unfold remove_competing, peek_competing_blocks in Hin'.
  destruct (pool co !! h) as [bs|] eqn:Eb; cbn [pool] in Hin'.
  - rewrite lookup_insert_eq in Hin'. cbn [default] in Hin'. apply filter_In in Hin' as [_ Hn]. by rewrite Hpar' in Hn.
  - by rewrite Eb in Hin'.
Qed.

(** The block whose parent was adopted does not ask for another reorganisation. *)
Lemma no_second_reorg (fuel : nat) (locked pool : bool) b n n2 (h fork : Z) (parent : Block) (hash : bytes) u h' p' :
  good (chain n) -> detect_reorg b (chain n) = Ok (Heavier h parent) -> hash_block parent = Ok hash ->
  activate_with (accept fuel true) locked pool [parent] fork
    (with_chain (with_competing (remove_competing h hash (competing (chain n))) (chain n)) n) = (n2, Ok u) ->
  good (chain n2) /\ detect_reorg b (chain n2) <> Ok (Heavier h' p').
Proof.
  intros Hg Hd Hh Ha. pose proof (detect_reorg_height _ _ _ _ Hd) as Eh. destruct (detect_reorg_heavier _ _ _ _ Hd) as [-> Hp].
  set (n1 := with_chain _ n) in Ha. assert (good (chain n1)) as Hg1.
  { eapply good_run; [exact Hg |]. apply quiet_step, with_competing_quiet, pool_wf_sub, remove_peek. }
  assert (Block_wf parent) as Hwp by (destruct Hg as [c Hc]; eapply uncle_parent_wf; [apply (tr_pool c _ Hc) | done]).
  assert (good (chain n2)) as Hg2.
  { eapply good_run; [exact Hg1 |]. pose proof (activate_run (accept fuel true) locked pool [parent] fork n1
      (accept_run fuel true) ltac:(by constructor) Hg1) as Hr. by rewrite Ha in Hr. }
  split; [done |]. intros Hd2. pose proof (detect_reorg_height _ _ _ _ Hd2) as Eh2. destruct (detect_reorg_heavier _ _ _ _ Hd2) as [-> Hp2].
  rewrite Eh in Eh2. apply succ_u64_inj in Eh2; [| by apply good_height..]. rewrite <- Eh2 in Hp2.
  eapply removed_parent; [exact Hp | exact Hh | | exact Hp2]. apply (activate_pool _ _ _ _ _ _ _ _ Ha).
Qed.

(** One round of the recursion. *)
Lemma accept_round (fuel : nat) (locked pool : bool) b us (key : bytes) (tgt : Z) n :
  accept (S fuel) locked pool b us key tgt n =
  match accept_checks (chain n) b us key tgt with
  | Err e => (n, Err e)
  | Ok _ =>
      match detect_reorg b (chain n) with
      | Ok (Heavier h parent) =>
          match hash_block parent with
          | Err _ => (n, Err (Rejected "Reorg: hash competing block"))
          | Ok hash =>
              match activate_with (accept fuel true) locked pool [parent] (default 0 (BlockHeight.pred h))
                      (with_chain (with_competing (remove_competing h hash (competing (chain n))) (chain n)) n) with
              | (n2, Err e) => (n2, Err e)
              | (n2, Ok _) => accept fuel locked pool b us key tgt n2
              end
          end
      | _ => accept 1 locked pool b us key tgt n
      end
  end.
Proof.
  cbn [accept]. destruct (accept_checks (chain n) b us key tgt) as [[]|]; [| done].
  by destruct (detect_reorg b (chain n)) as [[]|].
Qed.

Lemma accept_flat (fuel : nat) (locked pool : bool) b us (key : bytes) (tgt : Z) n :
  (forall h p, detect_reorg b (chain n) <> Ok (Heavier h p)) ->
  accept (S fuel) locked pool b us key tgt n = accept 1 locked pool b us key tgt n /\
  settled (accept (S fuel) locked pool b us key tgt n).2.
Proof.
  intros Hd. rewrite accept_round. cbn [accept]. pose proof (accept_checks_settled (chain n) b us key tgt) as Hc.
  destruct (accept_checks (chain n) b us key tgt) as [[]|e]; [| done].
  destruct (detect_reorg b (chain n)) as [[| h parent |]|e]; [split; [done | apply accept_new_settled] | by destruct (Hd h parent) | done | done].
Qed.

Lemma accept_fuel (k : nat) (locked pool : bool) b us (key : bytes) (tgt : Z) n :
  good (chain n) ->
  accept (S (S k)) locked pool b us key tgt n = accept 2 locked pool b us key tgt n /\
  (accept (S (S k)) locked pool b us key tgt n).2 <> Err Exhausted.
Proof.
  intros Hg. destruct (detect_reorg b (chain n)) as [[| h parent |]|e] eqn:Ed.
  2: {
    rewrite (accept_round (S k)), (accept_round 1), Ed. pose proof (accept_checks_settled (chain n) b us key tgt) as Hc.
    destruct (accept_checks (chain n) b us key tgt) as [[]|e]; [| split; [done | by apply settled_answers]].
    destruct (hash_block parent) as [hash|] eqn:Eh; [| done]. rewrite (activate_same (accept (S k) true) (accept 1 true)) by apply locked_fuel.
    pose proof (activate_answers (accept 1 true) locked pool [parent] (default 0 (BlockHeight.pred h))
      (with_chain (with_competing (remove_competing h hash (competing (chain n))) (chain n)) n) (locked_answers 0)) as Ha.
    destruct (activate_with (accept 1 true) _ _ _ _ _) as [n2 [u|e]] eqn:Ea; [| split; [done |]; intros [= ->]; by apply Ha].
    destruct (accept_flat k locked pool b us key tgt n2) as [E Hs]; [| split; [done | by apply settled_answers]].
    intros h' p'. by apply (no_second_reorg _ _ _ _ _ _ _ _ _ _ _ h' p' Hg Ed Eh Ea). }
  all: destruct (accept_flat (S k) locked pool b us key tgt n ltac:(by rewrite Ed)) as [E Hs]; split; [| by apply settled_answers]; rewrite E;
    symmetry; apply (accept_flat 1); by rewrite Ed.
Qed.

(** C23: accepting a block ends.  Acceptance and reorganisation call each other,
    but on a node that started empty two rounds are enough: a block whose parent
    sits in the pool triggers one reorganisation, which removes that parent from
    the pool and never puts a block into it, so the second round finds no parent
    to switch to.  More rounds give the same result and the bound is never what
    stops the call. *)
Theorem acceptance_terminates n0 n (k : nat) (locked pool : bool) b us (key : bytes) (tgt : Z) :
  fresh_node n0 -> rtc accept_step n0 n ->
  accept (2 + k) locked pool b us key tgt n = accept 2 locked pool b us key tgt n /\
  (accept (2 + k) locked pool b us key tgt n).2 <> Err Exhausted.
Proof. intros Hf Hr. apply accept_fuel. by eapply good_accepted; [apply fresh_good |]. Qed.

(** ** Uncles and reorganisations *)

(** A reorganisation hands every block to the acceptor without its uncles, and
    the acceptor refuses a block that commits to uncles it does not get; so a
    competing chain is adopted only when none of its blocks has an uncle,
    however much work it carries, and a displaced chain with an uncle cannot be
    put back. *)
Theorem adopted_blocks_have_no_uncles (pool : bool) (bs : list Block) (fork : Z) n n' u :
  activate_best_chain pool bs fork n = (n', Ok u) \/ restore_disconnected_chain (accept 1 true) bs n = (n', Ok u) ->
  Forall (fun b => uncle_merkle_root (header b) = zero32) bs.
Proof.
  intros [Ha | Hr].
  - unfold activate_best_chain in Ha. apply activate_ok in Ha as (s1 & s2 & off & n3 & _ & _ & _ & _ & Ec & _). by apply reconnect_all_inv in Ec as [H _].
  - apply reconnect_all_inv in Hr as [H _]. apply Forall_rev in H. by rewrite rev_involutive in H.
Qed.

(** ** A reorganisation that succeeds *)

Lemma disconnect_ok c s s' u :
  tracked c s -> disconnect_block (chain_height s) s = (s', Ok u) ->
  exists t rest, c = t :: rest /\ chain_block s (chain_height s) = Ok (stored_block t) /\ tracked rest s' /\
    chain_height s' = Z.of_nat (length rest).
Proof.
  intros Ht Ed. pose proof (disconnect_block_cases s (chain_height s)) as Hc. rewrite Ed in Hc.
  destruct Hc as [(_ & _ & e & [=]) | (b & Eb & _ & _ & Ep)].
  destruct (represents_top c s _ b (tr_represents c s Ht) eq_refl Eb) as (t & rest & -> & -> & Eh). exists t, rest.
  apply chain_part_inv in Ep as (_ & Eh' & _). cbn [is_ok] in Eh'. rewrite Eh, length_cons, Nat2Z.inj_succ, pred_succ in Eh'.
  2: { pose proof (rep_len _ _ (tr_represents _ _ Ht)) as Hl. by rewrite length_cons, Nat2Z.inj_succ in Hl. }
  pose proof (tracked_disconnect (t :: rest) s (chain_height s) ltac:(apply good_height; by eexists) Ht) as (c' & Ht' & Hc').
  rewrite Ed in Ht'. cbn [fst] in Ht'. split_and!; [done | done | | done]. destruct Hc' as [-> | [b [= _ ->]]]; [| done].
  exfalso. destruct (rep_height _ _ (tr_represents _ _ Ht')) as [E | [E _]]; rewrite Eh', length_cons in E; lia.
Qed.

Lemma disconnect_down_off (rounds : nat) c s s' (off bs : list Block) :
  tracked c s -> disconnect_down rounds (chain_height s) bs s = (s', AllOff off) ->
  tracked (drop rounds c) s' /\ off = bs ++ map stored_block (take rounds c) /\
  (rounds = 0%nat \/ ((rounds <= length c)%nat /\ chain_height s = Z.of_nat (length c))).
Proof.
  revert c s bs. induction rounds as [|rounds IH]; intros c s bs Ht; cbn [disconnect_down].
  { intros [= <- <-]. rewrite take_0, drop_0, app_nil_r. split_and!; [done | done | by left]. }
  destruct (chain_block s (chain_height s)) as [b|e] eqn:Eb; [| done].
  destruct (disconnect_block (chain_height s) s) as [s1 [u|e]] eqn:Ed; [| done].
  destruct (disconnect_ok c s s1 u Ht Ed) as (t & rest & -> & Eb' & Ht' & Eh). rewrite Eb in Eb'. injection Eb' as ->.
  destruct (represents_top _ s _ _ (tr_represents _ _ Ht) eq_refl Eb) as (t' & rest' & [= <- <-] & _ & Eh0).
  rewrite Eh0, length_cons, Nat2Z.inj_succ, pred_succ, <- Eh.
  2: { pose proof (rep_len _ _ (tr_represents _ _ Ht)) as Hl. by rewrite length_cons, Nat2Z.inj_succ in Hl. }
  intros Hr. destruct (IH rest s1 _ Ht' Hr) as (G1 & -> & G3). cbn [take drop map]. rewrite <- app_assoc. split_and!; [done | done |].
  right. split; [| done]. cbn [length]. destruct G3 as [-> | [G3 _]]; lia.
Qed.

Lemma rollback_cumulative_ok (h : Z) s s1 u : rollback_cumulative_commit h s = (s1, Ok u) -> quiet s s1.
Proof. intros E. pose proof (rollback_quiet h s) as Hq. by rewrite E in Hq. Qed.

Lemma disconnect_to_off (fork : Z) c s s' (off : list Block) :
  is_u64 fork -> tracked c s -> disconnect_to fork s = (s', AllOff off) ->
  let k := Z.to_nat (Z.of_nat (length c) - fork) in tracked (drop k c) s' /\ off = map stored_block (take k c).
Proof.
  intros Hu Ht Hd. destruct (disconnect_down_off _ c s s' off [] Ht Hd) as (G1 & -> & G3). cbv zeta.
  assert (Z.to_nat (chain_height s - fork) = Z.to_nat (Z.of_nat (length c) - fork)) as <-; [| done].
  destruct G3 as [G3 | [_ ->]]; [| done]. destruct (rep_height _ _ (tr_represents _ _ Ht)) as [-> | [E _]]; [done |]. lia.
Qed.

Lemma readmitted_stored (bs : list Block) : readmitted (map stored_block bs) = readmitted bs.
Proof. unfold readmitted. f_equal. induction bs as [|b bs IH]; [done |]. cbn [map flat_map]. by rewrite IH. Qed.

Lemma activate_replaces c n (pool : bool) (bs : list Block) (fork : Z) n' u :
  tracked c (chain n) -> Forall Block_wf bs -> is_u64 fork -> activate_best_chain pool bs fork n = (n', Ok u) ->
  let k := Z.to_nat (Z.of_nat (length c) - fork) in
  tracked (rev bs ++ drop k c) (chain n') /\
  returned n' = returned n ++ (if pool then readmitted (take k c) else []).
Proof.
  intros Hc Hw Hu Ha. unfold activate_best_chain in Ha. apply activate_ok in Ha as (s1 & s2 & off & n3 & _ & _ & Er & Ed & Ec & ->).
  pose proof (tracked_quiet c _ _ (rollback_cumulative_ok _ _ _ _ Er) Hc) as Hc1.
  destruct (disconnect_to_off fork c s1 s2 off Hu Hc1 Ed) as [Hc2 ->]. set (k := Z.to_nat (Z.of_nat (length c) - fork)) in *.
  destruct (reconnect_all_inv _ _ _ _ _ _ Ec) as (_ & Hret & _ & Ht). specialize (Ht _ Hw Hc2). split; [exact Ht |].
  cbn [give_back returned]. rewrite Hret, readmitted_stored. cbn [with_chain returned]. destruct pool; [done | by rewrite app_nil_r].
Qed.

(** C17: a reorganisation that reports success did exactly what it was asked: of
    the chain the node held, the blocks up to the fork point are kept, the
    others are replaced by the competing blocks in their order, the result is
    again a valid chain, and the mempool got back the transactions of the
    displaced blocks, in their order from the newest block down, all of them
    except the coinbases and fee collections a block makes for itself. *)
Theorem reorg_replaces_chain n0 n (pool : bool) (bs : list Block) (fork : Z) n' u :
  fresh_node n0 -> rtc accept_step n0 n -> Forall Block_wf bs -> is_u64 fork ->
  activate_best_chain pool bs fork n = (n', Ok u) ->
  exists kept displaced,
    represents (displaced ++ kept) (chain n) /\ Z.of_nat (length kept) <= fork /\
    (displaced = [] \/ Z.of_nat (length kept) = fork) /\
    represents (rev bs ++ kept) (chain n') /\ valid_chain (rev bs ++ kept) /\
    returned n' = returned n ++ (if pool then List.filter (fun tx => negb (is_pow_reward_coinbase_tx tx || is_fee_collect_tx tx))
                                                (flat_map transactions displaced) else []).
Proof.
  intros Hf Hrun Hw Hu Ha. destruct (good_accepted n0 n (fresh_good n0 Hf) Hrun) as [c Hc].
  destruct (activate_replaces c n pool bs fork n' u Hc Hw Hu Ha) as [Ht Hret]. set (k := Z.to_nat (Z.of_nat (length c) - fork)) in *.
  exists (drop k c), (take k c). rewrite take_drop, length_drop. split_and!.
  - apply (tr_represents c _ Hc).
  - unfold k, is_u in *. lia.
  - destruct (decide (k = 0%nat)) as [-> | Hk]; [left; by rewrite take_0 | right; unfold k, is_u in *; lia].
  - apply (tr_represents _ _ Ht).
  - apply (tr_valid _ _ Ht).
  - exact Hret.
Qed.

(** ** A reorganisation that fails *)

(** A locked call that does not extend the chain leaves it. *)
Lemma locked_quiet (fuel : nat) (pool : bool) b us (key : bytes) (tgt : Z) n n' r :
  Block_wf b -> accept fuel true pool b us key tgt n = (n', r) ->
  match r with Ok (CanonicalExtension _) => True | _ => quiet (chain n) (chain n') /\ returned n' = returned n end.
Proof.
  intros Hw. destruct fuel as [|fuel]; cbn [accept]; [intros [= <- <-]; split; [apply quiet_refl | done] |].
  destruct (accept_checks (chain n) b us key tgt); [| intros [= <- <-]; split; [apply quiet_refl | done]].
  destruct (detect_reorg b (chain n)) as [[| h parent |]|e].
  - unfold accept_new. destruct (_ <? _); [intros [= <- <-]; split; [apply quiet_refl | done] |].
    destruct (Z.eqb_spec (height (header b)) (chain_height (chain n))) as [Eh | _].
    + unfold accept_at_tip. pose proof (tip_hash_quiet (chain n)) as Hq. destruct (hash_block b); [| intros [= <- <-]; split; [apply quiet_refl | done]].
      destruct (tip_hash (chain n)) as [s1 tip]. cbn [fst] in Hq. destruct (bool_decide _); [intros [= <- <-]; done |].
      pose proof (quiet_chain _ _ Hq) as (_ & E & _)%chain_part_inv.
      pose proof (connect_low_quiet b us None None None s1 Hw ltac:(lia)) as Hq'. destruct (connect_block b us None None None s1) as [s2 r'].
      intros [= <- <-]. cbn [fst chain with_chain] in *. assert (quiet (chain n) s2) by (by eapply quiet_trans). destruct (at_stage _ r') as [[]|]; done.
    + unfold execute_and_commit. destruct (execute_block (chain n) b us key tgt) as [leaves [ex|]].
      * pose proof (commit_executed_cases b us (exec_overlay ex) (with_anchors leaves (chain n))) as Hc.
        destruct (commit_executed _ _ _ _) as [s' r']. intros [= <- <-]. cbn [chain].
        assert (forall s', quiet (with_anchors leaves (chain n)) s' -> quiet (chain n) s') as Htr
          by (intros s0 H0; eapply quiet_trans; [apply with_anchors_quiet | exact H0]). destruct r' as [[]|]; auto.
      * intros [= <- <-]. split; [apply with_anchors_quiet | done].
  - destruct (hash_block parent); intros [= <- <-]; (split; [| done]); [| apply quiet_refl].
    apply with_competing_quiet, pool_wf_sub, remove_peek.
  - intros [= <- <-]. split; [| done]. apply with_competing_quiet. by apply push_wf.
  - intros [= <- <-]. split; [apply quiet_refl | done].
Qed.

(** How far a sequence of reconnections got. *)
Lemma reconnect_all_progress (fuel : nat) (pool : bool) (bs : list Block) c n :
  Forall Block_wf bs -> tracked c (chain n) ->
  let '(n', r) := reconnect_all (accept fuel true) pool bs n in
  returned n' = returned n /\
  exists connected rest, bs = connected ++ rest /\ tracked (rev connected ++ c) (chain n') /\ (is_ok r = true <-> rest = []) /\
    (connected <> [] -> exists b0, head connected = Some b0 /\ chain_height (chain n) < height (header b0)).
Proof.
  intros Hw. revert c n. induction Hw as [|b bs Hb Hw IH]; intros c n Ht; cbn [reconnect_all].
  { split; [done |]. by exists [], []. }
  destruct (reconnect (accept fuel true) pool b n) as [n1 [u|e]] eqn:Er.
  - destruct (reconnect_inv _ _ _ _ _ _ Er) as [_ Hret _ Habove Htr]. specialize (IH (b :: c) n1 (Htr c Hb Ht)).
    destruct (reconnect_all _ _ bs n1) as [n' r]. destruct IH as (E & connected & rest & -> & Ht' & Hr & _). split; [congruence |].
    exists (b :: connected), rest. cbn [rev]. rewrite <- app_assoc. split_and!; [done | exact Ht' | exact Hr |]. intros _. by exists b.
  - assert (quiet (chain n) (chain n1) /\ returned n1 = returned n) as [Hq Hret].
    { revert Er. unfold reconnect. destruct (negb _); [intros [= <- _]; split; [apply quiet_refl | done] |].
      destruct (accept fuel true pool b [] _ _ n) as [n2 r] eqn:Ea. pose proof (locked_quiet _ _ _ _ _ _ _ _ _ Hb Ea) as Hl.
      destruct r as [[]|]; [done | ..]; by intros [= <- _]. }
    split; [done |]. exists [], (b :: bs). cbn. split_and!; [done | by apply (tracked_quiet c (chain n)) | done | done].
Qed.

Lemma reconnect_all_app (acc : Accept) (pool : bool) (bs1 bs2 : list Block) n n1 u :
  reconnect_all acc pool bs1 n = (n1, Ok u) -> reconnect_all acc pool (bs1 ++ bs2) n = reconnect_all acc pool bs2 n1.
Proof.
  revert n. induction bs1 as [|b bs1 IH]; intros n; cbn [app reconnect_all]; [by intros [= ->] |].
  destruct (reconnect acc pool b n) as [n' [v|e]]; [apply IH | done].
Qed.

(** A block at or below the tip is not reconnected. *)
Lemma reconnect_low (pool : bool) b n :
  is_u64 (chain_height (chain n)) -> 0 < height (header b) <= chain_height (chain n) ->
  exists n' st, reconnect (accept 1 true) pool b n = (n', Err (Rejected st)).
Proof.
  intros Hu Hh. destruct (reconnect (accept 1 true) pool b n) as [n' [v|e]] eqn:Er; [apply reconnect_inv in Er as [_ _ _ Ha _]; lia |].
  revert Er. unfold reconnect. destruct (negb _); [intros [= <- <-]; eauto |].
  assert (settled (accept 1 true pool b [] (randomx_key (header b)) (target (header b)) n).2) as Hs.
  { apply (accept_flat 0). intros h p Hd. apply detect_reorg_height in Hd. unfold BlockHeight.succ, wrap, is_u in *.
    destruct (decide (chain_height (chain n) = 2 ^ 64 - 1)) as [E | E].
    - rewrite E in Hd. change ((2 ^ 64 - 1 + 1) mod 2 ^ 64) with 0 in Hd. lia.
    - rewrite Z.mod_small in Hd by lia. lia. }
  destruct (accept 1 true pool b [] _ _ n) as [n1 [[]|[]]]; [done | intros [= <- <-]; eauto.. | done | done].
Qed.

Lemma valid_chain_height c (i : nat) b : valid_chain c -> c !! i = Some b -> height (header b) = Z.of_nat (length c - i).
Proof.
  intros Hv. revert i. induction Hv as [|c b' Hv IH He]; intros i Hi; [done |]. destruct i as [|i].
  - injection Hi as <-. rewrite (ext_height _ _ He). cbn [length]. lia.
  - rewrite (IH i Hi). cbn [length]. apply lookup_lt_Some in Hi. lia.
Qed.

(** Above a chain that kept growing, the displaced blocks cannot return. *)
Lemma restore_above c (k : nat) c3 n :
  valid_chain c -> Forall Block_wf c -> (0 < k <= length c)%nat -> tracked c3 (chain n) -> (length c - k < length c3)%nat ->
  exists n', reorg_failure_after_restore (accept 1 true) (map stored_block (take k c)) n
    = (n', Err (Rejected "Reorg failed AND rollback failed - chain truncated")) /\ tracked c3 (chain n') /\ returned n' = returned n.
Proof.
  intros Hv Hw Hk Ht Hlen. destruct (lookup_lt_is_Some_2 c (k - 1)) as [b Eb]; [lia |].
  pose proof (valid_chain_height _ _ _ Hv Eb) as Hh. assert (rev (map stored_block (take k c)) = stored_block b :: rev (map stored_block (take (k - 1) c))) as Er.
  { replace k with (S (k - 1)) at 1 by lia. rewrite (take_S_r c (k - 1) b Eb), map_app, rev_app_distr. done. }
  assert (Forall Block_wf (rev (map stored_block (take k c)))) as Hws.
  { apply Forall_rev, Forall_fmap. eapply Forall_impl; [by apply Forall_take |]. intros x Hx. by apply stored_block_wf. }
  assert (chain_height (chain n) >= Z.of_nat (length c3)) as Hge by (destruct (rep_height _ _ (tr_represents _ _ Ht)) as [E | [E _]]; lia).
  destruct (reconnect_low false (stored_block b) n) as (n1 & st & Erc); [apply good_height; by exists c3 | cbn [stored_block header stored_header height]; lia |].
  unfold reorg_failure_after_restore, restore_disconnected_chain.
  pose proof (reconnect_all_progress 1 false _ c3 n Hws Ht) as Hp. rewrite Er in *. cbn [reconnect_all] in *. rewrite Erc in *.
  exists n1. split; [done |]. destruct Hp as (Hret & connected & rest & Esplit & Ht1 & _ & Hne). destruct connected as [|b0 connected]; [done |].
  destruct (Hne ltac:(done)) as (b1 & [= ->] & Hlt). injection Esplit as <- _. cbn [stored_block header stored_header height] in Hlt. lia.
Qed.

(** C22: a reorganisation that connects at least one competing block and then fails
    is never undone.  The displaced blocks are offered to the acceptor on top
    of the competing blocks already connected, at heights the chain has
    reached, so the very first is refused: the caller is told that the chain
    is truncated and the node stays on the connected part of the competing
    chain, although the chain it displaced was the heavier one so far. *)
Theorem partial_reorg_truncates n0 n (pool : bool) (b1 b : Block) (connected rest : list Block) (fork : Z) s1 s2 (off : list Block) n3 n4 st :
  fresh_node n0 -> rtc accept_step n0 n -> Forall Block_wf (b1 :: connected ++ b :: rest) -> is_u64 fork ->
  displaced_range_is_finalized (chain n) fork = Ok false ->
  rollback_cumulative_commit fork (chain n) = (s1, Ok tt) -> disconnect_to fork s1 = (s2, AllOff off) -> off <> [] ->
  reconnect_all (accept 1 true) pool (b1 :: connected) (with_chain s2 n) = (n3, Ok tt) ->
  reconnect (accept 1 true) pool b n3 = (n4, Err (Rejected st)) ->
  exists n' c, activate_best_chain pool (b1 :: connected ++ b :: rest) fork n
      = (n', Err (Rejected "Reorg failed AND rollback failed - chain truncated")) /\
    represents c (chain n) /\ represents (rev (b1 :: connected) ++ drop (length off) c) (chain n').
Proof.
  intros Hf Hrun Hw Hu Hfin Er Ed Hoff Ec Eb. destruct (good_accepted n0 n (fresh_good n0 Hf) Hrun) as [c Hc].
  pose proof (tracked_quiet c _ _ (rollback_cumulative_ok _ _ _ _ Er) Hc) as Hc1.
  destruct (disconnect_to_off fork c s1 s2 off Hu Hc1 Ed) as [Hc2 Eoff]. set (k := Z.to_nat (Z.of_nat (length c) - fork)) in *.
  assert (0 < k <= length c)%nat as Hk.
  { unfold k, is_u in *. destruct (decide (Z.of_nat (length c) <= fork)) as [Hle |]; [| lia]. exfalso. apply Hoff. rewrite Eoff. unfold k.
    by replace (Z.to_nat (Z.of_nat (length c) - fork)) with 0%nat by lia. }
  assert (length off = k) as -> by (rewrite Eoff, length_map, length_take; lia).
  rewrite app_comm_cons in Hw. apply Forall_app in Hw as [Hw1 [Hwb _]%Forall_cons].
  destruct (reconnect_all_inv _ _ _ _ _ _ Ec) as (_ & _ & _ & Ht). specialize (Ht _ Hw1 Hc2). clear Hw1.
  assert (tracked (rev (b1 :: connected) ++ drop k c) (chain n4)) as Ht4.
  { pose proof (reconnect_all_progress 1 pool [b] _ n3 ltac:(by constructor) Ht) as Hp. cbn [reconnect_all] in Hp. rewrite Eb in Hp.
    destruct Hp as (_ & con & r & Es & Ht' & Hr & _). destruct con as [|x con]; [exact Ht' |]. injection Es as _ Es.
    symmetry in Es. apply app_eq_nil in Es as [_ ->]. by destruct Hr as [_ Hr]; specialize (Hr eq_refl). }
  destruct (restore_above c k _ n4 (tr_valid _ _ Hc) (rep_wf _ _ (tr_represents _ _ Hc)) Hk Ht4) as (n' & Ef & Htf & _).
  { rewrite length_app, length_rev, length_drop. cbn [length]. lia. }
  exists n', c. split_and!; [| apply (tr_represents _ _ Hc) | apply (tr_represents _ _ Htf)].
  unfold activate_best_chain, activate_with. rewrite Hfin, Er, Ed, app_comm_cons, (reconnect_all_app _ _ _ _ _ _ _ Ec).
  cbn [reconnect_all]. rewrite Eb, Eoff. exact Ef.
Qed.

(** *** The restore that succeeds *)

(** The entry below is there, so a disconnect that fails has changed nothing. *)
Lemma disconnect_stuck c s s' e :
  tracked c s -> disconnect_block (chain_height s) s = (s', Err e) -> quiet s s'.
Proof.
  intros Ht. pose proof (tr_represents _ _ Ht) as Hr. unfold disconnect_block.
  destruct (chain_block s (chain_height s)) as [b|e1] eqn:Eb; [| intros [= <- _]; apply quiet_refl].
  destruct (represents_top c s _ b Hr eq_refl Eb) as (t & rest & -> & -> & Eh). rewrite Z.eqb_refl. cbn [negb].
  match goal with |- context [match ?u with Ok _ => _ | Err e => (with_live _ _, _) end] => destruct u as [ops|e1] end;
    [| intros [= <- _]; by constructor].
  pose proof (rep_len _ _ Hr) as Hl. rewrite Eh, length_cons, Nat2Z.inj_succ in *. rewrite pred_succ by done. unfold rollback_cache.
  match goal with |- context [supply_get (supply_chain ?st) ?h] =>
    assert (supply_get (supply_chain st) h = Ok (supply_of rest)) as -> end; [| done].
  cbn [supply_chain disconnect_trees]. rewrite supply_get_delete; [by apply (tr_supply _ _ Ht), suffix_cons_r | unfold is_u in *; lia..].
Qed.

Lemma disconnect_down_stuck (rounds : nat) c s s' (off bs : list Block) :
  tracked c s -> disconnect_down rounds (chain_height s) bs s = (s', Stuck off) ->
  exists k, (k <= length c)%nat /\ tracked (drop k c) s' /\ off = bs ++ map stored_block (take k c).
Proof.
  revert c s bs. induction rounds as [|rounds IH]; intros c s bs Ht; cbn [disconnect_down]; [done |].
  destruct (chain_block s (chain_height s)) as [b|e] eqn:Eb; [| done].
  destruct (disconnect_block (chain_height s) s) as [s1 [u|e]] eqn:Ed.
  - destruct (disconnect_ok c s s1 u Ht Ed) as (t & rest & -> & Eb' & Ht' & Eh). rewrite Eb in Eb'. injection Eb' as ->.
    destruct (represents_top _ s _ _ (tr_represents _ _ Ht) eq_refl Eb) as (t' & rest' & [= <- <-] & _ & Eh0).
    rewrite Eh0, length_cons, Nat2Z.inj_succ, pred_succ, <- Eh.
    2: { pose proof (rep_len _ _ (tr_represents _ _ Ht)) as Hl. by rewrite length_cons, Nat2Z.inj_succ in Hl. }
    intros Hr. destruct (IH rest s1 _ Ht' Hr) as (k & Hk & Htk & ->). exists (S k). cbn [take drop map length]. rewrite <- app_assoc.
    split_and!; [lia | done | done].
  - intros [= <- <-]. exists 0%nat. rewrite take_0, drop_0, app_nil_r. split_and!; [lia | | done].
    apply (tracked_quiet c s); [by eapply disconnect_stuck | done].
Qed.

(** Two chains that differ only in what storage drops are represented alike. *)
Lemma represents_stored c c' s :
  represents c s -> Forall Block_wf c' -> map stored_block c = map stored_block c' -> represents c' s.
Proof.
  intros [H1 H2 H3 H4 H5 H6] Hw E. pose proof (f_equal length E) as El. rewrite !length_map in El.
  assert (forall x, chain_spends (map stored_block x) = chain_spends x) as Hsp
    by (induction x as [|b x IH]; [done | unfold chain_spends in *; cbn [map flat_map]; by rewrite IH]).
  constructor; rewrite <- ?El; [done | done | | | done | done].
  - rewrite H3. by rewrite <- (Hsp c), <- (Hsp c'), E.
  - intros i b Hi. assert (map stored_block c !! i = Some (stored_block b)) as Hc by (rewrite E, list_lookup_fmap, Hi; done).
    rewrite list_lookup_fmap in Hc. destruct (c !! i) as [b'|] eqn:Ei; [| done]. apply (inj Some) in Hc.
    rewrite (H4 i b' Ei). f_equal. change (serialize Block_codec b') with (serialize Block_codec (stored_block b')).
    change (serialize Block_codec b) with (serialize Block_codec (stored_block b)). by rewrite Hc.
Qed.

Lemma restored_chain c (k : nat) c3 n n' u :
  Forall Block_wf c -> tracked c3 (chain n) -> c3 = drop k c ->
  restore_disconnected_chain (accept 1 true) (map stored_block (take k c)) n = (n', Ok u) ->
  represents c (chain n') /\ returned n' = returned n.
Proof.
  intros Hw Ht -> Er. destruct (reconnect_all_inv _ _ _ _ _ _ Er) as (_ & Hret & _ & Htr). split; [| done].
  assert (tracked (map stored_block (take k c) ++ drop k c) (chain n')) as Ht'.
  { rewrite <- (rev_involutive (map stored_block (take k c))). apply Htr; [| done]. apply Forall_rev, Forall_fmap.
    eapply Forall_impl; [by apply Forall_take |]. intros x Hx. by apply stored_block_wf. }
  apply (represents_stored _ c _ (tr_represents _ _ Ht') Hw). rewrite map_app, map_map, <- map_app, take_drop. done.
Qed.

Abbreviation restored_msg := "Reorg failed; canonical chain restored"%string.

Lemma reorg_failure_restored (acc : Accept) (off : list Block) n n' :
  reorg_failure_after_restore acc off n = (n', Err (Rejected restored_msg)) -> exists u, restore_disconnected_chain acc off n = (n', Ok u).
Proof. unfold reorg_failure_after_restore. destruct (restore_disconnected_chain acc off n) as [n1 [u|[]]]; [by intros [= <-]; exists u | done..]. Qed.

(** When a reorganisation that had blocks to displace fails and reports that
    the canonical chain was restored, that is what happened: the node holds the
    same chain as before, block for block as stored, with the same spent
    nullifiers, and nothing was handed to the mempool. *)
Lemma restored_means_restored n0 n (pool : bool) (bs : list Block) (fork : Z) n' :
  fresh_node n0 -> rtc accept_step n0 n -> Forall Block_wf bs -> is_u64 fork -> fork < chain_height (chain n) ->
  activate_best_chain pool bs fork n = (n', Err (Rejected "Reorg failed; canonical chain restored")) ->
  exists c, valid_chain c /\ represents c (chain n) /\ represents c (chain n') /\ returned n' = returned n.
Proof.
  intros Hf Hrun Hw Hu Hfork Ha. destruct (good_accepted n0 n (fresh_good n0 Hf) Hrun) as [c Hc]. exists c.
  split; [apply (tr_valid _ _ Hc) |]. split; [apply (tr_represents _ _ Hc) |].
  pose proof (rep_wf _ _ (tr_represents _ _ Hc)) as Hwc. revert Ha. unfold activate_best_chain, activate_with.
  destruct (displaced_range_is_finalized _ _) as [[]|]; [done | | done].
  destruct (rollback_cumulative_commit fork (chain n)) as [s1 [[]|e]] eqn:Er.
  2: { revert Er. unfold rollback_cumulative_commit. destruct (supply_get _ _); [done | by intros [= <- <-]]. }
  pose proof (rollback_cumulative_ok _ _ _ _ Er) as Hq. pose proof (tracked_quiet c _ _ Hq Hc) as Hc1.
  assert (chain_height s1 = chain_height (chain n)) as Eh1 by (pose proof (quiet_chain _ _ Hq) as (_ & E & _)%chain_part_inv; exact E).
  destruct (disconnect_to fork s1) as [s2 [off | | off]] eqn:Ed; [| done |].
  - destruct (disconnect_down_off _ c s1 s2 off [] Hc1 Ed) as (_ & _ & Hk).
    destruct (disconnect_to_off fork c s1 s2 off Hu Hc1 Ed) as [Hc2 ->]. set (k := Z.to_nat (Z.of_nat (length c) - fork)) in *.
    assert (0 < k <= length c)%nat as Hk' by (unfold k, is_u in *; lia). clear Hk.
    pose proof (reconnect_all_progress 1 pool bs _ (with_chain s2 n) Hw Hc2) as Hp.
    destruct (reconnect_all (accept 1 true) pool bs (with_chain s2 n)) as [n3 [u|[]]] eqn:Ec; [done | | done..].
    destruct Hp as (Hret & connected & rest & -> & Ht3 & _ & _). destruct connected as [|b1 connected].
    + intros [u Eres]%reorg_failure_restored. cbn in Ht3.
      destruct (restored_chain c k _ n3 n' u Hwc Ht3 eq_refl Eres) as [H1 H2]. split; [done |]. rewrite H2, Hret. done.
    + destruct (restore_above c k _ n3 (tr_valid _ _ Hc) Hwc Hk' Ht3) as (n4 & -> & _); [| done].
      rewrite length_app, length_rev, length_drop. cbn [length]. lia.
  - intros [u Eres]%reorg_failure_restored. destruct (disconnect_down_stuck _ c s1 s2 off [] Hc1 Ed) as (k & Hk & Htk & ->).
    cbn [app] in Eres. by destruct (restored_chain c k _ (with_chain s2 n) n' u Hwc Htk eq_refl Eres) as [H1 H2].
Qed.

(** ** The lock *)

(** A reorganisation that meets a block whose parent is in the pool of competing
    blocks takes its own lock again and never returns, with the chain cut at
    the block before.  The parent is there whenever the node had seen the
    first block of the competing chain before it was handed the chain. *)
Lemma known_sibling_blocks_reorg (pool : bool) (connected rest : list Block) b (fork h : Z) n s1 s2 (off : list Block) n3 parent hash :
  displaced_range_is_finalized (chain n) fork = Ok false ->
  rollback_cumulative_commit fork (chain n) = (s1, Ok tt) -> disconnect_to fork s1 = (s2, AllOff off) ->
  reconnect_all (accept 1 true) pool connected (with_chain s2 n) = (n3, Ok tt) ->
  vm_ok (randomx_key (header b)) = true -> accept_checks (chain n3) b [] (randomx_key (header b)) (target (header b)) = Ok tt ->
  detect_reorg b (chain n3) = Ok (Heavier h parent) -> hash_block parent = Ok hash ->
  exists n', activate_best_chain pool (connected ++ b :: rest) fork n = (n', Err Blocked) /\ chain_part (chain n') = chain_part (chain n3).
Proof.
  intros Hfin Er Ed Ec Hvm Hchk Hheavy Hhash. unfold activate_best_chain, activate_with.
  rewrite Hfin, Er, Ed, (reconnect_all_app _ _ _ _ _ _ _ Ec). cbn [reconnect_all]. unfold reconnect. rewrite Hvm. cbn [negb].
  rewrite accept_round, Hchk, Hheavy, Hhash. cbn [activate_with]. by eexists.
Qed.
End reorgs.
