(* ===== verification/Undo.v ===== *)
(** * The undo record of a block

    [commit_executed] stores with every block the old value of each contract key
    the block touches; [disconnect_block] applies the record.  Together they
    give the contracts tree back, whatever the block wrote. *)

From Stdlib Require Import String.
From S2P Require Import Prelude F64 Units Emission Serial Externals Transaction Merkle Block Store Competing FeeEstimator.
From S2P Require Import Consensus NativeToken L1Contracts Nullifiers FeeWindow ContractRisk Supply Pedersen TokenContract TokenBalance.
From S2P Require Import Validation Finality DarkTree CoreTx ZkVerifier ChainState Overlay Executor Ledger Acceptor Accepted Reorgs.

(** ** The record against the overlay *)

Section undo.
Context `{OV : SledOverlay} `{OVL : !SledOverlayLaws}.

Lemma elem_of_undo (d : OverlayDiff) (k : bytes) (v : option bytes) :
  (k, v) ∈ undo_ops d <-> (exists x, diff_removed d !! k = Some x /\ v = Some x) \/ (exists p, diff_cache d !! k = Some p /\ v = p.1).
Proof.
  unfold undo_ops. rewrite elem_of_app, !list_elem_of_fmap. split.
  - intros [([k' x] & [= -> ->] & Hin%elem_of_map_to_list) | ([k' p] & [= -> ->] & Hin%elem_of_map_to_list)]; [left | right]; eauto.
  - intros [(x & Hk & ->) | (p & Hk & ->)]; [left | right]; eexists (k, _); (split; [| by apply elem_of_map_to_list]); done.
Qed.

Lemma undo_keys (d : OverlayDiff) : diff_removed d = ∅ -> NoDup (map fst (undo_ops d)).
Proof.
  intros Hd. unfold undo_ops. rewrite Hd, map_to_list_empty. cbn [map app]. rewrite map_map. apply NoDup_fst_map_to_list.
Qed.

Lemma undo_restores (t : Tree) (o : OverlayState) (d : OverlayDiff) :
  keeps_keys o -> overlay_diff t o = Some d -> apply_batch (undo_ops d) (overlay_view t o) = t.
Proof.
  intros Ho Ed. pose proof (overlay_diff_removed t o d Ed Ho) as Hr. pose proof (undo_keys d Hr) as Hk.
  apply map_eq. intros k. rewrite apply_batch_lookup by done. pose proof (overlay_diff_cache t o d k Ed) as Hc.
  destruct (list_to_map (M := gmap bytes (option bytes)) (undo_ops d) !! k) as [v|] eqn:Eu.
  - apply elem_of_list_to_map in Eu; [| done]. apply elem_of_undo in Eu as [(x & Hx & ->) | (p & Hp & ->)].
    + rewrite Hr in Hx. done.
    + rewrite Hp in Hc. destruct (ov_cache o !! k); [| done]. cbn in Hc. by injection Hc as ->.
  - rewrite overlay_view_lookup. destruct (ov_cache o !! k) as [v|] eqn:Ev; [| unfold keeps_keys in Ho; rewrite Ho; by rewrite decide_False by set_solver].
    exfalso. assert ((k, t !! k) ∈ undo_ops d) as Hin by (apply elem_of_undo; right; by exists (t !! k, v)).
    apply elem_of_list_to_map in Hin; [congruence | done].
Qed.
End undo.

(** ** Through the chain *)

(** The record is within what the decoder accepts: byte strings and a vector of
    bounded length. *)
Definition undo_wf : list (bytes * option bytes) -> Prop :=
  vec_wf (pair_codec 48 byte_vec_codec (option_codec 24 byte_vec_codec)) (pair_wf byte_vec_wf (option_wf byte_vec_wf)).

Section disconnect.
Context `{EXT : Externals} `{SIG : Signatures} `{INFO : ContractInfo} `{ENV : !NodeEnv} `{OPS : !CurveOps} `{CORE : !CoreEnv}.
Context `{OV : SledOverlay} `{EXEC : !Executor} `{ACC : !AcceptEnv} `{OVL : !SledOverlayLaws}.
Implicit Types (s : CChainState) (b : Block) (c : list Block) (n : Node) (us : list UncleBlock).

Lemma undo_roundtrip (ops : list (bytes * option bytes)) : undo_wf ops -> deserialize undo_codec (serialize undo_codec ops) = Ok ops.
Proof. intros Hw. unfold undo_codec. by apply (deserialize_serialize _ undo_wf). Qed.

Lemma commit_trees_contracts b us cb sb undo (co : PoWConsensus) (fw : option FeeWindowState) (st : LinearStore) :
  contracts (commit_trees b us cb sb undo co fw st) = apply_batch cb (contracts st) /\
  contracts_undo (commit_trees b us cb sb undo co fw st) =
    match undo with Some u => <[height_key (height (header b)) := u]> (contracts_undo st) | None => contracts_undo st end.
Proof. unfold commit_trees. by destruct (disk_block _ _ _). Qed.

Lemma extended_contracts b us (cb : Batch) sb (undo : bytes) s :
  contracts (store (extended b us (Some cb) sb (Some undo) s)) = apply_batch cb (contracts (store s)) /\
  contracts_undo (store (extended b us (Some cb) sb (Some undo) s)) !! height_key (height (header b)) = Some undo.
Proof.
  unfold extended, after_commit. destruct (memory_block _ _ _) as [coins [nulls spent]]. cbn [store with_store].
  match goal with |- context [commit_trees ?x1 ?x2 ?x3 ?x4 ?x5 ?x6 ?x7 ?x8] => destruct (commit_trees_contracts x1 x2 x3 x4 x5 x6 x7 x8) as [-> ->] end.
  rewrite lookup_insert_eq. split; [| done]. cbn [default]. f_equal.
  pose proof (proj1 (before_commit_part b (adjusted b s))) as E. exact (f_equal (fun p => contracts p.1.1.1.1) E).
Qed.

Lemma disconnect_contracts s s' (h : Z) u (raw : bytes) (ops : Batch) :
  contracts_undo (store s) !! height_key h = Some raw -> deserialize undo_codec raw = Ok ops ->
  disconnect_block h s = (s', Ok u) -> contracts (store s') = apply_batch ops (contracts (store s)).
Proof.
  intros Er Eo. unfold disconnect_block. destruct (chain_block s h); [| done]. destruct (negb _); [done |]. rewrite Er, Eo.
  destruct (rollback_cache _ _); [| done]. by intros [= <- _].
Qed.

End disconnect.
