(* ===== verification/AcceptExample.v ===== *)
(** * A node that accepts blocks and reorganises

    The toy chain of [ChainState] with an executor that writes the three
    cumulative values of the coinbase: a genesis block, a second one, a sibling
    of it and a third block on the sibling, which displaces the second.  The
    theorems on the acceptor are applied to this run. *)

From Stdlib Require Import String.
From S2P Require Import Prelude F64 Units Emission Serial Externals Transaction Merkle Block Store Competing FeeEstimator.
From S2P Require Import Consensus NativeToken L1Contracts Nullifiers FeeWindow ContractRisk Supply Pedersen TokenContract TokenBalance.
From S2P Require Import TokenExample Validation Finality DarkTree CoreTx ZkVerifier ChainState Overlay Executor Ledger Acceptor Accepted Reorgs Undo.

(** The coinbase of height [h] on the supply [prev], with its blind and nullifier. *)
Definition coinbase_call (h k : Z) : ContractCall :=
  let attrs := {|
    CommitmentAttributes.version := 0; CommitmentAttributes.public_key := elem 41;
    CommitmentAttributes.value := expected_reward h; CommitmentAttributes.asset_id := elem 0;
    CommitmentAttributes.spend_hook := elem 0; CommitmentAttributes.user_data := elem 0;
    CommitmentAttributes.blind := elem k |} in
  {| contract_id := NATIVE_TOKEN_CONTRACT_ID;
     data := call_bytes 0x05 (@PoWRewardParamsV1.enc toy {|
       PoWRewardParamsV1.input := {|
         ClearInput.value := expected_reward h; ClearInput.asset_id := elem 0; ClearInput.value_blind := elem k;
         ClearInput.token_blind := elem 0; ClearInput.signature_public := elem 53 |};
       PoWRewardParamsV1.total_pin := 0; PoWRewardParamsV1.effective_value := expected_reward h;
       PoWRewardParamsV1.commitment_attrs := attrs;
       PoWRewardParamsV1.output := {|
         Output.value_commit := value_of (expected_reward h) k; Output.token_commit := @native_token_commit toy;
         Output.commitment := @CommitmentAttributes.to_commitment toy attrs;
         Output.nullifier := None; Output.note := sample_note |};
       PoWRewardParamsV1.nullifier := elem k; PoWRewardParamsV1.expected_cumulative_supply := expected_reward h;
       PoWRewardParamsV1.old_cumulative_commit := @point_identity toy; PoWRewardParamsV1.old_cumulative_blind := elem 0;
       PoWRewardParamsV1.new_cumulative_commit := value_of (expected_reward h) k; PoWRewardParamsV1.tx_nonce := elem 64 |}) |}.

Definition minted_block (h ts k : Z) (prev : bytes) (txs : list Transaction) : Block :=
  let all := tx_of [coinbase_call h k] :: txs in {|
  header := {|
    version := 1; previous := prev; merkle_root := compute_merkle_root all; timestamp := ts;
    target := u32_max; nonce := 0; height := h; uncle_merkle_root := zero32;
    total_reward := expected_reward h; randomx_key := zero32; miner := elem 41; anchor_owner := zero32;
    commitment_merkle_root := zero32; nullifier_root := zero32; anchor_tx_id := zero32; caribina_anchor := None;
    anchor_monero_height := 0; anchor_monero_hash := zero32; finality_flags := 0;
    fee_window_flags := 0; pow_source := Native |};
  transactions := all |}.

(** An executor that writes the cumulative values of the coinbase. *)
#[export] Instance toy_executor : Executor | 100 := {|
  execute_block s b us key tgt :=
    (fresh_anchor_leaves,
     match pow_reward_params (transactions b), supply_get (supply_chain (store s)) (default 0 (BlockHeight.pred (height (header b)))) with
     | Some p, Ok prev =>
         let e := compute_next prev (Output.value_commit (PoWRewardParamsV1.output p))
                    (ClearInput.value_blind (PoWRewardParamsV1.input p)) (ClearInput.value (PoWRewardParamsV1.input p)) in
         let t := contracts (store s) in
         Some {| exec_overlay :=
                   overlay_insert t (supply_state_key TOTAL_SUPPLY) (serialize u64_codec (total_supply e))
                  (overlay_insert t (supply_state_key CUMULATIVE_VALUE_COMMIT) (serialize point_codec (value_commit e))
                  (overlay_insert t (supply_state_key CUMULATIVE_BLIND) (serialize scalar_codec (blind e)) overlay_empty));
                 exec_gas := 0 |}
     | _, _ => None
     end)
|}.

(** No genesis hash is pinned: the file holds zeros. *)
#[export] Instance toy_accept : AcceptEnv | 100 := {|
  genesis_hash_txt := repeat 48 64;
  verify_monero_powdata _ _ _ := Err RandomXError
|}.

Definition start : Node := {| chain := toy_node; estimator := None; returned := [] |}.

Definition run_genesis : Block := minted_block 1 1000 101 zero32 [].
Definition run_second : Block := minted_block 2 1120 102 (toy_hash run_genesis) [].
Definition run_sibling : Block := minted_block 2 1120 103 (toy_hash run_genesis) [].
Definition run_third : Block := minted_block 3 1240 104 (toy_hash run_sibling) [].

Definition deliver (b : Block) (n : Node) : Node * ARes BlockConnectOutcome :=
  accept_block_with_mempool true b [] (randomx_key (header b)) (target (header b)) n.

Definition at_genesis : Node := (deliver run_genesis start).1.
Definition at_second : Node := (deliver run_second at_genesis).1.
Definition at_sibling : Node := (deliver run_sibling at_second).1.
Definition at_third : Node := (deliver run_third at_sibling).1.

Lemma minted_block_wf (h ts k : Z) (prev : bytes) (txs : list Transaction) :
  is_u64 h -> is_u64 ts -> is_u64 (expected_reward h) -> bytes_wf 32 prev ->
  bytes_wf 32 (compute_merkle_root (tx_of [coinbase_call h k] :: txs)) ->
  vec_wf Transaction_codec Transaction_wf (tx_of [coinbase_call h k] :: txs) -> Block_wf (minted_block h ts k prev txs).
Proof.
  intros. pose proof zero32_wf. assert (bytes_wf 32 (elem 41)) by concrete_bytes. split; [| done]. unfold BlockHeader_wf.
  cbn [minted_block header version previous merkle_root
    timestamp target nonce height uncle_merkle_root total_reward randomx_key miner anchor_owner commitment_merkle_root
    nullifier_root anchor_tx_id caribina_anchor anchor_monero_height anchor_monero_hash finality_flags pow_source].
  assert (is_u32 0 /\ is_u64 0 /\ is_byte 1 /\ is_byte 0 /\ is_u32 u32_max) as (? & ? & ? & ? & ?) by (unfold is_u, is_byte, u32_max, umax; lia).
  by split_and!.
Qed.

Ltac minted_wf :=
  apply minted_block_wf;
  [ split; vm_compute; discriminate || reflexivity .. | apply toy_hash_wf || exact zero32_wf | concrete_bytes
  | apply (wf_of_roundtrip (vec_codec Transaction_codec) (vec_wf Transaction_codec Transaction_wf)); vm_compute; reflexivity ].

Lemma run_genesis_wf : Block_wf run_genesis.
Proof. minted_wf. Qed.
Lemma run_second_wf : Block_wf run_second.
Proof. minted_wf. Qed.
Lemma run_sibling_wf : Block_wf run_sibling.
Proof. minted_wf. Qed.
Lemma run_third_wf : Block_wf run_third.
Proof. minted_wf. Qed.
#[local] Hint Resolve run_genesis_wf run_second_wf run_sibling_wf run_third_wf : core.

Lemma start_fresh : fresh_node start.
Proof. split; [exact toy_pristine | reflexivity]. Qed.

Lemma delivered (b : Block) (n : Node) : rtc accept_step start n -> Block_wf b -> rtc accept_step start (deliver b n).1.
Proof. intros Hr Hw. eapply rtc_r; [exact Hr |]. exact (deliver_block n true b [] (randomx_key (header b)) (target (header b)) Hw). Qed.

Lemma reach_genesis : rtc accept_step start at_genesis.
Proof. exact (delivered run_genesis start (rtc_refl _ start) run_genesis_wf). Qed.
Lemma reach_second : rtc accept_step start at_second.
Proof. exact (delivered run_second at_genesis reach_genesis run_second_wf). Qed.
Lemma reach_sibling : rtc accept_step start at_sibling.
Proof. exact (delivered run_sibling at_second reach_second run_sibling_wf). Qed.
Lemma reach_third : rtc accept_step start at_third.
Proof. exact (delivered run_third at_sibling reach_sibling run_third_wf). Qed.

(** The third block displaced the second one. *)
Example outcomes :
  (deliver run_genesis start).2 = Ok (CanonicalExtension 1) /\ (deliver run_second at_genesis).2 = Ok (CanonicalExtension 2) /\
  (deliver run_sibling at_second).2 = Ok CompetingStored /\ (deliver run_third at_sibling).2 = Ok (CanonicalExtension 3).
Proof. vm_compute. split_and!; reflexivity. Qed.

Lemma accepted_blocks_checked_witness :
  exists c, valid_chain c /\ represents c (chain at_third) /\
    Forall (fun b => exists us, validate_block_structure b = Ok tt /\ verify_proof_of_token_balance b = Ok tt /\
                       check_rewards b us = Ok tt) c.
Proof. exact (accepted_blocks_checked start at_third start_fresh reach_third). Defined.

(** A height with a block is within the chain. *)
Lemma stored_within (c : list Block) (s : CChainState) (k : nat) :
  represents c s -> is_u64 (Z.of_nat k) -> bool_decide (is_Some (blocks (store s) !! height_key (Z.of_nat k))) = true -> (k <= length c)%nat.
Proof.
  intros Hr Hu [v Hv]%bool_decide_eq_true. destruct (decide (k <= length c)%nat) as [Hk | Hk]; [done |]. exfalso.
  rewrite (rep_none c s Hr (Z.of_nat k) Hu) in Hv; [done | right; lia].
Qed.

Lemma accepted_supply_exact_witness :
  exists e, supply_get (supply_chain (store (chain at_third))) 3 = Ok e /\ total_supply e = expected_cumulative_supply 3.
Proof.
  destruct (accepted_supply_exact start at_third start_fresh reach_third) as (c & Hr & H).
  assert (3 <= length c)%nat as Hk.
  { apply (stored_within c (chain at_third) 3 Hr); [split; discriminate || reflexivity | vm_compute; reflexivity]. }
  destruct (H 3%nat Hk) as (e & E1 & _ & E2). exists e. split; [exact E1 | exact E2].
Defined.

Lemma acceptance_terminates_witness :
  (accept 7 false true run_third [] zero32 u32_max at_sibling).2 <> Err Exhausted.
Proof. exact (proj2 (acceptance_terminates start at_sibling 5 false true run_third [] zero32 u32_max start_fresh reach_sibling)). Defined.

(** *** Reorganisations by hand *)

Lemma u64_one : is_u64 1.
Proof. unfold is_u. lia. Qed.

Lemma pair_result {A B E : Type} (p : A * result E B) (r : result E B) : p.2 = r -> p = (p.1, r).
Proof. destruct p. cbn. by intros ->. Qed.

Definition reorganised : Node * ARes unit := activate_best_chain true [run_sibling; run_third] 1 at_second.

Lemma reorganised_ok : activate_best_chain true [run_sibling; run_third] 1 at_second = (reorganised.1, Ok tt).
Proof. unfold reorganised. apply pair_result. vm_compute. reflexivity. Qed.

Lemma adopted_blocks_have_no_uncles_witness :
  Forall (fun b => uncle_merkle_root (header b) = zero32) [run_sibling; run_third].
Proof.
  exact (adopted_blocks_have_no_uncles true [run_sibling; run_third] 1 at_second reorganised.1 tt (or_introl reorganised_ok)).
Defined.

Lemma reorg_replaces_chain_witness :
  exists kept displaced, represents (displaced ++ kept) (chain at_second) /\
    represents ([run_third; run_sibling] ++ kept) (chain reorganised.1) /\ valid_chain ([run_third; run_sibling] ++ kept).
Proof.
  destruct (reorg_replaces_chain start at_second true [run_sibling; run_third] 1 reorganised.1 tt start_fresh reach_second)
    as (kept & displaced & H1 & _ & _ & H2 & H3 & _).
  - constructor; [exact run_sibling_wf | constructor; [exact run_third_wf | constructor]].
  - exact u64_one.
  - exact reorganised_ok.
  - exists kept, displaced. split; [exact H1 |]. split; [exact H2 | exact H3].
Defined.

(** A third block with another parent. *)
Definition bad_third : Block := minted_block 3 1240 105 zero32 [].
Definition bad_sibling : Block := minted_block 2 1120 106 zero32 [].

Lemma bad_third_wf : Block_wf bad_third.
Proof. minted_wf. Qed.
Lemma bad_sibling_wf : Block_wf bad_sibling.
Proof. minted_wf. Qed.

Definition rolled_back : CChainState := (rollback_cumulative_commit 1 (chain at_second)).1.
Definition forked : CChainState := (disconnect_to 1 rolled_back).1.
Definition off_tip : list Block := taken_off (disconnect_to 1 rolled_back).2.
Definition on_sibling : Node := (reconnect_all (accept 1 true) true [run_sibling] (with_chain forked at_second)).1.
Definition after_bad : Node := (reconnect (accept 1 true) true bad_third on_sibling).1.

Lemma bad_third_refused : exists st, (reconnect (accept 1 true) true bad_third on_sibling).2 = Err (Rejected st).
Proof. eexists. vm_compute. reflexivity. Qed.

Lemma partial_reorg_truncates_witness :
  exists n' c, activate_best_chain true [run_sibling; bad_third] 1 at_second
      = (n', Err (Rejected "Reorg failed AND rollback failed - chain truncated")) /\
    represents c (chain at_second) /\ represents (run_sibling :: drop (length off_tip) c) (chain n').
Proof.
  destruct bad_third_refused as [st Est].
  apply (partial_reorg_truncates start at_second true run_sibling bad_third [] [] 1 rolled_back forked off_tip on_sibling after_bad st
    start_fresh reach_second).
  - constructor; [exact run_sibling_wf | constructor; [exact bad_third_wf | constructor]].
  - exact u64_one.
  - vm_compute. reflexivity.
  - unfold rolled_back. apply pair_result. vm_compute. reflexivity.
  - assert (match (disconnect_to 1 rolled_back).2 with AllOff _ => true | _ => false end = true) as E by (vm_compute; reflexivity).
    unfold forked, off_tip. destruct (disconnect_to 1 rolled_back) as [s [bs | | bs]]; [reflexivity | discriminate E | discriminate E].
  - assert (length off_tip = 1%nat) as E by (vm_compute; reflexivity). intros E0. rewrite E0 in E. discriminate E.
  - unfold on_sibling. apply pair_result. vm_compute. reflexivity.
  - unfold after_bad. apply pair_result. exact Est.
Defined.

Definition failed : Node * ARes unit := activate_best_chain true [bad_sibling] 1 at_second.

Lemma restored_means_restored_witness :
  exists c, valid_chain c /\ represents c (chain at_second) /\ represents c (chain failed.1) /\ returned failed.1 = returned at_second.
Proof.
  apply (restored_means_restored start at_second true [bad_sibling] 1 failed.1 start_fresh reach_second).
  - constructor; [exact bad_sibling_wf | constructor].
  - exact u64_one.
  - vm_compute. reflexivity.
  - unfold failed. apply pair_result. vm_compute. reflexivity.
Defined.

(** *** The undo record of the second block *)

#[export] Instance toy_executor_ok : ExecutorOk.
Proof.
  constructor. intros s b us key tgt leaves ex. cbn [execute_block toy_executor].
  destruct (pow_reward_params _); [| done]. destruct (supply_get _ _); [| done]. intros [= _ <-]. cbn [exec_overlay].
  by repeat apply insert_keeps_keys.
Qed.

Definition second_exec : Executed :=
  match (execute_block (chain at_genesis) run_second [] zero32 u32_max).2 with
  | Some ex => ex
  | None => {| exec_overlay := overlay_empty; exec_gas := 0 |}
  end.

Definition second_undo : list (bytes * option bytes) :=
  match overlay_diff (contracts (store (chain at_genesis))) (exec_overlay second_exec) with Some d => undo_ops d | None => [] end.

(** Records of a few short strings. *)
Definition short_bytes (l : bytes) : bool := forallb is_byteb l && (length l <=? 1000)%nat.

Lemma short_bytes_wf (l : bytes) : short_bytes l = true -> byte_vec_wf l.
Proof.
  intros [Hb Hl%Nat.leb_le]%andb_true_iff. split; [by apply forallb_is_byte |]. unfold vec_fits, MAX_VEC_BYTES. cbn [size_of u8_codec]. lia.
Qed.

Lemma short_undo_wf (ops : list (bytes * option bytes)) :
  forallb (fun kv => short_bytes kv.1 && from_option short_bytes true kv.2) ops && (length ops <=? 1000)%nat = true -> undo_wf ops.
Proof.
  intros [Hb Hl%Nat.leb_le]%andb_true_iff. split; [| unfold vec_fits, MAX_VEC_BYTES; cbn [size_of pair_codec mk_codec]; lia].
  apply Forall_forall. intros [k v] Hin. rewrite forallb_forall in Hb. apply list_elem_of_In, Hb in Hin. apply andb_true_iff in Hin as [H1 H2].
  split; [by apply short_bytes_wf |]. destruct v; [by apply short_bytes_wf | done].
Qed.

Lemma second_undo_wf : undo_wf second_undo.
Proof. apply short_undo_wf. vm_compute. reflexivity. Qed.

Definition second_done : Node * ARes BlockConnectOutcome := execute_and_commit run_second [] zero32 u32_max at_genesis.

