(* ===== verification/SyncWire.v ===== *)
(** * The wire of the sync rail ([sync_types.rs], [sync_connection.rs])

    Lengths travel as varints, messages as frames: magic bytes, a command name
    and a payload, both with their length in front.  The payloads are JSON, which
    a crate encodes; only the frame is modelled.  A reader is a function on the
    bytes that have arrived: it fails with [UnexpectedEof] when it needs more. *)

From Stdlib Require Import String.
From S2P Require Import Prelude Units Serial Externals Transaction Block Store.

Inductive WireError := UnexpectedEof | InvalidData (what : string).

Abbreviation WRes := (result WireError).

(** ** Varints *)

(** Seven bits at a time, least significant first; a [usize] needs ten rounds at most. *)
Fixpoint varint_encode_loop (rounds : nat) (value : Z) : bytes :=
  match rounds with
  | O => []
  | S rounds' =>
      let byte := Z.land value 0x7f in
      let value' := Z.shiftr value 7 in
      if value' =? 0 then [byte] else Z.lor byte 0x80 :: varint_encode_loop rounds' value'
  end.

Definition varint_encode (value : Z) : bytes := varint_encode_loop 10 value.

Fixpoint varint_decode_loop (result shift : Z) (bs : bytes) : WRes (Z * bytes) :=
  match bs with
  | [] => Err UnexpectedEof
  | byte :: rest =>
      if 64 <=? shift then Err (InvalidData "varint too long")
      else
        let result' := Z.lor result (wrap 64 (Z.shiftl (Z.land byte 0x7f) shift)) in
        if Z.land byte 0x80 =? 0 then Ok (result', rest) else varint_decode_loop result' (shift + 7) rest
  end.

Definition varint_decode (bs : bytes) : WRes (Z * bytes) := varint_decode_loop 0 0 bs.

(** ** Frames *)

Definition MAX_FRAME_PAYLOAD : Z := 32 * 1024 * 1024.

Definition wire_read (n : Z) (bs : bytes) : WRes (bytes * bytes) :=
  if Z.of_nat (length bs) <? n then Err UnexpectedEof else Ok (take (Z.to_nat n) bs, drop (Z.to_nat n) bs).

Definition write_json_frame (magic command payload : bytes) : bytes :=
  magic ++ varint_encode (Z.of_nat (length command)) ++ command ++ varint_encode (Z.of_nat (length payload)) ++ payload.

Definition read_frame (magic bs : bytes) : WRes (bytes * bytes * bytes) :=
  let? (got, bs) := wire_read 4 bs in
  if negb (bool_decide (got = magic)) then Err (InvalidData "magic bytes mismatch")
  else
    let? (cmd_len, bs) := varint_decode bs in
    if 255 <? cmd_len then Err (InvalidData "command too long")
    else
      let? (cmd, bs) := wire_read cmd_len bs in
      if negb (utf8_valid cmd) then Err (InvalidData "command is not UTF-8")
      else
        let? (payload_len, bs) := varint_decode bs in
        if MAX_FRAME_PAYLOAD <? payload_len then Err (InvalidData "payload too large")
        else
          let? (payload, bs) := wire_read payload_len bs in
          Ok (cmd, payload, bs).

(** ** What is written is read back *)

Lemma low_bits (v : Z) : Z.land v 0x7f = v mod 128.
Proof. exact (Z.land_ones v 7 ltac:(lia)). Qed.

Lemma high_bit_set (b : Z) : 0 <= b < 128 -> Z.lor b 0x80 = b + 128.
Proof. intros Hb. pose proof (lor_shiftl_add b 1 7 ltac:(lia)) as H. change (Z.shiftl 1 7) with 128 in H. change (2 ^ 7) with 128 in H. lia. Qed.

Lemma high_bit (b : Z) : 0 <= b < 256 -> Z.land b 0x80 = if b <? 128 then 0 else 128.
Proof.
  intros Hb. destruct (Z.ltb_spec b 128).
  - apply Z.bits_inj'. intros i Hi. rewrite Z.land_spec, Z.bits_0. change 0x80 with (2 ^ 7). rewrite Z.pow2_bits_eqb by lia.
    destruct (Z.eqb_spec 7 i) as [<- |]; [| by rewrite andb_false_r]. rewrite andb_true_r. apply Z.bits_above_log2; [lia |].
    destruct (decide (b = 0)) as [-> | ]; [done |]. apply Z.log2_lt_pow2; lia.
  - replace b with (b - 128 + 128) by lia. rewrite <- high_bit_set by lia. apply Z.bits_inj'. intros i Hi.
    change 0x80 with (2 ^ 7). rewrite Z.land_spec, Z.lor_spec. destruct (Z.testbit (2 ^ 7) i); by rewrite ?orb_true_r, ?andb_false_r.
Qed.

Lemma varint_loop_roundtrip (rounds : nat) (result shift v : Z) (rest : bytes) :
  0 <= v < 2 ^ (7 * Z.of_nat rounds) -> (0 < rounds)%nat -> 0 <= shift -> v * 2 ^ shift < 2 ^ 64 -> 0 <= result < 2 ^ shift -> shift < 64 ->
  varint_decode_loop result shift (varint_encode_loop rounds v ++ rest) = Ok (result + v * 2 ^ shift, rest).
Proof.
  revert result shift v. induction rounds as [|rounds IH]; intros result shift v Hv Hr Hs Hf Hres H64; [lia |]. cbn [varint_encode_loop].
  rewrite low_bits, Z.shiftr_div_pow2 by lia. change (2 ^ 7) with 128. pose proof (Z.mod_pos_bound v 128 ltac:(lia)) as Hm.
  pose proof (Z.div_mod v 128 ltac:(lia)) as Hdm. assert (0 < 2 ^ shift) as Hp by (apply Z.pow_pos_nonneg; lia).
  assert ((v mod 128) * 2 ^ shift < 2 ^ 64) as Hw
    by (eapply Z.le_lt_trans; [apply (Z.mul_le_mono_nonneg_r _ v); [lia | apply Z.mod_le; lia] | done]).
  assert (forall b, Z.land b 0x7f = v mod 128 -> Z.lor result (wrap 64 (Z.shiftl (Z.land b 0x7f) shift)) = result + (v mod 128) * 2 ^ shift) as Hstep.
  { intros b ->. rewrite wrap_small; [by rewrite lor_shiftl_add by lia |]. unfold is_u. rewrite Z.shiftl_mul_pow2 by lia. nia. }
  destruct (Z.eqb_spec (v / 128) 0) as [E | E].
  - cbn [app varint_decode_loop]. rewrite (proj2 (Z.leb_gt _ _)) by lia. rewrite Hstep by (rewrite low_bits; apply Z.mod_small; lia).
    rewrite high_bit by lia. rewrite (proj2 (Z.ltb_lt _ _)) by lia. rewrite Z.eqb_refl. repeat f_equal. lia.
  - assert (0 < v / 128) by (pose proof (Z.div_pos v 128); lia). cbn [app varint_decode_loop]. rewrite (proj2 (Z.leb_gt _ _)) by lia.
    rewrite high_bit_set by lia. rewrite Hstep.
    2:{ rewrite low_bits. replace (v mod 128 + 128) with (v mod 128 + 1 * 128) by lia. rewrite Z.mod_add by lia. apply Z.mod_small. lia. }
    rewrite high_bit by lia. rewrite (proj2 (Z.ltb_ge _ _)) by lia. change (128 =? 0) with false. cbv iota.
    assert (2 ^ (shift + 7) = 128 * 2 ^ shift) as E7 by (rewrite Z.pow_add_r by lia; lia).
    assert (shift + 7 < 64) as Hs7.
    { destruct (decide (shift + 7 < 64)); [done |]. exfalso. assert (2 ^ 57 <= 2 ^ shift) by (apply Z.pow_le_mono_r; lia). nia. }
    destruct rounds as [|rounds].
    { exfalso. cbn in Hv. assert (v / 128 = 0) by (apply Z.div_small; lia). lia. }
    rewrite IH; [rewrite E7; replace (result + v mod 128 * 2 ^ shift + v / 128 * (128 * 2 ^ shift)) with (result + v * 2 ^ shift) by nia; done | | lia | lia | rewrite E7; nia | rewrite E7; nia | done].
    split; [lia |]. apply Z.div_lt_upper_bound; [lia |]. replace (128 * 2 ^ (7 * Z.of_nat (S rounds))) with (2 ^ (7 * Z.of_nat (S (S rounds)))); [lia |].
    replace (7 * Z.of_nat (S (S rounds))) with (7 + 7 * Z.of_nat (S rounds)) by lia. by rewrite Z.pow_add_r by lia.
Qed.

Lemma varint_roundtrip (v : Z) (rest : bytes) : is_u64 v -> varint_decode (varint_encode v ++ rest) = Ok (v, rest).
Proof.
  intros [H0 H1]. unfold varint_decode, varint_encode. rewrite varint_loop_roundtrip; [repeat f_equal; lia | | lia | lia | lia | lia | lia].
  split; [done |]. eapply Z.lt_trans; [exact H1 |]. done.
Qed.

Lemma wire_read_app (a rest : bytes) : wire_read (Z.of_nat (length a)) (a ++ rest) = Ok (a, rest).
Proof.
  unfold wire_read. rewrite length_app, (proj2 (Z.ltb_ge _ _)) by lia. rewrite Nat2Z.id. by rewrite take_app_length, drop_app_length.
Qed.

(** A frame is read back as it was written, whatever follows it, and a frame
    is refused before its payload is read when the magic bytes are those of
    another network or the announced length is over the limit. *)
Theorem frame_roundtrip (magic command payload rest : bytes) :
  length magic = 4%nat -> Z.of_nat (length command) <= 255 -> utf8_valid command = true ->
  Z.of_nat (length payload) <= MAX_FRAME_PAYLOAD ->
  read_frame magic (write_json_frame magic command payload ++ rest) = Ok (command, payload, rest) /\
  (forall magic', length magic' = 4%nat -> magic' <> magic ->
     read_frame magic' (write_json_frame magic command payload ++ rest) = Err (InvalidData "magic bytes mismatch")) /\
  (forall len tail, is_u64 len -> MAX_FRAME_PAYLOAD < len ->
     read_frame magic (magic ++ varint_encode (Z.of_nat (length command)) ++ command ++ varint_encode len ++ tail) =
       Err (InvalidData "payload too large")).
Proof.
  intros Hm Hc Hu Hp. assert (forall m' bs, length m' = 4%nat -> wire_read 4 (m' ++ bs) = Ok (m', bs)) as H4
    by (intros m' bs E; change 4 with (Z.of_nat 4); rewrite <- E; apply wire_read_app).
  assert (is_u64 (Z.of_nat (length command))) as Uc by (unfold is_u; lia).
  assert (is_u64 (Z.of_nat (length payload))) as Up by (unfold is_u, MAX_FRAME_PAYLOAD in *; lia).
  unfold read_frame, write_json_frame. split_and!.
  - rewrite <- !app_assoc, H4 by done. rewrite bool_decide_true by done. cbn [negb]; cbv iota. rewrite varint_roundtrip by done. cbv beta iota.
    rewrite (proj2 (Z.ltb_ge _ _)) by lia. rewrite wire_read_app. cbv beta iota. rewrite Hu. cbn [negb]; cbv iota. rewrite varint_roundtrip by done. cbv beta iota.
    rewrite (proj2 (Z.ltb_ge _ _)) by lia. by rewrite wire_read_app.
  - intros magic' Hl Hne. rewrite <- !app_assoc, H4 by done. cbv beta iota. by rewrite bool_decide_false by congruence.
  - intros len tail Ul Hlen. rewrite H4 by done. cbv beta iota. rewrite bool_decide_true by done. cbn [negb]; cbv iota. rewrite varint_roundtrip by done. cbv beta iota.
    rewrite (proj2 (Z.ltb_ge _ _)) by lia. rewrite wire_read_app. cbv beta iota. rewrite Hu. cbn [negb]; cbv iota. rewrite varint_roundtrip by done. cbv beta iota.
    by rewrite (proj2 (Z.ltb_lt _ _)) by lia.
Qed.

Lemma frame_roundtrip_witness :
  read_frame [1; 2; 3; 4] (write_json_frame [1; 2; 3; 4] [108; 105; 110] [7; 8] ++ [9]) = Ok ([108; 105; 110], [7; 8], [9]).
Proof.
  refine (proj1 (frame_roundtrip [1; 2; 3; 4] [108; 105; 110] [7; 8] [9] eq_refl _ eq_refl _)); unfold MAX_FRAME_PAYLOAD; cbn [length]; lia.
Defined.
