(* ===== verification/Sync.v ===== *)
(** * Synchronisation ([consensus_linear.rs], [linear_sync_client.rs], [sync_boundary.rs], [sync_connection.rs])

    A node serves its tip and its blocks to its peers and, every thirty seconds,
    makes a pass over the peers it can dial: it asks for their tips, keeps the
    ones on its own genesis, and pulls the blocks it lacks through the acceptor.
    A block that does not connect makes it walk back on the peer's chain to the
    common ancestor and, when the peer's chain carries more work, switch to it.

    The network is a parameter: whether a dial succeeds and what a peer answers,
    by the number of the request, so that a peer may answer as it likes each
    time.  Encodings are in [SyncWire]; waiting, logging and the metrics are left
    out. *)

From Stdlib Require Import String.
From S2P Require Import Prelude F64 Units Emission Serial Externals Transaction Merkle Block Store Competing FeeEstimator.
From S2P Require Import Consensus NativeToken L1Contracts Nullifiers FeeWindow ContractRisk Supply Pedersen TokenContract TokenBalance.
From S2P Require Import Validation Finality DarkTree CoreTx ZkVerifier ChainState Overlay Executor Acceptor.

(** ** Messages *)

Record Tip := { tip_height : Z; tip_block : bytes; tip_genesis : option bytes }.

Record SyncHello := { hello_major : Z; hello_minor : Z; hello_genesis : option bytes }.

Definition SYNC_PROTOCOL_VERSION : Z * Z := (1, 0).
Definition LINEAR_SYNC_BATCH : Z := 20.
Definition MAX_BATCH_BYTES : Z := 12 * 1024 * 1024.

(** [PeerTip]: a tip that passed the checks of the boundary. *)
Record PeerTip := { peer_height : Z; peer_hash : bytes; peer_genesis : option bytes }.

Definition PeerTip_from_tip (t : Tip) : option PeerTip :=
  if tip_height t =? umax 64 then None
  else
    let hash := if BlockHeight.is_zero (tip_height t) && bool_decide (tip_block t = zero32) then zero32 else tip_block t in
    if negb (BlockHeight.is_zero (tip_height t)) && bool_decide (tip_genesis t = None) then None
    else Some {| peer_height := tip_height t; peer_hash := hash; peer_genesis := tip_genesis t |}.

(** ** The genesis filter *)

Inductive GenesisFilterMode := Off | Relaxed | Strict.

#[export] Instance GenesisFilterMode_eq_dec : EqDecision GenesisFilterMode.
Proof. solve_decision. Defined.

(** The order of [Option<BlockHash>]. *)
Definition genesis_le (a b : option bytes) : bool :=
  match a, b with None, _ => true | Some _, None => false | Some x, Some y => lex_le x y end.

(** The votes as the ordered map holds them: one entry per genesis, ascending. *)
Fixpoint cast_vote (g : option bytes) (votes : list (option bytes * Z)) : list (option bytes * Z) :=
  match votes with
  | [] => [(g, 1)]
  | (g', n) :: rest =>
      if bool_decide (g = g') then (g', n + 1) :: rest
      else if genesis_le g g' then (g, 1) :: votes
      else (g', n) :: cast_vote g rest
  end.

(** The key of [max_by_key]: the count, then a genesis over none. *)
Definition vote_le (a b : option bytes * Z) : bool :=
  (a.2 <? b.2) || ((a.2 =? b.2) && implb (bool_decide (is_Some a.1)) (bool_decide (is_Some b.1))).

(** [max_by_key] keeps the last of the greatest. *)
Definition top_vote (votes : list (option bytes * Z)) : option (option bytes * Z) :=
  foldl (fun best v => match best with None => Some v | Some b => if vote_le b v then Some v else Some b end) None votes.

Fixpoint indices_from {A : Type} (i : nat) (p : A -> bool) (l : list A) : list nat :=
  match l with [] => [] | x :: rest => if p x then i :: indices_from (S i) p rest else indices_from (S i) p rest end.

Definition indices_where {A : Type} (p : A -> bool) (l : list A) : list nat := indices_from 0 p l.

Definition apply_genesis_filter (our_genesis : option bytes) (tips : list PeerTip) (mode : GenesisFilterMode) : list nat :=
  if bool_decide (mode = Off) then seq 0 (length tips)
  else match our_genesis with
  | Some ours =>
      let filtered := indices_where (fun t => bool_decide (peer_genesis t = Some ours)) tips in
      if bool_decide (mode = Relaxed) && bool_decide (filtered = []) then seq 0 (length tips) else filtered
  | None =>
      match top_vote (foldl (fun vs t => cast_vote (peer_genesis t) vs) [] tips) with
      | None => []
      | Some (winner, _) => indices_where (fun t => bool_decide (peer_genesis t = winner)) tips
      end
  end.

(** ** Scores *)

Definition MISBEHAVIOUR_LIMIT : Z := 1.

Definition Scores : Type := gmap bytes Z.

Definition penalise_score (url : bytes) (s : Scores) : Scores := <[url := saturating_add 32 (default 0 (s !! url)) 1]> s.

Definition is_banned (url : bytes) (s : Scores) : bool :=
  match s !! url with Some n => MISBEHAVIOUR_LIMIT <=? n | None => false end.

(** ** Discovery *)

(** What the node knows of a connection: the bits of its session, the host, the
    application of the handshake and the address of its sync listener. *)
Record Channel := { ch_session : Z; ch_host : option bytes; ch_app : option bytes; ch_sync_url : bytes }.

Definition SESSION_DEFAULT : Z := 39. (* 0b100111 *)
Definition DOCKER_GATEWAY_ADDR : bytes := ascii_key "172.18.0.1".
Definition WALLET_APP_NAME : bytes := ascii_key "dwow_wallet".
Definition MAX_SYNC_PEERS : nat := 8.

Definition is_sync_source (c : Channel) : bool :=
  negb (Z.land (ch_session c) SESSION_DEFAULT =? 0) && negb (bool_decide (ch_host c = Some DOCKER_GATEWAY_ADDR)) &&
  negb (bool_decide (ch_app c = Some WALLET_APP_NAME)).

Definition filtered_peers (cs : list Channel) : list Channel := List.filter is_sync_source cs.
Definition has_full_node_peers (cs : list Channel) : bool := existsb is_sync_source cs.

(** The network: what happens to the request with a given number, and the time
    the clock of the node shows then. *)
Record Network `{EXT : Externals} := {
  net_dial : nat -> bytes -> bool;
  net_tip : nat -> bytes -> option Tip;
  net_blocks : nat -> bytes -> Z -> Z -> option (list Block);
  net_now : nat -> Z
}.

Section sync.
Context `{EXT : Externals} `{SIG : Signatures} `{INFO : ContractInfo} `{ENV : !NodeEnv} `{OPS : !CurveOps} `{CORE : !CoreEnv}.
Context `{OV : SledOverlay} `{EXEC : !Executor} `{ACC : !AcceptEnv}.

(** ** Serving *)

(** [genesis_hash]: the cached value is that of the stored block. *)
Definition genesis_hash (s : CChainState) : option bytes :=
  match get_block (store s) BlockHeight.GENESIS with
  | Ok b => match hash_block b with Ok h => Some h | Err _ => None end
  | Err _ => None
  end.

(** The answer to [Hello]; [None] is a message that does not parse. *)
Definition handshake_ok (s : CChainState) (hello : option SyncHello) : bool :=
  match hello with
  | None => false
  | Some h =>
      bool_decide ((hello_major h, hello_minor h) = SYNC_PROTOCOL_VERSION) &&
      match genesis_hash s, hello_genesis h with Some ours, Some theirs => bool_decide (ours = theirs) | _, _ => true end
  end.

Definition serve_tip (s : CChainState) : CChainState * Tip :=
  let '(s1, t) := tip_hash s in
  let '(h, hash) := match t with Some (h, hash) => (h, hash) | None => (chain_height s1, zero32) end in
  (s1, {| tip_height := h; tip_block := hash; tip_genesis := genesis_hash s1 |}).

(** The size of a block in JSON is a parameter; [None] is a block that cannot be encoded. *)
Fixpoint batch_blocks (json_len : Block -> option Z) (s : CChainState) (count : nat) (h used : Z) (acc : list Block) : list Block :=
  match count with
  | O => acc
  | S count' =>
      match get_block (store s) h with
      | Err _ => acc
      | Ok b =>
          let sz := default (MAX_BATCH_BYTES + 1) (json_len b) in
          if negb (bool_decide (acc = [])) && (MAX_BATCH_BYTES <? used + sz) then acc
          else batch_blocks json_len s count' (BlockHeight.succ h) (used + sz) (acc ++ [b])
      end
  end.

Definition serve_blocks (json_len : Block -> option Z) (s : CChainState) (start count : Z) : list Block :=
  let n := if start =? BlockHeight.GENESIS then 1 else Z.min count LINEAR_SYNC_BATCH in
  batch_blocks json_len s (Z.to_nat n) start 0 [].

(** ** The state of a pass *)

(** The node, the number of the next request and the scores. *)
Record SyncNode := { sy_node : Node; sy_clock : nat; sy_scores : Scores }.

Definition tick (st : SyncNode) : SyncNode := {| sy_node := sy_node st; sy_clock := S (sy_clock st); sy_scores := sy_scores st |}.
Definition with_node (n : Node) (st : SyncNode) : SyncNode := {| sy_node := n; sy_clock := sy_clock st; sy_scores := sy_scores st |}.
Definition penalise (url : bytes) (st : SyncNode) : SyncNode :=
  {| sy_node := sy_node st; sy_clock := sy_clock st; sy_scores := penalise_score url (sy_scores st) |}.
Definition sy_chain (st : SyncNode) : CChainState := chain (sy_node st).

Context (net : Network).

Definition request_blocks (url : bytes) (h count : Z) (st : SyncNode) : SyncNode * option (list Block) :=
  (tick st, net_blocks net (sy_clock st) url h count).

Definition request_tip (url : bytes) (st : SyncNode) : SyncNode * option Tip := (tick st, net_tip net (sy_clock st) url).

(** [dial_sync_peers]: the first eight full nodes, without the banned ones. *)
Fixpoint dial_all (cs : list Channel) (st : SyncNode) : SyncNode * list bytes :=
  match cs with
  | [] => (st, [])
  | c :: rest =>
      if is_banned (ch_sync_url c) (sy_scores st) then dial_all rest st
      else
        let ok := net_dial net (sy_clock st) (ch_sync_url c) in
        let '(st', urls) := dial_all rest (tick st) in
        (st', if ok then ch_sync_url c :: urls else urls)
  end.

Definition dial_sync_peers (cs : list Channel) (st : SyncNode) : SyncNode * list bytes :=
  dial_all (take MAX_SYNC_PEERS (filtered_peers cs)) st.

(** ** The walk to the common ancestor *)

Definition MAX_REORG_DEPTH : nat := 100.

Inductive ReorgOutcome := Applied | NotHeavier | Failed | ReorgStuck.

(** The fork point and the blocks of the peer above it; a walk that reaches
    genesis without a common block answers with the fork point zero. *)
Fixpoint fork_walk (rounds : nat) (url : bytes) (cursor : Z) (competing : list Block) (st : SyncNode) : SyncNode * option (Z * list Block) :=
  match rounds with
  | O => (st, None)
  | S rounds' =>
      match chain_block (sy_chain st) cursor with
      | Err _ => (st, None)
      | Ok local =>
          match request_blocks url cursor 1 st with
          | (st1, Some (fetched :: _)) =>
              match hash_block local, hash_block fetched with
              | Ok local_hash, Ok fetched_hash =>
                  if negb (BlockTarget.hash_is_valid (target (header fetched)) (hash_u32 fetched_hash)) then (st1, None)
                  else if bool_decide (local_hash = fetched_hash) then (st1, Some (cursor, competing))
                  else if cursor <=? BlockHeight.GENESIS then (st1, Some (0, fetched :: competing))
                  else fork_walk rounds' url (default 0 (BlockHeight.pred cursor)) (fetched :: competing) st1
              | _, _ => (st1, None)
              end
          | (st1, _) => (st1, None)
          end
      end
  end.

(** Consecutive heights from [h] on. *)
Fixpoint contiguous_from (h : Z) (bs : list Block) : bool :=
  match bs with [] => true | b :: rest => (height (header b) =? h) && contiguous_from (h + 1) rest end.

Definition chain_work_of (bs : list Block) : Z := foldl (fun w b => saturating_add 128 w (BlockTarget.chain_work (target (header b)))) 0 bs.

(** The work of the blocks from [h] on, [n] of them; [None] when one cannot be read. *)
Fixpoint displaced_work (s : CChainState) (n : nat) (h w : Z) : option Z :=
  match n with
  | O => Some w
  | S n' =>
      match chain_block s h with
      | Ok b => displaced_work s n' (BlockHeight.succ h) (saturating_add 128 w (BlockTarget.chain_work (target (header b))))
      | Err _ => None
      end
  end.

Definition reorg_to_heavier_chain (pool : bool) (b : Block) (url : bytes) (st : SyncNode) : SyncNode * ReorgOutcome :=
  let local_height := chain_height (sy_chain st) in
  if negb (height (header b) =? BlockHeight.succ local_height) then (st, NotHeavier)
  else
    match fork_walk MAX_REORG_DEPTH url (default 1 (BlockHeight.pred (height (header b)))) [] st with
    | (st1, None) => (st1, Failed)
    | (st1, Some (fork_point, competing)) =>
        let expected := saturating_sub local_height fork_point in
        if BlockHeight.is_zero fork_point then (st1, Failed)
        else if negb (Z.of_nat (List.length competing) =? expected) then (st1, Failed)
        else if negb (contiguous_from (fork_point + 1) competing) then (st1, Failed)
        else
          match displaced_work (sy_chain st1) (Z.to_nat expected) (BlockHeight.succ fork_point) 0 with
          | None => (st1, Failed)
          | Some displaced =>
              let work := saturating_add 128 (chain_work_of competing) (BlockTarget.chain_work (target (header b))) in
              if work <=? displaced then (st1, NotHeavier)
              else
                match activate_best_chain pool competing fork_point (sy_node st1) with
                | (n, Ok _) => (with_node n st1, Applied)
                | (n, Err (Rejected _)) => (with_node n st1, Failed)
                | (n, Err _) => (with_node n st1, ReorgStuck)
                end
          end
    end.

(** ** Pulling *)

(** The checks on a block before it is handed to the acceptor; the flag of a
    refusal says whether the peer is scored. *)
Definition sync_filter (magic : bytes) (now expected : Z) (b : Block) : result bool unit :=
  if negb (height (header b) =? expected) then Err true
  else if (height (header b) =? BlockHeight.GENESIS) && negb (bool_decide (take 4 (anchor_tx_id (header b)) = magic)) then Err true
  else if (BlockHeight.GENESIS <? height (header b)) && (if verify_proof_of_token_balance b then false else true) then Err true
  else match check_future_timestamp (timestamp (header b)) now MAX_FUTURE_SECS with
  | Err _ => Err true
  | Ok _ =>
      if negb (vm_ok (randomx_key (header b))) then Err false
      else if bool_decide (BlockHeight.pred (height (header b)) = None) then Err true
      else if height (header b) =? BlockHeight.GENESIS then
        match hash_with_vm (header b) (randomx_key (header b)) with
        | Ok hash => match check_genesis_pin hash with Ok _ => Ok tt | Err _ => Err true end
        | Err _ => Err false
        end
      else Ok tt
  end.

(** What became of a block: the next height, or the end of this peer's batch,
    with or without the block, or a call that never returned. *)
Inductive Pulled := Next | Stop (progressed : bool) | Hung.

Definition deliver_synced (pool : bool) (b : Block) (n : Node) : Node * ARes BlockConnectOutcome :=
  accept_block_with_mempool pool b [] (randomx_key (header b)) (target (header b)) n.

(** The outcomes the loop counts as progress. *)
Definition advances (r : ARes BlockConnectOutcome) : bool :=
  match r with Ok (CanonicalExtension _) | Ok AlreadyKnown => true | _ => false end.

Definition hangs {A : Type} (r : ARes A) : bool := match r with Err Blocked | Err Exhausted => true | _ => false end.

Definition pull_block (pool : bool) (magic url : bytes) (next : Z) (b : Block) (st : SyncNode) : SyncNode * Pulled :=
  let st0 := tick st in
  match sync_filter magic (net_now net (sy_clock st)) next b with
  | Err scored => (if scored then penalise url st0 else st0, Stop false)
  | Ok _ =>
      let '(n1, r) := deliver_synced pool b (sy_node st0) in
      let st1 := with_node n1 st0 in
      if advances r then (st1, Next)
      else if hangs r then (st1, Hung)
      else match r with
      | Ok _ => (st1, Stop false)
      | Err _ =>
          match reorg_to_heavier_chain pool b url st1 with
          | (st2, Applied) =>
              let '(n3, r3) := deliver_synced pool b (sy_node st2) in
              (with_node n3 st2, if hangs r3 then Hung else Stop (advances r3))
          | (st2, ReorgStuck) => (st2, Hung)
          | (st2, _) => (st2, Stop false)
          end
      end
  end.

(** The blocks of one answer; the result is the next height, whether there was
    progress, and whether the pass is stuck. *)
Fixpoint pull_blocks (pool : bool) (magic url : bytes) (next : Z) (progressed : bool) (bs : list Block) (st : SyncNode) :
    SyncNode * (Z * bool * bool) :=
  match bs with
  | [] => (st, (next, progressed, false))
  | b :: rest =>
      match pull_block pool magic url next b st with
      | (st1, Next) => pull_blocks pool magic url (BlockHeight.succ (height (header b))) true rest st1
      | (st1, Stop true) => (st1, (BlockHeight.succ (height (header b)), true, false))
      | (st1, Stop false) => (st1, (next, progressed, false))
      | (st1, Hung) => (st1, (next, progressed, true))
      end
  end.

(** One round over the peers: the first that gives progress ends it. *)
Fixpoint pull_round (pool : bool) (magic : bytes) (peers : list bytes) (next batch : Z) (st : SyncNode) : SyncNode * (Z * bool * bool) :=
  match peers with
  | [] => (st, (next, false, false))
  | url :: rest =>
      match request_blocks url next batch st with
      | (st1, Some (b :: bs)) =>
          match pull_blocks pool magic url next false (b :: bs) st1 with
          | (st2, (next', false, false)) => pull_round pool magic rest next' batch st2
          | done => done
          end
      | (st1, _) => pull_round pool magic rest next batch st1
      end
  end.

Definition sync_batch_len (best next : Z) : Z := Z.min LINEAR_SYNC_BATCH (saturating_add 64 (saturating_sub best next) 1).

(** [while next_height <= max_peer_height]; the flag says whether the pass is stuck. *)
Inductive PullEnd := Pulled_ | PullHung | PullExhausted.

Fixpoint pull_loop (fuel : nat) (pool : bool) (magic : bytes) (peers : list bytes) (best next : Z) (st : SyncNode) : SyncNode * PullEnd :=
  if best <? next then (st, Pulled_)
  else match fuel with
  | O => (st, PullExhausted)
  | S fuel' =>
      match pull_round pool magic peers next (sync_batch_len best next) st with
      | (st1, (_, _, true)) => (st1, PullHung)
      | (st1, (_, false, false)) => (st1, Pulled_)
      | (st1, (next', true, false)) => pull_loop fuel' pool magic peers best next' st1
      end
  end.

(** ** A pass *)

Fixpoint collect_tips (i : nat) (peers : list bytes) (st : SyncNode) : SyncNode * list (nat * PeerTip) :=
  match peers with
  | [] => (st, [])
  | url :: rest =>
      let '(st1, t) := request_tip url st in
      let '(st2, answered) := collect_tips (S i) rest st1 in
      (st2, match t with
            | Some t => match PeerTip_from_tip t with Some pt => (i, pt) :: answered | None => answered end
            | None => answered
            end)
  end.

Definition best_height (tips : list PeerTip) : Z := foldl (fun best t => if best <? peer_height t then peer_height t else best) 0 tips.

(** The peers whose tip the filter refused are dropped; silent ones stay. *)
Definition kept_tips (tips : list PeerTip) (compatible : list nat) : list PeerTip := omap (fun i => tips !! i) compatible.

Fixpoint rejected_peers (slot : nat) (answered : list (nat * PeerTip)) (compatible : list nat) : list nat :=
  match answered with
  | [] => []
  | (index, _) :: rest =>
      if bool_decide (slot ∈ compatible) then rejected_peers (S slot) rest compatible else index :: rejected_peers (S slot) rest compatible
  end.

Fixpoint without_peers {A : Type} (i : nat) (rejected : list nat) (peers : list A) : list A :=
  match peers with
  | [] => []
  | p :: rest => if bool_decide (i ∈ rejected) then without_peers (S i) rejected rest else p :: without_peers (S i) rejected rest
  end.

(** Caught up, which also opens the mining gate, or behind. *)
Inductive SyncStatus := CaughtUp | Behind | PassHung.

Definition sync_pass (pool authority : bool) (magic : bytes) (cs : list Channel) (st : SyncNode) : SyncNode * SyncStatus :=
  let local_height := chain_height (sy_chain st) in
  let ours := if BlockHeight.GENESIS <=? local_height then genesis_hash (sy_chain st) else None in
  let '(st1, peers) := dial_sync_peers cs st in
  let '(st2, answered) := collect_tips 0 peers st1 in
  let tips := map snd answered in
  let compatible := apply_genesis_filter ours tips Strict in
  let best := best_height (kept_tips tips compatible) in
  let sources := without_peers 0 (rejected_peers 0 answered compatible) peers in
  let next := BlockHeight.succ local_height in
  match pull_loop (Z.to_nat (best - next + 1)) pool magic sources best next st2 with
  | (st3, Pulled_) =>
      let caught_up := best <=? chain_height (sy_chain st3) in
      (st3, if caught_up && (authority || negb (bool_decide (sources = []))) then CaughtUp else Behind)
  | (st3, _) => (st3, PassHung)
  end.
End sync.
