(* ===== verification/SyncRuns.v ===== *)
(** * What synchronisation guarantees

    A pass of the sync loop is a run of the acceptor, whatever the peers answer;
    it ends; a reorganisation it makes has a common ancestor and proofs of work;
    and a node whose peers serve a chain it can accept ends up with that chain. *)

From Stdlib Require Import String.
From S2P Require Import Prelude F64 Units Emission Serial Externals Transaction Merkle Block Store Competing FeeEstimator.
From S2P Require Import Consensus NativeToken L1Contracts Nullifiers FeeWindow ContractRisk Supply Pedersen TokenContract TokenBalance.
From S2P Require Import Validation Finality DarkTree CoreTx ZkVerifier ChainState Overlay Executor Ledger Acceptor Accepted Reorgs Sync.

Section sync.
Context `{EXT : Externals} `{SIG : Signatures} `{INFO : ContractInfo} `{ENV : !NodeEnv} `{OPS : !CurveOps} `{CORE : !CoreEnv}.
Context `{OV : SledOverlay} `{EXEC : !Executor} `{ACC : !AcceptEnv}.
Implicit Types (st : SyncNode) (b : Block) (bs : list Block) (url magic : bytes) (net : Network) (pool : bool).

(** The decoder hands out well-formed blocks, and a frame holds fewer than [2 ^ 32]. *)
Definition net_wf net : Prop :=
  forall t url h count bs, net_blocks net t url h count = Some bs -> Forall Block_wf bs /\ Z.of_nat (length bs) < 2 ^ 32.

(** The node moves by calls of the acceptor only. *)
Definition moves st st' : Prop := rtc accept_step (sy_node st) (sy_node st').

#[local] Instance moves_preorder : PreOrder moves.
Proof. split; [intros st; apply rtc_refl | intros x y z Hxy Hyz; unfold moves in *; by etrans]. Qed.

Lemma moves_same st st' : sy_node st' = sy_node st -> moves st st'.
Proof. unfold moves. by intros ->. Qed.

Lemma deliver_moves pool b st n r : Block_wf b -> deliver_synced pool b (sy_node st) = (n, r) -> moves st (with_node n st).
Proof.
  intros Hw E. unfold moves. cbn [with_node sy_node]. replace n with (deliver_synced pool b (sy_node st)).1 by (by rewrite E).
  apply rtc_once. by constructor.
Qed.

(** ** The walk *)

(** What a walk that ends well has seen: blocks that meet their own targets. *)
Definition pow_valid b : Prop := exists h, hash_block b = Ok h /\ BlockTarget.hash_is_valid (target (header b)) (hash_u32 h) = true.

Record walked (s : CChainState) (fork : Z) bs : Prop := {
  wk_pow : Forall pow_valid bs;
  wk_wf : Forall Block_wf bs;
  wk_common : fork <> 0 -> exists local fetched h, chain_block s fork = Ok local /\ hash_block local = Ok h /\
                hash_block fetched = Ok h /\ pow_valid fetched
}.

Lemma pred_default_u64 (d h : Z) : is_u64 d -> is_u64 (default d (BlockHeight.pred h)).
Proof. intros Hd. unfold BlockHeight.pred, checked_sub. destruct (checked 64 _) as [x|] eqn:E; [| done]. by apply checked_spec in E as [<- ?]. Qed.

Lemma fork_walk_ok net (rounds : nat) url (cursor : Z) bs st st' r :
  net_wf net -> is_u64 cursor -> Forall pow_valid bs -> Forall Block_wf bs -> fork_walk net rounds url cursor bs st = (st', r) ->
  sy_node st' = sy_node st /\ sy_scores st' = sy_scores st /\
  match r with
  | Some (fork, bs') => is_u64 fork /\ walked (sy_chain st) fork bs' /\ (length bs' <= length bs + rounds)%nat
  | None => True
  end.
Proof.
  intros Hn. revert cursor bs st. induction rounds as [|rounds IH]; intros cursor bs st Hpos Hp Hw; cbn [fork_walk]; [by intros [= <- <-] |].
  destruct (chain_block (sy_chain st) cursor) as [local|] eqn:El; [| by intros [= <- <-]]. unfold request_blocks.
  destruct (net_blocks net (sy_clock st) url cursor 1) as [[|fetched rest]|] eqn:Eb; [by intros [= <- <-] | | by intros [= <- <-]].
  apply Hn in Eb as [Hf _]. apply Forall_cons in Hf as [Hf _].
  destruct (hash_block local) as [hl|] eqn:Ehl; [| by intros [= <- <-]]. destruct (hash_block fetched) as [hf|] eqn:Ehf; [| by intros [= <- <-]].
  destruct (BlockTarget.hash_is_valid _ _) eqn:Ev; cbn [negb]; [| by intros [= <- <-]].
  assert (pow_valid fetched) as Hpow by (by exists hf). case_bool_decide as Eh.
  - intros [= <- <-]. split_and!; [done | done | done | | lia]. constructor; [done | done |]. intros _. subst hf. by exists local, fetched, hl.
  - destruct (Z.leb_spec cursor BlockHeight.GENESIS).
    + intros [= <- <-]. split_and!; [done | done | unfold is_u; lia | | cbn; lia]. constructor; [by constructor | by constructor | done].
    + intros (H1 & H2 & H3)%IH; [| apply pred_default_u64; unfold is_u; lia | by constructor..]. split_and!; [done | done |]. destruct r as [[fork bs']|]; [| done].
      destruct H3 as (H3 & H4 & H5). split_and!; [done | done | cbn in H5; lia].
Qed.

(** ** The reorganisation *)

Record reorganised pool b st (n : Node) (fork : Z) bs : Prop := {
  rg_fork : 0 < fork /\ is_u64 fork;
  rg_depth : Z.of_nat (length bs) = saturating_sub (chain_height (sy_chain st)) fork;
  rg_bound : (length bs <= MAX_REORG_DEPTH)%nat;
  rg_walked : walked (sy_chain st) fork bs;
  rg_contiguous : contiguous_from (fork + 1) bs = true;
  rg_work : exists displaced,
    displaced_work (sy_chain st) (length bs) (BlockHeight.succ fork) 0 = Some displaced /\
    displaced < saturating_add 128 (chain_work_of bs) (BlockTarget.chain_work (target (header b)));
  rg_activate : exists u, activate_best_chain pool bs fork (sy_node st) = (n, Ok u)
}.

Lemma reorg_ok net pool b url st st' r :
  net_wf net -> reorg_to_heavier_chain net pool b url st = (st', r) ->
  sy_scores st' = sy_scores st /\ moves st st' /\ (r = Applied -> exists fork bs, reorganised pool b st (sy_node st') fork bs).
Proof.
  intros Hn. unfold reorg_to_heavier_chain. destruct (negb _); [by intros [= <- <-] |].
  destruct (fork_walk _ _ _ _ _ _) as [st1 w] eqn:Ew. apply fork_walk_ok in Ew as (E1 & E2 & Hw); [| done | apply pred_default_u64; unfold is_u; lia | constructor | constructor].
  assert (sy_chain st1 = sy_chain st) as Ec by (unfold sy_chain; by rewrite E1).
  assert (forall o, (st1, o) = (st', r) -> o <> Applied -> sy_scores st' = sy_scores st /\ moves st st' /\ (r = Applied -> exists fork bs, reorganised pool b st (sy_node st') fork bs)) as Hstop.
  { intros o [= <- <-] Ho. split_and!; [done | by apply moves_same | done]. }
  destruct w as [[fork bs]|]; [| intros E; by apply (Hstop _ E)]. destruct Hw as (Hpos & Hw & Hlen).
  destruct (BlockHeight.is_zero fork) eqn:Ez; [intros E; by apply (Hstop _ E) |].
  destruct (Z.eqb_spec (Z.of_nat (length bs)) (saturating_sub (chain_height (sy_chain st)) fork)) as [El | _]; [| intros E; by apply (Hstop _ E)].
  cbn [negb]. destruct (contiguous_from (fork + 1) bs) eqn:Ect; [| intros E; by apply (Hstop _ E)]. cbn [negb].
  destruct (displaced_work _ _ _ _) as [displaced|] eqn:Ed; [| intros E; by apply (Hstop _ E)].
  destruct (Z.leb_spec (saturating_add 128 (chain_work_of bs) (BlockTarget.chain_work (target (header b)))) displaced) as [| Hlt];
    [intros E; by apply (Hstop _ E) |].
  assert (moves st (with_node (activate_best_chain pool bs fork (sy_node st1)).1 st1)) as Hm.
  { unfold moves. cbn [with_node sy_node]. rewrite E1. apply rtc_once. constructor. apply (wk_wf _ _ _ Hw). }
  destruct (activate_best_chain pool bs fork (sy_node st1)) as [n a] eqn:Ea. cbn [fst] in Hm.
  destruct a as [u|[]]; intros [= <- <-]; (split_and!; [done | done |]); [| done..]. intros _. exists fork, bs.
  unfold BlockHeight.is_zero in Ez. apply Z.eqb_neq in Ez. rewrite <- El, Nat2Z.id, Ec in Ed. rewrite E1 in Ea.
  constructor; [unfold is_u in *; lia | done | cbn in Hlen; lia | done | done | by exists displaced | by exists u].
Qed.

(** ** Pulling *)

Lemma filter_height magic (now next : Z) b u : sync_filter magic now next b = Ok u -> height (header b) = next.
Proof. unfold sync_filter. destruct (Z.eqb_spec (height (header b)) next); [done | done]. Qed.

Lemma pull_block_ok net pool magic url (next : Z) b st st' r :
  net_wf net -> Block_wf b -> pull_block net pool magic url next b st = (st', r) ->
  moves st st' /\ (r = Next \/ r = Stop true -> height (header b) = next).
Proof.
  intros Hn Hw. unfold pull_block. destruct (sync_filter _ _ _ _) as [u|scored] eqn:Ef.
  2:{ intros [= <- <-]. split; [| naive_solver]. apply moves_same. by destruct scored. }
  apply filter_height in Ef. destruct (deliver_synced pool b (sy_node (tick st))) as [n1 r1] eqn:E1.
  pose proof (deliver_moves pool b (tick st) n1 r1 Hw E1) as Hm. assert (moves st (with_node n1 (tick st))) as Hm1 by (etrans; [by apply (moves_same st (tick st)) | exact Hm]).
  destruct (advances r1); [by intros [= <- <-] |]. destruct (hangs r1); [by intros [= <- <-] |].
  destruct r1 as [|e]; [by intros [= <- <-] |].
  destruct (reorg_to_heavier_chain _ _ _ _ _) as [st2 o] eqn:Er. apply reorg_ok in Er as (_ & Hm2 & _); [| done].
  assert (moves st st2) as Hm3 by (by etrans). destruct o; try (by intros [= <- <-]).
  destruct (deliver_synced pool b (sy_node st2)) as [n3 r3] eqn:E3. intros [= <- <-]. split; [| done].
  etrans; [exact Hm3 |]. by eapply deliver_moves.
Qed.

Lemma pull_blocks_moves net pool magic url (next : Z) (p : bool) bs st :
  net_wf net -> Forall Block_wf bs -> moves st (pull_blocks net pool magic url next p bs st).1.
Proof.
  intros Hn Hw. revert next p st. induction Hw as [|b bs Hb Hw IH]; intros next p st; cbn [pull_blocks]; [done |].
  destruct (pull_block _ _ _ _ _ _ _) as [st1 r] eqn:Eb. apply pull_block_ok in Eb as [Hm _]; [| done..].
  destruct r as [| [] |]; try done. etrans; [exact Hm | apply IH].
Qed.

Lemma tick_moves st st' : moves (tick st) st' -> moves st st'.
Proof. done. Qed.

Lemma pull_round_moves net pool magic (peers : list bytes) (next batch : Z) st :
  net_wf net -> moves st (pull_round net pool magic peers next batch st).1.
Proof.
  intros Hn. revert next st. induction peers as [|url peers IH]; intros next st; cbn [pull_round]; [done |]. unfold request_blocks.
  destruct (net_blocks net (sy_clock st) url next batch) as [[|b bs]|] eqn:Eb; [apply tick_moves, IH | | apply tick_moves, IH].
  apply Hn in Eb as [Hw _]. pose proof (pull_blocks_moves net pool magic url next false (b :: bs) (tick st) Hn Hw) as Hm.
  destruct (pull_blocks _ _ _ _ _ _ _ _) as [st2 [[next2 p2] hung2]]. apply tick_moves. destruct p2, hung2; try done. etrans; [exact Hm | apply IH].
Qed.

Lemma pull_loop_moves net pool magic (peers : list bytes) (best : Z) (fuel : nat) (next : Z) st :
  net_wf net -> moves st (pull_loop net fuel pool magic peers best next st).1.
Proof.
  intros Hn. revert next st. induction fuel as [|fuel IH]; intros next st; cbn [pull_loop]; destruct (best <? next); [done.. |].
  pose proof (pull_round_moves net pool magic peers next (sync_batch_len best next) st Hn) as Hm.
  destruct (pull_round _ _ _ _ _ _ _) as [st1 [[next1 p1] hung]]. destruct hung, p1; try done. etrans; [exact Hm | apply IH].
Qed.

(** *** Progress *)

Lemma succ_small (h : Z) : 0 <= h -> h + 1 < 2 ^ 64 -> BlockHeight.succ h = h + 1.
Proof. intros H0 H1. apply wrap_small. unfold is_u. lia. Qed.

Lemma pull_blocks_ok net pool magic url (next : Z) (p : bool) bs st st' next' p' hung :
  net_wf net -> Forall Block_wf bs -> 0 <= next -> next + Z.of_nat (length bs) < 2 ^ 64 ->
  pull_blocks net pool magic url next p bs st = (st', (next', p', hung)) ->
  next <= next' /\ (p' = true -> p = true \/ next < next') /\ (p = true -> p' = true) /\ (p' = false -> next' = next).
Proof.
  intros Hn Hw. revert next p st. induction Hw as [|b bs Hb Hw IH]; intros next p st Hpos Hlen; cbn [pull_blocks].
  { intros [= <- <- <- <-]. split_and!; [lia | by left | done | done]. }
  rewrite length_cons in Hlen. destruct (pull_block _ _ _ _ _ _ _) as [st1 r] eqn:Eb. apply pull_block_ok in Eb as [_ Hh]; [| done..].
  destruct r as [| [] |].
  - rewrite Hh by (by left). rewrite succ_small by lia. intros (Hle & _ & Hp & _)%IH; [| lia..]. rewrite Hp by done.
    split_and!; [lia | | done | done]. intros _. right. lia.
  - rewrite Hh by (by right). rewrite succ_small by lia. intros [= <- <- <- <-]. split_and!; [lia | | done | done]. intros _. right. lia.
  - intros [= <- <- <- <-]. split_and!; [lia | by left | done | done].
  - intros [= <- <- <- <-]. split_and!; [lia | by left | done | done].
Qed.

Lemma pull_round_ok net pool magic (peers : list bytes) (next batch : Z) st st' next' p' hung :
  net_wf net -> 0 <= next -> next + 2 ^ 32 <= 2 ^ 64 ->
  pull_round net pool magic peers next batch st = (st', (next', p', hung)) -> next <= next' /\ (p' = true -> next < next').
Proof.
  intros Hn. revert next st. induction peers as [|url peers IH]; intros next st Hpos Hlen; cbn [pull_round].
  { intros [= <- <- <- <-]. split; [lia | done]. }
  unfold request_blocks. destruct (net_blocks net (sy_clock st) url next batch) as [[|b bs]|] eqn:Eb; [by apply IH | | by apply IH].
  apply Hn in Eb as [Hw Hl]. destruct (pull_blocks _ _ _ _ _ _ _ _) as [st2 [[next2 p2] hung2]] eqn:Ep.
  apply pull_blocks_ok in Ep as (Hle & Hp & _ & Hsame); [| done | done | done | lia].
  destruct p2; [intros [= <- <- <- <-]; split; [lia | naive_solver] |].
  destruct hung2; [intros [= <- <- <- <-]; split; [lia | done] |]. rewrite (Hsame eq_refl). by apply IH.
Qed.

(** ** The end of the loop *)

(** The rounds a pull can take. *)
Definition pull_rounds (best next : Z) : nat := Z.to_nat (best - next + 1).

Lemma pull_loop_ok net pool magic (peers : list bytes) (best : Z) (fuel : nat) (next : Z) st :
  net_wf net -> 0 <= next -> best + 2 ^ 32 <= 2 ^ 64 -> (pull_rounds best next <= fuel)%nat ->
  (pull_loop net fuel pool magic peers best next st).2 <> PullExhausted /\
  forall fuel', (pull_rounds best next <= fuel')%nat ->
    pull_loop net fuel' pool magic peers best next st = pull_loop net fuel pool magic peers best next st.
Proof.
  intros Hn. unfold pull_rounds. revert next st. induction fuel as [|fuel IH]; intros next st Hpos Hb Hf.
  - assert (forall k, pull_loop net k pool magic peers best next st = (st, Pulled_)) as Hk
      by (intros k; destruct k; cbn [pull_loop]; by rewrite (proj2 (Z.ltb_lt _ _)) by lia).
    rewrite Hk. split; [done |]. intros fuel' _. apply Hk.
  - destruct (Z.ltb_spec best next) as [Hlt | Hle].
    { assert (forall k, pull_loop net k pool magic peers best next st = (st, Pulled_)) as Hk
        by (intros k; destruct k; cbn [pull_loop]; by rewrite (proj2 (Z.ltb_lt _ _)) by lia).
      rewrite Hk. split; [done |]. intros fuel' _. apply Hk. }
    cbn [pull_loop]. rewrite (proj2 (Z.ltb_ge _ _)) by lia.
    destruct (pull_round net pool magic peers next (sync_batch_len best next) st) as [st1 [[next1 p1] hung]] eqn:Ep.
    assert (forall fuel', (Z.to_nat (best - next + 1) <= fuel')%nat -> exists k, fuel' = S k /\ (Z.to_nat (best - next) <= k)%nat) as Hs
      by (intros [|k] Hk; [lia | exists k; lia]).
    pose proof Ep as Ep'. apply pull_round_ok in Ep' as (Hle1 & Hp); [| done | done | lia].
    assert (hung = true \/ p1 = false \/ hung = false /\ p1 = true) as [-> | [-> | [-> ->]]] by (destruct hung, p1; auto).
    + destruct p1; (split; [done |]); intros fuel' (k & -> & _)%Hs; cbn [pull_loop]; by rewrite (proj2 (Z.ltb_ge _ _)), Ep by lia.
    + destruct hung; (split; [done |]); intros fuel' (k & -> & _)%Hs; cbn [pull_loop]; by rewrite (proj2 (Z.ltb_ge _ _)), Ep by lia.
    + specialize (Hp eq_refl). destruct (IH next1 st1) as (H2 & H3); [lia | done | lia |].
      split; [done |]. intros fuel' (k & -> & Hk)%Hs. cbn [pull_loop]. rewrite (proj2 (Z.ltb_ge _ _)), Ep by lia. apply H3. lia.
Qed.

(** ** A pass *)

Lemma dial_all_keeps net (cs : list Channel) st :
  sy_node (dial_all net cs st).1 = sy_node st /\ sy_scores (dial_all net cs st).1 = sy_scores st /\
  forall url, url ∈ (dial_all net cs st).2 -> is_banned url (sy_scores st) = false /\ exists c, c ∈ cs /\ url = ch_sync_url c.
Proof.
  revert st. induction cs as [|c cs IH]; intros st; cbn [dial_all]; [split_and!; [done | done | intros url Hu; by apply not_elem_of_nil in Hu] |].
  destruct (is_banned (ch_sync_url c) (sy_scores st)) eqn:Eb.
  - destruct (IH st) as (H1 & H2 & H3). split_and!; [done | done |]. intros url Hu. destruct (H3 url Hu) as (Hb & c' & Hc & ->).
    split; [done |]. exists c'. by split; [right |].
  - destruct (IH (tick st)) as (H1 & H2 & H3). destruct (dial_all net cs (tick st)) as [st' urls]. cbn [fst snd] in *.
    split_and!; [done | done |]. intros url Hu. assert (url = ch_sync_url c \/ url ∈ urls) as [-> | Hin].
    { destruct (net_dial _ _ _); [by apply elem_of_cons in Hu | by right]. }
    + split; [done |]. exists c. by split; [left |].
    + destruct (H3 url Hin) as (Hb & c' & Hc & ->). split; [done |]. exists c'. by split; [right |].
Qed.

Lemma collect_tips_keeps net (i : nat) (peers : list bytes) st :
  sy_node (collect_tips net i peers st).1 = sy_node st /\ sy_scores (collect_tips net i peers st).1 = sy_scores st.
Proof.
  revert i st. induction peers as [|url peers IH]; intros i st; cbn [collect_tips]; [done |]. unfold request_tip.
  destruct (IH (S i) (tick st)) as [H1 H2]. destruct (collect_tips net (S i) peers (tick st)) as [st2 answered]. done.
Qed.

Lemma sync_pass_moves net pool (authority : bool) magic (cs : list Channel) st :
  net_wf net -> moves st (sync_pass net pool authority magic cs st).1.
Proof.
  intros Hn. unfold sync_pass, dial_sync_peers. cbv zeta. pose proof (dial_all_keeps net (take MAX_SYNC_PEERS (filtered_peers cs)) st) as (E1 & _ & _).
  destruct (dial_all net _ st) as [st1 peers]. pose proof (collect_tips_keeps net 0 peers st1) as (E2 & _).
  destruct (collect_tips net 0 peers st1) as [st2 answered]. cbn [fst] in *.
  match goal with |- context [pull_loop net ?f pool magic ?s ?b ?n st2] => pose proof (pull_loop_moves net pool magic s b f n st2 Hn) as Hm end.
  assert (moves st st2) as H2 by (apply moves_same; congruence).
  destruct (pull_loop _ _ _ _ _ _ _ _) as [st3 []]; cbn [fst] in *; by etrans.
Qed.

(** Passes with any peers and any network, one after the other. *)
Inductive sync_step : SyncNode -> SyncNode -> Prop :=
| one_pass net pool (authority : bool) magic (cs : list Channel) st :
    net_wf net -> sync_step st (sync_pass net pool authority magic cs st).1.

(** Synchronisation cannot be used around the acceptor.  Whatever peers a
    new node dials and whatever they answer, in any number of passes, the chain
    it holds is valid and every block of it passed the host's checks; and a peer
    once scored for an invalid block is never dialed again. *)
Lemma synced_chain_checked st0 st :
  fresh_node (sy_node st0) -> rtc sync_step st0 st ->
  (exists c, valid_chain c /\ represents c (sy_chain st) /\
     Forall (fun b => exists us, validate_block_structure b = Ok tt /\ verify_proof_of_token_balance b = Ok tt /\ check_rewards b us = Ok tt) c) /\
  forall net url (cs : list Channel), is_banned url (sy_scores st) = true -> url ∉ (dial_sync_peers net cs st).2.
Proof.
  intros Hf Hr. assert (moves st0 st) as Hm.
  { clear Hf. induction Hr as [|x y z [net pool authority magic cs x' Hn] _ IH]; [done |]. etrans; [by apply sync_pass_moves | exact IH]. }
  split.
  - destruct (good_accepted _ _ (fresh_good _ Hf) Hm) as [c [Hv Hrep Hc _ _]]. exists c. split; [done |]. split; [done |].
    apply checked_blocks in Hc. eapply Forall_impl; [exact Hc |]. cbn. intros b [us [H1 H2 H3]]. by exists us.
  - intros net url cs Hb Hin. destruct (dial_all_keeps net (take MAX_SYNC_PEERS (filtered_peers cs)) st) as (_ & _ & H).
    destruct (H url Hin) as [E _]. congruence.
Qed.

(** The pull of a pass ends: with a round for every height up to the one the
    peers announced, the loop never runs out of rounds, whatever the peers
    answer, and more rounds would not change the result. *)
Lemma pull_terminates net pool magic (peers : list bytes) (best next : Z) (fuel : nat) st :
  net_wf net -> 0 <= next -> best + 2 ^ 32 <= 2 ^ 64 -> (pull_rounds best next <= fuel)%nat ->
  (pull_loop net fuel pool magic peers best next st).2 <> PullExhausted /\
  pull_loop net fuel pool magic peers best next st = pull_loop net (pull_rounds best next) pool magic peers best next st.
Proof.
  intros Hn Hpos Hb Hf. destruct (pull_loop_ok net pool magic peers best fuel next st Hn Hpos Hb Hf) as [H1 H2]. split; [done |].
  symmetry. by apply H2.
Qed.

(** ** The work of the displaced blocks *)

Lemma chain_block_at (c kept : list Block) (b : Block) (above : list Block) (s : CChainState) :
  represents c s -> c = above ++ b :: kept -> chain_block s (Z.of_nat (length kept) + 1) = Ok (stored_block b).
Proof.
  intros Hr ->. assert ((above ++ b :: kept) !! length above = Some b) as Hi by (by rewrite lookup_app_r, Nat.sub_diag by lia).
  pose proof (rep_blocks _ _ Hr _ _ Hi) as El. rewrite length_app, length_cons in El.
  replace (Z.of_nat (length above + S (length kept)) - Z.of_nat (length above)) with (Z.of_nat (length kept) + 1) in El by lia.
  apply read_block; [| exact El]. pose proof (rep_wf _ _ Hr) as Hw. by apply Forall_app in Hw as [_ [? _]%Forall_cons].
Qed.

(** [asc] in ascending order on top of [kept]: as many reads as there are blocks
    give their work, and one more read fails. *)
Lemma displaced_work_of (asc kept : list Block) (s : CChainState) (h w : Z) :
  represents (rev asc ++ kept) s -> (asc <> [] -> h = Z.of_nat (length kept) + 1) ->
  displaced_work s (length asc) h w = Some (foldl (fun w b => saturating_add 128 w (BlockTarget.chain_work (target (header b)))) w asc).
Proof.
  revert kept h w. induction asc as [|a asc IH]; intros kept h w Hr Hh; [done |]. cbn [length displaced_work foldl]. rewrite Hh by done.
  rewrite (chain_block_at (rev (a :: asc) ++ kept) kept a (rev asc) s Hr) by (cbn [rev]; by rewrite <- app_assoc).
  cbn [rev] in Hr. rewrite <- app_assoc in Hr. pose proof (rep_len _ _ Hr) as Hl. rewrite length_app, length_app, length_rev in Hl. cbn [length] in Hl.
  apply (IH (a :: kept)); [exact Hr |]. intros Hne. rewrite length_cons. unfold is_u in Hl. rewrite succ_small by (destruct asc; [done | cbn [length] in Hl; lia]).
  lia.
Qed.

Lemma displaced_work_over (asc kept : list Block) (s : CChainState) (h w : Z) :
  represents (rev asc ++ kept) s -> is_u64 (Z.of_nat (length (rev asc ++ kept)) + 1) -> h = Z.of_nat (length kept) + 1 ->
  displaced_work s (S (length asc)) h w = None.
Proof.
  revert kept h w. induction asc as [|a asc IH]; intros kept h w Hr Hu Hh; rewrite Hh; cbn [length displaced_work].
  - cbn [rev app] in *. destruct (read_missing s (Z.of_nat (length kept) + 1)) as [e ->]; [| done]. apply (rep_none _ _ Hr); [done | lia].
  - rewrite (chain_block_at (rev (a :: asc) ++ kept) kept a (rev asc) s Hr) by (cbn [rev]; by rewrite <- app_assoc).
    cbn [rev] in Hr, Hu. rewrite <- app_assoc in Hr, Hu. apply (IH (a :: kept)); [exact Hr | exact Hu |].
    rewrite length_app, length_app, length_rev in Hu. cbn [length] in Hu. unfold is_u in Hu. rewrite succ_small by lia. rewrite length_cons. lia.
Qed.

(** C16: what it takes to move the node to another chain.  When the sync loop
    reports a reorganisation, a block of the node's own chain at the fork point
    has the hash of one the peer served, at most a hundred blocks were displaced
    and as many adopted, every adopted block meets the target in its own header
    with the hash of its header, their heights are consecutive, and the adopted
    blocks together with the target claimed by the extending block carry more
    work than the displaced ones. *)
Theorem sync_reorg_justified net pool b url (n0 : Node) st st' :
  net_wf net -> fresh_node n0 -> rtc accept_step n0 (sy_node st) ->
  reorg_to_heavier_chain net pool b url st = (st', Applied) ->
  exists (kept displaced adopted : list Block),
    represents (displaced ++ kept) (sy_chain st) /\ represents (rev adopted ++ kept) (sy_chain st') /\ valid_chain (rev adopted ++ kept) /\
    kept <> [] /\ length adopted = length displaced /\ (length adopted <= MAX_REORG_DEPTH)%nat /\
    Forall pow_valid adopted /\ contiguous_from (Z.of_nat (length kept) + 1) adopted = true /\
    chain_work_of (rev displaced) < saturating_add 128 (chain_work_of adopted) (BlockTarget.chain_work (target (header b))).
Proof.
  intros Hn Hf Hr H. apply reorg_ok in H as (_ & _ & H); [| done].
  destruct (H eq_refl) as (fork & bs & [[H1 Hfu] H2 H3 [P1 P2 P3] H5 (d & Hd & Hlt) (u & Ha)]).
  destruct P3 as (local & fetched & hash & El & _); [lia |]. destruct (good_accepted _ _ (fresh_good _ Hf) Hr) as [c Hc].
  destruct (activate_replaces c (sy_node st) pool bs fork (sy_node st') u Hc P2 Hfu Ha) as [Ht _]. pose proof (tr_represents _ _ Hc) as Hrep.
  assert (fork <= Z.of_nat (length c)) as Hle.
  { destruct (decide (Z.of_nat (length c) < fork)) as [Hgt |]; [| lia]. exfalso.
    destruct (read_missing (sy_chain st) fork) as [e Ee]; [apply (rep_none _ _ Hrep); [done | by right] |]. unfold sy_chain in *. congruence. }
  set (k := Z.to_nat (Z.of_nat (length c) - fork)) in *. assert (k <= length c)%nat as Hk by (unfold k; lia).
  assert (represents (rev (rev (take k c)) ++ drop k c) (sy_chain st)) as Hsplit by (by rewrite rev_involutive, take_drop).
  assert (Z.of_nat (length (drop k c)) = fork) as Hkept by (rewrite length_drop; unfold k; lia).
  assert (length (rev (take k c)) = k) as Hlen by (rewrite length_rev, length_take; lia).
  assert (length bs = k) as Hbs.
  { destruct (rep_height _ _ Hrep) as [E | [E Hu]]; unfold saturating_sub in H2; [unfold sy_chain in *; lia |].
    assert (length bs = S k) as Eb by (unfold sy_chain in *; lia). rewrite Eb, <- Hlen in Hd.
    rewrite (displaced_work_over (rev (take k c)) (drop k c)) in Hd; [done | exact Hsplit | |].
    - rewrite rev_involutive, take_drop. unfold sy_chain in *. by rewrite <- E.
    - rewrite Hkept. unfold is_u in *. apply succ_small; unfold sy_chain in *; lia. }
  rewrite Hbs, <- Hlen, (displaced_work_of (rev (take k c)) (drop k c)) in Hd; [| exact Hsplit |].
  2:{ intros Hne. rewrite Hkept. pose proof (rep_len _ _ Hrep) as Hl. unfold is_u in *. apply succ_small; [lia |].
      assert (length (rev (take k c)) <> 0%nat) by (by intros ?%nil_length_inv). lia. }
  exists (drop k c), (take k c), bs. rewrite take_drop, Hkept. split_and!; [done | apply (tr_represents _ _ Ht) | apply (tr_valid _ _ Ht) | | | done | done | done |].
  - intros E. rewrite E in Hkept. cbn in Hkept. lia.
  - rewrite Hbs, length_take. lia.
  - injection Hd as Hd. unfold chain_work_of at 1. by rewrite Hd.
Qed.

(** ** Catching up *)

(** Blocks delivered one after the other, each extending the chain. *)
Inductive follows pool : Node -> list Block -> Node -> Prop :=
| follows_nil n : follows pool n [] n
| follows_cons n b bs n1 n' :
    deliver_synced pool b n = (n1, Ok (CanonicalExtension (height (header b)))) -> follows pool n1 bs n' -> follows pool n (b :: bs) n'.

(** [bs] are the blocks of the server from height [h] on, and pass the filters of
    the puller at any time. *)
Record served net magic (s : CChainState) (h : Z) bs : Prop := {
  sv_block : forall (i : nat) b, bs !! i = Some b -> get_block (store s) (h + Z.of_nat i) = Ok b /\ height (header b) = h + Z.of_nat i;
  sv_filter : forall (i : nat) b t, bs !! i = Some b -> sync_filter magic (net_now net t) (h + Z.of_nat i) b = Ok tt;
  sv_range : 0 < h /\ h + Z.of_nat (length bs) + 2 ^ 32 <= 2 ^ 64
}.

Lemma served_tail net magic (s : CChainState) (h : Z) bs1 bs2 :
  served net magic s h (bs1 ++ bs2) -> served net magic s (h + Z.of_nat (length bs1)) bs2.
Proof.
  intros [H1 H2 H3]. assert (forall (i : nat) b, bs2 !! i = Some b -> (bs1 ++ bs2) !! (length bs1 + i)%nat = Some b) as Hi.
  { intros i b E. rewrite lookup_app_r by lia. by replace (length bs1 + i - length bs1)%nat with i by lia. }
  constructor.
  - intros i b E. replace (h + Z.of_nat (length bs1) + Z.of_nat i) with (h + Z.of_nat (length bs1 + i)) by lia. by apply H1, Hi.
  - intros i b t E. replace (h + Z.of_nat (length bs1) + Z.of_nat i) with (h + Z.of_nat (length bs1 + i)) by lia. by apply H2, Hi.
  - rewrite length_app in H3. lia.
Qed.

(** What the server answers is the beginning of what is left, and not empty. *)
Lemma batch_blocks_prefix net magic (json_len : Block -> option Z) (s : CChainState) (n : nat) (h used : Z) (acc : list Block) bs :
  served net magic s h bs -> (n <= length bs)%nat ->
  exists k, (k <= n)%nat /\ batch_blocks json_len s n h used acc = acc ++ take k bs /\ (acc = [] -> (0 < n)%nat -> (0 < k)%nat).
Proof.
  revert h used acc bs. induction n as [|n IH]; intros h used acc bs Hs Hn; cbn [batch_blocks].
  { exists 0%nat. split_and!; [lia | by rewrite take_0, app_nil_r | lia]. }
  destruct bs as [|b bs]; [cbn in Hn; lia |]. destruct (sv_block _ _ _ _ _ Hs 0%nat b eq_refl) as [Eb _]. rewrite Z.add_0_r in Eb. rewrite Eb.
  destruct (negb (bool_decide (acc = [])) && _) eqn:Estop.
  { exists 0%nat. split_and!; [lia | by rewrite take_0, app_nil_r |]. intros ->. by cbn in Estop. }
  pose proof (sv_range _ _ _ _ _ Hs) as [Hp Hr]. cbn [length] in Hr, Hn. rewrite succ_small by lia.
  destruct (IH (h + 1) (used + default (MAX_BATCH_BYTES + 1) (json_len b)) (acc ++ [b]) bs) as (k & Hk & E & _);
    [apply (served_tail net magic s h [b] bs Hs) | lia |].
  exists (S k). split_and!; [lia | by rewrite E, <- app_assoc | lia].
Qed.

Lemma pull_blocks_follow net pool magic url (s : CChainState) (h : Z) (p : bool) bs st n' :
  served net magic s h bs -> follows pool (sy_node st) bs n' ->
  exists st', pull_blocks net pool magic url h p bs st = (st', (h + Z.of_nat (length bs), (p || negb (bool_decide (bs = []))), false)) /\
    sy_node st' = n' /\ sy_scores st' = sy_scores st.
Proof.
  revert h p st. induction bs as [|b bs IH]; intros h p st Hs Hf; inversion Hf as [|? ? ? n1 ? Hd Hf']; subst; cbn [pull_blocks].
  { exists st. split_and!; [| done | done]. cbn. by rewrite Z.add_0_r, orb_false_r. }
  unfold pull_block. pose proof (sv_filter _ _ _ _ _ Hs 0%nat b (sy_clock st) eq_refl) as Ef. rewrite Z.add_0_r in Ef. rewrite Ef.
  cbn [tick sy_node]. rewrite Hd. cbn [advances]. pose proof (filter_height _ _ _ _ _ Ef) as Eh.
  pose proof (sv_range _ _ _ _ _ Hs) as [Hp Hr]. cbn [length] in Hr. rewrite Eh, succ_small by lia.
  destruct (IH (h + 1) true (with_node n1 (tick st))) as (st' & E & H1 & H2); [apply (served_tail net magic s h [b] bs Hs) | exact Hf' |].
  exists st'. split_and!; [| done | exact H2]. rewrite E, length_cons. replace (h + Z.of_nat (S (length bs))) with (h + 1 + Z.of_nat (length bs)) by lia. rewrite (bool_decide_false (b :: bs = [])) by done. by rewrite orb_true_r.
Qed.

Lemma follows_split pool n bs1 bs2 n' : follows pool n (bs1 ++ bs2) n' -> exists n1, follows pool n bs1 n1 /\ follows pool n1 bs2 n'.
Proof.
  revert n. induction bs1 as [|b bs1 IH]; intros n Hf; [exists n; by split; [constructor |] |].
  inversion Hf as [|? ? ? n1 ? Hd Hf']; subst. destruct (IH n1 Hf') as (n2 & H1 & H2). exists n2. split; [by econstructor | done].
Qed.

(** Peers that serve the chain of [s] or do not answer. *)
Definition honest net (json_len : Block -> option Z) (s : CChainState) (urls : list bytes) : Prop :=
  forall t url h count, url ∈ urls -> net_blocks net t url h count = None \/ net_blocks net t url h count = Some (serve_blocks json_len s h count).

Definition responsive net url : Prop := forall t h count, is_u64 h -> net_blocks net t url h count <> None.

(** A round takes at least one block. *)
Lemma pull_round_follow net (json_len : Block -> option Z) pool magic (s : CChainState) (peers : list bytes) (h batch : Z) bs st n' :
  honest net json_len s peers -> Exists (responsive net) peers -> served net magic s h bs -> follows pool (sy_node st) bs n' ->
  0 < batch <= Z.of_nat (length bs) -> batch <= LINEAR_SYNC_BATCH ->
  exists (k : nat) st' n1, (0 < k)%nat /\ pull_round net pool magic peers h batch st = (st', (h + Z.of_nat k, true, false)) /\
    sy_node st' = n1 /\ follows pool n1 (drop k bs) n' /\ (k <= length bs)%nat /\ sy_scores st' = sy_scores st.
Proof.
  intros Hh Hr Hs Hf Hb Hb'. revert st Hf. induction peers as [|url peers IH]; intros st Hf; [by apply Exists_nil in Hr |].
  cbn [pull_round]. unfold request_blocks.
  destruct (Hh (sy_clock st) url h batch (list_elem_of_here _ _)) as [E | E]; rewrite E.
  - apply Exists_cons in Hr as [Hr | Hr]; [pose proof (sv_range _ _ _ _ _ Hs); by destruct (Hr (sy_clock st) h batch); [unfold is_u; lia |] |].
    destruct (IH (fun t u h c Hu => Hh t u h c (list_elem_of_further _ _ _ Hu)) Hr (tick st) Hf) as (k & st' & n1 & H). by exists k, st', n1.
  - unfold serve_blocks. set (m := if h =? BlockHeight.GENESIS then 1 else Z.min batch LINEAR_SYNC_BATCH).
    assert (0 < m <= Z.of_nat (length bs)) as Hm by (unfold m; destruct (h =? BlockHeight.GENESIS); lia).
    destruct (batch_blocks_prefix net magic json_len s (Z.to_nat m) h 0 [] bs Hs ltac:(lia)) as (k & Hk & Eb & Hpos).
    specialize (Hpos eq_refl ltac:(lia)). rewrite Eb. cbn [app]. rewrite <- (take_drop k bs) in Hs, Hf.
    destruct (follows_split pool _ _ _ _ Hf) as (n1 & Hf1 & Hf2).
    assert (served net magic s h (take k bs)) as Hst.
    { destruct Hs as [S1 S2 S3]. constructor; [intros i b Ei; apply S1 | intros i b t Ei; apply S2 | rewrite length_app in S3; lia];
        by apply lookup_app_l_Some. }
    destruct (pull_blocks_follow net pool magic url s h false (take k bs) (tick st) n1 Hst Hf1) as (st' & Ep & Hn & Hsc).
    assert (length (take k bs) = k) as El by (rewrite length_take; lia). rewrite El in Ep.
    destruct (take k bs) as [|b0 rest] eqn:Et; [cbn in El; lia |]. rewrite Ep. cbn [orb negb]. rewrite bool_decide_false by done. cbn [negb].
    exists k, st', n1. by split_and!; [| | | | lia |].
Qed.

Lemma batch_len_served net magic (s : CChainState) (h : Z) bs :
  served net magic s h bs -> bs <> [] ->
  sync_batch_len (h + Z.of_nat (length bs) - 1) h = Z.min LINEAR_SYNC_BATCH (Z.of_nat (length bs)).
Proof.
  intros Hs Hne. pose proof (sv_range _ _ _ _ _ Hs) as [Hp Hr]. assert (0 < length bs)%nat by (destruct bs; [done | cbn; lia]).
  unfold sync_batch_len, saturating_sub, saturating_add, umax, LINEAR_SYNC_BATCH. lia.
Qed.

Lemma pull_loop_follow net (json_len : Block -> option Z) pool magic (s : CChainState) (peers : list bytes) (fuel : nat) (h : Z) bs st n' :
  honest net json_len s peers -> Exists (responsive net) peers -> served net magic s h bs -> follows pool (sy_node st) bs n' ->
  (length bs <= fuel)%nat ->
  exists st', pull_loop net fuel pool magic peers (h + Z.of_nat (length bs) - 1) h st = (st', Pulled_) /\
    sy_node st' = n' /\ sy_scores st' = sy_scores st.
Proof.
  intros Hh Hr. revert h bs st. induction fuel as [|fuel IH]; intros h bs st Hs Hf Hl; cbn [pull_loop].
  - destruct bs; [| cbn in Hl; lia]. inversion Hf; subst. rewrite (proj2 (Z.ltb_lt _ _)) by (cbn; lia). by exists st.
  - destruct (decide (bs = [])) as [-> | Hne].
    { inversion Hf; subst. rewrite (proj2 (Z.ltb_lt _ _)) by (cbn; lia). by exists st. }
    assert (0 < length bs)%nat by (destruct bs; [done | cbn; lia]). rewrite (proj2 (Z.ltb_ge _ _)) by lia.
    rewrite (batch_len_served net magic s h bs Hs Hne).
    destruct (pull_round_follow net json_len pool magic s peers h (Z.min LINEAR_SYNC_BATCH (Z.of_nat (length bs))) bs st n' Hh Hr Hs Hf)
      as (k & st1 & n1 & Hk & E & Hn1 & Hf1 & Hkl & Hsc); [unfold LINEAR_SYNC_BATCH; lia | lia |]. rewrite E. subst n1.
    destruct (IH (h + Z.of_nat k) (drop k bs) st1) as (st' & E' & Hn & Hs'); [| exact Hf1 | rewrite length_drop; lia |].
    { rewrite <- (take_drop k bs) in Hs. apply served_tail in Hs. by rewrite length_take, Nat.min_l in Hs by lia. }
    exists st'. split_and!; [| done | congruence]. rewrite length_drop in E'.
    by replace (h + Z.of_nat k + Z.of_nat (length bs - k) - 1) with (h + Z.of_nat (length bs) - 1) in E' by lia.
Qed.

(** *** The height after an extension *)

Lemma execute_and_commit_height b us (key : bytes) (tgt : Z) (n n' : Node) (h : Z) :
  execute_and_commit b us key tgt n = (n', Ok (CanonicalExtension h)) -> chain_height (chain n') = h.
Proof.
  unfold execute_and_commit. destruct (execute_block (chain n) b us key tgt) as [leaves [ex|]]; [| done].
  pose proof (commit_executed_cases b us (exec_overlay ex) (with_anchors leaves (chain n))) as Hc.
  destruct (commit_executed b us (exec_overlay ex) (with_anchors leaves (chain n))) as [s' r]. intros [= <- ->].
  destruct Hc as (-> & Hlt & _ & entry & d & _ & _ & ->). cbn [chain with_latest chain_height].
  pose proof (extended_part b us (Some (default [] (overlay_aggregate (exec_overlay ex)))) (Some (supply_entry_batch (height (header b)) entry))
    (Some (serialize undo_codec (undo_ops d))) (with_anchors leaves (chain n)) Hlt) as (_ & Eh & _)%chain_part_inv. exact Eh.
Qed.

Lemma accept_height (fuel : nat) (locked : bool) pool b us (key : bytes) (tgt : Z) (n n' : Node) (h : Z) :
  accept fuel locked pool b us key tgt n = (n', Ok (CanonicalExtension h)) -> chain_height (chain n') = h.
Proof.
  revert n. induction fuel as [|fuel IH]; intros n; cbn [accept]; [done |]. destruct (accept_checks (chain n) b us key tgt); [| done].
  destruct (detect_reorg b (chain n)) as [[| fh parent |]|]; [| | done | done].
  - unfold accept_new. destruct (_ <? _); [done |]. destruct (Z.eqb_spec (height (header b)) (chain_height (chain n))) as [Eh | _].
    + destruct (accept_at_tip b us (chain n)) as [s' r] eqn:Ea. intros [= _ ->]. by apply accept_at_tip_stays in Ea.
    + apply execute_and_commit_height.
  - destruct (hash_block parent); [| done]. destruct (activate_with _ _ _ _ _ _) as [n2 [u|e]]; [apply IH | done].
Qed.

Lemma follows_height pool n bs n' b : follows pool n bs n' -> last bs = Some b -> chain_height (chain n') = height (header b).
Proof.
  induction 1 as [|n b0 bs n1 n' Hd Hf IH]; [done |]. destruct bs as [|b1 bs]; [| by intros ?%IH]. intros [= <-].
  inversion Hf; subst. by eapply accept_height.
Qed.

(** *** A whole pass *)

(** Dialed peers that announce the tip of [s] or stay silent. *)
Definition honest_tips net (t : Tip) (urls : list bytes) : Prop :=
  forall k url, url ∈ urls -> net_tip net k url = None \/ net_tip net k url = Some t.

Lemma collect_honest net (t : Tip) (pt : PeerTip) (i : nat) (urls : list bytes) st :
  honest_tips net t urls -> PeerTip_from_tip t = Some pt ->
  exists n, map snd (collect_tips net i urls st).2 = replicate n pt /\
    (Exists (fun url => forall k, net_tip net k url <> None) urls -> (0 < n)%nat).
Proof.
  intros Hh Ht. revert i st. induction urls as [|url urls IH]; intros i st; cbn [collect_tips].
  { exists 0%nat. split; [done |]. by intros ?%Exists_nil. }
  unfold request_tip. destruct (IH (fun k u Hu => Hh k u (list_elem_of_further _ _ _ Hu)) (S i) (tick st)) as (n & E & Hpos).
  destruct (collect_tips net (S i) urls (tick st)) as [st2 answered]. cbn [snd] in *.
  destruct (Hh (sy_clock st) url (list_elem_of_here _ _)) as [E1 | E1]; rewrite E1.
  - exists n. split; [done |]. intros [Hr | Hr]%Exists_cons; [by destruct (Hr (sy_clock st)) | by apply Hpos].
  - rewrite Ht. exists (S n). split; [cbn; by rewrite E | lia].
Qed.

Lemma indices_all {A : Type} (i : nat) (p : A -> bool) (l : list A) :
  Forall (fun x => p x = true) l -> indices_from i p l = seq i (length l).
Proof. intros H. revert i. induction H as [|x l Hx _ IH]; intros i; cbn; [done |]. by rewrite Hx, IH. Qed.

Lemma votes_unanimous (g : option bytes) (k : Z) (tips : list PeerTip) :
  Forall (fun t => peer_genesis t = g) tips ->
  foldl (fun vs t => cast_vote (peer_genesis t) vs) [(g, k)] tips = [(g, k + Z.of_nat (length tips))].
Proof.
  intros H. revert k. induction H as [|t tips Ht _ IH]; intros k; cbn [foldl length]; [by rewrite Z.add_0_r |].
  cbn [cast_vote]. rewrite Ht, bool_decide_true by done. rewrite IH. by replace (k + 1 + Z.of_nat (length tips)) with (k + Z.of_nat (S (length tips))) by lia.
Qed.

Lemma filter_unanimous (ours g : option bytes) (n : nat) (pt : PeerTip) :
  peer_genesis pt = g -> is_Some g -> ours = None \/ ours = g -> (0 < n)%nat ->
  apply_genesis_filter ours (replicate n pt) Strict = seq 0 n.
Proof.
  intros Hg [gh Hs] Ho Hn. unfold apply_genesis_filter. rewrite bool_decide_false by done.
  assert (forall g', g = g' -> indices_where (fun t => bool_decide (peer_genesis t = g')) (replicate n pt) = seq 0 n) as Hall.
  { intros g' <-. unfold indices_where. rewrite indices_all, length_replicate; [done |]. apply Forall_replicate. by apply bool_decide_true. }
  destruct ours as [ours|].
  - rewrite bool_decide_false by done. cbn [andb]. apply Hall. naive_solver.
  - destruct n as [|n]; [lia |]. cbn [replicate foldl cast_vote]. rewrite (votes_unanimous (peer_genesis pt) 1) by (by apply Forall_replicate).
    cbn [top_vote foldl]. change (pt :: replicate n pt) with (replicate (S n) pt). by apply Hall.
Qed.

Lemma kept_all (tips : list PeerTip) : kept_tips tips (seq 0 (length tips)) = tips.
Proof.
  unfold kept_tips. assert (forall pre, omap (fun i => (pre ++ tips) !! i) (seq (length pre) (length tips)) = tips) as H; [| apply (H [])].
  induction tips as [|t tips IH]; intros pre; [done |]. cbn [length seq omap list_omap]. rewrite lookup_app_r, Nat.sub_diag by lia. cbn.
  f_equal. specialize (IH (pre ++ [t])). rewrite <- app_assoc, length_app in IH. cbn in IH. by rewrite Nat.add_1_r in IH.
Qed.

Lemma best_unanimous (n : nat) (pt : PeerTip) : 0 <= peer_height pt -> (0 < n)%nat -> best_height (replicate n pt) = peer_height pt.
Proof.
  intros Hp Hn. destruct n as [|n]; [lia |]. unfold best_height. cbn [replicate foldl].
  assert ((if 0 <? peer_height pt then peer_height pt else 0) = peer_height pt) as -> by (destruct (Z.ltb_spec 0 (peer_height pt)); lia).
  clear Hn. induction n as [|n IH]; cbn [replicate foldl]; [done |]. by rewrite Z.ltb_irrefl.
Qed.

Lemma none_rejected (slot n : nat) (answered : list (nat * PeerTip)) :
  (slot + length answered <= n)%nat -> rejected_peers slot answered (seq 0 n) = [].
Proof.
  revert slot. induction answered as [|[i pt] answered IH]; intros slot Hl; cbn [rejected_peers]; [done |]. cbn [length] in Hl.
  rewrite bool_decide_true by (apply elem_of_seq; lia). apply IH. lia.
Qed.

Lemma all_kept {A : Type} (i : nat) (peers : list A) : without_peers i [] peers = peers.
Proof. revert i. induction peers as [|p peers IH]; intros i; cbn; [done |]. by rewrite IH. Qed.

Lemma serve_tip_height (s : CChainState) :
  tip_height (serve_tip s).2 = chain_height s /\ tip_genesis (serve_tip s).2 = genesis_hash s.
Proof.
  unfold serve_tip, tip_hash. destruct (tip_cache s) as [[h hash]|].
  - destruct (Z.eqb_spec h (chain_height s)) as [-> |]; [done |]. destruct (get_block _ _); [| done]. by destruct (hash_block _).
  - destruct (get_block _ _); [| done]. by destruct (hash_block _).
Qed.

(** C15: a node catches up.  Let the peers it dials announce and serve the chain
    of one state, or not answer, one of them always answering; let that state
    have a genesis, and the node the same one or none yet.  Suppose it lacks at
    least one block, and that each block it lacks passes the filters of the
    puller whenever it is looked at (its height is the one asked for, its token
    balance is proved, its timestamp is not ahead of the clock by more than is
    allowed, its proof-of-work machine can be built and, for a genesis block, its
    magic and its pin are right) and extends the chain when it is delivered after
    those before it.  The acceptor does not imply these filters, it has no clock
    and no pins.  Then a single pass ends with the node at the height of that
    chain and in the state those deliveries lead to, it is marked as caught up,
    and no peer is scored. *)
Theorem sync_catches_up net (json_len : Block -> option Z) pool (authority : bool) magic (cs : list Channel) (s : CChainState) bs st (n' : Node) :
  honest net json_len s (dial_sync_peers net cs st).2 -> honest_tips net (serve_tip s).2 (dial_sync_peers net cs st).2 ->
  Exists (fun url => responsive net url /\ forall k, net_tip net k url <> None) (dial_sync_peers net cs st).2 ->
  is_Some (genesis_hash s) -> genesis_hash (sy_chain st) = None \/ genesis_hash (sy_chain st) = genesis_hash s ->
  chain_height s = chain_height (sy_chain st) + Z.of_nat (length bs) -> 0 <= chain_height (sy_chain st) ->
  bs <> [] -> served net magic s (chain_height (sy_chain st) + 1) bs -> follows pool (sy_node st) bs n' ->
  (sync_pass net pool authority magic cs st).2 = CaughtUp /\
  sy_node (sync_pass net pool authority magic cs st).1 = n' /\ chain_height (chain n') = chain_height s /\
  sy_scores (sync_pass net pool authority magic cs st).1 = sy_scores st.
Proof.
  intros Hh Ht Hr [g Hg] Ho Hlen Hpos Hne Hs Hf. destruct (serve_tip_height s) as [Eth Etg].
  pose proof (sv_range _ _ _ _ _ Hs) as [_ Hrange].
  set (pt := {| peer_height := chain_height s;
    peer_hash := if BlockHeight.is_zero (chain_height s) && bool_decide (tip_block (serve_tip s).2 = zero32) then zero32 else tip_block (serve_tip s).2;
    peer_genesis := Some g |}). assert (PeerTip_from_tip (serve_tip s).2 = Some pt) as Ept.
  { unfold PeerTip_from_tip. rewrite Eth, Etg, Hg. assert (chain_height s =? umax 64 = false) as -> by (apply Z.eqb_neq; unfold umax; lia).
    rewrite (bool_decide_false (Some g = None)) by done. by rewrite andb_false_r. }
  assert (chain_height (chain n') = chain_height s) as Hheight.
  { destruct (last bs) as [b|] eqn:El; [| by apply last_None in El]. rewrite (follows_height pool _ _ _ _ Hf El).
    rewrite last_lookup in El. destruct (sv_block _ _ _ _ _ Hs _ _ El) as [_ ->]. rewrite Hlen.
    assert (0 < length bs)%nat by (destruct bs; [done | cbn; lia]). lia. }
  unfold sync_pass. cbv zeta. destruct (dial_sync_peers net cs st) as [st1 peers] eqn:Ed. cbn [fst snd] in *.
  assert (sy_node st1 = sy_node st /\ sy_scores st1 = sy_scores st) as [En1 Es1].
  { unfold dial_sync_peers in Ed. pose proof (dial_all_keeps net (take MAX_SYNC_PEERS (filtered_peers cs)) st) as (E1 & E2 & _). rewrite Ed in E1, E2. done. }
  destruct (collect_honest net _ _ 0 peers st1 Ht Ept) as (m & Em & Hm). pose proof (collect_tips_keeps net 0 peers st1) as [En2 Es2].
  destruct (collect_tips net 0 peers st1) as [st2 answered]. cbn [fst snd] in *.
  assert (0 < m)%nat as Hm0 by (apply Hm; eapply Exists_impl; [exact Hr | naive_solver]).
  assert (length answered = m) as Ela by (rewrite <- (length_map snd), Em; apply length_replicate).
  rewrite Em, (filter_unanimous _ (Some g) m pt); [| done | by eexists | destruct (_ <=? _); [rewrite <- Hg; naive_solver | by left] | done].
  assert (kept_tips (replicate m pt) (seq 0 m) = replicate m pt) as -> by (rewrite <- (length_replicate m pt) at 2; apply kept_all).
  rewrite best_unanimous, none_rejected, all_kept by (first [done | lia | cbn; lia]). cbn [peer_height pt].
  rewrite (succ_small (chain_height (sy_chain st))) by lia.
  destruct (pull_loop_follow net json_len pool magic s peers (length bs) (chain_height (sy_chain st) + 1) bs st2 n') as (st3 & E3 & Hn3 & Hs3);
    [done | eapply Exists_impl; [exact Hr | naive_solver] | done | congruence | lia |].
  replace (chain_height (sy_chain st) + 1 + Z.of_nat (length bs) - 1) with (chain_height s) in E3 by lia.
  replace (Z.to_nat (chain_height s - (chain_height (sy_chain st) + 1) + 1)) with (length bs) by lia. rewrite E3.
  cbn [fst snd]. unfold sy_chain at 1. rewrite Hn3, Hheight, Z.leb_refl. cbn [andb].
  assert (peers <> []) as Hp by (intros ->; by apply Exists_nil in Hr). rewrite bool_decide_false by done. cbn [negb]. rewrite orb_true_r.
  split_and!; [done | done | done | congruence].
Qed.

(** ** What the walk does not look at *)

(** The block that is to extend the peer's chain is weighed before anything
    about it is checked.  Its claimed target counts as work, so a block that the
    acceptor refuses, and goes on refusing, moves the node to the peer's chain
    whenever a genuine block of the same height and target would: the pull
    reports no progress, the peer is not scored, and the node is left where the
    reorganisation and the second refusal put it. *)
Lemma forged_extension_moves_node net pool magic url (next : Z) b forged st (n1 : Node) (stage1 : string) st2 (n3 : Node) (stage3 : string) :
  height (header forged) = height (header b) -> target (header forged) = target (header b) ->
  sync_filter magic (net_now net (sy_clock st)) next forged = Ok tt ->
  deliver_synced pool forged (sy_node st) = (n1, Err (Rejected stage1)) ->
  reorg_to_heavier_chain net pool b url (with_node n1 (tick st)) = (st2, Applied) ->
  deliver_synced pool forged (sy_node st2) = (n3, Err (Rejected stage3)) -> net_wf net ->
  pull_block net pool magic url next forged st = (with_node n3 st2, Stop false) /\ sy_scores (with_node n3 st2) = sy_scores st.
Proof.
  intros Eh Et Ef E1 Er E3 Hn. assert (reorg_to_heavier_chain net pool forged url (with_node n1 (tick st)) = (st2, Applied)) as Er'
    by (rewrite <- Er; unfold reorg_to_heavier_chain; by rewrite Eh, Et).
  split; [| apply reorg_ok in Er as (Hs & _); [exact Hs | done]].
  unfold pull_block. rewrite Ef. cbn [tick sy_node] in *. rewrite E1. cbn [advances hangs]. rewrite Er'. rewrite E3. done.
Qed.

(** A block mined with another chain's work does not meet its target with the
    hash of its own header; the walk fails on it, be it the node's own block. *)
Lemma walk_needs_own_hash net (rounds : nat) url (cursor : Z) bs st fetched rest hash :
  net_blocks net (sy_clock st) url cursor 1 = Some (fetched :: rest) -> hash_block fetched = Ok hash ->
  BlockTarget.hash_is_valid (target (header fetched)) (hash_u32 hash) = false ->
  (fork_walk net rounds url cursor bs st).2 = None.
Proof.
  intros Eb Eh Ev. destruct rounds as [|rounds]; cbn [fork_walk]; [done |]. destruct (chain_block _ _) as [local|]; [| done].
  unfold request_blocks. rewrite Eb. destruct (hash_block local); [| done]. by rewrite Eh, Ev.
Qed.

(** Peers that answer no tip do not keep the node from being caught up: the
    greatest height heard of is then zero. *)
Lemma silence_opens_gate net pool (authority : bool) magic (cs : list Channel) st :
  (forall k url, net_tip net k url = None) -> 0 <= chain_height (sy_chain st) < umax 64 -> (dial_sync_peers net cs st).2 <> [] ->
  (sync_pass net pool authority magic cs st).2 = CaughtUp.
Proof.
  intros Hs Hh Hp. unfold sync_pass. cbv zeta. pose proof (dial_all_keeps net (take MAX_SYNC_PEERS (filtered_peers cs)) st) as (E1 & _ & _).
  unfold dial_sync_peers in *. destruct (dial_all net _ st) as [st1 peers]. cbn [fst snd] in *.
  assert (forall i l st0, (collect_tips net i l st0).2 = []) as Hc.
  { intros i l. revert i. induction l as [|u l IH]; intros i st0; cbn [collect_tips]; [done |]. unfold request_tip. specialize (IH (S i) (tick st0)).
    destruct (collect_tips net (S i) l (tick st0)) as [st2 answered]. cbn [snd] in *. by rewrite Hs. }
  specialize (Hc 0%nat peers st1). pose proof (collect_tips_keeps net 0 peers st1) as [E2 _].
  destruct (collect_tips net 0 peers st1) as [st2 answered]. cbn [fst snd] in *. subst answered. cbn [map].
  assert (forall ours, apply_genesis_filter ours [] Strict = []) as Ef by (by intros [ours|]). rewrite Ef. cbn [kept_tips omap list_omap best_height foldl rejected_peers].
  rewrite all_kept. unfold umax in Hh. rewrite (succ_small (chain_height (sy_chain st))) by lia.
  assert (Z.to_nat (0 - (chain_height (sy_chain st) + 1) + 1) = 0%nat) as -> by lia. cbn [pull_loop]. rewrite (proj2 (Z.ltb_lt _ _)) by lia.
  cbn [snd]. assert (chain_height (sy_chain st2) = chain_height (sy_chain st)) as -> by (unfold sy_chain; by rewrite E2, E1).
  rewrite (proj2 (Z.leb_le _ _)) by lia. rewrite bool_decide_false by done. by rewrite orb_true_r.
Qed.
End sync.
