(* ===== verification/GenesisVote.v ===== *)
(** * The vote on the genesis

    What [apply_genesis_filter] keeps: a node without a genesis follows the one
    most of the answering peers present, with a rule for ties that does not
    depend on the order in which they answered. *)

From Stdlib Require Import Sorted.
From S2P Require Import Prelude Units Serial Externals Transaction Block Store Competing Consensus Sync.

Implicit Types (g : option bytes) (t : PeerTip) (tips : list PeerTip) (v : option bytes * Z).

(** ** The order of the candidates *)

Lemma lex_le_antisym (a b : list Z) : lex_le a b = true -> lex_le b a = true -> a = b.
Proof.
  revert b. induction a as [|x a IH]; intros [|y b]; cbn; [done.. |]. rewrite !orb_true_iff, !andb_true_iff, !Z.ltb_lt, !Z.eqb_eq.
  intros [? | [-> H1]] [? | [? H2]]; try lia. f_equal. by apply IH.
Qed.

Lemma genesis_le_antisym g g' : genesis_le g g' = true -> genesis_le g' g = true -> g = g'.
Proof. destruct g as [a|], g' as [b|]; cbn; [| done..]. intros H1 H2. f_equal. by apply lex_le_antisym. Qed.

Lemma genesis_le_trans g g' g'' : genesis_le g g' = true -> genesis_le g' g'' = true -> genesis_le g g'' = true.
Proof. destruct g as [a|], g' as [b|], g'' as [c|]; cbn; try done. apply lex_le_trans. Qed.

Definition before v v' : Prop := genesis_le v.1 v'.1 = true /\ v.1 <> v'.1.

Lemma before_trans v1 v2 v3 : before v1 v2 -> before v2 v3 -> before v1 v3.
Proof.
  intros [H1 N1] [H2 N2]. split; [by eapply genesis_le_trans |]. intros E. apply N2. rewrite E in H1. by apply genesis_le_antisym.
Qed.

Lemma vote_le_spec v v' : vote_le v v' = true <-> v.2 < v'.2 \/ (v.2 = v'.2 /\ (is_Some v.1 -> is_Some v'.1)).
Proof.
  unfold vote_le. rewrite orb_true_iff, andb_true_iff, Z.ltb_lt, Z.eqb_eq, implb_true_iff, !bool_decide_eq_true. done.
Qed.

(** ** Counting *)

Definition count_of g tips : Z := Z.of_nat (List.length (List.filter (fun t => bool_decide (peer_genesis t = g)) tips)).

(** The map of votes: ascending, one entry per genesis, with its count. *)
Record tally tips (vs : list (option bytes * Z)) : Prop := {
  ta_sorted : StronglySorted before vs;
  ta_count : Forall (fun v => v.2 = count_of v.1 tips) vs;
  ta_all : forall t, t ∈ tips -> peer_genesis t ∈ map fst vs
}.

Lemma cast_vote_fst g (vs : list (option bytes * Z)) : forall x, x ∈ map fst (cast_vote g vs) <-> x = g \/ x ∈ map fst vs.
Proof.
  induction vs as [|[g' n] vs IH]; intros x; cbn [cast_vote map fst]; [set_solver |]. case_bool_decide as E; [subst; cbn; set_solver |].
  destruct (genesis_le g g'); cbn [map fst]; [set_solver |]. rewrite !elem_of_cons, IH. set_solver.
Qed.

Lemma cast_vote_sorted g (vs : list (option bytes * Z)) : StronglySorted before vs -> StronglySorted before (cast_vote g vs).
Proof.
  induction 1 as [|[g' n] vs Hs IH Hb]; cbn [cast_vote]; [repeat constructor |]. case_bool_decide as E.
  - constructor; [done |]. eapply Forall_impl; [exact Hb |]. done.
  - destruct (genesis_le g g') eqn:El.
    + assert (before (g, 1) (g', n)) as Hg by done. constructor; [by constructor |]. constructor; [done |].
      eapply Forall_impl; [exact Hb |]. intros v Hv. by eapply before_trans.
    + constructor; [done |]. apply Forall_forall. intros [g2 n2] Hin.
      assert (g2 ∈ map fst (cast_vote g vs)) as Hf by (apply list_elem_of_fmap; by exists (g2, n2)).
      apply cast_vote_fst in Hf as [-> | Hf].
      * split; cbn; [| congruence]. unfold genesis_le in *. destruct g as [a|], g' as [b|]; try done. by apply lex_le_total.
      * apply list_elem_of_fmap in Hf as ([g3 n3] & -> & Hin'). rewrite Forall_forall in Hb. exact (Hb _ Hin').
Qed.

Lemma cast_vote_in g (vs : list (option bytes * Z)) v :
  StronglySorted before vs -> v ∈ cast_vote g vs ->
  (v.1 = g /\ ((exists n, (g, n) ∈ vs /\ v.2 = n + 1) \/ (g ∉ map fst vs /\ v.2 = 1))) \/ (v.1 <> g /\ v ∈ vs).
Proof.
  induction 1 as [|[g' n] vs Hs IH Hb]; cbn [cast_vote].
  { intros ->%list_elem_of_singleton. left. split; [done |]. right. split; [apply not_elem_of_nil | done]. }
  rewrite Forall_forall in Hb. case_bool_decide as E.
  - subst g'. intros [-> | Hin]%elem_of_cons; [left; split; [done |]; left; exists n; split; [left | done] |].
    right. split; [| by right]. destruct (Hb _ Hin) as [_ Hne]. cbn in Hne. congruence.
  - destruct (genesis_le g g') eqn:El.
    + intros [-> | Hin]%elem_of_cons.
      * left. split; [done |]. right. split; [| done]. cbn [map fst]. intros [-> | Hin]%elem_of_cons; [done |].
        apply list_elem_of_fmap in Hin as ([g2 n2] & -> & Hin). destruct (Hb _ Hin) as [H1 H2]. cbn in *. apply H2. by apply genesis_le_antisym.
      * right. split; [| done]. apply elem_of_cons in Hin as [-> | Hin]; [cbn; congruence |].
        destruct (Hb _ Hin) as [H1 H2]. cbn in *. intros Ev. rewrite Ev in *. apply E. by apply genesis_le_antisym.
    + intros [-> | Hin]%elem_of_cons; [right; cbn; split; [congruence | left] |].
      destruct (IH Hin) as [[H1 [(k & Hk & E2) | [Hn E2]]] | [H1 H2]].
      * left. split; [done |]. left. exists k. split; [by right | done].
      * left. split; [done |]. right. split; [| done]. cbn [map fst]. intros [Eg | Hg]%elem_of_cons; [congruence | done].
      * right. split; [done | by right].
Qed.

Lemma count_snoc g tips t : count_of g (tips ++ [t]) = count_of g tips + (if bool_decide (peer_genesis t = g) then 1 else 0).
Proof. unfold count_of. rewrite List.filter_app, length_app. cbn. case_bool_decide; cbn; lia. Qed.

Lemma count_absent g tips : (forall t, t ∈ tips -> peer_genesis t <> g) -> count_of g tips = 0.
Proof.
  intros H. unfold count_of. induction tips as [|t tips IH]; [done |]. cbn. rewrite bool_decide_false by (apply H; left).
  apply IH. intros t' Ht. apply H. by right.
Qed.

Lemma tally_votes tips : tally tips (foldl (fun vs t => cast_vote (peer_genesis t) vs) [] tips).
Proof.
  induction tips as [|t tips IH] using rev_ind; [constructor; [constructor | constructor | set_solver] |].
  rewrite foldl_app. cbn [foldl]. set (vs := foldl _ [] tips) in *. destruct IH as [H1 H2 H3]. constructor.
  - by apply cast_vote_sorted.
  - apply Forall_forall. intros v Hv. rewrite Forall_forall in H2. rewrite count_snoc.
    apply (cast_vote_in _ _ _ H1) in Hv as [[E [(n & Hn & En) | [Hn En]]] | [E Hv]].
    + rewrite E, bool_decide_true by done. pose proof (H2 _ Hn) as Hc. cbn in Hc. lia.
    + rewrite E, bool_decide_true by done. rewrite count_absent; [lia |]. intros t' Ht' Eg. apply Hn. rewrite <- Eg. by apply H3.
    + rewrite bool_decide_false by congruence. rewrite Z.add_0_r. by apply H2.
  - intros t' [Ht | ->%list_elem_of_singleton]%elem_of_app; apply cast_vote_fst; [right; by apply H3 | by left].
Qed.

(** ** The winner *)

Lemma top_vote_from (vs : list (option bytes * Z)) v0 :
  StronglySorted before (v0 :: vs) ->
  exists m, foldl (fun best v => match best with None => Some v | Some b => if vote_le b v then Some v else Some b end) (Some v0) vs = Some m /\
    m ∈ v0 :: vs /\ Forall (fun v => vote_le v m = true /\ (vote_le m v = true -> genesis_le v.1 m.1 = true)) (v0 :: vs).
Proof.
  assert (forall v, vote_le v v = true) as Hrefl by (intros v; apply vote_le_spec; by right).
  assert (forall v, genesis_le v.1 v.1 = true) as Hgr by (intros [[g|] n]; cbn; [apply lex_le_refl | done]).
  assert (forall a b c, vote_le a b = true -> vote_le b c = true -> vote_le a c = true) as Htr
    by (intros a b c; rewrite !vote_le_spec; intros [? | [? ?]] [? | [? ?]]; [left; lia .. | right; split; [lia | auto]]).
  revert v0. induction vs as [|x vs IH]; intros v0 Hs; cbn [foldl].
  { exists v0. split_and!; [done | left |]. constructor; [by split | constructor]. }
  apply StronglySorted_inv in Hs as [Hs Hb]. apply Forall_cons in Hb as [Hx Hb]. pose proof (StronglySorted_inv Hs) as [Hs' Hbx].
  destruct (vote_le v0 x) eqn:E.
  - destruct (IH x Hs) as (m & Em & Hin & Hall). exists m. split_and!; [done | by right |]. constructor; [| done].
    rewrite Forall_cons in Hall. destruct Hall as [[H1 _] _]. split; [by eapply Htr |]. intros _.
    apply elem_of_cons in Hin as [-> | Hin]; [apply Hx |]. rewrite Forall_forall in Hb. apply (Hb m Hin).
  - assert (StronglySorted before (v0 :: vs)) as Hs0 by (by constructor). destruct (IH v0 Hs0) as (m & Em & Hin & Hall).
    exists m. split_and!; [done | set_solver |]. apply Forall_cons in Hall as [H0 Hall]. constructor; [done |]. constructor; [| done].
    assert (vote_le x v0 = true) as Hxv.
    { apply not_true_iff_false in E. rewrite vote_le_spec in *. destruct (Z.lt_trichotomy x.2 v0.2) as [? | [? | ?]]; [by left | | exfalso; apply E; by left].
      right. split; [done |]. intros Hs1. destruct (v0.1) as [g|] eqn:Eg; [by eexists |]. exfalso. apply E. right. split; [done |]. by intros []. }
    split; [by eapply Htr, H0 |]. intros Hmx. exfalso. apply not_true_iff_false in E. apply E. eapply Htr; [apply H0 | exact Hmx].
Qed.

(** The genesis that wins among the answers. *)
Definition elected tips g : Prop :=
  (exists t, t ∈ tips /\ peer_genesis t = g) /\
  forall t, t ∈ tips -> let h := peer_genesis t in
    (count_of h tips < count_of g tips \/ (count_of h tips = count_of g tips /\ (is_Some h -> is_Some g) /\ (is_Some g -> is_Some h -> genesis_le h g = true))).

Lemma elected_unique tips g g' : elected tips g -> elected tips g' -> g = g'.
Proof.
  intros [(t & Ht & <-) H1] [(t' & Ht' & <-) H2]. pose proof (H1 t' Ht') as G1. pose proof (H2 t Ht) as G2. cbv zeta in *.
  destruct G1 as [? | (E1 & S1 & L1)]; [destruct G2 as [? | (? & _)]; lia |]. destruct G2 as [? | (E2 & S2 & L2)]; [lia |].
  destruct (peer_genesis t) as [a|] eqn:Ea, (peer_genesis t') as [b|] eqn:Eb; [| destruct (S2 ltac:(by eexists)) as [? ?]; done | destruct (S1 ltac:(by eexists)) as [? ?]; done | done].
  apply genesis_le_antisym; [apply L2 | apply L1]; by eexists.
Qed.

Lemma vote_elects tips :
  tips <> [] -> exists g n, top_vote (foldl (fun vs t => cast_vote (peer_genesis t) vs) [] tips) = Some (g, n) /\ elected tips g.
Proof.
  intros Hne. destruct (tally_votes tips) as [H1 H2 H3]. set (vs := foldl _ [] tips) in *.
  destruct vs as [|v0 vs]. { destruct tips as [|t tips]; [done |]. by destruct (not_elem_of_nil (peer_genesis t) (H3 t (list_elem_of_here _ _))). }
  destruct (top_vote_from vs v0 H1) as (m & Em & Hin & Hall). exists m.1, m.2. unfold top_vote. cbn [foldl]. rewrite Em.
  split; [by destruct m |]. rewrite Forall_forall in H2, Hall. pose proof (H2 m Hin) as Ecm. split.
  - destruct (decide (Exists (fun t => peer_genesis t = m.1) tips)) as [He | Hn]; [by apply Exists_exists in He |]. exfalso.
    assert (count_of m.1 tips = 0) as Ez by (apply count_absent; intros t Ht E; apply Hn, Exists_exists; by exists t).
    destruct tips as [|t tips]; [done |]. pose proof (H3 t (list_elem_of_here _ _)) as Hg. apply list_elem_of_fmap in Hg as (v & Ev & Hv).
    destruct (Hall v Hv) as [Hle _]. apply vote_le_spec in Hle. rewrite (H2 v Hv), Ecm, Ez, <- Ev in Hle.
    assert (0 < count_of (peer_genesis t) (t :: tips)); [| lia]. unfold count_of. cbn. rewrite bool_decide_true by done. cbn. lia.
  - intros t Ht. cbv zeta. pose proof (H3 t Ht) as Hg. apply list_elem_of_fmap in Hg as (v & Ev & Hv). rewrite Ev.
    destruct (Hall v Hv) as [Hle Htie]. rewrite vote_le_spec in Hle, Htie. rewrite (H2 v Hv), Ecm in Hle, Htie.
    destruct Hle as [Hlt | [Heq Hs]]; [by left |]. right. split_and!; [done | done |]. intros Hs1 Hs2. apply Htie. right. split; [lia | done].
Qed.

Lemma kept_filter (p : PeerTip -> bool) tips : kept_tips tips (indices_where p tips) = List.filter p tips.
Proof.
  unfold kept_tips, indices_where. assert (forall pre, omap (fun i => (pre ++ tips) !! i) (indices_from (List.length pre) p tips) = List.filter p tips) as H;
    [| apply (H [])].
  induction tips as [|t tips IH]; intros pre; [done |]. cbn [indices_from List.filter]. specialize (IH (pre ++ [t])).
  rewrite <- app_assoc, length_app in IH. cbn in IH. rewrite Nat.add_1_r in IH. destruct (p t); [| exact IH]. cbn [omap list_omap].
  rewrite lookup_app_r, Nat.sub_diag by lia. cbn. by rewrite IH.
Qed.

Lemma elected_perm tips tips' g : tips ≡ₚ tips' -> elected tips g -> elected tips' g.
Proof.
  intros Hp [(t & Ht & Eg) H]. assert (forall h, count_of h tips' = count_of h tips) as Hc.
  { intros h. unfold count_of. f_equal. apply Permutation_length. clear -Hp. induction Hp; cbn; repeat case_match; by econstructor. }
  split; [exists t; by rewrite <- Hp |]. intros t' Ht'. cbv zeta. rewrite (Hc (peer_genesis t')), (Hc g). apply H. by rewrite Hp.
Qed.

(** A node that has no genesis yet follows the plurality.  Of the tips it
    received it keeps exactly those with one genesis, which some peer presents,
    which no other is presented more often than, and which is a real one unless
    strictly more peers have none; the same tips in another order give the same
    ones. *)
Lemma genesis_vote_plurality tips (mode : GenesisFilterMode) :
  mode <> Off -> tips <> [] ->
  exists g, elected tips g /\
    (forall g', count_of g' tips <= count_of g tips) /\ (g = None -> forall h, count_of (Some h) tips < count_of None tips) /\
    kept_tips tips (apply_genesis_filter None tips mode) = List.filter (fun t => bool_decide (peer_genesis t = g)) tips /\
    forall tips', tips ≡ₚ tips' -> kept_tips tips' (apply_genesis_filter None tips' mode) ≡ₚ kept_tips tips (apply_genesis_filter None tips mode).
Proof.
  intros Hm Hne. assert (forall l, l <> [] -> exists g, elected l g /\
    kept_tips l (apply_genesis_filter None l mode) = List.filter (fun t => bool_decide (peer_genesis t = g)) l) as Hkeep.
  { intros l Hl. destruct (vote_elects l Hl) as (g & n & Ev & He). exists g. split; [done |]. unfold apply_genesis_filter.
    rewrite bool_decide_false, Ev by done. apply kept_filter. }
  destruct (Hkeep tips Hne) as (g & He & Ek). exists g. assert (0 < count_of g tips) as Hpos.
  { destruct He as [(t & Ht & <-) _]. unfold count_of. apply list_elem_of_split in Ht as (l1 & l2 & ->). rewrite List.filter_app, length_app.
    cbn. rewrite bool_decide_true by done. cbn. lia. }
  assert (forall g', 0 < count_of g' tips -> exists t, t ∈ tips /\ peer_genesis t = g') as Hex.
  { intros g' Hc. destruct (decide (Exists (fun t => peer_genesis t = g') tips)) as [Hx | Hx]; [by apply Exists_exists in Hx |].
    rewrite count_absent in Hc; [lia |]. intros t Ht E. apply Hx, Exists_exists. by exists t. }
  split_and!; [done | | | done |].
  - intros g'. destruct (decide (0 < count_of g' tips)) as [Hc |]; [| lia]. destruct (Hex g' Hc) as (t & Ht & <-).
    destruct He as [_ He]. destruct (He t Ht) as [? | [? _]]; lia.
  - intros -> h. destruct (decide (0 < count_of (Some h) tips)) as [Hc |]; [| lia]. destruct (Hex _ Hc) as (t & Ht & Et).
    destruct He as [_ He]. destruct (He t Ht) as [Hlt | (_ & Hs & _)]; rewrite Et in *; [lia |]. destruct (Hs ltac:(by eexists)) as [? ?]. done.
  - intros tips' Hp. destruct (Hkeep tips') as (g' & He' & Ek'); [intros ->; by apply Permutation_nil_r in Hp |].
    rewrite Ek, Ek'. rewrite (elected_unique tips' g' g He' (elected_perm _ _ _ Hp He)). clear -Hp. induction Hp; cbn; repeat case_match; by econstructor.
Qed.
