(* ===== verification/SyncExample.v ===== *)
(** * A node that synchronises

    The toy chain of [AcceptExample] served by one peer to a new node, and by
    another to a node on the sibling branch. *)

From Stdlib Require Import String.
From S2P Require Import Prelude F64 Units Emission Serial Externals Transaction Merkle Block Store Competing FeeEstimator.
From S2P Require Import Consensus NativeToken L1Contracts Nullifiers FeeWindow ContractRisk Supply Pedersen TokenContract TokenBalance.
From S2P Require Import TokenExample Validation Finality DarkTree CoreTx ZkVerifier ChainState Overlay Executor Ledger Acceptor Accepted Reorgs AcceptExample.
From S2P Require Import Sync SyncRuns GenesisVote.

Definition toy_url : bytes := [1].
Definition toy_channels : list Channel := [{| ch_session := 1; ch_host := None; ch_app := None; ch_sync_url := toy_url |}].
Definition toy_magic : bytes := [0; 0; 0; 0].

(** The peer serves a chain state; sizes are zero. *)
Definition toy_size (b : Block) : option Z := Some 0.

Definition toy_net (s : CChainState) : Network := {|
  net_dial _ _ := true;
  net_tip _ _ := Some (serve_tip s).2;
  net_blocks _ _ h count := if (0 <=? h) && (h <? 2 ^ 64) then Some (serve_blocks toy_size s h count) else None;
  net_now _ := 2000
|}.

Lemma batch_wf (c : list Block) (s : CChainState) (n : nat) (h used : Z) (acc : list Block) :
  represents c s -> is_u64 h -> Forall Block_wf acc ->
  Forall Block_wf (batch_blocks toy_size s n h used acc) /\ (List.length (batch_blocks toy_size s n h used acc) <= n + List.length acc)%nat.
Proof.
  intros Hr. revert h used acc. induction n as [|n IH]; intros h used acc Hu Ha; cbn [batch_blocks]; [split; [done | lia] |].
  destruct (get_block (store s) h) as [b|] eqn:E; [| split; [done | lia]]. destruct (negb _ && _); [split; [done | lia] |].
  assert (Block_wf b) as Hb by (apply (chain_block_wf c s h); [done | done |]; unfold chain_block; by rewrite E).
  destruct (IH (BlockHeight.succ h) (used + default (MAX_BATCH_BYTES + 1) (toy_size b)) (acc ++ [b])) as [H1 H2];
    [apply wrap_is_u; lia | apply Forall_app; by split; [| constructor] |].
  split; [done |]. rewrite length_app in H2. cbn [List.length] in H2. lia.
Qed.

Lemma toy_net_wf (c : list Block) (s : CChainState) : represents c s -> net_wf (toy_net s).
Proof.
  intros Hr t url h count bs. cbn [toy_net net_blocks]. destruct (Z.leb_spec 0 h), (Z.ltb_spec h (2 ^ 64)); cbn [andb]; try done. intros [= <-].
  unfold serve_blocks. destruct (batch_wf c s (Z.to_nat (if h =? BlockHeight.GENESIS then 1 else Z.min count LINEAR_SYNC_BATCH)) h 0 [] Hr) as [H1 H2];
    [split; lia | constructor |]. split; [done |]. unfold LINEAR_SYNC_BATCH in *. cbn in H2. destruct (h =? BlockHeight.GENESIS); lia.
Qed.

(** ** A new node and one peer *)

Definition at_start : SyncNode := {| sy_node := start; sy_clock := 0; sy_scores := ∅ |}.
Definition server : CChainState := chain at_second.
Definition passed_once : SyncNode * SyncStatus := sync_pass (toy_net server) true false toy_magic toy_channels at_start.

Lemma server_net_wf : net_wf (toy_net server).
Proof. destruct (good_accepted _ _ (fresh_good _ start_fresh) reach_second) as [c Hc]. exact (toy_net_wf c server (tr_represents _ _ Hc)). Qed.

Lemma synced_chain_checked_witness :
  exists c, valid_chain c /\ represents c (sy_chain passed_once.1).
Proof.
  destruct (synced_chain_checked at_start passed_once.1 start_fresh) as [(c & H1 & H2 & _) _].
  - apply rtc_once. exact (one_pass (toy_net server) true false toy_magic toy_channels at_start server_net_wf).
  - exists c. split; [exact H1 | exact H2].
Defined.

Lemma pull_terminates_witness :
  (pull_loop (toy_net server) 7 true toy_magic [toy_url] 2 1 at_start).2 <> PullExhausted.
Proof.
  refine (proj1 (pull_terminates (toy_net server) true toy_magic [toy_url] 2 1 7 at_start server_net_wf _ _ _)); [lia | lia | cbv; lia].
Defined.

(** The blocks as the peer stores them. *)
Definition ok_or_else {E A : Type} (d : A) (r : result E A) : A := match r with Ok a => a | Err _ => d end.

Lemma is_ok_else {E A : Type} (d : A) (r : result E A) : match r with Ok _ => true | Err _ => false end = true -> r = Ok (ok_or_else d r).
Proof. by destruct r. Qed.

Definition stored_first : Block := ok_or_else run_genesis (get_block (store server) 1).
Definition stored_second : Block := ok_or_else run_genesis (get_block (store server) 2).

Lemma read_first : get_block (store server) 1 = Ok stored_first /\ height (header stored_first) = 1.
Proof. split; [apply is_ok_else |]; vm_compute; reflexivity. Qed.

Lemma read_second : get_block (store server) 2 = Ok stored_second /\ height (header stored_second) = 2.
Proof. split; [apply is_ok_else |]; vm_compute; reflexivity. Qed.

Lemma first_passes : sync_filter toy_magic 2000 1 stored_first = Ok tt.
Proof. vm_compute. reflexivity. Qed.

Lemma second_passes : sync_filter toy_magic 2000 2 stored_second = Ok tt.
Proof. vm_compute. reflexivity. Qed.

Lemma toy_served : served (toy_net server) toy_magic server 1 [stored_first; stored_second].
Proof.
  constructor; [| | cbn [List.length]; lia].
  - intros [|[|i]] b Hi; [apply (inj Some) in Hi as <-; exact read_first | apply (inj Some) in Hi as <-; exact read_second | discriminate Hi].
  - intros [|[|i]] b t Hi; [apply (inj Some) in Hi as <-; exact first_passes | apply (inj Some) in Hi as <-; exact second_passes | discriminate Hi].
Qed.

Definition after_one : Node := (deliver_synced true stored_first start).1.
Definition after_two : Node := (deliver_synced true stored_second after_one).1.

Lemma first_extends : deliver_synced true stored_first start = (after_one, Ok (CanonicalExtension (height (header stored_first)))).
Proof. rewrite (proj2 read_first). unfold after_one. apply pair_result. vm_compute. reflexivity. Qed.

Lemma second_extends : deliver_synced true stored_second after_one = (after_two, Ok (CanonicalExtension (height (header stored_second)))).
Proof. rewrite (proj2 read_second). unfold after_two. apply pair_result. vm_compute. reflexivity. Qed.

Lemma toy_follows : follows true start [stored_first; stored_second] after_two.
Proof. apply (follows_cons true _ _ _ _ _ first_extends), (follows_cons true _ _ _ _ _ second_extends), follows_nil. Qed.

Lemma toy_peers : (dial_sync_peers (toy_net server) toy_channels at_start).2 = [toy_url].
Proof. reflexivity. Qed.

Lemma server_genesis : is_Some (genesis_hash server).
Proof. assert (bool_decide (genesis_hash server = None) = false) as E by (vm_compute; reflexivity). apply bool_decide_eq_false in E. by apply not_eq_None_Some. Qed.

Lemma server_height : chain_height server = 2.
Proof. vm_compute. reflexivity. Qed.

Lemma sync_catches_up_witness : passed_once.2 = CaughtUp /\ sy_node passed_once.1 = after_two.
Proof.
  assert (honest (toy_net server) toy_size server (dial_sync_peers (toy_net server) toy_channels at_start).2) as Hh.
  { intros t url h count _. cbn [toy_net net_blocks]. destruct (_ && _); [by right | by left]. }
  assert (honest_tips (toy_net server) (serve_tip server).2 (dial_sync_peers (toy_net server) toy_channels at_start).2) as Ht
    by (intros k url _; by right).
  assert (Exists (fun url => responsive (toy_net server) url /\ forall k, net_tip (toy_net server) k url <> None)
    (dial_sync_peers (toy_net server) toy_channels at_start).2) as Hr.
  { rewrite toy_peers. constructor. split; [| done]. intros t h count [H0 H1]. cbn [toy_net net_blocks].
    by rewrite (proj2 (Z.leb_le _ _)), (proj2 (Z.ltb_lt _ _)). }
  destruct (sync_catches_up (toy_net server) toy_size true false toy_magic toy_channels server [stored_first; stored_second] at_start after_two
    Hh Ht Hr server_genesis) as (H1 & H2 & _).
  - left. reflexivity.
  - rewrite server_height. reflexivity.
  - exact (Z.le_refl 0).
  - done.
  - exact toy_served.
  - exact toy_follows.
  - split; [exact H1 | exact H2].
Defined.

(** ** A peer that lies about work *)

(** A third block on the sibling with a target it does not meet. *)
Definition forged_block : Block :=
  let b := minted_block 3 1240 105 (toy_hash run_sibling) [] in let h := header b in {|
  header := {|
    version := version h; previous := previous h; merkle_root := merkle_root h; timestamp := timestamp h; target := 1; nonce := nonce h;
    height := height h; uncle_merkle_root := uncle_merkle_root h; total_reward := total_reward h; randomx_key := randomx_key h; miner := miner h;
    anchor_owner := anchor_owner h; commitment_merkle_root := commitment_merkle_root h; nullifier_root := nullifier_root h;
    anchor_tx_id := anchor_tx_id h; caribina_anchor := caribina_anchor h; anchor_monero_height := anchor_monero_height h;
    anchor_monero_hash := anchor_monero_hash h; finality_flags := finality_flags h; fee_window_flags := fee_window_flags h; pow_source := pow_source h |};
  transactions := transactions b |}.

Lemma forged_block_wf : Block_wf forged_block.
Proof.
  assert (Block_wf (minted_block 3 1240 105 (toy_hash run_sibling) [])) as [Hh Ht] by minted_wf. split; [| exact Ht].
  unfold BlockHeader_wf in *. assert (is_u32 1) by (unfold is_u; lia). unfold forged_block. cbn [header version previous merkle_root
    timestamp target nonce height uncle_merkle_root total_reward randomx_key miner anchor_owner commitment_merkle_root
    nullifier_root anchor_tx_id caribina_anchor anchor_monero_height anchor_monero_hash finality_flags pow_source] in *. tauto.
Qed.

Definition liar : Network := {|
  net_dial _ _ := true;
  net_tip _ _ := None;
  net_blocks _ _ h _ := if h =? 1 then Some [run_genesis] else if h =? 2 then Some [run_sibling] else if h =? 3 then Some [forged_block] else None;
  net_now _ := 2000
|}.

Lemma liar_wf : net_wf liar.
Proof.
  intros t url h count bs. cbn [liar net_blocks].
  destruct (h =? 1); [intros H; apply (inj Some) in H as <-; split; [constructor; [exact run_genesis_wf | constructor] | reflexivity] |].
  destruct (h =? 2); [intros H; apply (inj Some) in H as <-; split; [constructor; [exact run_sibling_wf | constructor] | reflexivity] |].
  destruct (h =? 3); [intros H; apply (inj Some) in H as <-; split; [constructor; [exact forged_block_wf | constructor] | reflexivity] |]. done.
Qed.

Definition on_second : SyncNode := {| sy_node := at_second; sy_clock := 0; sy_scores := ∅ |}.
Definition refused_once : Node := (deliver_synced true forged_block at_second).1.
Definition lured : SyncNode := (reorg_to_heavier_chain liar true forged_block toy_url (with_node refused_once (tick on_second))).1.
Definition refused_twice : Node := (deliver_synced true forged_block (sy_node lured)).1.

Lemma lured_applied : reorg_to_heavier_chain liar true forged_block toy_url (with_node refused_once (tick on_second)) = (lured, Applied).
Proof.
  unfold lured. assert ((reorg_to_heavier_chain liar true forged_block toy_url (with_node refused_once (tick on_second))).2 = Applied) as E
    by (vm_compute; reflexivity). by destruct (reorg_to_heavier_chain _ _ _ _ _) as [x y]; cbn [fst snd] in *; subst.
Qed.

Lemma forged_extension_moves_node_witness :
  pull_block liar true toy_magic toy_url 3 forged_block on_second = (with_node refused_twice lured, Stop false) /\
  sy_scores (with_node refused_twice lured) = ∅.
Proof.
  assert (sync_filter toy_magic 2000 3 forged_block = Ok tt) as Hfil by (vm_compute; reflexivity).
  assert ((deliver_synced true forged_block at_second).2 = Err (Rejected "PoW invalid")) as E1 by (vm_compute; reflexivity).
  assert ((deliver_synced true forged_block (sy_node lured)).2 = Err (Rejected "PoW invalid")) as E3 by (vm_compute; reflexivity).
  apply (forged_extension_moves_node liar true toy_magic toy_url 3 forged_block forged_block on_second refused_once "PoW invalid" lured refused_twice "PoW invalid");
    [reflexivity | reflexivity | exact Hfil | | exact lured_applied | | exact liar_wf].
  - change (sy_node on_second) with at_second. unfold refused_once. exact (pair_result (deliver_synced true forged_block at_second) _ E1).
  - unfold refused_twice. exact (pair_result (deliver_synced true forged_block (sy_node lured)) _ E3).
Defined.

Lemma sync_reorg_justified_witness :
  exists kept displaced adopted : list Block,
    represents (displaced ++ kept) (sy_chain (with_node refused_once (tick on_second))) /\ represents (rev adopted ++ kept) (sy_chain lured) /\ kept <> [] /\
    Forall pow_valid adopted.
Proof.
  destruct (sync_reorg_justified liar true forged_block toy_url start (with_node refused_once (tick on_second)) lured liar_wf start_fresh)
    as (kept & displaced & adopted & H1 & H2 & _ & H4 & _ & _ & H7 & _).
  - eapply rtc_r; [exact reach_second |]. exact (deliver_block at_second true forged_block [] (randomx_key (header forged_block)) (target (header forged_block)) forged_block_wf).
  - exact lured_applied.
  - exists kept, displaced, adopted. split; [exact H1 |]. split; [exact H2 |]. split; [exact H4 | exact H7].
Defined.

(** ** A vote *)

Definition toy_tip (h : Z) (g : option bytes) : PeerTip := {| peer_height := h; peer_hash := zero32; peer_genesis := g |}.

Lemma genesis_vote_plurality_witness :
  let tips := [toy_tip 5 (Some [2]); toy_tip 0 None; toy_tip 7 (Some [1]); toy_tip 9 (Some [2])] in
  exists g, elected tips g /\ kept_tips tips (apply_genesis_filter None tips Strict) = List.filter (fun t => bool_decide (peer_genesis t = g)) tips.
Proof.
  intros tips. destruct (genesis_vote_plurality tips Strict) as (g & H1 & _ & _ & H4 & _); [discriminate | discriminate |].
  exists g. split; [exact H1 | exact H4].
Defined.
