(* ===== verification/Executions.v ===== *)
(** * What block execution guarantees

    Theorems on [execute_block]: which proofs and signatures were verified, the
    gas that is metered, the write sets, and that the executor of the node keeps
    the promise the undo record relies on. *)

From Stdlib Require Import String.
From S2P Require Import Prelude F64 Units Emission Serial Externals Transaction Merkle Block Store Competing FeeEstimator.
From S2P Require Import Consensus NativeToken L1Contracts Nullifiers FeeWindow ContractRisk Supply Pedersen TokenContract TokenBalance.
From S2P Require Import Validation Finality DarkTree CoreTx ZkVerifier ChainState Overlay Executor Backend Execution Ledger Acceptor Accepted Reorgs.

(** A call that ran: its job, the backend it found and left, the row it
    declared and its gas. *)
Record CallRun := { run_call : CallJob; run_before : Backend; run_after : Backend; run_row : MetaRow; run_gas : Z }.

Definition run_writes (r : CallRun) : gset bytes :=
  changed_opinions (overlay_opinions (bk_overlay (run_before r))) (overlay_opinions (bk_overlay (run_after r))).

Definition total_gas_of (rs : list CallRun) : Z := foldr Z.add 0 (map run_gas rs).

(** Within what the runtime can answer. *)
Definition metered (r : CallRun) : Prop := 0 <= run_gas r <= GAS_LIMIT + 1.

(** The calls that ran under the hash of a transaction, and their rows. *)
Definition runs_of (hash : bytes) (rs : list CallRun) : list CallRun :=
  List.filter (fun r => bool_decide (job_tx_hash (run_call r) = hash)) rs.

Definition rows_of (hash : bytes) (rs : list CallRun) : list MetaRow := map run_row (runs_of hash rs).

Section executions.
Context `{EXT : Externals} `{CORE : !CoreEnv} `{OPS : !CurveOps} `{PS : ProofSystem} `{OV : SledOverlay} `{OVL : !SledOverlayLaws} `{RT : WasmRuntime}.
Implicit Types (ctx : BackendCtx) (bk : Backend) (l : Loop) (s : CChainState) (b : Block) (us : list UncleBlock).

(** ** Running the calls *)

(** Calls that run one after the other on the same backend. *)
Inductive runs ctx (tgt : Z) : Backend -> list CallRun -> Backend -> Prop :=
| runs_nil bk : runs ctx tgt bk [] bk
| runs_cons r rs bk :
    run_job ctx tgt (run_call r) (run_before r) = (Some (run_row r, run_gas r), run_after r) ->
    runs ctx tgt (run_after r) rs bk -> runs ctx tgt (run_before r) (r :: rs) bk.

(** What the loop leaves in its records. *)
Record looped ctx (tgt : Z) (js : list CallJob) l l' (rs : list CallRun) : Prop := {
  lo_runs : runs ctx tgt (lp_bk l) rs (lp_bk l');
  lo_jobs : map run_call rs = js;
  lo_rows : forall hash, default [] (lp_tables l' !! hash) = default [] (lp_tables l !! hash) ++ rows_of hash rs;
  lo_calls : lp_calls l' = lp_calls l + Z.of_nat (length js);
  lo_deploys : lp_deploys l' = lp_deploys l ++ omap pending_deployment js;
  lo_writes : lp_writes l' = lp_writes l ++ map run_writes rs;
  lo_gas : lp_gas l < BLOCK_GAS_LIMIT -> lp_gas l' < BLOCK_GAS_LIMIT;
  lo_total : Forall metered rs -> 0 <= lp_gas l < BLOCK_GAS_LIMIT -> lp_gas l' = lp_gas l + total_gas_of rs
}.

Lemma run_canonical_ok ctx (tgt : Z) (js : list CallJob) l l' u :
  run_canonical ctx tgt js l = (l', Ok u) -> exists rs, looped ctx tgt js l l' rs.
Proof.
  revert l. induction js as [|j js IH]; intros l; cbn [run_canonical].
  { intros [= <- _]. exists []. constructor; [constructor | done | | cbn; lia | by rewrite app_nil_r | by rewrite app_nil_r | done | cbn; lia].
    intros hash. by rewrite app_nil_r. }
  destruct (run_job ctx tgt j (lp_bk l)) as [[[row gas]|] bk] eqn:Ej; [| done].
  destruct (Z.leb_spec BLOCK_GAS_LIMIT (wrap 64 (lp_gas l + gas))) as [| Hlt]; [done |].
  intros (rs & [H1 H2 H3 H4 H5 H5' H6 H7])%IH. set (r := {| run_call := j; run_before := lp_bk l; run_after := bk; run_row := row; run_gas := gas |}).
  exists (r :: rs). cbn [after_call lp_bk lp_tables lp_calls lp_deploys lp_writes lp_gas] in *. constructor.
  - by apply (runs_cons ctx tgt r).
  - cbn. by rewrite H2.
  - intros hash. rewrite H3. unfold rows_of, runs_of. cbn [List.filter run_call map r]. destruct (decide (job_tx_hash j = hash)) as [<- | Hne].
    + rewrite lookup_insert_eq, bool_decide_true by done. cbn [from_option id map run_row r]. by rewrite <- app_assoc.
    + by rewrite lookup_insert_ne, bool_decide_false by done.
  - rewrite H4, length_cons. lia.
  - rewrite H5, <- app_assoc. f_equal. cbn [omap list_omap]. by destruct (pending_deployment j).
  - by rewrite H5', <- app_assoc.
  - intros _. by apply H6.
  - intros Hm Hl. apply Forall_cons in Hm as [Hg Hm]. unfold metered in Hg. cbn [run_gas r] in Hg.
    assert (wrap 64 (lp_gas l + gas) = lp_gas l + gas) as E by (apply wrap_small; unfold is_u, BLOCK_GAS_LIMIT, GAS_LIMIT in *; lia).
    rewrite E in *. rewrite H7; [unfold total_gas_of; cbn; lia | done | lia].
Qed.

(** *** The meter *)

Lemma gas_used_within `{!RuntimeMetered} (r : Instance) : 0 <= gas_used r <= GAS_LIMIT + 1.
Proof. unfold gas_used. destruct (remaining_points r) as [rem|] eqn:E; [apply remaining_within in E; lia | unfold GAS_LIMIT; lia]. Qed.

Lemma run_sections_gas ctx (tgt : Z) (j : CallJob) bk bk' row gas :
  run_sections ctx tgt j bk = (Some (row, gas), bk') -> exists r, gas = gas_used r.
Proof.
  unfold run_sections. repeat (case_match; try done); intros [= _ <- _]; eauto.
Qed.

Lemma run_job_sections ctx (tgt : Z) (j : CallJob) bk bk' r :
  run_job ctx tgt j bk = (Some r, bk') -> run_sections ctx tgt j bk = (Some r, bk').
Proof. unfold run_job. destruct (run_sections ctx tgt j bk) as [[x|] bk1]; [done |]. by intros [=]. Qed.

Lemma runs_metered `{!RuntimeMetered} ctx (tgt : Z) (rs : list CallRun) bk bk' : runs ctx tgt bk rs bk' -> Forall metered rs.
Proof.
  induction 1 as [|r rs bk2 Hj _ IH]; constructor; [| done]. apply run_job_sections, run_sections_gas in Hj as [i Hi].
  unfold metered. rewrite Hi. apply gas_used_within.
Qed.

(** ** The whole execution *)

Definition is_genesis b : bool := height (header b) =? BlockHeight.GENESIS.

(** The overlay the calls of the block start from. *)
Definition starts_from s b (key : bytes) (tgt : Z) (o : OverlayState) : Prop :=
  (if is_genesis b then apply_genesis_deployments (ctx_of s b key) b tgt overlay_empty else Ok overlay_empty) = Ok o.

Lemma execute_calls_inv s b us (key : bytes) (tgt : Z) leaves out :
  execute_calls s b us key tgt = (leaves, Ok out) ->
  exists o jobs l rs urs early,
    starts_from s b key tgt o /\ canonical_jobs (store s) (is_genesis b) o (transactions b) = Ok jobs /\
    looped (ctx_of s b key) tgt jobs (loop_start o (anchor_leaves s)) l rs /\
    run_uncles (ctx_of s b key) tgt (omap id (uncle_jobs (store s) us)) (bk_anchors (lp_bk l)) = (leaves, urs) /\
    verify_all (store s) (is_genesis b) (lp_tables l) 0 (transactions b) = Ok tt /\
    finish (ctx_of s b key) tgt l urs early = Ok out.
Proof.
  unfold execute_calls, starts_from, is_genesis. cbv zeta.
  destruct (if _ : bool then apply_genesis_deployments _ _ _ _ else _) as [o|] eqn:Eo; [| done].
  destruct (canonical_jobs _ _ _ _) as [jobs|] eqn:Ej; [| done].
  destruct (run_canonical _ _ _ _) as [l [u|]] eqn:Er; [| done]. apply run_canonical_ok in Er as [rs Hl].
  destruct (run_uncles _ _ _ _) as [anchors urs] eqn:Eu. intros [= <- H].
  destruct (verify_all _ _ _ _ _) as [[]|] eqn:Ev; [| done]. exists o, jobs, l, rs, urs. by eexists.
Qed.

(** ** Verification *)

(** Proofs and signatures of the transaction hold against the declared rows. *)
Record verified (st : LinearStore) (tx : Transaction) (rows : list MetaRow) : Prop := {
  vf_core : exists core, decode_and_reconcile tx = Ok core /\ verify_core_tx_with_tables st core (map meta_zkp rows) = Ok tt /\
              verify_sigs (map meta_sigs rows) core = Ok tt
}.

Lemma verify_all_ok (st : LinearStore) (g : bool) (tables : gmap bytes (list MetaRow)) (k : nat) (txs : list Transaction) u :
  verify_all st g tables k txs = Ok u ->
  forall i tx, txs !! i = Some tx -> exempt g (k + i) tx = false -> verified st tx (default [] (tables !! tx_hash tx)).
Proof.
  revert k. induction txs as [|tx0 txs IH]; intros k; [done |]. cbn [verify_all]. intros H i tx Hi Hx.
  assert (exempt g k tx0 = false -> verified st tx0 (default [] (tables !! tx_hash tx0)) /\ verify_all st g tables (S k) txs = Ok u) as Hstep.
  { intros E. rewrite E in H. unfold verify_tx in H. destruct (tables !! tx_hash tx0) as [rows|]; [| done]. cbn [from_option id].
    destruct (decode_and_reconcile tx0) as [core|] eqn:Ed; [| done]. destruct (verify_core_tx_with_tables _ _ _) as [[]|] eqn:Ep; [| done].
    destruct (verify_sigs _ _) as [[]|] eqn:Es; [| done]. split; [| done]. constructor. by exists core. }
  destruct i as [|i]; cbn in Hi.
  - apply (inj Some) in Hi as ->. rewrite Nat.add_0_r in Hx. exact (proj1 (Hstep Hx)).
  - apply (IH (S k)) with (i := i); [| done | by rewrite Nat.add_succ_comm]. destruct (exempt g k tx0); [done | exact (proj2 (Hstep eq_refl))].
Qed.

(** ** The overlay only grows *)

(** No key is taken out of the cache, none is marked as removed. *)
Definition grows bk bk' : Prop :=
  dom (ov_cache (bk_overlay bk)) ⊆ dom (ov_cache (bk_overlay bk')) /\ ov_removed (bk_overlay bk') ⊆ ov_removed (bk_overlay bk).

#[local] Instance grows_preorder : PreOrder grows.
Proof. split; [by intros bk | intros x y z [H1 H2] [H3 H4]; split; set_solver]. Qed.

Lemma grows_keeps bk bk' : grows bk bk' -> keeps_keys (bk_overlay bk) -> keeps_keys (bk_overlay bk').
Proof. unfold keeps_keys. intros [_ H] E. set_solver. Qed.

Lemma write_grows ctx (k v : bytes) bk : grows bk (write ctx k v bk).
Proof. split; cbn [write bk_overlay]; [rewrite overlay_insert_cache, dom_insert_L; set_solver | apply overlay_insert_removed]. Qed.

Lemma interp_grows {A : Type} ctx (g : Guest A) bk : grows bk (interp ctx g bk).2.
Proof.
  revert bk. induction g as [a | X e k IH]; intros bk; cbn [interp]; [done |].
  assert (grows bk (handle ctx e bk).2) as He by (destruct e; cbn [handle snd]; try apply write_grows; [done.. | by destruct (anchor_of_bytes _)]).
  destruct (handle ctx e bk) as [x bk1]. etrans; [exact He | apply IH].
Qed.

(** One more section on the backend. *)
Ltac next_section :=
  match goal with |- context [interp ?c ?g ?b] =>
    let H := fresh in pose proof (interp_grows c g b) as H; destruct (interp c g b) as [[? ?] ?]; cbn [snd] in H
  end.

Lemma spend_hook_grows ctx (tgt : Z) (hash cid payload : bytes) bk : grows bk (execute_spend_hook ctx tgt hash cid payload bk).2.
Proof.
  unfold execute_spend_hook. destruct (get_contract_data _ _); [done |]. destruct (negb _); [done |]. destruct (runtime_new _ _); [| done].
  next_section. case_match; [| done]. next_section. case_match; [| by etrans]. next_section. cbn [snd]. by do 2 (etrans; [eassumption |]).
Qed.

Lemma run_sections_grows ctx (tgt : Z) (j : CallJob) bk : grows bk (run_sections ctx tgt j bk).2.
Proof.
  unfold run_sections. destruct (runtime_new _ _); [| done]. next_section. case_match; [| done]. case_match; [| done].
  next_section. case_match; [| by etrans]. destruct (take_spend_hook _) as [r3 hook].
  match goal with H1 : grows bk ?x, H2 : grows ?x ?y |- _ => assert (grows bk y) as Hy by (by etrans) end.
  assert (forall h : option (bytes * bytes), grows bk (match h with None => (true, b0) | Some (cid, payload) => execute_spend_hook ctx tgt (job_tx_hash j) cid payload b0 end).2) as Hh
    by (intros [[cid payload]|]; [etrans; [exact Hy | apply spend_hook_grows] | done]).
  specialize (Hh hook). destruct (match hook with None => _ | Some _ => _ end) as [hooked bk3]. cbn [snd] in Hh. destruct hooked; [| done].
  next_section. case_match; by etrans.
Qed.

Lemma run_job_grows ctx (tgt : Z) (j : CallJob) bk : grows bk (run_job ctx tgt j bk).2.
Proof.
  unfold run_job. pose proof (run_sections_grows ctx tgt j bk) as Hs. destruct (run_sections ctx tgt j bk) as [[r|] bk']; [done |]. done.
Qed.

Lemma runs_grow ctx (tgt : Z) (rs : list CallRun) bk bk' : runs ctx tgt bk rs bk' -> grows bk bk'.
Proof.
  induction 1 as [|r rs bk Hj _ IH]; [done |]. pose proof (run_job_grows ctx tgt (run_call r) (run_before r)) as Hg.
  rewrite Hj in Hg. by etrans.
Qed.

(** *** Deployments and the merge *)

Lemma deploy_keeps ctx (code cid ix : bytes) (tgt : Z) (o o' : OverlayState) :
  deploy_contract_in_overlay ctx code cid ix tgt o = Ok o' -> keeps_keys o -> keeps_keys o'.
Proof.
  unfold deploy_contract_in_overlay. destruct (runtime_new _ _); [| done]. next_section. case_match; [| done]. intros [= <-] Ho.
  eapply grows_keeps; [eassumption |]. exact Ho.
Qed.

Lemma genesis_deployments_keep ctx (table : list (bytes * string)) (txs : list Transaction) (tgt : Z) (o o' : OverlayState) :
  genesis_deployments ctx table txs tgt o = Ok o' -> keeps_keys o -> keeps_keys o'.
Proof.
  revert txs o. induction table as [|[cid name] table IH]; intros txs o; cbn [genesis_deployments]; [by intros [= <-] |].
  destruct txs as [|tx txs]; [by intros [= <-] |]. destruct (genesis_deployment ctx cid tx tgt o) as [o1|] eqn:E; [| done].
  intros H Ho. apply (IH txs o1 H). unfold genesis_deployment in E. destruct (negb _); [done |]. destruct (contract_calls tx); [done |].
  destruct (decode _ _) as [[p rest]|]; [| done]. destruct (bool_decide _); [done |].
  destruct (deploy_contract_in_overlay _ _ _ _ _ _) as [o2|] eqn:Ed; [| done]. injection E as <-.
  apply deploy_keeps in Ed; [| done]. by destruct (bool_decide _).
Qed.

Lemma starts_keep s b (key : bytes) (tgt : Z) (o : OverlayState) : starts_from s b key tgt o -> keeps_keys o.
Proof.
  unfold starts_from. destruct (is_genesis b); [| by intros [= <-]]. unfold apply_genesis_deployments. destruct (negb _); [done |].
  intros H. by eapply genesis_deployments_keep.
Qed.

Lemma run_uncles_removed ctx (tgt : Z) (js : list CallJob) (anchors : list bytes) :
  Forall (fun r : option (Z * OverlayDiff) => forall gas d, r = Some (gas, d) -> diff_removed d = ∅) (run_uncles ctx tgt js anchors).2.
Proof.
  revert anchors. induction js as [|j js IH]; intros anchors; cbn [run_uncles]; [constructor |].
  destruct (run_uncle ctx tgt j anchors) as [a1 r] eqn:E. specialize (IH a1). destruct (run_uncles ctx tgt js a1) as [a2 rs]. constructor; [| done].
  intros gas d ->. unfold run_uncle in E. pose proof (run_job_grows ctx tgt j {| bk_overlay := overlay_empty; bk_anchors := anchors |}) as Hg.
  destruct (run_job _ _ _ _) as [[[row gas']|] bk]; [| done]. injection E as _ E. destruct (overlay_diff _ _) as [d'|] eqn:Ed; [| done].
  injection E as _ <-. eapply overlay_diff_removed; [exact Ed |]. by apply (grows_keeps _ _ Hg).
Qed.

Lemma merge_keeps (total : OverlayDiff) (rs : list (option (Z * OverlayDiff))) (m m' : Merge) :
  merge_uncles total rs m = Ok m' -> Forall (fun r => forall gas d, r = Some (gas, d) -> diff_removed d = ∅) rs ->
  keeps_keys (mg_overlay m) -> keeps_keys (mg_overlay m').
Proof.
  revert m. induction rs as [|[[gas d]|] rs IH]; intros m; cbn [merge_uncles]; [by intros [= <-] | |].
  - destruct (_ <=? _); [done |]. destruct (claim_keys _ _); [| done]. intros H [Hd Hrs]%Forall_cons Ho. apply (IH _ H Hrs).
    cbn [mg_overlay]. apply add_diff_keeps_keys; [| done]. by eapply remove_diff_removed, Hd.
  - intros H [_ Hrs]%Forall_cons. by apply (IH _ H Hrs).
Qed.

Lemma run_deployments_keep ctx (tgt : Z) (ds : list (bytes * bytes * bytes)) (written : gset bytes) (o o' : OverlayState) :
  run_deployments ctx tgt ds written o = Ok o' -> keeps_keys o -> keeps_keys o'.
Proof.
  revert written o. induction ds as [|[[code cid] ix] ds IH]; intros written o; cbn [run_deployments]; [by intros [= <-] |].
  destruct (deploy_contract_in_overlay _ _ _ _ _ _) as [o1|] eqn:E; [| done]. cbn. destruct (claim_keys _ _); [| done].
  intros H Ho. apply (IH _ _ H). by eapply deploy_keeps.
Qed.

(** The promise the acceptor's undo record relies on. *)
#[export] Instance node_executor_ok : ExecutorOk (EXEC := node_executor).
Proof.
  constructor. intros s b us key tgt leaves ex. cbn [execute_block node_executor].
  destruct (execute_calls s b us key tgt) as [anchors [out|]] eqn:E; [| done]. intros [= _ <-]. cbn [exec_overlay].
  apply execute_calls_inv in E as (o & jobs & l & rs & urs & early & Ho & _ & Hl & Hu & _ & Hf).
  apply starts_keep in Ho. pose proof (grows_keeps _ _ (runs_grow _ _ _ _ _ (lo_runs _ _ _ _ _ _ Hl)) Ho) as Hm.
  pose proof (run_uncles_removed (ctx_of s b key) tgt (omap id (uncle_jobs (store s) us)) (bk_anchors (lp_bk l))) as Hr. rewrite Hu in Hr.
  unfold finish in Hf. destruct (overlay_diff _ _) as [total|]; [| done]. destruct (merge_uncles _ _ _) as [m|] eqn:Em; [| done].
  cbn in Hf. destruct (run_deployments _ _ _ _ _) as [o'|] eqn:Ed; [| done]. injection Hf as <-. cbn [out_overlay].
  eapply run_deployments_keep; [exact Ed |]. by eapply merge_keeps.
Qed.

(** ** The calls of a transaction *)

Lemma call_jobs_at (st : LinearStore) (g : bool) (o : OverlayState) (tx : Transaction) (i : nat) (cs : list ContractCall) (js : list CallJob) :
  call_jobs st g o tx i cs = Ok js ->
  Forall (fun j => job_tx_hash j = tx_hash tx) js /\ length js = length cs /\
  forall k c, cs !! k = Some c -> exists code, canonical_wasm st g o (contract_id c) = Some code /\ js !! k = Some (job_of tx (i + k) c code).
Proof.
  revert i js. induction cs as [|c cs IH]; intros i js; cbn [call_jobs]; [by intros [= <-] |].
  destruct (canonical_wasm st g o (contract_id c)) as [code|] eqn:Ew; [| done].
  destruct (call_jobs st g o tx (S i) cs) as [js'|] eqn:Ej; [| done]. cbn. intros [= <-]. destruct (IH _ _ Ej) as (H1 & H2 & H3). split_and!.
  - by constructor.
  - cbn. by rewrite H2.
  - intros [|k] c' Hk; cbn in Hk.
    + apply (inj Some) in Hk as <-. exists code. by rewrite Nat.add_0_r.
    + destruct (H3 k c' Hk) as (code' & E1 & E2). exists code'. by rewrite <- Nat.add_succ_comm.
Qed.

Definition jobs_of (hash : bytes) (js : list CallJob) : list CallJob := List.filter (fun j => bool_decide (job_tx_hash j = hash)) js.

Lemma jobs_of_all (hash : bytes) (js : list CallJob) : Forall (fun j => job_tx_hash j = hash) js -> jobs_of hash js = js.
Proof. induction 1 as [|j js Hj _ IH]; [done |]. unfold jobs_of in *. cbn. by rewrite bool_decide_true, IH. Qed.

Lemma jobs_of_none (hash h : bytes) (js : list CallJob) : Forall (fun j => job_tx_hash j = h) js -> h <> hash -> jobs_of hash js = [].
Proof. intros H Hne. induction H as [|j js Hj _ IH]; [done |]. unfold jobs_of in *. cbn. rewrite bool_decide_false by congruence. exact IH. Qed.

Lemma jobs_of_app (hash : bytes) (js js' : list CallJob) : jobs_of hash (js ++ js') = jobs_of hash js ++ jobs_of hash js'.
Proof. apply List.filter_app. Qed.

Lemma canonical_jobs_absent (st : LinearStore) (g : bool) (o : OverlayState) (txs : list Transaction) (js : list CallJob) (hash : bytes) :
  canonical_jobs st g o txs = Ok js -> hash ∉ map tx_hash txs -> jobs_of hash js = [].
Proof.
  revert js. induction txs as [|tx txs IH]; intros js; cbn [canonical_jobs map]; [by intros [= <-] |]. intros H Hn.
  apply not_elem_of_cons in Hn as [Hne Hn]. destruct (g && _); [by apply IH |].
  destruct (call_jobs _ _ _ _ _ _) as [j1|] eqn:E1; [| done]. destruct (canonical_jobs st g o txs) as [j2|] eqn:E2; [| done].
  injection H as <-. rewrite jobs_of_app, (IH j2), app_nil_r by done.
  eapply jobs_of_none; [apply (proj1 (call_jobs_at _ _ _ _ _ _ _ E1)) | done].
Qed.

(** When the hashes of the block are distinct, the calls that run under the
    transaction's hash are its own, in their order. *)
Lemma canonical_jobs_of (st : LinearStore) (g : bool) (o : OverlayState) (txs : list Transaction) (js : list CallJob) (tx : Transaction) :
  canonical_jobs st g o txs = Ok js -> NoDup (map tx_hash txs) -> tx ∈ txs -> g && is_genesis_deployment_tx tx = false ->
  call_jobs st g o tx 0 (contract_calls tx) = Ok (jobs_of (tx_hash tx) js).
Proof.
  intros H Hn Hin Hg. revert js H. induction txs as [|tx0 txs IH]; intros js; [by apply not_elem_of_nil in Hin |].
  cbn [map] in Hn. apply NoDup_cons in Hn as [Hh Hn]. cbn [canonical_jobs]. intros H. apply elem_of_cons in Hin as [<- | Hin].
  - rewrite Hg in H. destruct (call_jobs st g o tx 0 (contract_calls tx)) as [j1|] eqn:E1; [| done].
    destruct (canonical_jobs st g o txs) as [j2|] eqn:E2; [| done]. injection H as <-.
    rewrite jobs_of_app, (canonical_jobs_absent st g o txs j2), app_nil_r by done.
    by rewrite jobs_of_all by apply (proj1 (call_jobs_at _ _ _ _ _ _ _ E1)).
  - assert (tx_hash tx0 <> tx_hash tx) as Hne by (intros E; apply Hh; rewrite E; by apply list_elem_of_fmap_2).
    destruct (g && is_genesis_deployment_tx tx0); [by apply IH |].
    destruct (call_jobs st g o tx0 0 _) as [j1|] eqn:E1; [| done]. destruct (canonical_jobs st g o txs) as [j2|] eqn:E2; [| done].
    injection H as <-. rewrite jobs_of_app, (jobs_of_none _ (tx_hash tx0) j1), app_nil_l; [by apply IH | | done].
    apply (proj1 (call_jobs_at _ _ _ _ _ _ _ E1)).
Qed.

Lemma runs_of_jobs (hash : bytes) (rs : list CallRun) : map run_call (runs_of hash rs) = jobs_of hash (map run_call rs).
Proof. induction rs as [|r rs IH]; [done |]. unfold runs_of, jobs_of in *. cbn. case_bool_decide; cbn; by rewrite IH. Qed.

(** ** The claims *)

(** Neither the coinbase in front nor a deployment of the genesis block. *)
Definition needs_proof b (i : nat) (tx : Transaction) : Prop :=
  ~ (i = 0%nat /\ is_pow_reward_coinbase_tx tx = true) /\ ~ (is_genesis b = true /\ is_genesis_deployment_tx tx = true).

Lemma needs_proof_exempt b (i : nat) (tx : Transaction) : needs_proof b i tx -> exempt (is_genesis b) i tx = false.
Proof.
  intros [H1 H2]. unfold exempt. apply orb_false_iff. split; apply andb_false_iff.
  - destruct (i =? 0)%nat eqn:E; [right | by left]. apply Nat.eqb_eq in E. apply not_true_is_false. naive_solver.
  - destruct (is_genesis b); [right | by left]. apply not_true_is_false. naive_solver.
Qed.

(** The calls of the block ran one after the other from the overlay [o]; every
    transaction that needs a proof was verified against the rows its calls
    declared. *)
Record block_verified s b (key : bytes) (tgt : Z) (o : OverlayState) (rs : list CallRun) : Prop := {
  bv_starts : starts_from s b key tgt o;
  bv_jobs : canonical_jobs (store s) (is_genesis b) o (transactions b) = Ok (map run_call rs);
  bv_runs : exists bk, runs (ctx_of s b key) tgt {| bk_overlay := o; bk_anchors := anchor_leaves s |} rs bk;
  bv_verified : forall i tx, transactions b !! i = Some tx -> needs_proof b i tx ->
    verified (store s) tx (rows_of (tx_hash tx) rs);
  bv_calls : NoDup (map tx_hash (transactions b)) ->
    forall i tx, transactions b !! i = Some tx -> needs_proof b i tx ->
    length (rows_of (tx_hash tx) rs) = length (contract_calls tx) /\
    forall k c, contract_calls tx !! k = Some c -> exists code r,
      canonical_wasm (store s) (is_genesis b) o (contract_id c) = Some code /\
      runs_of (tx_hash tx) rs !! k = Some r /\ run_call r = job_of tx k c code
}.

Lemma executed_verified s b us (key : bytes) (tgt : Z) leaves out :
  execute_calls s b us key tgt = (leaves, Ok out) -> exists o rs, block_verified s b key tgt o rs.
Proof.
  intros (o & jobs & l & rs & urs & early & Ho & Hj & Hl & _ & Hv & _)%execute_calls_inv. destruct Hl as [Hr <- Ht _ _ _ _ _].
  cbn [loop_start lp_bk lp_tables] in Hr, Ht. exists o, rs. constructor; [done | done | by eexists | |].
  - intros i tx Hi Hx%needs_proof_exempt. pose proof (verify_all_ok _ _ _ _ _ _ Hv i tx Hi Hx) as H. rewrite Ht, lookup_empty in H. exact H.
  - intros Hn i tx Hi Hx%needs_proof_exempt. apply orb_false_iff in Hx as [_ Hx]. pose proof (canonical_jobs_of _ _ _ _ _ tx Hj Hn (list_elem_of_lookup_2 _ _ _ Hi) Hx) as Hc.
    rewrite <- runs_of_jobs in Hc. destruct (call_jobs_at _ _ _ _ _ _ _ Hc) as (_ & Hlen & Hat). rewrite length_map in Hlen.
    split; [unfold rows_of; by rewrite length_map |]. intros k c Hk. destruct (Hat k c Hk) as (code & Hw & Hr').
    apply list_lookup_fmap_Some in Hr' as (r & Hr1 & Hr2). by exists code, r.
Qed.

Lemma node_executed s b us (key : bytes) (tgt : Z) leaves ex :
  execute_block s b us key tgt = (leaves, Some ex) ->
  exists out, execute_calls s b us key tgt = (leaves, Ok out) /\ exec_overlay ex = out_overlay out /\ exec_gas ex = stat_gas_used (out_stats out).
Proof.
  cbn [execute_block node_executor]. destruct (execute_calls s b us key tgt) as [anchors [out|]]; [| done].
  intros [= <- <-]. by exists out.
Qed.

(** A block is executed only when its transactions are authentic.  If
    execution succeeds, the calls of the block ran one after the other on one
    overlay, and every transaction but the coinbase and the deployments of
    genesis carries a witness that decodes and reconciles with it, whose proofs
    verify against exactly the circuits and public inputs that the metadata of
    its own calls declared, and whose signatures verify against exactly the
    declared keys; with distinct hashes there is one row per call, in order,
    from the code the contract has in the state. *)
Theorem executed_transactions_verified s b us (key : bytes) (tgt : Z) leaves ex :
  execute_block s b us key tgt = (leaves, Some ex) -> exists o rs, block_verified s b key tgt o rs.
Proof. intros (out & E & _)%node_executed. by eapply executed_verified. Qed.

(** *** Gas *)

Definition uncle_gas (urs : list (option (Z * OverlayDiff))) : Z := foldr Z.add 0 (omap (fmap fst) urs).

Lemma run_uncles_metered `{!RuntimeMetered} ctx (tgt : Z) (js : list CallJob) (anchors : list bytes) :
  Forall (fun r : option (Z * OverlayDiff) => forall gas d, r = Some (gas, d) -> 0 <= gas <= GAS_LIMIT + 1) (run_uncles ctx tgt js anchors).2.
Proof.
  revert anchors. induction js as [|j js IH]; intros anchors; cbn [run_uncles]; [constructor |].
  destruct (run_uncle ctx tgt j anchors) as [a1 r] eqn:E. specialize (IH a1). destruct (run_uncles ctx tgt js a1) as [a2 rs]. constructor; [| done].
  intros gas d ->. unfold run_uncle in E. destruct (run_job _ _ _ _) as [[[row gas']|] bk] eqn:Ej; [| done].
  injection E as _ E. destruct (overlay_diff _ _) as [d'|]; [| done]. injection E as <- _.
  apply run_job_sections, run_sections_gas in Ej as [i ->]. apply gas_used_within.
Qed.

Lemma merge_gas (total : OverlayDiff) (rs : list (option (Z * OverlayDiff))) (m m' : Merge) :
  merge_uncles total rs m = Ok m' -> Forall (fun r => forall gas d, r = Some (gas, d) -> 0 <= gas <= GAS_LIMIT + 1) rs ->
  0 <= mg_gas m < BLOCK_GAS_LIMIT -> mg_gas m' = mg_gas m + uncle_gas rs /\ mg_gas m' < BLOCK_GAS_LIMIT.
Proof.
  revert m. induction rs as [|[[gas d]|] rs IH]; intros m; cbn [merge_uncles]; [intros [= <-]; cbn; lia | |].
  - destruct (Z.leb_spec BLOCK_GAS_LIMIT (wrap 64 (mg_gas m + gas))) as [| Hlt]; [done |]. destruct (claim_keys _ _); [| done].
    intros H [Hd Hrs]%Forall_cons Hm. specialize (Hd gas d eq_refl).
    assert (wrap 64 (mg_gas m + gas) = mg_gas m + gas) as E by (apply wrap_small; unfold is_u, BLOCK_GAS_LIMIT, GAS_LIMIT in *; lia).
    rewrite E in *. destruct (IH _ H Hrs) as [H1 H2]; [cbn; lia |]. cbn [mg_gas] in H1. split; [| done]. unfold uncle_gas in *. cbn. lia.
  - intros H [_ Hrs]%Forall_cons Hm. by apply (IH _ H Hrs).
Qed.

(** C24: the gas reported for a block is the gas its calls used, and it is below
    the limit.  With a runtime whose meter stays within its budget per call, no
    addition of the 64-bit counter wraps: the reported gas is exactly the sum
    over the calls of the block and the uncle calls that succeeded. *)
Theorem gas_metered `{!RuntimeMetered} s b us (key : bytes) (tgt : Z) leaves ex :
  execute_block s b us key tgt = (leaves, Some ex) ->
  exists o rs bk urs,
    canonical_jobs (store s) (is_genesis b) o (transactions b) = Ok (map run_call rs) /\
    runs (ctx_of s b key) tgt {| bk_overlay := o; bk_anchors := anchor_leaves s |} rs bk /\
    run_uncles (ctx_of s b key) tgt (omap id (uncle_jobs (store s) us)) (bk_anchors bk) = (leaves, urs) /\
    exec_gas ex = total_gas_of rs + uncle_gas urs /\ 0 <= exec_gas ex < BLOCK_GAS_LIMIT.
Proof.
  intros (out & (o & jobs & l & rs & urs & early & _ & Hj & Hl & Hu & _ & Hf)%execute_calls_inv & _ & ->)%node_executed.
  destruct Hl as [Hr <- _ _ _ _ Hlt Ht]. exists o, rs, (lp_bk l), urs. pose proof (runs_metered _ _ _ _ _ Hr) as Hm.
  cbn [loop_start lp_bk lp_gas] in *. specialize (Hlt ltac:(done)). specialize (Ht Hm ltac:(done)). rewrite Z.add_0_l in Ht.
  assert (0 <= total_gas_of rs) as Hpos.
  { clear -Hm. induction Hm as [|r rs Hr _ IH]; [done |]. unfold total_gas_of, metered in *. cbn. lia. }
  pose proof (run_uncles_metered (ctx_of s b key) tgt (omap id (uncle_jobs (store s) us)) (bk_anchors (lp_bk l))) as Hum. rewrite Hu in Hum.
  cbn [snd] in Hum. unfold finish in Hf. destruct (overlay_diff _ _); [| done]. destruct (merge_uncles _ _ _) as [m|] eqn:Em; [| done].
  cbn in Hf. destruct (run_deployments _ _ _ _ _); [| done]. injection Hf as <-. cbn [out_stats stat_gas_used].
  destruct (merge_gas _ _ _ _ Em Hum) as [Hg1 Hg2]; [cbn; lia |]. cbn [mg_gas] in Hg1. split_and!; [done | done | done | lia | | done].
  assert (0 <= uncle_gas urs); [| lia]. clear -Hum. induction Hum as [|[[gas d]|] urs Hd _ IH]; [done | | exact IH].
  specialize (Hd gas d eq_refl). unfold uncle_gas in *. cbn. lia.
Qed.
(** *** Write sets *)

Lemma opinions_lookup (o : OverlayState) (k : bytes) : keeps_keys o -> overlay_opinions o !! k = Some <$> ov_cache o !! k.
Proof.
  unfold keeps_keys, overlay_opinions. intros ->. rewrite gset_to_gmap_empty, map_empty_union. apply lookup_fmap.
Qed.

Lemma run_writes_cover (t : Tree) (r : CallRun) (k : bytes) :
  keeps_keys (bk_overlay (run_before r)) -> grows (run_before r) (run_after r) ->
  overlay_view t (bk_overlay (run_before r)) !! k <> overlay_view t (bk_overlay (run_after r)) !! k -> k ∈ run_writes r.
Proof.
  intros Hk Hg. pose proof (grows_keeps _ _ Hg Hk) as Hk'. destruct Hg as [Hd _]. rewrite !overlay_view_lookup, Hk, Hk'.
  rewrite !decide_False by set_solver. unfold run_writes, changed_opinions. intros Hne.
  assert (forall v, ov_cache (bk_overlay (run_after r)) !! k = Some v -> k ∈ dom (filter (fun kv : bytes * option bytes =>
    overlay_opinions (bk_overlay (run_before r)) !! kv.1 <> Some kv.2) (overlay_opinions (bk_overlay (run_after r))))) as Hin.
  { intros v Ev. apply elem_of_dom. exists (Some v). apply map_lookup_filter_Some. rewrite !opinions_lookup by done. rewrite Ev. split; [done |].
    cbn. intros E. destruct (ov_cache (bk_overlay (run_before r)) !! k) as [v'|]; [| done].
    rewrite Ev in Hne. cbn in E. congruence. }
  destruct (ov_cache (bk_overlay (run_after r)) !! k) as [v|] eqn:Ea; [by apply (Hin v) |].
  assert (ov_cache (bk_overlay (run_before r)) !! k = None) as Eb.
  { apply not_elem_of_dom. intros Hin'. apply Hd, elem_of_dom in Hin' as [v Ev]. congruence. }
  by rewrite Eb in Hne.
Qed.

Lemma runs_each ctx (tgt : Z) (rs : list CallRun) bk bk' :
  runs ctx tgt bk rs bk' -> keeps_keys (bk_overlay bk) -> Forall (fun r => keeps_keys (bk_overlay (run_before r)) /\ grows (run_before r) (run_after r)) rs.
Proof.
  induction 1 as [|r rs bk Hj _ IH]; intros Hk; [constructor |]. pose proof (run_job_grows ctx tgt (run_call r) (run_before r)) as Hg.
  rewrite Hj in Hg. constructor; [done |]. apply IH. by eapply grows_keeps.
Qed.

(** The write set recorded for a call is complete: a key through which the
    contracts' state after the call differs from the state before it is in the
    set, so two calls with disjoint sets changed disjoint parts of the state. *)
Theorem write_sets_complete s b us (key : bytes) (tgt : Z) leaves out :
  execute_calls s b us key tgt = (leaves, Ok out) ->
  exists o rs bk, runs (ctx_of s b key) tgt {| bk_overlay := o; bk_anchors := anchor_leaves s |} rs bk /\
    out_write_sets out = map run_writes rs /\
    Forall (fun r => forall k, overlay_view (contracts (store s)) (bk_overlay (run_before r)) !! k <>
                               overlay_view (contracts (store s)) (bk_overlay (run_after r)) !! k -> k ∈ run_writes r) rs.
Proof.
  intros (o & jobs & l & rs & urs & early & Ho & _ & Hl & _ & _ & Hf)%execute_calls_inv. exists o, rs, (lp_bk l).
  destruct Hl as [Hr _ _ _ _ Hw _ _]. split; [exact Hr |]. split.
  - unfold finish in Hf. destruct (overlay_diff _ _); [| done]. destruct (merge_uncles _ _ _); [| done]. cbn in Hf.
    destruct (run_deployments _ _ _ _ _); [| done]. by injection Hf as <-.
  - eapply Forall_impl; [apply (runs_each _ _ _ _ _ Hr), (starts_keep _ _ _ _ _ Ho) |]. cbn. intros r [H1 H2] k. by apply run_writes_cover.
Qed.

(** ** What a contract can ask about the chain *)

(** The backend takes the height of the block in progress for the last one: the
    time of the last block is never found. *)
Lemma block_time_unavailable (c : list Block) s b (key : bytes) bk :
  represents c s -> is_u64 (height (header b)) -> Z.of_nat (length c) < height (header b) ->
  (handle (ctx_of s b key) last_block_timestamp bk).1 = Err (HostCustom "block") /\
  (handle (ctx_of s b key) last_block_height bk).1 = Ok (height (header b)).
Proof.
  intros Hr Hu Hlt. split; [| done]. cbn [handle ctx_of bc_height bc_store fst]. destruct (Z.eqb_spec (height (header b)) 0) as [E | _]; [lia |].
  destruct (read_missing s (height (header b))) as [e Ee]; [apply (rep_none c s Hr); [done | by right] |]. unfold chain_block in Ee.
  destruct (get_block _ _); [done | done].
Qed.
End executions.

(** ** With the acceptor *)

Section accepted.
Context `{EXT : Externals} `{SIG : Signatures} `{INFO : ContractInfo} `{ENV : !NodeEnv} `{OPS : !CurveOps} `{CORE : !CoreEnv}.
Context `{OV : SledOverlay} `{ACC : !AcceptEnv} `{PS : ProofSystem} `{RT : WasmRuntime}.

Lemma checked_at (c : list Block) (i : nat) (b : Block) :
  checked_chain (EXEC := node_executor) c -> c !! i = Some b -> exists us, executed_on (EXEC := node_executor) (drop (S i) c) b us.
Proof.
  intros Hc. revert i. induction Hc as [|c b0 us _ He _ IH]; intros i Hi; [done |]. destruct i as [|i]; cbn in Hi.
  - apply (inj Some) in Hi as <-. by exists us.
  - by apply IH.
Qed.

(** C5: every transaction on the chain was authenticated.  Whatever a new node
    with this executor is handed, each block of the chain it ends up with was
    executed on a state that held exactly the blocks below it, and there all of
    its transactions but the coinbase and the deployments of genesis passed the
    verification of proofs and signatures against what their contracts
    declared. *)
Theorem accepted_transactions_verified (n0 n : Node) :
  fresh_node n0 -> rtc (accept_step (EXEC := node_executor)) n0 n ->
  exists c, represents c (chain n) /\ forall i b, c !! i = Some b ->
    exists s key tgt o rs, represents (drop (S i) c) s /\ block_verified s b key tgt o rs.
Proof.
  intros Hf Hr. destruct (good_accepted n0 n (fresh_good n0 Hf) Hr) as [c [_ Hrep Hc _ _]]. exists c. split; [done |].
  intros i b Hi. destruct (checked_at c i b Hc Hi) as (us & s & key & tgt & leaves & ex & Hs & Ex).
  apply node_executed in Ex as (out & Ex & _). apply executed_verified in Ex as (o & rs & Hv). by exists s, key, tgt, o, rs.
Qed.
End accepted.
