(* ===== verification/ExecutionExample.v ===== *)
(** * A block executed by the node

    A runtime whose native token contract keeps the cumulative supply and whose
    other contracts declare one proof per call; a genesis block with its nine
    deployments and a second block with a transaction of three calls. *)

From Stdlib Require Import String.
From S2P Require Import Prelude F64 Units Emission Serial Externals Transaction Merkle Block Store Competing FeeEstimator.
From S2P Require Import Consensus NativeToken L1Contracts Nullifiers FeeWindow ContractRisk Supply Pedersen TokenContract TokenBalance.
From S2P Require Import TokenExample Validation Finality DarkTree CoreTx ZkVerifier ChainState Overlay Executor Backend Execution.
From S2P Require Import Ledger Acceptor Accepted Reorgs Undo AcceptExample Executions.

#[local] Existing Instance toy_proofs.
#[local] Existing Instance toy_core.

(** The coinbase adds itself to the cumulative values. *)
Definition supply_tree : bytes := hash_state_id NATIVE_TOKEN_CONTRACT_ID INFO_TREE.

Definition read_or {A : Type} (c : codec A) (d : A) (r : HRes (option bytes)) : A :=
  match r with Ok (Some raw) => match deserialize c raw with Ok a => a | Err _ => d end | _ => d end.

Definition toy_reward {I : Type} (payload : bytes) (r : I) : Guest (I * option bytes) :=
  match PoWRewardParamsV1.dec (drop 1 payload) with
  | Err _ => Done (r, None)
  | Ok p =>
      Ask (host_db_get supply_tree TOTAL_SUPPLY) (fun total =>
      Ask (host_db_get supply_tree CUMULATIVE_VALUE_COMMIT) (fun vc =>
      Ask (host_db_get supply_tree CUMULATIVE_BLIND) (fun bl =>
      let prev := {| value_commit := read_or point_codec point_identity vc; blind := read_or scalar_codec zero32 bl;
                     total_supply := read_or u64_codec 0 total |} in
      let e := compute_next prev (Output.value_commit (PoWRewardParamsV1.output p))
                 (ClearInput.value_blind (PoWRewardParamsV1.input p)) (ClearInput.value (PoWRewardParamsV1.input p)) in
      Ask (host_db_insert supply_tree TOTAL_SUPPLY (serialize u64_codec (total_supply e))) (fun _ =>
      Ask (host_db_insert supply_tree CUMULATIVE_VALUE_COMMIT (serialize point_codec (value_commit e))) (fun _ =>
      Ask (host_db_insert supply_tree CUMULATIVE_BLIND (serialize scalar_codec (blind e))) (fun _ => Done (r, Some [])))))))
  end.

Definition toy_metadata (ctx : CallCtx) : bytes :=
  let nonce := to_le_bytes 32 3 in
  if bool_decide (ctx_contract_id ctx = NATIVE_TOKEN_CONTRACT_ID) then serialize zkp_codec []
  else serialize zkp_codec [(toy_ns, [poseidon_hash [DOMAIN_TX_BINDING; ctx_commitment ctx; nonce]; nonce])].

#[local] Instance toy_runtime : WasmRuntime := {|
  Instance := CallCtx;
  runtime_new code ctx := match code with [] => None | _ => Some ctx end;
  runtime_metadata _ ctx := Done (ctx, Some (toy_metadata ctx));
  runtime_exec payload ctx := Done (ctx, Some payload);
  runtime_spend_hook _ ctx := Done (ctx, None);
  runtime_apply payload ctx :=
    if bool_decide (ctx_contract_id ctx = NATIVE_TOKEN_CONTRACT_ID) then toy_reward payload ctx else Done (ctx, Some []);
  runtime_deploy _ ctx := Done (ctx, Some []);
  take_spend_hook ctx := (ctx, None);
  remaining_points _ := Some (GAS_LIMIT - 1000)
|}.

#[local] Instance toy_metered : RuntimeMetered.
Proof. constructor. intros r rem [= <-]. unfold GAS_LIMIT. lia. Qed.

Definition deployment : Transaction := tx_of [{|
  contract_id := DEPLOYOOOR_CONTRACT_ID;
  data := [0x00] ++ encode DeployParamsV1_codec {| wasm_bincode := [7]; deploy_key := elem 41; deploy_ix := [] |} |}].

Definition started : Node :=
  {| chain := with_store (set_contracts (<[to_le_bytes 32 9 := [8]]> (contracts toy_circuits)) LinearStore_new) toy_node;
     estimator := None; returned := [] |}.

Definition first_block : Block := minted_block 1 1000 101 zero32 (repeat deployment 9).

Definition delivers (b : Block) (n : Node) : Node * ARes BlockConnectOutcome :=
  accept_block_with_mempool (EXEC := node_executor) true b [] (randomx_key (header b)) (target (header b)) n.

Definition after_first : Node := (delivers first_block started).1.
Definition second_block : Block := minted_block 2 1120 102 (toy_hash first_block) [toy_carrier 0].
Definition after_second : Node := (delivers second_block after_first).1.

(** Both blocks extend the chain. *)
Example executed_blocks :
  (delivers first_block started).2 = Ok (CanonicalExtension 1) /\ (delivers second_block after_first).2 = Ok (CanonicalExtension 2).
Proof. vm_compute. split; reflexivity. Qed.

Definition execution : list bytes * option Executed := execute_block (Executor := node_executor) (chain after_first) second_block [] zero32 u32_max.
Definition execution_result : Executed := default {| exec_overlay := overlay_empty; exec_gas := 0 |} execution.2.

Lemma some_result {A B : Type} (p : A * option B) (d : B) :
  match p.2 with Some _ => true | None => false end = true -> p = (p.1, Some (default d p.2)).
Proof. by destruct p as [a [b|]]. Qed.

Lemma execution_succeeds :
  execute_block (Executor := node_executor) (chain after_first) second_block [] zero32 u32_max = (execution.1, Some execution_result).
Proof. unfold execution_result, execution. apply some_result. vm_compute. reflexivity. Qed.

Lemma gas_metered_witness :
  exists rs urs : Z, exec_gas execution_result = rs + urs /\ 0 <= exec_gas execution_result < BLOCK_GAS_LIMIT /\ rs + urs = 4000.
Proof.
  destruct (gas_metered (chain after_first) second_block [] zero32 u32_max _ _ execution_succeeds) as (o & rs & bk & urs & _ & _ & _ & E & Hl).
  exists (total_gas_of rs), (uncle_gas urs). split; [exact E |]. split; [exact Hl |]. rewrite <- E. vm_compute. reflexivity.
Defined.

Lemma first_block_wf : Block_wf first_block.
Proof. minted_wf. Qed.
Lemma second_block_wf : Block_wf second_block.
Proof. minted_wf. Qed.

Lemma delivers_step (b : Block) (n0 n : Node) :
  rtc (accept_step (EXEC := node_executor)) n0 n -> Block_wf b -> rtc (accept_step (EXEC := node_executor)) n0 (delivers b n).1.
Proof.
  intros Hr Hw. eapply rtc_r; [exact Hr |].
  exact (deliver_block (EXEC := node_executor) n true b [] (randomx_key (header b)) (target (header b)) Hw).
Qed.

Lemma reach_after_second : rtc (accept_step (EXEC := node_executor)) started after_second.
Proof.
  exact (delivers_step second_block started after_first (delivers_step first_block started started (rtc_refl _ started) first_block_wf) second_block_wf).
Qed.

Lemma u64_two : is_u64 (Z.of_nat 2).
Proof. split; discriminate || reflexivity. Qed.

Lemma after_second_height : chain_height (chain after_second) = 2.
Proof. vm_compute. reflexivity. Qed.

Lemma after_second_stored : bool_decide (is_Some (blocks (store (chain after_second)) !! height_key (Z.of_nat 2))) = true.
Proof. vm_compute. reflexivity. Qed.

Lemma after_second_length (c : list Block) : represents c (chain after_second) -> List.length c = 2%nat.
Proof.
  intros Hc. pose proof (stored_within c (chain after_second) 2 Hc u64_two after_second_stored) as Hle.
  pose proof (rep_height _ _ Hc) as H. rewrite after_second_height in H. lia.
Qed.

Lemma accepted_transactions_verified_witness :
  exists c, represents c (chain after_second) /\ List.length c = 2%nat /\ forall i b, c !! i = Some b ->
    exists s key tgt o rs, represents (drop (S i) c) s /\ block_verified s b key tgt o rs.
Proof.
  destruct (accepted_transactions_verified started after_second) as (c & Hc & H); [| exact reach_after_second |].
  - split; [split_and!; reflexivity | reflexivity].
  - exists c. split; [exact Hc |]. split; [| exact H].
    by apply after_second_length.
Defined.
