(* ===== verification/Restart.v ===== *)
(** * What a restart recovers of the spent nullifiers

    The set of spent nullifiers lives in memory; on disk each nullifier is
    under its own key, with a kind: 0 for the claim of a coinbase or fee
    collection, 1 for a spend.  [CChainState::new] rebuilds the set from the
    entries of kind 1. *)

From S2P Require Import Prelude F64 Units Emission Serial Externals Transaction Merkle Block Store Competing.
From S2P Require Import Consensus NativeToken L1Contracts Nullifiers FeeWindow ContractRisk Supply Validation Finality ChainState Ledger.

Section restart.
Context `{EXT : Externals} `{SIG : Signatures} `{INFO : ContractInfo} `{ENV : !NodeEnv}.
Implicit Types (s : CChainState) (b : Block) (c : list Block) (t : Tree).

(** ** The nullifier tree after a block *)

Lemma insert_all_lookup {A : Type} (f : A -> bytes) (v : bytes) (l : list A) t (k : bytes) :
  foldl (fun t a => <[f a := v]> t) t l !! k = if decide (k ∈ map f l) then Some v else t !! k.
Proof.
  revert t. induction l as [|a l IH]; intros t; cbn [foldl map].
  { rewrite decide_False; [done |]. apply not_elem_of_nil. }
  rewrite IH. destruct (decide (k ∈ map f l)) as [Hin | Hout].
  { by rewrite decide_True by (by right). }
  destruct (decide (f a = k)) as [<- | Hne].
  - rewrite lookup_insert_eq, decide_True by left. done.
  - rewrite lookup_insert_ne by done. rewrite decide_False; [done |]. rewrite not_elem_of_cons. split; [congruence | done].
Qed.

Lemma delete_keys_lookup {A : Type} (ks : list bytes) (m : gmap bytes A) (k : bytes) :
  delete_keys ks m !! k = if decide (k ∈ ks) then None else m !! k.
Proof.
  unfold delete_keys. revert m. induction ks as [|x ks IH]; intros m; cbn [foldl].
  { rewrite decide_False; [done |]. apply not_elem_of_nil. }
  rewrite IH. destruct (decide (k ∈ ks)) as [Hin | Hout].
  { by rewrite decide_True by (by right). }
  destruct (decide (x = k)) as [<- | Hne].
  - rewrite lookup_delete_eq, decide_True by left. done.
  - rewrite lookup_delete_ne by done. rewrite decide_False; [done |]. rewrite not_elem_of_cons. split; [congruence | done].
Qed.

Definition tx_claims (itx : nat * Transaction) : list bytes := map snd (claims_of (itx.1 =? 0)%nat itx.2).
Definition tx_spends (itx : nat * Transaction) : list bytes := spends_of (itx.1 =? 0)%nat itx.2.

Lemma disk_tx_lookup (h : Z) (trees : Tree * Tree) (itx : nat * Transaction) (n : bytes) :
  (disk_tx h trees itx).2 !! n =
  if decide (n ∈ tx_spends itx) then Some (spend_value h)
  else if decide (n ∈ tx_claims itx) then Some (claim_value h) else trees.2 !! n.
Proof.
  unfold disk_tx, tx_spends, tx_claims. cbn [snd].
  rewrite (insert_all_lookup (fun n => n)), map_id, (insert_all_lookup snd). done.
Qed.

(** A key no transaction claims is marked exactly when some transaction spends it. *)
Lemma disk_txs_lookup (h : Z) (l : list (nat * Transaction)) (trees : Tree * Tree) (n : bytes) :
  n ∉ flat_map tx_claims l ->
  (foldl (disk_tx h) trees l).2 !! n = if decide (n ∈ flat_map tx_spends l) then Some (spend_value h) else trees.2 !! n.
Proof.
  revert trees. induction l as [|itx l IH]; intros trees Hn; cbn [foldl flat_map] in *.
  { rewrite decide_False; [done |]. apply not_elem_of_nil. }
  rewrite elem_of_app in Hn. rewrite IH by tauto. rewrite disk_tx_lookup.
  destruct (decide (n ∈ flat_map tx_spends l)) as [Hin | Hout].
  { rewrite decide_True; [done |]. apply elem_of_app. by right. }
  destruct (decide (n ∈ tx_spends itx)) as [Hin' | Hout'].
  { rewrite decide_True; [done |]. apply elem_of_app. by left. }
  rewrite !decide_False; [done | rewrite elem_of_app; tauto | tauto].
Qed.

(** A key some transaction claims and none spends holds the claim. *)
Lemma disk_txs_claimed (h : Z) (l : list (nat * Transaction)) (trees : Tree * Tree) (n : bytes) :
  n ∈ flat_map tx_claims l -> n ∉ flat_map tx_spends l ->
  (foldl (disk_tx h) trees l).2 !! n = Some (claim_value h).
Proof.
  induction l as [|itx l IH] using rev_ind; [by intros ?%not_elem_of_nil |].
  rewrite !flat_map_app, !elem_of_app, foldl_app. cbn [foldl flat_map]. rewrite !app_nil_r. intros Hc Hs.
  rewrite disk_tx_lookup, decide_False by tauto. destruct (decide (n ∈ tx_claims itx)); [done |]. apply IH; tauto.
Qed.

(** Only the first transaction is a coinbase, as block validation demands. *)
Definition coinbase_first b : Prop :=
  Forall (fun itx : nat * Transaction => itx.1 = 0%nat \/ is_pow_reward_coinbase_tx itx.2 = false) (indexed (transactions b)).

Lemma indexed_spends (l : list Transaction) (k : nat) :
  Forall (fun itx : nat * Transaction => itx.1 = 0%nat \/ is_pow_reward_coinbase_tx itx.2 = false) (combine (seq k (length l)) l) ->
  flat_map tx_spends (combine (seq k (length l)) l) = flat_map (spends_of true) l.
Proof.
  revert k. induction l as [|tx l IH]; intros k Hf; [done |]. cbn [length seq combine flat_map] in *.
  inversion Hf as [|? ? Hx Hl]; subst. rewrite IH by done. f_equal. unfold tx_spends. cbn [fst snd] in *.
  destruct Hx as [-> | Hx]; [done |]. unfold spends_of, claims_of. rewrite Hx. by destruct (k =? 0)%nat.
Qed.

Lemma disk_block_lookup (h : Z) b (trees : Tree * Tree) (n : bytes) :
  coinbase_first b -> n ∉ claimed_nullifiers b ->
  (disk_block h b trees).2 !! n = if decide (n ∈ spends b) then Some (spend_value h) else trees.2 !! n.
Proof.
  intros Hf Hn. unfold disk_block. rewrite disk_txs_lookup by exact Hn. unfold spends, indexed.
  by rewrite indexed_spends.
Qed.

Lemma extended_nullifiers b us cb sb undo s :
  exists coins, nullifiers_tree (store (extended b us cb sb undo s)) =
    (disk_block (height (header b)) b (coins, nullifiers_tree (store s))).2.
Proof.
  unfold extended, after_commit. destruct (memory_block _ _ _) as [? [? ?]]. cbn [store with_store].
  unfold commit_trees. pose proof (proj1 (before_commit_part b (adjusted b s))) as E.
  apply (f_equal (fun p => nullifiers_tree p.1.1.1.1)) in E. cbn [fst ledger_part set_risk_tree nullifiers_tree] in E.
  exists (commitment_set (store (before_commit b (adjusted b s)))). rewrite E.
  cbn [adjusted with_live store]. by destruct (disk_block _ _ _).
Qed.

(** ** The entries of kind 1 *)

Definition marked t (n : bytes) : Prop := exists v, t !! n = Some (1 :: v) /\ length v = 8%nat.

Definition readable (n : bytes) : Prop := length n = 32%nat /\ is_ok (nullifier_from_bytes n) = true.

Lemma readable_nullifier (n : bytes) : nullifier_wf n -> readable n.
Proof.
  intros [[[Hl _] Hc] Hz]. split; [done |]. unfold nullifier_from_bytes. by rewrite Hc, bool_decide_false.
Qed.

Lemma declared_readable b (n : bytes) : Block_wf b -> n ∈ block_nullifiers b -> readable n.
Proof.
  intros [_ [Hf _]] Hn. apply list_elem_of_In, in_flat_map in Hn as (tx & Htx & Hn).
  rewrite Forall_forall in Hf. apply readable_nullifier.
  destruct (Hf tx ltac:(by apply list_elem_of_In)) as (_ & _ & _ & _ & _ & [Hv _] & _).
  rewrite Forall_forall in Hv. by apply Hv, list_elem_of_In.
Qed.

Lemma restore_spent_marked t (n : bytes) : n ∈ restore_spent t <-> marked t n /\ readable n.
Proof.
  unfold restore_spent, kinded. rewrite elem_of_dom, lookup_omap. unfold marked, readable.
  destruct (filter _ t !! n) as [v|] eqn:Ef.
  - apply map_lookup_filter_Some in Ef as [Et [Hl Hr]]. cbn [fst mbind option_bind]. rewrite Et. split.
    + intros [x Hx]. destruct v as [|k rest]; [done |]. cbn in Hx. destruct (Nat.eqb_spec (length rest) 8); [| done].
      destruct (Z.eqb_spec k 1) as [-> |]; [| done]. split; [by exists rest | done].
    + intros [(v' & Ev & Hv) _]. injection Ev as ->. cbn. rewrite Hv. cbn. eauto.
  - cbn. split; [by intros [? ?] |]. intros [(v & Ev & _) [Hl Hr]]. exfalso.
    apply map_lookup_filter_None in Ef as [Ef | Ef]; [congruence |]. by apply (Ef _ Ev).
Qed.

Lemma spend_value_marked t (n : bytes) (h : Z) : t !! n = Some (spend_value h) -> marked t n.
Proof. intros E. exists (to_le_bytes 8 h). split; [done | apply to_le_bytes_length]. Qed.

Lemma claim_value_not_marked t (n : bytes) (h : Z) : t !! n = Some (claim_value h) -> ~ marked t n.
Proof. intros E (v & Ev & _). rewrite E in Ev. discriminate Ev. Qed.

(** ** Runs in which claims are fresh *)

(** A claim is neither already spent nor spent in its own block. *)
Definition claims_fresh (spent : gset bytes) b : Prop :=
  Forall (fun n => n ∉ spent /\ n ∉ spends b) (claimed_nullifiers b).

Inductive fair_step : CChainState -> CChainState -> Prop :=
| fair_connect s b us cb sb undo :
    Block_wf b -> coinbase_first b -> claims_fresh (spent_nullifiers s) b ->
    fair_step s (connect_block b us cb sb undo s).1
| fair_disconnect s h : is_u64 h -> fair_step s (disconnect_block h s).1
| fair_other s s' :
    chain_part s' = chain_part s -> nullifiers_tree (store s') = nullifiers_tree (store s) -> fair_step s s'.

Inductive claims_valid : list Block -> Prop :=
| claims_nil : claims_valid []
| claims_cons c b : claims_valid c -> claims_fresh (list_to_set (chain_spends c)) b -> claims_valid (b :: c).

Definition on_disk c s : Prop := forall n, marked (nullifiers_tree (store s)) n <-> n ∈ chain_spends c.

Lemma on_disk_append c b us cb sb undo s :
  on_disk c s -> coinbase_first b -> claims_fresh (list_to_set (chain_spends c)) b ->
  on_disk (b :: c) (extended b us cb sb undo s).
Proof.
  intros Hd Hf Hc n. destruct (extended_nullifiers b us cb sb undo s) as [coins ->].
  change (chain_spends (b :: c)) with (spends b ++ chain_spends c). rewrite elem_of_app.
  unfold claims_fresh in Hc. rewrite Forall_forall in Hc.
  destruct (decide (n ∈ claimed_nullifiers b)) as [Hin | Hout].
  - destruct (Hc n Hin) as [Hs Hb]. rewrite elem_of_list_to_set in Hs. split; [| tauto]. intros Hm. exfalso.
    eapply claim_value_not_marked; [| exact Hm]. apply disk_txs_claimed; [exact Hin |].
    unfold spends in Hb. unfold indexed. by rewrite indexed_spends.
  - unfold marked. rewrite disk_block_lookup by done. destruct (decide (n ∈ spends b)) as [Hs | Hs].
    + split; [by left |]. intros _. exists (to_le_bytes 8 (height (header b))). split; [done | apply to_le_bytes_length].
    + cbn [snd]. pose proof (Hd n) as Hdn. unfold marked in Hdn. tauto.
Qed.

Lemma on_disk_retract c b s s' :
  on_disk (b :: c) s -> claims_fresh (list_to_set (chain_spends c)) b -> extends c b ->
  nullifiers_tree (store s') =
    delete_keys (block_nullifiers b) (delete_keys (claimed_nullifiers b) (nullifiers_tree (store s))) ->
  on_disk c s'.
Proof.
  intros Hd Hc He E n. pose proof (Hd n) as Hdn. unfold marked in *. rewrite E, !delete_keys_lookup.
  change (chain_spends (b :: c)) with (spends b ++ chain_spends c) in Hdn. rewrite elem_of_app in Hdn.
  unfold claims_fresh in Hc. rewrite Forall_forall in Hc. pose proof (ext_fresh _ _ He) as Hf. rewrite Forall_forall in Hf.
  destruct (decide (n ∈ block_nullifiers b)) as [Hin | Hout].
  { split; [by intros (? & ? & _) |]. intros Hn. by destruct (Hf n Hin). }
  destruct (decide (n ∈ claimed_nullifiers b)) as [Hin' | Hout'].
  { split; [by intros (? & ? & _) |]. intros Hn. destruct (Hc n Hin') as [Hs _]. by rewrite elem_of_list_to_set in Hs. }
  rewrite Hdn. split; [| tauto]. intros [Hs | Hs]; [| done]. by apply spends_declared in Hs.
Qed.

Record recorded c s : Prop := {
  rec_valid : valid_chain c;
  rec_rep : represents c s;
  rec_claims : claims_valid c;
  rec_disk : on_disk c s
}.

Lemma recorded_step c s s' : recorded c s -> fair_step s s' -> exists c', recorded c' s'.
Proof.
  intros [Hv Hr Hc Hd] Hs. destruct Hs as [s b us cb sb undo Hw Hf Hfresh | s h Hu | s s' E En].
  - pose proof (connect_block_cases b us cb sb undo s) as Hcase.
    destruct (connect_block b us cb sb undo s) as [s' r]. cbn [fst]. destruct (is_extension r).
    + destruct Hcase as (-> & _ & Hlt & tip & Hcon). rewrite (rep_spent c s Hr) in Hfresh. exists (b :: c).
      constructor; [constructor; [done |]; by eapply connects_extends | by eapply represents_append | by constructor
                   | by apply on_disk_append].
    + destruct Hcase as [E _]. exists c. constructor; [done | | done |].
      * eapply represents_part; [by apply ledger_part_chain | done].
      * unfold on_disk. apply (f_equal (fun p => nullifiers_tree p.1.1.1.1)) in E.
        cbn [fst ledger_part set_risk_tree nullifiers_tree] in E. by rewrite E.
  - destruct (disconnect_represents c s h Hv Hr) as [[E Es] | (b & rest & -> & Hr' & En)].
    + exists c. constructor; [done | by eapply represents_part | done |]. unfold on_disk. by rewrite Es.
    + inversion Hv as [|? ? Hv' He]; subst. inversion Hc as [|? ? Hc' Hfr]; subst. exists rest.
      constructor; [done | done | done |]. by eapply on_disk_retract.
  - exists c. constructor; [done | by eapply represents_part | done |]. unfold on_disk. by rewrite En.
Qed.

Lemma recorded_restore c s : recorded c s -> restore_spent (nullifiers_tree (store s)) = spent_nullifiers s.
Proof.
  intros [_ Hr _ Hd]. rewrite (rep_spent c s Hr). apply set_eq. intros n.
  rewrite restore_spent_marked, elem_of_list_to_set, (Hd n). split; [tauto |]. intros Hn. split; [done |].
  unfold chain_spends in Hn. apply list_elem_of_In, in_flat_map in Hn as (b & Hb & Hn).
  pose proof (rep_wf c s Hr) as Hw. rewrite Forall_forall in Hw.
  apply (declared_readable b); [by apply Hw, list_elem_of_In | by apply spends_declared, list_elem_of_In].
Qed.

(** Start-up reads the nullifier tree it was given. *)
Lemma fill_targets_nullifiers (co : PoWConsensus) (st st' : LinearStore) (n : nat) (h : Z) :
  fill_targets co st n h = Ok st' -> nullifiers_tree st' = nullifiers_tree st.
Proof.
  revert st h. induction n as [|n IH]; intros st h E; cbn [fill_targets] in E; [by injection E as <- |].
  destruct (get_next_work_required co st h); [| done]. apply IH in E. rewrite E.
  by match goal with |- context [if ?x then set_targets _ _ else _] => destruct x end.
Qed.

Lemma new_spent `{SledOrder} (st : LinearStore) (tbt init mn mx : Z) (cfg : FinalityConfig) s :
  CChainState_new st tbt init mn mx cfg = Ok s -> spent_nullifiers s = restore_spent (nullifiers_tree st).
Proof.
  unfold CChainState_new. destruct (_ && _); [done |].
  match goal with |- context [fill_targets ?c ?st1 ?n ?h] => destruct (fill_targets c st1 n h) as [st2|] eqn:Ef end; [| done].
  destruct (restore_latest _); [| done]. intros E. injection E as <-. cbn [spent_nullifiers].
  apply fill_targets_nullifiers in Ef. rewrite Ef.
  by match goal with |- context [if ?x then set_consensus_tree _ _ else _] => destruct x end.
Qed.

(** ** Properties *)

(** C27: a restart recovers the spent nullifiers.  In every state reached by
    connecting and disconnecting blocks whose claims are fresh, the entries of
    kind 1 on disk are the spent set in memory, and that is what a node started
    on the same database holds. *)
Theorem restart_recovers_spent `{SledOrder} s0 s (tbt init mn mx : Z) (cfg : FinalityConfig) :
  pristine s0 -> nullifiers_tree (store s0) = ∅ -> rtc fair_step s0 s ->
  restore_spent (nullifiers_tree (store s)) = spent_nullifiers s /\
  forall s', CChainState_new (store s) tbt init mn mx cfg = Ok s' -> spent_nullifiers s' = spent_nullifiers s.
Proof.
  intros Hp H0 Hs. assert (exists c, recorded c s) as [c Hc].
  { revert s Hs. apply rtc_ind_r.
    - exists []. constructor; [constructor | by apply represents_pristine | constructor |].
      intros n. rewrite H0. split; [intros (v & Ev & _); by rewrite lookup_empty in Ev | by intros ?%not_elem_of_nil].
    - intros y z _ Hs (c & Hc). by eapply recorded_step. }
  pose proof (recorded_restore c s Hc) as E. split; [done |]. intros s' Hn. apply new_spent in Hn. by rewrite Hn.
Qed.

(** A coinbase can make a node forget a spend.  The nullifier a coinbase
    claims is chosen by its miner and need not be declared, so the replay gate
    does not see it; claiming a spent one overwrites its entry with kind 0.  The
    node that connected the block still knows the spend, one restarted on the
    same database does not. *)
Lemma claim_erases_spend s b us cb sb undo (n : bytes) :
  is_extension (connect_block b us cb sb undo s).2 = true -> coinbase_first b ->
  n ∈ spent_nullifiers s -> n ∈ claimed_nullifiers b -> n ∉ spends b ->
  let s' := (connect_block b us cb sb undo s).1 in
  n ∈ spent_nullifiers s' /\ n ∉ restore_spent (nullifiers_tree (store s')).
Proof.
  intros Hx Hf Hs Hc Hn. pose proof (connect_block_cases b us cb sb undo s) as Hcase.
  destruct (connect_block b us cb sb undo s) as [s' r]. cbn [fst snd] in *. rewrite Hx in Hcase.
  destruct Hcase as (-> & _ & Hlt & _). cbv zeta. split.
  - destruct (chain_part_inv _ _ _ _ (extended_part b us cb sb undo s Hlt)) as (_ & _ & ->). apply elem_of_union. by left.
  - rewrite restore_spent_marked. intros [Hm _]. destruct (extended_nullifiers b us cb sb undo s) as [coins E].
    rewrite E in Hm. eapply claim_value_not_marked; [| exact Hm]. apply disk_txs_claimed; [exact Hc |].
    unfold spends in Hn. unfold indexed. by rewrite indexed_spends.
Qed.
End restart.

(** ** Concrete runs *)

Definition toy_coinbase : Transaction := {|
  tx_version := 1; inputs := []; outputs := [];
  contract_calls := [{| contract_id := NATIVE_TOKEN_CONTRACT_ID;
    data := 5 :: match PoWRewardParamsV1.enc sample_coinbase with Ok bs => bs | Err _ => [] end |}];
  lock_time := 0; nullifiers := []; witness := [] |}.

Abbreviation claimed := (PoWRewardParamsV1.nullifier sample_coinbase).

Definition toy_spender : Block :=
  toy_block 2 1120 (expected_reward 2) (toy_hash toy_genesis) u32_max [toy_spend claimed].
Definition toy_claimer : Block :=
  toy_block 3 1240 (expected_reward 3) (toy_hash toy_spender) u32_max [toy_coinbase].

Definition spent_node : CChainState := (connect_block toy_spender [] (Some []) (Some []) None one_block).1.

Lemma claim_erases_spend_witness :
  let s' := (connect_block toy_claimer [] (Some []) (Some []) None spent_node).1 in
  claimed ∈ spent_nullifiers s' /\ claimed ∉ restore_spent (nullifiers_tree (store s')).
Proof.
  apply (claim_erases_spend spent_node toy_claimer [] (Some []) (Some []) None claimed).
  - vm_compute. reflexivity.
  - repeat constructor.
  - assert (has_nullifier spent_node claimed = true) as E by (vm_compute; reflexivity).
    by apply has_nullifier_spent.
  - assert (bool_decide (claimed ∈ claimed_nullifiers toy_claimer) = true) as E by (vm_compute; reflexivity).
    by apply bool_decide_eq_true in E.
  - assert (bool_decide (claimed ∈ spends toy_claimer) = false) as E by (vm_compute; reflexivity).
    by apply bool_decide_eq_false in E.
Defined.

Lemma restart_recovers_spent_witness :
  restore_spent (nullifiers_tree (store two_blocks)) = spent_nullifiers two_blocks /\
  has_nullifier two_blocks (to_le_bytes 32 77) = true.
Proof.
  split; [| vm_compute; reflexivity].
  refine (proj1 (@restart_recovers_spent _ _ _ _ scan_order toy_node two_blocks 120 u32_max 1 u32_max FinalityConfig_default toy_pristine eq_refl _)).
  apply (rtc_l _ _ one_block); [| apply rtc_once].
  - apply fair_connect; [exact toy_genesis_wf | constructor | constructor].
  - apply fair_connect; [exact toy_second_wf | repeat constructor |].
    unfold claims_fresh. assert (claimed_nullifiers toy_second = []) as -> by (vm_compute; reflexivity). constructor.
Defined.
