(* ===== verification/Maturity.v ===== *)
(** * Coinbase maturity

    The claim of a coinbase or fee collection is recorded with its height;
    [check_coinbase_maturity] refuses a block that spends one younger than
    [COINBASE_MATURITY] blocks.  The records live in a map that is pruned as the
    chain grows. *)

From S2P Require Import Prelude F64 Units Emission Serial Externals Transaction Merkle Block Store Competing.
From S2P Require Import Consensus NativeToken L1Contracts Nullifiers FeeWindow ContractRisk Supply Validation Finality ChainState Ledger Restart.

Section maturity.
Context `{EXT : Externals} `{SIG : Signatures} `{INFO : ContractInfo} `{ENV : !NodeEnv}.
Implicit Types (s : CChainState) (b : Block) (n : bytes).

(** What the node records of a block's claims. *)
Definition memory_claims b : list bytes := flat_map (fun tx => map snd (claims_of true tx)) (transactions b).

Lemma track_claims_lookup (h : Z) (cs : list (bytes * bytes)) (m : gmap bytes Z * gset bytes) n :
  (foldl (fun t cl => track_nullifier cl.2 h false t) m cs).1 !! n =
  if decide (n ∈ map snd cs) then Some h else m.1 !! n.
Proof.
  revert m. induction cs as [|cl cs IH]; intros m; cbn [foldl map].
  { rewrite decide_False; [done |]. apply not_elem_of_nil. }
  rewrite IH. destruct (decide (n ∈ map snd cs)) as [Hin | Hout].
  { by rewrite decide_True by (by right). }
  cbn [track_nullifier fst]. destruct (decide (cl.2 = n)) as [<- | Hne].
  - rewrite lookup_insert_eq, decide_True by left. done.
  - rewrite lookup_insert_ne by done. rewrite decide_False; [done |]. rewrite not_elem_of_cons. split; [congruence | done].
Qed.

Lemma memory_block_claims (h : Z) b (m : gmap bytes Z * (gmap bytes Z * gset bytes)) n :
  (memory_block h b m).2.1 !! n = if decide (n ∈ memory_claims b) then Some h else m.2.1 !! n.
Proof.
  unfold memory_block, memory_claims. revert m. induction (transactions b) as [|tx txs IH]; intros m; cbn [foldl flat_map].
  { rewrite decide_False; [done |]. apply not_elem_of_nil. }
  rewrite IH. unfold memory_tx at 1. cbn [snd fst]. rewrite track_spends. cbn [fst]. rewrite track_claims_lookup.
  destruct (decide (n ∈ flat_map _ txs)) as [Hin | Hout].
  { rewrite decide_True; [done |]. apply elem_of_app. by right. }
  destruct (decide (n ∈ map snd (claims_of true tx))) as [Hin' | Hout'].
  - rewrite decide_True; [done |]. apply elem_of_app. by left.
  - rewrite decide_False; [done |]. rewrite elem_of_app. tauto.
Qed.

Lemma prune_lookup (h : Z) (m : gmap bytes Z) n :
  prune_heights h m !! n =
  match m !! n with
  | Some k => if (COINBASE_MATURITY <? h) && (k <? h - COINBASE_MATURITY) then None else Some k
  | None => None
  end.
Proof.
  unfold prune_heights. destruct (Z.ltb_spec COINBASE_MATURITY h) as [Hlt | Hle]; cbn [andb]; [| by destruct (m !! n)].
  unfold BlockHeight.saturating_sub_blocks, saturating_sub. rewrite Z.max_l by lia.
  destruct (m !! n) as [k|] eqn:E.
  - destruct (Z.ltb_spec k (h - COINBASE_MATURITY)) as [Hk | Hk].
    + apply map_lookup_filter_None_2. right. intros x Ex. cbn. rewrite E in Ex. injection Ex as <-. lia.
    + apply map_lookup_filter_Some_2; [done | cbn; lia].
  - apply map_lookup_filter_None_2. by left.
Qed.

Lemma extended_claims b us cb sb undo s n :
  nullifier_set (extended b us cb sb undo s) !! n =
  match (if decide (n ∈ memory_claims b) then Some (height (header b)) else nullifier_set s !! n) with
  | Some k => if (COINBASE_MATURITY <? height (header b)) && (k <? height (header b) - COINBASE_MATURITY) then None else Some k
  | None => None
  end.
Proof.
  unfold extended, after_commit. set (s2 := before_commit b (adjusted b s)).
  cbn [commitments nullifier_set spent_nullifiers with_store].
  pose proof (memory_block_claims (height (header b)) b (commitments s2, (nullifier_set s2, spent_nullifiers s2)) n) as E.
  destruct (memory_block _ _ _) as [coins [nulls spent]]. cbn [fst snd] in E. cbn [nullifier_set]. rewrite prune_lookup, E.
  pose proof (proj1 (before_commit_part b (adjusted b s))) as Ep.
  by rewrite (f_equal (fun p => p.1.2) Ep : nullifier_set s2 = nullifier_set s).
Qed.

(** ** The rule holds along a chain that only grows *)

Inductive growth_step : CChainState -> CChainState -> Prop :=
| growth_connect s b us cb sb undo : growth_step s (connect_block b us cb sb undo s).1
| growth_other s s' :
    chain_height s' = chain_height s -> nullifier_set s' = nullifier_set s -> growth_step s s'.

(** The record of a claim made at [h] is there until the claim is mature. *)
Definition remembered (h : Z) n s : Prop :=
  h <= chain_height s /\
  ((exists k, nullifier_set s !! n = Some k /\ h <= k) \/ h + COINBASE_MATURITY < chain_height s).

Lemma remembered_step (h : Z) n s s' : remembered h n s -> growth_step s s' -> remembered h n s'.
Proof.
  intros [Hh Hr] Hs. destruct Hs as [s b us cb sb undo | s s' E1 E2]; [| by unfold remembered; rewrite E1, E2].
  pose proof (connect_block_cases b us cb sb undo s) as Hc. destruct (connect_block b us cb sb undo s) as [s' r]. cbn [fst].
  destruct (is_extension r).
  - destruct Hc as (-> & _ & Hlt & _).
    destruct (chain_part_inv _ _ _ _ (extended_part b us cb sb undo s Hlt)) as (_ & E & _). unfold remembered. rewrite E.
    split; [lia |]. destruct Hr as [(k & Ek & Hk) | Hr]; [| right; lia]. rewrite extended_claims.
    unfold COINBASE_MATURITY in *. destruct (decide (n ∈ memory_claims b)).
    + left. exists (height (header b)). split; [| lia]. destruct (Z.ltb_spec (height (header b)) (height (header b) - 100)); [lia |].
      by rewrite andb_false_r.
    + rewrite Ek. destruct (Z.ltb_spec k (height (header b) - 100)) as [Hlt' | _]; [right; lia | left]. rewrite andb_false_r. eauto.
  - destruct Hc as [E _]. unfold remembered.
    rewrite (f_equal (fun p => p.1.1.1.2) E : chain_height s' = chain_height s), (f_equal (fun p => p.1.2) E : nullifier_set s' = nullifier_set s).
    by split.
Qed.

Definition declares_spend b n : Prop :=
  exists tx, tx ∈ transactions b /\ is_pow_reward_coinbase_tx tx = false /\ n ∈ nullifiers tx.

Lemma maturity_refuses s b n (h k : Z) :
  declares_spend b n -> nullifier_set s !! n = Some k -> h - k < COINBASE_MATURITY ->
  check_coinbase_maturity s b h <> Ok tt.
Proof.
  intros (tx & Htx & Hc & Hn) Hk Hlt. unfold check_coinbase_maturity.
  assert (existsb (fun tx => negb (is_pow_reward_coinbase_tx tx) && existsb (immature s h) (nullifiers tx)) (transactions b) = true) as ->; [| done].
  apply existsb_exists. exists tx. split; [by apply list_elem_of_In |]. rewrite Hc. cbn [negb andb].
  apply existsb_exists. exists n. split; [by apply list_elem_of_In |]. unfold immature, nullifier_height. rewrite Hk.
  apply Z.ltb_lt. unfold saturating_sub, COINBASE_MATURITY in *. lia.
Qed.


(** ** and is forgotten by a chain that shrinks *)

Lemma disconnect_claims s (h : Z) n : nullifier_set s !! n = None -> nullifier_set (disconnect_block h s).1 !! n = None.
Proof.
  intros Hn. assert (forall ks, delete_keys ks (nullifier_set s) !! n = None) as Hd.
  { intros ks. rewrite delete_keys_lookup. by destruct (decide (n ∈ ks)). }
  unfold disconnect_block. destruct (chain_block s h) as [b|]; [| done]. destruct (negb _); [done |].
  match goal with |- context [match ?u with Ok _ => _ | Err e => (with_live _ _, _) end] => destruct u as [ops|e] end; [| done].
  destruct (rollback_cache _ _); apply Hd.
Qed.

(** A reorganization forgets immature claims.  Connecting a block drops the
    records of claims more than [COINBASE_MATURITY] below it, and disconnecting
    blocks does not bring them back: after any number of disconnects the rule
    accepts the spend at every height, also where the claim is immature again. *)
Lemma reorg_forgets_maturity b us cb sb undo s s' n (created : Z) b' (h' : Z) :
  is_extension (connect_block b us cb sb undo s).2 = true ->
  nullifier_set s !! n = Some created -> n ∉ memory_claims b ->
  COINBASE_MATURITY < height (header b) -> created < height (header b) - COINBASE_MATURITY ->
  rtc (fun s s' => exists h, s' = (disconnect_block h s).1) (connect_block b us cb sb undo s).1 s' ->
  Forall (fun tx => Forall (eq n) (nullifiers tx)) (transactions b') ->
  check_coinbase_maturity s' b' h' = Ok tt.
Proof.
  intros Hx Hn Hc Hm Hlt Hrun Hb. pose proof (connect_block_cases b us cb sb undo s) as Hcase.
  destruct (connect_block b us cb sb undo s) as [s1 r]. cbn [fst snd] in *. rewrite Hx in Hcase. destruct Hcase as (-> & _).
  assert (nullifier_set s' !! n = None) as Hs'.
  { revert s' Hrun. apply rtc_ind_r; [| intros y z _ [h ->] Hy; by apply disconnect_claims].
    rewrite extended_claims, decide_False, Hn by done. by rewrite (proj2 (Z.ltb_lt _ _) Hm), (proj2 (Z.ltb_lt _ _) Hlt). }
  unfold check_coinbase_maturity. destruct (existsb _ (transactions b')) eqn:E; [exfalso | done].
  apply existsb_exists in E as (tx & Htx & E). rewrite Forall_forall in Hb. specialize (Hb tx ltac:(by apply list_elem_of_In)).
  apply andb_true_iff in E as [_ E]. apply existsb_exists in E as (x & Hx' & E). rewrite Forall_forall in Hb.
  rewrite <- (Hb x ltac:(by apply list_elem_of_In)) in E. unfold immature, nullifier_height in E. by rewrite Hs' in E.
Qed.
End maturity.

(** ** Concrete runs *)

(** The coinbase of the second block and a spend of it in the third. *)
Definition toy_minting : Block :=
  toy_block 2 1120 (expected_reward 2) (toy_hash toy_genesis) u32_max [toy_coinbase].
Definition toy_hasty : Block :=
  toy_block 3 1240 (expected_reward 3) (toy_hash toy_minting) u32_max [toy_spend claimed].


(** A node at height 140 that holds its last two blocks, and the claim of block 40. *)
Definition toy_139 : Block := toy_block 139 1000 (expected_reward 139) zero32 u32_max [].
Definition toy_140 : Block := toy_block 140 1120 (expected_reward 140) (toy_hash toy_139) u32_max [].
Definition toy_141 : Block := toy_block 141 1240 (expected_reward 141) (toy_hash toy_140) u32_max [].

Definition node_140 : CChainState :=
  let st := insert_block 140 toy_140 (insert_block 139 toy_139 LinearStore_new) in
  let entry h t := commit_to_batch h supply_genesis t in
  {| store := {|
       blocks := blocks st; transactions_tree := ∅; contracts := ∅; uncles := ∅; consensus := ∅; commitment_set := ∅;
       nullifiers_tree := {[ claimed := claim_value 40 ]};
       supply_chain := entry 138 (entry 139 (entry 140 ∅)); block_targets := {[ height_key 140 := to_le_bytes 4 u32_max ]};
       contract_risk := ∅; contracts_undo := ∅; uncles_by_height := ∅ |};
     live := live toy_node; finality_config := finality_config toy_node; fee_window := fee_window toy_node;
     contract_risk_tracker := contract_risk_tracker toy_node; chain_height := 140; commitments := ∅;
     nullifier_set := {[ claimed := 40 ]}; spent_nullifiers := ∅; anchor_leaves := []; competing := Competing_new;
     supply_latest := None; tip_cache := None |}.

(** Three blocks down again. *)
Definition node_138 : CChainState :=
  (disconnect_block 139 (disconnect_block 140 (disconnect_block 141
    (connect_block toy_141 [] (Some []) (Some []) None node_140).1).1).1).1.

Lemma reorg_forgets_maturity_witness :
  check_coinbase_maturity node_138 (toy_block 139 1000 (expected_reward 139) zero32 u32_max [toy_spend claimed]) 139 = Ok tt /\
  chain_height node_138 = 138 /\ restore_claims (nullifiers_tree (store node_138)) !! claimed = Some 40 /\
  139 - 40 < COINBASE_MATURITY.
Proof.
  split; [| split_and!; [vm_compute; reflexivity | vm_compute; reflexivity | reflexivity]].
  apply (reorg_forgets_maturity toy_141 [] (Some []) (Some []) None node_140 _ claimed 40).
  - vm_compute. reflexivity.
  - vm_compute. reflexivity.
  - assert (memory_claims toy_141 = []) as -> by (vm_compute; reflexivity). apply not_elem_of_nil.
  - reflexivity.
  - reflexivity.
  - eapply rtc_l; [by exists 141 |]. eapply rtc_l; [by exists 140 |]. apply rtc_once. by exists 139.
  - repeat constructor.
Defined.
