(* ===== verification/Difficulty.v ===== *)
(** * The difficulty the node enforces

    The live consensus state moves with every connected block; the target a
    block must declare is derived from the stored chain, with a cache of targets
    that [connect_block] fills from the live state.  On a chain that only grows,
    by blocks that pass the uncle split and the maturity rule, the two agree for
    ever; a block refused by one of these rules parts them. *)

From S2P Require Import Prelude F64 Units Emission Serial Externals Transaction Merkle Block Store Competing.
From S2P Require Import Consensus NativeToken L1Contracts Nullifiers FeeWindow ContractRisk Supply Validation Finality ChainState Ledger Restart.

Section difficulty.
Context `{EXT : Externals} `{SIG : Signatures} `{INFO : ContractInfo} `{ENV : !NodeEnv}.
Implicit Types (s : CChainState) (b : Block) (c : list Block) (p : PoWConsensus).

(** ** The live state walks the chain *)

(** The configuration of the controller. *)
Definition settings p := (target_block_time p, min_target p, max_target p, initial_target p).

Lemma walk_step_settings p p' (st : list Z * Z) (ts : Z) :
  settings p = settings p' -> walk_step p st ts = walk_step p' st ts.
Proof. unfold settings, walk_step. intros E. injection E as -> -> -> _. done. Qed.

(** Recording a timestamp and adjusting is one step of the walk from genesis. *)
Lemma record_adjust_walk p (ts : Z) :
  let p' := (adjust_target (record_block ts p)).2 in
  (timestamps p', cur_target p') = walk_step p (timestamps p, cur_target p) ts /\ settings p' = settings p.
Proof.
  assert (timestamps (record_block ts p) = (walk_step p (timestamps p, cur_target p) ts).1) as Ew.
  { unfold record_block, walk_step. cbn [fst timestamps set_timestamps].
    rewrite length_app. cbn [length]. unfold TIMESTAMP_WINDOW.
    destruct (Nat.leb_spec 20 (length (timestamps p))), (Nat.ltb_spec 20 (length (timestamps p) + 1)); try lia; [| done].
    destruct (timestamps p); [cbn in *; lia | done]. }
  cbv zeta. destruct (Nat.le_gt_cases 2 (length (timestamps (record_block ts p)))) as [Hl | Hl].
  - rewrite adjust_target_eq by done. cbn [snd timestamps cur_target set_target]. split; [| done].
    rewrite (surjective_pairing (walk_step _ _ _)), walk_step_snd, <- Ew. cbv zeta. by rewrite (proj2 (Nat.leb_le _ _) Hl).
  - unfold adjust_target. rewrite (proj2 (Nat.ltb_lt _ _)) by lia. cbn [snd]. split; [| done].
    rewrite (surjective_pairing (walk_step _ _ _)), walk_step_snd, <- Ew. cbv zeta.
    assert ((2 <=? length (timestamps (record_block ts p)))%nat = false) as -> by (apply Nat.leb_gt; lia). done.
Qed.

(** The timestamps of a ledger, oldest first, and the walk over them. *)
Definition chain_times c : list Z := reverse (map (fun b => timestamp (header b)) c).
Definition walk p (l : list Z) : list Z * Z := foldl (walk_step p) ([], initial_target p) l.

Lemma chain_times_cons b c : chain_times (b :: c) = chain_times c ++ [timestamp (header b)].
Proof. unfold chain_times. cbn [map]. apply reverse_cons. Qed.

Lemma chain_times_length c : length (chain_times c) = length c.
Proof. unfold chain_times. by rewrite length_reverse, length_map. Qed.

Lemma walk_snoc' p (l : list Z) (ts : Z) : walk p (l ++ [ts]) = walk_step p (walk p l) ts.
Proof. unfold walk. by rewrite foldl_app. Qed.

Lemma walk_settings p p' (l : list Z) : settings p = settings p' -> walk p l = walk p' l.
Proof.
  intros E. unfold walk. assert (initial_target p = initial_target p') as -> by (by injection E).
  generalize (@nil Z, initial_target p'). induction l as [|ts l IH]; intros st; [done |]. cbn [foldl].
  by rewrite (walk_step_settings p p'), IH.
Qed.

(** ** The stored chain *)

Lemma represents_block c s (h : Z) :
  represents c s -> 1 <= h <= Z.of_nat (length c) ->
  exists b, c !! Z.to_nat (Z.of_nat (length c) - h) = Some b /\ get_block (store s) h = Ok (stored_block b).
Proof.
  intros Hr Hh. destruct (lookup_lt_is_Some_2 c (Z.to_nat (Z.of_nat (length c) - h))) as [b Eb]; [lia |]. exists b. split; [done |].
  pose proof (rep_blocks _ _ Hr _ _ Eb) as E. rewrite Z2Nat.id in E by lia.
  replace (Z.of_nat (length c) - (Z.of_nat (length c) - h)) with h in E by lia.
  assert (Block_wf b) as Hw by (eapply Forall_lookup_1; [exact (rep_wf _ _ Hr) | exact Eb]).
  pose proof (read_block s h b Hw E) as Er. unfold chain_block in Er. by destruct (get_block (store s) h); inversion Er.
Qed.

Lemma represents_present c s : represents c s -> present (store s) (length c) 1.
Proof.
  intros Hr i Hi. destruct (represents_block c s (1 + Z.of_nat i) Hr) as (b & _ & E); [lia | eauto].
Qed.

Lemma gather_chain c s (n : nat) :
  represents c s -> (n <= length c)%nat ->
  gather_timestamps (store s) n (Z.of_nat (length c) - Z.of_nat n + 1) = drop (length c - n) (chain_times c).
Proof.
  intros Hr. induction n as [|n IH]; intros Hn; cbn [gather_timestamps].
  { rewrite drop_ge; [done |]. rewrite chain_times_length. lia. }
  destruct (represents_block c s (Z.of_nat (length c) - Z.of_nat (S n) + 1) Hr) as (b & Eb & ->); [lia |].
  cbn [stored_block header stored_header timestamp].
  replace (Z.of_nat (length c) - Z.of_nat (S n) + 1 + 1) with (Z.of_nat (length c) - Z.of_nat n + 1) by lia.
  rewrite IH by lia.
  rewrite (drop_S (chain_times c) (timestamp (header b)) (length c - S n)); [do 2 f_equal; lia |].
  unfold chain_times. rewrite reverse_lookup by (rewrite length_map; lia).
  rewrite list_lookup_fmap, length_map. replace (length c - S (length c - S n))%nat with n by lia.
  replace (Z.to_nat (Z.of_nat (length c) - (Z.of_nat (length c) - Z.of_nat (S n) + 1))) with n in Eb by lia.
  by rewrite Eb.
Qed.

Lemma gather_prefix (st : LinearStore) (k n : nat) (h : Z) :
  present st n h -> (k <= n)%nat -> gather_timestamps st k h = take k (gather_timestamps st n h).
Proof.
  revert n h. induction k as [|k IH]; intros n h Hp Hk; [by rewrite take_0 |].
  destruct n as [|n]; [lia |]. apply present_tail in Hp as [[b Hb] Hp]. cbn [gather_timestamps]. rewrite Hb.
  cbn [take]. f_equal. apply IH; [done | lia].
Qed.

Lemma slow_path_chain c s p (k : nat) :
  represents c s -> (k <= length c)%nat -> slow_path p (store s) (Z.of_nat k + 1) = Ok (walk p (take k (chain_times c))).2.
Proof.
  intros Hr Hk. pose proof (represents_present c s Hr) as Hp. unfold slow_path.
  replace (Z.to_nat (Z.of_nat k + 1 - 1)) with k by lia.
  rewrite chain_walk_present by (intros i Hi; apply Hp; lia). f_equal. unfold walk. do 2 f_equal.
  rewrite (gather_prefix _ k (length c)) by done. f_equal.
  pose proof (gather_chain c s (length c) Hr (le_n _)) as E.
  by rewrite Z.sub_diag, Z.add_0_l, Nat.sub_diag, drop_0 in E.
Qed.

(** ** Agreement *)

Record in_range p : Prop := {
  range_cur : is_u32 (cur_target p);
  range_min : is_u32 (min_target p);
  range_max : is_u32 (max_target p);
  range_order : min_target p <= max_target p
}.

Record tracks c s : Prop := {
  tr_range : in_range (live s);
  tr_live : (timestamps (live s), cur_target (live s)) = walk (live s) (chain_times c);
  tr_first : cached_target (store s) 1 = None;
  tr_cache : forall (k : nat) t, (1 <= k <= length c)%nat -> is_u64 (Z.of_nat k + 1) ->
    cached_target (store s) (Z.of_nat k + 1) = Some t -> t = (walk (live s) (take k (chain_times c))).2
}.

Lemma tracks_next c s :
  represents c s -> tracks c s -> (1 <= length c)%nat -> is_u64 (Z.of_nat (length c) + 1) ->
  get_next_work_required (live s) (store s) (Z.of_nat (length c) + 1) = Ok (cur_target (live s)).
Proof.
  intros Hr [_ Hl Hf Hc] Hn Hu. set (n := length c) in *.
  assert (slow_path (live s) (store s) (Z.of_nat n + 1) = Ok (cur_target (live s))) as Hs.
  { rewrite (slow_path_chain c s (live s) n Hr (le_n _)). unfold n. rewrite <- chain_times_length, firstn_all.
    by rewrite <- Hl. }
  destruct (decide (n = 1%nat)) as [E1 | Hne].
  - rewrite <- Hs, E1. unfold get_next_work_required. cbn [Z.of_nat Z.leb]. change (cached_target _ _) with (cached_target (store s) 1).
    by rewrite Hf.
  - unfold get_next_work_required. assert (Z.of_nat n + 1 <=? BlockHeight.GENESIS = false) as -> by (unfold BlockHeight.GENESIS; lia).
    unfold BlockHeight.saturating_sub_blocks, saturating_sub. rewrite Z.max_l by lia.
    replace (Z.of_nat n + 1 - 1) with (Z.of_nat (n - 1) + 1) by lia.
    destruct (cached_target (store s) (Z.of_nat (n - 1) + 1)) as [t|] eqn:Et; [| done].
    assert (slow_path (live s) (store s) (Z.of_nat (n - 1) + 1) = Ok t) as Ht.
    { rewrite (slow_path_chain c s) by (done || lia). f_equal. symmetry. apply (Hc (n - 1)%nat); [lia | | done].
      unfold is_u in *. lia. }
    destruct (next_work_coherent (live s) (store s) (Z.of_nat n + 1) t) as [E _].
    + lia.
    + done.
    + replace (Z.to_nat (Z.of_nat n + 1 - 1)) with n by lia. by apply represents_present.
    + by replace (Z.of_nat n + 1 - 1) with (Z.of_nat (n - 1) + 1) by lia.
    + by replace (Z.of_nat n + 1 - 1) with (Z.of_nat (n - 1) + 1) by lia.
    + rewrite Hs in E. rewrite <- E. unfold get_next_work_required.
      assert (Z.of_nat n + 1 <=? BlockHeight.GENESIS = false) as -> by (unfold BlockHeight.GENESIS; lia).
      unfold BlockHeight.saturating_sub_blocks, saturating_sub. rewrite Z.max_l by lia.
      replace (Z.of_nat n + 1 - 1) with (Z.of_nat (n - 1) + 1) by lia. by rewrite Et.
Qed.

(** ** One more block *)

Lemma compute_adjustment_u32 (ts : list Z) (cur tbt mn mx : Z) :
  is_u32 cur -> is_u32 mn -> is_u32 mx -> mn <= mx -> is_u32 (compute_adjustment ts cur tbt mn mx).
Proof.
  intros Hc Hmn Hmx Ho. destruct (compute_adjustment_cases ts cur tbt mn mx) as [-> | (f & _ & ->)]; [done |].
  unfold BlockTarget.adjust. cbv zeta. pose proof (clamp_bounds
    (match checked_mul 64 cur SCALE with
     | Some product => match checked_div product f with Some ratio => wrap 32 ratio | None => cur end
     | None => cur end) mn mx Ho). unfold is_u in *. lia.
Qed.

Lemma adjusted_range p (ts : Z) : in_range p -> in_range (adjust_target (record_block ts p)).2.
Proof.
  intros [H1 H2 H3 H4]. destruct (record_adjust_walk p ts) as [Ew Es]. injection Es as _ E1 E2 _.
  constructor; rewrite ?E1, ?E2; try done. apply (f_equal snd) in Ew. cbn [snd] in Ew. rewrite Ew, walk_step_snd. cbv zeta.
  cbn [snd]. destruct (2 <=? _)%nat; [by apply compute_adjustment_u32 | done].
Qed.

Lemma extended_live b us cb sb undo s :
  live (extended b us cb sb undo s) =
  add_block_work (target (header b)) (adjust_target (record_block (timestamp (header b)) (live s))).2.
Proof.
  unfold extended, after_commit. destruct (memory_block _ _ _) as [? [? ?]]. cbn [live with_store].
  by rewrite (proj1 (proj2 (before_commit_part b (adjusted b s)))).
Qed.

Lemma extended_targets b us cb sb undo s :
  block_targets (store (extended b us cb sb undo s)) =
  <[height_key (BlockHeight.succ (height (header b))) := BlockTarget.bytes (cur_target (live (extended b us cb sb undo s)))]>
    (block_targets (store s)).
Proof.
  rewrite extended_live. unfold extended, after_commit. destruct (memory_block _ _ _) as [? [? ?]]. cbn [store with_store].
  unfold commit_trees. destruct (disk_block _ _ _). cbn [block_targets].
  pose proof (before_commit_part b (adjusted b s)) as (E & El & _).
  apply (f_equal (fun q => block_targets q.1.1.1.1)) in E. cbn [fst ledger_part set_risk_tree block_targets] in E.
  rewrite E, El. done.
Qed.

Lemma cached_insert (st : LinearStore) (t : Tree) (h t0 : Z) :
  block_targets st = <[height_key h := BlockTarget.bytes t0]> t -> is_u32 t0 ->
  forall x, cached_target st h = Some x -> x = t0.
Proof.
  intros E Hu x. unfold cached_target. rewrite E, lookup_insert_eq. unfold BlockTarget.bytes.
  rewrite to_le_bytes_length. cbn [Nat.eqb]. rewrite le_bytes_roundtrip by done. destruct (0 <? t0); [congruence | done].
Qed.

(** The successor of a height is no height of the chain below it. *)
Lemma succ_beyond (n : nat) (h : Z) : is_u64 (Z.of_nat n + 1) -> 1 <= h <= Z.of_nat n + 1 -> h <> BlockHeight.succ (Z.of_nat n + 1).
Proof.
  unfold BlockHeight.succ, wrap, is_u. intros Hu Hh.
  destruct (decide (Z.of_nat n + 1 + 1 < 2 ^ 64)); [rewrite Z.mod_small; lia |].
  replace (Z.of_nat n + 1 + 1) with (1 * 2 ^ 64) by lia. rewrite Z.mod_mul; lia.
Qed.

Lemma tracks_append c b us cb sb undo tip s :
  represents c s -> connects b us tip s -> Block_wf b -> chain_height s < height (header b) ->
  tracks c s -> tracks (b :: c) (extended b us cb sb undo s).
Proof.
  intros Hr Hcon Hw Hlt [Hrg Hl Hf Hc]. pose proof (connects_height c b us tip s Hr Hcon Hw Hlt) as Hh.
  pose proof (extended_live b us cb sb undo s) as El. pose proof (extended_targets b us cb sb undo s) as Et.
  set (s' := extended b us cb sb undo s) in *.
  destruct (record_adjust_walk (live s) (timestamp (header b))) as [Ew Es]. cbv zeta in Ew, Es.
  assert (settings (live s') = settings (live s)) as Es' by (rewrite El; exact Es).
  assert ((timestamps (live s'), cur_target (live s')) = walk (live s) (chain_times (b :: c))) as Ew'.
  { rewrite El. cbn [add_block_work set_work timestamps cur_target]. rewrite Ew, chain_times_cons, walk_snoc'. by rewrite Hl. }
  assert (in_range (live s')) as Hrg'.
  { rewrite El. destruct (adjusted_range (live s) (timestamp (header b)) Hrg). by constructor. }
  assert (is_u64 (height (header b))) as Hu by (by destruct Hw as [(_ & _ & _ & _ & _ & _ & Hu & _) _]).
  assert (forall h, is_u64 h -> h <> BlockHeight.succ (height (header b)) -> cached_target (store s') h = cached_target (store s) h) as Hsame.
  { intros h Hhu Hne. unfold cached_target. rewrite Et, lookup_insert_ne; [done |]. intros Ek. apply height_key_inj in Ek; [done | | done].
    apply wrap_is_u. lia. }
  assert (is_u64 1) as Hu1 by (unfold is_u; lia).
  constructor.
  - done.
  - rewrite Ew'. by apply walk_settings.
  - rewrite Hsame; [done | done |]. rewrite Hh in *. apply succ_beyond; [done | lia].
  - intros k t Hk Hku Ecache. cbn [length] in Hk. rewrite (walk_settings (live s') (live s)) by done.
    destruct (decide (k = S (length c))) as [-> | Hne].
    + assert (BlockHeight.succ (height (header b)) = Z.of_nat (S (length c)) + 1) as Esucc.
      { unfold BlockHeight.succ. rewrite Hh. rewrite wrap_small; [lia |]. unfold is_u in *. lia. }
      rewrite Esucc in Et. rewrite (cached_insert _ _ _ _ Et (range_cur _ Hrg') t Ecache).
      rewrite take_ge by (rewrite chain_times_length; cbn [length]; lia). by rewrite <- Ew'.
    + rewrite Hsame in Ecache; [| done |].
      * rewrite (Hc k t) by (done || lia). do 2 f_equal. rewrite chain_times_cons, take_app_le; [done |]. rewrite chain_times_length. lia.
      * rewrite Hh in *. apply succ_beyond; [done | lia].
Qed.

Lemma tracks_same c s s' (work : Z) :
  block_targets (store s') = block_targets (store s) -> live s' = set_work work (live s) -> tracks c s -> tracks c s'.
Proof.
  intros Et El [[H1 H2 H3 H4] Hl Hf Hc].
  assert (forall l, walk (live s') l = walk (live s) l) as Hw by (intros l; apply walk_settings; by rewrite El).
  assert (forall h, cached_target (store s') h = cached_target (store s) h) as Hs by (intros h; unfold cached_target; by rewrite Et).
  constructor.
  - rewrite El. by constructor.
  - rewrite Hw, <- Hl. by rewrite El.
  - by rewrite Hs.
  - intros k t Hk Hu. rewrite Hs, Hw. by apply Hc.
Qed.

(** ** Runs *)

(** A node before its first block, difficulty included. *)
Definition fresh s : Prop :=
  pristine s /\ block_targets (store s) = ∅ /\ in_range (live s) /\
  timestamps (live s) = [] /\ cur_target (live s) = initial_target (live s).

(** The chain grows by blocks that pass the uncle split and the maturity rule;
    any other block that is offered is refused by another rule. *)
Inductive clean_step : CChainState -> CChainState -> Prop :=
| clean_connect s b us cb sb undo :
    Block_wf b -> is_ok (pre_commit_checks b us (adjusted b s)) = true -> clean_step s (connect_block b us cb sb undo s).1
| clean_other s s' work :
    chain_part s' = chain_part s -> block_targets (store s') = block_targets (store s) ->
    live s' = set_work work (live s) -> clean_step s s'.

Definition in_step c s : Prop := represents c s /\ tracks c s /\ chain_height s = Z.of_nat (length c).

Lemma clean_in_step c s s' : in_step c s -> clean_step s s' -> exists c', in_step c' s'.
Proof.
  intros (Hr & Ht & Hh) Hs. destruct Hs as [s b us cb sb undo Hw Hp | s s' work Ec Et El].
  - pose proof (connect_block_cases b us cb sb undo s) as Hc. destruct (connect_block b us cb sb undo s) as [s' r]. cbn [fst].
    destruct (is_extension r).
    + destruct Hc as (-> & _ & Hlt & tip & Hcon). exists (b :: c). split_and!;
        [by eapply represents_append | by eapply tracks_append |].
      destruct (chain_part_inv _ _ _ _ (extended_part b us cb sb undo s Hlt)) as (_ & -> & _).
      rewrite (connects_height c b us tip s) by done. cbn [length]. lia.
    + destruct Hc as [E Hlive]. exists c.
      assert (exists work, live s' = set_work work (live s)) as [work El].
      { assert (set_work (accumulated_work (live s)) (live s) = live s) as Eid by (by destruct (live s)).
        destruct r as [o|e]; [by eexists; rewrite Eid |]. destruct Hlive as [_ [El | [(e' & Ee & _) | [_ El]]]]; [by eexists; rewrite Eid | | done].
        by rewrite Ee in Hp. }
      split_and!; [by eapply represents_part; [apply ledger_part_chain |] | | ].
      * eapply tracks_same; [exact (f_equal (fun q => block_targets q.1.1.1.1) E) | exact El | done].
      * by rewrite (f_equal (fun q => q.1.1.1.2) E : chain_height s' = chain_height s).
  - exists c. split_and!; [by eapply represents_part | by eapply tracks_same |].
    by rewrite (f_equal (fun q => q.1.2) Ec : chain_height s' = chain_height s).
Qed.

Lemma fresh_in_step s : fresh s -> in_step [] s.
Proof.
  intros (Hp & Et & Hr & Ew & Ec). split_and!; [by apply represents_pristine | | apply Hp].
  assert (forall h, cached_target (store s) h = None) as Hn by (intros h; unfold cached_target; by rewrite Et, lookup_empty).
  constructor; [done | by rewrite Ew, Ec | apply Hn |]. intros k t Hk. cbn [length] in Hk. lia.
Qed.

(** C26: the live difficulty is the chain's.  Along any run of a fresh node that
    only grows the chain, and in which every block offered to [connect_block]
    passes the uncle split and the maturity rule, accepted or refused for another
    reason, the target [connect_block] requires of the
    next block is the live target, and both are what the walk over all stored
    blocks from genesis gives: the cache changes nothing. *)
Theorem live_target_is_required s0 s :
  fresh s0 -> rtc clean_step s0 s -> 1 <= chain_height s -> is_u64 (chain_height s + 1) ->
  get_next_work_required (live s) (store s) (chain_height s + 1) = Ok (cur_target (live s)) /\
  slow_path (live s) (store s) (chain_height s + 1) = Ok (cur_target (live s)).
Proof.
  intros Hf Hs. assert (exists c, in_step c s) as (c & Hr & Ht & ->).
  { revert s Hs. apply rtc_ind_r; [exists []; by apply fresh_in_step |]. intros y z _ Hs (c & Hc). by eapply clean_in_step. }
  intros Hn Hu. split; [apply tracks_next; [done | done | lia | done] |].
  rewrite (slow_path_chain c s (live s) (length c) Hr (le_n _)), <- chain_times_length, firstn_all. by rewrite <- (tr_live _ _ Ht).
Qed.
End difficulty.

(** ** Concrete runs *)

Definition T0 : Z := 0xE0000000.
Definition toy_start : CChainState := with_live (PoWConsensus_new 120 T0 1 u32_max) toy_node.

Lemma toy_start_fresh : fresh toy_start.
Proof. by split_and!. Qed.

(** Offer a block with the supply entry its execution writes. *)
Definition offer (b : Block) (s : CChainState) : CChainState :=
  (connect_block b [] (Some []) (Some [(height_key (height (header b)), Some (to_bytes supply_genesis))]) None s).1.

Definition link (h ts tgt : Z) (parent : Block) (txs : list Transaction) : Block :=
  toy_block h ts (expected_reward h) (toy_hash parent) tgt txs.

Definition m2 : Block := link 2 1120 T0 toy_genesis [toy_coinbase].
Definition m3_hasty : Block := link 3 1121 T0 m2 [toy_spend claimed].
Definition m3 : Block := link 3 1240 T0 m2 [].
Definition m4 : Block := link 4 1360 T0 m3 [].

Ltac concrete_link := unfold toy_genesis, m2, m3_hasty, m3, m4, link; concrete_block.

Lemma run_offer (b : Block) (s0 s : CChainState) : Block_wf b -> rtc node_step s0 s -> rtc node_step s0 (offer b s).
Proof. intros Hw Hs. eapply rtc_r; [exact Hs |]. by apply node_connect. Qed.

Ltac run :=
  repeat match goal with
  | |- rtc _ _ (offer _ _) => apply run_offer; [concrete_link |]
  end; constructor.

Definition required (s : CChainState) : Res Z := get_next_work_required (live s) (store s) (chain_height s + 1).

(** Two nodes with the same three blocks on top of genesis; one of them was
    offered an immature spend in between. *)
Definition calm_node : CChainState := offer m4 (offer m3 (offer m2 (offer toy_genesis toy_start))).
Definition disturbed_node : CChainState := offer m4 (offer m3 (offer m3_hasty (offer m2 (offer toy_genesis toy_start)))).

Lemma calm_run : rtc node_step toy_start calm_node.
Proof. unfold calm_node. run. Qed.
Lemma disturbed_run : rtc node_step toy_start disturbed_node.
Proof. unfold disturbed_node. run. Qed.

(** A refused block can split the network.  Two nodes start alike and hold
    the same blocks, the same height and the same spent nullifiers; one of them
    was once offered a block with an immature spend and refused it.  The refusal
    left its timestamp in the live state, a later block wrote the target into
    the cache, and now the two require different targets of the next block. *)
Lemma refused_block_splits_nodes :
  exists s s', rtc node_step toy_start s /\ rtc node_step toy_start s' /\ chain_part s = chain_part s' /\
    required s = Ok 3758096384 /\ required s' = Ok 3105864780.
Proof.
  exists calm_node, disturbed_node. split_and!; [exact calm_run | exact disturbed_run | vm_compute; reflexivity ..].
Qed.

Lemma live_target_is_required_witness :
  chain_height calm_node = 4 /\
  get_next_work_required (live calm_node) (store calm_node) (chain_height calm_node + 1) = Ok (cur_target (live calm_node)) /\
  slow_path (live calm_node) (store calm_node) (chain_height calm_node + 1) = Ok (cur_target (live calm_node)).
Proof.
  split; [vm_compute; reflexivity |].
  apply (live_target_is_required toy_start calm_node toy_start_fresh).
  - unfold calm_node. repeat (eapply rtc_r; [| apply clean_connect; [concrete_link | vm_compute; reflexivity]]).
    constructor.
  - vm_compute. discriminate.
  - split; vm_compute; [discriminate | reflexivity].
Defined.
